(* ===== verification/_CoqProject ===== *)
-Q . S2P
Prelude.v
Merkle.v
Messages.v
Bridge.v
BridgeInv.v
BridgeProps.v
Relayer.v
Economics.v
Domains.v
Registry.v
Constitution.v
Governance.v
GovernanceProps.v
Commitments.v
SettleProps.v
Ledger.v
Supply.v
LedgerProps.v
Chain.v
ChainProps.v
Rlp.v
Mpt.v
Evm.v
EvmProps.v
Isa.v
Vm.v
Goldilocks.v
VmProps.v
Compiler.v
CompilerSem.v
CompilerCode.v
CompilerGen.v
CompilerLink.v
CompilerMachine.v
CompilerSim.v
Parser.v
ParserTotal.v
ParserPrint.v
Sema.v
SemaProps.v
CompilerProps.v
Bpqs.v
BpqsProps.v
Poseidon2.v
Poseidon2Props.v
Erasure.v
ErasureField.v
ErasureMatrix.v
ErasureProps.v
Manifest.v
ObjectProps.v
ManifestProps.v
Mempool.v
MempoolProps.v
Finality.v
FinalityBase.v
FinalityProps.v
