(* ===== verification/Prelude.v ===== *)
(** * Budlum: a verification development

    Budlum is a settlement chain for several consensus domains.  This library
    models the parts of it that hold money or decide what the chain believes
    about the outside, and proves what makes them correct.  Definitions follow
    the Rust sources function by function and keep their names; every
    definition can be evaluated.

    ** The program and its parts

    - The ledger ([src/core/account.rs], [src/execution/executor.rs]) keeps
      balances, stake, unbonding, role bonds and burns; [src/tokenomics] and
      [src/chain/fee_market.rs] are its arithmetic.
    - The permissionless registry ([src/registry]) keeps stake-backed roles and
      slashes them on evidence; governance ([src/core/governance.rs]) changes
      parameters within the guardrails of the constitution
      ([src/core/constitution.rs]).
    - Consensus domains ([src/domain]) commit their blocks to the chain, which
      stages, orders and applies the commitments and freezes a domain that
      contradicts itself ([src/chain/blockchain.rs],
      [src/registry/quarantine_ledger.rs]).
    - Assets move between domains over the bridge
      ([src/cross_domain/bridge.rs]): a lock emits a message, the message or a
      proof of its event is relayed ([relayer.rs]), the target side mints,
      burns and the source side unlocks.  Replays are refused by nonces
      ([nonce.rs]) and by the message registry; [Blockchain] drives all of it.
    - Deposits of Ethereum are believed on proof ([src/cross_domain/evm]): RLP,
      Merkle-Patricia tries, header chains and sync committees.
    - Validators finalise checkpoints ([src/chain/finality.rs]): they vote in
      two rounds, an aggregator turns a quorum into a certificate and reports
      double signing to the registry.  Transactions wait in the mempool
      ([src/mempool/pool.rs]).
    - Content is stored as erasure-coded shards under a manifest that the chain
      holds ([src/storage/erasure.rs], [manifest.rs]).
    - The cold committee signs with hash-based keys, one per epoch of the chain
      ([crates/bpqs]).
    - Contracts run on the BudZero machine ([budzero/bud-isa],
      [budzero/bud-vm]), whose trace the prover takes; the compiler of their
      language is [budzero/bud-compiler].

    ** Files

    - [Prelude]: results and their notation, machine integers, bytes, ordered
      maps, generic lemmas and tactics.
    - [Merkle]: [MerkleTree], the tree of [consensus/merkle_tree.rs]; class
      [Sha256] and [Settlement], the tagged hashing of
      [settlement/commitment_tree.rs].
    - [Messages]: modules [Message], [Event], [Nonce], [MessageRegistry], one
      per file of [cross_domain].
    - [Bridge], [BridgeInv], [BridgeProps]: the state machine of [bridge.rs],
      its runs and custody invariant, its theorems.
    - [Relayer]: pending relays and the relay ledger.
    - [Economics]: modules [Tokenomics], [RewardPool], [FeeMarket], [Penalty].
    - [Domains]: modules [Domain], [Commitment], [Verifier]; [Commitments]:
      [Quarantine], and [Settle], the commitment methods of [Blockchain], with
      runs in [SettleRun]; [SettleProps]: their theorems.
    - [Registry]: [Role], [Params], [Evidence], [Registry] and theorems.
    - [Constitution]: the constitution, and the encryption policy of
      [pollen/data_rights.rs].
    - [Governance], [GovernanceProps]: [Update] parses and validates, and
      [Governance] has proposals and votes; [Host] is the part of the account
      state that applied proposals write.
    - [Ledger], [Supply], [LedgerProps]: the money of the account state, what
      each operation does to the supply, and the cap.
    - [Chain], [ChainProps]: the bridge methods of [Blockchain], which compose
      [Ledger], [Commitments], [Messages], [Bridge] and [Relayer].
    - [Rlp], [Mpt], [Evm], [EvmProps]: Ethereum deposits; classes [Keccak] and
      [Bls] stand for the hash and curve crates.
    - [Isa], [Vm], [Goldilocks], [VmProps]: the BudZero machine; [Goldilocks]
      is the arithmetic of its field.
    - [Compiler]: [Ast] and [Codegen], the code generator with its mutable
      state, patched jumps and errors; [CompilerSem]: [Sem], what a contract
      means, and [Scalar], the part of the language the generator is right on;
      [CompilerCode]: the code as a compositional function with symbolic calls;
      [CompilerGen], [CompilerLink]: the generator produces that code;
      [CompilerMachine]: the machine steps the code needs, done by [Vm];
      [CompilerSim]: the simulation.  [Parser]: tokens and the recursive
      descent parser as a monad; [ParserTotal]: it returns; [ParserPrint]: a
      printer it inverts.  [Sema]: the semantic analyzer, and [Compile], which
      composes the passes; [SemaProps]: the typing rules and what acceptance
      gives the generator.  [CompilerProps]: the theorems about the compiler.
    - [Bpqs], [BpqsProps]: [Frame], [Params], [Epoch], [Wots], [EpochTree] and
      [BpqsSign], one per file of the crate, against the class [BpqsHash];
      [Poseidon2], [Poseidon2Props]: the backend that implements the class
      (field arithmetic, permutation, sponge) and [Shake256].
    - [Erasure]: [Gf], [GfMatrix], [ErasureScheme] and [ReedSolomon], the coder;
      [ErasureField] and [ErasureMatrix] are the algebra behind it (the bytes
      as a field, Cauchy systems, Gauss-Jordan elimination), [ErasureProps] its
      theorems.  [Manifest]: [ContentId], [Source], [Manifest] and [Objects],
      with [ObjectProps] and [ManifestProps].
    - [Mempool], [MempoolProps]: the pool and its three indexes; class [PoolTx]
      is what it reads of a transaction.
    - [Finality], [FinalityBase], [FinalityProps]: validator sets, votes,
      aggregator and certificates; class [Bls12381] is the pairing crate with
      the group laws.

    Files ending in [Props] hold runs, invariants and theorems; a module
    [...Examples] evaluates each theorem on a concrete input.

    ** What the theorems show

    - Money: the committed supply and the escrow never exceed the cap except by
      the relayed unlock, whose inflation is itself a theorem; custody of
      bridged assets, one mint per message, exact sweeps, a cycle that closes;
      the bridge root commits to the bridge.
    - Composition: the chain refines the bridge state machine whatever methods
      it runs; what is relayed or minted from an event was committed by its
      domain; a relay is spent once.
    - Domains: one commitment per height, a parent-linked applied prefix,
      termination of the loop that applies them, what an equivocation does.
    - Governance: a proposal runs once, after its window, majority, quorum and
      delay; no passed proposal stops a block or leaves the guardrails.
    - Registry: stake is cut only on an actionable report; a slash is final.
    - Ethereum: the RLP decoder accepts exactly a grammar and inverts the
      encoder; an accepted trie proof agrees with the trie and enough nodes are
      accepted; an accepted deposit is in a block with confirmations or a
      sync-committee quorum, its replay key names one deposit, and no receipt
      of a real block is accepted.
    - BudZero: a step never panics and keeps the types, errors are exactly the
      stated ones and leave the rest of the state alone, every run returns, the
      trace replays and accounts for the gas, gated opcodes never run on
      mainnet; the field inverse inverts and Poseidon permutes.
    - Compiler: it returns a program or an error on every list of tokens; the
      parser reads back what is printed; the analyzer accepts exactly the
      well-typed contracts; the program compiled from a contract of the scalar
      language has, on the machine, the effects the contract means: storage,
      writes, events, and a failed assertion for a failed constraint.  Outside
      that language four forms are compiled wrongly, and the wrong programs are
      exhibited.
    - Signatures: a signature verifies for the message, height and key it was
      made for; another that verifies at that height is the same, or contains a
      preimage under a chain the signer has opened.  The branch-free Poseidon2
      is the permutation of the paper, permutes, and the sponge absorbs
      different inputs differently.
    - Finality: two conflicting certificates share signers with more than a
      third of the stake; the certificate of an aggregator verifies; a quorum
      of votes is enough whatever else arrives; double signing is reported
      exactly, once, with evidence the registry accepts.
    - Storage: any [k] of the [n] shards give the object back, a corrupted
      survivor is skipped when a spare is left, and what is returned is the
      object the manifest names; the manifest id commits to the manifest up to
      one stated exception.
    - Mempool: the indexes agree and the limits hold after any operations,
      every refusal is the stated one, blocks are filled by fee; the case in
      which a refused transaction has evicted another is a theorem.

    ** Conventions

    Unsigned integers are [Z] with their range as a side condition and with
    the saturating, checked or wrapping operation of the source written out; a
    [usize] has 64 bits.  Byte strings are lists of [Z].  [BTreeMap] and
    [HashMap] are [gmap]; where the source iterates over a [BTreeMap] the model
    does so in key order.  A method that mutates and may fail returns its
    result and the state it leaves, errors included.  A panic is [None] where
    the code could panic.

    Loops have fuel only where the recursion is not structural, and the fuel
    is proved to be enough: the burn catch-up runs once per outstanding year;
    the commitment loop at most once per staged commitment ([accept_terminates]);
    the layers of a Merkle tree or of an SSZ root shrink at each round, so the
    number of leaves or chunks bounds them; an RLP list takes at least one byte
    per item and nests 32 deep; a trie walk has 128 levels; a virtual machine
    run has at most one step per unit of gas and one more ([vm_run_returns]);
    slicing an object takes at least one byte per shard; the epoch tree halves
    its levels; the chunks of a slice are at most its length.  The evaluator of
    contracts has fuel because a contract may loop; the compiler theorem is
    about the outcomes it gives.  The parser has the number of tokens and the
    nesting limit as fuel, and more gives the same result ([compile_returns]).

    ** Parameters

    SHA-256, SHA3-256, Keccak-256, BLS12-381, [bincode] and the decoding of
    compressed points are third-party crates and appear as classes or
    arguments.  Theorems that need it assume that the hash does not collide on
    the finitely many inputs of the run in question, or that digests have 32
    bytes; the examples instantiate them with concrete functions.

    ** Not modelled

    Networking, RPC, storage of blocks on disk, the command line and the build
    harnesses are input and output.  Other signature schemes and the prover are
    wrappers of libraries.  Consensus engines, post-quantum quorum
    certificates, fork choice, storage deals, the generators and derivations of
    content, the proof market, external domain intake and plugins, the scanner
    of the compiler (generated by a macro) and its unused intermediate
    representation, the BudZero state tree, the AI, naming, social and privacy
    layers, and the transaction types beside transfer, stake, unstake and
    governance are not modelled yet. *)
From stdpp Require Import base tactics numbers list gmap strings sorting.
From Stdlib Require Import ZArith Lia ZifyNat.

Open Scope Z_scope.

(** ** Results

    A Rust [Result<A, E>].  A [&mut self] method that can fail returns the
    pair of its [result] and the state it leaves behind, because an early
    [return Err(..)] does not undo a mutation that came before it. *)
Inductive result (E A : Type) : Type :=
  | Ok (a : A)
  | Err (e : E).
Arguments Ok {E A} a.
Arguments Err {E A} e.

Definition is_ok {E A} (r : result E A) : bool :=
  match r with Ok _ => true | Err _ => false end.

Definition result_map_err {E F A} (f : E → F) (r : result E A) : result F A :=
  match r with Ok a => Ok a | Err e => Err (f e) end.

(** [Option::ok_or]. *)
Definition ok_or {E A} (o : option A) (e : E) : result E A :=
  match o with Some a => Ok a | None => Err e end.

Declare Scope rust_scope.
Delimit Scope rust_scope with rust.
Open Scope rust_scope.

(** [let x = r?;] in a function that returns a bare result. *)
Notation "'let?' x ':=' r 'in' k" :=
  (match r with Ok x => k | Err e => Err e end)
  (at level 10, x pattern, r at level 100, k at level 200) : rust_scope.

(** [let x = r?;] in a method whose state at that point is [s]. *)
Notation "'let?' x ':=' r 'at' s 'in' k" :=
  (match r with Ok x => k | Err e => (Err e, s) end)
  (at level 10, x pattern, r at level 100, s at level 100, k at level 200) : rust_scope.

(** ** Machine integers

    Unsigned integers are [Z] with their range as a side condition; the
    arithmetic of the source is written out at its width. *)
Definition u32_max : Z := 2 ^ 32 - 1.
Definition u64_max : Z := 2 ^ 64 - 1.
Definition u128_max : Z := 2 ^ 128 - 1.
Definition i128_max : Z := 2 ^ 127 - 1.
Definition i128_min : Z := - 2 ^ 127.

Definition u32 (x : Z) : Prop := 0 ≤ x ≤ u32_max.
Definition u64 (x : Z) : Prop := 0 ≤ x ≤ u64_max.
Definition u128 (x : Z) : Prop := 0 ≤ x ≤ u128_max.

(** [saturating_add], [saturating_sub] and [saturating_mul] of [u64] and
    [u128]; [saturating_add] and [saturating_mul] of [i128]. *)
Definition u64_sat_add (a b : Z) : Z := Z.min (a + b) u64_max.
Definition sat_sub (a b : Z) : Z := Z.max (a - b) 0.
Definition u64_sat_mul (a b : Z) : Z := Z.min (a * b) u64_max.
Definition u128_sat_add (a b : Z) : Z := Z.min (a + b) u128_max.
Definition u128_sat_mul (a b : Z) : Z := Z.min (a * b) u128_max.
Definition i128_sat (x : Z) : Z := Z.max i128_min (Z.min x i128_max).

(** [checked_add] of [u64]. *)
Definition u64_checked_add (a b : Z) : option Z :=
  if a + b <=? u64_max then Some (a + b) else None.

(** [x as u64] from a wider unsigned type truncates. *)
Definition as_u64 (x : Z) : Z := x mod 2 ^ 64.

(** [u64::try_from] of a wider unsigned value. *)
Definition u64_try_from (x : Z) : option Z :=
  if x <=? u64_max then Some x else None.

Ltac unfold_ints :=
  unfold u32, u64, u128, u64_sat_add, sat_sub, u64_sat_mul, u128_sat_add,
    u128_sat_mul, i128_sat, u64_checked_add, u64_try_from, as_u64 in *;
  unfold u32_max, u64_max, u128_max, i128_max, i128_min in *.

(** [lia] after the widths are unfolded. *)
Ltac int_lia := unfold_ints; lia.

(** [lia] for goals with division and modulus by constants. *)
Ltac div_lia := zify; Z.to_euclidean_division_equations; lia.

Create HintDb ints.

Lemma u64_sat_add_range a b : 0 ≤ a → 0 ≤ b → u64 (u64_sat_add a b).
Proof. int_lia. Qed.

Lemma u64_sat_add_small a b : a + b ≤ u64_max → u64_sat_add a b = a + b.
Proof. int_lia. Qed.

Lemma u64_checked_add_Some a b c : u64_checked_add a b = Some c → c = a + b.
Proof. unfold u64_checked_add. by case_match; intros [= <-]. Qed.

Lemma sat_sub_range a b : u64 a → 0 ≤ b → u64 (sat_sub a b).
Proof. int_lia. Qed.

Lemma sat_sub_small a b : b ≤ a → sat_sub a b = a - b.
Proof. int_lia. Qed.

Lemma as_u64_small x : u64 x → as_u64 x = x.
Proof. intros. apply Z.mod_small. int_lia. Qed.

#[export] Hint Resolve u64_sat_add_range sat_sub_range : ints.

(** A product of two [u64] values fits in a [u128]. *)
Lemma u64_mul_u128 a b : u64 a → u64 b → u128 (a * b).
Proof. unfold_ints. nia. Qed.

(** A quotient of a nonnegative number by a positive one stays below it. *)
Lemma div_le_self a b : 0 ≤ a → 0 < b → 0 ≤ a / b ≤ a.
Proof.
  intros. split; [apply Z.div_pos; lia |]. apply Z.div_le_upper_bound; nia.
Qed.

(** Scaling by a ratio that is at most one does not increase. *)
Lemma mul_div_le a r s : 0 ≤ a → 0 ≤ r ≤ s → 0 < s → 0 ≤ a * r / s ≤ a.
Proof.
  intros. split; [apply Z.div_pos; nia |]. apply Z.div_le_upper_bound; nia.
Qed.

(** ** Bytes

    A byte string is the list of its bytes as [Z]; [[u8; 32]] values
    (addresses, hashes, asset and message ids) are byte strings of length
    32. *)
Abbreviation bytes := (list Z).

(** [to_le_bytes] of an [n]-byte unsigned integer. *)
Fixpoint le_bytes (n : nat) (x : Z) : bytes :=
  match n with
  | O => []
  | S n => x mod 256 :: le_bytes n (x / 256)
  end.

(** The bytes of a byte-string literal [b"..."]. *)
Definition bstr (s : string) : bytes :=
  (λ a, Z.of_N (Ascii.N_of_ascii a)) <$> String.list_ascii_of_string s.

(** [[0u8; 32]]. *)
Definition zero32 : bytes := replicate 32 0.

Lemma length_le_bytes n x : length (le_bytes n x) = n.
Proof. revert x; induction n; intros; simpl; auto. Qed.

Lemma le_bytes_are_bytes n x : Forall (λ b, 0 ≤ b < 256) (le_bytes n x).
Proof. revert x; induction n as [|n IH]; intros x; constructor; [apply Z.mod_pos_bound; lia|apply IH]. Qed.

Lemma le_bytes_inj n x y :
  0 ≤ x < 256 ^ Z.of_nat n → 0 ≤ y < 256 ^ Z.of_nat n →
  le_bytes n x = le_bytes n y → x = y.
Proof.
  revert x y. induction n as [|n IH]; intros x y Hx Hy Heq.
  - change (256 ^ Z.of_nat 0) with 1 in *. lia.
  - simpl in Heq. injection Heq as Hmod Hdiv.
    rewrite Nat2Z.inj_succ, Z.pow_succ_r in Hx, Hy by lia.
    apply IH in Hdiv.
    + rewrite (Z.div_mod x 256), (Z.div_mod y 256) by lia. congruence.
    + split; [apply Z.div_pos; lia | apply Z.div_lt_upper_bound; lia].
    + split; [apply Z.div_pos; lia | apply Z.div_lt_upper_bound; lia].
Qed.

Lemma le_bytes8_inj x y : u64 x → u64 y → le_bytes 8 x = le_bytes 8 y → x = y.
Proof. intros. eapply (le_bytes_inj 8); eauto; int_lia. Qed.

Lemma le_bytes4_inj x y : u32 x → u32 y → le_bytes 4 x = le_bytes 4 y → x = y.
Proof. intros. eapply (le_bytes_inj 4); eauto; int_lia. Qed.

#[global] Arguments le_bytes : simpl never.
#[global] Arguments bstr : simpl never.

(** ** Ordered maps

    A [BTreeMap<K, V>] is a [gmap K V]; code that iterates over one visits
    the entries in increasing key order, which [btree_list] computes. *)
Class KeyOrd (K : Type) := key_leb : K → K → bool.

#[export] Instance Z_key_ord : KeyOrd Z := Z.leb.

(** The lexicographic order of byte arrays. *)
Fixpoint bytes_leb (x y : bytes) : bool :=
  match x, y with
  | [], _ => true
  | _ :: _, [] => false
  | a :: x, b :: y => if a =? b then bytes_leb x y else a <? b
  end.

#[export] Instance bytes_key_ord : KeyOrd bytes := bytes_leb.

#[export] Instance pair_key_ord {A B} `{KeyOrd A, KeyOrd B} : KeyOrd (A * B) :=
  λ p q,
    if key_leb p.1 q.1
    then if key_leb q.1 p.1 then key_leb p.2 q.2 else true
    else false.

Definition entry_le {K V} `{KeyOrd K} (p q : K * V) : Prop :=
  key_leb p.1 q.1 = true.

#[export] Instance entry_le_dec {K V} `{KeyOrd K} : RelDecision (@entry_le K V _).
Proof. intros p q. unfold entry_le. apply _. Defined.

Definition btree_list {K V} `{Countable K, KeyOrd K} (m : gmap K V) : list (K * V) :=
  merge_sort entry_le (map_to_list m).

Definition btree_values {K V} `{Countable K, KeyOrd K} (m : gmap K V) : list V :=
  (btree_list m).*2.

Section btree.
Context {K V : Type} `{Countable K, KeyOrd K}.
Implicit Types m : gmap K V.

Lemma btree_list_perm m : btree_list m ≡ₚ map_to_list m.
Proof. apply merge_sort_Permutation. Qed.

Lemma elem_of_btree_list m k v : (k, v) ∈ btree_list m ↔ m !! k = Some v.
Proof. rewrite btree_list_perm. apply elem_of_map_to_list. Qed.

Lemma elem_of_btree_values m v : v ∈ btree_values m ↔ ∃ k, m !! k = Some v.
Proof.
  unfold btree_values. rewrite list_elem_of_fmap. split.
  - intros ([k w] & -> & Hin). exists k. by apply elem_of_btree_list.
  - intros (k & Hk). exists (k, v). by rewrite elem_of_btree_list.
Qed.

Lemma btree_list_nodup_keys m : NoDup (btree_list m).*1.
Proof. rewrite btree_list_perm. apply NoDup_fst_map_to_list. Qed.

Lemma btree_list_inj m1 m2 : btree_list m1 = btree_list m2 → m1 = m2.
Proof.
  intros Heq. apply map_to_list_inj.
  by rewrite <-(btree_list_perm m1), <-(btree_list_perm m2), Heq.
Qed.

Lemma length_btree_list m : length (btree_list m) = size m.
Proof. by rewrite btree_list_perm, length_map_to_list. Qed.
End btree.

(** [entry(k).or_default().push(v)] on a map of vectors. *)
Definition queue_push {K V} `{Countable K} (m : gmap K (list V)) (k : K) (v : V) :
    gmap K (list V) :=
  <[k := default [] (m !! k) ++ [v]]> m.

(** ** Lists *)

(** Induction two elements at a time. *)
Lemma list_pair_ind {A} (P : list A → Prop) :
  P [] → (∀ x, P [x]) → (∀ x y l, P l → P (x :: y :: l)) → ∀ l, P l.
Proof.
  intros Hnil Hone Hcons l.
  enough (P l ∧ ∀ x, P (x :: l)) by tauto.
  induction l as [|y l [IH1 IH2]]; split; auto.
Qed.

(** Two lists of two parts each, told apart by a property of the elements. *)
Lemma app_inj_partition {A} (P : A → Prop) (l1 l2 k1 k2 : list A) :
  Forall P l1 → Forall P k1 → Forall (λ x, ¬ P x) l2 → Forall (λ x, ¬ P x) k2 →
  l1 ++ l2 = k1 ++ k2 → l1 = k1 ∧ l2 = k2.
Proof.
  intros Hl1. revert k1. induction Hl1 as [|x l1 Hx _ IH]; intros k1 Hk1 Hl2 Hk2 Heq.
  - destruct k1 as [|y k1]; [done|]. simpl in Heq. subst l2.
    apply Forall_cons in Hk1 as [Hy _], Hl2 as [Hny _]. done.
  - destruct k1 as [|y k1]; simpl in Heq.
    + subst k2. apply Forall_cons in Hk2 as [Hnx _]. done.
    + injection Heq as -> Heq. apply Forall_cons in Hk1 as [_ Hk1].
      destruct (IH k1) as [-> ->]; done.
Qed.

(** Mapping is injective on lists whose elements the map tells apart. *)
Lemma fmap_inj_on {A B} (f : A → B) (P : A → Prop) (l k : list A) :
  (∀ x y, P x → P y → f x = f y → x = y) →
  Forall P l → Forall P k → f <$> l = f <$> k → l = k.
Proof.
  intros Hinj Hl. revert k. induction Hl as [|x l Hx _ IH]; intros [|y k] Hk Heq; try done.
  apply Forall_cons in Hk as [Hy Hk]. simpl in Heq. injection Heq as Hxy Heq.
  f_equal; [by apply Hinj|by apply IH].
Qed.

(** An invariant of a [for] loop. *)
Lemma fold_left_inv {A B} (P : A → Prop) (f : A → B → A) (l : list B) (a : A) :
  (∀ a x, x ∈ l → P a → P (f a x)) → P a → P (fold_left f l a).
Proof.
  revert a. induction l as [|x l IH]; intros a Hf Ha; [done|]. simpl. apply IH.
  - intros. apply Hf; [by right|done].
  - apply Hf; [by left|done].
Qed.

(** A filter is shorter than a weaker one that keeps an element more. *)
Lemma length_filter_lt {A} (P Q : A → Prop) `{!∀ x, Decision (P x), !∀ x, Decision (Q x)}
    (l : list A) x :
  (∀ y, P y → Q y) → x ∈ l → Q x → ¬ P x → (length (filter P l) < length (filter Q l))%nat.
Proof.
  intros HPQ Hin HQ HP.
  assert (∀ k : list A, (length (filter P k) ≤ length (filter Q k))%nat) as Hle.
  { intros k. induction k as [|y k IH]; [done|]. rewrite !filter_cons.
    repeat case_decide; simpl; try lia. exfalso; auto. }
  induction Hin as [x l|x y l Hin IH]; rewrite !filter_cons.
  - specialize (Hle l). repeat case_decide; simpl; try done; lia.
  - repeat case_decide; simpl; try lia. exfalso; auto.
Qed.

(** What every step preserves holds along a run. *)
Lemma rtc_preserve {A} (R : relation A) (P : A → Prop) :
  (∀ x y, R x y → P x → P y) → ∀ x y, rtc R x y → P x → P y.
Proof. intros HR x y Hr. induction Hr; eauto. Qed.

(** ** Sums *)
Definition sumZ (l : list Z) : Z := foldr Z.add 0 l.

Lemma sumZ_cons x l : sumZ (x :: l) = x + sumZ l.
Proof. done. Qed.

Lemma sumZ_app l k : sumZ (l ++ k) = sumZ l + sumZ k.
Proof. induction l; simpl; lia. Qed.

#[export] Instance sumZ_proper : Proper ((≡ₚ) ==> (=)) sumZ.
Proof. intros l k Hp. unfold sumZ. induction Hp; simpl; lia. Qed.

Lemma sumZ_nonneg l : Forall (λ x, 0 ≤ x) l → 0 ≤ sumZ l.
Proof. induction 1; simpl; lia. Qed.

(** The sum of a measure over the values of a map. *)
Definition map_sum {K V} `{Countable K} (f : V → Z) (m : gmap K V) : Z :=
  sumZ (f <$> (map_to_list m).*2).

Section map_sum.
Context {K V : Type} `{Countable K} (f : V → Z).
Implicit Types m : gmap K V.

Lemma map_sum_empty : map_sum f (∅ : gmap K V) = 0.
Proof. unfold map_sum. by rewrite map_to_list_empty. Qed.

Lemma map_sum_insert_new m k v :
  m !! k = None → map_sum f (<[k := v]> m) = f v + map_sum f m.
Proof. intros Hk. unfold map_sum. by rewrite map_to_list_insert. Qed.

Lemma map_sum_delete m k v :
  m !! k = Some v → map_sum f m = f v + map_sum f (delete k m).
Proof.
  intros Hk. rewrite <-(insert_delete_id m k v Hk) at 1.
  apply map_sum_insert_new, lookup_delete_eq.
Qed.

Lemma map_sum_insert_upd m k v v' :
  m !! k = Some v → map_sum f (<[k := v']> m) = map_sum f m - f v + f v'.
Proof.
  intros Hk. rewrite <-insert_delete_eq, map_sum_insert_new by apply lookup_delete_eq.
  rewrite (map_sum_delete m k v Hk). lia.
Qed.

Lemma map_sum_btree `{KeyOrd K} m : sumZ (f <$> btree_values m) = map_sum f m.
Proof. unfold map_sum, btree_values. by rewrite btree_list_perm. Qed.

Lemma map_sum_nonneg m : (∀ k v, m !! k = Some v → 0 ≤ f v) → 0 ≤ map_sum f m.
Proof.
  intros Hf. apply sumZ_nonneg, Forall_fmap, Forall_forall. intros v Hv.
  apply list_elem_of_fmap in Hv as ([k w] & -> & Hin).
  apply elem_of_map_to_list in Hin. by apply Hf in Hin.
Qed.
Lemma map_sum_mono m1 m2 :
  (∀ k, match m1 !! k, m2 !! k with
        | Some x, Some y => f x ≤ f y
        | None, None => True
        | _, _ => False
        end) → map_sum f m1 ≤ map_sum f m2.
Proof.
  revert m2. induction m1 as [|k x m1 Hk IH] using map_ind; intros m2 Hle.
  - destruct (decide (m2 = ∅)) as [->|[k [y Hy]]%map_choose]; [done|].
    specialize (Hle k). by rewrite lookup_empty, Hy in Hle.
  - pose proof (Hle k) as Hx. rewrite lookup_insert_eq in Hx.
    destruct (m2 !! k) as [y|] eqn:Hy; [|done].
    rewrite map_sum_insert_new, (map_sum_delete m2 k y Hy) by done.
    cut (map_sum f m1 ≤ map_sum f (delete k m2)); [lia|]. apply IH. intros k'.
    destruct (decide (k = k')) as [<-|Hne]; [by rewrite Hk, lookup_delete_eq|].
    specialize (Hle k'). rewrite lookup_insert_ne in Hle by done.
    by rewrite lookup_delete_ne by done.
Qed.

Lemma map_sum_ext m1 m2 : (∀ k, f <$> m1 !! k = f <$> m2 !! k) → map_sum f m1 = map_sum f m2.
Proof.
  intros Heq. apply Z.le_antisymm; apply map_sum_mono; intros k; specialize (Heq k);
    destruct (m1 !! k), (m2 !! k); simplify_eq/=; lia.
Qed.
End map_sum.

(** ** Proof steps shared by the components *)

(** The step that opens an operation in a hypothesis and keeps the branch that
    is consistent with its stated outcome. *)
Ltac inv_op H :=
  repeat (first
    [ progress simplify_eq/=
    | match type of H with
      | context [match ?x with _ => _ end] => destruct x eqn:?
      end ]).
