(* ===== verification/Merkle.v ===== *)
(** * Merkle commitments

    [src/core/hash.rs], [src/consensus/merkle_tree.rs] and
    [src/settlement/commitment_tree.rs].

    [MerkleTree] is the shape-only tree of [consensus::merkle_tree], over an
    arbitrary digest type with a binary [combine] and a unary [promote], as
    the source keeps it independent of the hash.  [Settlement] is the tagged
    SHA-256 binding every settlement root goes through.  The theorems: layer
    construction terminates in one root, every proof the prover emits rebuilds
    that root, the settlement root is binding on the whole leaf list, and an
    inclusion proof that verifies names a leaf of the tree. *)
From stdpp Require Import base tactics numbers list gmap strings.
From Stdlib Require Import ZArith Lia ZifyNat.
From S2P Require Import Prelude.

(** ** The tree shape *)
Module MerkleTree.
Section tree.
Context {A : Type}.
Context (combine : A → A → A) (promote : A → A).

Definition merkle_sibling_index (index layer_len : nat) : nat :=
  if Nat.even index then Nat.min (index + 1) (layer_len - 1) else (index - 1)%nat.

(** The [while i < layer.len()] loop of [merkle_parent_layer]; every pass
    advances [i] by two, so the layer's length is enough fuel. *)
Fixpoint parent_loop (fuel i : nat) (layer : list A) : list A :=
  match fuel with
  | O => []
  | S fuel =>
      match layer !! i with
      | None => []
      | Some x =>
          match layer !! (i + 1)%nat with
          | Some y => combine x y
          | None => promote x
          end :: parent_loop fuel (i + 2) layer
      end
  end.

Definition merkle_parent_layer (layer : list A) : list A :=
  parent_loop (length layer) 0 layer.

(** The [while layers.last().len() > 1] loop of [merkle_layers]. *)
Fixpoint layers_loop (fuel : nat) (current : list A) : list (list A) :=
  current ::
    match fuel with
    | O => []
    | S fuel =>
        if (1 <? length current)%nat
        then layers_loop fuel (merkle_parent_layer current)
        else []
    end.

Definition merkle_layers (leaves : list A) : list (list A) :=
  match leaves with
  | [] => []
  | _ => layers_loop (length leaves) leaves
  end.

(** *** Layers *)

(** The pairwise reading of a parent layer. *)
Fixpoint pair_up (layer : list A) : list A :=
  match layer with
  | x :: y :: rest => combine x y :: pair_up rest
  | [x] => [promote x]
  | [] => []
  end.

Lemma parent_loop_pair_up fuel i layer :
  (length layer ≤ 2 * fuel + i)%nat →
  parent_loop fuel i layer = pair_up (drop i layer).
Proof.
  revert i. induction fuel as [|fuel IH]; intros i Hlen; simpl.
  - by rewrite drop_ge by lia.
  - destruct (layer !! i) as [x|] eqn:Hi.
    + rewrite (drop_S layer x i Hi), IH by lia.
      destruct (layer !! (i + 1)%nat) as [y|] eqn:Hi1.
      * replace (i + 1)%nat with (S i) in Hi1 by lia.
        rewrite (drop_S layer y (S i) Hi1).
        by replace (i + 2)%nat with (S (S i)) by lia.
      * apply lookup_ge_None in Hi1.
        rewrite (drop_ge _ (i + 2)), (drop_ge _ (S i)) by lia. done.
    + apply lookup_ge_None in Hi. by rewrite drop_ge by lia.
Qed.

Lemma merkle_parent_layer_pair_up layer :
  merkle_parent_layer layer = pair_up layer.
Proof. unfold merkle_parent_layer. rewrite parent_loop_pair_up by lia. done. Qed.

Lemma length_pair_up layer : length (pair_up layer) = ((length layer + 1) / 2)%nat.
Proof.
  induction layer as [| |x y l IH] using list_pair_ind; try done.
  cbn [pair_up length]. rewrite IH. div_lia.
Qed.

Lemma length_parent_lt layer :
  (1 < length layer)%nat →
  (0 < length (merkle_parent_layer layer) < length layer)%nat.
Proof.
  intros Hlen. rewrite merkle_parent_layer_pair_up, length_pair_up.
  div_lia.
Qed.

(** The layer loop ends with a single-node layer: the fuel never runs out. *)
Lemma layers_loop_root fuel current :
  (0 < length current ≤ S fuel)%nat →
  ∃ r, last (layers_loop fuel current) = Some [r].
Proof.
  revert current. induction fuel as [|fuel IH]; intros current Hlen; simpl.
  - destruct current as [|x [|]]; simpl in *; try lia. by exists x.
  - destruct (Nat.ltb_spec 1 (length current)) as [Hlt|].
    + destruct (IH (merkle_parent_layer current)) as [r Hr].
      { pose proof (length_parent_lt _ Hlt). lia. }
      exists r. rewrite last_cons, Hr. done.
    + destruct current as [|x [|]]; simpl in *; try lia. by exists x.
Qed.

Context (zero sentinel : A).

Definition merkle_root (leaves : list A) : A :=
  default zero (last (merkle_layers leaves) ≫= head).

(** [idx] is the tail of an odd layer: it was promoted, not paired. *)
Definition promoted_at (idx layer_len : nat) : bool :=
  Nat.even idx && (layer_len <=? idx + 1)%nat.

Definition layer_sibling (layer : list A) (idx : nat) : A :=
  nth (merkle_sibling_index idx (length layer)) layer zero.

Fixpoint proof_loop (layers : list (list A)) (idx : nat) : list A :=
  match layers with
  | [] => []
  | layer :: rest =>
      (if promoted_at idx (length layer) then sentinel else layer_sibling layer idx)
      :: proof_loop rest (idx / 2)%nat
  end.

Definition merkle_proof (leaves : list A) (leaf_index : nat) : option (list A) :=
  if (length leaves =? 0)%nat || (length leaves <=? leaf_index)%nat then None
  else
    let layers := merkle_layers leaves in
    Some (proof_loop (take (length layers - 1) layers) leaf_index).

Fixpoint rebuild_loop (layers : list (list A)) (idx : nat) (cur : A) : A :=
  match layers with
  | [] => cur
  | layer :: rest =>
      let cur :=
        if promoted_at idx (length layer) then promote cur
        else
          let sibling := layer_sibling layer idx in
          if Nat.even idx then combine cur sibling else combine sibling cur in
      rebuild_loop rest (idx / 2)%nat cur
  end.

Definition merkle_rebuild_root (leaves : list A) (leaf_index : nat) : option A :=
  if (length leaves =? 0)%nat || (length leaves <=? leaf_index)%nat then None
  else
    let layers := merkle_layers leaves in
    Some (rebuild_loop (take (length layers - 1) layers) leaf_index
            (nth leaf_index leaves zero)).

Context `{EqDecision A}.

Fixpoint merkle_root_from_proof (leaf : A) (index : nat) (siblings : list A) : A :=
  match siblings with
  | [] => leaf
  | sibling :: rest =>
      let cur :=
        if decide (sibling = sentinel) then promote leaf
        else if Nat.even index then combine leaf sibling
        else combine sibling leaf in
      merkle_root_from_proof cur (index / 2)%nat rest
  end.

(** *** Walking up *)

(** The parent of node [idx] is what the walk computes from it. *)
Lemma pair_up_lookup layer idx x :
  layer !! idx = Some x →
  pair_up layer !! (idx / 2)%nat =
    Some (if promoted_at idx (length layer) then promote x
          else if Nat.even idx then combine x (layer_sibling layer idx)
          else combine (layer_sibling layer idx) x).
Proof.
  revert idx. induction layer as [|y|y z l IH] using list_pair_ind; intros idx Hidx.
  - done.
  - destruct idx as [|idx]; [|by destruct idx]. by simplify_eq/=.
  - destruct idx as [|[|idx]]; try by simplify_eq/=.
    replace (S (S idx) / 2)%nat with (S (idx / 2))%nat by div_lia.
    change (pair_up (y :: z :: l) !! S (idx / 2)) with (pair_up l !! (idx / 2)%nat).
    rewrite (IH idx Hidx). f_equal.
    unfold promoted_at, layer_sibling, merkle_sibling_index.
    change (Nat.even (S (S idx))) with (Nat.even idx).
    cbn [length].
    destruct (Nat.even idx) eqn:Hev; cbn [andb].
    + destruct (Nat.leb_spec (length l) (idx + 1)),
        (Nat.leb_spec (S (S (length l))) (S (S idx) + 1)); try lia; [done|].
      replace (Nat.min (S (S idx) + 1) (S (S (length l)) - 1))
        with (S (S (Nat.min (idx + 1) (length l - 1)))) by lia. done.
    + destruct idx as [|idx]; [done|].
      by replace (S (S (S idx)) - 1)%nat with (S (S (S idx - 1))) by lia.
Qed.

Lemma take_init_cons {B} (x : B) (l : list B) :
  l ≠ [] → take (length (x :: l) - 1) (x :: l) = x :: take (length l - 1) l.
Proof. destruct l as [|y l]; [done|]. intros _. simpl. by rewrite Nat.sub_0_r. Qed.

Lemma layers_loop_nonempty fuel current : layers_loop fuel current ≠ [].
Proof. by destruct fuel. Qed.

(** Walking up from node [idx] with its digest reaches the root. *)
Lemma rebuild_loop_root fuel layer idx x :
  (length layer ≤ S fuel)%nat → layer !! idx = Some x →
  last (layers_loop fuel layer) =
    Some [rebuild_loop
            (take (length (layers_loop fuel layer) - 1) (layers_loop fuel layer))
            idx x].
Proof.
  revert layer idx x.
  induction fuel as [|fuel IH]; intros layer idx x Hlen Hidx; cbn [layers_loop].
  - destruct layer as [|y [|]]; simpl in *; try lia; [done|].
    destruct idx; by simplify_eq/=.
  - destruct (Nat.ltb_spec 1 (length layer)) as [Hlt|Hge].
    + pose proof (pair_up_lookup layer idx x Hidx) as Hup.
      rewrite <-merkle_parent_layer_pair_up in Hup.
      apply IH in Hup; [|pose proof (length_parent_lt _ Hlt); lia].
      pose proof (take_init_cons layer _
        (layers_loop_nonempty fuel (merkle_parent_layer layer))) as Htake.
      rewrite last_cons, Hup.
      rewrite Htake. done.
    + destruct layer as [|y [|]]; simpl in *; try lia; [done|].
      destruct idx; by simplify_eq/=.
Qed.

Lemma merkle_rebuild_root_spec leaves leaf_index :
  (leaf_index < length leaves)%nat →
  merkle_rebuild_root leaves leaf_index = Some (merkle_root leaves).
Proof.
  intros Hlt. unfold merkle_rebuild_root, merkle_root.
  destruct leaves as [|y l]; [simpl in Hlt; lia|].
  destruct (Nat.leb_spec (length (y :: l)) leaf_index) as [|]; [lia|].
  cbn [length Nat.eqb orb].
  destruct (lookup_lt_is_Some_2 (y :: l) leaf_index Hlt) as [x Hx].
  pose proof (rebuild_loop_root (length (y :: l)) (y :: l) leaf_index x
    ltac:(lia) Hx) as Hroot.
  unfold merkle_layers. cbn [length] in Hroot |- *. rewrite Hroot. cbv zeta.
  by rewrite (nth_lookup_Some _ _ _ _ Hx).
Qed.

(** *** Proofs *)
Lemma sibling_in_layer layer idx :
  (idx < length layer)%nat → promoted_at idx (length layer) = false →
  layer_sibling layer idx ∈ layer.
Proof.
  unfold promoted_at, layer_sibling, merkle_sibling_index. intros Hlt Hprom.
  rewrite list_elem_of_In. apply nth_In.
  destruct (Nat.even idx); simpl in Hprom; [|lia].
  apply Nat.leb_gt in Hprom. lia.
Qed.

(** Below the root no digest of the tree is the promotion marker, so the
    verifier takes the branch the prover took. *)
Lemma from_proof_rebuild fuel layer idx x :
  (length layer ≤ S fuel)%nat → (idx < length layer)%nat →
  Forall (λ l, sentinel ∉ l) (layers_loop fuel layer) →
  let layers := take (length (layers_loop fuel layer) - 1) (layers_loop fuel layer) in
  merkle_root_from_proof x idx (proof_loop layers idx) = rebuild_loop layers idx x.
Proof.
  revert layer idx x. induction fuel as [|fuel IH]; intros layer idx x Hlen Hidx Hs.
  { done. }
  cbn [layers_loop] in *.
  destruct (Nat.ltb_spec 1 (length layer)) as [Hlt|]; [|done].
  apply Forall_cons in Hs as [Hs Hrest].
  rewrite take_init_cons by apply layers_loop_nonempty.
  cbn [proof_loop rebuild_loop merkle_root_from_proof].
  assert (idx / 2 < length (merkle_parent_layer layer))%nat.
  { rewrite merkle_parent_layer_pair_up, length_pair_up. div_lia. }
  pose proof (length_parent_lt _ Hlt).
  destruct (promoted_at idx (length layer)) eqn:Hprom.
  - rewrite decide_True by done. apply IH; [lia|done|done].
  - rewrite decide_False.
    + apply IH; [lia|done|done].
    + intros Heq. apply Hs. rewrite <-Heq. by apply sibling_in_layer.
Qed.

Lemma merkle_proof_complete leaves leaf_index leaf :
  leaves !! leaf_index = Some leaf →
  Forall (λ l, sentinel ∉ l) (merkle_layers leaves) →
  ∃ siblings, merkle_proof leaves leaf_index = Some siblings ∧
    merkle_root_from_proof leaf leaf_index siblings = merkle_root leaves.
Proof.
  intros Hleaf Hs. apply lookup_lt_Some in Hleaf as Hlt.
  destruct leaves as [|y l]; [done|].
  pose proof (rebuild_loop_root (length (y :: l)) (y :: l) leaf_index leaf
    ltac:(lia) Hleaf) as Hroot.
  unfold merkle_proof, merkle_root, merkle_layers in *.
  destruct (Nat.leb_spec (length (y :: l)) leaf_index) as [|]; [lia|].
  cbn [length Nat.eqb orb].
  eexists; split; [done|].
  pose proof (from_proof_rebuild (length (y :: l)) (y :: l) leaf_index leaf
    ltac:(lia) Hlt Hs) as Hwalk.
  cbn [length] in *. by rewrite Hwalk, Hroot.
Qed.

Lemma merkle_root_last leaves :
  leaves ≠ [] → last (merkle_layers leaves) = Some [merkle_root leaves].
Proof.
  intros Hne. unfold merkle_root.
  destruct (layers_loop_root (length leaves) leaves) as [r Hr].
  { destruct leaves; [done|simpl; lia]. }
  destruct leaves; [done|]. unfold merkle_layers. by rewrite Hr.
Qed.
End tree.

(** *** The shape does not look at the digests

    A map that commutes with [combine] and [promote] commutes with the whole
    construction. *)
Section hom.
Context {A B : Type} (f : A → B).
Context (combine : A → A → A) (promote : A → A).
Context (combine' : B → B → B) (promote' : B → B).
Context (Hcombine : ∀ x y, f (combine x y) = combine' (f x) (f y)).
Context (Hpromote : ∀ x, f (promote x) = promote' (f x)).

Lemma pair_up_hom l :
  f <$> pair_up combine promote l = pair_up combine' promote' (f <$> l).
Proof.
  induction l as [|x|x y l IH] using list_pair_ind.
  - done.
  - cbn. by rewrite Hpromote.
  - cbn [pair_up]. rewrite !fmap_cons, Hcombine, IH. done.
Qed.

Lemma layers_loop_hom fuel l :
  (fmap f : list A → list B) <$> layers_loop combine promote fuel l =
  layers_loop combine' promote' fuel (f <$> l).
Proof.
  revert l. induction fuel as [|fuel IH]; intros l; [done|].
  cbn [layers_loop]. rewrite fmap_cons, length_fmap.
  destruct (1 <? length l)%nat; [|done].
  rewrite IH, !merkle_parent_layer_pair_up, pair_up_hom. done.
Qed.

Lemma merkle_root_hom zero zero' l :
  l ≠ [] →
  f (merkle_root combine promote zero l) = merkle_root combine' promote' zero' (f <$> l).
Proof.
  intros Hne.
  pose proof (merkle_root_last combine promote zero l Hne) as H1.
  pose proof (merkle_root_last combine' promote' zero' (f <$> l)
    ltac:(by destruct l)) as H2.
  assert (merkle_layers combine' promote' (f <$> l) =
    (fmap f : list A → list B) <$> merkle_layers combine promote l) as Hlayers.
  { destruct l as [|x l]; [done|]. unfold merkle_layers at 2.
    rewrite layers_loop_hom. unfold merkle_layers.
    by rewrite fmap_cons; cbn [length]; rewrite length_fmap. }
  rewrite Hlayers, fmap_last, H1 in H2. by simplify_eq/=.
Qed.
End hom.
End MerkleTree.

(** ** Field hashing

    SHA-256 is the [sha2] crate: a parameter of the model, of which the only
    law used is its digest length. *)
Class Sha256 := {
  sha256 : bytes → bytes;
  sha256_length : ∀ x, length (sha256 x) = 32%nat;
}.

(** The byte stream [hash_fields_bytes] feeds the hasher: every field is
    preceded by its length as a [u64]. *)
Fixpoint encode_fields (fields : list bytes) : bytes :=
  match fields with
  | [] => []
  | f :: fs => le_bytes 8 (Z.of_nat (length f)) ++ f ++ encode_fields fs
  end.

Definition hash_fields_bytes `{Sha256} (fields : list bytes) : bytes :=
  sha256 (encode_fields fields).

Definition calculate_hash_bytes `{Sha256} (data : bytes) : bytes := sha256 data.

Definition presence_tagged (root : option bytes) : bytes :=
  match root with
  | Some r => 1 :: r
  | None => replicate 33 0
  end.

(** A field list whose lengths fit the prefix. *)
Definition fields_ok (fields : list bytes) : Prop :=
  Forall (λ f, Z.of_nat (length f) ≤ u64_max) fields.

(** No two distinct byte strings of [xs] share a digest. *)
Definition collision_free `{Sha256} (xs : list bytes) : Prop :=
  ∀ x y, x ∈ xs → y ∈ xs → sha256 x = sha256 y → x = y.

#[export] Instance fields_ok_dec fs : Decision (fields_ok fs).
Proof. unfold fields_ok. apply _. Defined.

(** Length prefixes make the encoding unambiguous. *)
Lemma encode_fields_inj fs gs :
  fields_ok fs → fields_ok gs → encode_fields fs = encode_fields gs → fs = gs.
Proof.
  revert gs. induction fs as [|f fs IH]; intros [|g gs] Hfs Hgs Heq; try done.
  apply Forall_cons in Hfs as [Hf Hfs], Hgs as [Hg Hgs]. cbn [encode_fields] in Heq.
  apply app_inj_1 in Heq as [Hlen Heq]; [|by rewrite !length_le_bytes].
  apply le_bytes8_inj in Hlen; [|unfold u64; lia..].
  apply app_inj_1 in Heq as [-> Heq]; [|lia]. f_equal. by apply IH.
Qed.

Lemma collision_free_mono `{Sha256} xs ys :
  ys ⊆ xs → collision_free xs → collision_free ys.
Proof. intros Hsub Hcf x y Hx Hy. by apply Hcf; apply Hsub. Qed.

(** The check, on strings paired with their digests. *)
Fixpoint digests_distinct (ps : list (bytes * bytes)) : bool :=
  match ps with
  | [] => true
  | (x, d) :: ps =>
      forallb (λ p, bool_decide (x = p.1) || negb (bool_decide (d = p.2))) ps
      && digests_distinct ps
  end.

Definition collision_freeb `{Sha256} (xs : list bytes) : bool :=
  digests_distinct ((λ x, (x, sha256 x)) <$> xs).

Lemma collision_freeb_spec `{Sha256} xs : collision_freeb xs = true → collision_free xs.
Proof.
  unfold collision_freeb.
  induction xs as [|z xs IH]; simpl; intros Hb x y Hx Hy Heq; [by apply not_elem_of_nil in Hx|].
  apply andb_prop in Hb as [Hz Hb]. rewrite forallb_forall in Hz.
  assert (∀ y, y ∈ xs → sha256 z = sha256 y → z = y) as Hz'.
  { intros w Hw Hsha. specialize (Hz (w, sha256 w)). simpl in Hz.
    rewrite (bool_decide_true (sha256 z = sha256 w)) in Hz by done.
    rewrite orb_false_r in Hz. eapply bool_decide_eq_true, Hz.
    apply list_elem_of_In, list_elem_of_fmap. by exists w. }
  apply elem_of_cons in Hx as [->|Hx], Hy as [->|Hy].
  - done.
  - by apply Hz'.
  - symmetry. by apply Hz'.
  - by apply IH.
Qed.

(** ** The settlement binding *)
Module Settlement.
Section settlement.
Context `{Sha256}.

Definition node_tag : bytes := bstr "BDLM_MERKLE_NODE_V1".
Definition promote_tag : bytes := bstr "BDLM_MERKLE_ODD_PROMOTE_V1".
Definition empty_tag : bytes := bstr "BDLM_EMPTY_MERKLE_ROOT_V1".
Definition sentinel_tag : bytes := bstr "BDLM_MERKLE_ODD_SENTINEL_V1".

Definition merkle_node_hash (left right : bytes) : bytes :=
  hash_fields_bytes [node_tag; left; right].

Definition merkle_odd_promote_hash (node : bytes) : bytes :=
  hash_fields_bytes [promote_tag; node].

Definition odd_promotion_sentinel : bytes := hash_fields_bytes [sentinel_tag].

Definition merkle_root (leaves : list bytes) : bytes :=
  match leaves with
  | [] => hash_fields_bytes [empty_tag]
  | _ => MerkleTree.merkle_root merkle_node_hash merkle_odd_promote_hash zero32 leaves
  end.

(** *** Digest terms: the tree as the expression that hashes to it *)
Inductive term :=
  | TLeaf (fields : list bytes)
  | TNode (l r : term)
  | TPromote (t : term).

(** What the term's last hash call is fed. *)
Fixpoint eval (t : term) : bytes :=
  match t with
  | TLeaf fs => hash_fields_bytes fs
  | TNode l r => merkle_node_hash (eval l) (eval r)
  | TPromote t => merkle_odd_promote_hash (eval t)
  end.

Definition top_fields (t : term) : list bytes :=
  match t with
  | TLeaf fs => fs
  | TNode l r => [node_tag; eval l; eval r]
  | TPromote t => [promote_tag; eval t]
  end.

Fixpoint preimages (t : term) : list bytes :=
  encode_fields (top_fields t) ::
    match t with
    | TLeaf _ => []
    | TNode l r => preimages l ++ preimages r
    | TPromote t => preimages t
    end.

Fixpoint flatten (t : term) : list (list bytes) :=
  match t with
  | TLeaf fs => [fs]
  | TNode l r => flatten l ++ flatten r
  | TPromote t => flatten t
  end.

Inductive subterm : term → term → Prop :=
  | sub_refl t : subterm t t
  | sub_node_l t l r : subterm t l → subterm t (TNode l r)
  | sub_node_r t l r : subterm t r → subterm t (TNode l r)
  | sub_promote t u : subterm t u → subterm t (TPromote u).

(** A leaf preimage starts with a tag that no inner node uses. *)
Definition inner_free (fs : list bytes) : Prop :=
  fields_ok fs ∧
  match fs with
  | [] => False
  | tag :: _ => tag ≠ node_tag ∧ tag ≠ promote_tag
  end.

(** Nor is it the tag of the empty root or of the promotion marker. *)
Definition leaf_ok (fs : list bytes) : Prop :=
  inner_free fs ∧ head fs ≠ Some empty_tag ∧ head fs ≠ Some sentinel_tag.

Definition tree_of (leaves : list (list bytes)) : term :=
  MerkleTree.merkle_root TNode TPromote (TLeaf []) (TLeaf <$> leaves).

(** Every byte string hashed to compute the root of [leaves]. *)
Definition root_preimages (leaves : list (list bytes)) : list bytes :=
  match leaves with
  | [] => [encode_fields [empty_tag]]
  | _ => preimages (tree_of leaves)
  end.

Lemma eval_top t : eval t = sha256 (encode_fields (top_fields t)).
Proof. by destruct t. Qed.

Lemma length_eval t : length (eval t) = 32%nat.
Proof. rewrite eval_top. apply sha256_length. Qed.

Lemma top_in_preimages t : encode_fields (top_fields t) ∈ preimages t.
Proof. destruct t; left. Qed.

Lemma top_fields_ok t : Forall inner_free (flatten t) → fields_ok (top_fields t).
Proof.
  destruct t as [fs|l r|t]; simpl; intros Hok.
  - rewrite Forall_singleton in Hok. apply Hok.
  - unfold fields_ok. rewrite !Forall_cons, !length_eval. repeat split; try done.
  - unfold fields_ok. rewrite !Forall_cons, !length_eval. repeat split; try done.
Qed.

Lemma subterm_flatten t u : subterm t u → flatten t ⊆ flatten u.
Proof. induction 1; simpl; set_solver. Qed.

Lemma subterm_preimages t u : subterm t u → preimages t ⊆ preimages u.
Proof. induction 1; simpl; set_solver. Qed.

Lemma subterm_trans t u v : subterm t u → subterm u v → subterm t v.
Proof. induction 2; eauto using subterm. Qed.

(** Equal digests of two trees mean equal trees. *)
Lemma eval_inj t1 t2 :
  Forall inner_free (flatten t1) → Forall inner_free (flatten t2) →
  collision_free (preimages t1 ++ preimages t2) →
  eval t1 = eval t2 → t1 = t2.
Proof.
  revert t2. induction t1 as [fs|l IHl r IHr|t IH]; intros t2 Hok1 Hok2 Hcf Heq.
  all: rewrite eval_top, (eval_top t2) in Heq.
  all: apply Hcf in Heq;
    [|apply elem_of_app; left; apply top_in_preimages
     |apply elem_of_app; right; apply top_in_preimages].
  all: apply encode_fields_inj in Heq; [|by apply top_fields_ok..].
  all: destruct t2 as [gs|l2 r2|t2]; simpl in Heq, Hok1, Hok2.
  all: try by (subst; rewrite ?Forall_singleton in *; unfold inner_free in *; naive_solver).
  - injection Heq as Hl Hr. apply Forall_app in Hok1 as [], Hok2 as [].
    f_equal; [apply IHl|apply IHr]; try done;
      (eapply collision_free_mono; [|exact Hcf]); simpl; set_solver.
  - injection Heq as Ht. f_equal. apply IH; try done.
    eapply collision_free_mono; [|exact Hcf]; simpl; set_solver.
Qed.

Lemma flatten_pair_up layer :
  concat (flatten <$> MerkleTree.pair_up TNode TPromote layer) =
  concat (flatten <$> layer).
Proof.
  induction layer as [| |x y l IH] using list_pair_ind; simpl; [done..|].
  rewrite <-app_assoc. f_equal. f_equal. apply IH.
Qed.

Lemma flatten_layers fuel layer :
  Forall (λ l, concat (flatten <$> l) = concat (flatten <$> layer))
    (MerkleTree.layers_loop TNode TPromote fuel layer).
Proof.
  revert layer. induction fuel as [|fuel IH]; intros layer; simpl; [by repeat constructor|].
  constructor; [done|]. destruct (1 <? length layer)%nat; [|constructor].
  eapply Forall_impl; [apply IH|]. intros l ->.
  by rewrite MerkleTree.merkle_parent_layer_pair_up, flatten_pair_up.
Qed.

(** The leaves of the tree, read left to right, are the committed list. *)
Lemma flatten_tree_of leaves : leaves ≠ [] → flatten (tree_of leaves) = leaves.
Proof.
  intros Hne. unfold tree_of.
  pose proof (MerkleTree.merkle_root_last TNode TPromote (TLeaf []) (TLeaf <$> leaves)
    ltac:(by destruct leaves)) as Hlast.
  apply last_Some_elem_of in Hlast.
  destruct leaves as [|fs ls]; [done|]. unfold MerkleTree.merkle_layers in Hlast.
  pose proof (flatten_layers (length (TLeaf <$> fs :: ls)) (TLeaf <$> fs :: ls)) as Hall.
  rewrite Forall_forall in Hall. apply Hall in Hlast. simpl in Hlast.
  rewrite app_nil_r in Hlast. unfold MerkleTree.merkle_layers. simpl. rewrite Hlast.
  f_equal. clear. induction ls as [|g ls IH]; [done|]. simpl. by f_equal.
Qed.

Lemma eval_tree_of leaves :
  leaves ≠ [] → eval (tree_of leaves) = merkle_root (hash_fields_bytes <$> leaves).
Proof.
  intros Hne. unfold tree_of.
  rewrite (MerkleTree.merkle_root_hom eval TNode TPromote merkle_node_hash
    merkle_odd_promote_hash) with (zero' := zero32); [|done..|by destruct leaves].
  replace (eval <$> (TLeaf <$> leaves)) with (hash_fields_bytes <$> leaves).
  - by destruct leaves.
  - rewrite <-list_fmap_compose. done.
Qed.

Lemma tree_of_inner_free ls :
  ls ≠ [] → Forall leaf_ok ls → Forall inner_free (flatten (tree_of ls)).
Proof.
  intros Hne Hok. rewrite flatten_tree_of by done. eapply Forall_impl; [done|]. by intros ? [].
Qed.

(** The root is binding: two leaf lists with one root are one list. *)
Lemma merkle_root_inj ls1 ls2 :
  Forall leaf_ok ls1 → Forall leaf_ok ls2 →
  collision_free (root_preimages ls1 ++ root_preimages ls2) →
  merkle_root (hash_fields_bytes <$> ls1) = merkle_root (hash_fields_bytes <$> ls2) →
  ls1 = ls2.
Proof.
  intros Hok1 Hok2 Hcf Heq.
  assert (∀ ls, ls ≠ [] → Forall leaf_ok ls →
    collision_free (root_preimages [] ++ root_preimages ls) →
    merkle_root [] = merkle_root (hash_fields_bytes <$> ls) → False) as Hempty.
  { intros ls Hne Hok Hcf' Hls. rewrite <-eval_tree_of, eval_top in Hls by done.
    simpl in Hls. apply Hcf' in Hls.
    - apply encode_fields_inj in Hls; [|by apply Forall_singleton|].
      + pose proof (flatten_tree_of ls Hne) as Hflat.
        destruct (tree_of ls) as [fs|l r|t]; simpl in *; try done.
        subst. rewrite Forall_singleton in Hok. by destruct Hok as (_ & ? & _).
      + by apply top_fields_ok, tree_of_inner_free.
    - apply elem_of_app; left. by left.
    - apply elem_of_app; right. destruct ls; [done|]. apply top_in_preimages. }
  destruct (decide (ls1 = [])) as [->|Hne1], (decide (ls2 = [])) as [->|Hne2]; [done|..].
  - by destruct (Hempty ls2).
  - destruct (Hempty ls1); [done..|eapply collision_free_mono; [|exact Hcf]; set_solver|done].
  - rewrite <-!eval_tree_of in Heq by done.
    apply eval_inj in Heq.
    + by rewrite <-(flatten_tree_of ls1), <-(flatten_tree_of ls2), Heq.
    + by apply tree_of_inner_free.
    + by apply tree_of_inner_free.
    + by destruct ls1, ls2.
Qed.
(** *** Inclusion proofs under the settlement binding *)
Definition root_from_proof (leaf : bytes) (index : nat) (siblings : list bytes) : bytes :=
  MerkleTree.merkle_root_from_proof merkle_node_hash merkle_odd_promote_hash
    odd_promotion_sentinel leaf index siblings.

Definition proof (leaves : list bytes) (index : nat) : option (list bytes) :=
  MerkleTree.merkle_proof merkle_node_hash merkle_odd_promote_hash zero32
    odd_promotion_sentinel leaves index.

(** The fields one step of the verifier's walk hashes. *)
Definition step_fields (cur : bytes) (index : nat) (sibling : bytes) : list bytes :=
  if decide (sibling = odd_promotion_sentinel) then [promote_tag; cur]
  else if Nat.even index then [node_tag; cur; sibling] else [node_tag; sibling; cur].

Fixpoint walk_preimages (cur : bytes) (index : nat) (siblings : list bytes) : list bytes :=
  match siblings with
  | [] => []
  | s :: rest =>
      let fs := step_fields cur index s in
      encode_fields fs :: walk_preimages (hash_fields_bytes fs) (index / 2) rest
  end.

Lemma root_from_proof_cons cur index s rest :
  root_from_proof cur index (s :: rest) =
  root_from_proof (hash_fields_bytes (step_fields cur index s)) (index / 2) rest.
Proof.
  unfold root_from_proof, step_fields. cbn [MerkleTree.merkle_root_from_proof].
  case_decide; [done|]. by destruct (Nat.even index).
Qed.

Lemma step_fields_ok cur index s :
  length cur = 32%nat → length s = 32%nat → fields_ok (step_fields cur index s).
Proof.
  intros Hc Hs. unfold step_fields, fields_ok.
  case_decide; [|destruct (Nat.even index)]; rewrite !Forall_cons, ?Hc, ?Hs; done.
Qed.

(** A node term hashed from known fields is that node. *)
Lemma subterm_child cur index s u T :
  Forall inner_free (flatten T) → subterm u T →
  top_fields u = step_fields cur index s → ∃ v, subterm v T ∧ eval v = cur.
Proof.
  intros Hok Hsub Htop. apply subterm_flatten in Hsub as Hfl.
  destruct u as [fs|l r|t]; simpl in *.
  - assert (inner_free fs) as [_ Htag].
    { rewrite Forall_forall in Hok. apply Hok, Hfl. by left. }
    exfalso. subst fs. unfold step_fields in Htag.
    repeat case_match; naive_solver.
  - unfold step_fields in Htop. repeat case_match; simplify_eq/=.
    + exists l. split; [|done]. eapply subterm_trans; [|done]. by apply sub_node_l, sub_refl.
    + exists r. split; [|done]. eapply subterm_trans; [|done]. by apply sub_node_r, sub_refl.
  - unfold step_fields in Htop. repeat case_match; simplify_eq/=.
    exists t. split; [|done]. eapply subterm_trans; [|done]. by apply sub_promote, sub_refl.
Qed.

(** Equal digests of a known field list and of a subterm: equal fields. *)
Lemma subterm_top fs u T xs :
  fields_ok fs → Forall inner_free (flatten T) → subterm u T →
  collision_free (encode_fields fs :: xs ++ preimages T) →
  eval u = hash_fields_bytes fs → top_fields u = fs.
Proof.
  intros Hfs Hok Hsub Hcf Heq. rewrite eval_top in Heq.
  pose proof (subterm_preimages _ _ Hsub _ (top_in_preimages u)).
  apply Hcf in Heq; [|set_solver..].
  apply encode_fields_inj in Heq; [done| |done].
  apply top_fields_ok. rewrite Forall_forall in Hok |- *.
  intros x Hx. apply Hok. by eapply subterm_flatten.
Qed.

(** A walk that ends in the digest of [T] started from one of its nodes. *)
Lemma walk_subterm T siblings cur index :
  Forall inner_free (flatten T) → length cur = 32%nat →
  Forall (λ s, length s = 32%nat) siblings →
  collision_free (walk_preimages cur index siblings ++ preimages T) →
  root_from_proof cur index siblings = eval T → ∃ u, subterm u T ∧ eval u = cur.
Proof.
  revert cur index. induction siblings as [|s rest IH]; intros cur index Hok Hc Hs Hcf Hroot.
  { exists T. split; [constructor|by rewrite <-Hroot]. }
  apply Forall_cons in Hs as [Hs Hrest]. rewrite root_from_proof_cons in Hroot.
  cbn [walk_preimages] in Hcf. apply IH in Hroot as (u & Hsub & Hu); [|done| |done|].
  - eapply subterm_child; [done..|].
    eapply subterm_top; [by apply step_fields_ok|done..].
  - apply sha256_length.
  - eapply collision_free_mono; [|exact Hcf]. set_solver.
Qed.

Lemma inclusion_sound ls fs index siblings :
  Forall leaf_ok ls → leaf_ok fs → Forall (λ s, length s = 32%nat) siblings →
  collision_free (encode_fields fs ::
    walk_preimages (hash_fields_bytes fs) index siblings ++ root_preimages ls) →
  root_from_proof (hash_fields_bytes fs) index siblings =
    merkle_root (hash_fields_bytes <$> ls) →
  fs ∈ ls.
Proof.
  intros Hls [[Hfs Htag] [Hempty _]] Hsib Hcf Hroot.
  set (T := match ls with [] => TLeaf [empty_tag] | _ => tree_of ls end).
  assert (eval T = merkle_root (hash_fields_bytes <$> ls)) as HT.
  { subst T. destruct ls; [done|]. by apply eval_tree_of. }
  assert (root_preimages ls = preimages T) as Hpre by (by subst T; destruct ls).
  assert (Forall inner_free (flatten T)) as HokT.
  { subst T. destruct ls; [|by apply tree_of_inner_free].
    apply Forall_singleton. split; [by apply Forall_singleton|done]. }
  rewrite Hpre in Hcf. rewrite <-HT in Hroot.
  apply walk_subterm in Hroot as (u & Hsub & Hu); [|done|apply sha256_length|done|].
  2: { eapply collision_free_mono; [|exact Hcf]. set_solver. }
  eapply subterm_top in Hu; [|done..].
  destruct u as [gs| |]; simpl in Hu; subst fs; [|naive_solver..].
  apply subterm_flatten in Hsub. subst T. destruct ls as [|g ls].
  - exfalso. apply Hempty. specialize (Hsub gs ltac:(by left)). simpl in Hsub. set_solver.
  - rewrite flatten_tree_of in Hsub by done. apply Hsub. by left.
Qed.

(** *** Every digest of a layer is below the root *)
Lemma pair_up_subterm layer x :
  x ∈ layer → ∃ y, y ∈ MerkleTree.pair_up TNode TPromote layer ∧ subterm x y.
Proof.
  induction layer as [|z|z w l IH] using list_pair_ind; intros Hx.
  - by apply not_elem_of_nil in Hx.
  - apply list_elem_of_singleton in Hx as ->. exists (TPromote z).
    split; [by left|]. apply sub_promote, sub_refl.
  - cbn [MerkleTree.pair_up]. rewrite !elem_of_cons in Hx. destruct Hx as [->|[->|Hx]].
    + exists (TNode z w). split; [by left|]. apply sub_node_l, sub_refl.
    + exists (TNode z w). split; [by left|]. apply sub_node_r, sub_refl.
    + destruct (IH Hx) as (y & Hy & Hsub). exists y. split; [by right|done].
Qed.

Lemma layers_subterm fuel layer r :
  (0 < length layer ≤ S fuel)%nat →
  last (MerkleTree.layers_loop TNode TPromote fuel layer) = Some [r] →
  Forall (Forall (λ x, subterm x r)) (MerkleTree.layers_loop TNode TPromote fuel layer).
Proof.
  revert layer. induction fuel as [|fuel IH]; intros layer Hlen Hlast;
    cbn [MerkleTree.layers_loop] in *.
  { simplify_eq/=. repeat constructor. }
  destruct (Nat.ltb_spec 1 (length layer)) as [Hlt|].
  - pose proof (MerkleTree.length_parent_lt TNode TPromote _ Hlt).
    rewrite last_cons in Hlast.
    destruct (last (MerkleTree.layers_loop TNode TPromote fuel _)) eqn:Hl.
    2: { by apply last_None, MerkleTree.layers_loop_nonempty in Hl. }
    injection Hlast as ->. apply IH in Hl as Hall; [|lia]. constructor; [|done].
    rewrite Forall_forall. intros x Hx. apply pair_up_subterm in Hx as (y & Hy & Hsub).
    eapply subterm_trans; [done|].
    assert (MerkleTree.merkle_parent_layer TNode TPromote layer ∈
      MerkleTree.layers_loop TNode TPromote fuel
        (MerkleTree.merkle_parent_layer TNode TPromote layer)) as Hin.
    { destruct fuel; left. }
    rewrite Forall_forall in Hall. specialize (Hall _ Hin).
    rewrite MerkleTree.merkle_parent_layer_pair_up, Forall_forall in Hall. by apply Hall.
  - simplify_eq/=. repeat constructor.
Qed.

(** The marker of a promoted step is no digest of the tree. *)
Lemma sentinel_fresh ls :
  Forall leaf_ok ls →
  collision_free (encode_fields [sentinel_tag] :: root_preimages ls) →
  Forall (λ l, odd_promotion_sentinel ∉ l)
    (MerkleTree.merkle_layers merkle_node_hash merkle_odd_promote_hash
      (hash_fields_bytes <$> ls)).
Proof.
  intros Hok Hcf. destruct ls as [|g ls]; [constructor|].
  set (T := tree_of (g :: ls)) in *.
  assert (last (MerkleTree.merkle_layers TNode TPromote (TLeaf <$> g :: ls)) = Some [T]) as Hlast
    by (by apply MerkleTree.merkle_root_last).
  replace (hash_fields_bytes <$> g :: ls) with (eval <$> (TLeaf <$> g :: ls))
    by (by rewrite <-list_fmap_compose).
  unfold MerkleTree.merkle_layers in *. rewrite !fmap_cons in *.
  apply layers_subterm in Hlast as Hsub; [|cbn [length]; lia].
  pose proof (MerkleTree.layers_loop_hom eval TNode TPromote merkle_node_hash
    merkle_odd_promote_hash ltac:(done) ltac:(done)
    (length (TLeaf g :: (TLeaf <$> ls))) (TLeaf g :: (TLeaf <$> ls))) as Hhom.
  rewrite !fmap_cons in Hhom. cbn [length] in *. rewrite !length_fmap in *. rewrite <-Hhom.
  rewrite Forall_fmap. eapply Forall_impl; [exact Hsub|]. intros l Hl Hin.
  apply list_elem_of_fmap in Hin as (u & Hu & Hin). rewrite Forall_forall in Hl.
  specialize (Hl _ Hin). symmetry in Hu.
  assert (Forall inner_free (flatten T)) as HokT by (by apply tree_of_inner_free).
  assert (top_fields u = [sentinel_tag]) as Htop.
  { eapply (subterm_top [sentinel_tag] u T []); [by apply Forall_singleton|done|done| |done].
    done. }
  destruct u as [fs| |]; simpl in Htop; [|done..]. subst fs.
  apply subterm_flatten in Hl. unfold T in Hl. rewrite flatten_tree_of in Hl by done.
  rewrite Forall_forall in Hok. destruct (Hok [sentinel_tag]) as (_ & _ & Hs); [|done].
  apply Hl. by left.
Qed.

Lemma inclusion_complete ls index fs :
  Forall leaf_ok ls → ls !! index = Some fs →
  collision_free (encode_fields [sentinel_tag] :: root_preimages ls) →
  ∃ siblings, proof (hash_fields_bytes <$> ls) index = Some siblings ∧
    root_from_proof (hash_fields_bytes fs) index siblings =
      merkle_root (hash_fields_bytes <$> ls).
Proof.
  intros Hok Hi Hcf.
  destruct (MerkleTree.merkle_proof_complete merkle_node_hash merkle_odd_promote_hash zero32
    odd_promotion_sentinel (hash_fields_bytes <$> ls) index (hash_fields_bytes fs))
    as (sibs & Hp & Hr).
  - by rewrite list_lookup_fmap, Hi.
  - by apply sentinel_fresh.
  - exists sibs. split; [exact Hp|]. unfold root_from_proof. rewrite Hr. by destruct ls.
Qed.
End settlement.
End Settlement.

(** ** A concrete hash

    A small polynomial hash with a 32-byte digest: the instance at which
    statements about an arbitrary [Sha256] are evaluated. *)
Definition poly_hash (x : bytes) : bytes :=
  le_bytes 32 (fold_left (λ acc b, (acc * 257 + b + 1) mod 2305843009213693951) x 7).

Definition poly_sha256 : Sha256.
Proof. refine {| sha256 := poly_hash |}. intros x. apply length_le_bytes. Defined.
