(* ===== verification/Messages.v ===== *)
(** * Cross-domain messages

    [src/cross_domain/message.rs], [event_tree.rs], [nonce.rs] and
    [message_registry.rs].

    [Message] is the message and its identifier, [Event] the domain event
    tree with its inclusion proofs, [Nonce] the replay-nonce store and
    [MessageRegistry] the set of registered messages.  The theorems: a
    message id commits to the message, inclusion proofs are complete and
    sound, the replay memory refuses a processed nonce for ever, and the
    roots commit to the stores they summarise. *)
From stdpp Require Import base tactics numbers list gmap strings sorting.
From Stdlib Require Import ZArith Lia.
From S2P Require Import Prelude Merkle.

(** Identifiers: [DomainId] is a [u32]; [Hash32], [MessageId], [AssetId] and
    [Address] are 32-byte arrays. *)
Abbreviation DomainId := Z.
Abbreviation Hash32 := bytes.
Abbreviation MessageId := bytes.
Abbreviation AssetId := bytes.
Abbreviation Address := bytes.

Definition is_hash32 (h : bytes) : Prop := length h = 32%nat.

(** The lengths of the fields of a preimage, from the typing hypotheses and
    the length lemmas in [fields]. *)
Create HintDb fields.

Ltac solve_fields_ok :=
  unfold fields_ok, is_hash32 in *; repeat (apply Forall_cons; split); try apply Forall_nil_2;
  rewrite ?length_le_bytes;
  first
    [ assumption
    | solve [auto with fields nocore]
    | match goal with Hlen : length ?x = _ |- Z.of_nat (length ?x) ≤ _ => rewrite Hlen end;
      vm_compute; discriminate
    | match goal with
      | |- Z.of_nat (length (bstr _)) ≤ _ => vm_compute; discriminate
      | |- Z.of_nat 4 ≤ _ => vm_compute; discriminate
      | |- Z.of_nat 8 ≤ _ => vm_compute; discriminate
      end
    | idtac ].

(** Equal preimages, field by field, with fixed-width integers decoded. *)
Ltac split_fields H :=
  repeat match type of H with
  | _ :: _ = _ :: _ =>
      let Hf := fresh "Hfield" in
      pose proof (f_equal (@head bytes) H) as Hf; cbn [head] in Hf;
      apply (f_equal (@tail bytes)) in H; cbn [tail] in H;
      apply (f_equal (from_option (λ x : bytes, x) [])) in Hf; cbn [from_option] in Hf
  end;
  repeat match goal with
  | Hf : le_bytes 8 _ = le_bytes 8 _ |- _ => apply le_bytes8_inj in Hf; [|done..]
  | Hf : le_bytes 4 _ = le_bytes 4 _ |- _ => apply le_bytes4_inj in Hf; [|done..]
  end.

(** ** Messages *)
Module Message.

Inductive MessageKind :=
  | BridgeLock
  | BridgeMint
  | BridgeBurn
  | BridgeUnlock
  | Custom (payload : bytes).

#[export] Instance MessageKind_eq_dec : EqDecision MessageKind.
Proof. solve_decision. Defined.

Definition as_bytes (kind : MessageKind) : bytes :=
  match kind with
  | BridgeLock => bstr "bridge-lock"
  | BridgeMint => bstr "bridge-mint"
  | BridgeBurn => bstr "bridge-burn"
  | BridgeUnlock => bstr "bridge-unlock"
  | Custom payload => bstr "custom:" ++ payload
  end.

Record CrossDomainMessageParams := {
  p_source_domain : DomainId;
  p_target_domain : DomainId;
  p_source_height : Z;
  p_event_index : Z;
  p_nonce : Z;
  p_sender : Address;
  p_recipient : Address;
  p_payload_hash : Hash32;
  p_kind : MessageKind;
  p_expiry_height : Z;
}.

Record CrossDomainMessage := {
  message_id : MessageId;
  correlation_id : option MessageId;
  source_domain : DomainId;
  target_domain : DomainId;
  source_height : Z;
  event_index : Z;
  nonce : Z;
  sender : Address;
  recipient : Address;
  payload_hash : Hash32;
  kind : MessageKind;
  expiry_height : Z;
}.

#[export] Instance CrossDomainMessage_eq_dec : EqDecision CrossDomainMessage.
Proof. solve_decision. Defined.

Section ids.
Context `{Sha256}.

Definition id_fields (m : CrossDomainMessage) : list bytes :=
  [bstr "BDLM_CROSS_DOMAIN_MESSAGE_V2";
   default zero32 (correlation_id m);
   le_bytes 4 (source_domain m);
   le_bytes 4 (target_domain m);
   le_bytes 8 (source_height m);
   le_bytes 4 (event_index m);
   le_bytes 8 (nonce m);
   sender m;
   recipient m;
   payload_hash m;
   as_bytes (kind m);
   le_bytes 8 (expiry_height m)].

Definition calculate_message_id (m : CrossDomainMessage) : MessageId :=
  hash_fields_bytes (id_fields m).

Definition verify_id (m : CrossDomainMessage) : bool :=
  bool_decide (message_id m = calculate_message_id m).

Definition with_ids (m : CrossDomainMessage) (mid : MessageId) (cid : option MessageId) :
    CrossDomainMessage :=
  {| message_id := mid; correlation_id := cid;
     source_domain := source_domain m; target_domain := target_domain m;
     source_height := source_height m; event_index := event_index m;
     nonce := nonce m; sender := sender m; recipient := recipient m;
     payload_hash := payload_hash m; kind := kind m; expiry_height := expiry_height m |}.

Definition new (params : CrossDomainMessageParams) : CrossDomainMessage :=
  let message :=
    {| message_id := zero32; correlation_id := None;
       source_domain := p_source_domain params; target_domain := p_target_domain params;
       source_height := p_source_height params; event_index := p_event_index params;
       nonce := p_nonce params; sender := p_sender params; recipient := p_recipient params;
       payload_hash := p_payload_hash params; kind := p_kind params;
       expiry_height := p_expiry_height params |} in
  with_ids message (calculate_message_id message) (correlation_id message).

Definition new_correlated (params : CrossDomainMessageParams) (cid : MessageId) :
    CrossDomainMessage :=
  let message := new params in
  let message := with_ids message (message_id message) (Some cid) in
  with_ids message (calculate_message_id message) (correlation_id message).

(** *** Typing: the ranges the Rust types give the fields *)
Record message_ok (m : CrossDomainMessage) : Prop := {
  ok_message_id : is_hash32 (message_id m);
  ok_correlation : is_hash32 (default zero32 (correlation_id m));
  ok_source : u32 (source_domain m);
  ok_target : u32 (target_domain m);
  ok_source_height : u64 (source_height m);
  ok_event_index : u32 (event_index m);
  ok_nonce : u64 (nonce m);
  ok_sender : is_hash32 (sender m);
  ok_recipient : is_hash32 (recipient m);
  ok_payload : is_hash32 (payload_hash m);
  ok_kind : Z.of_nat (length (as_bytes (kind m))) ≤ u64_max;
  ok_expiry : u64 (expiry_height m);
}.

Lemma as_bytes_inj k1 k2 : as_bytes k1 = as_bytes k2 → k1 = k2.
Proof.
  destruct k1, k2; cbn; intros Heq; try done. repeat (injection Heq as Heq). by subst.
Qed.

(** The id is recomputed last by both constructors. *)
Lemma verify_id_new params : verify_id (new params) = true.
Proof. by apply bool_decide_eq_true. Qed.

Lemma verify_id_new_correlated params cid : verify_id (new_correlated params cid) = true.
Proof. by apply bool_decide_eq_true. Qed.

Lemma id_fields_ok m : message_ok m → fields_ok (id_fields m).
Proof.
  intros []. unfold id_fields. solve_fields_ok.
Qed.

(** What the id pins down: everything but the difference between no
    correlation and an all-zero one. *)
Definition same_content (m1 m2 : CrossDomainMessage) : Prop :=
  message_id m1 = message_id m2 ∧
  m1 = with_ids m2 (message_id m1) (correlation_id m1) ∧
  default zero32 (correlation_id m1) = default zero32 (correlation_id m2).

Lemma id_fields_inj m1 m2 :
  message_ok m1 → message_ok m2 → message_id m1 = message_id m2 →
  id_fields m1 = id_fields m2 → same_content m1 m2.
Proof.
  intros [] [] Hid Heq. unfold id_fields in Heq. split_fields Heq.
  apply as_bytes_inj in Hfield9.
  split; [done|]. split; [|done]. destruct m1, m2; unfold with_ids; simpl in *. by subst.
Qed.

Lemma message_id_inj m1 m2 :
  message_ok m1 → message_ok m2 → verify_id m1 = true → verify_id m2 = true →
  collision_free [encode_fields (id_fields m1); encode_fields (id_fields m2)] →
  message_id m1 = message_id m2 → same_content m1 m2.
Proof.
  intros Hok1 Hok2 Hv1 Hv2 Hcf Heq.
  apply bool_decide_eq_true in Hv1, Hv2. apply id_fields_inj; [done..|].
  apply encode_fields_inj; [by apply id_fields_ok..|].
  apply Hcf; [left|right; left|]. unfold calculate_message_id, hash_fields_bytes in *. congruence.
Qed.
End ids.
End Message.

(** ** Domain events *)
Module Event.
Import Message.

Inductive DomainEventKind :=
  | BridgeLocked
  | BridgeMinted
  | BridgeBurned
  | BridgeUnlocked
  | MessageEmitted
  | EvCustom (payload : bytes).

#[export] Instance DomainEventKind_eq_dec : EqDecision DomainEventKind.
Proof. solve_decision. Defined.

Definition kind_as_bytes (kind : DomainEventKind) : bytes :=
  match kind with
  | BridgeLocked => bstr "bridge-locked"
  | BridgeMinted => bstr "bridge-minted"
  | BridgeBurned => bstr "bridge-burned"
  | BridgeUnlocked => bstr "bridge-unlocked"
  | MessageEmitted => bstr "message-emitted"
  | EvCustom payload => bstr "custom:" ++ payload
  end.

Record DomainEvent := {
  domain_id : DomainId;
  domain_height : Z;
  ev_index : Z;
  ev_kind : DomainEventKind;
  emitter : Address;
  message : option CrossDomainMessage;
  ev_payload_hash : Hash32;
}.

Record MerkleProof := {
  leaf : Hash32;
  index : nat;
  siblings : list Hash32;
}.

Record DomainEventTree := { events : list DomainEvent }.

Section events.
Context `{Sha256}.

Definition leaf_fields (e : DomainEvent) : list bytes :=
  [bstr "BDLM_DOMAIN_EVENT_V1";
   le_bytes 4 (domain_id e);
   le_bytes 8 (domain_height e);
   le_bytes 4 (ev_index e);
   kind_as_bytes (ev_kind e);
   emitter e;
   from_option message_id zero32 (message e);
   ev_payload_hash e].

Definition leaf_hash (e : DomainEvent) : Hash32 := hash_fields_bytes (leaf_fields e).

Definition tree_new : DomainEventTree := {| events := [] |}.

Definition push (t : DomainEventTree) (e : DomainEvent) : DomainEventTree :=
  {| events := events t ++ [e] |}.

Definition root (t : DomainEventTree) : Hash32 :=
  Settlement.merkle_root (leaf_hash <$> events t).

Definition proof (t : DomainEventTree) (i : nat) : option MerkleProof :=
  let leaves := leaf_hash <$> events t in
  sibs ← Settlement.proof leaves i;
  lf ← leaves !! i;
  Some {| leaf := lf; index := i; siblings := sibs |}.

Definition verify (p : MerkleProof) (expected_root : Hash32) : bool :=
  bool_decide
    (Settlement.root_from_proof (leaf p) (index p) (siblings p) = expected_root).

(** *** Typing *)
Record event_ok (e : DomainEvent) : Prop := {
  ok_domain : u32 (domain_id e);
  ok_height : u64 (domain_height e);
  ok_ev_index : u32 (ev_index e);
  ok_ev_kind : Z.of_nat (length (kind_as_bytes (ev_kind e))) ≤ u64_max;
  ok_emitter : is_hash32 (emitter e);
  ok_ev_message : is_hash32 (from_option message_id zero32 (message e));
  ok_ev_payload : is_hash32 (ev_payload_hash e);
}.

(** Every byte string hashed to compute the tree's root. *)
Definition event_preimages (t : DomainEventTree) : list bytes :=
  Settlement.root_preimages (leaf_fields <$> events t).

(** Two events that agree in all a leaf commits to: of the carried message
    that is its id. *)
Definition same_leaf (e1 e2 : DomainEvent) : Prop :=
  domain_id e1 = domain_id e2 ∧ domain_height e1 = domain_height e2 ∧
  ev_index e1 = ev_index e2 ∧ ev_kind e1 = ev_kind e2 ∧ emitter e1 = emitter e2 ∧
  from_option message_id zero32 (message e1) = from_option message_id zero32 (message e2) ∧
  ev_payload_hash e1 = ev_payload_hash e2.

Lemma kind_as_bytes_inj k1 k2 : kind_as_bytes k1 = kind_as_bytes k2 → k1 = k2.
Proof.
  destruct k1, k2; cbn; intros Heq; try done. repeat (injection Heq as Heq). by subst.
Qed.

Lemma leaf_fields_ok e : event_ok e → Settlement.leaf_ok (leaf_fields e).
Proof.
  intros []. split; [split|done].
  - unfold leaf_fields. solve_fields_ok.
  - done.
Qed.

Lemma leaf_fields_inj e1 e2 :
  event_ok e1 → event_ok e2 → leaf_fields e1 = leaf_fields e2 → same_leaf e1 e2.
Proof.
  intros [] [] Heq. unfold leaf_fields in Heq. split_fields Heq.
  apply kind_as_bytes_inj in Hfield3. done.
Qed.

Lemma events_leaf_ok t :
  Forall event_ok (events t) → Forall Settlement.leaf_ok (leaf_fields <$> events t).
Proof. intros Hok. apply Forall_fmap. eapply Forall_impl; [done|]. apply leaf_fields_ok. Qed.

Lemma leaf_hash_fmap (es : list DomainEvent) :
  leaf_hash <$> es = hash_fields_bytes <$> (leaf_fields <$> es).
Proof. by rewrite <-list_fmap_compose. Qed.

(** The inclusion proof an event tree emits for any of its events carries
    that event's leaf and verifies against the tree's root. *)
Theorem event_proof_complete t i e :
  Forall event_ok (events t) → events t !! i = Some e →
  collision_free (encode_fields [Settlement.sentinel_tag] :: event_preimages t) →
  ∃ p, proof t i = Some p ∧ leaf p = leaf_hash e ∧ index p = i ∧ verify p (root t) = true.
Proof.
  intros Hok Hi Hcf.
  destruct (Settlement.inclusion_complete (leaf_fields <$> events t) i (leaf_fields e))
    as (sibs & Hp & Hr); [by apply events_leaf_ok|by rewrite list_lookup_fmap, Hi|done|].
  exists {| leaf := leaf_hash e; index := i; siblings := sibs |}.
  unfold proof, verify, root. rewrite !leaf_hash_fmap, Hp, !list_lookup_fmap, Hi. simpl.
  split_and!; [done..|]. apply bool_decide_eq_true, Hr.
Qed.

(** A verified proof for an event's leaf shows that leaf in the tree. *)
Lemma verify_leaf t p e :
  Forall event_ok (events t) → event_ok e → leaf p = leaf_hash e →
  Forall is_hash32 (siblings p) →
  collision_free (encode_fields (leaf_fields e) ::
    Settlement.walk_preimages (leaf p) (index p) (siblings p) ++ event_preimages t) →
  verify p (root t) = true → leaf_fields e ∈ leaf_fields <$> events t.
Proof.
  intros Hok He Hleaf Hsib Hcf Hv. apply bool_decide_eq_true in Hv.
  rewrite Hleaf in *. unfold root in Hv. rewrite leaf_hash_fmap in Hv.
  apply Settlement.inclusion_sound in Hv;
    [done|by apply events_leaf_ok|by apply leaf_fields_ok|done|done].
Qed.

(** A proof that verifies against a tree's root for the leaf of a
    well-formed event shows that the tree contains an event with that leaf's
    domain, height, index, kind, emitter, message id and payload hash,
    whatever siblings and index the prover chose, unless the hash calls
    involved contain a collision. *)
Theorem event_proof_sound t p e :
  Forall event_ok (events t) → event_ok e → leaf p = leaf_hash e →
  Forall is_hash32 (siblings p) →
  collision_free (encode_fields (leaf_fields e) ::
    Settlement.walk_preimages (leaf p) (index p) (siblings p) ++ event_preimages t) →
  verify p (root t) = true → ∃ e', e' ∈ events t ∧ same_leaf e e'.
Proof.
  intros Hok He Hleaf Hsib Hcf Hv. pose proof (verify_leaf t p e Hok He Hleaf Hsib Hcf Hv) as Hl.
  apply list_elem_of_fmap in Hl as (e' & Heq & Hin). exists e'. split; [done|].
  rewrite Forall_forall in Hok. by apply leaf_fields_inj; [| apply Hok|].
Qed.

(** The event root commits to the sequence of events. *)
Lemma event_root_inj t1 t2 :
  Forall event_ok (events t1) → Forall event_ok (events t2) →
  collision_free (event_preimages t1 ++ event_preimages t2) →
  root t1 = root t2 → Forall2 same_leaf (events t1) (events t2).
Proof.
  intros Hok1 Hok2 Hcf Heq. unfold root in Heq. rewrite !leaf_hash_fmap in Heq.
  apply Settlement.merkle_root_inj in Heq; [|by apply events_leaf_ok..|done].
  revert Heq Hok1 Hok2. clear Hcf. generalize (events t2) as l2.
  induction (events t1) as [|e1 l1 IH]; intros [|e2 l2] Heq Hok1 Hok2; try done.
  rewrite !fmap_cons in Heq. apply Forall_cons in Hok1 as [? ?], Hok2 as [? ?].
  assert (leaf_fields e1 = leaf_fields e2) by congruence.
  assert (leaf_fields <$> l1 = leaf_fields <$> l2) by congruence.
  constructor; [by apply leaf_fields_inj|by apply IH].
Qed.
End events.
End Event.

(** ** Replay memory *)
Module Nonce.

Definition FINALITY_PRUNE_DEPTH : Z := 1000.

(** A direction and sender. *)
Abbreviation Lane := (DomainId * DomainId * Address)%type.

Record ReplayNonceStore := {
  outbound_nonces : gmap Lane Z;
  processed_high_water : gmap Lane (Z * Z);
}.

Inductive NonceError := AlreadyProcessed.

Definition new : ReplayNonceStore :=
  {| outbound_nonces := ∅; processed_high_water := ∅ |}.

Definition next_nonce (s : ReplayNonceStore) (source target : DomainId) (sender : Address) :
    Z * ReplayNonceStore :=
  let key := (source, target, sender) in
  let nonce := default 0 (outbound_nonces s !! key) in
  (nonce,
   {| outbound_nonces := <[key := u64_sat_add nonce 1]> (outbound_nonces s);
      processed_high_water := processed_high_water s |}).

Definition is_processed (s : ReplayNonceStore) (source target : DomainId) (sender : Address)
    (nonce : Z) : bool :=
  match processed_high_water s !! (source, target, sender) with
  | Some (high_water, _) => nonce <=? high_water
  | None => false
  end.

Definition mark_processed_at (s : ReplayNonceStore) (source target : DomainId)
    (sender : Address) (nonce current_height : Z) : result NonceError () * ReplayNonceStore :=
  let key := (source, target, sender) in
  let advanced :=
    (Ok (),
     {| outbound_nonces := outbound_nonces s;
        processed_high_water := <[key := (nonce, current_height)]> (processed_high_water s) |}) in
  match processed_high_water s !! key with
  | Some (high_water, _) =>
      if nonce <=? high_water then (Err AlreadyProcessed, s) else advanced
  | None => advanced
  end.

Definition processed_count (s : ReplayNonceStore) : nat := size (processed_high_water s).

Definition outbound_leaf (e : Lane * Z) : list bytes :=
  let '((source, target, sender), nonce) := e in
  [bstr "BDLM_NONCE_LEAF_V1"; le_bytes 4 source; le_bytes 4 target; sender; le_bytes 8 nonce].

Definition processed_leaf (e : Lane * (Z * Z)) : list bytes :=
  let '((source, target, sender), (high_water, height)) := e in
  [bstr "BDLM_PROCESSED_HIGH_WATER_LEAF_V1"; le_bytes 4 source; le_bytes 4 target; sender;
   le_bytes 8 high_water; le_bytes 8 height].

Definition leaves (s : ReplayNonceStore) : list (list bytes) :=
  (outbound_leaf <$> btree_list (outbound_nonces s)) ++
  (processed_leaf <$> btree_list (processed_high_water s)).

Definition root `{Sha256} (s : ReplayNonceStore) : Hash32 :=
  Settlement.merkle_root (hash_fields_bytes <$> leaves s).

(** *** Runs of the store *)
Inductive step : ReplayNonceStore → ReplayNonceStore → Prop :=
  | step_next s source target sender :
      step s (next_nonce s source target sender).2
  | step_mark s source target sender nonce height :
      step s (mark_processed_at s source target sender nonce height).2.

Definition lane_ok (k : Lane) : Prop := u32 k.1.1 ∧ u32 k.1.2 ∧ is_hash32 k.2.

Record store_ok (s : ReplayNonceStore) : Prop := {
  ok_outbound : ∀ k n, outbound_nonces s !! k = Some n → lane_ok k ∧ u64 n;
  ok_processed : ∀ k p, processed_high_water s !! k = Some p →
    lane_ok k ∧ u64 p.1 ∧ u64 p.2;
}.

(** What the store has spent: one initial segment of nonces per lane. *)
Lemma is_processed_mark s s' src tgt a n h src' tgt' a' n' :
  mark_processed_at s src tgt a n h = (Ok (), s') →
  is_processed s src tgt a n = false ∧
  is_processed s' src' tgt' a' n' =
    (if decide ((src, tgt, a) = (src', tgt', a')) then n' <=? n
     else is_processed s src' tgt' a' n').
Proof.
  unfold mark_processed_at, is_processed. intros Hm. inv_op Hm.
  all: rewrite lookup_insert; case_decide; simplify_eq; split; try done; by case_match.
Qed.

Lemma mark_processed_err s s' src tgt a n h e :
  mark_processed_at s src tgt a n h = (Err e, s') →
  s' = s ∧ is_processed s src tgt a n = true.
Proof.
  unfold mark_processed_at, is_processed. intros Hm. by inv_op Hm.
Qed.

Lemma mark_processed_spent s src tgt a n h :
  is_processed s src tgt a n = true →
  mark_processed_at s src tgt a n h = (Err AlreadyProcessed, s).
Proof.
  unfold mark_processed_at, is_processed. intros Hp. inv_op Hp. by rewrite Hp.
Qed.

Lemma mark_processed_fresh s src tgt a n h :
  is_processed s src tgt a n = false →
  ∃ s', mark_processed_at s src tgt a n h = (Ok (), s').
Proof.
  unfold mark_processed_at, is_processed. intros Hp. inv_op Hp; [rewrite Hp|]; eauto.
Qed.

(** A spent nonce stays spent. *)
Lemma mark_processed_mono s s' src tgt a n h r src' tgt' a' n' :
  mark_processed_at s src tgt a n h = (r, s') →
  is_processed s src' tgt' a' n' = true → is_processed s' src' tgt' a' n' = true.
Proof.
  intros Hm Hp. destruct r as [[]|e].
  - destruct (is_processed_mark _ _ _ _ _ _ _ src' tgt' a' n' Hm) as [Hfresh ->].
    case_decide; [|done]. simplify_eq. apply Z.leb_le.
    unfold is_processed in Hp, Hfresh. case_match; [|done]. case_match.
    apply Z.leb_le in Hp. apply Z.leb_gt in Hfresh. lia.
  - by destruct (mark_processed_err _ _ _ _ _ _ _ _ Hm) as [-> _].
Qed.

Lemma is_processed_downward s src tgt a n n' :
  n' ≤ n → is_processed s src tgt a n = true → is_processed s src tgt a n' = true.
Proof. unfold is_processed. intros. case_match; [|done]. case_match. lia. Qed.

Lemma step_spent s s' src tgt a n :
  step s s' → is_processed s src tgt a n = true → is_processed s' src tgt a n = true.
Proof.
  intros Hstep Hp. destruct Hstep as [|s src' tgt' a' n' h]; [done|].
  eapply mark_processed_mono; [apply surjective_pairing|done].
Qed.

(** Once a lane has accepted a nonce, every later attempt to spend that
    nonce or a lower one in the same lane is refused without changing the
    store, whatever operations ran in between. *)
Theorem replay_refused_forever s s' s'' src tgt a n h n' h' :
  mark_processed_at s src tgt a n h = (Ok (), s') → rtc step s' s'' → n' ≤ n →
  mark_processed_at s'' src tgt a n' h' = (Err AlreadyProcessed, s'').
Proof.
  intros Hm Hrun Hle. apply mark_processed_spent, (is_processed_downward _ _ _ _ n); [done|].
  assert (is_processed s' src tgt a n = true) as Hp.
  { destruct (is_processed_mark _ _ _ _ _ _ _ src tgt a n Hm) as [_ ->].
    rewrite decide_True by done. lia. }
  clear -Hp Hrun. induction Hrun; eauto using step_spent.
Qed.

(** *** Outbound nonces *)
Definition outbound (s : ReplayNonceStore) (k : Lane) : Z :=
  default 0 (outbound_nonces s !! k).

Lemma step_outbound_mono s s' k :
  (∀ k, u64 (outbound s k)) → step s s' →
  outbound s k ≤ outbound s' k ∧ ∀ k, u64 (outbound s' k).
Proof.
  intros Hok Hstep. destruct Hstep as [s src tgt a|s src tgt a n h].
  - assert (∀ k, outbound (next_nonce s src tgt a).2 k =
      if decide ((src, tgt, a) = k) then u64_sat_add (outbound s k) 1 else outbound s k) as Hout.
    { intros k'. unfold outbound, next_nonce. simpl. rewrite lookup_insert.
      case_decide; by subst. }
    split; [|intros k']; rewrite Hout; case_decide; try done; try lia.
    + specialize (Hok k). int_lia.
    + specialize (Hok k'). int_lia.
  - unfold mark_processed_at, outbound. by repeat case_match.
Qed.

(** Two nonces assigned to one lane in the course of a run are different:
    the later one is strictly greater, as long as the counter has not
    reached [u64::MAX]. *)
Theorem next_nonce_fresh s s1 s2 s3 src tgt a n n' :
  (∀ k, u64 (outbound s k)) →
  next_nonce s src tgt a = (n, s1) → rtc step s1 s2 →
  next_nonce s2 src tgt a = (n', s3) → n < u64_max → n < n'.
Proof.
  intros Hok Hn Hrun Hn' Hmax.
  assert (outbound s1 (src, tgt, a) = n + 1 ∧ ∀ k, u64 (outbound s1 k)) as [Hs1 Hok1].
  { pose proof (step_next s src tgt a) as Hst. rewrite Hn in Hst. simpl in Hst.
    split; [|by apply (step_outbound_mono s s1 (src, tgt, a))].
    unfold next_nonce in Hn. simplify_eq. unfold outbound; simpl.
    rewrite lookup_insert_eq. simpl. int_lia. }
  assert (n + 1 ≤ outbound s2 (src, tgt, a)).
  { rewrite <-Hs1. clear -Hok1 Hrun. induction Hrun as [|x y z Hxy _ IH]; [done|].
    destruct (step_outbound_mono _ _ (src, tgt, a) Hok1 Hxy) as [? Hok].
    specialize (IH Hok). lia. }
  unfold next_nonce in Hn'. unfold outbound in *. simplify_eq. lia.
Qed.

(** Both operations keep the field ranges. *)
Lemma next_nonce_ok s src tgt a :
  store_ok s → lane_ok (src, tgt, a) → store_ok (next_nonce s src tgt a).2.
Proof.
  intros [Hout Hproc] Hk. split; simpl; [|done]. intros k n Hn.
  apply lookup_insert_Some in Hn as [[<- <-]|[_ Hn]]; [|by apply Hout]. split; [done|].
  apply u64_sat_add_range; [|done].
  destruct (outbound_nonces s !! _) eqn:Hl; [|done]. apply Hout in Hl. simpl. int_lia.
Qed.

Lemma mark_processed_ok s src tgt a n h :
  store_ok s → lane_ok (src, tgt, a) → u64 n → u64 h →
  store_ok (mark_processed_at s src tgt a n h).2.
Proof.
  intros [Hout Hproc] Hk Hn Hh. unfold mark_processed_at.
  repeat case_match; split; simpl; try done; intros k q Hp;
    apply lookup_insert_Some in Hp as [[<- <-]|[_ Hp]]; try done; by apply Hproc.
Qed.

(** *** The root commits to the store *)
Lemma outbound_leaf_inj e1 e2 :
  lane_ok e1.1 ∧ u64 e1.2 → lane_ok e2.1 ∧ u64 e2.2 →
  outbound_leaf e1 = outbound_leaf e2 → e1 = e2.
Proof.
  destruct e1 as [[[src tgt] a] n], e2 as [[[src' tgt'] a'] n'].
  intros [(? & ? & ?) ?] [(? & ? & ?) ?] Heq. simpl in *. split_fields Heq. congruence.
Qed.

Lemma processed_leaf_inj e1 e2 :
  lane_ok e1.1 ∧ u64 e1.2.1 ∧ u64 e1.2.2 → lane_ok e2.1 ∧ u64 e2.2.1 ∧ u64 e2.2.2 →
  processed_leaf e1 = processed_leaf e2 → e1 = e2.
Proof.
  destruct e1 as [[[src tgt] a] [n h]], e2 as [[[src' tgt'] a'] [n' h']].
  intros [(? & ? & ?) []] [(? & ? & ?) []] Heq. simpl in *. split_fields Heq. congruence.
Qed.

Lemma leaves_ok s : store_ok s → Forall Settlement.leaf_ok (leaves s).
Proof.
  intros [Hout Hproc]. unfold leaves. rewrite Forall_app, !Forall_fmap. split.
  - apply Forall_forall. intros [[[src tgt] a] n] Hin. apply elem_of_btree_list, Hout in Hin.
    destruct Hin as [(? & ? & ?) ?]. simpl in *. split; [split|done]; [solve_fields_ok|done].
  - apply Forall_forall. intros [[[src tgt] a] [n h]] Hin.
    apply elem_of_btree_list, Hproc in Hin.
    destruct Hin as [(? & ? & ?) ?]. simpl in *. split; [split|done]; [solve_fields_ok|done].
Qed.

Lemma leaves_inj s1 s2 : store_ok s1 → store_ok s2 → leaves s1 = leaves s2 → s1 = s2.
Proof.
  intros [Hout1 Hproc1] [Hout2 Hproc2] Heq.
  apply (app_inj_partition (λ fs, head fs = Some (bstr "BDLM_NONCE_LEAF_V1"))) in Heq as [Ho Hp].
  - apply (fmap_inj_on _ (λ e, lane_ok e.1 ∧ u64 e.2)) in Ho;
      [|apply outbound_leaf_inj
       |apply Forall_forall; intros [k n] Hin; by apply elem_of_btree_list in Hin; apply Hout1
       |apply Forall_forall; intros [k n] Hin; by apply elem_of_btree_list in Hin; apply Hout2].
    apply (fmap_inj_on _ (λ e, lane_ok e.1 ∧ u64 e.2.1 ∧ u64 e.2.2)) in Hp;
      [|apply processed_leaf_inj
       |apply Forall_forall; intros [k n] Hin; by apply elem_of_btree_list in Hin; apply Hproc1
       |apply Forall_forall; intros [k n] Hin; by apply elem_of_btree_list in Hin; apply Hproc2].
    apply btree_list_inj in Ho, Hp. destruct s1, s2; simpl in *. by subst.
  - apply Forall_fmap, Forall_true. by intros [[[]]].
  - apply Forall_fmap, Forall_true. by intros [[[]]].
  - apply Forall_fmap, Forall_true. by intros [[[]] []].
  - apply Forall_fmap, Forall_true. by intros [[[]] []].
Qed.

(** The replay root commits to the whole store: two well-formed stores
    with one root are equal, outbound counters, high-water marks and heights
    included, unless hashing their leaves and nodes contains a collision. *)
Theorem nonce_root_binding `{Sha256} s1 s2 :
  store_ok s1 → store_ok s2 →
  collision_free (Settlement.root_preimages (leaves s1) ++ Settlement.root_preimages (leaves s2)) →
  root s1 = root s2 → s1 = s2.
Proof.
  intros Hok1 Hok2 Hcf Heq. apply leaves_inj; [done..|].
  eapply Settlement.merkle_root_inj; [by apply leaves_ok..|done|done].
Qed.
End Nonce.

(** ** The message registry *)
Module MessageRegistry.
Import Message.

Record CrossDomainMessageRegistry := { messages : gmap MessageId CrossDomainMessage }.

Inductive RegistryError :=
  | InvalidMessageId
  | MessageAlreadyRegistered (id : MessageId).

Section registry.
Context `{Sha256}.

Definition new : CrossDomainMessageRegistry := {| messages := ∅ |}.

Definition insert (r : CrossDomainMessageRegistry) (message : CrossDomainMessage) :
    result RegistryError () * CrossDomainMessageRegistry :=
  if negb (verify_id message) then (Err InvalidMessageId, r)
  else if bool_decide (is_Some (messages r !! message_id message))
  then (Err (MessageAlreadyRegistered (message_id message)), r)
  else (Ok (), {| messages := <[message_id message := message]> (messages r) |}).

Definition get (r : CrossDomainMessageRegistry) (id : MessageId) : option CrossDomainMessage :=
  messages r !! id.

Definition len (r : CrossDomainMessageRegistry) : nat := size (messages r).

Definition leaf_fields (msg : CrossDomainMessage) : list bytes :=
  [bstr "BDLM_MESSAGE_LEAF_V1";
   message_id msg;
   le_bytes 4 (source_domain msg);
   le_bytes 4 (target_domain msg);
   le_bytes 8 (nonce msg);
   as_bytes (kind msg)].

Definition root (r : CrossDomainMessageRegistry) : Hash32 :=
  Settlement.merkle_root (hash_fields_bytes <$> (leaf_fields <$> btree_values (messages r))).

Inductive reachable : CrossDomainMessageRegistry → Prop :=
  | reach_new : reachable new
  | reach_insert r m :
      reachable r → message_ok m → reachable (insert r m).2.

(** Every stored message sits under its own, recomputed id. *)
Definition inv (r : CrossDomainMessageRegistry) : Prop :=
  ∀ id m, messages r !! id = Some m → message_id m = id ∧ verify_id m = true ∧ message_ok m.

Lemma registry_reachable_inv r : reachable r → inv r.
Proof.
  induction 1 as [|r m _ IH Hok]; [by intros id m Hm; simpl in Hm; apply lookup_empty_Some in Hm|].
  unfold insert. destruct (verify_id m) eqn:Hv; simpl; [|done].
  case_bool_decide; [done|]. intros id m' Hm'. simpl in Hm'.
  apply lookup_insert_Some in Hm' as [[<- <-]|[_ Hm']]; [done|by apply IH].
Qed.

Lemma insert_ok r r' m :
  insert r m = (Ok (), r') →
  messages r !! message_id m = None ∧ verify_id m = true ∧
  messages r' = <[message_id m := m]> (messages r).
Proof.
  unfold insert. intros Hi. inv_op Hi. case_bool_decide; simplify_eq/=.
  rewrite eq_None_not_Some. split_and!; try done. by destruct (verify_id m).
Qed.

(** Registration is write-once.  In a reachable registry every message is
    stored under its recomputed id, and a successful registration adds its
    message, keeps every message already there, and makes every further
    message with the same id fail. *)
Theorem message_registry_write_once r r' m :
  reachable r → message_ok m → insert r m = (Ok (), r') →
  inv r' ∧ get r' (message_id m) = Some m ∧
  (∀ id m', get r id = Some m' → get r' id = Some m') ∧
  (∀ m', message_id m' = message_id m → is_ok (insert r' m').1 = false ∧ (insert r' m').2 = r').
Proof.
  intros Hreach Hok Hi.
  assert (reachable r') as Hreach'.
  { replace r' with (insert r m).2 by (by rewrite Hi). by constructor. }
  apply insert_ok in Hi as (Hnone & Hv & Hr'). split_and!.
  - by apply registry_reachable_inv.
  - unfold get. rewrite Hr'. apply lookup_insert_eq.
  - unfold get. intros id m' Hm'. rewrite Hr', lookup_insert_ne; [done|]. congruence.
  - intros m' Hid. unfold insert. destruct (verify_id m'); simpl; [|done].
    rewrite bool_decide_true; [done|]. rewrite Hr', Hid, lookup_insert_eq. by eexists.
Qed.

Lemma message_leaf_ok m : message_ok m → Settlement.leaf_ok (leaf_fields m).
Proof. intros []. split; [split|done]; [unfold leaf_fields; solve_fields_ok|done]. Qed.

Definition registry_preimages (r : CrossDomainMessageRegistry) : list bytes :=
  Settlement.root_preimages (leaf_fields <$> btree_values (messages r)) ++
  (encode_fields ∘ id_fields <$> btree_values (messages r)).

(** The leaves alone already give the ids in key order. *)
Lemma leaves_keys r1 r2 :
  inv r1 → inv r2 →
  leaf_fields <$> btree_values (messages r1) = leaf_fields <$> btree_values (messages r2) →
  (btree_list (messages r1)).*1 = (btree_list (messages r2)).*1.
Proof.
  assert (∀ r, inv r → (btree_list (messages r)).*1 =
    (λ fs, default [] (fs !! 1%nat)) <$> (leaf_fields <$> btree_values (messages r))) as Hkeys.
  { intros r Hinv. unfold btree_values. rewrite <-!list_fmap_compose. apply list_fmap_ext.
    intros i [id m] Hi. apply list_elem_of_lookup_2, elem_of_btree_list, Hinv in Hi.
    destruct Hi as [Hid _]. unfold compose. simpl. by rewrite Hid. }
  intros H1 H2 Heq. rewrite (Hkeys _ H1), (Hkeys _ H2). by rewrite Heq.
Qed.

(** The message root commits to the registered messages.  Two reachable
    registries with one root register the same ids, and under each id the
    same message content: domains, heights, index, nonce, parties, payload,
    kind and expiry. *)
Theorem message_root_binding r1 r2 :
  reachable r1 → reachable r2 →
  collision_free (registry_preimages r1 ++ registry_preimages r2) →
  root r1 = root r2 →
  dom (messages r1) = dom (messages r2) ∧
  ∀ id m1 m2, get r1 id = Some m1 → get r2 id = Some m2 → same_content m1 m2.
Proof.
  intros Hr1 Hr2 Hcf Heq. apply registry_reachable_inv in Hr1, Hr2.
  assert (∀ r, inv r → Forall Settlement.leaf_ok (leaf_fields <$> btree_values (messages r)))
    as Hleaf.
  { intros r Hinv. apply Forall_fmap, Forall_forall. intros m Hm.
    apply elem_of_btree_values in Hm as [id Hm]. by apply message_leaf_ok, (Hinv id). }
  apply Settlement.merkle_root_inj in Heq; [|by apply Hleaf..|].
  2: { eapply collision_free_mono; [|exact Hcf]. unfold registry_preimages. set_solver. }
  apply leaves_keys in Heq; [|done..]. split.
  - apply set_eq. intros id. rewrite !elem_of_dom.
    assert (∀ r, is_Some (messages r !! id) ↔ id ∈ (btree_list (messages r)).*1) as Hk.
    { intros r. rewrite list_elem_of_fmap. split.
      - intros [m Hm]. exists (id, m). by rewrite elem_of_btree_list.
      - intros ([id' m] & -> & Hm). apply elem_of_btree_list in Hm. by eexists. }
    by rewrite !Hk, Heq.
  - unfold get. intros id m1 m2 Hm1 Hm2.
    destruct (Hr1 _ _ Hm1) as (Hid1 & Hv1 & Hok1), (Hr2 _ _ Hm2) as (Hid2 & Hv2 & Hok2).
    apply message_id_inj; try done; [|congruence].
    eapply collision_free_mono; [|exact Hcf]. unfold registry_preimages.
    assert (m1 ∈ btree_values (messages r1)) by (apply elem_of_btree_values; eauto).
    assert (m2 ∈ btree_values (messages r2)) by (apply elem_of_btree_values; eauto).
    intros x. rewrite !elem_of_cons, !elem_of_app.
    intros [->|[->|Hx]]; [left|right|by apply not_elem_of_nil in Hx];
      right; eapply list_elem_of_fmap_2'; done.
Qed.
End registry.
End MessageRegistry.

(** ** The theorems at concrete inputs *)
Module MessagesExamples.
#[local] Existing Instance poly_sha256.

Definition addr (b : Z) : Address := replicate 32 b.

Definition message (n : Z) : Message.CrossDomainMessage :=
  Message.new
    {| Message.p_source_domain := 1; Message.p_target_domain := 2;
       Message.p_source_height := 10; Message.p_event_index := 0; Message.p_nonce := n;
       Message.p_sender := addr 1; Message.p_recipient := addr 2;
       Message.p_payload_hash := addr 9; Message.p_kind := Message.BridgeLock;
       Message.p_expiry_height := 100 |}.

Definition event (i : Z) : Event.DomainEvent :=
  {| Event.domain_id := 1; Event.domain_height := 10; Event.ev_index := i;
     Event.ev_kind := Event.BridgeLocked; Event.emitter := addr 3;
     Event.message := Some (message i); Event.ev_payload_hash := addr 4 |}.

(** Three events, so that the last one is promoted. *)
Definition tree : Event.DomainEventTree := {| Event.events := [event 0; event 1; event 2] |}.

Lemma message_ok_0 : Message.message_ok (message 0).
Proof. split; vm_compute; (done || (split; discriminate)). Qed.

Lemma event_ok_i i : u32 i → Event.event_ok (event i).
Proof.
  intros Hi. split.
  - vm_compute. split; discriminate.
  - vm_compute. split; discriminate.
  - exact Hi.
  - vm_compute. discriminate.
  - reflexivity.
  - apply sha256_length.
  - reflexivity.
Qed.

Lemma events_ok : Forall Event.event_ok (Event.events tree).
Proof. repeat constructor; apply event_ok_i; int_lia. Qed.

Lemma event_proof_complete_witness :
  ∃ p, Event.proof tree 2 = Some p ∧ Event.leaf p = Event.leaf_hash (event 2) ∧
    Event.index p = 2%nat ∧ Event.verify p (Event.root tree) = true.
Proof.
  apply (Event.event_proof_complete tree 2 (event 2)).
  - exact events_ok.
  - reflexivity.
  - apply collision_freeb_spec. vm_compute. reflexivity.
Defined.

Lemma event_proof_sound_witness :
  ∃ e', e' ∈ Event.events tree ∧ Event.same_leaf (event 1) e'.
Proof.
  apply (Event.event_proof_sound tree
    (default {| Event.leaf := []; Event.index := 0; Event.siblings := [] |}
      (Event.proof tree 1)) (event 1)).
  - exact events_ok.
  - apply event_ok_i. int_lia.
  - vm_compute. reflexivity.
  - vm_compute. repeat constructor.
  - apply collision_freeb_spec. vm_compute. reflexivity.
  - vm_compute. reflexivity.
Defined.

Lemma replay_refused_forever_witness :
  let s := (Nonce.mark_processed_at Nonce.new 1 2 (addr 1) 5 70).2 in
  Nonce.mark_processed_at (Nonce.next_nonce s 1 2 (addr 1)).2 1 2 (addr 1) 4 80 =
    (Err Nonce.AlreadyProcessed, (Nonce.next_nonce s 1 2 (addr 1)).2).
Proof.
  intros s.
  apply (Nonce.replay_refused_forever Nonce.new s _ 1 2 (addr 1) 5 70).
  - vm_compute. reflexivity.
  - apply rtc_once. constructor.
  - lia.
Defined.

Lemma next_nonce_fresh_witness :
  let s := (Nonce.next_nonce Nonce.new 1 2 (addr 1)).2 in
  0 < (Nonce.next_nonce s 1 2 (addr 1)).1.
Proof.
  intros s.
  apply (Nonce.next_nonce_fresh Nonce.new s s (Nonce.next_nonce s 1 2 (addr 1)).2
    1 2 (addr 1)).
  - intros k. vm_compute. split; discriminate.
  - vm_compute. reflexivity.
  - apply rtc_refl.
  - vm_compute. reflexivity.
  - vm_compute. reflexivity.
Defined.

Definition store : Nonce.ReplayNonceStore :=
  (Nonce.mark_processed_at (Nonce.next_nonce Nonce.new 1 2 (addr 1)).2 2 1 (addr 5) 3 70).2.

(** The same store, reached in the other order. *)
Definition store' : Nonce.ReplayNonceStore :=
  (Nonce.next_nonce (Nonce.mark_processed_at Nonce.new 2 1 (addr 5) 3 70).2 1 2 (addr 1)).2.

Lemma lane_ok_addr src tgt b : u32 src → u32 tgt → Nonce.lane_ok (src, tgt, addr b).
Proof. done. Qed.

Lemma store_ok : Nonce.store_ok store ∧ Nonce.store_ok store'.
Proof.
  assert (Nonce.store_ok Nonce.new) by (split; simpl; intros ?? Hl; by apply lookup_empty_Some in Hl).
  split; unfold store, store'.
  - apply Nonce.mark_processed_ok; [apply Nonce.next_nonce_ok; [done|]|..];
      try apply lane_ok_addr; int_lia.
  - apply Nonce.next_nonce_ok; [apply Nonce.mark_processed_ok; [done|..]|];
      try apply lane_ok_addr; int_lia.
Qed.

Lemma nonce_root_binding_witness : store = store'.
Proof.
  apply (Nonce.nonce_root_binding store store').
  - exact (proj1 store_ok).
  - exact (proj2 store_ok).
  - apply collision_freeb_spec. vm_compute. reflexivity.
  - vm_compute. reflexivity.
Defined.

Definition registry : MessageRegistry.CrossDomainMessageRegistry :=
  (MessageRegistry.insert MessageRegistry.new (message 0)).2.

Lemma message_registry_write_once_witness :
  MessageRegistry.get registry (Message.message_id (message 0)) = Some (message 0) ∧
  is_ok (MessageRegistry.insert registry (message 0)).1 = false.
Proof.
  destruct (MessageRegistry.message_registry_write_once MessageRegistry.new registry (message 0))
    as (_ & Hget & _ & Hagain).
  - constructor.
  - exact message_ok_0.
  - vm_compute. reflexivity.
  - split; [exact Hget|]. exact (proj1 (Hagain (message 0) eq_refl)).
Defined.

Lemma message_root_binding_witness :
  dom (MessageRegistry.messages registry) = dom (MessageRegistry.messages registry).
Proof.
  apply (MessageRegistry.message_root_binding registry registry).
  - apply MessageRegistry.reach_insert; [constructor|exact message_ok_0].
  - apply MessageRegistry.reach_insert; [constructor|exact message_ok_0].
  - apply collision_freeb_spec. vm_compute. reflexivity.
  - reflexivity.
Defined.
End MessagesExamples.
