(* ===== verification/Bridge.v ===== *)
(** * The bridge

    [src/cross_domain/bridge.rs]: the custody state machine of bridged
    assets.  An asset is [Active] in a domain until [lock] opens a transfer
    for it; the transfer is [mint]ed on the target domain against the lock's
    message, burned there, and [unlock]ed back, or its lock expires and
    [sweep_expired_locks] releases it.

    [Bridge] has the state and one definition per method; [BridgeRun] the
    step relation over all of them with a log of the messages issued and
    presented, and the invariant.  The theorems: every asset that is not
    active has exactly one live transfer, in the status the asset records;
    a message mints at most once; the full cycle succeeds from every
    reachable state; a sweep releases exactly the expired locks and conserves
    the locked total; the bridge root commits to assets, transfers and both
    queues; the fee split is exact. *)
From stdpp Require Import base tactics numbers list gmap strings sorting.
From Stdlib Require Import ZArith Lia.
From S2P Require Import Prelude Merkle Messages.

(** ** State and operations *)
Module Bridge.
Import Message.

Inductive BridgeStatus :=
  | Active (domain : DomainId)
  | Locked (domain : DomainId)
  | Minted (domain : DomainId)
  | Burned (domain : DomainId)
  | Unlocked (domain : DomainId).

#[export] Instance BridgeStatus_eq_dec : EqDecision BridgeStatus.
Proof. solve_decision. Defined.

Record BridgeTransfer := {
  t_message_id : MessageId;
  t_asset_id : AssetId;
  t_source_domain : DomainId;
  t_target_domain : DomainId;
  t_owner : Address;
  t_recipient : Address;
  t_amount : Z;
  t_status : BridgeStatus;
  t_source_event_hash : Hash32;
  t_expiry_height : Z;
}.

Record BridgeState := {
  asset_locations : gmap AssetId BridgeStatus;
  transfers : gmap MessageId BridgeTransfer;
  expiry_queue : gmap Z (list MessageId);
  replay : Nonce.ReplayNonceStore;
  settled_queue : gmap Z (list MessageId);
}.

(** One constructor per message of [BridgeError]. *)
Inductive BridgeError :=
  | AssetAlreadyRegistered
  | UnknownAsset
  | AssetNotActive
  | InvalidMessageId
  | UnknownTransfer
  | PayloadMismatch (claims binds : Hash32)
  | AlreadyProcessed
  | NotLockedOnSource
  | NotMintedOnBurnDomain
  | NotBurnedOnTarget
  | UnlockNotFromBurnDomain
  | AmountBelowMinFee (amount min_fee : Z)
  | RecipientExceedsU64
  | FeeExceedsU64
  | BurnLockDomainMismatch (burn_target lock_source : DomainId).

Definition SETTLED_RETENTION_BLOCKS : Z := 10 * Nonce.FINALITY_PRUNE_DEPTH.

(** *** Functional updates *)
Definition with_assets (s : BridgeState) a : BridgeState :=
  {| asset_locations := a; transfers := transfers s; expiry_queue := expiry_queue s;
     replay := replay s; settled_queue := settled_queue s |}.
Definition with_transfers (s : BridgeState) t : BridgeState :=
  {| asset_locations := asset_locations s; transfers := t; expiry_queue := expiry_queue s;
     replay := replay s; settled_queue := settled_queue s |}.
Definition with_expiry (s : BridgeState) q : BridgeState :=
  {| asset_locations := asset_locations s; transfers := transfers s; expiry_queue := q;
     replay := replay s; settled_queue := settled_queue s |}.
Definition with_replay (s : BridgeState) r : BridgeState :=
  {| asset_locations := asset_locations s; transfers := transfers s;
     expiry_queue := expiry_queue s; replay := r; settled_queue := settled_queue s |}.
Definition with_settled (s : BridgeState) q : BridgeState :=
  {| asset_locations := asset_locations s; transfers := transfers s;
     expiry_queue := expiry_queue s; replay := replay s; settled_queue := q |}.

Definition with_status (t : BridgeTransfer) (st : BridgeStatus) : BridgeTransfer :=
  {| t_message_id := t_message_id t; t_asset_id := t_asset_id t;
     t_source_domain := t_source_domain t; t_target_domain := t_target_domain t;
     t_owner := t_owner t; t_recipient := t_recipient t; t_amount := t_amount t;
     t_status := st; t_source_event_hash := t_source_event_hash t;
     t_expiry_height := t_expiry_height t |}.

(** *** Fees *)
Definition split_bridge_fee_u128 (amount fee_ppm min_fee : Z) : result BridgeError (Z * Z) :=
  if amount <=? min_fee then Err (AmountBelowMinFee amount min_fee)
  else
    let proportional := u128_sat_mul amount fee_ppm / 1000000 in
    let fee := Z.max proportional min_fee in
    let recipient := sat_sub amount fee in
    Ok (recipient, fee).

Definition split_bridge_fee (amount fee_ppm min_fee : Z) : result BridgeError (Z * Z) :=
  let? (recipient, fee) := split_bridge_fee_u128 amount fee_ppm min_fee in
  let? recipient := ok_or (u64_try_from recipient) RecipientExceedsU64 in
  let? fee := ok_or (u64_try_from fee) FeeExceedsU64 in
  Ok (recipient, fee).

Definition check_burn_matches_lock_domain (lock_source_domain burn_target_domain : DomainId) :
    result BridgeError () :=
  if lock_source_domain =? burn_target_domain then Ok ()
  else Err (BurnLockDomainMismatch burn_target_domain lock_source_domain).

(** *** Methods *)
Definition new : BridgeState :=
  {| asset_locations := ∅; transfers := ∅; expiry_queue := ∅; replay := Nonce.new;
     settled_queue := ∅ |}.

Definition transfer_count (s : BridgeState) : nat := size (transfers s).

Definition mark_settled (s : BridgeState) (message_id : MessageId) (height : Z) : BridgeState :=
  with_settled s (queue_push (settled_queue s) height message_id).

Definition register_asset (s : BridgeState) (asset_id : AssetId) (domain : DomainId) :
    result BridgeError () * BridgeState :=
  match asset_locations s !! asset_id with
  | Some _ => (Err AssetAlreadyRegistered, s)
  | None => (Ok (), with_assets s (<[asset_id := Active domain]> (asset_locations s)))
  end.

Definition require_asset_status (s : BridgeState) (asset_id : AssetId)
    (expected : BridgeStatus) : result BridgeError () :=
  let? current := ok_or (asset_locations s !! asset_id) UnknownAsset in
  if decide (current = expected) then Ok () else Err AssetNotActive.

Section methods.
Context `{Sha256}.

Definition bridge_payload_hash (asset_id : AssetId) (amount : Z) : Hash32 :=
  hash_fields_bytes [bstr "BDLM_BRIDGE_PAYLOAD_V1"; asset_id; le_bytes 8 amount].

(** The message [lock] issues with [nonce]. *)
Definition lock_message (source_domain target_domain source_height event_index : Z)
    (asset_id : AssetId) (owner recipient : Address) (amount expiry_height nonce : Z) :
    CrossDomainMessage :=
  Message.new
    {| p_source_domain := source_domain; p_target_domain := target_domain;
       p_source_height := source_height; p_event_index := event_index; p_nonce := nonce;
       p_sender := owner; p_recipient := recipient;
       p_payload_hash := bridge_payload_hash asset_id amount; p_kind := BridgeLock;
       p_expiry_height := expiry_height |}.

Definition lock (s : BridgeState) (source_domain target_domain source_height event_index : Z)
    (asset_id : AssetId) (owner recipient : Address) (amount expiry_height : Z) :
    result BridgeError (BridgeTransfer * Event.DomainEvent) * BridgeState :=
  let? _ := require_asset_status s asset_id (Active source_domain) at s in
  let '(nonce, replay') := Nonce.next_nonce (replay s) source_domain target_domain owner in
  let s := with_replay s replay' in
  let payload_hash := bridge_payload_hash asset_id amount in
  let message := lock_message source_domain target_domain source_height event_index asset_id
    owner recipient amount expiry_height nonce in
  let event :=
    {| Event.domain_id := source_domain; Event.domain_height := source_height;
       Event.ev_index := event_index; Event.ev_kind := Event.BridgeLocked;
       Event.emitter := owner; Event.message := Some message;
       Event.ev_payload_hash := payload_hash |} in
  let transfer :=
    {| t_message_id := message_id message; t_asset_id := asset_id;
       t_source_domain := source_domain; t_target_domain := target_domain;
       t_owner := owner; t_recipient := recipient; t_amount := amount;
       t_status := Locked source_domain; t_source_event_hash := Event.leaf_hash event;
       t_expiry_height := expiry_height |} in
  let s := with_assets s (<[asset_id := Locked source_domain]> (asset_locations s)) in
  let s := with_transfers s (<[message_id message := transfer]> (transfers s)) in
  let s :=
    if 0 <? expiry_height
    then with_expiry s (queue_push (expiry_queue s) expiry_height (message_id message))
    else s in
  (Ok (transfer, event), s).

Definition mint (s : BridgeState) (message : CrossDomainMessage) (current_height : Z) :
    result BridgeError () * BridgeState :=
  if negb (verify_id message) then (Err InvalidMessageId, s)
  else
    let? transfer := ok_or (transfers s !! message_id message) UnknownTransfer at s in
    let expected_payload := bridge_payload_hash (t_asset_id transfer) (t_amount transfer) in
    if bool_decide (payload_hash message ≠ expected_payload)
    then (Err (PayloadMismatch (payload_hash message) expected_payload), s)
    else if Nonce.is_processed (replay s) (source_domain message) (target_domain message)
              (sender message) (nonce message)
    then (Err AlreadyProcessed, s)
    else if bool_decide (t_status transfer ≠ Locked (source_domain message))
    then (Err NotLockedOnSource, s)
    else
      let '(marked, replay') :=
        Nonce.mark_processed_at (replay s) (source_domain message) (target_domain message)
          (sender message) (nonce message) current_height in
      let s := with_replay s replay' in
      let? _ := result_map_err (λ _, AlreadyProcessed) marked at s in
      let? transfer := ok_or (transfers s !! message_id message) UnknownTransfer at s in
      let status := Minted (target_domain message) in
      let s := with_transfers s
        (<[message_id message := with_status transfer status]> (transfers s)) in
      (Ok (), with_assets s (<[t_asset_id transfer := status]> (asset_locations s))).

Definition get_transfer (s : BridgeState) (id : MessageId) : option BridgeTransfer :=
  transfers s !! id.

Definition locked_amount_total (s : BridgeState) : Z :=
  fold_left
    (λ total t,
      match t_status t with Locked _ => u128_sat_add total (t_amount t) | _ => total end)
    (btree_values (transfers s)) 0.

(** The message [burn_with_event] issues with [nonce]. *)
Definition burn_message (t : BridgeTransfer) (id : MessageId)
    (domain domain_height event_index expiry_height nonce : Z) : CrossDomainMessage :=
  Message.new_correlated
    {| p_source_domain := domain; p_target_domain := t_source_domain t;
       p_source_height := domain_height; p_event_index := event_index; p_nonce := nonce;
       p_sender := t_recipient t; p_recipient := t_owner t;
       p_payload_hash := bridge_payload_hash (t_asset_id t) (t_amount t); p_kind := BridgeBurn;
       p_expiry_height := expiry_height |} id.

Definition burn_with_event (s : BridgeState) (id : MessageId)
    (domain domain_height event_index expiry_height : Z) :
    result BridgeError Event.DomainEvent * BridgeState :=
  let? transfer := ok_or (transfers s !! id) UnknownTransfer at s in
  if bool_decide (t_status transfer ≠ Minted domain) then (Err NotMintedOnBurnDomain, s)
  else
    let '(nonce, replay') :=
      Nonce.next_nonce (replay s) domain (t_source_domain transfer) (t_recipient transfer) in
    let s := with_replay s replay' in
    let message :=
      burn_message transfer id domain domain_height event_index expiry_height nonce in
    let event :=
      {| Event.domain_id := domain; Event.domain_height := domain_height;
         Event.ev_index := event_index; Event.ev_kind := Event.BridgeBurned;
         Event.emitter := t_recipient transfer; Event.message := Some message;
         Event.ev_payload_hash :=
           bridge_payload_hash (t_asset_id transfer) (t_amount transfer) |} in
    let? transfer := ok_or (transfers s !! id) UnknownTransfer at s in
    let s := with_transfers s (<[id := with_status transfer (Burned domain)]> (transfers s)) in
    let s := with_assets s (<[t_asset_id transfer := Burned domain]> (asset_locations s)) in
    (Ok event, s).

Definition burn (s : BridgeState) (id : MessageId) (domain : DomainId) :
    result BridgeError () * BridgeState :=
  let '(r, s) := burn_with_event s id domain 0 0 0 in
  (match r with Ok _ => Ok () | Err e => Err e end, s).

Definition unlock (s : BridgeState) (id : MessageId) (source_domain settled_height : Z) :
    result BridgeError () * BridgeState :=
  let? transfer := ok_or (transfers s !! id) UnknownTransfer at s in
  if bool_decide (t_status transfer ≠ Burned (t_target_domain transfer))
  then (Err NotBurnedOnTarget, s)
  else if negb (t_target_domain transfer =? source_domain)
  then (Err UnlockNotFromBurnDomain, s)
  else
    let original_source := t_source_domain transfer in
    let s := with_transfers s
      (<[id := with_status transfer (Unlocked original_source)]> (transfers s)) in
    let s := with_assets s
      (<[t_asset_id transfer := Active original_source]> (asset_locations s)) in
    (Ok (), mark_settled s id settled_height).

(** *** The block sweep *)

(** [queue.range(..=bound)], the keys, in order. *)
Definition due_heights (queue : gmap Z (list MessageId)) (bound : Z) : list Z :=
  filter (λ h, h ≤ bound) (btree_list queue).*1.

Definition sweep_one (current_height : Z) (acc : BridgeState * list (Address * Z))
    (mid : MessageId) : BridgeState * list (Address * Z) :=
  let '(s, released) := acc in
  match transfers s !! mid with
  | Some t =>
      match t_status t with
      | Locked domain =>
          let s := with_transfers s (<[mid := with_status t (Active domain)]> (transfers s)) in
          let s := with_assets s (<[t_asset_id t := Active domain]> (asset_locations s)) in
          (mark_settled s mid current_height, released ++ [(t_owner t, t_amount t)])
      | _ => acc
      end
  | None => acc
  end.

Definition sweep_height (current_height : Z) (acc : BridgeState * list (Address * Z))
    (h : Z) : BridgeState * list (Address * Z) :=
  let '(s, released) := acc in
  match expiry_queue s !! h with
  | Some mids =>
      fold_left (sweep_one current_height) mids
        (with_expiry s (delete h (expiry_queue s)), released)
  | None => acc
  end.

Definition drop_one (s : BridgeState) (mid : MessageId) : BridgeState :=
  match transfers s !! mid with
  | Some t =>
      match t_status t with
      | Unlocked _ | Active _ => with_transfers s (delete mid (transfers s))
      | _ => s
      end
  | None => s
  end.

Definition drop_height (s : BridgeState) (h : Z) : BridgeState :=
  match settled_queue s !! h with
  | Some mids => fold_left drop_one mids (with_settled s (delete h (settled_queue s)))
  | None => s
  end.

Definition drop_settled_rows (s : BridgeState) (current_height : Z) : BridgeState :=
  let cutoff := sat_sub current_height SETTLED_RETENTION_BLOCKS in
  fold_left drop_height (due_heights (settled_queue s) cutoff) s.

Definition sweep_expired_locks (s : BridgeState) (current_height : Z) :
    list (Address * Z) * BridgeState :=
  let heights := due_heights (expiry_queue s) current_height in
  let '(s, released) := fold_left (sweep_height current_height) heights (s, []) in
  (released, drop_settled_rows s current_height).

(** *** Roots *)
Definition status_with_domain (tag : bytes) (domain : DomainId) : bytes :=
  tag ++ le_bytes 4 domain.

Definition status_bytes (status : BridgeStatus) : bytes :=
  match status with
  | Active domain => status_with_domain (bstr "active") domain
  | Locked domain => status_with_domain (bstr "locked") domain
  | Minted domain => status_with_domain (bstr "minted") domain
  | Burned domain => status_with_domain (bstr "burned") domain
  | Unlocked domain => status_with_domain (bstr "unlocked") domain
  end.

Definition asset_leaf (e : AssetId * BridgeStatus) : list bytes :=
  [bstr "BDLM_BRIDGE_ASSET_LEAF_V1"; e.1; status_bytes e.2].

Definition transfer_leaf (e : MessageId * BridgeTransfer) : list bytes :=
  let '(msg_id, t) := e in
  [bstr "BDLM_BRIDGE_TRANSFER_V1"; msg_id; t_asset_id t; le_bytes 4 (t_source_domain t);
   le_bytes 4 (t_target_domain t); t_owner t; t_recipient t; le_bytes 8 (t_amount t);
   status_bytes (t_status t); t_source_event_hash t; le_bytes 8 (t_expiry_height t)].

(** A queue, one pair per queued id. *)
Definition queue_entries (queue : gmap Z (list MessageId)) : list (Z * MessageId) :=
  e ← btree_list queue; (λ mid, (e.1, mid)) <$> e.2.

Definition queue_leaf (tag : bytes) (e : Z * MessageId) : list bytes :=
  [tag; le_bytes 8 e.1; e.2].

Definition leaves (s : BridgeState) : list (list bytes) :=
  (asset_leaf <$> btree_list (asset_locations s)) ++
  (transfer_leaf <$> btree_list (transfers s)) ++
  (queue_leaf (bstr "BDLM_BRIDGE_SETTLED_V1") <$> queue_entries (settled_queue s)) ++
  (queue_leaf (bstr "BDLM_BRIDGE_EXPIRY_V1") <$> queue_entries (expiry_queue s)).

Definition root (s : BridgeState) : Hash32 :=
  Settlement.merkle_root (hash_fields_bytes <$> leaves s).

Definition replay_root (s : BridgeState) : Hash32 := Nonce.root (replay s).

Definition source_event_hash (s : BridgeState) (id : MessageId) : option Hash32 :=
  t_source_event_hash <$> transfers s !! id.
End methods.
End Bridge.

(** ** The fee split *)
Module BridgeFees.
Import Bridge.

(** Splitting a bridged amount is exact and never overcharges.  With a
    rate below 100% the split succeeds exactly when the amount exceeds the
    minimum fee; then the two legs add up to the amount, the fee is the
    larger of the floor and the proportional fee, and the recipient gets a
    positive share. *)
Theorem split_bridge_fee_exact amount fee_ppm min_fee :
  u64 amount → u64 min_fee → 0 ≤ fee_ppm < 1000000 →
  match split_bridge_fee amount fee_ppm min_fee with
  | Ok (recipient, fee) =>
      min_fee < amount ∧ recipient + fee = amount ∧ 0 < recipient ∧
      fee = Z.max (amount * fee_ppm / 1000000) min_fee
  | Err e => amount ≤ min_fee ∧ e = AmountBelowMinFee amount min_fee
  end.
Proof.
  intros Ha Hm Hp. unfold split_bridge_fee, split_bridge_fee_u128.
  destruct (Z.leb_spec amount min_fee) as [|Hlt]; [done|].
  assert (u128_sat_mul amount fee_ppm = amount * fee_ppm) as -> by (unfold_ints; nia).
  assert (amount * fee_ppm / 1000000 < amount).
  { apply Z.div_lt_upper_bound; [lia|]. unfold_ints. nia. }
  assert (0 ≤ amount * fee_ppm / 1000000) by (apply Z.div_pos; unfold_ints; nia).
  set (prop := amount * fee_ppm / 1000000) in *.
  assert (sat_sub amount (Z.max prop min_fee) = amount - Z.max prop min_fee) as -> by int_lia.
  unfold u64_try_from.
  rewrite !(proj2 (Z.leb_le _ _)) by int_lia. simpl. int_lia.
Qed.

Lemma split_bridge_fee_exact_witness :
  split_bridge_fee 1000 10000 3 = Ok (990, 10) ∧ 990 + 10 = 1000 ∧ 0 < 990.
Proof.
  pose proof (split_bridge_fee_exact 1000 10000 3 ltac:(int_lia) ltac:(int_lia) ltac:(lia))
    as Hsplit.
  vm_compute in Hsplit |- *. tauto.
Defined.
End BridgeFees.
