(* ===== verification/BridgeInv.v ===== *)
(** * The bridge: runs and their invariant

    The step relation over the bridge's methods, with a ghost log of the
    messages it issued or was presented with, and the custody invariant.
    Hash collisions are excluded only among the logged messages. *)
From stdpp Require Import base tactics numbers list gmap strings sorting.
From Stdlib Require Import ZArith Lia.
From S2P Require Import Prelude Merkle Messages Bridge.
Import Message Bridge.

Module BridgeRun.
Section run.
Context `{Sha256}.

(** ** Runs *)
Definition lane_nonce (s : BridgeState) (source target : DomainId) (owner : Address) : Z :=
  Nonce.outbound (replay s) (source, target, owner).

Inductive step : list CrossDomainMessage * BridgeState →
    list CrossDomainMessage * BridgeState → Prop :=
  | step_register log s asset domain :
      step (log, s) (log, (register_asset s asset domain).2)
  | step_lock log s src tgt height index asset owner recipient amount expiry :
      let m := lock_message src tgt height index asset owner recipient amount expiry
                 (lane_nonce s src tgt owner) in
      message_ok m → u64 amount → lane_nonce s src tgt owner < u64_max →
      step (log, s)
        (m :: log, (lock s src tgt height index asset owner recipient amount expiry).2)
  | step_mint log s m height :
      message_ok m → step (log, s) (m :: log, (mint s m height).2)
  | step_burn log s id domain height index expiry :
      step (log, s) (log, (burn_with_event s id domain height index expiry).2)
  | step_unlock log s id domain height :
      step (log, s) (log, (unlock s id domain height).2)
  | step_sweep log s height :
      step (log, s) (log, (sweep_expired_locks s height).2).

Definition reachable (log : list CrossDomainMessage) (s : BridgeState) : Prop :=
  rtc step ([], new) (log, s).

(** No two logged messages collide on their ids. *)
Definition log_ok (log : list CrossDomainMessage) : Prop :=
  collision_free (encode_fields ∘ id_fields <$> log).

(** ** The invariant *)
Definition live (st : BridgeStatus) : Prop :=
  match st with Locked _ | Minted _ | Burned _ => True | _ => False end.

#[export] Instance live_dec st : Decision (live st).
Proof. destruct st; simpl; apply _. Defined.

(** The domain a status names. *)
Definition shaped (t : BridgeTransfer) : Prop :=
  match t_status t with
  | Active d | Locked d | Unlocked d => d = t_source_domain t
  | Minted d | Burned d => d = t_target_domain t
  end.

(** [m] is the message that opened [t]. *)
Record origin (m : CrossDomainMessage) (t : BridgeTransfer) : Prop := {
  or_verify : verify_id m = true;
  or_ok : message_ok m;
  or_id : message_id m = t_message_id t;
  or_source : source_domain m = t_source_domain t;
  or_target : target_domain m = t_target_domain t;
  or_sender : sender m = t_owner t;
  or_recipient : recipient m = t_recipient t;
  or_payload : payload_hash m = bridge_payload_hash (t_asset_id t) (t_amount t);
  or_expiry : expiry_height m = t_expiry_height t;
}.

(** The lane a transfer's message was numbered in. *)
Definition lane (t : BridgeTransfer) : Nonce.Lane :=
  (t_source_domain t, t_target_domain t, t_owner t).

Record inv (log : list CrossDomainMessage) (s : BridgeState) : Prop := {
  inv_origin : ∀ id t, transfers s !! id = Some t →
    t_message_id t = id ∧
    ∃ m, m ∈ log ∧ origin m t ∧ nonce m < Nonce.outbound (replay s) (lane t);
  inv_shape : ∀ id t, transfers s !! id = Some t → shaped t ∧ u64 (t_amount t);
  inv_live : ∀ id t, transfers s !! id = Some t → live (t_status t) →
    asset_locations s !! t_asset_id t = Some (t_status t);
  inv_unique : ∀ id1 t1 id2 t2,
    transfers s !! id1 = Some t1 → transfers s !! id2 = Some t2 →
    live (t_status t1) → live (t_status t2) → t_asset_id t1 = t_asset_id t2 → id1 = id2;
  inv_owned : ∀ a st, asset_locations s !! a = Some st →
    match st with
    | Active _ => True
    | Unlocked _ => False
    | _ => ∃ id t, transfers s !! id = Some t ∧ t_asset_id t = a ∧ t_status t = st
    end;
  inv_mark : ∀ k p, Nonce.processed_high_water (replay s) !! k = Some p →
    p.1 < Nonce.outbound (replay s) k;
  inv_outbound : ∀ k, u64 (Nonce.outbound (replay s) k);
}.

(** *** Changes that keep the invariant *)
Lemma inv_log_mono log log' s : log ⊆ log' → inv log s → inv log' s.
Proof.
  intros Hsub [Ho ? ? ? ? ? ?]. split; try done. intros id t Ht.
  destruct (Ho _ _ Ht) as (? & m & ? & ? & ?). split; [done|]. exists m. eauto.
Qed.

Lemma log_ok_mono log log' : log ⊆ log' → log_ok log' → log_ok log.
Proof.
  intros Hsub. apply collision_free_mono. intros x Hx.
  apply list_elem_of_fmap in Hx as (m & -> & Hm). apply list_elem_of_fmap. exists m. auto.
Qed.

(** The queues carry no invariant of their own here. *)
Lemma inv_with_expiry log s q : inv log s → inv log (with_expiry s q).
Proof. by intros []. Qed.

Lemma inv_with_settled log s q : inv log s → inv log (with_settled s q).
Proof. by intros []. Qed.

(** Replacing the replay store by one that is further on. *)
Lemma inv_with_replay log s r :
  inv log s →
  (∀ k, Nonce.outbound (replay s) k ≤ Nonce.outbound r k) →
  (∀ k p, Nonce.processed_high_water r !! k = Some p → p.1 < Nonce.outbound r k) →
  (∀ k, u64 (Nonce.outbound r k)) → inv log (with_replay s r).
Proof.
  intros [Ho ? ? ? ? ? ?] Hmono Hmark Hu. split; try done. intros id t Ht.
  destruct (Ho _ _ Ht) as (? & m & ? & ? & ?). split; [done|].
  exists m. split_and!; [done..|]. specialize (Hmono (lane t)). simpl. lia.
Qed.

Lemma inv_next_nonce log s src tgt a :
  inv log s → inv log (with_replay s (Nonce.next_nonce (replay s) src tgt a).2).
Proof.
  intros Hinv. assert (Nonce.step (replay s) (Nonce.next_nonce (replay s) src tgt a).2) as Hst
    by constructor.
  pose proof (λ k, Nonce.step_outbound_mono _ _ k (inv_outbound _ _ Hinv) Hst) as Hmono.
  apply inv_with_replay; [done|apply Hmono| |apply (Hmono (src, tgt, a))].
  intros k p Hp. apply (inv_mark _ _ Hinv) in Hp. specialize (Hmono k). lia.
Qed.

(** One live transfer moves to status [st] and its asset to [loc]. *)
Definition move (s : BridgeState) (id : MessageId) (t : BridgeTransfer)
    (st loc : BridgeStatus) : BridgeState :=
  with_assets (with_transfers s (<[id := with_status t st]> (transfers s)))
    (<[t_asset_id t := loc]> (asset_locations s)).

Lemma move_inv log s id t st loc :
  inv log s → transfers s !! id = Some t → live (t_status t) → shaped (with_status t st) →
  (live st ∧ loc = st) ∨ (¬ live st ∧ ∃ d, loc = Active d) → inv log (move s id t st loc).
Proof.
  intros Hinv Ht Hlive Hshape Hloc.
  assert (∀ id' t', <[id := with_status t st]> (transfers s) !! id' = Some t' →
    ∃ t0, transfers s !! id' = Some t0 ∧ t' = with_status t0 (t_status t') ∧
      (id' = id → t' = with_status t st) ∧ (id' ≠ id → t' = t0)) as Hlook.
  { intros id' t' Ht'. destruct (decide (id = id')) as [<-|Hne].
    - rewrite lookup_insert_eq in Ht'. simplify_eq. by exists t.
    - rewrite lookup_insert_ne in Ht' by done. exists t'. destruct t'; naive_solver. }
  assert (∀ id' t0, id' ≠ id → transfers s !! id' = Some t0 → live (t_status t0) →
    t_asset_id t0 ≠ t_asset_id t) as Hother.
  { intros id' t0 Hne Ht0 Hl Ha. by eapply Hne, (inv_unique _ _ Hinv). }
  split; simpl.
  - intros id' t' (t0 & Ht0 & -> & _)%Hlook.
    destruct (inv_origin _ _ Hinv _ _ Ht0) as (? & m & ? & [] & ?). split; [done|].
    exists m. by split_and!.
  - intros id' t' Ht'. apply Hlook in Ht' as (t0 & Ht0 & _ & Heq & Hne).
    destruct (decide (id' = id)) as [->|Hid].
    + rewrite Heq by done. split; [done|]. simplify_eq. apply (inv_shape _ _ Hinv _ _ Ht).
    + rewrite Hne by done. by apply (inv_shape _ _ Hinv id').
  - intros id' t' Ht' Hl. apply Hlook in Ht' as (t0 & Ht0 & _ & Heq & Hne).
    destruct (decide (id' = id)) as [->|Hid].
    + rewrite Heq in * by done. simpl in *. rewrite lookup_insert_eq. naive_solver.
    + rewrite Hne in * by done. rewrite lookup_insert_ne by (apply not_eq_sym; eauto).
      by apply (inv_live _ _ Hinv id').
  - intros id1 t1 id2 t2 H1 H2 Hl1 Hl2 Ha.
    apply Hlook in H1 as (t01 & Ht1 & Ha1 & Heq1 & Hne1).
    apply Hlook in H2 as (t02 & Ht2 & Ha2 & Heq2 & Hne2).
    destruct (decide (id1 = id)) as [->|Hid1], (decide (id2 = id)) as [->|Hid2]; [done|..].
    + exfalso. rewrite Heq1, Hne2 in * by done. by eapply (Hother id2).
    + exfalso. rewrite Heq2, Hne1 in * by done. by eapply (Hother id1).
    + rewrite Hne1, Hne2 in * by done. by eapply (inv_unique _ _ Hinv).
  - intros a st' Ha. destruct (decide (t_asset_id t = a)) as [<-|Hne].
    + rewrite lookup_insert_eq in Ha. injection Ha as <-.
      destruct Hloc as [[Hl ->]|[_ [d ->]]]; [|done].
      destruct st; try done; eexists id, _; by rewrite lookup_insert_eq.
    + rewrite lookup_insert_ne in Ha by done. apply (inv_owned _ _ Hinv) in Ha.
      destruct st'; try done; destruct Ha as (id' & t' & Ht' & Ha' & Hs');
        exists id', t'; (rewrite lookup_insert_ne; [done|]); intros ->; by simplify_eq.
  - apply (inv_mark _ _ Hinv).
  - apply (inv_outbound _ _ Hinv).
Qed.
(** *** Outcomes of the methods *)

(** The transfer and event a successful [lock] returns. *)
Definition lock_event src height index owner payload (m : CrossDomainMessage) :
    Event.DomainEvent :=
  {| Event.domain_id := src; Event.domain_height := height; Event.ev_index := index;
     Event.ev_kind := Event.BridgeLocked; Event.emitter := owner;
     Event.message := Some m; Event.ev_payload_hash := payload |}.

Definition lock_transfer src tgt height index asset owner recipient amount expiry
    (m : CrossDomainMessage) : BridgeTransfer :=
  {| t_message_id := message_id m; t_asset_id := asset; t_source_domain := src;
     t_target_domain := tgt; t_owner := owner; t_recipient := recipient; t_amount := amount;
     t_status := Locked src;
     t_source_event_hash :=
       Event.leaf_hash
         (lock_event src height index owner (bridge_payload_hash asset amount) m);
     t_expiry_height := expiry |}.

Lemma lock_active s src tgt height index asset owner recipient amount expiry :
  asset_locations s !! asset = Some (Active src) →
  let m := lock_message src tgt height index asset owner recipient amount expiry
             (lane_nonce s src tgt owner) in
  let t := lock_transfer src tgt height index asset owner recipient amount expiry m in
  lock s src tgt height index asset owner recipient amount expiry =
    (Ok (t, lock_event src height index owner (bridge_payload_hash asset amount) m),
     {| asset_locations := <[asset := Locked src]> (asset_locations s);
        transfers := <[message_id m := t]> (transfers s);
        expiry_queue :=
          if 0 <? expiry then queue_push (expiry_queue s) expiry (message_id m)
          else expiry_queue s;
        replay := (Nonce.next_nonce (replay s) src tgt owner).2;
        settled_queue := settled_queue s |}).
Proof.
  intros Ha m t. unfold lock, require_asset_status. rewrite Ha. simpl.
  rewrite decide_True by done. by destruct (0 <? expiry).
Qed.

Lemma lock_inactive s src tgt height index asset owner recipient amount expiry :
  asset_locations s !! asset ≠ Some (Active src) →
  ∃ e, lock s src tgt height index asset owner recipient amount expiry = (Err e, s).
Proof.
  intros Ha. unfold lock, require_asset_status.
  destruct (asset_locations s !! asset) as [st|]; simpl; [|by eexists].
  rewrite decide_False by congruence. by eexists.
Qed.

Lemma mint_ok s m h s' :
  mint s m h = (Ok (), s') →
  ∃ t r, verify_id m = true ∧ transfers s !! message_id m = Some t ∧
    payload_hash m = bridge_payload_hash (t_asset_id t) (t_amount t) ∧
    Nonce.is_processed (replay s) (source_domain m) (target_domain m) (sender m) (nonce m)
      = false ∧
    t_status t = Locked (source_domain m) ∧
    Nonce.mark_processed_at (replay s) (source_domain m) (target_domain m) (sender m)
      (nonce m) h = (Ok (), r) ∧
    s' = move (with_replay s r) (message_id m) t (Minted (target_domain m))
           (Minted (target_domain m)).
Proof.
  unfold mint. destruct (verify_id m) eqn:Hv; simpl; [|done].
  destruct (transfers s !! message_id m) as [t|] eqn:Ht; simpl; [|done].
  case_bool_decide as Hp; [done|]. destruct (Nonce.is_processed _ _ _ _ _) eqn:Hproc; [done|].
  case_bool_decide as Hs; [done|].
  destruct (Nonce.mark_processed_at _ _ _ _ _ _) as [[[]|] r] eqn:Hm; simpl; [|done].
  intros ?; simplify_eq. by exists t, r.
Qed.

Lemma mint_intro s m h t :
  verify_id m = true → transfers s !! message_id m = Some t →
  payload_hash m = bridge_payload_hash (t_asset_id t) (t_amount t) →
  Nonce.is_processed (replay s) (source_domain m) (target_domain m) (sender m) (nonce m)
    = false →
  t_status t = Locked (source_domain m) →
  ∃ r, mint s m h =
    (Ok (), move (with_replay s r) (message_id m) t (Minted (target_domain m))
              (Minted (target_domain m))).
Proof.
  intros Hv Ht Hp Hproc Hst.
  destruct (Nonce.mark_processed_fresh _ _ _ _ _ h Hproc) as [r Hmark]. exists r.
  unfold mint. rewrite Hv. simpl. rewrite Ht. simpl.
  by rewrite bool_decide_false, Hproc, bool_decide_false, Hmark by tauto.
Qed.

Lemma mint_err s m h e s' : mint s m h = (Err e, s') → s' = s.
Proof.
  unfold mint. destruct (verify_id m); simpl; [|by intros [=]].
  destruct (transfers s !! message_id m) as [t|] eqn:Ht; simpl; [|by intros [=]].
  case_bool_decide; [by intros [=]|].
  destruct (Nonce.is_processed _ _ _ _ _) eqn:Hproc; [by intros [=]|].
  case_bool_decide; [by intros [=]|].
  destruct (Nonce.mark_processed_fresh _ _ _ _ _ h Hproc) as [r Hr].
  rewrite Hr. by intros [=].
Qed.

Lemma burn_ok s id d height index expiry e s' :
  burn_with_event s id d height index expiry = (Ok e, s') →
  ∃ t, transfers s !! id = Some t ∧ t_status t = Minted d ∧
    s' = move (with_replay s
           (Nonce.next_nonce (replay s) d (t_source_domain t) (t_recipient t)).2)
           id t (Burned d) (Burned d).
Proof.
  unfold burn_with_event.
  destruct (transfers s !! id) as [t|] eqn:Ht; simpl; [|done].
  case_bool_decide as Hs; [done|]. rewrite Ht. simpl.
  intros [= _ <-]. by exists t.
Qed.

Lemma burn_intro s id d height index expiry t :
  transfers s !! id = Some t → t_status t = Minted d →
  ∃ e r, burn_with_event s id d height index expiry =
    (Ok e, move (with_replay s r) id t (Burned d) (Burned d)).
Proof.
  intros Ht Hst. unfold burn_with_event. rewrite Ht. simpl.
  rewrite bool_decide_false by tauto. rewrite Ht. by eexists _, _.
Qed.

Lemma burn_err s id d height index expiry e s' :
  burn_with_event s id d height index expiry = (Err e, s') → s' = s.
Proof.
  unfold burn_with_event.
  destruct (transfers s !! id) as [t|] eqn:Ht; simpl; [|by intros [=]].
  case_bool_decide as Hs; [by intros [=]|]. rewrite Ht. by intros [=].
Qed.

Lemma unlock_ok s id d h s' :
  unlock s id d h = (Ok (), s') →
  ∃ t, transfers s !! id = Some t ∧ t_status t = Burned (t_target_domain t) ∧
    t_target_domain t = d ∧
    s' = mark_settled (move s id t (Unlocked (t_source_domain t)) (Active (t_source_domain t)))
           id h.
Proof.
  unfold unlock. destruct (transfers s !! id) as [t|] eqn:Ht; simpl; [|done].
  case_bool_decide as Hs; [done|].
  destruct (Z.eqb_spec (t_target_domain t) d) as [Hd|]; simpl; [|done].
  intros [= <-]. by exists t.
Qed.

Lemma unlock_intro s id h t :
  transfers s !! id = Some t → t_status t = Burned (t_target_domain t) →
  unlock s id (t_target_domain t) h =
    (Ok (), mark_settled (move s id t (Unlocked (t_source_domain t))
              (Active (t_source_domain t))) id h).
Proof.
  intros Ht Hst. unfold unlock. rewrite Ht. simpl.
  rewrite bool_decide_false by tauto. by rewrite Z.eqb_refl.
Qed.

Lemma unlock_err s id d h e s' : unlock s id d h = (Err e, s') → s' = s.
Proof.
  unfold unlock. destruct (transfers s !! id) as [t|] eqn:Ht; simpl; [|by intros [=]].
  case_bool_decide as Hs; [by intros [=]|].
  destruct (t_target_domain t =? d); simpl; by intros [=].
Qed.

(** *** Every step keeps the invariant *)

(** A message that matches a transfer's id is the one that opened it. *)
Lemma origin_same log s id t m :
  inv log s → log_ok (m :: log) → message_ok m → verify_id m = true →
  transfers s !! id = Some t → message_id m = id →
  ∃ m0, m0 ∈ log ∧ origin m0 t ∧ same_content m0 m ∧
    nonce m < Nonce.outbound (replay s) (lane t) ∧
    lane t = (source_domain m, target_domain m, sender m).
Proof.
  intros Hinv Hlog Hok Hv Ht Hid.
  destruct (inv_origin _ _ Hinv _ _ Ht) as (Hkey & m0 & Hin & Hor & Hn).
  assert (same_content m0 m) as Hsame.
  { apply message_id_inj; [by apply Hor|done|by apply Hor|done| |].
    - eapply collision_free_mono; [|exact Hlog].
      intros x. rewrite !elem_of_cons. intros [->|[->|Hx]]; [right|by left|set_solver].
      by eapply list_elem_of_fmap_2'.
    - rewrite (or_id _ _ Hor). congruence. }
  exists m0. split_and!; try done.
  - destruct Hsame as (_ & -> & _) in Hn. done.
  - destruct Hor. unfold lane. destruct Hsame as (_ & Heq & _).
    rewrite Heq in or_source0, or_target0, or_sender0. simpl in *. congruence.
Qed.

Lemma lock_fresh log s src tgt height index asset owner recipient amount expiry :
  let m := lock_message src tgt height index asset owner recipient amount expiry
             (lane_nonce s src tgt owner) in
  inv log s → log_ok (m :: log) → message_ok m → transfers s !! message_id m = None.
Proof.
  intros m Hinv Hlog Hok. destruct (transfers s !! message_id m) as [t|] eqn:Ht; [|done].
  exfalso. eapply origin_same in Ht as (m0 & _ & _ & _ & Hn & Hlane); try done.
  - rewrite Hlane in Hn. unfold m, lane_nonce in Hn. simpl in Hn. lia.
  - by apply verify_id_new.
Qed.

Lemma lock_inv log s src tgt height index asset owner recipient amount expiry :
  let m := lock_message src tgt height index asset owner recipient amount expiry
             (lane_nonce s src tgt owner) in
  inv log s → log_ok (m :: log) → message_ok m → u64 amount →
  lane_nonce s src tgt owner < u64_max →
  inv (m :: log) (lock s src tgt height index asset owner recipient amount expiry).2.
Proof.
  intros m Hinv Hlog Hok Hamount Hmax.
  assert (inv (m :: log) s) as Hinv' by (eapply inv_log_mono; [|done]; set_solver).
  destruct (decide (asset_locations s !! asset = Some (Active src))) as [Ha|Ha].
  2: { by destruct (lock_inactive s src tgt height index asset owner recipient amount expiry Ha)
         as [e ->]. }
  rewrite lock_active by done. cbv zeta. fold m. simpl.
  pose proof (lock_fresh log s src tgt height index asset owner recipient amount expiry
    Hinv Hlog Hok) as Hfresh. fold m in Hfresh.
  assert (∀ id t, transfers s !! id = Some t → live (t_status t) → t_asset_id t ≠ asset) as Hno.
  { intros id t Ht Hl <-. apply (inv_live _ _ Hinv) in Ht; [|done]. rewrite Ha in Ht.
    simplify_eq. destruct (t_status t); simplify_eq; done. }
  apply (inv_next_nonce _ _ src tgt owner) in Hinv'.
  split; simpl.
  - intros id t Ht. apply lookup_insert_Some in Ht as [[<- <-]|[_ Ht]].
    + split; [done|]. exists m. split; [by left|]. split.
      * split; try done. apply verify_id_new.
      * unfold lane. simpl. unfold Nonce.outbound at 1. simpl.
        rewrite lookup_insert_eq. simpl. unfold lane_nonce, Nonce.outbound in *.
        unfold u64_sat_add. lia.
    + by apply (inv_origin _ _ Hinv').
  - intros id t Ht. apply lookup_insert_Some in Ht as [[<- <-]|[_ Ht]]; [done|].
    by apply (inv_shape _ _ Hinv' id).
  - intros id t Ht Hl. apply lookup_insert_Some in Ht as [[<- <-]|[_ Ht]].
    + apply lookup_insert_eq.
    + rewrite lookup_insert_ne by (apply not_eq_sym; eauto). by apply (inv_live _ _ Hinv' id).
  - intros id1 t1 id2 t2 H1 H2 Hl1 Hl2 Heq.
    apply lookup_insert_Some in H1 as [[<- <-]|[_ H1]], H2 as [[<- <-]|[_ H2]]; simpl in Heq.
    + done.
    + by destruct (Hno id2 t2).
    + by destruct (Hno id1 t1).
    + by eapply (inv_unique _ _ Hinv').
  - intros a st Hst. apply lookup_insert_Some in Hst as [[<- <-]|[Hne Hst]].
    + eexists _, _. by rewrite lookup_insert_eq.
    + apply (inv_owned _ _ Hinv') in Hst. simpl in Hst.
      destruct st; try done; destruct Hst as (id & t & Ht & ? & ?); exists id, t;
        (rewrite lookup_insert_ne; [done|]); intros Hid;
        change (message_id m = id) in Hid; by rewrite <-Hid, Hfresh in Ht.
  - apply (inv_mark _ _ Hinv').
  - apply (inv_outbound _ _ Hinv').
Qed.

Lemma mint_inv log s m h :
  inv log s → log_ok (m :: log) → message_ok m → inv (m :: log) (mint s m h).2.
Proof.
  intros Hinv Hlog Hok.
  assert (inv (m :: log) s) as Hinv' by (eapply inv_log_mono; [|done]; set_solver).
  destruct (mint s m h) as [[[]|e] s'] eqn:Hm; simpl; [|by apply mint_err in Hm as ->].
  apply mint_ok in Hm as (t & r & Hv & Ht & _ & Hproc & Hst & Hmark & ->).
  destruct (origin_same log s (message_id m) t m) as (m0 & _ & _ & _ & Hn & Hlane); try done.
  assert (∀ k, Nonce.outbound r k = Nonce.outbound (replay s) k) as Hout.
  { unfold Nonce.mark_processed_at in Hmark. by inv_op Hmark. }
  apply move_inv; simpl; try done.
  - apply inv_with_replay; [done|intros; by rewrite Hout| |].
    + intros k p Hp. rewrite Hout. revert Hp. unfold Nonce.mark_processed_at in Hmark.
      inv_op Hmark; rewrite lookup_insert_Some;
        (intros [[<- <-]|[_ Hp]]; [by rewrite <-Hlane|by apply (inv_mark _ _ Hinv)]).
    + intros k. rewrite Hout. apply (inv_outbound _ _ Hinv).
  - by rewrite Hst.
  - unfold shaped; simpl. unfold lane in Hlane. congruence.
  - left. done.
Qed.

Lemma burn_inv log s id d height index expiry :
  inv log s → inv log (burn_with_event s id d height index expiry).2.
Proof.
  intros Hinv. destruct (burn_with_event _ _ _ _ _ _) as [[e|e] s'] eqn:Hb; simpl;
    [|by apply burn_err in Hb as ->].
  apply burn_ok in Hb as (t & Ht & Hst & ->).
  apply move_inv; simpl; try done.
  - by apply inv_next_nonce.
  - by rewrite Hst.
  - destruct (inv_shape _ _ Hinv _ _ Ht) as [Hshape _]. unfold shaped in *. by rewrite Hst in Hshape.
  - by left.
Qed.

Lemma unlock_inv log s id d h : inv log s → inv log (unlock s id d h).2.
Proof.
  intros Hinv. destruct (unlock _ _ _ _) as [[[]|e] s'] eqn:Hu; simpl;
    [|by apply unlock_err in Hu as ->].
  apply unlock_ok in Hu as (t & Ht & Hst & Hd & ->).
  apply inv_with_settled, move_inv; try done.
  - by rewrite Hst.
  - right. eauto.
Qed.
(** *** The sweep *)
Definition is_locked (st : BridgeStatus) : Prop :=
  match st with Locked _ => True | _ => False end.

(** What a sweep step does to one queued id. *)
Lemma sweep_one_cases h s released mid :
  (∃ t d, transfers s !! mid = Some t ∧ t_status t = Locked d ∧
     sweep_one h (s, released) mid =
       (mark_settled (move s mid t (Active d) (Active d)) mid h,
        released ++ [(t_owner t, t_amount t)])) ∨
  ((∀ t, transfers s !! mid = Some t → ¬ is_locked (t_status t)) ∧
   sweep_one h (s, released) mid = (s, released)).
Proof.
  unfold sweep_one. destruct (transfers s !! mid) as [t|]; [|by right; split; [intros t' [=]|]].
  destruct (t_status t) as [d|d|d|d|d] eqn:Hst;
    [right; split; [intros t' [= <-]; rewrite Hst; by intros []|done]
    |left; exists t, d; by split_and!
    |right; split; [intros t' [= <-]; rewrite Hst; by intros []|done]..].
Qed.

Lemma drop_one_cases s mid :
  drop_one s mid = s ∨
  ∃ t, transfers s !! mid = Some t ∧ ¬ live (t_status t) ∧
    drop_one s mid = with_transfers s (delete mid (transfers s)).
Proof.
  unfold drop_one. destruct (transfers s !! mid) as [t|]; [|by left].
  destruct (t_status t) eqn:Hst; [right|by left..|right]; exists t; rewrite Hst; (split_and!; [done|by intros []|done]).
Qed.

Lemma sweep_one_inv log h s released mid :
  inv log s → inv log (sweep_one h (s, released) mid).1.
Proof.
  intros Hinv. destruct (sweep_one_cases h s released mid)
    as [(t & d & Ht & Hst & ->)|[_ ->]]; [|done].
  apply inv_with_settled, move_inv; try done.
  - by rewrite Hst.
  - destruct (inv_shape _ _ Hinv _ _ Ht) as [Hs _]. unfold shaped in *. by rewrite Hst in Hs.
  - right. eauto.
Qed.

Lemma drop_one_inv log s mid : inv log s → inv log (drop_one s mid).
Proof.
  intros Hinv. destruct (drop_one_cases s mid) as [->|(t & Ht & Hl & ->)]; [done|].
  destruct Hinv as [Ho Hs Hlive Huniq Hown ? ?]. split; simpl; try done.
  - intros id t' [_ Ht']%lookup_delete_Some. by apply Ho.
  - intros id t' [_ Ht']%lookup_delete_Some. by apply (Hs id).
  - intros id t' [_ Ht']%lookup_delete_Some. by apply (Hlive id).
  - intros id1 t1 id2 t2 [_ H1]%lookup_delete_Some [_ H2]%lookup_delete_Some. by apply Huniq.
  - intros a st Ha. apply Hown in Ha.
    destruct st; try done; destruct Ha as (id & t' & Ht' & ? & Hst); exists id, t';
      (rewrite lookup_delete_ne; [done|]); intros ->; simplify_eq; by rewrite Hst in Hl.
Qed.

Lemma sweep_one_queue h s released mid :
  expiry_queue (sweep_one h (s, released) mid).1 = expiry_queue s.
Proof.
  by destruct (sweep_one_cases h s released mid) as [(t & d & _ & _ & ->)|[_ ->]].
Qed.

Lemma sweep_mids_queue h mids acc :
  expiry_queue (fold_left (sweep_one h) mids acc).1 = expiry_queue acc.1.
Proof.
  revert acc. induction mids as [|mid mids IH]; intros [s r]; [done|].
  cbn [fold_left]. by rewrite IH, sweep_one_queue.
Qed.

Lemma sweep_height_queue h acc k :
  expiry_queue (sweep_height h acc k).1 = delete k (expiry_queue acc.1).
Proof.
  destruct acc as [s r]. unfold sweep_height. simpl.
  destruct (expiry_queue s !! k) eqn:Hk; [by rewrite sweep_mids_queue|].
  by rewrite delete_id.
Qed.

(** The first phase empties exactly the listed heights of the queue. *)
Lemma sweep_heights_queue h hs acc k :
  expiry_queue (fold_left (sweep_height h) hs acc).1 !! k =
  if decide (k ∈ hs) then None else expiry_queue acc.1 !! k.
Proof.
  revert acc. induction hs as [|k' hs IH]; intros acc; [done|].
  cbn [fold_left]. rewrite IH, sweep_height_queue.
  destruct (decide (k ∈ hs)); [by rewrite decide_True by (by right)|].
  destruct (decide (k = k')) as [->|].
  - rewrite decide_True by (by left). apply lookup_delete_eq.
  - rewrite decide_False by (rewrite elem_of_cons; naive_solver). by apply lookup_delete_ne.
Qed.

(** A predicate kept by each elementary step on a due id is kept by the first
    phase of the sweep. *)
Lemma sweep_phase1_ind (P : BridgeState → list (Address * Z) → Prop) h hs s0 released :
  (∀ s r mid k, k ∈ hs → mid ∈ default [] (expiry_queue s0 !! k) → P s r →
     P (sweep_one h (s, r) mid).1 (sweep_one h (s, r) mid).2) →
  (∀ s r q, P s r → P (with_expiry s q) r) →
  P s0 released →
  let '(s', r') := fold_left (sweep_height h) hs (s0, released) in P s' r'.
Proof.
  intros Hone Hq Hs.
  set (Q := λ p : BridgeState * list (Address * Z), P p.1 p.2 ∧
    ∀ k mids, expiry_queue p.1 !! k = Some mids → expiry_queue s0 !! k = Some mids).
  enough (Q (fold_left (sweep_height h) hs (s0, released))) as [Hp _]
    by (by destruct (fold_left _ _ _)).
  apply fold_left_inv; [|done]. intros [s1 r1] k Hk [H1 Hsub]. split.
  - unfold sweep_height. destruct (expiry_queue s1 !! k) as [mids|] eqn:Hmids; [|done].
    apply (fold_left_inv (λ p : BridgeState * list (Address * Z), P p.1 p.2)); [|by apply Hq].
    intros [s2 r2] mid Hmid H2. apply (Hone _ _ _ k); [done| |done].
    simpl in Hsub. by rewrite (Hsub _ _ Hmids).
  - intros k' mids. rewrite sweep_height_queue. intros [_ Hl]%lookup_delete_Some. by apply Hsub.
Qed.

Lemma drop_rows_ind (P : BridgeState → Prop) h s :
  (∀ s mid, P s → P (drop_one s mid)) → (∀ s q, P s → P (with_settled s q)) →
  P s → P (drop_settled_rows s h).
Proof.
  intros Hone Hq Hs. unfold drop_settled_rows. apply fold_left_inv; [|done].
  intros s1 k _ H1. unfold drop_height.
  destruct (settled_queue s1 !! k); [|done]. apply fold_left_inv; [|by apply Hq]. auto.
Qed.

Lemma sweep_inv log s h : inv log s → inv log (sweep_expired_locks s h).2.
Proof.
  intros Hinv. unfold sweep_expired_locks.
  pose proof (sweep_phase1_ind (λ s _, inv log s) h (due_heights (expiry_queue s) h) s []
    ltac:(intros; by apply sweep_one_inv) ltac:(intros; by apply inv_with_expiry) Hinv) as H1.
  destruct (fold_left _ _ _) as [s1 r1]. simpl.
  apply drop_rows_ind; [by intros; apply drop_one_inv|by intros; apply inv_with_settled|done].
Qed.

(** *** Reachable states *)
Lemma step_log_mono c c' : step c c' → c.1 ⊆ c'.1.
Proof. intros []; simpl; set_solver. Qed.

Lemma register_inv log s a d : inv log s → inv log (register_asset s a d).2.
Proof.
  intros Hinv. unfold register_asset. destruct (asset_locations s !! a) eqn:Ha; [done|].
  destruct Hinv as [? ? Hlive ? Hown ? ?]. split; simpl; try done.
  - intros id t Ht Hl. apply Hlive in Ht as Hst; [|done].
    rewrite lookup_insert_ne; [done|]. congruence.
  - intros a' st Ha'. apply lookup_insert_Some in Ha' as [[_ <-]|[_ Ha']]; [done|].
    by apply Hown in Ha'.
Qed.

Lemma new_inv : inv [] new.
Proof.
  split; simpl; try (intros *; rewrite lookup_empty; done).
  intros k. unfold Nonce.outbound. simpl. rewrite lookup_empty. simpl. int_lia.
Qed.

Lemma step_inv log s log' s' :
  step (log, s) (log', s') → log_ok log' → inv log s → inv log' s'.
Proof.
  intros Hstep Hlog Hinv. inversion Hstep; subst.
  - by apply register_inv.
  - by apply lock_inv.
  - by apply mint_inv.
  - by apply burn_inv.
  - by apply unlock_inv.
  - by apply sweep_inv.
Qed.

Lemma run_inv_from c c' :
  rtc step c c' → log_ok c'.1 → inv c.1 c.2 → inv c'.1 c'.2.
Proof.
  induction 1 as [c|c1 c2 c3 Hst Hrest IH]; intros Hlog Hinv; [done|]. apply IH; [done|].
  destruct c1, c2. eapply step_inv; [done| |done].
  eapply log_ok_mono; [|exact Hlog]. clear -Hrest.
  induction Hrest as [|x y z Hxy _ IH]; [done|]. apply step_log_mono in Hxy. set_solver.
Qed.

Lemma reachable_inv log s : reachable log s → log_ok log → inv log s.
Proof. intros Hr Hlog. apply (run_inv_from _ _ Hr Hlog), new_inv. Qed.
(** *** The expiry queue *)

(** Every queued id was issued with that expiry. *)
Definition queue_origin (log : list CrossDomainMessage) (s : BridgeState) : Prop :=
  ∀ k id, id ∈ default [] (expiry_queue s !! k) →
  ∃ m, m ∈ log ∧ verify_id m = true ∧ message_ok m ∧ message_id m = id ∧ expiry_height m = k.

(** [queued], apart from ids that are about to be swept. *)
Definition queued_but (pending : list MessageId) (s : BridgeState) : Prop :=
  ∀ id t, transfers s !! id = Some t → is_locked (t_status t) → 0 < t_expiry_height t →
  id ∈ default [] (expiry_queue s !! t_expiry_height t) ∨ id ∈ pending.

Definition queue_inv (log : list CrossDomainMessage) (s : BridgeState) : Prop :=
  queued_but [] s ∧ queue_origin log s.

Lemma queued_move pending s id t st loc :
  transfers s !! id = Some t → ¬ is_locked st →
  queued_but (id :: pending) s → queued_but pending (move s id t st loc).
Proof.
  intros Ht Hst Hq id' t' Ht' Hl He. simpl in *.
  apply lookup_insert_Some in Ht' as [[<- <-]|[Hne Ht']]; [done|].
  destruct (Hq _ _ Ht' Hl He) as [?|[?|?]%elem_of_cons]; [by left|congruence|by right].
Qed.

Lemma queued_but_mono p1 p2 s : p1 ⊆ p2 → queued_but p1 s → queued_but p2 s.
Proof. intros Hsub Hq id t Ht Hl He. destruct (Hq _ _ Ht Hl He); auto. Qed.

Lemma queued_sweep_one h pending s released mid :
  queued_but (mid :: pending) s → queued_but pending (sweep_one h (s, released) mid).1.
Proof.
  intros Hq. destruct (sweep_one_cases h s released mid)
    as [(t & d & Ht & Hst & ->)|[Hn ->]].
  - apply (queued_move pending s mid t (Active d) (Active d)); [done|by intros []|done].
  - intros id t Ht Hl He. destruct (Hq _ _ Ht Hl He) as [?|[->|?]%elem_of_cons]; [by left| |by right].
    by destruct (Hn _ Ht).
Qed.

Lemma queued_sweep_mids h mids acc :
  queued_but mids acc.1 → queued_but [] (fold_left (sweep_one h) mids acc).1.
Proof.
  revert acc. induction mids as [|mid mids IH]; intros [s r] Hq; [done|].
  cbn [fold_left]. apply IH, queued_sweep_one, Hq.
Qed.

Lemma queued_sweep_heights h hs acc :
  queued_but [] acc.1 → queued_but [] (fold_left (sweep_height h) hs acc).1.
Proof.
  intros Hq. apply (fold_left_inv (λ p, queued_but [] p.1)); [|done]. clear acc Hq.
  intros [s r] k _ Hq. unfold sweep_height.
  destruct (expiry_queue s !! k) as [mids|] eqn:Hk; [|done]. apply queued_sweep_mids.
  intros id t Ht Hl He. simpl in *. destruct (Hq _ _ Ht Hl He) as [Hin|Hin]; [|set_solver].
  destruct (decide (t_expiry_height t = k)) as [<-|Hne].
  - right. by rewrite Hk in Hin.
  - left. by rewrite lookup_delete_ne.
Qed.

Lemma queue_origin_shrink log log' s s' :
  log ⊆ log' → (∀ k mids, expiry_queue s' !! k = Some mids → expiry_queue s !! k = Some mids) →
  queue_origin log s → queue_origin log' s'.
Proof.
  intros Hlog Hsub Ho k id Hin.
  destruct (expiry_queue s' !! k) eqn:Hk; simpl in Hin; [|by apply not_elem_of_nil in Hin].
  destruct (Ho k id) as (m & Hm & ?); [by rewrite (Hsub _ _ Hk)|]. exists m. auto.
Qed.

Lemma drop_queue s h : expiry_queue (drop_settled_rows s h) = expiry_queue s.
Proof.
  apply (drop_rows_ind (λ s', expiry_queue s' = expiry_queue s)); [|done..].
  intros s' mid Hs'. by destruct (drop_one_cases s' mid) as [->|(t & _ & _ & ->)].
Qed.

Lemma drop_subset s h id t :
  transfers (drop_settled_rows s h) !! id = Some t → transfers s !! id = Some t.
Proof.
  apply (drop_rows_ind (λ s', transfers s' !! id = Some t → transfers s !! id = Some t));
    [|done..].
  intros s' mid Hs'. destruct (drop_one_cases s' mid) as [->|(t' & _ & _ & ->)]; [done|].
  simpl. intros [_ Hl]%lookup_delete_Some. auto.
Qed.

Lemma drop_keeps_live s h id t :
  transfers s !! id = Some t → live (t_status t) →
  transfers (drop_settled_rows s h) !! id = Some t.
Proof.
  intros Ht Hl. apply (drop_rows_ind (λ s', transfers s' !! id = Some t)); [|done..].
  intros s' mid Hs'. destruct (drop_one_cases s' mid) as [->|(t' & Ht' & Hn & ->)]; [done|].
  simpl. rewrite lookup_delete_ne; [done|]. congruence.
Qed.

Lemma drop_assets s h : asset_locations (drop_settled_rows s h) = asset_locations s.
Proof.
  apply (drop_rows_ind (λ s', asset_locations s' = asset_locations s)); [|done..].
  intros s' mid Hs'. by destruct (drop_one_cases s' mid) as [->|(t & _ & _ & ->)].
Qed.

Lemma due_heights_elem q bound k :
  k ∈ due_heights q bound ↔ k ≤ bound ∧ is_Some (q !! k).
Proof.
  unfold due_heights. rewrite list_elem_of_filter, list_elem_of_fmap. split.
  - intros (? & [k' v] & -> & Hin). apply elem_of_btree_list in Hin. eauto.
  - intros (? & v & Hv). split; [done|]. exists (k, v). by rewrite elem_of_btree_list.
Qed.

(** After a sweep at [h] the queue holds exactly the later heights. *)
Lemma sweep_queue s h k :
  expiry_queue (sweep_expired_locks s h).2 !! k =
  if decide (k ≤ h) then None else expiry_queue s !! k.
Proof.
  unfold sweep_expired_locks.
  pose proof (sweep_heights_queue h (due_heights (expiry_queue s) h) (s, []) k) as Hk.
  destruct (fold_left _ _ _) as [s1 r]. simpl in *. rewrite drop_queue, Hk. clear Hk.
  destruct (decide (k ≤ h)).
  - destruct (decide (k ∈ _)) as [|Hn]; [done|]. rewrite due_heights_elem in Hn.
    destruct (expiry_queue s !! k) eqn:Hq; [|done]. exfalso. naive_solver.
  - rewrite decide_False; [done|]. rewrite due_heights_elem. tauto.
Qed.

Lemma sweep_queue_inv log s h : queue_inv log s → queue_inv log (sweep_expired_locks s h).2.
Proof.
  intros [Hq Ho]. split.
  - unfold sweep_expired_locks.
    pose proof (queued_sweep_heights h (due_heights (expiry_queue s) h) (s, []) Hq) as H1.
    destruct (fold_left _ _ _) as [s1 r]. simpl in *.
    intros id t Ht Hl He. rewrite drop_queue. apply drop_subset in Ht. by apply H1.
  - eapply queue_origin_shrink; [done| |done]. intros k mids. rewrite sweep_queue.
    by case_decide.
Qed.

Lemma lock_queue_inv log s src tgt height index asset owner recipient amount expiry :
  let m := lock_message src tgt height index asset owner recipient amount expiry
             (lane_nonce s src tgt owner) in
  queue_inv log s → message_ok m →
  queue_inv (m :: log) (lock s src tgt height index asset owner recipient amount expiry).2.
Proof.
  intros m [Hq Ho] Hok.
  destruct (decide (asset_locations s !! asset = Some (Active src))) as [Ha|Ha].
  2: { destruct (lock_inactive s src tgt height index asset owner recipient amount expiry Ha)
         as [e ->]. split; [done|]. eapply queue_origin_shrink; [|done..]. set_solver. }
  rewrite lock_active by done. cbv zeta. fold m.
  assert (verify_id m = true) as Hv by apply verify_id_new.
  assert (expiry_height m = expiry) as Hexp by done. clearbody m. simpl. split.
  - intros id t Ht Hl He. simpl in *.
    apply lookup_insert_Some in Ht as [[<- <-]|[Hne Ht]]; left; simpl in *.
    + rewrite (proj2 (Z.ltb_lt 0 expiry)) by done. unfold queue_push.
      rewrite lookup_insert_eq. simpl. set_solver.
    + destruct (Hq _ _ Ht Hl He) as [Hin|Hin]; [|set_solver].
      destruct (0 <? expiry); [|done]. unfold queue_push. rewrite lookup_insert.
      case_decide as Heq; [|done]. simpl. apply elem_of_app. left. by rewrite Heq.
  - intros k id Hin. simpl in Hin.
    assert (id ∈ default [] (expiry_queue s !! k) ∨ (id = message_id m ∧ k = expiry))
      as [Hold|[-> ->]].
    { destruct (0 <? expiry); [|by left]. unfold queue_push in Hin.
      rewrite lookup_insert in Hin. case_decide as Heq; [|by left]. simpl in Hin.
      apply elem_of_app in Hin as [Hin|Hin%list_elem_of_singleton];
        [left; by rewrite <-Heq|by right]. }
    + destruct (Ho _ _ Hold) as (m' & ? & ?). exists m'. split; [by right|done].
    + exists m. split; [by left|done].
Qed.

Lemma step_queue_inv log s log' s' :
  step (log, s) (log', s') → queue_inv log s → queue_inv log' s'.
Proof.
  assert (∀ log log' s s', log ⊆ log' → expiry_queue s' = expiry_queue s →
    queued_but [] s' → queue_origin log s → queue_inv log' s') as Hkeep.
  { intros l l' s1 s2 Hl Heq Hq Ho. split; [done|].
    eapply queue_origin_shrink; [done| |done]. by rewrite Heq. }
  assert (∀ id s1, queued_but [] s1 → queued_but [id] s1) as Hone
    by (intros; eapply queued_but_mono; [|done]; set_solver).
  intros Hstep [Hq Ho]. inversion Hstep; subst.
  - apply (Hkeep log' _ s); [done| | |done]; unfold register_asset; by case_match.
  - by apply lock_queue_inv.
  - destruct (mint s m height) as [[[]|e] s1] eqn:Hm; simpl.
    + apply mint_ok in Hm as (t & r & _ & Ht & _ & _ & _ & _ & ->).
      apply (Hkeep log _ s); [set_solver|done| |done]. apply queued_move; [done|by intros []|].
      by apply Hone.
    + apply mint_err in Hm as ->. apply (Hkeep log _ s); [set_solver|done..].
  - destruct (burn_with_event _ _ _ _ _ _) as [[e|e] s1] eqn:Hb; simpl.
    + apply burn_ok in Hb as (t & Ht & _ & ->). apply (Hkeep log' _ s); [done|done| |done].
      apply queued_move; [done|by intros []|]. by apply Hone.
    + by apply burn_err in Hb as ->.
  - destruct (unlock _ _ _ _) as [[[]|e] s1] eqn:Hu; simpl.
    + apply unlock_ok in Hu as (t & Ht & _ & _ & ->). apply (Hkeep log' _ s); [done|done| |done].
      apply (queued_move [] s id t); [done|by intros []|]. by apply Hone.
    + by apply unlock_err in Hu as ->.
  - by apply sweep_queue_inv.
Qed.

Lemma reachable_queue_inv log s : reachable log s → queue_inv log s.
Proof.
  intros Hr. unfold reachable in Hr.
  enough (∀ c c', rtc step c c' → queue_inv c.1 c.2 → queue_inv c'.1 c'.2) as Hall.
  { apply (Hall _ _ Hr). split; intros ?; simpl; intros *; rewrite lookup_empty; set_solver. }
  clear. induction 1 as [|[] [] c3 Hst _ IH]; [done|]. intros Hq. by eapply IH, step_queue_inv.
Qed.
(** *** The locked total *)
Definition locked_amount (t : BridgeTransfer) : Z :=
  match t_status t with Locked _ => t_amount t | _ => 0 end.

Definition locked_sum (s : BridgeState) : Z := map_sum locked_amount (transfers s).

Lemma locked_fold l total :
  0 ≤ total → Forall (λ t, 0 ≤ t_amount t) l →
  fold_left
    (λ total t,
      match t_status t with Locked _ => u128_sat_add total (t_amount t) | _ => total end)
    l (Z.min total u128_max) = Z.min (total + sumZ (locked_amount <$> l)) u128_max.
Proof.
  revert total. induction l as [|t l IH]; intros total Ht Hl; cbn [fold_left fmap list_fmap].
  - unfold sumZ. simpl. by rewrite Z.add_0_r.
  - apply Forall_cons in Hl as [Hamt Hl]. unfold sumZ, locked_amount at 1. cbn [foldr].
    fold (sumZ (locked_amount <$> l)). rewrite Z.add_assoc.
    destruct (t_status t); try (rewrite Z.add_0_r; by apply IH).
    rewrite <-IH; [|lia|done]. f_equal. int_lia.
Qed.

Lemma locked_amount_total_sum log s :
  inv log s → locked_amount_total s = Z.min (locked_sum s) u128_max.
Proof.
  intros Hinv. unfold locked_amount_total, locked_sum.
  rewrite <-(map_sum_btree locked_amount (transfers s)).
  apply (locked_fold _ 0); [done|]. apply Forall_forall. intros t Ht.
  apply elem_of_btree_values in Ht as [id Ht]. apply (inv_shape _ _ Hinv) in Ht as [_ Ha].
  int_lia.
Qed.

Lemma locked_sum_drop s h : locked_sum (drop_settled_rows s h) = locked_sum s.
Proof.
  apply (drop_rows_ind (λ s', locked_sum s' = locked_sum s)); [|done..].
  intros s' mid Hs'. destruct (drop_one_cases s' mid) as [->|(t & Ht & Hn & ->)]; [done|].
  rewrite <-Hs'. unfold locked_sum. simpl. rewrite (map_sum_delete _ (transfers s') _ _ Ht).
  unfold locked_amount at 2. by destruct (t_status t).
Qed.

Lemma locked_sum_sweep_one h s released mid :
  let '(s', released') := sweep_one h (s, released) mid in
  locked_sum s' + sumZ released'.*2 = locked_sum s + sumZ released.*2.
Proof.
  destruct (sweep_one_cases h s released mid) as [(t & d & Ht & Hst & ->)|[_ ->]]; [|done].
  unfold locked_sum. simpl. rewrite (map_sum_insert_upd _ _ _ _ _ Ht), fmap_app, sumZ_app.
  unfold locked_amount at 2 3. rewrite Hst. simpl. lia.
Qed.

(** A due id names, among the locked rows, one that has expired. *)
Lemma due_expired log s k id t :
  inv log s → queue_inv log s → log_ok log →
  id ∈ default [] (expiry_queue s !! k) → transfers s !! id = Some t → t_expiry_height t = k.
Proof.
  intros Hinv [_ Ho] Hlog Hin Ht. destruct (Ho _ _ Hin) as (m & Hm & Hv & Hok & Hid & Hexp).
  destruct (origin_same log s id t m) as (m0 & _ & Hor & (_ & Heq & _) & _); try done.
  - eapply log_ok_mono; [|exact Hlog]. set_solver.
  - rewrite <-(or_expiry _ _ Hor), Heq. done.
Qed.

(** [t] is a lock that has expired at [h]. *)
Definition expired (h : Z) (t : BridgeTransfer) : Prop :=
  is_locked (t_status t) ∧ 0 < t_expiry_height t ≤ h.

(** The rows the first phase of a sweep leaves alone. *)
Lemma sweep_phase1_keeps log s h id t :
  inv log s → queue_inv log s → log_ok log →
  (∀ k, is_Some (expiry_queue s !! k) → 0 < k) →
  transfers s !! id = Some t → ¬ expired h t →
  transfers (fold_left (sweep_height h) (due_heights (expiry_queue s) h) (s, [])).1 !! id = Some t.
Proof.
  intros Hinv Hq Hlog Hpos Ht Hexp.
  pose proof (sweep_phase1_ind (λ s' _, transfers s' !! id = Some t) h
    (due_heights (expiry_queue s) h) s []) as Hind.
  destruct (fold_left _ _ _) as [s1 r1]. apply Hind; [|done..].
  intros s2 r2 mid k Hk Hmid Ht2.
  destruct (sweep_one_cases h s2 r2 mid) as [(t' & d & Ht' & Hst & ->)|[_ ->]]; [|done].
  simpl. rewrite lookup_insert_ne; [done|]. intros ->. simplify_eq. apply Hexp.
  apply due_heights_elem in Hk as [Hle Hsome]. split; [by rewrite Hst|].
  rewrite (due_expired log s k id t); [|done..]. split; [by apply Hpos|done].
Qed.

(** What the first phase did with each row: kept it, or released it and
    reported its owner and amount. *)
Definition swept (s s' : BridgeState) (released : list (Address * Z)) : Prop :=
  ∀ id t, transfers s !! id = Some t →
    transfers s' !! id = Some t ∨
    (∃ d, t_status t = Locked d ∧ transfers s' !! id = Some (with_status t (Active d)) ∧
      asset_locations s' !! t_asset_id t = Some (Active d) ∧
      (t_owner t, t_amount t) ∈ released).

Lemma swept_one log h s s1 r mid :
  inv log s1 → swept s s1 r →
  swept s (sweep_one h (s1, r) mid).1 (sweep_one h (s1, r) mid).2.
Proof.
  intros Hinv IH.
  destruct (sweep_one_cases h s1 r mid) as [(t1 & d1 & Ht1 & Hst1 & ->)|[_ ->]]; [|done].
  intros id t Ht. simpl. destruct (decide (mid = id)) as [->|Hne].
  - rewrite lookup_insert_eq. destruct (IH _ _ Ht) as [Heq|(d & _ & Heq & _)]; simplify_eq.
    right. exists d1. rewrite lookup_insert_eq. split_and!; [done..|]. set_solver.
  - rewrite lookup_insert_ne by done.
    destruct (IH _ _ Ht) as [Heq|(d & ? & ? & Ha & ?)]; [by left|right; exists d].
    rewrite lookup_insert_ne; [split_and!; [done..|set_solver]|]. intros Heq.
    apply (inv_live _ _ Hinv) in Ht1; [|by rewrite Hst1]. rewrite Heq, Ha, Hst1 in Ht1. done.
Qed.

Lemma sweep_phase1_rows log h hs s :
  inv log s →
  let '(s', released) := fold_left (sweep_height h) hs (s, []) in
  inv log s' ∧ swept s s' released ∧ locked_sum s = locked_sum s' + sumZ released.*2.
Proof.
  intros Hinv.
  apply (sweep_phase1_ind (λ s' released, inv log s' ∧ swept s s' released ∧
    locked_sum s = locked_sum s' + sumZ released.*2)).
  - intros s1 r mid _ _ _ (Hinv1 & Hsw & Hsum). split_and!.
    + by apply sweep_one_inv.
    + by eapply swept_one.
    + pose proof (locked_sum_sweep_one h s1 r mid) as Hone.
      destruct (sweep_one h (s1, r) mid). simpl. lia.
  - intros s1 r q (Hinv1 & ? & ?). split_and!; [by apply inv_with_expiry|done..].
  - split_and!; [done|by left|]. unfold sumZ. simpl. lia.
Qed.

(** *** The replay store only advances *)
Lemma step_replay log s log' s' :
  step (log, s) (log', s') → rtc Nonce.step (replay s) (replay s').
Proof.
  intros Hstep. inversion Hstep; subst.
  - unfold register_asset. by case_match.
  - destruct (decide (asset_locations s !! asset = Some (Active src))) as [Ha|Ha].
    + rewrite lock_active by done. apply rtc_once. constructor.
    + by edestruct lock_inactive as [e ->].
  - destruct (mint s m height) as [[[]|e] s1] eqn:Hm; simpl; [|by apply mint_err in Hm as ->].
    apply mint_ok in Hm as (t & r & _ & _ & _ & _ & _ & Hmark & ->). simpl.
    apply rtc_once. replace r with (Nonce.mark_processed_at (replay s) (source_domain m)
      (target_domain m) (sender m) (nonce m) height).2 by (by rewrite Hmark). constructor.
  - destruct (burn_with_event _ _ _ _ _ _) as [[e|e] s1] eqn:Hb; simpl;
      [|by apply burn_err in Hb as ->].
    apply burn_ok in Hb as (t & _ & _ & ->). apply rtc_once. constructor.
  - destruct (unlock _ _ _ _) as [[[]|e] s1] eqn:Hu; simpl; [|by apply unlock_err in Hu as ->].
    by apply unlock_ok in Hu as (t & _ & _ & _ & ->).
  - assert (replay (sweep_expired_locks s height).2 = replay s) as ->; [|done].
    unfold sweep_expired_locks.
    pose proof (sweep_phase1_ind (λ s1 _, replay s1 = replay s) height
      (due_heights (expiry_queue s) height) s []) as H1.
    destruct (fold_left _ _ _) as [s1 r1]. simpl.
    apply (drop_rows_ind (λ s2, replay s2 = replay s)).
    + intros s2 mid Hs2. by destruct (drop_one_cases s2 mid) as [->|(t & _ & _ & ->)].
    + done.
    + apply H1; [|done..]. intros s2 r mid k _ _ Hs2.
      by destruct (sweep_one_cases height s2 r mid) as [(t & d & _ & _ & ->)|[_ ->]].
Qed.

Lemma run_spent c c' src tgt a n :
  rtc step c c' → Nonce.is_processed (replay c.2) src tgt a n = true →
  Nonce.is_processed (replay c'.2) src tgt a n = true.
Proof.
  induction 1 as [|[l1 s1] [l2 s2] c3 Hst _ IH]; [done|]. intros Hp. apply IH.
  apply step_replay in Hst. simpl in *. clear IH.
  induction Hst; eauto using Nonce.step_spent.
Qed.

Lemma mint_spent s m h :
  Nonce.is_processed (replay s) (source_domain m) (target_domain m) (sender m) (nonce m) = true →
  is_ok (mint s m h).1 = false ∧ (mint s m h).2 = s.
Proof.
  intros Hp. destruct (mint s m h) as [[[]|e] s'] eqn:Hm; simpl.
  - apply mint_ok in Hm as (t & r & _ & _ & _ & Hf & _). congruence.
  - by apply mint_err in Hm as ->.
Qed.
(** Only positive expiry heights are queued. *)
Definition queue_positive (s : BridgeState) : Prop :=
  ∀ k, is_Some (expiry_queue s !! k) → 0 < k.

Lemma step_queue_positive log s log' s' :
  step (log, s) (log', s') → queue_positive s → queue_positive s'.
Proof.
  intros Hstep Hpos. inversion Hstep; subst; intros k Hk.
  - apply Hpos. unfold register_asset in Hk. by case_match.
  - destruct (decide (asset_locations s !! asset = Some (Active src))) as [Ha|Ha].
    + rewrite lock_active in Hk by done. simpl in Hk.
      destruct (Z.ltb_spec 0 expiry); [|by apply Hpos]. unfold queue_push in Hk.
      rewrite lookup_insert in Hk. case_decide; [by subst|by apply Hpos].
    + edestruct lock_inactive as [e Heq]; [exact Ha|]. rewrite Heq in Hk. by apply Hpos.
  - apply Hpos. destruct (mint s m height) as [[[]|e] s1] eqn:Hm; simpl in Hk;
      [|by apply mint_err in Hm as ->].
    by apply mint_ok in Hm as (t & r & _ & _ & _ & _ & _ & _ & ->).
  - apply Hpos. destruct (burn_with_event _ _ _ _ _ _) as [[e|e] s1] eqn:Hb; simpl in Hk;
      [|by apply burn_err in Hb as ->].
    by apply burn_ok in Hb as (t & _ & _ & ->).
  - apply Hpos. destruct (unlock _ _ _ _) as [[[]|e] s1] eqn:Hu; simpl in Hk;
      [|by apply unlock_err in Hu as ->].
    by apply unlock_ok in Hu as (t & _ & _ & _ & ->).
  - rewrite sweep_queue in Hk. case_decide; [by destruct Hk|by apply Hpos].
Qed.

Lemma reachable_queue_positive log s : reachable log s → queue_positive s.
Proof.
  intros Hr. unfold reachable in Hr.
  enough (∀ c c', rtc step c c' → queue_positive c.2 → queue_positive c'.2) as Hall.
  { apply (Hall _ _ Hr). intros k. simpl. rewrite lookup_empty. by intros []. }
  clear. induction 1 as [|[] [] c3 Hst _ IH]; [done|]. intros Hq. by eapply IH, step_queue_positive.
Qed.
End run.
End BridgeRun.
