(* ===== verification/BridgeProps.v ===== *)
(** * The bridge: theorems

    What the bridge promises its callers, over every state a run reaches, and
    the commitment of its root.  [BridgeExamples] evaluates the theorems on a
    concrete cycle. *)
From stdpp Require Import base tactics numbers list gmap strings sorting.
From Stdlib Require Import ZArith Lia.
From S2P Require Import Prelude Merkle Messages Bridge BridgeInv.
Import Message Bridge BridgeRun.

Module BridgeSafety.
Section safety.
Context `{Sha256}.

(** C2: custody.  In every reachable state an asset that is active in a
    domain has no live transfer; an asset recorded as locked, minted or
    burned has exactly one live transfer, whose status is the recorded one;
    no asset is recorded as unlocked; and the asset of every live transfer
    is recorded with that transfer's status. *)
Theorem bridge_custody log s :
  reachable log s → log_ok log →
  (∀ a st, asset_locations s !! a = Some st →
    match st with
    | Active _ => ∀ id t, transfers s !! id = Some t → t_asset_id t = a → ¬ live (t_status t)
    | Unlocked _ => False
    | _ => ∃ id t, transfers s !! id = Some t ∧ t_asset_id t = a ∧ t_status t = st ∧
        ∀ id' t', transfers s !! id' = Some t' → t_asset_id t' = a → live (t_status t') → id' = id
    end) ∧
  (∀ id t, transfers s !! id = Some t → live (t_status t) →
    asset_locations s !! t_asset_id t = Some (t_status t)).
Proof.
  intros Hr Hlog. pose proof (reachable_inv _ _ Hr Hlog) as Hinv.
  split; [|apply (inv_live _ _ Hinv)]. intros a st Ha.
  assert (live st → (∃ id t, transfers s !! id = Some t ∧ t_asset_id t = a ∧ t_status t = st) →
    ∃ id t, transfers s !! id = Some t ∧ t_asset_id t = a ∧ t_status t = st ∧
      ∀ id' t', transfers s !! id' = Some t' → t_asset_id t' = a → live (t_status t') → id' = id)
    as Huniq.
  { intros Hl (id & t & Ht & Hta & Hts). exists id, t. split_and!; [done..|].
    intros id' t' Ht' Ha' Hl'. eapply (inv_unique _ _ Hinv); [done..| |]; congruence. }
  pose proof (inv_owned _ _ Hinv _ _ Ha) as Hown.
  destruct st; [|by apply Huniq..|done].
  intros id t Ht Hta Hl. pose proof (inv_live _ _ Hinv _ _ Ht Hl) as Hst.
  rewrite Hta, Ha in Hst. simplify_eq. by destruct (t_status t).
Qed.

(** C3: a message mints at most once.  After a successful mint, whatever the
    bridge does next, sweeps and row drops included, minting that message or
    any message of the same sender and direction with a nonce not above it
    fails and changes nothing. *)
Theorem mint_at_most_once log s m h c' m' h' s' :
  mint s m h = (Ok (), s') → rtc step (log, s') c' →
  source_domain m' = source_domain m → target_domain m' = target_domain m →
  sender m' = sender m → nonce m' ≤ nonce m →
  is_ok (mint c'.2 m' h').1 = false ∧ (mint c'.2 m' h').2 = c'.2.
Proof.
  intros Hm Hrun Hs Ht Ha Hn. apply mint_spent. rewrite Hs, Ht, Ha.
  eapply Nonce.is_processed_downward; [exact Hn|].
  eapply run_spent; [exact Hrun|]. apply mint_ok in Hm as (t & r & _ & _ & _ & _ & _ & Hmark & ->).
  simpl. eapply Nonce.is_processed_mark in Hmark as [_ ->].
  rewrite decide_True by done. lia.
Qed.

(** A mint is authentic.  In a reachable state a message that mints has
    the content of the message issued when the transfer was locked: the
    mint happens in the transfer's own target domain, for its owner,
    recipient, asset and amount. *)
Theorem mint_authentic log s m h s' :
  reachable log s → log_ok (m :: log) → message_ok m → mint s m h = (Ok (), s') →
  ∃ t m0, transfers s !! message_id m = Some t ∧ m0 ∈ log ∧ origin m0 t ∧ same_content m0 m ∧
    t_status t = Locked (t_source_domain t) ∧
    source_domain m = t_source_domain t ∧ target_domain m = t_target_domain t ∧
    sender m = t_owner t ∧ recipient m = t_recipient t ∧
    transfers s' !! message_id m = Some (with_status t (Minted (t_target_domain t))).
Proof.
  intros Hr Hlog Hok Hm.
  assert (log_ok log) as Hlog' by (eapply log_ok_mono; [|exact Hlog]; set_solver).
  pose proof (reachable_inv _ _ Hr Hlog') as Hinv.
  apply mint_ok in Hm as (t & r & Hv & Ht & _ & _ & Hst & _ & ->).
  destruct (origin_same log s (message_id m) t m) as (m0 & Hin & Hor & Hsame & _ & Hlane); try done.
  unfold lane in Hlane. injection Hlane as Hsrc Htgt Hown.
  exists t, m0. split_and!; try done; try congruence.
  - destruct Hor. destruct Hsame as (_ & Heq & _). rewrite Heq in or_recipient0. done.
  - simpl. by rewrite lookup_insert_eq, Htgt.
Qed.

(** The cycle closes.  From every reachable state with the asset active
    in the source domain, locking it, minting the issued message, burning on
    the target domain and unlocking from there all succeed, at any heights,
    and leave every asset where it was before the lock. *)
Theorem bridge_cycle log s src tgt height index asset owner recipient amount expiry
    h1 h2 index2 expiry2 h3 :
  let m := lock_message src tgt height index asset owner recipient amount expiry
             (lane_nonce s src tgt owner) in
  reachable log s → log_ok (m :: log) → message_ok m → u64 amount →
  lane_nonce s src tgt owner < u64_max →
  asset_locations s !! asset = Some (Active src) →
  ∃ s1 s2 s3 s4 t e e',
    lock s src tgt height index asset owner recipient amount expiry = (Ok (t, e), s1) ∧
    Event.message e = Some m ∧
    mint s1 m h1 = (Ok (), s2) ∧
    burn_with_event s2 (message_id m) tgt h2 index2 expiry2 = (Ok e', s3) ∧
    unlock s3 (message_id m) tgt h3 = (Ok (), s4) ∧
    transfers s4 !! message_id m = Some (with_status t (Unlocked src)) ∧
    asset_locations s4 = asset_locations s.
Proof.
  intros m Hr Hlog Hok Hamt Hmax Ha.
  assert (log_ok log) as Hlog' by (eapply log_ok_mono; [|exact Hlog]; set_solver).
  pose proof (reachable_inv _ _ Hr Hlog') as Hinv.
  pose proof (lock_active s src tgt height index asset owner recipient amount expiry Ha) as Hlock.
  cbv zeta in Hlock. fold m in Hlock.
  set (t := lock_transfer src tgt height index asset owner recipient amount expiry m) in *.
  set (s1 := {| asset_locations := _ |}) in Hlock.
  assert (transfers s1 !! message_id m = Some t) as Ht1 by apply lookup_insert_eq.
  destruct (mint_intro s1 m h1 t) as [r2 Hmint]; [apply verify_id_new|done|done| |done|].
  { unfold Nonce.is_processed. simpl.
    destruct (Nonce.processed_high_water (replay s) !! (src, tgt, owner)) as [[hw ?]|] eqn:Hhw;
      [|done]. apply (inv_mark _ _ Hinv) in Hhw. simpl in Hhw. by apply Z.leb_gt. }
  change (target_domain m) with tgt in Hmint.
  set (s2 := move (with_replay s1 r2) _ _ _ _) in Hmint.
  set (t2 := with_status t (Minted tgt)).
  assert (transfers s2 !! message_id m = Some t2) as Ht2 by apply lookup_insert_eq.
  destruct (burn_intro s2 (message_id m) tgt h2 index2 expiry2 t2) as (e' & r3 & Hburn); [done..|].
  set (s3 := move (with_replay s2 r3) _ _ _ _) in Hburn.
  set (t3 := with_status t2 (Burned tgt)).
  assert (transfers s3 !! message_id m = Some t3) as Ht3 by apply lookup_insert_eq.
  pose proof (unlock_intro s3 (message_id m) h3 t3 Ht3 eq_refl) as Hunlock.
  eexists s1, s2, s3, _, t, _, e'. split_and!; [done|done|done|done|exact Hunlock| |].
  - apply lookup_insert_eq.
  - apply map_eq. intros a. simpl. destruct (decide (asset = a)) as [<-|Hne].
    + by rewrite lookup_insert_eq.
    + by rewrite !lookup_insert_ne.
Qed.

(** The sweep is exact.  On a reachable state a sweep at height [h]
    releases every lock whose expiry is at or below [h], back to active in
    its source domain with its owner and amount reported, keeps every other
    live transfer unchanged, leaves no expired lock behind, lowers the locked
    total by exactly what it reports, and a second sweep at the same height
    releases nothing. *)
Theorem sweep_exact log s h released s' :
  reachable log s → log_ok log → sweep_expired_locks s h = (released, s') →
  (∀ id t, transfers s !! id = Some t → expired h t →
    (t_owner t, t_amount t) ∈ released ∧
    asset_locations s' !! t_asset_id t = Some (Active (t_source_domain t))) ∧
  (∀ id t, transfers s !! id = Some t → live (t_status t) → ¬ expired h t →
    transfers s' !! id = Some t) ∧
  (∀ id t, transfers s' !! id = Some t → ¬ expired h t) ∧
  locked_sum s = locked_sum s' + sumZ released.*2 ∧
  (sweep_expired_locks s' h).1 = [].
Proof.
  intros Hr Hlog Hsweep.
  pose proof (reachable_inv _ _ Hr Hlog) as Hinv.
  pose proof (reachable_queue_inv _ _ Hr) as Hq.
  pose proof (reachable_queue_positive _ _ Hr) as Hpos.
  assert (s' = (sweep_expired_locks s h).2) as Hs' by (by rewrite Hsweep).
  pose proof (sweep_queue s h) as Hqueue. rewrite <-Hs' in Hqueue.
  destruct (sweep_queue_inv log s h Hq) as [Hq' _]. rewrite <-Hs' in Hq'.
  assert (∀ id t, transfers s' !! id = Some t → ¬ expired h t) as Hnone.
  { intros id t Ht [Hl He]. destruct (Hq' _ _ Ht Hl) as [Hin|Hin]; [lia| |set_solver].
    rewrite Hqueue, decide_True in Hin by lia. set_solver. }
  pose proof (sweep_phase1_rows log h (due_heights (expiry_queue s) h) s Hinv) as Hrows.
  pose proof (λ id t, sweep_phase1_keeps log s h id t Hinv Hq Hlog Hpos) as Hkeeps.
  unfold sweep_expired_locks in Hsweep.
  destruct (fold_left _ _ _) as [s1 r1]. simpl in Hkeeps. clear Hs'. simplify_eq.
  destruct Hrows as (Hinv1 & Hswept & Hsum). split_and!.
  - intros id t Ht [Hl He]. destruct (Hswept _ _ Ht) as [Hsame|(d & Hst & _ & Ha & Hin)].
    + destruct (Hnone id t); [|done]. apply drop_keeps_live; [done|by destruct (t_status t)].
    + split; [done|]. rewrite drop_assets, Ha. repeat f_equal.
      destruct (inv_shape _ _ Hinv _ _ Ht) as [Hshape _]. unfold shaped in Hshape.
      by rewrite Hst in Hshape.
  - intros id t Ht Hl Hne. apply drop_keeps_live; auto.
  - done.
  - by rewrite locked_sum_drop.
  - unfold sweep_expired_locks.
    assert (due_heights (expiry_queue (drop_settled_rows s1 h)) h = []) as ->; [|done].
    destruct (due_heights _ _) as [|k l] eqn:Hdue; [done|]. exfalso.
    assert (k ∈ due_heights (expiry_queue (drop_settled_rows s1 h)) h) as Hk
      by (rewrite Hdue; by left).
    apply due_heights_elem in Hk as [Hle Hsome]. rewrite Hqueue, decide_True in Hsome by done.
    by destruct Hsome.
Qed.
End safety.
End BridgeSafety.

(** ** The bridge root *)
Module BridgeRoot.
Section root.
Context `{Sha256}.

Definition status_domain (st : BridgeStatus) : DomainId :=
  match st with Active d | Locked d | Minted d | Burned d | Unlocked d => d end.

(** The field ranges of a transfer, as its Rust types give them. *)
Record transfer_ok (t : BridgeTransfer) : Prop := {
  tok_asset : is_hash32 (t_asset_id t);
  tok_source : u32 (t_source_domain t);
  tok_target : u32 (t_target_domain t);
  tok_owner : is_hash32 (t_owner t);
  tok_recipient : is_hash32 (t_recipient t);
  tok_amount : u64 (t_amount t);
  tok_status : u32 (status_domain (t_status t));
  tok_event : is_hash32 (t_source_event_hash t);
  tok_expiry : u64 (t_expiry_height t);
}.

Definition queue_ok (q : gmap Z (list MessageId)) : Prop :=
  ∀ h ids, q !! h = Some ids → u64 h ∧ ids ≠ [] ∧ Forall is_hash32 ids.

Record state_ok (s : BridgeState) : Prop := {
  sok_assets : ∀ a st, asset_locations s !! a = Some st →
    is_hash32 a ∧ u32 (status_domain st);
  sok_transfers : ∀ id t, transfers s !! id = Some t →
    is_hash32 id ∧ t_message_id t = id ∧ transfer_ok t;
  sok_settled : queue_ok (settled_queue s);
  sok_expiry : queue_ok (expiry_queue s);
}.

Lemma length_status_bytes st : Z.of_nat (length (status_bytes st)) ≤ u64_max.
Proof.
  destruct st; unfold status_bytes, status_with_domain; rewrite length_app, length_le_bytes;
    vm_compute; discriminate.
Qed.

#[local] Hint Resolve length_status_bytes : fields.

Lemma status_with_domain_inj tag d tag' d' :
  u32 d → u32 d' → length tag = length tag' →
  status_with_domain tag d = status_with_domain tag' d' → tag = tag' ∧ d = d'.
Proof.
  intros Hd Hd' Hlen Heq. apply app_inj_1 in Heq as [-> Heq]; [|done].
  split; [done|by apply le_bytes4_inj].
Qed.

Lemma status_bytes_inj st st' :
  u32 (status_domain st) → u32 (status_domain st') → status_bytes st = status_bytes st' →
  st = st'.
Proof.
  intros Hd Hd' Heq. pose proof (f_equal length Heq) as Hlen.
  destruct st, st'; unfold status_bytes in *; unfold status_with_domain in Hlen;
    rewrite !length_app, !length_le_bytes in Hlen;
    try (by vm_compute in Hlen);
    apply status_with_domain_inj in Heq as [Htag ->]; done.
Qed.

(** A queue without empty buckets is recovered from its entries. *)
Lemma queue_entries_lookup q h :
  default [] (q !! h) = (filter (λ e, e.1 = h) (queue_entries q)).*2.
Proof.
  unfold queue_entries.
  pose proof (btree_list_nodup_keys q) as Hnd.
  assert (∀ ids, (h, ids) ∈ btree_list q ↔ q !! h = Some ids) as Helem
    by (intros; apply elem_of_btree_list).
  assert (∀ k (ids : list MessageId), (filter (λ e, e.1 = h) ((λ mid, (k, mid)) <$> ids)).*2 =
    if decide (k = h) then ids else []) as Hbucket.
  { intros k ids. induction ids as [|x ids IH]; [by case_decide|].
    rewrite fmap_cons, filter_cons. simpl. destruct (decide (k = h)).
    - simpl. by f_equal.
    - done. }
  set (bucket := λ e : Z * list MessageId, (λ mid, (e.1, mid)) <$> e.2).
  revert Hnd Helem. generalize (q !! h) as o. induction (btree_list q) as [|[k ids] l IH];
    intros o Hnd Helem.
  - destruct o as [ids|]; [|done].
    pose proof (proj2 (Helem ids) eq_refl) as Hin. by apply not_elem_of_nil in Hin.
  - change (((k, ids) :: l) ≫= bucket) with (((λ mid, (k, mid)) <$> ids) ++ (l ≫= bucket)).
    rewrite filter_app, fmap_app, Hbucket.
    apply NoDup_cons in Hnd as [Hk Hnd]. destruct (decide (k = h)) as [->|Hne].
    + assert (o = Some ids) as -> by (apply Helem; by left).
      rewrite <-(IH None); [simpl; by rewrite app_nil_r|done|]. intros ids'. split; [|done]. intros Hin. exfalso.
      apply Hk. apply list_elem_of_fmap. by exists (h, ids').
    + apply IH; [done|]. intros ids'. rewrite <-Helem, elem_of_cons.
      split; [by right|]. intros [?|?]; [congruence|done].
Qed.

Lemma queue_entries_inj q q' :
  queue_ok q → queue_ok q' → queue_entries q = queue_entries q' → q = q'.
Proof.
  intros Hq Hq' Heq. apply map_eq. intros h.
  pose proof (queue_entries_lookup q h) as H1. rewrite Heq, <-queue_entries_lookup in H1.
  destruct (q !! h) as [l|] eqn:Hl, (q' !! h) as [l'|] eqn:Hl'; simpl in H1.
  - by subst.
  - by destruct (Hq _ _ Hl) as (_ & ? & _).
  - by destruct (Hq' _ _ Hl') as (_ & ? & _).
  - done.
Qed.

Lemma queue_entries_ok q : queue_ok q → Forall (λ e, u64 e.1 ∧ is_hash32 e.2) (queue_entries q).
Proof.
  intros Hq. apply Forall_forall. intros [h id] Hin. unfold queue_entries in Hin.
  apply list_elem_of_bind in Hin as ([h' ids] & Hin & Hl).
  apply list_elem_of_fmap in Hin as (id' & Heq & Hin). simplify_eq/=.
  apply elem_of_btree_list in Hl. destruct (Hq _ _ Hl) as (? & _ & Hall).
  rewrite Forall_forall in Hall. auto.
Qed.

Lemma queue_leaf_inj tag e e' :
  u64 e.1 ∧ is_hash32 e.2 → u64 e'.1 ∧ is_hash32 e'.2 →
  queue_leaf tag e = queue_leaf tag e' → e = e'.
Proof.
  destruct e, e'. intros [] [] Heq. unfold queue_leaf in Heq. simpl in *.
  split_fields Heq. by subst.
Qed.

Lemma asset_leaf_inj e e' :
  is_hash32 e.1 ∧ u32 (status_domain e.2) → is_hash32 e'.1 ∧ u32 (status_domain e'.2) →
  asset_leaf e = asset_leaf e' → e = e'.
Proof.
  destruct e, e'. intros [] [] Heq. unfold asset_leaf in Heq. simpl in *.
  split_fields Heq. apply status_bytes_inj in Hfield1; [|done..]. by subst.
Qed.

Definition row_ok (e : MessageId * BridgeTransfer) : Prop :=
  is_hash32 e.1 ∧ t_message_id e.2 = e.1 ∧ transfer_ok e.2.

Lemma transfer_leaf_inj e e' : row_ok e → row_ok e' → transfer_leaf e = transfer_leaf e' → e = e'.
Proof.
  destruct e as [id t], e' as [id' t']. intros (? & Hid & []) (? & Hid' & []) Heq.
  unfold transfer_leaf in Heq. simpl in *. split_fields Heq.
  apply status_bytes_inj in Hfield7; [|done..].
  destruct t, t'. simpl in *. by subst.
Qed.

Lemma state_rows_ok s : state_ok s → Forall row_ok (btree_list (transfers s)).
Proof.
  intros Hs. apply Forall_forall. intros [id t] Ht. apply elem_of_btree_list in Ht.
  by apply (sok_transfers _ Hs) in Ht.
Qed.

Lemma state_assets_ok s :
  state_ok s →
  Forall (λ e, is_hash32 e.1 ∧ u32 (status_domain e.2)) (btree_list (asset_locations s)).
Proof.
  intros Hs. apply Forall_forall. intros [a st] Ha. apply elem_of_btree_list in Ha.
  by apply (sok_assets _ Hs) in Ha.
Qed.

Lemma bridge_leaves_ok s : state_ok s → Forall Settlement.leaf_ok (leaves s).
Proof.
  intros Hs. unfold leaves. rewrite !Forall_app, !Forall_fmap. split_and!.
  - eapply Forall_impl; [by apply state_assets_ok|]. intros [a st] []. simpl in *.
    split; [split|done]; [|done]. unfold asset_leaf. simpl. solve_fields_ok.
  - eapply Forall_impl; [by apply state_rows_ok|]. intros [id t] (? & _ & []). simpl in *.
    split; [split|done]; [|done]. unfold transfer_leaf. simpl. solve_fields_ok.
  - eapply Forall_impl; [apply queue_entries_ok, Hs|]. intros [h id] []. simpl in *.
    split; [split|done]; [|done]. unfold queue_leaf. simpl. solve_fields_ok.
  - eapply Forall_impl; [apply queue_entries_ok, Hs|]. intros [h id] []. simpl in *.
    split; [split|done]; [|done]. unfold queue_leaf. simpl. solve_fields_ok.
Qed.

(** Leaves of one tag, or of none of a group. *)
Ltac solve_tags :=
  rewrite ?Forall_app, ?Forall_fmap; split_and?; apply Forall_true;
  (intros [] || intros ?); vm_compute; intuition discriminate.

Lemma bridge_leaves_inj s1 s2 :
  state_ok s1 → state_ok s2 → leaves s1 = leaves s2 →
  asset_locations s1 = asset_locations s2 ∧ transfers s1 = transfers s2 ∧
  settled_queue s1 = settled_queue s2 ∧ expiry_queue s1 = expiry_queue s2.
Proof.
  intros H1 H2 Heq. unfold leaves in Heq.
  apply (app_inj_partition (λ fs, head fs = Some (bstr "BDLM_BRIDGE_ASSET_LEAF_V1"))) in Heq
    as [Ha Heq]; [|solve_tags..].
  apply (app_inj_partition (λ fs, head fs = Some (bstr "BDLM_BRIDGE_TRANSFER_V1"))) in Heq
    as [Ht Heq]; [|solve_tags..].
  apply (app_inj_partition (λ fs, head fs = Some (bstr "BDLM_BRIDGE_SETTLED_V1"))) in Heq
    as [Hs He]; [|solve_tags..].
  eapply fmap_inj_on in Ha; [|apply asset_leaf_inj|by apply state_assets_ok..].
  eapply fmap_inj_on in Ht; [|apply transfer_leaf_inj|by apply state_rows_ok..].
  eapply fmap_inj_on in Hs; [|apply queue_leaf_inj|apply queue_entries_ok, H1|apply queue_entries_ok, H2].
  eapply fmap_inj_on in He; [|apply queue_leaf_inj|apply queue_entries_ok, H1|apply queue_entries_ok, H2].
  apply btree_list_inj in Ha, Ht.
  apply queue_entries_inj in Hs; [|apply H1|apply H2].
  apply queue_entries_inj in He; [|apply H1|apply H2]. done.
Qed.

(** The bridge root commits to the bridge: two well-formed states with
    one root agree on every asset location, every transfer row, and both
    queues, unless hashing them contains a collision. *)
Theorem bridge_root_binding s1 s2 :
  state_ok s1 → state_ok s2 →
  collision_free (Settlement.root_preimages (leaves s1) ++ Settlement.root_preimages (leaves s2)) →
  root s1 = root s2 →
  asset_locations s1 = asset_locations s2 ∧ transfers s1 = transfers s2 ∧
  settled_queue s1 = settled_queue s2 ∧ expiry_queue s1 = expiry_queue s2.
Proof.
  intros H1 H2 Hcf Heq. apply bridge_leaves_inj; [done..|].
  eapply Settlement.merkle_root_inj; [by apply bridge_leaves_ok..|done|done].
Qed.
End root.
End BridgeRoot.

(** ** The theorems on a concrete bridge *)
Module BridgeExamples.
#[local] Existing Instance poly_sha256.

Definition addr (b : Z) : Address := replicate 32 b.
Definition asset : AssetId := addr 7.

(** One asset, active in domain 1. *)
Definition s1 : BridgeState := (register_asset new asset 1).2.

Definition m : CrossDomainMessage :=
  lock_message 1 2 10 0 asset (addr 1) (addr 2) 500 100 (lane_nonce s1 1 2 (addr 1)).

(** The asset locked until height 100. *)
Definition s2 : BridgeState := (lock s1 1 2 10 0 asset (addr 1) (addr 2) 500 100).2.

Lemma m_ok : message_ok m.
Proof. split; vm_compute; (reflexivity || (split; discriminate) || discriminate). Qed.

Lemma reach_s1 : reachable [] s1.
Proof. apply rtc_once. constructor. Qed.

Lemma reach_s2 : reachable [m] s2.
Proof.
  eapply rtc_r; [exact reach_s1|].
  assert (u64 500) as Hamt by int_lia.
  assert (lane_nonce s1 1 2 (addr 1) < u64_max) as Hn by (vm_compute; reflexivity).
  exact (step_lock [] s1 1 2 10 0 asset (addr 1) (addr 2) 500 100 m_ok Hamt Hn).
Qed.

Lemma bridge_custody_witness :
  ∃ id t, transfers s2 !! id = Some t ∧ t_asset_id t = asset ∧ t_status t = Locked 1 ∧
    ∀ id' t', transfers s2 !! id' = Some t' → t_asset_id t' = asset → live (t_status t') → id' = id.
Proof.
  refine (proj1 (BridgeSafety.bridge_custody [m] s2 _ _) asset (Locked 1) _).
  - exact reach_s2.
  - apply collision_freeb_spec. vm_compute. reflexivity.
  - vm_compute. reflexivity.
Defined.

Lemma mint_at_most_once_witness :
  let c := ([m], (mint s2 m 50).2) in
  is_ok (mint c.2 m 60).1 = false ∧ (mint c.2 m 60).2 = c.2.
Proof.
  intros c. apply (BridgeSafety.mint_at_most_once [m] s2 m 50 c m 60 (mint s2 m 50).2).
  - vm_compute. reflexivity.
  - apply rtc_refl.
  - reflexivity.
  - reflexivity.
  - reflexivity.
  - reflexivity.
Defined.

Lemma mint_authentic_witness :
  ∃ t m0, transfers s2 !! message_id m = Some t ∧ m0 ∈ [m] ∧ origin m0 t ∧ same_content m0 m ∧
    t_status t = Locked (t_source_domain t) ∧
    source_domain m = t_source_domain t ∧ target_domain m = t_target_domain t ∧
    sender m = t_owner t ∧ recipient m = t_recipient t ∧
    transfers (mint s2 m 50).2 !! message_id m =
      Some (with_status t (Minted (t_target_domain t))).
Proof.
  apply (BridgeSafety.mint_authentic [m] s2 m 50 (mint s2 m 50).2).
  - exact reach_s2.
  - apply collision_freeb_spec. vm_compute. reflexivity.
  - exact m_ok.
  - vm_compute. reflexivity.
Defined.

Lemma bridge_cycle_witness :
  ∃ s2 s3 s4 s5 t e e',
    lock s1 1 2 10 0 asset (addr 1) (addr 2) 500 100 = (Ok (t, e), s2) ∧
    Event.message e = Some m ∧
    mint s2 m 20 = (Ok (), s3) ∧
    burn_with_event s3 (message_id m) 2 30 0 200 = (Ok e', s4) ∧
    unlock s4 (message_id m) 2 40 = (Ok (), s5) ∧
    transfers s5 !! message_id m = Some (with_status t (Unlocked 1)) ∧
    asset_locations s5 = asset_locations s1.
Proof.
  apply (BridgeSafety.bridge_cycle [] s1 1 2 10 0 asset (addr 1) (addr 2) 500 100 20 30 0 200 40).
  - exact reach_s1.
  - apply collision_freeb_spec. vm_compute. reflexivity.
  - exact m_ok.
  - int_lia.
  - vm_compute. reflexivity.
  - vm_compute. reflexivity.
Defined.

Lemma sweep_exact_witness :
  locked_sum s2 =
    locked_sum (sweep_expired_locks s2 100).2 + sumZ (sweep_expired_locks s2 100).1.*2.
Proof.
  apply (BridgeSafety.sweep_exact [m] s2 100 (sweep_expired_locks s2 100).1
    (sweep_expired_locks s2 100).2).
  - exact reach_s2.
  - apply collision_freeb_spec. vm_compute. reflexivity.
  - apply surjective_pairing.
Defined.

(** Two bridges that registered the same assets in different orders. *)
Definition b1 : BridgeState := (register_asset (register_asset new (addr 7) 1).2 (addr 8) 2).2.
Definition b2 : BridgeState := (register_asset (register_asset new (addr 8) 2).2 (addr 7) 1).2.

Lemma b_ok b : b = b1 ∨ b = b2 → BridgeRoot.state_ok b.
Proof.
  intros Hb.
  assert (asset_locations b = {[addr 8 := Active 2; addr 7 := Active 1]}) as Hassets
    by (destruct Hb as [-> | ->]; vm_compute; reflexivity).
  split; [|destruct Hb as [-> | ->]; intros k v Hk; vm_compute in Hk; discriminate..].
  intros a st Ha. rewrite Hassets in Ha.
  apply lookup_insert_Some in Ha as [[<- <-]|[_ [<- <-]%lookup_singleton_Some]];
    (split; [reflexivity|vm_compute; split; discriminate]).
Qed.

Lemma bridge_root_binding_witness : asset_locations b1 = asset_locations b2.
Proof.
  apply (BridgeRoot.bridge_root_binding b1 b2).
  - apply b_ok. left. reflexivity.
  - apply b_ok. right. reflexivity.
  - apply collision_freeb_spec. vm_compute. reflexivity.
  - vm_compute. reflexivity.
Defined.
End BridgeExamples.
