(* ===== verification/Relayer.v ===== *)
(** * The universal relayer

    [src/cross_domain/relayer.rs]: relays wait for a proof that their source
    event is in the committed event tree of the source domain; a relay that is
    proved is recorded and handed to the bridge.

    The bytes [bincode] writes for a proof are a parameter; a proof that does
    not serialize is refused. *)
From stdpp Require Import base tactics numbers list gmap strings sorting.
From Stdlib Require Import ZArith Lia.
From S2P Require Import Prelude Merkle Messages.
Import Message.

Module Relayer.

Inductive RelayerError :=
  | NotActiveRelayer (a : Address)
  | AlreadyRelayed (id : MessageId)
  | ProofDoesNotVerify
  | ProofLeafMismatch
  | RelayedIdMismatch
  | RelayExpired (id : MessageId) (expiry current_height : Z)
  | InvalidTransferState (id : MessageId)
  | SourceDomainMismatch (expected got : DomainId)
  | NoPendingRelay (id : MessageId)
  | ProofSerialization
  | NoMessage.

Record RelayRecord := { relayer : Address; relay_height : Z; proof_hash : Hash32 }.

Record RelayLedger := { relayed : gmap MessageId RelayRecord }.

Definition ledger_new : RelayLedger := {| relayed := ∅ |}.

Definition record_relay (l : RelayLedger) (id : MessageId) (a : Address) (height : Z)
    (hash : Hash32) : result RelayerError () * RelayLedger :=
  if bool_decide (is_Some (relayed l !! id)) then (Err (AlreadyRelayed id), l)
  else
    (Ok (), {| relayed := <[id := {| relayer := a; relay_height := height;
                                     proof_hash := hash |}]> (relayed l) |}).

Definition ledger_is_relayed (l : RelayLedger) (id : MessageId) : bool :=
  bool_decide (is_Some (relayed l !! id)).

Definition get_record (l : RelayLedger) (id : MessageId) : option RelayRecord := relayed l !! id.

Definition drop_records_through (l : RelayLedger) (cutoff : Z) : RelayLedger :=
  {| relayed := filter (λ e, cutoff < relay_height e.2) (relayed l) |}.

Definition record_leaf (e : MessageId * RelayRecord) : list bytes :=
  [bstr "BDLM_RELAY_RECORD_V1"; e.1; relayer e.2; le_bytes 8 (relay_height e.2); proof_hash e.2].

Definition ledger_root `{Sha256} (l : RelayLedger) : Hash32 :=
  Settlement.merkle_root (hash_fields_bytes <$> (record_leaf <$> btree_list (relayed l))).

(** Ten times [FINALITY_PRUNE_DEPTH]. *)
Definition RELAY_RETENTION_BLOCKS : Z := 10 * Nonce.FINALITY_PRUNE_DEPTH.

Record RelayerConfig := {
  relay_window_blocks : Z;
  min_relayer_stake : Z;
  slash_ratio_invalid : Z;
  slash_ratio_expired : Z;
}.

Definition config_default : RelayerConfig :=
  {| relay_window_blocks := 100; min_relayer_stake := 10000000; slash_ratio_invalid := 50;
     slash_ratio_expired := 25 |}.

Record PendingRelay := {
  r_message_id : MessageId;
  r_source_domain : DomainId;
  r_target_domain : DomainId;
  source_event : Event.DomainEvent;
  created_height : Z;
  r_expiry_height : Z;
}.

Record UniversalRelayer := {
  config : RelayerConfig;
  ledger : RelayLedger;
  pending : gmap MessageId PendingRelay;
}.

Definition new (c : RelayerConfig) : UniversalRelayer :=
  {| config := c; ledger := ledger_new; pending := ∅ |}.

Definition enqueue_relay (u : UniversalRelayer) (event : Event.DomainEvent)
    (m : CrossDomainMessage) (height : Z) : UniversalRelayer :=
  {| config := config u; ledger := ledger u;
     pending :=
       <[message_id m := {| r_message_id := message_id m; r_source_domain := source_domain m;
                            r_target_domain := target_domain m; source_event := event;
                            created_height := height; r_expiry_height := expiry_height m |}]>
         (pending u) |}.

Definition is_expired (p : PendingRelay) (current_height : Z) : bool :=
  (0 <? r_expiry_height p) && (r_expiry_height p <? current_height).

Definition pending_relay (u : UniversalRelayer) (id : MessageId) : option PendingRelay :=
  pending u !! id.

Definition is_relayed (u : UniversalRelayer) (id : MessageId) : bool :=
  ledger_is_relayed (ledger u) id.

Definition pending_count (u : UniversalRelayer) : nat := size (pending u).

Definition expired_relays (u : UniversalRelayer) (current_height : Z) : list PendingRelay :=
  filter (λ p, is_expired p current_height = true) (btree_values (pending u)).

Definition sweep_retired (u : UniversalRelayer) (current_height : Z) : nat * UniversalRelayer :=
  let cutoff := sat_sub current_height RELAY_RETENTION_BLOCKS in
  let before := (size (pending u) + size (relayed (ledger u)))%nat in
  let u' := {| config := config u; ledger := drop_records_through (ledger u) cutoff;
               pending := filter (λ e, r_expiry_height e.2 = 0 ∨ cutoff < r_expiry_height e.2)
                            (pending u) |} in
  ((before - (size (pending u') + size (relayed (ledger u'))))%nat, u').

Section relay.
Context `{Sha256} (proof_bytes : Event.MerkleProof → option bytes).

Definition process_relay (u : UniversalRelayer) (id : MessageId) (a : Address)
    (proof : Event.MerkleProof) (source : DomainId) (event_tree_root : Hash32)
    (current_height : Z) : result RelayerError CrossDomainMessage * UniversalRelayer :=
  if ledger_is_relayed (ledger u) id then (Err (AlreadyRelayed id), u)
  else
    let? p := ok_or (pending u !! id) (NoPendingRelay id) at u in
    if is_expired p current_height
    then (Err (RelayExpired id (r_expiry_height p) current_height), u)
    else if negb (r_source_domain p =? source)
    then (Err (SourceDomainMismatch (r_source_domain p) source), u)
    else if negb (Event.verify proof event_tree_root) then (Err ProofDoesNotVerify, u)
    else if bool_decide (Event.leaf proof ≠ Event.leaf_hash (source_event p))
    then (Err ProofLeafMismatch, u)
    else
      let? serialized := ok_or (proof_bytes proof) ProofSerialization at u in
      let hash := hash_fields_bytes [bstr "BDLM_RELAY_PROOF_HASH_V1"; serialized] in
      let '(r, l) := record_relay (ledger u) id a current_height hash in
      let u := {| config := config u; ledger := l; pending := pending u |} in
      let? _ := r at u in
      let? m := ok_or (Event.message (source_event p)) NoMessage at u in
      if negb (verify_id m) then (Err RelayedIdMismatch, u)
      else
        (Ok m, {| config := config u; ledger := ledger u; pending := delete id (pending u) |}).

(** A relay that succeeds was pending, in time, from the claimed domain, and
    its proof shows the pending event; it is no longer pending. *)
Lemma process_relay_ok u id a proof source root height m u' :
  process_relay u id a proof source root height = (Ok m, u') →
  ∃ p, pending u !! id = Some p ∧ ledger_is_relayed (ledger u) id = false ∧
    is_expired p height = false ∧ r_source_domain p = source ∧
    Event.verify proof root = true ∧ Event.leaf proof = Event.leaf_hash (source_event p) ∧
    Event.message (source_event p) = Some m ∧ verify_id m = true ∧
    pending u' = delete id (pending u) ∧ ledger_is_relayed (ledger u') id = true.
Proof.
  unfold process_relay, record_relay. intros Hp.
  destruct (ledger_is_relayed (ledger u) id) eqn:Hr; [done|].
  destruct (pending u !! id) as [p|] eqn:Hpe; cbn in Hp; [|done].
  destruct (is_expired p height) eqn:Hx; [done|].
  destruct (Z.eqb_spec (r_source_domain p) source); cbn in Hp; [|done].
  destruct (Event.verify proof root) eqn:Hv; cbn in Hp; [|done].
  case_bool_decide as Hl; [done|].
  destruct (proof_bytes proof); cbn in Hp; [|done].
  unfold ledger_is_relayed in Hr. rewrite Hr in Hp. cbn in Hp.
  destruct (Event.message (source_event p)) as [m'|] eqn:Hm; cbn in Hp; [|done].
  destruct (verify_id m') eqn:Hid; cbn in Hp; simplify_eq. exists p.
  split_and!; try done. unfold ledger_is_relayed. cbn. rewrite lookup_insert_eq.
  by apply bool_decide_eq_true.
Qed.

(** Whatever the outcome, the pending relays stay or lose the one relayed. *)
Lemma process_relay_pending u id a proof source root height :
  let '(r, u') := process_relay u id a proof source root height in
  pending u' = if is_ok r then delete id (pending u) else pending u.
Proof.
  unfold process_relay, record_relay. repeat (case_match || case_bool_decide); simplify_eq/=; done.
Qed.

(** A refused relay spends nothing, unless the pending event carries no
    message or one whose id is not its own. *)
Lemma process_relay_refused u id a proof source root height e u' :
  process_relay u id a proof source root height = (Err e, u') →
  (∀ p, pending u !! id = Some p →
     ∃ m, Event.message (source_event p) = Some m ∧ verify_id m = true) → u' = u.
Proof.
  unfold process_relay, record_relay. intros Hp Hok.
  destruct (ledger_is_relayed (ledger u) id) eqn:Hr; [by simplify_eq|].
  destruct (pending u !! id) as [p|] eqn:Hpe; cbn in Hp; [|by simplify_eq].
  destruct (Hok p eq_refl) as (m & Hm & Hid).
  case_match; [by simplify_eq|]. case_match; [by simplify_eq|]. case_match; [by simplify_eq|].
  case_bool_decide; [by simplify_eq|].
  destruct (proof_bytes proof); cbn in Hp; [|by simplify_eq].
  unfold ledger_is_relayed in Hr. rewrite Hr in Hp. cbn in Hp. rewrite Hm in Hp. cbn in Hp.
  by rewrite Hid in Hp.
Qed.
End relay.

Lemma sweep_retired_pending u height id p :
  pending (sweep_retired u height).2 !! id = Some p → pending u !! id = Some p.
Proof. cbn. intros Hp. by apply map_lookup_filter_Some in Hp as [? _]. Qed.

(** The sweep keeps every relay that can still be processed. *)
Lemma sweep_retired_live u height id p :
  pending u !! id = Some p → 0 ≤ r_expiry_height p → is_expired p height = false →
  pending (sweep_retired u height).2 !! id = Some p.
Proof.
  intros Hp Hpos Hx. cbn. apply map_lookup_filter_Some. split; [done|]. cbn.
  unfold is_expired in Hx. unfold sat_sub, RELAY_RETENTION_BLOCKS, Nonce.FINALITY_PRUNE_DEPTH.
  destruct (Z.ltb_spec 0 (r_expiry_height p)), (Z.ltb_spec (r_expiry_height p) height);
    cbn in Hx; try done; lia.
Qed.
End Relayer.
