(* ===== verification/Economics.v ===== *)
(** * Token economics

    [src/tokenomics/mod.rs], [src/tokenomics/reward_pool.rs],
    [src/chain/fee_market.rs] and [slash_penalty] of
    [src/core/chain_config.rs]: supply, vesting, burns, the reward pool and
    the fee market, all pure arithmetic at fixed width.

    The theorems: vesting is monotone and bounded by its total, the genesis
    allocation is the fixed supply, epoch rewards never exceed the annual
    yield, a reward-pool epoch pays out its budget exactly, the base fee moves
    by at most its documented fraction, fee distribution conserves the fee,
    and a slash never takes more than the stake. *)
From stdpp Require Import base tactics numbers list gmap strings sorting.
From Stdlib Require Import ZArith Lia.
From S2P Require Import Prelude Messages.

Definition FIXED_POINT_SCALE : Z := 1000000.

(** ** Supply, vesting and burns *)
Module Tokenomics.

Definition BUD_UNIT : Z := 1000000.
Definition BUD_TOTAL_SUPPLY : Z := 100000000 * BUD_UNIT.
Definition bud (whole : Z) : Z := whole * BUD_UNIT.

Inductive Allocation := Community | Liquidity | Ecosystem | Team | BurnReserve.

Record VestingSchedule := {
  total : Z;
  start_epoch : Z;
  cliff_epochs : Z;
  duration_epochs : Z;
}.

Definition unlocked_at (v : VestingSchedule) (epoch : Z) : Z :=
  if epoch <? u64_sat_add (start_epoch v) (cliff_epochs v) then 0
  else if duration_epochs v =? 0 then total v
  else
    let elapsed := sat_sub epoch (start_epoch v) in
    if duration_epochs v <=? elapsed then total v
    else as_u64 (total v * elapsed / duration_epochs v).

Definition locked_at (v : VestingSchedule) (epoch : Z) : Z :=
  sat_sub (total v) (unlocked_at v epoch).

Record TokenomicsParams := {
  community : Z;
  liquidity : Z;
  ecosystem : Z;
  team : Z;
  burn_reserve : Z;
  epochs_per_year : Z;
  annual_burn_ratio_fixed : Z;
  team_cliff_epochs : Z;
  team_vesting_epochs : Z;
  tx_fee_burn_ratio_fixed : Z;
  block_reward : Z;
  slot_duration_secs : Z;
  epoch_length_slots : Z;
  validator_annual_yield_ratio_fixed : Z;
}.

Definition default_params : TokenomicsParams :=
  {| community := bud 10000000;
     liquidity := bud 10000000;
     ecosystem := bud 20000000;
     team := bud 20000000;
     burn_reserve := bud 40000000;
     epochs_per_year := 1000;
     annual_burn_ratio_fixed := FIXED_POINT_SCALE / 10;
     team_cliff_epochs := 1000;
     team_vesting_epochs := 4000;
     tx_fee_burn_ratio_fixed := FIXED_POINT_SCALE / 100;
     block_reward := 50;
     validator_annual_yield_ratio_fixed := FIXED_POINT_SCALE * 5 / 100;
     slot_duration_secs := 10;
     epoch_length_slots := 32 |}.

Definition seconds_per_epoch (p : TokenomicsParams) : Z :=
  u64_sat_mul (Z.max (slot_duration_secs p) 1) (Z.max (epoch_length_slots p) 1).

Definition seconds_per_year (p : TokenomicsParams) : Z :=
  u64_sat_mul (Z.max (epochs_per_year p) 1) (seconds_per_epoch p).

Definition epoch_at_timestamp (p : TokenomicsParams) (timestamp_secs : Z) : Z :=
  timestamp_secs / seconds_per_epoch p.

Definition params_total (p : TokenomicsParams) : Z :=
  u64_sat_add
    (u64_sat_add
      (u64_sat_add (u64_sat_add (community p) (liquidity p)) (ecosystem p)) (team p))
    (burn_reserve p).

Definition is_balanced (p : TokenomicsParams) : bool := params_total p =? BUD_TOTAL_SUPPLY.

Definition amount_of (p : TokenomicsParams) (alloc : Allocation) : Z :=
  match alloc with
  | Community => community p
  | Liquidity => liquidity p
  | Ecosystem => ecosystem p
  | Team => team p
  | BurnReserve => burn_reserve p
  end.

Definition team_vesting (p : TokenomicsParams) (genesis_epoch : Z) : VestingSchedule :=
  {| total := team p; start_epoch := genesis_epoch;
     cliff_epochs := team_cliff_epochs p; duration_epochs := team_vesting_epochs p |}.

Definition calculate_epoch_reward (p : TokenomicsParams) (validator_stake : Z) : Z :=
  if validator_stake =? 0 then 0
  else
    let annual_yield :=
      validator_stake * validator_annual_yield_ratio_fixed p / FIXED_POINT_SCALE in
    let epochs := Z.max (epochs_per_year p) 1 in
    let epoch_yield := annual_yield / epochs in
    default u64_max (u64_try_from epoch_yield).

Definition annual_burn_amount (p : TokenomicsParams) : Z :=
  as_u64 (burn_reserve p * annual_burn_ratio_fixed p / FIXED_POINT_SCALE).

Definition metabolic_burn (p : TokenomicsParams) (fee : Z) : Z :=
  as_u64 (fee * tx_fee_burn_ratio_fixed p / FIXED_POINT_SCALE).

Record TokenomicsAddresses := {
  a_community : Address;
  a_liquidity : Address;
  a_ecosystem : Address;
  a_team : Address;
  a_burn_reserve : Address;
}.

(** [0xB0], [0xD0], the tag, then zeros. *)
Definition reserved_address (tag : Z) : Address := [176; 208; tag] ++ replicate 29 0.

Definition reserved : TokenomicsAddresses :=
  {| a_community := reserved_address 1; a_liquidity := reserved_address 2;
     a_ecosystem := reserved_address 3; a_team := reserved_address 4;
     a_burn_reserve := reserved_address 5 |}.

Definition address_of (addrs : TokenomicsAddresses) (alloc : Allocation) : Address :=
  match alloc with
  | Community => a_community addrs
  | Liquidity => a_liquidity addrs
  | Ecosystem => a_ecosystem addrs
  | Team => a_team addrs
  | BurnReserve => a_burn_reserve addrs
  end.

Inductive GenesisError := AllocationsNotFixedSupply (total supply : Z).

Definition genesis_allocations (p : TokenomicsParams) (addrs : TokenomicsAddresses) :
    result GenesisError (list (Address * Z)) :=
  if negb (is_balanced p) then Err (AllocationsNotFixedSupply (params_total p) BUD_TOTAL_SUPPLY)
  else
    Ok [(a_community addrs, community p); (a_liquidity addrs, liquidity p);
        (a_ecosystem addrs, ecosystem p); (a_team addrs, team p);
        (a_burn_reserve addrs, burn_reserve p)].

Record TimedBurnState := { years_burned : Z; total_burned : Z }.

Definition burn_new : TimedBurnState := {| years_burned := 0; total_burned := 0 |}.

Definition due_years (genesis_epoch current_epoch per_year : Z) : Z :=
  if per_year =? 0 then 0 else sat_sub current_epoch genesis_epoch / per_year.

Definition due_years_by_time (genesis_secs current_secs per_year : Z) : Z :=
  if per_year =? 0 then 0 else sat_sub current_secs genesis_secs / per_year.

(** *** Vesting *)
Record schedule_ok (v : VestingSchedule) : Prop := {
  vok_total : u64 (total v);
  vok_start : u64 (start_epoch v);
  vok_cliff : u64 (cliff_epochs v);
  vok_duration : u64 (duration_epochs v);
}.

Lemma unlocked_at_bounds v epoch :
  schedule_ok v → u64 epoch → 0 ≤ unlocked_at v epoch ≤ total v.
Proof.
  intros [Ht Hs Hc Hd] He. unfold unlocked_at.
  case_match; [int_lia|]. destruct (Z.eqb_spec (duration_epochs v) 0); [int_lia|].
  destruct (Z.leb_spec (duration_epochs v) (sat_sub epoch (start_epoch v))) as [|Hlt];
    [int_lia|].
  pose proof (mul_div_le (total v) (sat_sub epoch (start_epoch v)) (duration_epochs v)
    ltac:(int_lia) ltac:(int_lia) ltac:(int_lia)).
  rewrite as_u64_small by int_lia. lia.
Qed.

Lemma unlocked_at_mono v e1 e2 :
  schedule_ok v → u64 e1 → u64 e2 → e1 ≤ e2 → unlocked_at v e1 ≤ unlocked_at v e2.
Proof.
  intros Hok He1 He2 Hle.
  pose proof (unlocked_at_bounds v e1 Hok He1). pose proof (unlocked_at_bounds v e2 Hok He2).
  destruct Hok as [Ht Hs Hc Hd]. unfold unlocked_at in *.
  destruct (Z.ltb_spec e1 (u64_sat_add (start_epoch v) (cliff_epochs v))) as [|H1]; [lia|].
  destruct (Z.ltb_spec e2 (u64_sat_add (start_epoch v) (cliff_epochs v))); [lia|].
  destruct (Z.eqb_spec (duration_epochs v) 0); [done|].
  destruct (Z.leb_spec (duration_epochs v) (sat_sub e2 (start_epoch v))); [lia|].
  destruct (Z.leb_spec (duration_epochs v) (sat_sub e1 (start_epoch v))); [int_lia|].
  assert (∀ e, u64 e → sat_sub e (start_epoch v) < duration_epochs v →
    as_u64 (total v * sat_sub e (start_epoch v) / duration_epochs v) =
    total v * sat_sub e (start_epoch v) / duration_epochs v) as Hsmall.
  { intros e He Hlt. apply as_u64_small.
    pose proof (mul_div_le (total v) (sat_sub e (start_epoch v)) (duration_epochs v)
      ltac:(int_lia) ltac:(int_lia) ltac:(int_lia)). int_lia. }
  rewrite !Hsmall by done. apply Z.div_le_mono; [int_lia|].
  apply Z.mul_le_mono_nonneg_l; int_lia.
Qed.

(** A vesting schedule releases nothing before its cliff, never less at a
    later epoch, never more than its total, everything once the duration has
    passed, and what is locked and what is unlocked always add up to the
    total. *)
Theorem vesting_correct v :
  schedule_ok v →
  (∀ e, u64 e → e < start_epoch v + cliff_epochs v → e < u64_max → unlocked_at v e = 0) ∧
  (∀ e, u64 e → start_epoch v + Z.max (cliff_epochs v) (duration_epochs v) ≤ e →
    unlocked_at v e = total v) ∧
  (∀ e1 e2, u64 e1 → u64 e2 → e1 ≤ e2 → unlocked_at v e1 ≤ unlocked_at v e2) ∧
  (∀ e, u64 e → 0 ≤ unlocked_at v e ≤ total v ∧
    locked_at v e + unlocked_at v e = total v).
Proof.
  intros Hok. split_and!.
  - intros e He Hcliff Hmax. destruct Hok. unfold unlocked_at.
    by rewrite (proj2 (Z.ltb_lt _ _)) by int_lia.
  - intros e He Hdone. destruct Hok. unfold unlocked_at.
    rewrite (proj2 (Z.ltb_ge _ _)) by int_lia. case_match; [done|].
    by rewrite (proj2 (Z.leb_le _ _)) by int_lia.
  - intros. by apply unlocked_at_mono.
  - intros e He. pose proof (unlocked_at_bounds v e Hok He). split; [done|].
    unfold locked_at. int_lia.
Qed.

Lemma vesting_correct_witness :
  unlocked_at (team_vesting default_params 0) 999 = 0 ∧
  unlocked_at (team_vesting default_params 0) 4000 = team default_params.
Proof.
  destruct (vesting_correct (team_vesting default_params 0)) as (Hcliff & Hend & _).
  - split; vm_compute; split; discriminate.
  - split; [apply Hcliff|apply Hend]; vm_compute; try reflexivity; try split; discriminate.
Defined.

(** *** Supply and rewards *)

(** Whenever the genesis builder accepts parameters, the amounts it seeds
    add up to exactly the fixed supply, one entry per allocation category at
    that category's address. *)
Theorem genesis_allocations_fixed_supply p addrs allocs :
  Forall u64 [community p; liquidity p; ecosystem p; team p; burn_reserve p] →
  genesis_allocations p addrs = Ok allocs →
  sumZ allocs.*2 = BUD_TOTAL_SUPPLY ∧
  allocs = (λ a, (address_of addrs a, amount_of p a)) <$>
    [Community; Liquidity; Ecosystem; Team; BurnReserve].
Proof.
  intros Hu Hg. rewrite !Forall_cons in Hu. destruct Hu as (? & ? & ? & ? & ? & _).
  unfold genesis_allocations in Hg. destruct (is_balanced p) eqn:Hb; simplify_eq/=.
  split; [|done]. apply Z.eqb_eq in Hb. unfold params_total in Hb.
  unfold BUD_TOTAL_SUPPLY, BUD_UNIT in *. unfold sumZ. simpl. int_lia.
Qed.

Lemma genesis_allocations_fixed_supply_witness :
  sumZ (snd <$> [(reserved_address 1, bud 10000000); (reserved_address 2, bud 10000000);
    (reserved_address 3, bud 20000000); (reserved_address 4, bud 20000000);
    (reserved_address 5, bud 40000000)]) = BUD_TOTAL_SUPPLY.
Proof.
  eapply (genesis_allocations_fixed_supply default_params reserved).
  - repeat constructor; vm_compute; discriminate.
  - reflexivity.
Defined.

(** A year of epoch rewards never pays a validator more than the annual
    yield its stake was promised, however the yield divides. *)
Theorem epoch_rewards_within_annual_yield p stake :
  u64 stake → u64 (validator_annual_yield_ratio_fixed p) → u64 (epochs_per_year p) →
  0 ≤ calculate_epoch_reward p stake ∧
  Z.max (epochs_per_year p) 1 * calculate_epoch_reward p stake ≤
    stake * validator_annual_yield_ratio_fixed p / FIXED_POINT_SCALE.
Proof.
  intros Hs Hr He. unfold calculate_epoch_reward.
  set (yield := stake * validator_annual_yield_ratio_fixed p / FIXED_POINT_SCALE).
  assert (0 ≤ yield) by (apply Z.div_pos; [unfold_ints; nia|done]).
  destruct (Z.eqb_spec stake 0); [lia|].
  set (k := Z.max (epochs_per_year p) 1). assert (0 < k) by lia.
  assert (0 ≤ yield / k) by (apply Z.div_pos; lia).
  assert (k * (yield / k) ≤ yield) by (apply Z.mul_div_le; lia).
  assert (0 ≤ default u64_max (u64_try_from (yield / k)) ≤ yield / k).
  { unfold u64_try_from. destruct (Z.leb_spec (yield / k) u64_max); simpl; [lia|int_lia]. }
  split; [lia|]. nia.
Qed.

Lemma epoch_rewards_within_annual_yield_witness :
  0 ≤ calculate_epoch_reward default_params 123456789.
Proof.
  apply (epoch_rewards_within_annual_yield default_params 123456789);
    vm_compute; split; discriminate.
Defined.

(** A burn ratio of at most one takes at most the amount it applies to. *)
Lemma scaled_le amount ratio :
  u64 amount → 0 ≤ ratio ≤ FIXED_POINT_SCALE →
  0 ≤ as_u64 (amount * ratio / FIXED_POINT_SCALE) ≤ amount.
Proof.
  intros Ha Hr. pose proof (mul_div_le amount ratio FIXED_POINT_SCALE
    ltac:(int_lia) Hr ltac:(done)). rewrite as_u64_small by int_lia. lia.
Qed.

Lemma metabolic_burn_le p fee :
  u64 fee → 0 ≤ tx_fee_burn_ratio_fixed p ≤ FIXED_POINT_SCALE →
  0 ≤ metabolic_burn p fee ≤ fee.
Proof. apply scaled_le. Qed.

Lemma annual_burn_amount_le p :
  u64 (burn_reserve p) → 0 ≤ annual_burn_ratio_fixed p ≤ FIXED_POINT_SCALE →
  0 ≤ annual_burn_amount p ≤ burn_reserve p.
Proof. apply scaled_le. Qed.
End Tokenomics.

(** ** The validation reward pool *)
Module RewardPool.
Import Tokenomics.

Definition DEFAULT_VALIDATION_REWARD_POOL : Z := bud 10000000.
Definition DEFAULT_TREASURY_POOL : Z := bud 2000000.
Definition DEFAULT_VALIDATION_POOL_EPOCHS : Z := 100000.

Record RewardPoolSchedule := {
  validation_reward_pool : Z;
  validation_pool_epochs : Z;
  treasury_pool : Z;
  reward_pool_start_epoch : Z;
}.

Definition default_schedule : RewardPoolSchedule :=
  {| validation_reward_pool := DEFAULT_VALIDATION_REWARD_POOL;
     validation_pool_epochs := DEFAULT_VALIDATION_POOL_EPOCHS;
     treasury_pool := DEFAULT_TREASURY_POOL;
     reward_pool_start_epoch := 0 |}.

Inductive RewardPoolError := EmptyEpochSchedule | PoolExceedsFixedSupply.

Definition validate (s : RewardPoolSchedule) : result RewardPoolError () :=
  if validation_pool_epochs s =? 0 then Err EmptyEpochSchedule
  else if BUD_TOTAL_SUPPLY <? u64_sat_add (validation_reward_pool s) (treasury_pool s)
  then Err PoolExceedsFixedSupply
  else Ok ().

Definition per_epoch_budget (s : RewardPoolSchedule) (epoch remaining_pool : Z) : Z :=
  if (epoch <? reward_pool_start_epoch s) || (validation_pool_epochs s =? 0) then 0
  else
    let base := validation_reward_pool s / validation_pool_epochs s in
    Z.min base remaining_pool.

(** [sort_by_key] on the address: a stable sort. *)
Definition sort_by_address (validators : list (Address * Z)) : list (Address * Z) :=
  merge_sort entry_le validators.

(** The remainder goes to the first entry. *)
Definition add_to_first (remainder : Z) (out : list (Address * Z)) : list (Address * Z) :=
  match out with
  | [] => []
  | (addr, first_share) :: rest => (addr, u64_sat_add first_share remainder) :: rest
  end.

Definition reward_for_epoch (s : RewardPoolSchedule) (epoch remaining_pool : Z)
    (active_validator_stakes : list (Address * Z)) : list (Address * Z) :=
  let budget := per_epoch_budget s epoch remaining_pool in
  if (budget =? 0) || bool_decide (active_validator_stakes = []) then []
  else
    let validators := sort_by_address (filter (λ v, 0 < v.2) active_validator_stakes) in
    let total_stake := sumZ validators.*2 in
    if total_stake =? 0 then []
    else
      let out := (λ v, (v.1, as_u64 (budget * v.2 / total_stake))) <$> validators in
      let paid := fold_left u64_sat_add out.*2 0 in
      let remainder := sat_sub budget paid in
      if 0 <? remainder then add_to_first remainder out else out.

Definition total_epoch_payout (payouts : list (Address * Z)) : Z :=
  fold_left (λ acc p, u64_sat_add acc p.2) payouts 0.

(** A saturating sum that stays in range is the sum. *)
Lemma fold_sat_add l acc :
  Forall (λ x, 0 ≤ x) l → 0 ≤ acc → acc + sumZ l ≤ u64_max →
  fold_left u64_sat_add l acc = acc + sumZ l.
Proof.
  intros Hl. revert acc. induction Hl as [|x l Hx Hl IH]; intros acc Hacc Hle.
  - unfold sumZ. simpl. lia.
  - cbn [fold_left]. rewrite sumZ_cons in *.
    pose proof (sumZ_nonneg l Hl). rewrite u64_sat_add_small by lia. rewrite IH; lia.
Qed.

Lemma fold_payout (l : list (Address * Z)) acc :
  fold_left (λ acc p, u64_sat_add acc p.2) l acc = fold_left u64_sat_add l.*2 acc.
Proof.
  revert acc. induction l as [|p l IH]; intros acc; [done|]. cbn [fold_left fmap list_fmap].
  apply IH.
Qed.

(** Flooring every share loses, never gains. *)
Lemma sum_shares_le (budget total_stake : Z) (stakes : list Z) :
  0 ≤ budget → 0 < total_stake → Forall (λ x, 0 ≤ x) stakes →
  sumZ ((λ s, budget * s / total_stake) <$> stakes) ≤ budget * sumZ stakes / total_stake.
Proof.
  intros Hb Ht Hs. apply Z.div_le_lower_bound; [done|].
  induction Hs as [|x l Hx Hl IH]; [unfold sumZ; simpl; lia|].
  rewrite fmap_cons, !sumZ_cons. pose proof (Z.mul_div_le (budget * x) total_stake Ht). lia.
Qed.

Record schedule_ok (s : RewardPoolSchedule) : Prop := {
  sok_pool : u64 (validation_reward_pool s);
  sok_epochs : u64 (validation_pool_epochs s);
}.

Lemma per_epoch_budget_range s epoch remaining :
  schedule_ok s → u64 remaining →
  0 ≤ per_epoch_budget s epoch remaining ≤ remaining.
Proof.
  intros [Hp He] Hr. unfold per_epoch_budget.
  destruct (epoch <? _), (Z.eqb_spec (validation_pool_epochs s) 0); simpl; try int_lia.
Qed.

Lemma sort_by_address_perm l : sort_by_address l ≡ₚ l.
Proof. apply merge_sort_Permutation. Qed.

(** The shares before the remainder is handed out. *)
Lemma shares_sum budget (validators : list (Address * Z)) :
  0 ≤ budget ≤ u64_max → Forall (λ v, 0 < v.2) validators → 0 < sumZ validators.*2 →
  let out := (λ v, (v.1, as_u64 (budget * v.2 / sumZ validators.*2))) <$> validators in
  Forall (λ x, 0 ≤ x) out.*2 ∧ 0 ≤ sumZ out.*2 ≤ budget.
Proof.
  intros Hb Hv Ht out. set (T := sumZ validators.*2) in *.
  assert (Forall (λ v, v.2 ≤ T) validators) as Hle.
  { subst T. clear out Ht. induction Hv as [|v l Hv0 Hl IH]; [done|].
    assert (0 ≤ sumZ l.*2).
    { apply sumZ_nonneg, Forall_fmap. eapply Forall_impl; [exact Hl|]. intros v0 ?; simpl in *; lia. }
    rewrite fmap_cons, sumZ_cons. constructor; [lia|].
    eapply Forall_impl; [exact IH|]. intros v0 ?; simpl in *; lia. }
  assert (out.*2 = (λ s, budget * s / T) <$> validators.*2) as ->.
  { subst out. rewrite <-!list_fmap_compose. apply list_fmap_ext. intros i v Hi.
    apply list_elem_of_lookup_2 in Hi. rewrite Forall_forall in Hle, Hv.
    specialize (Hle v Hi). specialize (Hv v Hi). simpl.
    pose proof (mul_div_le budget v.2 T ltac:(lia) ltac:(lia) Ht). apply as_u64_small. int_lia. }
  assert (Forall (λ x, 0 ≤ x) ((λ s, budget * s / T) <$> validators.*2)) as Hnn.
  { rewrite !Forall_fmap. eapply Forall_impl; [exact Hv|]. simpl. intros v Hv0.
    apply Z.div_pos; nia. }
  split; [done|]. split; [by apply sumZ_nonneg|].
  etrans; [apply sum_shares_le; [lia|done|]|].
  - rewrite Forall_fmap. eapply Forall_impl; [exact Hv|]. intros v0 ?; simpl in *; lia.
  - fold T. by rewrite Z.div_mul by lia.
Qed.

Lemma add_to_first_sum remainder out :
  0 ≤ remainder → out ≠ [] → Forall (λ x, 0 ≤ x) out.*2 → remainder + sumZ out.*2 ≤ u64_max →
  sumZ (add_to_first remainder out).*2 = remainder + sumZ out.*2 ∧
  Forall (λ x, 0 ≤ x) (add_to_first remainder out).*2 ∧
  (add_to_first remainder out).*1 = out.*1.
Proof.
  intros Hr Hne Hnn Hle. destruct out as [|[a x] out]; [done|].
  unfold add_to_first. rewrite !fmap_cons in *. rewrite !sumZ_cons in *. cbn [fst snd] in *.
  apply Forall_cons in Hnn as [Hx Hnn]. pose proof (sumZ_nonneg _ Hnn).
  rewrite u64_sat_add_small by lia. split_and!; [lia|constructor; [lia|done]|done].
Qed.

(** A reward epoch pays out its budget exactly.  With a positive budget
    and at least one staked validator the payouts add up to the budget, which
    never exceeds the remaining pool, and go to the staked validators, each
    once, in address order; otherwise nothing is paid. *)
Theorem reward_epoch_pays_budget s epoch remaining stakes :
  schedule_ok s → u64 remaining → Forall (λ v, u64 v.2) stakes →
  let budget := per_epoch_budget s epoch remaining in
  let staked := filter (λ v, 0 < v.2) stakes in
  let out := reward_for_epoch s epoch remaining stakes in
  0 ≤ budget ≤ remaining ∧
  (if decide (budget = 0 ∨ staked = []) then out = []
   else total_epoch_payout out = budget ∧ out.*1 = (sort_by_address staked).*1).
Proof.
  intros Hok Hr Hst budget staked out.
  pose proof (per_epoch_budget_range s epoch remaining Hok Hr) as Hb. fold budget in Hb.
  split; [done|]. unfold out, reward_for_epoch. fold budget staked.
  set (vs := sort_by_address staked).
  assert (vs ≡ₚ staked) as Hperm by apply sort_by_address_perm.
  assert (Forall (λ v, 0 < v.2) vs) as Hpos.
  { rewrite Hperm. apply Forall_forall. intros v Hv. by apply list_elem_of_filter in Hv as [? _]. }
  case_decide as Hcase.
  { destruct Hcase as [->|Hnil]; [done|]. case_match; [done|].
    assert (vs = []) as ->; [|done]. rewrite Hnil in Hperm. by apply Permutation_nil_r. }
  apply Decidable.not_or in Hcase as [Hb0 Hne].
  rewrite (proj2 (Z.eqb_neq _ _)) by done.
  rewrite bool_decide_false by (intros ->; by apply Hne). simpl.
  assert (vs ≠ []) as Hvs.
  { intros Hnil. rewrite Hnil in Hperm. by apply Hne, Permutation_nil_r. }
  assert (0 < sumZ vs.*2) as Hsum.
  { destruct vs as [|v l]; [done|]. apply Forall_cons in Hpos as [? Hpos].
    rewrite fmap_cons, sumZ_cons. enough (0 ≤ sumZ l.*2) by lia.
    apply sumZ_nonneg, Forall_fmap. eapply Forall_impl; [done|]. intros v0 ?; simpl in *; lia. }
  rewrite (proj2 (Z.eqb_neq _ _)) by lia.
  pose proof (shares_sum budget vs ltac:(int_lia) Hpos Hsum) as Hshares. simpl in Hshares.
  set (out0 := (λ v : Address * Z, (v.1, as_u64 (budget * v.2 / sumZ vs.*2))) <$> vs) in *.
  destruct Hshares as [Hnn Hle]. unfold total_epoch_payout. rewrite !fold_payout.
  rewrite (fold_sat_add out0.*2 0) by (done || int_lia). rewrite Z.add_0_l.
  assert (out0.*1 = vs.*1) as Hkeys by (unfold out0; by rewrite <-list_fmap_compose).
  assert (out0 ≠ []) as Hout0 by (unfold out0; by destruct vs).
  destruct (Z.ltb_spec 0 (sat_sub budget (sumZ out0.*2))).
  - destruct (add_to_first_sum (sat_sub budget (sumZ out0.*2)) out0) as (Hs & Hn & Hk);
      [lia|done|done|int_lia|].
    rewrite fold_sat_add by (done || int_lia). rewrite Hs, Hk. split; [int_lia|done].
  - rewrite fold_sat_add by (done || int_lia). split; [int_lia|done].
Qed.

Lemma reward_epoch_pays_budget_witness :
  let stakes := [(replicate 32 9, 7); (replicate 32 1, 4)] in
  0 ≤ per_epoch_budget default_schedule 5 1000 ≤ 1000 ∧
  (if decide (per_epoch_budget default_schedule 5 1000 = 0 ∨ filter (λ v, 0 < v.2) stakes = [])
   then reward_for_epoch default_schedule 5 1000 stakes = []
   else total_epoch_payout (reward_for_epoch default_schedule 5 1000 stakes) =
          per_epoch_budget default_schedule 5 1000 ∧
        (reward_for_epoch default_schedule 5 1000 stakes).*1 =
          (sort_by_address (filter (λ v, 0 < v.2) stakes)).*1).
Proof.
  intros stakes. apply (reward_epoch_pays_budget default_schedule 5 1000 stakes).
  - split; vm_compute; split; discriminate.
  - vm_compute. split; discriminate.
  - repeat constructor; vm_compute; discriminate.
Defined.
End RewardPool.

(** ** The fee market *)
Module FeeMarket.

Definition DEFAULT_TARGET_GAS : Z := 10000000.
Definition DEFAULT_BASE_FEE_MAX_CHANGE_DENOMINATOR : Z := 8.
Definition DEFAULT_ELASTICITY_MULTIPLIER : Z := 2.
Definition PPM_DENOMINATOR : Z := 1000000.

Record FeeMarketParams := {
  target_gas : Z;
  elasticity_multiplier : Z;
  base_fee_max_change_denominator : Z;
  min_base_fee : Z;
}.

Definition default_params : FeeMarketParams :=
  {| target_gas := DEFAULT_TARGET_GAS;
     elasticity_multiplier := DEFAULT_ELASTICITY_MULTIPLIER;
     base_fee_max_change_denominator := DEFAULT_BASE_FEE_MAX_CHANGE_DENOMINATOR;
     min_base_fee := 0 |}.

Record FeeBid := { max_fee : Z; priority_fee : Z }.

Definition legacy (fee : Z) : FeeBid := {| max_fee := fee; priority_fee := 0 |}.

Record EffectiveFee := { base_fee_burned : Z; priority_fee_paid : Z }.

Inductive FeeError :=
  | MaxFeeBelowBaseFee (bid_max base : Z)
  | InvalidParams
  | TreasuryRateAbovePpmDenominator (rate_ppm : Z).

(** A product of two [i128] values; out of range it aborts. *)
Definition i128_mul (a b : Z) : option Z :=
  if (i128_min <=? a * b) && (a * b <=? i128_max) then Some (a * b) else None.

(** [i128] division truncates: [Z.quot].  [None] is an arithmetic abort. *)
Definition next_base_fee (parent_base_fee parent_gas_used : Z) (p : FeeMarketParams) :
    option Z :=
  if (target_gas p =? 0) || (base_fee_max_change_denominator p =? 0)
  then Some (Z.max parent_base_fee (min_base_fee p))
  else
    let gas_limit := u64_sat_mul (target_gas p) (Z.max (elasticity_multiplier p) 1) in
    let parent_gas_used := Z.min parent_gas_used gas_limit in
    let gas_delta := parent_gas_used - target_gas p in
    denom ← i128_mul (target_gas p) (base_fee_max_change_denominator p);
    let adjustment := Z.quot (i128_sat (parent_base_fee * gas_delta)) (Z.max denom 1) in
    let next := Z.max (i128_sat (parent_base_fee + adjustment)) (min_base_fee p) in
    Some (as_u64 (Z.min next u64_max)).

Definition effective_fee (bid : FeeBid) (block_base_fee : Z) : result FeeError EffectiveFee :=
  if max_fee bid <? block_base_fee then Err (MaxFeeBelowBaseFee (max_fee bid) block_base_fee)
  else
    let tip_cap := sat_sub (max_fee bid) block_base_fee in
    Ok {| base_fee_burned := block_base_fee;
          priority_fee_paid := Z.min (priority_fee bid) tip_cap |}.

Record FeeDistribution := {
  d_base_fee_burned : Z;
  d_priority_fee_to_proposer : Z;
  d_treasury_fee : Z;
}.

Definition distribute_fee (bid : FeeBid) (block_base_fee gas_used treasury_rate_ppm : Z) :
    result FeeError FeeDistribution :=
  let? effective := effective_fee bid block_base_fee in
  let base_fee_burned := u64_sat_mul block_base_fee gas_used in
  let total_priority := u64_sat_mul (priority_fee_paid effective) gas_used in
  if PPM_DENOMINATOR <? treasury_rate_ppm
  then Err (TreasuryRateAbovePpmDenominator treasury_rate_ppm)
  else
    let treasury_fee := u64_sat_mul total_priority treasury_rate_ppm / PPM_DENOMINATOR in
    let priority_fee_to_proposer := sat_sub total_priority treasury_fee in
    Ok {| d_base_fee_burned := base_fee_burned;
          d_priority_fee_to_proposer := priority_fee_to_proposer;
          d_treasury_fee := treasury_fee |}.

(** Scaling down and truncating keeps the magnitude below the scale. *)
Lemma quot_bound a delta t d :
  0 ≤ a → 0 < t → 0 < d → - t ≤ delta ≤ t →
  - (a / d) ≤ Z.quot (i128_sat (a * delta)) (t * d) ≤ a / d.
Proof.
  intros Ha Ht Hd Hdelta.
  assert (- (a * t) ≤ i128_sat (a * delta) ≤ a * t) as Hsat.
  { assert (- (a * t) ≤ a * delta ≤ a * t) by nia. unfold_ints. lia. }
  assert (a * t / (t * d) = a / d) as Hq.
  { rewrite (Z.mul_comm a t), Z.div_mul_cancel_l by lia. done. }
  assert (0 < t * d) by nia.
  rewrite <-Hq, <-Z.quot_div_nonneg by nia.
  rewrite <-(Z.quot_opp_l (a * t)) by lia.
  split; apply Z.quot_le_mono; lia.
Qed.

Lemma quot_sign a delta k :
  0 ≤ a → 0 < k →
  (0 ≤ delta → 0 ≤ Z.quot (i128_sat (a * delta)) k) ∧
  (delta ≤ 0 → Z.quot (i128_sat (a * delta)) k ≤ 0).
Proof.
  intros Ha Hk. split; intros Hd.
  - assert (0 ≤ a * delta) by nia. apply Z.quot_pos; [|done]. int_lia.
  - assert (a * delta ≤ 0) by nia. rewrite <-(Z.quot_0_l k) by lia.
    apply Z.quot_le_mono; [done|int_lia].
Qed.

(** The base fee moves by at most one part in the configured denominator
    per block, in the direction of the gas imbalance, whatever gas figure the
    parent reports, provided the elasticity is at most two and the parameters
    do not overflow; and it never falls below the configured floor. *)
Theorem next_base_fee_bounded parent gas p :
  u64 parent → u64 gas → 0 < target_gas p → 0 < base_fee_max_change_denominator p →
  target_gas p * base_fee_max_change_denominator p ≤ i128_max →
  0 ≤ elasticity_multiplier p ≤ 2 → u64 (min_base_fee p) → min_base_fee p ≤ parent →
  target_gas p ≤ u64_max →
  ∃ next, next_base_fee parent gas p = Some next ∧
    parent - parent / base_fee_max_change_denominator p ≤ next ∧
    next ≤ parent + parent / base_fee_max_change_denominator p ∧
    min_base_fee p ≤ next ∧ u64 next ∧
    (gas = target_gas p → next = parent) ∧
    (target_gas p ≤ gas → parent ≤ next) ∧
    (gas ≤ target_gas p → next ≤ parent).
Proof.
  intros Hp Hg Ht Hd Hov He Hm Hle Htu. unfold next_base_fee.
  rewrite !(proj2 (Z.eqb_neq _ _)) by lia. cbn [orb].
  set (t := target_gas p) in *. set (d := base_fee_max_change_denominator p) in *.
  assert (i128_mul t d = Some (t * d)) as ->.
  { unfold i128_mul. rewrite !(proj2 (Z.leb_le _ _)) by (unfold i128_min; nia). done. }
  cbn [mbind option_bind]. rewrite (Z.max_l (t * d) 1) by nia.
  set (used := Z.min gas (u64_sat_mul t (Z.max (elasticity_multiplier p) 1))).
  assert (t ≤ t * Z.max (elasticity_multiplier p) 1 ≤ 2 * t) as Hel by nia.
  assert (0 ≤ used ≤ 2 * t ∧ (t ≤ gas → t ≤ used) ∧ (gas ≤ t → used ≤ t))
    as (Hused & Hu1 & Hu2) by (clear - Hel Hg Htu Ht; unfold_ints; lia).
  clearbody used.
  assert (0 ≤ parent / d ≤ parent) by (apply div_le_self; unfold_ints; lia).
  pose proof (quot_bound parent (used - t) t d ltac:(int_lia) Ht Hd ltac:(lia)) as Hadj.
  destruct (quot_sign parent (used - t) (t * d)) as [Hup Hdown];
    [int_lia|by apply Z.mul_pos_pos|].
  set (adj := Z.quot _ _) in *. clearbody adj. clear Hel Hov.
  assert (i128_sat (parent + adj) = parent + adj) as -> by int_lia.
  eexists. split; [reflexivity|]. rewrite as_u64_small by int_lia.
  split_and!; int_lia.
Qed.

Lemma next_base_fee_bounded_witness :
  ∃ next, next_base_fee 1000 20000000 default_params = Some next ∧
    1000 - 1000 / 8 ≤ next ∧ next ≤ 1000 + 1000 / 8 ∧ 0 ≤ next ∧ u64 next ∧
    (20000000 = 10000000 → next = 1000) ∧ (10000000 ≤ 20000000 → 1000 ≤ next) ∧
    (20000000 ≤ 10000000 → next ≤ 1000).
Proof.
  apply (next_base_fee_bounded 1000 20000000 default_params);
    vm_compute; (reflexivity || discriminate || (split; discriminate)).
Defined.

(** Distributing a fee conserves it.  A bid below the base fee or a
    treasury rate above 100% is refused; otherwise the bidder never pays
    above its cap per gas unit, and proposer and treasury together receive
    exactly the priority fee, the treasury the saturating product scaled by
    the rate. *)
Theorem distribute_fee_conserves bid base gas rate :
  u64 (max_fee bid) → u64 (priority_fee bid) → u64 base → u64 gas → u64 rate →
  match distribute_fee bid base gas rate with
  | Ok d =>
      base ≤ max_fee bid ∧ rate ≤ PPM_DENOMINATOR ∧
      let tip := Z.min (priority_fee bid) (max_fee bid - base) in
      base + tip ≤ max_fee bid ∧
      d_base_fee_burned d = u64_sat_mul base gas ∧
      d_priority_fee_to_proposer d + d_treasury_fee d = u64_sat_mul tip gas ∧
      0 ≤ d_priority_fee_to_proposer d ∧
      d_treasury_fee d = Z.min (u64_sat_mul tip gas * rate) u64_max / PPM_DENOMINATOR
  | Err (MaxFeeBelowBaseFee m b) => m = max_fee bid ∧ b = base ∧ max_fee bid < base
  | Err (TreasuryRateAbovePpmDenominator r) =>
      r = rate ∧ PPM_DENOMINATOR < rate ∧ base ≤ max_fee bid
  | Err InvalidParams => False
  end.
Proof.
  intros Hm Hp Hb Hg Hr. unfold distribute_fee, effective_fee.
  destruct (Z.ltb_spec (max_fee bid) base); [done|].
  destruct (Z.ltb_spec PPM_DENOMINATOR rate); [done|]. cbn [priority_fee_paid].
  rewrite (sat_sub_small (max_fee bid) base) by lia.
  set (tip := Z.min (priority_fee bid) (max_fee bid - base)).
  assert (0 ≤ u64_sat_mul tip gas) as Htot by (unfold_ints; nia).
  set (tot := u64_sat_mul tip gas) in *.
  assert (0 ≤ u64_sat_mul tot rate / PPM_DENOMINATOR ≤ tot) as Hdiv.
  { split; [apply Z.div_pos; [unfold_ints; nia|done]|].
    apply Z.div_le_upper_bound; [done|]. unfold u64_sat_mul. unfold_ints.
    assert (tot * rate ≤ tot * PPM_DENOMINATOR) by nia. unfold PPM_DENOMINATOR in *. lia. }
  simpl. split_and!; try done; try int_lia.
Qed.

Lemma distribute_fee_conserves_witness :
  distribute_fee {| max_fee := 12; priority_fee := 5 |} 10 100 10000 =
    Ok {| d_base_fee_burned := 1000; d_priority_fee_to_proposer := 198; d_treasury_fee := 2 |} ∧
  198 + 2 = u64_sat_mul 2 100.
Proof.
  split; [reflexivity|].
  pose proof (distribute_fee_conserves {| max_fee := 12; priority_fee := 5 |} 10 100 10000) as Hd.
  simpl in Hd. apply Hd; vm_compute; split; discriminate.
Defined.
End FeeMarket.

(** ** Slash penalties *)
Module Penalty.

Definition slash_penalty (stake slash_ratio_fixed : Z) : Z :=
  let quotient := stake * slash_ratio_fixed / FIXED_POINT_SCALE in
  if u64_max <? quotient then stake
  else
    let narrow := as_u64 quotient in
    if stake <? narrow then stake else narrow.

Lemma slash_penalty_min stake ratio :
  u64 stake → u64 ratio →
  slash_penalty stake ratio = Z.min stake (stake * ratio / FIXED_POINT_SCALE) ∧
  0 ≤ slash_penalty stake ratio ≤ stake.
Proof.
  intros Hs Hr.
  assert (0 ≤ stake * ratio / FIXED_POINT_SCALE) by (apply Z.div_pos; [unfold_ints; nia|done]).
  unfold slash_penalty. set (q := stake * ratio / FIXED_POINT_SCALE) in *.
  destruct (Z.ltb_spec u64_max q); [int_lia|]. rewrite as_u64_small by int_lia.
  destruct (Z.ltb_spec stake q); int_lia.
Qed.

(** A slash takes the stake scaled by the ratio, capped at the whole
    stake, for every ratio: it never takes more than is there and a ratio at
    or above 100% takes everything. *)
Theorem slash_penalty_capped stake ratio :
  u64 stake → u64 ratio →
  slash_penalty stake ratio = Z.min stake (stake * ratio / FIXED_POINT_SCALE) ∧
  0 ≤ slash_penalty stake ratio ≤ stake ∧
  (FIXED_POINT_SCALE ≤ ratio → slash_penalty stake ratio = stake).
Proof.
  intros Hs Hr. destruct (slash_penalty_min stake ratio Hs Hr) as [Heq Hle].
  split_and!; [done|lia..|]. intros Hfull. rewrite Heq.
  enough (stake ≤ stake * ratio / FIXED_POINT_SCALE) by lia.
  apply Z.div_le_lower_bound; [done|]. unfold_ints. nia.
Qed.

Lemma slash_penalty_capped_witness :
  slash_penalty u64_max (FIXED_POINT_SCALE + 1) = u64_max.
Proof.
  apply (slash_penalty_capped u64_max (FIXED_POINT_SCALE + 1));
    vm_compute; try split; discriminate.
Defined.
End Penalty.
