(* ===== verification/Domains.v ===== *)
(** * Consensus domains

    The registry of consensus domains ([src/domain/types.rs],
    [src/domain/storage_params.rs], [src/domain/registry.rs]), the registry of
    their commitments ([src/domain/commitment_registry.rs]) and the check of an
    event against a commitment ([src/settlement/proof_verifier.rs]).

    A Rust [String] is the list of its code points, so that [as_bytes] is its
    UTF-8 encoding and [trim] can ask for white space. *)
From stdpp Require Import base tactics numbers list gmap strings sorting.
From Stdlib Require Import ZArith Lia.
From S2P Require Import Prelude Merkle Messages.
Import Message.

Module Text.

Abbreviation str := (list Z).

(** A string literal; all literals of the source are ASCII. *)
Definition lit (s : string) : str := bstr s.

(** The UTF-8 encoding of one code point. *)
Definition utf8_char (c : Z) : bytes :=
  if c <? 128 then [c]
  else if c <? 2048 then [192 + c / 64; 128 + c mod 64]
  else if c <? 65536 then [224 + c / 4096; 128 + c / 64 mod 64; 128 + c mod 64]
  else [240 + c / 262144; 128 + c / 4096 mod 64; 128 + c / 64 mod 64; 128 + c mod 64].

Definition utf8 (s : str) : bytes := concat (utf8_char <$> s).

(** The code points with the property [White_Space]. *)
Definition is_whitespace (c : Z) : bool :=
  ((9 <=? c) && (c <=? 13)) || (c =? 32) || (c =? 133) || (c =? 160) || (c =? 5760) ||
  ((8192 <=? c) && (c <=? 8202)) || (c =? 8232) || (c =? 8233) || (c =? 8239) ||
  (c =? 8287) || (c =? 12288).

(** [s.trim().is_empty()]. *)
Definition is_blank (s : str) : bool := forallb is_whitespace s.
End Text.
Export Text.

(** ** Domains *)
Module Domain.

Record StorageDomainParams := {
  chunk_size : Z;
  max_committed_chunks : Z;
  challenge_interval : Z;
  min_operator_bond : Z;
}.

#[export] Instance StorageDomainParams_eq_dec : EqDecision StorageDomainParams.
Proof. solve_decision. Defined.

Inductive DomainError :=
  | AlreadyRegistered (id : DomainId)
  | AtCeiling (id : DomainId)
  | MissingBond (id : DomainId)
  | ZeroOperator (id : DomainId)
  | PowAdapterKind (id : DomainId)
  | MissingPowParameters (id : DomainId)
  | PowDifficultyRange
  | PowDifficultyOrder
  | PowZeroWork
  | PowMaxHeaders
  | PowConfirmations
  | IncompatiblePowParameters (id : DomainId)
  | UnreadConfirmations (id : DomainId)
  | StorageAdapterExpected (id : DomainId)
  | StorageBondTooLow (id : DomainId)
  | StorageKindExpected (id : DomainId)
  | ChunkSizeRange
  | ZeroCommittedChunks
  | ZeroChallengeInterval
  | ZeroStorageBond
  | UnknownDomain (id : DomainId)
  | IllegalTransition (id : DomainId)
  | ProgramListed (id : DomainId)
  | ProgramNotListed (id : DomainId)
  | ReservedDomainId
  | InvalidChainId (id : DomainId)
  | EmptyCustomName (id : DomainId)
  | IncompatibleAdapter (id : DomainId)
  | MissingPluginHash (id : DomainId).

Definition MAX_CHUNK_SIZE : Z := 16 * 1024 * 1024.
Definition MIN_CHUNK_SIZE : Z := 1024.

Definition storage_validate (p : StorageDomainParams) : result DomainError () :=
  if (chunk_size p <? MIN_CHUNK_SIZE) || (MAX_CHUNK_SIZE <? chunk_size p)
  then Err ChunkSizeRange
  else if max_committed_chunks p =? 0 then Err ZeroCommittedChunks
  else if challenge_interval p =? 0 then Err ZeroChallengeInterval
  else if min_operator_bond p =? 0 then Err ZeroStorageBond
  else Ok ().

Definition storage_params_bytes (p : StorageDomainParams) : bytes :=
  bstr "BDLM_STORAGE_V1" ++ le_bytes 4 (chunk_size p) ++ le_bytes 8 (max_committed_chunks p) ++
  le_bytes 8 (challenge_interval p) ++ le_bytes 8 (min_operator_bond p).

Inductive ConsensusKind :=
  | PoW
  | PoS
  | PoA
  | Bft
  | Zk
  | CustomKind (name : str)
  | StorageAttestation (params : StorageDomainParams)
  | AiInference.

#[export] Instance ConsensusKind_eq_dec : EqDecision ConsensusKind.
Proof. solve_decision. Defined.

Definition kind_bytes (k : ConsensusKind) : bytes :=
  match k with
  | PoW => bstr "pow"
  | PoS => bstr "pos"
  | PoA => bstr "poa"
  | Bft => bstr "bft"
  | Zk => bstr "zk"
  | CustomKind name => bstr "custom:" ++ utf8 name
  | StorageAttestation params => bstr "storage_attestation:" ++ storage_params_bytes params
  | AiInference => bstr "ai_inference"
  end.

Inductive DomainStatus := Active | Frozen | Retired.

#[export] Instance DomainStatus_eq_dec : EqDecision DomainStatus.
Proof. solve_decision. Defined.

Inductive RootScheme := BudlumBlockV2 | SchemeSha256 | SchemeSha3_256 | CustomScheme (name : str).

Definition scheme_bytes (s : RootScheme) : bytes :=
  match s with
  | BudlumBlockV2 => bstr "budlum-block-v2"
  | SchemeSha256 => bstr "sha256"
  | SchemeSha3_256 => bstr "sha3-256"
  | CustomScheme name => bstr "custom:" ++ utf8 name
  end.

Record PoWDomainParameters := {
  min_difficulty_bits : Z;
  max_difficulty_bits : Z;
  min_cumulative_work : Z;
  max_headers : Z;
}.

Definition pow_validate (p : PoWDomainParameters) (min_confirmations : Z) : result DomainError () :=
  if (min_difficulty_bits p =? 0) || (120 <? max_difficulty_bits p) then Err PowDifficultyRange
  else if max_difficulty_bits p <? min_difficulty_bits p then Err PowDifficultyOrder
  else if min_cumulative_work p =? 0 then Err PowZeroWork
  else if (max_headers p =? 0) || (4096 <? max_headers p) then Err PowMaxHeaders
  else if (min_confirmations =? 0) || (max_headers p <? min_confirmations) then Err PowConfirmations
  else Ok ().

Record ConsensusDomain := {
  id : DomainId;
  kind : ConsensusKind;
  status : DomainStatus;
  domain_chain_id : Z;
  operator : option Address;
  operator_bond : Z;
  config_hash : Hash32;
  validator_set_hash : Hash32;
  finality_adapter : str;
  min_confirmations : Z;
  bridge_enabled : bool;
  block_hash_scheme : RootScheme;
  state_root_scheme : RootScheme;
  tx_root_scheme : RootScheme;
  last_committed_height : Z;
  last_committed_hash : Hash32;
  pow_parameters : option PoWDomainParameters;
  zk_program_allowlist : list Hash32;
  plugin_code_hash : option Hash32;
}.

(** The fields that are written after registration. *)
Definition with_progress (d : ConsensusDomain) st height hash allowlist : ConsensusDomain :=
  {| id := id d; kind := kind d; status := st; domain_chain_id := domain_chain_id d;
     operator := operator d; operator_bond := operator_bond d; config_hash := config_hash d;
     validator_set_hash := validator_set_hash d; finality_adapter := finality_adapter d;
     min_confirmations := min_confirmations d; bridge_enabled := bridge_enabled d;
     block_hash_scheme := block_hash_scheme d; state_root_scheme := state_root_scheme d;
     tx_root_scheme := tx_root_scheme d; last_committed_height := height;
     last_committed_hash := hash; pow_parameters := pow_parameters d;
     zk_program_allowlist := allowlist; plugin_code_hash := plugin_code_hash d |}.

Definition with_status (d : ConsensusDomain) (st : DomainStatus) : ConsensusDomain :=
  with_progress d st (last_committed_height d) (last_committed_hash d) (zk_program_allowlist d).

Definition with_tip (d : ConsensusDomain) (height : Z) (hash : Hash32) : ConsensusDomain :=
  with_progress d (status d) height hash (zk_program_allowlist d).

Definition with_allowlist (d : ConsensusDomain) (programs : list Hash32) : ConsensusDomain :=
  with_progress d (status d) (last_committed_height d) (last_committed_hash d) programs.

Definition is_active (d : ConsensusDomain) : bool := bool_decide (status d = Active).

Definition has_operator_bond (d : ConsensusDomain) (minimum_bond : Z) : bool :=
  bool_decide (is_Some (operator d)) && (minimum_bond <=? operator_bond d).

Definition POW_HEADER_CHAIN_ADAPTER : str := lit "pow-header-chain-v1".
Definition STORAGE_ATTESTATION_ADAPTER : str := lit "storage-attestation-v1".
Definition AI_INFERENCE_ADAPTER : str := lit "ai-inference-threshold".

Definition MIN_DOMAIN_OPERATOR_BOND : Z := 10000.
Definition MAX_REGISTERED_DOMAINS : nat := Z.to_nat 4096.

Record ConsensusDomainRegistry := { domains : gmap DomainId ConsensusDomain }.

Definition registry_new : ConsensusDomainRegistry := {| domains := ∅ |}.

(** The checks on the adapter and the header depth. *)
Definition check_adapter (d : ConsensusDomain) : result DomainError () :=
  if bool_decide (finality_adapter d = POW_HEADER_CHAIN_ADAPTER) then
    if bool_decide (kind d ≠ PoW) then Err (PowAdapterKind (id d))
    else
      let? p := ok_or (pow_parameters d) (MissingPowParameters (id d)) in
      pow_validate p (min_confirmations d)
  else if bool_decide (is_Some (pow_parameters d)) then Err (IncompatiblePowParameters (id d))
  else if 1 <? min_confirmations d then Err (UnreadConfirmations (id d))
  else Ok ().

Definition check_storage (d : ConsensusDomain) : result DomainError () :=
  match kind d with
  | StorageAttestation params =>
      if bool_decide (finality_adapter d ≠ STORAGE_ATTESTATION_ADAPTER)
      then Err (StorageAdapterExpected (id d))
      else if operator_bond d <? min_operator_bond params then Err (StorageBondTooLow (id d))
      else storage_validate params
  | _ =>
      if bool_decide (finality_adapter d = STORAGE_ATTESTATION_ADAPTER)
      then Err (StorageKindExpected (id d)) else Ok ()
  end.

Definition register (r : ConsensusDomainRegistry) (d : ConsensusDomain) :
    result DomainError () * ConsensusDomainRegistry :=
  if bool_decide (is_Some (domains r !! id d)) then (Err (AlreadyRegistered (id d)), r)
  else if (MAX_REGISTERED_DOMAINS <=? size (domains r))%nat then (Err (AtCeiling (id d)), r)
  else if negb (has_operator_bond d MIN_DOMAIN_OPERATOR_BOND) then (Err (MissingBond (id d)), r)
  else if bool_decide (operator d = Some zero32) then (Err (ZeroOperator (id d)), r)
  else
    let? _ := check_adapter d at r in
    let? _ := check_storage d at r in
    (Ok (), {| domains := <[id d := d]> (domains r) |}).

Definition get (r : ConsensusDomainRegistry) (i : DomainId) : option ConsensusDomain :=
  domains r !! i.

(** A write through the reference [get_mut] returns. *)
Definition put (r : ConsensusDomainRegistry) (i : DomainId) (d : ConsensusDomain) :
    ConsensusDomainRegistry := {| domains := <[i := d]> (domains r) |}.

Definition set_status (r : ConsensusDomainRegistry) (i : DomainId) (st : DomainStatus) :
    result DomainError () * ConsensusDomainRegistry :=
  let? d := ok_or (domains r !! i) (UnknownDomain i) at r in
  (Ok (), put r i (with_status d st)).

Definition transition_allowed (current next : DomainStatus) : bool :=
  match current, next with
  | Active, Frozen | Frozen, Active | Frozen, Retired => true
  | _, _ => false
  end.

Definition transition_status_checked (r : ConsensusDomainRegistry) (i : DomainId)
    (next : DomainStatus) : result DomainError () * ConsensusDomainRegistry :=
  let? d := ok_or (domains r !! i) (UnknownDomain i) at r in
  if negb (transition_allowed (status d) next) then (Err (IllegalTransition i), r)
  else (Ok (), put r i (with_status d next)).

Definition allow_zk_program (r : ConsensusDomainRegistry) (i : DomainId) (program : Hash32) :
    result DomainError () * ConsensusDomainRegistry :=
  let? d := ok_or (domains r !! i) (UnknownDomain i) at r in
  if bool_decide (program ∈ zk_program_allowlist d) then (Err (ProgramListed i), r)
  else (Ok (), put r i (with_allowlist d (zk_program_allowlist d ++ [program]))).

Definition revoke_zk_program (r : ConsensusDomainRegistry) (i : DomainId) (program : Hash32) :
    result DomainError () * ConsensusDomainRegistry :=
  let? d := ok_or (domains r !! i) (UnknownDomain i) at r in
  let programs := filter (λ p, p ≠ program) (zk_program_allowlist d) in
  let r' := put r i (with_allowlist d programs) in
  if (length programs =? length (zk_program_allowlist d))%nat
  then (Err (ProgramNotListed i), r') else (Ok (), r').

Definition active_domains (r : ConsensusDomainRegistry) : list ConsensusDomain :=
  filter (λ d, status d = Active) (btree_values (domains r)).

Definition status_bytes (st : DomainStatus) : bytes :=
  match st with
  | Active => bstr "active"
  | Frozen => bstr "frozen"
  | Retired => bstr "retired"
  end.

Definition pow_bytes (p : PoWDomainParameters) : bytes :=
  le_bytes 4 (min_difficulty_bits p) ++ le_bytes 4 (max_difficulty_bits p) ++
  le_bytes 16 (min_cumulative_work p) ++ le_bytes 4 (max_headers p).

(** The fields of a leaf; [extra] is the field of versions 2 and 3. *)
Definition leaf_with (tag : bytes) (extra : list bytes) (d : ConsensusDomain) : list bytes :=
  [tag; le_bytes 4 (id d); kind_bytes (kind d); status_bytes (status d);
   le_bytes 8 (domain_chain_id d); default [] (operator d); le_bytes 8 (operator_bond d);
   config_hash d; validator_set_hash d; utf8 (finality_adapter d);
   le_bytes 8 (min_confirmations d)] ++ extra ++
  [[if bridge_enabled d then 1 else 0]; scheme_bytes (block_hash_scheme d);
   scheme_bytes (state_root_scheme d); scheme_bytes (tx_root_scheme d)].

Definition domain_leaf_fields (d : ConsensusDomain) : list bytes :=
  match pow_parameters d, kind d with
  | Some p, _ => leaf_with (bstr "BDLM_DOMAIN_REGISTRY_LEAF_V2") [pow_bytes p] d
  | None, StorageAttestation storage =>
      leaf_with (bstr "BDLM_DOMAIN_REGISTRY_LEAF_V3") [storage_params_bytes storage] d
  | None, _ => leaf_with (bstr "BDLM_DOMAIN_REGISTRY_LEAF_V1") [] d
  end.

Definition domain_leaf_hash `{Sha256} (d : ConsensusDomain) : Hash32 :=
  hash_fields_bytes (domain_leaf_fields d).

Definition registry_root `{Sha256} (r : ConsensusDomainRegistry) : Hash32 :=
  Settlement.merkle_root (domain_leaf_hash <$> btree_values (domains r)).

(** [validate_consensus_domain_registration] of the chain. *)
Definition adapter_valid (d : ConsensusDomain) : result DomainError bool :=
  match kind d with
  | PoW => Ok (bool_decide (finality_adapter d = POW_HEADER_CHAIN_ADAPTER))
  | PoS => Ok (bool_decide (finality_adapter d = lit "pos-qc-finality"))
  | PoA => Ok (bool_decide (finality_adapter d = lit "poa-authority-quorum"))
  | Bft => Ok (bool_decide (finality_adapter d = lit "bft-quorum-commit"))
  | Zk => Ok (bool_decide (finality_adapter d = lit "zk-proof-verification"))
  | StorageAttestation _ => Ok (bool_decide (finality_adapter d = lit "storage-attestation-v1"))
  | AiInference => Ok (bool_decide (finality_adapter d = AI_INFERENCE_ADAPTER))
  | CustomKind name =>
      if is_blank name then Err (EmptyCustomName (id d)) else Ok (negb (is_blank (finality_adapter d)))
  end.

Definition validate_consensus_domain_registration (d : ConsensusDomain) : result DomainError () :=
  if id d =? 0 then Err ReservedDomainId
  else if domain_chain_id d =? 0 then Err (InvalidChainId (id d))
  else
    let? valid := adapter_valid d in
    if negb valid then Err (IncompatibleAdapter (id d))
    else
      match kind d, plugin_code_hash d with
      | CustomKind _, None => Err (MissingPluginHash (id d))
      | _, _ => Ok ()
      end.

(** [Blockchain::register_consensus_domain]. *)
Definition register_consensus_domain (r : ConsensusDomainRegistry) (d : ConsensusDomain) :
    result DomainError () * ConsensusDomainRegistry :=
  let? _ := validate_consensus_domain_registration d at r in
  register r d.
End Domain.

(** ** Commitments *)
Module Commitment.
Import Domain.

Record DomainCommitment := {
  c_domain_id : DomainId;
  c_height : Z;
  domain_block_hash : Hash32;
  parent_domain_block_hash : Hash32;
  state_root : Hash32;
  tx_root : Hash32;
  event_root : Hash32;
  finality_proof_hash : Hash32;
  consensus_kind : ConsensusKind;
  c_validator_set_hash : Hash32;
  timestamp_ms : Z;
  sequence : Z;
  producer : option Address;
  state_updates : gmap Address Z;
}.

Definition MAX_STATE_UPDATES : nat := 1000.

Definition state_updates_bytes (m : gmap Address Z) : bytes :=
  concat ((λ e, e.1 ++ le_bytes 8 e.2) <$> btree_list m).

Definition commitment_leaf_fields (c : DomainCommitment) : list bytes :=
  [bstr "BDLM_DOMAIN_COMMITMENT_V1"; le_bytes 4 (c_domain_id c); le_bytes 8 (c_height c);
   domain_block_hash c; parent_domain_block_hash c; state_root c; tx_root c; event_root c;
   finality_proof_hash c; kind_bytes (consensus_kind c); c_validator_set_hash c;
   le_bytes 16 (timestamp_ms c); le_bytes 8 (sequence c); default [] (producer c);
   state_updates_bytes (state_updates c)].

Definition commitment_leaf_hash `{Sha256} (c : DomainCommitment) : Hash32 :=
  hash_fields_bytes (commitment_leaf_fields c).

Abbreviation Slot := (DomainId * Z * Z)%type.

(** Tuples compare lexicographically. *)
Record DomainCommitmentRegistry := {
  commitments : gmap Slot DomainCommitment;
  seen_blocks : gset (DomainId * Z * Hash32);
}.

Inductive CommitmentError :=
  | DuplicateCommitment (slot : Slot)
  | BlockAlreadyCommitted (id : DomainId) (height : Z).

Definition new : DomainCommitmentRegistry := {| commitments := ∅; seen_blocks := ∅ |}.

Definition slot_of (c : DomainCommitment) : Slot := (c_domain_id c, c_height c, sequence c).

Definition block_of (c : DomainCommitment) : DomainId * Z * Hash32 :=
  (c_domain_id c, c_height c, domain_block_hash c).

Definition insert (r : DomainCommitmentRegistry) (c : DomainCommitment) :
    result CommitmentError () * DomainCommitmentRegistry :=
  if bool_decide (is_Some (commitments r !! slot_of c))
  then (Err (DuplicateCommitment (slot_of c)), r)
  else if bool_decide (block_of c ∈ seen_blocks r)
  then (Err (BlockAlreadyCommitted (c_domain_id c) (c_height c)), r)
  else
    (Ok (), {| commitments := <[slot_of c := c]> (commitments r);
               seen_blocks := {[block_of c]} ∪ seen_blocks r |}).

Definition commitments_for_global_block (r : DomainCommitmentRegistry) : list DomainCommitment :=
  btree_values (commitments r).

Definition get (r : DomainCommitmentRegistry) (domain_id : DomainId) (height sequence : Z) :
    option DomainCommitment := commitments r !! (domain_id, height, sequence).

Definition at_height (domain_id : DomainId) (height : Z) (c : DomainCommitment) : Prop :=
  c_domain_id c = domain_id ∧ c_height c = height.

#[export] Instance at_height_dec i h c : Decision (at_height i h c).
Proof. unfold at_height. apply _. Defined.

(** [values().find(..)]: the first in key order. *)
Definition find_by_height (r : DomainCommitmentRegistry) (domain_id : DomainId) (height : Z) :
    option DomainCommitment :=
  head (filter (at_height domain_id height) (btree_values (commitments r))).

Definition get_by_block_hash (r : DomainCommitmentRegistry) (domain_id : DomainId) (height : Z)
    (block_hash : Hash32) : option DomainCommitment :=
  head (filter (λ c, at_height domain_id height c ∧ domain_block_hash c = block_hash)
          (btree_values (commitments r))).

Definition len (r : DomainCommitmentRegistry) : nat := size (commitments r).

Definition commitment_root `{Sha256} (r : DomainCommitmentRegistry) : Hash32 :=
  Settlement.merkle_root (commitment_leaf_hash <$> btree_values (commitments r)).

(** *** What the lookups find *)
Lemma find_by_height_Some r i h c :
  find_by_height r i h = Some c →
  c_domain_id c = i ∧ c_height c = h ∧ ∃ k, commitments r !! k = Some c.
Proof.
  unfold find_by_height. intros Hf. apply head_Some_elem_of in Hf.
  apply list_elem_of_filter in Hf as [[Hi Hh] Hin]. by apply elem_of_btree_values in Hin.
Qed.

Lemma find_by_height_None r i h :
  find_by_height r i h = None → ∀ k c, commitments r !! k = Some c → ¬ at_height i h c.
Proof.
  unfold find_by_height. intros Hf k c Hk Hat. apply head_None in Hf.
  assert (c ∈ filter (at_height i h) (btree_values (commitments r))) as Hin.
  { apply list_elem_of_filter. split; [done|]. apply elem_of_btree_values. by exists k. }
  rewrite Hf in Hin. by apply elem_of_nil in Hin.
Qed.
End Commitment.

(** ** Verified events *)
Module Verifier.
Import Commitment.

Record VerifiedDomainEvent := { v_commitment : DomainCommitment; v_event : Event.DomainEvent }.

Inductive ProofVerificationError :=
  | MissingCommitment (domain_id : DomainId) (domain_height sequence : Z)
  | EventDomainMismatch
  | EventHeightMismatch
  | EventIndexMismatch
  | EventLeafMismatch
  | InvalidMerkleProof
  | CommitmentBlockHashMismatch.

Section verifier.
Context `{Sha256}.

Definition verify_event_against_commitment (c : DomainCommitment) (event : Event.DomainEvent)
    (proof : Event.MerkleProof) : result ProofVerificationError VerifiedDomainEvent :=
  if negb (Event.domain_id event =? c_domain_id c) then Err EventDomainMismatch
  else if negb (Event.domain_height event =? c_height c) then Err EventHeightMismatch
  else if negb (Event.ev_index event =? Z.of_nat (Event.index proof)) then Err EventIndexMismatch
  else if bool_decide (Event.leaf_hash event ≠ Event.leaf proof) then Err EventLeafMismatch
  else if negb (Event.verify proof (event_root c)) then Err InvalidMerkleProof
  else Ok {| v_commitment := c; v_event := event |}.

Definition verify_event_from_registry (r : DomainCommitmentRegistry) (domain_id : DomainId)
    (domain_height sequence : Z) (expected_block_hash : option Hash32)
    (event : Event.DomainEvent) (proof : Event.MerkleProof) :
    result ProofVerificationError VerifiedDomainEvent :=
  let? c := ok_or (get r domain_id domain_height sequence)
              (MissingCommitment domain_id domain_height sequence) in
  match expected_block_hash with
  | Some expected =>
      if bool_decide (domain_block_hash c ≠ expected) then Err CommitmentBlockHashMismatch
      else verify_event_against_commitment c event proof
  | None => verify_event_against_commitment c event proof
  end.

(** A verified event is the one asked for, under the commitment asked for,
    and its proof leads to that commitment's event root. *)
Lemma verify_event_from_registry_ok r i h seq expected event proof v :
  verify_event_from_registry r i h seq expected event proof = Ok v →
  get r i h seq = Some (v_commitment v) ∧ v_event v = event ∧
  (∀ hash, expected = Some hash → domain_block_hash (v_commitment v) = hash) ∧
  Event.domain_id event = c_domain_id (v_commitment v) ∧
  Event.domain_height event = c_height (v_commitment v) ∧
  Event.leaf proof = Event.leaf_hash event ∧
  Event.verify proof (event_root (v_commitment v)) = true.
Proof.
  unfold verify_event_from_registry, verify_event_against_commitment. intros Hv.
  destruct (get r i h seq) as [c|] eqn:Hg; simpl in Hv; [|done].
  destruct expected as [hash|]; inv_op Hv; repeat case_bool_decide; simplify_eq/=;
    repeat match goal with
           | E : negb _ = false |- _ => apply negb_false_iff in E
           | E : (_ =? _) = true |- _ => apply Z.eqb_eq in E
           | E : ¬ ¬ (_ = _) |- _ => apply dec_stable in E
           end; split_and!; try done; naive_solver.
Qed.
End verifier.
End Verifier.
