(* ===== verification/Registry.v ===== *)
(** * The permissionless registry

    [src/registry/role.rs], [params.rs], [evidence.rs] and
    [permissionless.rs]: stake-backed registrations keyed by role and
    account, their unbonding lifecycle, and slashing on evidence.

    [Params] has the governance-set parameters and the fee rules, [Evidence]
    the slashing reports and their admission, [Registry] the registry and one
    definition per method, with the step relation over them.  The registry
    root and the wire formats go through [bincode] and are not modelled.

    The theorems: fees cannot be lowered by splitting a transfer, only a
    consensus-verified and well-formed report cuts stake and it cuts every
    role of the offender and nobody else, a slashed member stays slashed and
    can never withdraw, a bond is locked for the whole unbonding window, and
    the bonded total moves by exactly what the operations report. *)
From stdpp Require Import base tactics numbers list gmap strings sorting.
From Stdlib Require Import ZArith Lia.
From S2P Require Import Prelude Messages Economics.

(** ** Roles *)
Module Role.
Abbreviation RoleId := Z.
Definition VALIDATOR : RoleId := 1.
Definition VERIFIER : RoleId := 2.
Definition MASTER_VERIFIER : RoleId := 2.
Definition RELAYER : RoleId := 3.
Definition PROVER : RoleId := 4.
Definition STORAGE_OPERATOR : RoleId := 5.
Definition AI_VERIFIER : RoleId := 6.
Definition ATTESTER : RoleId := 7.
Definition AI_OPERATOR : RoleId := 8.
Definition CONTENT_VALIDATOR : RoleId := 9.
End Role.
Import Role.

Inductive SlashingCondition := DoubleSign | LivenessFault | MaliciousBehaviour.

#[export] Instance SlashingCondition_eq_dec : EqDecision SlashingCondition.
Proof. solve_decision. Defined.

(** ** Parameters *)
Module Params.

Definition UNBONDING_EPOCHS : Z := 7.

Record RegistryParams := {
  min_stake : Z;
  unbonding_epochs : Z;
  double_sign_slash_ratio_fixed : Z;
  liveness_slash_ratio_fixed : Z;
  malicious_slash_ratio_fixed : Z;
  liveness_max_missed_epochs : Z;
  slashing_report_fee : Z;
  proof_submission_fee : Z;
  ai_model_register_fee : Z;
  prover_reward : Z;
  max_invalid_votes_per_epoch : Z;
  liveness_slashing_enabled : bool;
  bridge_relayer_fee_ppm : Z;
  bridge_relayer_min_fee : Z;
  transfer_fee_ppm : Z;
  swap_fee_ppm : Z;
  bridge_fee_ppm : Z;
}.

Definition default_params : RegistryParams :=
  {| min_stake := 1000;
     unbonding_epochs := UNBONDING_EPOCHS;
     double_sign_slash_ratio_fixed := FIXED_POINT_SCALE / 2;
     liveness_slash_ratio_fixed := FIXED_POINT_SCALE / 100;
     malicious_slash_ratio_fixed := FIXED_POINT_SCALE;
     liveness_max_missed_epochs := 20;
     slashing_report_fee := 10;
     proof_submission_fee := 10;
     ai_model_register_fee := 10;
     prover_reward := 0;
     max_invalid_votes_per_epoch := 20;
     liveness_slashing_enabled := false;
     bridge_relayer_fee_ppm := 10000;
     bridge_relayer_min_fee := 10;
     transfer_fee_ppm := 0;
     swap_fee_ppm := 0;
     bridge_fee_ppm := 0 |}.

Definition PPM_DENOMINATOR : Z := 1000000.

Definition slash_ratio (p : RegistryParams) (condition : SlashingCondition) : Z :=
  match condition with
  | DoubleSign => double_sign_slash_ratio_fixed p
  | LivenessFault => liveness_slash_ratio_fixed p
  | MaliciousBehaviour => malicious_slash_ratio_fixed p
  end.

(** [u128::div_ceil]. *)
Definition div_ceil (a b : Z) : Z := (a + b - 1) / b.

Definition proportional_fee (amount rate_ppm : Z) : Z :=
  if (rate_ppm =? 0) || (amount =? 0) then 0
  else
    let scaled := u128_sat_mul amount rate_ppm in
    default u64_max (u64_try_from (div_ceil scaled PPM_DENOMINATOR)).

Definition required_transfer_fee (p : RegistryParams) (amount base_fee : Z) : Z :=
  u64_sat_add base_fee (proportional_fee amount (transfer_fee_ppm p)).

Inductive ParamsError :=
  | MinStakeTooLow
  | UnbondingOutOfRange
  | SlashRatioTooHigh (condition : SlashingCondition)
  | BridgeRelayerFeeTooHigh
  | FeeRateTooHigh (name : string)
  | InvalidVotesTooHigh.

(** The [for (name, rate) in ..] loop. *)
Fixpoint check_rates (rates : list (string * Z)) : result ParamsError () :=
  match rates with
  | [] => Ok ()
  | (name, rate) :: rest =>
      if PPM_DENOMINATOR <=? rate then Err (FeeRateTooHigh name) else check_rates rest
  end.

Definition validate (p : RegistryParams) : result ParamsError () :=
  if min_stake p <? 100 then Err MinStakeTooLow
  else if (unbonding_epochs p =? 0) || (100000 <? unbonding_epochs p)
  then Err UnbondingOutOfRange
  else if FIXED_POINT_SCALE <? double_sign_slash_ratio_fixed p
  then Err (SlashRatioTooHigh DoubleSign)
  else if FIXED_POINT_SCALE <? liveness_slash_ratio_fixed p
  then Err (SlashRatioTooHigh LivenessFault)
  else if FIXED_POINT_SCALE <? malicious_slash_ratio_fixed p
  then Err (SlashRatioTooHigh MaliciousBehaviour)
  else if PPM_DENOMINATOR <=? bridge_relayer_fee_ppm p then Err BridgeRelayerFeeTooHigh
  else
    let? _ := check_rates
      [("transfer_fee_ppm"%string, transfer_fee_ppm p);
       ("swap_fee_ppm"%string, swap_fee_ppm p);
       ("bridge_fee_ppm"%string, bridge_fee_ppm p)] in
    if 100000 <? max_invalid_votes_per_epoch p then Err InvalidVotesTooHigh else Ok ().

Lemma div_ceil_mult a b : 0 < b → b * div_ceil a b < a + b ∧ a ≤ b * div_ceil a b.
Proof.
  intros Hb. unfold div_ceil. pose proof (Z.mul_div_le (a + b - 1) b Hb).
  pose proof (Z.mul_succ_div_gt (a + b - 1) b Hb). lia.
Qed.

(** The fee, without the saturation that no [u64] amount reaches. *)
Lemma proportional_fee_ceil amount rate :
  u64 amount → 0 ≤ rate < PPM_DENOMINATOR →
  proportional_fee amount rate = div_ceil (amount * rate) PPM_DENOMINATOR.
Proof.
  intros Ha Hr. unfold proportional_fee.
  destruct (Z.eqb_spec rate 0) as [->|]; [by rewrite Z.mul_0_r|].
  destruct (Z.eqb_spec amount 0) as [->|]; [done|]. cbn [orb].
  assert (u128_sat_mul amount rate = amount * rate) as ->.
  { unfold PPM_DENOMINATOR in Hr. unfold_ints. nia. }
  pose proof (div_ceil_mult (amount * rate) PPM_DENOMINATOR ltac:(done)) as [Hlt _].
  unfold u64_try_from. rewrite (proj2 (Z.leb_le _ _)); [done|].
  unfold PPM_DENOMINATOR in *. unfold_ints. nia.
Qed.

(** The proportional fee is the exact share rounded up: a charged
    transfer is never free, never costs more than it moves, and moving an
    amount in two parts never costs less than moving it at once. *)
Theorem proportional_fee_no_split_gain a b rate :
  u64 a → u64 b → u64 (a + b) → 0 ≤ rate < PPM_DENOMINATOR →
  proportional_fee (a + b) rate ≤ proportional_fee a rate + proportional_fee b rate ∧
  (0 < a → 0 < rate → 0 < proportional_fee a rate) ∧
  proportional_fee a rate ≤ a.
Proof.
  intros Ha Hb Hab Hr. rewrite !proportional_fee_ceil by done.
  pose proof (div_ceil_mult (a * rate) PPM_DENOMINATOR ltac:(done)).
  pose proof (div_ceil_mult (b * rate) PPM_DENOMINATOR ltac:(done)).
  pose proof (div_ceil_mult ((a + b) * rate) PPM_DENOMINATOR ltac:(done)).
  unfold PPM_DENOMINATOR in *. unfold u64 in *.
  split_and!; [nia| |]; [intros; nia|]. nia.
Qed.

Lemma proportional_fee_no_split_gain_witness :
  proportional_fee (99 + 1) 2000 ≤ proportional_fee 99 2000 + proportional_fee 1 2000.
Proof.
  apply (proportional_fee_no_split_gain 99 1 2000);
    vm_compute; split; (discriminate || reflexivity).
Defined.

Lemma validate_ok p :
  validate p = Ok () →
  100 ≤ min_stake p ∧ 0 ≠ unbonding_epochs p ∧ unbonding_epochs p ≤ 100000 ∧
  (∀ c, slash_ratio p c ≤ FIXED_POINT_SCALE) ∧
  bridge_relayer_fee_ppm p < PPM_DENOMINATOR ∧ transfer_fee_ppm p < PPM_DENOMINATOR ∧
  swap_fee_ppm p < PPM_DENOMINATOR ∧ bridge_fee_ppm p < PPM_DENOMINATOR ∧
  max_invalid_votes_per_epoch p ≤ 100000.
Proof.
  unfold validate, check_rates. intros Hv.
  repeat match type of Hv with
  | context [if ?b then _ else _] => destruct b eqn:?; try discriminate
  end.
  split_and!; try lia. intros []; simpl; lia.
Qed.
End Params.

(** ** Evidence *)
Module Evidence.

Inductive ProofProvenance := ConsensusVerified | Unverified.

Inductive SlashingProof :=
  | PDoubleSign (height : Z) (block_hash_1 block_hash_2 : bytes) (signature_1 signature_2 : bytes)
  | PLiveness (window_start_epoch window_end_epoch missed expected : Z)
  | POther (tag : bytes) (data : bytes)
  | PInvalidSignatureSpam (epoch count threshold : Z).

Definition proof_condition (p : SlashingProof) : SlashingCondition :=
  match p with
  | PDoubleSign _ _ _ _ _ => DoubleSign
  | PLiveness _ _ _ _ => LivenessFault
  | POther _ _ => MaliciousBehaviour
  | PInvalidSignatureSpam _ _ _ => MaliciousBehaviour
  end.

Record SlashingReport := {
  offender : Address;
  role : RoleId;
  proof : SlashingProof;
  provenance : ProofProvenance;
  reporter : option Address;
}.

Inductive EvidenceError :=
  | ZeroOffender
  | NonConflictingHashes
  | MissingSignature
  | ImpossibleLivenessWindow
  | EmptyProofTag
  | InsufficientInvalidVoteCount
  | UnverifiedReport.

Definition new (offender : Address) (role : RoleId) (proof : SlashingProof)
    (provenance : ProofProvenance) (reporter : option Address) : SlashingReport :=
  {| offender := offender; role := role; proof := proof; provenance := provenance;
     reporter := reporter |}.

Definition consensus_double_sign (offender : Address) (height : Z)
    (block_hash_1 block_hash_2 signature_1 signature_2 : bytes) (reporter : option Address) :
    SlashingReport :=
  new offender VALIDATOR
    (PDoubleSign height block_hash_1 block_hash_2 signature_1 signature_2)
    ConsensusVerified reporter.

Definition consensus_liveness (offender : Address) (role : RoleId)
    (window_start_epoch window_end_epoch missed expected : Z) (reporter : option Address) :
    SlashingReport :=
  new offender role (PLiveness window_start_epoch window_end_epoch missed expected)
    ConsensusVerified reporter.

Definition consensus_invalid_signature_spam (offender : Address) (role : RoleId)
    (epoch count threshold : Z) (reporter : option Address) : SlashingReport :=
  new offender role (PInvalidSignatureSpam epoch count threshold) ConsensusVerified reporter.

Definition consensus_invalid_relay_proof (offender : Address) (reason : bytes)
    (reporter : option Address) : SlashingReport :=
  new offender RELAYER (POther (bstr "relayer_invalid_proof") reason)
    ConsensusVerified reporter.

Definition consensus_invalid_relay_griefing (offender : Address) (reason : bytes)
    (reporter : option Address) : SlashingReport :=
  new offender RELAYER (POther (bstr "relayer_griefing") reason) ConsensusVerified reporter.

Definition consensus_invalid_relay_front_running (offender : Address) (reason : bytes)
    (reporter : option Address) : SlashingReport :=
  new offender RELAYER (POther (bstr "relayer_front_running") reason)
    ConsensusVerified reporter.

Definition consensus_invalid_relay_wrong_relay (offender : Address) (reason : bytes)
    (reporter : option Address) : SlashingReport :=
  new offender RELAYER (POther (bstr "relayer_wrong_relay") reason) ConsensusVerified reporter.

Definition consensus_invalid_attester_proof (offender : Address) (reason : bytes)
    (reporter : option Address) : SlashingReport :=
  new offender ATTESTER (POther (bstr "attester_invalid_attestation") reason)
    ConsensusVerified reporter.

Definition consensus_invalid_content_validation (offender : Address) (reason : bytes)
    (reporter : option Address) : SlashingReport :=
  new offender CONTENT_VALIDATOR (POther (bstr "content_validator_malicious") reason)
    ConsensusVerified reporter.

Definition condition (r : SlashingReport) : SlashingCondition := proof_condition (proof r).

Definition validate_shape (r : SlashingReport) : result EvidenceError () :=
  if decide (offender r = zero32) then Err ZeroOffender
  else
    match proof r with
    | PDoubleSign _ block_hash_1 block_hash_2 signature_1 signature_2 =>
        if decide (block_hash_1 = block_hash_2) then Err NonConflictingHashes
        else if bool_decide (signature_1 = []) || bool_decide (signature_2 = []) then Err MissingSignature
        else Ok ()
    | PLiveness _ _ missed expected =>
        if expected <? missed then Err ImpossibleLivenessWindow else Ok ()
    | POther tag _ => if decide (tag = []) then Err EmptyProofTag else Ok ()
    | PInvalidSignatureSpam _ count threshold =>
        if (threshold =? 0) || (count <? threshold) then Err InsufficientInvalidVoteCount
        else Ok ()
    end.

Definition is_actionable (r : SlashingReport) : result EvidenceError () :=
  let? _ := validate_shape r in
  match provenance r with
  | ConsensusVerified => Ok ()
  | Unverified => Err UnverifiedReport
  end.
End Evidence.

(** ** The registry *)
Module Registry.
Import Params Evidence.

Definition MAX_SLASHING_HISTORY : nat := 4096.

Inductive MemberStatus :=
  | Active
  | Unbonding (release_epoch : Z)
  | Slashed.

#[export] Instance MemberStatus_eq_dec : EqDecision MemberStatus.
Proof. solve_decision. Defined.

Record Registration := {
  account : Address;
  reg_role : RoleId;
  stake : Z;
  status : MemberStatus;
  registered_epoch : Z;
}.

Definition reg_is_active (r : Registration) : bool :=
  match status r with Active => 0 <? stake r | _ => false end.

Definition is_slashable (r : Registration) : bool :=
  match status r with Active | Unbonding _ => 0 <? stake r | Slashed => false end.

Inductive RegistryError :=
  | InsufficientStake (required provided : Z)
  | AlreadyRegistered (account : Address) (role : RoleId)
  | NotRegistered (account : Address) (role : RoleId)
  | NotActive (account : Address) (role : RoleId)
  | StillUnbonding (release_epoch current_epoch : Z)
  | RelayerNotActive (account : Address)
  | AlreadySlashed (account : Address) (role : RoleId).

Record SlashOutcome := {
  out_condition : SlashingCondition;
  out_penalty : Z;
  out_remaining_stake : Z;
}.

Record SlashingRecord := {
  report : SlashingReport;
  rec_penalty : Z;
  rec_remaining_stake : Z;
}.

Abbreviation Key := (RoleId * Address)%type.

Record PermissionlessRegistry := {
  registrations : gmap Key Registration;
  params : RegistryParams;
  slashing_history : list SlashingRecord;
}.

Definition with_registrations (s : PermissionlessRegistry) r : PermissionlessRegistry :=
  {| registrations := r; params := params s; slashing_history := slashing_history s |}.

Definition with_stake (r : Registration) (x : Z) : Registration :=
  {| account := account r; reg_role := reg_role r; stake := x; status := status r;
     registered_epoch := registered_epoch r |}.

Definition with_status (r : Registration) (st : MemberStatus) : Registration :=
  {| account := account r; reg_role := reg_role r; stake := stake r; status := st;
     registered_epoch := registered_epoch r |}.

Definition new : PermissionlessRegistry :=
  {| registrations := ∅; params := default_params; slashing_history := [] |}.

Definition with_params (p : RegistryParams) : PermissionlessRegistry :=
  {| registrations := ∅; params := p; slashing_history := [] |}.

Definition set_params (s : PermissionlessRegistry) (p : RegistryParams) :
    PermissionlessRegistry :=
  {| registrations := registrations s; params := p; slashing_history := slashing_history s |}.

Definition fresh_registration (a : Address) (role : RoleId) (x epoch : Z) : Registration :=
  {| account := a; reg_role := role; stake := x; status := Active; registered_epoch := epoch |}.

Definition register (s : PermissionlessRegistry) (a : Address) (role : RoleId)
    (x current_epoch : Z) : result RegistryError () * PermissionlessRegistry :=
  if x <? min_stake (params s) then (Err (InsufficientStake (min_stake (params s)) x), s)
  else
    match registrations s !! (role, a) with
    | Some _ => (Err (AlreadyRegistered a role), s)
    | None =>
        (Ok (), with_registrations s
          (<[(role, a) := fresh_registration a role x current_epoch]> (registrations s)))
    end.

Definition register_validator s a x e := register s a VALIDATOR x e.
Definition register_verifier s a x e := register s a VERIFIER x e.
Definition register_master_verifier s a x e := register s a MASTER_VERIFIER x e.
Definition register_relayer s a x e := register s a RELAYER x e.
Definition register_storage_operator s a x e := register s a STORAGE_OPERATOR x e.
Definition register_ai_verifier s a x e := register s a AI_VERIFIER x e.
Definition register_attester s a x e := register s a ATTESTER x e.
Definition register_ai_operator s a x e := register s a AI_OPERATOR x e.
Definition register_content_validator s a x e := register s a CONTENT_VALIDATOR x e.

Definition upsert_stake (s : PermissionlessRegistry) (a : Address) (role : RoleId)
    (total_stake current_epoch : Z) : PermissionlessRegistry :=
  let key := (role, a) in
  match registrations s !! key with
  | Some reg =>
      match status reg with
      | Slashed =>
          with_registrations s (<[key := with_stake reg total_stake]> (registrations s))
      | _ =>
          if total_stake =? 0 then with_registrations s (delete key (registrations s))
          else with_registrations s (<[key := with_stake reg total_stake]> (registrations s))
      end
  | None =>
      if min_stake (params s) <=? total_stake
      then with_registrations s
        (<[key := fresh_registration a role total_stake current_epoch]> (registrations s))
      else s
  end.

Definition add_stake (s : PermissionlessRegistry) (a : Address) (role : RoleId) (amount : Z) :
    result RegistryError Z * PermissionlessRegistry :=
  let? reg := ok_or (registrations s !! (role, a)) (NotRegistered a role) at s in
  let x := u64_sat_add (stake reg) amount in
  (Ok x, with_registrations s (<[(role, a) := with_stake reg x]> (registrations s))).

Definition begin_unbonding_with_delay (s : PermissionlessRegistry) (a : Address)
    (role : RoleId) (current_epoch unbonding : Z) :
    result RegistryError Z * PermissionlessRegistry :=
  let? reg := ok_or (registrations s !! (role, a)) (NotRegistered a role) at s in
  match status reg with
  | Active =>
      let release_epoch := u64_sat_add current_epoch unbonding in
      (Ok release_epoch, with_registrations s
        (<[(role, a) := with_status reg (Unbonding release_epoch)]> (registrations s)))
  | _ => (Err (NotActive a role), s)
  end.

Definition begin_unbonding (s : PermissionlessRegistry) (a : Address) (role : RoleId)
    (current_epoch : Z) : result RegistryError Z * PermissionlessRegistry :=
  begin_unbonding_with_delay s a role current_epoch (unbonding_epochs (params s)).

Definition withdraw (s : PermissionlessRegistry) (a : Address) (role : RoleId)
    (current_epoch : Z) : result RegistryError Z * PermissionlessRegistry :=
  let? reg := ok_or (registrations s !! (role, a)) (NotRegistered a role) at s in
  match status reg with
  | Unbonding release_epoch =>
      if current_epoch <? release_epoch
      then (Err (StillUnbonding release_epoch current_epoch), s)
      else (Ok (stake reg), with_registrations s (delete (role, a) (registrations s)))
  | _ => (Err (NotActive a role), s)
  end.

(** The two assignments both slashing paths make to a row. *)
Definition slash_row (ratio : Z) (reg : Registration) : Registration :=
  with_status (with_stake reg (sat_sub (stake reg) (Penalty.slash_penalty (stake reg) ratio)))
    Slashed.

Definition slash_role_only (s : PermissionlessRegistry) (a : Address) (role : RoleId)
    (condition : SlashingCondition) (ratio : Z) :
    result RegistryError SlashOutcome * PermissionlessRegistry :=
  let? reg := ok_or (registrations s !! (role, a)) (NotRegistered a role) at s in
  match status reg with
  | Slashed => (Err (AlreadySlashed a role), s)
  | _ =>
      let reg' := slash_row ratio reg in
      (Ok {| out_condition := condition;
             out_penalty := Penalty.slash_penalty (stake reg) ratio;
             out_remaining_stake := stake reg' |},
       with_registrations s (<[(role, a) := reg']> (registrations s)))
  end.

Definition cross_slash_one (a : Address) (ratio : Z) (m : gmap Key Registration)
    (role : RoleId) : gmap Key Registration :=
  match m !! (role, a) with
  | Some reg =>
      match status reg with Slashed => m | _ => <[(role, a) := slash_row ratio reg]> m end
  | None => m
  end.

Definition slash_cross_role (s : PermissionlessRegistry) (a : Address)
    (primary_role : RoleId) (ratio : Z) : PermissionlessRegistry :=
  let other_keys :=
    omap (λ k : Key, if bool_decide (k.2 = a) && bool_decide (k.1 ≠ primary_role)
                     then Some k.1 else None)
      (btree_list (registrations s)).*1 in
  with_registrations s (fold_left (cross_slash_one a ratio) other_keys (registrations s)).

Definition slash (s : PermissionlessRegistry) (a : Address) (role : RoleId)
    (condition : SlashingCondition) (ratio : Z) :
    result RegistryError SlashOutcome * PermissionlessRegistry :=
  let '(r, s) := slash_role_only s a role condition ratio in
  let? outcome := r at s in
  (Ok outcome, slash_cross_role s a role ratio).

Definition record_slash (s : PermissionlessRegistry) (r : SlashingRecord) :
    PermissionlessRegistry :=
  let h := slashing_history s ++ [r] in
  {| registrations := registrations s; params := params s;
     slashing_history :=
       if (MAX_SLASHING_HISTORY <? length h)%nat
       then drop (length h - MAX_SLASHING_HISTORY) h else h |}.

Definition slash_from_report (s : PermissionlessRegistry) (rep : SlashingReport) :
    result EvidenceError (option SlashOutcome) * PermissionlessRegistry :=
  let? _ := is_actionable rep at s in
  let cond := condition rep in
  let ratio := slash_ratio (params s) cond in
  let '(r, s) := slash s (offender rep) (role rep) cond ratio in
  match r with
  | Ok outcome =>
      (Ok (Some outcome), record_slash s
        {| report := rep; rec_penalty := out_penalty outcome;
           rec_remaining_stake := out_remaining_stake outcome |})
  | Err _ => (Ok None, s)
  end.

(** *** Queries *)
Definition get (s : PermissionlessRegistry) (a : Address) (role : RoleId) :
    option Registration := registrations s !! (role, a).

Definition is_active (s : PermissionlessRegistry) (a : Address) (role : RoleId) : bool :=
  from_option reg_is_active false (get s a role).

Definition slashing_history_for (s : PermissionlessRegistry) (a : Address) :
    list SlashingRecord := filter (λ r, offender (report r) = a) (slashing_history s).

Definition active_members (s : PermissionlessRegistry) (role : RoleId) : list Registration :=
  filter (λ r, (bool_decide (reg_role r = role) && reg_is_active r) = true)
    (btree_values (registrations s)).

Definition is_active_relayer (s : PermissionlessRegistry) (a : Address) : bool :=
  from_option is_slashable false (get s a RELAYER).

Definition ensure_active_relayer (s : PermissionlessRegistry) (a : Address) :
    result RegistryError () :=
  if is_active_relayer s a then Ok () else Err (RelayerNotActive a).

Definition is_active_attester (s : PermissionlessRegistry) (a : Address) : bool :=
  from_option is_slashable false (get s a ATTESTER).

Definition ensure_active_attester (s : PermissionlessRegistry) (a : Address) :
    result RegistryError () :=
  if is_active_attester s a then Ok () else Err (NotActive a ATTESTER).

Definition is_active_master_verifier s a := is_active s a MASTER_VERIFIER.
Definition is_active_ai_operator s a := from_option is_slashable false (get s a AI_OPERATOR).
Definition is_active_content_validator s a :=
  from_option is_slashable false (get s a CONTENT_VALIDATOR).
Definition is_active_ai_verifier s a := from_option is_slashable false (get s a AI_VERIFIER).
Definition is_active_prover s a := from_option is_slashable false (get s a PROVER).

Definition total_stake (s : PermissionlessRegistry) (role : RoleId) : Z :=
  fold_left u64_sat_add (stake <$> active_members s role) 0.

Definition total_bonded_stake_excluding (s : PermissionlessRegistry) (excluded : RoleId) : Z :=
  fold_left (λ total r, u128_sat_add total (stake r))
    (filter (λ r, reg_role r ≠ excluded) (btree_values (registrations s))) 0.

Definition len (s : PermissionlessRegistry) : nat := size (registrations s).
End Registry.

(** ** What the registry promises *)
Module RegistryProps.
Import Params Evidence Registry.

(** *** Slashing *)

(** A row after a slash of its account: slashed rows stay as they are. *)
Definition slash_if (ratio : Z) (reg : Registration) : Registration :=
  match status reg with Slashed => reg | _ => slash_row ratio reg end.

Lemma status_slash_if ratio reg : status (slash_if ratio reg) = Slashed.
Proof. unfold slash_if. by destruct (status reg) eqn:?. Qed.

Lemma slash_if_idem ratio reg : slash_if ratio (slash_if ratio reg) = slash_if ratio reg.
Proof. unfold slash_if at 1. by rewrite status_slash_if. Qed.

Lemma cross_slash_one_lookup a ratio m role k :
  cross_slash_one a ratio m role !! k =
  if decide (k = (role, a)) then slash_if ratio <$> m !! k else m !! k.
Proof.
  unfold cross_slash_one. case_decide as Hk; [subst k|].
  - destruct (m !! (role, a)) as [reg|] eqn:Hm; [|by rewrite Hm]. unfold slash_if. simpl.
    destruct (status reg) eqn:Hst; rewrite ?lookup_insert_eq, ?Hm; simpl; done.
  - repeat case_match; rewrite ?lookup_insert_ne by done; done.
Qed.

Lemma cross_slash_lookup a ratio roles m k :
  fold_left (cross_slash_one a ratio) roles m !! k =
  if decide (k.2 = a ∧ k.1 ∈ roles) then slash_if ratio <$> m !! k else m !! k.
Proof.
  revert m. induction roles as [|role roles IH]; intros m; cbn [fold_left].
  { rewrite decide_False; [done|]. intros [_ Hin]. by apply not_elem_of_nil in Hin. }
  rewrite IH, cross_slash_one_lookup.
  destruct (decide (k = (role, a))) as [->|Hne]; simpl.
  - destruct (decide (a = a ∧ role ∈ role :: roles)) as [_|Hn].
    2: { exfalso. apply Hn. split; [done|by left]. }
    destruct (decide (a = a ∧ role ∈ roles)); [|done]. rewrite <-option_fmap_compose. apply option_fmap_ext.
    intros reg. apply slash_if_idem.
  - destruct (decide (k.2 = a ∧ k.1 ∈ roles)) as [[? ?]|Hn].
    + rewrite decide_True; [done|]. split; [done|by right].
    + rewrite decide_False; [done|]. rewrite elem_of_cons. intros [Ha [Hr|Hin]]; [|by apply Hn].
      apply Hne. destruct k. simpl in *. by subst.
Qed.

Lemma slash_lookup s a role c ratio out s' :
  slash s a role c ratio = (Ok out, s') →
  (∃ reg, registrations s !! (role, a) = Some reg ∧ status reg ≠ Slashed ∧
    out = {| out_condition := c; out_penalty := Penalty.slash_penalty (stake reg) ratio;
             out_remaining_stake := stake (slash_if ratio reg) |}) ∧
  (∀ k, registrations s' !! k =
    if decide (k.2 = a) then slash_if ratio <$> registrations s !! k else registrations s !! k) ∧
  params s' = params s ∧ slashing_history s' = slashing_history s.
Proof.
  unfold slash, slash_role_only.
  destruct (registrations s !! (role, a)) as [reg|] eqn:Hreg; simpl; [|done].
  intros Hs. assert (status reg ≠ Slashed) as Hst by (intros Hst; by rewrite Hst in Hs).
  assert (slash_if ratio reg = slash_row ratio reg) as Hif
    by (unfold slash_if; by destruct (status reg)).
  assert ((Ok {| out_condition := c; out_penalty := Penalty.slash_penalty (stake reg) ratio;
                 out_remaining_stake := stake (slash_row ratio reg) |},
    slash_cross_role (with_registrations s (<[(role, a) := slash_row ratio reg]> (registrations s)))
      a role ratio) = (Ok out, s')) as Hs' by (destruct (status reg); done).
  clear Hs. injection Hs' as <- <-. split_and!; [|simpl|done|done].
  { exists reg. by rewrite Hif. }
  intros k. rewrite cross_slash_lookup. simpl.
  set (m := <[(role, a) := slash_row ratio reg]> (registrations s)).
  assert (k.1 ∈ omap (λ k : Key, if bool_decide (k.2 = a) && bool_decide (k.1 ≠ role)
    then Some k.1 else None) (btree_list m).*1 ↔ k.1 ≠ role ∧ is_Some (m !! (k.1, a))) as Hin.
  { rewrite list_elem_of_omap. split.
    - intros ([r b] & Hk & Hb). simpl in Hb. repeat case_bool_decide; simplify_eq/=.
      split; [done|]. apply list_elem_of_fmap in Hk as ([k' v] & -> & Hk).
      apply elem_of_btree_list in Hk. by exists v.
    - intros (Hne & v & Hv). exists (k.1, a). split.
      + apply list_elem_of_fmap. exists ((k.1, a), v). by rewrite elem_of_btree_list.
      + simpl. by rewrite !bool_decide_true. }
  destruct (decide (k.2 = a)) as [Ha|Ha].
  2: { rewrite decide_False by tauto. apply lookup_insert_ne. intros <-. by apply Ha. }
  destruct (decide (k = (role, a))) as [->|Hne].
  - rewrite decide_False by tauto. unfold m. rewrite lookup_insert_eq, Hreg. simpl. by rewrite Hif.
  - assert (k.1 ≠ role) as Hr by (intros Hr; apply Hne; destruct k; simpl in *; by subst).
    assert (m !! k = registrations s !! k) as Hm by (apply lookup_insert_ne; congruence).
    rewrite Hm. case_decide as Hd; [done|].
    destruct (registrations s !! k) eqn:Hk; [|done]. exfalso. apply Hd. split; [done|].
    apply Hin. split; [done|]. destruct k as [r' b]. simpl in *. subst b. rewrite Hm. by eexists.
Qed.

Lemma slash_err s a role c ratio e s' :
  slash s a role c ratio = (Err e, s') →
  s' = s ∧ match registrations s !! (role, a) with
           | None => e = NotRegistered a role
           | Some reg => status reg = Slashed ∧ e = AlreadySlashed a role
           end.
Proof.
  unfold slash, slash_role_only.
  destruct (registrations s !! (role, a)) as [reg|]; simpl; [|by intros [=]].
  destruct (status reg) eqn:?; by intros [=].
Qed.

(** The last [MAX_SLASHING_HISTORY] records, the new one among them. *)
Definition capped (h : list SlashingRecord) : list SlashingRecord :=
  drop (length h - MAX_SLASHING_HISTORY) h.

Lemma record_slash_capped s r :
  slashing_history (record_slash s r) = capped (slashing_history s ++ [r]).
Proof.
  unfold record_slash, capped. cbn [slashing_history].
  destruct (Nat.ltb_spec MAX_SLASHING_HISTORY (length (slashing_history s ++ [r]))); [done|].
  by rewrite (proj2 (Nat.sub_0_le _ _)).
Qed.

(** Stake is cut only on an actionable report, and then from the
    offender alone, in every role at once.  A report that is malformed or
    not consensus-verified is refused and changes nothing; an actionable one
    that names an unregistered or already slashed offender changes nothing;
    otherwise every registration of the offender becomes slashed with its
    stake cut by the condition's ratio, every other account keeps its
    registrations, and the record is appended to a history of bounded
    length. *)
Theorem slash_from_report_exact s rep r s' :
  slash_from_report s rep = (r, s') →
  match r with
  | Err e => is_actionable rep = Err e ∧ s' = s
  | Ok None =>
      is_actionable rep = Ok () ∧ s' = s ∧
      (∀ reg, get s (offender rep) (role rep) = Some reg → status reg = Slashed)
  | Ok (Some out) =>
      is_actionable rep = Ok () ∧ provenance rep = ConsensusVerified ∧
      out_condition out = condition rep ∧
      (∀ k, registrations s' !! k =
        if decide (k.2 = offender rep)
        then slash_if (slash_ratio (params s) (condition rep)) <$> registrations s !! k
        else registrations s !! k) ∧
      slashing_history s' = capped (slashing_history s ++
        [{| report := rep; rec_penalty := out_penalty out;
            rec_remaining_stake := out_remaining_stake out |}]) ∧
      (length (slashing_history s') ≤ MAX_SLASHING_HISTORY)%nat
  end.
Proof.
  unfold slash_from_report. destruct (is_actionable rep) as [[]|e] eqn:Hact; simpl.
  2: { intros [= <- <-]. done. }
  destruct (slash _ _ _ _ _) as [[out|e] s1] eqn:Hs.
  - intros [= <- <-]. apply slash_lookup in Hs as ((reg & _ & _ & Hout) & Hlook & _ & Hhist).
    rewrite record_slash_capped, Hhist. split_and!; try done.
    + unfold is_actionable in Hact. destruct (validate_shape rep); [|done].
      by destruct (provenance rep).
    + by subst out.
    + unfold capped. rewrite length_drop. lia.
  - intros [= <- <-]. apply slash_err in Hs as [-> Hreg]. split_and!; try done.
    unfold get. intros reg Hg. rewrite Hg in Hreg. by destruct Hreg.
Qed.

(** *** Runs *)

(** One method call, at the epoch it is made in. *)
Inductive step (epoch : Z) : PermissionlessRegistry → PermissionlessRegistry → Prop :=
  | step_register s a role x : step epoch s (register s a role x epoch).2
  | step_add_stake s a role x : step epoch s (add_stake s a role x).2
  | step_unbond s a role d : step epoch s (begin_unbonding_with_delay s a role epoch d).2
  | step_withdraw s a role : step epoch s (withdraw s a role epoch).2
  | step_slash s a role c ratio : step epoch s (slash s a role c ratio).2
  | step_slash_role s a role c ratio : step epoch s (slash_role_only s a role c ratio).2
  | step_report s rep : step epoch s (slash_from_report s rep).2
  | step_set_params s p : step epoch s (set_params s p).

(** The validator mirror, which the consensus layer drives. *)
Inductive mirror (epoch : Z) : PermissionlessRegistry → PermissionlessRegistry → Prop :=
  | mirror_upsert s a role x : mirror epoch s (upsert_stake s a role x epoch).

Lemma slash_keeps s a role c ratio k reg :
  registrations s !! k = Some reg →
  ∃ reg', registrations (slash s a role c ratio).2 !! k = Some reg' ∧
    (reg' = reg ∨ status reg' = Slashed).
Proof.
  intros Hk. destruct (slash s a role c ratio) as [[out|e] s'] eqn:Hs; simpl.
  - apply slash_lookup in Hs as (_ & Hlook & _). rewrite Hlook, Hk. simpl.
    case_decide; [|by eauto]. eexists. split; [done|]. right. apply status_slash_if.
  - apply slash_err in Hs as [-> _]. eauto.
Qed.

Lemma slash_role_keeps s a role c ratio k reg :
  registrations s !! k = Some reg →
  ∃ reg', registrations (slash_role_only s a role c ratio).2 !! k = Some reg' ∧
    (reg' = reg ∨ status reg' = Slashed).
Proof.
  intros Hk. unfold slash_role_only.
  destruct (registrations s !! (role, a)) as [r|] eqn:Hr; simpl; [|by eauto].
  destruct (status r); simpl; [..|by eauto]; rewrite lookup_insert;
    case_decide; simplify_eq; eauto.
Qed.

(** What one step can do to a row: keep its status, move it on along the
    lifecycle, or remove it once its release epoch has come. *)
Lemma step_row epoch s s' k reg :
  step epoch s s' → registrations s !! k = Some reg →
  match registrations s' !! k with
  | None => ∃ rel, status reg = Unbonding rel ∧ rel ≤ epoch
  | Some reg' => status reg' = status reg ∨ status reg' = Slashed ∨
      (status reg = Active ∧ ∃ rel, status reg' = Unbonding rel)
  end.
Proof.
  intros Hstep Hk. destruct Hstep as [s a role x|s a role x|s a role d|s a role
    |s a role c ratio|s a role c ratio|s rep|s p].
  - unfold register. destruct (x <? min_stake (params s)); simpl; [by rewrite Hk; left|].
    destruct (registrations s !! (role, a)) eqn:Hr; simpl; [by rewrite Hk; left|].
    rewrite lookup_insert_ne by congruence. rewrite Hk. by left.
  - unfold add_stake. destruct (registrations s !! (role, a)) as [r|] eqn:Hr; simpl;
      [|by rewrite Hk; left].
    rewrite lookup_insert. case_decide; [simplify_eq; by left|rewrite Hk; by left].
  - unfold begin_unbonding_with_delay.
    destruct (registrations s !! (role, a)) as [r|] eqn:Hr; simpl; [|by rewrite Hk; left].
    destruct (status r) eqn:Hst; simpl; [|by rewrite Hk; left..].
    rewrite lookup_insert. case_decide; [|rewrite Hk; by left].
    simplify_eq. right; right. split; [done|by eexists].
  - unfold withdraw. destruct (registrations s !! (role, a)) as [r|] eqn:Hr; simpl;
      [|by rewrite Hk; left].
    destruct (status r) as [|rel|] eqn:Hst; simpl; [by rewrite Hk; left| |by rewrite Hk; left].
    destruct (Z.ltb_spec epoch rel); simpl; [by rewrite Hk; left|].
    rewrite lookup_delete. case_decide; [|rewrite Hk; by left]. simplify_eq. eauto.
  - destruct (slash_keeps s a role c ratio _ _ Hk) as (reg' & -> & [->|?]); auto.
  - destruct (slash_role_keeps s a role c ratio _ _ Hk) as (reg' & -> & [->|?]); auto.
  - destruct (slash_from_report s rep) as [r s'] eqn:Hs. simpl.
    unfold slash_from_report in Hs. destruct (is_actionable rep) as [[]|]; simpl in Hs.
    2: { simplify_eq. rewrite Hk. by left. }
    pose proof (slash_keeps s (offender rep) (Evidence.role rep) (condition rep)
      (slash_ratio (params s) (condition rep)) _ _ Hk) as (reg' & Hreg' & Hcase).
    destruct (slash _ _ _ _ _) as [[out|e] s1]; simplify_eq/=; rewrite Hreg';
      destruct Hcase as [->|?]; auto.
  - simpl. rewrite Hk. by left.
Qed.

(** A run: calls at arbitrary epochs, all below [bound] if one is given; the
    mirror only runs in unbounded runs. *)
Inductive run (bound : option Z) : PermissionlessRegistry → PermissionlessRegistry → Prop :=
  | run_nil s : run bound s s
  | run_step epoch s1 s2 s3 :
      from_option (λ b, epoch < b) True bound →
      step epoch s1 s2 → run bound s2 s3 → run bound s1 s3
  | run_mirror epoch s1 s2 s3 :
      bound = None → mirror epoch s1 s2 → run bound s2 s3 → run bound s1 s3.

Lemma mirror_slashed epoch s s' k reg :
  mirror epoch s s' → registrations s !! k = Some reg → status reg = Slashed →
  ∃ reg', registrations s' !! k = Some reg' ∧ status reg' = Slashed.
Proof.
  intros [s0 a role x] Hk Hst. unfold upsert_stake.
  destruct (decide (k = (role, a))) as [->|Hne].
  - rewrite Hk, Hst. simpl. rewrite lookup_insert_eq. by eexists.
  - exists reg. split; [|done].
    repeat case_match; simpl; rewrite ?lookup_insert_ne, ?lookup_delete_ne by done; done.
Qed.

(** A slash is final.  A slashed registration stays registered and
    slashed through every later sequence of calls at any epochs, the
    validator mirror included, so it can never be unbonded, withdrawn or
    registered again. *)
Theorem slashed_is_final s s' a role reg epoch x :
  run None s s' → get s a role = Some reg → status reg = Slashed →
  (∃ reg', get s' a role = Some reg' ∧ status reg' = Slashed) ∧
  withdraw s' a role epoch = (Err (NotActive a role), s') ∧
  begin_unbonding s' a role epoch = (Err (NotActive a role), s') ∧
  is_ok (register s' a role x epoch).1 = false ∧ is_active s' a role = false.
Proof.
  unfold get. intros Hrun Hk Hst.
  assert (∃ reg', registrations s' !! (role, a) = Some reg' ∧ status reg' = Slashed)
    as (reg' & Hk' & Hst').
  { revert reg Hk Hst. induction Hrun as [s|e s1 s2 s3 _ Hstep _ IH|e s1 s2 s3 _ Hm _ IH];
      intros reg Hk Hst; [by eauto|..].
    - pose proof (step_row _ _ _ _ _ Hstep Hk) as Hrow.
      destruct (registrations s2 !! (role, a)) as [r|] eqn:Hr.
      + apply (IH r); [done|]. naive_solver congruence.
      + destruct Hrow as (? & ? & _). congruence.
    - destruct (mirror_slashed _ _ _ _ _ Hm Hk Hst) as (r & ? & ?). by apply (IH r). }
  unfold begin_unbonding, withdraw, begin_unbonding_with_delay, register, is_active, get.
  rewrite Hk'. simpl. rewrite Hst'. split_and!; try done; [by eauto|by case_match|].
  unfold reg_is_active. by rewrite Hst'.
Qed.

(** An unbonding bond stays in reach.  From a successful
    [begin_unbonding] until its release epoch the registration cannot be
    withdrawn: whatever calls are made in earlier epochs, it is still there,
    unbonding until the same epoch or slashed. *)
Theorem unbonding_locks_bond s s1 s2 a role epoch rel :
  begin_unbonding s a role epoch = (Ok rel, s1) → run (Some rel) s1 s2 →
  rel = u64_sat_add epoch (unbonding_epochs (params s)) ∧
  (∃ reg, get s2 a role = Some reg ∧ (status reg = Unbonding rel ∨ status reg = Slashed)) ∧
  (∀ now, now < rel → is_ok (withdraw s2 a role now).1 = false).
Proof.
  unfold get. intros Hb Hrun.
  unfold begin_unbonding, begin_unbonding_with_delay in Hb.
  destruct (registrations s !! (role, a)) as [reg0|] eqn:Hk0; simpl in Hb; [|done].
  destruct (status reg0) eqn:Hst0; simplify_eq.
  split; [done|]. set (rel := u64_sat_add epoch (unbonding_epochs (params s))) in *.
  set (s1 := with_registrations _ _) in Hrun.
  assert (∃ reg, registrations s1 !! (role, a) = Some reg ∧
    (status reg = Unbonding rel ∨ status reg = Slashed)) as Hstart.
  { simpl. rewrite lookup_insert_eq. eexists. split; [done|by left]. }
  assert (∃ reg, registrations s2 !! (role, a) = Some reg ∧
    (status reg = Unbonding rel ∨ status reg = Slashed)) as (reg & Hk & Hst).
  { clearbody s1. clear Hk0 Hst0.
    remember (Some rel) as bound eqn:Hbound.
    induction Hrun as [s'|e s1 s2 s3 He Hstep _ IH|e s1 s2 s3 Hn _ _ _]; [done| |congruence].
    apply IH. destruct Hstart as (reg & Hk & Hst).
    rewrite Hbound in He. simpl in He. pose proof (step_row _ _ _ _ _ Hstep Hk) as Hrow.
    destruct (registrations s2 !! (role, a)) as [r|].
    - exists r. split; [done|]. naive_solver congruence.
    - destruct Hrow as (rel' & Hr & Hle). destruct Hst as [Hst|Hst]; rewrite Hst in Hr; [|done].
      injection Hr as <-. lia. }
  split; [by eauto|]. intros now Hnow. unfold withdraw. rewrite Hk. simpl.
  destruct Hst as [Hst|Hst]; rewrite Hst; [|done].
  by rewrite (proj2 (Z.ltb_lt _ _)).
Qed.

(** *** Accounting *)
Definition bonded (s : PermissionlessRegistry) : Z := map_sum stake (registrations s).

Definition stakes_ok (s : PermissionlessRegistry) : Prop :=
  ∀ k reg, registrations s !! k = Some reg → u64 (stake reg).

(** The bonded total follows the calls exactly: registering and adding
    stake raise it by the stake, unbonding leaves it alone, a withdrawal
    lowers it by the amount handed back, and a slash of one role lowers it by
    the reported penalty, which is at most that role's stake. *)
Theorem bonded_follows_calls s a role x epoch c ratio :
  stakes_ok s → u64 x → u64 ratio →
  (∀ s', register s a role x epoch = (Ok (), s') → bonded s' = bonded s + x) ∧
  (∀ y s', add_stake s a role x = (Ok y, s') → y < u64_max → bonded s' = bonded s + x) ∧
  bonded (begin_unbonding s a role epoch).2 = bonded s ∧
  (∀ y s', withdraw s a role epoch = (Ok y, s') → bonded s' = bonded s - y) ∧
  (∀ out s', slash_role_only s a role c ratio = (Ok out, s') →
    bonded s' = bonded s - out_penalty out ∧ 0 ≤ out_penalty out ∧ 0 ≤ out_remaining_stake out).
Proof.
  intros Hok Hx Hratio. unfold bonded. split_and!.
  - unfold register. intros s'. case_match; [done|].
    destruct (registrations s !! (role, a)) eqn:Hr; [done|]. intros [= <-]. simpl.
    rewrite map_sum_insert_new by done. simpl. lia.
  - unfold add_stake. intros y s'.
    destruct (registrations s !! (role, a)) as [reg|] eqn:Hr; simpl; [|done].
    intros [= <- <-] Hlt. simpl. rewrite (map_sum_insert_upd _ _ _ _ _ Hr). simpl. int_lia.
  - unfold begin_unbonding, begin_unbonding_with_delay.
    destruct (registrations s !! (role, a)) as [reg|] eqn:Hr; simpl; [|done].
    destruct (status reg); simpl; [|done..].
    rewrite (map_sum_insert_upd _ _ _ _ _ Hr). simpl. lia.
  - unfold withdraw. intros y s'.
    destruct (registrations s !! (role, a)) as [reg|] eqn:Hr; simpl; [|done].
    destruct (status reg); simpl; [done| |done]. case_match; [done|]. intros [= <- <-]. simpl.
    rewrite (map_sum_delete _ (registrations s) _ _ Hr). lia.
  - unfold slash_role_only. intros out s'.
    destruct (registrations s !! (role, a)) as [reg|] eqn:Hr; simpl; [|done].
    pose proof (Penalty.slash_penalty_min (stake reg) ratio (Hok _ _ Hr) Hratio) as [_ Hpen].
    assert (map_sum stake (<[(role, a) := slash_row ratio reg]> (registrations s)) =
      map_sum stake (registrations s) - Penalty.slash_penalty (stake reg) ratio) as Hsum.
    { rewrite (map_sum_insert_upd _ _ _ _ _ Hr). simpl. int_lia. }
    destruct (status reg); [..|done]; intros [= <- <-]; simpl; (split; [done|int_lia]).
Qed.
End RegistryProps.

(** ** The theorems on a concrete registry *)
Module RegistryExamples.
Import Params Evidence Registry RegistryProps.

Definition addr (b : Z) : Address := replicate 32 b.

(** A validator that also relays, and another validator. *)
Definition s0 : PermissionlessRegistry :=
  (register (register (register new (addr 1) VALIDATOR 5000 1).2 (addr 1) RELAYER 2000 1).2
    (addr 2) VALIDATOR 3000 1).2.

Definition double_sign : SlashingReport :=
  consensus_double_sign (addr 1) 10 [1] [2] [3] [4] None.

Definition s1 : PermissionlessRegistry := (slash_from_report s0 double_sign).2.

Lemma slash_from_report_exact_witness :
  is_actionable double_sign = Ok () ∧ provenance double_sign = ConsensusVerified ∧
  ∀ k, registrations s1 !! k =
    if decide (k.2 = addr 1)
    then slash_if (slash_ratio (params s0) DoubleSign) <$> registrations s0 !! k
    else registrations s0 !! k.
Proof.
  destruct (slash_from_report_exact s0 double_sign
    (Ok (Some {| out_condition := DoubleSign; out_penalty := 2500; out_remaining_stake := 2500 |}))
    s1) as (Hact & Hprov & _ & Hlook & _).
  - vm_compute. reflexivity.
  - split; [exact Hact|split; [exact Hprov|exact Hlook]].
Defined.

Lemma slashed_is_final_witness :
  withdraw (set_params s1 default_params) (addr 1) RELAYER 99 =
    (Err (NotActive (addr 1) RELAYER), set_params s1 default_params).
Proof.
  apply (slashed_is_final s1 (set_params s1 default_params) (addr 1) RELAYER
    {| account := addr 1; reg_role := RELAYER; stake := 1000; status := Slashed;
       registered_epoch := 1 |} 99 5000).
  - eapply run_step; [exact I|apply (step_set_params 7)|apply run_nil].
  - vm_compute. reflexivity.
  - reflexivity.
Defined.

Definition s2 : PermissionlessRegistry := (begin_unbonding s0 (addr 2) VALIDATOR 10).2.

Lemma unbonding_locks_bond_witness :
  ∃ reg, get s2 (addr 2) VALIDATOR = Some reg ∧
    (status reg = Unbonding 17 ∨ status reg = Slashed).
Proof.
  apply (unbonding_locks_bond s0 s2 s2 (addr 2) VALIDATOR 10 17).
  - vm_compute. reflexivity.
  - apply run_nil.
Defined.

Definition s3 : PermissionlessRegistry := (register new (addr 1) VALIDATOR 5000 1).2.

Lemma bonded_follows_calls_witness :
  bonded (begin_unbonding s3 (addr 1) VALIDATOR 4).2 = bonded s3.
Proof.
  refine (proj1 (proj2 (proj2
    (bonded_follows_calls s3 (addr 1) VALIDATOR 7 4 DoubleSign 500000 _ _ _)))).
  - intros k reg Hk.
    assert (registrations s3 =
      {[(VALIDATOR, addr 1) := fresh_registration (addr 1) VALIDATOR 5000 1]}) as Hs3
      by (vm_compute; reflexivity).
    rewrite Hs3 in Hk. apply lookup_singleton_Some in Hk as [_ <-].
    vm_compute. split; discriminate.
  - vm_compute. split; discriminate.
  - vm_compute. split; discriminate.
Defined.
End RegistryExamples.
