(* ===== verification/Constitution.v ===== *)
(** * The constitution and the encryption policy

    [src/core/constitution.rs], the registry of guardrails that governance
    may tune but not weaken, and the encryption policy of
    [src/pollen/data_rights.rs].

    The theorems: no sequence of updates changes a hard guardrail, the
    constitution root commits to every parameter, and a grant admitted under
    a policy respects the policy's ceiling. *)
From stdpp Require Import base tactics numbers list gmap strings sorting.
From Stdlib Require Import ZArith Lia.
From S2P Require Import Prelude Merkle Messages.

(** ** The constitution *)
Module Constitution.

Inductive ConstitutionParameterKey :=
  | AiReadRequiresPollenGrant
  | NoGovernanceReadOverride
  | PermissionlessCoreNoAdminWhitelist
  | PoaIslandIsolation
  | NoPrivateKeyCustody
  | EvidenceApisNoPlaintext
  | MaxEmergencyHaltEpochs
  | MinConstitutionProposalEpochs.

#[export] Instance key_eq_dec : EqDecision ConstitutionParameterKey.
Proof. solve_decision. Defined.

Definition is_hard_guardrail (k : ConstitutionParameterKey) : bool :=
  match k with
  | AiReadRequiresPollenGrant | NoGovernanceReadOverride
  | PermissionlessCoreNoAdminWhitelist | PoaIslandIsolation | NoPrivateKeyCustody
  | EvidenceApisNoPlaintext => true
  | MaxEmergencyHaltEpochs | MinConstitutionProposalEpochs => false
  end.

Definition tag (k : ConstitutionParameterKey) : Z :=
  match k with
  | AiReadRequiresPollenGrant => 1
  | NoGovernanceReadOverride => 2
  | PermissionlessCoreNoAdminWhitelist => 3
  | PoaIslandIsolation => 4
  | NoPrivateKeyCustody => 5
  | EvidenceApisNoPlaintext => 6
  | MaxEmergencyHaltEpochs => 7
  | MinConstitutionProposalEpochs => 8
  end.

Definition untag (t : Z) : option ConstitutionParameterKey :=
  match t with
  | 1 => Some AiReadRequiresPollenGrant
  | 2 => Some NoGovernanceReadOverride
  | 3 => Some PermissionlessCoreNoAdminWhitelist
  | 4 => Some PoaIslandIsolation
  | 5 => Some NoPrivateKeyCustody
  | 6 => Some EvidenceApisNoPlaintext
  | 7 => Some MaxEmergencyHaltEpochs
  | 8 => Some MinConstitutionProposalEpochs
  | _ => None
  end.

#[export] Instance key_countable : Countable ConstitutionParameterKey.
Proof. apply (inj_countable tag untag). by intros []. Defined.

(** The derived order is the declaration order, which the tags follow. *)
#[export] Instance key_ord : KeyOrd ConstitutionParameterKey := λ k1 k2, tag k1 <=? tag k2.

Inductive ConstitutionValue :=
  | CBool (b : bool)
  | CU64 (n : Z)
  | CHash (h : Hash32).

#[export] Instance value_eq_dec : EqDecision ConstitutionValue.
Proof. solve_decision. Defined.

Record ConstitutionParameter := {
  key : ConstitutionParameterKey;
  value : ConstitutionValue;
  effective_epoch : Z;
  rationale_hash : Hash32;
}.

Inductive ConstitutionError :=
  | GuardrailDisabled (k : ConstitutionParameterKey)
  | GuardrailNotBool (k : ConstitutionParameterKey)
  | GuardrailImmutable (k : ConstitutionParameterKey)
  | ValueOutOfRange (k : ConstitutionParameterKey)
  | ValueNotU64 (k : ConstitutionParameterKey)
  | ZeroRationale
  | MissingGuardrail (k : ConstitutionParameterKey).

Definition hard_default (k : ConstitutionParameterKey) : ConstitutionParameter :=
  {| key := k; value := CBool true; effective_epoch := 0; rationale_hash := zero32 |}.

Definition validate_value (p : ConstitutionParameter) : result ConstitutionError () :=
  match key p with
  | MaxEmergencyHaltEpochs =>
      match value p with
      | CU64 v => if (1 <=? v) && (v <=? 10080) then Ok () else Err (ValueOutOfRange (key p))
      | _ => Err (ValueNotU64 (key p))
      end
  | MinConstitutionProposalEpochs =>
      match value p with
      | CU64 v => if (10 <=? v) && (v <=? 100000) then Ok () else Err (ValueOutOfRange (key p))
      | _ => Err (ValueNotU64 (key p))
      end
  | _ =>
      match value p with
      | CBool true => Ok ()
      | CBool false => Err (GuardrailDisabled (key p))
      | _ => Err (GuardrailNotBool (key p))
      end
  end.

Definition validate_update (p : ConstitutionParameter) : result ConstitutionError () :=
  let? _ := validate_value p in
  if is_hard_guardrail (key p) then Err (GuardrailImmutable (key p))
  else if decide (rationale_hash p = zero32) then Err ZeroRationale
  else Ok ().

Definition hard_guardrails : list ConstitutionParameterKey :=
  [AiReadRequiresPollenGrant; NoGovernanceReadOverride; PermissionlessCoreNoAdminWhitelist;
   PoaIslandIsolation; NoPrivateKeyCustody; EvidenceApisNoPlaintext].

Abbreviation Parameters := (gmap ConstitutionParameterKey ConstitutionParameter).

Record ConstitutionRegistry := { parameters : Parameters }.

Definition new : ConstitutionRegistry :=
  let m : Parameters := fold_left (λ m k, <[k := hard_default k]> m) hard_guardrails ∅ in
  let m := <[MaxEmergencyHaltEpochs :=
    {| key := MaxEmergencyHaltEpochs; value := CU64 1440; effective_epoch := 0;
       rationale_hash := zero32 |}]> m in
  let m := <[MinConstitutionProposalEpochs :=
    {| key := MinConstitutionProposalEpochs; value := CU64 10; effective_epoch := 0;
       rationale_hash := zero32 |}]> m in
  {| parameters := m |}.

(** The [for key in [..]] loop of [assert_hard_guardrails]. *)
Fixpoint check_guardrails (m : Parameters) (ks : list ConstitutionParameterKey) :
    result ConstitutionError () :=
  match ks with
  | [] => Ok ()
  | k :: ks =>
      let? p := ok_or (m !! k) (MissingGuardrail k) in
      let? _ := validate_value p in
      check_guardrails m ks
  end.

Definition assert_hard_guardrails (r : ConstitutionRegistry) : result ConstitutionError () :=
  check_guardrails (parameters r) hard_guardrails.

Definition set_parameter (r : ConstitutionRegistry) (p : ConstitutionParameter) :
    result ConstitutionError () * ConstitutionRegistry :=
  let? _ := validate_update p at r in
  let r := {| parameters := <[key p := p]> (parameters r) |} in
  (assert_hard_guardrails r, r).

Definition get (r : ConstitutionRegistry) (k : ConstitutionParameterKey) :
    option ConstitutionParameter := parameters r !! k.

Definition hash_into (p : ConstitutionParameter) : bytes :=
  [tag (key p)] ++
  match value p with
  | CBool b => [1; if b then 1 else 0]
  | CU64 v => 2 :: le_bytes 8 v
  | CHash h => 3 :: h
  end ++
  le_bytes 8 (effective_epoch p) ++ rationale_hash p.

Definition root_preimage (r : ConstitutionRegistry) : bytes :=
  bstr "BDLM_CONSTITUTION_REGISTRY_V1" ++ concat (hash_into <$> btree_values (parameters r)).

Definition root `{Sha256} (r : ConstitutionRegistry) : Hash32 := sha256 (root_preimage r).

(** *** Guardrails *)
Inductive reachable : ConstitutionRegistry → Prop :=
  | reach_new : reachable new
  | reach_set r p : reachable r → reachable (set_parameter r p).2.

Record inv (r : ConstitutionRegistry) : Prop := {
  inv_key : ∀ k p, parameters r !! k = Some p → key p = k ∧ validate_value p = Ok ();
  inv_hard : ∀ k, is_hard_guardrail k = true → parameters r !! k = Some (hard_default k);
  inv_total : ∀ k, is_Some (parameters r !! k);
}.

Lemma constitution_new_inv : inv new.
Proof.
  split.
  - intros [] p Hp; vm_compute in Hp; simplify_eq; by vm_compute.
  - intros []; try done; intros _; vm_compute; reflexivity.
  - intros []; vm_compute; by eexists.
Qed.

Lemma set_parameter_spec r p :
  inv r →
  match validate_update p with
  | Err e => set_parameter r p = (Err e, r)
  | Ok _ => set_parameter r p = (Ok (), {| parameters := <[key p := p]> (parameters r) |}) ∧
            is_hard_guardrail (key p) = false ∧ validate_value p = Ok ()
  end.
Proof.
  intros [Hkey Hhard _]. unfold set_parameter.
  destruct (validate_update p) as [[]|e] eqn:Hu; [|done].
  unfold validate_update in Hu. destruct (validate_value p) as [[]|] eqn:Hv; [|done].
  destruct (is_hard_guardrail (key p)) eqn:Hg; [done|]. split; [|done].
  f_equal. unfold assert_hard_guardrails. cbn [parameters].
  assert (Forall (λ k, is_hard_guardrail k = true) hard_guardrails) as Hall
    by (repeat constructor).
  induction Hall as [|k ks Hk _ IH]; [done|]. cbn [check_guardrails].
  rewrite lookup_insert_ne by congruence. rewrite (Hhard k Hk). cbn [ok_or].
  destruct (Hkey k _ (Hhard k Hk)) as [_ ->]. exact IH.
Qed.

Lemma set_parameter_inv r p : inv r → inv (set_parameter r p).2.
Proof.
  intros IH. pose proof (set_parameter_spec r p IH) as Hs.
  destruct (validate_update p); [|by rewrite Hs].
  destruct Hs as (-> & Hg & Hv). destruct IH as [Hkey Hhard Htot].
  split; cbn [snd parameters]; intros k; rewrite lookup_insert; case_decide; subst; eauto.
  - intros ? [= <-]. done.
  - congruence.
Qed.

Lemma constitution_reachable_inv r : reachable r → inv r.
Proof. induction 1; [apply constitution_new_inv|by apply set_parameter_inv]. Qed.

(** No sequence of accepted or refused updates changes a hard guardrail:
    each keeps the value it was created with, every other parameter stays in
    its range, and the check run after each update succeeds. *)
Theorem guardrails_immutable r :
  reachable r →
  (∀ k, is_hard_guardrail k = true → get r k = Some (hard_default k)) ∧
  (∃ p, get r MaxEmergencyHaltEpochs = Some p ∧ ∃ n, value p = CU64 n ∧ 1 ≤ n ≤ 10080) ∧
  (∃ p, get r MinConstitutionProposalEpochs = Some p ∧
    ∃ n, value p = CU64 n ∧ 10 ≤ n ≤ 100000) ∧
  (∀ p, (set_parameter r p).1 = validate_update p).
Proof.
  intros Hr. pose proof (constitution_reachable_inv r Hr) as Hinv. pose proof Hinv as [Hkey Hhard Htot].
  assert (∀ k lo hi, get r k = parameters r !! k →
    (∀ p, key p = k → validate_value p = Ok () →
       ∃ n, value p = CU64 n ∧ lo ≤ n ≤ hi) →
    ∃ p, get r k = Some p ∧ ∃ n, value p = CU64 n ∧ lo ≤ n ≤ hi) as Hrange.
  { intros k lo hi Hg Hok. destruct (Htot k) as [p Hp]. exists p. rewrite Hg.
    split; [done|]. destruct (Hkey k p Hp). by apply Hok. }
  assert (∀ k lo hi p,
    match value p with
    | CU64 v => if (lo <=? v) && (v <=? hi) then Ok () else Err (ValueOutOfRange k)
    | _ => Err (ValueNotU64 k)
    end = Ok () → ∃ n, value p = CU64 n ∧ lo ≤ n ≤ hi) as Hval.
  { intros k lo hi p. destruct (value p) as [|v|]; [done| |done].
    destruct ((lo <=? v) && (v <=? hi)) eqn:?; [|done]. exists v. split; [done|lia]. }
  split_and!; [exact Hhard| | |].
  - apply Hrange; [done|]. intros p Hk. unfold validate_value. rewrite Hk. apply Hval.
  - apply Hrange; [done|]. intros p Hk. unfold validate_value. rewrite Hk. apply Hval.
  - intros p. pose proof (set_parameter_spec r p Hinv) as Hs.
    destruct (validate_update p) as [[]|]; [by destruct Hs as [-> _]|by rewrite Hs].
Qed.

Lemma guardrails_immutable_witness :
  let r := (set_parameter (set_parameter new
    {| key := NoPrivateKeyCustody; value := CBool false; effective_epoch := 3;
       rationale_hash := replicate 32 7 |}).2
    {| key := MaxEmergencyHaltEpochs; value := CU64 20; effective_epoch := 3;
       rationale_hash := replicate 32 7 |}).2 in
  get r NoPrivateKeyCustody = Some (hard_default NoPrivateKeyCustody).
Proof.
  intros r. refine (proj1 (guardrails_immutable r _) NoPrivateKeyCustody _); [|reflexivity].
  apply reach_set, reach_set, reach_new.
Defined.

(** *** The root *)
Definition value_wf (v : ConstitutionValue) : Prop :=
  match v with CBool _ => True | CU64 n => u64 n | CHash h => is_hash32 h end.

Definition param_wf (p : ConstitutionParameter) : Prop :=
  value_wf (value p) ∧ u64 (effective_epoch p) ∧ is_hash32 (rationale_hash p).

Definition registry_wf (r : ConstitutionRegistry) : Prop :=
  ∀ k p, parameters r !! k = Some p → key p = k ∧ param_wf p.

Lemma tag_inj k1 k2 : tag k1 = tag k2 → k1 = k2.
Proof. by destruct k1, k2. Qed.

(** The encoding of a parameter is self-delimiting. *)
Lemma hash_into_inj p q r s :
  param_wf p → param_wf q → hash_into p ++ r = hash_into q ++ s → p = q ∧ r = s.
Proof.
  intros (Hvp & Hep & Hrp) (Hvq & Heq & Hrq). unfold hash_into. rewrite <-!app_assoc.
  intros H. apply app_inj_1 in H as [Htag H]; [|done].
  injection Htag as Htag%tag_inj.
  assert (∀ l1 l2, le_bytes 8 (effective_epoch p) ++ rationale_hash p ++ l1 =
    le_bytes 8 (effective_epoch q) ++ rationale_hash q ++ l2 →
    effective_epoch p = effective_epoch q ∧ rationale_hash p = rationale_hash q ∧ l1 = l2)
    as Htail.
  { intros l1 l2 Hl. apply app_inj_1 in Hl as [He Hl]; [|by rewrite !length_le_bytes].
    apply app_inj_1 in Hl as [Hh Hl]; [|by rewrite Hrp, Hrq].
    split; [by apply le_bytes8_inj|done]. }
  destruct p as [kp vp ep rp], q as [kq vq eq rq]; cbn in *. subst kq.
  destruct vp as [b1|n1|h1], vq as [b2|n2|h2]; try done.
  - assert (b1 = b2) as -> by (apply (f_equal (λ l, l !! 1%nat)) in H; by destruct b1, b2).
    apply (app_inv_head [1; _]), Htail in H as (-> & -> & ->). done.
  - apply (f_equal tail) in H. cbn [tail app] in H.
    apply app_inj_1 in H as [Hn H]; [|by rewrite !length_le_bytes].
    apply le_bytes8_inj in Hn as ->; [|done..]. by apply Htail in H as (-> & -> & ->).
  - apply (f_equal tail) in H. cbn [tail app] in H.
    apply app_inj_1 in H as [-> H]; [|by rewrite Hvp, Hvq].
    by apply Htail in H as (-> & -> & ->).
Qed.

Lemma concat_hash_into_inj ps qs :
  Forall param_wf ps → Forall param_wf qs →
  concat (hash_into <$> ps) = concat (hash_into <$> qs) → ps = qs.
Proof.
  intros Hps. revert qs. induction Hps as [|p ps Hp _ IH]; intros qs Hqs.
  - destruct Hqs as [|q qs]; [done|]. discriminate.
  - destruct Hqs as [|q qs Hq Hqs]; [discriminate|]. cbn [fmap list_fmap concat].
    intros [<- H]%hash_into_inj; [|done..]. f_equal. by apply IH.
Qed.

(** Two constitutions with the same root have the same parameters,
    provided the hash does not collide on the two encodings that were
    hashed. *)
Theorem constitution_root_binding `{Sha256} r1 r2 :
  registry_wf r1 → registry_wf r2 →
  collision_free [root_preimage r1; root_preimage r2] →
  root r1 = root r2 → r1 = r2.
Proof.
  intros H1 H2 Hcf Hr. apply Hcf in Hr; [|set_solver..]. unfold root_preimage in Hr.
  apply app_inv_head in Hr.
  assert (∀ r, registry_wf r → Forall param_wf (btree_values (parameters r))) as Hwf.
  { intros r Hw. apply Forall_forall. intros p [k Hk]%elem_of_btree_values.
    by apply (Hw k p). }
  apply concat_hash_into_inj in Hr; [|by apply Hwf..].
  assert (∀ r, registry_wf r →
    btree_list (parameters r) = (λ p, (key p, p)) <$> btree_values (parameters r)) as Hlist.
  { intros r Hw. unfold btree_values. rewrite <-list_fmap_compose.
    rewrite <-(list_fmap_id (btree_list (parameters r))) at 1.
    apply list_fmap_ext. intros i [k p] Hi. cbn. f_equal.
    symmetry. apply (Hw k p). apply elem_of_btree_list. by eapply list_elem_of_lookup_2. }
  apply Hlist in H1, H2. rewrite Hr, <-H2 in H1. apply btree_list_inj in H1.
  destruct r1, r2. cbn in H1. by subst.
Qed.

(** Two update histories that end in the same constitution. *)
Definition halt_cap (n : Z) : ConstitutionParameter :=
  {| key := MaxEmergencyHaltEpochs; value := CU64 n; effective_epoch := 3;
     rationale_hash := replicate 32 7 |}.

Definition capped_once : ConstitutionRegistry :=
  Eval vm_compute in (set_parameter new (halt_cap 20)).2.

Definition capped_twice : ConstitutionRegistry :=
  Eval vm_compute in (set_parameter (set_parameter new (halt_cap 99)).2 (halt_cap 20)).2.

Lemma constitution_root_binding_witness : capped_once = capped_twice.
Proof.
  apply (constitution_root_binding (H := poly_sha256)).
  1,2: intros [] p Hp; vm_compute in Hp; simplify_eq; (split; [done|]);
    (split; [|split]); vm_compute; repeat split; discriminate.
  - apply collision_freeb_spec. vm_compute. reflexivity.
  - vm_compute. reflexivity.
Defined.
End Constitution.

(** ** The encryption policy *)
Module Policy.

Record EncryptionPolicy := {
  version : Z;
  hpke_suite_id : Z;
  min_public_key_bytes : Z;
  max_grant_duration_blocks : Z;
  deprecated_after_block : option Z;
  active : bool;
}.

Inductive PolicyError :=
  | ZeroVersion
  | ZeroSuite
  | KeyTooShort
  | ZeroGrantDuration
  | ZeroDeprecation
  | PolicyInactive
  | PolicyDeprecated
  | GrantTooLong.

Definition validate (p : EncryptionPolicy) : result PolicyError () :=
  if version p =? 0 then Err ZeroVersion
  else if hpke_suite_id p =? 0 then Err ZeroSuite
  else if min_public_key_bytes p <? 32 then Err KeyTooShort
  else if max_grant_duration_blocks p =? 0 then Err ZeroGrantDuration
  else match deprecated_after_block p with
       | Some deprecated => if deprecated =? 0 then Err ZeroDeprecation else Ok ()
       | None => Ok ()
       end.

Definition check_grant_duration (p : EncryptionPolicy) (issued_at_block expires_at_block : Z) :
    result PolicyError () :=
  if negb (active p) then Err PolicyInactive
  else
    let? _ := match deprecated_after_block p with
              | Some deprecated =>
                  if deprecated <=? issued_at_block then Err PolicyDeprecated else Ok ()
              | None => Ok ()
              end in
    let requested := sat_sub expires_at_block issued_at_block in
    if max_grant_duration_blocks p <? requested then Err GrantTooLong else Ok ().

(** A grant is admitted under a policy exactly when the policy is active,
    was not deprecated at the block of issue, and the grant does not outlast
    the ceiling; an inverted range is admitted. *)
Theorem check_grant_duration_exact p issued expires :
  u64 (max_grant_duration_blocks p) →
  check_grant_duration p issued expires = Ok () ↔
  active p = true ∧
  (∀ d, deprecated_after_block p = Some d → issued < d) ∧
  expires ≤ issued + max_grant_duration_blocks p.
Proof.
  intros Hmax. unfold check_grant_duration, u64, sat_sub in *.
  assert ((if max_grant_duration_blocks p <? Z.max (expires - issued) 0
           then Err GrantTooLong else Ok ()) = Ok () ↔
          expires ≤ issued + max_grant_duration_blocks p) as Hlen.
  { destruct (Z.ltb_spec (max_grant_duration_blocks p) (Z.max (expires - issued) 0));
      split; (done || lia). }
  destruct (active p); cbn [negb]; [|naive_solver].
  destruct (deprecated_after_block p) as [d|]; [|naive_solver].
  destruct (Z.leb_spec d issued); [|rewrite Hlen; naive_solver lia].
  split; [done|]. intros (_ & Hd & _). specialize (Hd d eq_refl). lia.
Qed.

Lemma check_grant_duration_exact_witness :
  let p := {| version := 1; hpke_suite_id := 1; min_public_key_bytes := 32;
              max_grant_duration_blocks := 100; deprecated_after_block := Some 50;
              active := true |} in
  check_grant_duration p 49 149 = Ok () ∧ ¬ check_grant_duration p 50 60 = Ok () ∧
  check_grant_duration p 49 10 = Ok ().
Proof.
  intros p. assert (u64 (max_grant_duration_blocks p)) as Hp by (split; vm_compute; discriminate).
  split; [|split].
  - apply (check_grant_duration_exact p 49 149 Hp). cbn. split_and!; naive_solver lia.
  - intros Hok%(check_grant_duration_exact p 50 60 Hp). cbn in Hok.
    destruct Hok as (_ & Hd & _). specialize (Hd 50 eq_refl). lia.
  - apply (check_grant_duration_exact p 49 10 Hp). cbn. split_and!; naive_solver lia.
Defined.
End Policy.
