(* ===== verification/Governance.v ===== *)
(** * Governance

    [src/core/governance.rs], with the parts of [src/core/account.rs] and
    [src/execution/executor.rs] that finalise proposals and apply them.

    [Update] is the parsing and validation of parameter updates, [Governance]
    proposals, votes and their lifecycle, [Host] the slice of the account
    state the applied proposals write, with [execute_proposal], the proposal
    loop of [advance_epoch] and the action loop of the block executor.
    Transactions reach the lifecycle through the step relation of
    [GovernanceRun].  The governance root goes through [bincode] and is not
    modelled.

    The theorems: tallies are exactly the weights of the recorded votes, an
    identifier names one proposal for ever, a proposal takes effect only
    after its voting window and its activation delay, with quorum and a
    majority, and at most once; an accepted parameter update always applies
    and leaves parameters that validate. *)
From stdpp Require Import base tactics numbers list gmap strings sorting.
From Stdlib Require Import ZArith Lia Ascii.
From S2P Require Import Prelude Merkle Messages Economics Registry Constitution.
Import Params.

(** ** Parameter updates *)
Module Update.

(** [u64::from_str]: an optional [+], then decimal digits, with a checked
    multiplication and addition per digit. *)
Definition digit (c : ascii) : option Z :=
  let n := Z.of_N (N_of_ascii c) - 48 in
  if (0 <=? n) && (n <=? 9) then Some n else None.

Fixpoint parse_digits (acc : Z) (cs : list ascii) : option Z :=
  match cs with
  | [] => Some acc
  | c :: cs =>
      d ← digit c;
      if 10 * acc <=? u64_max then
        acc ← u64_checked_add (10 * acc) d; parse_digits acc cs
      else None
  end.

Definition parse_u64 (s : string) : option Z :=
  match String.list_ascii_of_string s with
  | [] => None
  | c :: cs =>
      if Ascii.eqb c "+"%char then (if cs is [] then None else parse_digits 0 cs)
      else parse_digits 0 (c :: cs)
  end.

Inductive UpdateError :=
  | NotWhitelisted (key : string)
  | InvalidNumber (key : string)
  | InvalidBool (key : string)
  | NoArm (key : string)
  | OutOfBounds (e : ParamsError).

Definition GOVERNANCE_PARAMETER_WHITELIST : list string :=
  ["min_stake"; "unbonding_epochs"; "double_sign_slash_ratio_fixed";
   "liveness_slash_ratio_fixed"; "malicious_slash_ratio_fixed"; "bridge_relayer_fee_ppm";
   "bridge_relayer_min_fee"; "max_invalid_votes_per_epoch"; "transfer_fee_ppm";
   "swap_fee_ppm"; "bridge_fee_ppm"; "ai_model_register_fee";
   "liveness_slashing_enabled"]%string.

Definition is_governance_parameter_whitelisted (key : string) : bool :=
  bool_decide (key ∈ GOVERNANCE_PARAMETER_WHITELIST).

Definition parse_governance_bool (key value : string) : result UpdateError bool :=
  if (value =? "true")%string then Ok true
  else if (value =? "false")%string then Ok false
  else Err (InvalidBool key).

(** The names that have an arm assigning a parsed [u64]. *)
Definition u64_keys : list string :=
  ["min_stake"; "unbonding_epochs"; "double_sign_slash_ratio_fixed";
   "liveness_slash_ratio_fixed"; "bridge_relayer_fee_ppm"; "bridge_relayer_min_fee";
   "max_invalid_votes_per_epoch"; "transfer_fee_ppm"; "swap_fee_ppm"; "bridge_fee_ppm";
   "malicious_slash_ratio_fixed"; "ai_model_register_fee"]%string.

(** The assignment of the arm selected by [key]. *)
Definition assign_field (key : string) (v : Z) (name : string) (old : Z) : Z :=
  if (key =? name)%string then v else old.
Arguments assign_field : simpl never.

Definition assign_u64 (p : RegistryParams) (key : string) (v : Z) : RegistryParams :=
  let pick := assign_field key v in
  {| min_stake := pick "min_stake"%string (min_stake p);
     unbonding_epochs := pick "unbonding_epochs"%string (unbonding_epochs p);
     double_sign_slash_ratio_fixed :=
       pick "double_sign_slash_ratio_fixed"%string (double_sign_slash_ratio_fixed p);
     liveness_slash_ratio_fixed :=
       pick "liveness_slash_ratio_fixed"%string (liveness_slash_ratio_fixed p);
     malicious_slash_ratio_fixed :=
       pick "malicious_slash_ratio_fixed"%string (malicious_slash_ratio_fixed p);
     liveness_max_missed_epochs := liveness_max_missed_epochs p;
     slashing_report_fee := slashing_report_fee p;
     proof_submission_fee := proof_submission_fee p;
     ai_model_register_fee := pick "ai_model_register_fee"%string (ai_model_register_fee p);
     prover_reward := prover_reward p;
     max_invalid_votes_per_epoch :=
       pick "max_invalid_votes_per_epoch"%string (max_invalid_votes_per_epoch p);
     liveness_slashing_enabled := liveness_slashing_enabled p;
     bridge_relayer_fee_ppm := pick "bridge_relayer_fee_ppm"%string (bridge_relayer_fee_ppm p);
     bridge_relayer_min_fee := pick "bridge_relayer_min_fee"%string (bridge_relayer_min_fee p);
     transfer_fee_ppm := pick "transfer_fee_ppm"%string (transfer_fee_ppm p);
     swap_fee_ppm := pick "swap_fee_ppm"%string (swap_fee_ppm p);
     bridge_fee_ppm := pick "bridge_fee_ppm"%string (bridge_fee_ppm p) |}.

Definition assign_switch (p : RegistryParams) (b : bool) : RegistryParams :=
  {| min_stake := min_stake p; unbonding_epochs := unbonding_epochs p;
     double_sign_slash_ratio_fixed := double_sign_slash_ratio_fixed p;
     liveness_slash_ratio_fixed := liveness_slash_ratio_fixed p;
     malicious_slash_ratio_fixed := malicious_slash_ratio_fixed p;
     liveness_max_missed_epochs := liveness_max_missed_epochs p;
     slashing_report_fee := slashing_report_fee p;
     proof_submission_fee := proof_submission_fee p;
     ai_model_register_fee := ai_model_register_fee p; prover_reward := prover_reward p;
     max_invalid_votes_per_epoch := max_invalid_votes_per_epoch p;
     liveness_slashing_enabled := b;
     bridge_relayer_fee_ppm := bridge_relayer_fee_ppm p;
     bridge_relayer_min_fee := bridge_relayer_min_fee p;
     transfer_fee_ppm := transfer_fee_ppm p; swap_fee_ppm := swap_fee_ppm p;
     bridge_fee_ppm := bridge_fee_ppm p |}.

(** The [match key] both callers share. *)
Definition assign (p : RegistryParams) (key value : string) : result UpdateError RegistryParams :=
  if bool_decide (key ∈ u64_keys) then
    let? v := ok_or (parse_u64 value) (InvalidNumber key) in Ok (assign_u64 p key v)
  else if (key =? "liveness_slashing_enabled")%string then
    let? b := parse_governance_bool key value in Ok (assign_switch p b)
  else Err (NoArm key).

Definition validate_governance_parameter_update (key value : string) : result UpdateError () :=
  if negb (is_governance_parameter_whitelisted key) then Err (NotWhitelisted key)
  else
    let? p := assign default_params key value in
    result_map_err OutOfBounds (validate p).

(** [AccountState::apply_registry_parameter_update]. *)
Definition apply_registry_parameter_update (r : Registry.PermissionlessRegistry)
    (key value : string) : result UpdateError () * Registry.PermissionlessRegistry :=
  let? p := assign (Registry.params r) key value at r in
  let? _ := result_map_err OutOfBounds (validate p) at r in
  (Ok (), Registry.set_params r p).
(** [validate] bounds each field on its own. *)
Definition bounded (p : RegistryParams) : Prop :=
  100 ≤ min_stake p ∧ (unbonding_epochs p ≠ 0 ∧ unbonding_epochs p ≤ 100000) ∧
  double_sign_slash_ratio_fixed p ≤ FIXED_POINT_SCALE ∧
  liveness_slash_ratio_fixed p ≤ FIXED_POINT_SCALE ∧
  malicious_slash_ratio_fixed p ≤ FIXED_POINT_SCALE ∧
  bridge_relayer_fee_ppm p < PPM_DENOMINATOR ∧ transfer_fee_ppm p < PPM_DENOMINATOR ∧
  swap_fee_ppm p < PPM_DENOMINATOR ∧ bridge_fee_ppm p < PPM_DENOMINATOR ∧
  max_invalid_votes_per_epoch p ≤ 100000.

Lemma validate_bounded p : validate p = Ok () ↔ bounded p.
Proof.
  split.
  - intros (? & ? & ? & Hr & ?)%validate_ok. unfold bounded.
    pose proof (Hr DoubleSign). pose proof (Hr LivenessFault). pose proof (Hr MaliciousBehaviour).
    simpl in *. split_and!; lia.
  - intros (? & [? ?] & ? & ? & ? & ? & ? & ? & ? & ?). unfold validate, check_rates.
    repeat match goal with
    | |- context [if ?b then _ else _] => replace b with false by lia
    end. done.
Qed.

Lemma assign_bounded p key value :
  bounded p →
  match assign default_params key value with
  | Ok q => bounded q → ∃ q', assign p key value = Ok q' ∧ bounded q'
  | Err e => assign p key value = Err e
  end.
Proof.
  intros Hp. unfold assign. case_bool_decide.
  - destruct (parse_u64 value) as [v|]; [|done]. cbn [ok_or]. intros Hq.
    eexists. split; [done|]. unfold bounded in *. cbn in Hq |- *.
    destruct_and?. split_and!;
      match goal with
      | |- context [assign_field key v ?n _] =>
          unfold assign_field in *; by destruct (key =? n)%string
      end.
  - destruct (key =? _)%string; [|done].
    destruct (parse_governance_bool key value); [|done]. eauto.
Qed.

Lemma whitelist_arm p key value :
  key ∈ GOVERNANCE_PARAMETER_WHITELIST → assign p key value ≠ Err (NoArm key).
Proof.
  assert (Forall (λ k, k ∈ u64_keys ∨ k = "liveness_slashing_enabled"%string)
    GOVERNANCE_PARAMETER_WHITELIST) as Hall by (apply (bool_decide_unpack _); by vm_compute).
  rewrite Forall_forall in Hall. intros Hin%Hall. unfold assign. case_bool_decide.
  - by destruct (parse_u64 value).
  - destruct Hin as [?| ->]; [done|]. cbn. unfold parse_governance_bool.
    destruct (value =? "true")%string; [done|].
    by destruct (value =? "false")%string.
Qed.

(** A parameter update is admitted only for a whitelisted name, every
    whitelisted name has an arm, and an update admitted when it was proposed
    is applied when it is executed, whatever valid parameters are in force
    then, and leaves valid parameters. *)
Theorem accepted_update_applies key value r :
  validate (Registry.params r) = Ok () →
  (validate_governance_parameter_update key value = Ok () →
   key ∈ GOVERNANCE_PARAMETER_WHITELIST ∧
   ∃ p, assign (Registry.params r) key value = Ok p ∧ validate p = Ok () ∧
        apply_registry_parameter_update r key value = (Ok (), Registry.set_params r p)) ∧
  (key ∈ GOVERNANCE_PARAMETER_WHITELIST →
   validate_governance_parameter_update key value ≠ Err (NoArm key)) ∧
  validate (Registry.params (apply_registry_parameter_update r key value).2) = Ok ().
Proof.
  intros Hr. pose proof (assign_bounded _ key value (proj1 (validate_bounded _) Hr)) as Ha.
  unfold validate_governance_parameter_update, is_governance_parameter_whitelisted.
  split_and!.
  - case_bool_decide; [|done]. cbn [negb].
    destruct (assign default_params key value) as [q|]; [|done].
    destruct (validate q) as [[]|] eqn:Hq; [|done].
    apply validate_bounded in Hq. destruct (Ha Hq) as (p & Hp & Hb%validate_bounded).
    intros _. split; [done|]. exists p. split_and!; [done..|].
    unfold apply_registry_parameter_update. rewrite Hp. by rewrite Hb.
  - intros Hin. rewrite bool_decide_true by done. cbn [negb].
    destruct (assign default_params key value) as [q|e] eqn:Hq.
    + unfold result_map_err. by destruct (validate q).
    + intros [= ->]. by apply (whitelist_arm default_params key value) in Hin.
  - unfold apply_registry_parameter_update.
    destruct (assign (Registry.params r) key value) as [p|]; [|done].
    by destruct (validate p) as [[]|] eqn:Hp.
Qed.

Lemma accepted_update_applies_witness :
  let r := Registry.new in
  (apply_registry_parameter_update r "unbonding_epochs" "+14").1 = Ok () ∧
  unbonding_epochs (Registry.params
    (apply_registry_parameter_update r "unbonding_epochs" "+14").2) = 14.
Proof.
  intros r. destruct (accepted_update_applies "unbonding_epochs" "+14" r) as [H _];
    [vm_compute; reflexivity|].
  destruct H as (_ & p & Hp & _ & ->); [vm_compute; reflexivity|].
  split; [reflexivity|]. vm_compute in Hp. injection Hp as <-. reflexivity.
Defined.
End Update.
Import Update.

(** ** Proposals *)
Module Governance.

Definition GOVERNANCE_PARAMETER_ACTIVATION_DELAY_EPOCHS : Z := 10.
Definition GOVERNANCE_POLICY_ACTIVATION_DELAY_EPOCHS : Z := 20.
Definition GOVERNANCE_TARGETED_ACTION_DELAY_EPOCHS : Z := 5.

Inductive ProposalType :=
  | ChangeBaseFee (fee : Z)
  | ChangeBlockReward (reward : Z)
  | SlashValidator (address : Address) (evidence_hash : Hash32)
  | ParameterUpdate (key value : string)
  | WhitelistVerifier (address : Address)
  | DewhitelistVerifier (address : Address)
  | SetEncryptionPolicy (policy : Policy.EncryptionPolicy)
  | SetConstitutionParameter (parameter : Constitution.ConstitutionParameter)
  | VerifyHubApp (app_id : Z) (developer : Address) (manifest_id : option Hash32)
      (website_url_hash : Hash32)
  | UnfreezeConsensusDomain (domain_id : DomainId) (expected_validator_set_hash : Hash32)
      (justification_hash : Hash32).

Definition activation_delay_epochs (t : ProposalType) : Z :=
  match t with
  | ChangeBaseFee _ | ChangeBlockReward _ | ParameterUpdate _ _ =>
      GOVERNANCE_PARAMETER_ACTIVATION_DELAY_EPOCHS
  | VerifyHubApp _ _ _ _ | SetEncryptionPolicy _ | SetConstitutionParameter _
  | UnfreezeConsensusDomain _ _ _ => GOVERNANCE_POLICY_ACTIVATION_DELAY_EPOCHS
  | SlashValidator _ _ | WhitelistVerifier _ | DewhitelistVerifier _ =>
      GOVERNANCE_TARGETED_ACTION_DELAY_EPOCHS
  end.

Inductive ProposalStatus := Active | Passed | Failed | Executed.

#[export] Instance ProposalStatus_eq_dec : EqDecision ProposalStatus.
Proof. solve_decision. Defined.

Record Proposal := {
  id : Z;
  proposer : Address;
  p_type : ProposalType;
  start_epoch : Z;
  end_epoch : Z;
  votes_for : Z;
  votes_against : Z;
  status : ProposalStatus;
  voters : gmap Address bool;
  voter_weights : gmap Address Z;
  activation_epoch_field : option Z;
}.

Definition with_votes (p : Proposal) (f a : Z) (vs : gmap Address bool) (ws : gmap Address Z) :
    Proposal :=
  {| id := id p; proposer := proposer p; p_type := p_type p; start_epoch := start_epoch p;
     end_epoch := end_epoch p; votes_for := f; votes_against := a; status := status p;
     voters := vs; voter_weights := ws; activation_epoch_field := activation_epoch_field p |}.

Definition with_status (p : Proposal) (st : ProposalStatus) : Proposal :=
  {| id := id p; proposer := proposer p; p_type := p_type p; start_epoch := start_epoch p;
     end_epoch := end_epoch p; votes_for := votes_for p; votes_against := votes_against p;
     status := st; voters := voters p; voter_weights := voter_weights p;
     activation_epoch_field := activation_epoch_field p |}.

Definition with_activation (p : Proposal) (e : option Z) : Proposal :=
  {| id := id p; proposer := proposer p; p_type := p_type p; start_epoch := start_epoch p;
     end_epoch := end_epoch p; votes_for := votes_for p; votes_against := votes_against p;
     status := status p; voters := voters p; voter_weights := voter_weights p;
     activation_epoch_field := e |}.

Inductive GovernanceError :=
  | NotActive
  | VotingEnded
  | AlreadyVoted
  | BadUpdate (e : UpdateError)
  | BadPolicy (e : Policy.PolicyError)
  | BadConstitution (e : Constitution.ConstitutionError)
  | ReservedDomain
  | ZeroValidatorSetHash
  | ZeroJustification
  | BadDuration
  | TooManyActive
  | EndEpochOverflow
  | ActivationOverflow
  | NotFound
  | NotProposer.

(** [Proposal::new]; its only caller has checked that the sum fits. *)
Definition proposal_new (i : Z) (who : Address) (t : ProposalType) (start duration : Z) :
    Proposal :=
  {| id := i; proposer := who; p_type := t; start_epoch := start;
     end_epoch := start + duration; votes_for := 0; votes_against := 0; status := Active;
     voters := ∅; voter_weights := ∅; activation_epoch_field := None |}.

Definition activation_epoch (p : Proposal) : Z := default (end_epoch p) (activation_epoch_field p).

Definition activation_ready (p : Proposal) (current_epoch : Z) : bool :=
  activation_epoch p <=? current_epoch.

Definition add_vote (p : Proposal) (voter : Address) (stake : Z) (vote_for : bool)
    (current_epoch : Z) : result GovernanceError () * Proposal :=
  if negb (bool_decide (status p = Active)) then (Err NotActive, p)
  else if end_epoch p <=? current_epoch then (Err VotingEnded, p)
  else if bool_decide (is_Some (voters p !! voter)) then (Err AlreadyVoted, p)
  else
    (Ok (), with_votes p
      (if vote_for then u64_sat_add (votes_for p) stake else votes_for p)
      (if vote_for then votes_against p else u64_sat_add (votes_against p) stake)
      (<[voter := vote_for]> (voters p)) (<[voter := stake]> (voter_weights p))).

Definition vote_weight_of (p : Proposal) (voter : Address) : Z :=
  default 0 (voter_weights p !! voter).

Definition reduce_vote_weight (p : Proposal) (voter : Address) (reduction : Z) : Proposal :=
  match (voters p !! voter : option bool) with
  | None => p
  | Some vote_for =>
      let current := default 0 (voter_weights p !! voter) in
      let applied := Z.min current reduction in
      if applied =? 0 then p
      else
        with_votes p
          (if vote_for then sat_sub (votes_for p) applied else votes_for p)
          (if vote_for then votes_against p else sat_sub (votes_against p) applied)
          (voters p) (<[voter := sat_sub current applied]> (voter_weights p))
  end.

Definition finalize (p : Proposal) (total_stake quorum_pct current_epoch : Z) : Proposal :=
  if negb (bool_decide (status p = Active)) then p
  else if current_epoch <? end_epoch p then p
  else
    let total_votes := votes_for p + votes_against p in
    let quorum_threshold := total_stake * quorum_pct in
    let reached_quorum := quorum_threshold <=? total_votes * 100 in
    if reached_quorum && (votes_against p <? votes_for p) then with_status p Passed
    else with_status p Failed.

Record GovernanceState := {
  proposals : list Proposal;
  next_proposal_id : Z;
  constitution : Constitution.ConstitutionRegistry;
  proposer_epoch_count : gmap (Address * Z) Z;
}.

Definition with_proposals (s : GovernanceState) (ps : list Proposal) : GovernanceState :=
  {| proposals := ps; next_proposal_id := next_proposal_id s; constitution := constitution s;
     proposer_epoch_count := proposer_epoch_count s |}.

Definition with_constitution (s : GovernanceState) c : GovernanceState :=
  {| proposals := proposals s; next_proposal_id := next_proposal_id s; constitution := c;
     proposer_epoch_count := proposer_epoch_count s |}.

Definition state_default : GovernanceState :=
  {| proposals := []; next_proposal_id := 0; constitution := Constitution.new;
     proposer_epoch_count := ∅ |}.

(** The [match &p_type] at the top of [create_proposal]. *)
Definition check_type (t : ProposalType) : result GovernanceError () :=
  match t with
  | ParameterUpdate key value =>
      result_map_err BadUpdate (validate_governance_parameter_update key value)
  | SetEncryptionPolicy policy => result_map_err BadPolicy (Policy.validate policy)
  | SetConstitutionParameter parameter =>
      result_map_err BadConstitution (Constitution.validate_update parameter)
  | UnfreezeConsensusDomain domain_id expected justification =>
      if domain_id =? 0 then Err ReservedDomain
      else if bool_decide (expected = zero32) then Err ZeroValidatorSetHash
      else if bool_decide (justification = zero32) then Err ZeroJustification
      else Ok ()
  | _ => Ok ()
  end.

Definition MIN_PROPOSAL_DURATION : Z := 10.
Definition MAX_PROPOSAL_DURATION : Z := 100000.
Definition MAX_ACTIVE_PROPOSALS : nat := 100.

Definition active_proposals (s : GovernanceState) : list Proposal :=
  filter (λ p, status p = Active) (proposals s).

(** [None] when one of the two counters overflows, which stops the node. *)
Definition create_proposal (s : GovernanceState) (who : Address) (t : ProposalType)
    (current_epoch duration : Z) : option (result GovernanceError Z * GovernanceState) :=
  match check_type t with
  | Err e => Some (Err e, s)
  | Ok _ =>
      if negb ((MIN_PROPOSAL_DURATION <=? duration) && (duration <=? MAX_PROPOSAL_DURATION))
      then Some (Err BadDuration, s)
      else if (MAX_ACTIVE_PROPOSALS <=? length (active_proposals s))%nat
      then Some (Err TooManyActive, s)
      else
        let counts := filter (λ kv, current_epoch ≤ kv.1.2) (proposer_epoch_count s) in
        let s := {| proposals := proposals s; next_proposal_id := next_proposal_id s;
                    constitution := constitution s; proposer_epoch_count := counts |} in
        match u64_checked_add current_epoch duration with
        | None => Some (Err EndEpochOverflow, s)
        | Some end_epoch =>
            let i := next_proposal_id s in
            let proposal := proposal_new i who t current_epoch duration in
            match u64_checked_add end_epoch (activation_delay_epochs t) with
            | None => Some (Err ActivationOverflow, s)
            | Some activation =>
                next ← u64_checked_add i 1;
                count ← u64_checked_add (default 0 (counts !! (who, current_epoch))) 1;
                Some (Ok i,
                  {| proposals := proposals s ++ [with_activation proposal (Some activation)];
                     next_proposal_id := next;
                     constitution := constitution s;
                     proposer_epoch_count := <[(who, current_epoch) := count]> counts |})
            end
        end
  end.

(** [find_proposal_mut], as the update through the reference it returns. *)
Fixpoint update_proposal (ps : list Proposal) (i : Z) (f : Proposal → Proposal) :
    list Proposal :=
  match ps with
  | [] => []
  | p :: ps => if id p =? i then f p :: ps else p :: update_proposal ps i f
  end.

Definition find_proposal (ps : list Proposal) (i : Z) : option Proposal :=
  snd <$> list_find (λ p, id p = i) ps.

(** [1u64.checked_shl] is [None] for shifts of 64 and more. *)
Definition proposal_fee_multiplier (s : GovernanceState) (who : Address) (current_epoch : Z) : Z :=
  let count := default 0 (proposer_epoch_count s !! (who, current_epoch)) in
  if (count <=? u32_max) && (count <? 64) then 2 ^ count else u64_max.

Definition cancel_proposal (s : GovernanceState) (i : Z) (caller : Address) :
    result GovernanceError () * GovernanceState :=
  match find_proposal (proposals s) i with
  | None => (Err NotFound, s)
  | Some p =>
      if negb (bool_decide (proposer p = caller)) then (Err NotProposer, s)
      else if negb (bool_decide (status p = Active)) then (Err NotActive, s)
      else (Ok (), with_proposals s
                     (update_proposal (proposals s) i (λ p, with_status p Failed)))
  end.

Inductive GovernanceAction :=
  | AWhitelistVerifier (address : Address)
  | ADewhitelistVerifier (address : Address)
  | ASetEncryptionPolicy (policy : Policy.EncryptionPolicy)
  | ASetConstitutionParameter (parameter : Constitution.ConstitutionParameter)
  | AVerifyHubApp (app_id : Z)
  | AUnfreezeConsensusDomain (domain_id : DomainId) (expected_validator_set_hash : Hash32)
      (justification_hash : Hash32).

(** The [match &proposal.p_type] of [execute_passed_proposals]. *)
Definition action_of (t : ProposalType) : option GovernanceAction :=
  match t with
  | WhitelistVerifier a => Some (AWhitelistVerifier a)
  | DewhitelistVerifier a => Some (ADewhitelistVerifier a)
  | SetEncryptionPolicy policy => Some (ASetEncryptionPolicy policy)
  | SetConstitutionParameter parameter => Some (ASetConstitutionParameter parameter)
  | UnfreezeConsensusDomain d e j => Some (AUnfreezeConsensusDomain d e j)
  | ChangeBaseFee _ | ChangeBlockReward _ | SlashValidator _ _ | ParameterUpdate _ _
  | VerifyHubApp _ _ _ _ => None
  end.

Definition is_passed_and_ready (current_epoch : Z) (p : Proposal) : bool :=
  bool_decide (status p = Passed) && activation_ready p current_epoch.

Fixpoint execute_passed_loop (ps : list Proposal) (current_epoch : Z) :
    list GovernanceAction * list Proposal :=
  match ps with
  | [] => ([], [])
  | p :: ps =>
      let '(actions, rest) := execute_passed_loop ps current_epoch in
      if is_passed_and_ready current_epoch p then
        match action_of (p_type p) with
        | Some a => (a :: actions, with_status p Executed :: rest)
        | None => (actions, p :: rest)
        end
      else (actions, p :: rest)
  end.

Definition execute_passed_proposals (s : GovernanceState) (current_epoch : Z) :
    list GovernanceAction * GovernanceState :=
  let '(actions, ps) := execute_passed_loop (proposals s) current_epoch in
  (actions, with_proposals s ps).
End Governance.
Import Governance.

(** ** Applying proposals

    The slice of [AccountState] that applied proposals read and write. *)
Module Host.

Definition MIN_TX_FEE : Z := 1.
Definition MAX_BASE_FEE : Z := 1000000.

(** A validator without its key material: [consensus_ready] stands for
    [is_consensus_ready()], which reads the registered keys only. *)
Record Validator := {
  stake : Z;
  active : bool;
  slashed : bool;
  jailed : bool;
  jail_until : Z;
  consensus_ready : bool;
}.

Record AppRecord := {
  developer : Address;
  website_url : bytes;
  manifest_id : option Hash32;
  verified : bool;
}.

Inductive BudlumxyzError := AppNotFound | InvalidData.

Record PendingDomainUnfreeze := {
  domain_id : DomainId;
  expected_validator_set_hash : Hash32;
  justification_hash : Hash32;
}.

Record AccountState := {
  base_fee : Z;
  tokenomics : Tokenomics.TokenomicsParams;
  validators : gmap Address Validator;
  registry : Registry.PermissionlessRegistry;
  verifier_whitelist : gset Address;
  apps : gmap Z AppRecord;
  encryption_policies : gmap Z Policy.EncryptionPolicy;
  governance : GovernanceState;
  pending_domain_unfreezes : list PendingDomainUnfreeze;
  epoch_index : Z;
}.

Definition with_fees (h : AccountState) (fee : Z) (t : Tokenomics.TokenomicsParams) :
    AccountState :=
  {| base_fee := fee; tokenomics := t; validators := validators h;
     registry := registry h; verifier_whitelist := verifier_whitelist h; apps := apps h;
     encryption_policies := encryption_policies h; governance := governance h;
     pending_domain_unfreezes := pending_domain_unfreezes h; epoch_index := epoch_index h |}.

Definition with_members (h : AccountState) vs r ws aps : AccountState :=
  {| base_fee := base_fee h; tokenomics := tokenomics h; validators := vs;
     registry := r; verifier_whitelist := ws; apps := aps;
     encryption_policies := encryption_policies h; governance := governance h;
     pending_domain_unfreezes := pending_domain_unfreezes h; epoch_index := epoch_index h |}.

Definition with_validators (h : AccountState) vs : AccountState :=
  with_members h vs (registry h) (verifier_whitelist h) (apps h).

Definition with_registry (h : AccountState) r : AccountState :=
  with_members h (validators h) r (verifier_whitelist h) (apps h).

Definition with_whitelist (h : AccountState) ws : AccountState :=
  with_members h (validators h) (registry h) ws (apps h).

Definition with_apps (h : AccountState) aps : AccountState :=
  with_members h (validators h) (registry h) (verifier_whitelist h) aps.

Definition with_governance (h : AccountState) g : AccountState :=
  {| base_fee := base_fee h; tokenomics := tokenomics h; validators := validators h;
     registry := registry h; verifier_whitelist := verifier_whitelist h; apps := apps h;
     encryption_policies := encryption_policies h; governance := g;
     pending_domain_unfreezes := pending_domain_unfreezes h; epoch_index := epoch_index h |}.

Definition with_policies (h : AccountState) ps : AccountState :=
  {| base_fee := base_fee h; tokenomics := tokenomics h; validators := validators h;
     registry := registry h; verifier_whitelist := verifier_whitelist h; apps := apps h;
     encryption_policies := ps; governance := governance h;
     pending_domain_unfreezes := pending_domain_unfreezes h; epoch_index := epoch_index h |}.

Definition with_unfreezes (h : AccountState) us : AccountState :=
  {| base_fee := base_fee h; tokenomics := tokenomics h; validators := validators h;
     registry := registry h; verifier_whitelist := verifier_whitelist h; apps := apps h;
     encryption_policies := encryption_policies h; governance := governance h;
     pending_domain_unfreezes := us; epoch_index := epoch_index h |}.

Definition with_epoch (h : AccountState) e : AccountState :=
  {| base_fee := base_fee h; tokenomics := tokenomics h; validators := validators h;
     registry := registry h; verifier_whitelist := verifier_whitelist h; apps := apps h;
     encryption_policies := encryption_policies h; governance := governance h;
     pending_domain_unfreezes := pending_domain_unfreezes h; epoch_index := e |}.

Definition with_block_reward (t : Tokenomics.TokenomicsParams) (x : Z) :
    Tokenomics.TokenomicsParams :=
  {| Tokenomics.community := Tokenomics.community t;
     Tokenomics.liquidity := Tokenomics.liquidity t;
     Tokenomics.ecosystem := Tokenomics.ecosystem t;
     Tokenomics.team := Tokenomics.team t;
     Tokenomics.burn_reserve := Tokenomics.burn_reserve t;
     Tokenomics.epochs_per_year := Tokenomics.epochs_per_year t;
     Tokenomics.annual_burn_ratio_fixed := Tokenomics.annual_burn_ratio_fixed t;
     Tokenomics.team_cliff_epochs := Tokenomics.team_cliff_epochs t;
     Tokenomics.team_vesting_epochs := Tokenomics.team_vesting_epochs t;
     Tokenomics.tx_fee_burn_ratio_fixed := Tokenomics.tx_fee_burn_ratio_fixed t;
     Tokenomics.block_reward := x;
     Tokenomics.slot_duration_secs := Tokenomics.slot_duration_secs t;
     Tokenomics.epoch_length_slots := Tokenomics.epoch_length_slots t;
     Tokenomics.validator_annual_yield_ratio_fixed :=
       Tokenomics.validator_annual_yield_ratio_fixed t |}.

(** [sum()] stops the node on overflow: [None]. *)
Definition get_total_stake (h : AccountState) : option Z :=
  let total := map_sum (λ v, if active v && negb (slashed v) then stake v else 0) (validators h) in
  if total <=? u64_max then Some total else None.

(** [OffersRegistry::set_encryption_policy]. *)
Definition set_encryption_policy (h : AccountState) (policy : Policy.EncryptionPolicy) :
    result Policy.PolicyError () * AccountState :=
  let? _ := Policy.validate policy at h in
  (Ok (), with_policies h (<[Policy.version policy := policy]> (encryption_policies h))).

Section host.
Context `{Sha256}.

(** [bincode::serialize] of a slashing report. *)
Variable report_bytes : Evidence.SlashingReport → bytes.

(** [BudlumxyzRegistry::mark_verified_by_proposal]. *)
Definition mark_verified_by_proposal (h : AccountState) (app_id : Z) (expected_developer : Address)
    (expected_manifest_id : option Hash32) (expected_website_url_hash : Hash32) :
    result BudlumxyzError () * AccountState :=
  match apps h !! app_id with
  | None => (Err AppNotFound, h)
  | Some app =>
      if bool_decide (developer app = expected_developer) &&
         bool_decide (manifest_id app = expected_manifest_id) &&
         bool_decide (sha256 (website_url app) = expected_website_url_hash)
      then
        (Ok (), with_apps h (<[app_id :=
          {| developer := developer app; website_url := website_url app;
             manifest_id := manifest_id app; verified := true |}]> (apps h)))
      else (Err InvalidData, h)
  end.

Definition evidence_matches (h : AccountState) (address : Address) (evidence_hash : Hash32) : bool :=
  existsb (λ rec,
    bool_decide (Evidence.role (Registry.report rec) = Role.VALIDATOR) &&
    bool_decide (sha256 (report_bytes (Registry.report rec)) = evidence_hash))
    (Registry.slashing_history_for (registry h) address).

Definition execute_proposal (h : AccountState) (p : Proposal) : AccountState :=
  match p_type p with
  | ChangeBaseFee new_fee =>
      if (new_fee <? MIN_TX_FEE) || (MAX_BASE_FEE <? new_fee) then h
      else with_fees h new_fee (tokenomics h)
  | ChangeBlockReward new_reward =>
      if negb (new_reward =? 0) then h
      else with_fees h (base_fee h) (with_block_reward (tokenomics h) 0)
  | SlashValidator address evidence_hash =>
      if negb (evidence_matches h address evidence_hash) then h
      else
        match validators h !! address with
        | Some v =>
            with_validators h
              (<[address :=
                {| stake := 0; active := false; slashed := true; jailed := jailed v;
                   jail_until := jail_until v; consensus_ready := consensus_ready v |}]>
                (validators h))
        | None => h
        end
  | ParameterUpdate key value =>
      with_registry h (apply_registry_parameter_update (registry h) key value).2
  | WhitelistVerifier address => with_whitelist h ({[address]} ∪ verifier_whitelist h)
  | DewhitelistVerifier address => with_whitelist h (verifier_whitelist h ∖ {[address]})
  | VerifyHubApp app_id dev manifest url_hash =>
      (mark_verified_by_proposal h app_id dev manifest url_hash).2
  | SetEncryptionPolicy policy => (set_encryption_policy h policy).2
  | SetConstitutionParameter parameter =>
      with_governance h (with_constitution (governance h)
        (Constitution.set_parameter (constitution (governance h)) parameter).2)
  | UnfreezeConsensusDomain _ _ _ => h
  end.

Definition QUORUM_PCT : Z := 33.

(** The first loop of [advance_epoch], on one proposal. *)
Definition close_proposal (total_stake current_epoch : Z) (p : Proposal) : Proposal :=
  if bool_decide (status p = Active) && (end_epoch p <=? current_epoch)
  then finalize p total_stake QUORUM_PCT current_epoch else p.

(** One round of the second loop. *)
Definition run_proposal (h : AccountState) (p : Proposal) : AccountState :=
  let h := execute_proposal h p in
  with_governance h (with_proposals (governance h)
    (update_proposal (proposals (governance h)) (id p) (λ p, with_status p Executed))).

(** [advance_epoch] up to the increment of the epoch counter. *)
Definition advance_epoch (h : AccountState) : option AccountState :=
  total_stake ← get_total_stake h;
  let current_epoch := epoch_index h in
  let ps := close_proposal total_stake current_epoch <$> proposals (governance h) in
  let to_execute := filter (λ p, is_passed_and_ready current_epoch p = true) ps in
  let h := with_governance h (with_proposals (governance h) ps) in
  let h := fold_left run_proposal to_execute h in
  Some (with_epoch h (u64_sat_add (epoch_index h) 1)).

Inductive ActionError :=
  | HubVerifyWrongPath
  | PollenEncryptionPolicy (e : Policy.PolicyError)
  | ConstitutionParameterRefused (e : Constitution.ConstitutionError).

(** One round of the action loop of [apply_block_checked]. *)
Definition apply_action (h : AccountState) (a : GovernanceAction) :
    result ActionError () * AccountState :=
  match a with
  | AWhitelistVerifier address => (Ok (), with_whitelist h ({[address]} ∪ verifier_whitelist h))
  | ADewhitelistVerifier address => (Ok (), with_whitelist h (verifier_whitelist h ∖ {[address]}))
  | AVerifyHubApp _ => (Err HubVerifyWrongPath, h)
  | ASetEncryptionPolicy policy =>
      let '(r, h) := set_encryption_policy h policy in
      (result_map_err PollenEncryptionPolicy r, h)
  | ASetConstitutionParameter parameter =>
      let '(r, c) := Constitution.set_parameter (constitution (governance h)) parameter in
      (result_map_err ConstitutionParameterRefused r,
       with_governance h (with_constitution (governance h) c))
  | AUnfreezeConsensusDomain d e j =>
      (Ok (), with_unfreezes h (pending_domain_unfreezes h ++
        [{| domain_id := d; expected_validator_set_hash := e; justification_hash := j |}]))
  end.

Fixpoint apply_actions (h : AccountState) (actions : list GovernanceAction) :
    result ActionError () * AccountState :=
  match actions with
  | [] => (Ok (), h)
  | a :: actions =>
      match apply_action h a with
      | (Err e, h) => (Err e, h)
      | (Ok _, h) => apply_actions h actions
      end
  end.

(** The governance part of [apply_block_checked]. *)
Definition apply_block_governance (h : AccountState) : result ActionError () * AccountState :=
  let '(actions, g) := execute_passed_proposals (governance h) (epoch_index h) in
  apply_actions (with_governance h g) actions.
End host.
End Host.
Import Host.
