(* ===== verification/GovernanceProps.v ===== *)
(** * Governance: the lifecycle of proposals

    [GovernanceRun] is the step relation over the state of [Governance.v]:
    proposals and votes of transactions, the reduction of vote weights by an
    unstake, cancellation, the proposal loops of an epoch close and of a
    block, and changes made elsewhere to the members and to the fee.  Two
    ghost lists record the stake each proposal was closed against and the
    epoch in which it was run.  The invariant is proved once, and the
    theorems read it off. *)
From stdpp Require Import base tactics numbers list gmap strings sorting.
From Stdlib Require Import ZArith Lia.
From S2P Require Import Prelude Merkle Messages Economics Registry Constitution Governance.
Import Params Update Governance Host.

Module GovernanceRun.

(** ** Tallies *)
Definition ballot_weight (side : bool) (ballot : bool * Z) : Z :=
  if Bool.eqb ballot.1 side then ballot.2 else 0.

(** The weights of the votes recorded on one side. *)
Definition tally (side : bool) (p : Proposal) : Z :=
  map_sum (ballot_weight side) (map_zip (voters p) (voter_weights p)).

Definition tally_ok (p : Proposal) : Prop :=
  votes_for p = tally true p ∧ votes_against p = tally false p ∧
  dom (voters p) = dom (voter_weights p) ∧
  (∀ a w, voter_weights p !! a = Some w → 0 ≤ w).

Lemma tally_nonneg side p : tally_ok p → 0 ≤ tally side p.
Proof.
  intros (_ & _ & _ & Hw). apply map_sum_nonneg. intros a [b w] Ha.
  apply map_lookup_zip_Some in Ha as [_ Ha]. apply Hw in Ha.
  unfold ballot_weight. cbn in *. destruct (Bool.eqb _ _); lia.
Qed.

Lemma tally_insert side p f g v b w :
  map_zip (voters p) (voter_weights p) !! v = None →
  tally side (with_votes p f g (<[v := b]> (voters p)) (<[v := w]> (voter_weights p))) =
  ballot_weight side (b, w) + tally side p.
Proof.
  intros Hv. unfold tally. cbn [voters voter_weights with_votes].
  rewrite <-map_insert_zip_with. by apply map_sum_insert_new.
Qed.

Lemma add_vote_tally p v w b e :
  tally_ok p → 0 ≤ w → votes_for p + w ≤ u64_max → votes_against p + w ≤ u64_max →
  tally_ok (add_vote p v w b e).2.
Proof.
  intros (Hf & Ha & Hdom & Hw) Hpos Hbf Hba. unfold add_vote.
  destruct (negb _); [done|]. destruct (_ <=? _); [done|].
  case_bool_decide as Hv; [done|]. cbn [snd].
  assert (map_zip (voters p) (voter_weights p) !! v = None) as Hnone.
  { apply map_lookup_zip_with_None. left. by apply eq_None_not_Some. }
  unfold tally_ok. rewrite !tally_insert by done. cbn -[u64_sat_add].
  rewrite <-Hf, <-Ha, !u64_sat_add_small by lia. unfold ballot_weight. cbn.
  split_and!; [by destruct b; cbn; lia..|by rewrite !dom_insert_L, Hdom|].
  intros a x. rewrite lookup_insert. case_decide; [by intros [= <-]|apply Hw].
Qed.

Lemma reduce_vote_weight_tally p v x : 0 ≤ x → tally_ok p → tally_ok (reduce_vote_weight p v x).
Proof.
  intros Hx Hok. pose proof Hok as (Hf & Ha & Hdom & Hw). unfold reduce_vote_weight.
  destruct (voters p !! v) as [b|] eqn:Hb; [|done].
  assert (is_Some (voter_weights p !! v)) as [w Hvw].
  { rewrite <-elem_of_dom, <-Hdom. by apply elem_of_dom_2 in Hb. }
  rewrite Hvw. change (default 0 (Some w)) with w. cbn zeta. destruct (Z.eqb_spec (Z.min w x) 0); [done|].
  pose proof (Hw _ _ Hvw) as Hwpos.
  assert (map_zip (voters p) (voter_weights p) !! v = Some (b, w)) as Hz
    by by apply map_lookup_zip_Some.
  assert (∀ side f g, tally side (with_votes p f g (voters p)
      (<[v := sat_sub w (Z.min w x)]> (voter_weights p))) =
    tally side p - ballot_weight side (b, w) + ballot_weight side (b, w - Z.min w x)) as Htally.
  { intros side f g. unfold tally. cbn [voters voter_weights with_votes].
    rewrite <-(insert_id (voters p) v b Hb) at 1.
    rewrite <-map_insert_zip_with. erewrite map_sum_insert_upd by exact Hz.
    rewrite sat_sub_small by lia. lia. }
  assert (ballot_weight b (b, w) ≤ tally b p) as Hle.
  { pose proof (tally_nonneg b _ Hok). unfold tally in *.
    erewrite (map_sum_delete _ _ _ _ Hz).
    assert (0 ≤ map_sum (ballot_weight b) (delete v (map_zip (voters p) (voter_weights p))))
      as Hrest; [|lia].
    apply map_sum_nonneg. intros a [b' w'] [_ Hl]%lookup_delete_Some.
    apply map_lookup_zip_Some in Hl as [_ Hl]. apply Hw in Hl.
    unfold ballot_weight. cbn in *. destruct (Bool.eqb _ _); lia. }
  unfold tally_ok. rewrite !Htally. cbn -[sat_sub]. unfold ballot_weight in *. cbn -[sat_sub] in *.
  rewrite eqb_reflx in Hle.
  split_and!.
  - destruct b; cbn; [rewrite sat_sub_small by lia|]; lia.
  - destruct b; cbn; [|rewrite sat_sub_small by lia]; lia.
  - rewrite dom_insert_L, Hdom. apply elem_of_dom_2 in Hvw. set_solver.
  - intros a y. rewrite lookup_insert. case_decide; [|apply Hw].
    intros [= <-]. rewrite sat_sub_small; lia.
Qed.

(** ** Runs *)
Record run := {
  host : AccountState;
  closed : list (Z * Z);
  ran : list (Z * Z);
}.

Definition props (h : AccountState) : list Proposal := proposals (governance h).

Definition set_props (h : AccountState) (ps : list Proposal) : AccountState :=
  with_governance h (with_proposals (governance h) ps).

(** The [Unstake] arm of the executor, on the proposals. *)
Definition reduce_active (voter : Address) (amount : Z) (p : Proposal) : Proposal :=
  if bool_decide (status p = Active) then reduce_vote_weight p voter amount else p.

(** What the loops of a block and of an epoch close execute. *)
Definition block_executes (e : Z) (p : Proposal) : bool :=
  is_passed_and_ready e p && bool_decide (is_Some (action_of (p_type p))).

Definition close_executes (total e : Z) (p : Proposal) : bool :=
  is_passed_and_ready e (close_proposal total e p).

Definition closes (e : Z) (p : Proposal) : bool :=
  bool_decide (status p = Active) && (end_epoch p <=? e).

Definition log_run (e : Z) (ps : list Proposal) : list (Z * Z) := (λ p, (id p, e)) <$> ps.

Section run.
Context `{Sha256} (report_bytes : Evidence.SlashingReport → bytes).

(** A vote is cast with the stake of a validator, and the stakes of all
    validators fit in 64 bits together; the two bounds on the tallies state
    the part of this that the counters need. *)
Inductive step : run → run → Prop :=
  | step_create h cl rn who t duration res g :
      create_proposal (governance h) who t (epoch_index h) duration = Some (res, g) →
      step {| host := h; closed := cl; ran := rn |}
           {| host := with_governance h g; closed := cl; ran := rn |}
  | step_vote h cl rn i voter w vote_for :
      0 ≤ w →
      (∀ p, p ∈ props h → votes_for p + w ≤ u64_max ∧ votes_against p + w ≤ u64_max) →
      step {| host := h; closed := cl; ran := rn |}
           {| host := set_props h (update_proposal (props h) i
                        (λ p, (add_vote p voter w vote_for (epoch_index h)).2));
              closed := cl; ran := rn |}
  | step_unstake h cl rn voter amount :
      0 ≤ amount →
      step {| host := h; closed := cl; ran := rn |}
           {| host := set_props h (reduce_active voter amount <$> props h);
              closed := cl; ran := rn |}
  | step_cancel h cl rn i caller :
      step {| host := h; closed := cl; ran := rn |}
           {| host := with_governance h (cancel_proposal (governance h) i caller).2;
              closed := cl; ran := rn |}
  | step_epoch h cl rn total h' :
      get_total_stake h = Some total → advance_epoch report_bytes h = Some h' →
      step {| host := h; closed := cl; ran := rn |}
           {| host := h';
              closed := cl ++ ((λ p, (id p, total)) <$>
                          filter (λ p, closes (epoch_index h) p = true) (props h));
              ran := rn ++ log_run (epoch_index h)
                       (filter (λ p, close_executes total (epoch_index h) p = true) (props h)) |}
  | step_block h cl rn h' :
      apply_block_governance h = (Ok (), h') →
      step {| host := h; closed := cl; ran := rn |}
           {| host := h'; closed := cl;
              ran := rn ++ log_run (epoch_index h)
                       (filter (λ p, block_executes (epoch_index h) p = true) (props h)) |}
  | step_elsewhere h cl rn vs r ws aps fee tok :
      Registry.params r = Registry.params (registry h) →
      step {| host := h; closed := cl; ran := rn |}
           {| host := with_fees (with_members h vs r ws aps) fee tok;
              closed := cl; ran := rn |}.

Record genesis (h : AccountState) : Prop := {
  genesis_governance : governance h = state_default;
  genesis_params : validate (Registry.params (registry h)) = Ok ();
  genesis_policies : encryption_policies h = ∅;
  genesis_epoch : u64 (epoch_index h);
}.

Inductive reachable : run → Prop :=
  | reach_genesis h : genesis h → reachable {| host := h; closed := []; ran := [] |}
  | reach_step r r' : reachable r → step r r' → reachable r'.
End run.

(** ** The invariant *)
Definition static (p : Proposal) : Z * Address * ProposalType * Z * Z * option Z :=
  (id p, proposer p, p_type p, start_epoch p, end_epoch p, activation_epoch_field p).

(** What every operation keeps of a proposal. *)
Definition kept (p q : Proposal) : Prop :=
  static p = static q ∧ (status p = Executed → status q = Executed) ∧
  (status q = Active → status p = Active).

Definition decided (cl : list (Z * Z)) (e : Z) (p : Proposal) : Prop :=
  end_epoch p ≤ e ∧ votes_against p < votes_for p ∧
  ∃ total, (id p, total) ∈ cl ∧
    total * QUORUM_PCT ≤ (votes_for p + votes_against p) * 100.

Record pinv (cl : list (Z * Z)) (e : Z) (p : Proposal) : Prop := {
  pi_type : check_type (p_type p) = Ok ();
  pi_window : start_epoch p + MIN_PROPOSAL_DURATION ≤ end_epoch p;
  pi_activation : activation_epoch_field p =
    Some (end_epoch p + activation_delay_epochs (p_type p));
  pi_tally : tally_ok p;
  pi_decided : status p = Passed ∨ status p = Executed → decided cl e p;
}.

Definition ids_ok (ps : list Proposal) : Prop :=
  id <$> ps = Z.of_nat <$> seq 0 (length ps).

Record ginv (r : run) : Prop := {
  gi_ids : ids_ok (props (host r));
  gi_next : next_proposal_id (governance (host r)) = Z.of_nat (length (props (host r)));
  gi_active : (length (active_proposals (governance (host r))) ≤ MAX_ACTIVE_PROPOSALS)%nat;
  gi_props : Forall (pinv (closed r) (epoch_index (host r))) (props (host r));
  gi_constitution : Constitution.inv (constitution (governance (host r)));
  gi_params : validate (Registry.params (registry (host r))) = Ok ();
  gi_policies : ∀ v pol, encryption_policies (host r) !! v = Some pol →
    Policy.version pol = v ∧ Policy.validate pol = Ok ();
  gi_nodup : NoDup (ran r).*1;
  gi_ran : ∀ i e, (i, e) ∈ ran r → ∃ p, p ∈ props (host r) ∧ id p = i ∧
    status p = Executed ∧ activation_epoch p ≤ e ≤ epoch_index (host r);
  gi_executed : ∀ p, p ∈ props (host r) → status p = Executed → id p ∈ (ran r).*1;
  gi_epoch : u64 (epoch_index (host r));
}.

Lemma pinv_mono cl cl' e e' p : cl ⊆ cl' → e ≤ e' → pinv cl e p → pinv cl' e' p.
Proof.
  intros Hcl He [Ht Hw Ha Htal Hd]. split; try done.
  intros (Hend & Hmaj & total & Hin & Hq)%Hd. split; [lia|]. split; [done|].
  exists total. split; [by apply Hcl|done].
Qed.

Lemma ids_nodup ps : ids_ok ps → NoDup (id <$> ps).
Proof. unfold ids_ok. intros ->. apply NoDup_fmap; [apply _|apply NoDup_seq]. Qed.

Lemma ids_unique ps p q : ids_ok ps → p ∈ ps → q ∈ ps → id p = id q → p = q.
Proof.
  intros Hnd%ids_nodup [i Hi]%list_elem_of_lookup [j Hj]%list_elem_of_lookup Hid.
  assert (i = j) as <-; [|congruence].
  apply (NoDup_lookup _ _ _ (id p) Hnd); rewrite list_lookup_fmap.
  - by rewrite Hi.
  - by rewrite Hj, Hid.
Qed.

(** The first match is the only one. *)
Lemma update_proposal_fmap ps i f :
  NoDup (id <$> ps) → update_proposal ps i f = (λ p, if id p =? i then f p else p) <$> ps.
Proof.
  induction ps as [|p ps IH]; [done|]. rewrite fmap_cons, NoDup_cons. intros [Hnin Hnd].
  cbn [update_proposal]. rewrite fmap_cons. destruct (Z.eqb_spec (id p) i) as [<-|].
  - f_equal. rewrite <-(list_fmap_id ps) at 1. apply list_fmap_ext.
    intros k q Hq. cbn. destruct (Z.eqb_spec (id q) (id p)) as [Heq|]; [|done].
    destruct Hnin. rewrite <-Heq. apply list_elem_of_fmap_2. by eapply list_elem_of_lookup_2.
  - f_equal. by apply IH.
Qed.

Lemma active_le (f : Proposal → Proposal) ps :
  (∀ p, p ∈ ps → kept p (f p)) →
  (length (filter (λ p, status p = Active) (f <$> ps)) ≤
   length (filter (λ p, status p = Active) ps))%nat.
Proof.
  induction ps as [|p ps IH]; [done|]. intros Hk.
  pose proof (IH ltac:(set_solver)). destruct (Hk p ltac:(set_solver)) as (_ & _ & Ha).
  rewrite fmap_cons, !filter_cons. repeat case_decide; cbn; naive_solver lia.
Qed.

Lemma nodup_filter {A B} (g : A → B) (P : A → Prop) `{∀ x, Decision (P x)} l :
  NoDup (g <$> l) → NoDup (g <$> filter P l).
Proof.
  induction l as [|x l IH]; [done|]. rewrite fmap_cons, NoDup_cons. intros [Hx Hnd].
  rewrite filter_cons. case_decide; [|by apply IH]. rewrite fmap_cons, NoDup_cons.
  split; [|by apply IH]. intros (y & Heq & [_ Hy]%list_elem_of_filter)%list_elem_of_fmap.
  apply Hx. rewrite Heq. by apply list_elem_of_fmap_2.
Qed.

(** The one preservation argument: the proposals go through [f], those that
    [ex] selects are run. *)
Lemma ginv_fmap h cl rn h' cl' f (ex : Proposal → bool) :
  ginv {| host := h; closed := cl; ran := rn |} →
  props h' = f <$> props h →
  next_proposal_id (governance h') = next_proposal_id (governance h) →
  Constitution.inv (constitution (governance h')) →
  validate (Registry.params (registry h')) = Ok () →
  (∀ v pol, encryption_policies h' !! v = Some pol →
    Policy.version pol = v ∧ Policy.validate pol = Ok ()) →
  epoch_index h ≤ epoch_index h' → u64 (epoch_index h') →
  (∀ p, p ∈ props h → pinv cl (epoch_index h) p →
     kept p (f p) ∧ pinv cl' (epoch_index h') (f p) ∧
     (ex p = true → status p ≠ Executed ∧ status (f p) = Executed ∧
        activation_epoch p ≤ epoch_index h) ∧
     (ex p = false → status (f p) = Executed → status p = Executed)) →
  ginv {| host := h'; closed := cl';
          ran := rn ++ log_run (epoch_index h) (filter (λ p, ex p = true) (props h)) |}.
Proof.
  intros [Hids Hnext Hact Hprops _ _ _ Hnd Hran Hexe _] Hps Hn Hc Hp Hpol He Hu Hf.
  cbn in *. rewrite Forall_forall in Hprops.
  assert (∀ p, p ∈ props h → kept p (f p)) as Hkept by (intros p Hin; by apply Hf, Hprops).
  assert (id <$> (f <$> props h) = id <$> props h) as Hid.
  { rewrite <-list_fmap_compose. apply list_fmap_ext. intros k p Hk. cbn.
    destruct (Hkept p) as [Hs _]; [by eapply list_elem_of_lookup_2|].
    unfold static in Hs. congruence. }
  assert ((log_run (epoch_index h) (filter (λ p, ex p = true) (props h))).*1 =
    id <$> filter (λ p, ex p = true) (props h)) as Hlog.
  { unfold log_run. rewrite <-list_fmap_compose. by apply list_fmap_ext. }
  split; cbn [host closed ran]; try done.
  - unfold ids_ok. rewrite Hps, Hid, length_fmap. exact Hids.
  - by rewrite Hps, length_fmap, Hn.
  - unfold active_proposals. change (proposals (governance h')) with (props h').
    rewrite Hps. etrans; [by apply active_le|done].
  - rewrite Hps, Forall_fmap, Forall_forall. intros p Hin. by apply Hf; [|apply Hprops].
  - rewrite fmap_app, Hlog, NoDup_app. split_and!; [done| |].
    + intros i ([i' e] & -> & Hin)%list_elem_of_fmap Hnew. cbn in Hnew.
      apply list_elem_of_fmap in Hnew as (q & Hq & [Hx Hqin]%list_elem_of_filter).
      apply Hran in Hin as (p & Hpin & Hpid & Hst & _).
      assert (p = q) as -> by (apply (ids_unique (props h)); [done..|congruence]).
      destruct (Hf q Hqin (Hprops q Hqin)) as (_ & _ & Hex & _). by apply Hex in Hx as [].
    + by apply nodup_filter, ids_nodup.
  - intros i e. rewrite elem_of_app. intros [Hin|Hin].
    + apply Hran in Hin as (p & Hpin & Hpid & Hst & Hlo & Hhi).
      exists (f p). destruct (Hkept p Hpin) as (Hs & Hx & _). unfold static in Hs.
      rewrite Hps. split_and!; [by apply list_elem_of_fmap_2|congruence|auto| |lia].
      unfold activation_epoch in *. by simplify_eq; congruence.
    + apply list_elem_of_fmap in Hin as (p & [= -> ->] & [Hx Hpin]%list_elem_of_filter).
      exists (f p). destruct (Hf p Hpin (Hprops p Hpin)) as ((Hs & _) & _ & Hex & _).
      apply Hex in Hx as (_ & Hst & Hle). unfold static in Hs.
      rewrite Hps. split_and!; [by apply list_elem_of_fmap_2|congruence|done| |lia].
      unfold activation_epoch in *. by simplify_eq; congruence.
  - intros q. rewrite Hps, fmap_app, Hlog, elem_of_app.
    intros (p & -> & Hpin)%list_elem_of_fmap Hst.
    destruct (Hf p Hpin (Hprops p Hpin)) as ((Hs & _) & _ & _ & Hno). unfold static in Hs.
    replace (id (f p)) with (id p) by congruence.
    destruct (ex p) eqn:Hx; [right|left; by apply Hexe; [|apply Hno]].
    apply list_elem_of_fmap_2, list_elem_of_filter. done.
Qed.

(** ** Preservation *)
Record host_ok (h : AccountState) : Prop := {
  ho_constitution : Constitution.inv (constitution (governance h));
  ho_params : validate (Registry.params (registry h)) = Ok ();
  ho_policies : ∀ v pol, encryption_policies h !! v = Some pol →
    Policy.version pol = v ∧ Policy.validate pol = Ok ();
}.

(** What applying a proposal keeps of the host. *)
Definition framed (h h' : AccountState) : Prop :=
  props h' = props h ∧ next_proposal_id (governance h') = next_proposal_id (governance h) ∧
  epoch_index h' = epoch_index h ∧ (host_ok h → host_ok h').

#[export] Instance framed_preorder : PreOrder framed.
Proof.
  split; [by intros h|]. intros h1 h2 h3 (? & ? & ? & ?) (? & ? & ? & ?).
  split_and!; [congruence..|auto].
Qed.

Lemma framed_intro h h' :
  governance h' = governance h → epoch_index h' = epoch_index h →
  Registry.params (registry h') = Registry.params (registry h) →
  encryption_policies h' = encryption_policies h → framed h h'.
Proof.
  intros Hg He Hr Hp. unfold framed, props. rewrite Hg. split_and!; [done..|].
  intros [???]. split; by rewrite ?Hg, ?Hr, ?Hp.
Qed.

Lemma ginv_host_ok h cl rn : ginv {| host := h; closed := cl; ran := rn |} → host_ok h.
Proof. intros [????? ? ? ????]. by split. Qed.

Lemma apply_update_valid r key value :
  validate (Registry.params r) = Ok () →
  validate (Registry.params (apply_registry_parameter_update r key value).2) = Ok ().
Proof.
  intros Hr. unfold apply_registry_parameter_update.
  destruct (assign _ key value) as [p|]; [|done]. by destruct (validate p) as [[]|] eqn:Hp.
Qed.

Lemma set_policy_framed h pol : framed h (set_encryption_policy h pol).2.
Proof.
  unfold set_encryption_policy. destruct (Policy.validate pol) as [[]|] eqn:Hv; [|done].
  split_and!; [done..|]. intros [Hc Hp Hpol]. split; [done..|]. cbn. intros v q.
  rewrite lookup_insert. case_decide; [|apply Hpol]. by intros [= <-].
Qed.

Lemma set_constitution_framed h par :
  framed h (with_governance h (with_constitution (governance h)
    (Constitution.set_parameter (constitution (governance h)) par).2)).
Proof.
  split_and!; [done..|]. intros [Hc Hp Hpol]. split; [|done..]. cbn.
  by apply Constitution.set_parameter_inv.
Qed.

Section preservation.
Context `{Sha256} (report_bytes : Evidence.SlashingReport → bytes).

Lemma execute_proposal_framed h p : framed h (execute_proposal report_bytes h p).
Proof.
  unfold execute_proposal. destruct (p_type p).
  - destruct (_ || _); by apply framed_intro.
  - destruct (negb _); by apply framed_intro.
  - destruct (negb _); [done|]. destruct (validators h !! address); by apply framed_intro.
  - split_and!; [done..|]. intros [Hc Hp Hpol]. split; [done| |done].
    by apply apply_update_valid.
  - by apply framed_intro.
  - by apply framed_intro.
  - apply set_policy_framed.
  - apply set_constitution_framed.
  - unfold mark_verified_by_proposal. destruct (apps h !! app_id); [|done].
    destruct (_ && _); by apply framed_intro.
  - done.
Qed.

Lemma run_proposals_framed ps h :
  NoDup (id <$> props h) →
  let h' := fold_left (run_proposal report_bytes) ps h in
  props h' = (λ p, if bool_decide (id p ∈ id <$> ps) then with_status p Executed else p) <$>
    props h ∧
  framed (set_props h (props h')) h'.
Proof.
  revert h. induction ps as [|p ps IH]; intros h Hnd; cbn [fold_left].
  - split; [|split_and!; [done..|intros [???]; by split]].
    rewrite <-(list_fmap_id (props h)) at 1. apply list_fmap_ext.
    intros k q _. cbn. by rewrite bool_decide_false by apply not_elem_of_nil.
  - destruct (execute_proposal_framed h p) as (Hps & Hn & He & Hok).
    set (h1 := run_proposal report_bytes h p).
    assert (props h1 = (λ q, if id q =? id p then with_status q Executed else q) <$> props h)
      as Hh1.
    { unfold h1, run_proposal. cbn. unfold props in *. rewrite Hps.
      by apply update_proposal_fmap. }
    destruct (IH h1) as [Hp Hf].
    { rewrite Hh1, <-list_fmap_compose. erewrite list_fmap_ext; [exact Hnd|].
      intros k q _. cbn. by destruct (_ =? _). }
    cbn zeta in *. split.
    + rewrite Hp, Hh1, <-list_fmap_compose. apply list_fmap_ext. intros k q _. cbn.
      destruct (Z.eqb_spec (id q) (id p)) as [Heq|Hne]; cbn [id with_status].
      * rewrite (bool_decide_true (id q ∈ id p :: _)) by (rewrite Heq; constructor).
        by case_bool_decide.
      * erewrite (bool_decide_ext (id q ∈ id p :: _)); [done|]. rewrite elem_of_cons. naive_solver.
    + etrans; [|exact Hf]. split_and!; [done|done|done|]. intros Hk.
      destruct Hok as [? ? ?]; [by destruct Hk|]. by split.
Qed.
End preservation.

Lemma apply_action_framed h a : framed h (apply_action h a).2.
Proof.
  destruct a; cbn [apply_action]; try by apply framed_intro.
  - pose proof (set_policy_framed h policy) as Hf.
    by destruct (set_encryption_policy h policy).
  - pose proof (set_constitution_framed h parameter) as Hf.
    by destruct (Constitution.set_parameter _ parameter).
Qed.

Lemma apply_actions_framed h acts : framed h (apply_actions h acts).2.
Proof.
  revert h. induction acts as [|a acts IH]; intros h; cbn [apply_actions]; [done|].
  pose proof (apply_action_framed h a) as Hf.
  destruct (apply_action h a) as [[]h1]; [|done]. etrans; [exact Hf|apply IH].
Qed.

(** *** Per proposal *)
Lemma kept_refl p : kept p p.
Proof. intros. by repeat split. Qed.

Lemma kept_status p st :
  (status p = Executed → st = Executed) → (st = Active → status p = Active) →
  kept p (with_status p st).
Proof. intros. by repeat split. Qed.

Lemma kept_votes p f a vs ws : kept p (with_votes p f a vs ws).
Proof. intros. by repeat split. Qed.

(** Votes only move while the proposal is undecided. *)
Lemma pinv_votes cl e p f a vs ws :
  pinv cl e p → status p = Active → tally_ok (with_votes p f a vs ws) →
  pinv cl e (with_votes p f a vs ws).
Proof. intros [Ht Hw Ha _ _] Hst Htal. split; try done. cbn. rewrite Hst. naive_solver. Qed.

Lemma pinv_status cl e p st :
  pinv cl e p → (st = Passed ∨ st = Executed → decided cl e p) → pinv cl e (with_status p st).
Proof. intros [Ht Hw Ha Htal _] Hd. by split. Qed.

Lemma add_vote_kept cl e p v w b :
  pinv cl e p → 0 ≤ w → votes_for p + w ≤ u64_max → votes_against p + w ≤ u64_max →
  kept p (add_vote p v w b e).2 ∧ pinv cl e (add_vote p v w b e).2 ∧
  status (add_vote p v w b e).2 = status p.
Proof.
  intros Hp Hw Hf Ha. pose proof (add_vote_tally p v w b e (pi_tally _ _ _ Hp) Hw Hf Ha) as Ht.
  unfold add_vote in *. destruct (bool_decide (status p = Active)) eqn:Hst; cbn [negb] in *;
    [|by eauto using kept_refl].
  destruct (_ <=? _); [by eauto using kept_refl|].
  destruct (bool_decide (is_Some _)); [by eauto using kept_refl|]. cbn [snd] in *.
  apply bool_decide_eq_true in Hst. split_and!; [apply kept_votes|by apply pinv_votes|done].
Qed.

Lemma reduce_active_kept cl e p v x :
  pinv cl e p → 0 ≤ x →
  kept p (reduce_active v x p) ∧ pinv cl e (reduce_active v x p) ∧
  status (reduce_active v x p) = status p.
Proof.
  intros Hp Hx. pose proof (reduce_vote_weight_tally p v x Hx (pi_tally _ _ _ Hp)) as Ht.
  unfold reduce_active. case_bool_decide as Hst; [|by eauto using kept_refl].
  unfold reduce_vote_weight in *.
  destruct (voters p !! v); [|by eauto using kept_refl]. cbn zeta in *.
  destruct (_ =? _); [by eauto using kept_refl|].
  split_and!; [apply kept_votes|by apply pinv_votes|done].
Qed.

Lemma close_proposal_kept cl e total p :
  pinv cl e p →
  let cl' := cl ++ (if closes e p then [(id p, total)] else []) in
  kept p (close_proposal total e p) ∧ pinv cl' e (close_proposal total e p) ∧
  (status (close_proposal total e p) = Executed → status p = Executed).
Proof.
  intros Hp cl'. assert (pinv cl' e p) as Hp'.
  { eapply pinv_mono; [|done|exact Hp]. unfold cl'. set_solver. }
  unfold close_proposal, closes in *.
  destruct (bool_decide (status p = Active)) eqn:Hst; cbn [andb] in *;
    [|by eauto using kept_refl].
  destruct (Z.leb_spec (end_epoch p) e); [|by eauto using kept_refl].
  unfold finalize. rewrite Hst. cbn [negb]. apply bool_decide_eq_true in Hst.
  rewrite (proj2 (Z.ltb_ge _ _)) by done.
  destruct ((_ <=? _) && _) eqn:Hq.
  - apply andb_true_iff in Hq as [Hq%Z.leb_le Hm%Z.ltb_lt]. split_and!.
    + apply kept_status; congruence.
    + apply pinv_status; [done|]. intros _. split_and!; [done..|].
      exists total. split; [unfold cl'; set_solver|lia].
    + done.
  - split_and!; [apply kept_status; congruence|apply pinv_status; naive_solver|done].
Qed.

(** *** Per step *)
Lemma ginv_quiet h cl rn h' f :
  ginv {| host := h; closed := cl; ran := rn |} →
  props h' = f <$> props h →
  next_proposal_id (governance h') = next_proposal_id (governance h) →
  host_ok h' → epoch_index h' = epoch_index h →
  (∀ p, p ∈ props h → pinv cl (epoch_index h) p →
     kept p (f p) ∧ pinv cl (epoch_index h) (f p) ∧
     (status (f p) = Executed → status p = Executed)) →
  ginv {| host := h'; closed := cl; ran := rn |}.
Proof.
  intros Hg Hps Hn [Hc Hp Hpol] He Hf.
  pose proof (ginv_fmap h cl rn h' cl f (λ _, false) Hg Hps Hn Hc Hp Hpol) as Hgoal.
  replace (filter (λ _, false = true) (props h)) with (@nil Proposal) in Hgoal.
  2: { symmetry. clear. induction (props h) as [|p ps IH]; [done|]. by rewrite filter_cons, decide_False. }
  cbn in Hgoal. rewrite app_nil_r in Hgoal. apply Hgoal.
  - lia.
  - rewrite He. apply (gi_epoch _ Hg).
  - intros p Hin Hpi. rewrite He. destruct (Hf p Hin Hpi) as (? & ? & ?). by split_and!.
Qed.

Lemma ginv_update h cl rn i g :
  ginv {| host := h; closed := cl; ran := rn |} →
  (∀ p, p ∈ props h → pinv cl (epoch_index h) p → id p = i →
     kept p (g p) ∧ pinv cl (epoch_index h) (g p) ∧
     (status (g p) = Executed → status p = Executed)) →
  ginv {| host := set_props h (update_proposal (props h) i g); closed := cl; ran := rn |}.
Proof.
  intros Hg Hf. pose proof (ids_nodup _ (gi_ids _ Hg)) as Hnd. cbn in Hnd.
  eapply (ginv_quiet h cl rn _ (λ p, if id p =? i then g p else p) Hg); [|done| |done|].
  - cbn. by apply update_proposal_fmap.
  - destruct (ginv_host_ok _ _ _ Hg). by split.
  - intros p Hin Hp. destruct (Z.eqb_spec (id p) i); [by apply Hf|by eauto using kept_refl].
Qed.

Lemma ginv_create h cl rn who t d res g :
  ginv {| host := h; closed := cl; ran := rn |} →
  create_proposal (governance h) who t (epoch_index h) d = Some (res, g) →
  ginv {| host := with_governance h g; closed := cl; ran := rn |}.
Proof.
  intros Hg. unfold create_proposal.
  destruct (check_type t) as [[]|] eqn:Ht; [|by intros [= _ <-]; destruct Hg].
  destruct ((_ <=? d) && (d <=? _)) eqn:Hd; cbn [negb]; [|by intros [= _ <-]; destruct Hg].
  destruct (_ <=? length _)%nat eqn:Hlen; [by intros [= _ <-]; destruct Hg|].
  apply Nat.leb_gt in Hlen. apply andb_true_iff in Hd as [Hd%Z.leb_le _].
  destruct (u64_checked_add (epoch_index h) d) as [e1|] eqn:He1;
    [|intros [= _ <-]; by destruct Hg]. cbn zeta.
  destruct (u64_checked_add e1 _) as [e2|] eqn:He2; [|intros [= _ <-]; by destruct Hg].
  cbn [next_proposal_id]. destruct (u64_checked_add (next_proposal_id _) 1) as [n1|] eqn:Hn1; [|done].
  cbn [mbind option_bind]. destruct (u64_checked_add (default 0 _) 1) as [c1|]; [|done].
  cbn [mbind option_bind]. intros [= _ <-].
  apply u64_checked_add_Some in He1, He2, Hn1. subst.
  destruct Hg as [Hids Hnext Hact Hprops Hc Hp Hpol Hnd Hran Hexe He]. cbn in *.
  unfold props in *. cbn.
  split; cbn [host closed ran with_governance governance proposals props next_proposal_id
    constitution registry encryption_policies epoch_index]; try done.
  - unfold ids_ok in *. cbn. rewrite fmap_app, length_app, seq_app, fmap_app, <-Hids. cbn.
    by rewrite Hnext.
  - cbn. rewrite length_app. cbn. lia.
  - cbn. rewrite filter_app, length_app, filter_cons, decide_True by done. cbn.
    unfold active_proposals in Hlen. lia.
  - cbn. apply Forall_app. split; [done|]. apply Forall_singleton. split; cbn; try done.
    + lia.
    + naive_solver.
  - cbn. intros i e' (p & Hin & Hrest)%Hran. exists p. split; [set_solver|done].
  - cbn. intros p [Hin|Hin]%elem_of_app; [by apply Hexe|].
    apply list_elem_of_singleton in Hin as ->. done.
Qed.

(** *** The loops *)
Lemma passed_ready e p :
  is_passed_and_ready e p = true ↔ status p = Passed ∧ activation_epoch p ≤ e.
Proof.
  unfold is_passed_and_ready, activation_ready. rewrite andb_true_iff, bool_decide_eq_true.
  by rewrite Z.leb_le.
Qed.

(** Running a passed and ready proposal. *)
Definition run_if (b : bool) (p : Proposal) : Proposal :=
  if b then with_status p Executed else p.

Lemma run_if_kept cl e b p :
  (b = true → is_passed_and_ready e p = true) → pinv cl e p →
  kept p (run_if b p) ∧ pinv cl e (run_if b p) ∧
  (b = true → status p ≠ Executed ∧ status (run_if b p) = Executed ∧ activation_epoch p ≤ e) ∧
  (b = false → run_if b p = p).
Proof.
  intros Hb Hp. destruct b; cbn [run_if]; [|by eauto using kept_refl].
  destruct (proj1 (passed_ready _ _) (Hb eq_refl)) as [Hst Hle].
  split; [apply kept_status; congruence|]. split; [apply pinv_status; [done|]|].
  - intros _. apply (pi_decided _ _ _ Hp). by left.
  - split; [|done]. intros _. split; [congruence|done].
Qed.

Lemma execute_passed_loop_spec ps e :
  execute_passed_loop ps e =
  (omap (λ p, action_of (p_type p)) (filter (λ p, block_executes e p = true) ps),
   (λ p, run_if (block_executes e p) p) <$> ps).
Proof.
  induction ps as [|p ps IH]; [done|]. cbn [execute_passed_loop]. rewrite IH.
  rewrite filter_cons, fmap_cons. unfold block_executes.
  destruct (is_passed_and_ready e p); cbn [andb]; [|done].
  destruct (action_of (p_type p)) as [a|] eqn:Ha.
  - rewrite bool_decide_true by by eexists. rewrite decide_True by done.
    cbn [omap list_omap]. by rewrite Ha.
  - rewrite bool_decide_false by by intros [? ?]. done.
Qed.

Definition action_ok (a : GovernanceAction) : Prop :=
  match a with
  | AVerifyHubApp _ => False
  | ASetEncryptionPolicy policy => Policy.validate policy = Ok ()
  | ASetConstitutionParameter parameter => Constitution.validate_update parameter = Ok ()
  | _ => True
  end.

Lemma action_of_ok t a : check_type t = Ok () → action_of t = Some a → action_ok a.
Proof.
  destruct t; cbn; intros Ht [= <-]; cbn; try done.
  - by destruct (Policy.validate policy) as [[]|].
  - by destruct (Constitution.validate_update parameter) as [[]|].
Qed.

Lemma apply_actions_ok h acts :
  host_ok h → Forall action_ok acts → (apply_actions h acts).1 = Ok ().
Proof.
  intros Hh Hacts. revert h Hh. induction Hacts as [|a acts Ha _ IH]; intros h Hh; [done|].
  cbn [apply_actions]. destruct (apply_action_framed h a) as (_ & _ & _ & Hok).
  assert ((apply_action h a).1 = Ok ()) as Hres.
  { destruct a; cbn in Ha |- *; try done.
    - unfold set_encryption_policy. by rewrite Ha.
    - pose proof (Constitution.set_parameter_spec _ parameter (ho_constitution _ Hh)) as Hs.
      rewrite Ha in Hs. by destruct Hs as [-> _]. }
  destruct (apply_action h a) as [r h1]. cbn in Hres, Hok. rewrite Hres. auto.
Qed.

Lemma ginv_block h cl rn :
  ginv {| host := h; closed := cl; ran := rn |} →
  (apply_block_governance h).1 = Ok () ∧
  ginv {| host := (apply_block_governance h).2; closed := cl;
          ran := rn ++ log_run (epoch_index h)
                   (filter (λ p, block_executes (epoch_index h) p = true) (props h)) |}.
Proof.
  intros Hg. pose proof (ginv_host_ok _ _ _ Hg) as Hh. unfold apply_block_governance.
  unfold execute_passed_proposals. rewrite execute_passed_loop_spec.
  set (acts := omap _ _). set (h1 := with_governance h _).
  assert (host_ok h1) as Hh1 by (destruct Hh; by split). split.
  - apply apply_actions_ok; [done|]. apply Forall_forall.
    intros a (p & [_ Hin]%list_elem_of_filter & Ha)%list_elem_of_omap.
    eapply action_of_ok; [|exact Ha]. pose proof (gi_props _ Hg) as Hp.
    rewrite Forall_forall in Hp. by apply (pi_type _ _ _ (Hp p Hin)).
  - destruct (apply_actions_framed h1 acts) as (Hps & Hn & He & Hok).
    destruct (Hok Hh1) as [Hc Hpar Hpol].
    eapply (ginv_fmap h cl rn _ cl _ (block_executes (epoch_index h)) Hg);
      [exact Hps|exact Hn|done..|by rewrite He|rewrite He; apply (gi_epoch _ Hg)|].
    intros p Hin Hp. rewrite He. cbn [h1 with_governance epoch_index].
    destruct (run_if_kept cl (epoch_index h) (block_executes (epoch_index h) p) p) as (? & ? & ? & Hno).
    + unfold block_executes. by intros [? _]%andb_true_iff.
    + done.
    + split; [done|]. split; [done|]. split; [done|]. intros Hb. by rewrite (Hno Hb).
Qed.

Lemma close_proposal_id total e p : id (close_proposal total e p) = id p.
Proof. unfold close_proposal, finalize. by repeat case_match. Qed.

Section epoch.
Context `{Sha256} (report_bytes : Evidence.SlashingReport → bytes).

(** The proposals after an epoch close. *)
Lemma advance_epoch_props h total h' :
  ids_ok (props h) → get_total_stake h = Some total → advance_epoch report_bytes h = Some h' →
  props h' = (λ p, run_if (close_executes total (epoch_index h) p)
                     (close_proposal total (epoch_index h) p)) <$> props h ∧
  next_proposal_id (governance h') = next_proposal_id (governance h) ∧
  epoch_index h' = u64_sat_add (epoch_index h) 1 ∧ (host_ok h → host_ok h').
Proof.
  intros Hids Htot. unfold advance_epoch. rewrite Htot. cbn [mbind option_bind].
  change (proposals (governance h)) with (props h).
  set (e := epoch_index h). set (ps := close_proposal total e <$> props h).
  set (xs := filter _ ps). set (h1 := with_governance h _). intros [= <-].
  assert (id <$> ps = id <$> props h) as Hpsid.
  { unfold ps. rewrite <-list_fmap_compose. apply list_fmap_ext. intros k p _.
    apply close_proposal_id. }
  assert (ids_ok ps) as Hids'.
  { unfold ids_ok. rewrite Hpsid. unfold ps. by rewrite length_fmap. }
  destruct (run_proposals_framed report_bytes xs h1) as [Hps (_ & Hn & He & Hok)];
    [by apply ids_nodup|]. cbn zeta in *.
  split; [|split_and!].
  - change (props (fold_left (run_proposal report_bytes) xs h1) =
      (λ p, run_if (close_executes total e p) (close_proposal total e p)) <$> props h).
    rewrite Hps. change (props h1) with ps. unfold ps at 1.
    rewrite <-list_fmap_compose. apply list_fmap_ext. intros k p Hk. cbn.
    set (q := close_proposal total e p).
    assert (q ∈ ps) as Hq
      by (unfold ps; apply list_elem_of_fmap_2; by eapply list_elem_of_lookup_2).
    assert (id q ∈ id <$> xs ↔ close_executes total e p = true) as Hiff.
    { split.
      - intros (q' & Hid & [Hr Hin]%list_elem_of_filter)%list_elem_of_fmap.
        by rewrite <-(ids_unique ps q q' Hids' Hq Hin Hid) in Hr.
      - intros Hr. by apply list_elem_of_fmap_2, list_elem_of_filter. }
    unfold run_if. destruct (close_executes total e p) eqn:Hc;
      [rewrite bool_decide_true by by apply Hiff|rewrite bool_decide_false by by intros ?%Hiff];
      done.
  - exact Hn.
  - cbn. rewrite He. done.
  - intros Hh. destruct Hok as [???]; [by destruct Hh|by split].
Qed.

Lemma ginv_epoch h cl rn total h' :
  ginv {| host := h; closed := cl; ran := rn |} →
  get_total_stake h = Some total → advance_epoch report_bytes h = Some h' →
  ginv {| host := h';
          closed := cl ++ ((λ p, (id p, total)) <$>
                      filter (λ p, closes (epoch_index h) p = true) (props h));
          ran := rn ++ log_run (epoch_index h)
                   (filter (λ p, close_executes total (epoch_index h) p = true) (props h)) |}.
Proof.
  intros Hg Htot Hadv.
  destruct (advance_epoch_props h total h' (gi_ids _ Hg) Htot Hadv) as (Hps & Hn & He & Hok).
  destruct (Hok (ginv_host_ok _ _ _ Hg)) as [Hc Hpar Hpol].
  pose proof (gi_epoch _ Hg) as Hu. cbn in Hu.
  assert (epoch_index h ≤ epoch_index h') as Hle
    by (rewrite He; unfold u64, u64_sat_add in *; lia).
  eapply ginv_fmap; [exact Hg|exact Hps|exact Hn|done..| |].
  { rewrite He. apply u64_sat_add_range; unfold u64 in Hu; lia. }
  intros p Hin Hp.
  destruct (close_proposal_kept cl (epoch_index h) total p Hp) as (Hk & Hq & Hx).
  set (q := close_proposal total (epoch_index h) p) in *.
  destruct (run_if_kept _ (epoch_index h) (close_executes total (epoch_index h) p) q
    (λ Hb, Hb) Hq) as (Hk' & Hq' & Hrun & Hno).
  destruct Hk as (Hs & H1 & H2), Hk' as (Hs' & H1' & H2').
  split; [split_and!; [congruence|auto..]|]. split; [|split].
  - eapply pinv_mono; [|exact Hle|exact Hq']. intros x [Hx1|Hx1]%elem_of_app;
      apply elem_of_app; [by left|right].
    destruct (closes (epoch_index h) p) eqn:Hcl; [|by apply not_elem_of_nil in Hx1].
    apply list_elem_of_singleton in Hx1 as ->.
    apply (list_elem_of_fmap_2 (λ p, (id p, total))), list_elem_of_filter. done.
  - intros Hb. destruct (Hrun Hb) as (Hne & Hst & Hact). split; [auto|]. split; [done|].
    unfold static, activation_epoch in *. by simplify_eq; congruence.
  - intros Hb. rewrite (Hno Hb). exact Hx.
Qed.

Lemma ginv_step r r' : ginv r → step report_bytes r r' → ginv r'.
Proof.
  intros Hg Hstep. revert Hg. destruct Hstep as [h cl rn who t d res g Hcr|h cl rn i v w b Hw Hfit|h cl rn v x Hx|h cl rn i caller
    |h cl rn total h' Htot Hadv|h cl rn h' Hblk|h cl rn vs reg ws aps fee reward Hpar]; intros Hg.
  - by eapply ginv_create.
  - apply ginv_update; [done|]. intros p Hin Hp _. destruct (Hfit p Hin).
    destruct (add_vote_kept cl (epoch_index h) p v w b Hp) as (? & ? & Hst); [done..|].
    rewrite Hst. done.
  - eapply (ginv_quiet h cl rn _ (reduce_active v x) Hg); [done..| |done|].
    + by destruct (ginv_host_ok _ _ _ Hg).
    + intros p Hin Hp. destruct (reduce_active_kept cl (epoch_index h) p v x Hp Hx)
        as (? & ? & Hst). rewrite Hst. done.
  - unfold cancel_proposal.
    destruct (find_proposal (proposals (governance h)) i) as [p0|] eqn:Hfind;
      [|by destruct Hg]. destruct (negb _); [by destruct Hg|].
    case_bool_decide as Hact; cbn [negb]; [|by destruct Hg].
    apply (ginv_update h cl rn i (λ p, with_status p Failed) Hg).
    intros p Hin Hp Hid. unfold find_proposal in Hfind.
    apply fmap_Some in Hfind as ([k p1] & (Hk & Hid1 & _)%list_find_Some & ->).
    assert (p = p1) as ->.
    { apply (ids_unique _ _ _ (gi_ids _ Hg)); [done|by eapply list_elem_of_lookup_2|congruence]. }
    cbn in Hact. split_and!; [apply kept_status; congruence|apply pinv_status; naive_solver|done].
  - by eapply ginv_epoch.
  - destruct (ginv_block h cl rn Hg) as [_ Hb]. by rewrite Hblk in Hb.
  - destruct Hg as [Hids Hnext Hact Hprops Hc Hp Hpol Hnd Hran Hexe He]. cbn in *.
    split; cbn; try done. by rewrite Hpar.
Qed.

Lemma reachable_ginv r : reachable report_bytes r → ginv r.
Proof.
  induction 1 as [h [Hg Hp Hpol He]|r r' _ IH Hs]; [|by eapply ginv_step].
  split; cbn [host closed ran]; unfold props; try rewrite Hg; try rewrite Hpol; try done.
  - apply Nat.le_0_l.
  - apply Constitution.constitution_new_inv.
  - by constructor.
  - set_solver.
  - set_solver.
Qed.
End epoch.
End GovernanceRun.

(** ** The theorems *)
Module GovernanceSafety.
Import GovernanceRun.

Section safety.
Context `{Sha256} (report_bytes : Evidence.SlashingReport → bytes).

(** C4: a proposal is run at most once, and only after all of its safeguards:
    a voting window of at least ten epochs, a strict majority, 33% of the
    stake that was active when it was closed, and an activation delay of at
    least five epochs after the window; and no proposal counts as executed
    without having been run. *)
Theorem governance_timelock r :
  reachable report_bytes r →
  NoDup (ran r).*1 ∧
  (∀ i e, (i, e) ∈ ran r →
    ∃ p total, p ∈ props (host r) ∧ id p = i ∧ status p = Executed ∧
      start_epoch p + MIN_PROPOSAL_DURATION ≤ end_epoch p ∧
      5 ≤ activation_delay_epochs (p_type p) ∧
      end_epoch p + activation_delay_epochs (p_type p) ≤ e ∧
      votes_against p < votes_for p ∧
      (i, total) ∈ closed r ∧ total * QUORUM_PCT ≤ (votes_for p + votes_against p) * 100) ∧
  (∀ p, p ∈ props (host r) → status p = Executed → id p ∈ (ran r).*1).
Proof.
  intros [Hids _ _ Hprops _ _ _ Hnd Hran Hexe _]%reachable_ginv.
  split; [done|]. split; [|done]. intros i e (p & Hin & <- & Hst & Hle & _)%Hran.
  rewrite Forall_forall in Hprops. destruct (Hprops p Hin) as [_ Hw Ha _ Hd].
  destruct Hd as (_ & Hmaj & total & Hcl & Hq); [by right|].
  unfold activation_epoch in Hle. rewrite Ha in Hle. cbn in Hle.
  exists p, total. split_and!; try done. by destruct (p_type p).
Qed.

(** The two counters of a proposal are at all times the sums of the
    weights of the votes recorded for and against it, one vote per address,
    and a second vote of an address is refused. *)
Theorem governance_tally_exact r p :
  reachable report_bytes r → p ∈ props (host r) →
  votes_for p = tally true p ∧ votes_against p = tally false p ∧
  dom (voters p) = dom (voter_weights p) ∧
  (∀ voter w b e, is_Some (voters p !! voter) →
    (add_vote p voter w b e).2 = p ∧ is_ok (add_vote p voter w b e).1 = false).
Proof.
  intros Hr Hin. pose proof (gi_props _ (reachable_ginv report_bytes r Hr)) as Hp.
  rewrite Forall_forall in Hp. destruct (pi_tally _ _ _ (Hp p Hin)) as (Hf & Ha & Hd & _).
  split_and!; [done..|]. intros voter w b e Hv. unfold add_vote.
  destruct (negb _); [done|]. destruct (_ <=? _); [done|]. by rewrite bool_decide_true.
Qed.

(** The governance part of a block never fails, so no passed proposal can
    stop block production: everything that could be refused when an action
    is applied was refused when its proposal was created. *)
Theorem governance_block_never_fails r :
  reachable report_bytes r → (apply_block_governance (host r)).1 = Ok ().
Proof.
  intros Hg%reachable_ginv. destruct r as [h cl rn]. by apply (ginv_block h cl rn).
Qed.

(** Whatever passes, the governed state stays within its guards: hard
    guardrails keep their value, the parameters of the registry validate, so
    do all encryption policies, identifiers are positions in the list of
    proposals, and at most a hundred proposals are active. *)
Theorem governance_state_guarded r :
  reachable report_bytes r →
  let h := host r in
  (∀ k, Constitution.is_hard_guardrail k = true →
     Constitution.get (constitution (governance h)) k = Some (Constitution.hard_default k)) ∧
  validate (Registry.params (registry h)) = Ok () ∧
  (∀ v pol, encryption_policies h !! v = Some pol → Policy.validate pol = Ok ()) ∧
  (∀ n p, proposals (governance h) !! n = Some p → id p = Z.of_nat n) ∧
  next_proposal_id (governance h) = Z.of_nat (length (proposals (governance h))) ∧
  (length (active_proposals (governance h)) ≤ 100)%nat.
Proof.
  intros [Hids Hnext Hact _ Hc Hpar Hpol _ _ _ _]%reachable_ginv h.
  split_and!; try done.
  - intros k Hk. apply (Constitution.inv_hard _ Hc k Hk).
  - intros v pol Hv. by apply (Hpol v pol).
  - intros n p Hn. pose proof (f_equal (λ l, l !! n) Hids) as Hl. cbn in Hl.
    rewrite !list_lookup_fmap in Hl. change (proposals (governance h)) with (props (host r)) in Hn.
    rewrite Hn, lookup_seq_lt in Hl by by eapply lookup_lt_Some. cbn in Hl. by simplify_eq.
Qed.

(** A passed slash takes a validator's stake only when the registry holds
    a slashing record of that account in the validator role whose report
    hashes to the digest voters approved, and it touches no other validator;
    without such a record nothing changes. *)
Theorem governance_slash_needs_evidence h p address digest :
  p_type p = SlashValidator address digest →
  let h' := execute_proposal report_bytes h p in
  (∀ a, a ≠ address → validators h' !! a = validators h !! a) ∧
  (h' ≠ h →
   ∃ rec, rec ∈ Registry.slashing_history (registry h) ∧
     Evidence.offender (Registry.report rec) = address ∧
     Evidence.role (Registry.report rec) = Role.VALIDATOR ∧
     sha256 (report_bytes (Registry.report rec)) = digest) ∧
  (∀ v rec, validators h !! address = Some v →
     rec ∈ Registry.slashing_history (registry h) →
     Evidence.offender (Registry.report rec) = address →
     Evidence.role (Registry.report rec) = Role.VALIDATOR →
     sha256 (report_bytes (Registry.report rec)) = digest →
     ∃ v', validators h' !! address = Some v' ∧
       stake v' = 0 ∧ active v' = false ∧ slashed v' = true).
Proof.
  intros Ht. unfold execute_proposal. rewrite Ht.
  assert (evidence_matches report_bytes h address digest = true ↔
    ∃ rec, rec ∈ Registry.slashing_history (registry h) ∧
     Evidence.offender (Registry.report rec) = address ∧
     Evidence.role (Registry.report rec) = Role.VALIDATOR ∧
     sha256 (report_bytes (Registry.report rec)) = digest) as Hev.
  { unfold evidence_matches. rewrite existsb_exists. unfold Registry.slashing_history_for.
    setoid_rewrite <-list_elem_of_In. setoid_rewrite list_elem_of_filter.
    setoid_rewrite andb_true_iff. setoid_rewrite bool_decide_eq_true. naive_solver. }
  destruct (evidence_matches report_bytes h address digest); cbn [negb].
  - split; [|split; [by intros _; apply Hev|]].
    + intros a Ha. destruct (validators h !! address); [|done]. cbn.
      by rewrite lookup_insert_ne.
    + intros v rec -> _ _ _ _. cbn. rewrite lookup_insert_eq. by eexists.
  - split; [done|]. split; [done|]. intros v rec _ ? ? ? ?.
    discriminate (proj2 Hev). by exists rec.
Qed.
End safety.
End GovernanceSafety.

(** ** A run: one proposal, voted, closed, delayed, executed *)
Module GovernanceExamples.
Import GovernanceRun GovernanceSafety.

Definition no_bytes (_ : Evidence.SlashingReport) : bytes := [].

Definition alice : Address := [1].

Definition member (x : Z) : Validator :=
  {| stake := x; active := true; slashed := false; jailed := false; jail_until := 0;
     consensus_ready := true |}.

Definition genesis_host : AccountState :=
  {| base_fee := 1; tokenomics := Tokenomics.default_params;
     validators := {[ alice := member 60; [2] := member 40 ]};
     registry := Registry.new; verifier_whitelist := ∅; apps := ∅; encryption_policies := ∅;
     governance := state_default; pending_domain_unfreezes := []; epoch_index := 0 |}.

Definition start : run := {| host := genesis_host; closed := []; ran := [] |}.

Definition propose (t : ProposalType) (d : Z) (r : run) : run :=
  match create_proposal (governance (host r)) alice t (epoch_index (host r)) d with
  | Some (_, g) => {| host := with_governance (host r) g; closed := closed r; ran := ran r |}
  | None => r
  end.

Definition vote (i : Z) (r : run) : run :=
  {| host := set_props (host r) (update_proposal (props (host r)) i
       (λ p, (add_vote p alice 60 true (epoch_index (host r))).2));
     closed := closed r; ran := ran r |}.

Definition epoch (r : run) : run :=
  match get_total_stake (host r), advance_epoch (H := poly_sha256) no_bytes (host r) with
  | Some total, Some h' =>
      {| host := h';
         closed := closed r ++ ((λ p, (id p, total)) <$>
                     filter (λ p, closes (epoch_index (host r)) p = true) (props (host r)));
         ran := ran r ++ log_run (epoch_index (host r))
                  (filter (λ p, close_executes total (epoch_index (host r)) p = true)
                     (props (host r))) |}
  | _, _ => r
  end.

Abbreviation reached := (reachable (H := poly_sha256) no_bytes).

Lemma start_reached : reached start.
Proof.
  apply reach_genesis. split; [reflexivity|vm_compute; reflexivity|reflexivity|].
  split; vm_compute; discriminate.
Defined.

Lemma propose_reached t d r : reached r → reached (propose t d r).
Proof.
  intros Hr. unfold propose. destruct (create_proposal _ _ _ _ _) as [[res g]|] eqn:Hc; [|exact Hr].
  destruct r as [h cl rn]. eapply reach_step; [exact Hr|]. by eapply step_create.
Defined.

Lemma epoch_reached r : reached r → reached (epoch r).
Proof.
  intros Hr. unfold epoch. destruct (get_total_stake (host r)) as [total|] eqn:Ht; [|exact Hr].
  destruct (advance_epoch no_bytes (host r)) as [h'|] eqn:Ha; [|exact Hr].
  destruct r as [h cl rn]. eapply reach_step; [exact Hr|]. by apply step_epoch.
Defined.

Definition voted : run :=
  Eval vm_compute in vote 0 (propose (ParameterUpdate "unbonding_epochs" "14") 10 start).

Lemma voted_reached : reached voted.
Proof.
  set (r := propose (ParameterUpdate "unbonding_epochs" "14") 10 start).
  assert (reached r) as Hr by apply propose_reached, start_reached.
  change (reached (vote 0 r)). apply (reach_step _ r); [exact Hr|].
  apply (step_vote _ (host r) (closed r) (ran r) 0 alice 60 true); [discriminate|].
  assert (Forall (λ p, votes_for p + 60 ≤ u64_max ∧ votes_against p + 60 ≤ u64_max)
    (props (host r))) as Hall.
  { constructor; [|constructor]. split; vm_compute; discriminate. }
  intros p Hin. rewrite Forall_forall in Hall. by apply Hall.
Defined.

(** Ten epochs of voting, ten of delay, and the close that runs it. *)
Definition executed : run := Eval vm_compute in Nat.iter 21 epoch voted.

Lemma executed_reached : reached executed.
Proof.
  change (reached (Nat.iter 21 epoch voted)). generalize 21%nat. intros n.
  induction n as [|n IH]; [exact voted_reached|apply epoch_reached, IH].
Defined.

Lemma governance_timelock_witness :
  ran executed = [(0, 20)] ∧ unbonding_epochs (Registry.params (registry (host executed))) = 14 ∧
  ∃ p total, id p = 0 ∧ end_epoch p + activation_delay_epochs (p_type p) ≤ 20 ∧
    total * QUORUM_PCT ≤ (votes_for p + votes_against p) * 100.
Proof.
  split; [reflexivity|]. split; [reflexivity|].
  destruct (governance_timelock (H := poly_sha256) no_bytes executed executed_reached) as (_ & Hr & _).
  destruct (Hr 0 20) as (p & total & _ & Hid & _ & _ & _ & Hle & _ & _ & Hq);
    [apply list_elem_of_singleton; reflexivity|].
  exact (ex_intro _ p (ex_intro _ total (conj Hid (conj Hle Hq)))).
Defined.

Lemma governance_tally_exact_witness :
  Forall (λ p, votes_for p = tally true p ∧ votes_for p = 60) (props (host voted)).
Proof.
  constructor; [|constructor]. split; [|reflexivity].
  refine (proj1 (governance_tally_exact (H := poly_sha256) no_bytes voted _ voted_reached _)).
  apply list_elem_of_singleton. reflexivity.
Defined.

Lemma governance_block_never_fails_witness :
  (apply_block_governance (host executed)).1 = Ok ().
Proof.
  exact (governance_block_never_fails (H := poly_sha256) no_bytes executed executed_reached).
Defined.

Lemma governance_state_guarded_witness :
  validate (Registry.params (registry (host executed))) = Ok () ∧
  next_proposal_id (governance (host executed)) = 1.
Proof.
  destruct (governance_state_guarded (H := poly_sha256) no_bytes executed executed_reached)
    as (_ & Hp & _ & _ & Hn & _).
  split; [exact Hp|exact Hn].
Defined.

Definition offence : Evidence.SlashingReport :=
  Evidence.consensus_double_sign alice 5 [1] [2] [3] [4] None.

Definition accused_host : AccountState :=
  with_registry genesis_host
    {| Registry.registrations := ∅; Registry.params := default_params;
       Registry.slashing_history := [{| Registry.report := offence; Registry.rec_penalty := 30;
                                        Registry.rec_remaining_stake := 30 |}] |}.

Definition slash_alice : Proposal :=
  proposal_new 0 [2] (SlashValidator alice (sha256 (Sha256 := poly_sha256) (no_bytes offence))) 0 10.

Lemma governance_slash_needs_evidence_witness :
  let h' := execute_proposal (H := poly_sha256) no_bytes accused_host slash_alice in
  validators h' !! [2] = validators accused_host !! [2] ∧
  ∃ v', validators h' !! alice = Some v' ∧ stake v' = 0 ∧ active v' = false ∧ slashed v' = true.
Proof.
  destruct (governance_slash_needs_evidence (H := poly_sha256) no_bytes accused_host
    slash_alice alice _ eq_refl) as (Hother & _ & Hslash).
  split; [apply Hother; discriminate|].
  eapply Hslash; [vm_compute; reflexivity|apply list_elem_of_singleton; reflexivity|
    reflexivity..].
Defined.
End GovernanceExamples.
