(* ===== verification/Commitments.v ===== *)
(** * The settlement of domain commitments

    The part of [src/chain/blockchain.rs] that takes a finalized commitment of
    a consensus domain: [accept_domain_commitment] stages it, freezes the
    domain when it contradicts an earlier one, and
    [apply_pending_commitments] advances the domain along the staged
    commitments; [submit_verified_domain_commitment] anchors the state root;
    [apply_pending_domain_unfreezes] applies what governance decided.  The
    quarantine ledger is [src/registry/quarantine_ledger.rs].

    [Quarantine] and [Settle] hold the definitions, [SettleRun] the runs and
    their invariant, [SettleSafety] the theorems.  The verdict of the domain's
    finality adapter is an argument of the submission, so the theorems hold
    whatever the adapters accept.  SHA3-256 is a parameter. *)
From stdpp Require Import base tactics numbers list gmap strings sorting pretty.
From Stdlib Require Import ZArith Lia.
From S2P Require Import Prelude Merkle Messages Domains.
From S2P Require Import Economics Registry Constitution Governance.
Import Message Domain Commitment.

(** SHA3-256. *)
Class Sha3 := sha3 : bytes → bytes.

(** ** The quarantine ledger *)
Module Quarantine.

Inductive QuarantineReason := Equivocation (detail : str) | OperatorSlash (detail : str).

Record QuarantineEntry := { target_id : Hash32; reason : QuarantineReason; q_height : Z }.

Record AlarmEntry := {
  alarm_id : Hash32;
  code : str;
  alarm_message : str;
  a_height : Z;
  severity : Z;
}.

Record QuarantineLedger := {
  quarantined_entities : gmap Hash32 QuarantineEntry;
  alarms : gmap Hash32 AlarmEntry;
}.

Definition new : QuarantineLedger := {| quarantined_entities := ∅; alarms := ∅ |}.

Section ledger.
Context `{Sha3}.

Definition domain_target (i : DomainId) : Hash32 :=
  sha3 (bstr "quarantine_domain_v1" ++ le_bytes 4 i).

Definition quarantine_entity (q : QuarantineLedger) (target : Hash32) (r : QuarantineReason)
    (height : Z) : QuarantineLedger :=
  {| quarantined_entities :=
       <[target := {| target_id := target; reason := r; q_height := height |}]>
         (quarantined_entities q);
     alarms := alarms q |}.

Definition alarm_preimage (code msg : str) (height severity : Z) : bytes :=
  bstr "BDLM_BUDZERO_ALARMLOG_V1" ++ le_bytes 8 (Z.of_nat (length (utf8 code))) ++ utf8 code ++
  le_bytes 8 (Z.of_nat (length (utf8 msg))) ++ utf8 msg ++ le_bytes 8 height ++ [severity].

Definition record_alarm (q : QuarantineLedger) (code msg : str) (height severity : Z) :
    Hash32 * QuarantineLedger :=
  let alarm := sha3 (alarm_preimage code msg height severity) in
  (alarm,
   {| quarantined_entities := quarantined_entities q;
      alarms := <[alarm := {| alarm_id := alarm; code := code; alarm_message := msg;
                              a_height := height; severity := severity |}]> (alarms q) |}).
End ledger.
End Quarantine.

(** ** Settlement *)
Module Settle.

Record State := {
  domain_registry : ConsensusDomainRegistry;
  commitment_registry : DomainCommitmentRegistry;
  quarantine_ledger : Quarantine.QuarantineLedger;
  external_roots : gmap DomainId Hash32;
}.

Definition with_domains (s : State) r : State :=
  {| domain_registry := r; commitment_registry := commitment_registry s;
     quarantine_ledger := quarantine_ledger s; external_roots := external_roots s |}.

Definition with_commitments (s : State) r : State :=
  {| domain_registry := domain_registry s; commitment_registry := r;
     quarantine_ledger := quarantine_ledger s; external_roots := external_roots s |}.

Definition with_ledger (s : State) q : State :=
  {| domain_registry := domain_registry s; commitment_registry := commitment_registry s;
     quarantine_ledger := q; external_roots := external_roots s |}.

Definition with_roots (s : State) m : State :=
  {| domain_registry := domain_registry s; commitment_registry := commitment_registry s;
     quarantine_ledger := quarantine_ledger s; external_roots := m |}.

Definition state_new : State :=
  {| domain_registry := registry_new; commitment_registry := Commitment.new;
     quarantine_ledger := Quarantine.new; external_roots := ∅ |}.

Inductive SettleError :=
  | UnknownConsensusDomain (i : DomainId)
  | DomainFrozen (i : DomainId)
  | DomainNotActive (i : DomainId)
  | KindMismatch (i : DomainId)
  | ValidatorSetMismatch (i : DomainId)
  | EquivocationDetected (i : DomainId) (height : Z)
  | StaleCommitment (i : DomainId) (height : Z)
  | TooManyStateUpdates (n : nat)
  | NonceInvariant (i : DomainId) (height : Z)
  | NonceNearMax (i : DomainId) (a : Address)
  | InsertRefused (e : CommitmentError)
  | ParentMismatch (i : DomainId) (height : Z)
  | HeightOverflow
  | NotFinalized
  | ZeroStateRoot (i : DomainId) (height : Z)
  | AnchorFailed.

Definition validate_domain_commitment_metadata (s : State) (c : DomainCommitment) :
    result SettleError ConsensusDomain :=
  let? d := ok_or (Domain.get (domain_registry s) (c_domain_id c))
              (UnknownConsensusDomain (c_domain_id c)) in
  if bool_decide (status d = Frozen) then Err (DomainFrozen (c_domain_id c))
  else if negb (is_active d) then Err (DomainNotActive (c_domain_id c))
  else if bool_decide (kind d ≠ consensus_kind c) then Err (KindMismatch (c_domain_id c))
  else Ok d.

Section settle.
Context `{Sha3}.
(** [get_nonce] of the account state, and [chain.len()]. *)
Variable get_nonce : Address → Z.
Variable chain_len : Z.

Fixpoint check_updates (i : DomainId) (height : Z) (updates : list (Address * Z)) :
    result SettleError () :=
  match updates with
  | [] => Ok ()
  | (a, n) :: updates =>
      if n <=? get_nonce a then Err (NonceInvariant i height)
      else if u64_max - 1000 <=? n then Err (NonceNearMax i a)
      else check_updates i height updates
  end.

Definition validate_commitment_state_updates (c : DomainCommitment) : result SettleError () :=
  if (MAX_STATE_UPDATES <? size (state_updates c))%nat
  then Err (TooManyStateUpdates (size (state_updates c)))
  else check_updates (c_domain_id c) (c_height c) (btree_list (state_updates c)).

Definition record_quarantine_event (s : State) (target : Hash32)
    (reason : Quarantine.QuarantineReason) (code msg : str) (severity : Z) : State :=
  let q := Quarantine.quarantine_entity (quarantine_ledger s) target reason chain_len in
  with_ledger s (Quarantine.record_alarm q code msg chain_len severity).2.

(** [{}] of an unsigned integer in a format string. *)
Definition dec (x : Z) : str := lit (pretty (Z.to_N x)).

(** The two branches that find a conflicting commitment. *)
Definition freeze_for_equivocation (s : State) (d : ConsensusDomain) (c : DomainCommitment) :
    result SettleError () * State :=
  let i := c_domain_id c in
  let s := with_domains s (put (domain_registry s) i (Domain.with_status d Frozen)) in
  let s := record_quarantine_event s (Quarantine.domain_target i)
             (Quarantine.Equivocation (lit "conflict at domain height " ++ dec (c_height c)))
             (lit "DOMAIN_EQUIVOCATION")
             (lit "domain " ++ dec i ++ lit " equivocation at height " ++ dec (c_height c)) 4 in
  (Err (EquivocationDetected i (c_height c)), s).

(** The [loop]; [None] is an exhausted budget.  The addition that finds the
    next height is checked, an overflow ends the process. *)
Fixpoint apply_pending_loop (fuel : nat) (s : State) (i : DomainId) :
    option (result SettleError () * State) :=
  match fuel with
  | O => None
  | S fuel =>
      match Domain.get (domain_registry s) i with
      | None => Some (Err (UnknownConsensusDomain i), s)
      | Some d =>
          if u64_max <=? last_committed_height d then Some (Err HeightOverflow, s)
          else
            let next_height := last_committed_height d + 1 in
            match find_by_height (commitment_registry s) i next_height with
            | None => Some (Ok (), s)
            | Some com =>
                if bool_decide (last_committed_hash d ≠ zero32 ∧
                                parent_domain_block_hash com ≠ last_committed_hash d)
                then
                  Some (Err (ParentMismatch i next_height),
                        with_domains s (put (domain_registry s) i (Domain.with_status d Frozen)))
                else
                  match validate_commitment_state_updates com with
                  | Err e => Some (Err e, s)
                  | Ok _ =>
                      let d := with_tip d next_height (domain_block_hash com) in
                      apply_pending_loop fuel (with_domains s (put (domain_registry s) i d)) i
                  end
            end
      end
  end.

(** Each round but the last consumes the commitment of another height. *)
Definition apply_pending_commitments (s : State) (i : DomainId) :
    option (result SettleError () * State) :=
  apply_pending_loop (S (Commitment.len (commitment_registry s))) s i.

Definition accept_domain_commitment (s : State) (c : DomainCommitment) :
    option (result SettleError () * State) :=
  let i := c_domain_id c in
  match validate_domain_commitment_metadata s c with
  | Err e => Some (Err e, s)
  | Ok d =>
      if bool_decide (status d = Frozen) then Some (Err (DomainFrozen i), s)
      else if bool_decide (validator_set_hash d ≠ zero32 ∧
                           c_validator_set_hash c ≠ validator_set_hash d)
      then Some (Err (ValidatorSetMismatch i), s)
      else if c_height c <=? last_committed_height d then
        match find_by_height (commitment_registry s) i (c_height c) with
        | Some existing =>
            if bool_decide (domain_block_hash existing = domain_block_hash c)
            then Some (Ok (), s)
            else Some (freeze_for_equivocation s d c)
        | None =>
            if (c_height c =? last_committed_height d) &&
               bool_decide (domain_block_hash c = last_committed_hash d)
            then Some (Ok (), s)
            else Some (Err (StaleCommitment i (c_height c)), s)
        end
      else
        match find_by_height (commitment_registry s) i (c_height c) with
        | Some existing =>
            if bool_decide (domain_block_hash existing = domain_block_hash c) &&
               (sequence existing =? sequence c)
            then Some (Ok (), s)
            else Some (freeze_for_equivocation s d c)
        | None =>
            let checked :=
              if c_height c =? last_committed_height d + 1
              then validate_commitment_state_updates c else Ok () in
            match checked with
            | Err e => Some (Err e, s)
            | Ok _ =>
                match Commitment.insert (commitment_registry s) c with
                | (Err e, r) => Some (Err (InsertRefused e), with_commitments s r)
                | (Ok _, r) => apply_pending_commitments (with_commitments s r) i
                end
            end
        end
  end.

Definition anchor_external_root (s : State) (i : DomainId) (root : Hash32) : bool * State :=
  if bool_decide (root = zero32) then (false, s)
  else (true, with_roots s (<[i := root]> (external_roots s))).

(** [finalized] is the verdict of [verify_domain_commitment_finality], which
    reads the state and does not change it. *)
Definition submit_verified_domain_commitment (s : State) (c : DomainCommitment)
    (finalized : bool) : option (result SettleError () * State) :=
  if negb finalized then Some (Err NotFinalized, s)
  else if bool_decide (state_root c = zero32)
  then Some (Err (ZeroStateRoot (c_domain_id c) (c_height c)), s)
  else
    '(r, s) ← accept_domain_commitment s c;
    Some (let? _ := r at s in
          let '(anchored, s) := anchor_external_root s (c_domain_id c) (state_root c) in
          if anchored then (Ok (), s) else (Err AnchorFailed, s)).
End settle.

(** One request of [apply_pending_domain_unfreezes]. *)
Definition unfreeze_one (acc : Z * ConsensusDomainRegistry) (req : Host.PendingDomainUnfreeze) :
    Z * ConsensusDomainRegistry :=
  let '(unfrozen, r) := acc in
  let i := Host.domain_id req in
  match Domain.get r i with
  | None => acc
  | Some d =>
      if bool_decide (status d ≠ Frozen) then acc
      else if bool_decide (Host.expected_validator_set_hash req ≠ zero32 ∧
                           validator_set_hash d ≠ Host.expected_validator_set_hash req)
      then acc
      else
        match transition_status_checked r i Active with
        | (Ok _, r) => (unfrozen + 1, r)
        | (Err _, r) => (unfrozen, r)
        end
  end.

Definition apply_pending_domain_unfreezes (s : State)
    (pending : list Host.PendingDomainUnfreeze) : Z * State :=
  let '(unfrozen, r) := fold_left unfreeze_one pending (0, domain_registry s) in
  (unfrozen, with_domains s r).
End Settle.

(** ** Runs *)
Module SettleRun.
Import Settle.

(** The chain of staged commitments from [(h0, hash0)] up to a tip: each
    names its predecessor as parent, unless the predecessor's hash is zero. *)
Inductive applied (r : DomainCommitmentRegistry) (i : DomainId) (h0 : Z) (hash0 : Hash32) :
    Z → Hash32 → Prop :=
  | applied_base : applied r i h0 hash0 h0 hash0
  | applied_next h hash c :
      applied r i h0 hash0 h hash →
      commitments r !! slot_of c = Some c → at_height i (h + 1) c →
      hash = zero32 ∨ parent_domain_block_hash c = hash →
      applied r i h0 hash0 (h + 1) (domain_block_hash c).

(** A state with the tip each domain was registered with. *)
Record Config := { st : State; base : gmap DomainId (Z * Hash32) }.

(** Slots and heights of the commitment registry. *)
Record registry_ok (r : DomainCommitmentRegistry) : Prop := {
  ok_slot : ∀ k c, commitments r !! k = Some c → slot_of c = k;
  ok_unique : ∀ k1 k2 c1 c2, commitments r !! k1 = Some c1 → commitments r !! k2 = Some c2 →
    c_domain_id c1 = c_domain_id c2 → c_height c1 = c_height c2 → c1 = c2;
}.

Definition chain_ok (s : State) (b : gmap DomainId (Z * Hash32)) : Prop :=
  ∀ i d, Domain.get (domain_registry s) i = Some d →
    ∃ h0 hash0, b !! i = Some (h0, hash0) ∧
      applied (commitment_registry s) i h0 hash0 (last_committed_height d) (last_committed_hash d).

Record sinv (x : Config) : Prop := {
  inv_registry : registry_ok (commitment_registry (st x));
  inv_chain : chain_ok (st x) (base x);
}.

Lemma get_put r i d j : Domain.get (put r i d) j = if decide (i = j) then Some d else Domain.get r j.
Proof. unfold Domain.get, put. simpl. apply lookup_insert. Qed.

Lemma applied_mono r r' i h0 hash0 h hash :
  (∀ k c, commitments r !! k = Some c → commitments r' !! k = Some c) →
  applied r i h0 hash0 h hash → applied r' i h0 hash0 h hash.
Proof. intros Hsub. induction 1; econstructor; eauto. Qed.

Lemma find_by_height_unique r i h k c :
  registry_ok r → commitments r !! k = Some c → at_height i h c → find_by_height r i h = Some c.
Proof.
  intros Hok Hk Hat. destruct (find_by_height r i h) as [c'|] eqn:Hf.
  - apply find_by_height_Some in Hf as (Hi & Hh & k' & Hk'). f_equal.
    destruct Hat. eapply (ok_unique r Hok); eauto; congruence.
  - by destruct (find_by_height_None _ _ _ Hf k c Hk).
Qed.

Lemma commitment_insert_ok r c r' :
  Commitment.insert r c = (Ok (), r') →
  commitments r !! slot_of c = None ∧ commitments r' = <[slot_of c := c]> (commitments r).
Proof.
  unfold Commitment.insert. repeat case_bool_decide; intros; simplify_eq/=.
  split; [|done]. by apply eq_None_not_Some.
Qed.

Lemma insert_registry_ok r c r' :
  registry_ok r → find_by_height r (c_domain_id c) (c_height c) = None →
  Commitment.insert r c = (Ok (), r') → registry_ok r'.
Proof.
  intros [Hslot Huniq] Hf Hi. apply commitment_insert_ok in Hi as [Hnone Heq].
  pose proof (find_by_height_None _ _ _ Hf) as Hno. split.
  - intros k c' Hk. rewrite Heq in Hk. apply lookup_insert_Some in Hk as [[<- <-]|[_ Hk]]; eauto.
  - intros k1 k2 c1 c2 Hk1 Hk2 Hd Hh. rewrite Heq in Hk1, Hk2.
    apply lookup_insert_Some in Hk1 as [[<- <-]|[_ Hk1]];
      apply lookup_insert_Some in Hk2 as [[<- <-]|[_ Hk2]]; [done| | |by eauto].
    + by destruct (Hno k2 c2 Hk2); split.
    + by destruct (Hno k1 c1 Hk1); split.
Qed.

(** Writing a domain back with its tip unchanged. *)
Lemma chain_ok_status s b i d x :
  chain_ok s b → Domain.get (domain_registry s) i = Some d →
  chain_ok (with_domains s (put (domain_registry s) i (Domain.with_status d x))) b.
Proof.
  intros Hc Hd j dj Hj. simpl in *. rewrite get_put in Hj.
  case_decide; simplify_eq/=; apply Hc; done.
Qed.

(** *** The loop *)
Lemma apply_pending_loop_inv get_nonce fuel s b i res s' :
  apply_pending_loop get_nonce fuel s i = Some (res, s') →
  registry_ok (commitment_registry s) → chain_ok s b →
  commitment_registry s' = commitment_registry s ∧ external_roots s' = external_roots s ∧
  chain_ok s' b.
Proof.
  revert s. induction fuel as [|fuel IH]; intros s Hl Hok Hc; [done|]. cbn in Hl.
  destruct (Domain.get (domain_registry s) i) as [d|] eqn:Hd; [|by simplify_eq].
  case_match; [by simplify_eq|].
  destruct (find_by_height _ _ _) as [com|] eqn:Hf; [|by simplify_eq].
  case_bool_decide as Hp; [simplify_eq; eauto using chain_ok_status|].
  case_match; [|by simplify_eq]. apply IH in Hl; [done|done|].
  intros j dj Hj. cbn in Hj. rewrite get_put in Hj. case_decide as Hij; [|by apply Hc].
  simplify_eq/=. destruct (Hc _ _ Hd) as (h0 & hash0 & Hb & Happ).
  exists h0, hash0. split; [done|].
  apply find_by_height_Some in Hf as (Hi & Hh & k & Hk).
  pose proof (ok_slot _ Hok _ _ Hk) as <-.
  econstructor; [exact Happ|exact Hk|done|].
  destruct (decide (last_committed_hash d = zero32)); [by left|right].
  apply dec_stable. tauto.
Qed.

(** How much of a domain is staged above a height. *)
Definition staged (r : DomainCommitmentRegistry) (i : DomainId) (h : Z) : nat :=
  length (filter (λ c, c_domain_id c = i ∧ h < c_height c) (btree_values (commitments r))).

Lemma staged_le r i h : (staged r i h ≤ Commitment.len r)%nat.
Proof.
  unfold staged, Commitment.len. etrans; [apply length_filter|]. unfold btree_values.
  by rewrite length_fmap, length_btree_list.
Qed.

Lemma apply_pending_loop_total get_nonce fuel s i :
  (match Domain.get (domain_registry s) i with
   | Some d => staged (commitment_registry s) i (last_committed_height d)
   | None => 0
   end < fuel)%nat →
  ∃ out, apply_pending_loop get_nonce fuel s i = Some out.
Proof.
  revert s. induction fuel as [|fuel IH]; intros s Hlt; [lia|]. cbn.
  destruct (Domain.get (domain_registry s) i) as [d|] eqn:Hd; [|eauto].
  case_match; [eauto|]. destruct (find_by_height _ _ _) as [com|] eqn:Hf; [|eauto].
  case_bool_decide; [eauto|]. case_match; [|eauto]. apply IH. cbn.
  rewrite get_put, decide_True by done. cbn.
  apply find_by_height_Some in Hf as (Hi & Hh & k & Hk).
  eapply Nat.lt_le_trans; [|apply Nat.lt_succ_r, Hlt].
  unfold staged. apply (length_filter_lt _ _ _ com).
  - intros c [? ?]. split; [done|lia].
  - apply elem_of_btree_values. eauto.
  - split; [done|lia].
  - intros [_ ?]. lia.
Qed.

(** What a successful run of the loop leaves: nothing staged at the next
    height. *)
Lemma apply_pending_loop_drained get_nonce fuel s i s' :
  apply_pending_loop get_nonce fuel s i = Some (Ok (), s') →
  ∃ d, Domain.get (domain_registry s') i = Some d ∧
    find_by_height (commitment_registry s') i (last_committed_height d + 1) = None.
Proof.
  revert s. induction fuel as [|fuel IH]; intros s Hl; [done|]. cbn in Hl.
  destruct (Domain.get (domain_registry s) i) as [d|] eqn:Hd; [|done].
  case_match; [done|]. destruct (find_by_height _ _ _) as [com|] eqn:Hf.
  - case_bool_decide; [done|]. case_match; [|done]. eauto.
  - simplify_eq. eauto.
Qed.
End SettleRun.
