(* ===== verification/SettleProps.v ===== *)
(** * The settlement of domain commitments: theorems

    Over every run of registrations, submissions and unfreezings: one block
    per height, an applied prefix that is parent-linked, termination of the
    loop that advances a domain, what an equivocation does, and the two
    places where the code does not do what it means to: a commitment with a
    wrong parent stops its domain for good, and a repeated submission of an
    old commitment moves the state anchor back. *)
From stdpp Require Import base tactics numbers list gmap strings sorting.
From Stdlib Require Import ZArith Lia.
From S2P Require Import Prelude Merkle Messages Domains.
From S2P Require Import Economics Registry Constitution Governance Commitments.
Import Message Domain Commitment Settle SettleRun.

Module SettleSteps.

Section steps.
Context `{Sha3}.

Inductive step : Config → Config → Prop :=
  | step_register s b d r :
      register_consensus_domain (domain_registry s) d = (Ok (), r) →
      step {| st := s; base := b |}
           {| st := with_domains s r;
              base := <[Domain.id d := (last_committed_height d, last_committed_hash d)]> b |}
  | step_submit get_nonce chain_len s b c finalized res s' :
      submit_verified_domain_commitment get_nonce chain_len s c finalized = Some (res, s') →
      step {| st := s; base := b |} {| st := s'; base := b |}
  | step_unfreeze s b pending :
      step {| st := s; base := b |}
           {| st := (apply_pending_domain_unfreezes s pending).2; base := b |}.

Definition reachable (x : Config) : Prop := rtc step {| st := state_new; base := ∅ |} x.

Lemma validate_metadata_ok s c d :
  validate_domain_commitment_metadata s c = Ok d →
  Domain.get (domain_registry s) (c_domain_id c) = Some d ∧ status d = Active ∧
  kind d = consensus_kind c.
Proof.
  unfold validate_domain_commitment_metadata, is_active. intros Hv.
  destruct (Domain.get _ _) as [d'|]; cbn in Hv; [|done].
  case_bool_decide; [done|]. case_bool_decide; cbn in Hv; [|done].
  case_bool_decide as Hk; simplify_eq. done.
Qed.

(** The three ways a submission can go: nothing changes; the domain is frozen
    for an equivocation; the commitment is staged and the loop runs. *)
Lemma accept_cases get_nonce n s c out :
  accept_domain_commitment get_nonce n s c = Some out →
  (out.2 = s) ∨
  (∃ d e, Domain.get (domain_registry s) (c_domain_id c) = Some d ∧
     find_by_height (commitment_registry s) (c_domain_id c) (c_height c) = Some e ∧
     out = freeze_for_equivocation n s d c) ∨
  (∃ d r, Domain.get (domain_registry s) (c_domain_id c) = Some d ∧ status d = Active ∧
     last_committed_height d < c_height c ∧
     find_by_height (commitment_registry s) (c_domain_id c) (c_height c) = None ∧
     Commitment.insert (commitment_registry s) c = (Ok (), r) ∧
     apply_pending_commitments get_nonce (with_commitments s r) (c_domain_id c) = Some out).
Proof.
  unfold accept_domain_commitment. intros Ha.
  destruct (validate_domain_commitment_metadata s c) as [d|e] eqn:Hv; [|simplify_eq; by left].
  apply validate_metadata_ok in Hv as (Hd & Hact & Hk).
  case_bool_decide; [simplify_eq; by left|]. case_bool_decide; [simplify_eq; by left|].
  destruct (Z.leb_spec (c_height c) (last_committed_height d)) as [Hle|Hlt].
  - destruct (find_by_height _ _ _) as [e|] eqn:Hf.
    + case_bool_decide; simplify_eq; [by left|right; left; eauto].
    + case_match; simplify_eq; by left.
  - destruct (find_by_height _ _ _) as [e|] eqn:Hf.
    + case_match; simplify_eq; [by left|right; left; eauto].
    + case_match; [|simplify_eq; by left].
      destruct (Commitment.insert _ c) as [[[]|e] r] eqn:Hi.
      * right; right. exists d, r. done.
      * simplify_eq. left. unfold Commitment.insert in Hi.
        repeat case_bool_decide; simplify_eq/=; by destruct s.
Qed.

Lemma freeze_domains n s d c :
  domain_registry (freeze_for_equivocation n s d c).2 =
    put (domain_registry s) (c_domain_id c) (Domain.with_status d Frozen).
Proof. done. Qed.

Lemma freeze_chain_ok n s b d c :
  Domain.get (domain_registry s) (c_domain_id c) = Some d → chain_ok s b →
  chain_ok (freeze_for_equivocation n s d c).2 b.
Proof. intros Hd Hc. apply (chain_ok_status s b _ d Frozen Hc Hd). Qed.

Lemma accept_inv get_nonce n s b c res s' :
  accept_domain_commitment get_nonce n s c = Some (res, s') →
  sinv {| st := s; base := b |} → sinv {| st := s'; base := b |}.
Proof.
  intros Ha [Hok Hc]. cbn in Hok, Hc. apply accept_cases in Ha as [Heq|[Ha|Ha]].
  - cbn in Heq. by subst.
  - destruct Ha as (d & e & Hd & Hf & Hout).
    replace s' with (freeze_for_equivocation n s d c).2 by by rewrite <-Hout.
    split; [done|]. by apply freeze_chain_ok.
  - destruct Ha as (d & r & Hd & _ & _ & Hf & Hi & Hl).
    assert (registry_ok r) as Hok' by eauto using insert_registry_ok.
    apply commitment_insert_ok in Hi as [Hnone Hr].
    apply (apply_pending_loop_inv _ _ _ b) in Hl as (Heq & _ & Hc'); [|done|].
    + split; [|done]. cbn. rewrite Heq. done.
    + intros j dj Hj. destruct (Hc j dj Hj) as (h0 & hash0 & Hb & Happ).
      exists h0, hash0. split; [done|]. eapply applied_mono; [|exact Happ].
      intros k c' Hk. cbn. rewrite Hr, lookup_insert_ne; [done|congruence].
Qed.

Lemma submit_accept get_nonce n s c fin res s' :
  submit_verified_domain_commitment get_nonce n s c fin = Some (res, s') →
  s' = s ∨ ∃ res1 s1, accept_domain_commitment get_nonce n s c = Some (res1, s1) ∧
    domain_registry s' = domain_registry s1 ∧ commitment_registry s' = commitment_registry s1.
Proof.
  unfold submit_verified_domain_commitment. intros Hs.
  case_match; [simplify_eq; by left|]. case_bool_decide; [simplify_eq; by left|].
  destruct (accept_domain_commitment get_nonce n s c) as [[r1 s1]|] eqn:Ha; [|done].
  right. exists r1, s1. split; [done|]. cbn in Hs.
  destruct r1; [|by simplify_eq]. unfold anchor_external_root in Hs.
  by case_bool_decide; simplify_eq/=.
Qed.

Lemma submit_inv get_nonce n s b c fin res s' :
  submit_verified_domain_commitment get_nonce n s c fin = Some (res, s') →
  sinv {| st := s; base := b |} → sinv {| st := s'; base := b |}.
Proof.
  intros Hs Hinv. apply submit_accept in Hs as [->|(r1 & s1 & Ha & Hd & Hc)]; [done|].
  apply (accept_inv _ _ _ b) in Ha as [H1 H2]; [|done]. split; cbn in *.
  - by rewrite Hc.
  - intros i d Hi. rewrite Hd in Hi. rewrite Hc. by apply H2.
Qed.

(** *** Unfreezing *)
Lemma unfreeze_one_spec acc req i :
  Domain.get (unfreeze_one acc req).2 i = Domain.get acc.2 i ∨
  ∃ d, Domain.get acc.2 i = Some d ∧ status d = Frozen ∧ Host.domain_id req = i ∧
    (Host.expected_validator_set_hash req = zero32 ∨
     validator_set_hash d = Host.expected_validator_set_hash req) ∧
    Domain.get (unfreeze_one acc req).2 i = Some (Domain.with_status d Active).
Proof.
  destruct acc as [m r]. unfold unfreeze_one, transition_status_checked. cbn.
  destruct (Domain.get r (Host.domain_id req)) as [d|] eqn:Hd; [|by left].
  case_bool_decide as Hst; [by left|].
  case_bool_decide as Hv; [by left|].
  unfold Domain.get in Hd. rewrite Hd. cbn. rewrite Hst. cbn.
  destruct (decide (Host.domain_id req = i)) as [<-|Hne].
  - right. exists d. split_and!; try done.
    + destruct (decide (Host.expected_validator_set_hash req = zero32)); [by left|right].
      apply dec_stable. tauto.
    + rewrite get_put. by rewrite decide_True.
  - left. rewrite get_put. by rewrite decide_False.
Qed.

Lemma unfreeze_tip s pending i d :
  Domain.get (domain_registry s) i = Some d →
  ∃ d', Domain.get (domain_registry (apply_pending_domain_unfreezes s pending).2) i = Some d' ∧
    last_committed_height d' = last_committed_height d ∧
    last_committed_hash d' = last_committed_hash d.
Proof.
  unfold apply_pending_domain_unfreezes.
  destruct (fold_left unfreeze_one pending (0, domain_registry s)) as [m r] eqn:Hfold. cbn.
  replace r with (fold_left unfreeze_one pending (0, domain_registry s)).2 by by rewrite Hfold.
  clear Hfold. intros Hd.
  apply (fold_left_inv (λ acc, ∃ d', Domain.get acc.2 i = Some d' ∧
    last_committed_height d' = last_committed_height d ∧
    last_committed_hash d' = last_committed_hash d)); [|by eexists].
  intros acc req _ (d' & Hd' & Hh & Hhash).
  destruct (unfreeze_one_spec acc req i) as [->|(d2 & Hd2 & _ & _ & _ & ->)]; [by eexists|].
  simplify_eq. by eexists.
Qed.

Lemma unfreeze_none s pending i :
  Domain.get (domain_registry s) i = None →
  Domain.get (domain_registry (apply_pending_domain_unfreezes s pending).2) i = None.
Proof.
  unfold apply_pending_domain_unfreezes.
  destruct (fold_left unfreeze_one pending (0, domain_registry s)) as [m r] eqn:Hfold. cbn.
  replace r with (fold_left unfreeze_one pending (0, domain_registry s)).2 by by rewrite Hfold.
  clear Hfold. intros Hd. apply (fold_left_inv (λ acc, Domain.get acc.2 i = None)); [|done].
  intros acc req _ Hn.
  by destruct (unfreeze_one_spec acc req i) as [->|(d2 & Hd2 & _)]; simplify_eq.
Qed.

Lemma unfreeze_commitments s pending :
  commitment_registry (apply_pending_domain_unfreezes s pending).2 = commitment_registry s.
Proof. unfold apply_pending_domain_unfreezes. by destruct (fold_left _ _ _). Qed.

(** *** Registration *)
Lemma register_ok r d r' :
  register_consensus_domain r d = (Ok (), r') →
  Domain.get r (Domain.id d) = None ∧ r' = put r (Domain.id d) d.
Proof.
  unfold register_consensus_domain, register. intros Hr.
  destruct (validate_consensus_domain_registration d); [|done].
  case_bool_decide as Hno; [done|]. inv_op Hr. split; [|done].
  by apply eq_None_not_Some.
Qed.

Lemma settle_step_inv x y : step x y → sinv x → sinv y.
Proof.
  intros Hstep Hinv. destruct Hstep as [s b d r Hr|gn n s b c fin res s' Hs|s b pending].
  - destruct Hinv as [Hok Hc]. apply register_ok in Hr as [Hnone ->]. split; [done|].
    intros i di Hi. cbn in *. rewrite get_put in Hi. case_decide as Hid.
    + simplify_eq. exists (last_committed_height di), (last_committed_hash di).
      split; [apply lookup_insert_eq|constructor].
    + rewrite lookup_insert_ne by done. by apply Hc.
  - by eapply submit_inv.
  - destruct Hinv as [Hok Hc]. split; cbn; [by rewrite unfreeze_commitments|].
    intros i di Hi. destruct (Domain.get (domain_registry s) i) as [d|] eqn:Hd.
    + destruct (unfreeze_tip s pending i d Hd) as (d' & Hd' & Hh & Hhash). simplify_eq.
      rewrite unfreeze_commitments, Hh, Hhash. by apply Hc.
    + by rewrite (unfreeze_none _ _ _ Hd) in Hi.
Qed.

Lemma new_sinv : sinv {| st := state_new; base := ∅ |}.
Proof.
  split; [split|]; cbn.
  - intros k c Hk. by apply lookup_empty_Some in Hk.
  - intros k1 k2 c1 c2 Hk. by apply lookup_empty_Some in Hk.
  - intros i d Hd. change ((∅ : gmap DomainId ConsensusDomain) !! i = Some d) in Hd.
    by apply lookup_empty_Some in Hd.
Qed.

Lemma reachable_sinv x : reachable x → sinv x.
Proof.
  intros Hr. apply (rtc_preserve step sinv settle_step_inv _ _ Hr new_sinv).
Qed.
End steps.
End SettleSteps.

(** ** Theorems *)
Module SettleSafety.
Import SettleSteps.

Section safety.
Context `{Sha3}.


(** Accepting a commitment always returns, however many commitments are
    staged, and when a new commitment is accepted the domain has been advanced
    as far as the staged commitments reach: none is left at the next height. *)
Theorem accept_terminates get_nonce n s c :
  ∃ res s', accept_domain_commitment get_nonce n s c = Some (res, s') ∧
    (res = Ok () → commitment_registry s' ≠ commitment_registry s →
     ∃ d, Domain.get (domain_registry s') (c_domain_id c) = Some d ∧
       find_by_height (commitment_registry s') (c_domain_id c)
         (last_committed_height d + 1) = None).
Proof.
  assert (∃ out, accept_domain_commitment get_nonce n s c = Some out) as [[res s'] Ha].
  { unfold accept_domain_commitment.
    destruct (validate_domain_commitment_metadata s c) as [d|]; [|eauto].
    do 2 (case_bool_decide; [eauto|]). case_match; [repeat case_match; eauto|].
    destruct (find_by_height _ _ _); [case_match; eauto|].
    destruct (if c_height c =? _ then _ else _); [|eauto].
    destruct (Commitment.insert _ c) as [[|] r]; [|eauto]. apply apply_pending_loop_total.
    destruct (Domain.get _ _); [apply Nat.lt_succ_r, staged_le|apply Nat.lt_0_succ]. }
  exists res, s'. split; [done|]. intros -> Hne.
  apply accept_cases in Ha as [Heq|[Ha|Ha]].
  - cbn in Heq. by subst.
  - by destruct Ha as (d & e & _ & _ & Hout).
  - destruct Ha as (d & r & _ & _ & _ & _ & _ & Hl). by eapply apply_pending_loop_drained.
Qed.

(** A commitment the domain's checks let through. *)
Definition admissible (d : ConsensusDomain) (c : DomainCommitment) : Prop :=
  status d = Active ∧ kind d = consensus_kind c ∧
  (validator_set_hash d = zero32 ∨ c_validator_set_hash c = validator_set_hash d).

Lemma admissible_metadata s d c :
  Domain.get (domain_registry s) (c_domain_id c) = Some d → admissible d c →
  validate_domain_commitment_metadata s c = Ok d.
Proof.
  intros Hd (Hst & Hk & _). unfold validate_domain_commitment_metadata, is_active.
  rewrite Hd. cbn. rewrite Hst, (bool_decide_false (Active = Frozen)) by done.
  rewrite bool_decide_true by done. cbn. rewrite bool_decide_false; [done|tauto].
Qed.

(** Two blocks at one height stop a domain.  A finalized commitment that
    contradicts the block recorded for its height is refused, leaves every
    commitment, tip and anchor as they were, and freezes the domain; and while
    a domain is frozen every commitment for it is refused without any change. *)
Theorem equivocation_freezes get_nonce n s d e c :
  Domain.get (domain_registry s) (c_domain_id c) = Some d → admissible d c →
  find_by_height (commitment_registry s) (c_domain_id c) (c_height c) = Some e →
  domain_block_hash e ≠ domain_block_hash c → state_root c ≠ zero32 →
  ∃ s', submit_verified_domain_commitment get_nonce n s c true =
          Some (Err (EquivocationDetected (c_domain_id c) (c_height c)), s') ∧
    commitment_registry s' = commitment_registry s ∧ external_roots s' = external_roots s ∧
    (∀ i, Domain.get (domain_registry s') i =
       if decide (i = c_domain_id c) then Some (Domain.with_status d Frozen)
       else Domain.get (domain_registry s) i) ∧
    is_Some (Quarantine.quarantined_entities (quarantine_ledger s')
               !! Quarantine.domain_target (c_domain_id c)) ∧
    (∀ get_nonce' n' c' fin, c_domain_id c' = c_domain_id c →
       ∃ err, submit_verified_domain_commitment get_nonce' n' s' c' fin = Some (Err err, s')).
Proof.
  intros Hd Hadm Hf Hne Hroot.
  assert (accept_domain_commitment get_nonce n s c = Some (freeze_for_equivocation n s d c)) as Ha.
  { unfold accept_domain_commitment. rewrite (admissible_metadata _ _ _ Hd Hadm).
    destruct Hadm as (Hst & _ & Hv). rewrite Hst, (bool_decide_false (Active = Frozen)) by done.
    rewrite (bool_decide_false (_ ∧ _)) by tauto.
    rewrite Hf. rewrite (bool_decide_false (domain_block_hash e = _)) by done. by case_match. }
  exists (freeze_for_equivocation n s d c).2. split_and!.
  - unfold submit_verified_domain_commitment. rewrite Ha, bool_decide_false by done. done.
  - done.
  - done.
  - intros i. rewrite freeze_domains, get_put. repeat case_decide; congruence.
  - cbn. rewrite lookup_insert_eq. by eexists.
  - assert (Domain.get (domain_registry (freeze_for_equivocation n s d c).2) (c_domain_id c)
            = Some (Domain.with_status d Frozen)) as Hg.
    { rewrite freeze_domains, get_put. by rewrite decide_True. }
    revert Hg. generalize (freeze_for_equivocation n s d c).2. intros s1 Hg gn' n' c' fin Hid.
    unfold submit_verified_domain_commitment.
    destruct fin; cbn; [|by eexists]. case_bool_decide; [by eexists|].
    unfold accept_domain_commitment, validate_domain_commitment_metadata.
    rewrite Hid, Hg. cbn. by eexists.
Qed.

(** *** A wrong parent is final *)

(** The next commitment is staged and does not fit the tip. *)
Record stuck (s : State) (i : DomainId) (h : Z) (hash : Hash32) : Prop := {
  stuck_hash : hash ≠ zero32;
  stuck_tip : ∃ d, Domain.get (domain_registry s) i = Some d ∧
    last_committed_height d = h ∧ last_committed_hash d = hash;
  stuck_next : ∃ k com, commitments (commitment_registry s) !! k = Some com ∧
    at_height i (h + 1) com ∧ parent_domain_block_hash com ≠ hash;
}.

(** The loop leaves the other domains alone and a stuck one at its tip. *)
Lemma loop_other get_nonce fuel s i j res s' :
  apply_pending_loop get_nonce fuel s i = Some (res, s') → i ≠ j →
  Domain.get (domain_registry s') j = Domain.get (domain_registry s) j.
Proof.
  revert s. induction fuel as [|fuel IH]; intros s Hl Hne; [done|]. cbn in Hl.
  destruct (Domain.get (domain_registry s) i) as [d|] eqn:Hd; [|by simplify_eq].
  case_match; [by simplify_eq|]. case_match; [|by simplify_eq].
  case_bool_decide; [simplify_eq; cbn; by rewrite get_put, decide_False|].
  case_match; [|by simplify_eq]. rewrite (IH _ Hl Hne). cbn. by rewrite get_put, decide_False.
Qed.

Lemma loop_commitments get_nonce fuel s i res s' :
  apply_pending_loop get_nonce fuel s i = Some (res, s') →
  commitment_registry s' = commitment_registry s.
Proof.
  revert s. induction fuel as [|fuel IH]; intros s Hl; [done|]. cbn in Hl.
  repeat case_match; simplify_eq; try done. by apply IH in Hl.
Qed.

Lemma loop_stuck get_nonce fuel s i h hash res s' :
  apply_pending_loop get_nonce fuel s i = Some (res, s') →
  registry_ok (commitment_registry s) → stuck s i h hash →
  ∃ d, Domain.get (domain_registry s') i = Some d ∧
    last_committed_height d = h ∧ last_committed_hash d = hash.
Proof.
  intros Hl Hok [Hz (d & Hd & Hh & Hhash) (k & com & Hk & Hat & Hp)].
  destruct fuel as [|fuel]; [done|]. cbn in Hl. rewrite Hd in Hl.
  case_match; [simplify_eq; eauto|].
  rewrite Hh, (find_by_height_unique _ _ _ _ _ Hok Hk Hat) in Hl.
  rewrite bool_decide_true in Hl by (rewrite Hhash; done). simplify_eq. cbn.
  exists (Domain.with_status d Frozen). by rewrite get_put, decide_True.
Qed.

Lemma accept_stuck get_nonce n s b c res s' i h hash :
  accept_domain_commitment get_nonce n s c = Some (res, s') →
  sinv {| st := s; base := b |} → stuck s i h hash → stuck s' i h hash.
Proof.
  intros Ha [Hok _] Hstuck. apply accept_cases in Ha as [Heq|[Ha|Ha]].
  - cbn in Heq. by subst.
  - destruct Ha as (d & e & Hd & Hf & Hout).
    replace s' with (freeze_for_equivocation n s d c).2 by by rewrite <-Hout.
    destruct Hstuck as [Hz (d0 & Hd0 & Hh & Hhash) Hnext]. split; [done| |done].
    rewrite freeze_domains. setoid_rewrite get_put. case_decide; simplify_eq; by eexists.
  - destruct Ha as (d & r & Hd & _ & Hlt & Hf & Hi & Hl).
    assert (registry_ok r) as Hok' by eauto using insert_registry_ok.
    apply commitment_insert_ok in Hi as [Hnone Hr].
    assert (stuck (with_commitments s r) i h hash) as Hstuck'.
    { destruct Hstuck as [Hz Htip (k & com & Hk & Hrest)]. split; [done|done|].
      exists k, com. split; [|done]. cbn. rewrite Hr, lookup_insert_ne; [done|congruence]. }
    pose proof (loop_commitments _ _ _ _ _ _ Hl) as Hcr.
    destruct Hstuck' as [Hz Htip Hnext]. split; [done| |by rewrite Hcr].
    destruct (decide (c_domain_id c = i)) as [<-|Hne]; [by eapply loop_stuck|].
    by rewrite (loop_other _ _ _ _ _ _ _ Hl Hne).
Qed.

Lemma step_stuck x y i h hash : step x y → sinv x → stuck (st x) i h hash → stuck (st y) i h hash.
Proof.
  intros Hstep Hinv Hs. destruct Hstep as [s b d r Hr|gn n s b c fin res s' Hsub|s b pending].
  - apply register_ok in Hr as [Hnone ->]. destruct Hs as [Hz (d0 & Hd0 & Htip) Hnext].
    split; [done| |done]. exists d0. cbn in *. rewrite get_put, decide_False; [done|congruence].
  - apply submit_accept in Hsub as [->|(r1 & s1 & Ha & Hd & Hc)]; [done|].
    apply (accept_stuck _ _ _ b _ _ _ i h hash) in Ha as [Hz Htip Hnext]; [|done..].
    split; cbn; [done|by rewrite Hd|by rewrite Hc].
  - destruct Hs as [Hz (d0 & Hd0 & Hh & Hhash) Hnext]. split; cbn; [done| |].
    + destruct (unfreeze_tip _ pending _ _ Hd0) as (d' & Hd' & ? & ?). exists d'.
      split; [done|]. by split; congruence.
    + by rewrite unfreeze_commitments.
Qed.

(** A wrong parent is final.  Once the commitment staged for the height
    after a domain's tip names another parent than the tip, no later
    registration, submission or unfreezing moves that domain again: the staged
    commitment is never replaced and the loop stops at it every time. *)
Theorem wrong_parent_halts_domain x y i d com :
  reachable x → Domain.get (domain_registry (st x)) i = Some d →
  find_by_height (commitment_registry (st x)) i (last_committed_height d + 1) = Some com →
  last_committed_hash d ≠ zero32 → parent_domain_block_hash com ≠ last_committed_hash d →
  rtc step x y →
  ∃ d', Domain.get (domain_registry (st y)) i = Some d' ∧
    last_committed_height d' = last_committed_height d ∧
    last_committed_hash d' = last_committed_hash d.
Proof.
  intros Hr Hd Hf Hz Hp Hrun. apply reachable_sinv in Hr as Hinv.
  assert (stuck (st x) i (last_committed_height d) (last_committed_hash d)) as Hs.
  { apply find_by_height_Some in Hf as (Hi & Hh & k & Hk).
    split; [done|by eexists|]. by exists k, com. }
  destruct (rtc_preserve step
    (λ z, sinv z ∧ stuck (st z) i (last_committed_height d) (last_committed_hash d))
    (λ a b Hab '(conj H1 H2), conj (settle_step_inv a b Hab H1) (step_stuck a b _ _ _ Hab H1 H2))
    x y Hrun (conj Hinv Hs)) as [_ [_ Htip _]].
  done.
Qed.

(** The anchored state root of a domain is not monotone.  Submitting again
    a finalized commitment for a height at or below the tip whose block is the
    recorded one succeeds, changes no commitment and no tip, and replaces the
    anchor by the state root of the old commitment. *)
Theorem old_commitment_moves_anchor_back get_nonce n s d e c :
  Domain.get (domain_registry s) (c_domain_id c) = Some d → admissible d c →
  c_height c ≤ last_committed_height d →
  find_by_height (commitment_registry s) (c_domain_id c) (c_height c) = Some e →
  domain_block_hash e = domain_block_hash c → state_root c ≠ zero32 →
  submit_verified_domain_commitment get_nonce n s c true =
    Some (Ok (), with_roots s (<[c_domain_id c := state_root c]> (external_roots s))).
Proof.
  intros Hd Hadm Hle Hf Heq Hroot. unfold submit_verified_domain_commitment.
  rewrite bool_decide_false by done. unfold accept_domain_commitment.
  rewrite (admissible_metadata _ _ _ Hd Hadm). destruct Hadm as (Hst & _ & Hv).
  rewrite Hst, (bool_decide_false (Active = Frozen)) by done.
  rewrite (bool_decide_false (_ ∧ _)) by tauto.
  rewrite (proj2 (Z.leb_le _ _) Hle), Hf, bool_decide_true by done. cbn.
  unfold anchor_external_root. by rewrite bool_decide_false.
Qed.
End safety.
End SettleSafety.

(** ** Examples *)
Module SettleExamples.
Import SettleSteps SettleSafety.

(** Any function can stand for the hash here. *)
#[local] Instance plain_sha3 : Sha3 := λ b, b.

Definition hash_of (n : Z) : Hash32 := replicate 31 0 ++ [n].

Definition domain : ConsensusDomain :=
  {| Domain.id := 7; kind := PoS; status := Active; domain_chain_id := 1;
     operator := Some (hash_of 1); operator_bond := 10000; config_hash := hash_of 2;
     validator_set_hash := hash_of 3; finality_adapter := lit "pos-qc-finality";
     min_confirmations := 1; bridge_enabled := true; block_hash_scheme := BudlumBlockV2;
     state_root_scheme := SchemeSha256; tx_root_scheme := SchemeSha256;
     last_committed_height := 0; last_committed_hash := zero32; pow_parameters := None;
     zk_program_allowlist := []; plugin_code_hash := None |}.

Definition block (h own parent root : Z) : DomainCommitment :=
  {| c_domain_id := 7; c_height := h; domain_block_hash := hash_of own;
     parent_domain_block_hash := hash_of parent; state_root := hash_of root;
     tx_root := hash_of 0; event_root := hash_of 0; finality_proof_hash := hash_of 0;
     consensus_kind := PoS; c_validator_set_hash := hash_of 3; timestamp_ms := 0;
     sequence := 0; producer := None; state_updates := ∅ |}.

Definition submit (s : State) (c : DomainCommitment) : State :=
  match submit_verified_domain_commitment (λ _, 0) 5 s c true with
  | Some (_, s') => s'
  | None => s
  end.

Definition s0 : State := with_domains state_new (put registry_new 7 domain).
Definition s1 : State := submit s0 (block 1 11 0 21).
Definition s2 : State := submit s1 (block 2 12 11 22).
(** The commitment of height 2 names a parent that is not the tip. *)
Definition s2_bad : State := submit s1 (block 2 12 99 22).

Definition base0 : gmap DomainId (Z * Hash32) := <[7 := (0, zero32)]> ∅.

Lemma submit_step s b c :
  is_Some (submit_verified_domain_commitment (λ _, 0) 5 s c true) →
  step {| st := s; base := b |} {| st := submit s c; base := b |}.
Proof.
  intros [[r s'] Hs]. unfold submit. rewrite Hs. by eapply step_submit.
Qed.

Lemma s0_reachable : reachable {| st := s0; base := base0 |}.
Proof. apply rtc_once. apply (step_register state_new ∅ domain). vm_compute. reflexivity. Qed.

Lemma s1_reachable : reachable {| st := s1; base := base0 |}.
Proof.
  eapply rtc_r; [exact s0_reachable|]. apply submit_step. vm_compute. by eexists.
Qed.

Lemma s2_reachable : reachable {| st := s2; base := base0 |}.
Proof.
  eapply rtc_r; [exact s1_reachable|]. apply submit_step. vm_compute. by eexists.
Qed.

Lemma s2_bad_reachable : reachable {| st := s2_bad; base := base0 |}.
Proof.
  eapply rtc_r; [exact s1_reachable|]. apply submit_step. vm_compute. by eexists.
Qed.

(** The chain of two commitments is applied. *)
Lemma s2_tip :
  last_committed_height <$> Domain.get (domain_registry s2) 7 = Some 2 ∧
  last_committed_hash <$> Domain.get (domain_registry s2) 7 = Some (hash_of 12).
Proof. split; vm_compute; reflexivity. Qed.


Definition d2 : ConsensusDomain := with_tip domain 2 (hash_of 12).
Definition d2_bad : ConsensusDomain :=
  Domain.with_status (with_tip domain 1 (hash_of 11)) Frozen.

Lemma s2_domain : Domain.get (domain_registry s2) 7 = Some d2.
Proof. vm_compute. reflexivity. Qed.

Lemma s2_bad_domain : Domain.get (domain_registry s2_bad) 7 = Some d2_bad.
Proof. vm_compute. reflexivity. Qed.

Lemma equivocation_freezes_witness :
  ∃ s', submit_verified_domain_commitment (λ _, 0) 5 s2 (block 2 13 11 23) true =
    Some (Err (EquivocationDetected 7 2), s') ∧
    commitment_registry s' = commitment_registry s2.
Proof.
  destruct (equivocation_freezes (λ _, 0) 5 s2 d2 (block 2 12 11 22) (block 2 13 11 23))
    as (s' & Hs & Hc & _).
  - exact s2_domain.
  - split; [reflexivity|split; [reflexivity|right; reflexivity]].
  - vm_compute. reflexivity.
  - vm_compute. discriminate.
  - vm_compute. discriminate.
  - exists s'. split; [exact Hs|exact Hc].
Defined.

(** Governance unfreezes the domain, and a correct commitment is submitted. *)
Definition request : Host.PendingDomainUnfreeze :=
  {| Host.domain_id := 7; Host.expected_validator_set_hash := hash_of 3;
     Host.justification_hash := hash_of 4 |}.

Definition s3_bad : State := (apply_pending_domain_unfreezes s2_bad [request]).2.
Definition s4_bad : State := submit s3_bad (block 2 12 11 22).

Lemma wrong_parent_halts_domain_witness :
  ∃ d', Domain.get (domain_registry s4_bad) 7 = Some d' ∧ last_committed_height d' = 1 ∧
    last_committed_hash d' = hash_of 11.
Proof.
  apply (wrong_parent_halts_domain {| st := s2_bad; base := base0 |}
           {| st := s4_bad; base := base0 |} 7 d2_bad (block 2 12 99 22)).
  - exact s2_bad_reachable.
  - exact s2_bad_domain.
  - vm_compute. reflexivity.
  - vm_compute. discriminate.
  - vm_compute. discriminate.
  - eapply rtc_l; [apply (step_unfreeze s2_bad base0 [request])|].
    apply rtc_once. apply (submit_step s3_bad base0 (block 2 12 11 22)).
    vm_compute. eexists. reflexivity.
Defined.

(** The anchor of the first commitment replaces that of the second. *)
Lemma old_commitment_moves_anchor_back_witness :
  external_roots s2 !! 7 = Some (hash_of 22) ∧
  external_roots (submit s2 (block 1 11 0 21)) !! 7 = Some (hash_of 21).
Proof.
  split; [vm_compute; reflexivity|]. unfold submit.
  rewrite (old_commitment_moves_anchor_back (λ _, 0) 5 s2 d2 (block 1 11 0 21) (block 1 11 0 21)).
  - apply (lookup_insert_eq (external_roots s2) 7 (hash_of 21)).
  - exact s2_domain.
  - split; [reflexivity|split; [reflexivity|right; reflexivity]].
  - vm_compute. discriminate.
  - vm_compute. reflexivity.
  - reflexivity.
  - vm_compute. discriminate.
Defined.
End SettleExamples.
