(* ===== verification/Ledger.v ===== *)
(** * The ledger

    The money of [src/core/account.rs] and what moves it: balances, validator
    stake, the unbonding queue, role bonds and the bridge escrow, through the
    transfer, stake and unstake arms of [src/execution/executor.rs], the fee
    settlement of a block, the epoch close, slashing, the timed burn, and the
    bridge paths of [src/chain/blockchain.rs] that lock, mint, refund and
    unlock.

    [Ledger] has one definition per operation.  Account keys, caches and
    storage play no part.  A refused transaction refuses its block, and the
    block is applied to a copy of the state, so a step of [LedgerProps] is a
    successful call. *)
From stdpp Require Import base tactics numbers list gmap strings sorting.
From Stdlib Require Import ZArith Lia.
From S2P Require Import Prelude Merkle Messages Bridge BridgeInv Economics Registry.
From S2P Require Import Constitution Governance.
Import Message Bridge.Bridge Governance.Governance Host.

Module Ledger.

Record Account := { balance : Z; nonce : Z }.

Record UnbondingEntry := { u_address : Address; u_amount : Z; release_epoch : Z }.

Record State := {
  core : AccountState;
  accounts : gmap Address Account;
  unbonding_queue : list UnbondingEntry;
  timed_burn : Tokenomics.TimedBurnState;
  burn_reserve_address : option Address;
  team_vesting : option (Address * Tokenomics.VestingSchedule);
  bridge_state : BridgeState;
}.

Definition with_core (s : State) c : State :=
  {| core := c; accounts := accounts s; unbonding_queue := unbonding_queue s;
     timed_burn := timed_burn s; burn_reserve_address := burn_reserve_address s;
     team_vesting := team_vesting s; bridge_state := bridge_state s |}.

Definition with_accounts (s : State) m : State :=
  {| core := core s; accounts := m; unbonding_queue := unbonding_queue s;
     timed_burn := timed_burn s; burn_reserve_address := burn_reserve_address s;
     team_vesting := team_vesting s; bridge_state := bridge_state s |}.

Definition with_queue (s : State) q : State :=
  {| core := core s; accounts := accounts s; unbonding_queue := q;
     timed_burn := timed_burn s; burn_reserve_address := burn_reserve_address s;
     team_vesting := team_vesting s; bridge_state := bridge_state s |}.

Definition with_burn (s : State) b : State :=
  {| core := core s; accounts := accounts s; unbonding_queue := unbonding_queue s;
     timed_burn := b; burn_reserve_address := burn_reserve_address s;
     team_vesting := team_vesting s; bridge_state := bridge_state s |}.

Definition with_bridge (s : State) b : State :=
  {| core := core s; accounts := accounts s; unbonding_queue := unbonding_queue s;
     timed_burn := timed_burn s; burn_reserve_address := burn_reserve_address s;
     team_vesting := team_vesting s; bridge_state := b |}.

Inductive LedgerError :=
  | BurnReserveLocked
  | UnstakeAmountZero
  | UnstakeFeeZero
  | InsufficientBalance
  | VestingLocked
  | BalanceUnderflow
  | BalanceOverflow
  | StakeOverflow
  | NotValidator
  | InsufficientStake
  | StakeUnderflow
  | FeeUnderflow
  | SupplyCap (amount headroom : Z)
  | SameDomain
  | ZeroAmount
  | BadExpiry
  | UnknownBridgeTransfer
  | BridgeRefused (e : BridgeError)
  | BridgeAmountTooLarge
  | MissingCorrelation
  | GovernanceActionFailed (e : ActionError).

(** ** Balances *)
Definition fresh_account : Account := {| balance := 0; nonce := 0 |}.

Definition account_of (s : State) (a : Address) : Account := default fresh_account (accounts s !! a).

Definition get_balance (s : State) (a : Address) : Z := balance (account_of s a).

(** An update through the reference [get_or_create] returns. *)
Definition put_account (s : State) (a : Address) (acc : Account) : State :=
  with_accounts s (<[a := acc]> (accounts s)).

Definition get_or_create (s : State) (a : Address) : State := put_account s a (account_of s a).

Definition set_balance (s : State) (a : Address) (x : Z) : State :=
  put_account s a {| balance := x; nonce := nonce (account_of s a) |}.

Definition try_add_balance (s : State) (a : Address) (amount : Z) : result LedgerError () * State :=
  let s := get_or_create s a in
  let? x := ok_or (u64_checked_add (get_balance s a) amount) BalanceOverflow at s in
  (Ok (), set_balance s a x).

Definition circulating_supply (s : State) : Z := map_sum balance (accounts s).

Definition total_staked_supply (s : State) : Z := map_sum stake (validators (core s)).

Definition total_unbonding_supply (s : State) : Z := sumZ (u_amount <$> unbonding_queue s).

Definition total_registry_role_bonded_supply (s : State) : Z :=
  Registry.total_bonded_stake_excluding (registry (core s)) Role.VALIDATOR.

Definition total_bud_committed (s : State) : Z :=
  u128_sat_add
    (u128_sat_add (u128_sat_add (circulating_supply s) (total_staked_supply s))
       (total_unbonding_supply s))
    (total_registry_role_bonded_supply s).

Definition supply_capacity_remaining (s : State) : Z :=
  Z.min (sat_sub Tokenomics.BUD_TOTAL_SUPPLY (total_bud_committed s)) u64_max.

Definition ensure_mint_headroom (s : State) (amount : Z) : result LedgerError () :=
  let headroom := supply_capacity_remaining s in
  if headroom <? amount then Err (SupplyCap amount headroom) else Ok ().

Definition try_mint_balance (s : State) (a : Address) (amount : Z) : result LedgerError () * State :=
  let? _ := ensure_mint_headroom s amount at s in
  try_add_balance s a amount.

Definition spendable_balance (s : State) (a : Address) : Z :=
  if bool_decide (burn_reserve_address s = Some a) then 0
  else
    match team_vesting s with
    | Some (team, schedule) =>
        if bool_decide (team = a)
        then sat_sub (get_balance s a) (Tokenomics.locked_at schedule (epoch_index (core s)))
        else get_balance s a
    | None => get_balance s a
    end.

(** ** Transactions *)

(** The sender's guards before the match on the type, for a sender other than
    the zero address. *)
Definition check_sender (s : State) (from : Address) (liquid_cost : Z) :
    result LedgerError () * State :=
  if bool_decide (burn_reserve_address s = Some from) then (Err BurnReserveLocked, s)
  else
    let s := get_or_create s from in
    if get_balance s from <? liquid_cost then (Err InsufficientBalance, s) else (Ok (), s).

(** [sender.balance.checked_sub(cost)?] and the increment of the nonce. *)
Definition debit_sender (s : State) (from : Address) (cost : Z) : result LedgerError () * State :=
  let acc := account_of s from in
  if balance acc <? cost then (Err BalanceUnderflow, get_or_create s from)
  else
    (Ok (), put_account s from {| balance := balance acc - cost; nonce := u64_sat_add (nonce acc) 1 |}).

Definition apply_transfer (s : State) (from to : Address) (amount fee : Z) :
    result LedgerError () * State :=
  let total_cost := u64_sat_add amount fee in
  let '(r, s) := check_sender s from total_cost in
  let? _ := r at s in
  if spendable_balance s from <? total_cost then (Err VestingLocked, s)
  else
    let '(r, s) := debit_sender s from total_cost in
    let? _ := r at s in
    let s := get_or_create s to in
    let? x := ok_or (u64_checked_add (get_balance s to) amount) BalanceOverflow at s in
    (Ok (), set_balance s to x).

Definition min_stake_for (chain_id : Z) : Z :=
  if chain_id =? 45260 then 1000000
  else if chain_id =? 45261 then 10000
  else if chain_id =? 45262 then 1000
  else 1.

Definition sync_validator_registration (c : AccountState) (a : Address) : AccountState :=
  let x := from_option stake 0 (validators c !! a) in
  with_registry c
    (Registry.upsert_stake (registry c) a Role.VALIDATOR x (epoch_index c)).

Definition new_validator (x : Z) : Validator :=
  {| stake := x; active := true; slashed := false; jailed := false; jail_until := 0;
     consensus_ready := false |}.

Definition add_validator (c : AccountState) (a : Address) (x : Z) : AccountState :=
  sync_validator_registration (with_validators c (<[a := new_validator x]> (validators c))) a.

(** [v.stake = x] and the recomputed [v.active]. *)
Definition restake (v : Validator) (x min_stake : Z) : Validator :=
  {| stake := x; active := (min_stake <=? x) && consensus_ready v; slashed := slashed v;
     jailed := jailed v; jail_until := jail_until v; consensus_ready := consensus_ready v |}.

Definition put_validator (c : AccountState) (a : Address) (v : Validator) : AccountState :=
  with_validators c (<[a := v]> (validators c)).

Definition apply_stake (s : State) (from : Address) (amount fee chain_id : Z) :
    result LedgerError () * State :=
  let total_cost := u64_sat_add amount fee in
  let '(r, s) := check_sender s from total_cost in
  let? _ := r at s in
  if spendable_balance s from <? total_cost then (Err VestingLocked, s)
  else
    let '(r, s) := debit_sender s from total_cost in
    let? _ := r at s in
    let min_stake := min_stake_for chain_id in
    match validators (core s) !! from with
    | Some v =>
        let? x := ok_or (u64_checked_add (stake v) amount) StakeOverflow at s in
        let c := put_validator (core s) from (restake v x min_stake) in
        (Ok (), with_core s (sync_validator_registration c from))
    | None =>
        let c := add_validator (core s) from amount in
        let c := match validators c !! from with
                 | Some v => put_validator c from (restake v (stake v) min_stake)
                 | None => c
                 end in
        (Ok (), with_core s (sync_validator_registration c from))
    end.

(** The loop over the active proposals. *)
Definition reduce_votes (c : AccountState) (from : Address) (amount : Z) : AccountState :=
  let g := governance c in
  with_governance c (with_proposals g
    ((λ p, if bool_decide (status p = Governance.Active)
           then reduce_vote_weight p from amount else p) <$> proposals g)).

Definition unstake_validator (v : Validator) (amount : Z) : Validator :=
  let x := stake v - amount in
  {| stake := x; active := if x =? 0 then false else active v; slashed := slashed v;
     jailed := jailed v; jail_until := jail_until v; consensus_ready := consensus_ready v |}.

Definition apply_unstake (s : State) (from : Address) (amount fee : Z) :
    result LedgerError () * State :=
  if bool_decide (burn_reserve_address s = Some from) then (Err BurnReserveLocked, s)
  else if amount =? 0 then (Err UnstakeAmountZero, s)
  else if fee =? 0 then (Err UnstakeFeeZero, s)
  else
    let '(r, s) := check_sender s from fee in
    let? _ := r at s in
    match validators (core s) !! from with
    | None => (Err NotValidator, s)
    | Some v =>
        if stake v <? amount then (Err InsufficientStake, s)
        else
          let c := reduce_votes (core s) from amount in
          let c := put_validator c from (unstake_validator v amount) in
          let entry :=
            {| u_address := from; u_amount := amount;
               release_epoch := u64_sat_add (epoch_index c)
                 (Params.unbonding_epochs (Registry.params (registry c))) |} in
          let s := with_queue (with_core s (sync_validator_registration c from))
                     (unbonding_queue s ++ [entry]) in
          debit_sender s from fee
    end.

(** The fee settlement of [apply_block_checked], for one transaction. *)
Definition settle_fee (s : State) (producer : Address) (fee : Z) : result LedgerError () * State :=
  let burn := Tokenomics.metabolic_burn (tokenomics (core s)) fee in
  if fee <? burn then (Err FeeUnderflow, s)
  else
    let producer_fee := fee - burn in
    if 0 <? producer_fee then try_add_balance s producer producer_fee else (Ok (), s).

(** The transactions modelled here, by a sender other than the zero address. *)
Inductive Tx :=
  | Transfer (from to : Address) (amount fee : Z)
  | Stake (from : Address) (amount fee chain_id : Z)
  | Unstake (from : Address) (amount fee : Z).

Definition tx_fee (tx : Tx) : Z :=
  match tx with Transfer _ _ _ fee | Stake _ _ fee _ | Unstake _ _ fee => fee end.

Definition apply_transaction_checked (s : State) (tx : Tx) : result LedgerError () * State :=
  match tx with
  | Transfer from to amount fee => apply_transfer s from to amount fee
  | Stake from amount fee chain_id => apply_stake s from amount fee chain_id
  | Unstake from amount fee => apply_unstake s from amount fee
  end.

Fixpoint apply_transactions (s : State) (txs : list Tx) : result LedgerError () * State :=
  match txs with
  | [] => (Ok (), s)
  | tx :: txs =>
      let '(r, s) := apply_transaction_checked s tx in
      let? _ := r at s in
      apply_transactions s txs
  end.

Fixpoint settle_fees (s : State) (producer : Address) (txs : list Tx) :
    result LedgerError () * State :=
  match txs with
  | [] => (Ok (), s)
  | tx :: txs =>
      let '(r, s) := settle_fee s producer (tx_fee tx) in
      let? _ := r at s in
      settle_fees s producer txs
  end.

Definition apply_block_checked (s : State) (txs : list Tx) (producer : option Address) :
    result LedgerError () * State :=
  let '(r, s) := apply_transactions s txs in
  let? _ := r at s in
  let '(r, s) := match producer with
                 | Some producer => settle_fees s producer txs
                 | None => (Ok (), s)
                 end in
  let? _ := r at s in
  let '(r, c) := apply_block_governance (core s) in
  (result_map_err GovernanceActionFailed r, with_core s c).

(** ** The epoch close *)

(** The closure of [retain]: kept, released or deferred. *)
Definition is_mature (epoch : Z) (e : UnbondingEntry) : bool := release_epoch e <=? epoch.

Definition fits (s : State) (e : UnbondingEntry) : bool :=
  bool_decide (is_Some (u64_checked_add (get_balance s (u_address e)) (u_amount e))).

(** One round of the release loop. *)
Definition release_one (epoch : Z) (s : State) (e : UnbondingEntry) : State :=
  match try_add_balance s (u_address e) (u_amount e) with
  | (Ok _, s) => s
  | (Err _, s) =>
      with_queue s (unbonding_queue s ++
        [{| u_address := u_address e; u_amount := u_amount e; release_epoch := epoch |}])
  end.

Definition process_unbonding (s : State) : State :=
  let epoch := epoch_index (core s) in
  let q := unbonding_queue s in
  let waiting := filter (λ e, is_mature epoch e = false) q in
  let released := filter (λ e, is_mature epoch e && fits s e = true) q in
  let deferred := filter (λ e, is_mature epoch e && negb (fits s e) = true) q in
  fold_left (release_one epoch) released (with_queue s (waiting ++ deferred)).

Definition burn_from (s : State) (a : Address) (amount : Z) : Z * State :=
  if amount =? 0 then (0, s)
  else
    let s := get_or_create s a in
    let burned := Z.min amount (get_balance s a) in
    (burned, set_balance s a (get_balance s a - burned)).

(** The loop over the outstanding years; it stops when the reserve is empty. *)
Fixpoint burn_years (n : nat) (s : State) (a : Address) (per_year total : Z) : Z * State :=
  match n with
  | O => (total, s)
  | S n =>
      let '(burned, s) := burn_from s a per_year in
      if burned =? 0 then (total, s)
      else
        let s := with_burn s
          {| Tokenomics.years_burned := Tokenomics.years_burned (timed_burn s);
             Tokenomics.total_burned :=
               u64_sat_add (Tokenomics.total_burned (timed_burn s)) burned |} in
        burn_years n s a per_year (u64_sat_add total burned)
  end.

Definition process_due_timed_burn (s : State) (due : Z) (a : Address) : Z * State :=
  if due <=? Tokenomics.years_burned (timed_burn s) then (0, s)
  else
    let per_year := Tokenomics.annual_burn_amount (tokenomics (core s)) in
    let outstanding := due - Tokenomics.years_burned (timed_burn s) in
    let '(total, s) := burn_years (Z.to_nat outstanding) s a per_year 0 in
    (total, with_burn s {| Tokenomics.years_burned := due;
                           Tokenomics.total_burned := Tokenomics.total_burned (timed_burn s) |}).

Definition process_timed_burn (s : State) (genesis_epoch : Z) (a : Address) : Z * State :=
  let due := Tokenomics.due_years genesis_epoch (epoch_index (core s))
               (Tokenomics.epochs_per_year (tokenomics (core s))) in
  process_due_timed_burn s due a.

(** The release from jail, on one validator.  [pop_valid] is the check of the
    proof of possession of its key. *)
Definition release_jail (epoch : Z) (pop_valid : bool) (v : Validator) : Validator :=
  if jailed v && (jail_until v <=? epoch) then
    {| stake := stake v;
       active := (0 <? stake v) && negb (slashed v) && consensus_ready v && pop_valid;
       slashed := slashed v; jailed := false; jail_until := jail_until v;
       consensus_ready := consensus_ready v |}
  else v.

Section epoch.
Context `{Sha256}.
Variable report_bytes : Evidence.SlashingReport → bytes.
Variable pop_valid : Address → bool.

(** [advance_epoch], without the closing of the proof market. *)
Definition close_epoch (s : State) : option State :=
  c ← advance_epoch report_bytes (core s);
  let s := process_unbonding (with_core s c) in
  let s := with_core s (with_validators (core s)
    (map_imap (λ a v, Some (release_jail (epoch_index (core s)) (pop_valid a) v))
       (validators (core s)))) in
  Some match burn_reserve_address s with
       | Some reserve => (process_timed_burn s 0 reserve).2
       | None => s
       end.
End epoch.

(** ** Slashing *)
Definition JAIL_EPOCHS : Z := 7.

Definition slash_validator (s : State) (a : Address) (slash_ratio_fixed : Z) : option Z * State :=
  match validators (core s) !! a with
  | None => (None, s)
  | Some v =>
      if slashed v then (Some 0, s)
      else
        let penalty := Penalty.slash_penalty (stake v) slash_ratio_fixed in
        let v := {| stake := sat_sub (stake v) penalty; active := false; slashed := true;
                    jailed := true; jail_until := u64_sat_add (epoch_index (core s)) JAIL_EPOCHS;
                    consensus_ready := consensus_ready v |} in
        let c := put_validator (core s) a v in
        let c := with_registry c
          (Registry.slash (registry c) a Role.VALIDATOR DoubleSign slash_ratio_fixed).2 in
        (Some penalty, with_core s c)
  end.

(** ** The base fee *)
Definition adjust_base_fee (base_fee tx_count : Z) : Z :=
  let target := 50 in
  let max_base_fee := 10000000 in
  if target <? tx_count then Z.min (u64_sat_add base_fee (base_fee / 8)) max_base_fee
  else if tx_count <? target then Z.max (sat_sub base_fee (base_fee / 8)) 1
  else base_fee.

(** ** The bridge paths *)
Section bridge.
Context `{Sha256}.

(** [lock_bridge_transfer] for two bridge-enabled domains, up to the debit;
    the issued message is then submitted and queued for relay. *)
Definition lock_bridge_transfer (s : State) (source_domain target_domain source_height
    event_index : Z) (asset_id : AssetId) (owner recipient : Address) (amount expiry_height : Z) :
    result LedgerError (BridgeTransfer * Event.DomainEvent) * State :=
  if source_domain =? target_domain then (Err SameDomain, s)
  else if amount =? 0 then (Err ZeroAmount, s)
  else if expiry_height <=? source_height then (Err BadExpiry, s)
  else if get_balance s owner <? amount then (Err InsufficientBalance, s)
  else
    let '(r, b) := lock (bridge_state s) source_domain target_domain source_height event_index
                     asset_id owner recipient amount expiry_height in
    let s := with_bridge s b in
    let? out := result_map_err BridgeRefused r at s in
    (Ok out, set_balance s owner (sat_sub (get_balance s owner) amount)).

(** The credits of a mint, shared by the verified-event and the relay path. *)
Definition relay_mint (s : State) (message : CrossDomainMessage) (relayer : Address)
    (current_height : Z) : result LedgerError () * State :=
  let? transfer := ok_or (get_transfer (bridge_state s) (message_id message))
                     UnknownBridgeTransfer at s in
  let params := Registry.params (registry (core s)) in
  let? (final_amount, fee) := result_map_err BridgeRefused
    (split_bridge_fee (t_amount transfer) (Params.bridge_relayer_fee_ppm params)
       (Params.bridge_relayer_min_fee params)) at s in
  let? minted := ok_or (u64_checked_add final_amount fee) BridgeAmountTooLarge at s in
  let? _ := ensure_mint_headroom s minted at s in
  let '(r, b) := mint (bridge_state s) message current_height in
  let s := with_bridge s b in
  let? _ := result_map_err BridgeRefused r at s in
  let '(r, s) := try_mint_balance s (t_recipient transfer) final_amount in
  let? _ := r at s in
  try_mint_balance s relayer fee.

(** The [BridgeBurn] arm of [submit_relay_proof]. *)
Definition relay_unlock (s : State) (message : CrossDomainMessage) (relayer : Address)
    (current_height : Z) : result LedgerError () * State :=
  let? transfer_id := ok_or (correlation_id message) MissingCorrelation at s in
  let? transfer := ok_or (get_transfer (bridge_state s) transfer_id) UnknownBridgeTransfer at s in
  let? _ := result_map_err BridgeRefused
    (check_burn_matches_lock_domain (t_source_domain transfer) (target_domain message)) at s in
  let '(r, b) := unlock (bridge_state s) transfer_id (source_domain message) current_height in
  let s := with_bridge s b in
  let? _ := result_map_err BridgeRefused r at s in
  let? transfer := ok_or (get_transfer (bridge_state s) transfer_id) UnknownBridgeTransfer at s in
  let params := Registry.params (registry (core s)) in
  let? (final_amount, fee) := result_map_err BridgeRefused
    (split_bridge_fee (t_amount transfer) (Params.bridge_relayer_fee_ppm params)
       (Params.bridge_relayer_min_fee params)) at s in
  let '(r, s) := try_add_balance s (t_owner transfer) final_amount in
  let? _ := r at s in
  try_add_balance s relayer fee.

(** [burn_bridge_transfer_with_event]: the bridge state moves, no balance
    does. *)
Definition burn_bridge_transfer_with_event (s : State) (id : MessageId)
    (domain domain_height event_index expiry_height : Z) :
    result LedgerError Event.DomainEvent * State :=
  let '(r, b) := burn_with_event (bridge_state s) id domain domain_height event_index
                   expiry_height in
  (result_map_err BridgeRefused r, with_bridge s b).

(** The refund loop of [apply_bridge_sweep_to_state]. *)
Fixpoint refund (s : State) (released : list (Address * Z)) : result LedgerError () * State :=
  match released with
  | [] => (Ok (), s)
  | (owner, amount) :: released =>
      let '(r, s) := try_add_balance s owner amount in
      let? _ := r at s in
      refund s released
  end.

Definition apply_bridge_sweep_to_state (s : State) (current_height : Z) :
    result LedgerError () * State :=
  let '(released, b) := sweep_expired_locks (bridge_state s) current_height in
  refund (with_bridge s b) released.
End bridge.
End Ledger.
