(* ===== verification/Supply.v ===== *)
(** * Supply deltas

    What each operation of [Ledger.v] does to the committed supply: exact
    deltas for transactions, credits, unbonding, burns and the bridge paths,
    and that a block, an epoch close and a slash never raise it. *)
From stdpp Require Import base tactics numbers list gmap strings sorting.
From Stdlib Require Import ZArith Lia.
From S2P Require Import Prelude Merkle Messages Bridge BridgeInv Economics Registry.
From S2P Require Import Constitution Governance GovernanceProps Ledger.
Import Message Bridge.Bridge Governance.Governance Host Ledger.Ledger.

Module Supply.

(** ** The committed supply *)
Definition bond_weight (reg : Registry.Registration) : Z :=
  if Registry.reg_role reg =? Role.VALIDATOR then 0 else Registry.stake reg.

Definition bonds (c : AccountState) : Z :=
  map_sum bond_weight (Registry.registrations (registry c)).

Definition staked (c : AccountState) : Z := map_sum stake (validators c).

Definition total (s : State) : Z :=
  circulating_supply s + staked (core s) + total_unbonding_supply s + bonds (core s).

Record core_ok (c : AccountState) : Prop := {
  ok_stake : ∀ a v, validators c !! a = Some v → u64 (stake v);
  ok_reg : ∀ role a reg, Registry.registrations (registry c) !! (role, a) = Some reg →
    Registry.reg_role reg = role ∧ u64 (Registry.stake reg);
}.

Record ok (s : State) : Prop := {
  ok_core : core_ok (core s);
  ok_balance : ∀ a acc, accounts s !! a = Some acc → u64 (balance acc);
  ok_queue : Forall (λ e, u64 (u_amount e)) (unbonding_queue s);
}.

Lemma get_balance_u64 s a : ok s → u64 (get_balance s a).
Proof.
  intros Hok. unfold get_balance, account_of. destruct (accounts s !! a) eqn:Ha; cbn.
  - by eapply ok_balance.
  - split; [done|]. by vm_compute.
Qed.

Lemma bonds_nonneg c : core_ok c → 0 ≤ bonds c.
Proof.
  intros [_ Hr]. apply map_sum_nonneg. intros [role a] reg Hreg. apply Hr in Hreg as [_ [? ?]].
  unfold bond_weight. by case_match.
Qed.

Lemma staked_nonneg c : core_ok c → 0 ≤ staked c.
Proof. intros [Hs _]. apply map_sum_nonneg. intros a v Hv. by apply Hs in Hv as [? _]. Qed.

Lemma fold_sat_registrations (f : Registry.Registration → Z) l acc :
  0 ≤ acc ≤ u128_max → Forall (λ x, 0 ≤ f x) l →
  fold_left (λ t x, u128_sat_add t (f x)) l acc = Z.min (acc + sumZ (f <$> l)) u128_max.
Proof.
  intros Hacc Hl. revert acc Hacc. induction Hl as [|x l Hx Hl IH]; intros acc Hacc;
    cbn [fold_left]; [cbn; lia|].
  rewrite IH by (unfold u128_sat_add; lia). rewrite fmap_cons, sumZ_cons.
  assert (0 ≤ sumZ (f <$> l)) by by apply sumZ_nonneg, Forall_fmap.
  unfold u128_sat_add. lia.
Qed.

Lemma bonded_excluding c :
  core_ok c →
  Registry.total_bonded_stake_excluding (registry c) Role.VALIDATOR = Z.min (bonds c) u128_max.
Proof.
  intros [_ Hr]. unfold Registry.total_bonded_stake_excluding, bonds. 
  rewrite <-(map_sum_btree bond_weight (Registry.registrations (registry c))).
  rewrite fold_sat_registrations; [|done|].
  2: { apply Forall_forall. intros r [_ [[role a] Hk]%elem_of_btree_values]%list_elem_of_filter.
       by apply Hr in Hk as [_ [? _]]. }
  f_equal. cbn. induction (btree_values _) as [|r l IH]; [done|].
  rewrite filter_cons, fmap_cons, sumZ_cons, <-IH. unfold bond_weight.
  case_decide as Hd; destruct (Z.eqb_spec (Registry.reg_role r) Role.VALIDATOR); try done.
Qed.

Lemma circulating_nonneg s : ok s → 0 ≤ circulating_supply s.
Proof. intros Hok. apply map_sum_nonneg. intros a acc Ha. by apply (ok_balance _ Hok a acc). Qed.

Lemma unbonding_nonneg s : ok s → 0 ≤ total_unbonding_supply s.
Proof.
  intros Hok. apply sumZ_nonneg, Forall_fmap. eapply Forall_impl; [exact (ok_queue _ Hok)|].
  by intros e [? _].
Qed.

(** What [total_bud_committed] reports. *)
Lemma committed_total s : ok s → total_bud_committed s = Z.min (total s) u128_max.
Proof.
  intros Hok. pose proof (circulating_nonneg s Hok). pose proof (unbonding_nonneg s Hok).
  pose proof (staked_nonneg _ (ok_core _ Hok)). pose proof (bonds_nonneg _ (ok_core _ Hok)).
  unfold total_bud_committed, total_registry_role_bonded_supply, total_staked_supply, total.
  rewrite bonded_excluding by apply Hok. fold (staked (core s)).
  assert (0 ≤ u128_max) by done. unfold u128_sat_add. lia.
Qed.

(** ** Deltas *)
Definition prm (c : AccountState) : Params.RegistryParams := Registry.params (registry c).

Definition moves (d : Z) (s s' : State) : Prop :=
  (ok s → ok s' ∧ total s' = total s + d) ∧ bridge_state s' = bridge_state s ∧
  prm (core s') = prm (core s).

Lemma moves_trans d1 d2 s1 s2 s3 : moves d1 s1 s2 → moves d2 s2 s3 → moves (d1 + d2) s1 s3.
Proof.
  intros (H1 & Hb1 & Hp1) (H2 & Hb2 & Hp2). split; [|split; congruence].
  intros [Hok2 Ht2]%H1. destruct (H2 Hok2) as [? ?]. split; [done|lia].
Qed.

Lemma moves_eq d d' s s' : moves d s s' → d = d' → moves d' s s'.
Proof. by intros Hm <-. Qed.

Lemma moves_refl s : moves 0 s s.
Proof. split; [|done]. intros ?. split; [done|lia]. Qed.

Lemma circulating_put s a acc :
  circulating_supply (put_account s a acc) = circulating_supply s + balance acc - get_balance s a.
Proof.
  unfold circulating_supply, get_balance, account_of, put_account. cbn [accounts with_accounts].
  destruct (accounts s !! a) as [old|] eqn:Ha.
  - change (default fresh_account (Some old)) with old.
    rewrite (map_sum_insert_upd _ _ _ _ _ Ha). lia.
  - change (balance (default fresh_account None)) with 0.
    rewrite map_sum_insert_new by done. lia.
Qed.

Lemma put_account_moves s a acc :
  u64 (balance acc) → moves (balance acc - get_balance s a) s (put_account s a acc).
Proof.
  intros Hacc. split; [|done]. intros [Hc Hb Hq]. split.
  - split; [done| |done]. intros a' acc'. cbn. rewrite lookup_insert.
    case_decide; [by intros [= <-]|apply Hb].
  - unfold total. rewrite circulating_put.
    change (core (put_account s a acc)) with (core s).
    change (total_unbonding_supply (put_account s a acc)) with (total_unbonding_supply s). lia.
Qed.

Lemma get_balance_put s a acc b :
  get_balance (put_account s a acc) b = if decide (a = b) then balance acc else get_balance s b.
Proof.
  unfold get_balance, account_of, put_account. cbn. rewrite lookup_insert. by case_decide.
Qed.

Lemma get_or_create_moves s a : ok s → moves 0 s (get_or_create s a).
Proof.
  intros Hok. pose proof (put_account_moves s a (account_of s a) (get_balance_u64 s a Hok)) as Hm.
  by rewrite Z.sub_diag in Hm.
Qed.

Lemma get_balance_create s a b : get_balance (get_or_create s a) b = get_balance s b.
Proof. unfold get_or_create. rewrite get_balance_put. by case_decide; subst. Qed.

Lemma try_add_balance_moves s a x s' :
  ok s → 0 ≤ x → try_add_balance s a x = (Ok (), s') →
  moves x s s' ∧ get_balance s' a = get_balance s a + x ∧
  ∀ b, b ≠ a → get_balance s' b = get_balance s b.
Proof.
  intros Hok Hx. unfold try_add_balance. rewrite get_balance_create.
  pose proof (get_balance_u64 s a Hok) as Hb. unfold u64_checked_add.
  destruct (Z.leb_spec (get_balance s a + x) u64_max); [|done]. cbn [ok_or]. intros [= <-].
  unfold set_balance. split; [|split].
  - eapply moves_eq; [eapply moves_trans; [by apply (get_or_create_moves s a)|]|].
    + apply (put_account_moves _ a {| balance := get_balance s a + x; nonce := _ |}).
      cbn. unfold u64 in *. lia.
    + rewrite get_balance_create. cbn. lia.
  - rewrite get_balance_put, decide_True by done. done.
  - intros b Hne. rewrite get_balance_put, decide_False by done. apply get_balance_create.
Qed.

Lemma check_sender_moves s from cost s' :
  ok s → check_sender s from cost = (Ok (), s') →
  moves 0 s s' ∧ core s' = core s ∧ unbonding_queue s' = unbonding_queue s ∧
  cost ≤ get_balance s' from.
Proof.
  intros Hok. unfold check_sender. case_bool_decide; [done|].
  destruct (Z.ltb_spec (get_balance (get_or_create s from) from) cost); [done|].
  intros [= <-]. split; [by apply get_or_create_moves|]. done.
Qed.

Lemma debit_sender_moves s from cost s' :
  ok s → 0 ≤ cost → debit_sender s from cost = (Ok (), s') →
  moves (- cost) s s' ∧ core s' = core s.
Proof.
  intros Hok Hc. unfold debit_sender. pose proof (get_balance_u64 s from Hok) as Hb.
  unfold get_balance in Hb.
  destruct (Z.ltb_spec (balance (account_of s from)) cost); [done|]. intros [= <-].
  split; [|done].
  pose proof (put_account_moves s from {| balance := balance (account_of s from) - cost;
    nonce := u64_sat_add (nonce (account_of s from)) 1 |}) as Hm. cbn in Hm.
  unfold get_balance in Hm.
  eapply moves_eq; [apply Hm|]; unfold u64 in *; lia.
Qed.

Lemma balance_le_total s a : ok s → get_balance s a ≤ total s.
Proof.
  intros Hok. pose proof (unbonding_nonneg s Hok). pose proof (staked_nonneg _ (ok_core _ Hok)).
  pose proof (bonds_nonneg _ (ok_core _ Hok)). unfold total.
  cut (get_balance s a ≤ circulating_supply s); [lia|].
  pose proof (circulating_put s a fresh_account) as Hput. cbn [balance fresh_account] in Hput.
  assert (0 ≤ circulating_supply (put_account s a fresh_account)); [|lia].
  apply circulating_nonneg. apply put_account_moves; [|done]. split; [done|by vm_compute].
Qed.

(** *** The validator set *)
Lemma with_core_moves s c :
  core_ok c → prm c = prm (core s) →
  moves (staked c + bonds c - staked (core s) - bonds (core s)) s (with_core s c).
Proof.
  intros Hc Hp. split; [|done]. intros [_ Hb Hq]. split; [by split|].
  unfold total. change (core (with_core s c)) with c.
  change (circulating_supply (with_core s c)) with (circulating_supply s).
  change (total_unbonding_supply (with_core s c)) with (total_unbonding_supply s). lia.
Qed.

Lemma put_validator_core c a v :
  core_ok c → u64 (stake v) →
  core_ok (put_validator c a v) ∧
  staked (put_validator c a v) = staked c + stake v - from_option stake 0 (validators c !! a) ∧
  bonds (put_validator c a v) = bonds c.
Proof.
  intros [Hs Hr] Hv. split; [|split; [|done]].
  - split; [|done]. intros b w. cbn. rewrite lookup_insert. case_decide; [by intros [= <-]|apply Hs].
  - unfold staked. cbn [put_validator with_validators with_members validators].
    destruct (validators c !! a) as [old|] eqn:Ha; cbn [from_option].
    + rewrite (map_sum_insert_upd _ _ _ _ _ Ha). lia.
    + rewrite map_sum_insert_new by done. lia.
Qed.

(** A change of validator rows of the registry. *)
Lemma registry_core c r :
  core_ok c →
  (∀ role a reg, Registry.registrations r !! (role, a) = Some reg →
     Registry.reg_role reg = role ∧ u64 (Registry.stake reg)) →
  core_ok (with_registry c r) ∧ staked (with_registry c r) = staked c.
Proof. intros [Hs _] Hr. split; [by split|done]. Qed.

Lemma sync_prm c a : prm (sync_validator_registration c a) = prm c.
Proof.
  unfold sync_validator_registration, Registry.upsert_stake, prm. cbn.
  destruct (Registry.registrations (registry c) !! _) as [reg|]; [|by case_match].
  destruct (Registry.status reg); by repeat case_match.
Qed.

Lemma sync_core c a :
  core_ok c →
  core_ok (sync_validator_registration c a) ∧
  staked (sync_validator_registration c a) = staked c ∧
  bonds (sync_validator_registration c a) = bonds c.
Proof.
  intros Hc. pose proof Hc as [Hs Hr].
  set (x := from_option stake 0 (validators c !! a)).
  assert (u64 x) as Hx.
  { unfold x. destruct (validators c !! a) eqn:Hv; cbn; [by eapply Hs|].
    split; [done|by vm_compute]. }
  unfold sync_validator_registration. fold x. unfold Registry.upsert_stake.
  set (k := (Role.VALIDATOR, a)).
  assert (∀ reg, Registry.reg_role reg = Role.VALIDATOR → bond_weight reg = 0) as Hw0.
  { intros reg Hreg. unfold bond_weight. by rewrite Hreg. }
  assert (∀ reg, Registry.reg_role reg = Role.VALIDATOR → u64 (Registry.stake reg) →
    let r := Registry.with_registrations (registry c)
               (<[k := reg]> (Registry.registrations (registry c))) in
    core_ok (with_registry c r) ∧ staked (with_registry c r) = staked c ∧
    bonds (with_registry c r) = bonds c) as Hins.
  { intros reg Hrole Hst r. destruct (registry_core c r Hc) as [Hok Hsame].
    - intros role b reg'. cbn. rewrite lookup_insert.
      case_decide as Hk; [|apply Hr]. injection Hk as <- <-. by intros [= <-].
    - split; [done|]. split; [done|]. unfold bonds, r. cbn.
      destruct (Registry.registrations (registry c) !! k) as [old|] eqn:Hk.
      + rewrite (map_sum_insert_upd _ _ _ _ _ Hk), !Hw0; [lia|done|].
        by apply Hr in Hk as [? _].
      + rewrite map_sum_insert_new, Hw0 by done. lia. }
  destruct (Registry.registrations (registry c) !! k) as [reg|] eqn:Hk.
  - pose proof (Hr _ _ _ Hk) as [Hrole _].
    assert (let r := Registry.with_registrations (registry c)
               (delete k (Registry.registrations (registry c))) in
      core_ok (with_registry c r) ∧ staked (with_registry c r) = staked c ∧
      bonds (with_registry c r) = bonds c) as Hdel.
    { intros r. destruct (registry_core c r Hc) as [Hok Hsame].
      - intros role b reg'. cbn. intros [_ ?]%lookup_delete_Some. by apply (Hr role b).
      - split; [done|]. split; [done|]. unfold bonds at 2.
        rewrite (map_sum_delete bond_weight _ _ _ Hk), Hw0 by done. done. }
    assert (Registry.reg_role (Registry.with_stake reg x) = Role.VALIDATOR) as Hrole' by done.
    specialize (Hins (Registry.with_stake reg x) Hrole' Hx).
    destruct (Registry.status reg); [destruct (x =? 0)|destruct (x =? 0)|];
      solve [exact Hins|exact Hdel].
  - destruct (_ <=? x); [|by destruct c]. by apply Hins.
Qed.

(** *** Transactions *)
Lemma apply_transfer_moves s from to amount fee s' :
  ok s → amount + fee ≤ u64_max → 0 ≤ amount → 0 ≤ fee →
  apply_transfer s from to amount fee = (Ok (), s') → moves (- fee) s s'.
Proof.
  intros Hok Ht Ha Hf. unfold apply_transfer.
  destruct (check_sender s from _) as [[[]|] s1] eqn:Hc; [|done].
  destruct (check_sender_moves s from _ s1 Hok Hc) as (Hm1 & _ & _ & Hcost).
  destruct (proj1 Hm1 Hok) as [Hok1 Ht1].
  assert (u64_sat_add amount fee = amount + fee) as Hsum by (unfold u64_sat_add in *; lia).
  rewrite Hsum in *. destruct (_ <? _); [done|].
  destruct (debit_sender s1 from _) as [[[]|] s2] eqn:Hd; [|done].
  destruct (debit_sender_moves s1 from (amount + fee) s2 Hok1 ltac:(lia) Hd) as [Hm2 _].
  destruct (proj1 Hm2 Hok1) as [Hok2 Ht2].
  change (try_add_balance s2 to amount = (Ok (), s') → moves (- fee) s s').
  intros Hadd. destruct (try_add_balance_moves s2 to amount s' Hok2 Ha Hadd) as [Hm3 _].
  eapply moves_eq; [exact (moves_trans _ _ _ _ _ Hm1 (moves_trans _ _ _ _ _ Hm2 Hm3))|lia].
Qed.

Lemma restake_core s a v x min_stake :
  core_ok (core s) → u64 x →
  moves (x - from_option stake 0 (validators (core s) !! a)) s
    (with_core s (sync_validator_registration (put_validator (core s) a (restake v x min_stake)) a)).
Proof.
  intros Hc Hx. destruct (put_validator_core (core s) a (restake v x min_stake) Hc Hx)
    as (Hc1 & Hs1 & Hb1).
  destruct (sync_core _ a Hc1) as (Hc2 & Hs2 & Hb2).
  eapply moves_eq; [apply with_core_moves; [done|by rewrite sync_prm]|].
  cbn [restake stake] in *. lia.
Qed.

Lemma apply_stake_moves s from amount fee chain s' :
  ok s → amount + fee ≤ u64_max → 0 ≤ amount → 0 ≤ fee →
  apply_stake s from amount fee chain = (Ok (), s') → moves (- fee) s s'.
Proof.
  intros Hok Ht Ha Hf. unfold apply_stake.
  destruct (check_sender s from _) as [[[]|] s1] eqn:Hc; [|done].
  destruct (check_sender_moves s from _ s1 Hok Hc) as (Hm1 & _ & _ & Hcost).
  destruct (proj1 Hm1 Hok) as [Hok1 Ht1].
  assert (u64_sat_add amount fee = amount + fee) as Hsum by (unfold u64_sat_add in *; lia).
  rewrite Hsum in *. destruct (_ <? _); [done|].
  destruct (debit_sender s1 from _) as [[[]|] s2] eqn:Hd; [|done].
  destruct (debit_sender_moves s1 from (amount + fee) s2 Hok1 ltac:(lia) Hd) as [Hm2 _].
  destruct (proj1 Hm2 Hok1) as [Hok2 Ht2].
  assert (∀ s3, moves amount s2 s3 → moves (- fee) s s3) as Hgoal.
  { intros s3 Hm3.
    eapply moves_eq; [exact (moves_trans _ _ _ _ _ Hm1 (moves_trans _ _ _ _ _ Hm2 Hm3))|lia]. }
  pose proof (ok_core _ Hok2) as Hc2.
  destruct (validators (core s2) !! from) as [v|] eqn:Hv.
  - unfold u64_checked_add. destruct (Z.leb_spec (stake v + amount) u64_max); [|done].
    cbn [ok_or]. intros [= <-]. apply Hgoal. pose proof (ok_stake _ Hc2 _ _ Hv) as [? ?].
    eapply moves_eq; [apply restake_core; [done|unfold u64; lia]|]. rewrite Hv. cbn. lia.
  - cbn zeta. unfold add_validator.
    fold (put_validator (core s2) from (new_validator amount)).
    set (c1 := put_validator (core s2) from (new_validator amount)).
    destruct (put_validator_core (core s2) from (new_validator amount) Hc2) as (Hc3 & Hs3 & Hb3).
    { cbn. unfold u64. pose proof (get_balance_u64 s1 from Hok1) as [_ ?]. lia. }
    fold c1 in Hc3, Hs3, Hb3. destruct (sync_core c1 from Hc3) as (Hc4 & Hs4 & Hb4).
    change (validators (sync_validator_registration c1 from)) with
      (<[from := new_validator amount]> (validators (core s2))).
    rewrite lookup_insert_eq. intros [= <-]. apply Hgoal.
    set (v' := restake _ _ _).
    destruct (put_validator_core (sync_validator_registration c1 from) from v' Hc4)
      as (Hc5 & Hs5 & Hb5).
    { cbn. unfold u64. pose proof (get_balance_u64 s1 from Hok1) as [_ ?]. lia. }
    destruct (sync_core _ from Hc5) as (Hc6 & Hs6 & Hb6).
    change (validators (sync_validator_registration c1 from)) with
      (<[from := new_validator amount]> (validators (core s2))) in Hs5.
    rewrite lookup_insert_eq in Hs5. rewrite Hv in Hs3. cbn in Hs3, Hs5.
    eapply moves_eq; [apply with_core_moves; [done|]|lia].
    rewrite sync_prm. change (prm (sync_validator_registration c1 from) = prm (core s2)).
    by rewrite sync_prm.
Qed.

Lemma reduce_votes_core c from amount :
  core_ok c → core_ok (reduce_votes c from amount).
Proof. intros [Hs Hr]. by split. Qed.

Lemma with_queue_moves s q :
  Forall (λ e, u64 (u_amount e)) q →
  moves (sumZ (u_amount <$> q) - total_unbonding_supply s) s (with_queue s q).
Proof.
  intros Hq. split; [|done]. intros [Hc Hb _]. split; [by split|].
  unfold total. change (core (with_queue s q)) with (core s).
  change (circulating_supply (with_queue s q)) with (circulating_supply s).
  change (total_unbonding_supply (with_queue s q)) with (sumZ (u_amount <$> q)). lia.
Qed.

Lemma apply_unstake_moves s from amount fee s' :
  ok s → 0 ≤ amount → 0 ≤ fee →
  apply_unstake s from amount fee = (Ok (), s') → moves (- fee) s s'.
Proof.
  intros Hok Ha Hf. unfold apply_unstake. case_bool_decide; [done|].
  destruct (amount =? 0); [done|]. destruct (fee =? 0); [done|].
  destruct (check_sender s from fee) as [[[]|] s1] eqn:Hc; [|done].
  destruct (check_sender_moves s from _ s1 Hok Hc) as (Hm1 & _ & _ & _).
  destruct (proj1 Hm1 Hok) as [Hok1 Ht1]. pose proof (ok_core _ Hok1) as Hc1.
  destruct (validators (core s1) !! from) as [v|] eqn:Hv; [|done].
  destruct (Z.ltb_spec (stake v) amount); [done|]. cbn zeta.
  pose proof (ok_stake _ Hc1 _ _ Hv) as [? ?].
  set (c2 := put_validator (reduce_votes (core s1) from amount) from (unstake_validator v amount)).
  destruct (put_validator_core (reduce_votes (core s1) from amount) from
    (unstake_validator v amount)) as (Hc2 & Hs2 & Hb2).
  { by apply reduce_votes_core. }
  { cbn. unfold u64. lia. }
  fold c2 in Hc2, Hs2, Hb2. destruct (sync_core c2 from Hc2) as (Hc3 & Hs3 & Hb3).
  change (staked (reduce_votes (core s1) from amount)) with (staked (core s1)) in Hs2.
  change (bonds (reduce_votes (core s1) from amount)) with (bonds (core s1)) in Hb2.
  change (validators (reduce_votes (core s1) from amount)) with (validators (core s1)) in Hs2.
  rewrite Hv in Hs2. cbn [from_option unstake_validator stake] in Hs2.
  set (e := {| u_address := from |}).
  pose proof (with_core_moves s1 (sync_validator_registration c2 from) Hc3
    ltac:(by rewrite sync_prm)) as Hm2.
  set (s2 := with_core s1 (sync_validator_registration c2 from)) in *.
  assert (Forall (λ e, u64 (u_amount e)) (unbonding_queue s1 ++ [e])) as Hq.
  { apply Forall_app. split; [apply (ok_queue _ Hok1)|]. constructor; [|done].
    cbn. unfold u64. lia. }
  pose proof (with_queue_moves s2 _ Hq) as Hm3.
  destruct (proj1 Hm2 Hok1) as [Hok2 _]. destruct (proj1 Hm3 Hok2) as [Hok3 _].
  intros Hd. destruct (debit_sender_moves _ from fee s' Hok3 Hf Hd) as [Hm4 _].
  eapply moves_eq; [exact (moves_trans _ _ _ _ _ Hm1 (moves_trans _ _ _ _ _ Hm2
    (moves_trans _ _ _ _ _ Hm3 Hm4)))|].
  rewrite fmap_app, sumZ_app. cbn [fmap list_fmap]. rewrite sumZ_cons.
  change (u_amount e) with amount.
  change (total_unbonding_supply s2) with (sumZ (u_amount <$> unbonding_queue s1)).
  cbn [sumZ foldr]. lia.
Qed.

Lemma settle_fee_moves s producer fee s' :
  ok s → settle_fee s producer fee = (Ok (), s') →
  ∃ d, d ≤ fee ∧ moves d s s' ∧ core s' = core s.
Proof.
  intros Hok. unfold settle_fee.
  assert (0 ≤ Tokenomics.metabolic_burn (tokenomics (core s)) fee) as Hb
    by (apply Z.mod_pos_bound; done).
  destruct (Z.ltb_spec fee (Tokenomics.metabolic_burn (tokenomics (core s)) fee)); [done|].
  set (x := fee - Tokenomics.metabolic_burn (tokenomics (core s)) fee) in *.
  destruct (Z.ltb_spec 0 x).
  - intros Hadd. destruct (try_add_balance_moves s producer x s' Hok ltac:(lia) Hadd) as [Hm _].
    eexists. split; [|split; [exact Hm|]].
    + lia.
    + unfold try_add_balance in Hadd. destruct (u64_checked_add _ _); [|done].
      by injection Hadd as <-.
  - intros [= <-]. exists 0. split; [lia|]. split; [apply moves_refl|done].
Qed.

(** *** Unbonding *)
Definition paid (a : Address) (es : list UnbondingEntry) : Z :=
  sumZ ((λ e, if bool_decide (u_address e = a) then u_amount e else 0) <$> es).

Lemma release_one_moves epoch s e :
  ok s → u64 (u_amount e) → moves (u_amount e) s (release_one epoch s e).
Proof.
  intros Hok He. unfold release_one.
  destruct (try_add_balance s (u_address e) (u_amount e)) as [[[]|err] s1] eqn:Hadd.
  - eapply try_add_balance_moves; [done|by destruct He|done].
  - assert (s1 = get_or_create s (u_address e)) as ->.
    { unfold try_add_balance in Hadd. destruct (u64_checked_add _ _); [done|].
      by injection Hadd. }
    set (s1 := get_or_create s (u_address e)).
    pose proof (get_or_create_moves s (u_address e) Hok) as Hm1. fold s1 in Hm1.
    destruct (proj1 Hm1 Hok) as [Hok1 _].
    set (e' := {| u_address := _ |}).
    assert (Forall (λ e, u64 (u_amount e)) (unbonding_queue s1 ++ [e'])) as Hq.
    { apply Forall_app. split; [apply (ok_queue _ Hok1)|by constructor]. }
    eapply moves_eq; [exact (moves_trans _ _ _ _ _ Hm1 (with_queue_moves s1 _ Hq))|].
    rewrite fmap_app, sumZ_app. cbn [fmap list_fmap]. rewrite sumZ_cons.
    change (u_amount e') with (u_amount e). cbn [sumZ foldr]. unfold total_unbonding_supply. lia.
Qed.

Lemma release_fold_moves epoch es s :
  ok s → Forall (λ e, u64 (u_amount e)) es →
  moves (sumZ (u_amount <$> es)) s (fold_left (release_one epoch) es s).
Proof.
  intros Hok Hes. revert s Hok. induction Hes as [|e es He _ IH]; intros s Hok.
  - apply moves_refl.
  - cbn [fold_left]. pose proof (release_one_moves epoch s e Hok He) as Hm.
    destruct (proj1 Hm Hok) as [Hok' _].
    rewrite fmap_cons, sumZ_cons. exact (moves_trans _ _ _ _ _ Hm (IH _ Hok')).
Qed.

Lemma sum_split (b1 b2 : UnbondingEntry → bool) q :
  sumZ (u_amount <$> q) =
  sumZ (u_amount <$> filter (λ e, b1 e = false) q) +
  sumZ (u_amount <$> filter (λ e, b1 e && b2 e = true) q) +
  sumZ (u_amount <$> filter (λ e, b1 e && negb (b2 e) = true) q).
Proof.
  induction q as [|e q IH]; [done|]. rewrite !filter_cons, fmap_cons, sumZ_cons, IH.
  destruct (b1 e), (b2 e); cbn [andb negb]; repeat case_decide; try done;
    rewrite fmap_cons, sumZ_cons; lia.
Qed.

Lemma forall_filter (P Q : UnbondingEntry → Prop) `{∀ x, Decision (Q x)} l :
  Forall P l → Forall P (filter Q l).
Proof.
  rewrite !Forall_forall. intros Hl x [_ Hx]%list_elem_of_filter. by apply Hl.
Qed.

Lemma process_unbonding_moves s : ok s → moves 0 s (process_unbonding s).
Proof.
  intros Hok. unfold process_unbonding. set (epoch := epoch_index (core s)).
  set (q := unbonding_queue s).
  assert (∀ Q `{∀ x, Decision (Q x)}, Forall (λ e, u64 (u_amount e)) (filter Q q)) as Hf.
  { intros Q HQ. apply forall_filter, (ok_queue _ Hok). }
  assert (Forall (λ e, u64 (u_amount e)) (filter (λ e, is_mature epoch e = false) q ++
    filter (λ e, is_mature epoch e && negb (fits s e) = true) q)) as Hq
    by (apply Forall_app; split; apply Hf).
  pose proof (with_queue_moves s _ Hq) as Hm1. destruct (proj1 Hm1 Hok) as [Hok1 _].
  pose proof (release_fold_moves epoch (filter (λ e, is_mature epoch e && fits s e = true) q)
    _ Hok1 (Hf _ _)) as Hm2.
  eapply moves_eq; [exact (moves_trans _ _ _ _ _ Hm1 Hm2)|].
  rewrite fmap_app, sumZ_app. unfold total_unbonding_supply.
  fold q. rewrite (sum_split (is_mature epoch) (fits s) q). lia.
Qed.

(** With room for every balance, every release succeeds. *)
Lemma release_all epoch es s :
  ok s → Forall (λ e, u64 (u_amount e)) es → total s + sumZ (u_amount <$> es) ≤ u64_max →
  unbonding_queue (fold_left (release_one epoch) es s) = unbonding_queue s ∧
  ∀ a, get_balance (fold_left (release_one epoch) es s) a = get_balance s a + paid a es.
Proof.
  intros Hok Hes. revert s Hok. induction Hes as [|e es He Hes IH]; intros s Hok Hsum.
  - split; [done|]. intros a. unfold paid. cbn. lia.
  - rewrite fmap_cons, sumZ_cons in Hsum. cbn [fold_left].
    assert (0 ≤ sumZ (u_amount <$> es)) as Hpos.
    { apply sumZ_nonneg, Forall_fmap. eapply Forall_impl; [exact Hes|]. by intros x [? _]. }
    pose proof (balance_le_total s (u_address e) Hok) as Hb. destruct He as [He0 He1].
    assert (∃ s1, try_add_balance s (u_address e) (u_amount e) = (Ok (), s1)) as [s1 Hadd].
    { unfold try_add_balance, u64_checked_add. rewrite get_balance_create.
      rewrite (proj2 (Z.leb_le _ _)) by lia. by eexists. }
    destruct (try_add_balance_moves s _ _ s1 Hok He0 Hadd) as (Hm & Hbal & Hother).
    destruct (proj1 Hm Hok) as [Hok1 Ht1].
    unfold release_one at 2 4. rewrite Hadd. destruct (IH s1 Hok1) as [Hq Hbs]; [lia|].
    split.
    + rewrite Hq. unfold try_add_balance in Hadd. destruct (u64_checked_add _ _); [|done].
      by injection Hadd as <-.
    + intros a. rewrite Hbs. unfold paid. rewrite fmap_cons, sumZ_cons.
      case_bool_decide as Ha; [subst a; rewrite Hbal; lia|]. rewrite Hother by done. lia.
Qed.

Lemma fit_le_total s e :
  ok s → e ∈ unbonding_queue s → get_balance s (u_address e) + u_amount e ≤ total s.
Proof.
  intros Hok He. pose proof (staked_nonneg _ (ok_core _ Hok)).
  pose proof (bonds_nonneg _ (ok_core _ Hok)). unfold total.
  assert (u_amount e ≤ total_unbonding_supply s) as Hle.
  { unfold total_unbonding_supply. apply list_elem_of_split in He as (q1 & q2 & Hq).
    pose proof (ok_queue _ Hok) as Hall. rewrite Hq in Hall |- *.
    apply Forall_app in Hall as [H1 H2]. apply Forall_cons in H2 as [_ H2].
    assert (∀ q, Forall (λ e, u64 (u_amount e)) q → 0 ≤ sumZ (u_amount <$> q)) as Hpos.
    { intros q Hall. apply sumZ_nonneg, Forall_fmap. eapply Forall_impl; [exact Hall|].
      by intros x [? _]. }
    rewrite fmap_app, sumZ_app, fmap_cons, sumZ_cons.
    pose proof (Hpos q1 H1). pose proof (Hpos q2 H2). lia. }
  pose proof (circulating_put s (u_address e) fresh_account) as Hput.
  cbn [balance fresh_account] in Hput.
  assert (0 ≤ circulating_supply (put_account s (u_address e) fresh_account)); [|lia].
  apply circulating_nonneg. apply put_account_moves; [|done]. split; [done|by vm_compute].
Qed.

Lemma filter_fits (b1 b2 : UnbondingEntry → bool) q :
  (∀ e, e ∈ q → b2 e = true) →
  filter (λ e, b1 e && b2 e = true) q = filter (λ e, b1 e = true) q ∧
  filter (λ e, b1 e && negb (b2 e) = true) q = [].
Proof.
  induction q as [|e q IH]; intros Hb; [done|].
  destruct IH as [IH1 IH2]; [set_solver|]. rewrite !filter_cons, IH1, IH2.
  rewrite (Hb e) by set_solver. by destruct (b1 e).
Qed.

(** *** The timed burn *)
Lemma with_burn_moves s b : moves 0 s (with_burn s b).
Proof.
  split; [|done]. intros [Hc Hb Hq]. split; [by split|].
  change (total (with_burn s b)) with (total s). lia.
Qed.

Lemma burn_from_spec s a x :
  ok s → 0 ≤ x →
  let '(burned, s') := burn_from s a x in
  burned = Z.min x (get_balance s a) ∧ moves (- burned) s s' ∧
  (∀ b, get_balance s' b = get_balance s b - if decide (a = b) then burned else 0) ∧
  timed_burn s' = timed_burn s ∧ core s' = core s.
Proof.
  intros Hok Hx. unfold burn_from. pose proof (get_balance_u64 s a Hok) as [Hb0 Hb1].
  destruct (Z.eqb_spec x 0) as [->|].
  - split_and!; [lia|apply moves_refl|intros b; case_decide; lia|done|done].
  - rewrite get_balance_create. split; [done|]. split; [|split; [|done]].
    + eapply moves_eq; [eapply moves_trans; [by apply (get_or_create_moves s a)|]|].
      * apply (put_account_moves _ a {| balance := get_balance s a - Z.min x (get_balance s a);
          nonce := _ |}). cbn. unfold u64. lia.
      * rewrite get_balance_create. cbn. lia.
    + intros b. unfold set_balance. rewrite get_balance_put. case_decide as Hd.
      * subst b. cbn. lia.
      * rewrite get_balance_create. lia.
Qed.

Lemma burn_years_spec n s a x acc :
  ok s → 0 ≤ x → 0 ≤ acc → acc + get_balance s a ≤ u64_max →
  let '(t, s') := burn_years n s a x acc in
  let burned := Z.min (Z.of_nat n * x) (get_balance s a) in
  t = acc + burned ∧ moves (- burned) s s' ∧
  (∀ b, get_balance s' b = get_balance s b - if decide (a = b) then burned else 0) ∧
  Tokenomics.years_burned (timed_burn s') = Tokenomics.years_burned (timed_burn s) ∧
  core s' = core s.
Proof.
  revert s acc. induction n as [|n IH]; intros s acc Hok Hx Hacc Hsum; cbn [burn_years].
  - pose proof (get_balance_u64 s a Hok) as [? ?].
    replace (Z.min (Z.of_nat 0 * x) (get_balance s a)) with 0 by lia.
    split; [lia|]. split; [apply moves_refl|]. split; [|done]. intros b. case_decide; lia.
  - pose proof (burn_from_spec s a x Hok Hx) as Hspec.
    pose proof (get_balance_u64 s a Hok) as [Hb0 Hb1].
    destruct (burn_from s a x) as [b1 s1]. destruct Hspec as (Hb & Hm & Hbal & Htb & Hcore).
    destruct (proj1 Hm Hok) as [Hok1 _]. destruct (Z.eqb_spec b1 0) as [Hz|Hnz].
    + assert (Z.min (Z.of_nat (S n) * x) (get_balance s a) = 0) as -> by nia.
      split; [lia|]. split; [by rewrite Hz in Hm|]. split; [|by rewrite Htb].
      intros b. rewrite Hbal. by case_decide; lia.
    + set (s2 := with_burn s1 _).
      assert (∀ b, get_balance s2 b = get_balance s1 b) as Hs2 by done.
      assert (ok s2) as Hok2 by by apply (with_burn_moves s1).
      assert (get_balance s1 a = get_balance s a - b1) as Hs1
        by (rewrite Hbal, decide_True by done; done).
      specialize (IH s2 (u64_sat_add acc b1) Hok2 Hx).
      rewrite Hs2, Hs1, u64_sat_add_small in IH by lia.
      destruct (burn_years n s2 a x (acc + b1)) as [t s3] eqn:Hby.
      rewrite u64_sat_add_small, Hby by lia.
      destruct IH as (Ht & Hm3 & Hbal3 & Hy & Hcore3); [lia..|].
      assert (Z.min (Z.of_nat (S n) * x) (get_balance s a) =
        b1 + Z.min (Z.of_nat n * x) (get_balance s a - b1)) as Hburn by nia.
      rewrite Hburn. split; [lia|]. split; [|split; [|split]].
      * eapply moves_eq; [exact (moves_trans _ _ _ _ _ Hm
          (moves_trans _ _ _ _ _ (with_burn_moves s1 _) Hm3))|lia].
      * intros b. rewrite Hbal3, Hs2, Hbal. case_decide; lia.
      * rewrite Hy. cbn. by rewrite Htb.
      * by rewrite Hcore3.
Qed.

Lemma timed_burn_spec s g a :
  ok s → 0 ≤ Tokenomics.annual_burn_amount (tokenomics (core s)) →
  let due := Tokenomics.due_years g (epoch_index (core s))
               (Tokenomics.epochs_per_year (tokenomics (core s))) in
  let years := Tokenomics.years_burned (timed_burn s) in
  let '(t, s') := process_timed_burn s g a in
  t = Z.min (Z.max (due - years) 0 * Tokenomics.annual_burn_amount (tokenomics (core s)))
        (get_balance s a) ∧
  moves (- t) s s' ∧
  (∀ b, get_balance s' b = get_balance s b - if decide (a = b) then t else 0) ∧
  Tokenomics.years_burned (timed_burn s') = Z.max due years ∧
  core s' = core s.
Proof.
  intros Hok Hx due years. unfold process_timed_burn, process_due_timed_burn. fold due years.
  pose proof (get_balance_u64 s a Hok) as [Hb0 Hb1].
  destruct (Z.leb_spec due years).
  - rewrite (Z.max_r (due - years) 0) by lia. cbn [Z.mul]. split; [lia|].
    split; [apply moves_refl|]. split; [intros b; case_decide; lia|]. split; [lia|done].
  - pose proof (burn_years_spec (Z.to_nat (due - years)) s a
      (Tokenomics.annual_burn_amount (tokenomics (core s))) 0 Hok Hx) as Hspec.
    destruct (burn_years _ s a _ 0) as [t s1].
    destruct Hspec as (Ht & Hm & Hbal & Hy & Hcore); [lia..|].
    rewrite Z2Nat.id in * by lia. rewrite (Z.max_l (due - years) 0) by lia.
    rewrite Ht, Z.add_0_l. split; [done|]. split; [|split; [exact Hbal|]].
    + eapply moves_eq; [exact (moves_trans _ _ _ _ _ Hm (with_burn_moves s1 _))|lia].
    + split; [cbn; lia|done].
Qed.

(** *** The governed core *)
Definition fees_ok (p : Params.RegistryParams) : Prop :=
  0 ≤ Params.bridge_relayer_fee_ppm p < Params.PPM_DENOMINATOR ∧
  u64 (Params.bridge_relayer_min_fee p).

Definition core_shrinks (c c' : AccountState) : Prop :=
  core_ok c →
  core_ok c' ∧ staked c' ≤ staked c ∧ bonds c' = bonds c ∧
  (fees_ok (Registry.params (registry c)) → fees_ok (Registry.params (registry c'))).

Lemma core_shrinks_trans c1 c2 c3 : core_shrinks c1 c2 → core_shrinks c2 c3 → core_shrinks c1 c3.
Proof.
  intros H1 H2 Hc. destruct (H1 Hc) as (Hc2 & ? & ? & ?). destruct (H2 Hc2) as (? & ? & ? & ?).
  split_and!; [done|lia|lia|auto].
Qed.

Lemma core_shrinks_same c c' :
  validators c' = validators c → Registry.registrations (registry c') =
    Registry.registrations (registry c) →
  (fees_ok (Registry.params (registry c)) → fees_ok (Registry.params (registry c'))) →
  core_shrinks c c'.
Proof.
  intros Hv Hr Hf [Hs Hk]. unfold staked, bonds. rewrite Hv, Hr.
  split_and!; [split; by rewrite ?Hv, ?Hr|lia|done|done].
Qed.

Lemma parse_digits_range acc cs x : u64 acc → Update.parse_digits acc cs = Some x → u64 x.
Proof.
  revert acc. induction cs as [|c cs IH]; intros acc Ha; cbn [Update.parse_digits].
  - by intros [= <-].
  - destruct (Update.digit c) as [d|] eqn:Hd; [|done]. cbn [mbind option_bind].
    assert (0 ≤ d ≤ 9) as Hd9.
    { unfold Update.digit in Hd. destruct (_ && _) eqn:Hb; [|done]. injection Hd as <-. lia. }
    destruct (10 * acc <=? u64_max); [|done]. unfold u64_checked_add.
    destruct (Z.leb_spec (10 * acc + d) u64_max); [|done]. cbn [mbind option_bind].
    apply IH. unfold u64 in *. lia.
Qed.

Lemma parse_u64_range v x : Update.parse_u64 v = Some x → u64 x.
Proof.
  assert (u64 0) as H0 by (split; [done|by vm_compute]).
  unfold Update.parse_u64. destruct (String.list_ascii_of_string v) as [|c cs]; [done|].
  destruct (Ascii.eqb c _); [destruct cs; [done|]|]; by apply parse_digits_range.
Qed.

Lemma update_fees r key value :
  fees_ok (Registry.params r) →
  fees_ok (Registry.params (Update.apply_registry_parameter_update r key value).2).
Proof.
  intros Hf. unfold Update.apply_registry_parameter_update, Update.assign.
  case_bool_decide.
  - destruct (Update.parse_u64 value) as [v|] eqn:Hv; [|done]. cbn [ok_or].
    apply parse_u64_range in Hv.
    destruct (Params.validate _) as [[]|] eqn:Hval; [|done]. cbn.
    apply Update.validate_bounded in Hval. destruct Hval as (_ & _ & _ & _ & _ & Hppm & _).
    destruct Hf as [[Hlo Hhi] Hmin]. unfold fees_ok. cbn in *.
    unfold Update.assign_field in *. unfold u64 in *.
    split; [split; [|done]|].
    + clear Hppm. destruct (key =? "bridge_relayer_fee_ppm")%string; lia.
    + clear Hppm. destruct (key =? "bridge_relayer_min_fee")%string; lia.
  - destruct (key =? _)%string; [|done]. destruct (Update.parse_governance_bool _ _); [|done].
    by destruct (Params.validate _) as [[]|].
Qed.

Section core.
Context `{Sha256} (report_bytes : Evidence.SlashingReport → bytes).

Lemma execute_proposal_shrinks c p : core_shrinks c (execute_proposal report_bytes c p).
Proof.
  unfold execute_proposal. destruct (p_type p); try by apply core_shrinks_same.
  - destruct (_ || _); by apply core_shrinks_same.
  - destruct (negb _); by apply core_shrinks_same.
  - destruct (negb _); [by apply core_shrinks_same|].
    destruct (validators c !! address) as [v|] eqn:Hv; [|by apply core_shrinks_same].
    intros Hc. set (v' := {| stake := 0 |}).
    destruct (put_validator_core c address v' Hc) as (Hc' & Hs & Hb).
    { split; [done|by vm_compute]. }
    rewrite Hv in Hs. cbn in Hs. pose proof (ok_stake _ Hc _ _ Hv) as [? ?].
    unfold put_validator in *. split_and!; [done|lia|done|done].
  - apply core_shrinks_same; [done| |apply update_fees].
    unfold Update.apply_registry_parameter_update. cbn.
    destruct (Update.assign _ _ _); [|done]. by destruct (Params.validate _) as [[]|].
  - unfold set_encryption_policy. destruct (Policy.validate _); by apply core_shrinks_same.
  - unfold mark_verified_by_proposal. destruct (apps c !! app_id); [|by apply core_shrinks_same].
    destruct (_ && _); by apply core_shrinks_same.
Qed.

Lemma advance_epoch_shrinks c c' : advance_epoch report_bytes c = Some c' → core_shrinks c c'.
Proof.
  unfold advance_epoch. destruct (get_total_stake c); [|done]. cbn [mbind option_bind].
  set (xs := filter _ _). set (c1 := with_governance c _). intros [= <-].
  assert (core_shrinks c1 (fold_left (run_proposal report_bytes) xs c1)) as Hfold.
  { apply (fold_left_inv (core_shrinks c1)); [|by apply core_shrinks_same].
    intros c2 p _ Hc2. eapply core_shrinks_trans; [exact Hc2|].
    eapply core_shrinks_trans; [apply execute_proposal_shrinks|by apply core_shrinks_same]. }
  apply (core_shrinks_trans _ c1); [by apply core_shrinks_same|].
  eapply core_shrinks_trans; [exact Hfold|by apply core_shrinks_same].
Qed.
End core.

Lemma apply_action_shrinks c a : core_shrinks c (apply_action c a).2.
Proof.
  destruct a; cbn [apply_action]; try by apply core_shrinks_same.
  - unfold set_encryption_policy. destruct (Policy.validate _); by apply core_shrinks_same.
  - destruct (Constitution.set_parameter _ _). by apply core_shrinks_same.
Qed.

Lemma block_governance_shrinks c : core_shrinks c (apply_block_governance c).2.
Proof.
  unfold apply_block_governance. destruct (execute_passed_proposals _ _) as [acts g].
  eapply (core_shrinks_trans _ (with_governance c g)); [by apply core_shrinks_same|].
  generalize (with_governance c g). induction acts as [|a acts IH]; intros c1; cbn [apply_actions].
  - by apply core_shrinks_same.
  - pose proof (apply_action_shrinks c1 a) as Ha. destruct (apply_action c1 a) as [[]c2]; [|done].
    eapply core_shrinks_trans; [exact Ha|apply IH].
Qed.

Lemma jail_shrinks c e (pv : Address → bool) :
  core_shrinks c (with_validators c
    (map_imap (λ a v, Some (release_jail e (pv a) v)) (validators c))).
Proof.
  assert (∀ b v, stake (release_jail e b v) = stake v) as Hst.
  { intros b v. unfold release_jail. by case_match. }
  intros [Hs Hr]. split_and!; [split; [|done]| |done|done].
  - intros a v. cbn. rewrite map_lookup_imap.
    destruct (validators c !! a) as [w|] eqn:Hw; [|done]. cbn. intros [= <-].
    rewrite Hst. by eapply Hs.
  - apply Z.eq_le_incl. apply map_sum_ext. intros a. cbn. rewrite map_lookup_imap.
    destruct (validators c !! a) as [w|]; [|done]. cbn. by rewrite Hst.
Qed.

(** A slash only lowers stakes and bonds. *)
Lemma slash_validator_shrinks s a ratio :
  ok s → u64 ratio →
  core_ok (core (slash_validator s a ratio).2) ∧
  staked (core (slash_validator s a ratio).2) + bonds (core (slash_validator s a ratio).2) ≤
    staked (core s) + bonds (core s) ∧
  Registry.params (registry (core (slash_validator s a ratio).2)) =
    Registry.params (registry (core s)).
Proof.
  intros Hok Hratio. pose proof (ok_core _ Hok) as Hc. pose proof Hc as [Hs Hr].
  unfold slash_validator. destruct (validators (core s) !! a) as [v|] eqn:Hv; [|done].
  destruct (slashed v); [done|]. cbn zeta.
  pose proof (Hs _ _ Hv) as Hst.
  destruct (Penalty.slash_penalty_min (stake v) ratio Hst Hratio) as [_ Hpen].
  set (v' := {| stake := sat_sub _ _ |}). set (c1 := put_validator (core s) a v').
  destruct (put_validator_core (core s) a v' Hc) as (Hc1 & Hs1 & Hb1).
  { cbn. unfold u64, sat_sub in *. lia. }
  fold c1 in Hc1, Hs1, Hb1. rewrite Hv in Hs1. cbn in Hs1. rewrite sat_sub_small in Hs1 by lia.
  change (registry c1) with (registry (core s)).
  destruct (Registry.slash (registry (core s)) a Role.VALIDATOR DoubleSign ratio)
    as [[out|e] r] eqn:Hsl.
  - apply RegistryProps.slash_lookup in Hsl as (_ & Hrows & Hpar & _).
    assert (∀ reg, Registry.reg_role (RegistryProps.slash_if ratio reg) = Registry.reg_role reg ∧
      (u64 (Registry.stake reg) → u64 (Registry.stake (RegistryProps.slash_if ratio reg)) ∧
        Registry.stake (RegistryProps.slash_if ratio reg) ≤ Registry.stake reg)) as Hif.
    { intros reg. unfold RegistryProps.slash_if.
      destruct (Registry.status reg); cbn; (split; [done|]); intros Hu; try (split; [done|lia]).
      all: destruct (Penalty.slash_penalty_min (Registry.stake reg) ratio Hu Hratio) as [_ ?];
        rewrite sat_sub_small by lia; unfold u64 in *; lia. }
    destruct (registry_core c1 r Hc1) as [Hc2 Hs2].
    { intros role b reg. rewrite Hrows. cbn. case_decide; [|apply Hr].
      destruct (Registry.registrations _ !! (role, b)) as [old|] eqn:Hold; [|done].
      cbn. intros [= <-]. apply Hr in Hold as [Hro Hu]. destruct (Hif old) as [-> Hi].
      split; [done|by apply Hi]. }
    split; [done|]. split; [|done]. cbn [snd core with_core]. rewrite Hs2.
    cut (bonds (with_registry c1 r) ≤ bonds (core s)); [lia|].
    apply map_sum_mono. intros k. cbn. rewrite Hrows.
    destruct (Registry.registrations (registry (core s)) !! k) as [reg|] eqn:Hreg;
      case_decide; cbn; rewrite ?Hreg; try done.
    destruct k as [role b]. apply Hr in Hreg as [_ Hu]. destruct (Hif reg) as [Hro Hi].
    unfold bond_weight. rewrite Hro. case_match; [done|by apply Hi].
  - apply RegistryProps.slash_err in Hsl as [-> _]. cbn [snd core with_core].
    destruct (registry_core c1 (registry (core s)) Hc1 Hr) as [Hc2 Hs2].
    split; [done|]. split; [|done]. rewrite Hs2.
    change (bonds (with_registry c1 (registry (core s)))) with (bonds (core s)). lia.
Qed.

(** *** Blocks *)
Definition tx_ok (tx : Tx) : Prop :=
  match tx with
  | Transfer _ _ amount fee | Stake _ amount fee _ | Unstake _ amount fee =>
      0 ≤ amount ∧ 0 ≤ fee ∧ amount + fee ≤ u64_max
  end.

Lemma moves_ok d s s' : ok s → moves d s s' → ok s'.
Proof. intros Hok (Hm & _). by apply Hm. Qed.

Lemma apply_transactions_moves txs s s' :
  ok s → Forall tx_ok txs → apply_transactions s txs = (Ok (), s') →
  moves (- sumZ (tx_fee <$> txs)) s s'.
Proof.
  intros Hok Htxs. revert s Hok. induction Htxs as [|tx txs Htx _ IH]; intros s Hok;
    cbn [apply_transactions].
  - intros [= <-]. apply moves_refl.
  - destruct (apply_transaction_checked s tx) as [[[]|] s1] eqn:Htx1; [|done]. intros Hrest.
    assert (moves (- tx_fee tx) s s1) as Hm.
    { destruct tx; cbn [tx_fee tx_ok apply_transaction_checked] in *; destruct Htx as (? & ? & ?).
      - by eapply apply_transfer_moves.
      - by eapply apply_stake_moves.
      - by apply (apply_unstake_moves s from amount fee s1). }
    rewrite fmap_cons, sumZ_cons.
    eapply moves_eq; [exact (moves_trans _ _ _ _ _ Hm (IH _ (moves_ok _ _ _ Hok Hm) Hrest))|lia].
Qed.

Lemma settle_fees_moves txs s producer s' :
  ok s → settle_fees s producer txs = (Ok (), s') →
  ∃ d, d ≤ sumZ (tx_fee <$> txs) ∧ moves d s s' ∧ core s' = core s.
Proof.
  revert s. induction txs as [|tx txs IH]; intros s Hok; cbn [settle_fees].
  - intros [= <-]. exists 0. split; [done|]. split; [apply moves_refl|done].
  - destruct (settle_fee s producer (tx_fee tx)) as [[[]|] s1] eqn:Hs1; [|done]. intros Hrest.
    destruct (settle_fee_moves s producer _ s1 Hok Hs1) as (d1 & Hd1 & Hm1 & Hc1).
    destruct (IH s1 (moves_ok _ _ _ Hok Hm1) Hrest) as (d2 & Hd2 & Hm2 & Hc2).
    exists (d1 + d2). rewrite fmap_cons, sumZ_cons. split; [lia|].
    split; [by eapply moves_trans|congruence].
Qed.

(** What a block or an epoch close may do. *)
Definition shrinks (s s' : State) : Prop :=
  (ok s → ok s' ∧ total s' ≤ total s) ∧ bridge_state s' = bridge_state s ∧
  (ok s → fees_ok (prm (core s)) → fees_ok (prm (core s'))).

Lemma moves_shrinks d s s' : d ≤ 0 → moves d s s' → shrinks s s'.
Proof.
  intros Hd (Hm & Hb & Hp). split; [|split; [done|by rewrite Hp]].
  intros [? ?]%Hm. split; [done|lia].
Qed.

Lemma shrinks_trans s1 s2 s3 : shrinks s1 s2 → shrinks s2 s3 → shrinks s1 s3.
Proof.
  intros (H1 & Hb1 & Hf1) (H2 & Hb2 & Hf2). split; [|split; [congruence|]].
  - intros [Hok2 ?]%H1. destruct (H2 Hok2). split; [done|lia].
  - intros Hok Hf. destruct (H1 Hok) as [Hok2 _]. auto.
Qed.

Lemma core_shrinks_state s c : core_shrinks (core s) c → shrinks s (with_core s c).
Proof.
  intros Hs. split; [|split; [done|]].
  - intros [Hc Hb Hq]. destruct (Hs Hc) as (Hc' & Hst & Hbo & _). split; [by split|].
    unfold total. change (core (with_core s c)) with c.
    change (circulating_supply (with_core s c)) with (circulating_supply s).
    change (total_unbonding_supply (with_core s c)) with (total_unbonding_supply s). lia.
  - intros Hok Hf. by destruct (Hs (ok_core _ Hok)) as (_ & _ & _ & Hfees); apply Hfees.
Qed.

Lemma apply_block_shrinks s txs producer s' :
  ok s → Forall tx_ok txs → apply_block_checked s txs producer = (Ok (), s') → shrinks s s'.
Proof.
  intros Hok Htxs. unfold apply_block_checked.
  destruct (apply_transactions s txs) as [[[]|] s1] eqn:H1; [|done].
  pose proof (apply_transactions_moves txs s s1 Hok Htxs H1) as Hm1.
  pose proof (moves_ok _ _ _ Hok Hm1) as Hok1.
  assert (0 ≤ sumZ (tx_fee <$> txs)) as Hpos.
  { apply sumZ_nonneg, Forall_fmap. eapply Forall_impl; [exact Htxs|].
    intros [] (? & ? & ?); done. }
  assert (∀ s2, (match producer with
    | Some p => settle_fees s1 p txs
    | None => (Ok (), s1) end) = (Ok (), s2) → shrinks s s2) as Hset.
  { intros s2. destruct producer as [p|].
    - intros Hs2. destruct (settle_fees_moves txs s1 p s2 Hok1 Hs2) as (d & Hd & Hm2 & _).
      eapply moves_shrinks; [|exact (moves_trans _ _ _ _ _ Hm1 Hm2)]. lia.
    - intros [= <-]. eapply moves_shrinks; [|exact Hm1]. lia. }
  destruct (match producer with Some _ => _ | None => _ end) as [[[]|] s2]; [|done].
  specialize (Hset s2 eq_refl).
  pose proof (block_governance_shrinks (core s2)) as Hg.
  destruct (apply_block_governance (core s2)) as [r c]. intros [= _ <-].
  eapply shrinks_trans; [exact Hset|by apply core_shrinks_state].
Qed.

Lemma close_epoch_shrinks `{Sha256} report_bytes pv s s' :
  ok s → close_epoch report_bytes pv s = Some s' → shrinks s s'.
Proof.
  intros Hok. unfold close_epoch.
  destruct (advance_epoch report_bytes (core s)) as [c|] eqn:Hadv; [|done].
  cbn [mbind option_bind]. apply advance_epoch_shrinks in Hadv.
  pose proof (core_shrinks_state s c Hadv) as Hs1. destruct (proj1 Hs1 Hok) as [Hok1 _].
  pose proof (process_unbonding_moves _ Hok1) as Hm2.
  set (s2 := process_unbonding (with_core s c)) in *. set (s3 := with_core s2 _).
  assert (shrinks s s3) as Hs3.
  { eapply shrinks_trans; [exact Hs1|]. eapply shrinks_trans; [by eapply moves_shrinks|].
    apply core_shrinks_state, jail_shrinks. }
  intros Hs'. apply (inj Some) in Hs' as <-.
  destruct (burn_reserve_address s3) as [a|]; [|exact Hs3].
  destruct (proj1 Hs3 Hok) as [Hok3 _].
  assert (0 ≤ Tokenomics.annual_burn_amount (tokenomics (core s3))) as Hb
    by (apply Z.mod_pos_bound; done).
  pose proof (timed_burn_spec s3 0 a Hok3 Hb) as Hspec. cbn zeta in Hspec.
  pose proof (get_balance_u64 s3 a Hok3) as [? _].
  destruct (process_timed_burn s3 0 a) as [t s4]. destruct Hspec as (Ht & Hm & _).
  eapply shrinks_trans; [exact Hs3|]. eapply moves_shrinks; [|exact Hm].
  assert (0 ≤ Z.max (Tokenomics.due_years 0 (epoch_index (core s3))
    (Tokenomics.epochs_per_year (tokenomics (core s3))) -
    Tokenomics.years_burned (timed_burn s3)) 0 *
    Tokenomics.annual_burn_amount (tokenomics (core s3))) by (apply Z.mul_nonneg_nonneg; lia).
  lia.
Qed.

Lemma slash_shrinks s a ratio : ok s → u64 ratio → shrinks s (slash_validator s a ratio).2.
Proof.
  intros Hok Hr. destruct (slash_validator_shrinks s a ratio Hok Hr) as (Hc & Hsum & Hp).
  assert (∃ c, (slash_validator s a ratio).2 = with_core s c) as [c Heq].
  { unfold slash_validator. destruct (validators (core s) !! a) as [v|];
      [|exists (core s); by destruct s]. destruct (slashed v); [exists (core s); by destruct s|].
    by eexists. }
  rewrite Heq in *. cbn [core with_core] in *. split; [|split; [done|]].
  - intros [_ Hb Hq]. split; [by split|]. unfold total.
    change (core (with_core s c)) with c.
    change (circulating_supply (with_core s c)) with (circulating_supply s).
    change (total_unbonding_supply (with_core s c)) with (total_unbonding_supply s). lia.
  - intros _. unfold prm. cbn. by rewrite Hp.
Qed.

(** *** The bridge paths *)
Lemma with_bridge_ok s b : ok s → ok (with_bridge s b) ∧ total (with_bridge s b) = total s.
Proof. intros [Hc Hb Hq]. by split. Qed.

Lemma split_exact amount ppm min_fee recipient fee :
  u64 amount → u64 min_fee → 0 ≤ ppm < Params.PPM_DENOMINATOR →
  split_bridge_fee amount ppm min_fee = Ok (recipient, fee) →
  recipient + fee = amount ∧ 0 ≤ recipient ∧ 0 ≤ fee.
Proof.
  intros Ha Hm Hp. unfold split_bridge_fee, split_bridge_fee_u128, Params.PPM_DENOMINATOR in *.
  destruct (Z.leb_spec amount min_fee) as [|Hlt]; [done|].
  assert (u128_sat_mul amount ppm = amount * ppm) as -> by (unfold_ints; nia).
  assert (0 ≤ amount * ppm / 1000000 < amount) as Hq.
  { unfold u64 in *. split; [apply Z.div_pos; nia|apply Z.div_lt_upper_bound; nia]. }
  set (q := amount * ppm / 1000000) in *. clearbody q.
  unfold u64_try_from. destruct (_ <=? u64_max); [|done]. cbn [ok_or].
  destruct (_ <=? u64_max); [|done]. cbn [ok_or]. intros [= <- <-].
  rewrite sat_sub_small; unfold u64 in *; lia.
Qed.

Section bridge.
Context `{Sha256}.
Import BridgeRun.

Lemma locked_move s id t st loc :
  transfers s !! id = Some t →
  locked_sum (move s id t st loc) =
  locked_sum s - locked_amount t + locked_amount (Bridge.with_status t st).
Proof. intros Ht. unfold locked_sum. cbn. by rewrite (map_sum_insert_upd _ _ _ _ _ Ht). Qed.

Lemma lock_path log s src tgt height index asset owner recipient amount expiry out s' :
  let m := lock_message src tgt height index asset owner recipient amount expiry
             (lane_nonce (bridge_state s) src tgt owner) in
  ok s → inv log (bridge_state s) → log_ok (m :: log) → message_ok m → u64 amount →
  lock_bridge_transfer s src tgt height index asset owner recipient amount expiry = (Ok out, s') →
  ok s' ∧ total s' = total s - amount ∧ prm (core s') = prm (core s) ∧
  bridge_state s' =
    (lock (bridge_state s) src tgt height index asset owner recipient amount expiry).2 ∧
  locked_sum (bridge_state s') = locked_sum (bridge_state s) + amount ∧
  transfers (bridge_state s') !! message_id m =
    Some (lock_transfer src tgt height index asset owner recipient amount expiry m).
Proof.
  intros m Hok Hinv Hlog Hm Ha. unfold lock_bridge_transfer.
  destruct (src =? tgt); [done|]. destruct (amount =? 0); [done|].
  destruct (expiry <=? height); [done|].
  destruct (Z.ltb_spec (get_balance s owner) amount); [done|].
  destruct (decide (asset_locations (bridge_state s) !! asset = Some (Bridge.Active src))) as [Hact|Hact].
  2: { destruct (lock_inactive (bridge_state s) src tgt height index asset owner recipient amount
         expiry Hact) as [e ->]. done. }
  rewrite lock_active by done. cbn zeta. fold m.
  set (b := {| asset_locations := _ |}). cbn [result_map_err]. intros [= _ <-].
  destruct (with_bridge_ok s b Hok) as [Hok1 Ht1].
  pose proof (get_balance_u64 s owner Hok) as [? ?].
  pose proof (put_account_moves (with_bridge s b) owner
    {| balance := sat_sub (get_balance s owner) amount;
       nonce := nonce (account_of (with_bridge s b) owner) |}) as Hput.
  cbn [balance] in Hput. destruct Ha as [Ha0 Ha1].
  destruct Hput as (Hput & Hb & Hp).
  { unfold u64, sat_sub. lia. }
  destruct (Hput Hok1) as [Hok2 Ht2].
  change (get_balance (with_bridge s b) owner) with (get_balance s owner) in *.
  split; [exact Hok2|]. split; [|split; [exact Hp|split; [exact Hb|split; [|apply lookup_insert_eq]]]].
  - etrans; [exact Ht2|]. rewrite Ht1, sat_sub_small by lia. lia.
  - unfold set_balance. cbn [bridge_state put_account with_accounts with_bridge].
    unfold locked_sum at 1. cbn [b transfers].
    rewrite map_sum_insert_new; [unfold locked_sum; cbn; lia|].
    by apply (lock_fresh log).
Qed.

Lemma headroom_spec s x :
  ok s → 0 < x → ensure_mint_headroom s x = Ok () → total s + x ≤ Tokenomics.BUD_TOTAL_SUPPLY.
Proof.
  intros Hok Hx. unfold ensure_mint_headroom, supply_capacity_remaining.
  rewrite (committed_total s Hok). assert (Tokenomics.BUD_TOTAL_SUPPLY ≤ u128_max) by done.
  destruct (_ <? x) eqn:Hlt; [done|]. intros _. apply Z.ltb_ge in Hlt. unfold sat_sub in Hlt. lia.
Qed.

Lemma try_mint_moves s a x s' :
  ok s → 0 ≤ x → try_mint_balance s a x = (Ok (), s') → moves x s s'.
Proof.
  intros Hok Hx. unfold try_mint_balance. destruct (ensure_mint_headroom s x); [|done].
  intros Hadd. by apply (try_add_balance_moves s a x s').
Qed.

Lemma mint_path log s m relayer h s' :
  ok s → fees_ok (prm (core s)) → inv log (bridge_state s) →
  relay_mint s m relayer h = (Ok (), s') →
  ∃ t, transfers (bridge_state s) !! message_id m = Some t ∧
    ok s' ∧ total s' = total s + t_amount t ∧ total s' ≤ Tokenomics.BUD_TOTAL_SUPPLY ∧
    prm (core s') = prm (core s) ∧ bridge_state s' = (mint (bridge_state s) m h).2 ∧
    locked_sum (bridge_state s') = locked_sum (bridge_state s) - t_amount t ∧
    transfers (bridge_state s') !! message_id m =
      Some (Bridge.with_status t (Minted (target_domain m))).
Proof.
  intros Hok [Hppm Hmin] Hinv. unfold relay_mint, get_transfer.
  destruct (transfers (bridge_state s) !! message_id m) as [t|] eqn:Ht; [|done]. cbn [ok_or].
  destruct (inv_shape _ _ Hinv _ _ Ht) as [_ Hamt].
  destruct (split_bridge_fee _ _ _) as [[x1 x2]|] eqn:Hsplit; [|done]. cbn [result_map_err].
  destruct (split_exact _ _ _ _ _ Hamt Hmin Hppm Hsplit) as (Hsum & Hx1 & Hx2).
  destruct (u64_checked_add x1 x2) as [minted|] eqn:Hadd; [|done]. cbn [ok_or].
  apply u64_checked_add_Some in Hadd.
  destruct (ensure_mint_headroom s minted) as [[]|] eqn:Hroom; [|done].
  destruct (mint (bridge_state s) m h) as [[[]|] b] eqn:Hmint; [|done]. cbn [result_map_err].
  destruct (with_bridge_ok s b Hok) as [Hok1 Ht1].
  destruct (try_mint_balance _ (t_recipient t) x1) as [[[]|] s2] eqn:H2; [|done].
  pose proof (try_mint_moves _ _ _ s2 Hok1 Hx1 H2) as Hm2.
  destruct (proj1 Hm2 Hok1) as [Hok2 Ht2]. intros H3.
  pose proof (try_mint_moves s2 relayer x2 s' Hok2 Hx2 H3) as Hm3.
  destruct (moves_trans _ _ _ _ _ Hm2 Hm3) as (Hm & Hb & Hp).
  destruct (Hm Hok1) as [Hok' Ht']. exists t.
  assert (0 < minted) as Hpos.
  { unfold split_bridge_fee, split_bridge_fee_u128 in Hsplit. destruct (Z.leb_spec (t_amount t)
      (Params.bridge_relayer_min_fee (Registry.params (registry (core s))))); [done|].
    unfold u64 in Hmin. unfold prm in Hmin. lia. }
  pose proof (headroom_spec s minted Hok Hpos Hroom).
  split; [done|]. split; [done|]. split; [lia|]. split; [lia|]. split; [done|]. split; [done|].
  rewrite Hb. cbn [bridge_state with_bridge].
  apply mint_ok in Hmint as (t' & r & _ & Ht0 & _ & _ & Hst & _ & ->).
  assert (t' = t) as -> by congruence. split; [|apply lookup_insert_eq].
  etrans; [exact (locked_move (with_replay (bridge_state s) r) _ t _ _ Ht)|].
  change (locked_sum (with_replay (bridge_state s) r)) with (locked_sum (bridge_state s)).
  unfold locked_amount. rewrite Hst. cbn. lia.
Qed.

Lemma unlock_path log s m relayer h s' :
  ok s → fees_ok (prm (core s)) → inv log (bridge_state s) →
  relay_unlock s m relayer h = (Ok (), s') →
  ∃ id t, correlation_id m = Some id ∧ transfers (bridge_state s) !! id = Some t ∧
    0 ≤ t_amount t ∧ ok s' ∧ total s' = total s + t_amount t ∧
    prm (core s') = prm (core s) ∧
    bridge_state s' = (unlock (bridge_state s) id (source_domain m) h).2 ∧
    locked_sum (bridge_state s') = locked_sum (bridge_state s).
Proof.
  intros Hok [Hppm Hmin] Hinv. unfold relay_unlock, get_transfer.
  destruct (correlation_id m) as [id|]; [|done]. cbn [ok_or].
  destruct (transfers (bridge_state s) !! id) as [t|] eqn:Ht; [|done]. cbn [ok_or].
  destruct (inv_shape _ _ Hinv _ _ Ht) as [_ Hamt].
  destruct (check_burn_matches_lock_domain _ _); [|done]. cbn [result_map_err].
  destruct (unlock (bridge_state s) id (source_domain m) h) as [[[]|] b] eqn:Hu; [|done].
  cbn [result_map_err bridge_state with_bridge].
  pose proof Hu as Hrun. apply unlock_ok in Hu as (t0 & Ht0 & Hst & Hd & Hb0).
  assert (t0 = t) as -> by congruence.
  assert (transfers b !! id = Some (Bridge.with_status t (Unlocked (t_source_domain t)))) as Htb.
  { rewrite Hb0. apply lookup_insert_eq. }
  rewrite Htb. cbn [ok_or].
  change (t_amount (Bridge.with_status t _)) with (t_amount t).
  destruct (split_bridge_fee _ _ _) as [[x1 x2]|] eqn:Hsplit; [|done]. cbn [result_map_err].
  destruct (split_exact _ _ _ _ _ Hamt Hmin Hppm Hsplit) as (Hsum & Hx1 & Hx2).
  destruct (with_bridge_ok s b Hok) as [Hok1 Ht1].
  destruct (try_add_balance _ _ x1) as [[[]|] s2] eqn:H2; [|done].
  destruct (try_add_balance_moves _ _ _ s2 Hok1 Hx1 H2) as [Hm2 _].
  destruct (proj1 Hm2 Hok1) as [Hok2 _]. intros H3.
  destruct (try_add_balance_moves s2 relayer x2 s' Hok2 Hx2 H3) as [Hm3 _].
  destruct (moves_trans _ _ _ _ _ Hm2 Hm3) as (Hm & Hb & Hp).
  destruct (Hm Hok1) as [Hok' Ht']. exists id, t. split; [done|]. split; [done|].
  split; [by destruct Hamt|]. split; [done|]. split; [lia|]. split; [done|].
  split; [by rewrite Hrun|]. rewrite Hb. cbn [bridge_state with_bridge]. rewrite Hb0.
  etrans; [exact (locked_move (bridge_state s) id t _ _ Ht)|].
  unfold locked_amount. rewrite Hst. cbn. lia.
Qed.

Lemma burn_path log s id d height index expiry :
  ok s → inv log (bridge_state s) →
  let s' := (burn_bridge_transfer_with_event s id d height index expiry).2 in
  ok s' ∧ total s' = total s ∧ prm (core s') = prm (core s) ∧ inv log (bridge_state s') ∧
  (∀ k t, transfers (bridge_state s) !! k = Some t →
     ∃ t', transfers (bridge_state s') !! k = Some t' ∧ t_amount t' = t_amount t).
Proof.
  intros Hok Hi. unfold burn_bridge_transfer_with_event.
  pose proof (burn_inv log (bridge_state s) id d height index expiry Hi) as Hbi.
  destruct (burn_with_event (bridge_state s) id d height index expiry) as [r b] eqn:Hb.
  destruct (with_bridge_ok s b Hok) as [Hok' Ht']. cbn [snd] in *.
  split; [done|]. split; [done|]. split; [done|]. split; [done|]. intros k t Hk.
  destruct r as [e|e]; [|apply burn_err in Hb as ->; by exists t].
  apply burn_ok in Hb as (t0 & Ht0 & _ & ->). cbn. rewrite lookup_insert.
  case_decide; [|by exists t]. subst k. assert (t0 = t) as -> by congruence. by eexists.
Qed.

Lemma burn_locked s id d height index expiry :
  locked_sum (bridge_state (burn_bridge_transfer_with_event s id d height index expiry).2) =
  locked_sum (bridge_state s).
Proof.
  unfold burn_bridge_transfer_with_event.
  destruct (burn_with_event (bridge_state s) id d height index expiry) as [[e|e] b] eqn:Hb;
    cbn [snd bridge_state with_bridge]; [|by apply burn_err in Hb as ->].
  apply burn_ok in Hb as (t & Ht & Hst & ->).
  etrans; [exact (locked_move (with_replay (bridge_state s) _) id t _ _ Ht)|].
  unfold locked_amount. rewrite Hst. unfold locked_sum. cbn. lia.
Qed.

Lemma refund_moves released s s' :
  ok s → Forall (λ p, 0 ≤ p.2) released → refund s released = (Ok (), s') →
  moves (sumZ released.*2) s s'.
Proof.
  intros Hok Hr. revert s Hok. induction Hr as [|[a x] released Hx _ IH]; intros s Hok;
    cbn [refund].
  - intros [= <-]. apply moves_refl.
  - destruct (try_add_balance s a x) as [[[]|] s1] eqn:H1; [|done]. intros H2.
    destruct (try_add_balance_moves s a x s1 Hok Hx H1) as [Hm _].
    rewrite fmap_cons, sumZ_cons.
    exact (moves_trans _ _ _ _ _ Hm (IH _ (moves_ok _ _ _ Hok Hm) H2)).
Qed.

Lemma sweep_amounts log b h :
  inv log b →
  Forall (λ p, 0 ≤ p.2) (sweep_expired_locks b h).1 ∧
  locked_sum b = locked_sum (sweep_expired_locks b h).2 + sumZ (sweep_expired_locks b h).1.*2.
Proof.
  intros Hinv. unfold sweep_expired_locks.
  pose proof (sweep_phase1_rows log h (due_heights (expiry_queue b) h) b Hinv) as Hrows.
  pose proof (sweep_phase1_ind (λ b' r, inv log b' ∧ Forall (λ p, 0 ≤ p.2) r) h
    (due_heights (expiry_queue b) h) b []) as Hpos.
  destruct (fold_left _ _ _) as [b1 r1]. cbn [fst snd].
  destruct Hrows as (_ & _ & Hsum). rewrite locked_sum_drop. split; [|done].
  apply Hpos.
  - intros b2 r mid _ _ _ [Hi Hr]. split; [by apply sweep_one_inv|].
    destruct (sweep_one_cases h b2 r mid) as [(t & d & Ht & _ & ->)|[_ ->]]; [|done].
    cbn. apply Forall_app. split; [done|]. constructor; [|done]. cbn.
    by apply (inv_shape _ _ Hi) in Ht as [_ [? _]].
  - intros b2 r q [Hi Hr]. split; [by apply inv_with_expiry|done].
  - by split.
Qed.

Lemma sweep_path log s h s' :
  ok s → inv log (bridge_state s) → apply_bridge_sweep_to_state s h = (Ok (), s') →
  ok s' ∧ total s' + locked_sum (bridge_state s') = total s + locked_sum (bridge_state s) ∧
  prm (core s') = prm (core s) ∧ bridge_state s' = (sweep_expired_locks (bridge_state s) h).2.
Proof.
  intros Hok Hinv. destruct (sweep_amounts log (bridge_state s) h Hinv) as [Hpos Hsum].
  unfold apply_bridge_sweep_to_state.
  destruct (sweep_expired_locks (bridge_state s) h) as [released b].
  cbn [fst snd] in Hpos, Hsum. intros Hr.
  destruct (with_bridge_ok s b Hok) as [Hok1 Ht1].
  destruct (refund_moves released _ s' Hok1 Hpos Hr) as (Hm & Hb & Hp).
  destruct (Hm Hok1) as [Hok' Ht']. split; [done|]. rewrite Hb.
  cbn [bridge_state with_bridge]. split; [lia|done].
Qed.
End bridge.
End Supply.
