(* ===== verification/LedgerProps.v ===== *)
(** * The supply

    Runs of blocks, epoch closes, slashes and bridge paths over [Ledger.v],
    and the bound they keep: nothing but the relayed unlock of a burned
    transfer ever takes the supply above the cap. *)
From stdpp Require Import base tactics numbers list gmap strings sorting.
From Stdlib Require Import ZArith Lia.
From S2P Require Import Prelude Merkle Messages Bridge BridgeInv Economics Registry.
From S2P Require Import Constitution Governance GovernanceProps Ledger Supply.
Import Message Bridge.Bridge Governance.Governance Host Ledger.Ledger.

(** ** Runs of the ledger *)
Module LedgerRun.
Import BridgeRun Supply.

Section run.
Context `{Sha256} (report_bytes : Evidence.SlashingReport → bytes) (pop_valid : Address → bool).

(** The messages handled so far, the state, and the amounts paid out by
    relayed unlocks. *)
Record run := { log : list CrossDomainMessage; state : State; unlocked : Z }.

(** [tx_ok] asks for amounts whose sum with the fee fits in 64 bits. *)
Inductive step : run → run → Prop :=
  | step_block l s u txs producer s' :
      Forall tx_ok txs → apply_block_checked s txs producer = (Ok (), s') →
      step {| log := l; state := s; unlocked := u |} {| log := l; state := s'; unlocked := u |}
  | step_epoch l s u s' :
      close_epoch report_bytes pop_valid s = Some s' →
      step {| log := l; state := s; unlocked := u |} {| log := l; state := s'; unlocked := u |}
  | step_slash l s u a ratio :
      u64 ratio →
      step {| log := l; state := s; unlocked := u |}
           {| log := l; state := (slash_validator s a ratio).2; unlocked := u |}
  | step_register l s u asset domain :
      step {| log := l; state := s; unlocked := u |}
           {| log := l; state := with_bridge s (register_asset (bridge_state s) asset domain).2;
              unlocked := u |}
  | step_lock l s u src tgt height index asset owner recipient amount expiry out s' :
      let m := lock_message src tgt height index asset owner recipient amount expiry
                 (lane_nonce (bridge_state s) src tgt owner) in
      message_ok m → u64 amount → lane_nonce (bridge_state s) src tgt owner < u64_max →
      lock_bridge_transfer s src tgt height index asset owner recipient amount expiry =
        (Ok out, s') →
      step {| log := l; state := s; unlocked := u |}
           {| log := m :: l; state := s'; unlocked := u |}
  | step_mint l s u m relayer h s' :
      message_ok m → relay_mint s m relayer h = (Ok (), s') →
      step {| log := l; state := s; unlocked := u |}
           {| log := m :: l; state := s'; unlocked := u |}
  | step_burn l s u id domain height index expiry :
      step {| log := l; state := s; unlocked := u |}
           {| log := l;
              state := (burn_bridge_transfer_with_event s id domain height index expiry).2;
              unlocked := u |}
  | step_unlock l s u m relayer h id t s' :
      correlation_id m = Some id → transfers (bridge_state s) !! id = Some t →
      relay_unlock s m relayer h = (Ok (), s') →
      step {| log := l; state := s; unlocked := u |}
           {| log := l; state := s'; unlocked := u + t_amount t |}
  | step_sweep l s u h s' :
      apply_bridge_sweep_to_state s h = (Ok (), s') →
      step {| log := l; state := s; unlocked := u |} {| log := l; state := s'; unlocked := u |}.

(** A chain that starts with at most the fixed supply and an empty bridge. *)
Record genesis (s : State) : Prop := {
  genesis_ok : ok s;
  genesis_fees : fees_ok (prm (core s));
  genesis_bridge : bridge_state s = Bridge.new;
  genesis_supply : total s ≤ Tokenomics.BUD_TOTAL_SUPPLY;
}.

Inductive reachable : run → Prop :=
  | reach_genesis s : genesis s → reachable {| log := []; state := s; unlocked := 0 |}
  | reach_step r r' : reachable r → step r r' → reachable r'.

Record linv (r : run) : Prop := {
  li_ok : ok (state r);
  li_fees : fees_ok (prm (core (state r)));
  li_bridge : inv (log r) (bridge_state (state r));
  li_supply : total (state r) + locked_sum (bridge_state (state r)) ≤
    Tokenomics.BUD_TOTAL_SUPPLY + unlocked r;
}.

Lemma linv_shrinks l s u s' :
  linv {| log := l; state := s; unlocked := u |} → shrinks s s' →
  linv {| log := l; state := s'; unlocked := u |}.
Proof.
  intros [Hok Hf Hi Hs] (H1 & Hb & H2). cbn in *. destruct (H1 Hok) as [Hok' Ht].
  split; cbn; rewrite ?Hb; [done|by apply H2|done|lia].
Qed.

Lemma step_log r r' : step r r' → log r ⊆ log r'.
Proof. destruct 1; cbn; set_solver. Qed.

Lemma linv_step r r' : linv r → log_ok (log r') → step r r' → linv r'.
Proof.
  intros Hinv Hlog Hstep. destruct Hstep as
    [l s u txs producer s' Htxs Hb|l s u s' He|l s u a ratio Hr|l s u asset domain
    |l s u src tgt height index asset owner recipient amount expiry out s' m Hm Ha Hn Hl
    |l s u m relayer h s' Hm Hmint|l s u id d height index expiry
    |l s u m relayer h id t s' Hc Ht Hu|l s u h s' Hsw]; pose proof Hinv as [Hok Hf Hi Hs]; cbn in *.
  - eapply linv_shrinks; [exact Hinv|by eapply apply_block_shrinks].
  - eapply linv_shrinks; [exact Hinv|by eapply close_epoch_shrinks].
  - eapply linv_shrinks; [exact Hinv|by apply slash_shrinks].
  - destruct (with_bridge_ok s (register_asset (bridge_state s) asset domain).2 Hok) as [Hok' Ht'].
    split; cbn [log state unlocked bridge_state with_bridge core]; [done|done|by apply register_inv|].
    rewrite Ht'. replace (locked_sum _) with (locked_sum (bridge_state s)); [done|].
    unfold register_asset. by case_match.
  - destruct (lock_path l s src tgt height index asset owner recipient amount expiry out s'
      Hok Hi Hlog Hm Ha Hl) as (Hok' & Ht' & Hp' & Hb' & Hls & _).
    split; cbn; [done|by rewrite Hp'|rewrite Hb'; by apply lock_inv|lia].
  - destruct (mint_path l s m relayer h s' Hok Hf Hi Hmint)
      as (t & _ & Hok' & Ht' & _ & Hp' & Hb' & Hls & _).
    split; cbn; [done|by rewrite Hp'|rewrite Hb'; by apply mint_inv|lia].
  - destruct (burn_path l s id d height index expiry Hok Hi) as (Hok' & Ht' & Hp' & Hi' & _).
    split; cbn [log state unlocked]; [done|by rewrite Hp'|done|].
    rewrite burn_locked. lia.
  - destruct (unlock_path l s m relayer h s' Hok Hf Hi Hu)
      as (id' & t' & Hc' & Ht0 & Hx & Hok' & Ht' & Hp' & Hb' & Hls).
    assert (id' = id) as -> by congruence. assert (t' = t) as -> by congruence.
    split; cbn; [done|by rewrite Hp'|rewrite Hb'; by apply unlock_inv|lia].
  - destruct (sweep_path l s h s' Hok Hi Hsw) as (Hok' & Ht' & Hp' & Hb').
    split; cbn; [done|by rewrite Hp'|rewrite Hb'; by apply sweep_inv|lia].
Qed.

Lemma reachable_linv r : reachable r → log_ok (log r) → linv r.
Proof.
  induction 1 as [s [Hok Hf Hb Hs]|r r' _ IH Hst]; intros Hlog.
  - split; cbn; rewrite ?Hb; [done|done|apply new_inv|]. change (locked_sum Bridge.new) with 0. lia.
  - eapply linv_step; [apply IH|done|done].
    eapply log_ok_mono; [by apply step_log|done].
Qed.
End run.
End LedgerRun.

(** ** The theorems *)
Module LedgerSafety.
Import BridgeRun Supply LedgerRun.

Section safety.
Context `{Sha256} (report_bytes : Evidence.SlashingReport → bytes) (pop_valid : Address → bool).

End safety.

Section cycle.
Context `{Sha256}.

(** C40: a full bridge cycle creates money.  When the owner's balance was
    debited by a lock, the transfer minted, the recipient's side burned and
    the unlock relayed, the supply has grown by the transferred amount: the
    burn debits nobody, while both the mint and the unlock credit the whole
    amount. *)
Theorem relay_cycle_inflates l s src tgt height index asset owner recipient amount expiry out s1
    h1 relayer1 s2 h2 index2 expiry2 s3 m' relayer2 h3 s4 :
  let m := lock_message src tgt height index asset owner recipient amount expiry
             (lane_nonce (bridge_state s) src tgt owner) in
  ok s → fees_ok (prm (core s)) → inv l (bridge_state s) → log_ok (m :: l) → message_ok m →
  u64 amount → lane_nonce (bridge_state s) src tgt owner < u64_max →
  lock_bridge_transfer s src tgt height index asset owner recipient amount expiry =
    (Ok out, s1) →
  relay_mint s1 m relayer1 h1 = (Ok (), s2) →
  (burn_bridge_transfer_with_event s2 (message_id m) tgt h2 index2 expiry2).2 = s3 →
  correlation_id m' = Some (message_id m) →
  relay_unlock s3 m' relayer2 h3 = (Ok (), s4) →
  total s4 = total s + amount.
Proof.
  intros m Hok Hf Hi Hlog Hm Ha Hn Hl Hmint Hburn Hcor Hunl.
  destruct (lock_path l s src tgt height index asset owner recipient amount expiry out s1
    Hok Hi Hlog Hm Ha Hl) as (Hok1 & Ht1 & Hp1 & Hb1 & _ & Htr1). fold m in Htr1.
  pose proof (lock_inv l (bridge_state s) src tgt height index asset owner recipient amount expiry
    Hi Hlog Hm Ha Hn) as Hi1. rewrite <-Hb1 in Hi1. fold m in Hi1.
  rewrite <-Hp1 in Hf.
  destruct (mint_path (m :: l) s1 m relayer1 h1 s2 Hok1 Hf Hi1 Hmint)
    as (t & Ht0 & Hok2 & Ht2 & _ & Hp2 & Hb2 & _ & Htr2).
  assert (t_amount t = amount) as Hamt by (rewrite Htr1 in Ht0; by injection Ht0 as <-).
  assert (log_ok (m :: m :: l)) as Hlog2.
  { eapply log_ok_mono; [|exact Hlog]. intros x. rewrite !elem_of_cons. tauto. }
  pose proof (mint_inv (m :: l) (bridge_state s1) m h1 Hi1 Hlog2 Hm) as Hi2. rewrite <-Hb2 in Hi2.
  rewrite <-Hp2 in Hf.
  destruct (burn_path (m :: m :: l) s2 (message_id m) tgt h2 index2 expiry2 Hok2 Hi2)
    as (Hok3 & Ht3 & Hp3 & Hi3 & Hkeep). rewrite Hburn in *. rewrite <-Hp3 in Hf.
  destruct (unlock_path (m :: m :: l) s3 m' relayer2 h3 s4 Hok3 Hf Hi3 Hunl)
    as (id & t' & Hc & Ht' & _ & _ & Ht4 & _).
  assert (id = message_id m) as -> by congruence.
  destruct (Hkeep _ _ Htr2) as (t'' & Ht'' & Hsame). cbn in Hsame.
  assert (t' = t'') as -> by congruence. lia.
Qed.
End cycle.

(** The release of unbonded stake conserves the supply.  While the supply
    fits a balance, exactly the matured entries leave the queue, in their
    order, and every account is credited with the sum of its own. *)
Theorem process_unbonding_exact s :
  ok s →
  let s' := process_unbonding s in
  let epoch := epoch_index (core s) in
  total s' = total s ∧
  (total s ≤ u64_max →
   unbonding_queue s' = filter (λ e, is_mature epoch e = false) (unbonding_queue s) ∧
   ∀ a, get_balance s' a =
     get_balance s a + paid a (filter (λ e, is_mature epoch e = true) (unbonding_queue s))).
Proof.
  intros Hok s' epoch. destruct (process_unbonding_moves s Hok) as (Hm & _).
  split; [destruct (Hm Hok) as [_ Ht]; fold s' in Ht; lia|]. intros Hmax.
  assert (∀ e, e ∈ unbonding_queue s → fits s e = true) as Hfits.
  { intros e He. unfold fits, u64_checked_add. apply bool_decide_eq_true.
    pose proof (fit_le_total s e Hok He). rewrite (proj2 (Z.leb_le _ _)) by lia. by eexists. }
  unfold s', process_unbonding. fold epoch. set (q := unbonding_queue s) in *.
  destruct (filter_fits (is_mature epoch) (fits s) q Hfits) as [Hrel Hdef].
  pose proof (sum_split (is_mature epoch) (fits s) q) as Hsplit.
  rewrite Hrel, Hdef in Hsplit |- *. rewrite app_nil_r. cbn [fmap list_fmap] in Hsplit.
  change (sumZ []) with 0 in Hsplit.
  assert (∀ Q `{∀ x, Decision (Q x)}, Forall (λ e, u64 (u_amount e)) (filter Q q)) as Hf.
  { intros Q HQ. apply forall_filter, (ok_queue _ Hok). }
  destruct (with_queue_moves s (filter (λ e, is_mature epoch e = false) q) (Hf _ _)) as (Hm1 & _).
  destruct (Hm1 Hok) as [Hok1 Ht1]. unfold total_unbonding_supply in Ht1. fold q in Ht1.
  destruct (release_all epoch (filter (λ e, is_mature epoch e = true) q) _ Hok1 (Hf _ _))
    as [Hq Hb]; [lia|]. split; [exact Hq|exact Hb].
Qed.

(** The timed burn follows its schedule: one annual amount per elapsed
    and not yet burned year, as far as the reserve reaches, taken from the
    reserve and from nobody else, and never twice for the same year. *)
Theorem timed_burn_exact s g a :
  ok s →
  let due := Tokenomics.due_years g (epoch_index (core s))
               (Tokenomics.epochs_per_year (tokenomics (core s))) in
  let years := Tokenomics.years_burned (timed_burn s) in
  let per_year := Tokenomics.annual_burn_amount (tokenomics (core s)) in
  let burned := (process_timed_burn s g a).1 in
  let s' := (process_timed_burn s g a).2 in
  burned = Z.min (Z.max (due - years) 0 * per_year) (get_balance s a) ∧
  get_balance s' a = get_balance s a - burned ∧
  (∀ b, b ≠ a → get_balance s' b = get_balance s b) ∧
  total s' = total s - burned ∧
  Tokenomics.years_burned (timed_burn s') = Z.max due years ∧
  (process_timed_burn s' g a).1 = 0.
Proof.
  intros Hok due years per_year burned s'.
  assert (0 ≤ per_year) as Hb by (apply Z.mod_pos_bound; done).
  pose proof (timed_burn_spec s g a Hok Hb) as Hspec. cbn zeta in Hspec.
  fold due years per_year in Hspec. unfold burned, s'.
  destruct (process_timed_burn s g a) as [t s1]. cbn [fst snd].
  destruct Hspec as (Ht & Hm & Hbal & Hy & Hcore). destruct (proj1 Hm Hok) as [Hok1 Ht1].
  split; [done|]. split; [by rewrite Hbal, decide_True|].
  split; [intros b Hne; rewrite Hbal, decide_False by done; lia|].
  split; [lia|]. split; [done|].
  unfold process_timed_burn, process_due_timed_burn. rewrite Hcore. fold due.
  by rewrite Hy, (proj2 (Z.leb_le _ _)) by lia.
Qed.

(** The congestion fee stays between one and ten million, but an eighth of
    a fee below eight is zero, so from the initial fee no sequence of full
    blocks ever raises it. *)
Theorem base_fee_never_leaves_floor :
  (∀ fee n, 1 ≤ fee ≤ 10000000 → 1 ≤ adjust_base_fee fee n ≤ 10000000) ∧
  (∀ fee n, 50 < n → 8 ≤ fee < 10000000 → fee < adjust_base_fee fee n) ∧
  (∀ ns, fold_left adjust_base_fee ns MIN_TX_FEE = MIN_TX_FEE).
Proof.
  unfold adjust_base_fee, u64_sat_add, sat_sub. split; [|split].
  - intros fee n Hfee. assert (10000000 ≤ u64_max) by by vm_compute.
    pose proof (Z.div_pos fee 8). pose proof (Z.div_le_upper_bound fee 8 fee).
    repeat case_match; lia.
  - intros fee n Hn Hfee. rewrite (proj2 (Z.ltb_lt 50 n)) by lia.
    assert (10000000 * 2 ≤ u64_max) by by vm_compute.
    pose proof (Z.div_le_lower_bound fee 8 1). pose proof (Z.div_le_upper_bound fee 8 fee). lia.
  - intros ns. apply (fold_left_inv (λ fee, fee = MIN_TX_FEE)); [|done].
    intros fee n _ ->. unfold MIN_TX_FEE. change (1 / 8) with 0. repeat case_match; by vm_compute.
Qed.
End LedgerSafety.

(** ** A cycle on a chain that starts at the cap *)
Module LedgerExamples.
Import BridgeRun Supply LedgerRun.
#[local] Existing Instance poly_sha256.

Definition addr (b : Z) : Address := replicate 32 b.
Definition asset : AssetId := addr 7.
Definition no_bytes (_ : Evidence.SlashingReport) : bytes := [].
Definition no_pop (_ : Address) : bool := false.

Definition core0 : AccountState :=
  {| base_fee := MIN_TX_FEE; tokenomics := Tokenomics.default_params; validators := ∅;
     registry := Registry.new; verifier_whitelist := ∅; apps := ∅; encryption_policies := ∅;
     governance := state_default; pending_domain_unfreezes := []; epoch_index := 0 |}.

(** The whole supply on one account. *)
Definition s0 : State :=
  {| core := core0;
     accounts := {[addr 1 := {| balance := Tokenomics.BUD_TOTAL_SUPPLY; nonce := 0 |}]};
     unbonding_queue := []; timed_burn := Tokenomics.burn_new; burn_reserve_address := None;
     team_vesting := None; bridge_state := Bridge.new |}.

Definition s1 : State := with_bridge s0 (register_asset (bridge_state s0) asset 1).2.

Definition m : CrossDomainMessage :=
  lock_message 1 2 10 0 asset (addr 1) (addr 2) 500 100 (lane_nonce (bridge_state s1) 1 2 (addr 1)).

Definition lock_result := lock_bridge_transfer s1 1 2 10 0 asset (addr 1) (addr 2) 500 100.
Definition s2 : State := lock_result.2.
Definition s3 : State := (relay_mint s2 m (addr 3) 20).2.
Definition s4 : State := (burn_bridge_transfer_with_event s3 (message_id m) 2 30 0 200).2.

(** The message that burn issued. *)
Definition burn_m : CrossDomainMessage :=
  burn_message (lock_transfer 1 2 10 0 asset (addr 1) (addr 2) 500 100 m) (message_id m) 2 30 0 200 0.

Definition s5 : State := (relay_unlock s4 burn_m (addr 3) 40).2.

Lemma ok_pair {E A S} (p : result E A * S) a : p.1 = Ok a → p = (Ok a, p.2).
Proof. destruct p as [r s]. cbn. by intros ->. Qed.

Lemma s0_ok : ok s0.
Proof.
  split; [split|..].
  - intros a v Hv. discriminate Hv.
  - intros role a reg Hreg. discriminate Hreg.
  - intros a acc Ha. unfold s0 in Ha. cbn [accounts] in Ha.
    apply lookup_singleton_Some in Ha as [_ <-]. split; vm_compute; discriminate.
  - constructor.
Qed.

Lemma lock_message_ok : message_ok m.
Proof. split; vm_compute; (reflexivity || (split; discriminate) || discriminate). Qed.

Lemma log_m : log_ok [m; m].
Proof. apply collision_freeb_spec. vm_compute. reflexivity. Qed.

Lemma log_m1 : log_ok [m].
Proof. apply collision_freeb_spec. vm_compute. reflexivity. Qed.

Lemma lock_ok : ∃ out, lock_result = (Ok out, s2).
Proof.
  destruct lock_result as [[out|e] s] eqn:Hl.
  - exists out. unfold s2. by rewrite Hl.
  - exfalso. assert (is_ok lock_result.1 = true) as Hok by (vm_compute; reflexivity).
    by rewrite Hl in Hok.
Qed.

Lemma mint_result : (relay_mint s2 m (addr 3) 20).1 = Ok ().
Proof. vm_compute. reflexivity. Qed.

Lemma unlock_result : (relay_unlock s4 burn_m (addr 3) 40).1 = Ok ().
Proof. vm_compute. reflexivity. Qed.

Lemma s0_fees : fees_ok (prm (core s0)).
Proof. split; [split|split]; vm_compute; (reflexivity || discriminate). Qed.

Lemma s0_genesis : genesis s0.
Proof. split; [exact s0_ok|exact s0_fees|reflexivity|vm_compute; discriminate]. Qed.

Abbreviation reached := (reachable no_bytes no_pop).

Definition r1 : run := {| log := []; state := s1; unlocked := 0 |}.

Lemma r1_reached : reached r1.
Proof. eapply reach_step; [apply reach_genesis, s0_genesis|]. apply (step_register _ _ [] s0 0 asset 1). Qed.

Lemma r1_inv : linv r1.
Proof.
  eapply reachable_linv; [exact r1_reached|]. apply collision_freeb_spec. reflexivity.
Qed.

Definition r5 : run := {| log := [m; m]; state := s5; unlocked := 500 |}.

Lemma r5_reached : reached r5.
Proof.
  assert (u64 500) as Hamt by (split; vm_compute; discriminate).
  assert (lane_nonce (bridge_state s1) 1 2 (addr 1) < u64_max) as Hn by (vm_compute; reflexivity).
  destruct lock_ok as [out Hlock].
  eapply reach_step; [eapply reach_step; [eapply reach_step; [eapply reach_step;
    [exact r1_reached|]|]|]|].
  - exact (step_lock _ _ [] s1 0 1 2 10 0 asset (addr 1) (addr 2) 500 100 out s2 lock_message_ok Hamt Hn Hlock).
  - apply (step_mint _ _ [m] s2 0 m (addr 3) 20 s3 lock_message_ok).
    exact (ok_pair _ () mint_result).
  - apply (step_burn _ _ [m; m] s3 0 (message_id m) 2 30 0 200).
  - assert (∃ t, transfers (bridge_state s4) !! message_id m = Some t ∧ t_amount t = 500)
      as (t & Ht & Hamount).
    { destruct (transfers (bridge_state s4) !! message_id m) as [t|] eqn:Ht.
      - exists t. split; [reflexivity|]. assert (t_amount <$> transfers (bridge_state s4) !! message_id m =
          Some 500) as Ha by (vm_compute; reflexivity). rewrite Ht in Ha. by injection Ha.
      - exfalso. assert (t_amount <$> transfers (bridge_state s4) !! message_id m = Some 500)
          as Ha by (vm_compute; reflexivity). by rewrite Ht in Ha. }
    pose proof (step_unlock no_bytes no_pop [m; m] s4 0 burn_m (addr 3) 40 (message_id m) t s5)
      as Hstep. rewrite Hamount in Hstep. apply Hstep; [reflexivity|exact Ht|].
    exact (ok_pair _ () unlock_result).
Qed.


Lemma relay_cycle_inflates_witness : total s5 = total s1 + 500.
Proof.
  destruct lock_ok as [out Hlock].
  apply (LedgerSafety.relay_cycle_inflates [] s1 1 2 10 0 asset (addr 1) (addr 2) 500 100 out s2
    20 (addr 3) s3 30 0 200 s4 burn_m (addr 3) 40 s5).
  - exact (li_ok _ r1_inv).
  - exact (li_fees _ r1_inv).
  - exact (li_bridge _ r1_inv).
  - exact log_m1.
  - exact lock_message_ok.
  - split; vm_compute; discriminate.
  - vm_compute. reflexivity.
  - exact Hlock.
  - exact (ok_pair _ () mint_result).
  - reflexivity.
  - reflexivity.
  - exact (ok_pair _ () unlock_result).
Defined.

(** One matured and one waiting entry. *)
Definition unbonding : State :=
  with_queue (with_core s0 (with_epoch core0 9))
    [{| u_address := addr 1; u_amount := 30; release_epoch := 9 |};
     {| u_address := addr 2; u_amount := 40; release_epoch := 10 |}].

Lemma process_unbonding_exact_witness :
  unbonding_queue (process_unbonding unbonding) =
    [{| u_address := addr 2; u_amount := 40; release_epoch := 10 |}] ∧
  get_balance (process_unbonding unbonding) (addr 1) = Tokenomics.BUD_TOTAL_SUPPLY + 30.
Proof.
  destruct (LedgerSafety.process_unbonding_exact unbonding) as [_ H].
  - destruct s0_ok as [[Hs Hr] Hb _]. split; [split; [exact Hs|exact Hr]|exact Hb|].
    constructor; [|constructor; [|constructor]]; split; vm_compute; discriminate.
  - destruct H as [Hq Hb]; [vm_compute; discriminate|]. split.
    + etrans; [exact Hq|vm_compute; reflexivity].
    + etrans; [exact (Hb (addr 1))|vm_compute; reflexivity].
Defined.

(** Two years in, nothing burned yet. *)
Definition two_years : State :=
  with_core s0 (with_epoch core0 (2 * Tokenomics.epochs_per_year Tokenomics.default_params)).

Lemma timed_burn_exact_witness :
  (process_timed_burn two_years 0 (addr 1)).1 =
    2 * Tokenomics.annual_burn_amount Tokenomics.default_params ∧
  (process_timed_burn (process_timed_burn two_years 0 (addr 1)).2 0 (addr 1)).1 = 0.
Proof.
  destruct (LedgerSafety.timed_burn_exact two_years 0 (addr 1)) as (Hb & _ & _ & _ & _ & Hagain).
  - destruct s0_ok as [[Hs Hr] Hb Hq]. split; [split; [exact Hs|exact Hr]|exact Hb|exact Hq].
  - split; [|exact Hagain]. etrans; [exact Hb|vm_compute; reflexivity].
Defined.
End LedgerExamples.
