(* ===== verification/Chain.v ===== *)
(** * The bridge of the chain

    The methods of [Blockchain] ([src/chain/blockchain.rs]) that drive the
    cross-domain bridge: they check the domains, move the bridge state and the
    balances, register the message, queue it for relay, and take relays and
    verified events back in.  [Chain] composes the account state of
    [Ledger.v], the domains and commitments of [Commitments.v], the message
    registry of [Messages.v] and the relayer of [Relayer.v].

    A method that fails keeps what it changed before it failed, as in the
    source.  Writes to the store and metrics play no part. *)
From stdpp Require Import base tactics numbers list gmap strings sorting.
From Stdlib Require Import ZArith Lia.
From S2P Require Import Prelude Merkle Messages Bridge BridgeInv Relayer Economics Domains.
From S2P Require Import Registry Constitution Governance Commitments Ledger.
Import Message.

#[local] Existing Instance Domain.ConsensusKind_eq_dec.
#[local] Existing Instance Event.DomainEventKind_eq_dec.

Module Chain.

Record Blockchain := {
  account_state : Ledger.State;
  settlement : Settle.State;
  message_registry : MessageRegistry.CrossDomainMessageRegistry;
  universal_relayer : Relayer.UniversalRelayer;
  chain_len : Z;
}.

Definition with_account (c : Blockchain) s : Blockchain :=
  {| account_state := s; settlement := settlement c; message_registry := message_registry c;
     universal_relayer := universal_relayer c; chain_len := chain_len c |}.

Definition with_messages (c : Blockchain) r : Blockchain :=
  {| account_state := account_state c; settlement := settlement c; message_registry := r;
     universal_relayer := universal_relayer c; chain_len := chain_len c |}.

Definition with_relayer (c : Blockchain) u : Blockchain :=
  {| account_state := account_state c; settlement := settlement c;
     message_registry := message_registry c; universal_relayer := u; chain_len := chain_len c |}.

Definition bridge (c : Blockchain) : Bridge.BridgeState := Ledger.bridge_state (account_state c).

Definition get_domain (c : Blockchain) (i : DomainId) : option Domain.ConsensusDomain :=
  Domain.get (Settle.domain_registry (settlement c)) i.

Inductive ChainError :=
  | DomainNotFound (i : DomainId)
  | NotBridgeEnabled (i : DomainId)
  | LedgerRefused (e : Ledger.LedgerError)
  | IdNotCanonical
  | SameDomains (i : DomainId)
  | MessageExpired (expiry current : Z)
  | RegistryRefused (e : MessageRegistry.RegistryError)
  | MissingBlockHash
  | UnverifiedPoWDomain
  | NotOnAppliedChain (height tip : Z)
  | ProofRefused (e : Verifier.ProofVerificationError)
  | WrongEventKind
  | EventWithoutMessage
  | WrongMessageKind
  | EventPayloadMismatch
  | SourceEventMismatch
  | MissingCorrelationId
  | UnknownTransferRow
  | BurnSourceMismatch
  | BurnTargetMismatch
  | BurnSenderMismatch
  | BurnRecipientMismatch
  | BurnPayloadMismatch
  | NotRelayer (e : Registry.RegistryError)
  | NoPending (id : MessageId)
  | NoCommittedRoot (i : DomainId) (height : Z)
  | RelayRefused (e : Relayer.RelayerError)
  | UnsupportedKind.

(** The loop over source and target domain. *)
Fixpoint check_bridge_domains (c : Blockchain) (ids : list DomainId) : result ChainError () :=
  match ids with
  | [] => Ok ()
  | i :: ids =>
      let? d := ok_or (get_domain c i) (DomainNotFound i) in
      if negb (Domain.is_active d) || negb (Domain.bridge_enabled d)
      then Err (NotBridgeEnabled i)
      else check_bridge_domains c ids
  end.

Section chain.
Context `{Sha256}.

Definition register_bridge_asset (c : Blockchain) (asset : AssetId) (domain : DomainId) :
    result ChainError () * Blockchain :=
  let? _ := check_bridge_domains c [domain] at c in
  let '(r, b) := Bridge.register_asset (bridge c) asset domain in
  (result_map_err (λ e, LedgerRefused (Ledger.BridgeRefused e)) r,
   with_account c (Ledger.with_bridge (account_state c) b)).

Definition submit_cross_domain_message (c : Blockchain) (m : CrossDomainMessage) :
    result ChainError () * Blockchain :=
  if negb (verify_id m) then (Err IdNotCanonical, c)
  else if source_domain m =? target_domain m then (Err (SameDomains (source_domain m)), c)
  else if (0 <? expiry_height m) && (expiry_height m <? chain_len c)
  then (Err (MessageExpired (expiry_height m) (chain_len c)), c)
  else
    let '(r, reg) := MessageRegistry.insert (message_registry c) m in
    (result_map_err RegistryRefused r, with_messages c reg).

Definition enqueue_bridge_relay (c : Blockchain) (event : Event.DomainEvent)
    (m : CrossDomainMessage) : Blockchain :=
  with_relayer c (Relayer.enqueue_relay (universal_relayer c) event m (chain_len c)).

(** What follows a lock or a burn: the message it issued is registered and
    queued. *)
Definition publish {A} (c : Blockchain) (event : Event.DomainEvent) (out : A) :
    result ChainError A * Blockchain :=
  match Event.message event with
  | Some m =>
      let '(r, c) := submit_cross_domain_message c m in
      let? _ := r at c in
      (Ok out, enqueue_bridge_relay c event m)
  | None => (Ok out, c)
  end.

Definition lock_bridge_transfer (c : Blockchain) (source target : DomainId)
    (source_height event_index : Z) (asset : AssetId) (owner recipient : Address)
    (amount expiry : Z) :
    result ChainError (Bridge.BridgeTransfer * Event.DomainEvent) * Blockchain :=
  let? _ := check_bridge_domains c [source; target] at c in
  let '(r, s) := Ledger.lock_bridge_transfer (account_state c) source target source_height
                   event_index asset owner recipient amount expiry in
  let c := with_account c s in
  let? (transfer, event) := result_map_err LedgerRefused r at c in
  publish c event (transfer, event).

Definition burn_bridge_transfer_with_event (c : Blockchain) (id : MessageId) (domain : DomainId)
    (domain_height event_index expiry : Z) : result ChainError Event.DomainEvent * Blockchain :=
  let '(r, s) := Ledger.burn_bridge_transfer_with_event (account_state c) id domain domain_height
                   event_index expiry in
  let c := with_account c s in
  let? event := result_map_err LedgerRefused r at c in
  publish c event event.

Definition verify_domain_event_proof (c : Blockchain) (i : DomainId) (height sequence : Z)
    (expected : option Hash32) (event : Event.DomainEvent) (proof : Event.MerkleProof) :
    result Verifier.ProofVerificationError Verifier.VerifiedDomainEvent :=
  Verifier.verify_event_from_registry (Settle.commitment_registry (settlement c)) i height
    sequence expected event proof.

(** The gate on the source domain of a mint. *)
Definition check_mint_domain (c : Blockchain) (source : DomainId) (height : Z) :
    result ChainError () :=
  let? d := ok_or (get_domain c source) (DomainNotFound source) in
  if bool_decide (Domain.kind d = Domain.PoW ∧
                  Domain.finality_adapter d ≠ Domain.POW_HEADER_CHAIN_ADAPTER)
  then Err UnverifiedPoWDomain
  else if negb (Domain.bridge_enabled d) then Err (NotBridgeEnabled source)
  else if Domain.last_committed_height d <? height
  then Err (NotOnAppliedChain height (Domain.last_committed_height d))
  else Ok ().

(** The checks on a verified event that is to be minted. *)
Definition lock_message_of (c : Blockchain) (event : Event.DomainEvent) :
    result ChainError CrossDomainMessage :=
  if bool_decide (Event.ev_kind event ≠ Event.BridgeLocked) then Err WrongEventKind
  else
    let? m := ok_or (Event.message event) EventWithoutMessage in
    if bool_decide (kind m ≠ BridgeLock) then Err WrongMessageKind
    else if bool_decide (Event.ev_payload_hash event ≠ payload_hash m)
    then Err EventPayloadMismatch
    else
      match Bridge.source_event_hash (bridge c) (message_id m) with
      | Some expected =>
          if bool_decide (expected ≠ Event.leaf_hash event) then Err SourceEventMismatch else Ok m
      | None => Ok m
      end.

Definition mint_bridge_transfer_from_verified_event (c : Blockchain) (source : DomainId)
    (source_height sequence : Z) (expected_block_hash : option Hash32)
    (event : Event.DomainEvent) (proof : Event.MerkleProof) (relayer : Address) :
    result ChainError () * Blockchain :=
  let? expected := ok_or expected_block_hash MissingBlockHash at c in
  let? _ := check_mint_domain c source source_height at c in
  let? verified := result_map_err ProofRefused
    (verify_domain_event_proof c source source_height sequence (Some expected) event proof) at c in
  let? m := lock_message_of c (Verifier.v_event verified) at c in
  let '(r, s) := Ledger.relay_mint (account_state c) m relayer (chain_len c) in
  (result_map_err LedgerRefused r, with_account c s).

(** The checks of a verified burn against the transfer it settles. *)
Definition check_burn (t : Bridge.BridgeTransfer) (m : CrossDomainMessage) :
    result ChainError () :=
  if negb (Bridge.t_target_domain t =? source_domain m) then Err BurnSourceMismatch
  else if negb (Bridge.t_source_domain t =? target_domain m) then Err BurnTargetMismatch
  else if bool_decide (Bridge.t_recipient t ≠ sender m) then Err BurnSenderMismatch
  else if bool_decide (Bridge.t_owner t ≠ recipient m) then Err BurnRecipientMismatch
  else if bool_decide (payload_hash m ≠
                       Bridge.bridge_payload_hash (Bridge.t_asset_id t) (Bridge.t_amount t))
  then Err BurnPayloadMismatch
  else Ok ().

Definition unlock_bridge_transfer_from_verified_event (c : Blockchain) (target : DomainId)
    (target_height sequence : Z) (expected_block_hash : option Hash32)
    (event : Event.DomainEvent) (proof : Event.MerkleProof) :
    result ChainError () * Blockchain :=
  let? expected := ok_or expected_block_hash MissingBlockHash at c in
  let? verified := result_map_err ProofRefused
    (verify_domain_event_proof c target target_height sequence (Some expected) event proof) at c in
  let event := Verifier.v_event verified in
  if bool_decide (Event.ev_kind event ≠ Event.BridgeBurned) then (Err WrongEventKind, c)
  else
    let? m := ok_or (Event.message event) EventWithoutMessage at c in
    if bool_decide (kind m ≠ BridgeBurn) then (Err WrongMessageKind, c)
    else if negb (verify_id m) then (Err IdNotCanonical, c)
    else if bool_decide (Event.ev_payload_hash event ≠ payload_hash m)
    then (Err EventPayloadMismatch, c)
    else
      let? id := ok_or (correlation_id m) MissingCorrelationId at c in
      let? t := ok_or (Bridge.get_transfer (bridge c) id) UnknownTransferRow at c in
      let? _ := check_burn t m at c in
      let '(r, b) := Bridge.unlock (bridge c) id (source_domain m) (chain_len c) in
      (result_map_err (λ e, LedgerRefused (Ledger.BridgeRefused e)) r,
       with_account c (Ledger.with_bridge (account_state c) b)).

(** The lookup of the committed event root for a pending relay. *)
Definition committed_event_root (c : Blockchain) (id : MessageId) (source : DomainId) :
    result ChainError Hash32 :=
  let? p := ok_or (Relayer.pending_relay (universal_relayer c) id) (NoPending id) in
  let height := Event.domain_height (Relayer.source_event p) in
  let? com := ok_or (Commitment.find_by_height (Settle.commitment_registry (settlement c))
                       source height) (NoCommittedRoot source height) in
  Ok (Commitment.event_root com).

Section relay.
Variable proof_bytes : Event.MerkleProof → option bytes.

Definition submit_relay_proof (c : Blockchain) (id : MessageId) (relayer : Address)
    (proof : Event.MerkleProof) (source : DomainId) :
    result ChainError CrossDomainMessage * Blockchain :=
  let? _ := result_map_err NotRelayer
    (Registry.ensure_active_relayer (Host.registry (Ledger.core (account_state c))) relayer) at c in
  let? root := committed_event_root c id source at c in
  let '(r, u) := Relayer.process_relay proof_bytes (universal_relayer c) id relayer proof source
                   root (chain_len c) in
  let c := with_relayer c u in
  let? m := result_map_err RelayRefused r at c in
  match kind m with
  | BridgeLock =>
      let '(r, s) := Ledger.relay_mint (account_state c) m relayer (chain_len c) in
      let c := with_account c s in
      let? _ := result_map_err LedgerRefused r at c in
      (Ok m, c)
  | BridgeBurn =>
      let '(r, s) := Ledger.relay_unlock (account_state c) m relayer (chain_len c) in
      let c := with_account c s in
      let? _ := result_map_err LedgerRefused r at c in
      (Ok m, c)
  | _ => (Err UnsupportedKind, c)
  end.
End relay.

Definition sweep_retired_relays (c : Blockchain) (height : Z) : Blockchain :=
  with_relayer c (Relayer.sweep_retired (universal_relayer c) height).2.

(** The compatibility entry [apply_bridge_sweep]: the sweep runs on a copy,
    which replaces the state when it succeeds. *)
Definition apply_bridge_sweep (c : Blockchain) (height : Z) : Blockchain :=
  match Ledger.apply_bridge_sweep_to_state (account_state c) height with
  | (Ok _, s) => with_account c s
  | (Err _, _) => c
  end.
End chain.
End Chain.
