(* ===== verification/ChainProps.v ===== *)
(** * The bridge of the chain: theorems

    [ChainRun] has the runs of the bridge methods of [Chain.v], interleaved
    with anything that leaves bridge, messages and relays alone (blocks,
    epochs, commitments).  [ChainSafety] shows that the chain refines the
    bridge state machine of [Bridge.v], that a relay is spent once and for
    all, that what is relayed or minted from a verified event is in the
    committed event tree, and where two methods do not fit each other. *)
From stdpp Require Import base tactics numbers list gmap strings sorting.
From Stdlib Require Import ZArith Lia.
From S2P Require Import Prelude Merkle Messages Bridge BridgeInv Relayer Economics Domains.
From S2P Require Import Registry Constitution Governance Commitments Ledger Supply Chain.
Import Message Chain.

Module ChainRun.

Section run.
Context `{Sha256} (proof_bytes : Event.MerkleProof → option bytes).

(** The chain and the messages its bridge methods were given. *)
Record run := { handled : list CrossDomainMessage; chain : Blockchain }.

Definition lane (c : Blockchain) (source target : DomainId) (owner : Address) : Z :=
  BridgeRun.lane_nonce (bridge c) source target owner.

Inductive step : run → run → Prop :=
  | step_asset l c asset domain :
      step {| handled := l; chain := c |}
           {| handled := l; chain := (register_bridge_asset c asset domain).2 |}
  | step_lock l c src tgt height index asset owner recipient amount expiry :
      let m := Bridge.lock_message src tgt height index asset owner recipient amount expiry
                 (lane c src tgt owner) in
      message_ok m → u64 amount → lane c src tgt owner < u64_max →
      step {| handled := l; chain := c |}
           {| handled := m :: l;
              chain := (lock_bridge_transfer c src tgt height index asset owner recipient
                          amount expiry).2 |}
  | step_burn l c id domain height index expiry :
      step {| handled := l; chain := c |}
           {| handled := l;
              chain := (burn_bridge_transfer_with_event c id domain height index expiry).2 |}
  | step_mint l c source height seq expected event proof relayer m :
      Event.message event = Some m → message_ok m →
      step {| handled := l; chain := c |}
           {| handled := m :: l;
              chain := (mint_bridge_transfer_from_verified_event c source height seq expected
                          event proof relayer).2 |}
  | step_unlock l c target height seq expected event proof :
      step {| handled := l; chain := c |}
           {| handled := l;
              chain := (unlock_bridge_transfer_from_verified_event c target height seq expected
                          event proof).2 |}
  | step_relay l c id relayer proof source m :
      (∀ p, Relayer.pending_relay (universal_relayer c) id = Some p →
         Event.message (Relayer.source_event p) = Some m) → message_ok m →
      step {| handled := l; chain := c |}
           {| handled := m :: l;
              chain := (submit_relay_proof proof_bytes c id relayer proof source).2 |}
  | step_retire l c height :
      step {| handled := l; chain := c |}
           {| handled := l; chain := sweep_retired_relays c height |}
  | step_sweep l c height :
      step {| handled := l; chain := c |}
           {| handled := l; chain := apply_bridge_sweep c height |}
  | step_other l c s t n :
      Ledger.bridge_state s = bridge c →
      step {| handled := l; chain := c |}
           {| handled := l;
              chain := {| account_state := s; settlement := t;
                          message_registry := message_registry c;
                          universal_relayer := universal_relayer c; chain_len := n |} |}.

(** An empty bridge, no messages and no relays. *)
Definition genesis (c : Blockchain) : Prop :=
  bridge c = Bridge.new ∧ message_registry c = MessageRegistry.new ∧
  Relayer.pending (universal_relayer c) = ∅.

Definition reachable (r : run) : Prop :=
  ∃ c, genesis c ∧ rtc step {| handled := []; chain := c |} r.

(** ** The bridge component of each method *)
Abbreviation bstep := BridgeRun.step.

Lemma publish_account {A} c event (out : A) :
  account_state (publish c event out).2 = account_state c.
Proof.
  unfold publish, submit_cross_domain_message. destruct (Event.message event) as [m|]; [|done].
  destruct (negb (verify_id m)); [done|]. destruct (_ =? _); [done|].
  destruct (_ && _); [done|]. destruct (MessageRegistry.insert _ m) as [[|] reg]; done.
Qed.

Lemma ledger_lock_bridge s src tgt height index asset owner recipient amount expiry :
  let b := Ledger.bridge_state s in
  let b' := Ledger.bridge_state (Ledger.lock_bridge_transfer s src tgt height index asset owner
              recipient amount expiry).2 in
  b' = b ∨ b' = (Bridge.lock b src tgt height index asset owner recipient amount expiry).2.
Proof.
  cbn. unfold Ledger.lock_bridge_transfer.
  destruct (_ =? _); [by left|]. destruct (_ =? _); [by left|]. destruct (_ <=? _); [by left|].
  destruct (_ <? _); [by left|].
  destruct (Bridge.lock _ _ _ _ _ _ _ _ _ _) as [[|] b]; by right.
Qed.

Lemma try_add_bridge s a x :
  Ledger.bridge_state (Ledger.try_add_balance s a x).2 = Ledger.bridge_state s.
Proof. unfold Ledger.try_add_balance. by destruct (u64_checked_add _ _). Qed.

Lemma try_mint_bridge s a x :
  Ledger.bridge_state (Ledger.try_mint_balance s a x).2 = Ledger.bridge_state s.
Proof.
  unfold Ledger.try_mint_balance. destruct (Ledger.ensure_mint_headroom s x); [|done].
  apply try_add_bridge.
Qed.

Lemma relay_mint_bridge s m relayer h :
  let b := Ledger.bridge_state s in
  let b' := Ledger.bridge_state (Ledger.relay_mint s m relayer h).2 in
  b' = b ∨ b' = (Bridge.mint b m h).2.
Proof.
  cbn. unfold Ledger.relay_mint.
  destruct (Bridge.get_transfer _ _) as [t|]; cbn; [|by left].
  destruct (Bridge.split_bridge_fee _ _ _) as [[x fee]|]; cbn; [|by left].
  destruct (u64_checked_add x fee); cbn; [|by left].
  destruct (Ledger.ensure_mint_headroom s _); [|by left].
  destruct (Bridge.mint _ m h) as [[|] b]; cbn; [|by right].
  pose proof (try_mint_bridge (Ledger.with_bridge s b) (Bridge.t_recipient t) x) as H1.
  destruct (Ledger.try_mint_balance _ _ x) as [[|] s1]; cbn in *; [|by right].
  right. by rewrite try_mint_bridge.
Qed.

Lemma relay_mint_ok s m relayer h s' :
  Ledger.relay_mint s m relayer h = (Ok (), s') →
  is_ok (Bridge.mint (Ledger.bridge_state s) m h).1 = true.
Proof.
  unfold Ledger.relay_mint.
  destruct (Bridge.get_transfer _ _) as [t|]; cbn; [|done].
  destruct (Bridge.split_bridge_fee _ _ _) as [[x fee]|]; cbn; [|done].
  destruct (u64_checked_add x fee); cbn; [|done].
  destruct (Ledger.ensure_mint_headroom s _); [|done].
  by destruct (Bridge.mint _ m h) as [[|] b].
Qed.

Lemma relay_unlock_bridge s m relayer h :
  let b := Ledger.bridge_state s in
  let b' := Ledger.bridge_state (Ledger.relay_unlock s m relayer h).2 in
  b' = b ∨ ∃ id, b' = (Bridge.unlock b id (source_domain m) h).2.
Proof.
  cbn. unfold Ledger.relay_unlock.
  destruct (correlation_id m) as [id|]; cbn; [|by left].
  destruct (Bridge.get_transfer _ _) as [t|]; cbn; [|by left].
  destruct (Bridge.check_burn_matches_lock_domain _ _); cbn; [|by left].
  destruct (Bridge.unlock _ id _ h) as [[|] b] eqn:Hu; cbn; [|right; exists id; by rewrite Hu].
  right. exists id. rewrite Hu. cbn.
  destruct (Bridge.get_transfer b id) as [t'|]; cbn; [|done].
  destruct (Bridge.split_bridge_fee _ _ _) as [[x fee]|]; cbn; [|done].
  pose proof (try_add_bridge (Ledger.with_bridge s b) (Bridge.t_owner t') x) as H1.
  destruct (Ledger.try_add_balance _ _ x) as [[|] s1]; cbn in *; [|done].
  by rewrite try_add_bridge.
Qed.

Lemma refund_bridge released s :
  Ledger.bridge_state (Ledger.refund s released).2 = Ledger.bridge_state s.
Proof.
  revert s. induction released as [|[a x] released IH]; intros s; [done|]. cbn.
  pose proof (try_add_bridge s a x) as H1.
  destruct (Ledger.try_add_balance s a x) as [[|] s1]; cbn in *; [|done]. by rewrite IH.
Qed.

(** At most one step of the bridge, with the messages of [l]. *)
Definition simulated (log l : list CrossDomainMessage) (b b' : Bridge.BridgeState) : Prop :=
  ∃ log', log' ⊆ l ∧ rtc bstep (log, b) (log', b').

Lemma simulated_stay log l b : log ⊆ l → simulated log l b b.
Proof. by exists log. Qed.

Lemma simulated_step log log' l b b' :
  log' ⊆ l → bstep (log, b) (log', b') → simulated log l b b'.
Proof. intros. exists log'. split; [done|by apply rtc_once]. Qed.

#[local] Hint Resolve simulated_stay : core.

Lemma relay_mint_simulated log l s m relayer h :
  log ⊆ l → message_ok m →
  simulated log (m :: l) (Ledger.bridge_state s)
    (Ledger.bridge_state (Ledger.relay_mint s m relayer h).2).
Proof.
  intros Hsub Hm. destruct (relay_mint_bridge s m relayer h) as [->| ->].
  - apply simulated_stay. set_solver.
  - apply (simulated_step _ (m :: log)); [set_solver|by apply BridgeRun.step_mint].
Qed.

Lemma relay_unlock_simulated log l s m relayer h :
  log ⊆ l →
  simulated log l (Ledger.bridge_state s)
    (Ledger.bridge_state (Ledger.relay_unlock s m relayer h).2).
Proof.
  intros Hsub. destruct (relay_unlock_bridge s m relayer h) as [->|(id & ->)]; [by auto|].
  apply (simulated_step _ log); [done|apply BridgeRun.step_unlock].
Qed.

Lemma lock_simulated log l c src tgt height index asset owner recipient amount expiry :
  let m := Bridge.lock_message src tgt height index asset owner recipient amount expiry
             (lane c src tgt owner) in
  log ⊆ l → message_ok m → u64 amount → lane c src tgt owner < u64_max →
  simulated log (m :: l) (bridge c)
    (bridge (lock_bridge_transfer c src tgt height index asset owner recipient amount expiry).2).
Proof.
  intros m Hsub Hm Ha Hn. unfold lock_bridge_transfer.
  destruct (check_bridge_domains c [src; tgt]); [|apply simulated_stay; set_solver].
  pose proof (ledger_lock_bridge (account_state c) src tgt height index asset owner recipient
    amount expiry) as Hl. cbn in Hl.
  destruct (Ledger.lock_bridge_transfer _ _ _ _ _ _ _ _ _ _) as [res s]. cbn in Hl.
  assert (simulated log (m :: l) (bridge c) (Ledger.bridge_state s)) as Hsim.
  { destruct Hl as [->| ->]; [apply simulated_stay; set_solver|].
    apply (simulated_step _ (m :: log)); [set_solver|by apply BridgeRun.step_lock]. }
  unfold bridge at 2. destruct res as [[t e]|e]; cbn; [by rewrite publish_account|done].
Qed.

Lemma lock_message_of_ok c event m :
  lock_message_of c event = Ok m → Event.message event = Some m ∧ kind m = BridgeLock.
Proof.
  unfold lock_message_of. intros Hm. case_bool_decide; [done|].
  destruct (Event.message event) as [m'|]; cbn in Hm; [|done].
  case_bool_decide; [done|]. inv_op Hm; done.
Qed.

Lemma verified_mint_simulated log l c source height seq expected event proof relayer m :
  log ⊆ l → Event.message event = Some m → message_ok m →
  simulated log (m :: l) (bridge c) (bridge (mint_bridge_transfer_from_verified_event c source
    height seq expected event proof relayer).2).
Proof.
  intros Hsub He Hm. unfold mint_bridge_transfer_from_verified_event.
  assert (simulated log (m :: l) (bridge c) (bridge c)) as Hstay
    by (apply simulated_stay; set_solver).
  destruct expected as [expected|]; cbn; [|done].
  destruct (check_mint_domain c source height); [|done].
  destruct (verify_domain_event_proof _ _ _ _ _ _ _) as [v|] eqn:Hv; cbn; [|done].
  apply Verifier.verify_event_from_registry_ok in Hv as (_ & -> & _).
  destruct (lock_message_of c event) as [m'|] eqn:Hlm; [|done].
  apply lock_message_of_ok in Hlm as [Hlm _]. assert (m' = m) as -> by congruence.
  pose proof (relay_mint_simulated log l (account_state c) m relayer (chain_len c) Hsub Hm) as Hs.
  by destruct (Ledger.relay_mint _ m relayer _).
Qed.

Lemma relay_simulated log l c id relayer proof source m :
  log ⊆ l → message_ok m →
  (∀ p, Relayer.pending_relay (universal_relayer c) id = Some p →
     Event.message (Relayer.source_event p) = Some m) →
  simulated log (m :: l) (bridge c)
    (bridge (submit_relay_proof proof_bytes c id relayer proof source).2).
Proof.
  intros Hsub Hm Hp. unfold submit_relay_proof.
  assert (simulated log (m :: l) (bridge c) (bridge c)) as Hstay
    by (apply simulated_stay; set_solver).
  destruct (Registry.ensure_active_relayer _ _); cbn; [|done].
  destruct (committed_event_root c id source) as [root|]; [|done].
  destruct (Relayer.process_relay _ _ _ _ _ _ _ _) as [[m'|e] u] eqn:Hpr; cbn; [|done].
  assert (m' = m) as ->.
  { apply Relayer.process_relay_ok in Hpr as (p & Hpe & _ & _ & _ & _ & _ & Hmsg & _).
    specialize (Hp p Hpe). congruence. }
  destruct (kind m); try done.
  - pose proof (relay_mint_simulated log l (account_state c) m relayer (chain_len c) Hsub Hm).
    by destruct (Ledger.relay_mint _ m relayer _) as [[|] s].
  - assert (log ⊆ m :: l) as Hsub' by set_solver.
    pose proof (relay_unlock_simulated log _ (account_state c) m relayer (chain_len c) Hsub').
    by destruct (Ledger.relay_unlock _ m relayer _) as [[|] s].
Qed.

Lemma verified_unlock_simulated log l c target height seq expected event proof :
  log ⊆ l →
  simulated log l (bridge c) (bridge (unlock_bridge_transfer_from_verified_event c target height
    seq expected event proof).2).
Proof.
  intros Hsub. unfold unlock_bridge_transfer_from_verified_event.
  destruct expected as [expected|]; cbn; [|by auto].
  destruct (verify_domain_event_proof _ _ _ _ _ _ _) as [v|]; cbn; [|by auto].
  case_bool_decide; [by auto|]. destruct (Event.message _) as [m|]; cbn; [|by auto].
  case_bool_decide; [by auto|]. destruct (negb _); [by auto|]. case_bool_decide; [by auto|].
  destruct (correlation_id m) as [id|]; cbn; [|by auto].
  destruct (Bridge.get_transfer _ id) as [t|]; cbn; [|by auto].
  destruct (check_burn t m); [|by auto].
  pose proof (BridgeRun.step_unlock log (bridge c) id (source_domain m) (chain_len c)) as Hs.
  destruct (Bridge.unlock (bridge c) id _ _) as [r b]. by apply (simulated_step _ log).
Qed.

Lemma sweep_simulated log l c height :
  log ⊆ l → simulated log l (bridge c) (bridge (apply_bridge_sweep c height)).
Proof.
  intros Hsub. unfold apply_bridge_sweep, Ledger.apply_bridge_sweep_to_state.
  pose proof (BridgeRun.step_sweep log (bridge c) height) as Hs. unfold bridge in *.
  destruct (Bridge.sweep_expired_locks _ height) as [released b]. cbn in Hs.
  pose proof (refund_bridge released (Ledger.with_bridge (account_state c) b)) as Hrf.
  destruct (Ledger.refund _ released) as [[|] s]; cbn in *; [|by auto].
  rewrite Hrf. by apply (simulated_step _ log).
Qed.

(** Each step of the chain is at most one step of the bridge. *)
Lemma step_simulates r r' log :
  step r r' → log ⊆ handled r → simulated log (handled r') (bridge (chain r)) (bridge (chain r')).
Proof.
  intros Hstep Hsub. destruct Hstep; cbn in *.
  - unfold register_bridge_asset. destruct (check_bridge_domains c [domain]); [|by auto].
    pose proof (BridgeRun.step_register log (bridge c) asset domain) as Hs.
    destruct (Bridge.register_asset (bridge c) asset domain) as [r b].
    by apply (simulated_step _ log).
  - by apply lock_simulated.
  - unfold burn_bridge_transfer_with_event, Ledger.burn_bridge_transfer_with_event.
    pose proof (BridgeRun.step_burn log (bridge c) id domain height index expiry) as Hs.
    unfold bridge in *.
    destruct (Bridge.burn_with_event _ id domain height index expiry) as [[e|e] b]; cbn in *;
      [rewrite publish_account|]; by apply (simulated_step _ log).
  - by apply verified_mint_simulated.
  - by apply verified_unlock_simulated.
  - by apply relay_simulated.
  - by auto.
  - by apply sweep_simulated.
  - match goal with Hb : Ledger.bridge_state _ = _ |- _ => unfold bridge at 2; cbn; rewrite Hb end.
    by auto.
Qed.

Lemma run_simulates r r' log :
  rtc step r r' → log ⊆ handled r →
  simulated log (handled r') (bridge (chain r)) (bridge (chain r')).
Proof.
  intros Hrun. revert log. induction Hrun as [r|r1 r2 r3 Hs _ IH]; intros log Hsub; [by auto|].
  destruct (step_simulates _ _ _ Hs Hsub) as (log2 & Hsub2 & Hrun2).
  destruct (IH log2 Hsub2) as (log3 & Hsub3 & Hrun3).
  exists log3. split; [done|]. by etrans.
Qed.

(** ** Messages and relays *)

(** Every pending relay is of a registered message, the one its event
    carries, and an id once registered stays registered. *)
Definition rinv (c : Blockchain) : Prop :=
  ∀ id p, Relayer.pending_relay (universal_relayer c) id = Some p →
    ∃ m, MessageRegistry.get (message_registry c) id = Some m ∧
      Event.message (Relayer.source_event p) = Some m ∧ verify_id m = true.

(** A registered message without pending relay. *)
Definition spent (c : Blockchain) (id : MessageId) : Prop :=
  is_Some (MessageRegistry.get (message_registry c) id) ∧
  Relayer.pending_relay (universal_relayer c) id = None.

(** What a method may do to messages and relays. *)
Definition quiet (c c' : Blockchain) : Prop :=
  message_registry c' = message_registry c ∧
  ∀ id p, Relayer.pending_relay (universal_relayer c') id = Some p →
    Relayer.pending_relay (universal_relayer c) id = Some p.

Definition published (c c' : Blockchain) : Prop :=
  ∃ m p, MessageRegistry.get (message_registry c) (message_id m) = None ∧ verify_id m = true ∧
    Event.message (Relayer.source_event p) = Some m ∧
    MessageRegistry.messages (message_registry c') =
      <[message_id m := m]> (MessageRegistry.messages (message_registry c)) ∧
    Relayer.pending (universal_relayer c') =
      <[message_id m := p]> (Relayer.pending (universal_relayer c)).

Lemma quiet_refl c : quiet c c.
Proof. done. Qed.

#[local] Hint Resolve quiet_refl : core.

Lemma publish_effect {A} c event (out : A) :
  let '(r, c') := publish c event out in
  (is_ok r = true ∧ published c c') ∨ quiet c c'.
Proof.
  unfold publish, submit_cross_domain_message. destruct (Event.message event) as [m|] eqn:Hm; [|by right].
  destruct (negb (verify_id m)); [by right|]. destruct (_ =? _); [by right|].
  destruct (_ && _); [by right|].
  destruct (MessageRegistry.insert _ m) as [[[]|] reg] eqn:Hi; cbn.
  - apply MessageRegistry.insert_ok in Hi as (Hnone & Hv & Hr). left. split; [done|].
    eexists m, _. split; [done|]. split; [done|]. split; [|split; [exact Hr|cbn; reflexivity]].
    done.
  - right. unfold MessageRegistry.insert in Hi. by repeat case_match; simplify_eq.
Qed.

Lemma process_relay_quiet u id a proof source root height id' p :
  Relayer.pending (Relayer.process_relay proof_bytes u id a proof source root height).2 !! id'
    = Some p → Relayer.pending u !! id' = Some p.
Proof.
  pose proof (Relayer.process_relay_pending proof_bytes u id a proof source root height) as Hp.
  destruct (Relayer.process_relay _ _ _ _ _ _ _ _) as [[m|e] u']; cbn in *; rewrite Hp; [|done].
  intros Hd. by apply lookup_delete_Some in Hd as [_ Hd].
Qed.

Lemma submit_relay_quiet c id relayer proof source :
  quiet c (submit_relay_proof proof_bytes c id relayer proof source).2.
Proof.
  unfold submit_relay_proof.
  destruct (Registry.ensure_active_relayer _ _); cbn; [|done].
  destruct (committed_event_root c id source) as [root|]; [|done].
  pose proof (process_relay_quiet (universal_relayer c) id relayer proof source root
    (chain_len c)) as Hq.
  destruct (Relayer.process_relay _ _ _ _ _ _ _ _) as [[m|e] u]; cbn in *; [|done].
  destruct (kind m); cbn; try done.
  - by destruct (Ledger.relay_mint _ m relayer _) as [[|] s].
  - by destruct (Ledger.relay_unlock _ m relayer _) as [[|] s].
Qed.

Lemma step_effect r r' :
  step r r' → published (chain r) (chain r') ∨ quiet (chain r) (chain r').
Proof.
  destruct 1; cbn.
  - right. unfold register_bridge_asset. destruct (check_bridge_domains c [domain]); [|done].
    by destruct (Bridge.register_asset (bridge c) asset domain).
  - unfold lock_bridge_transfer. destruct (check_bridge_domains c [src; tgt]); [|by right].
    destruct (Ledger.lock_bridge_transfer _ _ _ _ _ _ _ _ _ _) as [[[t e]|] s]; cbn; [|by right].
    pose proof (publish_effect (with_account c s) e (t, e)) as He.
    destruct (publish _ _ _). tauto.
  - unfold burn_bridge_transfer_with_event.
    destruct (Ledger.burn_bridge_transfer_with_event _ _ _ _ _ _) as [[e|] s]; cbn; [|by right].
    pose proof (publish_effect (with_account c s) e e) as He.
    destruct (publish _ _ _). tauto.
  - right. unfold mint_bridge_transfer_from_verified_event. repeat case_match; done.
  - right. unfold unlock_bridge_transfer_from_verified_event. repeat case_match; done.
  - right. apply submit_relay_quiet.
  - right. split; [done|]. intros id p. apply Relayer.sweep_retired_pending.
  - right. unfold apply_bridge_sweep. by destruct (Ledger.apply_bridge_sweep_to_state _ _) as [[|] s].
  - by right.
Qed.

Lemma effect_rinv c c' : published c c' ∨ quiet c c' → rinv c → rinv c'.
Proof.
  unfold rinv, MessageRegistry.get, Relayer.pending_relay.
  intros [(m & p0 & Hnone & Hv & Hm & Hreg & Hpe)|[Hreg Hq]] Hinv id p Hp.
  - rewrite Hpe in Hp. rewrite Hreg.
    apply lookup_insert_Some in Hp as [[<- <-]|[Hne Hp]].
    + exists m. by rewrite lookup_insert_eq.
    + rewrite lookup_insert_ne by done. by apply Hinv.
  - rewrite Hreg. by apply Hinv, Hq.
Qed.

Lemma effect_spent c c' id : published c c' ∨ quiet c c' → spent c id → spent c' id.
Proof.
  unfold spent, MessageRegistry.get, Relayer.pending_relay.
  intros [(m & p0 & Hnone & _ & _ & Hreg & Hpe)|[Hreg Hq]] [[m' Hm'] Hp].
  - unfold MessageRegistry.get in Hnone. assert (message_id m ≠ id) by congruence.
    rewrite Hreg, Hpe, !lookup_insert_ne by done. split; [by eexists|done].
  - rewrite Hreg. split; [by eexists|].
    destruct (Relayer.pending (universal_relayer c') !! id) as [p|] eqn:Hp'; [|done].
    apply Hq in Hp'. unfold Relayer.pending_relay in Hp'. congruence.
Qed.

Lemma reachable_rinv r : reachable r → rinv (chain r).
Proof.
  intros (c & (_ & _ & Hpe) & Hrun).
  apply (rtc_preserve step (λ x, rinv (chain x))
           (λ x y Hs, effect_rinv _ _ (step_effect x y Hs)) _ _ Hrun).
  intros id p Hp. cbn in Hp. unfold Relayer.pending_relay in Hp. by rewrite Hpe in Hp.
Qed.
End run.
End ChainRun.

(** ** Theorems *)
Module ChainSafety.
Import ChainRun.

Section safety.
Context `{Sha256} (proof_bytes : Event.MerkleProof → option bytes).

(** C5: the chain refines the bridge state machine.  Whatever bridge methods a
    chain runs, refused ones included, the bridge inside it is in a state the
    bridge machine reaches by itself with the messages the methods handled; so
    every invariant of the machine is one of the chain. *)
Theorem chain_refines_bridge r :
  reachable proof_bytes r →
  ∃ log, log ⊆ handled r ∧ BridgeRun.reachable log (bridge (chain r)) ∧
    (BridgeRun.log_ok (handled r) → BridgeRun.inv log (bridge (chain r))).
Proof.
  intros (c & (Hb & _ & _) & Hrun).
  destruct (run_simulates proof_bytes _ _ [] Hrun) as (log & Hsub & Hsim); [done|].
  cbn in Hsim. rewrite Hb in Hsim. exists log. split; [done|]. split; [done|].
  intros Hlog. apply BridgeRun.reachable_inv; [done|]. by eapply BridgeRun.log_ok_mono.
Qed.

(** C34: a relay is spent once and for all.  After a relay of a message was
    accepted, or its proof was accepted and the bridge refused it, every later
    submission for that message, at any time and by anybody, is refused and
    changes nothing, although relay records are pruned. *)
Theorem relay_spent_forever r id relayer proof source res c' r' relayer' proof' source' :
  reachable proof_bytes r →
  submit_relay_proof proof_bytes (chain r) id relayer proof source = (res, c') →
  match res with Ok _ => True | Err (LedgerRefused _) | Err UnsupportedKind => True
            | _ => False end →
  rtc (step proof_bytes) {| handled := handled r; chain := c' |} r' →
  is_ok (submit_relay_proof proof_bytes (chain r') id relayer' proof' source').1 = false ∧
  (submit_relay_proof proof_bytes (chain r') id relayer' proof' source').2 = chain r'.
Proof.
  intros Hr Hsub Hres Hrun. apply reachable_rinv in Hr.
  assert (spent c' id) as Hspent.
  { pose proof (submit_relay_quiet proof_bytes (chain r) id relayer proof source) as [Hreg _].
    rewrite Hsub in Hreg. cbn in Hreg. unfold submit_relay_proof in Hsub.
    destruct (Registry.ensure_active_relayer _ _); cbn in Hsub; [|by simplify_eq].
    destruct (committed_event_root _ id source) as [root|e] eqn:Hroot;
      [|unfold committed_event_root in Hroot; destruct (Relayer.pending_relay _ id);
        [cbn in Hroot; destruct (Commitment.find_by_height _ _ _)|]; by simplify_eq/=].
    destruct (Relayer.process_relay _ _ _ _ _ _ _ _) as [[m|e] u] eqn:Hp; cbn in Hsub;
      [|by simplify_eq].
    apply Relayer.process_relay_ok in Hp as (p & Hpe & _ & _ & _ & _ & _ & _ & _ & Hdel & _).
    destruct (Hr id p Hpe) as (m' & Hm' & _). split; [rewrite Hreg; by eexists|].
    assert (universal_relayer c' = u) as ->
      by (clear Hres Hreg; destruct (kind m); repeat case_match; by simplify_eq/=).
    unfold Relayer.pending_relay. rewrite Hdel. apply lookup_delete_eq. }
  assert (spent (chain r') id) as [_ Hnone].
  { refine (rtc_preserve (step proof_bytes) (λ x, spent (chain x) id) _ _ _ Hrun Hspent).
    intros x y Hs. apply effect_spent, (step_effect proof_bytes x y Hs). }
  unfold submit_relay_proof, committed_event_root. rewrite Hnone. cbn.
  by destruct (Registry.ensure_active_relayer _ _).
Qed.

(** C35: what is relayed was emitted.  An accepted relay comes from an active
    relayer, for a registered message that was pending and whose source event
    is a leaf of the event tree the source domain committed to for its height,
    unless the hash calls involved contain a collision. *)
Theorem relay_authentic r id relayer proof source m c' :
  reachable proof_bytes r →
  submit_relay_proof proof_bytes (chain r) id relayer proof source = (Ok m, c') →
  let c := chain r in
  Registry.is_active_relayer (Host.registry (Ledger.core (account_state c))) relayer = true ∧
  MessageRegistry.get (message_registry c) id = Some m ∧
  ∃ p com, Relayer.pending_relay (universal_relayer c) id = Some p ∧
    Event.message (Relayer.source_event p) = Some m ∧ Relayer.r_source_domain p = source ∧
    Commitment.find_by_height (Settle.commitment_registry (settlement c)) source
      (Event.domain_height (Relayer.source_event p)) = Some com ∧
    (∀ t, Commitment.event_root com = Event.root t → Forall Event.event_ok (Event.events t) →
       Event.event_ok (Relayer.source_event p) → Forall is_hash32 (Event.siblings proof) →
       collision_free (encode_fields (Event.leaf_fields (Relayer.source_event p)) ::
         Settlement.walk_preimages (Event.leaf proof) (Event.index proof) (Event.siblings proof)
         ++ Event.event_preimages t) →
       Event.leaf_fields (Relayer.source_event p) ∈ Event.leaf_fields <$> Event.events t).
Proof.
  intros Hr Hsub c. apply reachable_rinv in Hr. unfold submit_relay_proof in Hsub. fold c in Hsub.
  destruct (Registry.ensure_active_relayer _ _) eqn:Hact; cbn in Hsub; [|done].
  destruct (committed_event_root _ id source) as [root|e] eqn:Hroot; [|done].
  destruct (Relayer.process_relay _ _ _ _ _ _ _ _) as [[m0|e] u] eqn:Hp; cbn in Hsub; [|done].
  assert (m0 = m) as -> by (destruct (kind m0); repeat case_match; by simplify_eq/=).
  apply Relayer.process_relay_ok in Hp
    as (p & Hpe & _ & _ & Hsrc & Hv & Hleaf & Hmsg & _ & _ & _).
  destruct (Hr id p Hpe) as (m' & Hm' & Hmsg' & _). split_and!.
  - unfold Registry.ensure_active_relayer in Hact. by destruct (Registry.is_active_relayer _ _).
  - subst c. congruence.
  - unfold committed_event_root, Relayer.pending_relay in Hroot. rewrite Hpe in Hroot. cbn in Hroot.
    destruct (Commitment.find_by_height _ _ _) as [com|] eqn:Hcom; cbn in Hroot; simplify_eq.
    exists p, com. split_and!; try done. intros t Ht Hok He Hsib Hcf.
    rewrite Ht in Hv. by apply (Event.verify_leaf t proof).
Qed.

(** A mint from a verified event names a block of the applied chain.  When
    it succeeds, the event is the one given, under the commitment of the
    expected block, at a height the source domain has reached, in a domain
    whose bridge is enabled, and its leaf is in that commitment's event tree;
    the message minted is the one the event carries. *)
Theorem verified_mint_authentic c source height seq expected event proof relayer c' :
  mint_bridge_transfer_from_verified_event c source height seq expected event proof relayer
    = (Ok (), c') →
  ∃ d com m, get_domain c source = Some d ∧ Domain.bridge_enabled d = true ∧
    height ≤ Domain.last_committed_height d ∧
    Commitment.get (Settle.commitment_registry (settlement c)) source height seq = Some com ∧
    expected = Some (Commitment.domain_block_hash com) ∧
    Event.message event = Some m ∧ kind m = BridgeLock ∧
    is_ok (Bridge.mint (bridge c) m (chain_len c)).1 = true ∧
    (∀ t, Commitment.event_root com = Event.root t → Forall Event.event_ok (Event.events t) →
       Event.event_ok event → Forall is_hash32 (Event.siblings proof) →
       collision_free (encode_fields (Event.leaf_fields event) ::
         Settlement.walk_preimages (Event.leaf proof) (Event.index proof) (Event.siblings proof)
         ++ Event.event_preimages t) →
       Event.leaf_fields event ∈ Event.leaf_fields <$> Event.events t).
Proof.
  unfold mint_bridge_transfer_from_verified_event. intros Hmint.
  destruct expected as [hash|]; cbn in Hmint; [|done].
  destruct (check_mint_domain c source height) as [[]|] eqn:Hd; [|done].
  destruct (verify_domain_event_proof _ _ _ _ _ _ _) as [v|] eqn:Hv; cbn in Hmint; [|done].
  apply Verifier.verify_event_from_registry_ok in Hv as (Hg & Hev & Hhash & _ & _ & Hleaf & Hver).
  destruct (lock_message_of c _) as [m|] eqn:Hlm; [|done]. rewrite Hev in Hlm.
  apply lock_message_of_ok in Hlm as [Hmsg Hkind].
  unfold check_mint_domain in Hd. destruct (get_domain c source) as [d|]; cbn in Hd; [|done].
  case_bool_decide; [done|]. destruct (Domain.bridge_enabled d) eqn:Hen; cbn in Hd; [|done].
  destruct (Z.ltb_spec (Domain.last_committed_height d) height); [done|].
  exists d, (Verifier.v_commitment v), m. split_and!; try done.
  - by rewrite (Hhash hash eq_refl).
  - destruct (Ledger.relay_mint _ m relayer _) as [[[]|] s] eqn:Hr; cbn in Hmint; [|done].
    by eapply relay_mint_ok.
  - intros t Ht Hok He Hsib Hcf. rewrite Ht in Hver. by apply (Event.verify_leaf t proof).
Qed.

(** A lock can be refused after it happened.  A lock whose expiry is above
    the source height and below the height of the chain passes every check of
    the bridge: the owner is debited and the transfer is locked, and then the
    message is refused as expired, so the caller is told the lock failed, the
    message is not registered and no relay is queued. *)
Theorem late_lock_keeps_debit c src tgt height index asset owner recipient amount expiry :
  let m := Bridge.lock_message src tgt height index asset owner recipient amount expiry
             (lane c src tgt owner) in
  let out := lock_bridge_transfer c src tgt height index asset owner recipient amount expiry in
  check_bridge_domains c [src; tgt] = Ok () → src ≠ tgt → 0 < amount → 0 ≤ height < expiry →
  amount ≤ Ledger.get_balance (account_state c) owner →
  Bridge.asset_locations (bridge c) !! asset = Some (Bridge.Active src) → expiry < chain_len c →
  out.1 = Err (MessageExpired expiry (chain_len c)) ∧
  Ledger.get_balance (account_state out.2) owner =
    Ledger.get_balance (account_state c) owner - amount ∧
  (∃ t, Bridge.transfers (bridge out.2) !! message_id m = Some t ∧
     Bridge.t_status t = Bridge.Locked src ∧ Bridge.t_owner t = owner ∧
     Bridge.t_amount t = amount) ∧
  message_registry out.2 = message_registry c ∧ universal_relayer out.2 = universal_relayer c.
Proof.
  intros m out Hdom Hne Ha [Hh0 Hh] Hbal Hact Hlate. unfold out, lock_bridge_transfer.
  rewrite Hdom. unfold Ledger.lock_bridge_transfer.
  rewrite (proj2 (Z.eqb_neq _ _) Hne), (proj2 (Z.eqb_neq amount 0)) by lia.
  rewrite (proj2 (Z.leb_gt expiry height)), (proj2 (Z.ltb_ge _ amount)) by lia.
  rewrite BridgeRun.lock_active by done. cbn zeta. cbn [result_map_err].
  change (BridgeRun.lane_nonce (Ledger.bridge_state (account_state c)) src tgt owner)
    with (lane c src tgt owner). fold m.
  unfold publish, submit_cross_domain_message.
  change (Event.message (BridgeRun.lock_event _ _ _ _ _ m)) with (Some m). cbv iota.
  assert (verify_id m = true) as -> by apply verify_id_new. cbn [negb].
  change (source_domain m) with src. change (target_domain m) with tgt.
  change (expiry_height m) with expiry. cbn [chain_len with_account].
  rewrite (proj2 (Z.eqb_neq _ _) Hne), (proj2 (Z.ltb_lt 0 expiry)) by lia.
  rewrite (proj2 (Z.ltb_lt expiry _)) by done. cbn [andb fst snd account_state with_account].
  split; [done|]. split; [|split; [|done]].
  - unfold Ledger.set_balance, Ledger.get_balance at 1, Ledger.account_of at 1.
    cbn [Ledger.accounts Ledger.put_account Ledger.with_accounts]. rewrite lookup_insert_eq.
    cbn [default Ledger.balance]. rewrite sat_sub_small; [done|exact Hbal].
  - eexists. split; [apply lookup_insert_eq|done].
Qed.
End safety.
End ChainSafety.

(** ** The theorems at concrete inputs *)
Module ChainExamples.
Import ChainRun.
#[local] Existing Instance poly_sha256.

Definition addr (b : Z) : Address := replicate 32 b.
Definition asset : AssetId := addr 7.
Definition no_proof_bytes (_ : Event.MerkleProof) : option bytes := Some [].

Definition domain (i : DomainId) (tip : Z) : Domain.ConsensusDomain :=
  {| Domain.id := i; Domain.kind := Domain.PoS; Domain.status := Domain.Active;
     Domain.domain_chain_id := i; Domain.operator := Some (addr 1); Domain.operator_bond := 10000;
     Domain.config_hash := addr 2; Domain.validator_set_hash := addr 3;
     Domain.finality_adapter := Text.lit "pos-qc-finality"; Domain.min_confirmations := 1;
     Domain.bridge_enabled := true; Domain.block_hash_scheme := Domain.BudlumBlockV2;
     Domain.state_root_scheme := Domain.SchemeSha256;
     Domain.tx_root_scheme := Domain.SchemeSha256; Domain.last_committed_height := tip;
     Domain.last_committed_hash := addr 4; Domain.pow_parameters := None;
     Domain.zk_program_allowlist := []; Domain.plugin_code_hash := None |}.

(** Two bridge domains and the commitments [l]. *)
Definition settled (tip : Z) (l : list Commitment.DomainCommitment) : Settle.State :=
  {| Settle.domain_registry :=
       Domain.put (Domain.put Domain.registry_new 1 (domain 1 tip)) 2 (domain 2 tip);
     Settle.commitment_registry := foldr (λ c r, (Commitment.insert r c).2) Commitment.new l;
     Settle.quarantine_ledger := Quarantine.new; Settle.external_roots := ∅ |}.

Definition core0 : Host.AccountState :=
  {| Host.base_fee := 1; Host.tokenomics := Tokenomics.default_params;
     Host.validators := ∅;
     Host.registry := (Registry.register_relayer Registry.new (addr 3) 5000 0).2;
     Host.verifier_whitelist := ∅; Host.apps := ∅; Host.encryption_policies := ∅;
     Host.governance := Governance.state_default; Host.pending_domain_unfreezes := [];
     Host.epoch_index := 0 |}.

Definition account0 : Ledger.State :=
  {| Ledger.core := core0;
     Ledger.accounts := {[addr 1 := {| Ledger.balance := 1000000; Ledger.nonce := 0 |}]};
     Ledger.unbonding_queue := []; Ledger.timed_burn := Tokenomics.burn_new;
     Ledger.burn_reserve_address := None; Ledger.team_vesting := None;
     Ledger.bridge_state := Bridge.new |}.

Definition c0 : Blockchain :=
  {| account_state := account0; settlement := settled 0 [];
     message_registry := MessageRegistry.new;
     universal_relayer := Relayer.new Relayer.config_default; chain_len := 12 |}.

Definition c1 : Blockchain := (register_bridge_asset c0 asset 1).2.

Definition lock_result (expiry : Z) :=
  lock_bridge_transfer c1 1 2 10 0 asset (addr 1) (addr 2) 500 expiry.
Definition c2 : Blockchain := (lock_result 100).2.

Definition m : CrossDomainMessage :=
  Bridge.lock_message 1 2 10 0 asset (addr 1) (addr 2) 500 100 0.
Definition event : Event.DomainEvent := BridgeRun.lock_event 1 10 0 (addr 1) (Bridge.bridge_payload_hash asset 500) m.
Definition tree : Event.DomainEventTree := {| Event.events := [event] |}.
Definition proof : Event.MerkleProof :=
  {| Event.leaf := Event.leaf_hash event; Event.index := 0%nat; Event.siblings := [] |}.

(** The commitment of height 10, with the lock among its events. *)
Definition commitment : Commitment.DomainCommitment :=
  {| Commitment.c_domain_id := 1; Commitment.c_height := 10;
     Commitment.domain_block_hash := addr 5; Commitment.parent_domain_block_hash := addr 4;
     Commitment.state_root := addr 6; Commitment.tx_root := addr 6;
     Commitment.event_root := Event.root tree; Commitment.finality_proof_hash := addr 6;
     Commitment.consensus_kind := Domain.PoS; Commitment.c_validator_set_hash := addr 3;
     Commitment.timestamp_ms := 0; Commitment.sequence := 0; Commitment.producer := None;
     Commitment.state_updates := ∅ |}.

Definition c3 : Blockchain :=
  {| account_state := account_state c2; settlement := settled 10 [commitment];
     message_registry := message_registry c2; universal_relayer := universal_relayer c2;
     chain_len := 20 |}.

Definition relayed := submit_relay_proof no_proof_bytes c3 (message_id m) (addr 3) proof 1.
Definition c4 : Blockchain := relayed.2.

Lemma chain_message_ok : message_ok m.
Proof. split; vm_compute; (reflexivity || (split; discriminate) || discriminate). Qed.

Lemma event_ok : Event.event_ok event.
Proof.
  split; [vm_compute; split; discriminate|vm_compute; split; discriminate
         |vm_compute; split; discriminate|vm_compute; discriminate|reflexivity
         |apply sha256_length|reflexivity].
Qed.

Lemma relayed_ok : relayed = (Ok m, c4).
Proof.
  unfold c4. destruct relayed as [r c] eqn:Hr. cbn. f_equal.
  change r with (r, c).1. rewrite <- Hr. vm_compute. reflexivity.
Qed.

Abbreviation reached := (reachable no_proof_bytes).

Lemma c3_reached : reached {| handled := [m]; chain := c3 |}.
Proof.
  exists c0. split; [done|]. eapply rtc_l; [apply (step_asset _ [] c0 asset 1)|].
  eapply rtc_l; [|apply rtc_once].
  - apply (step_lock _ [] c1 1 2 10 0 asset (addr 1) (addr 2) 500 100).
    + exact chain_message_ok.
    + split; vm_compute; discriminate.
    + vm_compute. reflexivity.
  - apply (step_other _ [m] c2 (account_state c2) (settled 10 [commitment]) 20). reflexivity.
Qed.

Lemma c3_pending p : Relayer.pending_relay (universal_relayer c3) (message_id m) = Some p →
  Event.message (Relayer.source_event p) = Some m.
Proof.
  intros Hp. assert (∃ q, Relayer.pending_relay (universal_relayer c3) (message_id m) = Some q ∧
    Event.message (Relayer.source_event q) = Some m) as (q & Hq & Hm).
  { eexists. split; vm_compute; reflexivity. }
  rewrite Hp in Hq. by injection Hq as ->.
Qed.

Lemma c4_reached : reached {| handled := [m; m]; chain := c4 |}.
Proof.
  destruct c3_reached as (c & Hg & Hrun). exists c. split; [done|]. eapply rtc_r; [exact Hrun|].
  unfold c4, relayed. apply step_relay; [exact c3_pending|exact chain_message_ok].
Qed.

(** The transfer is minted in the bridge of the chain. *)
Lemma chain_refines_bridge_witness :
  ∃ log, log ⊆ [m; m] ∧ BridgeRun.reachable log (bridge c4) ∧ BridgeRun.inv log (bridge c4) ∧
    Bridge.t_status <$> Bridge.transfers (bridge c4) !! message_id m = Some (Bridge.Minted 2).
Proof.
  destruct (ChainSafety.chain_refines_bridge no_proof_bytes {| handled := [m; m]; chain := c4 |}
              c4_reached) as (log & Hsub & Hr & Hi).
  exists log. split; [exact Hsub|]. split; [exact Hr|]. split; [|vm_compute; reflexivity].
  apply Hi. apply collision_freeb_spec. vm_compute. reflexivity.
Defined.

Lemma relay_spent_forever_witness :
  is_ok (submit_relay_proof no_proof_bytes (sweep_retired_relays c4 900000) (message_id m)
    (addr 3) proof 1).1 = false.
Proof.
  apply (ChainSafety.relay_spent_forever no_proof_bytes {| handled := [m]; chain := c3 |}
    (message_id m) (addr 3) proof 1 (Ok m) c4
    {| handled := [m]; chain := sweep_retired_relays c4 900000 |}).
  - exact c3_reached.
  - exact relayed_ok.
  - exact I.
  - apply rtc_once, step_retire.
Defined.

Lemma relay_authentic_witness :
  Registry.is_active_relayer (Host.registry (Ledger.core (account_state c3))) (addr 3) = true ∧
  MessageRegistry.get (message_registry c3) (message_id m) = Some m.
Proof.
  destruct (ChainSafety.relay_authentic no_proof_bytes {| handled := [m]; chain := c3 |}
    (message_id m) (addr 3) proof 1 m c4 c3_reached relayed_ok) as (Ha & Hm & _).
  split; [exact Ha|exact Hm].
Defined.

Definition minted := mint_bridge_transfer_from_verified_event c3 1 10 0 (Some (addr 5)) event
                       proof (addr 3).

Lemma minted_ok : minted = (Ok (), minted.2).
Proof.
  destruct minted as [r c] eqn:Hr. cbn. f_equal. change r with (r, c).1. rewrite <- Hr.
  vm_compute. reflexivity.
Qed.

Lemma verified_mint_authentic_witness :
  Event.leaf_fields event ∈ Event.leaf_fields <$> Event.events tree.
Proof.
  destruct (ChainSafety.verified_mint_authentic c3 1 10 0 (Some (addr 5)) event proof (addr 3)
    minted.2 minted_ok) as (d & com & m' & _ & _ & _ & Hcom & _ & _ & _ & _ & Hin).
  apply Hin.
  - assert (Commitment.event_root <$> Commitment.get
      (Settle.commitment_registry (settlement c3)) 1 10 0 = Some (Event.root tree)) as Hroot
      by (vm_compute; reflexivity).
    rewrite Hcom in Hroot. by injection Hroot.
  - constructor; [exact event_ok|constructor].
  - exact event_ok.
  - constructor.
  - apply collision_freeb_spec. vm_compute. reflexivity.
Defined.

Lemma late_lock_keeps_debit_witness :
  (lock_result 11).1 = Err (MessageExpired 11 12) ∧
  Ledger.get_balance (account_state (lock_result 11).2) (addr 1) = 1000000 - 500.
Proof.
  destruct (ChainSafety.late_lock_keeps_debit c1 1 2 10 0 asset (addr 1) (addr 2) 500 11)
    as (Hr & Hb & _).
  - vm_compute. reflexivity.
  - discriminate.
  - reflexivity.
  - split; [discriminate|reflexivity].
  - vm_compute. discriminate.
  - vm_compute. reflexivity.
  - reflexivity.
  - split; [exact Hr|exact Hb].
Defined.
End ChainExamples.
