(* ===== verification/Rlp.v ===== *)
(** * Recursive Length Prefix

    The encoder and decoder of Ethereum's RLP ([src/cross_domain/evm/rlp.rs]).
    A [usize] has 64 bits.  [Grammar] states which byte strings the decoder
    accepts, and for which item. *)
From stdpp Require Import base tactics numbers list.
From Stdlib Require Import ZArith Lia.
From S2P Require Import Prelude.

Module Rlp.

Inductive Item :=
  | String (b : bytes)
  | List (l : list Item).

Inductive RlpError :=
  | UnexpectedEof
  | InvalidLengthPrefix
  | NonCanonical
  | TrailingBytes
  | NestingTooDeep.

Definition MAX_DEPTH : nat := 32.

(** [n.to_be_bytes()]. *)
Definition be_bytes8 (n : Z) : bytes := rev (le_bytes 8 n).

Definition trim_leading_zeros (n : Z) : bytes :=
  if n =? 0 then []
  else
    let be := be_bytes8 n in
    let start := from_option fst (length be) (list_find (λ b, b ≠ 0) be) in
    drop start be.

Definition encode_length (len : Z) (offset : Z) : bytes :=
  if len <? 56 then [offset + len]
  else
    let len_be := trim_leading_zeros len in
    (offset + 55 + Z.of_nat (length len_be)) :: len_be.

Definition encode_string (b : bytes) : bytes :=
  match b with
  | [x] => if x <? 128 then [x] else encode_length 1 128 ++ b
  | _ => encode_length (Z.of_nat (length b)) 128 ++ b
  end.

Fixpoint encode (item : Item) : bytes :=
  match item with
  | String b => encode_string b
  | List items =>
      let payload := concat (map encode items) in
      encode_length (Z.of_nat (length payload)) 192 ++ payload
  end.

(** A slice of [n] bytes; the rest of the input is [drop]ped by the caller. *)
Definition take_exact (input : bytes) (n : Z) : result RlpError bytes :=
  if Z.of_nat (length input) <? n then Err UnexpectedEof else Ok (take (Z.to_nat n) input).

(** The loop of [decode_length_value] and [decode_uint]. *)
Fixpoint read_be (acc : Z) (b : bytes) : option Z :=
  match b with
  | [] => Some acc
  | x :: b => if acc * 256 + x <=? u64_max then read_be (acc * 256 + x) b else None
  end.

(** [len_of_len] is at least 1, so the first length byte exists. *)
Definition decode_length_value (input : bytes) (len_of_len : Z) : result RlpError Z :=
  let? len_bytes := take_exact input len_of_len in
  let first := default 0 (head len_bytes) in
  if (1 <? len_of_len) && (first =? 0) then Err NonCanonical
  else if (len_of_len =? 1) && (first <? 56) then Err NonCanonical
  else ok_or (read_be 0 len_bytes) InvalidLengthPrefix.

(** The [while] loop: every item takes at least one byte of the payload. *)
Fixpoint decode_list_items (decode_at : bytes → result RlpError (Item * bytes)) (fuel : nat)
    (rest : bytes) : result RlpError (list Item) :=
  match rest, fuel with
  | [], _ => Ok []
  | _, O => Err UnexpectedEof
  | _, S fuel =>
      let? (item, remaining) := decode_at rest in
      let? items := decode_list_items decode_at fuel remaining in
      Ok (item :: items)
  end.

(** [levels] is [MAX_DEPTH + 1 - depth]. *)
Fixpoint decode_at (levels : nat) (input : bytes) : result RlpError (Item * bytes) :=
  match levels, input with
  | O, _ => Err NestingTooDeep
  | _, [] => Err UnexpectedEof
  | S levels, first :: tl =>
      if first <? 128 then Ok (String [first], tl)
      else if first <=? 183 then
        let len := first - 128 in
        let? payload := take_exact tl len in
        Ok (String payload, drop (Z.to_nat len) tl)
      else if first <=? 191 then
        let len_of_len := first - 183 in
        let? len := decode_length_value tl len_of_len in
        let tl := drop (Z.to_nat len_of_len) tl in
        let? payload := take_exact tl len in
        Ok (String payload, drop (Z.to_nat len) tl)
      else if first <=? 247 then
        let len := first - 192 in
        let? payload := take_exact tl len in
        let? items := decode_list_items (decode_at levels) (length payload) payload in
        Ok (List items, drop (Z.to_nat len) tl)
      else
        let len_of_len := first - 247 in
        let? len := decode_length_value tl len_of_len in
        let tl := drop (Z.to_nat len_of_len) tl in
        let? payload := take_exact tl len in
        let? items := decode_list_items (decode_at levels) (length payload) payload in
        Ok (List items, drop (Z.to_nat len) tl)
  end.

Definition decode (input : bytes) : result RlpError Item :=
  let? (item, rest) := decode_at (S MAX_DEPTH) input in
  match rest with [] => Ok item | _ => Err TrailingBytes end.

Definition encode_uint (n : Z) : bytes := encode (String (trim_leading_zeros n)).

Definition as_bytes (item : Item) : result RlpError bytes :=
  match item with String b => Ok b | List _ => Err NonCanonical end.

Definition decode_uint (item : Item) : result RlpError Z :=
  let? b := as_bytes item in
  if (1 <? Z.of_nat (length b)) && (default 0 (head b) =? 0) then Err NonCanonical
  else if bool_decide (b = []) then Ok 0
  else if 8 <? Z.of_nat (length b) then Err InvalidLengthPrefix
  else ok_or (read_be 0 b) InvalidLengthPrefix.
End Rlp.

(** ** Big-endian numbers *)
Module BigEndian.
Import Rlp.

Definition is_byte (x : Z) : Prop := 0 ≤ x < 256.

Fixpoint le_value (b : bytes) : Z :=
  match b with [] => 0 | x :: b => x + 256 * le_value b end.

Definition be_value (b : bytes) : Z := le_value (rev b).

(** No leading zero. *)
Definition minimal (b : bytes) : Prop := Forall is_byte b ∧ head b ≠ Some 0.

Lemma le_value_app b x : le_value (b ++ [x]) = le_value b + x * 256 ^ Z.of_nat (length b).
Proof.
  induction b as [|y b IH]; simpl length; cbn [le_value app].
  - change (Z.of_nat 0) with 0. rewrite Z.pow_0_r. lia.
  - rewrite IH, Nat2Z.inj_succ, Z.pow_succ_r by lia. lia.
Qed.

Lemma be_value_cons x b : be_value (x :: b) = x * 256 ^ Z.of_nat (length b) + be_value b.
Proof. unfold be_value. cbn [rev]. rewrite le_value_app, length_rev. lia. Qed.

Lemma le_value_range b :
  Forall is_byte b → 0 ≤ le_value b < 256 ^ Z.of_nat (length b).
Proof.
  induction 1 as [|x b Hx _ IH]; [by cbn|]. cbn [le_value length].
  rewrite Nat2Z.inj_succ, Z.pow_succ_r by lia. unfold is_byte in Hx. lia.
Qed.

Lemma be_value_range b : Forall is_byte b → 0 ≤ be_value b < 256 ^ Z.of_nat (length b).
Proof.
  intros Hb. unfold be_value. rewrite <- (length_rev b). apply le_value_range.
  by apply Forall_rev.
Qed.

Lemma le_bytes_value n b :
  Forall is_byte b → (length b ≤ n)%nat →
  le_bytes n (le_value b) = b ++ replicate (n - length b) 0.
Proof.
  intros Hb. revert n. induction Hb as [|x b Hx _ IH]; intros n Hn.
  - cbn [le_value app length]. rewrite Nat.sub_0_r. clear Hn. induction n as [|n IHn]; [done|].
    change (le_bytes (S n) 0) with (0 mod 256 :: le_bytes n (0 / 256)).
    rewrite Z.mod_0_l, Z.div_0_l by lia. cbn. by rewrite IHn.
  - destruct n as [|n]; [cbn in Hn; lia|]. cbn in Hn |- *. unfold is_byte in Hx.
    change (le_bytes (S n) ?v) with (v mod 256 :: le_bytes n (v / 256)).
    rewrite (Z.mul_comm 256), Z.mod_add, Z.mod_small, Z.div_add, Z.div_small, Z.add_0_l by lia.
    rewrite IH by lia. done.
Qed.

Lemma le_value_bytes n x : 0 ≤ x < 256 ^ Z.of_nat n → le_value (le_bytes n x) = x.
Proof.
  revert x. induction n as [|n IH]; intros x Hx.
  - change (256 ^ Z.of_nat 0) with 1 in Hx. change (0 = x). lia.
  - rewrite Nat2Z.inj_succ, Z.pow_succ_r in Hx by lia.
    change (le_bytes (S n) x) with (x mod 256 :: le_bytes n (x / 256)). cbn [le_value].
    rewrite IH; [pose proof (Z.div_mod x 256 ltac:(lia)); lia|].
    split; [apply Z.div_pos; lia|apply Z.div_lt_upper_bound; lia].
Qed.

Lemma le_bytes_bytes n x : Forall is_byte (le_bytes n x).
Proof.
  revert x. induction n as [|n IH]; intros x; constructor; [|apply IH].
  unfold is_byte. apply Z.mod_pos_bound. lia.
Qed.

(** The slice behind the first non-zero byte. *)
Lemma drop_zeros (b : bytes) :
  let start := from_option fst (length b) (list_find (λ x, x ≠ 0) b) in
  b = replicate start 0 ++ drop start b ∧ head (drop start b) ≠ Some 0.
Proof.
  cbn zeta. destruct (list_find _ b) as [[i x]|] eqn:Hf; cbn [from_option fst].
  - apply list_find_Some in Hf as (Hi & Hx & Hbefore).
    rewrite (drop_S b x i Hi). split; [|cbn; congruence].
    rewrite <- (drop_S b x i Hi). rewrite <- (take_drop i b) at 1. f_equal.
    apply list_eq. intros j. destruct (decide (j < i)%nat) as [Hj|Hj].
    + rewrite lookup_take_lt, lookup_replicate_2 by done.
      destruct (lookup_lt_is_Some_2 b j) as [y Hy];
        [apply lookup_lt_Some in Hi; lia|]. rewrite Hy. f_equal.
      specialize (Hbefore j y Hy Hj). by apply dec_stable in Hbefore.
    + rewrite lookup_take_ge by lia. symmetry. apply lookup_replicate_None. lia.
  - apply list_find_None in Hf. rewrite drop_ge by lia. split; [|done].
    rewrite app_nil_r. clear -Hf. induction Hf as [|x b Hx _ IH]; [done|].
    apply dec_stable in Hx as ->. cbn. by f_equal.
Qed.

Lemma trim_spec n :
  u64 n → minimal (trim_leading_zeros n) ∧ be_value (trim_leading_zeros n) = n ∧
    (length (trim_leading_zeros n) ≤ 8)%nat.
Proof.
  intros Hn. unfold trim_leading_zeros. destruct (n =? 0) eqn:H0.
  { apply Z.eqb_eq in H0 as ->. split; [by split; [constructor|]|]. split; [done|cbn; lia]. }
  pose proof (drop_zeros (be_bytes8 n)) as [Hd Hh]. cbn zeta in *.
  set (start := from_option fst _ _) in *.
  assert (Forall is_byte (drop start (be_bytes8 n))) as Hb.
  { apply Forall_drop, Forall_rev, le_bytes_bytes. }
  split; [by split|]. split.
  - assert (∀ k b, be_value (replicate k 0 ++ b) = be_value b) as Hz.
    { intros k b. induction k as [|k IH]; [done|]. cbn [replicate app].
      rewrite be_value_cons. lia. }
    rewrite <- (Hz start), <- Hd. unfold be_value, be_bytes8. rewrite rev_involutive.
    apply le_value_bytes. revert Hn. unfold u64, u64_max. change (256 ^ Z.of_nat 8) with (2 ^ 64). lia.
  - rewrite length_drop. unfold be_bytes8. rewrite length_rev, length_le_bytes. lia.
Qed.

Lemma rev_zeros k : rev (replicate k 0) = replicate k 0.
Proof. induction k as [|k IH]; [done|]. rewrite replicate_S_end at 2. cbn. by rewrite IH. Qed.

Lemma trim_value b :
  minimal b → (length b ≤ 8)%nat → trim_leading_zeros (be_value b) = b.
Proof.
  intros [Hb Hh] Hlen. destruct b as [|x b]; [done|].
  pose proof (Forall_inv Hb) as Hx. unfold is_byte in Hx.
  assert (x ≠ 0) as Hx0 by (intros ->; done).
  assert (0 < be_value (x :: b)) as Hpos.
  { rewrite be_value_cons. pose proof (be_value_range b (Forall_inv_tail Hb)).
    assert (0 < 256 ^ Z.of_nat (length b)) by (apply Z.pow_pos_nonneg; lia). nia. }
  unfold trim_leading_zeros. rewrite (proj2 (Z.eqb_neq _ _)) by lia. cbn zeta.
  unfold be_bytes8, be_value. rewrite le_bytes_value;
    [|by apply Forall_rev|by rewrite length_rev].
  rewrite rev_app_distr, rev_involutive, rev_zeros, length_rev.
  set (k := (8 - length (x :: b))%nat).
  assert (list_find (λ y : Z, y ≠ 0) (replicate k 0 ++ x :: b) = Some (k, x)) as ->.
  { apply list_find_Some. split.
    - rewrite lookup_app_r by by rewrite length_replicate.
      by rewrite length_replicate, Nat.sub_diag.
    - split; [done|]. intros j y Hj Hlt. rewrite lookup_app_l in Hj by by rewrite length_replicate.
      apply lookup_replicate in Hj as [-> _]. by intros []. }
  cbn [from_option fst]. rewrite drop_app_length'; [done|by rewrite length_replicate].
Qed.

(** [read_be] computes the value when it fits. *)
Lemma read_be_value b acc :
  Forall is_byte b → u64 acc →
  read_be acc b =
    let v := acc * 256 ^ Z.of_nat (length b) + be_value b in
    if v <=? u64_max then Some v else None.
Proof.
  intros Hb. revert acc. induction Hb as [|x b Hx Hb IH]; intros acc Hacc; cbn zeta.
  - cbn [read_be length]. unfold be_value. cbn [rev le_value].
    change (256 ^ Z.of_nat 0) with 1. rewrite Z.mul_1_r, Z.add_0_r.
    by rewrite (proj2 (Z.leb_le _ _)) by apply Hacc.
  - cbn [read_be length]. rewrite be_value_cons, Nat2Z.inj_succ, Z.pow_succ_r by lia.
    unfold is_byte, u64 in *. pose proof (be_value_range b Hb) as Hv.
    assert (0 < 256 ^ Z.of_nat (length b)) as Hp by (apply Z.pow_pos_nonneg; lia).
    set (q := 256 ^ Z.of_nat (length b)) in *.
    replace (acc * (256 * q) + (x * q + be_value b)) with ((acc * 256 + x) * q + be_value b) by lia.
    destruct (acc * 256 + x <=? u64_max) eqn:Hle.
    + apply Z.leb_le in Hle. rewrite IH by lia. done.
    + apply Z.leb_gt in Hle. rewrite (proj2 (Z.leb_gt _ _)); [done|]. nia.
Qed.

Lemma read_be_trim n : u64 n → read_be 0 (trim_leading_zeros n) = Some n.
Proof.
  intros Hn. destruct (trim_spec n Hn) as ([Hb _] & Hv & _).
  rewrite read_be_value by (done || int_lia). cbn zeta. rewrite Hv, Z.mul_0_l, Z.add_0_l.
  by rewrite (proj2 (Z.leb_le _ _)) by apply Hn.
Qed.

Lemma read_be_ok b v : Forall is_byte b → read_be 0 b = Some v → v = be_value b ∧ u64 v.
Proof.
  intros Hb Hr. rewrite read_be_value in Hr by (done || int_lia). cbn zeta in Hr.
  destruct (_ <=? _) eqn:Hle; [|done]. apply Z.leb_le in Hle. simplify_eq.
  pose proof (be_value_range b Hb). unfold u64. lia.
Qed.
End BigEndian.

(** ** What the decoder accepts *)
Module Grammar.
Import Rlp BigEndian.

(** The encodings of an item: the canonical one, and for a single byte below
    [0x80] also the two-byte form. *)
Inductive encodes : Item → bytes → Prop :=
  | enc_string s : encodes (String s) (encode_string s)
  | enc_wide x : 0 ≤ x < 128 → encodes (String [x]) [129; x]
  | enc_list l payload :
      encodes_all l payload →
      encodes (List l) (encode_length (Z.of_nat (length payload)) 192 ++ payload)
with encodes_all : list Item → bytes → Prop :=
  | enc_nil : encodes_all [] []
  | enc_cons i l b bs : encodes i b → encodes_all l bs → encodes_all (i :: l) (b ++ bs).

Scheme encodes_mut := Induction for encodes Sort Prop
  with encodes_all_mut := Induction for encodes_all Sort Prop.

Fixpoint depth (item : Item) : nat :=
  match item with
  | String _ => 0
  | List l => foldr (λ i d, max (S (depth i)) d) 0%nat l
  end.

Definition fits (b : bytes) : Prop := Z.of_nat (length b) ≤ u64_max.

Lemma take_exact_app a b n : n = Z.of_nat (length a) → take_exact (a ++ b) n = Ok a.
Proof.
  intros ->. unfold take_exact. rewrite (proj2 (Z.ltb_ge _ _)) by (rewrite length_app; lia).
  by rewrite Nat2Z.id, take_app_length.
Qed.

Lemma drop_exact_app (a b : bytes) n : n = Z.of_nat (length a) → drop (Z.to_nat n) (a ++ b) = b.
Proof. intros ->. by rewrite Nat2Z.id, drop_app_length. Qed.

Lemma take_exact_ok input n a :
  0 ≤ n → take_exact input n = Ok a →
  input = a ++ drop (Z.to_nat n) input ∧ Z.of_nat (length a) = n.
Proof.
  unfold take_exact. intros Hn. destruct (_ <? _) eqn:Hlt; [done|]. apply Z.ltb_ge in Hlt.
  intros [= <-]. split; [by rewrite take_drop|]. rewrite length_take. lia.
Qed.

(** The long form of a length. *)
Lemma decode_length_value_trim len rest :
  56 ≤ len → u64 len →
  decode_length_value (trim_leading_zeros len ++ rest)
    (Z.of_nat (length (trim_leading_zeros len))) = Ok len.
Proof.
  intros H56 Hu. destruct (trim_spec len Hu) as ([Hb Hh] & Hv & _).
  pose proof (read_be_trim len Hu) as Hread. set (lb := trim_leading_zeros len) in *.
  unfold decode_length_value. rewrite (take_exact_app lb) by done.
  destruct lb as [|x lb]; [unfold be_value in Hv; cbn in Hv; lia|].
  change (default 0 (head (x :: lb))) with x. cbn zeta. assert (x ≠ 0) as Hx by (intros ->; done).
  rewrite (proj2 (Z.eqb_neq x 0)), andb_false_r by done.
  assert ((Z.of_nat (length (x :: lb)) =? 1) && (x <? 56) = false) as ->.
  { apply andb_false_iff. destruct lb as [|y lb]; [right|left; apply Z.eqb_neq; cbn [length]; lia].
    unfold be_value in Hv. cbn in Hv. lia. }
  by rewrite Hread.
Qed.

Lemma decode_length_value_ok tl k len :
  1 ≤ k ≤ 8 → Forall is_byte tl → decode_length_value tl k = Ok len →
  tl = trim_leading_zeros len ++ drop (Z.to_nat k) tl ∧
  Z.of_nat (length (trim_leading_zeros len)) = k ∧ 56 ≤ len ∧ u64 len.
Proof.
  intros Hk Htl. unfold decode_length_value.
  destruct (take_exact tl k) as [lb|] eqn:Htake; [|done].
  apply take_exact_ok in Htake as [Heq Hlen]; [|lia].
  assert (Forall is_byte lb) as Hb by (rewrite Heq in Htl; by apply Forall_app in Htl as [? _]).
  destruct lb as [|x lb]; [cbn in Hlen; lia|]. change (default 0 (head (x :: lb))) with x. cbn zeta.
  destruct ((1 <? k) && (x =? 0)) eqn:H1; [done|]. destruct ((k =? 1) && (x <? 56)) eqn:H2; [done|].
  destruct (read_be 0 (x :: lb)) as [v|] eqn:Hr; [|done]. cbn [ok_or]. intros [= ->].
  apply read_be_ok in Hr as [Hv Hu]; [|done].
  pose proof (Forall_inv Hb) as Hx. unfold is_byte in Hx. pose proof (Forall_inv_tail Hb) as Hlb.
  assert (x ≠ 0 ∧ 56 ≤ len) as [Hx0 H56].
  { rewrite be_value_cons in Hv. destruct lb as [|y lb].
    - cbn [length] in Hlen. unfold be_value in Hv. cbn in Hv. lia.
    - pose proof (be_value_range (y :: lb) Hlb). cbn [length] in Hlen, Hv.
      rewrite Nat2Z.inj_succ, Z.pow_succ_r in Hv by lia.
      assert (0 < 256 ^ Z.of_nat (length lb)) by (apply Z.pow_pos_nonneg; lia).
      assert (x ≠ 0) by lia. split; [done|]. nia. }
  assert (trim_leading_zeros len = x :: lb) as ->.
  { rewrite Hv. apply trim_value; [|lia]. split; [done|]. cbn. congruence. }
  done.
Qed.

Ltac decide_first :=
  repeat match goal with
  | |- context [?a <? ?b] =>
      first [rewrite (proj2 (Z.ltb_lt a b)) by lia | rewrite (proj2 (Z.ltb_ge a b)) by lia]
  | |- context [?a <=? ?b] =>
      first [rewrite (proj2 (Z.leb_le a b)) by lia | rewrite (proj2 (Z.leb_gt a b)) by lia]
  end.

(** A payload behind its length prefix. *)
Lemma decode_at_string levels s rest :
  fits s →
  decode_at (S levels) (encode_length (Z.of_nat (length s)) 128 ++ s ++ rest) =
    Ok (String s, rest).
Proof.
  intros Hs. unfold fits in Hs. unfold encode_length.
  destruct (Z.of_nat (length s) <? 56) eqn:Hlen.
  - apply Z.ltb_lt in Hlen. cbn [decode_at app]. decide_first.
    rewrite Z.add_simpl_l, (take_exact_app s), (drop_exact_app s) by done. done.
  - apply Z.ltb_ge in Hlen. assert (u64 (Z.of_nat (length s))) as Hu by (unfold u64; lia).
    pose proof (decode_length_value_trim _ (s ++ rest) Hlen Hu) as Hd.
    destruct (trim_spec _ Hu) as (_ & Hv & H8). set (lb := trim_leading_zeros _) in *.
    assert (1 ≤ Z.of_nat (length lb)).
    { destruct lb; [unfold be_value in Hv; cbn in Hv; lia|cbn [length]; lia]. }
    cbn [decode_at app]. decide_first.
    replace (128 + 55 + Z.of_nat (length lb) - 183) with (Z.of_nat (length lb)) by lia.
    rewrite Hd. cbn zeta. rewrite (drop_exact_app lb) by done.
    rewrite (take_exact_app s), (drop_exact_app s) by done. done.
Qed.

Lemma decode_at_list levels p rest :
  fits p →
  decode_at (S levels) (encode_length (Z.of_nat (length p)) 192 ++ p ++ rest) =
    let? items := decode_list_items (decode_at levels) (length p) p in Ok (List items, rest).
Proof.
  intros Hs. unfold fits in Hs. unfold encode_length.
  destruct (Z.of_nat (length p) <? 56) eqn:Hlen.
  - apply Z.ltb_lt in Hlen. cbn [decode_at app]. decide_first.
    rewrite Z.add_simpl_l, (take_exact_app p), (drop_exact_app p) by done. done.
  - apply Z.ltb_ge in Hlen. assert (u64 (Z.of_nat (length p))) as Hu by (unfold u64; lia).
    pose proof (decode_length_value_trim _ (p ++ rest) Hlen Hu) as Hd.
    destruct (trim_spec _ Hu) as (_ & Hv & H8). set (lb := trim_leading_zeros _) in *.
    assert (1 ≤ Z.of_nat (length lb)).
    { destruct lb; [unfold be_value in Hv; cbn in Hv; lia|cbn [length]; lia]. }
    cbn [decode_at app]. decide_first.
    replace (192 + 55 + Z.of_nat (length lb) - 247) with (Z.of_nat (length lb)) by lia.
    rewrite Hd. cbn zeta. rewrite (drop_exact_app lb) by done.
    rewrite (take_exact_app p), (drop_exact_app p) by done. done.
Qed.

Lemma length_encode_length len offset : (1 ≤ length (encode_length len offset))%nat.
Proof. unfold encode_length. destruct (_ <? _); cbn [length]; lia. Qed.

Lemma encodes_nonempty i b : encodes i b → (1 ≤ length b)%nat.
Proof.
  destruct 1 as [s|x Hx|l p Hp].
  - pose proof (length_encode_length (Z.of_nat (length s)) 128).
    unfold encode_string. destruct s as [|x [|y s]]; [|destruct (x <? 128); [done|]|];
      rewrite length_app; [done|cbn [length]; lia|lia].
  - cbn [length]. lia.
  - rewrite length_app. pose proof (length_encode_length (Z.of_nat (length p)) 192). lia.
Qed.

Lemma depth_cons i l : depth (List (i :: l)) = max (S (depth i)) (depth (List l)).
Proof. done. Qed.

(** Every encoding is read back. *)
Lemma encodes_decode i b :
  encodes i b → ∀ levels rest, fits b → (depth i < levels)%nat →
  decode_at levels (b ++ rest) = Ok (i, rest).
Proof.
  apply (encodes_mut
    (λ i b _, ∀ levels rest, fits b → (depth i < levels)%nat →
       decode_at levels (b ++ rest) = Ok (i, rest))
    (λ l p _, ∀ levels fuel, fits p → (depth (List l) ≤ levels)%nat → (length p ≤ fuel)%nat →
       decode_list_items (decode_at levels) fuel p = Ok l)); clear i b.
  - intros s [|levels] rest Hf Hd; [lia|]. unfold encode_string in *.
    assert (∀ k, fits (encode_length k 128 ++ s) → fits s) as Hfs.
    { unfold fits. intros k. rewrite length_app. lia. }
    destruct s as [|x [|y s]]; [rewrite <- app_assoc; apply decode_at_string; by eapply Hfs| |].
    + destruct (x <? 128) eqn:Hx; [cbn [decode_at app]; by rewrite Hx|].
      rewrite <- app_assoc. apply (decode_at_string levels [x]). by eapply Hfs.
    + rewrite <- app_assoc. apply decode_at_string. by eapply Hfs.
  - intros x Hx [|levels] rest _ Hd; [lia|]. by apply (decode_at_string levels [x] rest).
  - intros l p _ IH [|levels] rest Hf Hd; [lia|].
    assert (fits p) by (unfold fits in *; rewrite length_app in Hf; lia).
    rewrite <- app_assoc, decode_at_list by done. rewrite IH; [done|done|lia|done].
  - intros levels [|fuel] _ _ _; done.
  - intros i l b bs Hb IHb _ IHbs levels fuel Hf Hd Hfuel.
    pose proof (encodes_nonempty i b Hb) as Hne. unfold fits in *.
    rewrite length_app in Hf, Hfuel. rewrite depth_cons in Hd.
    destruct fuel as [|fuel]; [lia|]. destruct (b ++ bs) as [|z zs] eqn:Hz.
    { apply (f_equal length) in Hz. rewrite length_app in Hz. cbn in Hz. lia. }
    cbn [decode_list_items]. rewrite <- Hz, IHb by lia. rewrite IHbs by lia. done.
Qed.

Lemma encode_length_short len offset : len < 56 → encode_length len offset = [offset + len].
Proof. intros. unfold encode_length. by rewrite (proj2 (Z.ltb_lt _ _)). Qed.

Lemma encode_length_long len offset :
  56 ≤ len →
  encode_length len offset =
    (offset + 55 + Z.of_nat (length (trim_leading_zeros len))) :: trim_leading_zeros len.
Proof. intros. unfold encode_length. by rewrite (proj2 (Z.ltb_ge _ _)). Qed.

Lemma encodes_string s :
  Forall is_byte s → encodes (String s) (encode_length (Z.of_nat (length s)) 128 ++ s).
Proof.
  intros Hs. destruct s as [|x [|y s]]; [apply (enc_string [])| |apply (enc_string (x :: y :: s))].
  destruct (x <? 128) eqn:Hx.
  - apply Z.ltb_lt in Hx. rewrite encode_length_short by (cbn; lia). apply enc_wide.
    apply Forall_inv in Hs. unfold is_byte in Hs. lia.
  - pose proof (enc_string [x]) as He. unfold encode_string in He. by rewrite Hx in He.
Qed.

Lemma decode_list_items_ok levels :
  (∀ input i rest, Forall is_byte input → decode_at levels input = Ok (i, rest) →
     ∃ b, input = b ++ rest ∧ encodes i b ∧ (depth i < levels)%nat) →
  ∀ fuel p l, Forall is_byte p → decode_list_items (decode_at levels) fuel p = Ok l →
    encodes_all l p ∧ (depth (List l) ≤ levels)%nat.
Proof.
  intros Hat fuel. induction fuel as [|fuel IH]; intros p l Hp Hl.
  - destruct p; [|done]. cbn in Hl. simplify_eq. split; [constructor|cbn; lia].
  - destruct p as [|z p]; [cbn in Hl; simplify_eq; split; [constructor|cbn; lia]|].
    cbn [decode_list_items] in Hl.
    destruct (decode_at levels (z :: p)) as [[i rest]|] eqn:Hd; [|done].
    destruct (decode_list_items _ fuel rest) as [items|] eqn:Hi; [|done]. simplify_eq.
    apply Hat in Hd as (b & Heq & Hb & Hdep); [|done]. rewrite Heq in Hp |- *.
    apply Forall_app in Hp as [_ Hrest]. apply IH in Hi as [Hall Hdl]; [|done].
    split; [by constructor|]. rewrite depth_cons. lia.
Qed.

(** A payload taken behind a short or a long prefix. *)
Lemma frame_short tl first offset s :
  Forall is_byte tl → 0 ≤ first - offset < 56 → take_exact tl (first - offset) = Ok s →
  first :: tl = (encode_length (Z.of_nat (length s)) offset ++ s) ++
    drop (Z.to_nat (first - offset)) tl ∧ Forall is_byte s.
Proof.
  intros Htl Hr Ht. apply take_exact_ok in Ht as [Heq Hlen]; [|lia].
  rewrite encode_length_short by lia. rewrite Hlen. split.
  - cbn [app]. f_equal; [lia|done].
  - rewrite Heq in Htl. by apply Forall_app in Htl as [? _].
Qed.

Lemma frame_long tl first offset k len s :
  Forall is_byte tl → k = first - offset - 55 → 1 ≤ k ≤ 8 →
  decode_length_value tl k = Ok len → take_exact (drop (Z.to_nat k) tl) len = Ok s →
  first :: tl = (encode_length (Z.of_nat (length s)) offset ++ s) ++
    drop (Z.to_nat len) (drop (Z.to_nat k) tl) ∧ Forall is_byte s.
Proof.
  intros Htl Hfirst Hr Hl Ht. apply decode_length_value_ok in Hl as (Heq & Hk & H56 & Hu); [|done..].
  apply take_exact_ok in Ht as [Heq2 Hlen]; [|lia].
  rewrite encode_length_long by lia. rewrite Hlen, Hk. split.
  - cbn [app]. f_equal; [lia|]. rewrite <- app_assoc. congruence.
  - rewrite Heq, Heq2 in Htl. apply Forall_app in Htl as [_ Htl].
    by apply Forall_app in Htl as [? _].
Qed.

(** Whatever is read is an encoding of what is returned. *)
Lemma decode_encodes levels : ∀ input i rest,
  Forall is_byte input → decode_at levels input = Ok (i, rest) →
  ∃ b, input = b ++ rest ∧ encodes i b ∧ (depth i < levels)%nat.
Proof.
  induction levels as [|levels IH]; intros input i rest Hin Hd; [done|].
  pose proof (decode_list_items_ok levels IH) as Hitems. clear IH.
  destruct input as [|first tl]; [done|]. cbn [decode_at] in Hd. cbn zeta in Hd.
  inversion Hin as [|? ? Hf Htl]; subst. unfold is_byte in Hf.
  destruct (first <? 128) eqn:H1; [apply Z.ltb_lt in H1|apply Z.ltb_ge in H1].
  { simplify_eq. exists [first]. split; [done|]. split; [|cbn; lia].
    pose proof (enc_string [first]) as He. unfold encode_string in He.
    by rewrite (proj2 (Z.ltb_lt _ _)) in He by done. }
  destruct (first <=? 183) eqn:H2; [apply Z.leb_le in H2|apply Z.leb_gt in H2].
  { destruct (take_exact tl _) as [s|] eqn:Ht; [|done]. injection Hd as <- <-.
    apply (frame_short tl first 128) in Ht as [-> Hs]; [|done|lia].
    eexists. split; [done|]. split; [by apply encodes_string|cbn; lia]. }
  destruct (first <=? 191) eqn:H3; [apply Z.leb_le in H3|apply Z.leb_gt in H3].
  { destruct (decode_length_value tl _) as [len|] eqn:Hl; [|done].
    destruct (take_exact _ len) as [s|] eqn:Ht; [|done]. injection Hd as <- <-.
    apply (frame_long tl first 128 _ len s) in Ht as [-> Hs]; [|done|lia|lia|done].
    eexists. split; [done|]. split; [by apply encodes_string|cbn; lia]. }
  destruct (first <=? 247) eqn:H4; [apply Z.leb_le in H4|apply Z.leb_gt in H4].
  - destruct (take_exact tl _) as [p|] eqn:Ht; [|done].
    destruct (decode_list_items _ _ p) as [l|] eqn:Hl; [|done]. injection Hd as <- <-.
    apply (frame_short tl first 192) in Ht as [-> Hs]; [|done|lia].
    apply Hitems in Hl as [Hl Hdep]; [|done].
    eexists. split; [done|]. split; [by constructor|lia].
  - destruct (decode_length_value tl _) as [len|] eqn:Hl; [|done].
    destruct (take_exact _ len) as [p|] eqn:Ht; [|done].
    destruct (decode_list_items _ _ p) as [l|] eqn:Hi; [|done]. injection Hd as <- <-.
    apply (frame_long tl first 192 _ len p) in Ht as [-> Hs]; [|done|lia|lia|done].
    apply Hitems in Hi as [Hi Hdep]; [|done].
    eexists. split; [done|]. split; [by constructor|lia].
Qed.

Lemma encodes_encode i : encodes i (encode i).
Proof.
  revert i. fix IH 1. intros [s|l]; [constructor|]. cbn [encode]. apply enc_list.
  induction l as [|i l IHl]; [constructor|]. cbn [map concat]. constructor; [apply IH|exact IHl].
Qed.

Lemma decode_of_encodes i b :
  encodes i b → fits b → (depth i ≤ MAX_DEPTH)%nat → decode b = Ok i.
Proof.
  intros He Hf Hd. unfold decode. rewrite <- (app_nil_r b).
  rewrite (encodes_decode i b); [done|done|done|lia].
Qed.

Lemma decode_encode i :
  fits (encode i) → (depth i ≤ MAX_DEPTH)%nat → decode (encode i) = Ok i.
Proof. apply decode_of_encodes, encodes_encode. Qed.

Lemma length_encode_uint n : u64 n → (length (encode_uint n) ≤ 9)%nat.
Proof.
  intros Hn. destruct (trim_spec n Hn) as (_ & _ & H8). unfold encode_uint. cbn [encode].
  unfold encode_string. destruct (trim_leading_zeros n) as [|x [|y s]];
    [|destruct (x <? 128); [cbn; lia|]|];
    rewrite length_app, encode_length_short by (cbn [length] in *; lia); cbn [length] in *; lia.
Qed.
End Grammar.

(** ** Theorems *)
Module RlpProps.
Import Rlp BigEndian Grammar.

(** Encoding and decoding are inverse: an item nested at most 32 lists deep
    whose encoding fits a [usize] is decoded to itself, and a [u64] survives
    the integer encoding. *)
Theorem rlp_roundtrip i n :
  fits (encode i) → (depth i ≤ MAX_DEPTH)%nat → u64 n →
  decode (encode i) = Ok i ∧
  ∃ item, decode (encode_uint n) = Ok item ∧ decode_uint item = Ok n.
Proof.
  intros Hf Hd Hn. split; [by apply decode_encode|]. exists (String (trim_leading_zeros n)).
  destruct (trim_spec n Hn) as ([Hb Hh] & Hv & H8). split.
  - apply decode_encode; [|cbn; lia]. pose proof (length_encode_uint n Hn) as Hl.
    unfold encode_uint in Hl. unfold fits. int_lia.
  - pose proof (read_be_trim n Hn) as Hr. set (s := trim_leading_zeros n) in *.
    unfold decode_uint. cbn [as_bytes]. destruct s as [|x s]; [cbn in Hr; by simplify_eq|].
    change (default 0 (head (x :: s))) with x.
    assert ((x =? 0) = false) as -> by (apply Z.eqb_neq; intros ->; done).
    rewrite andb_false_r, bool_decide_false by done.
    by rewrite (proj2 (Z.ltb_ge _ _)), Hr by lia.
Qed.

(** C38: the decoder accepts exactly the grammar: a byte string is decoded to an
    item if and only if it is one of the item's encodings and the item is
    nested at most 32 lists deep.  The encodings are the canonical one and, for
    a single byte below [0x80] inside the item, the two-byte form [0x81 x],
    which the Yellow Paper does not allow. *)
Theorem rlp_decode_exact b i :
  Forall is_byte b → fits b →
  decode b = Ok i ↔ encodes i b ∧ (depth i ≤ MAX_DEPTH)%nat.
Proof.
  intros Hb Hf. split.
  - unfold decode. destruct (decode_at _ b) as [[j rest]|] eqn:Hd; [|done].
    destruct rest; [|done]. intros [= ->]. apply decode_encodes in Hd as (b' & -> & He & Hdep); [|done].
    rewrite app_nil_r in *. split; [done|lia].
  - intros [He Hd]. by apply decode_of_encodes.
Qed.

(** Two encodings of one byte string. *)
Theorem rlp_single_byte_twice x :
  0 ≤ x < 128 →
  decode [129; x] = Ok (String [x]) ∧ decode [x] = Ok (String [x]) ∧ encode (String [x]) = [x].
Proof.
  intros Hx. assert (encode (String [x]) = [x]) as He.
  { cbn. by rewrite (proj2 (Z.ltb_lt _ _)) by lia. }
  split; [|split; [|done]]; apply decode_of_encodes.
  - by apply enc_wide.
  - unfold fits. cbn [length]. int_lia.
  - cbn. lia.
  - rewrite <- He at 2. apply encodes_encode.
  - unfold fits. cbn [length]. int_lia.
  - cbn. lia.
Qed.
End RlpProps.

(** ** The theorems at concrete inputs *)
Module RlpExamples.
Import Rlp BigEndian Grammar.

(** The list of the strings cat and dog, and a long string. *)
Definition cat_dog : Item := List [String [99; 97; 116]; String [100; 111; 103]].
Definition long : Item := List [cat_dog; String (replicate 60 255)].

Lemma rlp_roundtrip_witness :
  decode (encode long) = Ok long ∧
  ∃ item, decode (encode_uint 1024) = Ok item ∧ decode_uint item = Ok 1024.
Proof.
  apply (RlpProps.rlp_roundtrip long 1024).
  - unfold fits. vm_compute. discriminate.
  - vm_compute. lia.
  - split; vm_compute; discriminate.
Defined.

(** The vector of the Yellow Paper. *)
Lemma rlp_decode_exact_witness :
  decode [200; 131; 99; 97; 116; 131; 100; 111; 103] = Ok cat_dog ↔
  encodes cat_dog [200; 131; 99; 97; 116; 131; 100; 111; 103] ∧ (depth cat_dog ≤ MAX_DEPTH)%nat.
Proof.
  apply (RlpProps.rlp_decode_exact [200; 131; 99; 97; 116; 131; 100; 111; 103] cat_dog).
  - repeat constructor; vm_compute; (discriminate || reflexivity).
  - unfold fits. vm_compute. discriminate.
Defined.
End RlpExamples.
