(* ===== verification/Mpt.v ===== *)
(** * Merkle-Patricia tries

    The verifier of Ethereum's Merkle-Patricia proofs
    ([src/cross_domain/evm/mpt.rs]).  Keccak-256 is the [sha3] crate: a
    parameter of the model, of which only the shape of its digests is used.
    [Trie] is the trie a proof is about, with its lookup and the encoding of
    its nodes. *)
From stdpp Require Import base tactics numbers list gmap.
From Stdlib Require Import ZArith Lia.
From S2P Require Import Prelude Merkle Rlp.
Import Rlp.

Class Keccak := {
  keccak256 : bytes → bytes;
  keccak256_length : ∀ x, length (keccak256 x) = 32%nat;
  keccak256_bytes : ∀ x, Forall BigEndian.is_byte (keccak256 x);
}.

Definition keccak_injective `{Keccak} (xs : list bytes) : Prop :=
  ∀ x y, x ∈ xs → y ∈ xs → keccak256 x = keccak256 y → x = y.

Module Mpt.

Definition MAX_WALK_DEPTH : nat := 128.

Inductive MptError :=
  | KeyNotFound
  | MissingNode
  | RlpFailed (e : RlpError)
  | InvalidNode
  | InvalidHpEncoding
  | InvalidNodeRef
  | PathMismatch
  | TooDeep.

Definition to_nibbles (hash : bytes) : bytes :=
  concat ((λ b, [Z.shiftr b 4; Z.land b 15]) <$> hash).

(** The pairs of [nibbles.chunks(2)], packed. *)
Fixpoint pack (nibbles : bytes) : bytes :=
  match nibbles with
  | a :: b :: nibbles => Z.lor (Z.shiftl a 4 mod 256) b :: pack nibbles
  | _ => []
  end.

Definition hp_encode (nibbles : bytes) (is_leaf : bool) : bytes :=
  let flag := if is_leaf then 2 else 0 in
  if Nat.odd (length nibbles) then
    match nibbles with
    | n :: nibbles => Z.lor (Z.shiftl (flag + 1) 4) n :: pack nibbles
    | [] => []
    end
  else Z.shiftl flag 4 :: pack nibbles.

Definition hp_decode (b : bytes) : result MptError (bool * bytes) :=
  match b with
  | [] => Err InvalidHpEncoding
  | first :: b =>
      let flag_byte := Z.shiftr first 4 in
      if 3 <? flag_byte then Err InvalidHpEncoding
      else
        let is_leaf := negb (Z.land flag_byte 2 =? 0) in
        let odd := negb (Z.land flag_byte 1 =? 0) in
        Ok (is_leaf, (if odd then [Z.land first 15] else []) ++ to_nibbles b)
  end.

Definition rlp_or {A} (r : result RlpError A) : result MptError A := result_map_err RlpFailed r.

Abbreviation node_map := (gmap bytes bytes).

Definition resolve_ref (item : Item) (nodes : node_map) : result MptError Item :=
  match item with
  | String [] => Err KeyNotFound
  | String b =>
      if bool_decide (length b = 32%nat) then
        let? node_bytes := ok_or (nodes !! b) MissingNode in
        rlp_or (decode node_bytes)
      else rlp_or (decode b)
  | List _ => Ok item
  end.

(** [nibbles.starts_with(path)] and the rest of the nibbles. *)
Fixpoint strip_prefix (path nibbles : bytes) : option bytes :=
  match path, nibbles with
  | [], _ => Some nibbles
  | p :: path, n :: nibbles => if p =? n then strip_prefix path nibbles else None
  | _ :: _, [] => None
  end.

(** [levels] is [MAX_WALK_DEPTH + 1 - depth].  A nibble is below 16, so a
    branch has an item at it. *)
Fixpoint walk (levels : nat) (node : Item) (nibbles : bytes) (nodes : node_map) :
    result MptError bytes :=
  match levels with
  | O => Err TooDeep
  | S levels =>
      match node with
      | String [] => Err KeyNotFound
      | List [path_item; second] =>
          let? path_bytes := rlp_or (as_bytes path_item) in
          let? (is_leaf, node_path) := hp_decode path_bytes in
          match strip_prefix node_path nibbles with
          | None => Err PathMismatch
          | Some remaining =>
              if is_leaf then
                match remaining with
                | [] => rlp_or (as_bytes second)
                | _ => Err PathMismatch
                end
              else
                let? child := resolve_ref second nodes in
                walk levels child remaining nodes
          end
      | List items =>
          if bool_decide (length items = 17%nat) then
            match nibbles with
            | [] =>
                match items !! 16%nat with
                | Some (String []) => Err KeyNotFound
                | Some value_slot => rlp_or (as_bytes value_slot)
                | None => Err InvalidNode
                end
            | nibble :: nibbles =>
                let? item := ok_or (items !! Z.to_nat nibble) InvalidNode in
                let? child := resolve_ref item nodes in
                walk levels child nibbles nodes
            end
          else Err InvalidNode
      | String _ => Err InvalidNode
      end
  end.

Section verify.
Context `{Keccak}.

Definition build_map (proof_nodes : list bytes) : node_map :=
  foldl (λ m b, <[keccak256 b := b]> m) ∅ proof_nodes.

Definition verify (proof_nodes : list bytes) (root key : bytes) : result MptError bytes :=
  let nodes := build_map proof_nodes in
  let? root_bytes := ok_or (nodes !! root) MissingNode in
  let? root_item := rlp_or (decode root_bytes) in
  walk (S MAX_WALK_DEPTH) root_item (to_nibbles (keccak256 key)) nodes.
End verify.
End Mpt.

(** ** The tries a proof is about *)
Module Trie.
Import BigEndian Grammar Mpt.

Inductive trie :=
  | Null
  | Leaf (path value : bytes)
  | Extension (path : bytes) (child : trie)
  | Branch (children : list trie) (value : bytes).

(** The value at a path of nibbles. *)
Fixpoint lookup (t : trie) (nibbles : bytes) : option bytes :=
  match t with
  | Null => None
  | Leaf path value => if bool_decide (path = nibbles) then Some value else None
  | Extension path child =>
      match strip_prefix path nibbles with
      | Some rest => lookup child rest
      | None => None
      end
  | Branch children value =>
      match nibbles with
      | [] => if bool_decide (value = []) then None else Some value
      | n :: rest =>
          match map (λ c, lookup c rest) children !! Z.to_nat n with
          | Some r => r
          | None => None
          end
      end
  end.

Section nodes.
Context `{Keccak}.

(** A reference to a node: the node itself if its encoding is shorter than a
    digest, its digest otherwise. *)
Definition reference (item : Item) : Item :=
  if bool_decide (length (encode item) < 32)%nat then item
  else String (keccak256 (encode item)).

Fixpoint node_item (t : trie) : Item :=
  match t with
  | Null => String []
  | Leaf path value => List [String (hp_encode path true); String value]
  | Extension path child =>
      List [String (hp_encode path false); reference (node_item child)]
  | Branch children value =>
      List (map (λ c, reference (node_item c)) children ++ [String value])
  end.

Definition node_bytes (t : trie) : bytes := encode (node_item t).

Definition root (t : trie) : bytes := keccak256 (node_bytes t).

(** All nodes of a trie, and those on a path. *)
Fixpoint subtries (t : trie) : list trie :=
  t :: match t with
       | Null | Leaf _ _ => []
       | Extension _ child => subtries child
       | Branch children _ => concat (map subtries children)
       end.

Definition trie_nodes (t : trie) : list bytes := node_bytes <$> subtries t.

Fixpoint path_nodes (t : trie) (nibbles : bytes) : list bytes :=
  node_bytes t ::
  match t with
  | Null | Leaf _ _ => []
  | Extension path child =>
      match strip_prefix path nibbles with Some rest => path_nodes child rest | None => [] end
  | Branch children _ =>
      match nibbles with
      | [] => []
      | n :: rest => default [] (map (λ c, path_nodes c rest) children !! Z.to_nat n)
      end
  end.
End nodes.

Definition nibble (n : Z) : Prop := 0 ≤ n < 16.

(** Paths of nibbles, sixteen children, extensions that are not empty. *)
Fixpoint wf (t : trie) : Prop :=
  match t with
  | Null => True
  | Leaf path _ => Forall nibble path
  | Extension path child => Forall nibble path ∧ path ≠ [] ∧ wf child
  | Branch children _ => length children = 16%nat ∧ foldr (λ c P, wf c ∧ P) True children
  end.

(** *** Nibbles *)
Lemma pack_byte a b :
  nibble a → nibble b →
  let x := Z.lor (Z.shiftl a 4 mod 256) b in
  Z.shiftr x 4 = a ∧ Z.land x 15 = b.
Proof.
  intros Ha Hb. cbn zeta.
  assert (forallb (λ a, forallb (λ b,
    let x := Z.lor (Z.shiftl a 4 mod 256) b in
    (Z.shiftr x 4 =? a) && (Z.land x 15 =? b)) (seqZ 0 16)) (seqZ 0 16) = true) as Hall
    by (vm_compute; reflexivity).
  assert (∀ n, nibble n → In n (seqZ 0 16)) as Hin.
  { intros n Hn. apply list_elem_of_In, elem_of_seqZ. unfold nibble in Hn. lia. }
  apply (proj1 (forallb_forall _ _)) with (x := a) in Hall; [|by apply Hin].
  apply (proj1 (forallb_forall _ _)) with (x := b) in Hall; [|by apply Hin].
  apply andb_true_iff in Hall as [H1 H2]. by rewrite Z.eqb_eq in H1, H2.
Qed.

Lemma to_nibbles_cons x l : to_nibbles (x :: l) = Z.shiftr x 4 :: Z.land x 15 :: to_nibbles l.
Proof. done. Qed.

Lemma length_to_nibbles l : length (to_nibbles l) = (2 * length l)%nat.
Proof. induction l as [|x l IH]; [done|]. rewrite to_nibbles_cons. cbn [length]. lia. Qed.

Lemma to_nibbles_pack l :
  Forall nibble l → Nat.even (length l) = true → to_nibbles (pack l) = l.
Proof.
  revert l. apply (list_pair_ind (λ l, Forall nibble l → Nat.even (length l) = true →
    to_nibbles (pack l) = l)); [done|done|]. intros a b l IH Hl He.
  inversion Hl as [|? ? Ha Hl1]; subst. inversion Hl1 as [|? ? Hb Hl2]; subst.
  cbn [pack]. rewrite to_nibbles_cons. destruct (pack_byte a b Ha Hb) as [-> ->].
  by rewrite IH.
Qed.

(** The hex-prefix encoding is read back. *)
Lemma hp_roundtrip l leaf : Forall nibble l → hp_decode (hp_encode l leaf) = Ok (leaf, l).
Proof.
  intros Hl. unfold hp_encode. destruct (Nat.odd (length l)) eqn:Hodd.
  - destruct l as [|n l]; [done|]. inversion Hl as [|? ? Hn Hl']; subst.
    change (length (n :: l)) with (S (length l)) in Hodd. rewrite Nat.odd_succ in Hodd.
    assert (Z.lor (Z.shiftl ((if leaf then 2 else 0) + 1) 4) n =
            Z.lor (Z.shiftl ((if leaf then 2 else 0) + 1) 4 mod 256) n) as -> by by destruct leaf.
    destruct (pack_byte ((if leaf then 2 else 0) + 1) n) as [H1 H2];
      [by destruct leaf|done|]. unfold hp_decode. rewrite H1, H2, to_nibbles_pack by done.
    by destruct leaf.
  - unfold hp_decode. rewrite to_nibbles_pack; [by destruct leaf|done|].
    by rewrite <- Nat.negb_odd, Hodd.
Qed.

Lemma strip_prefix_self l : strip_prefix l l = Some [].
Proof. induction l as [|x l IH]; [done|]. cbn. by rewrite Z.eqb_refl. Qed.

Lemma strip_prefix_Some p l r : strip_prefix p l = Some r ↔ l = p ++ r.
Proof.
  revert l. induction p as [|x p IH]; intros l; cbn [strip_prefix app]; [naive_solver|].
  destruct l as [|y l]; [naive_solver|]. destruct (x =? y) eqn:Hxy.
  - apply Z.eqb_eq in Hxy as ->. rewrite IH. naive_solver.
  - apply Z.eqb_neq in Hxy. naive_solver.
Qed.

Lemma to_nibbles_nibble l : Forall is_byte l → Forall nibble (to_nibbles l).
Proof.
  induction 1 as [|x l Hx _ IH]; [constructor|]. rewrite to_nibbles_cons.
  unfold is_byte in Hx. constructor; [|constructor; [|done]]; unfold nibble.
  - rewrite Z.shiftr_div_pow2 by lia. change (2 ^ 4) with 16. div_lia.
  - change 15 with (Z.ones 4). rewrite Z.land_ones by lia. apply Z.mod_pos_bound. lia.
Qed.

(** *** Structure *)
Lemma trie_induction (P : trie → Prop) :
  P Null → (∀ p v, P (Leaf p v)) → (∀ p c, P c → P (Extension p c)) →
  (∀ cs v, Forall P cs → P (Branch cs v)) → ∀ t, P t.
Proof.
  intros Hn Hl He Hb. fix IH 1. intros [|p v|p c|cs v]; [done|done|by apply He, IH|].
  apply Hb. induction cs as [|c cs IHcs]; constructor; [apply IH|exact IHcs].
Qed.

Lemma wf_branch cs v : wf (Branch cs v) ↔ length cs = 16%nat ∧ Forall wf cs.
Proof.
  cbn. apply and_iff_compat_l. clear v. induction cs as [|c cs IH]; cbn; [done|].
  rewrite IH, Forall_cons. done.
Qed.

Lemma subtries_child cs v c : c ∈ cs → subtries c ⊆ subtries (Branch cs v).
Proof.
  intros Hc x Hx. cbn [subtries]. right. apply list_elem_of_In, in_concat. exists (subtries c).
  split; [by apply in_map, list_elem_of_In|by apply list_elem_of_In].
Qed.

Lemma depth_lt_length i : (depth i < length (encode i))%nat.
Proof.
  revert i. fix IH 1. intros [s|l]; cbn [encode depth].
  - apply encodes_nonempty with (i := String s). constructor.
  - rewrite length_app. pose proof (length_encode_length (Z.of_nat (length (concat (map encode l)))) 192).
    enough (foldr (λ i d, max (S (depth i)) d) 0%nat l ≤ length (concat (map encode l)))%nat by lia.
    clear -IH. induction l as [|i l IHl]; [cbn; lia|]. cbn [foldr map concat].
    rewrite length_app. specialize (IH i). lia.
Qed.

Section sound.
Context `{Keccak}.

Lemma reference_depth i : (depth (reference i) ≤ 31)%nat.
Proof.
  unfold reference. case_bool_decide as Hlt; [|cbn; lia]. pose proof (depth_lt_length i). lia.
Qed.

Lemma node_depth t : (depth (node_item t) ≤ MAX_DEPTH)%nat.
Proof.
  unfold MAX_DEPTH. destruct t as [|p v|p c|cs v]; cbn [node_item]; [cbn; lia|cbn; lia| |].
  - rewrite !depth_cons. pose proof (reference_depth (node_item c)). cbn [depth foldr]. lia.
  - cbn [depth]. induction cs as [|c cs IH]; [cbn; lia|]. cbn [map app foldr].
    pose proof (reference_depth (node_item c)). lia.
Qed.

Lemma decode_node t : fits (node_bytes t) → decode (node_bytes t) = Ok (node_item t).
Proof. intros Hf. apply decode_encode; [done|apply node_depth]. Qed.

(** The map of the proof nodes. *)
Lemma build_map_sound nodes h b : build_map nodes !! h = Some b → keccak256 b = h ∧ b ∈ nodes.
Proof.
  unfold build_map. induction nodes as [|x nodes IH] using rev_ind; [done|].
  rewrite foldl_snoc, lookup_insert. case_decide as Hx; [intros [= <-]|intros Hl].
  - split; [done|]. set_solver.
  - apply IH in Hl as [? ?]. split; [done|]. set_solver.
Qed.

Lemma build_map_complete nodes b :
  b ∈ nodes → ∃ b', build_map nodes !! keccak256 b = Some b' ∧ b' ∈ nodes ∧
    keccak256 b' = keccak256 b.
Proof.
  unfold build_map. induction nodes as [|x nodes IH] using rev_ind; intros Hb; [by inversion Hb|].
  rewrite foldl_snoc, lookup_insert. case_decide as Hx; [exists x; set_solver|].
  assert (b ∈ nodes) as Hb' by (apply elem_of_app in Hb as [?|?]; set_solver).
  destruct (IH Hb') as (b' & ? & ? & ?). exists b'. set_solver.
Qed.

Context (nodes : list bytes).
Abbreviation m := (build_map nodes).

(** A reference resolves to the node it stands for, or not at all. *)
Lemma resolve_sound c i :
  keccak_injective (node_bytes c :: nodes) → fits (node_bytes c) →
  resolve_ref (reference (node_item c)) m = Ok i → i = node_item c.
Proof.
  intros Hinj Hf. unfold reference. case_bool_decide as Hlt.
  - destruct c; cbn; congruence.
  - fold (node_bytes c). pose proof (keccak256_length (node_bytes c)) as H32. cbn [resolve_ref].
    destruct (keccak256 (node_bytes c)) as [|x d] eqn:Hd; [done|]. rewrite <- Hd in *.
    rewrite bool_decide_true by done.
    destruct (m !! _) as [b|] eqn:Hb; [|done]. cbn [ok_or].
    apply build_map_sound in Hb as [Hk Hin]. apply Hinj in Hk; [|set_solver..].
    subst b. rewrite decode_node by done. cbn. congruence.
Qed.

Lemma resolve_complete c :
  keccak_injective nodes → fits (node_bytes c) → node_bytes c ∈ nodes → c ≠ Null →
  resolve_ref (reference (node_item c)) m = Ok (node_item c).
Proof.
  intros Hinj Hf Hin Hc. unfold reference. case_bool_decide as Hlt.
  - by destruct c.
  - fold (node_bytes c). pose proof (keccak256_length (node_bytes c)) as H32. cbn [resolve_ref].
    destruct (keccak256 (node_bytes c)) as [|x d] eqn:Hd; [done|]. rewrite <- Hd in *.
    rewrite bool_decide_true by done.
    destruct (build_map_complete nodes _ Hin) as (b & -> & Hb & Hk). cbn [ok_or].
    apply Hinj in Hk; [|done..]. subst b. by rewrite decode_node.
Qed.

(** *** One step of the walk *)
Lemma walk_leaf levels p v nibbles :
  Forall nibble p →
  walk (S levels) (node_item (Leaf p v)) nibbles m =
    if bool_decide (p = nibbles) then Ok v else Err PathMismatch.
Proof.
  intros Hp. cbn [node_item walk as_bytes rlp_or result_map_err]. rewrite hp_roundtrip by done.
  cbn. case_bool_decide as Heq.
  - subst. by rewrite strip_prefix_self.
  - destruct (strip_prefix p nibbles) as [[|x r]|] eqn:Hs; [|done..].
    apply strip_prefix_Some in Hs. rewrite app_nil_r in Hs. congruence.
Qed.

Lemma walk_extension levels p c nibbles :
  Forall nibble p →
  walk (S levels) (node_item (Extension p c)) nibbles m =
    match strip_prefix p nibbles with
    | None => Err PathMismatch
    | Some rest =>
        let? child := resolve_ref (reference (node_item c)) m in walk levels child rest m
    end.
Proof.
  intros Hp. cbn [node_item walk as_bytes rlp_or result_map_err]. by rewrite hp_roundtrip.
Qed.

Lemma walk_branch levels items nibbles :
  length items = 17%nat →
  walk (S levels) (List items) nibbles m =
    match nibbles with
    | [] =>
        match items !! 16%nat with
        | Some (String []) => Err KeyNotFound
        | Some value_slot => rlp_or (as_bytes value_slot)
        | None => Err InvalidNode
        end
    | nibble :: nibbles =>
        let? item := ok_or (items !! Z.to_nat nibble) InvalidNode in
        let? child := resolve_ref item m in
        walk levels child nibbles m
    end.
Proof.
  intros Hl. destruct items as [|i [|j [|k items]]]; [done..|]. cbn [walk].
  by rewrite bool_decide_true by done.
Qed.

Lemma walk_branch_value levels cs v :
  length cs = 16%nat →
  walk (S levels) (node_item (Branch cs v)) [] m =
    if bool_decide (v = []) then Err KeyNotFound else Ok v.
Proof.
  intros Hl. cbn [node_item]. rewrite walk_branch by (rewrite length_app, length_map, Hl; done).
  rewrite lookup_app_r by (rewrite length_map, Hl; done). rewrite length_map, Hl. by destruct v.
Qed.

Lemma walk_branch_child levels cs v n rest :
  length cs = 16%nat → nibble n →
  ∃ c, c ∈ cs ∧ lookup (Branch cs v) (n :: rest) = lookup c rest ∧
    path_nodes (Branch cs v) (n :: rest) = node_bytes (Branch cs v) :: path_nodes c rest ∧
    walk (S levels) (node_item (Branch cs v)) (n :: rest) m =
      let? child := resolve_ref (reference (node_item c)) m in walk levels child rest m.
Proof.
  intros Hl Hn. unfold nibble in Hn.
  destruct (lookup_lt_is_Some_2 cs (Z.to_nat n)) as [c Hc]; [lia|].
  exists c. split; [by eapply list_elem_of_lookup_2|]. split; [|split].
  - cbn [lookup]. change (map ?f cs) with (f <$> cs). by rewrite list_lookup_fmap, Hc.
  - cbn [path_nodes]. change (map ?f cs) with (f <$> cs). by rewrite list_lookup_fmap, Hc.
  - cbn [node_item]. rewrite walk_branch by (rewrite length_app, length_map, Hl; done).
    rewrite lookup_app_l by (rewrite length_map; lia).
    change (map ?f cs) with (f <$> cs). by rewrite list_lookup_fmap, Hc.
Qed.

(** *** The walk against the lookup *)
Definition nodes_ok (t : trie) : Prop :=
  wf t ∧ Forall (λ c, fits (node_bytes c)) (subtries t).

Lemma nodes_ok_self t : nodes_ok t → fits (node_bytes t).
Proof. intros [_ Hf]. destruct t; by apply Forall_inv in Hf. Qed.

Lemma nodes_ok_extension p c : nodes_ok (Extension p c) → nodes_ok c.
Proof. intros [(_ & _ & Hc) Hf]. split; [done|]. by apply Forall_inv_tail in Hf. Qed.

Lemma nodes_ok_child cs v c : nodes_ok (Branch cs v) → c ∈ cs → nodes_ok c.
Proof.
  intros [[_ Hcs]%wf_branch Hf] Hc. split; [by rewrite Forall_forall in Hcs; apply Hcs|].
  rewrite !Forall_forall in *. intros x Hx. apply Hf. by eapply subtries_child.
Qed.

Lemma keccak_injective_mono xs ys : ys ⊆ xs → keccak_injective xs → keccak_injective ys.
Proof. intros Hsub Hinj x y Hx Hy. apply Hinj; by apply Hsub. Qed.

Lemma node_in_trie t : node_bytes t ∈ trie_nodes t.
Proof. unfold trie_nodes. destruct t; cbn; left. Qed.

Lemma trie_nodes_child cs v c : c ∈ cs → trie_nodes c ⊆ trie_nodes (Branch cs v).
Proof.
  intros Hc x (y & -> & Hy)%list_elem_of_fmap. apply list_elem_of_fmap_2.
  by eapply subtries_child.
Qed.

Lemma walk_sound t : nodes_ok t → keccak_injective (trie_nodes t ++ nodes) →
  ∀ levels nibbles v, Forall nibble nibbles → walk levels (node_item t) nibbles m = Ok v →
    lookup t nibbles = Some v.
Proof.
  induction t as [|p v|p c IH|cs v IH] using trie_induction; intros Hok Hinj [|levels] nibbles w
    Hn Hw; try done.
  - destruct Hok as [Hp _]. rewrite walk_leaf in Hw by done. cbn [lookup].
    case_bool_decide; congruence.
  - assert (nodes_ok c) as Hc by by eapply nodes_ok_extension. destruct Hok as [(Hp & _ & _) _].
    assert (trie_nodes c ⊆ trie_nodes (Extension p c)) as Hsub by (intros ? ?; by right).
    rewrite walk_extension in Hw by done. cbn [lookup].
    destruct (strip_prefix p nibbles) as [rest|] eqn:Hs; [|done].
    destruct (resolve_ref _ _) as [i|] eqn:Hr; [|done].
    apply resolve_sound in Hr; [|eapply keccak_injective_mono; [|exact Hinj]|by apply nodes_ok_self].
    + subst i. eapply IH; [done| | |exact Hw].
      * eapply keccak_injective_mono; [|exact Hinj]. set_solver.
      * apply strip_prefix_Some in Hs. subst. by apply Forall_app in Hn as [_ ?].
    + pose proof (node_in_trie c). set_solver.
  - pose proof Hok as [[Hl _]%wf_branch _]. destruct nibbles as [|n rest].
    + rewrite walk_branch_value in Hw by done. cbn [lookup]. case_bool_decide; congruence.
    + inversion Hn as [|? ? Hn1 Hrest]; subst.
      destruct (walk_branch_child levels cs v n rest Hl Hn1) as (c & Hc & Hlk & _ & Hstep).
      rewrite Hstep in Hw. rewrite Hlk. clear Hstep Hlk.
      pose proof (trie_nodes_child cs v c Hc) as Hsub. pose proof (node_in_trie c).
      assert (nodes_ok c) as Hcok by by eapply nodes_ok_child.
      destruct (resolve_ref _ _) as [i|] eqn:Hr; [|done].
      apply resolve_sound in Hr;
        [|eapply keccak_injective_mono; [|exact Hinj]; set_solver|by apply nodes_ok_self].
      subst i. rewrite Forall_forall in IH. eapply IH; [done|done| |done|exact Hw].
      eapply keccak_injective_mono; [|exact Hinj]. set_solver.
Qed.

Lemma path_nodes_self t nibbles : node_bytes t ∈ path_nodes t nibbles.
Proof. destruct t; cbn [path_nodes]; left. Qed.

Lemma walk_complete t : nodes_ok t → keccak_injective nodes →
  ∀ levels nibbles v, Forall nibble nibbles → (length nibbles < levels)%nat →
    path_nodes t nibbles ⊆ nodes → lookup t nibbles = Some v →
    walk levels (node_item t) nibbles m = Ok v.
Proof.
  intros Hok Hinj. revert Hok.
  induction t as [|p v|p c IH|cs v IH] using trie_induction; intros Hok [|levels] nibbles w
    Hn Hlt Hsub Hlk; try done; try lia.
  - destruct Hok as [Hp _]. rewrite walk_leaf by done. cbn [lookup] in Hlk.
    case_bool_decide; congruence.
  - assert (nodes_ok c) as Hc by by eapply nodes_ok_extension.
    destruct Hok as [(Hp & Hpne & _) _]. rewrite walk_extension by done.
    cbn [lookup path_nodes] in Hlk, Hsub.
    destruct (strip_prefix p nibbles) as [rest|] eqn:Hs; [|done].
    pose proof (path_nodes_self c rest). apply strip_prefix_Some in Hs. subst nibbles.
    rewrite length_app in Hlt. apply Forall_app in Hn as [_ Hn].
    rewrite resolve_complete; [|done|by apply nodes_ok_self|set_solver|by intros ->].
    apply IH; [done|done| |set_solver|done]. destruct p; [done|]. cbn in Hlt. lia.
  - pose proof Hok as [[Hl _]%wf_branch _]. destruct nibbles as [|n rest].
    + rewrite walk_branch_value by done. cbn [lookup] in Hlk. case_bool_decide; congruence.
    + inversion Hn as [|? ? Hn1 Hrest]; subst. cbn in Hlt.
      destruct (walk_branch_child levels cs v n rest Hl Hn1) as (c & Hc & Hlk' & Hpath & ->).
      rewrite Hlk' in Hlk. rewrite Hpath in Hsub. pose proof (path_nodes_self c rest).
      assert (nodes_ok c) as Hcok by by eapply nodes_ok_child.
      rewrite resolve_complete; [|done|by apply nodes_ok_self|set_solver|by intros ->].
      rewrite Forall_forall in IH. apply IH; [done|done|done|lia|set_solver|done].
Qed.

Lemma verify_lookup t key v :
  nodes_ok t → keccak_injective (trie_nodes t ++ nodes) →
  verify nodes (root t) key = Ok v → lookup t (to_nibbles (keccak256 key)) = Some v.
Proof.
  intros Hok Hinj. unfold verify.
  destruct (build_map nodes !! root t) as [b|] eqn:Hb; [|done]. cbn [ok_or].
  apply build_map_sound in Hb as [Hk Hin]. pose proof (node_in_trie t).
  apply Hinj in Hk; [|set_solver..]. subst b.
  rewrite decode_node by by apply nodes_ok_self. cbn [rlp_or result_map_err].
  apply walk_sound; [done|done|]. apply to_nibbles_nibble, keccak256_bytes.
Qed.
(** No proof about a receipts trie of Ethereum is ever accepted.  Such a
    trie is keyed by the RLP of the transaction index itself, while [verify]
    walks the digest of the key; the paths of a receipts trie have at most 18
    nibbles and the walk needs 64. *)
Lemma receipts_trie_refused t key :
  nodes_ok t → keccak_injective (trie_nodes t ++ nodes) →
  (∀ p v, lookup t p = Some v → ∃ i, u64 i ∧ p = to_nibbles (encode_uint i)) →
  is_ok (verify nodes (root t) key) = false.
Proof.
  intros Hok Hinj Hkeys. destruct (verify nodes (root t) key) as [v|] eqn:Hv; [|done].
  apply verify_lookup, Hkeys in Hv as (i & Hi & Heq); [|done..]. apply (f_equal length) in Heq.
  rewrite !length_to_nibbles, keccak256_length in Heq. pose proof (length_encode_uint i Hi). lia.
Qed.

(** Two accepted proofs under one root agree. *)
Lemma resolve_agree nodes2 i j1 j2 :
  keccak_injective (nodes ++ nodes2) →
  resolve_ref i m = Ok j1 → resolve_ref i (build_map nodes2) = Ok j2 → j1 = j2.
Proof.
  intros Hinj. destruct i as [[|x b]|l]; cbn [resolve_ref]; [done| |congruence].
  case_bool_decide; [|congruence].
  destruct (m !! (x :: b)) as [b1|] eqn:H1; [|done].
  destruct (build_map nodes2 !! (x :: b)) as [b2|] eqn:H2; [|done]. cbn [ok_or].
  apply build_map_sound in H1 as [Hk1 Hin1]. apply build_map_sound in H2 as [Hk2 Hin2].
  assert (b1 = b2) as -> by (apply Hinj; [set_solver..|congruence]). congruence.
Qed.

Lemma walk_agree nodes2 l1 : keccak_injective (nodes ++ nodes2) →
  ∀ l2 i nibbles v1 v2, walk l1 i nibbles m = Ok v1 →
    walk l2 i nibbles (build_map nodes2) = Ok v2 → v1 = v2.
Proof.
  intros Hinj. induction l1 as [|l1 IH]; intros [|l2] i nibbles v1 v2 H1 H2; [done..|].
  cbn [walk] in H1, H2. destruct i as [[|x b]|items]; [done..|].
  assert (∀ it rest,
    (let? child := resolve_ref it m in walk l1 child rest m) = Ok v1 →
    (let? child := resolve_ref it (build_map nodes2) in walk l2 child rest (build_map nodes2)) =
      Ok v2 → v1 = v2) as Hgo.
  { intros it rest G1 G2. destruct (resolve_ref it m) as [c1|] eqn:E1; [|done].
    destruct (resolve_ref it (build_map nodes2)) as [c2|] eqn:E2; [|done].
    assert (c1 = c2) as -> by by eapply resolve_agree. by eapply IH. }
  clear IH. destruct items as [|a [|b [|c items]]]; [done..| |].
  - destruct (rlp_or (as_bytes a)) as [pb|]; [|done].
    destruct (hp_decode pb) as [[leaf path]|]; [|done].
    destruct (strip_prefix path nibbles) as [rest|]; [|done]. destruct leaf; [|by eapply Hgo].
    destruct rest; [congruence|done].
  - case_bool_decide; [|done]. destruct nibbles as [|n rest].
    + destruct (_ !! 16%nat) as [[[|]|]|]; congruence.
    + destruct (_ !! Z.to_nat n) as [it|]; [|done]. cbn [ok_or] in H1, H2.
      exact (Hgo it rest H1 H2).
Qed.

Lemma verify_agree nodes2 root key v1 v2 :
  keccak_injective (nodes ++ nodes2) →
  verify nodes root key = Ok v1 → verify nodes2 root key = Ok v2 → v1 = v2.
Proof.
  intros Hinj. unfold verify.
  destruct (m !! root) as [b1|] eqn:H1; [|done].
  destruct (build_map nodes2 !! root) as [b2|] eqn:H2; [|done]. cbn [ok_or].
  apply build_map_sound in H1 as [Hk1 Hin1]. apply build_map_sound in H2 as [Hk2 Hin2].
  assert (b1 = b2) as -> by (apply Hinj; [set_solver..|congruence]).
  destruct (rlp_or (decode b2)) as [i|]; [|done]. by apply walk_agree.
Qed.
End sound.
End Trie.

(** ** Theorems *)
Module MptProps.
Import BigEndian Grammar Mpt Trie.

Section props.
Context `{Keccak}.

(** C36: an accepted proof tells the truth.  Whatever nodes a relayer supplies,
    if [verify] returns a value for a key under the root of a trie, the trie
    holds that value at the digest of the key, unless two of the nodes collide
    under Keccak. *)
Theorem mpt_verify_sound t nodes key v :
  nodes_ok t → keccak_injective (trie_nodes t ++ nodes) →
  verify nodes (root t) key = Ok v → lookup t (to_nibbles (keccak256 key)) = Some v.
Proof. apply verify_lookup. Qed.

(** C37: a proof with the nodes on the path of the key is accepted: the walk
    reaches the value within its 128 levels. *)
Theorem mpt_verify_complete t nodes key v :
  nodes_ok t → keccak_injective nodes → path_nodes t (to_nibbles (keccak256 key)) ⊆ nodes →
  lookup t (to_nibbles (keccak256 key)) = Some v → verify nodes (root t) key = Ok v.
Proof.
  intros Hok Hinj Hsub Hlk. unfold verify.
  pose proof (path_nodes_self t (to_nibbles (keccak256 key))) as Hself.
  destruct (build_map_complete nodes (node_bytes t)) as (b & Hb & Hin & Hk); [set_solver|].
  unfold root. rewrite Hb. cbn [ok_or]. apply Hinj in Hk; [|set_solver..]. subst b.
  rewrite decode_node by by apply nodes_ok_self. cbn [rlp_or result_map_err].
  apply walk_complete; [done|done| | |done|done].
  - apply to_nibbles_nibble, keccak256_bytes.
  - rewrite length_to_nibbles, keccak256_length. unfold MAX_WALK_DEPTH. lia.
Qed.

End props.
End MptProps.

(** ** The theorems at concrete inputs *)
Module MptExamples.
Import BigEndian Grammar Mpt Trie.

Definition poly_keccak : Keccak.
Proof.
  refine {| keccak256 := poly_hash |}; intros x; [apply length_le_bytes|apply le_bytes_bytes].
Defined.
#[local] Existing Instance poly_keccak.

(** Two keys that differ in the first nibble of their digests. *)
Definition path (key : bytes) : bytes := to_nibbles (keccak256 key).
Definition v1 : bytes := [10; 11; 12].
Definition t2 : trie :=
  Branch (Leaf (tail (path [1])) v1 :: Leaf (tail (path [9])) [20] :: replicate 14 Null) [].

Definition proof_nodes : list bytes := path_nodes t2 (path [1]).

Lemma path_nibble key : Forall nibble (path key).
Proof. apply to_nibbles_nibble, keccak256_bytes. Qed.

Lemma leaf_path_nibble key : Forall nibble (tail (path key)).
Proof. pose proof (path_nibble key) as Hp. destruct (path key); [done|]. by inversion Hp. Qed.

Lemma t2_ok : nodes_ok t2.
Proof.
  split.
  - apply wf_branch. split; [done|]. unfold t2. constructor; [apply leaf_path_nibble|].
    constructor; [apply leaf_path_nibble|]. apply Forall_replicate. done.
  - apply Forall_forall. intros c Hc.
    assert (Forall (λ c, bool_decide (length (node_bytes c) < 1000)%nat = true) (subtries t2)) as Hall.
    { repeat constructor. }
    rewrite Forall_forall in Hall. specialize (Hall c Hc). apply bool_decide_eq_true in Hall.
    unfold fits. int_lia.
Qed.

Definition keccak_distinct (xs : list bytes) : bool :=
  forallb (λ x, forallb (λ y, bool_decide (x = y) || negb (bool_decide (keccak256 x = keccak256 y))) xs) xs.

Lemma keccak_distinct_spec xs : keccak_distinct xs = true → keccak_injective xs.
Proof.
  intros Hd x y Hx Hy Heq. unfold keccak_distinct in Hd.
  apply (proj1 (forallb_forall _ _)) with (x := x) in Hd; [|by apply list_elem_of_In].
  apply (proj1 (forallb_forall _ _)) with (x := y) in Hd; [|by apply list_elem_of_In].
  rewrite (bool_decide_true (keccak256 x = keccak256 y)) in Hd by done.
  rewrite orb_false_r in Hd. by apply bool_decide_eq_true in Hd.
Qed.

Lemma verify_result : verify proof_nodes (root t2) [1] = Ok v1.
Proof. vm_compute. reflexivity. Qed.

Lemma mpt_verify_sound_witness : lookup t2 (to_nibbles (keccak256 [1])) = Some v1.
Proof.
  apply (MptProps.mpt_verify_sound t2 proof_nodes [1] v1).
  - exact t2_ok.
  - apply keccak_distinct_spec. vm_compute. reflexivity.
  - exact verify_result.
Defined.

Lemma mpt_verify_complete_witness : verify proof_nodes (root t2) [1] = Ok v1.
Proof.
  apply (MptProps.mpt_verify_complete t2 proof_nodes [1] v1).
  - exact t2_ok.
  - apply keccak_distinct_spec. vm_compute. reflexivity.
  - intros x Hx. exact Hx.
  - vm_compute. reflexivity.
Defined.

(** The trie of a block with one transaction: its receipt sits at the RLP of 0. *)
Definition receipts : trie := Leaf (to_nibbles (encode_uint 0)) v1.

Lemma receipts_example_refused :
  lookup receipts (to_nibbles (encode_uint 0)) = Some v1 ∧
  is_ok (verify [node_bytes receipts] (root receipts) (encode_uint 0)) = false.
Proof.
  split; [vm_compute; reflexivity|].
  apply (receipts_trie_refused [node_bytes receipts] receipts (encode_uint 0)).
  - split.
    + apply to_nibbles_nibble. constructor; [|constructor]. vm_compute. split; [discriminate|reflexivity].
    + repeat constructor. unfold fits. vm_compute. discriminate.
  - apply keccak_distinct_spec. vm_compute. reflexivity.
  - intros p v Hl. exists 0. split; [split; vm_compute; discriminate|].
    unfold receipts in Hl. cbn [lookup] in Hl.
    destruct (bool_decide (to_nibbles (encode_uint 0) = p)) eqn:Hp; [|discriminate Hl].
    apply bool_decide_eq_true in Hp. symmetry. exact Hp.
Qed.
End MptExamples.
