(* ===== verification/Evm.v ===== *)
(** * Deposits of Ethereum

    The on-chain verifier of Ethereum deposits ([src/cross_domain/evm/]):
    headers and confirmations ([header.rs]), receipts ([receipt.rs]), the sync
    committee ([sync_committee.rs]), the deposit check that composes them with
    the trie verifier ([verify.rs]), the adapter a relayer runs
    ([adapter.rs]) and the claim of the other direction ([bud_to_eth.rs]).

    The curve arithmetic is the [bls12_381] crate, and the decoding of a
    deposit package is [bincode]: both are parameters. *)
From stdpp Require Import base tactics numbers list gmap strings sorting.
From Stdlib Require Import ZArith Lia.
From S2P Require Import Prelude Merkle Messages Bridge Domains Rlp Mpt.
Import Rlp.

(** ** Headers *)
Module Header.

Record EthHeader := {
  parent_hash : Hash32;
  number : Z;
  state_root : Hash32;
  receipts_root : Hash32;
  hash : Hash32;
}.

Inductive HeaderError :=
  | HeaderRlp (e : RlpError)
  | InvalidHeader
  | ChainBroken
  | InsufficientConfirmations
  | ZeroConfirmations.

Definition DEFAULT_CONFIRMATIONS : Z := 64.

Definition arr32 (b : bytes) : result HeaderError Hash32 :=
  if bool_decide (length b = 32%nat) then Ok b else Err InvalidHeader.

Definition field (l : list Item) (i : nat) : Item := default (String []) (l !! i).

Definition bytes_field (l : list Item) (i : nat) : result HeaderError bytes :=
  result_map_err HeaderRlp (as_bytes (field l i)).

Definition decode_header `{Keccak} (raw : bytes) : result HeaderError EthHeader :=
  let? item := result_map_err HeaderRlp (decode raw) in
  match item with
  | String _ => Err InvalidHeader
  | List l =>
      if (length l <? 9)%nat then Err InvalidHeader
      else
        let? b := bytes_field l 0 in
        let? parent_hash := arr32 b in
        let? b := bytes_field l 3 in
        let? state_root := arr32 b in
        let? b := bytes_field l 5 in
        let? receipts_root := arr32 b in
        let? number := result_map_err HeaderRlp (decode_uint (field l 8)) in
        Ok {| parent_hash := parent_hash; number := number; state_root := state_root;
              receipts_root := receipts_root; hash := keccak256 raw |}
  end.

(** The loop over the confirmations. *)
Fixpoint verify_links (prev_hash : Hash32) (prev_number : Z) (confirmations : list EthHeader) :
    result HeaderError () :=
  match confirmations with
  | [] => Ok ()
  | hdr :: confirmations =>
      if bool_decide (parent_hash hdr ≠ prev_hash) then Err ChainBroken
      else if bool_decide (Some (number hdr) ≠ u64_checked_add prev_number 1) then Err ChainBroken
      else verify_links (hash hdr) (number hdr) confirmations
  end.

(** The number of confirmations is cast to [u32]. *)
Definition verify_chain (target : EthHeader) (confirmations : list EthHeader) (required : Z) :
    result HeaderError () :=
  if required =? 0 then Err ZeroConfirmations
  else if Z.of_nat (length confirmations) mod 2 ^ 32 <? required
  then Err InsufficientConfirmations
  else verify_links (hash target) (number target) confirmations.
End Header.

(** ** Receipts *)
Module Receipt.

Record EthLog := { address : bytes; topics : list Hash32; data : bytes }.
Record EthReceipt := { status : bool; logs : list EthLog }.

Inductive ReceiptError :=
  | ReceiptRlp (e : RlpError)
  | InvalidEnvelope
  | InvalidLog.

Definition item_bytes (i : Item) : result ReceiptError bytes :=
  result_map_err ReceiptRlp (as_bytes i).

Definition decode_status (b : bytes) : result ReceiptError bool :=
  match b with
  | [] => Ok false
  | [x] => Ok (negb (x =? 0))
  | _ => if bool_decide (length b = 32%nat) then Ok true else Err InvalidEnvelope
  end.

Fixpoint decode_topics (l : list Item) : result ReceiptError (list Hash32) :=
  match l with
  | [] => Ok []
  | t :: l =>
      let? tb := item_bytes t in
      if bool_decide (length tb ≠ 32%nat) then Err InvalidLog
      else let? ts := decode_topics l in Ok (tb :: ts)
  end.

(** One iteration of the loop over the logs. *)
Definition decode_log (log_item : Item) : result ReceiptError EthLog :=
  match log_item with
  | List [f0; f1; f2] =>
      let? address := item_bytes f0 in
      let? topics := match f1 with List tl => decode_topics tl | String _ => Err InvalidLog end in
      let? data := item_bytes f2 in
      Ok {| address := address; topics := topics; data := data |}
  | _ => Err InvalidLog
  end.

Fixpoint decode_log_items (l : list Item) : result ReceiptError (list EthLog) :=
  match l with
  | [] => Ok []
  | i :: l =>
      let? log := decode_log i in
      let? logs := decode_log_items l in
      Ok (log :: logs)
  end.

Definition decode_logs (item : Item) : result ReceiptError (list EthLog) :=
  match item with List l => decode_log_items l | String _ => Err InvalidLog end.

Definition decode_receipt (envelope : bytes) : result ReceiptError EthReceipt :=
  match envelope with
  | [] => Err InvalidEnvelope
  | first :: tl =>
      let payload := if 192 <=? first then envelope else tl in
      let? item := result_map_err ReceiptRlp (decode payload) in
      match item with
      | List (i0 :: _ :: _ :: i3 :: _) =>
          let? b := item_bytes i0 in
          let? status := decode_status b in
          let? logs := decode_logs i3 in
          Ok {| status := status; logs := logs |}
      | _ => Err InvalidEnvelope
      end
  end.

Definition find_log (r : EthReceipt) (emitter : bytes) (topic0 : Hash32) : option EthLog :=
  snd <$> list_find (λ l, address l = emitter ∧ head (topics l) = Some topic0) (logs r).
End Receipt.

(** ** The sync committee *)

(** What the verifier uses of the curve: decompression, the subgroup checks,
    the sum of public keys, the hash to the curve and the check
    [e(pk, h) = e(g1, sig)]. *)
Class Bls := {
  G1 : Type;
  G2 : Type;
  g1_from_compressed : bytes → option G1;
  g1_is_torsion_free : G1 → bool;
  g1_is_identity : G1 → bool;
  g1_identity : G1;
  g1_add : G1 → G1 → G1;
  g2_from_compressed : bytes → option G2;
  g2_is_torsion_free : G2 → bool;
  g2_is_identity : G2 → bool;
  hash_to_g2 : bytes → G2;
  pairing_equal : G1 → G2 → G2 → bool;
}.

Module SyncCommittee.

Inductive SyncCommitteeError :=
  | InvalidPubkey
  | InvalidSignature
  | InsufficientParticipation (participating threshold : nat)
  | SignatureVerificationFailed
  | StateMismatch
  | HeaderMismatch
  | ExecutionBlockNotInBeaconBody
  | PeriodMismatch (slot_period state_period : Z).

Definition SYNC_COMMITTEE_SIZE : nat := 512.
Definition PARTICIPATION_THRESHOLD : nat := SYNC_COMMITTEE_SIZE * 2 / 3 + 1.

Record SyncCommitteeState := {
  current_period : Z;
  current_sync_committee : list bytes;
  next_sync_committee : list bytes;
}.

Record SyncAggregate := {
  sync_committee_bits : bytes;
  sync_committee_signature : bytes;
}.

(** [u8::count_ones]. *)
Definition count_ones (b : Z) : nat := length (filter (λ i, Z.testbit b i = true) (seqZ 0 8)).

Definition participation_count (a : SyncAggregate) : nat :=
  sum_list (count_ones <$> sync_committee_bits a).

(** The bitmap has [SYNC_COMMITTEE_SIZE / 8] bytes. *)
Definition signed (a : SyncAggregate) (index : nat) : bool :=
  if (SYNC_COMMITTEE_SIZE <=? index)%nat then false
  else
    let byte := default 0 (sync_committee_bits a !! (index / 8)%nat) in
    Z.land (Z.shiftr byte (Z.of_nat (index mod 8))) 1 =? 1.

Section aggregate.
Context `{Bls}.

(** The loop over the committee, from member [i] on. *)
Fixpoint sum_pubkeys (a : SyncAggregate) (i : nat) (keys : list bytes) (agg : G1) :
    result SyncCommitteeError G1 :=
  match keys with
  | [] => Ok agg
  | pk :: keys =>
      if negb (signed a i) then sum_pubkeys a (S i) keys agg
      else
        let? p := ok_or (g1_from_compressed pk) InvalidPubkey in
        if negb (g1_is_torsion_free p) || g1_is_identity p then Err InvalidPubkey
        else sum_pubkeys a (S i) keys (g1_add agg p)
  end.

Definition verify_sync_aggregate (s : SyncCommitteeState) (a : SyncAggregate)
    (signing_message : bytes) : result SyncCommitteeError () :=
  let participating := participation_count a in
  if (participating <? PARTICIPATION_THRESHOLD)%nat
  then Err (InsufficientParticipation participating PARTICIPATION_THRESHOLD)
  else
    let? agg_pk := sum_pubkeys a 0 (current_sync_committee s) g1_identity in
    if g1_is_identity agg_pk then Err InvalidPubkey
    else
      let? sig := ok_or (g2_from_compressed (sync_committee_signature a)) InvalidSignature in
      if negb (g2_is_torsion_free sig) || g2_is_identity sig then Err InvalidSignature
      else if negb (pairing_equal agg_pk (hash_to_g2 signing_message) sig)
      then Err SignatureVerificationFailed
      else Ok ().
End aggregate.

Definition SLOTS_PER_SYNC_COMMITTEE_PERIOD : Z := 256 * 32.
Definition DOMAIN_SYNC_COMMITTEE : bytes := [7; 0; 0; 0].
Definition EXECUTION_BLOCK_HASH_GINDEX : Z := 812.

Record BeaconChainParams := {
  fork_version : bytes;
  genesis_validators_root : Hash32;
}.

Record BeaconBinding := {
  slot : Z;
  proposer_index : Z;
  parent_root : Hash32;
  b_state_root : Hash32;
  body_root : Hash32;
  execution_block_hash_branch : list Hash32;
}.

Section beacon.
Context `{Sha256}.

Definition sha256_pair (left right : Hash32) : Hash32 := sha256 (left ++ right).

Definition u64_chunk (value : Z) : Hash32 := le_bytes 8 value ++ replicate 24 0.

(** Doubling from 1 until the chunks fit. *)
Fixpoint chunk_width (fuel width len : nat) : nat :=
  match fuel with
  | O => width
  | S fuel => if (width <? len)%nat then chunk_width fuel (2 * width) len else width
  end.

Fixpoint pair_layer (layer : list Hash32) : list Hash32 :=
  match layer with
  | a :: b :: layer => sha256_pair a b :: pair_layer layer
  | _ => []
  end.

Fixpoint reduce_layers (fuel : nat) (layer : list Hash32) : list Hash32 :=
  match fuel, layer with
  | S fuel, _ :: _ :: _ => reduce_layers fuel (pair_layer layer)
  | _, _ => layer
  end.

(** Both loops run at most once per chunk. *)
Definition merkleize_chunks (chunks : list Hash32) : Hash32 :=
  let len := length chunks in
  let width := chunk_width len 1 len in
  let layer := chunks ++ replicate (width - len) zero32 in
  default zero32 (head (reduce_layers len layer)).

Definition period (b : BeaconBinding) : Z := slot b / SLOTS_PER_SYNC_COMMITTEE_PERIOD.

Definition beacon_header_root (b : BeaconBinding) : Hash32 :=
  merkleize_chunks [u64_chunk (slot b); u64_chunk (proposer_index b); parent_root b;
                    b_state_root b; body_root b].

Definition sync_domain (params : BeaconChainParams) : Hash32 :=
  let fork_version_chunk := fork_version params ++ replicate 28 0 in
  let fork_data_root := sha256_pair fork_version_chunk (genesis_validators_root params) in
  DOMAIN_SYNC_COMMITTEE ++ take 28 fork_data_root.

Definition signing_root (b : BeaconBinding) (params : BeaconChainParams) : Hash32 :=
  sha256_pair (beacon_header_root b) (sync_domain params).

(** The walk up an SSZ branch. *)
Fixpoint walk_branch (index : Z) (level : nat) (node : Hash32) (branch : list Hash32) : Hash32 :=
  match branch with
  | [] => node
  | sibling :: branch =>
      let node := if Z.land (Z.shiftr index (Z.of_nat level)) 1 =? 1
                  then sha256_pair sibling node else sha256_pair node sibling in
      walk_branch index (S level) node branch
  end.

Definition commits_to_execution_block (b : BeaconBinding) (execution_block_hash : Hash32) : bool :=
  let depth := Z.log2 EXECUTION_BLOCK_HASH_GINDEX in
  if negb (Z.of_nat (length (execution_block_hash_branch b)) =? depth) then false
  else
    let index := EXECUTION_BLOCK_HASH_GINDEX - Z.shiftl 1 depth in
    bool_decide (walk_branch index 0 execution_block_hash (execution_block_hash_branch b) =
                 body_root b).

Definition verify_execution_block_finality `{Bls} (s : SyncCommitteeState) (a : SyncAggregate)
    (b : BeaconBinding) (params : BeaconChainParams) (execution_block_hash : Hash32) :
    result SyncCommitteeError () :=
  if negb (commits_to_execution_block b execution_block_hash)
  then Err ExecutionBlockNotInBeaconBody
  else
    let slot_period := period b in
    if negb (slot_period =? current_period s)
    then Err (PeriodMismatch slot_period (current_period s))
    else verify_sync_aggregate s a (signing_root b params).
End beacon.

Definition rotate_period (s : SyncCommitteeState) : SyncCommitteeState :=
  {| current_period := u64_sat_add (current_period s) 1;
     current_sync_committee := next_sync_committee s;
     next_sync_committee := next_sync_committee s |}.
End SyncCommittee.

(** ** The deposit check *)
Module Deposit.
Import Header Receipt SyncCommittee.

Inductive VerifyError :=
  | BadHeader (e : HeaderError)
  | BelowFloor (demanded floor : Z)
  | BadProof (e : Mpt.MptError)
  | BadReceipt (e : ReceiptError)
  | TxFailed
  | EmptyTransactionHash
  | LogNotFound
  | PayloadMismatch
  | BadAttestation (e : SyncCommitteeError).

Record VerifiedDeposit := {
  v_tx_hash : str;
  v_block_hash : Hash32;
  v_receipt_key : bytes;
  v_deposit_log_data : bytes;
  v_block_number : Z;
  v_receipts_root : Hash32;
}.

Record SyncAttestation := {
  a_state : SyncCommitteeState;
  a_aggregate : SyncAggregate;
  a_beacon : BeaconBinding;
  a_chain : BeaconChainParams;
}.

Record EvmDepositProof := {
  target_header : bytes;
  confirmation_headers : list bytes;
  required_confirmations : Z;
  proof_nodes : list bytes;
  receipt_key : bytes;
  tx_hash : str;
  emitter_address : bytes;
  deposit_topic0 : Hash32;
  sync_attestation : option SyncAttestation;
}.

Record DepositProofPackage := {
  p_target_header : bytes;
  p_confirmation_headers : list bytes;
  p_proof_nodes : list bytes;
  p_receipt_key : bytes;
  p_tx_hash : str;
}.

Section verify.
Context `{Keccak, Sha256, Bls}.

Definition decode_header_or_err (raw : bytes) : result VerifyError EthHeader :=
  result_map_err BadHeader (decode_header raw).

Fixpoint decode_headers (raws : list bytes) : result VerifyError (list EthHeader) :=
  match raws with
  | [] => Ok []
  | raw :: raws =>
      let? h := decode_header_or_err raw in
      let? hs := decode_headers raws in
      Ok (h :: hs)
  end.

Definition check_attestation (a : option SyncAttestation) (block_hash : Hash32) :
    result VerifyError () :=
  match a with
  | Some a =>
      result_map_err BadAttestation
        (verify_execution_block_finality (a_state a) (a_aggregate a) (a_beacon a) (a_chain a)
           block_hash)
  | None => Ok ()
  end.

Definition verify_evm_receipt (proof : EvmDepositProof) : result VerifyError VerifiedDeposit :=
  if bool_decide (tx_hash proof = []) then Err EmptyTransactionHash
  else
    let? target := decode_header_or_err (target_header proof) in
    let? confs := decode_headers (confirmation_headers proof) in
    let? _ := result_map_err BadHeader
                (verify_chain target confs (required_confirmations proof)) in
    let? receipt_bytes := result_map_err BadProof
                (Mpt.verify (proof_nodes proof) (receipts_root target) (receipt_key proof)) in
    let? receipt := result_map_err BadReceipt (decode_receipt receipt_bytes) in
    if negb (status receipt) then Err TxFailed
    else
      let? log := ok_or (find_log receipt (emitter_address proof) (deposit_topic0 proof))
                        LogNotFound in
      let? _ := check_attestation (sync_attestation proof) (hash target) in
      Ok {| v_tx_hash := tx_hash proof; v_block_hash := hash target;
            v_receipt_key := receipt_key proof; v_deposit_log_data := data log;
            v_block_number := number target; v_receipts_root := receipts_root target |}.
End verify.
End Deposit.

(** ** The adapter *)
Module Adapter.
Import Header Deposit.

Record EvmChainAdapter := {
  bridge_address : bytes;
  adapter_topic0 : Hash32;
  adapter_confirmations : Z;
}.

Inductive AdapterError :=
  | BadAddressLength
  | ZeroBridgeAddress
  | ZeroDepositTopic
  | NoConfirmationsRequired
  | NotAPackage
  | OtherTransaction
  | DepositRefused (e : VerifyError)
  | OtherReceiptsRoot
  | ReportedFailure
  | NoSiblings
  | MerkleProofFailed
  | NoTransactionHash
  | LeafMismatch.

Record RelayerExternalResult := {
  res_tx_hash : str;
  res_success : bool;
  receipt_proof : bytes;
  external_state_root : Hash32;
}.

Definition new (address : bytes) (topic0 : Hash32) : EvmChainAdapter :=
  {| bridge_address := address; adapter_topic0 := topic0;
     adapter_confirmations := DEFAULT_CONFIRMATIONS |}.

Definition check_fit_for_relay (a : EvmChainAdapter) : result AdapterError () :=
  if bool_decide (length (bridge_address a) ≠ 20%nat) then Err BadAddressLength
  else if forallb (λ b, b =? 0) (bridge_address a) then Err ZeroBridgeAddress
  else if bool_decide (adapter_topic0 a = zero32) then Err ZeroDepositTopic
  else if adapter_confirmations a =? 0 then Err NoConfirmationsRequired
  else Ok ().

Section adapter.
Context `{Keccak, Sha256, Bls}.

Definition verify_deposit (a : EvmChainAdapter) (proof : EvmDepositProof) :
    result VerifyError VerifiedDeposit :=
  if required_confirmations proof <? adapter_confirmations a
  then Err (BelowFloor (required_confirmations proof) (adapter_confirmations a))
  else verify_evm_receipt proof.

(** The package as a proof, with the configuration of the adapter. *)
Definition proof_of_package (a : EvmChainAdapter) (p : DepositProofPackage) : EvmDepositProof :=
  {| target_header := p_target_header p; confirmation_headers := p_confirmation_headers p;
     required_confirmations := adapter_confirmations a; proof_nodes := p_proof_nodes p;
     receipt_key := p_receipt_key p; tx_hash := p_tx_hash p;
     emitter_address := bridge_address a; deposit_topic0 := adapter_topic0 a;
     sync_attestation := None |}.

(** [decode_package] is the bounded [bincode] decoder. *)
Definition verify_observation (decode_package : bytes → option DepositProofPackage)
    (a : EvmChainAdapter) (r : RelayerExternalResult) : result AdapterError () :=
  let? package := ok_or (decode_package (receipt_proof r)) NotAPackage in
  if bool_decide (p_tx_hash package ≠ res_tx_hash r) then Err OtherTransaction
  else
    let? verified := result_map_err DepositRefused
                       (verify_deposit a (proof_of_package a package)) in
    if bool_decide (v_receipts_root verified ≠ external_state_root r) then Err OtherReceiptsRoot
    else if negb (res_success r) then Err ReportedFailure
    else Ok ().

Definition receipt_leaf_fields (tx_hash : str) (address : bytes) : list bytes :=
  [bstr "BDLM_EVM_RECEIPT_LEAF_V1"; utf8 tx_hash; address].

Definition derive_receipt_leaf (tx_hash : str) (address : bytes) : Hash32 :=
  hash_fields_bytes (receipt_leaf_fields tx_hash address).

Definition verify_receipt_proof (a : EvmChainAdapter) (proof : Event.MerkleProof)
    (external_state_root : Hash32) (expected_tx_hash : str) : result AdapterError () :=
  if bool_decide (Event.siblings proof = []) then Err NoSiblings
  else if negb (Event.verify proof external_state_root) then Err MerkleProofFailed
  else if bool_decide (expected_tx_hash = []) then Err NoTransactionHash
  else if bool_decide (Event.leaf proof ≠ derive_receipt_leaf expected_tx_hash (bridge_address a))
  then Err LeafMismatch
  else Ok ().
End adapter.
End Adapter.

(** ** Claims on Ethereum *)
Module BudToEth.

Record BudToEthClaim := {
  c_message_id : MessageId;
  c_asset_id : AssetId;
  c_amount : Z;
  recipient_eth : bytes;
  finalized_height : Z;
  finalized_header_hash : Hash32;
  finality_proof : bytes;
  burn_event_proof : bytes;
}.

Inductive BudToEthError :=
  | BurnEventNotFound
  | NotBurned
  | InvalidRecipient
  | FinalityProofMissing
  | AmountExceedsCap.

Definition DEFAULT_BRIDGE_CAP : Z := 1000000000000.

(** An asset id has 32 bytes, so the copy takes all of it. *)
Definition build_bud_to_eth_claim (bridge : Bridge.BridgeState) (id : MessageId) (height : Z)
    (header_hash : Hash32) (finality burn_proof recipient : bytes) (bridge_cap : Z) :
    result BudToEthError BudToEthClaim :=
  let? transfer := ok_or (Bridge.get_transfer bridge id) BurnEventNotFound in
  match Bridge.t_status transfer with
  | Bridge.Burned _ =>
      if bool_decide (finality = []) then Err FinalityProofMissing
      else if bridge_cap <? Bridge.t_amount transfer then Err AmountExceedsCap
      else Ok {| c_message_id := id; c_asset_id := Bridge.t_asset_id transfer;
                 c_amount := Bridge.t_amount transfer; recipient_eth := recipient;
                 finalized_height := height; finalized_header_hash := header_hash;
                 finality_proof := finality; burn_event_proof := burn_proof |}
  | _ => Err NotBurned
  end.
End BudToEth.
