(* ===== verification/EvmProps.v ===== *)
(** * Properties of the deposit verifier

    What an accepted deposit proves about Ethereum, that its replay key names
    one deposit, what a sync-committee attestation stands for, and why no
    receipt of a real block is accepted. *)
From stdpp Require Import base tactics numbers list gmap strings sorting.
From Stdlib Require Import ZArith Lia.
From S2P Require Import Prelude Merkle Messages Bridge Domains Rlp Mpt Evm.
Import Rlp.

(** ** Lemmas *)
Module EvmLemmas.
Import Header Receipt SyncCommittee Deposit.

(** *** Confirmations *)
Fixpoint linked (prev_hash : Hash32) (prev_number : Z) (l : list EthHeader) : Prop :=
  match l with
  | [] => True
  | h :: l => parent_hash h = prev_hash ∧ number h = prev_number + 1 ∧ number h ≤ u64_max ∧
              linked (hash h) (number h) l
  end.

Lemma verify_links_ok l : ∀ prev_hash prev_number,
  verify_links prev_hash prev_number l = Ok () ↔ linked prev_hash prev_number l.
Proof.
  induction l as [|h l IH]; intros ph pn; [done|]. cbn [verify_links linked].
  case_bool_decide as H1; [naive_solver|].
  assert (Some (number h) = u64_checked_add pn 1 ↔ number h = pn + 1 ∧ number h ≤ u64_max) as Hn.
  { unfold u64_checked_add. destruct (pn + 1 <=? u64_max) eqn:Hle;
      [apply Z.leb_le in Hle|apply Z.leb_gt in Hle]; split.
    - intros [= ->]. done.
    - by intros [-> _].
    - done.
    - lia. }
  case_bool_decide as H2; [naive_solver|]. rewrite IH. naive_solver.
Qed.

Section deposit.
Context `{Keccak, Sha256, Bls}.

Lemma decode_header_hash raw h : decode_header raw = Ok h → hash h = keccak256 raw.
Proof.
  unfold decode_header. intros Hd. destruct (decode raw) as [[|l]|]; cbn [result_map_err] in Hd; [done| |done].
  destruct (length l <? 9)%nat; [done|]. unfold bytes_field, arr32 in Hd.
  destruct (as_bytes (field l 0)); [|done]. destruct (as_bytes (field l 3)); cbn [result_map_err] in Hd;
    inv_op Hd; done.
Qed.

Lemma decode_headers_ok raws hs :
  decode_headers raws = Ok hs → Forall2 (λ raw h, decode_header raw = Ok h) raws hs.
Proof.
  revert hs. induction raws as [|raw raws IH]; intros hs Hd; cbn [decode_headers] in Hd.
  - simplify_eq. constructor.
  - unfold decode_header_or_err in Hd. destruct (decode_header raw) eqn:Hh; [|done].
    cbn in Hd. destruct (decode_headers raws); [|done]. simplify_eq. constructor; [done|by apply IH].
Qed.

Lemma find_log_ok r emitter topic0 l :
  find_log r emitter topic0 = Some l →
  l ∈ logs r ∧ address l = emitter ∧ head (topics l) = Some topic0.
Proof.
  unfold find_log. destruct (list_find _ _) as [[i x]|] eqn:Hf; [|done].
  intros [= <-]. apply list_find_Some in Hf as (Hi & [? ?] & _).
  split; [by eapply list_elem_of_lookup_2|done].
Qed.

(** What [verify_evm_receipt] went through when it accepted. *)
Lemma verify_evm_receipt_ok p d :
  verify_evm_receipt p = Ok d →
  ∃ target confs receipt_bytes receipt log,
    decode_header (target_header p) = Ok target ∧
    decode_headers (confirmation_headers p) = Ok confs ∧
    verify_chain target confs (required_confirmations p) = Ok () ∧
    Mpt.verify (proof_nodes p) (receipts_root target) (receipt_key p) = Ok receipt_bytes ∧
    decode_receipt receipt_bytes = Ok receipt ∧ status receipt = true ∧
    find_log receipt (emitter_address p) (deposit_topic0 p) = Some log ∧
    check_attestation (sync_attestation p) (hash target) = Ok () ∧
    d = {| v_tx_hash := tx_hash p; v_block_hash := hash target;
           v_receipt_key := receipt_key p; v_deposit_log_data := data log;
           v_block_number := number target; v_receipts_root := receipts_root target |}.
Proof.
  unfold verify_evm_receipt, decode_header_or_err. case_bool_decide; [done|].
  destruct (decode_header _) as [target|]; [|done]. cbn [result_map_err].
  destruct (decode_headers _) as [confs|]; [|done].
  destruct (verify_chain _ _ _) as [[]|] eqn:Hv; [|done]. cbn [result_map_err].
  destruct (Mpt.verify _ _ _) as [rb|] eqn:Hm; [|done]. cbn [result_map_err].
  destruct (decode_receipt rb) as [receipt|] eqn:Hr; [|done]. cbn [result_map_err].
  destruct (status receipt) eqn:Hs; [|done]. cbn [negb].
  destruct (find_log _ _ _) as [log|] eqn:Hl; [|done]. cbn [ok_or].
  destruct (check_attestation _ _) as [[]|] eqn:Ha; [|done]. intros [= <-].
  exists target, confs, rb, receipt, log. done.
Qed.
End deposit.

(** *** Participation *)
Lemma length_filter_fmap {A B} (f : A → B) (P : B → Prop) `{!∀ x, Decision (P x)} (l : list A) :
  length (filter P (f <$> l)) = length (filter (λ x, P (f x)) l).
Proof.
  induction l as [|x l IH]; [done|]. rewrite fmap_cons, !filter_cons.
  destruct (decide (P (f x))); cbn; by rewrite IH.
Qed.

Lemma length_filter_ext {A} (P Q : A → Prop) `{!∀ x, Decision (P x), !∀ x, Decision (Q x)}
    (l : list A) :
  (∀ x, x ∈ l → P x ↔ Q x) → length (filter P l) = length (filter Q l).
Proof.
  induction l as [|x l IH]; intros HPQ; [done|]. rewrite !filter_cons.
  assert (length (filter P l) = length (filter Q l)) as Hl by (apply IH; set_solver).
  destruct (decide (P x)), (decide (Q x)); cbn; try lia; exfalso; set_solver.
Qed.

(** The bit of the map that stands for a member. *)
Definition member_bit (bits : bytes) (i : nat) : bool :=
  Z.testbit (default 0 (bits !! (i / 8)%nat)) (Z.of_nat (i mod 8)).

Lemma count_ones_bits bits :
  sum_list (count_ones <$> bits) =
    length (filter (λ i, member_bit bits i = true) (seq 0 (8 * length bits))).
Proof.
  induction bits as [|b bits IH] using rev_ind; [done|].
  rewrite fmap_app, sum_list_with_app, length_app, Nat.mul_add_distr_l, seq_app, filter_app, length_app.
  change (@sum_list_with nat id) with sum_list. rewrite IH. f_equal.
  - apply length_filter_ext. intros i [_ Hi]%elem_of_seq. unfold member_bit.
    rewrite lookup_app_l; [done|]. apply Nat.Div0.div_lt_upper_bound. lia.
  - change (length [b]) with 1%nat. change (8 * 1)%nat with 8%nat.
    change (sum_list (count_ones <$> [b])) with (count_ones b + 0)%nat.
    rewrite Nat.add_0_r, Nat.add_0_l. unfold count_ones.
    change (seqZ 0 8) with (Z.of_nat <$> seq 0 8).
    assert (seq (8 * length bits) 8 = (λ k, 8 * length bits + k)%nat <$> seq 0 8) as ->
      by by rewrite fmap_add_seq, Nat.add_0_r.
    rewrite !length_filter_fmap.
    apply length_filter_ext. intros k [_ Hk]%elem_of_seq. unfold member_bit.
    rewrite Nat.mul_comm, Nat.div_add_l, Nat.div_small, Nat.add_0_r by lia.
    rewrite lookup_app_r, Nat.sub_diag by lia.
    by rewrite Nat.add_comm, Nat.Div0.mod_add, Nat.mod_small by lia.
Qed.

Lemma signed_bit a i : (i < SYNC_COMMITTEE_SIZE)%nat → signed a i = member_bit (sync_committee_bits a) i.
Proof.
  intros Hi. unfold signed, member_bit. rewrite (proj2 (Nat.leb_gt _ _)) by done.
  set (x := default 0 _). change 1 with (Z.ones 1) at 1. rewrite Z.land_ones by lia.
  change (2 ^ 1) with 2. rewrite Zmod_odd, Z.testbit_odd. by destruct (Z.odd _).
Qed.

Lemma participation_signers a :
  length (sync_committee_bits a) = 64%nat →
  participation_count a =
    length (filter (λ i, signed a i = true) (seq 0 SYNC_COMMITTEE_SIZE)).
Proof.
  intros Hl. unfold participation_count. rewrite count_ones_bits, Hl.
  change (8 * 64)%nat with SYNC_COMMITTEE_SIZE. apply length_filter_ext.
  intros i [_ Hi]%elem_of_seq. by rewrite signed_bit.
Qed.

(** *** The sum of the keys *)
Section keys.
Context `{Bls}.

(** The point of a member whose key passed the checks. *)
Definition key_of (committee : list bytes) (i : nat) (p : G1) : Prop :=
  ∃ pk, committee !! i = Some pk ∧ g1_from_compressed pk = Some p ∧
    g1_is_torsion_free p = true ∧ g1_is_identity p = false.

Lemma sum_pubkeys_ok a committee : ∀ keys i agg out,
  keys = drop i committee → sum_pubkeys a i keys agg = Ok out →
  ∃ ps, Forall2 (key_of committee) (filter (λ j, signed a j = true) (seq i (length keys))) ps ∧
    out = foldl g1_add agg ps.
Proof.
  induction keys as [|pk keys IH]; intros i agg out Hk Hs; cbn [sum_pubkeys] in Hs.
  - exists []. split; [constructor|]. by simplify_eq.
  - assert (committee !! i = Some pk ∧ keys = drop (S i) committee) as [Hi Hk'].
    { split.
      - rewrite <- (Nat.add_0_r i), <- lookup_drop. by rewrite <- Hk.
      - replace (S i) with (i + 1)%nat by lia. rewrite <- drop_drop, <- Hk. done. }
    cbn [length seq]. rewrite filter_cons.
    destruct (signed a i); cbn [negb] in Hs.
    + rewrite decide_True by done.
      destruct (g1_from_compressed pk) as [p|] eqn:Hp; [|done]. cbn [ok_or] in Hs.
      destruct (negb (g1_is_torsion_free p) || g1_is_identity p) eqn:Hbad; [done|].
      apply orb_false_iff in Hbad as [Ht Hid]. apply negb_false_iff in Ht.
      apply IH in Hs as (ps & Hps & ->); [|done]. exists (p :: ps).
      split; [|done]. constructor; [|done]. by exists pk.
    + rewrite decide_False by done. by apply IH.
Qed.
End keys.

(** *** SSZ trees *)
Section ssz.
Context `{Sha256}.

Lemma sha256_pair_inj a b c d :
  is_hash32 a → is_hash32 c → sha256_pair a b = sha256_pair c d →
  collision_free [a ++ b; c ++ d] → a = c ∧ b = d.
Proof.
  intros Ha Hc Heq Hcf. apply Hcf in Heq; [|set_solver..].
  apply app_inj_1 in Heq; [done|]. by rewrite Ha, Hc.
Qed.

(** The strings hashed on the way up a branch. *)
Fixpoint branch_preimages (index : Z) (level : nat) (node : Hash32) (branch : list Hash32) :
    list bytes :=
  match branch with
  | [] => []
  | sibling :: branch =>
      let x := if Z.land (Z.shiftr index (Z.of_nat level)) 1 =? 1
               then sibling ++ node else node ++ sibling in
      x :: branch_preimages index (S level) (sha256 x) branch
  end.

Lemma walk_branch_inj index br1 : ∀ br2 level n1 n2,
  length br1 = length br2 → is_hash32 n1 → is_hash32 n2 →
  Forall is_hash32 br1 → Forall is_hash32 br2 →
  collision_free (branch_preimages index level n1 br1 ++ branch_preimages index level n2 br2) →
  walk_branch index level n1 br1 = walk_branch index level n2 br2 → n1 = n2.
Proof.
  induction br1 as [|s1 br1 IH]; intros [|s2 br2] level n1 n2 Hl H1 H2 Hb1 Hb2 Hcf Heq; try done.
  injection Hl as Hl. inversion Hb1 as [|? ? Hs1 Hb1']; subst. inversion Hb2 as [|? ? Hs2 Hb2']; subst.
  cbn [walk_branch branch_preimages] in *. unfold sha256_pair in *.
  destruct (_ =? 1).
  - assert (sha256 (s1 ++ n1) = sha256 (s2 ++ n2)) as Hn.
    { eapply (IH br2 (S level)); [done|apply sha256_length|apply sha256_length|done|done| |exact Heq].
      eapply collision_free_mono; [|exact Hcf]. set_solver. }
    apply sha256_pair_inj in Hn as [_ ?]; [done|done|done|].
    eapply collision_free_mono; [|exact Hcf]. set_solver.
  - assert (sha256 (n1 ++ s1) = sha256 (n2 ++ s2)) as Hn.
    { eapply (IH br2 (S level)); [done|apply sha256_length|apply sha256_length|done|done| |exact Heq].
      eapply collision_free_mono; [|exact Hcf]. set_solver. }
    apply sha256_pair_inj in Hn as [? _]; [done|done|done|].
    eapply collision_free_mono; [|exact Hcf]. set_solver.
Qed.

(** The strings hashed for the signing root that lead to the body root. *)
Definition body_preimages (b : BeaconBinding) (params : BeaconChainParams) : list bytes :=
  let left := sha256_pair (sha256_pair (u64_chunk (slot b)) (u64_chunk (proposer_index b)))
                          (sha256_pair (parent_root b) (b_state_root b)) in
  let right := sha256_pair (sha256_pair (body_root b) zero32) (sha256_pair zero32 zero32) in
  [beacon_header_root b ++ sync_domain params; left ++ right;
   sha256_pair (body_root b) zero32 ++ sha256_pair zero32 zero32; body_root b ++ zero32].

Lemma signing_root_body b1 b2 params :
  is_hash32 (body_root b1) → is_hash32 (body_root b2) →
  collision_free (body_preimages b1 params ++ body_preimages b2 params) →
  signing_root b1 params = signing_root b2 params → body_root b1 = body_root b2.
Proof.
  intros H1 H2 Hcf Heq. unfold signing_root, body_preimages in *. cbn zeta in Hcf.
  set (l1 := sha256_pair (sha256_pair (u64_chunk (slot b1)) _) _) in Hcf.
  set (l2 := sha256_pair (sha256_pair (u64_chunk (slot b2)) _) _) in Hcf.
  set (z := sha256_pair zero32 zero32) in Hcf.
  apply sha256_pair_inj in Heq as [Heq _];
    [|apply sha256_length..|eapply collision_free_mono; [|exact Hcf]; set_solver].
  change (beacon_header_root b1) with (sha256_pair l1 (sha256_pair (sha256_pair (body_root b1) zero32) z)) in Heq.
  change (beacon_header_root b2) with (sha256_pair l2 (sha256_pair (sha256_pair (body_root b2) zero32) z)) in Heq.
  apply sha256_pair_inj in Heq as [_ Heq];
    [|apply sha256_length..|eapply collision_free_mono; [|exact Hcf]; set_solver].
  apply sha256_pair_inj in Heq as [Heq _];
    [|apply sha256_length..|eapply collision_free_mono; [|exact Hcf]; set_solver].
  apply sha256_pair_inj in Heq as [Heq _];
    [done|done..|eapply collision_free_mono; [|exact Hcf]; set_solver].
Qed.
End ssz.
End EvmLemmas.

(** ** Theorems *)
Module EvmSafety.
Import Header Receipt SyncCommittee Deposit EvmLemmas.

Section safety.
Context `{Keccak, Sha256, Bls}.

(** C19: an accepted deposit is a deposit.  The target header has at least the
    demanded number of headers above it, each naming the digest of the one
    below it as its parent and the next number; the receipts trie the target
    header commits to holds, at the digest of the receipt key, a receipt of a
    successful transaction; and the returned data is that of a log of the
    bridge contract in it. *)
Theorem deposit_authentic p d :
  verify_evm_receipt p = Ok d →
  ∃ target confs receipt_bytes receipt log,
    decode_header (target_header p) = Ok target ∧
    v_block_hash d = keccak256 (target_header p) ∧
    Forall2 (λ raw h, decode_header raw = Ok h ∧ hash h = keccak256 raw)
      (confirmation_headers p) confs ∧
    0 ≠ required_confirmations p ∧
    required_confirmations p ≤ Z.of_nat (length (confirmation_headers p)) ∧
    linked (keccak256 (target_header p)) (v_block_number d) confs ∧
    (∀ t, Trie.nodes_ok t → Trie.root t = receipts_root target →
       keccak_injective (Trie.trie_nodes t ++ proof_nodes p) →
       Trie.lookup t (Mpt.to_nibbles (keccak256 (receipt_key p))) = Some receipt_bytes) ∧
    decode_receipt receipt_bytes = Ok receipt ∧ status receipt = true ∧
    log ∈ logs receipt ∧ address log = emitter_address p ∧
    head (topics log) = Some (deposit_topic0 p) ∧ v_deposit_log_data d = data log.
Proof.
  intros (target & confs & rb & receipt & log & Ht & Hc & Hv & Hm & Hr & Hs & Hl & _ & ->)%verify_evm_receipt_ok.
  apply find_log_ok in Hl as (Hin & Haddr & Htop). apply decode_headers_ok in Hc.
  pose proof (decode_header_hash _ _ Ht) as Hh.
  exists target, confs, rb, receipt, log. cbn.
  unfold verify_chain in Hv. destruct (_ =? 0) eqn:Hz; [done|]. apply Z.eqb_neq in Hz.
  destruct (_ <? _) eqn:Hlt; [done|]. apply Z.ltb_ge in Hlt. apply verify_links_ok in Hv.
  split; [done|]. split; [done|]. split.
  { eapply Forall2_impl; [exact Hc|]. cbn. intros raw h Hraw.
    split; [done|]. by apply decode_header_hash. }
  split; [done|]. split.
  { rewrite (Forall2_length _ _ _ Hc). etrans; [exact Hlt|]. apply Z.mod_le; lia. }
  split; [by rewrite <- Hh|]. split; [|done].
  intros t Hok Hroot Hinj. rewrite <- Hroot in Hm. by eapply Trie.verify_lookup.
Qed.

(** The replay key names one deposit.  Two accepted proofs, from whatever
    relayers, with the same block hash and receipt key return the same log
    data, block number and receipts root, unless two headers or two trie nodes
    of the proofs collide under Keccak. *)
Theorem deposit_identity p1 p2 d1 d2 :
  verify_evm_receipt p1 = Ok d1 → verify_evm_receipt p2 = Ok d2 →
  emitter_address p1 = emitter_address p2 → deposit_topic0 p1 = deposit_topic0 p2 →
  keccak_injective [target_header p1; target_header p2] →
  keccak_injective (proof_nodes p1 ++ proof_nodes p2) →
  v_block_hash d1 = v_block_hash d2 → v_receipt_key d1 = v_receipt_key d2 →
  v_deposit_log_data d1 = v_deposit_log_data d2 ∧ v_block_number d1 = v_block_number d2 ∧
  v_receipts_root d1 = v_receipts_root d2.
Proof.
  intros (t1 & c1 & rb1 & r1 & l1 & Ht1 & _ & _ & Hm1 & Hr1 & _ & Hl1 & _ & ->)%verify_evm_receipt_ok
    (t2 & c2 & rb2 & r2 & l2 & Ht2 & _ & _ & Hm2 & Hr2 & _ & Hl2 & _ & ->)%verify_evm_receipt_ok
    He Hto Hh Hn Hbh Hk. cbn in *.
  rewrite (decode_header_hash _ _ Ht1), (decode_header_hash _ _ Ht2) in Hbh.
  apply Hh in Hbh; [|set_solver..]. rewrite Hbh in Ht1. assert (t1 = t2) as -> by congruence.
  rewrite Hk in Hm1. assert (rb1 = rb2) as -> by (eapply Trie.verify_agree; [exact Hn|done..]).
  split; [|done]. congruence.
Qed.

(** C33: no deposit of a real block is ever accepted.  The receipts trie of an
    Ethereum block is keyed by the RLP of the transaction index, and
    [verify_evm_receipt] looks the receipt up at the digest of the key: the
    paths of such a trie have at most 18 nibbles, those the verifier walks
    have 64. *)
Theorem real_deposit_refused p target t :
  decode_header (target_header p) = Ok target → receipts_root target = Trie.root t →
  Trie.nodes_ok t →
  (∀ path v, Trie.lookup t path = Some v →
     ∃ i, u64 i ∧ path = Mpt.to_nibbles (encode_uint i)) →
  keccak_injective (Trie.trie_nodes t ++ proof_nodes p) →
  is_ok (verify_evm_receipt p) = false.
Proof.
  intros Ht Hroot Hok Hkeys Hinj. destruct (verify_evm_receipt p) as [d|] eqn:Hv; [|done].
  apply verify_evm_receipt_ok in Hv as (t' & c & rb & r & l & Ht' & _ & _ & Hm & _).
  assert (t' = target) as -> by congruence. rewrite Hroot in Hm.
  pose proof (Trie.receipts_trie_refused (proof_nodes p) t (receipt_key p) Hok Hinj Hkeys) as Hf.
  by rewrite Hm in Hf.
Qed.

(** A sync-committee attestation is a quorum.  An accepted aggregate has at
    least 342 of the 512 members in its bitmap, each of their keys is a point
    of the right subgroup other than the identity, and the signature verifies
    against the sum of exactly those keys. *)
Theorem sync_quorum s a message :
  length (sync_committee_bits a) = 64%nat →
  length (current_sync_committee s) = SYNC_COMMITTEE_SIZE →
  verify_sync_aggregate s a message = Ok () →
  let signers := filter (λ i, signed a i = true) (seq 0 SYNC_COMMITTEE_SIZE) in
  (342 ≤ length signers)%nat ∧ NoDup signers ∧
  ∃ points sig, Forall2 (key_of (current_sync_committee s)) signers points ∧
    g2_from_compressed (sync_committee_signature a) = Some sig ∧
    pairing_equal (foldl g1_add g1_identity points) (hash_to_g2 message) sig = true.
Proof.
  intros Hbits Hcom Hv. cbn zeta. rewrite <- (participation_signers a Hbits).
  unfold verify_sync_aggregate in Hv. destruct (_ <? _)%nat eqn:Hlt; [done|].
  apply Nat.ltb_ge in Hlt. split; [exact Hlt|]. split; [apply NoDup_filter, NoDup_seq|].
  destruct (sum_pubkeys _ _ _ _) as [agg|] eqn:Hs; [|done].
  destruct (g1_is_identity agg); [done|].
  destruct (g2_from_compressed _) as [sig|] eqn:Hg; [|done]. cbn [ok_or] in Hv.
  destruct (negb _ || _); [done|]. destruct (pairing_equal _ _ _) eqn:Hp; [|done].
  apply (sum_pubkeys_ok a (current_sync_committee s)) in Hs as (ps & Hps & ->); [|done].
  rewrite Hcom in Hps. exists ps, sig. done.
Qed.

(** An attestation is about one execution block.  Two beacon headers with
    the same signing root that both commit to an execution block commit to the
    same one, unless two of the hashed strings collide under SHA-256. *)
Theorem attestation_binds_block b1 b2 params e1 e2 :
  let index := EXECUTION_BLOCK_HASH_GINDEX - 512 in
  is_hash32 (body_root b1) → is_hash32 (body_root b2) → is_hash32 e1 → is_hash32 e2 →
  Forall is_hash32 (execution_block_hash_branch b1) →
  Forall is_hash32 (execution_block_hash_branch b2) →
  collision_free
    ((body_preimages b1 params ++ body_preimages b2 params) ++
     branch_preimages index 0 e1 (execution_block_hash_branch b1) ++
     branch_preimages index 0 e2 (execution_block_hash_branch b2)) →
  commits_to_execution_block b1 e1 = true → commits_to_execution_block b2 e2 = true →
  signing_root b1 params = signing_root b2 params → e1 = e2.
Proof.
  intros index Hr1 Hr2 He1 He2 Hb1 Hb2 Hcf Hc1 Hc2 Hroot.
  unfold commits_to_execution_block in Hc1, Hc2. cbv zeta in Hc1, Hc2.
  destruct (Z.of_nat (length (execution_block_hash_branch b1)) =? _) eqn:Hl1; [|done].
  destruct (Z.of_nat (length (execution_block_hash_branch b2)) =? _) eqn:Hl2; [|done].
  cbn [negb] in Hc1, Hc2. apply bool_decide_eq_true in Hc1, Hc2. apply Z.eqb_eq in Hl1, Hl2.
  apply signing_root_body in Hroot; [|done|done|eapply collision_free_mono; [|exact Hcf]; set_solver].
  apply (walk_branch_inj index (execution_block_hash_branch b1) (execution_block_hash_branch b2) 0);
    [|done|done|exact Hb1|exact Hb2| |].
  - lia.
  - eapply collision_free_mono; [|exact Hcf]. set_solver.
  - etrans; [exact Hc1|]. rewrite Hroot. symmetry. exact Hc2.
Qed.
End safety.
End EvmSafety.

(** ** The theorems at concrete inputs *)
Module EvmExamples.
Import Header Receipt SyncCommittee Deposit EvmLemmas EvmSafety.
#[local] Existing Instance poly_sha256.
#[local] Existing Instance MptExamples.poly_keccak.

(** Points are numbers, and a compressed point is its number. *)
Definition number_bls : Bls :=
  {| G1 := Z; G2 := Z; g1_from_compressed := head; g1_is_torsion_free := λ _, true;
     g1_is_identity := Z.eqb 0; g1_identity := 0; g1_add := Z.add;
     g2_from_compressed := head; g2_is_torsion_free := λ _, true; g2_is_identity := Z.eqb 0;
     hash_to_g2 := λ _, 1; pairing_equal := λ pk h sig, pk * h =? sig |}.
#[local] Existing Instance number_bls.

Definition emitter : bytes := replicate 20 204.
Definition topic : Hash32 := replicate 32 171.
Definition payload : bytes := [1; 2; 3].

Definition receipt_rlp : bytes :=
  encode (List [String [1]; String []; String (replicate 256 0);
                List [List [String emitter; List [String topic]; String payload]]]).

Definition header_rlp (parent : Hash32) (n : Z) (root : Hash32) : bytes :=
  encode (List [String parent; String zero32; String (replicate 20 0); String zero32;
                String zero32; String root; String (replicate 256 0); String [];
                String (trim_leading_zeros n)]).

(** A receipt at the digest of its key, where the verifier looks. *)
Definition key : bytes := encode_uint 0.
Definition hashed_trie : Trie.trie := Trie.Leaf (Mpt.to_nibbles (keccak256 key)) receipt_rlp.
(** The same receipt where Ethereum puts it. *)
Definition real_trie : Trie.trie := Trie.Leaf (Mpt.to_nibbles key) receipt_rlp.

Definition deposit_proof (t : Trie.trie) (name : str) (nodes : list bytes) : EvmDepositProof :=
  let h0 := header_rlp (replicate 32 9) 100 (Trie.root t) in
  let h1 := header_rlp (keccak256 h0) 101 zero32 in
  let h2 := header_rlp (keccak256 h1) 102 zero32 in
  {| target_header := h0; confirmation_headers := [h1; h2]; required_confirmations := 2;
     proof_nodes := nodes; receipt_key := key; tx_hash := name; emitter_address := emitter;
     deposit_topic0 := topic; sync_attestation := None |}.

Definition p1 : EvmDepositProof := deposit_proof hashed_trie [97] [Trie.node_bytes hashed_trie].
Definition p2 : EvmDepositProof :=
  deposit_proof hashed_trie [98] [[0]; Trie.node_bytes hashed_trie].

Definition result_of (p : EvmDepositProof) : VerifiedDeposit :=
  {| v_tx_hash := tx_hash p; v_block_hash := keccak256 (target_header p); v_receipt_key := key;
     v_deposit_log_data := payload; v_block_number := 100;
     v_receipts_root := Trie.root hashed_trie |}.

Lemma p1_ok : verify_evm_receipt p1 = Ok (result_of p1).
Proof. vm_compute. reflexivity. Qed.

Lemma p2_ok : verify_evm_receipt p2 = Ok (result_of p2).
Proof. vm_compute. reflexivity. Qed.

Lemma leaf_ok path v :
  Forall BigEndian.is_byte path →
  Z.of_nat (length (Trie.node_bytes (Trie.Leaf (Mpt.to_nibbles path) v))) < 10000 →
  Trie.nodes_ok (Trie.Leaf (Mpt.to_nibbles path) v).
Proof.
  intros Hp Hl. split; [by apply Trie.to_nibbles_nibble|]. constructor; [|constructor].
  unfold Grammar.fits. int_lia.
Qed.

Lemma deposit_authentic_witness :
  ∃ target receipt_bytes receipt, decode_header (target_header p1) = Ok target ∧
    Trie.lookup hashed_trie (Mpt.to_nibbles (keccak256 key)) = Some receipt_bytes ∧
    decode_receipt receipt_bytes = Ok receipt ∧ status receipt = true.
Proof.
  destruct (deposit_authentic p1 (result_of p1) p1_ok)
    as (target & confs & rb & receipt & log & Ht & _ & _ & _ & _ & _ & Hlk & Hr & Hs & _).
  exists target, rb, receipt. split; [exact Ht|]. split; [|split; [exact Hr|exact Hs]].
  apply Hlk.
  - apply leaf_ok; [apply keccak256_bytes|]. vm_compute. reflexivity.
  - assert (receipts_root <$> (match decode_header (target_header p1) with
      Ok h => Some h | Err _ => None end) = Some (Trie.root hashed_trie)) as Hroot
      by (vm_compute; reflexivity).
    rewrite Ht in Hroot. by injection Hroot.
  - apply MptExamples.keccak_distinct_spec. vm_compute. reflexivity.
Defined.

Lemma deposit_identity_witness :
  v_deposit_log_data (result_of p1) = v_deposit_log_data (result_of p2).
Proof.
  apply (deposit_identity p1 p2 (result_of p1) (result_of p2)).
  - exact p1_ok.
  - exact p2_ok.
  - reflexivity.
  - reflexivity.
  - apply MptExamples.keccak_distinct_spec. vm_compute. reflexivity.
  - apply MptExamples.keccak_distinct_spec. vm_compute. reflexivity.
  - reflexivity.
  - reflexivity.
Defined.

(** The proof an honest relayer makes for a real block. *)
Definition p3 : EvmDepositProof := deposit_proof real_trie [97] [Trie.node_bytes real_trie].
Definition target3 : EthHeader :=
  {| parent_hash := replicate 32 9; number := 100; state_root := zero32;
     receipts_root := Trie.root real_trie; hash := keccak256 (target_header p3) |}.

Lemma real_deposit_refused_witness :
  Trie.lookup real_trie (Mpt.to_nibbles (encode_uint 0)) = Some receipt_rlp ∧
  is_ok (verify_evm_receipt p3) = false.
Proof.
  split; [vm_compute; reflexivity|].
  apply (real_deposit_refused p3 target3 real_trie).
  - vm_compute. reflexivity.
  - reflexivity.
  - apply leaf_ok; [|vm_compute; reflexivity].
    constructor; [|constructor]. vm_compute. split; [discriminate|reflexivity].
  - intros path v Hl. exists 0. split; [split; vm_compute; discriminate|].
    unfold real_trie in Hl. cbn [Trie.lookup] in Hl.
    destruct (bool_decide (Mpt.to_nibbles key = path)) eqn:Hp; [|discriminate Hl].
    apply bool_decide_eq_true in Hp. symmetry. exact Hp.
  - apply MptExamples.keccak_distinct_spec. vm_compute. reflexivity.
Defined.

(** All members sign with the key 1. *)
Definition committee : SyncCommitteeState :=
  {| current_period := 0; current_sync_committee := replicate 512 [1];
     next_sync_committee := replicate 512 [1] |}.
Definition aggregate : SyncAggregate :=
  {| sync_committee_bits := replicate 64 255; sync_committee_signature := [512] |}.

Lemma sync_quorum_witness :
  (342 ≤ length (filter (λ i, signed aggregate i = true) (seq 0 SYNC_COMMITTEE_SIZE)))%nat.
Proof.
  apply (sync_quorum committee aggregate [7]).
  - reflexivity.
  - reflexivity.
  - vm_compute. reflexivity.
Defined.

Definition chain_params : BeaconChainParams :=
  {| fork_version := [4; 0; 0; 0]; genesis_validators_root := zero32 |}.
Definition block : Hash32 := replicate 32 3.
Definition beacon (sibling : Z) : BeaconBinding :=
  let branch := replicate 9 (replicate 32 sibling) in
  {| slot := 5; proposer_index := 6; parent_root := zero32; b_state_root := zero32;
     body_root := walk_branch 300 0 block branch; execution_block_hash_branch := branch |}.

Lemma attestation_binds_block_witness :
  commits_to_execution_block (beacon 1) block = true ∧ block = block.
Proof.
  split; [vm_compute; reflexivity|].
  apply (attestation_binds_block (beacon 1) (beacon 1) chain_params block block).
  - apply sha256_length.
  - apply sha256_length.
  - reflexivity.
  - reflexivity.
  - apply Forall_replicate. reflexivity.
  - apply Forall_replicate. reflexivity.
  - apply collision_freeb_spec. vm_compute. reflexivity.
  - vm_compute. reflexivity.
  - vm_compute. reflexivity.
  - reflexivity.
Defined.
End EvmExamples.
