(* ===== verification/Isa.v ===== *)
(** * The instruction set of BudZero

    [budzero/bud-isa/src/lib.rs]: opcodes, the 64-bit instruction word and the
    gates that decide which opcodes decode. *)
From stdpp Require Import base tactics numbers list.
From Stdlib Require Import ZArith Lia.
From S2P Require Import Prelude.

Module Isa.

Inductive Opcode :=
  | Halt | Add | Sub | Mul | Div | Inv | And | Not
  | Eq | Neq | Lt | Gt | Lte | Gte | Jmp | Jnz
  | Call | Ret | Load | Store | Push | Pop | Assert | Poseidon
  | Log | SRead | SWrite | Syscall | VerifyMerkle | VerifyInference | PrivacyCommit | NullifierCheck
  | SumConservation.

#[export] Instance Opcode_eq_dec : EqDecision Opcode.
Proof. solve_decision. Defined.

(** The discriminants. *)
Definition opcode_u8 (op : Opcode) : Z :=
  match op with
  | Halt => 0
  | Add => 1
  | Sub => 2
  | Mul => 3
  | Div => 4
  | Inv => 5
  | And => 6
  | Not => 9
  | Eq => 10
  | Neq => 11
  | Lt => 12
  | Gt => 13
  | Lte => 14
  | Gte => 15
  | Jmp => 16
  | Jnz => 17
  | Call => 18
  | Ret => 19
  | Load => 20
  | Store => 21
  | Push => 22
  | Pop => 23
  | Assert => 24
  | Poseidon => 25
  | Log => 26
  | SRead => 27
  | SWrite => 28
  | Syscall => 29
  | VerifyMerkle => 30
  | VerifyInference => 31
  | PrivacyCommit => 32
  | NullifierCheck => 33
  | SumConservation => 34
  end.

(** The [match] of [decode_any]. *)
Definition opcode_of_u8 (b : Z) : option Opcode :=
  match b with
  | 0 => Some Halt
  | 1 => Some Add
  | 2 => Some Sub
  | 3 => Some Mul
  | 4 => Some Div
  | 5 => Some Inv
  | 6 => Some And
  | 9 => Some Not
  | 10 => Some Eq
  | 11 => Some Neq
  | 12 => Some Lt
  | 13 => Some Gt
  | 14 => Some Lte
  | 15 => Some Gte
  | 16 => Some Jmp
  | 17 => Some Jnz
  | 18 => Some Call
  | 19 => Some Ret
  | 20 => Some Load
  | 21 => Some Store
  | 22 => Some Push
  | 23 => Some Pop
  | 24 => Some Assert
  | 25 => Some Poseidon
  | 26 => Some Log
  | 27 => Some SRead
  | 28 => Some SWrite
  | 29 => Some Syscall
  | 30 => Some VerifyMerkle
  | 31 => Some VerifyInference
  | 32 => Some PrivacyCommit
  | 33 => Some NullifierCheck
  | 34 => Some SumConservation
  | _ => None
  end.

Definition is_experimental (_ : Opcode) : bool := false.

Definition requires_mainnet_activation (op : Opcode) : bool :=
  match op with
  | VerifyMerkle | VerifyInference | PrivacyCommit | NullifierCheck | SumConservation => true
  | _ => false
  end.

Inductive IsaProfile := Production | Experimental | Testing.

#[export] Instance IsaProfile_eq_dec : EqDecision IsaProfile.
Proof. solve_decision. Defined.

Record MainnetActivation := {
  verify_merkle_enabled : bool;
  verify_inference_enabled : bool;
  privacy_commit_enabled : bool;
  nullifier_check_enabled : bool;
  sum_conservation_enabled : bool;
}.

Definition activation_default : MainnetActivation :=
  {| verify_merkle_enabled := false; verify_inference_enabled := false;
     privacy_commit_enabled := true; nullifier_check_enabled := true;
     sum_conservation_enabled := true |}.

Definition activation_full : MainnetActivation :=
  {| verify_merkle_enabled := true; verify_inference_enabled := true;
     privacy_commit_enabled := true; nullifier_check_enabled := true;
     sum_conservation_enabled := true |}.

Definition allows (a : MainnetActivation) (op : Opcode) : bool :=
  if requires_mainnet_activation op then
    match op with
    | VerifyMerkle => verify_merkle_enabled a
    | VerifyInference => verify_inference_enabled a
    | PrivacyCommit => privacy_commit_enabled a
    | NullifierCheck => nullifier_check_enabled a
    | SumConservation => sum_conservation_enabled a
    | _ => false
    end
  else true.

Inductive DecodeError :=
  | InvalidOpcode (b : Z)
  | ExperimentalOpcodeDisabled (op : Opcode) (p : IsaProfile)
  | MainnetActivationRequired (op : Opcode).

Record Instruction := { opcode : Opcode; rd : Z; rs1 : Z; rs2 : Z; imm : Z }.

(** [x as i32] of an unsigned integer. *)
Definition as_i32 (x : Z) : Z :=
  let y := x mod 2 ^ 32 in if y <? 2 ^ 31 then y else y - 2 ^ 32.

(** A shift of a [u64] drops the bits above bit 63; the operands are narrow
    enough that none are. *)
Definition encode (i : Instruction) : Z :=
  let res := opcode_u8 (opcode i) in
  let res := Z.lor res (Z.shiftl (rd i) 8) in
  let res := Z.lor res (Z.shiftl (rs1 i) 13) in
  let res := Z.lor res (Z.shiftl (rs2 i) 18) in
  Z.lor res (Z.shiftl (imm i mod 2 ^ 32) 23).

Definition decode_any (val : Z) : result DecodeError Instruction :=
  let op_u8 := Z.land val 255 in
  let? op := ok_or (opcode_of_u8 op_u8) (InvalidOpcode op_u8) in
  Ok {| opcode := op; rd := Z.land (Z.shiftr val 8) 31; rs1 := Z.land (Z.shiftr val 13) 31;
        rs2 := Z.land (Z.shiftr val 18) 31;
        imm := as_i32 (Z.land (Z.shiftr val 23) 4294967295) |}.

Definition decode_for_profile (val : Z) (profile : IsaProfile) : result DecodeError Instruction :=
  let? inst := decode_any val in
  if is_experimental (opcode inst) && bool_decide (profile = Production)
  then Err (ExperimentalOpcodeDisabled (opcode inst) profile)
  else Ok inst.

Definition decode_for_mainnet (val : Z) (activation : MainnetActivation) :
    result DecodeError Instruction :=
  let? inst := decode_for_profile val Production in
  if negb (allows activation (opcode inst)) then Err (MainnetActivationRequired (opcode inst))
  else Ok inst.

(** [decode] of a build without the [experimental] feature. *)
Definition decode (val : Z) : result DecodeError Instruction := decode_for_profile val Production.
End Isa.

(** ** Instruction words *)
Module IsaLemmas.
Import Isa.

Record instruction_ok (i : Instruction) : Prop := {
  ok_rd : 0 ≤ rd i < 32;
  ok_rs1 : 0 ≤ rs1 i < 32;
  ok_rs2 : 0 ≤ rs2 i < 32;
  ok_imm : - 2 ^ 31 ≤ imm i < 2 ^ 31;
}.

Lemma lor_shift a b n : 0 ≤ n → 0 ≤ a < 2 ^ n → Z.lor a (Z.shiftl b n) = a + b * 2 ^ n.
Proof.
  intros Hn Ha. rewrite <- Z.shiftl_mul_pow2 by done.
  assert (Z.land a (Z.shiftl b n) = 0) as Hd.
  { apply Z.bits_inj'. intros k Hk. rewrite Z.land_spec, Z.bits_0.
    destruct (decide (k < n)) as [Hlt|Hge].
    - rewrite (Z.shiftl_spec_low b n k) by lia. apply andb_false_r.
    - rewrite <- (Z.mod_small a (2 ^ n)) by lia. rewrite Z.mod_pow2_bits_high by lia. done. }
  by rewrite Z.add_nocarry_lxor, Z.lxor_lor by done.
Qed.

Lemma opcode_u8_range op : 0 ≤ opcode_u8 op < 2 ^ 8.
Proof. destruct op; cbn; lia. Qed.

Lemma opcode_of_u8_u8 op : opcode_of_u8 (opcode_u8 op) = Some op.
Proof. by destruct op. Qed.

Lemma opcode_u8_of_u8 b op : opcode_of_u8 b = Some op → opcode_u8 op = b.
Proof.
  unfold opcode_of_u8. intros Hb. repeat case_match; simplify_eq; reflexivity.
Qed.

(** The word as a sum of its fields. *)
Lemma encode_sum i :
  instruction_ok i →
  encode i = opcode_u8 (opcode i) + rd i * 2 ^ 8 + rs1 i * 2 ^ 13 + rs2 i * 2 ^ 18 +
    (imm i mod 2 ^ 32) * 2 ^ 23.
Proof.
  intros [Hd H1 H2 Hi]. pose proof (opcode_u8_range (opcode i)) as Ho. unfold encode. cbv zeta.
  rewrite (lor_shift _ (rd i)) by lia. rewrite (lor_shift _ (rs1 i)) by lia.
  rewrite (lor_shift _ (rs2 i)) by lia. rewrite (lor_shift _ (imm i mod 2 ^ 32)) by lia. done.
Qed.

Lemma land_mask x n : 0 ≤ n → Z.land x (Z.ones n) = x mod 2 ^ n.
Proof. apply Z.land_ones. Qed.

Lemma field_mod val k n : 0 ≤ k → 0 ≤ n → Z.land (Z.shiftr val k) (Z.ones n) = val / 2 ^ k mod 2 ^ n.
Proof. intros. by rewrite Z.land_ones, Z.shiftr_div_pow2 by done. Qed.

Lemma decode_any_fields val :
  decode_any val =
    let? op := ok_or (opcode_of_u8 (val mod 2 ^ 8)) (InvalidOpcode (val mod 2 ^ 8)) in
    Ok {| opcode := op; rd := val / 2 ^ 8 mod 2 ^ 5; rs1 := val / 2 ^ 13 mod 2 ^ 5;
          rs2 := val / 2 ^ 18 mod 2 ^ 5; imm := as_i32 (val / 2 ^ 23 mod 2 ^ 32) |}.
Proof.
  unfold decode_any. cbv zeta. change 255 with (Z.ones 8). change 31 with (Z.ones 5).
  change 4294967295 with (Z.ones 32). by rewrite land_mask, !field_mod by lia.
Qed.

Lemma as_i32_mod x : - 2 ^ 31 ≤ x < 2 ^ 31 → as_i32 (x mod 2 ^ 32) = x.
Proof.
  intros Hx. unfold as_i32. cbv zeta. rewrite Z.mod_mod by lia.
  destruct (_ <? _) eqn:Hlt; [apply Z.ltb_lt in Hlt|apply Z.ltb_ge in Hlt]; div_lia.
Qed.

Lemma as_i32_range x : - 2 ^ 31 ≤ as_i32 x < 2 ^ 31.
Proof.
  unfold as_i32. cbv zeta. destruct (_ <? _) eqn:Hlt;
    [apply Z.ltb_lt in Hlt|apply Z.ltb_ge in Hlt]; div_lia.
Qed.

Lemma as_i32_back x : 0 ≤ x < 2 ^ 32 → as_i32 x mod 2 ^ 32 = x.
Proof.
  intros Hx. unfold as_i32. cbv zeta. rewrite (Z.mod_small x) by done.
  destruct (x <? 2 ^ 31); [by apply Z.mod_small|]. div_lia.
Qed.

Lemma decode_any_ok w j : decode_any w = Ok j → instruction_ok j.
Proof.
  rewrite decode_any_fields. destruct (opcode_of_u8 _) as [op|]; [|done]. cbn [ok_or]. intros [= <-].
  split; cbn [rd rs1 rs2 imm]; [apply Z.mod_pos_bound; lia..|apply as_i32_range].
Qed.

Lemma decode_ok w j : decode w = Ok j → instruction_ok j.
Proof.
  unfold decode, decode_for_profile. destruct (decode_any w) as [i|] eqn:Hd; [|done].
  apply decode_any_ok in Hd. case_match; [done|]. by intros [= <-].
Qed.

Lemma decode_for_mainnet_ok w a j :
  decode_for_mainnet w a = Ok j → instruction_ok j ∧ allows a (opcode j) = true.
Proof.
  unfold decode_for_mainnet. destruct (decode_for_profile w Production) as [i|] eqn:Hd; [|done].
  apply (decode_ok w) in Hd. destruct (allows a (opcode i)) eqn:Ha; cbn [negb]; [|done].
  by intros [= <-].
Qed.
Lemma word_decode i : instruction_ok i → decode_any (encode i) = Ok i.
Proof.
  intros Hi. rewrite decode_any_fields, encode_sum by done. destruct i as [op d s1 s2 m].
    destruct Hi as [Hd H1 H2 Hm]. cbn [opcode rd rs1 rs2 imm] in *.
    pose proof (opcode_u8_range op) as Ho. pose proof (Z.mod_pos_bound m (2 ^ 32) ltac:(lia)) as Hmm.
    set (mm := m mod 2 ^ 32) in *. set (o := opcode_u8 op) in *.
    assert ((o + d * 2 ^ 8 + s1 * 2 ^ 13 + s2 * 2 ^ 18 + mm * 2 ^ 23) mod 2 ^ 8 = o) as -> by div_lia.
    unfold o. rewrite opcode_of_u8_u8. fold o. cbn [ok_or]. f_equal. f_equal.
    + div_lia.
    + div_lia.
    + div_lia.
    + rewrite <- (as_i32_mod m) by done. fold mm. f_equal. div_lia.
Qed.
End IsaLemmas.

(** ** Theorems *)
Module IsaProps.
Import Isa IsaLemmas.

(** Instruction words round-trip.  An instruction with 5-bit registers and
    a 32-bit immediate decodes from its encoding, and a word that decodes
    re-encodes to its low 55 bits: the nine bits above are ignored. *)
Theorem isa_roundtrip i w j :
  instruction_ok i → 0 ≤ w → decode_any w = Ok j →
  decode_any (encode i) = Ok i ∧ instruction_ok j ∧ encode j = w mod 2 ^ 55.
Proof.
  intros Hi Hw Hj. split.
  - by apply word_decode.
  - pose proof (decode_any_ok _ _ Hj) as Hok.
    rewrite decode_any_fields in Hj. destruct (opcode_of_u8 (w mod 2 ^ 8)) as [op|] eqn:Hop; [|done].
    cbn [ok_or] in Hj. apply opcode_u8_of_u8 in Hop. simplify_eq.
    split; [done|]. rewrite encode_sum by done. cbn [opcode rd rs1 rs2 imm].
    rewrite as_i32_back by (apply Z.mod_pos_bound; lia). rewrite Hop. div_lia.
Qed.
End IsaProps.

(** ** The theorem at a concrete input *)
Module IsaExamples.
Import Isa IsaLemmas.

Definition add_r1 : Instruction := {| opcode := Add; rd := 1; rs1 := 2; rs2 := 31; imm := -5 |}.
(** The same word with bits set above the immediate. *)
Definition word : Z := encode add_r1 + 3 * 2 ^ 60.

Lemma isa_roundtrip_witness :
  decode_any (encode add_r1) = Ok add_r1 ∧ instruction_ok add_r1 ∧ encode add_r1 = word mod 2 ^ 55.
Proof.
  apply (IsaProps.isa_roundtrip add_r1 word add_r1).
  - split; vm_compute; split; (discriminate || reflexivity).
  - vm_compute. discriminate.
  - vm_compute. reflexivity.
Defined.
End IsaExamples.
