(* ===== verification/Vm.v ===== *)
(** * The BudZero virtual machine

    [budzero/bud-vm/src/lib.rs]: a register machine whose arithmetic is in the
    Goldilocks field, which records one trace row per instruction for the
    prover.  [Field] has the field operations and the Poseidon permutation,
    [Vm] the machine, [Programs] the canonical programs of
    [private_transfer.rs] and [syscall_context.rs].

    An index out of range and an out-of-range slice panic in the source: an
    operation that would panic is [None] here.  A [usize] has 64 bits. *)
From stdpp Require Import base tactics numbers list gmap.
From Stdlib Require Import ZArith Lia.
From S2P Require Import Prelude Rlp Isa.
Import Isa.

Module Field.

Definition GOLDILOCKS_P : Z := 18446744069414584321.

Definition field_add_goldilocks (a b : Z) : Z := (a + b) mod GOLDILOCKS_P.

Definition field_sub_goldilocks (a b : Z) : Z :=
  (a + GOLDILOCKS_P - b mod GOLDILOCKS_P) mod GOLDILOCKS_P.

Definition field_mul_goldilocks (a b : Z) : Z := a * b mod GOLDILOCKS_P.

(** Square and multiply, one round per bit of the exponent. *)
Fixpoint pow_loop (rounds : nat) (exp base res : Z) : Z :=
  match rounds with
  | O => res
  | S rounds =>
      if 0 <? exp then
        let res := if Z.land exp 1 =? 1 then res * base mod GOLDILOCKS_P else res in
        pow_loop rounds (Z.shiftr exp 1) (base * base mod GOLDILOCKS_P) res
      else res
  end.

Definition field_inverse_goldilocks (val : Z) : Z :=
  if val =? 0 then 0 else pow_loop 64 (GOLDILOCKS_P - 2) val 1.

Definition DOMAIN_NULLIFIER : Z := 5644501598509352274.

Definition POSEIDON_MDS : list (list Z) :=
  [[7; 1; 3; 8; 8; 3; 4; 9];
   [9; 7; 1; 3; 8; 8; 3; 4];
   [4; 9; 7; 1; 3; 8; 8; 3];
   [3; 4; 9; 7; 1; 3; 8; 8];
   [8; 3; 4; 9; 7; 1; 3; 8];
   [8; 8; 3; 4; 9; 7; 1; 3];
   [3; 8; 8; 3; 4; 9; 7; 1];
   [1; 3; 8; 8; 3; 4; 9; 7]].

Definition POSEIDON_RC_FULL : list (list Z) :=
  [[15949291268843349465; 14644164809401934923; 18420360874837380316; 4756469047455716334;
     8685499049481102115; 3799221349720045367; 13676397835037157930; 6566439050423619635];
   [17428268347612331188; 2833135872454503769; 4767009016213040191; 2797635963551733652;
     5312339450141126694; 5356668452102813289; 1234059326449530173; 7724302552453704877];
   [14868588146468890290; 12825281145595371185; 13097885453579304196; 7905326782341128063;
     14167525334039893569; 2082169701994688927; 12190787523818595537; 12602917751946636];
   [14890907856876319003; 16552240149997473409; 5634093690795187558; 4883714163685656967;
     12440776365164557866; 3923800234666204307; 9858064884105950259; 16040043470428402038];
   [5226594323142090582; 1243120476974621208; 12100812801659301173; 11228203327983058121;
     13891617888374767564; 5742893160230537107; 3763472116988983643; 2466655769425769160];
   [6254574254498162968; 14183251225809189357; 11565357354521717084; 17300657704266685688;
     310485250821938281; 16853586468012618118; 1978800426240373849; 6948188224235462572];
   [1486402152218690509; 5669161690283398991; 17943970877073781734; 17926851897715769433;
     13052837496695000666; 18138113741095562305; 94277733998400326; 10891359798487446420];
   [18280773820738154043; 13714589910668449566; 10639034072771185213; 14148790895768484219;
     18341268649720100165; 3096672942770686236; 12277596046563557393; 400461754528604020];
   [12955488253560265444; 11773677676764285572; 4833837465239476573; 17645852643693996619;
     6605134696140007471; 588040525114200273; 11001741536026769411; 17917086578469406776];
   [14893530806420712543; 727997185253761138; 3443873847340254325; 13095911531247069692;
     8330737046680948619; 6014364575875986011; 16851679856681761121; 17817965496543149594];
   [12823640325246269760; 13685256787930775147; 4682652317564502291; 4233879762155685988;
     11097258179564187322; 10804761421745472094; 16425553662684325570; 10228342822391192470];
   [9655649918592982429; 15982037224205216016; 2789340379599583566; 18446634980590558767;
     10126403438970932053; 16987881356213159169; 3276286096405673238; 3687894116707946994];
   [5114517305918572341; 14991840896855067187; 6905420609119477701; 5291651548570869410;
     17562609231968650695; 9667605565853693715; 13789802377508767704; 4732612214544179724];
   [14723209762776543479; 9416793489058151660; 10253725536659176653; 1714527036602866046;
     15323890982677230130; 11730381972445282021; 12216033376705242022; 2072934925475504801];
   [16432743296706583079; 1287600597097751716; 10482065724875379357; 3057917794534811538;
     4460508886913832366; 4574242228824269567; 15497000860205437868; 5258779806711233780];
   [2917690869176376459; 5552343643601973481; 10031668054487390843; 16702846882359561935;
     2597411547338924301; 9410807915094873680; 4038132370496189774; 7514851419529898000];
   [16733481957374600673; 12700052193129163508; 1271853891477855996; 3521154498147528034;
     1112717710392299742; 18436629675246557921; 4666660747304286620; 17140737263918422602];
   [10050632638543068589; 4307574521534980089; 18215752451612116735; 13480683264439855572;
     15555612733894467605; 2859638725042112817; 14083955561040135701; 13687444950227705291];
   [13942956444831714793; 13618865289968068724; 6824181772510810610; 13456233547779206111;
     4539269965952894262; 3277758063669404111; 16563706468587629579; 14829270292839622012];
   [16149299494464346121; 12729070118060987573; 2876331595276499461; 5896403089525423552;
     10054746017635131337; 15891729401440579521; 16686953925604982841; 11488450620635904896];
   [5319968881416215882; 6866530901595465606; 5603564167992047509; 262316557217489340;
     2327175406659849217; 11157393233775540666; 7173103141864251273; 6841693016933379637];
   [4813399736209008072; 13236902135375776760; 974177555869830927; 353051917785987980;
     13008662916818917899; 1646935213262692017; 701346762003107102; 8522515238742904717];
   [17082894626802242899; 818193631549863677; 4354134903774900392; 3125162783175126037;
     7939145240040161135; 13921901388219906947; 11058979495887741568; 6810363166932110582];
   [9937044286652006583; 1912910437194324315; 10167077539441507575; 16655767813717537030;
     5991613036521347162; 11632505203258666311; 15737012069006248518; 14639613963426293324];
   [9604751035609530679; 17541542306182196454; 1015064463500134038; 4057433516940758902;
     17752487478858501829; 16536027494361526705; 5418825649035372052; 7416877752114204045];
   [5298568465954566493; 16956613523505180500; 3230856115770679244; 2960635815920771091;
     1674467516137385144; 16959180593939909097; 6894998595391552502; 12412712984870068318];
   [18094737559774241307; 10930414073408006485; 632205812023241520; 4896184719192102012;
     18046601795562835805; 4874799261050045371; 14805515569601384764; 14962150510141817503];
   [14603649285241593324; 761417572415388640; 1226185771089878470; 3868252963893629278;
     10213206374844377176; 12513523831859935725; 5930658500326631305; 12194321302721369377];
   [11321798037787734142; 8980154259883873756; 11736938192888407579; 13192414074373038918;
     2476169510837310467; 1533959397343817152; 12606670949879920962; 7925350173351919368];
   [9072593798739179107; 12001755003233916850; 16756686135965682097; 15550825404583733749;
     8694668369540076298; 15457222476085186130; 5108598208140922837; 3620213722474373078]].

Definition POSEIDON_FULL_ROUNDS : nat := 8.
Definition POSEIDON_PARTIAL_ROUNDS : nat := 22.

(** The S-box, the seventh power. *)
Definition sbox (x : Z) : Z :=
  let x2 := x * x mod GOLDILOCKS_P in
  let x4 := x2 * x2 mod GOLDILOCKS_P in
  (x4 * x2 mod GOLDILOCKS_P) * x mod GOLDILOCKS_P.

Definition mds_row (row s : list Z) : Z :=
  foldl (λ sum '(m, x), (sum + m * x) mod GOLDILOCKS_P) 0 (zip row s).

(** One round: constants, S-box, matrix. *)
Definition poseidon_round (round : nat) (rc s : list Z) : list Z :=
  let s := zip_with (λ x c, (x + c) mod GOLDILOCKS_P) s rc in
  let half_full := (POSEIDON_FULL_ROUNDS / 2)%nat in
  let is_full := (round <? half_full)%nat || (length POSEIDON_RC_FULL - half_full <=? round)%nat in
  let s := if is_full then sbox <$> s
           else match s with x :: s => sbox x :: s | [] => [] end in
  (λ row, mds_row row s) <$> POSEIDON_MDS.

Fixpoint poseidon_rounds (round : nat) (rcs : list (list Z)) (s : list Z) : list Z :=
  match rcs with
  | [] => s
  | rc :: rcs => poseidon_rounds (S round) rcs (poseidon_round round rc s)
  end.

Definition poseidon_full_state (s : list Z) : list Z := poseidon_rounds 0 POSEIDON_RC_FULL s.

Definition poseidon_full_hash_state (s : list Z) : Z := default 0 (head (poseidon_full_state s)).

Definition poseidon4_hash_state (s : list Z) : Z := poseidon_full_hash_state s.
Definition poseidon4_hash3 (a b c : Z) : Z := poseidon4_hash_state [a; b; c; 0; 0; 0; 0; 0].
Definition poseidon4_hash (a b : Z) : Z := poseidon4_hash_state [a; b; 0; 0; 0; 0; 0; 0].

(** The single round of a Merkle path. *)
Definition merkle_poseidon_round (a b : Z) : Z :=
  let s0 := (a + 15949291268843349465) mod GOLDILOCKS_P in
  let s1 := (b + 14644164809401934923) mod GOLDILOCKS_P in
  (7 * sbox s0 + sbox s1) mod GOLDILOCKS_P.
End Field.

(** ** The machine *)
Module Vm.
Import Field.

Inductive VmError :=
  | OutOfGas
  | AssertionFailed
  | StackUnderflow
  | StackOverflow
  | InvalidOpcode (e : DecodeError)
  | InvalidPc
  | InvalidMemoryAccess.

Record Context := {
  sender : Z;
  nonce : Z;
  block_height : Z;
  initial_state_root : bytes;
}.

(** One row of the trace; [inference_model] is the source's
    [inference_model_commitment], and so on. *)
Record Step := {
  s_pc : Z;
  s_next_pc : Z;
  s_instruction : Instruction;
  s_src1_idx : Z;
  s_src2_idx : Z;
  s_dst_idx : Z;
  s_src1_val : Z;
  s_src2_val : Z;
  s_dst_val : Z;
  s_registers : list Z;
  s_memory_addr : option Z;
  s_memory_val : option Z;
  s_is_memory_write : bool;
  s_stack_pointer : Z;
  s_merkle_key : option Z;
  s_merkle_current : option Z;
  s_merkle_sibling : option Z;
  s_merkle_round : option Z;
  s_merkle_is_expand : bool;
  s_inference_model : option Z;
  s_inference_input : option Z;
  s_inference_output : option Z;
  s_inference_round : option Z;
  s_inference_is_expand : bool;
}.

(** The stack has its top first: the source only pushes, pops and measures
    it. *)
Record Vm := {
  registers : list Z;
  pc : Z;
  stack : list Z;
  memory : bytes;
  storage : gmap Z Z;
  events : list Z;
  context : Context;
  trace : list Step;
  halted : bool;
  gas_used : Z;
  gas_limit : Z;
  error : option VmError;
  state_writes : list (Z * Z);
  mainnet_mode : bool;
}.

Definition set_registers (vm : Vm) (v : list Z) : Vm :=
  {| registers := v; pc := pc vm; stack := stack vm; memory := memory vm;
     storage := storage vm; events := events vm; context := context vm; trace := trace vm;
     halted := halted vm; gas_used := gas_used vm; gas_limit := gas_limit vm;
     error := error vm; state_writes := state_writes vm; mainnet_mode := mainnet_mode vm |}.

Definition set_pc (vm : Vm) (v : Z) : Vm :=
  {| registers := registers vm; pc := v; stack := stack vm; memory := memory vm;
     storage := storage vm; events := events vm; context := context vm; trace := trace vm;
     halted := halted vm; gas_used := gas_used vm; gas_limit := gas_limit vm;
     error := error vm; state_writes := state_writes vm; mainnet_mode := mainnet_mode vm |}.

Definition set_stack (vm : Vm) (v : list Z) : Vm :=
  {| registers := registers vm; pc := pc vm; stack := v; memory := memory vm;
     storage := storage vm; events := events vm; context := context vm; trace := trace vm;
     halted := halted vm; gas_used := gas_used vm; gas_limit := gas_limit vm;
     error := error vm; state_writes := state_writes vm; mainnet_mode := mainnet_mode vm |}.

Definition set_memory (vm : Vm) (v : bytes) : Vm :=
  {| registers := registers vm; pc := pc vm; stack := stack vm; memory := v;
     storage := storage vm; events := events vm; context := context vm; trace := trace vm;
     halted := halted vm; gas_used := gas_used vm; gas_limit := gas_limit vm;
     error := error vm; state_writes := state_writes vm; mainnet_mode := mainnet_mode vm |}.

Definition set_storage (vm : Vm) (v : gmap Z Z) (w : list (Z * Z)) : Vm :=
  {| registers := registers vm; pc := pc vm; stack := stack vm; memory := memory vm;
     storage := v; events := events vm; context := context vm; trace := trace vm;
     halted := halted vm; gas_used := gas_used vm; gas_limit := gas_limit vm;
     error := error vm; state_writes := w; mainnet_mode := mainnet_mode vm |}.

Definition set_events (vm : Vm) (v : list Z) : Vm :=
  {| registers := registers vm; pc := pc vm; stack := stack vm; memory := memory vm;
     storage := storage vm; events := v; context := context vm; trace := trace vm;
     halted := halted vm; gas_used := gas_used vm; gas_limit := gas_limit vm;
     error := error vm; state_writes := state_writes vm; mainnet_mode := mainnet_mode vm |}.

Definition set_context (vm : Vm) (v : Context) : Vm :=
  {| registers := registers vm; pc := pc vm; stack := stack vm; memory := memory vm;
     storage := storage vm; events := events vm; context := v; trace := trace vm;
     halted := halted vm; gas_used := gas_used vm; gas_limit := gas_limit vm;
     error := error vm; state_writes := state_writes vm; mainnet_mode := mainnet_mode vm |}.

Definition set_trace (vm : Vm) (v : list Step) : Vm :=
  {| registers := registers vm; pc := pc vm; stack := stack vm; memory := memory vm;
     storage := storage vm; events := events vm; context := context vm; trace := v;
     halted := halted vm; gas_used := gas_used vm; gas_limit := gas_limit vm;
     error := error vm; state_writes := state_writes vm; mainnet_mode := mainnet_mode vm |}.

Definition set_gas (vm : Vm) (v : Z) : Vm :=
  {| registers := registers vm; pc := pc vm; stack := stack vm; memory := memory vm;
     storage := storage vm; events := events vm; context := context vm; trace := trace vm;
     halted := halted vm; gas_used := v; gas_limit := gas_limit vm; error := error vm;
     state_writes := state_writes vm; mainnet_mode := mainnet_mode vm |}.

Definition set_mainnet (vm : Vm) (v : bool) : Vm :=
  {| registers := registers vm; pc := pc vm; stack := stack vm; memory := memory vm;
     storage := storage vm; events := events vm; context := context vm; trace := trace vm;
     halted := halted vm; gas_used := gas_used vm; gas_limit := gas_limit vm;
     error := error vm; state_writes := state_writes vm; mainnet_mode := v |}.

Definition set_halted (vm : Vm) : Vm :=
  {| registers := registers vm; pc := pc vm; stack := stack vm; memory := memory vm;
     storage := storage vm; events := events vm; context := context vm; trace := trace vm;
     halted := true; gas_used := gas_used vm; gas_limit := gas_limit vm; error := error vm;
     state_writes := state_writes vm; mainnet_mode := mainnet_mode vm |}.

Definition halt_with (vm : Vm) (e : VmError) : Vm :=
  {| registers := registers vm; pc := pc vm; stack := stack vm; memory := memory vm;
     storage := storage vm; events := events vm; context := context vm; trace := trace vm;
     halted := true; gas_used := gas_used vm; gas_limit := gas_limit vm; error := Some e;
     state_writes := state_writes vm; mainnet_mode := mainnet_mode vm |}.

Record ExecutionReceipt := {
  r_success : bool;
  r_error : option VmError;
  r_gas_used : Z;
  r_exit_code : Z;
  r_events : list Z;
  r_final_pc : Z;
  r_trace_len : Z;
  r_state_writes_digest : bytes;
}.

(** [Instruction::decode] is the non-test branch. *)
Definition decode_instruction (raw : Z) (mainnet_mode : bool) : result DecodeError Instruction :=
  if mainnet_mode then decode_for_mainnet raw activation_default else decode raw.

Definition with_gas_limit (memory_size : nat) (gas_limit : Z) : Vm :=
  {| registers := replicate 32 0; pc := 0; stack := []; memory := replicate memory_size 0;
     storage := ∅; events := [];
     context := {| sender := 0; nonce := 0; block_height := 0;
                   initial_state_root := replicate 32 0 |};
     trace := []; halted := false; gas_used := 0; gas_limit := gas_limit; error := None;
     state_writes := []; mainnet_mode := false |}.

Definition new (memory_size : nat) : Vm := with_gas_limit memory_size 1000000.

Definition with_mainnet_mode (memory_size : nat) (gas_limit : Z) (mainnet : bool) : Vm :=
  set_mainnet (with_gas_limit memory_size gas_limit) mainnet.

Definition consume_gas (vm : Vm) (amount : Z) : result VmError unit * Vm :=
  let vm := set_gas vm (u64_sat_add (gas_used vm) amount) in
  if gas_limit vm <? gas_used vm then (Err OutOfGas, halt_with vm OutOfGas)
  else (Ok tt, vm).

Definition gas_cost (op : Opcode) : Z :=
  match op with
  | Halt => 0
  | Load | Store => 3
  | SRead => 8
  | SWrite => 12
  | Poseidon | VerifyMerkle | VerifyInference | PrivacyCommit | NullifierCheck
  | SumConservation => 10
  | Call | Ret | Push | Pop => 2
  | Syscall => 5
  | Div => 10
  | _ => 1
  end.

Definition memory_word_addr (base imm : Z) (memory_len : nat) : option Z :=
  let addr := base + imm in
  if addr <? 0 then None
  else
    addr ← u64_try_from addr;
    end_ ← u64_checked_add addr 8;
    if end_ <=? Z.of_nat memory_len then Some addr else None.

(** ** Instructions *)

(** [self.memory[addr..addr + 8]] as a word, and the store of one. *)
Definition read_word (mem : bytes) (addr : Z) : option Z :=
  if addr + 8 <=? Z.of_nat (length mem)
  then Some (BigEndian.le_value (take 8 (drop (Z.to_nat addr) mem)))
  else None.

Definition write_word (mem : bytes) (addr v : Z) : option bytes :=
  if addr + 8 <=? Z.of_nat (length mem)
  then Some (take (Z.to_nat addr) mem ++ le_bytes 8 v ++ drop (Z.to_nat addr + 8) mem)
  else None.

(** [addr.checked_add(n).is_some_and(|end| end <= self.memory.len())]. *)
Definition window_ok (mem : bytes) (addr n : Z) : bool :=
  match u64_checked_add addr n with
  | Some end_ => end_ <=? Z.of_nat (length mem)
  | None => false
  end.

Definition set_reg (vm : Vm) (idx v : Z) : option Vm :=
  if (0 <=? idx) && (idx <? Z.of_nat (length (registers vm)))
  then Some (set_registers vm (<[Z.to_nat idx := v]> (registers vm)))
  else None.

Definition reg (vm : Vm) (idx : Z) : option Z := registers vm !! Z.to_nat idx.

(** What an arm of the [match] in [step] hands to the trace row. *)
Record Outcome := {
  o_dst : Z;
  o_next : Z;
  o_addr : option Z;
  o_val : option Z;
  o_write : bool;
}.

Definition outcome (dst next : Z) : Outcome :=
  {| o_dst := dst; o_next := next; o_addr := None; o_val := None; o_write := false |}.

(** An error return and a normal end of an arm. *)
Definition fail (vm : Vm) (e : VmError) : option (result VmError Outcome * Vm) :=
  Some (Err e, halt_with vm e).

Definition finish (vm : Vm) (o : Outcome) : option (result VmError Outcome * Vm) :=
  Some (Ok o, set_pc vm (o_next o)).

(** The arms that write [rd] and go to the next instruction. *)
Definition write_rd (vm : Vm) (dst v : Z) : option (result VmError Outcome * Vm) :=
  vm' ← set_reg vm dst v;
  finish vm' (outcome v (pc vm + 1)).

(** The arms that leave [rd] alone when it is register 0. *)
Definition write_rd_pos (vm : Vm) (dst v : Z) : option (result VmError Outcome * Vm) :=
  if 0 <? dst then write_rd vm dst v else finish vm (outcome v (pc vm + 1)).

Definition flag (b : bool) : Z := if b then 1 else 0.

(** [(cur_pc as i64 + inst.imm as i64) as usize]. *)
Definition jump_target (cur_pc imm : Z) : Z := as_u64 (cur_pc + imm).

Definition slot_of (inst : Instruction) (src2_val : Z) : Z :=
  if imm inst =? -1 then as_i32 src2_val else imm inst.

Definition syscall (vm : Vm) (n src1_val : Z) : Z * Vm :=
  match n with
  | 1 => (sender (context vm), vm)
  | 2 => (block_height (context vm), vm)
  | 3 => (nonce (context vm), vm)
  | 6 => (u64_sat_add (block_height (context vm)) src1_val,
          set_events vm (events vm ++ [10551457; src1_val]))
  | _ => (0, vm)
  end.

Definition path_next (key i current sibling : Z) : Z :=
  if Z.land (Z.shiftr key i) 1 =? 0 then merkle_poseidon_round current sibling
  else merkle_poseidon_round sibling current.

(** The [for i in 0..64] of [VerifyMerkle]. *)
Fixpoint merkle_path (mem : bytes) (path_addr key : Z) (rounds : list Z) (current : Z) :
    option Z :=
  match rounds with
  | [] => Some current
  | i :: rounds =>
      sibling ← read_word mem (path_addr + 8 + i * 8);
      merkle_path mem path_addr key rounds (path_next key i current sibling)
  end.

Definition merkle_rounds : list Z := seqZ 0 64.

Definition exec_load (vm : Vm) (inst : Instruction) (src1_val : Z) :
    option (result VmError Outcome * Vm) :=
  if rs1 inst =? 0 then write_rd vm (rd inst) (as_u64 (imm inst))
  else
    match memory_word_addr src1_val (imm inst) (length (memory vm)) with
    | Some addr =>
        val ← read_word (memory vm) addr;
        vm' ← set_reg vm (rd inst) val;
        finish vm' {| o_dst := val; o_next := pc vm + 1; o_addr := Some addr;
                      o_val := Some val; o_write := false |}
    | None => fail vm InvalidMemoryAccess
    end.

Definition exec_store (vm : Vm) (inst : Instruction) (src1_val src2_val : Z) :
    option (result VmError Outcome * Vm) :=
  match memory_word_addr src1_val (imm inst) (length (memory vm)) with
  | Some addr =>
      mem ← write_word (memory vm) addr src2_val;
      finish (set_memory vm mem)
        {| o_dst := 0; o_next := pc vm + 1; o_addr := Some addr;
           o_val := Some src2_val; o_write := true |}
  | None => fail vm InvalidMemoryAccess
  end.

Definition exec_verify_merkle (vm : Vm) (inst : Instruction) (src1_val src2_val : Z) :
    option (result VmError Outcome * Vm) :=
  let path_addr := as_u64 (imm inst) in
  if window_ok (memory vm) path_addr (8 * 65) then
    key ← read_word (memory vm) path_addr;
    current ← merkle_path (memory vm) path_addr key merkle_rounds src2_val;
    let result := flag (current =? src1_val) in
    vm' ← set_reg vm (rd inst) result;
    finish vm' {| o_dst := result; o_next := pc vm + 1; o_addr := Some path_addr;
                  o_val := Some key; o_write := false |}
  else write_rd vm (rd inst) 0.

Definition exec_verify_inference (vm : Vm) (inst : Instruction) (src1_val : Z) :
    option (result VmError Outcome * Vm) :=
  if window_ok (memory vm) src1_val (8 * 4) then
    model_c ← read_word (memory vm) src1_val;
    input_c ← read_word (memory vm) (src1_val + 8);
    output_c ← read_word (memory vm) (src1_val + 16);
    write_rd_pos vm (rd inst) (flag (output_c =? poseidon4_hash model_c input_c))
  else write_rd_pos vm (rd inst) 0.

(** The [match inst.opcode] of [step]; [pc vm] is still [cur_pc]. *)
Definition exec (vm : Vm) (inst : Instruction) (src1_val src2_val : Z) :
    option (result VmError Outcome * Vm) :=
  let cur_pc := pc vm in
  let dst := rd inst in
  match opcode inst with
  | Halt => finish (set_halted vm) (outcome 0 cur_pc)
  | Add => write_rd vm dst (field_add_goldilocks src1_val src2_val)
  | Sub => write_rd vm dst (field_sub_goldilocks src1_val src2_val)
  | Mul => write_rd vm dst (field_mul_goldilocks src1_val src2_val)
  | Div =>
      write_rd vm dst
        (if negb (src2_val =? 0)
         then src1_val * field_inverse_goldilocks src2_val mod GOLDILOCKS_P else 0)
  | Inv =>
      write_rd vm dst (if negb (src1_val =? 0) then field_inverse_goldilocks src1_val else 0)
  | And => write_rd vm dst (Z.land src1_val src2_val)
  | Not => write_rd vm dst (flag (src1_val =? 0))
  | Load => exec_load vm inst src1_val
  | Store => exec_store vm inst src1_val src2_val
  | Jmp => finish vm (outcome 0 (jump_target cur_pc (imm inst)))
  | Jnz =>
      finish vm (outcome 0 (if negb (src1_val =? 0) then jump_target cur_pc (imm inst)
                            else cur_pc + 1))
  | Call =>
      if (1024 <=? length (stack vm))%nat then fail vm StackOverflow
      else finish (set_stack vm (cur_pc + 1 :: stack vm))
             (outcome (cur_pc + 1) (jump_target cur_pc (imm inst)))
  | Ret =>
      match stack vm with
      | target :: rest => finish (set_stack vm rest) (outcome target target)
      | [] => fail vm StackUnderflow
      end
  | Push =>
      if (1024 <=? length (stack vm))%nat then fail vm StackOverflow
      else finish (set_stack vm (src1_val :: stack vm)) (outcome src1_val (cur_pc + 1))
  | Pop =>
      match stack vm with
      | val :: rest => write_rd (set_stack vm rest) dst val
      | [] => fail vm StackUnderflow
      end
  | Eq => write_rd vm dst (flag (src1_val =? src2_val))
  | Neq => write_rd vm dst (flag (negb (src1_val =? src2_val)))
  | Lt => write_rd vm dst (flag (src1_val <? src2_val))
  | Gt => write_rd vm dst (flag (src2_val <? src1_val))
  | Lte => write_rd vm dst (flag (src1_val <=? src2_val))
  | Gte => write_rd vm dst (flag (src2_val <=? src1_val))
  | Assert =>
      if src1_val =? 0 then fail vm AssertionFailed else finish vm (outcome 0 (cur_pc + 1))
  | SRead => write_rd vm dst (default 0 (storage vm !! slot_of inst src2_val))
  | SWrite =>
      let slot := slot_of inst src2_val in
      finish (set_storage vm (<[slot := src1_val]> (storage vm))
                (state_writes vm ++ [(slot, src1_val)]))
        (outcome 0 (cur_pc + 1))
  | Poseidon => write_rd vm dst (poseidon4_hash src1_val src2_val)
  | Log => finish (set_events vm (events vm ++ [src1_val])) (outcome 0 (cur_pc + 1))
  | Syscall => let '(result, vm) := syscall vm (imm inst) src1_val in write_rd vm dst result
  | VerifyMerkle => exec_verify_merkle vm inst src1_val src2_val
  | VerifyInference => exec_verify_inference vm inst src1_val
  | PrivacyCommit =>
      let recipient := if imm inst <? 0 then as_u64 (GOLDILOCKS_P - Z.abs (imm inst))
                       else imm inst in
      write_rd_pos vm dst (poseidon4_hash3 src1_val src2_val recipient)
  | NullifierCheck =>
      write_rd_pos vm dst (flag (poseidon4_hash src2_val DOMAIN_NULLIFIER =? src1_val))
  | SumConservation =>
      write_rd_pos vm dst
        (flag ((src1_val <? GOLDILOCKS_P) && (src2_val <? GOLDILOCKS_P)
               && (src1_val =? src2_val)))
  end.

(** ** Trace rows *)

(** A row without Merkle or inference columns. *)
Definition row (vm : Vm) (cur_pc : Z) (inst : Instruction) (src1_val src2_val : Z)
    (o : Outcome) : Step :=
  {| s_pc := cur_pc; s_next_pc := o_next o; s_instruction := inst; s_src1_idx := rs1 inst;
     s_src2_idx := rs2 inst; s_dst_idx := rd inst; s_src1_val := src1_val;
     s_src2_val := src2_val; s_dst_val := o_dst o; s_registers := registers vm;
     s_memory_addr := o_addr o; s_memory_val := o_val o; s_is_memory_write := o_write o;
     s_stack_pointer := Z.of_nat (length (stack vm)); s_merkle_key := None;
     s_merkle_current := None; s_merkle_sibling := None; s_merkle_round := None;
     s_merkle_is_expand := false; s_inference_model := None; s_inference_input := None;
     s_inference_output := None; s_inference_round := None; s_inference_is_expand := false |}.

Definition patch_key (key cur_pc : Z) (s : Step) : Step :=
  {| s_pc := s_pc s; s_next_pc := cur_pc; s_instruction := s_instruction s;
     s_src1_idx := s_src1_idx s; s_src2_idx := s_src2_idx s; s_dst_idx := s_dst_idx s;
     s_src1_val := s_src1_val s; s_src2_val := s_src2_val s; s_dst_val := s_dst_val s;
     s_registers := s_registers s; s_memory_addr := s_memory_addr s;
     s_memory_val := s_memory_val s; s_is_memory_write := s_is_memory_write s;
     s_stack_pointer := s_stack_pointer s; s_merkle_key := Some key;
     s_merkle_current := s_merkle_current s; s_merkle_sibling := s_merkle_sibling s;
     s_merkle_round := s_merkle_round s; s_merkle_is_expand := s_merkle_is_expand s;
     s_inference_model := s_inference_model s; s_inference_input := s_inference_input s;
     s_inference_output := s_inference_output s; s_inference_round := s_inference_round s;
     s_inference_is_expand := s_inference_is_expand s |}.

Definition patch_current (current : Z) (s : Step) : Step :=
  {| s_pc := s_pc s; s_next_pc := s_next_pc s; s_instruction := s_instruction s;
     s_src1_idx := s_src1_idx s; s_src2_idx := s_src2_idx s; s_dst_idx := s_dst_idx s;
     s_src1_val := s_src1_val s; s_src2_val := s_src2_val s; s_dst_val := s_dst_val s;
     s_registers := s_registers s; s_memory_addr := s_memory_addr s;
     s_memory_val := s_memory_val s; s_is_memory_write := s_is_memory_write s;
     s_stack_pointer := s_stack_pointer s; s_merkle_key := s_merkle_key s;
     s_merkle_current := Some current; s_merkle_sibling := s_merkle_sibling s;
     s_merkle_round := s_merkle_round s; s_merkle_is_expand := s_merkle_is_expand s;
     s_inference_model := s_inference_model s; s_inference_input := s_inference_input s;
     s_inference_output := s_inference_output s; s_inference_round := s_inference_round s;
     s_inference_is_expand := s_inference_is_expand s |}.

Definition patch_commitments (m i o cur_pc : Z) (s : Step) : Step :=
  {| s_pc := s_pc s; s_next_pc := cur_pc; s_instruction := s_instruction s;
     s_src1_idx := s_src1_idx s; s_src2_idx := s_src2_idx s; s_dst_idx := s_dst_idx s;
     s_src1_val := s_src1_val s; s_src2_val := s_src2_val s; s_dst_val := s_dst_val s;
     s_registers := s_registers s; s_memory_addr := s_memory_addr s;
     s_memory_val := s_memory_val s; s_is_memory_write := s_is_memory_write s;
     s_stack_pointer := s_stack_pointer s; s_merkle_key := s_merkle_key s;
     s_merkle_current := s_merkle_current s; s_merkle_sibling := s_merkle_sibling s;
     s_merkle_round := s_merkle_round s; s_merkle_is_expand := s_merkle_is_expand s;
     s_inference_model := Some m; s_inference_input := Some i; s_inference_output := Some o;
     s_inference_round := s_inference_round s;
     s_inference_is_expand := s_inference_is_expand s |}.

Definition patch_last (f : Step → Step) (t : list Step) : list Step := alter f (length t - 1)%nat t.

(** The row of round [i] of a Merkle path. *)
Definition merkle_row (vm : Vm) (cur_pc imm addr key input sibling i : Z) : Step :=
  {| s_pc := cur_pc; s_next_pc := if i =? 63 then cur_pc + 1 else cur_pc;
     s_instruction := {| opcode := VerifyMerkle; rd := 0; rs1 := 0; rs2 := 0; Isa.imm := imm |};
     s_src1_idx := 0; s_src2_idx := 0; s_dst_idx := 0; s_src1_val := 0; s_src2_val := 0;
     s_dst_val := 0; s_registers := registers vm; s_memory_addr := Some addr;
     s_memory_val := Some sibling; s_is_memory_write := false;
     s_stack_pointer := Z.of_nat (length (stack vm)); s_merkle_key := Some key;
     s_merkle_current := Some input; s_merkle_sibling := Some sibling; s_merkle_round := Some i;
     s_merkle_is_expand := true; s_inference_model := None; s_inference_input := None;
     s_inference_output := None; s_inference_round := None; s_inference_is_expand := false |}.

Fixpoint merkle_rows (vm : Vm) (cur_pc imm path_addr key : Z) (rounds : list Z) (current : Z) :
    option (list Step * Z) :=
  match rounds with
  | [] => Some ([], current)
  | i :: rounds =>
      let sibling_addr := path_addr + 8 + i * 8 in
      sibling ← read_word (memory vm) sibling_addr;
      '(rows, out) ← merkle_rows vm cur_pc imm path_addr key rounds
                       (path_next key i current sibling);
      Some (merkle_row vm cur_pc imm sibling_addr key current sibling i :: rows, out)
  end.

Definition expand_merkle (vm : Vm) (inst : Instruction) (cur_pc src2_val : Z) : option Vm :=
  let path_addr := as_u64 (imm inst) in
  if window_ok (memory vm) path_addr (8 * 65) then
    key ← read_word (memory vm) path_addr;
    let t := patch_last (patch_key key cur_pc) (trace vm) in
    '(rows, current) ← merkle_rows vm cur_pc (imm inst) path_addr key merkle_rounds src2_val;
    let t := t ++ rows in
    Some (set_trace vm (alter (patch_current current) (length t - 1 - 64)%nat t))
  else Some vm.

(** Row [round] of an inference proof. *)
Definition inference_row (vm : Vm) (cur_pc : Z) (inst : Instruction) (src1_val src2_val m i o : Z)
    (round : Z) : Step :=
  {| s_pc := cur_pc; s_next_pc := if round =? 7 then cur_pc + 1 else cur_pc;
     s_instruction := {| opcode := VerifyInference; rd := 0; rs1 := rs1 inst; rs2 := rs2 inst;
                         imm := round |};
     s_src1_idx := rs1 inst; s_src2_idx := rs2 inst; s_dst_idx := 0; s_src1_val := src1_val;
     s_src2_val := src2_val; s_dst_val := 0; s_registers := registers vm;
     s_memory_addr := None; s_memory_val := None; s_is_memory_write := false;
     s_stack_pointer := Z.of_nat (length (stack vm)); s_merkle_key := None;
     s_merkle_current := None; s_merkle_sibling := None; s_merkle_round := None;
     s_merkle_is_expand := false; s_inference_model := Some m; s_inference_input := Some i;
     s_inference_output := Some o; s_inference_round := Some round;
     s_inference_is_expand := true |}.

Definition expand_inference (vm : Vm) (inst : Instruction) (cur_pc src1_val src2_val : Z) :
    option Vm :=
  if window_ok (memory vm) src1_val (8 * 4) then
    m ← read_word (memory vm) src1_val;
    i ← read_word (memory vm) (src1_val + 8);
    o ← read_word (memory vm) (src1_val + 16);
    let t := patch_last (patch_commitments m i o cur_pc) (trace vm) in
    Some (set_trace vm (t ++ (inference_row vm cur_pc inst src1_val src2_val m i o <$> seqZ 0 8)))
  else Some vm.

Definition expand (vm : Vm) (inst : Instruction) (cur_pc src1_val src2_val : Z) : option Vm :=
  match opcode inst with
  | VerifyMerkle => expand_merkle vm inst cur_pc src2_val
  | VerifyInference => expand_inference vm inst cur_pc src1_val src2_val
  | _ => Some vm
  end.

(** ** Running *)

Definition zero_r0 (vm : Vm) : option Vm := set_reg vm 0 0.

Definition step (vm : Vm) (program : list Z) : option (result VmError unit * Vm) :=
  vm ← zero_r0 vm;
  if halted vm then Some (Ok tt, vm)
  else if Z.of_nat (length program) <=? pc vm then Some (Err InvalidPc, halt_with vm InvalidPc)
  else
    raw_inst ← program !! Z.to_nat (pc vm);
    match decode_instruction raw_inst (mainnet_mode vm) with
    | Err e => Some (Err (InvalidOpcode e), halt_with vm (InvalidOpcode e))
    | Ok inst =>
        let cur_pc := pc vm in
        match consume_gas vm (gas_cost (opcode inst)) with
        | (Err e, vm) => Some (Err e, vm)
        | (Ok _, vm) =>
            src1_val ← reg vm (rs1 inst);
            src2_val ← reg vm (rs2 inst);
            '(r, vm) ← exec vm inst src1_val src2_val;
            match r with
            | Err e => Some (Err e, vm)
            | Ok o =>
                vm ← zero_r0 vm;
                vm ← expand (set_trace vm (trace vm ++ [row vm cur_pc inst src1_val src2_val o]))
                       inst cur_pc src1_val src2_val;
                Some (Ok tt, vm)
            end
        end
    end.

(** The [while !self.halted] of [run_receipt]; [None] is a panic or too little
    fuel. *)
Fixpoint run_loop (fuel : nat) (vm : Vm) (program : list Z) : option (option VmError * Vm) :=
  if halted vm then Some (None, vm)
  else
    match fuel with
    | O => None
    | S fuel =>
        '(r, vm) ← step vm program;
        match r with
        | Err e => Some (Some e, vm)
        | Ok _ => run_loop fuel vm program
        end
    end.

Definition is_halt (s : Step) : bool := bool_decide (opcode (s_instruction s) = Halt).

(** The synthetic row that closes the trace of a failed run. *)
Definition close_trace (vm : Vm) : Vm :=
  let last_is_halt := match last (trace vm) with Some s => is_halt s | None => false end in
  if last_is_halt then vm
  else
    set_trace vm
      (trace vm ++
         [row vm (pc vm) {| opcode := Halt; rd := 0; rs1 := 0; rs2 := 0; imm := 0 |} 0 0
            (outcome 0 (pc vm))]).

(** One link of the digest chain: [*slot as u64] sign-extends. *)
Definition digest_link (acc : list Z) (w : Z * Z) : list Z :=
  poseidon_full_state ([as_u64 w.1; w.2] ++ take 4 acc ++ [0; 0]).

Definition digest_acc (writes : list (Z * Z)) : list Z :=
  foldl digest_link (replicate 8 0) writes.

Definition state_writes_digest (writes : list (Z * Z)) : bytes :=
  take 4 (digest_acc writes) ≫= le_bytes 8.

Definition receipt (error : option VmError) (vm : Vm) : ExecutionReceipt :=
  {| r_success := match error with None => true | Some _ => false end; r_error := error;
     r_gas_used := gas_used vm;
     r_exit_code := match error with None => 0 | Some _ => 1 end; r_events := events vm;
     r_final_pc := pc vm; r_trace_len := Z.of_nat (length (trace vm));
     r_state_writes_digest := state_writes_digest (state_writes vm) |}.

Definition run_receipt (fuel : nat) (vm : Vm) (program : list Z) :
    option (ExecutionReceipt * Vm) :=
  '(error, vm) ← run_loop fuel vm program;
  let vm := match error with Some _ => close_trace vm | None => vm end in
  Some (receipt error vm, vm).

Definition run (fuel : nat) (vm : Vm) (program : list Z) :
    option (result VmError ExecutionReceipt * Vm) :=
  '(receipt, vm) ← run_receipt fuel vm program;
  Some (match r_error receipt with Some e => Err e | None => Ok receipt end, vm).
End Vm.

(** ** The canonical programs

    [private_transfer.rs] and [syscall_context.rs]. *)
Module Programs.

Definition inst (op : Opcode) (rd rs1 rs2 imm : Z) : Z :=
  encode {| opcode := op; rd := rd; rs1 := rs1; rs2 := rs2; imm := imm |}.

(** The length check of both builders; the error is the emitted length. *)
Definition checked (ops : nat) (prog : list Z) : result nat (list Z) :=
  if negb (length prog =? ops)%nat then Err (length prog) else Ok prog.

Definition CANONICAL_AMOUNT : Z := 1000.
Definition CANONICAL_BLINDING : Z := 42.
Definition CANONICAL_RECIPIENT : Z := 77.
Definition CANONICAL_SUM_IN : Z := 1000.
Definition CANONICAL_SUM_OUT : Z := 1000.
Definition CANONICAL_CLAIMED_NULLIFIER : Z := 0x12345678.
Definition CANONICAL_SECRET : Z := 0x0badc0de.

Definition build_private_transfer_check_program : result nat (list Z) :=
  checked 12
    [inst Load 1 0 0 CANONICAL_AMOUNT; inst Load 2 0 0 CANONICAL_BLINDING;
     inst PrivacyCommit 4 1 2 CANONICAL_RECIPIENT;
     inst Load 5 0 0 CANONICAL_SUM_IN; inst Load 6 0 0 CANONICAL_SUM_OUT;
     inst SumConservation 7 5 6 0;
     inst Load 8 0 0 CANONICAL_CLAIMED_NULLIFIER; inst Load 9 0 0 CANONICAL_SECRET;
     inst NullifierCheck 10 8 9 0;
     inst Log 0 7 0 0; inst Log 0 10 0 0; inst Halt 0 0 0 0].

Definition SYSCALL_SENDER : Z := 1.
Definition SYSCALL_BLOCK_HEIGHT : Z := 2.
Definition SYSCALL_NONCE : Z := 3.

Definition build_syscall_context_check_program : result nat (list Z) :=
  checked 7
    [inst Syscall 1 0 0 SYSCALL_SENDER; inst Syscall 2 0 0 SYSCALL_BLOCK_HEIGHT;
     inst Syscall 3 0 0 SYSCALL_NONCE;
     inst Log 0 1 0 0; inst Log 0 2 0 0; inst Log 0 3 0 0; inst Halt 0 0 0 0].
End Programs.
