(* ===== verification/Goldilocks.v ===== *)
(** * The Goldilocks field

    The multiplicative group of the field the virtual machine computes in:
    [field_inverse_goldilocks] inverts, [x -> x^7] is injective, and the
    Poseidon permutation of [budzero/bud-vm/src/lib.rs] is a permutation.

    The group is cyclic: 7 has order [P - 1], so its powers are all the
    nonzero residues, and Fermat's theorem follows without appeal to the
    primality of [P].  The order is checked at the prime divisors of
    [P - 1 = 2^32 * 3 * 5 * 17 * 257 * 65537]. *)
From stdpp Require Import base tactics numbers list sets.
From Stdlib Require Import ZArith Zdivisibility Lia.
From S2P Require Import Prelude Vm.
Import Field.

(** ** Powers modulo [p] *)
Module Group.

Section order.
Context (p g : Z).
Hypothesis Hp : 1 < p.

Definition unit_at (n : Z) : Prop := g ^ n mod p = 1.

Lemma mod_one : 1 mod p = 1.
Proof. apply Z.mod_small. lia. Qed.

Lemma pow_unit x n : x mod p = 1 → 0 ≤ n → x ^ n mod p = 1.
Proof.
  intros Hx Hn. rewrite <- Z.mod_pow_l, Hx, Z.pow_1_l by lia. apply mod_one.
Qed.

Lemma unit_at_mult d k : 0 ≤ d → 0 ≤ k → unit_at d → unit_at (d * k).
Proof. intros Hd Hk Hu. unfold unit_at. rewrite Z.pow_mul_r by done. by apply pow_unit. Qed.

Lemma unit_at_mod a b : 0 ≤ a → 0 < b → unit_at a → unit_at b → unit_at (a mod b).
Proof.
  intros Ha Hb Hua Hub. pose proof (Z.mod_pos_bound a b Hb). pose proof (Z.div_pos a b Ha Hb).
  unfold unit_at in *. rewrite (Z.div_mod a b) in Hua by lia.
  rewrite Z.pow_add_r, Z.pow_mul_r in Hua by lia.
  by rewrite <- Zmult_mod_idemp_l, pow_unit, Z.mul_1_l in Hua by lia.
Qed.

Lemma unit_at_gcd a b : 0 ≤ a → 0 ≤ b → unit_at a → unit_at b → unit_at (Z.gcd a b).
Proof.
  remember (Z.to_nat b) as n eqn:Hn. revert a b Hn. induction (lt_wf n) as [n _ IH].
  intros a b -> Ha Hb Hua Hub. destruct (decide (b = 0)) as [->|Hne].
  { by rewrite Z.gcd_0_r, Z.abs_eq. }
  pose proof (Z.mod_pos_bound a b ltac:(lia)).
  rewrite Z.gcd_comm, <- Z.gcd_mod, Z.gcd_comm by lia.
  eapply (IH (Z.to_nat (a mod b))); [lia|reflexivity|lia|lia|done|]. apply unit_at_mod; (lia || done).
Qed.

Hypothesis Hunit : unit_at (p - 1).
Hypothesis Horder : ∀ n, 0 < n < p - 1 → ¬ unit_at n.

Lemma powers_distinct i j :
  0 ≤ i < p - 1 → 0 ≤ j < p - 1 → g ^ i mod p = g ^ j mod p → i = j.
Proof.
  assert (∀ i j, 0 ≤ i < j → j < p - 1 → g ^ i mod p = g ^ j mod p → False) as Hwlog.
  { clear i j. intros i j Hi Hj Heq. apply (Horder (j - i)); [lia|]. unfold unit_at in *.
    replace (g ^ (j - i)) with (g ^ (j - i) * 1) by lia.
    rewrite <- Zmult_mod_idemp_r, mod_one, <- Hunit, Zmult_mod_idemp_r, <- Z.pow_add_r by lia.
    replace (j - i + (p - 1)) with (j + (p - 1 - i)) by lia. rewrite Z.pow_add_r by lia.
    rewrite <- Zmult_mod_idemp_l, <- Heq, Zmult_mod_idemp_l, <- Z.pow_add_r by lia.
    by replace (i + (p - 1 - i)) with (p - 1) by lia. }
  intros Hi Hj Heq. destruct (Z.lt_trichotomy i j) as [Hlt|[Hij|Hgt]]; [|done|]; exfalso.
  - by apply (Hwlog i j); [lia|lia|].
  - by apply (Hwlog j i); [lia|lia|].
Qed.

Lemma power_nonzero i : 0 ≤ i < p - 1 → 1 ≤ g ^ i mod p < p.
Proof.
  intros Hi. pose proof (Z.mod_pos_bound (g ^ i) p ltac:(lia)) as Hb.
  destruct (decide (g ^ i mod p = 0)) as [Hz|]; [|lia]. exfalso.
  unfold unit_at in Hunit. replace (p - 1) with (i + (p - 1 - i)) in Hunit by lia.
  rewrite Z.pow_add_r, <- Zmult_mod_idemp_l, Hz, Z.mul_0_l, Zmod_0_l in Hunit by lia. lia.
Qed.

(** Every nonzero residue is a power of [g]. *)
Lemma power_surjective a : 0 < a < p → ∃ i, 0 ≤ i < p - 1 ∧ g ^ i mod p = a.
Proof.
  intros Ha. set (powers := (λ i, g ^ i mod p) <$> seqZ 0 (p - 1)).
  assert (a ∈ powers) as Hin.
  { apply list_elem_of_In. apply (List.NoDup_length_incl (l := powers) (l' := seqZ 1 (p - 1))).
    - apply NoDup_ListNoDup. apply NoDup_fmap_2_strong; [|apply NoDup_seqZ].
      intros i j Hi%elem_of_seqZ Hj%elem_of_seqZ. apply powers_distinct; lia.
    - unfold powers. by rewrite length_fmap, !length_seqZ.
    - intros x Hx%list_elem_of_In. apply list_elem_of_fmap in Hx as (i & -> & Hi%elem_of_seqZ).
      apply list_elem_of_In, elem_of_seqZ. pose proof (power_nonzero i). lia.
    - apply list_elem_of_In, elem_of_seqZ. lia. }
  apply list_elem_of_fmap in Hin as (i & -> & Hi%elem_of_seqZ). exists i. split; [lia|done].
Qed.

Lemma fermat a : a mod p ≠ 0 → a ^ (p - 1) mod p = 1.
Proof.
  intros Ha. pose proof (Z.mod_pos_bound a p ltac:(lia)).
  destruct (power_surjective (a mod p)) as (i & Hi & Hg); [lia|].
  rewrite <- Z.mod_pow_l, <- Hg, Z.mod_pow_l, <- Z.pow_mul_r, Z.mul_comm, Z.pow_mul_r by lia.
  apply pow_unit; [exact Hunit|lia].
Qed.
End order.
End Group.

(** ** The group of the field *)
Module FieldGroup.
Import Group.

Lemma P_gt_1 : 1 < GOLDILOCKS_P.
Proof. done. Qed.

(** The loop of [field_inverse_goldilocks] is exponentiation. *)
Lemma pow_loop_spec rounds e b r :
  0 ≤ e < 2 ^ Z.of_nat rounds →
  pow_loop rounds e b r mod GOLDILOCKS_P = r * b ^ e mod GOLDILOCKS_P.
Proof.
  revert e b r. induction rounds as [|rounds IH]; intros e b r He.
  { assert (e = 0) as -> by (cbn in He; lia). cbn. f_equal. lia. }
  rewrite Nat2Z.inj_succ, Z.pow_succ_r in He by lia. cbn [pow_loop].
  destruct (0 <? e) eqn:Hpos; [apply Z.ltb_lt in Hpos|apply Z.ltb_ge in Hpos].
  2: { assert (e = 0) as -> by lia. f_equal. lia. }
  pose proof (Z.land_ones e 1 ltac:(lia)) as Hland. change (Z.ones 1) with 1 in Hland.
  rewrite Hland, Z.shiftr_div_pow2 by lia.
  change (2 ^ 1) with 2 in *. cbv zeta. pose proof (Z.div_mod e 2 ltac:(lia)) as Hdm.
  rewrite IH by (split; [apply Z.div_pos; lia|apply Z.div_lt_upper_bound; lia]).
  rewrite <- Zmult_mod_idemp_r, Z.mod_pow_l, Zmult_mod_idemp_r.
  rewrite <- Z.pow_2_r, <- Z.pow_mul_r by (lia || apply Z.div_pos; lia).
  destruct (e mod 2 =? 1) eqn:Hbit; [apply Z.eqb_eq in Hbit|apply Z.eqb_neq in Hbit].
  - rewrite <- Zmult_mod_idemp_l, Zmod_mod, Zmult_mod_idemp_l. f_equal.
    replace e with (1 + 2 * (e / 2)) at 2 by lia. rewrite Z.pow_add_r, Z.pow_1_r by
      (lia || pose proof (Z.div_pos e 2); lia). ring.
  - pose proof (Z.mod_pos_bound e 2 ltac:(lia)). f_equal. f_equal. f_equal. lia.
Qed.

Definition pow_mod (b e : Z) : Z := pow_loop 64 e b 1.

Lemma pow_mod_spec b e :
  0 ≤ e < 2 ^ 64 → pow_mod b e mod GOLDILOCKS_P = b ^ e mod GOLDILOCKS_P.
Proof. intros He. unfold pow_mod. rewrite pow_loop_spec by done. f_equal. lia. Qed.

Lemma generator_unit : unit_at GOLDILOCKS_P 7 (GOLDILOCKS_P - 1).
Proof. unfold unit_at. rewrite <- pow_mod_spec by done. vm_compute. reflexivity. Qed.

(** Trial division by [n], [n + 1], ... *)
Fixpoint no_divisor (fuel : nat) (n q : Z) : bool :=
  match fuel with
  | O => true
  | S fuel => (Z.gcd n q =? 1) && no_divisor fuel (n + 1) q
  end.

Lemma no_divisor_gcd fuel n q k :
  no_divisor fuel n q = true → n ≤ k < n + Z.of_nat fuel → Z.gcd k q = 1.
Proof.
  revert n. induction fuel as [|fuel IH]; intros n Hn Hk; [lia|].
  cbn [no_divisor] in Hn. apply andb_prop in Hn as [H1%Z.eqb_eq Hn].
  destruct (decide (k = n)) as [->|Hne]; [done|]. apply (IH (n + 1)); [done|lia].
Qed.

Definition factors : list Z := [2; 3; 5; 17; 257; 65537].

(** A factor divides [m] or is coprime to it. *)
Lemma factor_coprime q m : q ∈ factors → m mod q = 0 ∨ Z.coprime m q.
Proof.
  intros Hq. assert (1 < q ∧ no_divisor (Z.to_nat (q - 1)) 1 q = true) as [Hq1 Hn].
  { unfold factors in Hq. rewrite !elem_of_cons, elem_of_nil in Hq.
    destruct Hq as [->|[->|[->|[->|[->|[->|[]]]]]]]; (split; [lia|vm_compute; reflexivity]). }
  pose proof (Z.mod_pos_bound m q ltac:(lia)).
  destruct (decide (m mod q = 0)); [by left|right]. unfold Z.coprime.
  rewrite Z.gcd_comm, <- Z.gcd_mod by lia. eapply no_divisor_gcd; [exact Hn|lia].
Qed.

Lemma order_factor m :
  (m | GOLDILOCKS_P - 1) → 1 < m → ∃ q, q ∈ factors ∧ m mod q = 0.
Proof.
  intros Hdiv Hm.
  destruct (decide (Exists (λ q, m mod q = 0) factors)) as [He|Hne].
  { apply Exists_exists in He as (q & Hq & Hd). by exists q. }
  exfalso. apply (not_Exists_Forall _) in Hne. rewrite Forall_forall in Hne.
  assert (∀ q, q ∈ factors → Z.coprime m q) as Hrel.
  { intros q Hq. destruct (factor_coprime q m Hq) as [H0|]; [|done]. by apply Hne in H0. }
  assert (Z.coprime m (2 ^ 32 * 3 * 5 * 17 * 257 * 65537)) as Hr.
  { do 5 (apply Z.coprime_mul_r; [|apply Hrel; unfold factors; set_solver]).
    apply Z.coprime_pow_r; [lia|]. apply Hrel. unfold factors. set_solver. }
  pose proof (Z.gcd_greatest m _ m (Z.divide_refl m) Hdiv) as Hg.
  change (GOLDILOCKS_P - 1) with (2 ^ 32 * 3 * 5 * 17 * 257 * 65537) in Hg. rewrite Hr in Hg.
  apply Z.divide_pos_le in Hg; lia.
Qed.

Lemma generator_not_unit q :
  q ∈ factors → ¬ unit_at GOLDILOCKS_P 7 ((GOLDILOCKS_P - 1) / q).
Proof.
  unfold unit_at, factors. rewrite !elem_of_cons, elem_of_nil.
  intros [->|[->|[->|[->|[->|[->|[]]]]]]]; rewrite <- pow_mod_spec by done; vm_compute; discriminate.
Qed.

Lemma generator_order n : 0 < n < GOLDILOCKS_P - 1 → ¬ unit_at GOLDILOCKS_P 7 n.
Proof.
  intros Hn Hu. set (N := GOLDILOCKS_P - 1) in *.
  assert (unit_at GOLDILOCKS_P 7 (Z.gcd n N)) as Hd
    by (apply unit_at_gcd; [done|lia|lia|done|apply generator_unit]).
  pose proof (Z.gcd_divide_l n N) as Hdn. pose proof (Z.gcd_divide_r n N) as [m Hm].
  assert (0 < Z.gcd n N) as Hpos.
  { pose proof (Z.gcd_nonneg n N). destruct (decide (Z.gcd n N = 0)) as [H0|]; [|lia].
    apply Z.gcd_eq_0 in H0. lia. }
  apply Z.divide_pos_le in Hdn; [|lia]. set (d := Z.gcd n N) in *.
  destruct (order_factor m) as (q & Hq & Hmq); [by exists d; fold N; lia|nia|].
  assert (1 < q).
  { unfold factors in Hq. rewrite !elem_of_cons, elem_of_nil in Hq.
    destruct Hq as [->|[->|[->|[->|[->|[->|[]]]]]]]; lia. }
  apply Z.mod_divide in Hmq as [k Hk]; [|lia]. apply (generator_not_unit q Hq). fold N.
  replace (N / q) with (d * k); [apply unit_at_mult; (done || nia)|].
  apply Z.div_unique_exact; nia.
Qed.

Lemma goldilocks_fermat a : a mod GOLDILOCKS_P ≠ 0 → a ^ (GOLDILOCKS_P - 1) mod GOLDILOCKS_P = 1.
Proof. apply (fermat _ 7); [done|apply generator_unit|apply generator_order]. Qed.
End FieldGroup.

(** ** The field operations *)
Module FieldLemmas.
Import FieldGroup.

Definition canonical (x : Z) : Prop := 0 ≤ x < GOLDILOCKS_P.

Lemma canonical_mod x : canonical (x mod GOLDILOCKS_P).
Proof. apply Z.mod_pos_bound. done. Qed.

Lemma mod_canonical x : canonical x → x mod GOLDILOCKS_P = x.
Proof. apply Z.mod_small. Qed.

Lemma pow_loop_canonical n e b r : canonical r → canonical (pow_loop n e b r).
Proof.
  revert e b r. induction n as [|n IH]; intros e b r Hr; [done|]. cbn [pow_loop].
  case_match; [|done]. apply IH. case_match; [apply canonical_mod|done].
Qed.

Lemma field_inverse_canonical a : canonical (field_inverse_goldilocks a).
Proof. unfold field_inverse_goldilocks. case_match; [done|]. by apply pow_loop_canonical. Qed.

Lemma field_inverse_pow a :
  a ≠ 0 → field_inverse_goldilocks a = a ^ (GOLDILOCKS_P - 2) mod GOLDILOCKS_P.
Proof.
  intros Ha. assert (field_inverse_goldilocks a = pow_mod a (GOLDILOCKS_P - 2)) as ->.
  { unfold field_inverse_goldilocks, pow_mod. by destruct (Z.eqb_spec a 0). }
  rewrite <- pow_mod_spec by (unfold GOLDILOCKS_P; lia). symmetry. apply mod_canonical.
  by apply pow_loop_canonical.
Qed.

(** [a * inverse a = 1] unless [a] is zero in the field. *)
Lemma mul_inverse a :
  a mod GOLDILOCKS_P ≠ 0 → a * field_inverse_goldilocks a mod GOLDILOCKS_P = 1.
Proof.
  intros Ha. assert (a ≠ 0) as Hne by (intros ->; by apply Ha).
  rewrite field_inverse_pow by done. rewrite Zmult_mod_idemp_r, <- Z.pow_succ_r by done.
  change (Z.succ (GOLDILOCKS_P - 2)) with (GOLDILOCKS_P - 1). exact (goldilocks_fermat a Ha).
Qed.

(** ** The S-box *)

Lemma sbox_pow x : sbox x = x ^ 7 mod GOLDILOCKS_P.
Proof.
  unfold sbox. cbv zeta. set (x2 := x * x mod GOLDILOCKS_P).
  rewrite Zmult_mod_idemp_l, <- Z.mul_assoc, Zmult_mod_idemp_l.
  replace (x2 * x2 * (x2 * x)) with (x2 * x2 * x * x2) by ring. unfold x2 at 3.
  rewrite Zmult_mod_idemp_r. replace (x2 * x2 * x * (x * x)) with (x2 * x * (x * x) * x2) by ring.
  unfold x2 at 2. rewrite Zmult_mod_idemp_r.
  replace (x2 * x * (x * x) * (x * x)) with (x * (x * x) * (x * x) * x2) by ring.
  unfold x2. rewrite Zmult_mod_idemp_r. f_equal. ring.
Qed.

(** The inverse of 7 modulo [P - 1]. *)
Definition seventh : Z := 10540996611094048183.

Lemma sbox_injective x y : canonical x → canonical y → sbox x = sbox y → x = y.
Proof.
  assert (∀ z, canonical z → sbox z ^ seventh mod GOLDILOCKS_P = z) as Hinv.
  { intros z Hz. rewrite sbox_pow, Z.mod_pow_l, <- Z.pow_mul_r by done.
    destruct (decide (z = 0)) as [->|Hne]; [by rewrite Z.pow_0_l|].
    change (7 * seventh) with ((GOLDILOCKS_P - 1) * 4 + 1).
    rewrite Z.pow_add_r, Z.pow_mul_r, Z.pow_1_r by done.
    assert (z mod GOLDILOCKS_P ≠ 0) as Hnz by (by rewrite mod_canonical).
    rewrite <- Zmult_mod_idemp_l.
    rewrite (Group.pow_unit _ P_gt_1 _ 4 (goldilocks_fermat z Hnz) ltac:(lia)), Z.mul_1_l.
    by apply mod_canonical. }
  intros Hx Hy Heq. rewrite <- (Hinv x), <- (Hinv y), Heq by done. done.
Qed.
End FieldLemmas.

(** ** The Poseidon permutation *)
Module Permutation.
Import FieldLemmas.

Fixpoint dot (u v : list Z) : Z :=
  match u, v with
  | x :: u, y :: v => x * y + dot u v
  | _, _ => 0
  end.

Lemma mds_row_dot r s : mds_row r s = dot r s mod GOLDILOCKS_P.
Proof.
  unfold mds_row. assert (canonical 0) as H0 by done.
  change (dot r s) with (0 + dot r s). revert H0. generalize 0 as acc.
  revert s. induction r as [|m r IH]; intros [|x s] acc Hacc; cbn [zip zip_with foldl dot];
    try (by rewrite Z.add_0_r, mod_canonical).
  rewrite IH by apply canonical_mod. rewrite Zplus_mod_idemp_l. f_equal. lia.
Qed.

Lemma dot_mod_r u v :
  dot u ((λ x, x mod GOLDILOCKS_P) <$> v) mod GOLDILOCKS_P = dot u v mod GOLDILOCKS_P.
Proof.
  revert v. induction u as [|x u IH]; intros [|y v]; [done..|]. cbn [fmap list_fmap dot].
  rewrite Zplus_mod, Zmult_mod_idemp_r, IH. symmetry. apply Zplus_mod.
Qed.

Lemma dot_comm u v : dot u v = dot v u.
Proof. revert v. induction u as [|x u IH]; intros [|y v]; [done..|]. cbn. rewrite IH. lia. Qed.

(** A row vector times a matrix with rows of length [n]. *)
Fixpoint vecmat (n : nat) (u : list Z) (m : list (list Z)) : list Z :=
  match u, m with
  | x :: u, r :: m => zip_with (λ a b, x * a + b) r (vecmat n u m)
  | _, _ => replicate n 0
  end.

Lemma length_vecmat n u m : Forall (λ r, length r = n) m → length (vecmat n u m) = n.
Proof.
  intros Hm. revert u. induction Hm as [|r m Hr _ IH]; intros [|x u]; cbn;
    rewrite ?length_replicate; [done..|]. rewrite length_zip_with, IH, Hr. lia.
Qed.

Lemma dot_zero n s : dot (replicate n 0) s = 0.
Proof. revert s. induction n as [|n IH]; intros [|y s]; [done..|]. cbn. by rewrite IH. Qed.

Lemma dot_linear x u v s :
  length u = length v → dot (zip_with (λ a b, x * a + b) u v) s = x * dot u s + dot v s.
Proof.
  revert v s. induction u as [|a u IH]; intros [|b v] [|y s] Hl; cbn; try (done || lia).
  rewrite IH by (by injection Hl). lia.
Qed.

Lemma dot_matrix n u m s :
  Forall (λ r, length r = n) m →
  dot u ((λ r, dot r s) <$> m) = dot (vecmat n u m) s.
Proof.
  intros Hm. revert u. induction Hm as [|r m Hr Hm IH]; intros [|x u]; cbn [fmap list_fmap dot vecmat];
    rewrite ?dot_zero; [done..|].
  rewrite dot_linear by (by rewrite length_vecmat). by rewrite <- IH.
Qed.

(** The inverse of [POSEIDON_MDS] in the field. *)
Definition mds_inverse : list (list Z) :=
  [[4714385741194949836; 17814787424422222165; 12924840119982607538; 16100977321532909610;
    1459077964239434956; 6963761501237172564; 7499327158390082738; 4164848806029355049];
   [4164848806029355049; 4714385741194949836; 17814787424422222165; 12924840119982607538;
    16100977321532909610; 1459077964239434956; 6963761501237172564; 7499327158390082738];
   [7499327158390082738; 4164848806029355049; 4714385741194949836; 17814787424422222165;
    12924840119982607538; 16100977321532909610; 1459077964239434956; 6963761501237172564];
   [6963761501237172564; 7499327158390082738; 4164848806029355049; 4714385741194949836;
    17814787424422222165; 12924840119982607538; 16100977321532909610; 1459077964239434956];
   [1459077964239434956; 6963761501237172564; 7499327158390082738; 4164848806029355049;
    4714385741194949836; 17814787424422222165; 12924840119982607538; 16100977321532909610];
   [16100977321532909610; 1459077964239434956; 6963761501237172564; 7499327158390082738;
    4164848806029355049; 4714385741194949836; 17814787424422222165; 12924840119982607538];
   [12924840119982607538; 16100977321532909610; 1459077964239434956; 6963761501237172564;
    7499327158390082738; 4164848806029355049; 4714385741194949836; 17814787424422222165];
   [17814787424422222165; 12924840119982607538; 16100977321532909610; 1459077964239434956;
    6963761501237172564; 7499327158390082738; 4164848806029355049; 4714385741194949836]].

Definition identity (n : nat) : list (list Z) :=
  (λ i, <[i := 1]> (replicate n 0)) <$> seq 0 n.

Lemma mds_inverse_spec :
  (λ u, (λ x, x mod GOLDILOCKS_P) <$> vecmat 8 u POSEIDON_MDS) <$> mds_inverse = identity 8.
Proof. vm_compute. reflexivity. Qed.

Lemma identity_dot s : length s = 8%nat → (λ e, dot e s) <$> identity 8 = s.
Proof.
  intros Hl. do 8 (destruct s as [|? s]; [done|]). destruct s; [|done].
  cbn [identity seq fmap list_fmap replicate insert list_insert dot].
  repeat f_equal; lia.
Qed.

Definition mds_mul (s : list Z) : list Z := (λ r, mds_row r s) <$> POSEIDON_MDS.
Definition mds_undo (s : list Z) : list Z := (λ u, dot u s mod GOLDILOCKS_P) <$> mds_inverse.

Lemma mods_canonical s : Forall canonical s → (λ x, x mod GOLDILOCKS_P) <$> s = s.
Proof. induction 1 as [|x s Hx _ IH]; [done|]. cbn. by rewrite mod_canonical, IH. Qed.

Lemma mds_mul_dot s : mds_mul s = (λ x, x mod GOLDILOCKS_P) <$> ((λ r, dot r s) <$> POSEIDON_MDS).
Proof.
  unfold mds_mul. rewrite <- list_fmap_compose. apply list_fmap_ext. intros ? r _. apply mds_row_dot.
Qed.

Lemma mds_undo_mul s : length s = 8%nat → Forall canonical s → mds_undo (mds_mul s) = s.
Proof.
  intros Hl Hc. rewrite <- (mods_canonical s) at 2 by done.
  rewrite <- (identity_dot s) at 2 by done. rewrite <- mds_inverse_spec, <- !list_fmap_compose.
  unfold mds_undo. apply list_fmap_ext. intros i u _. unfold compose. rewrite mds_mul_dot, dot_mod_r.
  rewrite (dot_matrix 8) by (vm_compute; repeat constructor).
  by rewrite dot_comm, <- dot_mod_r, dot_comm.
Qed.

(** One round, for a state of eight field elements. *)
Definition state_ok (s : list Z) : Prop := length s = 8%nat ∧ Forall canonical s.

Lemma poseidon_round_ok n rc s : state_ok (poseidon_round n rc s).
Proof.
  split; [done|]. apply Forall_fmap, Forall_true. intros r. cbn. rewrite mds_row_dot.
  apply canonical_mod.
Qed.

Definition add_constants (rc s : list Z) : list Z :=
  zip_with (λ x c, (x + c) mod GOLDILOCKS_P) s rc.

Lemma add_constants_ok rc s : length rc = 8%nat → length s = 8%nat → state_ok (add_constants rc s).
Proof.
  intros Hr Hs. split; [unfold add_constants; rewrite length_zip_with; lia|].
  clear Hr Hs. unfold add_constants. revert rc.
  induction s as [|x s IH]; intros [|c rc]; cbn; constructor; [apply canonical_mod|apply IH].
Qed.

Lemma add_constants_inj rc s t :
  length rc = 8%nat → state_ok s → state_ok t → add_constants rc s = add_constants rc t → s = t.
Proof.
  unfold add_constants. intros Hr [Hs Cs] [Ht Ct]. assert (length s = length t) as Hl by congruence.
  assert (length s ≤ length rc)%nat as Hrc by lia. clear Hr Hs Ht. revert rc t Cs Ct Hl Hrc.
  induction s as [|x s IH]; intros [|c rc] [|y t] Cs Ct Hl Hrc Heq; cbn in *; try (done || lia).
  inversion_clear Cs as [|? ? Hx Cs']. inversion_clear Ct as [|? ? Hy Ct'].
  injection Heq as Hxy Heq. f_equal; [|apply (IH rc); (done || lia)].
  assert (x mod GOLDILOCKS_P = y mod GOLDILOCKS_P) as Hm.
  { replace x with (x + c - c) by lia. replace y with (y + c - c) by lia.
    rewrite Zminus_mod, Hxy. symmetry. apply Zminus_mod. }
  by rewrite !mod_canonical in Hm.
Qed.

Definition sboxes (is_full : bool) (s : list Z) : list Z :=
  if is_full then sbox <$> s else match s with x :: s => sbox x :: s | [] => [] end.

Lemma sbox_canonical x : canonical (sbox x).
Proof. rewrite sbox_pow. apply canonical_mod. Qed.

Lemma sboxes_ok b s : state_ok s → state_ok (sboxes b s).
Proof.
  intros [Hl Hc]. destruct b; cbn [sboxes].
  - split; [by rewrite length_fmap|]. apply Forall_fmap, Forall_true, sbox_canonical.
  - destruct Hc; [done|]. split; [done|]. constructor; [apply sbox_canonical|done].
Qed.

Lemma sboxes_inj b s t : state_ok s → state_ok t → sboxes b s = sboxes b t → s = t.
Proof.
  intros [Hs Cs] [Ht Ct]. destruct b; cbn [sboxes].
  - clear Hs Ht. revert t Ct. induction Cs as [|x s Hx _ IH]; intros [|y t] Ct Heq; try done.
    inversion_clear Ct. injection Heq as Hxy Heq. f_equal; [by apply sbox_injective|by apply IH].
  - destruct Cs; [done|]. destruct Ct; [done|]. intros [= Hxy ->]. f_equal. by apply sbox_injective.
Qed.

Lemma poseidon_round_inj n rc s t :
  length rc = 8%nat → state_ok s → state_ok t →
  poseidon_round n rc s = poseidon_round n rc t → s = t.
Proof.
  intros Hr Hs Ht Heq.
  set (b := (n <? POSEIDON_FULL_ROUNDS / 2)%nat ||
            (length POSEIDON_RC_FULL - POSEIDON_FULL_ROUNDS / 2 <=? n)%nat).
  assert (∀ u, poseidon_round n rc u = mds_mul (sboxes b (add_constants rc u))) as Hdef by done.
  rewrite !Hdef in Heq. apply (add_constants_inj rc); [done..|].
  assert (∀ u, state_ok u → state_ok (sboxes b (add_constants rc u))) as Hok
    by (intros u [Hu _]; by apply sboxes_ok, add_constants_ok).
  apply (sboxes_inj b); [apply add_constants_ok; (done || apply Hs)|
                         apply add_constants_ok; (done || apply Ht)|].
  destruct (Hok s Hs) as [Hl1 Hc1]. destruct (Hok t Ht) as [Hl2 Hc2].
  rewrite <- (mds_undo_mul (sboxes b (add_constants rc s))), Heq by done. by apply mds_undo_mul.
Qed.

Lemma poseidon_rounds_inj n rcs s t :
  Forall (λ rc, length rc = 8%nat) rcs → state_ok s → state_ok t →
  poseidon_rounds n rcs s = poseidon_rounds n rcs t → s = t.
Proof.
  intros Hr. revert n s t. induction Hr as [|rc rcs Hrc _ IH]; intros n s t Hs Ht; [done|].
  cbn [poseidon_rounds]. intros Heq. apply IH in Heq; [|apply poseidon_round_ok..].
  by apply poseidon_round_inj in Heq.
Qed.

Lemma round_constants_width : Forall (λ rc, length rc = 8%nat) POSEIDON_RC_FULL.
Proof. vm_compute. repeat constructor. Qed.
End Permutation.

(** ** Theorems *)
Module FieldProps.
Import FieldLemmas Permutation.

(** [field_inverse_goldilocks] inverts and [Div] divides.  For every [u64]
    that is not zero in the field, canonical or not, the product with its
    inverse is 1, and dividing a field element by it and multiplying back gives
    the element. *)
Theorem field_inverse_correct a b :
  a mod GOLDILOCKS_P ≠ 0 → canonical b →
  field_mul_goldilocks a (field_inverse_goldilocks a) = 1 ∧
  field_mul_goldilocks (b * field_inverse_goldilocks a mod GOLDILOCKS_P) a = b.
Proof.
  intros Ha Hb. pose proof (mul_inverse a Ha) as Hinv. split; [exact Hinv|].
  unfold field_mul_goldilocks. rewrite Zmult_mod_idemp_l.
  rewrite <- Z.mul_assoc, (Z.mul_comm _ a), <- Zmult_mod_idemp_r, Hinv, Z.mul_1_r.
  by apply mod_canonical.
Qed.

(** The 30-round Poseidon function is a permutation of eight-lane states:
    different states of field elements have different images.  Every step of a
    round is invertible, the S-box because 7 is coprime to [P - 1] and the
    matrix because [mds_inverse] inverts it. *)
Theorem poseidon_permutation s t :
  state_ok s → state_ok t → s ≠ t → poseidon_full_state s ≠ poseidon_full_state t.
Proof.
  intros Hs Ht Hne Heq. apply Hne. revert Heq.
  apply poseidon_rounds_inj; [apply round_constants_width|done|done].
Qed.
End FieldProps.

(** ** The theorems at concrete inputs *)
Module FieldExamples.
Import FieldLemmas Permutation.

(** [P + 3], a [u64] that is not canonical. *)
Lemma field_inverse_correct_witness :
  (GOLDILOCKS_P + 3) mod GOLDILOCKS_P ≠ 0 ∧
  field_mul_goldilocks (GOLDILOCKS_P + 3) (field_inverse_goldilocks (GOLDILOCKS_P + 3)) = 1.
Proof.
  split; [done|].
  apply (FieldProps.field_inverse_correct (GOLDILOCKS_P + 3) 5); [vm_compute; discriminate|].
  split; vm_compute; [discriminate|reflexivity].
Defined.

Lemma zeros_ok x : canonical x → state_ok (x :: replicate 7 0).
Proof. intros. split; [done|]. repeat (constructor; [done|]). constructor. Qed.

Lemma poseidon_permutation_witness :
  poseidon_full_state (1 :: replicate 7 0) ≠ poseidon_full_state (2 :: replicate 7 0).
Proof.
  apply (FieldProps.poseidon_permutation (1 :: replicate 7 0) (2 :: replicate 7 0));
    [by apply zeros_ok|by apply zeros_ok|discriminate].
Defined.
End FieldExamples.
