(* ===== verification/VmProps.v ===== *)
(** * Properties of the BudZero virtual machine

    [VmLemmas] has the type invariant [vm_ok], what each instruction does to
    the machine, the errors of a step and the replay of a trace; [VmSafety] the
    theorems, [VmExamples] their instances; [VmFacts] the constant tables, the
    canonical programs, collisions of the write digest and unlimited gas. *)
From stdpp Require Import base tactics numbers list gmap.
From Stdlib Require Import ZArith Lia.
From S2P Require Import Prelude Rlp Isa Vm Goldilocks.
Import BigEndian Isa IsaLemmas Field Vm FieldLemmas Permutation.

Module VmLemmas.

(** ** Field elements *)

Lemma canonical_u64 x : canonical x → u64 x.
Proof. unfold canonical, GOLDILOCKS_P. int_lia. Qed.

Lemma poseidon_round_canonical n rc s : Forall canonical (poseidon_round n rc s).
Proof. apply poseidon_round_ok. Qed.

Lemma poseidon_rounds_canonical n rcs s :
  rcs ≠ [] → Forall canonical (poseidon_rounds n rcs s).
Proof.
  intros Hne. destruct rcs as [|rc rcs]; [done|]. clear Hne. cbn [poseidon_rounds].
  pose proof (poseidon_round_canonical n rc s) as Hs. revert Hs.
  generalize (poseidon_round n rc s) as t. generalize (S n) as k.
  induction rcs as [|rc' rcs IH]; intros k t Ht; [done|]. apply IH, poseidon_round_canonical.
Qed.

Lemma poseidon_canonical s : canonical (poseidon4_hash_state s).
Proof.
  unfold poseidon4_hash_state, poseidon_full_hash_state, poseidon_full_state.
  assert (Forall canonical (poseidon_rounds 0 POSEIDON_RC_FULL s)) as Hs
    by (by apply poseidon_rounds_canonical).
  destruct Hs as [|x l Hx _]; [done|]. exact Hx.
Qed.

Lemma poseidon4_hash_u64 a b : u64 (poseidon4_hash a b).
Proof. apply canonical_u64, poseidon_canonical. Qed.

Lemma poseidon4_hash3_u64 a b c : u64 (poseidon4_hash3 a b c).
Proof. apply canonical_u64, poseidon_canonical. Qed.

Lemma flag_u64 b : u64 (flag b).
Proof. destruct b; cbn [flag]; int_lia. Qed.

Lemma as_u64_u64 x : u64 (as_u64 x).
Proof. pose proof (Z.mod_pos_bound x (2 ^ 64) ltac:(done)). int_lia. Qed.

Lemma land_u64 a b : u64 a → u64 b → u64 (Z.land a b).
Proof.
  intros Ha Hb. assert (Z.land a b = Z.land a b mod 2 ^ 64) as ->; [|apply as_u64_u64].
  rewrite <- Z.land_ones, <- Z.land_assoc, Z.land_ones, (Z.mod_small b) by int_lia. done.
Qed.

Lemma mod_u64 x : u64 (x mod GOLDILOCKS_P).
Proof. apply canonical_u64, canonical_mod. Qed.

Lemma field_ops_u64 a b :
  u64 (field_add_goldilocks a b) ∧ u64 (field_sub_goldilocks a b) ∧
  u64 (field_mul_goldilocks a b).
Proof. repeat split; apply mod_u64. Qed.

Lemma jump_target_u64 p i : u64 (jump_target p i).
Proof. apply as_u64_u64. Qed.

#[export] Hint Resolve jump_target_u64 poseidon4_hash_u64 poseidon4_hash3_u64 flag_u64 as_u64_u64 land_u64 mod_u64
  canonical_u64 field_inverse_canonical u64_sat_add_range : ints.
#[export] Hint Extern 1 (u64 _) => int_lia : ints.

(** ** Memory *)

Lemma read_word_u64 mem addr v : Forall is_byte mem → read_word mem addr = Some v → u64 v.
Proof.
  intros Hm. unfold read_word. case_match eqn:Hle; [|done]. intros [= <-].
  pose proof (BigEndian.le_value_range (take 8 (drop (Z.to_nat addr) mem))) as Hr.
  assert (length (take 8 (drop (Z.to_nat addr) mem)) ≤ 8)%nat as Hl by (rewrite length_take; lia).
  specialize (Hr ltac:(by apply Forall_take, Forall_drop)).
  assert (256 ^ Z.of_nat (length (take 8 (drop (Z.to_nat addr) mem))) ≤ 256 ^ 8)
    by (apply Z.pow_le_mono_r; lia). int_lia.
Qed.

Lemma read_word_Some mem addr :
  addr + 8 ≤ Z.of_nat (length mem) → is_Some (read_word mem addr).
Proof. intros Hle. unfold read_word. rewrite (proj2 (Z.leb_le _ _)) by lia. eauto. Qed.

Lemma write_word_Some mem addr v :
  addr + 8 ≤ Z.of_nat (length mem) → is_Some (write_word mem addr v).
Proof. intros Hle. unfold write_word. rewrite (proj2 (Z.leb_le _ _)) by lia. eauto. Qed.

Lemma write_word_ok mem addr v mem' :
  0 ≤ addr → Forall is_byte mem → write_word mem addr v = Some mem' →
  Forall is_byte mem' ∧ length mem' = length mem.
Proof.
  intros Ha Hm. unfold write_word. case_match eqn:Hle; [|done]. apply Z.leb_le in Hle.
  intros Heq%(inj Some). subst mem'. split.
  - apply Forall_app. split; [by apply Forall_take|]. apply Forall_app.
    split; [apply BigEndian.le_bytes_bytes|by apply Forall_drop].
  - rewrite !length_app, length_take, length_drop, length_le_bytes. lia.
Qed.

(** A word reads back. *)
Lemma read_write_word mem addr v mem' :
  0 ≤ addr → u64 v → write_word mem addr v = Some mem' → read_word mem' addr = Some v.
Proof.
  intros Ha Hv. unfold write_word. case_match eqn:Hle; [|done]. apply Z.leb_le in Hle.
  intros Heq%(inj Some). subst mem'. unfold read_word.
  rewrite (proj2 (Z.leb_le _ _))
    by (rewrite !length_app, length_take, length_drop, length_le_bytes; lia).
  rewrite drop_app_length' by (rewrite length_take; lia).
  rewrite take_app_length' by (by rewrite length_le_bytes).
  by rewrite BigEndian.le_value_bytes by int_lia.
Qed.

Lemma window_ok_spec mem addr n :
  window_ok mem addr n = true → addr + n ≤ Z.of_nat (length mem).
Proof.
  unfold window_ok. destruct (u64_checked_add addr n) eqn:Hc; [|done].
  apply u64_checked_add_Some in Hc. intros ?%Z.leb_le. lia.
Qed.

Lemma memory_word_addr_Some base i len addr :
  memory_word_addr base i len = Some addr →
  addr = base + i ∧ 0 ≤ addr ∧ addr + 8 ≤ Z.of_nat len.
Proof.
  unfold memory_word_addr. destruct (_ <? _) eqn:Hneg; [done|]. apply Z.ltb_ge in Hneg.
  unfold u64_try_from. case_match; [|done]. cbn. destruct (u64_checked_add _ _) eqn:Hc; [|done].
  apply u64_checked_add_Some in Hc. cbn. case_match eqn:Hle; [|done]. apply Z.leb_le in Hle.
  intros [= <-]. lia.
Qed.
(** ** Merkle paths *)

Lemma merkle_rounds_range : Forall (λ i, 0 ≤ i < 64) merkle_rounds.
Proof. apply Forall_forall. intros i Hi%elem_of_seqZ. lia. Qed.

Section path.
Context (mem : bytes) (path_addr key : Z).
Hypothesis Hwin : window_ok mem path_addr (8 * 65) = true.

Lemma sibling_Some i : 0 ≤ i < 64 → is_Some (read_word mem (path_addr + 8 + i * 8)).
Proof. intros Hi. apply read_word_Some. apply window_ok_spec in Hwin. lia. Qed.

Lemma merkle_path_Some rounds current :
  Forall (λ i, 0 ≤ i < 64) rounds →
  is_Some (merkle_path mem path_addr key rounds current).
Proof.
  intros Hr. revert current. induction Hr as [|i rounds Hi _ IH]; intros current; [by eexists|].
  cbn [merkle_path]. destruct (sibling_Some i Hi) as [w ->]. apply IH.
Qed.

(** The walk that fills the trace computes what the walk of the instruction
    does. *)
Lemma merkle_rows_path vm cur_pc im rounds current :
  memory vm = mem →
  Forall (λ i, 0 ≤ i < 64) rounds →
  ∃ rows out, merkle_rows vm cur_pc im path_addr key rounds current = Some (rows, out) ∧
    merkle_path mem path_addr key rounds current = Some out ∧ length rows = length rounds.
Proof.
  intros Hm Hr. revert current. induction Hr as [|i rounds Hi _ IH]; intros current.
  - by exists [], current.
  - cbn [merkle_path merkle_rows]. rewrite Hm. destruct (sibling_Some i Hi) as [w ->].
    cbn [mbind option_bind]. destruct (IH (path_next key i current w)) as (rows & out & -> & -> & Hl).
    eexists _, _. split; [done|]. split; [done|]. cbn [length]. by rewrite Hl.
Qed.
End path.

(** ** The type invariant *)

Definition i32 (x : Z) : Prop := - 2 ^ 31 ≤ x < 2 ^ 31.

(** The ranges of the fields; a [Vec] holds at most [isize::MAX] bytes. *)
Record vm_ok (vm : Vm) : Prop := {
  ok_regs_len : length (registers vm) = 32%nat;
  ok_regs : Forall u64 (registers vm);
  ok_pc : u64 (pc vm);
  ok_stack : Forall u64 (stack vm);
  ok_stack_len : (length (stack vm) ≤ 1024)%nat;
  ok_memory : Forall is_byte (memory vm);
  ok_memory_len : Z.of_nat (length (memory vm)) < 2 ^ 63;
  ok_storage : map_Forall (λ k v, i32 k ∧ u64 v) (storage vm);
  ok_events : Forall u64 (events vm);
  ok_sender : u64 (sender (context vm));
  ok_nonce : u64 (nonce (context vm));
  ok_height : u64 (block_height (context vm));
  ok_gas_used : u64 (gas_used vm);
  ok_gas_limit : u64 (gas_limit vm);
  ok_writes : Forall (λ w, i32 w.1 ∧ u64 w.2) (state_writes vm);
}.

(** A slice of words holds at most [isize::MAX] bytes. *)
Definition program_ok (program : list Z) : Prop := Z.of_nat (length program) < 2 ^ 60.

Lemma slot_of_i32 inst v : instruction_ok inst → i32 (slot_of inst v).
Proof.
  intros [_ _ _ Hi]. unfold slot_of, i32. case_match; [apply as_i32_range|exact Hi].
Qed.

Lemma set_reg_Some vm idx v :
  vm_ok vm → 0 ≤ idx < 32 →
  set_reg vm idx v = Some (set_registers vm (<[Z.to_nat idx := v]> (registers vm))).
Proof.
  intros Hok Hi. unfold set_reg. rewrite (ok_regs_len _ Hok).
  by rewrite (proj2 (Z.leb_le _ _)), (proj2 (Z.ltb_lt _ _)) by lia.
Qed.

Lemma reg_Some vm idx :
  vm_ok vm → 0 ≤ idx < 32 → ∃ v, reg vm idx = Some v ∧ u64 v.
Proof.
  intros Hok Hi. unfold reg.
  destruct (lookup_lt_is_Some_2 (registers vm) (Z.to_nat idx)) as [v Hv].
  { rewrite (ok_regs_len _ Hok). lia. }
  exists v. split; [done|]. by eapply Forall_lookup_1; [apply (ok_regs _ Hok)|].
Qed.

(** The effect of an arm on memory, as its trace row reports it. *)
Definition mem_effect (mem : bytes) (addr val : option Z) (w : bool) (mem' : bytes) : Prop :=
  match addr, val with
  | Some a, Some v =>
      0 ≤ a ∧ if w then write_word mem a v = Some mem' else read_word mem a = Some v ∧ mem' = mem
  | None, None => w = false ∧ mem' = mem
  | _, _ => False
  end.

(** The instructions that have a result. *)
Definition writes_rd (op : Opcode) : bool :=
  match op with
  | Halt | Store | Jmp | Jnz | Call | Ret | Push | Assert | SWrite | Log => false
  | _ => true
  end.

Definition write_back (op : Opcode) (dst v : Z) (regs : list Z) : list Z :=
  if writes_rd op then <[Z.to_nat dst := v]> regs else regs.

(** What every arm of [exec] guarantees. *)
Record exec_post (vm : Vm) (inst : Instruction) (r : result VmError Outcome) (vm' : Vm) : Prop := {
  ep_ok : vm_ok vm';
  ep_gas : gas_used vm' = gas_used vm;
  ep_limit : gas_limit vm' = gas_limit vm;
  ep_trace : trace vm' = trace vm;
  ep_mode : mainnet_mode vm' = mainnet_mode vm;
  ep_context : context vm' = context vm;
  ep_case :
    match r with
    | Err e => vm' = halt_with vm e
    | Ok o =>
        pc vm' = o_next o ∧ (writes_rd (opcode inst) = true → o_next o = pc vm + 1) ∧
        error vm' = error vm ∧
        halted vm' = halted vm || bool_decide (opcode inst = Halt) ∧
        <[0%nat := 0]> (registers vm') =
          <[0%nat := 0]> (write_back (opcode inst) (rd inst) (o_dst o) (registers vm)) ∧
        mem_effect (memory vm) (o_addr o) (o_val o) (o_write o) (memory vm')
    end;
}.

Definition execs (vm : Vm) (inst : Instruction) (r : option (result VmError Outcome * Vm)) : Prop :=
  ∃ x vm', r = Some (x, vm') ∧ exec_post vm inst x vm'.

Ltac vm_simpl :=
  cbn [registers pc stack memory storage events context trace halted gas_used gas_limit error
       state_writes mainnet_mode set_registers set_pc set_stack set_memory set_storage set_events
       set_context set_trace set_gas set_mainnet set_halted halt_with
       outcome o_dst o_next o_addr o_val o_write] in *.

(** The side conditions on the opcode of an arm. *)
Ltac op_side :=
  match goal with H : opcode _ = _ |- _ => solve [congruence | by rewrite H] end.

Section arms.
Context (vm : Vm) (inst : Instruction).
Hypothesis Hok : vm_ok vm.
Hypothesis Hpc : pc vm < 2 ^ 60.
Hypothesis Hinst : instruction_ok inst.

Lemma execs_fail e : execs vm inst (fail vm e).
Proof. eexists _, _. split; [done|]. destruct Hok. by split; vm_simpl. Qed.

(** [vm1] differs from [vm] in stack, storage and events only. *)
Record frame (vm1 : Vm) : Prop := {
  fr_ok : vm_ok vm1;
  fr_regs : registers vm1 = registers vm;
  fr_pc : pc vm1 = pc vm;
  fr_memory : memory vm1 = memory vm;
  fr_context : context vm1 = context vm;
  fr_trace : trace vm1 = trace vm;
  fr_halted : halted vm1 = halted vm;
  fr_gas : gas_used vm1 = gas_used vm;
  fr_limit : gas_limit vm1 = gas_limit vm;
  fr_error : error vm1 = error vm;
  fr_mode : mainnet_mode vm1 = mainnet_mode vm;
}.

Lemma frame_refl : frame vm.
Proof. by split. Qed.

Lemma pc_succ_u64 : u64 (pc vm + 1).
Proof. pose proof (ok_pc _ Hok). int_lia. Qed.

(** An arm that moves the program counter. *)
Lemma execs_next vm1 v n :
  frame vm1 → u64 n → opcode inst ≠ Halt → writes_rd (opcode inst) = false →
  execs vm inst (finish vm1 (outcome v n)).
Proof.
  intros [[] Hr ? ? ? ? ? ? ? ? ?] Hn Hop Hwr. eexists _, _. split; [done|].
  split; vm_simpl; try done. unfold write_back. rewrite Hwr, Hr.
  rewrite bool_decide_eq_false_2, orb_false_r by done. repeat split; auto; congruence.
Qed.

(** An arm that writes [rd] and may have read memory. *)
Lemma execs_write_read vm1 v addr val :
  frame vm1 → u64 v → opcode inst ≠ Halt → writes_rd (opcode inst) = true →
  mem_effect (memory vm) addr val false (memory vm) →
  execs vm inst
    (vm' ← set_reg vm1 (rd inst) v;
     finish vm' {| o_dst := v; o_next := pc vm + 1; o_addr := addr; o_val := val;
                   o_write := false |}).
Proof.
  intros Hf Hv Hop Hwr Hm. rewrite set_reg_Some by (apply Hf || apply Hinst).
  destruct Hf as [[] Hr ? Hmem ? ? Hh ? ? ? ?]. pose proof pc_succ_u64 as Hs.
  eexists _, _. split; [done|].
  split; vm_simpl; try done.
  - split; vm_simpl; try done; [by rewrite length_insert|by apply Forall_insert].
  - unfold write_back. rewrite bool_decide_eq_false_2, orb_false_r, Hwr, Hr, Hmem by done. auto 7.
Qed.

Lemma execs_write vm1 v :
  frame vm1 → u64 v → opcode inst ≠ Halt → writes_rd (opcode inst) = true →
  execs vm inst (write_rd vm1 (rd inst) v).
Proof.
  intros Hf Hv Hop Hwr. unfold write_rd. rewrite (fr_pc _ Hf). by apply execs_write_read.
Qed.

Lemma execs_write_pos v :
  u64 v → opcode inst ≠ Halt → writes_rd (opcode inst) = true →
  execs vm inst (write_rd_pos vm (rd inst) v).
Proof.
  intros Hv Hop Hwr. unfold write_rd_pos. pose proof (ok_rd _ Hinst). pose proof pc_succ_u64.
  destruct (0 <? rd inst) eqn:Hrd; [by apply execs_write; [apply frame_refl|..]|].
  apply Z.ltb_ge in Hrd. assert (rd inst = 0) as Hz by lia.
  eexists _, _. split; [done|]. pose proof Hok as []. split; vm_simpl; try done.
  unfold write_back. rewrite bool_decide_eq_false_2, orb_false_r, Hwr, Hz by done.
  rewrite list_insert_insert_eq. repeat split; auto.
Qed.

Lemma execs_halt : opcode inst = Halt → execs vm inst (finish (set_halted vm) (outcome 0 (pc vm))).
Proof.
  intros Hop. eexists _, _. split; [done|]. destruct Hok.
  split; vm_simpl; try done. rewrite bool_decide_eq_true_2, orb_true_r by done.
  unfold write_back. rewrite Hop. repeat split; auto; done.
Qed.

Lemma execs_load v : u64 v → opcode inst = Load → execs vm inst (exec_load vm inst v).
Proof.
  intros Hv Hop. unfold exec_load.
  case_match; [apply execs_write; [apply frame_refl|auto with ints|op_side..]|].
  destruct (memory_word_addr _ _ _) as [addr|] eqn:Ha; [|apply execs_fail].
  apply memory_word_addr_Some in Ha as (_ & Hpos & Hle).
  destruct (read_word_Some (memory vm) addr) as [w Hw]; [done|]. rewrite Hw. cbn [mbind option_bind].
  apply execs_write_read; [apply frame_refl| |op_side|op_side|done].
  by eapply read_word_u64; [apply (ok_memory _ Hok)|].
Qed.

Lemma execs_store v w : u64 w → opcode inst = Store → execs vm inst (exec_store vm inst v w).
Proof.
  intros Hv Hop. unfold exec_store.
  destruct (memory_word_addr _ _ _) as [addr|] eqn:Ha; [|apply execs_fail].
  apply memory_word_addr_Some in Ha as (_ & Hpos & Hle).
  destruct (write_word_Some (memory vm) addr w) as [mem Hw]; [done|]. rewrite Hw.
  cbn [mbind option_bind]. pose proof pc_succ_u64. pose proof Hok as Hok'. destruct Hok'.
  destruct (write_word_ok _ _ _ _ Hpos ok_memory0 Hw) as [Hb Hl].
  eexists _, _. split; [done|].
  split; vm_simpl; try done; [by split; vm_simpl; rewrite ?Hl|].
  unfold write_back. rewrite bool_decide_eq_false_2, orb_false_r, Hop by congruence.
  cbn [mem_effect]. auto 10.
Qed.

Lemma execs_verify_merkle v w :
  opcode inst = VerifyMerkle → execs vm inst (exec_verify_merkle vm inst v w).
Proof.
  intros Hop. unfold exec_verify_merkle. cbv zeta. destruct (window_ok _ _ _) eqn:Hwin;
    [|apply execs_write; [apply frame_refl|auto with ints|op_side..]].
  destruct (read_word_Some (memory vm) (as_u64 (imm inst))) as [key Hk];
    [apply window_ok_spec in Hwin; lia|].
  destruct (merkle_path_Some _ _ key Hwin merkle_rounds w merkle_rounds_range) as [cur Hc].
  rewrite Hk. cbn [mbind option_bind]. rewrite Hc. cbn [mbind option_bind].
  apply execs_write_read; [apply frame_refl|auto with ints|op_side|op_side|].
  split; [|done]. pose proof (as_u64_u64 (imm inst)). int_lia.
Qed.

Lemma execs_verify_inference v :
  opcode inst = VerifyInference → execs vm inst (exec_verify_inference vm inst v).
Proof.
  intros Hop. unfold exec_verify_inference. destruct (window_ok _ _ _) eqn:Hwin;
    [|apply execs_write_pos; [auto with ints|op_side..]].
  apply window_ok_spec in Hwin.
  destruct (read_word_Some (memory vm) v) as [m ->]; [lia|].
  destruct (read_word_Some (memory vm) (v + 8)) as [i ->]; [lia|].
  destruct (read_word_Some (memory vm) (v + 16)) as [o ->]; [lia|].
  apply execs_write_pos; [auto with ints|op_side..].
Qed.

Lemma frame_stack st :
  Forall u64 st → (length st ≤ 1024)%nat → frame (set_stack vm st).
Proof. intros. destruct Hok. by split. Qed.

Lemma frame_events ev : Forall u64 ev → frame (set_events vm (events vm ++ ev)).
Proof. intros. destruct Hok. split; try done. split; vm_simpl; try done. by apply Forall_app. Qed.

Lemma frame_storage k v :
  i32 k → u64 v →
  frame (set_storage vm (<[k := v]> (storage vm)) (state_writes vm ++ [(k, v)])).
Proof.
  intros. destruct Hok. split; try done. split; vm_simpl; try done.
  - by apply map_Forall_insert_2.
  - apply Forall_app. split; [done|]. by apply Forall_singleton.
Qed.

Lemma execs_syscall n v :
  u64 v → opcode inst = Syscall →
  execs vm inst (let '(x, vm) := syscall vm n v in write_rd vm (rd inst) x).
Proof.
  intros Hv Hop. pose proof Hok as [].
  assert (∃ x vm1, syscall vm n v = (x, vm1) ∧ u64 x ∧ frame vm1) as (x & vm1 & -> & Hx & Hf).
  { unfold syscall. pose proof frame_refl.
    repeat case_match; eexists _, _; (split; [done|]); auto with ints.
    split; [apply u64_sat_add_range; int_lia|]. apply frame_events. repeat constructor; int_lia. }
  apply execs_write; [done|done|op_side..].
Qed.

Lemma storage_u64 k : u64 (default 0 (storage vm !! k)).
Proof.
  destruct (storage vm !! k) as [v|] eqn:Hk; [|cbn; int_lia].
  by destruct (ok_storage _ Hok k v Hk).
Qed.

(** Every arm returns, keeps the types and changes only what its row says. *)
Lemma exec_total v w : u64 v → u64 w → execs vm inst (exec vm inst v w).
Proof.
  intros Hv Hw. pose proof frame_refl as Hf. pose proof pc_succ_u64 as Hs.
  pose proof (field_ops_u64 v w) as (? & ? & ?). pose proof (storage_u64 (slot_of inst w)).
  pose proof (ok_stack _ Hok) as Hst. pose proof (ok_stack_len _ Hok) as Hlen.
  unfold exec. destruct (opcode inst) eqn:Hop; cbv zeta.
  all: try (apply execs_write; [done| |op_side..]; try case_match; auto with ints).
  all: try (apply execs_write_pos; [auto with ints|op_side..]).
  all: try (apply execs_next; [done|try case_match; auto with ints|op_side..]).
  - by apply execs_halt.
  - case_match eqn:Hfull; [apply execs_fail|]. apply Nat.leb_gt in Hfull.
    apply execs_next; [|auto with ints|op_side..]. apply frame_stack; [by constructor|cbn; lia].
  - destruct (stack vm) as [|t st]; [apply execs_fail|]. inversion_clear Hst. cbn in Hlen.
    apply execs_next; [|done|op_side..]. apply frame_stack; [done|lia].
  - by apply execs_load.
  - by apply execs_store.
  - case_match eqn:Hfull; [apply execs_fail|]. apply Nat.leb_gt in Hfull.
    apply execs_next; [|done|op_side..]. apply frame_stack; [by constructor|cbn; lia].
  - destruct (stack vm) as [|t st]; [apply execs_fail|]. inversion_clear Hst. cbn in Hlen.
    apply execs_write; [|done|op_side..]. apply frame_stack; [done|lia].
  - case_match; [apply execs_fail|]. apply execs_next; [done|done|op_side..].
  - apply execs_next; [|done|op_side..]. apply frame_events. by apply Forall_singleton.
  - apply execs_next; [|done|op_side..]. apply frame_storage; [by apply slot_of_i32|done].
  - by apply execs_syscall.
  - by apply execs_verify_merkle.
  - by apply execs_verify_inference.
Qed.
End arms.

(** ** Replaying a trace

    What a checker that sees only the rows recomputes: the program counter,
    the register file and memory.  The rows of an inference proof repeat the
    operands of the instruction, whose registers may have been overwritten. *)
Definition rstate : Type := Z * list Z * bytes.

Definition row_reads (regs : list Z) (s : Step) : Prop :=
  s_inference_is_expand s = false →
  regs !! Z.to_nat (s_src1_idx s) = Some (s_src1_val s) ∧
  regs !! Z.to_nat (s_src2_idx s) = Some (s_src2_val s).

Inductive replay_row (s : Step) : rstate → rstate → Prop :=
  | replay_row_intro regs mem mem' :
      row_reads regs s →
      s_registers s =
        <[0%nat := 0]>
          (write_back (opcode (s_instruction s)) (s_dst_idx s) (s_dst_val s) regs) →
      mem_effect mem (s_memory_addr s) (s_memory_val s) (s_is_memory_write s) mem' →
      replay_row s (s_pc s, regs, mem) (s_next_pc s, s_registers s, mem').

Inductive replays : rstate → list Step → rstate → Prop :=
  | replays_nil σ : replays σ [] σ
  | replays_cons s t σ1 σ2 σ3 :
      replay_row s σ1 σ2 → replays σ2 t σ3 → replays σ1 (s :: t) σ3.

Lemma replays_app σ1 σ2 σ3 t1 t2 :
  replays σ1 t1 σ2 → replays σ2 t2 σ3 → replays σ1 (t1 ++ t2) σ3.
Proof. induction 1; intros; [done|]. cbn. econstructor; eauto. Qed.

Definition r0_zero (regs : list Z) : Prop := regs !! 0%nat = Some 0.

Lemma r0_zero_insert regs : r0_zero regs → <[0%nat := 0]> regs = regs.
Proof. intros. by apply list_insert_id. Qed.

Section expansion.
Context (vm : Vm) (inst : Instruction) (cur_pc : Z).
Hypothesis Hr0 : r0_zero (registers vm).

(** A follow-up row changes nothing but the program counter. *)
Lemma replay_expansion s :
  s_registers s = registers vm → s_dst_idx s = 0 → s_dst_val s = 0 →
  row_reads (registers vm) s → s_is_memory_write s = false →
  mem_effect (memory vm) (s_memory_addr s) (s_memory_val s) false (memory vm) →
  replay_row s (s_pc s, registers vm, memory vm) (s_next_pc s, registers vm, memory vm).
Proof.
  intros Hr Hd Hv Hreads Hw Hm. rewrite <- Hr at 2. constructor; [done| |by rewrite Hw].
  rewrite Hr, Hd, Hv. unfold write_back. change (Z.to_nat 0) with 0%nat.
  case_match; by rewrite ?r0_zero_insert by (rewrite ?r0_zero_insert by done; done).
Qed.

Lemma merkle_rows_replay im path_addr key n current rows out :
  0 ≤ path_addr → (n < 64)%nat →
  merkle_rows vm cur_pc im path_addr key (seqZ (63 - Z.of_nat n) (Z.of_nat (S n))) current
    = Some (rows, out) →
  replays (cur_pc, registers vm, memory vm) rows (cur_pc + 1, registers vm, memory vm).
Proof.
  intros Hp. revert current rows. induction n as [|n IH]; intros current rows Hn;
    (rewrite seqZ_cons by lia); cbn [merkle_rows];
    (destruct (read_word _ _) as [w|] eqn:Hw; [|done]); cbn [mbind option_bind].
  - replace (Z.pred (Z.of_nat 1)) with 0 by lia. rewrite seqZ_nil by done. cbn [merkle_rows].
    cbn [mbind option_bind]. intros Heq. simplify_eq.
    eapply replays_cons; [|constructor]. apply replay_expansion; try done.
    split; [lia|done].
  - replace (Z.succ (63 - Z.of_nat (S n))) with (63 - Z.of_nat n) by lia.
    replace (Z.pred (Z.of_nat (S (S n)))) with (Z.of_nat (S n)) by lia.
    destruct (merkle_rows _ _ _ _ _ _ _) as [[rows' out']|] eqn:Hrows; [|done].
    cbn [mbind option_bind]. intros Heq. simplify_eq.
    eapply replays_cons; [|eapply IH; [lia|done]].
    pose proof (replay_expansion (merkle_row vm cur_pc im
      (path_addr + 8 + (63 - Z.of_nat (S n)) * 8) key current w (63 - Z.of_nat (S n)))) as Hrow.
    cbn [s_pc s_next_pc merkle_row] in Hrow.
    rewrite (proj2 (Z.eqb_neq (63 - Z.of_nat (S n)) 63)) in Hrow by lia.
    apply Hrow; try done. split; [lia|done].
Qed.

(** Rows that agree in what a replay looks at before it moves on. *)
Definition same_row (s s' : Step) : Prop :=
  s_pc s' = s_pc s ∧ s_instruction s' = s_instruction s ∧ s_src1_idx s' = s_src1_idx s ∧
  s_src2_idx s' = s_src2_idx s ∧ s_dst_idx s' = s_dst_idx s ∧ s_src1_val s' = s_src1_val s ∧
  s_src2_val s' = s_src2_val s ∧ s_dst_val s' = s_dst_val s ∧ s_registers s' = s_registers s ∧
  s_memory_addr s' = s_memory_addr s ∧ s_memory_val s' = s_memory_val s ∧
  s_is_memory_write s' = s_is_memory_write s ∧ s_merkle_is_expand s' = s_merkle_is_expand s ∧
  s_inference_is_expand s' = s_inference_is_expand s.

Lemma replay_same_row s s' pc regs mem regs' mem' n :
  same_row s s' → replay_row s (pc, regs, mem) (n, regs', mem') →
  replay_row s' (pc, regs, mem) (s_next_pc s', regs', mem').
Proof.
  intros (Hp & Hi & Hs1 & Hs2 & Hd & Hv1 & Hv2 & Hv & Hr & Ha & Hm & Hw & _ & Hx) Hrow.
  inversion_clear Hrow as [? ? ? Hreads Hregs Hmem]. rewrite <- Hp, <- Hr. constructor.
  - unfold row_reads in *. by rewrite Hx, Hs1, Hs2, Hv1, Hv2.
  - by rewrite Hi, Hd, Hv, Hr.
  - by rewrite Ha, Hm, Hw.
Qed.

Definition is_expansion (s : Step) : bool := s_merkle_is_expand s || s_inference_is_expand s.

Lemma alter_app_cons {A} (f : A → A) (t : list A) x r :
  alter f (length t) (t ++ x :: r) = t ++ f x :: r.
Proof. induction t as [|y t IH]; [done|]. cbn. by f_equal. Qed.

Lemma patch_last_snoc f t s : patch_last f (t ++ [s]) = t ++ [f s].
Proof.
  unfold patch_last. replace (length (t ++ [s]) - 1)%nat with (length t)
    by (rewrite length_app; cbn; lia). apply alter_app_cons.
Qed.

(** The rows [expand] appends continue the replay of the row it patches. *)
Definition expands (t : list Step) (s : Step) (r : option Vm) : Prop :=
  ∃ s' rows,
    r = Some (set_trace vm (t ++ s' :: rows)) ∧ same_row s s' ∧
    replays (s_next_pc s', registers vm, memory vm) rows (s_next_pc s, registers vm, memory vm) ∧
    Forall (λ x, is_expansion x = true ∧ opcode (s_instruction x) = opcode inst) rows ∧
    (opcode inst = Halt → rows = []).

Lemma expands_none t s : trace vm = t ++ [s] → expands t s (Some vm).
Proof.
  intros Ht. exists s, []. rewrite <- Ht. split; [by destruct vm|]. split; [by repeat split|].
  split; [constructor|]. by split.
Qed.

Lemma merkle_rows_expansion im path_addr key rounds current rows out :
  merkle_rows vm cur_pc im path_addr key rounds current = Some (rows, out) →
  Forall (λ x, is_expansion x = true ∧ opcode (s_instruction x) = VerifyMerkle) rows.
Proof.
  revert current rows. induction rounds as [|i rounds IH]; intros current rows; cbn [merkle_rows].
  - intros Heq. simplify_eq. constructor.
  - destruct (read_word _ _) as [w|]; [|done]. cbn [mbind option_bind].
    destruct (merkle_rows _ _ _ _ _ _ _) as [[rows' out']|] eqn:Hrows; [|done].
    cbn [mbind option_bind]. intros Heq. simplify_eq. constructor; [done|]. by eapply IH.
Qed.

Lemma expand_merkle_spec t s w :
  trace vm = t ++ [s] → s_next_pc s = cur_pc + 1 → opcode inst = VerifyMerkle →
  expands t s (expand_merkle vm inst cur_pc w).
Proof.
  intros Ht Hn Hop. unfold expand_merkle. cbv zeta. pose proof (as_u64_u64 (imm inst)) as Hu.
  destruct (window_ok _ _ _) eqn:Hwin.
  2: { by apply expands_none. }
  destruct (read_word_Some (memory vm) (as_u64 (imm inst))) as [key ->];
    [apply window_ok_spec in Hwin; lia|]. cbn [mbind option_bind].
  destruct (merkle_rows_path _ _ key Hwin vm cur_pc (imm inst) merkle_rounds w eq_refl
              merkle_rounds_range) as (rows & out & Hrows & _ & Hlen).
  rewrite Hrows. cbn [mbind option_bind]. rewrite Ht, patch_last_snoc, <- app_assoc. cbn [app].
  change (length merkle_rounds) with 64%nat in Hlen.
  replace (length (t ++ patch_key key cur_pc s :: rows) - 1 - 64)%nat with (length t)
    by (rewrite length_app; cbn [length]; lia).
  rewrite alter_app_cons. eexists _, rows. split; [done|]. split; [by repeat split|].
  split; [|rewrite Hop; split; [by eapply merkle_rows_expansion|done]].
  cbn [patch_current patch_key s_next_pc]. rewrite Hn.
  apply (merkle_rows_replay _ _ _ 63 _ _ _ (proj1 Hu) ltac:(lia) Hrows).
Qed.

Lemma expand_inference_spec t s v w :
  trace vm = t ++ [s] → s_next_pc s = cur_pc + 1 → opcode inst = VerifyInference →
  expands t s (expand_inference vm inst cur_pc v w).
Proof.
  intros Ht Hn Hop. unfold expand_inference. cbv zeta.
  destruct (window_ok _ _ _) eqn:Hwin.
  2: { by apply expands_none. }
  apply window_ok_spec in Hwin.
  destruct (read_word_Some (memory vm) v) as [m ->]; [lia|].
  destruct (read_word_Some (memory vm) (v + 8)) as [i ->]; [lia|].
  destruct (read_word_Some (memory vm) (v + 16)) as [o ->]; [lia|]. cbn [mbind option_bind].
  rewrite Ht, patch_last_snoc, <- app_assoc. cbn [app]. eexists _, _. split; [done|].
  split; [by repeat split|]. cbn [patch_commitments s_next_pc]. rewrite Hn.
  change (seqZ 0 8) with [0; 1; 2; 3; 4; 5; 6; 7]. cbn [fmap list_fmap]. split.
  - do 8 (eapply replays_cons; [by apply replay_expansion|]). constructor.
  - rewrite Hop. split; [|done]. repeat (constructor; [done|]). constructor.
Qed.

Lemma expand_spec t s v w :
  trace vm = t ++ [s] → (writes_rd (opcode inst) = true → s_next_pc s = cur_pc + 1) →
  expands t s (expand vm inst cur_pc v w).
Proof.
  intros Ht Hn. unfold expand. destruct (opcode inst) eqn:Hop;
    try (by apply expand_merkle_spec; [|apply Hn|]);
    try (by apply expand_inference_spec; [|apply Hn|]);
    by apply expands_none.
Qed.
End expansion.

(** ** One step *)

Lemma decode_instruction_ok raw mainnet inst :
  decode_instruction raw mainnet = Ok inst →
  instruction_ok inst ∧ (mainnet = true → allows activation_default (opcode inst) = true).
Proof.
  unfold decode_instruction. destruct mainnet; intros Hd.
  - by apply decode_for_mainnet_ok in Hd as [? ?].
  - split; [by eapply decode_ok|done].
Qed.

(** The state with register 0 cleared. *)
Definition cleared (vm : Vm) : Vm := set_registers vm (<[0%nat := 0]> (registers vm)).

Lemma cleared_ok vm : vm_ok vm → vm_ok (cleared vm).
Proof.
  intros []. split; vm_simpl; cbn [cleared set_registers registers]; try done.
  - by rewrite length_insert.
  - apply Forall_insert; [done|int_lia].
Qed.

Lemma zero_r0_Some vm : vm_ok vm → zero_r0 vm = Some (cleared vm).
Proof. intros. unfold zero_r0. by rewrite set_reg_Some. Qed.

Lemma cleared_r0 vm : vm_ok vm → r0_zero (registers (cleared vm)).
Proof. intros Hok. apply list_lookup_insert_eq. rewrite (ok_regs_len _ Hok). lia. Qed.

(** The errors of the execute phase. *)
Definition word_in_range (vm : Vm) (addr : Z) : bool :=
  (0 <=? addr) && (addr + 8 <=? Z.of_nat (length (memory vm))).

Definition exec_error (vm : Vm) (inst : Instruction) (v : Z) : option VmError :=
  match opcode inst with
  | Call | Push => if (1024 <=? length (stack vm))%nat then Some StackOverflow else None
  | Ret | Pop => match stack vm with [] => Some StackUnderflow | _ :: _ => None end
  | Assert => if v =? 0 then Some AssertionFailed else None
  | Load =>
      if (rs1 inst =? 0) || word_in_range vm (v + imm inst) then None
      else Some InvalidMemoryAccess
  | Store => if word_in_range vm (v + imm inst) then None else Some InvalidMemoryAccess
  | _ => None
  end.

(** The error a step ends with, and the gas it has charged by then. *)
Definition step_error (vm : Vm) (program : list Z) : option (VmError * Z) :=
  match program !! Z.to_nat (pc vm) with
  | None => Some (InvalidPc, gas_used vm)
  | Some raw =>
      match decode_instruction raw (mainnet_mode vm) with
      | Err e => Some (InvalidOpcode e, gas_used vm)
      | Ok inst =>
          let g := u64_sat_add (gas_used vm) (gas_cost (opcode inst)) in
          if gas_limit vm <? g then Some (OutOfGas, g)
          else
            v ← reg (cleared vm) (rs1 inst);
            e ← exec_error vm inst v;
            Some (e, g)
      end
  end.

Lemma memory_word_addr_range vm v i :
  vm_ok vm → memory_word_addr v i (length (memory vm)) =
    if word_in_range vm (v + i) then Some (v + i) else None.
Proof.
  intros Hok. pose proof (ok_memory_len _ Hok) as Hl. unfold memory_word_addr, word_in_range.
  destruct (v + i <? 0) eqn:Hneg.
  { apply Z.ltb_lt in Hneg. by rewrite (proj2 (Z.leb_gt _ _)) by lia. }
  apply Z.ltb_ge in Hneg. rewrite (proj2 (Z.leb_le 0 _)) by lia. cbn [andb].
  unfold u64_try_from, u64_checked_add.
  destruct (v + i + 8 <=? Z.of_nat (length (memory vm))) eqn:Hle.
  - apply Z.leb_le in Hle. rewrite (proj2 (Z.leb_le (v + i) _)) by int_lia. cbn [mbind option_bind].
    rewrite (proj2 (Z.leb_le (v + i + 8) u64_max)) by int_lia. cbn [mbind option_bind].
    by rewrite (proj2 (Z.leb_le _ _)) by lia.
  - destruct (v + i <=? u64_max); [|done]. cbn [mbind option_bind].
    destruct (v + i + 8 <=? u64_max); [|done]. cbn [mbind option_bind]. by rewrite Hle.
Qed.

Definition result_error {A} (r : result VmError A) : option VmError :=
  match r with Err e => Some e | Ok _ => None end.

Lemma write_rd_no_error vm d v r vm' : write_rd vm d v = Some (r, vm') → result_error r = None.
Proof.
  unfold write_rd, finish. destruct (set_reg vm d v); [|done]. cbn. intros. by simplify_eq.
Qed.

Lemma write_rd_pos_no_error vm d v r vm' :
  write_rd_pos vm d v = Some (r, vm') → result_error r = None.
Proof.
  unfold write_rd_pos, finish. case_match; [apply write_rd_no_error|]. intros. by simplify_eq.
Qed.

Lemma finish_no_error vm o r vm' : finish vm o = Some (r, vm') → result_error r = None.
Proof. unfold finish. intros. by simplify_eq. Qed.

Lemma fail_error vm e r vm' : fail vm e = Some (r, vm') → result_error r = Some e.
Proof. unfold fail. intros. by simplify_eq. Qed.

Lemma bind_no_error {A} (m : option A) k r (vm' : Vm) :
  (∀ x, k x = Some (r, vm') → result_error r = None) →
  m ≫= k = Some (r, vm') → @result_error Outcome r = None.
Proof. intros Hk. destruct m; [apply Hk|done]. Qed.

Create HintDb noerr.
#[local] Hint Resolve write_rd_no_error write_rd_pos_no_error finish_no_error fail_error : noerr.
Ltac no_error := repeat (eapply bind_no_error; intros ?); eauto with noerr.

Lemma exec_error_exact vm inst v w r vm' :
  vm_ok vm → exec vm inst v w = Some (r, vm') → result_error r = exec_error vm inst v.
Proof.
  intros Hok. unfold exec, exec_error. destruct (opcode inst) eqn:Hop; cbv zeta;
    try solve [no_error].
  - case_match; eauto with noerr.
  - destruct (stack vm); eauto with noerr.
  - unfold exec_load. rewrite memory_word_addr_range by done.
    destruct (rs1 inst =? 0); cbn [orb]; [no_error|]. destruct (word_in_range _ _); no_error.
  - unfold exec_store. rewrite memory_word_addr_range by done.
    destruct (word_in_range _ _); no_error.
  - case_match; eauto with noerr.
  - destruct (stack vm); eauto with noerr.
  - case_match; eauto with noerr.
  - destruct (syscall _ _ _). no_error.
  - unfold exec_verify_merkle. cbv zeta. case_match; no_error.
  - unfold exec_verify_inference. case_match; no_error.
Qed.

(** The rows of one instruction: its own, then expansions. *)
Definition instruction_rows (op : Opcode) (rows : list Step) : Prop :=
  ∃ s exps, rows = s :: exps ∧ is_expansion s = false ∧ opcode (s_instruction s) = op ∧
    Forall (λ x, is_expansion x = true ∧ opcode (s_instruction x) = op) exps ∧
    (op = Halt → exps = []).

(** A step that executed [inst]. *)
Record step_done (vm : Vm) (program : list Z) (inst : Instruction) (vm' : Vm) : Prop := {
  sd_fetch :
    ∃ raw, program !! Z.to_nat (pc vm) = Some raw ∧
      decode_instruction raw (mainnet_mode vm) = Ok inst;
  sd_ok : vm_ok vm';
  sd_gas : gas_used vm' = u64_sat_add (gas_used vm) (gas_cost (opcode inst));
  sd_gas_le : gas_used vm' ≤ gas_limit vm;
  sd_limit : gas_limit vm' = gas_limit vm;
  sd_mode : mainnet_mode vm' = mainnet_mode vm;
  sd_context : context vm' = context vm;
  sd_error : error vm' = error vm;
  sd_halted : halted vm' = bool_decide (opcode inst = Halt);
  sd_r0 : r0_zero (registers vm');
  sd_rows :
    ∃ rows, trace vm' = trace vm ++ rows ∧ instruction_rows (opcode inst) rows ∧
      replays (pc vm, registers (cleared vm), memory vm) rows
        (pc vm', registers vm', memory vm');
}.

Lemma set_trace_ok vm t : vm_ok vm → vm_ok (set_trace vm t).
Proof. intros []. by split. Qed.

Lemma set_gas_ok vm g : vm_ok vm → u64 g → vm_ok (set_gas vm g).
Proof. intros [] ?. by split. Qed.

(** The last phase of a step: clear register 0, append the rows. *)
Lemma commit_spec vm inst v w o vm1 :
  r0_zero (registers vm) → reg vm (rs1 inst) = Some v → reg vm (rs2 inst) = Some w →
  exec_post vm inst (Ok o) vm1 →
  ∃ rows,
    (vm' ← zero_r0 vm1;
     expand (set_trace vm' (trace vm' ++ [row vm' (pc vm) inst v w o])) inst (pc vm) v w)
      = Some (set_trace (cleared vm1) (trace vm ++ rows)) ∧
    instruction_rows (opcode inst) rows ∧
    replays (pc vm, registers vm, memory vm) rows
      (pc vm1, registers (cleared vm1), memory vm1).
Proof.
  intros Hr0 Hv Hw [Hok _ _ Htr _ _ (Hpc & Hnext & _ & _ & Hregs & Hmem)].
  rewrite zero_r0_Some by done. cbn [mbind option_bind].
  set (s := row (cleared vm1) (pc vm) inst v w o).
  assert (replay_row s (pc vm, registers vm, memory vm)
            (s_next_pc s, registers (cleared vm1), memory vm1)) as Hrow.
  { change (pc vm) with (s_pc s) at 1. change (registers (cleared vm1)) with (s_registers s).
    constructor; [by split|exact Hregs|exact Hmem]. }
  destruct (expand_spec (set_trace (cleared vm1) (trace (cleared vm1) ++ [s])) inst (pc vm)
              (cleared_r0 _ Hok) (trace vm) s v w) as (s' & rows & Hx & Hsame & Hrep & Hexp & Hhalt).
  { cbn. by rewrite Htr. } { exact Hnext. }
  exists (s' :: rows). split; [exact Hx|]. split.
  - exists s', rows. destruct Hsame as (_ & Hi & _ & _ & _ & _ & _ & _ & _ & _ & _ & _ & Hm & Hinf).
    unfold is_expansion at 1. by rewrite Hm, Hinf, Hi.
  - eapply replays_cons; [by eapply replay_same_row|]. cbn in Hrep. by rewrite Hpc.
Qed.

Section one_step.
Context (vm : Vm) (program : list Z).
Hypothesis Hok : vm_ok vm.
Hypothesis Hprog : program_ok program.
Hypothesis Hrun : halted vm = false.

Definition step_spec_of (r : option (result VmError unit * Vm)) : Prop :=
  match step_error vm program with
  | Some (e, g) => r = Some (Err e, halt_with (set_gas (cleared vm) g) e)
  | None => ∃ inst vm', r = Some (Ok tt, vm') ∧ step_done vm program inst vm'
  end.

(** The execute phase, after the gas is charged. *)
Lemma execute_spec raw inst :
  program !! Z.to_nat (pc vm) = Some raw →
  decode_instruction raw (mainnet_mode vm) = Ok inst →
  u64_sat_add (gas_used vm) (gas_cost (opcode inst)) ≤ gas_limit vm →
  let g := u64_sat_add (gas_used vm) (gas_cost (opcode inst)) in
  let vm1 := set_gas (cleared vm) g in
  step_spec_of
    (src1_val ← reg vm1 (rs1 inst);
     src2_val ← reg vm1 (rs2 inst);
     '(r, vm) ← exec vm1 inst src1_val src2_val;
     match r with
     | Err e => Some (Err e, vm)
     | Ok o =>
         vm ← zero_r0 vm;
         vm ← expand (set_trace vm (trace vm ++ [row vm (pc vm1) inst src1_val src2_val o]))
                inst (pc vm1) src1_val src2_val;
         Some (Ok tt, vm)
     end).
Proof.
  intros Hraw Hdec Hgas g vm1. pose proof (decode_instruction_ok _ _ _ Hdec) as [Hinst _].
  assert (vm_ok vm1) as Hok1.
  { apply set_gas_ok; [by apply cleared_ok|]. pose proof (ok_gas_limit _ Hok).
    pose proof (ok_gas_used _ Hok). assert (0 ≤ gas_cost (opcode inst)) by (by destruct (opcode inst)).
    unfold g. int_lia. }
  assert (pc vm1 < 2 ^ 60) as Hpc1.
  { apply lookup_lt_Some in Hraw. pose proof (ok_pc _ Hok) as Hp. unfold program_ok in Hprog.
    change (pc vm1) with (pc vm). int_lia. }
  assert (r0_zero (registers vm1)) as Hr0 by (by apply cleared_r0).
  destruct (reg_Some vm1 (rs1 inst)) as (v & Hv & Huv); [done|apply Hinst|].
  destruct (reg_Some vm1 (rs2 inst)) as (w & Hw & Huw); [done|apply Hinst|].
  destruct (exec_total vm1 inst Hok1 Hpc1 Hinst v w Huv Huw) as (r & vm2 & Hex & Hpost).
  assert (step_error vm program = e ← result_error r; Some (e, g)) as Herr.
  { unfold step_error. rewrite Hraw, Hdec. cbv zeta. rewrite (proj2 (Z.ltb_ge _ _)) by done.
    change (reg (cleared vm) (rs1 inst)) with (reg vm1 (rs1 inst)). rewrite Hv.
    by rewrite (exec_error_exact _ _ _ _ _ _ Hok1 Hex). }
  unfold step_spec_of. rewrite Herr, Hv, Hw. cbn [mbind option_bind]. rewrite Hex.
  destruct r as [o|e]; cbn [mbind option_bind result_error].
  - destruct (commit_spec vm1 inst v w o vm2 Hr0 Hv Hw Hpost) as (rows & Hc & Hrows & Hrep).
    exists inst, (set_trace (cleared vm2) (trace vm1 ++ rows)). split.
    { destruct (zero_r0 vm2) as [vm3|]; [|done]. cbn [mbind option_bind] in *. by rewrite Hc. }
    pose proof Hpost as [Hok2 Hg Hl Ht Hm Hcx (_ & _ & He & Hh & _ & _)].
    split; cbn [set_trace cleared set_registers registers gas_used gas_limit mainnet_mode context
                error halted pc memory trace]; try done.
    + by exists raw.
    + by apply set_trace_ok, cleared_ok.
    + by rewrite Hg.
    + rewrite Hh. change (halted vm1) with (halted vm). by rewrite Hrun.
    + by apply cleared_r0.
    + by exists rows.
  - pose proof (ep_case _ _ _ _ Hpost) as Hc. cbn in Hc. by rewrite Hc.
Qed.

Lemma step_spec : step_spec_of (step vm program).
Proof.
  unfold step. rewrite zero_r0_Some by done. cbn [mbind option_bind].
  change (halted (cleared vm)) with (halted vm). rewrite Hrun.
  change (pc (cleared vm)) with (pc vm). pose proof (ok_pc _ Hok) as Hp.
  destruct (program !! Z.to_nat (pc vm)) as [raw|] eqn:Hraw.
  - pose proof (lookup_lt_Some _ _ _ Hraw) as Hlt. rewrite (proj2 (Z.leb_gt _ _)) by int_lia.
    cbn [mbind option_bind]. change (mainnet_mode (cleared vm)) with (mainnet_mode vm).
    destruct (decode_instruction raw (mainnet_mode vm)) as [inst|e] eqn:Hdec.
    + unfold consume_gas. cbv zeta. cbn [set_gas gas_used gas_limit cleared set_registers].
      destruct (gas_limit vm <? _) eqn:Hg.
      * unfold step_spec_of, step_error. rewrite Hraw, Hdec. cbv zeta. by rewrite Hg.
      * apply Z.ltb_ge in Hg. by apply (execute_spec raw inst).
    + unfold step_spec_of, step_error. rewrite Hraw, Hdec. by destruct vm.
  - apply lookup_ge_None in Hraw. rewrite (proj2 (Z.leb_le _ _)) by int_lia.
    unfold step_spec_of, step_error. rewrite (proj2 (lookup_ge_None _ _)) by lia. by destruct vm.
Qed.
End one_step.

(** ** Runs *)

Section runs.
Context (program : list Z).
Hypothesis Hprog : program_ok program.

(** One instruction of a run. *)
Definition advances (vm vm' : Vm) : Prop :=
  halted vm = false ∧ ∃ inst, step_done vm program inst vm'.

(** How a run ends from the last state its instructions reach. *)
Definition ends (vm : Vm) (e : option VmError) (vm' : Vm) : Prop :=
  match e with
  | None => halted vm = true ∧ vm' = vm
  | Some e =>
      halted vm = false ∧
      ∃ g, step_error vm program = Some (e, g) ∧ vm' = halt_with (set_gas (cleared vm) g) e
  end.

Lemma run_loop_spec fuel vm e vm' :
  vm_ok vm → run_loop fuel vm program = Some (e, vm') →
  ∃ vm1, rtc advances vm vm1 ∧ vm_ok vm1 ∧ ends vm1 e vm'.
Proof.
  revert vm. induction fuel as [|fuel IH]; intros vm Hok; cbn [run_loop];
    (destruct (halted vm) eqn:Hh; [intros Heq; simplify_eq; by exists vm'|]); [done|].
  pose proof (step_spec vm program Hok Hprog Hh) as Hs. unfold step_spec_of in Hs.
  destruct (step_error vm program) as [[e1 g]|] eqn:He.
  - rewrite Hs. cbn [mbind option_bind]. intros Heq. simplify_eq. exists vm.
    split; [done|]. split; [done|]. split; [done|]. by exists g.
  - destruct Hs as (inst & vm2 & -> & Hd). cbn [mbind option_bind]. intros Hrun.
    destruct (IH vm2 (sd_ok _ _ _ _ Hd) Hrun) as (vm1 & Hr & Hok1 & He1).
    exists vm1. split; [|done]. eapply rtc_l; [|done]. split; [done|]. by exists inst.
Qed.

Lemma gas_cost_range op : op ≠ Halt → 1 ≤ gas_cost op ≤ 12.
Proof. destruct op; intros; cbn; (lia || done). Qed.

Lemma gas_cost_nonneg op : 0 ≤ gas_cost op ≤ 12.
Proof. destruct op; cbn; lia. Qed.

(** Below the top of the range the charge is exact. *)
Lemma step_done_gas vm inst vm' :
  gas_limit vm < u64_max → step_done vm program inst vm' →
  gas_used vm' = gas_used vm + gas_cost (opcode inst).
Proof.
  intros Hl Hd. pose proof (sd_gas _ _ _ _ Hd). pose proof (sd_gas_le _ _ _ _ Hd). int_lia.
Qed.

(** A run returns once the fuel exceeds the remaining gas, and more fuel does
    not change what it returns. *)
Lemma run_loop_returns vm :
  vm_ok vm → gas_limit vm < u64_max → gas_used vm ≤ gas_limit vm →
  ∃ r, ∀ fuel, gas_limit vm - gas_used vm < Z.of_nat fuel → run_loop fuel vm program = Some r.
Proof.
  remember (Z.to_nat (gas_limit vm - gas_used vm)) as n eqn:Hn. revert vm Hn.
  induction (lt_wf n) as [n _ IH]. intros vm Hn Hok Hl Hu.
  destruct (halted vm) eqn:Hh.
  { exists (None, vm). intros [|fuel] _; cbn [run_loop]; by rewrite Hh. }
  pose proof (step_spec vm program Hok Hprog Hh) as Hs. unfold step_spec_of in Hs.
  destruct (step_error vm program) as [[e g]|].
  { eexists. intros [|fuel] Hf; [lia|]. cbn [run_loop]. rewrite Hh, Hs. done. }
  destruct Hs as (inst & vm2 & Hstep & Hd). pose proof (step_done_gas _ _ _ Hl Hd) as Hg.
  pose proof (sd_gas_le _ _ _ _ Hd) as Hle. pose proof (sd_limit _ _ _ _ Hd) as Hlim.
  destruct (decide (opcode inst = Halt)) as [Hhalt|Hgo].
  - exists (None, vm2). intros [|fuel] Hf; [lia|]. cbn [run_loop]. rewrite Hh, Hstep.
    cbn [mbind option_bind]. pose proof (sd_halted _ _ _ _ Hd) as Hh2.
    rewrite bool_decide_eq_true_2 in Hh2 by done. destruct fuel; cbn [run_loop]; by rewrite Hh2.
  - pose proof (gas_cost_range _ Hgo) as Hc.
    destruct (IH (Z.to_nat (gas_limit vm2 - gas_used vm2)) ltac:(lia) vm2 eq_refl)
      as [r Hr]; [apply Hd|lia|lia|].
    exists r. intros [|fuel] Hf; [lia|]. cbn [run_loop]. rewrite Hh, Hstep. apply Hr. lia.
Qed.

(** The gas of a trace: expansions are free. *)
Definition row_gas (s : Step) : Z :=
  if is_expansion s then 0 else gas_cost (opcode (s_instruction s)).

Definition rows_gas (rows : list Step) : Z := foldr (λ s z, row_gas s + z) 0 rows.

Lemma rows_gas_app t1 t2 : rows_gas (t1 ++ t2) = rows_gas t1 + rows_gas t2.
Proof.
  induction t1 as [|s t1 IH]; [done|].
  change (row_gas s + rows_gas (t1 ++ t2) = row_gas s + rows_gas t1 + rows_gas t2). lia.
Qed.

Lemma instruction_rows_gas op rows : instruction_rows op rows → rows_gas rows = gas_cost op.
Proof.
  intros (s & exps & -> & Hs & <- & Hx & _). cbn. unfold row_gas at 1. rewrite Hs.
  enough (rows_gas exps = 0) as H0 by (unfold rows_gas in H0; lia).
  induction Hx as [|x exps [Hx _] _ IH]; [done|]. cbn. unfold row_gas. rewrite Hx. exact IH.
Qed.

Definition no_halt (rows : list Step) : Prop := Forall (λ s, is_halt s = false) rows.

(** A halted trace has one Halt row, its last. *)
Definition closed (h : bool) (rows : list Step) : Prop :=
  if h then ∃ t s, rows = t ++ [s] ∧ is_halt s = true ∧ no_halt t else no_halt rows.

Lemma instruction_rows_closed op rows :
  instruction_rows op rows → closed (bool_decide (op = Halt)) rows.
Proof.
  intros (s & exps & -> & _ & Hs & Hx & Hh). unfold closed. case_bool_decide as Hop.
  - rewrite (Hh Hop). exists [], s. split; [done|]. split; [|constructor].
    unfold is_halt. by rewrite bool_decide_eq_true_2 by congruence.
  - constructor; [by rewrite <- Hs in Hop; apply bool_decide_eq_false_2|].
    eapply Forall_impl; [exact Hx|]. intros x [_ Hxop]. apply bool_decide_eq_false_2. congruence.
Qed.

Lemma closed_app h t1 t2 : no_halt t1 → closed h t2 → closed h (t1 ++ t2).
Proof.
  intros H1. destruct h; cbn; [|intros; by apply Forall_app].
  intros (t & s & -> & Hs & Ht). exists (t1 ++ t), s. rewrite app_assoc. split; [done|].
  split; [done|]. by apply Forall_app.
Qed.

Definition allowed_rows (mainnet : bool) (rows : list Step) : Prop :=
  mainnet = true →
  Forall (λ s, allows activation_default (opcode (s_instruction s)) = true) rows.

Lemma step_done_allowed vm inst vm' rows :
  step_done vm program inst vm' → instruction_rows (opcode inst) rows →
  allowed_rows (mainnet_mode vm) rows.
Proof.
  intros Hd (s & exps & -> & _ & Hs & Hx & _) Hm.
  destruct (sd_fetch _ _ _ _ Hd) as (raw & _ & Hdec).
  apply decode_instruction_ok in Hdec as [_ Ha]. specialize (Ha Hm).
  constructor; [by rewrite Hs|]. eapply Forall_impl; [exact Hx|]. intros x [_ ->]. done.
Qed.

(** What the instructions of a run have done. *)
Record run_post (vm vm1 : Vm) : Prop := {
  rp_limit : gas_limit vm1 = gas_limit vm;
  rp_mode : mainnet_mode vm1 = mainnet_mode vm;
  rp_r0 : r0_zero (registers vm1);
  rp_gas_le : gas_used vm1 ≤ gas_limit vm;
  rp_rows :
    ∃ rows, trace vm1 = trace vm ++ rows ∧
      replays (pc vm, registers vm, memory vm) rows (pc vm1, registers vm1, memory vm1) ∧
      (gas_limit vm < u64_max → gas_used vm1 = gas_used vm + rows_gas rows) ∧
      allowed_rows (mainnet_mode vm) rows ∧ closed (halted vm1) rows;
}.

Lemma run_post_intro vm vm1 :
  r0_zero (registers vm) → gas_used vm ≤ gas_limit vm → halted vm = false →
  rtc advances vm vm1 → run_post vm vm1.
Proof.
  intros Hr0 Hg Hh. revert vm1. apply rtc_ind_r; [|intros vm1 vm2 _ [Hh1 [inst Hd]] IH].
  { split; try done. exists []. rewrite app_nil_r. split; [done|]. split; [constructor|].
    split; [cbn; lia|]. split; [by intros _|]. rewrite Hh. constructor. }
  destruct IH as [Hl Hm Hr1 Hg1 (rows & Ht & Hrep & Hgas & Hall & Hcl)].
  pose proof Hd as [_ _ _ Hle Hl2 Hm2 _ _ Hh2 Hr2 (rows2 & Ht2 & Hrows2 & Hrep2)].
  split; [congruence|congruence|done|lia|]. exists (rows ++ rows2).
  rewrite Ht2, Ht, app_assoc. split; [done|].
  split. { eapply replays_app; [done|]. cbn in Hrep2. by rewrite r0_zero_insert in Hrep2. }
  split.
  { intros Hlt. rewrite rows_gas_app, (instruction_rows_gas _ _ Hrows2).
    rewrite (step_done_gas vm1 inst vm2) by (done || lia). rewrite Hgas by done. lia. }
  split.
  { pose proof (step_done_allowed _ _ _ _ Hd Hrows2) as Ha. rewrite Hm in Ha.
    intros Hmm. apply Forall_app. auto. }
  rewrite Hh1 in Hcl. apply closed_app; [done|]. rewrite Hh2. by apply instruction_rows_closed.
Qed.

Lemma step_error_gas vm e g :
  vm_ok vm → step_error vm program = Some (e, g) →
  gas_used vm ≤ g ≤ gas_used vm + 12 ∧ u64 g ∧
  (e ≠ OutOfGas → gas_used vm ≤ gas_limit vm → g ≤ gas_limit vm).
Proof.
  intros Hok. pose proof (ok_gas_used _ Hok) as Hu. unfold step_error.
  destruct (program !! _) as [raw|]; [|intros [= <- <-]; split_and!; (done || lia)].
  destruct (decode_instruction _ _) as [inst|]; [|intros [= <- <-]; split_and!; (done || lia)].
  cbv zeta. pose proof (gas_cost_nonneg (opcode inst)).
  destruct (_ <? _) eqn:Hlt; [intros [= <- <-]; split_and!; (done || int_lia)|].
  apply Z.ltb_ge in Hlt. intros Hb.
  destruct (reg _ _); [|done]. cbn [mbind option_bind] in Hb.
  destruct (exec_error _ _ _); [|done]. cbn [mbind option_bind] in Hb. injection Hb as <- <-.
  int_lia.
Qed.

(** A machine that has not run yet. *)
Record fresh (vm : Vm) : Prop := {
  fresh_ok : vm_ok vm;
  fresh_r0 : r0_zero (registers vm);
  fresh_trace : trace vm = [];
  fresh_running : halted vm = false;
  fresh_gas : gas_used vm ≤ gas_limit vm;
}.

Definition halt_row (vm : Vm) : Step :=
  row vm (pc vm) {| opcode := Halt; rd := 0; rs1 := 0; rs2 := 0; imm := 0 |} 0 0
    (outcome 0 (pc vm)).

Lemma close_trace_no_halt vm :
  no_halt (trace vm) → close_trace vm = set_trace vm (trace vm ++ [halt_row vm]).
Proof.
  intros Hn. unfold close_trace. cbv zeta. destruct (last (trace vm)) as [s|] eqn:Hl; [|done].
  apply last_Some in Hl as [t Ht]. rewrite Ht in Hn. apply Forall_app in Hn as [_ Hn].
  inversion_clear Hn as [|? ? Hs _]. by rewrite Hs.
Qed.

Lemma halt_row_replay vm :
  r0_zero (registers vm) →
  replay_row (halt_row vm) (pc vm, registers vm, memory vm) (pc vm, registers vm, memory vm).
Proof.
  intros Hr. apply (replay_row_intro (halt_row vm)); [done| |done].
  cbn. unfold write_back. cbn. by rewrite r0_zero_insert.
Qed.

(** What the run of a fresh machine [vm] leaves behind. *)
Record run_final (vm : Vm) (r : ExecutionReceipt) (vm' : Vm) : Prop := {
  rf_ok : vm_ok vm';
  rf_replays :
    replays (pc vm, registers vm, memory vm) (trace vm') (pc vm', registers vm', memory vm');
  rf_closed : closed true (trace vm');
  rf_allowed : allowed_rows (mainnet_mode vm) (trace vm');
  rf_receipt : r = receipt (r_error r) vm';
  rf_limit : r_error r ≠ Some OutOfGas → r_gas_used r ≤ gas_limit vm;
  rf_gas :
    gas_limit vm < u64_max →
    gas_used vm + rows_gas (trace vm') ≤ r_gas_used r ≤ gas_used vm + rows_gas (trace vm') + 12;
  rf_gas_exact :
    gas_limit vm < u64_max → r_error r = None →
    r_gas_used r = gas_used vm + rows_gas (trace vm');
}.

Lemma run_final_ok vm vm1 :
  trace vm = [] → vm_ok vm1 → halted vm1 = true → run_post vm vm1 →
  run_final vm (receipt None vm1) vm1.
Proof.
  intros Ht Hok1 Hh1 [Hlim Hm Hr1 Hle (rows & Htr & Hrep & Hgas & Hall & Hcl)].
  rewrite Ht in Htr. cbn [app] in Htr. rewrite Hh1 in Hcl.
  split; rewrite ?Htr; try done; cbn [receipt r_gas_used]; [lia|..]; intros Hlt;
    rewrite Hgas by done; lia.
Qed.

Lemma run_final_error vm vm1 e g :
  trace vm = [] → vm_ok vm1 → halted vm1 = false → step_error vm1 program = Some (e, g) →
  run_post vm vm1 →
  let vm2 := close_trace (halt_with (set_gas (cleared vm1) g) e) in
  run_final vm (receipt (Some e) vm2) vm2.
Proof.
  intros Ht Hok1 Hh1 He [Hlim Hm Hr1 Hle (rows & Htr & Hrep & Hgas & Hall & Hcl)] vm2.
  rewrite Ht in Htr. cbn [app] in Htr. rewrite Hh1 in Hcl. cbn [closed] in Hcl.
  destruct (step_error_gas vm1 e g Hok1 He) as (Hg1 & Hgu & Hg2).
  set (vm3 := halt_with (set_gas (cleared vm1) g) e) in *.
  assert (vm2 = set_trace vm3 (rows ++ [halt_row vm3])) as Hvm2.
  { unfold vm2. rewrite close_trace_no_halt by (cbn; by rewrite Htr). cbn. by rewrite Htr. }
  assert (registers vm3 = registers vm1) as Hregs by (by apply r0_zero_insert).
  assert (rows_gas (trace vm2) = rows_gas rows) as Hrg
    by (rewrite Hvm2; cbn [trace set_trace]; rewrite rows_gas_app; cbn; lia).
  split; rewrite ?Hrg; cbn [receipt r_error r_gas_used];
    try (rewrite Hvm2; cbn [trace set_trace registers pc memory gas_used]).
  - apply set_trace_ok. pose proof (cleared_ok _ Hok1) as []. by split.
  - eapply replays_app; [done|]. eapply replays_cons; [|constructor]. rewrite <- Hregs.
    apply (halt_row_replay vm3). by rewrite Hregs.
  - by eexists rows, _.
  - intros Hmm. apply Forall_app. split; [by apply Hall|]. by apply Forall_singleton.
  - done.
  - intros Hne. change (g ≤ gas_limit vm). rewrite <- Hlim. apply Hg2; [congruence|lia].
  - intros Hlt. change (gas_used vm + rows_gas rows ≤ g ≤ gas_used vm + rows_gas rows + 12).
    specialize (Hgas Hlt). lia.
  - done.
Qed.

Lemma run_receipt_spec fuel vm r vm' :
  fresh vm → run_receipt fuel vm program = Some (r, vm') → run_final vm r vm'.
Proof.
  intros [Hok Hr0 Ht Hh Hg]. unfold run_receipt.
  destruct (run_loop fuel vm program) as [[e vm2]|] eqn:Hl; [|done]. cbn [mbind option_bind].
  destruct (run_loop_spec _ _ _ _ Hok Hl) as (vm1 & Hst & Hok1 & Hend).
  pose proof (run_post_intro _ _ Hr0 Hg Hh Hst) as Hpost.
  destruct e as [e|]; cbn [ends] in Hend; intros [= <- <-].
  - destruct Hend as (Hh1 & g & He & ->). by apply run_final_error.
  - destruct Hend as [Hh1 ->]. by apply run_final_ok.
Qed.
End runs.
End VmLemmas.

(** ** Theorems *)
Module VmSafety.
Import VmLemmas.

(** C30: a step never panics and keeps the types.  Whatever the program words
    are, [step] returns: no register index, slice or program access is out of
    range, and every field of the machine it leaves is in the range of its
    type. *)
Theorem vm_step_typed vm program :
  vm_ok vm → program_ok program →
  ∃ r vm', step vm program = Some (r, vm') ∧ vm_ok vm'.
Proof.
  intros Hok Hp. destruct (halted vm) eqn:Hh.
  { exists (Ok tt), (cleared vm). split; [|by apply cleared_ok].
    unfold step. rewrite zero_r0_Some by done. cbn [mbind option_bind].
    change (halted (cleared vm)) with (halted vm). by rewrite Hh. }
  pose proof (step_spec vm program Hok Hp Hh) as Hs. unfold step_spec_of in Hs.
  destruct (step_error vm program) as [[e g]|] eqn:He.
  - eexists _, _. split; [exact Hs|].
    destruct (step_error_gas _ _ _ _ Hok He) as (_ & Hg & _).
    pose proof (set_gas_ok _ g (cleared_ok _ Hok) Hg) as []. by split.
  - destruct Hs as (inst & vm' & Hs & Hd). exists (Ok tt), vm'. split; [done|apply Hd].
Qed.

(** C29: [run_receipt] returns.  Below the largest gas limit every run of every
    program ends after at most as many steps as there is gas, plus one; fuel
    beyond that does not change the result, and the machine is well typed. *)
Theorem vm_run_returns vm program :
  fresh vm → program_ok program → gas_limit vm < u64_max →
  ∃ r vm', vm_ok vm' ∧
    ∀ fuel, gas_limit vm - gas_used vm < Z.of_nat fuel →
      run_receipt fuel vm program = Some (r, vm').
Proof.
  intros Hf Hp Hl.
  destruct (run_loop_returns program Hp vm (fresh_ok _ Hf) Hl (fresh_gas _ Hf)) as [[e vm1] Hr].
  set (vm' := match e with Some _ => close_trace vm1 | None => vm1 end).
  assert (∀ fuel, gas_limit vm - gas_used vm < Z.of_nat fuel →
            run_receipt fuel vm program = Some (receipt e vm', vm')) as Hrun.
  { intros fuel Hfuel. unfold run_receipt. by rewrite Hr. }
  exists (receipt e vm'), vm'. split; [|exact Hrun].
  eapply rf_ok, (run_receipt_spec program Hp), (Hrun (S (Z.to_nat (gas_limit vm - gas_used vm)))).
  - exact Hf.
  - lia.
Qed.

(** C31: the errors of a step are exactly those of [step_error]: a program
    counter outside the program, a word that does not decode or is gated, a gas
    charge above the limit, and the failing conditions of [Load], [Store], the
    stack instructions and [Assert].  The machine an error leaves differs from
    the one before in register 0, the gas counter, [halted] and [error] only:
    memory, storage, events, stack and trace are as they were. *)
Theorem vm_errors_exact vm program e vm' :
  vm_ok vm → program_ok program → halted vm = false →
  step vm program = Some (Err e, vm') ↔
  ∃ g, step_error vm program = Some (e, g) ∧ vm' = halt_with (set_gas (cleared vm) g) e.
Proof.
  intros Hok Hp Hh. pose proof (step_spec vm program Hok Hp Hh) as Hs. unfold step_spec_of in Hs.
  destruct (step_error vm program) as [[e1 g1]|].
  - rewrite Hs. split.
    + intros [= <- <-]. by exists g1.
    + intros (g & [= <- <-] & ->). done.
  - destruct Hs as (inst & vm1 & -> & _). split; [done|]. by intros (g & ? & _).
Qed.



(** The activation gate holds on mainnet.  Whatever program a machine in
    mainnet mode runs, no [VerifyMerkle] or [VerifyInference] row is in its
    trace. *)
Theorem vm_mainnet_gate fuel vm program r vm' s :
  fresh vm → program_ok program → mainnet_mode vm = true →
  run_receipt fuel vm program = Some (r, vm') → s ∈ trace vm' →
  opcode (s_instruction s) ≠ VerifyMerkle ∧ opcode (s_instruction s) ≠ VerifyInference.
Proof.
  intros Hf Hp Hm Hr Hs.
  destruct (run_receipt_spec program Hp _ _ _ _ Hf Hr) as [_ _ _ Hall _ _ _ _].
  specialize (Hall Hm). rewrite Forall_forall in Hall. specialize (Hall s Hs).
  split; intros Hop; rewrite Hop in Hall; discriminate.
Qed.
End VmSafety.

(** ** The theorems at concrete inputs *)
Module VmExamples.
Import VmLemmas Programs.

(** A machine as the node creates it. *)
Lemma created_fresh memory_size gas mainnet :
  Z.of_nat memory_size < 2 ^ 63 → u64 gas → fresh (with_mainnet_mode memory_size gas mainnet).
Proof.
  intros Hm Hg. split; [|done|done|done|cbn; int_lia].
  split; cbn [with_mainnet_mode set_mainnet with_gas_limit registers pc stack memory storage events
              context gas_used gas_limit state_writes sender nonce block_height]; try done;
    try int_lia.
  - apply Forall_replicate. int_lia.
  - cbn. lia.
  - by apply Forall_replicate.
  - by rewrite length_replicate.
Qed.

Definition node_vm : Vm := with_mainnet_mode 64 1000 true.

Lemma node_vm_fresh : fresh node_vm.
Proof. apply created_fresh; [cbn; lia|int_lia]. Qed.

(** A program that stores 7, loads it back, doubles it and logs the result,
    and one that jumps to itself. *)
Definition double : list Z :=
  [inst Load 1 0 0 7; inst Load 2 0 0 8; inst Store 0 2 1 0; inst Load 3 2 0 0; inst Add 4 1 3 0;
   inst Log 0 4 0 0; inst Halt 0 0 0 0].

Definition spin : list Z := [inst Jmp 0 0 0 0].

Definition double_run : ExecutionReceipt * Vm :=
  default (receipt None node_vm, node_vm) (run_receipt 20 node_vm double).

Lemma double_runs : run_receipt 20 node_vm double = Some (double_run.1, double_run.2).
Proof. vm_compute. reflexivity. Qed.

Lemma vm_step_typed_witness : ∃ r vm', step node_vm spin = Some (r, vm') ∧ vm_ok vm'.
Proof. apply (VmSafety.vm_step_typed node_vm spin); [apply node_vm_fresh|done]. Defined.

Lemma vm_run_returns_witness :
  ∃ r vm', vm_ok vm' ∧
    ∀ fuel, gas_limit node_vm - gas_used node_vm < Z.of_nat fuel →
      run_receipt fuel node_vm spin = Some (r, vm').
Proof. apply (VmSafety.vm_run_returns node_vm spin); [apply node_vm_fresh|done|done]. Defined.

Lemma vm_errors_exact_witness :
  step node_vm [] = Some (Err InvalidPc, halt_with (set_gas (cleared node_vm) 0) InvalidPc).
Proof.
  apply (VmSafety.vm_errors_exact node_vm []); [apply node_vm_fresh|done|done|]. by exists 0.
Defined.



Definition first_row : Step :=
  default (halt_row node_vm) (head (trace double_run.2)).

Lemma vm_mainnet_gate_witness :
  opcode (s_instruction first_row) ≠ VerifyMerkle ∧
  opcode (s_instruction first_row) ≠ VerifyInference.
Proof.
  apply (VmSafety.vm_mainnet_gate 20 node_vm double double_run.1 double_run.2 first_row);
    [apply node_vm_fresh|done|done|apply double_runs|].
  apply (list_elem_of_lookup_2 _ 0). vm_compute. reflexivity.
Defined.
End VmExamples.

(** ** Facts about particular inputs *)
Module VmFacts.
Import VmLemmas Programs VmExamples.

(** The permutation sees its input modulo [P]. *)
Lemma poseidon_full_state_mod s t :
  (λ x, x mod GOLDILOCKS_P) <$> s = (λ x, x mod GOLDILOCKS_P) <$> t →
  poseidon_full_state s = poseidon_full_state t.
Proof.
  intros Hst.
  assert (∀ rc, add_constants rc s = add_constants rc t) as Hadd.
  { unfold add_constants. revert t Hst. induction s as [|x s IH]; intros [|y t] Hst [|c rc]; try done.
    cbn in Hst |- *. injection Hst as Hxy Hst. f_equal; [|by apply IH].
    by rewrite <- (Zplus_mod_idemp_l x), Hxy, Zplus_mod_idemp_l. }
  unfold poseidon_full_state. destruct POSEIDON_RC_FULL as [|rc rcs] eqn:Hrc; [discriminate|].
  cbn [poseidon_rounds]. f_equal. unfold poseidon_round. cbv zeta.
  by change (zip_with (λ x c, (x + c) mod GOLDILOCKS_P) ?u rc) with (add_constants rc u); rewrite Hadd.
Qed.

(** Two writes with the same slot and value modulo [P]. *)
Definition same_write (w1 w2 : Z * Z) : Prop :=
  as_u64 w1.1 mod GOLDILOCKS_P = as_u64 w2.1 mod GOLDILOCKS_P ∧
  w1.2 mod GOLDILOCKS_P = w2.2 mod GOLDILOCKS_P.

(** The digest does not determine the writes. *)
Theorem state_writes_digest_mod ws1 ws2 :
  Forall2 same_write ws1 ws2 → state_writes_digest ws1 = state_writes_digest ws2.
Proof.
  intros Hw. unfold state_writes_digest, digest_acc. generalize (replicate 8 0) as acc.
  induction Hw as [|w1 w2 ws1 ws2 [Hs Hv] _ IH]; intros acc; [done|]. cbn [foldl].
  assert (digest_link acc w1 = digest_link acc w2) as ->; [|apply IH].
  apply poseidon_full_state_mod. rewrite !fmap_app. f_equal. cbn. by rewrite Hs, Hv.
Qed.

(** The slots [i32::MIN] and [i32::MAX] are one field element, and so are a
    value and the value plus [P]. *)
Theorem state_writes_digest_collides :
  state_writes_digest [(- 2 ^ 31, 5)] = state_writes_digest [(2 ^ 31 - 1, 5)] ∧
  state_writes_digest [(1, 5)] = state_writes_digest [(1, 5 + GOLDILOCKS_P)].
Proof. split; apply state_writes_digest_mod; (constructor; [by split|constructor]). Qed.

Definition write_program (slot : Z) : list Z :=
  [inst Load 1 0 0 5; inst SWrite 0 1 0 slot; inst Halt 0 0 0 0].

(** Programs with these writes run, and their receipts have one digest. *)
Theorem colliding_programs :
  ∃ vm1 vm2,
    run_loop 5 node_vm (write_program (- 2 ^ 31)) = Some (None, vm1) ∧
    run_loop 5 node_vm (write_program (2 ^ 31 - 1)) = Some (None, vm2) ∧
    state_writes vm1 = [(- 2 ^ 31, 5)] ∧ state_writes vm2 = [(2 ^ 31 - 1, 5)] ∧
    r_state_writes_digest (receipt None vm1) = r_state_writes_digest (receipt None vm2).
Proof.
  eexists _, _. split; [vm_compute; reflexivity|]. split; [vm_compute; reflexivity|].
  split; [reflexivity|]. split; [reflexivity|]. apply state_writes_digest_collides.
Qed.

(** The fingerprint that [the_whole_constant_table_is_locked] pins: FNV-1a over
    the little-endian bytes of a table. *)
Definition fnv1a64 (vals : list (list Z)) : Z :=
  foldl (λ h b, Z.lxor h b * 0x100000001b3 mod 2 ^ 64) 0xcbf29ce484222325
    (concat vals ≫= le_bytes 8).

Theorem constant_tables_locked :
  fnv1a64 POSEIDON_RC_FULL = 0x5abc690802c00f4a ∧ fnv1a64 POSEIDON_MDS = 0x7fb29bd152c1ff25.
Proof. vm_compute. split; reflexivity. Qed.

(** The canonical private transfer conserves its amounts, and its claimed
    nullifier is not the one of its secret. *)
Theorem private_transfer_program :
  match build_private_transfer_check_program with
  | Ok program =>
      match run_receipt 20 node_vm program with
      | Some (r, _) => r_success r = true ∧ r_events r = [1; 0]
      | None => False
      end
  | Err _ => False
  end.
Proof. vm_compute. repeat split. Qed.

(** The canonical context program logs the sender, the height and the nonce of
    whatever context it runs in. *)
Theorem syscall_context_program c :
  match build_syscall_context_check_program with
  | Ok program =>
      match run_receipt 10 (set_context (new 64) c) program with
      | Some (r, _) => r_success r = true ∧ r_events r = [sender c; block_height c; nonce c]
      | None => False
      end
  | Err _ => False
  end.
Proof. destruct c. vm_compute. split; reflexivity. Qed.

(** ** Unlimited gas *)

(** At the largest gas limit the counter saturates below it. *)
Record spinning (vm : Vm) : Prop := {
  spin_ok : vm_ok vm;
  spin_pc : pc vm = 0;
  spin_running : halted vm = false;
  spin_gas : gas_limit vm = u64_max;
}.

Definition jump : Instruction := {| opcode := Jmp; rd := 0; rs1 := 0; rs2 := 0; imm := 0 |}.

Lemma jump_decodes mainnet : decode_instruction (inst Jmp 0 0 0 0) mainnet = Ok jump.
Proof. by destruct mainnet. Qed.

Lemma spinning_exec vm v w :
  pc vm = 0 → exec vm jump v w = Some (Ok (outcome 0 0), set_pc vm 0).
Proof. intros Hpc. unfold exec. cbn [opcode jump imm]. by rewrite Hpc. Qed.

Lemma spinning_step vm : spinning vm → ∃ vm', step vm spin = Some (Ok tt, vm') ∧ spinning vm'.
Proof.
  intros [Hok Hpc Hh Hg].
  set (vm1 := set_gas (cleared vm) (u64_sat_add (gas_used vm) 1)).
  assert (vm_ok vm1) as Hok1.
  { apply set_gas_ok; [by apply cleared_ok|]. pose proof (ok_gas_used _ Hok). int_lia. }
  destruct (reg_Some vm1 0) as (v & Hv & _); [done|lia|].
  assert (vm_ok (set_pc vm1 0)) as Hok2 by (destruct Hok1; by split).
  eexists. split.
  - unfold step. rewrite zero_r0_Some by done. cbn [mbind option_bind].
    change (halted (cleared vm)) with (halted vm). change (pc (cleared vm)) with (pc vm).
    rewrite Hh, Hpc. change (Z.of_nat (length spin) <=? 0) with false.
    change (spin !! Z.to_nat 0) with (Some (inst Jmp 0 0 0 0)). cbn [mbind option_bind].
    rewrite jump_decodes.
    change (consume_gas (cleared vm) (gas_cost (opcode jump))) with
      (if gas_limit vm <? gas_used vm1 then (Err OutOfGas, halt_with vm1 OutOfGas)
       else (Ok tt, vm1)).
    rewrite Hg, (proj2 (Z.ltb_ge _ _)) by (unfold vm1; cbn; int_lia).
    change (rs1 jump) with 0. change (rs2 jump) with 0. rewrite Hv. cbn [mbind option_bind].
    rewrite spinning_exec by done.
    cbn [mbind option_bind]. rewrite zero_r0_Some by done. cbn [mbind option_bind expand opcode jump].
    reflexivity.
  - pose proof (cleared_ok _ Hok2) as []. by split; [split| | |].
Qed.

(** With the limit [u64::MAX] a program that jumps to itself never ends. *)
Theorem unlimited_gas_spins fuel : run_receipt fuel (with_gas_limit 64 u64_max) spin = None.
Proof.
  assert (spinning (with_gas_limit 64 u64_max)) as Hs.
  { split; [|done|done|done]. apply (created_fresh 64 u64_max false); [cbn; lia|int_lia]. }
  unfold run_receipt. revert Hs. generalize (with_gas_limit 64 u64_max) as vm.
  induction fuel as [|fuel IH]; intros vm Hs; cbn [run_loop]; rewrite (spin_running _ Hs); [done|].
  destruct (spinning_step vm Hs) as (vm' & -> & Hs'). apply (IH vm' Hs').
Qed.
End VmFacts.
