(* ===== verification/Compiler.v ===== *)
(** * The BudL compiler: syntax and code generation

    [budzero/bud-compiler/src/ast.rs] and [codegen.rs].  The generator is an
    imperative pass over one mutable state: it appends instruction words,
    patches jumps once their targets are known, hands out registers from a
    counter, and keeps the first error while it goes on.  All of that is kept:
    every function takes the state and returns it.

    An identifier is a [string]; the texts of errors are constructors.  The
    operations that would panic in the source (indexing the arguments of a
    builtin, a jump patched out of range) set [panicked]. *)
From stdpp Require Import base tactics numbers list gmap strings.
From Stdlib Require Import ZArith Lia.
From S2P Require Import Prelude Isa Vm.
Open Scope Z_scope.

(** ** Syntax *)
Module Ast.

Inductive BinOp := BAdd | BSub | BMul | BDiv | BEq | BNeq | BLt | BGt | BLte | BGte.

Inductive Expr :=
  | EInt (val : Z)
  | EIdent (name : string)
  | EStorageRead (name : string)
  | EMappingRead (name : string) (key : Expr)
  | EFieldAccess (base : Expr) (field : string)
  | EStructLiteral (name : string) (fields : list (string * Expr))
  | EBinary (left : Expr) (op : BinOp) (right : Expr)
  | ECall (name : string) (args : list Expr).

Inductive MatchPattern := IntLit (val : Z) | Wildcard.

Inductive Stmt :=
  | SLet (name : string) (e : Expr)
  | SConstrain (e : Expr)
  | SAssign (name : string) (e : Expr)
  | SStorageWrite (name : string) (e : Expr)
  | SMappingWrite (name : string) (key val : Expr)
  | SIf (cond : Expr) (then_branch : list Stmt) (else_branch : option (list Stmt))
  | SWhile (cond : Expr) (body : list Stmt)
  | SFor (var : string) (start end_ : Expr) (body : list Stmt)
  | SReturn (e : option Expr)
  | SEmit (name : string) (args : list Expr)
  | SMatch (scrutinee : Expr) (arms : list (MatchPattern * list Stmt))
  | SExpr (e : Expr).

Record StorageField := mkStorageField { f_name : string; f_ty : string }.

Record Param := mkParam { p_name : string; p_ty : string }.

Record Function := mkFunction {
  fn_name : string;
  params : list Param;
  return_type : option string;
  body : list Stmt;
  is_pub : bool;
}.

Record Struct := mkStruct { st_name : string; fields : list StorageField }.

Record Contract := mkContract {
  c_name : string;
  storage : list StorageField;
  structs : list Struct;
  functions : list Function;
}.

End Ast.

(** ** Code generation *)
Module Codegen.
Import Ast.

Inductive CodegenMsg :=
  | MainNotFound
  | UndefinedFunction (name : string)
  | UnknownStorage (name : string)
  | UnknownMapping (name : string)
  | UndefinedVariable (name : string)
  | PatchFailed
  | LiteralTooLarge (v : Z)
  | LiteralFieldNotFound (field name : string)
  | FieldNotFound (field name : string)
  | LayoutUnknown (field : string)
  | PathNotConstant
  | PathTooLarge (v : Z).

Inductive CompileError :=
  | CodegenError (m : CodegenMsg)
  | ExperimentalOpcodeDisabled (op : Isa.Opcode)
  | RegisterExhausted.

Record VarInfo := mkVarInfo { reg : Z; struct_type : option string }.

Record Codegen := mkCodegen {
  instructions : list Z;
  next_reg : Z;
  profile : Isa.IsaProfile;
  error : option CompileError;
  unpatched_calls : list (nat * string);
  struct_layouts : gmap string (list string);
  struct_field_types : gmap string (gmap string string);
  function_returns : gmap string string;
  panicked : bool;
}.

Definition new_with_profile (p : Isa.IsaProfile) : Codegen :=
  mkCodegen [] 1 p None [] ∅ ∅ ∅ false.

Definition set_instructions (g : Codegen) (l : list Z) : Codegen :=
  mkCodegen l (next_reg g) (profile g) (error g) (unpatched_calls g) (struct_layouts g)
    (struct_field_types g) (function_returns g) (panicked g).

Definition set_next_reg (g : Codegen) (r : Z) : Codegen :=
  mkCodegen (instructions g) r (profile g) (error g) (unpatched_calls g) (struct_layouts g)
    (struct_field_types g) (function_returns g) (panicked g).

Definition set_error (g : Codegen) (e : option CompileError) : Codegen :=
  mkCodegen (instructions g) (next_reg g) (profile g) e (unpatched_calls g) (struct_layouts g)
    (struct_field_types g) (function_returns g) (panicked g).

Definition set_calls (g : Codegen) (l : list (nat * string)) : Codegen :=
  mkCodegen (instructions g) (next_reg g) (profile g) (error g) l (struct_layouts g)
    (struct_field_types g) (function_returns g) (panicked g).

Definition set_tables (g : Codegen) (layouts : gmap string (list string))
    (types : gmap string (gmap string string)) (returns : gmap string string) : Codegen :=
  mkCodegen (instructions g) (next_reg g) (profile g) (error g) (unpatched_calls g) layouts types
    returns (panicked g).

Definition panic (g : Codegen) : Codegen :=
  mkCodegen (instructions g) (next_reg g) (profile g) (error g) (unpatched_calls g)
    (struct_layouts g) (struct_field_types g) (function_returns g) true.

(** [if self.error.is_none() { self.error = Some(e) }]. *)
Definition raise (g : Codegen) (e : CompileError) : Codegen :=
  match error g with None => set_error g (Some e) | Some _ => g end.

Definition has_error (g : Codegen) : bool := bool_decide (error g ≠ None).

(** Register 31 is the heap pointer. *)
Definition alloc_reg (g : Codegen) : Z * Codegen :=
  if 31 <=? next_reg g then (30, raise g RegisterExhausted)
  else (next_reg g, set_next_reg g (next_reg g + 1)).

(** Of a build without the [experimental] feature. *)
Definition emit (g : Codegen) (op : Isa.Opcode) (rd rs1 rs2 imm : Z) : Codegen :=
  if Isa.is_experimental op then raise g (ExperimentalOpcodeDisabled op)
  else
    set_instructions g (instructions g ++
      [Isa.encode {| Isa.opcode := op; Isa.rd := rd; Isa.rs1 := rs1; Isa.rs2 := rs2; Isa.imm := imm |}]).

(** The number of instructions so far. *)
Definition here (g : Codegen) : nat := length (instructions g).

(** [(target as i32) - (idx as i32)]. *)
Definition rel (target idx : nat) : Z := Isa.as_i32 (Z.of_nat target) - Isa.as_i32 (Z.of_nat idx).

Definition patch_jump (g : Codegen) (idx : nat) (offset : Z) : Codegen :=
  if has_error g then g
  else
    match instructions g !! idx with
    | None => panic g
    | Some raw =>
        match Isa.decode_any raw with
        | Err _ => raise g (CodegenError PatchFailed)
        | Ok i =>
            set_instructions g (<[idx := Isa.encode {| Isa.opcode := Isa.opcode i; Isa.rd := Isa.rd i;
              Isa.rs1 := Isa.rs1 i; Isa.rs2 := Isa.rs2 i; Isa.imm := offset |}]> (instructions g))
        end
    end.

(** [fs.iter().position(|f| f == name)]. *)
Definition position (name : string) (fs : list string) : option nat :=
  fst <$> list_find (λ f, f = name) fs.

Notation Scope := (gmap string VarInfo).

Fixpoint expr_struct_type (g : Codegen) (e : Expr) (scope : Scope) : option string :=
  match e with
  | EStructLiteral name _ => Some name
  | EIdent name => vi ← scope !! name; struct_type vi
  | EFieldAccess base field =>
      base_type ← expr_struct_type g base scope;
      types ← struct_field_types g !! base_type;
      field_type ← types !! field;
      if bool_decide (is_Some (struct_layouts g !! field_type)) then Some field_type else None
  | ECall name _ =>
      ret ← function_returns g !! name;
      if bool_decide (is_Some (struct_layouts g !! ret)) then Some ret else None
  | _ => None
  end.

Definition op_of (op : BinOp) : Isa.Opcode :=
  match op with
  | BAdd => Isa.Add | BSub => Isa.Sub | BMul => Isa.Mul | BDiv => Isa.Div | BEq => Isa.Eq
  | BNeq => Isa.Neq | BLt => Isa.Lt | BGt => Isa.Gt | BLte => Isa.Lte | BGte => Isa.Gte
  end.

Definition I32_MAX : Z := 2147483647.

(** The three base-2^30 digits of a literal that does not fit an immediate. *)
Definition chunks_of (v : Z) : list Z :=
  [Z.land (Z.shiftr v 60) 15; Z.land (Z.shiftr v 30) 1073741823; Z.land v 1073741823].

Definition emit_chunk (rg shift_reg temp_reg : Z) (st : Codegen * bool) (chunk : Z) : Codegen * bool :=
  let '(g, started) := st in
  if (0 <? chunk) || started then
    if started then
      let g := emit g Isa.Mul rg rg shift_reg 0 in
      (if 0 <? chunk then
         emit (emit g Isa.Load temp_reg 0 0 chunk) Isa.Add rg rg temp_reg 0
       else g, true)
    else (emit g Isa.Load rg 0 0 chunk, true)
  else (g, started).

Definition generate_int (v : Z) (g : Codegen) : Z * Codegen :=
  if Field.GOLDILOCKS_P <=? v then (0, raise g (CodegenError (LiteralTooLarge v)))
  else if v <=? I32_MAX then
    let '(rg, g) := alloc_reg g in
    (rg, emit g Isa.Load rg 0 0 v)
  else
    let '(rg, g) := alloc_reg g in
    let '(shift_reg, g) := alloc_reg g in
    let g := emit g Isa.Load shift_reg 0 0 1073741824 in
    let '(temp_reg, g) := alloc_reg g in
    (rg, (foldl (emit_chunk rg shift_reg temp_reg) (g, false) (chunks_of v)).1).

(** A state-passing map; the function is also given the position. *)
Section traverse.
Context {A B : Type} (f : nat → A → Codegen → B * Codegen).

Fixpoint traverse (i : nat) (l : list A) (g : Codegen) : list B * Codegen :=
  match l with
  | [] => ([], g)
  | a :: l =>
      let '(b, g) := f i a g in
      let '(bs, g) := traverse (S i) l g in
      (b :: bs, g)
  end.
End traverse.

Definition push (g : Codegen) (r : Z) : Codegen := emit g Isa.Push 0 r 0 0.
Definition pop (g : Codegen) (r : Z) : Codegen := emit g Isa.Pop r 0 0 0.

(** [1..next_reg]. *)
Definition live_regs (next : Z) : list Z := seqZ 1 (next - 1).

(** The result register of a binary operation: a temporary of an operand, or
    a new register. *)
Definition result_reg (l_reg saved1 r_reg saved2 : Z) (g : Codegen) : Z * Codegen :=
  if saved1 <=? l_reg then (l_reg, g) else if saved2 <=? r_reg then (r_reg, g) else alloc_reg g.

Fixpoint generate_expr (e : Expr) (scope : Scope) (storage : gmap string Z) (g : Codegen) :
    Z * Codegen :=
  if has_error g then (0, g)
  else
    match e with
    | EInt v => generate_int v g
    | EIdent name =>
        match scope !! name with
        | Some vi => (reg vi, g)
        | None => (0, raise g (CodegenError (UndefinedVariable name)))
        end
    | EStorageRead name =>
        let '(rg, g) := alloc_reg g in
        match storage !! name with
        | Some slot => (rg, emit g Isa.SRead rg 0 0 slot)
        | None => (0, raise g (CodegenError (UnknownStorage name)))
        end
    | EMappingRead name key =>
        match storage !! name with
        | None => (0, raise g (CodegenError (UnknownMapping name)))
        | Some base_slot =>
            let '(key_reg, g) := generate_expr key scope storage g in
            let '(base_reg, g) := alloc_reg g in
            let g := emit g Isa.Load base_reg 0 0 base_slot in
            let '(target_slot_reg, g) := alloc_reg g in
            let g := emit g Isa.Poseidon target_slot_reg base_reg key_reg 0 in
            let '(res_reg, g) := alloc_reg g in
            (res_reg, emit g Isa.SRead res_reg 0 target_slot_reg (-1))
        end
    | EStructLiteral name fields =>
        let saved_next_reg := next_reg g in
        let '(ptr_reg, g) := alloc_reg g in
        let g := emit g Isa.Add ptr_reg 31 0 0 in
        let layout := struct_layouts g !! name in
        let '(field_vals, g) :=
          traverse (λ i '(fname, val) g,
              let '(val_reg, g) := generate_expr val scope storage g in
              match layout ≫= position fname with
              | Some idx => ((Z.of_nat idx * 8, val_reg), g)
              | None =>
                  ((Z.of_nat i * 8, val_reg), raise g (CodegenError (LiteralFieldNotFound fname name)))
              end) 0 fields g in
        let g := foldl (λ g '(offset, val_reg), emit g Isa.Store 0 ptr_reg val_reg offset) g field_vals in
        let size_words := match layout with Some fs => length fs | None => length fields end in
        let '(size_reg, g) := alloc_reg g in
        let g := emit g Isa.Load size_reg 0 0 (Z.of_nat size_words * 8) in
        let g := emit g Isa.Add 31 31 size_reg 0 in
        let g := set_next_reg g saved_next_reg in
        let '(res_reg, g) := alloc_reg g in
        (res_reg, emit g Isa.Add res_reg ptr_reg 0 0)
    | EFieldAccess base field =>
        let struct_type := expr_struct_type g base scope in
        let '(base_reg, g) := generate_expr base scope storage g in
        let '(res_reg, g) := alloc_reg g in
        let '(offset, g) :=
          match struct_type ≫= λ name, struct_layouts g !! name with
          | Some fs =>
              match position field fs with
              | Some idx => (Z.of_nat idx * 8, g)
              | None => (0, raise g (CodegenError (FieldNotFound field (default "" struct_type))))
              end
          | None => (0, raise g (CodegenError (LayoutUnknown field)))
          end in
        (res_reg, emit g Isa.Load res_reg base_reg 0 offset)
    | EBinary e1 op e2 =>
        let saved1 := next_reg g in
        let '(l_reg, g) := generate_expr e1 scope storage g in
        let saved2 := next_reg g in
        let '(r_reg, g) := generate_expr e2 scope storage g in
        let '(res_reg, g) := result_reg l_reg saved1 r_reg saved2 g in
        let g := emit g (op_of op) res_reg l_reg r_reg 0 in
        (res_reg, set_next_reg g (Z.max (res_reg + 1) saved1))
    | ECall name args =>
        if decide (name = "poseidon") then
          let saved1 := next_reg g in
          match args with
          | arg0 :: rest =>
              let '(r1, g) := generate_expr arg0 scope storage g in
              let saved2 := next_reg g in
              match rest with
              | arg1 :: _ =>
                  let '(r2, g) := generate_expr arg1 scope storage g in
                  let '(res, g) := result_reg r1 saved1 r2 saved2 g in
                  let g := emit g Isa.Poseidon res r1 r2 0 in
                  (res, set_next_reg g (Z.max (res + 1) saved1))
              | [] => (0, panic g)
              end
          | [] => (0, panic g)
          end
        else if decide (name = "msg::sender") then
          let '(res, g) := alloc_reg g in (res, emit g Isa.Syscall res 0 0 1)
        else if decide (name = "msg::nonce") then
          let '(res, g) := alloc_reg g in (res, emit g Isa.Syscall res 0 0 3)
        else if decide (name = "block::number") then
          let '(res, g) := alloc_reg g in (res, emit g Isa.Syscall res 0 0 2)
        else if decide (name = "verify_merkle_proof") then
          match args with
          | root :: leaf :: path :: _ =>
              let '(r_root, g) := generate_expr root scope storage g in
              let '(r_leaf, g) := generate_expr leaf scope storage g in
              match path with
              | EInt path_addr =>
                  if I32_MAX <? path_addr then (0, raise g (CodegenError (PathTooLarge path_addr)))
                  else
                    let '(res, g) := alloc_reg g in
                    (res, emit g Isa.VerifyMerkle res r_root r_leaf path_addr)
              | _ => (0, raise g (CodegenError PathNotConstant))
              end
          | _ => (0, panic g)
          end
        else
          let saved_next_reg := next_reg g in
          let g := foldl push g (live_regs saved_next_reg) in
          let '(arg_regs, g) := traverse (λ _ arg g, generate_expr arg scope storage g) 0 args g in
          let g := foldl push g arg_regs in
          let call_idx := here g in
          let g := emit g Isa.Call 0 0 0 0 in
          let g := set_calls g (unpatched_calls g ++ [(call_idx, name)]) in
          let g := set_next_reg g saved_next_reg in
          let '(res_reg, g) := alloc_reg g in
          let g := pop g res_reg in
          (res_reg, foldl pop g (reverse (live_regs saved_next_reg)))
    end.

(** ** Statements *)

(** [for s in body { self.generate_stmt(s, scope, storage) }]. *)
Section block.
Context (gen : Stmt → Scope → Codegen → Scope * Codegen).

Fixpoint block (l : list Stmt) (scope : Scope) (g : Codegen) : Scope * Codegen :=
  match l with
  | [] => (scope, g)
  | s :: l => let '(scope, g) := gen s scope g in block l scope g
  end.
End block.

(** What the loop over the arms of a [match] carries. *)
Record ArmState := mkArmState {
  pending_skip : option nat;
  end_jumps : list nat;
  arm_scope : Scope;
  arm_gen : Codegen;
}.

Section arms.
Context (gen : Stmt → Scope → Codegen → Scope * Codegen).
Context (scrutinee_reg saved_reg : Z).

Fixpoint generate_arms (arms : list (MatchPattern * list Stmt)) (st : ArmState) : ArmState :=
  match arms with
  | [] => st
  | (pattern, body) :: arms =>
      let g := arm_gen st in
      let test_start := here g in
      let g := match pending_skip st with
               | Some prev => patch_jump g prev (rel test_start prev)
               | None => g
               end in
      let '(skip, g) :=
        match pattern with
        | IntLit val =>
            let '(pat_reg, g) := alloc_reg g in
            let g := emit g Isa.Load pat_reg 0 0 (Isa.as_i32 val) in
            let '(diff_reg, g) := alloc_reg g in
            let g := emit g Isa.Sub diff_reg scrutinee_reg pat_reg 0 in
            let placeholder := here g in
            let g := emit g Isa.Jnz 0 diff_reg 0 0 in
            (Some placeholder, set_next_reg g saved_reg)
        | Wildcard => (None, g)
        end in
      let '(scope, g) := block gen body (arm_scope st) g in
      let end_jump := here g in
      let g := emit g Isa.Jmp 0 0 0 0 in
      generate_arms arms
        (mkArmState skip (end_jumps st ++ [end_jump]) scope (set_next_reg g saved_reg))
  end.
End arms.

Fixpoint generate_stmt (s : Stmt) (storage : gmap string Z) (scope : Scope) (g : Codegen) :
    Scope * Codegen :=
  if has_error g then (scope, g)
  else
    let saved_reg := next_reg g in
    match s with
    | SLet name e =>
        let struct_type := expr_struct_type g e scope in
        let '(rg, g) := generate_expr e scope storage g in
        (<[name := mkVarInfo rg struct_type]> scope,
         set_next_reg g (if saved_reg <=? rg then rg + 1 else saved_reg))
    | SConstrain e =>
        let '(rg, g) := generate_expr e scope storage g in
        (scope, set_next_reg (emit g Isa.Assert 0 rg 0 0) saved_reg)
    | SStorageWrite name e =>
        let '(rg, g) := generate_expr e scope storage g in
        match storage !! name with
        | None => (scope, raise g (CodegenError (UnknownStorage name)))
        | Some slot => (scope, set_next_reg (emit g Isa.SWrite 0 rg 0 slot) saved_reg)
        end
    | SMappingWrite name key val =>
        match storage !! name with
        | None => (scope, raise g (CodegenError (UnknownMapping name)))
        | Some base_slot =>
            let '(key_reg, g) := generate_expr key scope storage g in
            let '(val_reg, g) := generate_expr val scope storage g in
            let '(base_reg, g) := alloc_reg g in
            let g := emit g Isa.Load base_reg 0 0 base_slot in
            let '(target_slot_reg, g) := alloc_reg g in
            let g := emit g Isa.Poseidon target_slot_reg base_reg key_reg 0 in
            (scope, set_next_reg (emit g Isa.SWrite 0 val_reg target_slot_reg (-1)) saved_reg)
        end
    | SAssign name e =>
        let '(rg, g) := generate_expr e scope storage g in
        match scope !! name with
        | None => (scope, raise g (CodegenError (UndefinedVariable name)))
        | Some vi => (scope, set_next_reg (emit g Isa.Add (reg vi) rg 0 0) saved_reg)
        end
    | SIf cond then_branch else_branch =>
        let '(cond_reg, g) := generate_expr cond scope storage g in
        let jump_to_then_idx := here g in
        let g := set_next_reg (emit g Isa.Jnz 0 cond_reg 0 0) saved_reg in
        let '(scope, g) :=
          match else_branch with
          | Some eb => block (λ s, generate_stmt s storage) eb scope g
          | None => (scope, g)
          end in
        let jump_to_end_idx := here g in
        let g := emit g Isa.Jmp 0 0 0 0 in
        let then_start_idx := here g in
        let '(scope, g) := block (λ s, generate_stmt s storage) then_branch scope g in
        let end_idx := here g in
        let g := patch_jump g jump_to_then_idx (rel then_start_idx jump_to_then_idx) in
        (scope, patch_jump g jump_to_end_idx (rel end_idx jump_to_end_idx))
    | SWhile cond body =>
        let start_idx := here g in
        let '(cond_reg, g) := generate_expr cond scope storage g in
        let jump_to_body_idx := here g in
        let g := set_next_reg (emit g Isa.Jnz 0 cond_reg 0 0) saved_reg in
        let jump_to_end_idx := here g in
        let g := emit g Isa.Jmp 0 0 0 0 in
        let body_start_idx := here g in
        let '(scope, g) := block (λ s, generate_stmt s storage) body scope g in
        let current_idx := here g in
        let g := emit g Isa.Jmp 0 0 0 (rel start_idx current_idx) in
        let end_idx := here g in
        let g := patch_jump g jump_to_body_idx (rel body_start_idx jump_to_body_idx) in
        (scope, patch_jump g jump_to_end_idx (rel end_idx jump_to_end_idx))
    | SMatch scrutinee arms =>
        let '(scrutinee_reg, g) := generate_expr scrutinee scope storage g in
        let g := set_next_reg g saved_reg in
        let st := generate_arms (λ s, generate_stmt s storage) scrutinee_reg saved_reg arms
                    (mkArmState None [] scope g) in
        let ends := end_jumps st ++ match pending_skip st with Some l => [l] | None => [] end in
        let end_idx := here (arm_gen st) in
        (arm_scope st, foldl (λ g idx, patch_jump g idx (rel end_idx idx)) (arm_gen st) ends)
    | SFor var start end_ body =>
        let '(start_reg, g) := generate_expr start scope storage g in
        let '(end_reg, g) := generate_expr end_ scope storage g in
        let '(loop_reg, g) := alloc_reg g in
        let g := emit g Isa.Add loop_reg start_reg 0 0 in
        let g := set_next_reg g (loop_reg + 1) in
        let inner_scope := <[var := mkVarInfo loop_reg None]> scope in
        let start_idx := here g in
        let inner_saved := next_reg g in
        let '(cond_reg, g) := alloc_reg g in
        let g := emit g Isa.Lt cond_reg loop_reg end_reg 0 in
        let jump_to_body_idx := here g in
        let g := set_next_reg (emit g Isa.Jnz 0 cond_reg 0 0) inner_saved in
        let jump_to_end_idx := here g in
        let g := emit g Isa.Jmp 0 0 0 0 in
        let body_start_idx := here g in
        let '(_, g) := block (λ s, generate_stmt s storage) body inner_scope g in
        let '(one_reg, g) := alloc_reg g in
        let g := emit g Isa.Load one_reg 0 0 1 in
        let g := set_next_reg (emit g Isa.Add loop_reg loop_reg one_reg 0) inner_saved in
        let current_idx := here g in
        let g := emit g Isa.Jmp 0 0 0 (rel start_idx current_idx) in
        let end_idx := here g in
        let g := patch_jump g jump_to_body_idx (rel body_start_idx jump_to_body_idx) in
        let g := patch_jump g jump_to_end_idx (rel end_idx jump_to_end_idx) in
        (scope, set_next_reg g saved_reg)
    | SReturn e =>
        let '(temp, g) := alloc_reg g in
        let g := pop g temp in
        let g :=
          match e with
          | Some e => let '(rg, g) := generate_expr e scope storage g in push g rg
          | None =>
              let '(zero, g) := alloc_reg g in
              push (emit g Isa.Load zero 0 0 0) zero
          end in
        (scope, set_next_reg (emit (push g temp) Isa.Ret 0 0 0 0) saved_reg)
    | SEmit _ args =>
        let '(_, g) :=
          traverse (λ _ arg g,
            let '(rg, g) := generate_expr arg scope storage g in ((), emit g Isa.Log 0 rg 0 0)) 0 args g in
        (scope, set_next_reg g saved_reg)
    | SExpr e => let '(_, g) := generate_expr e scope storage g in (scope, set_next_reg g saved_reg)
    end.

(** ** Functions and contracts *)
Definition storage_map (fs : list StorageField) : gmap string Z :=
  foldl (λ m '(i, f), <[f_name f := Isa.as_i32 (Z.of_nat i)]> m) ∅ (imap pair fs).

Definition param_scope (g : Codegen) (ps : list (Param * Z)) : Scope :=
  foldl (λ m '(p, rg), <[p_name p := mkVarInfo rg
      (if bool_decide (is_Some (struct_layouts g !! p_ty p)) then Some (p_ty p) else None)]> m) ∅ ps.

Definition generate_function (g : Codegen) (f : Function) (c : Contract) : Codegen :=
  if has_error g then g
  else
    let g := set_next_reg g 1 in
    let '(ret_addr_reg, g) := alloc_reg g in
    let g := pop g ret_addr_reg in
    let '(param_regs, g) := traverse (λ _ (_ : Param) g, alloc_reg g) 0 (params f) g in
    let g := foldl pop g (reverse param_regs) in
    let scope := param_scope g (zip (params f) param_regs) in
    let g := push g ret_addr_reg in
    let '(_, g) := block (λ s, generate_stmt s (storage_map (storage c))) (body f) scope g in
    let '(temp, g) := alloc_reg g in
    let g := pop g temp in
    let '(zero, g) := alloc_reg g in
    let g := push (emit g Isa.Load zero 0 0 0) zero in
    emit (push g temp) Isa.Ret 0 0 0 0.

Definition HEAP_BASE : Z := 4096.

(** The tables of the structs and of the declared return types. *)
Definition register_tables (g : Codegen) (c : Contract) : Codegen :=
  set_tables g
    (foldl (λ m s, <[st_name s := f_name <$> fields s]> m) (struct_layouts g) (structs c))
    (foldl (λ m s, <[st_name s := foldl (λ t f, <[f_name f := f_ty f]> t) ∅ (fields s)]> m)
       (struct_field_types g) (structs c))
    (foldl (λ m f, match return_type f with Some r => <[fn_name f := r]> m | None => m end)
       (function_returns g) (functions c)).

Definition generate_functions (c : Contract) (st : gmap string nat * Codegen) (f : Function) :
    gmap string nat * Codegen :=
  let '(offs, g) := st in (<[fn_name f := here g]> offs, generate_function g f c).

Definition patch_call (offs : gmap string nat) (g : Codegen) (u : nat * string) : Codegen :=
  match offs !! u.2 with
  | Some target_idx => patch_jump g u.1 (rel target_idx u.1)
  | None => set_error g (Some (CodegenError (UndefinedFunction u.2)))
  end.

(** [None] is a panic. *)
Definition generate (g : Codegen) (c : Contract) : option (result CompileError (list Z)) :=
  let g := register_tables g c in
  let g := emit g Isa.Load 31 0 0 HEAP_BASE in
  let jump_to_main_idx := here g in
  let g := emit g Isa.Call 0 0 0 0 in
  let g := emit g Isa.Halt 0 0 0 0 in
  let '(func_offsets, g) := foldl (generate_functions c) (∅, g) (functions c) in
  let g :=
    match func_offsets !! "main" with
    | Some main_idx => patch_jump g jump_to_main_idx (rel main_idx jump_to_main_idx)
    | None => set_error g (Some (CodegenError MainNotFound))
    end in
  let unpatched := unpatched_calls g in
  let g := foldl (patch_call func_offsets) (set_calls g []) unpatched in
  if panicked g then None
  else Some (match error g with Some err => Err err | None => Ok (instructions g) end).

End Codegen.
