(* ===== verification/CompilerSem.v ===== *)
(** * What a BudL contract means

    An evaluator for the scalar part of the language of
    [budzero/bud-compiler/src/ast.rs], independent of the code generator:
    variables have block scope, an operand is a field element, a [for] bound
    is evaluated once, a [match] takes the first arm that fits.  Storage is
    the machine's: a declared field has the slot of its position, an entry of
    a mapping the slot its key hashes to.

    [Scalar] is the part of the language the compiler is proved right for.
    Structs and Merkle proofs are outside it, and so are the four forms that
    are compiled wrongly: a [let] that copies a variable, a nested block that
    rebinds an outer name, a [match] on something else than a variable or
    with a pattern beyond an immediate. *)
From stdpp Require Import base tactics numbers list gmap strings.
From Stdlib Require Import ZArith Lia.
From S2P Require Import Prelude Isa Vm Compiler.
Import Ast.
Open Scope Z_scope.

Module Sem.
Import Field.

(** What a contract can change: storage, the log of its writes, events. *)
Record World := mkWorld {
  w_storage : gmap Z Z;
  w_writes : list (Z * Z);
  w_events : list Z;
}.

Definition store (w : World) (slot v : Z) : World :=
  mkWorld (<[slot := v]> (w_storage w)) (w_writes w ++ [(slot, v)]) (w_events w).

Definition log (w : World) (v : Z) : World :=
  mkWorld (w_storage w) (w_writes w) (w_events w ++ [v]).

Definition load (w : World) (slot : Z) : Z := default 0 (w_storage w !! slot).

(** The slot of [name[key]]: the low 32 bits of the hash of both. *)
Definition mapping_slot (base key : Z) : Z := Isa.as_i32 (poseidon4_hash base key).

Definition binary (op : BinOp) (a b : Z) : Z :=
  match op with
  | BAdd => field_add_goldilocks a b
  | BSub => field_sub_goldilocks a b
  | BMul => field_mul_goldilocks a b
  | BDiv => if b =? 0 then 0 else a * field_inverse_goldilocks b mod GOLDILOCKS_P
  | BEq => Vm.flag (a =? b)
  | BNeq => Vm.flag (negb (a =? b))
  | BLt => Vm.flag (a <? b)
  | BGt => Vm.flag (b <? a)
  | BLte => Vm.flag (a <=? b)
  | BGte => Vm.flag (b <=? a)
  end.

(** A normal end, or a [constrain] that did not hold. *)
Inductive outcome (A : Type) := Done (a : A) (w : World) | Abort (w : World).
#[global] Arguments Done {A} a w.
#[global] Arguments Abort {A} w.

(** [None] is a stuck program or too little fuel. *)
Definition bind {A B} (m : option (outcome A)) (k : A → World → option (outcome B)) :
    option (outcome B) :=
  match m with
  | Some (Done a w) => k a w
  | Some (Abort w) => Some (Abort w)
  | None => None
  end.

Notation Env := (gmap string Z).

(** After a block: the variables that existed before it. *)
Definition restrict (env env' : Env) : Env :=
  filter (λ e, is_Some (env !! e.1)) env'.

(** Where a statement leaves: at the next one, or out of the function. *)
Inductive flow := Next (env : Env) | Returned (v : Z).

Section lists.
Context (ev : Expr → World → option (outcome Z)).

Fixpoint eval_list (es : list Expr) (w : World) : option (outcome (list Z)) :=
  match es with
  | [] => Some (Done [] w)
  | e :: es => bind (ev e w) (λ v w, bind (eval_list es w) (λ vs w, Some (Done (v :: vs) w)))
  end.

Fixpoint emit_list (es : list Expr) (w : World) : option (outcome ()) :=
  match es with
  | [] => Some (Done () w)
  | e :: es => bind (ev e w) (λ v w, emit_list es (log w v))
  end.
End lists.

Section block.
Context (ex : Stmt → Env → World → option (outcome flow)).

Fixpoint exec_list (ss : list Stmt) (env : Env) (w : World) : option (outcome flow) :=
  match ss with
  | [] => Some (Done (Next env) w)
  | s :: ss =>
      bind (ex s env w) (λ f w,
        match f with Next env => exec_list ss env w | Returned v => Some (Done (Returned v) w) end)
  end.

(** A nested block. *)
Definition exec_block (ss : list Stmt) (env : Env) (w : World) : option (outcome flow) :=
  bind (exec_list ss env w) (λ f w,
    Some (Done (match f with Next env' => Next (restrict env env') | Returned v => Returned v end) w)).

Fixpoint exec_arms (arms : list (MatchPattern * list Stmt)) (v : Z) (env : Env) (w : World) :
    option (outcome flow) :=
  match arms with
  | [] => Some (Done (Next env) w)
  | (IntLit p, body) :: arms => if v =? p then exec_block body env w else exec_arms arms v env w
  | (Wildcard, body) :: _ => exec_block body env w
  end.
End block.

Section contract.
Context (funs : string → option Function) (slots : gmap string Z) (ctx : Vm.Context).

Fixpoint eval (n : nat) (e : Expr) (env : Env) (w : World) : option (outcome Z) :=
  match n with
  | O => None
  | S n =>
      match e with
      | EInt v => if v <? GOLDILOCKS_P then Some (Done v w) else None
      | EIdent x => v ← env !! x; Some (Done v w)
      | EStorageRead x => slot ← slots !! x; Some (Done (load w slot) w)
      | EMappingRead x key =>
          base ← slots !! x;
          bind (eval n key env w) (λ k w, Some (Done (load w (mapping_slot base k)) w))
      | EBinary e1 op e2 =>
          bind (eval n e1 env w) (λ a w, bind (eval n e2 env w) (λ b w, Some (Done (binary op a b) w)))
      | ECall name args =>
          if decide (name = "msg::sender") then Some (Done (Vm.sender ctx) w)
          else if decide (name = "msg::nonce") then Some (Done (Vm.nonce ctx) w)
          else if decide (name = "block::number") then Some (Done (Vm.block_height ctx) w)
          else
            bind (eval_list (λ e w, eval n e env w) args w) (λ vs w,
              if decide (name = "poseidon") then
                match vs with [a; b] => Some (Done (poseidon4_hash a b) w) | _ => None end
              else call n name vs w)
      | EFieldAccess _ _ | EStructLiteral _ _ => None
      end
  end
with call (n : nat) (name : string) (vs : list Z) (w : World) : option (outcome Z) :=
  match n with
  | O => None
  | S n =>
      f ← funs name;
      if bool_decide (length vs = length (params f)) then
        let env := list_to_map (zip (p_name <$> params f) vs) in
        bind (exec_list (exec n) (body f) env w) (λ fl w,
          Some (Done (match fl with Returned v => v | Next _ => 0 end) w))
      else None
  end
with exec (n : nat) (s : Stmt) (env : Env) (w : World) : option (outcome flow) :=
  match n with
  | O => None
  | S n =>
      match s with
      | SLet x e => bind (eval n e env w) (λ v w, Some (Done (Next (<[x := v]> env)) w))
      | SConstrain e =>
          bind (eval n e env w) (λ v w, Some (if v =? 0 then Abort w else Done (Next env) w))
      | SAssign x e =>
          bind (eval n e env w) (λ v w, _ ← env !! x; Some (Done (Next (<[x := v]> env)) w))
      | SStorageWrite x e =>
          bind (eval n e env w) (λ v w, slot ← slots !! x; Some (Done (Next env) (store w slot v)))
      | SMappingWrite x key e =>
          base ← slots !! x;
          bind (eval n key env w) (λ k w, bind (eval n e env w) (λ v w,
            Some (Done (Next env) (store w (mapping_slot base k) v))))
      | SIf c t e =>
          bind (eval n c env w) (λ v w,
            exec_block (exec n) (if v =? 0 then default [] e else t) env w)
      | SWhile c body =>
          bind (eval n c env w) (λ v w,
            if v =? 0 then Some (Done (Next env) w)
            else
              bind (exec_block (exec n) body env w) (λ f w,
                match f with Next env => exec n (SWhile c body) env w | Returned v => Some (Done (Returned v) w) end))
      | SFor x start end_ body =>
          bind (eval n start env w) (λ lo w, bind (eval n end_ env w) (λ hi w,
            bind (exec_for n x hi body (<[x := lo]> env) w) (λ f w,
              Some (Done (match f with Next env' => Next (restrict env env') | Returned v => Returned v end) w))))
      | SReturn None => Some (Done (Returned 0) w)
      | SReturn (Some e) => bind (eval n e env w) (λ v w, Some (Done (Returned v) w))
      | SEmit _ args =>
          bind (emit_list (λ e w, eval n e env w) args w) (λ _ w, Some (Done (Next env) w))
      | SMatch e arms => bind (eval n e env w) (λ v w, exec_arms (exec n) arms v env w)
      | SExpr e => bind (eval n e env w) (λ _ w, Some (Done (Next env) w))
      end
  end
with exec_for (n : nat) (x : string) (hi : Z) (body : list Stmt) (env : Env) (w : World) :
    option (outcome flow) :=
  match n with
  | O => None
  | S n =>
      i ← env !! x;
      if i <? hi then
        bind (exec_block (exec n) body env w) (λ f w,
          match f with
          | Next env =>
              i ← env !! x;
              exec_for n x hi body (<[x := field_add_goldilocks i 1]> env) w
          | Returned v => Some (Done (Returned v) w)
          end)
      else Some (Done (Next env) w)
  end.

(** The equations of the mutual definitions. *)
Lemma exec_S n s env w :
  exec (S n) s env w =
    match s with
    | SLet x e => bind (eval n e env w) (λ v w, Some (Done (Next (<[x := v]> env)) w))
    | SConstrain e =>
        bind (eval n e env w) (λ v w, Some (if v =? 0 then Abort w else Done (Next env) w))
    | SAssign x e =>
        bind (eval n e env w) (λ v w, _ ← env !! x; Some (Done (Next (<[x := v]> env)) w))
    | SStorageWrite x e =>
        bind (eval n e env w) (λ v w, slot ← slots !! x; Some (Done (Next env) (store w slot v)))
    | SMappingWrite x key e =>
        base ← slots !! x;
        bind (eval n key env w) (λ k w, bind (eval n e env w) (λ v w,
          Some (Done (Next env) (store w (mapping_slot base k) v))))
    | SIf c t e =>
        bind (eval n c env w) (λ v w,
          exec_block (exec n) (if v =? 0 then default [] e else t) env w)
    | SWhile c body =>
        bind (eval n c env w) (λ v w,
          if v =? 0 then Some (Done (Next env) w)
          else
            bind (exec_block (exec n) body env w) (λ f w,
              match f with Next env => exec n (SWhile c body) env w | Returned v => Some (Done (Returned v) w) end))
    | SFor x start end_ body =>
        bind (eval n start env w) (λ lo w, bind (eval n end_ env w) (λ hi w,
          bind (exec_for n x hi body (<[x := lo]> env) w) (λ f w,
            Some (Done (match f with Next env' => Next (restrict env env') | Returned v => Returned v end) w))))
    | SReturn None => Some (Done (Returned 0) w)
    | SReturn (Some e) => bind (eval n e env w) (λ v w, Some (Done (Returned v) w))
    | SEmit _ args =>
        bind (emit_list (λ e w, eval n e env w) args w) (λ _ w, Some (Done (Next env) w))
    | SMatch e arms => bind (eval n e env w) (λ v w, exec_arms (exec n) arms v env w)
    | SExpr e => bind (eval n e env w) (λ _ w, Some (Done (Next env) w))
    end.
Proof. done. Qed.

Lemma call_S n name vs w :
  call (S n) name vs w =
    f ← funs name;
    if bool_decide (length vs = length (params f)) then
      let env := list_to_map (zip (p_name <$> params f) vs) in
      bind (exec_list (exec n) (body f) env w) (λ fl w,
        Some (Done (match fl with Returned v => v | Next _ => 0 end) w))
    else None.
Proof. done. Qed.

Lemma exec_for_S n x hi body env w :
  exec_for (S n) x hi body env w =
    i ← env !! x;
    if i <? hi then
      bind (exec_block (exec n) body env w) (λ f w,
        match f with
        | Next env =>
            i ← env !! x;
            exec_for n x hi body (<[x := field_add_goldilocks i 1]> env) w
        | Returned v => Some (Done (Returned v) w)
        end)
    else Some (Done (Next env) w).
Proof. done. Qed.

End contract.

(** The last function of a name; the slots of the storage fields. *)
Definition lookup_fun (c : Contract) (name : string) : option Function :=
  last (filter (λ f, fn_name f = name) (functions c)).

Definition run_main (n : nat) (c : Contract) (ctx : Vm.Context) (w : World) : option (outcome Z) :=
  call (lookup_fun c) (Codegen.storage_map (storage c)) ctx n "main" [] w.

End Sem.

(** ** The scalar language *)
Module Scalar.

Fixpoint scalar_expr (e : Expr) : bool :=
  match e with
  | EInt v => 0 <=? v
  | EIdent _ | EStorageRead _ => true
  | EMappingRead _ key => scalar_expr key
  | EFieldAccess _ _ | EStructLiteral _ _ => false
  | EBinary e1 _ e2 => scalar_expr e1 && scalar_expr e2
  | ECall name args =>
      negb (bool_decide (name = "verify_merkle_proof")) &&
      (negb (bool_decide (name = "poseidon")) || (length args =? 2)%nat) &&
      (negb (bool_decide (name ∈ ["msg::sender"; "msg::nonce"; "block::number"])) || (length args =? 0)%nat) &&
      forallb scalar_expr args
  end.

Definition is_ident (e : Expr) : bool := match e with EIdent _ => true | _ => false end.

(** The variables a statement assigns, in nested blocks too. *)
Fixpoint assigned (s : Stmt) : list string :=
  match s with
  | SAssign x _ => [x]
  | SIf _ t e => (t ≫= assigned) ++ match e with Some e => e ≫= assigned | None => [] end
  | SWhile _ body | SFor _ _ _ body => body ≫= assigned
  | SMatch _ arms => arms ≫= λ '(_, body), body ≫= assigned
  | _ => []
  end.

Section block.
Context (sc : gset string → gset string → Stmt → bool).

(** The names a statement declares in its own block. *)
Definition declares (s : Stmt) : gset string :=
  match s with SLet x _ => {[ x ]} | _ => ∅ end.

Fixpoint scalar_list (outer cur : gset string) (ss : list Stmt) : bool :=
  match ss with
  | [] => true
  | s :: ss => sc outer cur s && scalar_list outer (cur ∪ declares s) ss
  end.
End block.

(** [outer] are the names of the enclosing blocks, [cur] those declared so
    far in this one. *)
Fixpoint scalar_stmt (outer cur : gset string) (s : Stmt) : bool :=
  match s with
  | SLet x e => scalar_expr e && negb (is_ident e) && bool_decide (x ∉ outer)
  | SConstrain e | SAssign _ e | SStorageWrite _ e | SExpr e => scalar_expr e
  | SMappingWrite _ key e => scalar_expr key && scalar_expr e
  | SIf c t e =>
      scalar_expr c && scalar_list scalar_stmt (outer ∪ cur) ∅ t &&
      match e with Some e => scalar_list scalar_stmt (outer ∪ cur) ∅ e | None => true end
  | SWhile c body => scalar_expr c && scalar_list scalar_stmt (outer ∪ cur) ∅ body
  | SFor x start end_ body =>
      scalar_expr start && scalar_expr end_ && bool_decide (x ∉ outer ∪ cur) &&
      match end_ with
      | EIdent y => bool_decide (y ∉ body ≫= assigned)
      | _ => true
      end &&
      scalar_list scalar_stmt ({[ x ]} ∪ outer ∪ cur) ∅ body
  | SReturn e => match e with Some e => scalar_expr e | None => true end
  | SEmit _ args => forallb scalar_expr args
  | SMatch e arms =>
      is_ident e &&
      forallb (λ '(p, body),
        match p with IntLit v => (0 <=? v) && (v <=? Codegen.I32_MAX) | Wildcard => true end &&
        scalar_list scalar_stmt (outer ∪ cur) ∅ body) arms
  end.

Definition param_names (f : Function) : list string := p_name <$> params f.

Definition scalar_fun (f : Function) : bool :=
  bool_decide (NoDup (param_names f)) &&
  scalar_list scalar_stmt ∅ (list_to_set (param_names f)) (body f).

(** A contract of the proved part: no structs, scalar functions, and a [main]
    that takes nothing. *)
Definition scalar_contract (c : Contract) : bool :=
  (length (structs c) =? 0)%nat && forallb scalar_fun (functions c) &&
  match Sem.lookup_fun c "main" with Some f => bool_decide (params f = []) | None => true end.

End Scalar.
