(* ===== verification/CompilerCode.v ===== *)
(** * Structured code of a scalar contract

    The same translation as [Codegen], written as a function of the syntax:
    code is a list, a jump is relative to its own place, a call names its
    target.  There is no state to patch and an error is [None].  The theorems
    relate the two: on the scalar language the generator appends exactly this
    code, and it fails exactly when this function does. *)
From stdpp Require Import base tactics numbers list gmap strings.
From Stdlib Require Import ZArith Lia.
From S2P Require Import Prelude Isa Vm Compiler CompilerSem.
Import Ast Codegen Scalar.
Open Scope Z_scope.

Module Code.

Inductive instr :=
  | Op (op : Isa.Opcode) (rd rs1 rs2 imm : Z)
  | CallTo (name : string).

(** Code, result register, next free register. *)
Definition coded : Type := list instr * Z * Z.

Definition alloc (n : Z) : option (Z * Z) := if 31 <=? n then None else Some (n, n + 1).

Definition chunk_code (rg sr tr : Z) (st : list instr * bool) (chunk : Z) : list instr * bool :=
  let '(c, started) := st in
  if (0 <? chunk) || started then
    if started then
      (c ++ [Op Isa.Mul rg rg sr 0] ++
       (if 0 <? chunk then [Op Isa.Load tr 0 0 chunk; Op Isa.Add rg rg tr 0] else []), true)
    else (c ++ [Op Isa.Load rg 0 0 chunk], true)
  else (c, started).

Definition cint (v n : Z) : option coded :=
  if Field.GOLDILOCKS_P <=? v then None
  else if v <=? I32_MAX then
    '(rg, n) ← alloc n; Some ([Op Isa.Load rg 0 0 v], rg, n)
  else
    '(rg, n) ← alloc n; '(sr, n) ← alloc n; '(tr, n) ← alloc n;
    Some (Op Isa.Load sr 0 0 1073741824 :: (foldl (chunk_code rg sr tr) ([], false) (chunks_of v)).1, rg, n).

Definition pick_reg (l n r n1 n2 : Z) : option Z :=
  if n <=? l then Some l else if n1 <=? r then Some r else fst <$> alloc n2.

Definition pushes (rs : list Z) : list instr := (λ r, Op Isa.Push 0 r 0 0) <$> rs.
Definition pops (rs : list Z) : list instr := (λ r, Op Isa.Pop r 0 0 0) <$> rs.

Section args.
Context (ce : Expr → Z → option coded).

Fixpoint cargs (es : list Expr) (n : Z) : option (list instr * list Z * Z) :=
  match es with
  | [] => Some ([], [], n)
  | e :: es =>
      '(c, r, n) ← ce e n; '(cs, rs, n) ← cargs es n; Some (c ++ cs, r :: rs, n)
  end.

Fixpoint cemit (es : list Expr) (n : Z) : option (list instr * Z) :=
  match es with
  | [] => Some ([], n)
  | e :: es =>
      '(c, r, n) ← ce e n; '(cs, n) ← cemit es n; Some (c ++ Op Isa.Log 0 r 0 0 :: cs, n)
  end.
End args.

Definition csyscall (k n : Z) : option coded :=
  '(r, n) ← alloc n; Some ([Op Isa.Syscall r 0 0 k], r, n).

Fixpoint cexpr (scope : Scope) (slots : gmap string Z) (e : Expr) (n : Z) : option coded :=
  match e with
  | EInt v => cint v n
  | EIdent x => vi ← scope !! x; Some ([], reg vi, n)
  | EStorageRead x =>
      '(r, n) ← alloc n; slot ← slots !! x; Some ([Op Isa.SRead r 0 0 slot], r, n)
  | EMappingRead x key =>
      base ← slots !! x;
      '(c, k, n) ← cexpr scope slots key n;
      '(b, n) ← alloc n; '(t, n) ← alloc n; '(r, n) ← alloc n;
      Some (c ++ [Op Isa.Load b 0 0 base; Op Isa.Poseidon t b k 0; Op Isa.SRead r 0 t (-1)], r, n)
  | EBinary e1 op e2 =>
      '(c1, l, n1) ← cexpr scope slots e1 n;
      '(c2, r, n2) ← cexpr scope slots e2 n1;
      res ← pick_reg l n r n1 n2;
      Some (c1 ++ c2 ++ [Op (op_of op) res l r 0], res, Z.max (res + 1) n)
  | ECall name args =>
      if decide (name = "poseidon") then
        match args with
        | [e1; e2] =>
            '(c1, l, n1) ← cexpr scope slots e1 n;
            '(c2, r, n2) ← cexpr scope slots e2 n1;
            res ← pick_reg l n r n1 n2;
            Some (c1 ++ c2 ++ [Op Isa.Poseidon res l r 0], res, Z.max (res + 1) n)
        | _ => None
        end
      else if decide (name = "msg::sender") then csyscall 1 n
      else if decide (name = "msg::nonce") then csyscall 3 n
      else if decide (name = "block::number") then csyscall 2 n
      else
        '(c, rs, _) ← cargs (λ e n, cexpr scope slots e n) args n;
        '(res, n') ← alloc n;
        Some (pushes (live_regs n) ++ c ++ pushes rs ++ [CallTo name; Op Isa.Pop res 0 0 0] ++
              pops (reverse (live_regs n)), res, n')
  | EFieldAccess _ _ | EStructLiteral _ _ => None
  end.

(** ** Statements *)
Definition jmp (d : nat) : instr := Op Isa.Jmp 0 0 0 (Z.of_nat d).
Definition jnz (r : Z) (d : nat) : instr := Op Isa.Jnz 0 r 0 (Z.of_nat d).
Definition jback (d : nat) : instr := Op Isa.Jmp 0 0 0 (- Z.of_nat d).

Section block.
Context (cs : Stmt → Scope → Z → option (list instr * Scope * Z)).

Fixpoint cblock (ss : list Stmt) (scope : Scope) (n : Z) : option (list instr * Scope * Z) :=
  match ss with
  | [] => Some ([], scope, n)
  | s :: ss =>
      '(c1, scope, n) ← cs s scope n; '(c2, scope, n) ← cblock ss scope n; Some (c1 ++ c2, scope, n)
  end.

(** An arm's failed test goes to the next arm, its end to the end. *)
Fixpoint carms (arms : list (MatchPattern * list Stmt)) (x n : Z) (scope : Scope) :
    option (list instr * Scope) :=
  match arms with
  | [] => Some ([], scope)
  | (p, body) :: arms =>
      match p with
      | IntLit v =>
          '(pr, n1) ← alloc n; '(dr, _) ← alloc n1;
          '(c, scope, _) ← cblock body scope n;
          '(rest, scope) ← carms arms x n scope;
          Some ([Op Isa.Load pr 0 0 (Isa.as_i32 v); Op Isa.Sub dr x pr 0; jnz dr (length c + 2)] ++
                c ++ jmp (S (length rest)) :: rest, scope)
      | Wildcard =>
          '(c, scope, _) ← cblock body scope n;
          '(rest, scope) ← carms arms x n scope;
          Some (c ++ jmp (S (length rest)) :: rest, scope)
      end
  end.
End block.

Fixpoint cstmt (slots : gmap string Z) (s : Stmt) (scope : Scope) (n : Z) :
    option (list instr * Scope * Z) :=
  match s with
  | SLet x e =>
      '(c, r, _) ← cexpr scope slots e n;
      Some (c, <[x := mkVarInfo r None]> scope, if n <=? r then r + 1 else n)
  | SConstrain e =>
      '(c, r, _) ← cexpr scope slots e n; Some (c ++ [Op Isa.Assert 0 r 0 0], scope, n)
  | SAssign x e =>
      '(c, r, _) ← cexpr scope slots e n; vi ← scope !! x;
      Some (c ++ [Op Isa.Add (reg vi) r 0 0], scope, n)
  | SStorageWrite x e =>
      '(c, r, _) ← cexpr scope slots e n; slot ← slots !! x;
      Some (c ++ [Op Isa.SWrite 0 r 0 slot], scope, n)
  | SMappingWrite x key e =>
      base ← slots !! x;
      '(c1, k, n1) ← cexpr scope slots key n;
      '(c2, v, n2) ← cexpr scope slots e n1;
      '(b, n3) ← alloc n2; '(t, _) ← alloc n3;
      Some (c1 ++ c2 ++ [Op Isa.Load b 0 0 base; Op Isa.Poseidon t b k 0; Op Isa.SWrite 0 v t (-1)],
            scope, n)
  | SIf cond t e =>
      '(c, r, _) ← cexpr scope slots cond n;
      '(ce, scope, n) ← match e with
                        | Some e => cblock (cstmt slots) e scope n
                        | None => Some ([], scope, n)
                        end;
      '(ct, scope, n) ← cblock (cstmt slots) t scope n;
      Some (c ++ jnz r (length ce + 2) :: ce ++ jmp (S (length ct)) :: ct, scope, n)
  | SWhile cond body =>
      '(c, r, _) ← cexpr scope slots cond n;
      '(cb, scope, n) ← cblock (cstmt slots) body scope n;
      Some (c ++ [jnz r 2; jmp (length cb + 2)] ++ cb ++ [jback (length c + 2 + length cb)], scope, n)
  | SFor x start end_ body =>
      '(c1, a, n1) ← cexpr scope slots start n;
      '(c2, b, n2) ← cexpr scope slots end_ n1;
      '(i, n3) ← alloc n2;
      '(k, _) ← alloc n3;
      '(cb, _, n4) ← cblock (cstmt slots) body (<[x := mkVarInfo i None]> scope) n3;
      '(o, _) ← alloc n4;
      Some (c1 ++ c2 ++ [Op Isa.Add i a 0 0; Op Isa.Lt k i b 0; jnz k 2; jmp (length cb + 4)] ++ cb ++
            [Op Isa.Load o 0 0 1; Op Isa.Add i i o 0; jback (length cb + 5)], scope, n)
  | SReturn e =>
      '(t, n1) ← alloc n;
      '(c, r) ← match e with
                | Some e => '(c, r, _) ← cexpr scope slots e n1; Some (c, r)
                | None => '(z, _) ← alloc n1; Some ([Op Isa.Load z 0 0 0], z)
                end;
      Some (Op Isa.Pop t 0 0 0 :: c ++ [Op Isa.Push 0 r 0 0; Op Isa.Push 0 t 0 0; Op Isa.Ret 0 0 0 0],
            scope, n)
  | SEmit _ args =>
      '(c, _) ← cemit (λ e n, cexpr scope slots e n) args n; Some (c, scope, n)
  | SMatch e arms =>
      '(c, x, _) ← cexpr scope slots e n;
      '(ca, scope) ← carms (cstmt slots) arms x n scope;
      Some (c ++ ca, scope, n)
  | SExpr e => '(c, _, _) ← cexpr scope slots e n; Some (c, scope, n)
  end.

(** ** Functions and contracts *)
Fixpoint calloc (k : nat) (n : Z) : option (list Z * Z) :=
  match k with
  | O => Some ([], n)
  | S k => '(r, n) ← alloc n; '(rs, n) ← calloc k n; Some (r :: rs, n)
  end.

Definition cfun (slots : gmap string Z) (f : Function) : option (list instr) :=
  '(rs, n) ← calloc (length (params f)) 2;
  let scope := list_to_map (reverse (zip (p_name <$> params f) ((λ r, mkVarInfo r None) <$> rs))) in
  '(c, _, n) ← cblock (cstmt slots) (body f) scope n;
  '(t, n) ← alloc n; '(z, _) ← alloc n;
  Some (Op Isa.Pop 1 0 0 0 :: pops (reverse rs) ++ Op Isa.Push 0 1 0 0 :: c ++
        [Op Isa.Pop t 0 0 0; Op Isa.Load z 0 0 0; Op Isa.Push 0 z 0 0; Op Isa.Push 0 t 0 0;
         Op Isa.Ret 0 0 0 0]).

(** The functions from position [pos] on, and where each name ends up. *)
Fixpoint cfuns (slots : gmap string Z) (fs : list Function) (pos : nat) (offs : gmap string nat) :
    option (list instr * gmap string nat) :=
  match fs with
  | [] => Some ([], offs)
  | f :: fs =>
      c ← cfun slots f;
      '(cs, offs) ← cfuns slots fs (pos + length c) (<[fn_name f := pos]> offs);
      Some (c ++ cs, offs)
  end.

(** The heap pointer, the call of [main], the end. *)
Definition prologue : list instr := [Op Isa.Load 31 0 0 HEAP_BASE; CallTo "main"; Op Isa.Halt 0 0 0 0].

Definition ccontract (c : Contract) : option (list instr * gmap string nat) :=
  '(cs, offs) ← cfuns (storage_map (storage c)) (functions c) (length prologue) ∅;
  Some (prologue ++ cs, offs).

Definition inst (op : Isa.Opcode) (rd rs1 rs2 imm : Z) : Isa.Instruction :=
  {| Isa.opcode := op; Isa.rd := rd; Isa.rs1 := rs1; Isa.rs2 := rs2; Isa.imm := imm |}.

(** The instruction at [pos] once the offsets are known. *)
Definition link (offs : gmap string nat) (pos : nat) (i : instr) : Isa.Instruction :=
  match i with
  | Op op rd rs1 rs2 imm => inst op rd rs1 rs2 imm
  | CallTo f => inst Isa.Call 0 0 0 (Z.of_nat (default 0%nat (offs !! f)) - Z.of_nat pos)
  end.

End Code.

Module CodeLemmas.
Import Code.
#[local] Arguments chunks_of : simpl never.

(** ** Induction on syntax *)
Section induction.
Context (P : Expr → Prop).
Hypothesis (HInt : ∀ v, P (EInt v)) (HIdent : ∀ x, P (EIdent x)) (HRead : ∀ x, P (EStorageRead x)).
Hypothesis (HMap : ∀ x k, P k → P (EMappingRead x k)) (HField : ∀ b f, P b → P (EFieldAccess b f)).
Hypothesis (HStruct : ∀ x fs, Forall (λ f, P f.2) fs → P (EStructLiteral x fs)).
Hypothesis (HBin : ∀ a op b, P a → P b → P (EBinary a op b)).
Hypothesis (HCall : ∀ x args, Forall P args → P (ECall x args)).

Fixpoint expr_induction (e : Expr) : P e :=
  match e with
  | EInt v => HInt v
  | EIdent x => HIdent x
  | EStorageRead x => HRead x
  | EMappingRead x k => HMap x k (expr_induction k)
  | EFieldAccess b f => HField b f (expr_induction b)
  | EStructLiteral x fs =>
      HStruct x fs ((fix go l : Forall (λ f, P f.2) l :=
        match l with
        | [] => Forall_nil_2 _
        | (s, e) :: l => Forall_cons_2 (λ f : string * Expr, P f.2) (s, e) l (expr_induction e) (go l)
        end) fs)
  | EBinary a op b => HBin a op b (expr_induction a) (expr_induction b)
  | ECall x args =>
      HCall x args ((fix go l : Forall P l :=
        match l with
        | [] => Forall_nil_2 _
        | e :: l => Forall_cons_2 _ e l (expr_induction e) (go l)
        end) args)
  end.
End induction.

Section stmt_induction.
Context (P : Stmt → Prop).
Hypothesis (HLet : ∀ x e, P (SLet x e)) (HConstrain : ∀ e, P (SConstrain e)).
Hypothesis (HAssign : ∀ x e, P (SAssign x e)) (HWrite : ∀ x e, P (SStorageWrite x e)).
Hypothesis (HMapWrite : ∀ x k e, P (SMappingWrite x k e)).
Hypothesis (HIf : ∀ c t e, Forall P t → Forall P (default [] e) → P (SIf c t e)).
Hypothesis (HWhile : ∀ c b, Forall P b → P (SWhile c b)).
Hypothesis (HFor : ∀ x a b body, Forall P body → P (SFor x a b body)).
Hypothesis (HReturn : ∀ e, P (SReturn e)) (HEmit : ∀ x args, P (SEmit x args)).
Hypothesis (HMatch : ∀ e arms, Forall (λ a, Forall P a.2) arms → P (SMatch e arms)).
Hypothesis (HExpr : ∀ e, P (SExpr e)).

Fixpoint stmt_induction (s : Stmt) : P s :=
  let list := fix go l : Forall P l :=
    match l with
    | [] => Forall_nil_2 _
    | s :: l => Forall_cons_2 _ s l (stmt_induction s) (go l)
    end in
  match s with
  | SLet x e => HLet x e
  | SConstrain e => HConstrain e
  | SAssign x e => HAssign x e
  | SStorageWrite x e => HWrite x e
  | SMappingWrite x k e => HMapWrite x k e
  | SIf c t e => HIf c t e (list t) (match e with Some e => list e | None => Forall_nil_2 _ end)
  | SWhile c b => HWhile c b (list b)
  | SFor x a b body => HFor x a b body (list body)
  | SReturn e => HReturn e
  | SEmit x args => HEmit x args
  | SMatch e arms =>
      HMatch e arms ((fix go l : Forall (λ a, Forall P a.2) l :=
        match l with
        | [] => Forall_nil_2 _
        | (p, b) :: l => Forall_cons_2 (λ a : MatchPattern * _, Forall P a.2) (p, b) l (list b) (go l)
        end) arms)
  | SExpr e => HExpr e
  end.
End stmt_induction.

(** ** Registers stay below the heap pointer *)
Definition scope_ok (scope : Scope) : Prop := ∀ x vi, scope !! x = Some vi → 1 ≤ reg vi ≤ 30.

Lemma scope_ok_insert scope x r t : scope_ok scope → 1 ≤ r ≤ 30 → scope_ok (<[x := mkVarInfo r t]> scope).
Proof. intros Hok Hr y vi [[_ <-]|[_ Hy]]%lookup_insert_Some; [done|by apply (Hok y)]. Qed.

Lemma alloc_bounds n r n' : alloc n = Some (r, n') → r = n ∧ n' = n + 1 ∧ n ≤ 30.
Proof. unfold alloc. destruct (Z.leb_spec 31 n); [done|]. intros [= <- <-]. lia. Qed.

Lemma cint_bounds v n c r n' : 1 ≤ n → cint v n = Some (c, r, n') → r = n ∧ n < n' ≤ 31.
Proof.
  intros Hn. unfold cint. destruct (_ <=? v); [done|]. destruct (v <=? _).
  - destruct (alloc n) as [[a n1]|] eqn:E1; [|done]. cbn [mbind option_bind]. intros [= <- <- <-].
    apply alloc_bounds in E1. lia.
  - destruct (alloc n) as [[a n1]|] eqn:E1; [|done]. cbn [mbind option_bind].
    destruct (alloc n1) as [[b n2]|] eqn:E2; [|done]. cbn [mbind option_bind].
    destruct (alloc n2) as [[d n3]|] eqn:E3; [|done]. cbn [mbind option_bind].
    generalize (foldl (chunk_code a b d) ([], false) (chunks_of v)) as code. intros code [= <- <- <-].
    apply alloc_bounds in E1, E2, E3. lia.
Qed.

Lemma pick_bounds l n r n1 n2 res : 1 ≤ n → 1 ≤ l ≤ 30 → 1 ≤ r ≤ 30 → n ≤ n1 ≤ n2 →
  pick_reg l n r n1 n2 = Some res → n ≤ res ≤ 30.
Proof.
  intros Hn Hl Hr Hn1. unfold pick_reg. destruct (Z.leb_spec n l); [intros [= <-]; lia|].
  destruct (Z.leb_spec n1 r); [intros [= <-]; lia|].
  destruct (alloc n2) as [[x m]|] eqn:E; [|done]. intros [= <-]. apply alloc_bounds in E. lia.
Qed.

Lemma cexpr_bounds scope slots e : scope_ok scope → ∀ n c r n', 1 ≤ n ≤ 31 →
  cexpr scope slots e n = Some (c, r, n') →
  1 ≤ r ≤ 30 ∧ n ≤ n' ≤ 31 ∧ (is_ident e = false → n ≤ r < n').
Proof.
  intros Hsc. induction e as [v|x|x|x k IHk|b f IHb|x fs|a op b IHa IHb|x args IH] using expr_induction;
    intros n c r n' Hn; cbn [cexpr is_ident]; try done.
  - intros H%cint_bounds; lia.
  - destruct (scope !! x) as [vi|] eqn:Hx; [|done]. intros [= <- <- <-]. pose proof (Hsc x vi Hx). lia.
  - destruct (alloc n) as [[r0 n0]|] eqn:E; [|done]. cbn [mbind option_bind].
    destruct (slots !! x); [|done]. intros [= <- <- <-]. apply alloc_bounds in E. lia.
  - destruct (slots !! x) as [base|]; [|done]. cbn [mbind option_bind].
    destruct (cexpr scope slots k n) as [[[ck kr] n0]|] eqn:Ek; [|done]. cbn [mbind option_bind].
    apply IHk in Ek as (_&Hn0&_); [|done].
    destruct (alloc n0) as [[a n1]|] eqn:E1; [|done]. cbn [mbind option_bind].
    destruct (alloc n1) as [[b n2]|] eqn:E2; [|done]. cbn [mbind option_bind].
    destruct (alloc n2) as [[d n3]|] eqn:E3; [|done]. cbn [mbind option_bind]. intros [= <- <- <-].
    apply alloc_bounds in E1, E2, E3. lia.
  - destruct (cexpr scope slots a n) as [[[c1 l] n1]|] eqn:E1; [|done]. cbn [mbind option_bind].
    destruct (cexpr scope slots b n1) as [[[c2 r0] n2]|] eqn:E2; [|done]. cbn [mbind option_bind].
    apply IHa in E1 as (Hl&Hn1&_); [|lia]. apply IHb in E2 as (Hr&Hn2&_); [|lia].
    destruct (pick_reg l n r0 n1 n2) as [res|] eqn:Ep; [|done]. intros [= <- <- <-].
    apply pick_bounds in Ep; lia.
  - assert (∀ k, csyscall k n = Some (c, r, n') → 1 ≤ r ≤ 30 ∧ n ≤ n' ≤ 31 ∧ (false = false → n ≤ r < n')) as Hsys.
    { intros k. unfold csyscall. destruct (alloc n) as [[r0 n0]|] eqn:E; [|done]. intros [= <- <- <-].
      apply alloc_bounds in E. lia. }
    destruct (decide (x = "poseidon")).
    { destruct args as [|a [|b [|]]]; try done. apply Forall_cons in IH as [IHa IH]. apply Forall_cons in IH as [IHb _].
      destruct (cexpr scope slots a n) as [[[c1 l] n1]|] eqn:E1; [|done]. cbn [mbind option_bind].
      destruct (cexpr scope slots b n1) as [[[c2 r0] n2]|] eqn:E2; [|done]. cbn [mbind option_bind].
      apply IHa in E1 as (Hl&Hn1&_); [|lia]. apply IHb in E2 as (Hr&Hn2&_); [|lia].
      destruct (pick_reg l n r0 n1 n2) as [res|] eqn:Ep; [|done]. intros [= <- <- <-].
      apply pick_bounds in Ep; lia. }
    do 3 (case_decide; [apply Hsys|]).
    destruct (cargs _ args n) as [[[ca rs] na]|]; [|done]. cbn [mbind option_bind].
    destruct (alloc n) as [[r0 m0]|] eqn:E; [|done]. intros [= <- <- <-]. apply alloc_bounds in E. lia.
Qed.

(** A statement: registers of the new scope are below the heap pointer, and
    the counter does not go back. *)
Definition bounded (scope : Scope) (n : Z) (m : option (list instr * Scope * Z)) : Prop :=
  ∀ c scope' n', m = Some (c, scope', n') → scope_ok scope' ∧ n ≤ n' ≤ 31.

Lemma cblock_bounds (cs : Stmt → Scope → Z → option (list instr * Scope * Z)) ss :
  Forall (λ s, ∀ scope n, scope_ok scope → 1 ≤ n ≤ 31 → bounded scope n (cs s scope n)) ss →
  ∀ scope n, scope_ok scope → 1 ≤ n ≤ 31 → bounded scope n (cblock cs ss scope n).
Proof.
  induction 1 as [|s ss Hs _ IH]; intros scope n Hok Hn c scope' n'; cbn [cblock].
  - intros [= _ <- <-]. split; [done|lia].
  - destruct (cs s scope n) as [[[c1 sc1] n1]|] eqn:E1; [|done]. cbn [mbind option_bind].
    apply Hs in E1 as [Hok1 Hn1]; [|done..].
    destruct (cblock cs ss sc1 n1) as [[[c2 sc2] n2]|] eqn:E2; [|done]. cbn [mbind option_bind].
    apply IH in E2 as [Hok2 Hn2]; [|done|lia]. intros [= _ <- <-]. split; [done|lia].
Qed.

Lemma carms_bounds (cs : Stmt → Scope → Z → option (list instr * Scope * Z)) arms x n :
  Forall (λ a, Forall (λ s, ∀ scope n, scope_ok scope → 1 ≤ n ≤ 31 → bounded scope n (cs s scope n)) a.2) arms →
  1 ≤ n ≤ 31 → ∀ scope c scope', scope_ok scope → carms cs arms x n scope = Some (c, scope') → scope_ok scope'.
Proof.
  intros Hall Hn. induction Hall as [|[p b] arms Hb _ IH]; intros scope c scope' Hok; cbn [carms].
  - by intros [= _ <-].
  - assert (∀ k, ('(c, scope, _) ← cblock cs b scope n; '(rest, scope) ← carms cs arms x n scope;
      Some (k c rest : list instr, scope)) = Some (c, scope') → scope_ok scope') as Hk.
    { intros k. destruct (cblock cs b scope n) as [[[c1 sc1] n1]|] eqn:E1; [|done]. cbn [mbind option_bind].
      apply cblock_bounds in E1 as [Hok1 _]; [|done..].
      destruct (carms cs arms x n sc1) as [[c2 sc2]|] eqn:E2; [|done]. cbn [mbind option_bind].
      intros [= _ <-]. by apply (IH sc1 c2). }
    destruct p; [|apply Hk]. destruct (alloc n) as [[pr n1]|]; [|done]. cbn [mbind option_bind].
    destruct (alloc n1) as [[dr n2]|]; [|done]. cbn [mbind option_bind]. apply Hk.
Qed.

Lemma cstmt_bounds slots s : ∀ scope n, scope_ok scope → 1 ≤ n ≤ 31 → bounded scope n (cstmt slots s scope n).
Proof.
  induction s as [x e|e|x e|x e|x k e|cnd t e IHt IHe|cnd b IHb|x a z b IHb|e|x args|e arms IH|e]
    using stmt_induction; intros scope n Hok Hn c scope' n'; cbn [cstmt].
  - destruct (cexpr scope slots e n) as [[[c1 r] m]|] eqn:E; [|done]. cbn [mbind option_bind].
    apply cexpr_bounds in E as (Hr&_&_); [|done..]. intros [= _ <- <-].
    split; [by apply scope_ok_insert|]. destruct (Z.leb_spec n r); lia.
  - destruct (cexpr scope slots e n) as [[[c1 r] m]|]; [|done]. intros [= _ <- <-]. split; [done|lia].
  - destruct (cexpr scope slots e n) as [[[c1 r] m]|]; [|done]. cbn [mbind option_bind].
    destruct (scope !! x); [|done]. intros [= _ <- <-]. split; [done|lia].
  - destruct (cexpr scope slots e n) as [[[c1 r] m]|]; [|done]. cbn [mbind option_bind].
    destruct (slots !! x); [|done]. intros [= _ <- <-]. split; [done|lia].
  - destruct (slots !! x); [|done]. cbn [mbind option_bind].
    destruct (cexpr scope slots k n) as [[[c1 kr] m]|]; [|done]. cbn [mbind option_bind].
    destruct (cexpr scope slots e m) as [[[c2 r] m2]|]; [|done]. cbn [mbind option_bind].
    destruct (alloc m2) as [[br m3]|]; [|done]. cbn [mbind option_bind].
    destruct (alloc m3) as [[tr m4]|]; [|done]. intros [= _ <- <-]. split; [done|lia].
  - destruct (cexpr scope slots cnd n) as [[[c1 r] m]|]; [|done]. cbn [mbind option_bind].
    destruct (match e with Some e => cblock (cstmt slots) e scope n | None => Some ([], scope, n) end)
      as [[[ce sc1] n1]|] eqn:Ee; [|done]. cbn [mbind option_bind].
    assert (scope_ok sc1 ∧ n ≤ n1 ≤ 31) as [Hok1 Hn1].
    { destruct e as [e|]; [by apply (cblock_bounds _ _ IHe) in Ee|]. injection Ee as _ <- <-. split; [done|lia]. }
    destruct (cblock (cstmt slots) t sc1 n1) as [[[ct sc2] n2]|] eqn:Et; [|done].
    apply (cblock_bounds _ _ IHt) in Et as [Hok2 Hn2]; [|done|lia].
    intros [= _ <- <-]. split; [done|lia].
  - destruct (cexpr scope slots cnd n) as [[[c1 r] m]|]; [|done]. cbn [mbind option_bind].
    destruct (cblock (cstmt slots) b scope n) as [[[ct sc2] n2]|] eqn:Et; [|done].
    apply (cblock_bounds _ _ IHb) in Et as [Hok2 Hn2]; [|done|lia]. intros [= _ <- <-]. split; [done|lia].
  - destruct (cexpr scope slots a n) as [[[c1 ar] m]|]; [|done]. cbn [mbind option_bind].
    destruct (cexpr scope slots z m) as [[[c2 br] m2]|]; [|done]. cbn [mbind option_bind].
    destruct (alloc m2) as [[ir m3]|]; [|done]. cbn [mbind option_bind].
    destruct (alloc m3) as [[kr m4]|]; [|done]. cbn [mbind option_bind].
    destruct (cblock _ b _ m3) as [[[cb sc] m5]|]; [|done]. cbn [mbind option_bind].
    destruct (alloc m5) as [[or m6]|]; [|done]. intros [= _ <- <-]. split; [done|lia].
  - destruct (alloc n) as [[tr m]|]; [|done]. cbn [mbind option_bind].
    destruct (match e with Some e => _ | None => _ end) as [[c1 r]|]; [|done].
    intros [= _ <- <-]. split; [done|lia].
  - destruct (cemit _ args n) as [[c1 m]|]; [|done]. intros [= _ <- <-]. split; [done|lia].
  - destruct (cexpr scope slots e n) as [[[c1 r] m]|]; [|done]. cbn [mbind option_bind].
    destruct (carms (cstmt slots) arms r n scope) as [[ca sc]|] eqn:Ea; [|done]. cbn [mbind option_bind].
    apply carms_bounds in Ea; [|done..]. intros [= _ <- <-]. split; [done|lia].
  - destruct (cexpr scope slots e n) as [[[c1 r] m]|]; [|done]. intros [= _ <- <-]. split; [done|lia].
Qed.

Lemma block_bounds slots ss scope n : scope_ok scope → 1 ≤ n ≤ 31 →
  bounded scope n (cblock (cstmt slots) ss scope n).
Proof. apply cblock_bounds, Forall_forall. intros s _. apply cstmt_bounds. Qed.

End CodeLemmas.
