(* ===== verification/CompilerGen.v ===== *)
(** * The generator emits the structured code

    [generate_expr], [generate_stmt] and [generate_function] append the code
    of [Code], record its calls, and leave the register counter where [Code]
    says; they end with an error exactly when [Code] has none. *)
From stdpp Require Import base tactics numbers list gmap strings.
From Stdlib Require Import ZArith Lia.
From S2P Require Import Prelude Isa Vm Compiler CompilerSem CompilerCode.
Import Ast Codegen Scalar Code CodeLemmas.
Open Scope Z_scope.

Module GenLemmas.
#[local] Arguments Isa.encode : simpl never.
#[local] Arguments chunks_of : simpl never.
#[local] Arguments emit : simpl never.
#[local] Arguments alloc_reg : simpl never.
#[local] Arguments alloc : simpl never.
#[local] Arguments raise : simpl never.
#[local] Arguments has_error : simpl never.

(** ** Appending code *)
(** The word of an instruction before calls are linked. *)
Definition enc (i : instr) : Z :=
  match i with
  | Op op rd rs1 rs2 imm => Isa.encode (inst op rd rs1 rs2 imm)
  | CallTo _ => Isa.encode (inst Isa.Call 0 0 0 0)
  end.

Fixpoint calls_of (pos : nat) (c : list instr) : list (nat * string) :=
  match c with
  | [] => []
  | CallTo f :: c => (pos, f) :: calls_of (S pos) c
  | _ :: c => calls_of (S pos) c
  end.

Lemma calls_of_app pos c1 c2 : calls_of pos (c1 ++ c2) = calls_of pos c1 ++ calls_of (pos + length c1) c2.
Proof.
  revert pos. induction c1 as [|i c1 IH]; intros pos; simpl; [by rewrite Nat.add_0_r|].
  destruct i; simpl; rewrite IH; by replace (S pos + length c1)%nat with (pos + S (length c1))%nat by lia.
Qed.

(** The generator after appending [c], with next free register [n]. *)
Definition ext (g : Codegen) (c : list instr) (n : Z) : Codegen :=
  mkCodegen (instructions g ++ (enc <$> c)) n (profile g) (error g)
    (unpatched_calls g ++ calls_of (here g) c) (struct_layouts g) (struct_field_types g)
    (function_returns g) (panicked g).

#[local] Arguments ext : simpl never.

Lemma ext_next g c n : next_reg (ext g c n) = n. Proof. done. Qed.
Lemma ext_here g c n : here (ext g c n) = (here g + length c)%nat.
Proof. unfold here. simpl. by rewrite length_app, length_fmap. Qed.
Lemma ext_error g c n : has_error (ext g c n) = has_error g. Proof. done. Qed.
Lemma ext_layouts g c n : struct_layouts (ext g c n) = struct_layouts g. Proof. done. Qed.
Lemma ext_set g c n m : set_next_reg (ext g c n) m = ext g c m. Proof. done. Qed.

Lemma ext_nil g : ext g [] (next_reg g) = g.
Proof. destruct g. unfold ext. simpl. by rewrite !app_nil_r. Qed.

Lemma set_ext g m : set_next_reg g m = ext g [] m.
Proof. destruct g. unfold ext, set_next_reg. simpl. by rewrite !app_nil_r. Qed.

Lemma ext_ext g c1 n1 c2 n2 : ext (ext g c1 n1) c2 n2 = ext g (c1 ++ c2) n2.
Proof.
  unfold ext. simpl. rewrite fmap_app, !app_assoc, calls_of_app. f_equal.
  rewrite <- app_assoc. do 2 f_equal. unfold here. simpl. by rewrite length_app, length_fmap.
Qed.

Lemma emit_ext g op rd rs1 rs2 imm : emit g op rd rs1 rs2 imm = ext g [Op op rd rs1 rs2 imm] (next_reg g).
Proof. unfold emit, ext, set_instructions. simpl. by rewrite app_nil_r. Qed.

Lemma call_ext g name :
  set_calls (emit g Isa.Call 0 0 0 0) (unpatched_calls (emit g Isa.Call 0 0 0 0) ++ [(here g, name)]) =
  ext g [CallTo name] (next_reg g).
Proof. done. Qed.

Lemma alloc_spec g :
  alloc_reg g = match alloc (next_reg g) with
                | Some (r, n) => (r, ext g [] n)
                | None => (30, raise g RegisterExhausted)
                end.
Proof.
  unfold alloc_reg, alloc. destruct (31 <=? next_reg g); [done|]. by rewrite set_ext.
Qed.

Lemma push1_ext g r : push g r = ext g [Op Isa.Push 0 r 0 0] (next_reg g).
Proof. apply emit_ext. Qed.

Lemma push_ext rs : ∀ g, foldl push g rs = ext g (pushes rs) (next_reg g).
Proof.
  induction rs as [|r rs IH]; intros g; simpl; [by rewrite ext_nil|].
  rewrite IH. unfold push. rewrite emit_ext. rewrite ext_ext. done.
Qed.

Lemma pop_ext rs : ∀ g, foldl pop g rs = ext g (pops rs) (next_reg g).
Proof.
  induction rs as [|r rs IH]; intros g; simpl; [by rewrite ext_nil|].
  rewrite IH. unfold pop. rewrite emit_ext. rewrite ext_ext. done.
Qed.

(** ** Errors stay *)
Lemma he_raise g e : has_error (raise g e) = true.
Proof. unfold raise, has_error. destruct (error g) eqn:He; apply bool_decide_eq_true; [by rewrite He|done]. Qed.

Lemma he_emit g op rd rs1 rs2 imm : has_error (emit g op rd rs1 rs2 imm) = has_error g.
Proof. done. Qed.

Lemma he_alloc g : has_error g = true → has_error (alloc_reg g).2 = true.
Proof.
  intros Hg. rewrite alloc_spec. destruct (alloc (next_reg g)) as [[r n]|]; [done|apply he_raise].
Qed.

Lemma he_patch g i o : has_error g = true → patch_jump g i o = g.
Proof. intros Hg. unfold patch_jump. by rewrite Hg. Qed.

Lemma he_expr g e scope slots : has_error g = true → generate_expr e scope slots g = (0, g).
Proof. intros Hg. destruct e; simpl; by rewrite Hg. Qed.

Lemma he_stmt g s scope slots : has_error g = true → generate_stmt s slots scope g = (scope, g).
Proof. intros Hg. destruct s; simpl; by rewrite Hg. Qed.

Lemma he_block g ss scope slots : has_error g = true →
  block (λ s, generate_stmt s slots) ss scope g = (scope, g).
Proof.
  intros Hg. revert scope. induction ss as [|s ss IH]; intros scope; simpl; [done|].
  rewrite he_stmt by done. apply IH.
Qed.

Lemma he_traverse {A B} (f : nat → A → Codegen → B * Codegen) l :
  (∀ i a g, a ∈ l → has_error g = true → has_error (f i a g).2 = true) →
  ∀ i g, has_error g = true → has_error (traverse f i l g).2 = true.
Proof.
  induction l as [|a l IH]; intros Hf i g Hg; simpl; [done|].
  pose proof (Hf i a g ltac:(by left) Hg) as H1. destruct (f i a g) as [b g1].
  specialize (IH ltac:(intros; apply Hf; [by right|done]) (S i) g1 H1).
  by destruct (traverse f (S i) l g1).
Qed.

Lemma he_fold {A} (f : Codegen → A → Codegen) l :
  (∀ g a, has_error g = true → has_error (f g a) = true) →
  ∀ g, has_error g = true → has_error (foldl f g l) = true.
Proof. intros Hf. induction l as [|a l IH]; intros g Hg; simpl; [done|]. apply IH. by apply Hf. Qed.

(** Carries an error through the rest of a pass. *)
Ltac he_fin := cbn [snd]; rewrite ?he_emit; first [assumption | apply he_raise | done].
Ltac he_go :=
  repeat match goal with
  | |- has_error (snd (match alloc_reg ?g with _ => _ end)) = true =>
      let H := fresh "He" in
      assert (has_error (alloc_reg g).2 = true) as H by (apply he_alloc; he_fin);
      destruct (alloc_reg g); cbn [snd] in H
  | |- has_error (snd (match generate_expr ?e ?sc ?sl ?g with _ => _ end)) = true =>
      rewrite (he_expr g e sc sl) by he_fin
  end; he_fin.

(** ** Expressions *)

(** The generator's result on an error-free state, against the code. *)
Definition emits (g : Codegen) (m : option coded) (res : Z * Codegen) : Prop :=
  match m with
  | Some (c, r, n) => res = (r, ext g c n)
  | None => has_error res.2 = true
  end.

Lemma chunk_code_acc rg sr tr l : ∀ c b,
  foldl (chunk_code rg sr tr) (c, b) l =
  let '(c', b') := foldl (chunk_code rg sr tr) ([], b) l in (c ++ c', b').
Proof.
  induction l as [|k l IH]; intros c b; cbn [foldl]; [by rewrite app_nil_r|].
  assert (∀ c', chunk_code rg sr tr (c', b) k =
    (c' ++ (chunk_code rg sr tr ([], b) k).1, (chunk_code rg sr tr ([], b) k).2)) as Hk.
  { intros c'. unfold chunk_code. destruct b; destruct (0 <? k); simpl; by rewrite ?app_nil_r. }
  rewrite (Hk c), IH. destruct (chunk_code rg sr tr ([], b) k) as [c1 b1]. cbn [fst snd].
  rewrite (IH c1). destruct (foldl _ ([], b1) l). by rewrite app_assoc.
Qed.

Lemma emit_chunk_ext rg sr tr g b k :
  emit_chunk rg sr tr (g, b) k =
  let '(c, b') := chunk_code rg sr tr ([], b) k in (ext g c (next_reg g), b').
Proof.
  unfold emit_chunk, chunk_code. destruct b; destruct (0 <? k); simpl; rewrite ?emit_ext, ?ext_ext; try done.
  by rewrite ext_nil.
Qed.

Lemma emit_chunks_ext rg sr tr l : ∀ g b,
  foldl (emit_chunk rg sr tr) (g, b) l =
  let '(c, b') := foldl (chunk_code rg sr tr) ([], b) l in (ext g c (next_reg g), b').
Proof.
  induction l as [|k l IH]; intros g b; cbn [foldl]; [by rewrite ext_nil|].
  rewrite emit_chunk_ext. destruct (chunk_code rg sr tr ([], b) k) as [c1 b1] eqn:Hk.
  rewrite IH, (chunk_code_acc _ _ _ _ c1). destruct (foldl _ ([], b1) l) as [c2 b2].
  by rewrite ext_ext.
Qed.

Lemma generate_int_spec v g : has_error g = false → emits g (cint v (next_reg g)) (generate_int v g).
Proof.
  intros Hg. unfold generate_int, cint. destruct (Field.GOLDILOCKS_P <=? v); [apply he_raise|].
  destruct (v <=? I32_MAX).
  - rewrite alloc_spec. destruct (alloc (next_reg g)) as [[r n]|]; cbn [mbind option_bind emits]; [|apply he_raise].
    by rewrite emit_ext, ext_ext.
  - assert (∀ rg sr tr g, has_error g = true →
      has_error (foldl (emit_chunk rg sr tr) (g, false) (chunks_of v)).1 = true) as Hch.
    { intros rg sr tr g0 H0. rewrite emit_chunks_ext. by destruct (foldl _ _ _). }
    rewrite alloc_spec. destruct (alloc (next_reg g)) as [[r n]|]; cbn [mbind option_bind emits].
    + rewrite alloc_spec. rewrite ?ext_next. destruct (alloc n) as [[r1 n1]|]; cbn [mbind option_bind emits].
      * rewrite emit_ext, !ext_ext, alloc_spec. rewrite ?ext_next. destruct (alloc n1) as [[r2 n2]|]; cbn [mbind option_bind emits].
        -- rewrite ext_ext, emit_chunks_ext. destruct (foldl _ ([], false) _) as [c b]. cbn [fst].
           by rewrite ext_ext.
        -- apply Hch, he_raise.
      * pose proof (he_alloc (emit (raise (ext g [] n) RegisterExhausted) Isa.Load 30 0 0 1073741824)
          ltac:(rewrite he_emit; apply he_raise)) as H1.
        destruct (alloc_reg _) as [t g1]. by apply Hch.
    + pose proof (he_alloc (raise g RegisterExhausted) (he_raise _ _)) as H1.
      destruct (alloc_reg _) as [s g1]. simpl in H1.
      pose proof (he_alloc (emit g1 Isa.Load s 0 0 1073741824) H1) as H2.
      destruct (alloc_reg _) as [t g2]. by apply Hch.
Qed.

Lemma result_reg_spec l n r n1 g :
  match pick_reg l n r n1 (next_reg g) with
  | Some res => ∃ m, result_reg l n r n1 g = (res, ext g [] m)
  | None => has_error (result_reg l n r n1 g).2 = true
  end.
Proof.
  unfold pick_reg, result_reg. destruct (n <=? l); [exists (next_reg g); by rewrite ext_nil|].
  destruct (n1 <=? r); [exists (next_reg g); by rewrite ext_nil|]. rewrite alloc_spec.
  destruct (alloc (next_reg g)) as [[x m]|]; simpl; [by exists m|apply he_raise].
Qed.

Lemma he_result l n r n1 g : has_error g = true → has_error (result_reg l n r n1 g).2 = true.
Proof. intros Hg. unfold result_reg. destruct (n <=? l), (n1 <=? r); try done; by apply he_alloc. Qed.

(** Two operands and an operation. *)
Lemma binary_spec (op : Isa.Opcode) (f1 f2 : Codegen → Z * Codegen) (m1 : option coded) (m2 : Z → option coded) g :
  emits g m1 (f1 g) → (∀ g', has_error g' = false → emits g' (m2 (next_reg g')) (f2 g')) →
  (∀ g', has_error g' = true → f2 g' = (0, g')) → has_error g = false →
  emits g ('(c1, l, n1) ← m1; '(c2, r, n2) ← m2 n1; res ← pick_reg l (next_reg g) r n1 n2;
           Some (c1 ++ c2 ++ [Op op res l r 0], res, Z.max (res + 1) (next_reg g)))
    (let '(l, g1) := f1 g in
     let '(r, g2) := f2 g1 in
     let '(res, g3) := result_reg l (next_reg g) r (next_reg g1) g2 in
     (res, set_next_reg (emit g3 op res l r 0) (Z.max (res + 1) (next_reg g)))).
Proof.
  intros H1 H2 H2e Hg. destruct m1 as [[[c1 l] n1]|]; simpl in *.
  - rewrite H1. specialize (H2 (ext g c1 n1) Hg). rewrite ?ext_next in *.
    destruct (m2 n1) as [[[c2 r] n2]|]; simpl in *.
    + rewrite H2. pose proof (result_reg_spec l (next_reg g) r n1 (ext (ext g c1 n1) c2 n2)) as Hr.
      rewrite ?ext_next in Hr.  rewrite ext_ext in *.
      destruct (pick_reg l (next_reg g) r n1 n2) as [res|]; simpl.
      * destruct Hr as [m ->]. rewrite emit_ext, ext_set, !ext_ext. by rewrite <- !app_assoc.
      * destruct (result_reg _ _ _ _ _) as [res g3]. exact Hr.
    + destruct (f2 (ext g c1 n1)) as [r g2]. simpl in H2.
      pose proof (he_result l (next_reg g) r n1 g2 H2) as Hr. by destruct (result_reg _ _ _ _ _).
  - destruct (f1 g) as [l g1]. simpl in H1. rewrite (H2e g1 H1).
    pose proof (he_result l (next_reg g) 0 (next_reg g1) g1 H1) as Hr. by destruct (result_reg _ _ _ _ _).
Qed.

Lemma args_spec scope slots args :
  Forall (λ e, ∀ g, has_error g = false → emits g (cexpr scope slots e (next_reg g)) (generate_expr e scope slots g)) args →
  ∀ i g, has_error g = false →
  match cargs (λ e n, cexpr scope slots e n) args (next_reg g) with
  | Some (c, rs, n) => traverse (λ _ arg g, generate_expr arg scope slots g) i args g = (rs, ext g c n)
  | None => has_error (traverse (λ _ arg g, generate_expr arg scope slots g) i args g).2 = true
  end.
Proof.
  induction 1 as [|e args He _ IH]; intros i g Hg; simpl; [by rewrite ext_nil|].
  specialize (He g Hg). destruct (cexpr scope slots e (next_reg g)) as [[[c r] n]|]; simpl in *.
  - rewrite He. specialize (IH (S i) (ext g c n) Hg). rewrite ?ext_next in IH.
    destruct (cargs _ args n) as [[[cs rs] n']|]; simpl.
    + rewrite IH. by rewrite ext_ext.
    + by destruct (traverse _ _ _ _).
  - destruct (generate_expr e scope slots g) as [r g1]. simpl in He.
    pose proof (he_traverse (λ _ arg g, generate_expr arg scope slots g) args
      ltac:(intros ? ? ? _ H1; cbn beta; by rewrite he_expr) (S i) g1 He) as Ht. by destruct (traverse _ _ _ _).
Qed.

Lemma he_pushes g rs : has_error (foldl push g rs) = has_error g.
Proof. by rewrite push_ext. Qed.

Lemma he_pops g rs : has_error (foldl pop g rs) = has_error g.
Proof. by rewrite pop_ext. Qed.

Lemma syscall_spec k g :
  emits g (csyscall k (next_reg g)) (let '(res, g) := alloc_reg g in (res, emit g Isa.Syscall res 0 0 k)).
Proof.
  unfold csyscall. rewrite alloc_spec. destruct (alloc (next_reg g)) as [[r n]|]; cbn [mbind option_bind emits].
  - by rewrite emit_ext, ext_ext.
  - apply he_raise.
Qed.

(** A call of a function of the contract. *)
Lemma call_spec scope slots name args g : has_error g = false →
  Forall (λ e, ∀ g, has_error g = false → emits g (cexpr scope slots e (next_reg g)) (generate_expr e scope slots g)) args →
  emits g
    ('(c, rs, _) ← cargs (λ e n, cexpr scope slots e n) args (next_reg g);
     '(res, n') ← alloc (next_reg g);
     Some (pushes (live_regs (next_reg g)) ++ c ++ pushes rs ++ [CallTo name; Op Isa.Pop res 0 0 0] ++
           pops (reverse (live_regs (next_reg g))), res, n'))
    (let saved := next_reg g in
     let g := foldl push g (live_regs saved) in
     let '(arg_regs, g) := traverse (λ _ arg g, generate_expr arg scope slots g) 0 args g in
     let g := foldl push g arg_regs in
     let call_idx := here g in
     let g := emit g Isa.Call 0 0 0 0 in
     let g := set_calls g (unpatched_calls g ++ [(call_idx, name)]) in
     let g := set_next_reg g saved in
     let '(res_reg, g) := alloc_reg g in
     let g := pop g res_reg in
     (res_reg, foldl pop g (reverse (live_regs saved)))).
Proof.
  intros Hg Hargs. cbv zeta. rewrite push_ext.
  pose proof (args_spec scope slots args Hargs 0 (ext g (pushes (live_regs (next_reg g))) (next_reg g)) Hg) as Ha.
  rewrite ext_next in Ha. destruct (cargs _ args (next_reg g)) as [[[c rs] n]|]; cbn [mbind option_bind].
  - rewrite Ha, ext_ext, push_ext, ext_ext, call_ext, ext_ext, ext_set, alloc_spec, ext_next.
    destruct (alloc (next_reg g)) as [[res n']|]; cbn [mbind option_bind emits].
    + rewrite ext_ext, pop_ext. unfold pop. rewrite emit_ext, !ext_ext, !ext_next. do 2 f_equal.
      by rewrite <- !app_assoc.
    + cbn [snd]. rewrite he_pops. apply he_raise.
  - destruct (traverse _ _ _ _) as [rs g1]. cbn [snd] in Ha. rewrite push_ext. cbn [emits].
    assert (has_error (set_next_reg (set_calls (emit (ext g1 (pushes rs) (next_reg g1)) Isa.Call 0 0 0 0)
      (unpatched_calls (emit (ext g1 (pushes rs) (next_reg g1)) Isa.Call 0 0 0 0) ++
       [(here (ext g1 (pushes rs) (next_reg g1)), name)])) (next_reg g)) = true) as H1 by exact Ha.
    apply he_alloc in H1. destruct (alloc_reg _) as [res g2]. cbn [snd] in *. by rewrite he_pops.
Qed.

Lemma generate_expr_spec scope slots e : scalar_expr e = true → ∀ g, has_error g = false →
  emits g (cexpr scope slots e (next_reg g)) (generate_expr e scope slots g).
Proof.
  induction e as [v|x|x|x k IHk|b f IHb|x fs|a op b IHa IHb|x args IH] using expr_induction;
    intros Hs g Hg; cbn [generate_expr cexpr]; rewrite Hg; try done.
  - by apply generate_int_spec.
  - destruct (scope !! x) as [vi|]; cbn [mbind option_bind emits]; [by rewrite ext_nil|apply he_raise].
  - rewrite alloc_spec. destruct (alloc (next_reg g)) as [[r n]|]; cbn [mbind option_bind emits].
    + destruct (slots !! x) as [slot|]; cbn [mbind option_bind emits]; [by rewrite emit_ext, ext_ext|apply he_raise].
    + destruct (slots !! x); [|apply he_raise]. cbn [snd]. rewrite he_emit. apply he_raise.
  - destruct (slots !! x) as [base|]; cbn [mbind option_bind emits]; [|apply he_raise].
    specialize (IHk Hs g Hg). destruct (cexpr scope slots k (next_reg g)) as [[[c kr] n]|]; cbn [mbind option_bind emits] in *.
    + rewrite IHk, alloc_spec, ext_next. destruct (alloc n) as [[b n1]|]; cbn [mbind option_bind emits].
      * rewrite ext_ext, emit_ext, ext_ext, alloc_spec, !ext_next. destruct (alloc n1) as [[t n2]|]; cbn [mbind option_bind emits].
        -- rewrite ext_ext, emit_ext, ext_ext, alloc_spec, !ext_next. destruct (alloc n2) as [[r n3]|]; cbn [mbind option_bind emits].
           ++ rewrite emit_ext, !ext_ext, !ext_next. do 2 f_equal. by rewrite app_nil_r, <- !app_assoc.
           ++ he_go.
        -- he_go.
      * he_go.
    + destruct (generate_expr k scope slots g) as [kr g1]. cbn [snd] in IHk. he_go.
  - cbn [scalar_expr] in Hs. apply andb_true_iff in Hs as [Ha Hb].
    apply (binary_spec (op_of op) (generate_expr a scope slots) (generate_expr b scope slots)
      (cexpr scope slots a (next_reg g)) (cexpr scope slots b)); [by apply IHa|by apply IHb| |done].
    intros g' H'. by apply he_expr.
  - cbn [scalar_expr] in Hs. apply andb_true_iff in Hs as [Hs Hargs]. apply andb_true_iff in Hs as [Hs H3].
    apply andb_true_iff in Hs as [H1 H2].
    assert (Forall (λ e, ∀ g, has_error g = false →
      emits g (cexpr scope slots e (next_reg g)) (generate_expr e scope slots g)) args) as Hall.
    { clear -IH Hargs. induction IH as [|e args He _ IH]; [constructor|]. simpl in Hargs.
      apply andb_true_iff in Hargs as [Hs1 Hs2]. constructor; [by apply He|by apply IH]. }
    destruct (decide (x = "poseidon")) as [->|].
    { destruct args as [|a [|b [|]]]; try done. apply Forall_cons in Hall as [Ha Hall].
      apply Forall_cons in Hall as [Hb _].
      apply (binary_spec Isa.Poseidon (generate_expr a scope slots) (generate_expr b scope slots)
        (cexpr scope slots a (next_reg g)) (cexpr scope slots b)); [by apply Ha|by apply Hb| |done].
      intros g' H'. by apply he_expr. }
    destruct (decide (x = "msg::sender")); [apply syscall_spec|].
    destruct (decide (x = "msg::nonce")); [apply syscall_spec|].
    destruct (decide (x = "block::number")); [apply syscall_spec|].
    destruct (decide (x = "verify_merkle_proof")) as [->|]; [done|]. by apply call_spec.
Qed.

(** ** Patching *)
Lemma encode_mod op rd rs1 rs2 a b : a mod 2 ^ 32 = b mod 2 ^ 32 →
  Isa.encode (inst op rd rs1 rs2 a) = Isa.encode (inst op rd rs1 rs2 b).
Proof. intros H. unfold Isa.encode. cbn [inst Isa.opcode Isa.rd Isa.rs1 Isa.rs2 Isa.imm]. by rewrite H. Qed.

Lemma as_i32_cong x : Isa.as_i32 x mod 2 ^ 32 = x mod 2 ^ 32.
Proof.
  unfold Isa.as_i32. cbv zeta. destruct (_ <? _).
  - apply Z.mod_mod. lia.
  - rewrite Zminus_mod, Z.mod_mod, Z_mod_same_full, Z.sub_0_r by lia. apply Z.mod_mod. lia.
Qed.

Lemma rel_mod a b : rel a b mod 2 ^ 32 = (Z.of_nat a - Z.of_nat b) mod 2 ^ 32.
Proof.
  unfold rel. rewrite Zminus_mod, !as_i32_cong. by rewrite <- Zminus_mod.
Qed.

Definition regs_ok (rd rs1 rs2 : Z) : Prop := 0 ≤ rd < 32 ∧ 0 ≤ rs1 < 32 ∧ 0 ≤ rs2 < 32.

Lemma decode_inst op rd rs1 rs2 imm : regs_ok rd rs1 rs2 →
  Isa.decode_any (Isa.encode (inst op rd rs1 rs2 imm)) = Ok (inst op rd rs1 rs2 (Isa.as_i32 imm)).
Proof.
  intros (Hd&H1&H2). rewrite (encode_mod op rd rs1 rs2 imm (Isa.as_i32 imm)) by (by rewrite as_i32_cong).
  apply IsaLemmas.word_decode. split; try done. apply IsaLemmas.as_i32_range.
Qed.

(** The word at [i] is an instruction. *)
Definition good (g : Codegen) (i : nat) : Prop :=
  ∃ op rd rs1 rs2 imm, regs_ok rd rs1 rs2 ∧ instructions g !! i = Some (Isa.encode (inst op rd rs1 rs2 imm)).

Lemma patch_at g i o op rd rs1 rs2 imm : has_error g = false → regs_ok rd rs1 rs2 →
  instructions g !! i = Some (Isa.encode (inst op rd rs1 rs2 imm)) →
  patch_jump g i o = set_instructions g (<[i := Isa.encode (inst op rd rs1 rs2 o)]> (instructions g)).
Proof. intros Hg Hr Hi. unfold patch_jump. by rewrite Hg, Hi, decode_inst. Qed.

Lemma patch_error g i o : good g i → has_error (patch_jump g i o) = has_error g.
Proof.
  intros (op&rd&rs1&rs2&imm&Hr&Hi). unfold patch_jump. destruct (has_error g) eqn:Hg; [done|].
  by rewrite Hi, decode_inst.
Qed.

Lemma patch_good g i o j : has_error g = false → good g i → good g j → good (patch_jump g i o) j.
Proof.
  intros Hg (op&rd&rs1&rs2&imm&Hr&Hi) Hj. rewrite (patch_at g i o op rd rs1 rs2 imm) by done.
  destruct (decide (i = j)) as [<-|Hne].
  - exists op, rd, rs1, rs2, o. split; [done|]. simpl. apply list_lookup_insert_eq.
    by apply lookup_lt_Some in Hi.
  - destruct Hj as (op'&rd'&rs1'&rs2'&imm'&Hr'&Hj). exists op', rd', rs1', rs2', imm'. split; [done|].
    simpl. by rewrite list_lookup_insert_ne.
Qed.

Lemma patch_comm g i j a b : has_error g = false → i ≠ j → good g i → good g j →
  patch_jump (patch_jump g i a) j b = patch_jump (patch_jump g j b) i a.
Proof.
  intros Hg Hne Hi Hj.
  pose proof Hi as (op&rd&rs1&rs2&imm&Hr&Hwi). pose proof Hj as (op'&rd'&rs1'&rs2'&imm'&Hr'&Hwj).
  rewrite (patch_at g i a op rd rs1 rs2 imm), (patch_at g j b op' rd' rs1' rs2' imm') by done.
  rewrite (patch_at _ j b op' rd' rs1' rs2' imm'); [|done|done|simpl; by rewrite list_lookup_insert_ne].
  rewrite (patch_at _ i a op rd rs1 rs2 imm); [|done|done|simpl; by rewrite list_lookup_insert_ne].
  unfold set_instructions. simpl. by rewrite list_insert_insert_ne.
Qed.

Definition patch_to (target : nat) (g : Codegen) (i : nat) : Codegen := patch_jump g i (rel target i).

Lemma patches_comm target E : ∀ g p o, has_error g = false → good g p → Forall (good g) E → p ∉ E →
  patch_jump (foldl (patch_to target) g E) p o = foldl (patch_to target) (patch_jump g p o) E.
Proof.
  induction E as [|e E IH]; intros g p o Hg Hp HE Hn; simpl; [done|].
  apply Forall_cons in HE as [He HE]. apply not_elem_of_cons in Hn as [Hne Hn].
  rewrite IH; [|by unfold patch_to; rewrite patch_error|by apply patch_good| |done].
  - f_equal. unfold patch_to. by apply patch_comm.
  - eapply Forall_impl; [apply HE|]. intros i Hi. by apply patch_good.
Qed.

Lemma patch_spec g c1 c2 op rd rs1 rs2 d n i o : has_error g = false → regs_ok rd rs1 rs2 →
  i = (here g + length c1)%nat → o mod 2 ^ 32 = d mod 2 ^ 32 →
  patch_jump (ext g (c1 ++ Op op rd rs1 rs2 0 :: c2) n) i o = ext g (c1 ++ Op op rd rs1 rs2 d :: c2) n.
Proof.
  intros Hg Hr -> Ho. rewrite (patch_at _ _ _ op rd rs1 rs2 0); [|done|done|].
  - unfold ext, set_instructions, here. simpl. rewrite !fmap_app, !calls_of_app. cbn [fmap list_fmap enc calls_of].
    rewrite insert_app_r. rewrite <- (length_fmap enc c1) at 1. rewrite <- (Nat.add_0_r (length (enc <$> c1))).
    rewrite insert_app_r. cbn [insert list_insert]. by rewrite (encode_mod _ _ _ _ _ _ Ho).
  - unfold ext, here. simpl. rewrite lookup_app_r by lia. rewrite fmap_app, lookup_app_r; rewrite length_fmap; [|lia].
    by replace (length (instructions g) + length c1 - length (instructions g) - length c1)%nat with 0%nat by lia.
Qed.

(** An immediate counts modulo 2^32. *)
Lemma ext_jump g c1 c2 op rd rs1 rs2 a b n : a mod 2 ^ 32 = b mod 2 ^ 32 →
  ext g (c1 ++ Op op rd rs1 rs2 a :: c2) n = ext g (c1 ++ Op op rd rs1 rs2 b :: c2) n.
Proof.
  intros H. unfold ext. rewrite !fmap_app, !calls_of_app. cbn [fmap list_fmap enc calls_of].
  by rewrite (encode_mod _ _ _ _ _ _ H).
Qed.

Lemma good_ext g c n i : good g i → good (ext g c n) i.
Proof.
  intros (op&rd&rs1&rs2&imm&Hr&Hi). exists op, rd, rs1, rs2, imm. split; [done|].
  unfold ext. simpl. by apply lookup_app_l_Some.
Qed.

Lemma good_code g c1 op rd rs1 rs2 imm c2 n : regs_ok rd rs1 rs2 →
  good (ext g (c1 ++ Op op rd rs1 rs2 imm :: c2) n) (here g + length c1).
Proof.
  intros Hr. exists op, rd, rs1, rs2, imm. split; [done|]. unfold ext, here. simpl.
  rewrite lookup_app_r by lia. rewrite fmap_app, lookup_app_r; rewrite length_fmap; [|lia].
  by replace (length (instructions g) + length c1 - length (instructions g) - length c1)%nat with 0%nat by lia.
Qed.

Lemma good_lt g i : good g i → (i < here g)%nat.
Proof. intros (op&rd&rs1&rs2&imm&Hr&Hi). by apply lookup_lt_Some in Hi. Qed.

Lemma patch_here g i o : good g i → here (patch_jump g i o) = here g.
Proof.
  intros (op&rd&rs1&rs2&imm&Hr&Hi). unfold patch_jump. destruct (has_error g); [done|].
  rewrite Hi, decode_inst by done. unfold here. simpl. apply length_insert.
Qed.

Lemma patch_next g i o : good g i → next_reg (patch_jump g i o) = next_reg g.
Proof.
  intros (op&rd&rs1&rs2&imm&Hr&Hi). unfold patch_jump. destruct (has_error g); [done|].
  by rewrite Hi, decode_inst.
Qed.

(** ** Statements *)
Definition emits_stmt (g : Codegen) (m : option (list instr * Scope * Z)) (res : Scope * Codegen) : Prop :=
  match m with
  | Some (c, scope, n) => res = (scope, ext g c n)
  | None => has_error res.2 = true
  end.

(** A generator in the middle of a scalar function. *)
Record ready (g : Codegen) (scope : Scope) : Prop := {
  ready_error : has_error g = false;
  ready_layouts : struct_layouts g = ∅;
  ready_scope : scope_ok scope;
  ready_next : 1 ≤ next_reg g ≤ 31;
}.

Lemma ready_ext g scope c n scope' : ready g scope → scope_ok scope' → 1 ≤ n ≤ 31 → ready (ext g c n) scope'.
Proof. intros [? ? ? ?] ? ?. by split. Qed.

Lemma expr_spec slots e g scope : scalar_expr e = true → ready g scope →
  emits g (cexpr scope slots e (next_reg g)) (generate_expr e scope slots g) ∧
  ∀ c r n, cexpr scope slots e (next_reg g) = Some (c, r, n) → 1 ≤ r ≤ 30 ∧ next_reg g ≤ n ≤ 31.
Proof.
  intros He [Hg _ Hsc Hn]. split; [by apply generate_expr_spec|]. intros c r n Hc.
  apply cexpr_bounds in Hc; [|done..]. tauto.
Qed.

Definition stmt_spec (slots : gmap string Z) (s : Stmt) : Prop :=
  ∀ scope g, ready g scope → emits_stmt g (cstmt slots s scope (next_reg g)) (generate_stmt s slots scope g).

Definition block_spec (slots : gmap string Z) (ss : list Stmt) : Prop :=
  ∀ scope g, ready g scope →
  emits_stmt g (cblock (cstmt slots) ss scope (next_reg g)) (block (λ s, generate_stmt s slots) ss scope g).

Lemma block_emits slots ss : Forall (stmt_spec slots) ss → block_spec slots ss.
Proof.
  induction 1 as [|s ss Hs _ IH]; intros scope g Hr; cbn [cblock block].
  { cbn [emits_stmt]. by rewrite ext_nil. }
  specialize (Hs scope g Hr). pose proof (cstmt_bounds slots s scope (next_reg g) (ready_scope _ _ Hr) (ready_next _ _ Hr)) as Hb.
  destruct (cstmt slots s scope (next_reg g)) as [[[c1 sc1] n1]|]; cbn [mbind option_bind emits_stmt] in *.
  - destruct (Hb _ _ _ eq_refl) as [Hok Hn]. pose proof (ready_next _ _ Hr). rewrite Hs.
    specialize (IH sc1 (ext g c1 n1)). rewrite ext_next in IH.
    specialize (IH ltac:(apply (ready_ext _ scope); [done|done|lia])).
    destruct (cblock _ ss sc1 n1) as [[[c2 sc2] n2]|]; cbn [mbind option_bind emits_stmt] in *; [|done].
    by rewrite IH, ext_ext.
  - destruct (generate_stmt s slots scope g) as [sc1 g1]. cbn [snd] in Hs. by rewrite he_block.
Qed.

Lemma scalar_block outer cur slots ss :
  Forall (λ s, ∀ outer cur, scalar_stmt outer cur s = true → stmt_spec slots s) ss →
  scalar_list scalar_stmt outer cur ss = true → block_spec slots ss.
Proof.
  intros Hall Hs. apply block_emits. revert cur Hs.
  induction Hall as [|s ss H _ IH]; intros cur Hs; [constructor|].
  cbn [scalar_list] in Hs. apply andb_true_iff in Hs as [H1 H2]. constructor; [by eapply H|by eapply IH].
Qed.

Lemma he_set g n : has_error (set_next_reg g n) = has_error g. Proof. done. Qed.

Lemma he_patched g i o : has_error g = true → has_error (patch_jump g i o) = true.
Proof. intros Hg. by rewrite he_patch. Qed.

(** Carries an error to the end of a statement. *)
Ltac he_end :=
  cbn [snd]; unfold push, pop; rewrite ?he_set; repeat (apply he_patched; rewrite ?he_set); rewrite ?he_emit, ?he_set, ?he_emit, ?he_set;
  first [assumption | apply he_raise | done].
Ltac he_stm :=
  repeat match goal with
  | |- has_error (snd (match alloc_reg ?g with _ => _ end)) = true =>
      let H := fresh "He" in
      assert (has_error (alloc_reg g).2 = true) as H by (apply he_alloc; he_end);
      destruct (alloc_reg g); cbn [snd] in H
  | |- has_error (snd (match generate_expr ?e ?sc ?sl ?g with _ => _ end)) = true =>
      rewrite (he_expr g e sc sl) by he_end
  | |- has_error (snd (match block (λ s, generate_stmt s ?sl) ?ss ?sc ?g with _ => _ end)) = true =>
      rewrite (he_block g ss sc sl) by he_end
  end; he_end.

Lemma let_type g e scope : scalar_expr e = true → is_ident e = false → struct_layouts g = ∅ →
  expr_struct_type g e scope = None.
Proof.
  intros He Hi Hg. destruct e; try done. simpl. destruct (function_returns g !! name); [|done]. simpl.
  rewrite Hg, lookup_empty. by destruct (bool_decide_reflect (is_Some (@None (list string)))) as [[]|].
Qed.

Lemma regs_jmp : regs_ok 0 0 0. Proof. by repeat split. Qed.
Lemma regs_jnz r : 1 ≤ r ≤ 30 → regs_ok 0 r 0. Proof. intros H. repeat split; lia. Qed.

(** The length of code, the distance of a jump. *)
Ltac lens := repeat progress (rewrite ?length_app; cbn [length]); unfold jnz, jmp, jback; lia.
Ltac jump_off := rewrite rel_mod; f_equal; lens.

Lemma if_spec slots cnd tb eb : scalar_expr cnd = true → block_spec slots tb → block_spec slots (default [] eb) →
  stmt_spec slots (SIf cnd tb eb).
Proof.
  intros Hc Ht He scope g Hr. destruct (expr_spec slots cnd g scope Hc Hr) as [Hce Hcb].
  cbn [generate_stmt cstmt]. rewrite (ready_error _ _ Hr).
  destruct (cexpr scope slots cnd (next_reg g)) as [[[c r] m]|]; cbn [mbind option_bind emits emits_stmt] in *.
  2: { destruct (generate_expr cnd scope slots g) as [r g1]. cbn [snd] in Hce.
       destruct eb; he_stm. }
  destruct (Hcb _ _ _ eq_refl) as [Hrr _]. rewrite Hce, emit_ext, ext_set, ext_ext, ext_here.
  pose proof (ready_next _ _ Hr) as Hnx.
  assert (∃ j : Scope * Codegen, (match eb with
      | Some eb => block (λ s, generate_stmt s slots) eb scope (ext g (c ++ [Op Isa.Jnz 0 r 0 0]) (next_reg g))
      | None => (scope, ext g (c ++ [Op Isa.Jnz 0 r 0 0]) (next_reg g))
      end) = j ∧
    emits_stmt (ext g (c ++ [Op Isa.Jnz 0 r 0 0]) (next_reg g))
      (match eb with Some e => cblock (cstmt slots) e scope (next_reg g) | None => Some ([], scope, next_reg g) end) j)
    as (j&->&Hj).
  { eexists. split; [done|]. specialize (He scope (ext g (c ++ [Op Isa.Jnz 0 r 0 0]) (next_reg g))).
    rewrite ext_next in He. destruct eb as [eb|]; [apply He|].
    - apply (ready_ext _ scope); [done|apply Hr|done].
    - cbn [emits_stmt]. by rewrite ext_ext, app_nil_r. }
  assert (∀ sc n ce, (match eb with Some e => cblock (cstmt slots) e scope (next_reg g) | None => Some ([], scope, next_reg g) end)
    = Some (ce, sc, n) → scope_ok sc ∧ next_reg g ≤ n ≤ 31) as Hb.
  { intros sc n ce. destruct eb; [intros H; by apply block_bounds in H; [|apply Hr|]|].
    intros [= _ <- <-]. split; [apply Hr|lia]. }
  destruct (match eb with Some e => _ | None => _ end) as [[[ce sc1] n1]|]; cbn [mbind option_bind emits_stmt] in *.
  2: { destruct j as [sc1 g1]. cbn [snd] in Hj. he_stm. }
  destruct (Hb _ _ _ eq_refl) as [Hok1 Hn1]. rewrite Hj, emit_ext, !ext_ext, ext_here, ext_next.
  specialize (Ht sc1 (ext g ((c ++ [Op Isa.Jnz 0 r 0 0]) ++ ce ++ [Op Isa.Jmp 0 0 0 0]) n1)).
  rewrite ext_next in Ht. specialize (Ht ltac:(apply (ready_ext _ scope); [done|done|lia])).
  destruct (cblock (cstmt slots) tb sc1 n1) as [[[ct sc2] n2]|]; cbn [mbind option_bind emits_stmt] in *.
  2: { destruct (block _ tb sc1 _) as [sc2 g2]. cbn [snd] in Ht. he_stm. }
  rewrite Ht, !ext_ext, !ext_here. f_equal.
  replace (((c ++ [Op Isa.Jnz 0 r 0 0]) ++ ce ++ [Op Isa.Jmp 0 0 0 0]) ++ ct)
    with (c ++ Op Isa.Jnz 0 r 0 0 :: (ce ++ Op Isa.Jmp 0 0 0 0 :: ct)) by (by rewrite <- !app_assoc).
  rewrite (patch_spec _ c _ _ _ _ _ (Z.of_nat (length ce + 2))); [|apply Hr|by apply regs_jnz|done|].
  2: { jump_off. }
  replace (c ++ Op Isa.Jnz 0 r 0 (Z.of_nat (length ce + 2)) :: ce ++ Op Isa.Jmp 0 0 0 0 :: ct)
    with ((c ++ Op Isa.Jnz 0 r 0 (Z.of_nat (length ce + 2)) :: ce) ++ Op Isa.Jmp 0 0 0 0 :: ct) by (by rewrite <- !app_assoc).
  rewrite (patch_spec _ _ _ _ _ _ _ (Z.of_nat (S (length ct)))); [|apply Hr|by apply regs_jmp| |].
  - by rewrite <- app_assoc.
  - lens.
  - jump_off.
Qed.

Lemma while_spec slots cnd body : scalar_expr cnd = true → block_spec slots body → stmt_spec slots (SWhile cnd body).
Proof.
  intros Hc Hb scope g Hr. destruct (expr_spec slots cnd g scope Hc Hr) as [Hce Hcb].
  cbn [generate_stmt cstmt]. rewrite (ready_error _ _ Hr).
  destruct (cexpr scope slots cnd (next_reg g)) as [[[c r] m]|]; cbn [mbind option_bind emits emits_stmt] in *.
  2: { destruct (generate_expr cnd scope slots g) as [r g1]. cbn [snd] in Hce. he_stm. }
  destruct (Hcb _ _ _ eq_refl) as [Hrr _]. rewrite Hce, !emit_ext, ext_set, !ext_ext, !ext_here, ext_next.
  pose proof (ready_next _ _ Hr) as Hnx.
  specialize (Hb scope (ext g (c ++ [Op Isa.Jnz 0 r 0 0] ++ [Op Isa.Jmp 0 0 0 0]) (next_reg g))).
  rewrite ext_next in Hb. specialize (Hb ltac:(apply (ready_ext _ scope); [done|apply Hr|lia])).
  destruct (cblock (cstmt slots) body scope (next_reg g)) as [[[cb sc1] n1]|]; cbn [mbind option_bind emits_stmt] in *.
  2: { destruct (block _ body scope _) as [sc1 g2]. cbn [snd] in Hb. he_stm. }
  rewrite Hb, emit_ext, !ext_ext, !ext_here, ext_next. f_equal.
  set (back := Op Isa.Jmp 0 0 0 (rel _ _)).
  assert (ext g (c ++ Op Isa.Jnz 0 r 0 2 :: Op Isa.Jmp 0 0 0 (Z.of_nat (length cb + 2)) :: cb ++ [back]) n1 =
          ext g (c ++ [jnz r 2; jmp (length cb + 2)] ++ cb ++ [jback (length c + 2 + length cb)]) n1) as <-.
  { eassert (rel _ _ mod 2 ^ 32 = _ mod 2 ^ 32) as Hm; [shelve|].
    pose proof (ext_jump g (c ++ [jnz r 2; jmp (length cb + 2)] ++ cb) [] Isa.Jmp 0 0 0 _ _ n1 Hm) as Hj.
    rewrite <- !app_assoc in Hj. exact Hj.
    Unshelve. jump_off. }
  replace ((c ++ [Op Isa.Jnz 0 r 0 0] ++ [Op Isa.Jmp 0 0 0 0]) ++ cb ++ [back])
    with (c ++ Op Isa.Jnz 0 r 0 0 :: Op Isa.Jmp 0 0 0 0 :: cb ++ [back]) by (by rewrite <- !app_assoc).
  rewrite (patch_spec _ c _ _ _ _ _ 2); [|apply Hr|by apply regs_jnz|done|].
  2: { jump_off. }
  replace (c ++ Op Isa.Jnz 0 r 0 2 :: Op Isa.Jmp 0 0 0 0 :: cb ++ [back])
    with ((c ++ [Op Isa.Jnz 0 r 0 2]) ++ Op Isa.Jmp 0 0 0 0 :: cb ++ [back]) by (by rewrite <- !app_assoc).
  rewrite (patch_spec _ _ _ _ _ _ _ (Z.of_nat (length cb + 2))); [|apply Hr|by apply regs_jmp| |].
  - by rewrite <- app_assoc.
  - lens.
  - jump_off.
Qed.

Lemma for_spec slots x ea eb body : scalar_expr ea = true → scalar_expr eb = true → block_spec slots body →
  stmt_spec slots (SFor x ea eb body).
Proof.
  intros Ha Hb Hbody scope g Hr. destruct (expr_spec slots ea g scope Ha Hr) as [Hae Hab].
  cbn [generate_stmt cstmt]. rewrite (ready_error _ _ Hr). pose proof (ready_next _ _ Hr) as Hnx.
  destruct (cexpr scope slots ea (next_reg g)) as [[[c1 a] n1]|]; cbn [mbind option_bind emits emits_stmt] in *.
  2: { destruct (generate_expr ea scope slots g) as [r g1]. cbn [snd] in Hae. he_stm. }
  destruct (Hab _ _ _ eq_refl) as [Hra Hn1]. rewrite Hae.
  destruct (expr_spec slots eb (ext g c1 n1) scope Hb) as [Hbe Hbb].
  { apply (ready_ext _ scope); [done|apply Hr|lia]. }
  rewrite ext_next in Hbe, Hbb.
  destruct (cexpr scope slots eb n1) as [[[c2 b] n2]|]; cbn [mbind option_bind emits emits_stmt] in *.
  2: { destruct (generate_expr eb scope slots _) as [r g1]. cbn [snd] in Hbe. he_stm. }
  destruct (Hbb _ _ _ eq_refl) as [Hrb Hn2]. rewrite Hbe, !ext_ext, alloc_spec, ext_next.
  destruct (alloc n2) as [[i n3]|] eqn:Ei; cbn [mbind option_bind emits emits_stmt]; [|he_stm].
  apply alloc_bounds in Ei as (->&->&Hi). rewrite emit_ext, ext_set, !ext_ext, alloc_spec, ext_next.
  destruct (alloc (n2 + 1)) as [[k n4]|] eqn:Ek; cbn [mbind option_bind emits emits_stmt]; [|he_stm].
  apply alloc_bounds in Ek as (->&->&Hk). rewrite !emit_ext, !ext_set, !ext_ext, !ext_here, !ext_next.
  set (pre := ((c1 ++ c2) ++ [] ++ [Op Isa.Add n2 a 0 0]) ++ [] ++ [Op Isa.Lt (n2 + 1) n2 b 0] ++
    [Op Isa.Jnz 0 (n2 + 1) 0 0] ++ [Op Isa.Jmp 0 0 0 0]).
  specialize (Hbody (<[x := mkVarInfo n2 None]> scope) (ext g pre (n2 + 1))).
  rewrite ext_next in Hbody.
  specialize (Hbody ltac:(apply (ready_ext _ scope); [done|apply scope_ok_insert; [apply Hr|lia]|lia])).
  destruct (cblock (cstmt slots) body _ (n2 + 1)) as [[[cb sc1] n4]|]; cbn [mbind option_bind emits_stmt] in *.
  2: { destruct (block _ body _ _) as [sc1 g2]. cbn [snd] in Hbody. he_stm. }
  rewrite Hbody, alloc_spec, ext_next.
  destruct (alloc n4) as [[o n5]|] eqn:Eo; cbn [mbind option_bind emits emits_stmt]; [|he_stm].
  rewrite !emit_ext, !ext_ext, !ext_set, !ext_ext, !ext_here, !ext_next. f_equal.
  rewrite (ext_jump _ _ [] _ _ _ _ _ (- Z.of_nat (length cb + 5))) by (unfold pre; jump_off).
  set (cpre := c1 ++ c2 ++ [Op Isa.Add n2 a 0 0; Op Isa.Lt (n2 + 1) n2 b 0]).
  set (post := cb ++ [Op Isa.Load o 0 0 1; Op Isa.Add n2 n2 o 0; jback (length cb + 5)]).
  replace ((pre ++ cb ++ [] ++ [Op Isa.Load o 0 0 1] ++ [Op Isa.Add n2 n2 o 0]) ++
      [Op Isa.Jmp 0 0 0 (- Z.of_nat (length cb + 5))])
    with (cpre ++ Op Isa.Jnz 0 (n2 + 1) 0 0 :: Op Isa.Jmp 0 0 0 0 :: post)
    by (unfold pre, cpre, post; cbn [app]; rewrite <- !app_assoc; done).
  rewrite (patch_spec _ cpre _ _ _ _ _ 2); [|apply Hr|apply regs_jnz; lia|unfold cpre; lens|unfold pre; jump_off].
  replace (cpre ++ Op Isa.Jnz 0 (n2 + 1) 0 2 :: Op Isa.Jmp 0 0 0 0 :: post)
    with ((cpre ++ [Op Isa.Jnz 0 (n2 + 1) 0 2]) ++ Op Isa.Jmp 0 0 0 0 :: post) by (by rewrite <- app_assoc).
  rewrite (patch_spec _ _ _ _ _ _ _ (Z.of_nat (length cb + 4)));
    [|apply Hr|apply regs_jmp|unfold cpre; lens|unfold pre; jump_off].
  rewrite ext_set. f_equal. unfold cpre, post. by rewrite <- !app_assoc.
Qed.

(** ** The arms of a [match] *)
Definition resolve (pend : option nat) (g : Codegen) : Codegen :=
  match pend with Some p => patch_jump g p (rel (here g) p) | None => g end.

(** The end of a [match]: every arm's jump, and the last failed test, go here. *)
Definition finish (st : ArmState) : Codegen :=
  foldl (patch_to (here (arm_gen st))) (arm_gen st)
    (end_jumps st ++ match pending_skip st with Some l => [l] | None => [] end).

Lemma he_arms slots x n arms : ∀ st, has_error (arm_gen st) = true →
  has_error (arm_gen (generate_arms (λ s, generate_stmt s slots) x n arms st)) = true.
Proof.
  induction arms as [|[p b] arms IH]; intros st He; [done|]. cbn [generate_arms].
  assert (has_error (match pending_skip st with
    | Some prev => patch_jump (arm_gen st) prev (rel (here (arm_gen st)) prev) | None => arm_gen st end) = true) as H1.
  { destruct (pending_skip st); [by apply he_patched|done]. }
  revert H1. generalize (match pending_skip st with
    | Some prev => patch_jump (arm_gen st) prev (rel (here (arm_gen st)) prev) | None => arm_gen st end) as g1.
  intros g1 H1. destruct p as [v|].
  - pose proof (he_alloc g1 H1) as H2. destruct (alloc_reg g1) as [pr g2]. cbn [snd] in H2.
    pose proof (he_alloc (emit g2 Isa.Load pr 0 0 (Isa.as_i32 v)) H2) as H3.
    destruct (alloc_reg (emit g2 _ _ _ _ _)) as [dr g3]. cbn [snd] in H3.
    rewrite he_block by exact H3. apply IH. exact H3.
  - rewrite he_block by exact H1. apply IH. exact H1.
Qed.

Lemma he_finish st : has_error (arm_gen st) = true → has_error (finish st) = true.
Proof. intros H. apply he_fold; [|done]. intros g i. apply he_patched. Qed.

(** The pending test and the end jumps are instructions already emitted. *)
Definition pending_ok (g : Codegen) (pend : option nat) (E : list nat) : Prop :=
  Forall (good g) E ∧ match pend with Some p => good g p ∧ p ∉ E | None => True end.

Lemma resolve_ready pend g E scope : ready g scope → pending_ok g pend E →
  ready (resolve pend g) scope ∧ here (resolve pend g) = here g ∧ next_reg (resolve pend g) = next_reg g ∧
  Forall (good (resolve pend g)) E.
Proof.
  intros Hr [HE Hp]. destruct pend as [p|]; [|done]. destruct Hp as [Hp _]. simpl.
  destruct Hr as [Hg Hl Hsc Hn]. split_and!.
  - split; [by rewrite patch_error| |done|by rewrite patch_next].
    destruct Hp as (op&rd&rs1&rs2&imm&Hro&Hi). by rewrite (patch_at _ _ _ op rd rs1 rs2 imm).
  - by apply patch_here.
  - by apply patch_next.
  - eapply Forall_impl; [apply HE|]. intros i Hi. by apply patch_good.
Qed.

(** Without arms the pending test goes to the end. *)
Lemma finish_nil pend E scope g : has_error g = false → pending_ok g pend E →
  finish (mkArmState pend E scope g) = foldl (patch_to (here g)) (resolve pend g) E.
Proof.
  intros Hg [HE Hp]. unfold finish, resolve. cbn [pending_skip end_jumps arm_gen].
  destruct pend as [p|]; [|by rewrite app_nil_r]. destruct Hp as [Hp Hn].
  rewrite foldl_app. simpl. unfold patch_to at 1. by apply patches_comm.
Qed.

(** An arm whose code is [ct ++ c ++ jmp]: its end jump is patched last. *)
Lemma finish_arm g E n ct c rest : has_error g = false → Forall (good g) E →
  let e := (here g + length ct + length c)%nat in
  let T := (e + 1 + length rest)%nat in
  foldl (patch_to T) (ext g (ct ++ c ++ jmp 0 :: rest) n) (E ++ [e]) =
  foldl (patch_to T) (ext g (ct ++ c ++ jmp (S (length rest)) :: rest) n) E.
Proof.
  intros Hg HE e T. rewrite foldl_app. cbn [foldl]. unfold patch_to at 1.
  replace (ct ++ c ++ jmp 0 :: rest) with ((ct ++ c) ++ Op Isa.Jmp 0 0 0 0 :: rest) by (by rewrite <- app_assoc).
  assert (e = here g + length (ct ++ c))%nat as He by (rewrite length_app; unfold e; lia).
  rewrite patches_comm; [|done| | |].
  - rewrite (patch_spec _ _ _ _ _ _ _ (Z.of_nat (S (length rest)))); [|done|apply regs_jmp|done|].
    + by rewrite <- app_assoc.
    + unfold T. jump_off.
  - rewrite He. apply good_code, regs_jmp.
  - eapply Forall_impl; [apply HE|]. intros i Hi. by apply good_ext.
  - intros Hin. rewrite Forall_forall in HE. apply HE, good_lt in Hin. lia.
Qed.

(** The loop over the arms, started with [pend] and [E]. *)
Definition arms_emit (slots : gmap string Z) (x : Z) (arms : list (MatchPattern * list Stmt)) : Prop :=
  ∀ pend E scope g, ready g scope → pending_ok g pend E →
  let st := generate_arms (λ s, generate_stmt s slots) x (next_reg g) arms (mkArmState pend E scope g) in
  match carms (cstmt slots) arms x (next_reg g) scope with
  | Some (ca, scope') =>
      arm_scope st = scope' ∧
      finish st = foldl (patch_to (here g + length ca)) (ext (resolve pend g) ca (next_reg g)) E
  | None => has_error (arm_gen st) = true
  end.

(** The test of an arm: [d], then a jump to the next arm if register [o] is
    not zero. *)
Definition test_code (d : list instr) (o : option Z) (dist : nat) : list instr :=
  d ++ match o with Some r => [jnz r dist] | None => [] end.

Lemma arm_resolve g d o c n E scope : ready g scope → (∀ r, o = Some r → 1 ≤ r ≤ 30) → Forall (good g) E →
  1 ≤ n ≤ 31 →
  let code := test_code d o 0 ++ c ++ [jmp 0] in
  let skip := match o with Some _ => Some (here g + length d)%nat | None => None end in
  pending_ok (ext g code n) skip (E ++ [(here g + length (test_code d o 0) + length c)%nat]) ∧
  resolve skip (ext g code n) = ext g (test_code d o (length c + 2) ++ c ++ [jmp 0]) n.
Proof.
  intros Hr Ho HE Hn code skip. assert (Forall (good (ext g code n)) (E ++ [(here g + length (test_code d o 0) + length c)%nat])) as HE'.
  { apply Forall_app. split; [eapply Forall_impl; [apply HE|]; intros i Hi; by apply good_ext|].
    apply Forall_singleton. unfold code. rewrite app_assoc, <- Nat.add_assoc, <- length_app.
    apply good_code, regs_jmp. }
  unfold pending_ok, resolve. subst skip. destruct o as [r|]; [|done].
  specialize (Ho r eq_refl). split; [split; [done|split]|].
  - unfold code, test_code. rewrite <- !app_assoc. apply good_code. by apply regs_jnz.
  - intros [Hin|Heq%list_elem_of_singleton]%elem_of_app.
    + rewrite Forall_forall in HE. apply HE, good_lt in Hin. lia.
    + unfold test_code in *. rewrite length_app in *. simpl in *. lia.
  - unfold code, test_code. rewrite <- !app_assoc, ext_here. cbn [app].
    change (jnz r 0) with (Op Isa.Jnz 0 r 0 0).
    rewrite (patch_spec _ d _ _ _ _ _ (Z.of_nat (length c + 2))); [done|apply Hr|by apply regs_jnz|done|jump_off].
Qed.

Lemma arm_step slots x arms b E scope g d o : arms_emit slots x arms → block_spec slots b → ready g scope →
  Forall (good g) E → (∀ r, o = Some r → 1 ≤ r ≤ 30) →
  let n := next_reg g in
  let skip := match o with Some _ => Some (here g + length d)%nat | None => None end in
  let res := block (λ s, generate_stmt s slots) b scope (ext g (test_code d o 0) n) in
  let st := generate_arms (λ s, generate_stmt s slots) x n arms
    (mkArmState skip (E ++ [here res.2]) res.1 (set_next_reg (emit res.2 Isa.Jmp 0 0 0 0) n)) in
  match '(c, scope, _) ← cblock (cstmt slots) b scope n; '(rest, scope) ← carms (cstmt slots) arms x n scope;
        Some (test_code d o (length c + 2) ++ c ++ jmp (S (length rest)) :: rest, scope) with
  | Some (ca, scope') => arm_scope st = scope' ∧ finish st = foldl (patch_to (here g + length ca)) (ext g ca n) E
  | None => has_error (arm_gen st) = true
  end.
Proof.
  intros IH Hb Hr HE Ho n skip. cbv zeta. pose proof (ready_next _ _ Hr) as Hn.
  specialize (Hb scope (ext g (test_code d o 0) n)). rewrite ext_next in Hb.
  specialize (Hb ltac:(apply (ready_ext _ scope); [done|apply Hr|done])).
  pose proof (block_bounds slots b scope n (ready_scope _ _ Hr) Hn) as Hbb.
  destruct (cblock (cstmt slots) b scope n) as [[[c sc1] m]|]; cbn [mbind option_bind emits_stmt] in *.
  2: { apply he_arms. cbn [arm_gen]. by rewrite he_set, he_emit. }
  rewrite Hb. cbn [fst snd]. rewrite emit_ext, ext_set, !ext_ext, !ext_here, <- app_assoc, length_app, Nat.add_assoc.
  destruct (Hbb _ _ _ eq_refl) as [Hok _].
  destruct (arm_resolve g d o c n E scope Hr Ho HE Hn) as [Hpend Hres]. fold skip in Hpend, Hres.
  specialize (IH skip (E ++ [(here g + length (test_code d o 0) + length c)%nat]) sc1
    (ext g (test_code d o 0 ++ c ++ [jmp 0]) n)).
  rewrite ext_next, ext_here in IH. specialize (IH ltac:(by apply (ready_ext _ scope)) Hpend).
  destruct (carms (cstmt slots) arms x n sc1) as [[rest sc2]|]; cbn [mbind option_bind] in *; [|exact IH].
  destruct IH as [Hsc Hfin]. split; [exact Hsc|]. change (jmp 0) with (Op Isa.Jmp 0 0 0 0) in *. rewrite Hfin, Hres, ext_ext.
  assert (length (test_code d o (length c + 2)) = length (test_code d o 0)) as Hlen by (unfold test_code; rewrite !length_app; by destruct o).
  pose proof (finish_arm g E n (test_code d o (length c + 2)) c rest (ready_error _ _ Hr) HE) as Hf.
  cbv zeta in Hf. rewrite Hlen in Hf. rewrite <- !app_assoc. cbn [app]. 
  replace (here g + length (test_code d o 0 ++ c ++ [Op Isa.Jmp 0 0 0 0]) + length rest)%nat
    with (here g + length (test_code d o 0) + length c + 1 + length rest)%nat by lens.
  replace (here g + length (test_code d o (length c + 2) ++ c ++ jmp (S (length rest)) :: rest))%nat
    with (here g + length (test_code d o 0) + length c + 1 + length rest)%nat by (rewrite !length_app, Hlen; simpl; lia).
  exact Hf.
Qed.

Lemma arms_spec slots x arms : 1 ≤ x ≤ 30 → Forall (λ a, block_spec slots a.2) arms → arms_emit slots x arms.
Proof.
  intros Hx Harms. induction Harms as [|[p b] arms Hb _ IH]; intros pend E scope g Hr Hp.
  { cbn [carms generate_arms]. split; [done|]. rewrite finish_nil; [|apply Hr|done].
    destruct (resolve_ready pend g E scope Hr Hp) as (_&_&Hn&_). by rewrite <- Hn, ext_nil, Nat.add_0_r. }
  destruct (resolve_ready pend g E scope Hr Hp) as (Hr1&Hh&Hn&HE).
  cbn [generate_arms arm_gen pending_skip end_jumps arm_scope carms].
  change (match pend with Some prev => patch_jump g prev (rel (here g) prev) | None => g end) with (resolve pend g).
  revert Hr1 Hh Hn HE. generalize (resolve pend g) as g1. intros g1 Hr1 Hh Hn HE. rewrite <- Hh, <- Hn in *.
  destruct p as [v|].
  - rewrite alloc_spec. destruct (alloc (next_reg g1)) as [[pr n1]|] eqn:E1; cbn [mbind option_bind].
    2: { pose proof (he_alloc (emit (raise g1 RegisterExhausted) Isa.Load 30 0 0 (Isa.as_i32 v)) (he_raise _ _)) as H1.
         destruct (alloc_reg _) as [dr g2]. cbn [snd] in H1. rewrite he_block by exact H1. by apply he_arms. }
    rewrite emit_ext, ext_ext, alloc_spec, !ext_next.
    destruct (alloc n1) as [[dr n2]|] eqn:E2; cbn [mbind option_bind].
    2: { rewrite he_block by apply he_raise. apply he_arms, he_raise. }
    apply alloc_bounds in E1 as (->&->&H1). apply alloc_bounds in E2 as (->&->&H2).
    pose proof (ready_next _ _ Hr1) as Hnx.
    pose proof (arm_step slots x arms b E scope g1 [Op Isa.Load (next_reg g1) 0 0 (Isa.as_i32 v);
      Op Isa.Sub (next_reg g1 + 1) x (next_reg g1) 0] (Some (next_reg g1 + 1)) IH Hb Hr1 HE
      ltac:(intros r [= <-]; lia)) as Hstep.
    rewrite !emit_ext, ext_set, !ext_ext, !ext_here. cbn [app].
    unfold test_code, jnz in Hstep. cbn [app length] in Hstep. cbn [length Z.of_nat] in *.
    destruct (block _ b scope _) as [sc2 g2]. cbn [fst snd] in Hstep. exact Hstep.
  - pose proof (arm_step slots x arms b E scope g1 [] None IH Hb Hr1 HE ltac:(done)) as Hstep.
    unfold test_code in Hstep. cbn [app] in Hstep. rewrite ext_nil in Hstep.
    destruct (block _ b scope g1) as [sc2 g2]. cbn [fst snd] in Hstep. exact Hstep.
Qed.

Lemma emit_spec slots args scope g : forallb scalar_expr args = true → has_error g = false → ∀ i,
  match cemit (λ e n, cexpr scope slots e n) args (next_reg g) with
  | Some (c, n) =>
      (traverse (λ _ arg g, let '(rg, g) := generate_expr arg scope slots g in
         ((), emit g Isa.Log 0 rg 0 0)) i args g).2 = ext g c n
  | None =>
      has_error (traverse (λ _ arg g, let '(rg, g) := generate_expr arg scope slots g in
         ((), emit g Isa.Log 0 rg 0 0)) i args g).2 = true
  end.
Proof.
  revert g. induction args as [|e args IH]; intros g Hs Hg i; cbn [cemit traverse].
  { by rewrite ext_nil. }
  cbn [forallb] in Hs. apply andb_true_iff in Hs as [He Hs].
  pose proof (generate_expr_spec scope slots e He g Hg) as H.
  destruct (cexpr scope slots e (next_reg g)) as [[[c r] n]|]; cbn [mbind option_bind emits] in *.
  - rewrite H, emit_ext, ext_next, ext_ext. specialize (IH (ext g (c ++ [Op Isa.Log 0 r 0 0]) n) Hs Hg (S i)).
    rewrite ext_next in IH. destruct (cemit _ args n) as [[cs m]|]; cbn [mbind option_bind].
    + destruct (traverse _ _ _ _) as [us g2]. cbn [snd] in *. by rewrite IH, ext_ext, <- app_assoc.
    + by destruct (traverse _ _ _ _).
  - destruct (generate_expr e scope slots g) as [r g1]. cbn [snd] in H.
    pose proof (he_traverse (λ _ arg g, let '(rg, g) := generate_expr arg scope slots g in
         ((), emit g Isa.Log 0 rg 0 0)) args
      ltac:(intros ? ? ? _ H1; cbn beta; by rewrite he_expr) (S i) (emit g1 Isa.Log 0 r 0 0) H) as Ht.
    by destruct (traverse _ _ _ _).
Qed.

Lemma match_spec slots e arms : is_ident e = true → Forall (λ a, block_spec slots a.2) arms →
  stmt_spec slots (SMatch e arms).
Proof.
  intros Hi Ha scope g Hr. destruct e as [|x| | | | | |]; try done.
  destruct (expr_spec slots (EIdent x) g scope eq_refl Hr) as [He Heb].
  cbn [generate_stmt cstmt]. rewrite (ready_error _ _ Hr).
  destruct (cexpr scope slots (EIdent x) (next_reg g)) as [[[c r] m]|]; cbn [mbind option_bind emits emits_stmt] in *.
  2: { destruct (generate_expr _ scope slots g) as [r g1]. cbn [snd] in He.
       set (st := generate_arms _ _ _ _ _). assert (has_error (arm_gen st) = true) as Hst by (by apply he_arms).
       by apply he_finish. }
  destruct (Heb _ _ _ eq_refl) as [Hrr _]. rewrite He, ext_set. pose proof (ready_next _ _ Hr) as Hnx.
  pose proof (arms_spec slots r arms Hrr Ha None [] scope (ext g c (next_reg g))) as Harms.
  rewrite ext_next in Harms. specialize (Harms ltac:(apply (ready_ext _ scope); [done|apply Hr|done]) ltac:(by split)).
  cbv zeta in Harms. set (st := generate_arms _ _ _ _ _) in *.
  change (foldl (λ g0 idx, patch_jump g0 idx (rel (here (arm_gen st)) idx)) (arm_gen st)
    (end_jumps st ++ match pending_skip st with Some l => [l] | None => [] end)) with (finish st).
  destruct (carms (cstmt slots) arms r (next_reg g) scope) as [[ca sc]|]; cbn [mbind option_bind emits_stmt].
  - destruct Harms as [-> ->]. simpl. by rewrite ext_ext.
  - by apply he_finish.
Qed.

Lemma simple_spec (s : Stmt) outer cur slots : scalar_stmt outer cur s = true →
  match s with SIf _ _ _ | SWhile _ _ | SFor _ _ _ _ | SMatch _ _ => True | _ => stmt_spec slots s end.
Proof.
  intros Hs. destruct s as [x e|e|x e|x e|x k e| | | |e|x args| |e]; try done;
    intros scope g Hr; cbn [scalar_stmt] in Hs; cbn [generate_stmt cstmt]; rewrite (ready_error _ _ Hr).
  - apply andb_true_iff in Hs as [Hs Hx]. apply andb_true_iff in Hs as [Hs Hni]. apply negb_true_iff in Hni.
    destruct (expr_spec slots e g scope Hs Hr) as [He _]. rewrite let_type by (done || apply Hr).
    destruct (cexpr scope slots e (next_reg g)) as [[[c r] m]|]; cbn [mbind option_bind emits emits_stmt] in *.
    + by rewrite He, ext_set.
    + destruct (generate_expr e scope slots g). exact He.
  - destruct (expr_spec slots e g scope Hs Hr) as [He _].
    destruct (cexpr scope slots e (next_reg g)) as [[[c r] m]|]; cbn [mbind option_bind emits emits_stmt] in *.
    + by rewrite He, emit_ext, ext_set, ext_ext.
    + destruct (generate_expr e scope slots g). exact He.
  - destruct (expr_spec slots e g scope Hs Hr) as [He _].
    destruct (cexpr scope slots e (next_reg g)) as [[[c r] m]|]; cbn [mbind option_bind emits emits_stmt] in *.
    + rewrite He. destruct (scope !! x); cbn [mbind option_bind emits_stmt]; [by rewrite emit_ext, ext_set, ext_ext|apply he_raise].
    + destruct (generate_expr e scope slots g). destruct (scope !! x); [exact He|apply he_raise].
  - destruct (expr_spec slots e g scope Hs Hr) as [He _].
    destruct (cexpr scope slots e (next_reg g)) as [[[c r] m]|]; cbn [mbind option_bind emits emits_stmt] in *.
    + rewrite He. destruct (slots !! x); cbn [mbind option_bind emits_stmt]; [by rewrite emit_ext, ext_set, ext_ext|apply he_raise].
    + destruct (generate_expr e scope slots g). destruct (slots !! x); [exact He|apply he_raise].
  - apply andb_true_iff in Hs as [Hk Hs]. destruct (slots !! x) as [base|]; cbn [mbind option_bind emits_stmt]; [|apply he_raise].
    destruct (expr_spec slots k g scope Hk Hr) as [Hke Hkb].
    destruct (cexpr scope slots k (next_reg g)) as [[[c1 kr] m]|]; cbn [mbind option_bind emits emits_stmt] in *.
    2: { destruct (generate_expr k scope slots g). cbn [snd] in Hke. he_stm. }
    destruct (Hkb _ _ _ eq_refl) as [_ Hm]. pose proof (ready_next _ _ Hr) as Hnx. rewrite Hke.
    destruct (expr_spec slots e (ext g c1 m) scope Hs) as [He _].
    { apply (ready_ext _ scope); [done|apply Hr|lia]. }
    rewrite ext_next in He. destruct (cexpr scope slots e m) as [[[c2 v] m2]|]; cbn [mbind option_bind emits emits_stmt] in *.
    2: { destruct (generate_expr e scope slots _). cbn [snd] in He. he_stm. }
    rewrite He, ext_ext, alloc_spec, ext_next.
    destruct (alloc m2) as [[b m3]|]; cbn [mbind option_bind emits_stmt]; [|he_stm].
    rewrite emit_ext, !ext_ext, alloc_spec, !ext_next.
    destruct (alloc m3) as [[tr m4]|]; cbn [mbind option_bind emits_stmt]; [|he_stm].
    rewrite !emit_ext, ext_set, !ext_ext. cbn [app]. by rewrite <- !app_assoc.
  - unfold pop, push. rewrite alloc_spec. pose proof (ready_next _ _ Hr) as Hnx.
    destruct (alloc (next_reg g)) as [[tr m]|] eqn:Et; cbn [mbind option_bind emits_stmt].
    2: { set (g1 := emit (raise g RegisterExhausted) Isa.Pop 30 0 0 0).
         assert (has_error g1 = true) as H1 by apply he_raise. destruct e as [e|].
         - rewrite he_expr by done. he_end.
         - apply he_alloc in H1. destruct (alloc_reg g1). he_end. }
    apply alloc_bounds in Et as (->&->&Ht). rewrite (emit_ext (ext g [] _)), ext_ext, ext_next. cbn [app].
    destruct e as [e|].
    + destruct (expr_spec slots e (ext g [Op Isa.Pop (next_reg g) 0 0 0] (next_reg g + 1)) scope Hs) as [He _].
      { apply (ready_ext _ scope); [done|apply Hr|lia]. }
      rewrite !ext_next in *.
      destruct (cexpr scope slots e (next_reg g + 1)) as [[[c r] m]|]; cbn [mbind option_bind emits emits_stmt] in *.
      * rewrite He, !emit_ext, ext_set, !ext_ext. cbn [app]. done.
      * destruct (generate_expr e scope slots _). cbn [snd] in He. he_stm.
    + rewrite alloc_spec, !ext_next. destruct (alloc (next_reg g + 1)) as [[z m]|]; cbn [mbind option_bind emits_stmt].
      * by rewrite !emit_ext, ext_set, !ext_ext.
      * he_stm.
  - pose proof (emit_spec slots args scope g Hs (ready_error _ _ Hr) 0) as He.
    destruct (cemit _ args (next_reg g)) as [[c m]|]; cbn [mbind option_bind emits_stmt];
      destruct (traverse _ _ _ _) as [us g1]; cbn [snd] in *; [by rewrite He, ext_set|done].
  - destruct (expr_spec slots e g scope Hs Hr) as [He _].
    destruct (cexpr scope slots e (next_reg g)) as [[[c r] m]|]; cbn [mbind option_bind emits emits_stmt] in *.
    + by rewrite He, ext_set.
    + destruct (generate_expr e scope slots g). exact He.
Qed.

Lemma generate_stmt_spec slots s : ∀ outer cur, scalar_stmt outer cur s = true → stmt_spec slots s.
Proof.
  induction s as [x e|e|x e|x e|x k e|cnd t e IHt IHe|cnd b IHb|x a z b IHb|e|x args|e arms IH|e]
    using stmt_induction; intros outer cur Hs;
    try match goal with |- stmt_spec _ ?s => exact (simple_spec s outer cur slots Hs) end; cbn [scalar_stmt] in Hs.
  - apply andb_true_iff in Hs as [Hs He]. apply andb_true_iff in Hs as [Hc Ht].
    apply if_spec; [done|by eapply scalar_block|].
    destruct e as [e|]; [by eapply scalar_block|]. by apply block_emits.
  - apply andb_true_iff in Hs as [Hc Hb]. apply while_spec; [done|by eapply scalar_block].
  - repeat apply andb_true_iff in Hs as [Hs ?]. apply for_spec; [done|done|by eapply scalar_block].
  - apply andb_true_iff in Hs as [Hi Ha]. apply match_spec; [done|].
    induction IH as [|[p b] arms Hb _ IH]; [constructor|]. cbn [forallb] in Ha.
    apply andb_true_iff in Ha as [Hb1 Ha]. apply andb_true_iff in Hb1 as [_ Hb1].
    constructor; [by eapply scalar_block|by apply IH].
Qed.

(** ** Functions *)
Lemma calloc_spec {A} (ps : list A) : ∀ i g, has_error g = false →
  match calloc (length ps) (next_reg g) with
  | Some (rs, n) => traverse (λ _ (_ : A) g, alloc_reg g) i ps g = (rs, ext g [] n)
  | None => has_error (traverse (λ _ (_ : A) g, alloc_reg g) i ps g).2 = true
  end.
Proof.
  induction ps as [|a ps IH]; intros i g Hg; cbn [length calloc traverse]; [by rewrite ext_nil|].
  rewrite alloc_spec. destruct (alloc (next_reg g)) as [[r n]|]; cbn [mbind option_bind].
  - specialize (IH (S i) (ext g [] n) Hg). rewrite ext_next in IH.
    destruct (calloc (length ps) n) as [[rs m]|]; cbn [mbind option_bind]; destruct (traverse _ _ _ _) as [rs' g2].
    + injection IH as -> ->. by rewrite ext_ext.
    + done.
  - pose proof (he_traverse (λ _ (_ : A) g, alloc_reg g) ps ltac:(intros ? ? ? _; apply he_alloc) (S i)
      (raise g RegisterExhausted) (he_raise _ _)) as Ht. by destruct (traverse _ _ _ _).
Qed.

Lemma calloc_bounds k : ∀ n rs m, 1 ≤ n ≤ 31 → calloc k n = Some (rs, m) →
  rs = seqZ n (Z.of_nat k) ∧ m = n + Z.of_nat k ∧ m ≤ 31.
Proof.
  induction k as [|k IH]; intros n rs m Hn; cbn [calloc].
  - intros [= <- <-]. split; [done|lia].
  - destruct (alloc n) as [[r n1]|] eqn:E; [|done]. cbn [mbind option_bind].
    apply alloc_bounds in E as (->&->&Hr). destruct (calloc k (n + 1)) as [[rs1 m1]|] eqn:E; [|done].
    apply IH in E as (->&->&Hm); [|lia]. intros [= <- <-].
    rewrite (seqZ_cons n) by lia. split; [|lia]. f_equal; f_equal; lia.
Qed.

Lemma foldl_insert_map {A} (l : list (string * A)) :
  foldl (λ (m : gmap string A) e, <[e.1 := e.2]> m) ∅ l = list_to_map (reverse l).
Proof.
  induction l as [|e l IH] using rev_ind; [done|].
  rewrite foldl_snoc, reverse_snoc, IH. by destruct e.
Qed.

Lemma param_scope_spec g ps rs : struct_layouts g = ∅ → length rs = length ps →
  param_scope g (zip ps rs) = list_to_map (reverse (zip (p_name <$> ps) ((λ r, mkVarInfo r None) <$> rs))).
Proof.
  intros Hg Hl.
  transitivity (foldl (λ (m : gmap string VarInfo) e, <[e.1 := e.2]> m) ∅
    (zip (p_name <$> ps) ((λ r, mkVarInfo r None) <$> rs))); [|apply foldl_insert_map].
  change (param_scope g (zip ps rs)) with (foldl (λ (m : gmap string VarInfo) '(p, rg),
    <[p_name p := mkVarInfo rg
      (if bool_decide (is_Some (struct_layouts g !! p_ty p)) then Some (p_ty p) else None)]> m) ∅ (zip ps rs)).
  generalize (∅ : gmap string VarInfo) as m0.
  revert rs Hl. induction ps as [|p ps IH]; intros [|r rs] Hl m0; try done. simpl.
  rewrite Hg, lookup_empty. destruct (bool_decide_reflect (is_Some (@None (list string)))) as [[? ?]|_]; [done|].
  rewrite <- Hg. apply IH. simpl in Hl. lia.
Qed.

Lemma params_scope_ok (names : list string) rs : Forall (λ r, 1 ≤ r ≤ 30) rs →
  scope_ok (list_to_map (reverse (zip names ((λ r, mkVarInfo r None) <$> rs)))).
Proof.
  intros Hrs x vi Hx. apply elem_of_list_to_map_2 in Hx. rewrite elem_of_reverse in Hx.
  apply elem_of_zip_r in Hx. apply list_elem_of_fmap in Hx as (r&->&Hr). rewrite Forall_forall in Hrs. by apply Hrs.
Qed.

(** The implicit [return 0]. *)
Definition epilogue (g : Codegen) : Codegen :=
  let '(temp, g) := alloc_reg g in
  let g := pop g temp in
  let '(zero, g) := alloc_reg g in
  let g := push (emit g Isa.Load zero 0 0 0) zero in
  emit (push g temp) Isa.Ret 0 0 0 0.

Lemma he_epilogue g : has_error g = true → has_error (epilogue g) = true.
Proof.
  intros Hg. unfold epilogue. apply he_alloc in Hg. destruct (alloc_reg g) as [t g1]. cbn [snd] in Hg.
  assert (has_error (pop g1 t) = true) as H1 by exact Hg. apply he_alloc in H1.
  by destruct (alloc_reg (pop g1 t)).
Qed.

Lemma epilogue_spec g : has_error g = false →
  match '(t, n) ← alloc (next_reg g); '(z, _) ← alloc n;
        Some [Op Isa.Pop t 0 0 0; Op Isa.Load z 0 0 0; Op Isa.Push 0 z 0 0; Op Isa.Push 0 t 0 0; Op Isa.Ret 0 0 0 0] with
  | Some c => ∃ n, epilogue g = ext g c n
  | None => has_error (epilogue g) = true
  end.
Proof.
  intros Hg. unfold epilogue. rewrite alloc_spec. destruct (alloc (next_reg g)) as [[t n]|]; cbn [mbind option_bind].
  - unfold pop, push. rewrite emit_ext, ext_ext, alloc_spec, !ext_next.
    destruct (alloc n) as [[z m]|]; cbn [mbind option_bind].
    + exists m. by rewrite !emit_ext, !ext_ext.
    + rewrite !he_emit. apply he_raise.
  - pose proof (he_alloc (pop (raise g RegisterExhausted) 30) (he_raise _ _)) as H1.
    by destruct (alloc_reg (pop _ _)).
Qed.

Lemma function_spec g f c : scalar_fun f = true → has_error g = false → struct_layouts g = ∅ →
  match cfun (storage_map (storage c)) f with
  | Some code => ∃ n, generate_function g f c = ext g code n
  | None => has_error (generate_function g f c) = true
  end.
Proof.
  intros Hf Hg Hl. unfold generate_function, cfun. rewrite Hg. set (slots := storage_map (storage c)).
  change (alloc_reg (set_next_reg g 1)) with (1, set_next_reg (set_next_reg g 1) 2). cbv iota beta.
  assert (pop (set_next_reg (set_next_reg g 1) 2) 1 = ext g [Op Isa.Pop 1 0 0 0] 2) as ->.
  { unfold pop. by rewrite !set_ext, emit_ext, !ext_ext. }
  pose proof (calloc_spec (params f) 0 (ext g [Op Isa.Pop 1 0 0 0] 2) Hg) as Hp. rewrite ext_next in Hp.
  destruct (calloc (length (params f)) 2) as [[rs n]|] eqn:Ec; cbn [mbind option_bind].
  2: { destruct (traverse _ 0 (params f) _) as [rs g1]. cbn [snd] in Hp.
       rewrite he_block by (unfold push; rewrite he_emit, he_pops; exact Hp).
       apply (he_epilogue (push (foldl pop g1 (reverse rs)) 1)). unfold push. by rewrite he_emit, he_pops. }
  rewrite Hp, pop_ext, ext_ext, !ext_next, ext_ext. rewrite push1_ext, ext_ext, ext_next.
  apply calloc_bounds in Ec as (Hrs&->&Hn); [|lia].
  rewrite param_scope_spec; [|done|rewrite Hrs, length_seqZ; lia].
  set (scope := list_to_map _). set (code := ([Op Isa.Pop 1 0 0 0] ++ [] ++ _) ++ _).
  assert (scope_ok scope) as Hok.
  { apply params_scope_ok. rewrite Hrs. apply Forall_forall. intros r Hin%elem_of_seqZ. lia. }
  assert (block_spec slots (body f)) as Hb.
  { unfold scalar_fun in Hf. apply andb_true_iff in Hf as [_ Hf]. eapply scalar_block; [|exact Hf].
    apply Forall_forall. intros s _ outer cur. apply generate_stmt_spec. }
  specialize (Hb scope (ext g code (2 + Z.of_nat (length (params f)))) ltac:(split; [done|done|done|rewrite ext_next; lia])).
  rewrite ext_next in Hb.
  destruct (cblock (cstmt slots) (body f) scope _) as [[[cb sc1] n1]|]; cbn [mbind option_bind emits_stmt] in *.
  2: { destruct (block _ (body f) _ _) as [sc1 g1]. cbn [snd] in Hb. by apply (he_epilogue g1). }
  rewrite Hb, ext_ext. pose proof (epilogue_spec (ext g (code ++ cb) n1) Hg) as He. rewrite ext_next in He.
  destruct (alloc n1) as [[t m]|]; cbn [mbind option_bind] in *; [|exact He].
  destruct (alloc m) as [[z m']|]; cbn [mbind option_bind] in *; [|exact He].
  destruct He as [k He]. exists k. transitivity (epilogue (ext g (code ++ cb) n1)); [done|]. rewrite He, ext_ext.
  f_equal. unfold code. cbn [app]. by rewrite <- !app_assoc.
Qed.

End GenLemmas.
