(* ===== verification/CompilerLink.v ===== *)
(** * Linking

    [Codegen.generate] places the functions one after the other, then patches
    the call of [main] and every recorded call with the distance to its
    target.  On a scalar contract the words it returns are the structured
    code with every call linked. *)
From stdpp Require Import base tactics numbers list gmap strings.
From Stdlib Require Import ZArith Lia.
From S2P Require Import Prelude Isa Vm Compiler CompilerSem CompilerCode CompilerGen.
Import Ast Codegen Scalar Code CodeLemmas GenLemmas.
Open Scope Z_scope.

Module LinkLemmas.
#[local] Arguments Isa.encode : simpl never.
#[local] Arguments emit : simpl never.
#[local] Arguments has_error : simpl never.
#[local] Arguments ext : simpl never.

Lemma he_function g f c : has_error g = true → generate_function g f c = g.
Proof. intros Hg. unfold generate_function. by rewrite Hg. Qed.

Lemma he_functions c fs : ∀ offs g, has_error g = true →
  has_error (foldl (generate_functions c) (offs, g) fs).2 = true.
Proof.
  induction fs as [|f fs IH]; intros offs g Hg; [done|]. cbn [foldl generate_functions].
  rewrite he_function by done. by apply IH.
Qed.

Lemma functions_spec c fs : forallb scalar_fun fs = true → ∀ offs g,
  has_error g = false → struct_layouts g = ∅ →
  match cfuns (storage_map (storage c)) fs (here g) offs with
  | Some (cs, offs') => ∃ n, foldl (generate_functions c) (offs, g) fs = (offs', ext g cs n)
  | None => has_error (foldl (generate_functions c) (offs, g) fs).2 = true
  end.
Proof.
  induction fs as [|f fs IH]; intros Hs offs g Hg Hl; cbn [cfuns foldl generate_functions].
  { exists (next_reg g). by rewrite ext_nil. }
  cbn [forallb] in Hs. apply andb_true_iff in Hs as [Hf Hs].
  pose proof (function_spec g f c Hf Hg Hl) as H.
  destruct (cfun (storage_map (storage c)) f) as [code|]; cbn [mbind option_bind].
  - destruct H as [n ->]. specialize (IH Hs (<[fn_name f := here g]> offs) (ext g code n) Hg Hl).
    rewrite ext_here in IH. destruct (cfuns _ fs _ _) as [[cs offs']|]; cbn [mbind option_bind]; [|done].
    destruct IH as [m ->]. exists m. by rewrite ext_ext.
  - by apply he_functions.
Qed.

Lemma he_call offs g u : has_error g = true → has_error (patch_call offs g u) = true.
Proof. intros Hg. unfold patch_call. destruct (offs !! u.2); [by apply he_patched|done]. Qed.

Lemma he_calls offs l : ∀ g, has_error g = true → has_error (foldl (patch_call offs) g l) = true.
Proof. apply he_fold. intros g u. apply he_call. Qed.

Definition word (offs : gmap string nat) (pos : nat) (i : instr) : Z := Isa.encode (link offs pos i).

Lemma call_word offs f pos target : offs !! f = Some target →
  Isa.encode (inst Isa.Call 0 0 0 (rel target pos)) = word offs pos (CallTo f).
Proof. intros Hf. unfold word, link. rewrite Hf. apply encode_mod, rel_mod. Qed.

(** Patching the recorded calls of [c] links [c]. *)
Lemma calls_linked offs c : ∀ pre g, has_error g = false → instructions g = pre ++ (enc <$> c) →
  has_error (foldl (patch_call offs) g (calls_of (length pre) c)) = false →
  instructions (foldl (patch_call offs) g (calls_of (length pre) c)) =
    pre ++ imap (λ k, word offs (length pre + k)) c ∧
  ∀ f, CallTo f ∈ c → is_Some (offs !! f).
Proof.
  induction c as [|i c IH]; intros pre g Hg Hi He; cbn [calls_of foldl imap] in *.
  { split; [done|]. intros f []%not_elem_of_nil. }
  destruct i as [op rd rs1 rs2 imm|f].
  - specialize (IH (pre ++ [enc (Op op rd rs1 rs2 imm)]) g Hg). rewrite length_app in IH. cbn [length] in IH.
    rewrite Nat.add_1_r in IH. rewrite <- app_assoc in IH. specialize (IH Hi He) as [IH1 IH2].
    split.
    + rewrite IH1, <- app_assoc, Nat.add_0_r. cbn [app]. do 2 f_equal. apply imap_ext. intros k j _. simpl. f_equal. lia.
    + intros f [Hf|Hf]%elem_of_cons; [done|by apply IH2].
  - cbn [foldl] in *. unfold patch_call at 2 in He. unfold patch_call at 2. cbn [fst snd] in *.
    destruct (offs !! f) as [target|] eqn:Hf.
    2: { rewrite he_calls in He; done. }
    assert (instructions g !! length pre = Some (Isa.encode (inst Isa.Call 0 0 0 0))) as Hw.
    { rewrite Hi. cbn [fmap list_fmap]. by rewrite list_lookup_middle. }
    rewrite (patch_at _ _ _ _ _ _ _ _ Hg regs_jmp Hw) in He |- *.
    specialize (IH (pre ++ [word offs (length pre) (CallTo f)])
      (set_instructions g (<[length pre := Isa.encode (inst Isa.Call 0 0 0 (rel target (length pre)))]> (instructions g))) Hg).
    rewrite length_app in IH. cbn [length] in IH. rewrite Nat.add_1_r in IH. rewrite <- app_assoc in IH.
    specialize (IH ltac:(simpl; rewrite Hi, <- (Nat.add_0_r (length pre)), insert_app_r; cbn [insert list_insert fmap list_fmap];
      rewrite Nat.add_0_r; by rewrite (call_word offs f)) He) as [IH1 IH2].
    split.
    + rewrite IH1, <- app_assoc, Nat.add_0_r. cbn [app]. do 2 f_equal. apply imap_ext. intros k j _. simpl. f_equal. lia.
    + intros f' [[= ->]|Hf']%elem_of_cons; [done|by apply IH2].
Qed.

(** The generator of a scalar contract returns the linked code. *)
Lemma generate_spec p c prog : scalar_contract c = true →
  generate (new_with_profile p) c = Some (Ok prog) →
  ∃ code offs, ccontract c = Some (code, offs) ∧ (∀ f, CallTo f ∈ code → is_Some (offs !! f)) ∧
    prog = imap (word offs) code.
Proof.
  unfold scalar_contract. intros Hs. apply andb_true_iff in Hs as [Hs _]. apply andb_true_iff in Hs as [Hst Hf].
  apply Nat.eqb_eq, nil_length_inv in Hst. unfold generate.
  set (g0 := register_tables (new_with_profile p) c).
  assert (has_error g0 = false) as Hg0 by done.
  assert (struct_layouts g0 = ∅) as Hl0 by (unfold g0; simpl; by rewrite Hst).
  assert (next_reg g0 = 1 ∧ instructions g0 = [] ∧ unpatched_calls g0 = []) as (Hn0&Hi0&Hu0) by done.
  clearbody g0. rewrite !emit_ext, !ext_ext, !ext_next. cbn [app].
  assert (here (ext g0 [Op Isa.Load 31 0 0 HEAP_BASE] (next_reg g0)) = 1%nat) as ->.
  { rewrite ext_here. unfold here. by rewrite Hi0. }
  pose proof (functions_spec c (functions c) Hf ∅ (ext g0
    [Op Isa.Load 31 0 0 HEAP_BASE; Op Isa.Call 0 0 0 0; Op Isa.Halt 0 0 0 0] (next_reg g0)) Hg0 Hl0) as H.
  assert (∀ l, here (ext g0 l (next_reg g0)) = length l) as Hh.
  { intros l. rewrite ext_here. unfold here. by rewrite Hi0. }
  rewrite Hh in H. unfold ccontract. change (length prologue) with (length
    [Op Isa.Load 31 0 0 HEAP_BASE; Op Isa.Call 0 0 0 0; Op Isa.Halt 0 0 0 0]).
  destruct (foldl (generate_functions c) _ _) as [offs g1].
  intros Hgen. set (g2 := match offs !! "main" with Some m => _ | None => _ end) in Hgen.
  destruct (panicked _); [done|].
  assert (has_error (foldl (patch_call offs) (set_calls g2 []) (unpatched_calls g2)) = false ∧
    prog = instructions (foldl (patch_call offs) (set_calls g2 []) (unpatched_calls g2))) as [He ->].
  { unfold has_error. destruct (error _) eqn:Her; [done|]. injection Hgen as <-. split; [|done].
    apply bool_decide_eq_false_2. intros Hne. by apply Hne. }
  clear Hgen.
  assert (has_error g2 = false) as Hg2.
  { destruct (has_error g2) eqn:H2; [|done]. rewrite he_calls in He; done. }
  destruct (offs !! "main") as [main|] eqn:Hm; [|done].
  destruct (cfuns _ _ _ _) as [[cs offs']|]; cbn [mbind option_bind].
  2: { cbn [snd] in H. unfold g2 in Hg2. by rewrite he_patched in Hg2. }
  destruct H as [n [= <- ->]].
  eexists _, _. split; [done|].
  assert (g2 = ext g0 ([Op Isa.Load 31 0 0 HEAP_BASE; Op Isa.Call 0 0 0 (Z.of_nat main - 1); Op Isa.Halt 0 0 0 0] ++ cs) n) as Hg2e.
  { unfold g2. rewrite ext_ext. cbn [app]. apply (patch_spec g0 [Op Isa.Load 31 0 0 HEAP_BASE]); [done|apply regs_jmp| |].
    - unfold here. by rewrite Hi0.
    - rewrite rel_mod. done. }
  clearbody g2. subst g2.
  set (pre := [Op Isa.Load 31 0 0 HEAP_BASE; Op Isa.Call 0 0 0 (Z.of_nat main - 1); Op Isa.Halt 0 0 0 0]) in *.
  assert (unpatched_calls (ext g0 (pre ++ cs) n) = calls_of (length (enc <$> pre)) cs) as Hu.
  { unfold ext, here. simpl. by rewrite Hu0, Hi0. }
  rewrite Hu in He |- *.
  destruct (calls_linked offs cs (enc <$> pre) (set_calls (ext g0 (pre ++ cs) n) []) Hg0
    ltac:(unfold ext; simpl; by rewrite Hi0) He) as [Hi Hc].
  split.
  - intros f [Hin|Hin]%elem_of_app; [|by apply Hc]. unfold prologue in Hin.
    repeat (apply elem_of_cons in Hin as [Hin|Hin]; [try done|]); [|by apply not_elem_of_nil in Hin].
    injection Hin as ->. by rewrite Hm.
  - rewrite Hi, imap_app. f_equal. unfold prologue, word. cbn [imap link pre fmap list_fmap enc]. unfold compose. cbn [link]. by rewrite Hm.
Qed.

End LinkLemmas.
