(* ===== verification/CompilerMachine.v ===== *)
(** * The machine under compiled code

    The part of the virtual machine that compiled scalar code uses: program
    counter, registers, stack and world.  [Machine] is its step on linked
    structured code, and what it means for a fragment to run to a condition;
    [MachineVm] shows that [Vm.step] on the encoded words does the same. *)
From stdpp Require Import base tactics numbers list gmap strings.
From Stdlib Require Import ZArith Lia.
From S2P Require Import Prelude Isa Vm Goldilocks VmProps Compiler CompilerSem CompilerCode CompilerGen CompilerLink.
Import Code.
Open Scope Z_scope.

Module Machine.
Import Field Sem.

Record core := mkCore {
  k_pc : nat;
  k_regs : Z → Z;
  k_stack : list Z;
  k_world : World;
}.

Definition get (regs : Z → Z) (r : Z) : Z := if r =? 0 then 0 else regs r.
Definition upd (regs : Z → Z) (r v : Z) : Z → Z := λ x, if x =? r then v else regs x.

Inductive move := Go (k : core) | Stop (e : Vm.VmError) | End.

Definition slot (imm b : Z) : Z := if imm =? -1 then Isa.as_i32 b else imm.

Definition alu (op : Isa.Opcode) (a b : Z) : option Z :=
  match op with
  | Isa.Add => Some (binary Ast.BAdd a b)
  | Isa.Sub => Some (binary Ast.BSub a b)
  | Isa.Mul => Some (binary Ast.BMul a b)
  | Isa.Div => Some (binary Ast.BDiv a b)
  | Isa.Eq => Some (binary Ast.BEq a b)
  | Isa.Neq => Some (binary Ast.BNeq a b)
  | Isa.Lt => Some (binary Ast.BLt a b)
  | Isa.Gt => Some (binary Ast.BGt a b)
  | Isa.Lte => Some (binary Ast.BLte a b)
  | Isa.Gte => Some (binary Ast.BGte a b)
  | Isa.Poseidon => Some (poseidon4_hash a b)
  | _ => None
  end.

Section machine.
Context (code : list instr) (offs : gmap string nat) (ctx : Vm.Context).

Definition write (k : core) (rd v : Z) : move :=
  Go (mkCore (S (k_pc k)) (upd (k_regs k) rd v) (k_stack k) (k_world k)).
Definition next (k : core) (w : World) : move := Go (mkCore (S (k_pc k)) (k_regs k) (k_stack k) w).
Definition goto (k : core) (imm : Z) : option move :=
  let target := Z.of_nat (k_pc k) + imm in
  if 0 <=? target then Some (Go (mkCore (Z.to_nat target) (k_regs k) (k_stack k) (k_world k))) else None.
Definition pushed (k : core) (v : Z) (pc : nat) : move :=
  if (1024 <=? length (k_stack k))%nat then Stop Vm.StackOverflow
  else Go (mkCore pc (k_regs k) (v :: k_stack k) (k_world k)).

Definition cexec (i : instr) (k : core) : option move :=
  match i with
  | CallTo f => target ← offs !! f; Some (pushed k (Z.of_nat (S (k_pc k))) target)
  | Op op rd rs1 rs2 imm =>
      let a := get (k_regs k) rs1 in
      let b := get (k_regs k) rs2 in
      let w := k_world k in
      match op with
      | Isa.Halt => Some End
      | Isa.Load => if rs1 =? 0 then Some (write k rd (as_u64 imm)) else None
      | Isa.SRead => Some (write k rd (load w (slot imm b)))
      | Isa.SWrite => Some (next k (store w (slot imm b) a))
      | Isa.Log => Some (next k (log w a))
      | Isa.Syscall =>
          match imm with
          | 1 => Some (write k rd (Vm.sender ctx))
          | 2 => Some (write k rd (Vm.block_height ctx))
          | 3 => Some (write k rd (Vm.nonce ctx))
          | _ => None
          end
      | Isa.Jmp => goto k imm
      | Isa.Jnz => if a =? 0 then Some (next k w) else goto k imm
      | Isa.Push => Some (pushed k a (S (k_pc k)))
      | Isa.Pop =>
          match k_stack k with
          | v :: stk => Some (Go (mkCore (S (k_pc k)) (upd (k_regs k) rd v) stk w))
          | [] => None
          end
      | Isa.Ret =>
          match k_stack k with
          | target :: stk =>
              if 0 <=? target then Some (Go (mkCore (Z.to_nat target) (k_regs k) stk w)) else None
          | [] => None
          end
      | Isa.Assert => Some (if a =? 0 then Stop Vm.AssertionFailed else next k w)
      | op => v ← alu op a b; Some (write k rd v)
      end
  end.

Definition cstep (k : core) : option move := i ← code !! k_pc k; cexec i k.

(** Where a fragment ends: at a state, or by a failed assertion. *)
Inductive ending := At (k : core) | Failed (w : World).

(** From [k] the machine reaches an ending with [Q], or runs out of stack. *)
Inductive runs (Q : ending → Prop) : core → Prop :=
  | runs_now k : Q (At k) → runs Q k
  | runs_step k k' : cstep k = Some (Go k') → runs Q k' → runs Q k
  | runs_abort k : cstep k = Some (Stop Vm.AssertionFailed) → Q (Failed (k_world k)) → runs Q k
  | runs_overflow k : cstep k = Some (Stop Vm.StackOverflow) → runs Q k.

Lemma runs_bind Q R k : runs Q k → (∀ k', Q (At k') → runs R k') →
  (∀ w, Q (Failed w) → R (Failed w)) → runs R k.
Proof.
  intros H HQ HF. induction H as [k H|k k' Hs _ IH|k Hs H|k Hs].
  - by apply HQ.
  - by apply (runs_step _ k k').
  - apply runs_abort; [done|by apply HF].
  - by apply runs_overflow.
Qed.

Lemma runs_mono Q R k : runs Q k → (∀ e, Q e → R e) → runs R k.
Proof. intros H HQR. apply (runs_bind Q); [done|..]; intros; [apply runs_now|]; by apply HQR. Qed.
End machine.

End Machine.

(** ** The virtual machine does these steps *)
Module MachineVm.
Import Machine Sem VmLemmas.
#[local] Arguments Isa.encode : simpl never.

(** The fields of the machine the core has. *)
Record at_core (ctx : Vm.Context) (k : core) (vm : Vm.Vm) : Prop := {
  at_running : Vm.halted vm = false;
  at_pc : Vm.pc vm = Z.of_nat (k_pc k);
  at_regs : ∀ r, 1 ≤ r < 32 → Vm.registers vm !! Z.to_nat r = Some (k_regs k r);
  at_stack : Vm.stack vm = k_stack k;
  at_storage : Vm.storage vm = w_storage (k_world k);
  at_writes : Vm.state_writes vm = w_writes (k_world k);
  at_events : Vm.events vm = w_events (k_world k);
  at_context : Vm.context vm = ctx;
}.

(** An instruction that fits its encoding. *)
Definition instr_ok (i : instr) : Prop :=
  match i with
  | Op op rd rs1 rs2 imm =>
      (1 ≤ rd < 32 ∨ writes_rd op = false ∧ rd = 0) ∧ 0 ≤ rs1 < 32 ∧ 0 ≤ rs2 < 32 ∧ i32 imm ∧
      Isa.requires_mainnet_activation op = false
  | CallTo _ => True
  end.

Lemma cleared_at ctx k vm : at_core ctx k vm → at_core ctx k (cleared vm).
Proof.
  intros []. split; try done. intros r Hr. simpl. rewrite list_lookup_insert_ne by lia. auto.
Qed.

Lemma regs_read ctx k vm r : at_core ctx k vm → length (Vm.registers vm) = 32%nat → 0 ≤ r < 32 →
  Vm.reg (cleared vm) r = Some (get (k_regs k) r).
Proof.
  intros Hs Hl Hr. unfold Vm.reg, cleared, get. simpl. destruct (Z.eqb_spec r 0) as [->|Hne].
  - apply list_lookup_insert_eq. lia.
  - rewrite list_lookup_insert_ne by lia. apply Hs. lia.
Qed.

(** A register write. *)
Lemma write_at ctx k vm rd v : at_core ctx k vm → length (Vm.registers vm) = 32%nat → 1 ≤ rd < 32 →
  ∃ o vm', Vm.write_rd vm rd v = Some (Ok o, vm') ∧
    at_core ctx (mkCore (S (k_pc k)) (upd (k_regs k) rd v) (k_stack k) (k_world k)) vm'.
Proof.
  intros [] Hl Hr. unfold Vm.write_rd, Vm.set_reg. rewrite Hl.
  rewrite (proj2 (Z.leb_le _ _)), (proj2 (Z.ltb_lt _ _)) by lia. cbn [andb mbind option_bind].
  eexists _, _. split; [done|]. split; simpl; try done; [lia|].
  intros r Hr'. unfold upd. destruct (Z.eqb_spec r rd) as [->|Hne].
  - apply list_lookup_insert_eq. lia.
  - rewrite list_lookup_insert_ne by lia. auto.
Qed.

Lemma target_u64 (t : Z) : 0 ≤ t < 2 ^ 63 → as_u64 t = t.
Proof. intros Ht. unfold as_u64. apply Z.mod_small. lia. Qed.

Section one_step.
Context (code : list instr) (offs : gmap string nat) (ctx : Vm.Context).
Hypothesis Hlen : Z.of_nat (length code) < 2 ^ 31.
Hypothesis Hcode : Forall instr_ok code.
Hypothesis Hoffs : ∀ f t, offs !! f = Some t → (t ≤ length code)%nat.

Definition prog : list Z := imap (LinkLemmas.word offs) code.

Lemma prog_ok : program_ok prog.
Proof. unfold program_ok, prog. rewrite length_imap. lia. Qed.

Lemma link_ok pos i : code !! pos = Some i → (∀ f, i = CallTo f → is_Some (offs !! f)) →
  IsaLemmas.instruction_ok (link offs pos i).
Proof.
  intros Hi Hf. pose proof (Forall_lookup_1 _ _ _ _ Hcode Hi) as Hok. apply lookup_lt_Some in Hi.
  destruct i as [op rd rs1 rs2 imm|f]; simpl in *.
  - destruct Hok as (H1&H2&H3&H4&_). split; simpl; try done. lia.
  - destruct (Hf f eq_refl) as [t Ht]. rewrite Ht. simpl. apply Hoffs in Ht. split; simpl; lia.
Qed.

Lemma fetch mode pos i : code !! pos = Some i → (∀ f, i = CallTo f → is_Some (offs !! f)) →
  ∃ raw, prog !! pos = Some raw ∧ Vm.decode_instruction raw mode = Ok (link offs pos i).
Proof.
  intros Hi Hf. exists (LinkLemmas.word offs pos i). split.
  - unfold prog. by rewrite list_lookup_imap, Hi.
  - pose proof (IsaLemmas.word_decode _ (link_ok pos i Hi Hf)) as Hd. unfold LinkLemmas.word.
    assert (Isa.requires_mainnet_activation (Isa.opcode (link offs pos i)) = false) as Hreq.
    { pose proof (Forall_lookup_1 _ _ _ _ Hcode Hi) as Hok. destruct i; simpl in *; [tauto|done]. }
    unfold Vm.decode_instruction, Isa.decode_for_mainnet, Isa.decode, Isa.decode_for_profile, Isa.allows.
    rewrite Hd. cbn. destruct mode; [|done]. by rewrite Hreq.
Qed.

(** The arms of [exec] against the core. *)
Lemma exec_go i k k' vm : at_core ctx k vm → length (Vm.registers vm) = 32%nat → instr_ok i →
  (k_pc k < length code)%nat → cexec offs ctx i k = Some (Go k') →
  ∃ o vm', Vm.exec vm (link offs (k_pc k) i)
      (get (k_regs k) (Isa.rs1 (link offs (k_pc k) i))) (get (k_regs k) (Isa.rs2 (link offs (k_pc k) i))) =
      Some (Ok o, vm') ∧ at_core ctx k' vm'.
Proof.
  intros Hat Hl Hok Hpc. pose proof Hat as [Hr Hp Hg Hst Hsto Hw He Hc].
  assert (∀ imm k', goto k imm = Some (Go k') → i32 imm →
    ∃ o vm', Vm.finish vm (Vm.outcome 0 (Vm.jump_target (Vm.pc vm) imm)) = Some (Ok o, vm') ∧ at_core ctx k' vm') as Hgoto.
  { intros imm k1. unfold goto, i32. destruct (Z.leb_spec 0 (Z.of_nat (k_pc k) + imm)); [|done]. intros [= <-] Hi.
    eexists _, _. split; [done|]. split; simpl; try done. unfold Vm.jump_target. rewrite Hp, target_u64 by lia. lia. }
  destruct i as [op rd rs1 rs2 imm|f]; cbn [cexec].
  - destruct Hok as (Hrd&H1&H2&Himm&Hact).
    assert (∀ v, writes_rd op = true → Some (write k rd v) = Some (Go k') →
      ∃ o vm', Vm.write_rd vm rd v = Some (Ok o, vm') ∧ at_core ctx k' vm') as Hwr.
    { intros v Hwo [= <-]. apply write_at; [done..|]. destruct Hrd as [|[? _]]; [done|congruence]. }
    unfold Vm.exec. cbn [link inst Isa.opcode Isa.rd Isa.rs1 Isa.rs2 Isa.imm].
    destruct op; try done; cbn [alu mbind option_bind]; try by apply Hwr.
    + rewrite if_negb. by apply Hwr.
    + intros Hk. by apply Hgoto.
    + destruct (get (k_regs k) rs1 =? 0); cbn [negb].
      * intros [= <-]. eexists _, _. split; [done|]. split; simpl; try done. lia.
      * intros Hk. by apply Hgoto.
    + destruct (k_stack k) as [|t stk]; [done|]. rewrite Hst. destruct (Z.leb_spec 0 t); [|done]. intros [= <-].
      eexists _, _. split; [done|]. split; simpl; try done. lia.
    + unfold Vm.exec_load. cbn [link inst Isa.opcode Isa.rd Isa.rs1 Isa.rs2 Isa.imm].
      destruct (rs1 =? 0); [|done]. by apply Hwr.
    + unfold pushed. rewrite Hst. destruct (1024 <=? length (k_stack k))%nat; [done|]. intros [= <-].
      eexists _, _. split; [done|]. split; simpl; try done; lia.
    + destruct (k_stack k) as [|t stk] eqn:Hk; [done|]. rewrite Hst. intros [= <-].
      destruct (write_at ctx (mkCore (k_pc k) (k_regs k) stk (k_world k)) (Vm.set_stack vm stk) rd t) as (o&vm'&Ho&Hvm');
        [by split|done| |by exists o, vm'].
      destruct Hrd as [|[? _]]; done.
    + destruct (get (k_regs k) rs1 =? 0); [done|]. intros [= <-].
      eexists _, _. split; [done|]. split; simpl; try done. lia.
    + intros [= <-]. eexists _, _. split; [done|]. split; simpl; try done; [lia|by rewrite He].
    + unfold Vm.slot_of. cbn [inst Isa.imm]. rewrite Hsto. by apply Hwr.
    + intros [= <-]. eexists _, _. split; [done|]. split; simpl; try done; [lia|by rewrite Hsto|by rewrite Hw].
    + unfold Vm.syscall. rewrite Hc. destruct imm as [|[[| |]|[| |]|]|]; try done; by apply Hwr.
  - destruct (offs !! f) as [t|] eqn:Ht; [|done]. cbn [mbind option_bind]. unfold pushed, Vm.exec.
    cbn [link inst Isa.opcode Isa.imm]. rewrite Hst. destruct (1024 <=? length (k_stack k))%nat; [done|]. intros [= <-].
    rewrite Ht. apply Hoffs in Ht. eexists _, _. split; [done|]. split; simpl; try done.
    + unfold Vm.jump_target. rewrite Hp, target_u64; lia.
    + rewrite Hp. f_equal. lia.
Qed.

Lemma exec_stop i k e vm : at_core ctx k vm → cexec offs ctx i k = Some (Stop e) →
  Vm.exec vm (link offs (k_pc k) i)
    (get (k_regs k) (Isa.rs1 (link offs (k_pc k) i))) (get (k_regs k) (Isa.rs2 (link offs (k_pc k) i))) =
    Some (Err e, Vm.halt_with vm e).
Proof.
  intros [Hr Hp Hg Hst Hsto Hw He Hc].
  assert (∀ k imm, goto k imm ≠ Some (Stop e)) as Hgo.
  { intros k0 imm. unfold goto. by destruct (0 <=? _). }
  destruct i as [op rd rs1 rs2 imm|f]; cbn [cexec].
  - unfold Vm.exec. cbn [link inst Isa.opcode Isa.rd Isa.rs1 Isa.rs2 Isa.imm].
    destruct op; try done; cbn [alu mbind option_bind].
    + intros H. by apply Hgo in H.
    + destruct (_ =? 0); [done|]. intros H. by apply Hgo in H.
    + destruct (k_stack k); [done|]. by destruct (0 <=? z).
    + by destruct (rs1 =? 0).
    + unfold pushed. rewrite Hst. destruct (1024 <=? length (k_stack k))%nat; [|done]. by intros [= <-].
    + by destruct (k_stack k).
    + destruct (get (k_regs k) rs1 =? 0); [|done]. by intros [= <-].
    + by destruct imm as [|[[| |]|[| |]|]|].
  - destruct (offs !! f) as [t|]; [|done]. cbn [mbind option_bind]. unfold pushed, Vm.exec.
    cbn [link inst Isa.opcode]. rewrite Hst. destruct (1024 <=? length (k_stack k))%nat; [|done]. by intros [= <-].
Qed.

Lemma exec_end i k vm : cexec offs ctx i k = Some End →
  Vm.exec vm (link offs (k_pc k) i)
    (get (k_regs k) (Isa.rs1 (link offs (k_pc k) i))) (get (k_regs k) (Isa.rs2 (link offs (k_pc k) i))) =
    Vm.finish (Vm.set_halted vm) (Vm.outcome 0 (Vm.pc vm)).
Proof.
  assert (∀ k imm, goto k imm ≠ Some End) as Hgo.
  { intros k0 imm. unfold goto. by destruct (0 <=? _). }
  assert (∀ k v t, pushed k v t ≠ End) as Hpu.
  { intros k0 v t. unfold pushed. by destruct (1024 <=? _)%nat. }
  destruct i as [op rd rs1 rs2 imm|f]; cbn [cexec].
  - unfold Vm.exec. cbn [link inst Isa.opcode Isa.rd Isa.rs1 Isa.rs2 Isa.imm].
    destruct op; try done; cbn [alu mbind option_bind].
    + intros H. by apply Hgo in H.
    + destruct (_ =? 0); [done|]. intros H. by apply Hgo in H.
    + destruct (k_stack k); [done|]. by destruct (0 <=? z).
    + by destruct (rs1 =? 0).
    + intros H. injection H as H. by apply Hpu in H.
    + by destruct (k_stack k).
    + by destruct (get (k_regs k) rs1 =? 0).
    + by destruct imm as [|[[| |]|[| |]|]|].
  - destruct (offs !! f) as [t|]; [|done]. cbn [mbind option_bind]. intros H. injection H as H. by apply Hpu in H.
Qed.

(** A step up to the execution of its instruction. *)
Lemma step_exec k i vm : vm_ok vm → at_core ctx k vm → code !! k_pc k = Some i →
  (∀ f, i = CallTo f → is_Some (offs !! f)) → Vm.gas_used vm + 12 ≤ Vm.gas_limit vm →
  ∃ g vm1, Vm.gas_used vm ≤ g ≤ Vm.gas_used vm + 12 ∧ vm1 = Vm.set_gas (cleared vm) g ∧ vm_ok vm1 ∧ at_core ctx k vm1 ∧
    ∃ r vm2, Vm.exec vm1 (link offs (k_pc k) i) (get (k_regs k) (Isa.rs1 (link offs (k_pc k) i)))
        (get (k_regs k) (Isa.rs2 (link offs (k_pc k) i))) = Some (r, vm2) ∧
      exec_post vm1 (link offs (k_pc k) i) r vm2 ∧
      match r with
      | Err e => Vm.step vm prog = Some (Err e, vm2)
      | Ok o => ∃ t, Vm.step vm prog = Some (Ok tt, Vm.set_trace (cleared vm2) t)
      end.
Proof.
  intros Hok Hat Hi Hf Hgas. destruct (fetch (Vm.mainnet_mode vm) (k_pc k) i Hi Hf) as (raw&Hraw&Hdec).
  pose proof (link_ok (k_pc k) i Hi Hf) as Hlk.
  set (ins := link offs (k_pc k) i) in *. pose proof (gas_cost_nonneg (Isa.opcode ins)) as Hc.
  set (g := Vm.gas_used vm + Vm.gas_cost (Isa.opcode ins)). exists g, (Vm.set_gas (cleared vm) g).
  pose proof (ok_gas_used _ Hok) as Hgu. pose proof (ok_gas_limit _ Hok) as Hgl.
  assert (vm_ok (Vm.set_gas (cleared vm) g)) as Hok1.
  { apply set_gas_ok; [by apply cleared_ok|]. unfold g. int_lia. }
  assert (at_core ctx k (Vm.set_gas (cleared vm) g)) as Hat1.
  { pose proof (cleared_at ctx k vm Hat) as []. by split. }
  split; [unfold g; lia|]. split; [done|]. split; [done|]. split; [done|].
  set (vm1 := Vm.set_gas (cleared vm) g) in *.
  assert (∀ r, 0 ≤ r < 32 → Vm.reg vm1 r = Some (get (k_regs k) r)) as Hread.
  { intros r Hr. apply (regs_read ctx); [done|apply Hok|done]. }
  assert (∀ r, 0 ≤ r < 32 → u64 (get (k_regs k) r)) as Hu.
  { intros r Hr. destruct (reg_Some vm1 r Hok1 Hr) as (v&Hv&Hu). rewrite Hread in Hv by done. by injection Hv as <-. }
  pose proof (at_pc _ _ _ Hat) as Hpc. apply lookup_lt_Some in Hi as Hlt.
  destruct (exec_total vm1 ins Hok1 ltac:(change (Vm.pc vm1) with (Vm.pc vm); lia) Hlk
    (get (k_regs k) (Isa.rs1 ins)) (get (k_regs k) (Isa.rs2 ins))) as (r&vm2&Hex&Hpost);
    [apply Hu, Hlk|apply Hu, Hlk|].
  exists r, vm2. split; [done|]. split; [done|].
  assert (Vm.step vm prog =
    match r with
    | Err e => Some (Err e, vm2)
    | Ok o =>
         vm ← Vm.zero_r0 vm2;
         vm ← Vm.expand (Vm.set_trace vm (Vm.trace vm ++ [Vm.row vm (Vm.pc vm1) ins
                (get (k_regs k) (Isa.rs1 ins)) (get (k_regs k) (Isa.rs2 ins)) o]))
                ins (Vm.pc vm1) (get (k_regs k) (Isa.rs1 ins)) (get (k_regs k) (Isa.rs2 ins));
         Some (Ok tt, vm)
    end) as Hstep.
  { unfold Vm.step. rewrite zero_r0_Some by done. cbn [mbind option_bind].
    change (Vm.halted (cleared vm)) with (Vm.halted vm). rewrite (at_running _ _ _ Hat).
    change (Vm.pc (cleared vm)) with (Vm.pc vm). rewrite Hpc.
    rewrite (proj2 (Z.leb_gt _ _)) by (unfold prog; rewrite length_imap; lia).
    rewrite Nat2Z.id, Hraw. cbn [mbind option_bind]. change (Vm.mainnet_mode (cleared vm)) with (Vm.mainnet_mode vm).
    rewrite Hdec. unfold Vm.consume_gas. cbv zeta.
    assert (u64_sat_add (Vm.gas_used (cleared vm)) (Vm.gas_cost (Isa.opcode ins)) = g) as ->
      by (change (Vm.gas_used (cleared vm)) with (Vm.gas_used vm); unfold g; int_lia).
    change (Vm.set_gas (cleared vm) g) with vm1.
    rewrite (proj2 (Z.ltb_ge _ _)) by (change (g ≤ Vm.gas_limit vm); unfold g; lia).
    rewrite !Hread by apply Hlk. cbn [mbind option_bind]. rewrite Hex. cbn [mbind option_bind].
    change (Vm.pc vm1) with (Vm.pc vm). by rewrite Hpc. }
  destruct r as [o|e]; [|done]. rewrite Hstep.
  destruct (commit_spec vm1 ins (get (k_regs k) (Isa.rs1 ins)) (get (k_regs k) (Isa.rs2 ins)) o vm2) as (rows&Hco&_);
    [by apply cleared_r0|apply Hread, Hlk|apply Hread, Hlk|done|].
  exists (Vm.trace vm1 ++ rows). destruct (Vm.zero_r0 vm2) as [vm3|]; [|done]. cbn [mbind option_bind] in *. by rewrite Hco.
Qed.

Definition vm_world (vm : Vm.Vm) : World := mkWorld (Vm.storage vm) (Vm.state_writes vm) (Vm.events vm).

Lemma at_world k vm : at_core ctx k vm → vm_world vm = k_world k.
Proof. intros []. unfold vm_world. destruct (k_world k). simpl in *. congruence. Qed.

Lemma call_defined i k m : cexec offs ctx i k = Some m → ∀ f, i = CallTo f → is_Some (offs !! f).
Proof. intros H f ->. simpl in H. by destruct (offs !! f). Qed.

(** ** Runs *)

(** What the loop of the machine returns against a run of the core. *)
Definition finishes (Q : ending → Prop) (e : option Vm.VmError) (vm : Vm.Vm) : Prop :=
  match e with
  | None => ∃ k, Q (At k) ∧ vm_world vm = k_world k
  | Some Vm.AssertionFailed => Q (Failed (vm_world vm))
  | Some e => e = Vm.StackOverflow
  end.

Lemma runs_vm Q k : runs code offs ctx Q k → (∀ k', Q (At k') → cstep code offs ctx k' = Some End) →
  ∃ N : nat, ∀ vm fuel, vm_ok vm → at_core ctx k vm → Vm.gas_used vm + 12 * Z.of_nat N ≤ Vm.gas_limit vm →
  (N ≤ fuel)%nat → ∃ e vm', Vm.run_loop fuel vm prog = Some (e, vm') ∧ finishes Q e vm'.
Proof.
  intros Hruns Hend. induction Hruns as [k HQ|k k' Hs _ IH|k Hs HQ|k Hs].
  - specialize (Hend k HQ). unfold cstep in Hend. destruct (code !! k_pc k) as [i|] eqn:Hi; [|done]. simpl in Hend.
    exists 1%nat. intros vm fuel Hok Hat Hgas Hfuel. destruct fuel as [|fuel]; [lia|].
    destruct (step_exec k i vm Hok Hat Hi (call_defined _ _ _ Hend) ltac:(lia)) as (g&vm1&Hg&Hvm1&Hok1&Hat1&r&vm2&Hex&_&Hst).
    rewrite (exec_end i k vm1 Hend) in Hex. injection Hex as <- <-. destruct Hst as [t Hst].
    eexists None, _. cbn [Vm.run_loop]. rewrite (at_running _ _ _ Hat), Hst. cbn [mbind option_bind].
    split; [by destruct fuel|]. exists k. split; [done|]. by rewrite <- (at_world k vm1 Hat1).
  - destruct IH as [N IH]. unfold cstep in Hs. destruct (code !! k_pc k) as [i|] eqn:Hi; [|done]. simpl in Hs.
    exists (S N). intros vm fuel Hok Hat Hgas Hfuel. destruct fuel as [|fuel]; [lia|].
    destruct (step_exec k i vm Hok Hat Hi (call_defined _ _ _ Hs) ltac:(lia)) as (g&vm1&Hg&Hvm1&Hok1&Hat1&r&vm2&Hex&Hpost&Hst).
    pose proof (Forall_lookup_1 _ _ _ _ Hcode Hi) as Hiok. apply lookup_lt_Some in Hi.
    destruct (exec_go i k k' vm1 Hat1 (ok_regs_len _ Hok1) Hiok Hi Hs) as (o&vm2'&Hex'&Hat2).
    rewrite Hex' in Hex. injection Hex as <- <-. destruct Hst as [t Hst].
    cbn [Vm.run_loop]. rewrite (at_running _ _ _ Hat), Hst. cbn [mbind option_bind].
    apply IH.
    + apply set_trace_ok, cleared_ok, Hpost.
    + apply cleared_at in Hat2 as []. by split.
    + cbn [cleared Vm.set_trace Vm.set_registers Vm.gas_used Vm.gas_limit].
      rewrite (ep_gas _ _ _ _ Hpost), (ep_limit _ _ _ _ Hpost), Hvm1. simpl. lia.
    + lia.
  - unfold cstep in Hs. destruct (code !! k_pc k) as [i|] eqn:Hi; [|done]. simpl in Hs.
    exists 1%nat. intros vm fuel Hok Hat Hgas Hfuel. destruct fuel as [|fuel]; [lia|].
    destruct (step_exec k i vm Hok Hat Hi (call_defined _ _ _ Hs) ltac:(lia)) as (g&vm1&Hg&Hvm1&Hok1&Hat1&r&vm2&Hex&_&Hst).
    rewrite (exec_stop i k _ vm1 Hat1 Hs) in Hex. injection Hex as <- <-.
    eexists _, _. cbn [Vm.run_loop]. rewrite (at_running _ _ _ Hat), Hst. cbn [mbind option_bind]. split; [done|].
    simpl. change (vm_world (Vm.halt_with vm1 Vm.AssertionFailed)) with (vm_world vm1). by rewrite (at_world k vm1).
  - unfold cstep in Hs. destruct (code !! k_pc k) as [i|] eqn:Hi; [|done]. simpl in Hs.
    exists 1%nat. intros vm fuel Hok Hat Hgas Hfuel. destruct fuel as [|fuel]; [lia|].
    destruct (step_exec k i vm Hok Hat Hi (call_defined _ _ _ Hs) ltac:(lia)) as (g&vm1&Hg&Hvm1&Hok1&Hat1&r&vm2&Hex&_&Hst).
    rewrite (exec_stop i k _ vm1 Hat1 Hs) in Hex. injection Hex as <- <-.
    eexists _, _. cbn [Vm.run_loop]. by rewrite (at_running _ _ _ Hat), Hst.
Qed.

End one_step.
End MachineVm.

(** ** The code fits its encoding *)
Module CodeOk.
Import Ast Codegen Scalar CodeLemmas VmLemmas MachineVm.
#[local] Arguments chunks_of : simpl never.

Definition slots_ok (slots : gmap string Z) : Prop := ∀ x s, slots !! x = Some s → 0 ≤ s < 2 ^ 31.

(** One instruction whose registers and immediate are in range. *)
Ltac op_ok :=
  unfold instr_ok, jmp, jnz, jback, i32; cbn [writes_rd Isa.requires_mainnet_activation];
  split_and!; first [lia | done | left; lia | right; done].
Ltac ops_ok := repeat first [apply Forall_nil_2 | apply Forall_cons_2; [op_ok|]].

Lemma alu_ok op rd rs1 rs2 : 1 ≤ rd ≤ 30 → 0 ≤ rs1 ≤ 30 → 0 ≤ rs2 ≤ 30 → instr_ok (Op (op_of op) rd rs1 rs2 0).
Proof. intros. destruct op; op_ok. Qed.

Lemma chunks_range v : Forall (λ c, 0 ≤ c < 2 ^ 30) (chunks_of v).
Proof.
  unfold chunks_of. change 15 with (Z.ones 4). change 1073741823 with (Z.ones 30).
  rewrite !Z.land_ones by lia. repeat apply Forall_cons_2; [..|apply Forall_nil_2].
  - pose proof (Z.mod_pos_bound (Z.shiftr v 60) (2 ^ 4)). lia.
  - apply Z.mod_pos_bound. lia.
  - apply Z.mod_pos_bound. lia.
Qed.

Lemma chunk_code_ok rg sr tr l : 1 ≤ rg ≤ 30 → 1 ≤ sr ≤ 30 → 1 ≤ tr ≤ 30 → Forall (λ c, 0 ≤ c < 2 ^ 30) l →
  ∀ c b, Forall instr_ok c → Forall instr_ok (foldl (chunk_code rg sr tr) (c, b) l).1.
Proof.
  intros H1 H2 H3 Hl. induction Hl as [|k l Hk _ IH]; intros c b Hc; [done|]. cbn [foldl chunk_code].
  destruct ((0 <? k) || b); [|by apply IH]. destruct b.
  - apply IH. apply Forall_app. split; [done|]. destruct (0 <? k); ops_ok.
  - apply IH. apply Forall_app. split; [done|]. ops_ok.
Qed.

Lemma cint_ok v n c r n' : 0 ≤ v → 1 ≤ n → cint v n = Some (c, r, n') → Forall instr_ok c.
Proof.
  intros Hv Hn. unfold cint. destruct (_ <=? v); [done|]. destruct (Z.leb_spec v I32_MAX) as [Hle|_].
  - destruct (alloc n) as [[a n1]|] eqn:E1; [|done]. cbn [mbind option_bind]. intros [= <- <- <-].
    apply alloc_bounds in E1 as (->&_&?). unfold I32_MAX in Hle. ops_ok.
  - destruct (alloc n) as [[a n1]|] eqn:E1; [|done]. cbn [mbind option_bind].
    destruct (alloc n1) as [[b n2]|] eqn:E2; [|done]. cbn [mbind option_bind].
    destruct (alloc n2) as [[d n3]|] eqn:E3; [|done]. cbn [mbind option_bind].
    apply alloc_bounds in E1 as (->&->&?), E2 as (->&->&?), E3 as (->&->&?).
    pose proof (chunk_code_ok n (n + 1) (n + 1 + 1) (chunks_of v) ltac:(lia) ltac:(lia) ltac:(lia)
      (chunks_range v) [] false ltac:(constructor)) as Hch. revert Hch.
    generalize (foldl (chunk_code n (n + 1) (n + 1 + 1)) ([], false) (chunks_of v)) as code.
    intros code Hch [= <- <- <-]. apply Forall_cons_2; [op_ok|done].
Qed.

Lemma pushes_ok rs : Forall (λ r, 0 ≤ r ≤ 30) rs → Forall instr_ok (pushes rs).
Proof. intros H. apply Forall_fmap. eapply Forall_impl; [apply H|]. intros r Hr. cbn beta in *. op_ok. Qed.

Lemma pops_ok rs : Forall (λ r, 1 ≤ r ≤ 30) rs → Forall instr_ok (pops rs).
Proof. intros H. apply Forall_fmap. eapply Forall_impl; [apply H|]. intros r Hr. cbn beta in *. op_ok. Qed.

Lemma live_range n : n ≤ 31 → Forall (λ r, 1 ≤ r ≤ 30) (live_regs n).
Proof. intros Hn. apply Forall_forall. intros r Hr%elem_of_seqZ. lia. Qed.

Section ok.
Context (slots : gmap string Z).
Hypothesis Hslots : slots_ok slots.

Definition expr_ok (scope : Scope) (e : Expr) : Prop := ∀ n c r n', 1 ≤ n ≤ 31 →
  cexpr scope slots e n = Some (c, r, n') → Forall instr_ok c.

Lemma cargs_ok scope es : scope_ok scope → Forall (expr_ok scope) es → ∀ n c rs n', 1 ≤ n ≤ 31 →
  cargs (λ e n, cexpr scope slots e n) es n = Some (c, rs, n') →
  Forall instr_ok c ∧ Forall (λ r, 1 ≤ r ≤ 30) rs.
Proof.
  intros Hsc. induction 1 as [|e es He _ IH]; intros n c rs n' Hn; cbn [cargs].
  - intros [= <- <- <-]. by split.
  - destruct (cexpr scope slots e n) as [[[c1 r] n1]|] eqn:E1; [|done]. cbn [mbind option_bind].
    pose proof (cexpr_bounds scope slots e Hsc n c1 r n1 Hn E1) as (Hr&Hn1&_). apply He in E1; [|done].
    destruct (cargs _ es n1) as [[[c2 rs2] n2]|] eqn:E2; [|done]. cbn [mbind option_bind].
    apply IH in E2 as [Hc Hrs]; [|lia]. intros [= <- <- <-]. split; [by apply Forall_app|by constructor].
Qed.

Lemma cexpr_ok scope e : scope_ok scope → scalar_expr e = true → expr_ok scope e.
Proof.
  intros Hsc. induction e as [v|x|x|x k IHk|b f IHb|x fs|a op b IHa IHb|x args IH] using expr_induction;
    intros Hs n c r n' Hn; cbn [cexpr]; try done; cbn [scalar_expr] in Hs.
  - apply cint_ok; lia.
  - destruct (scope !! x) as [vi|]; [|done]. intros [= <- _ _]. constructor.
  - destruct (alloc n) as [[r0 n0]|] eqn:E; [|done]. cbn [mbind option_bind].
    destruct (slots !! x) as [s|] eqn:Hx; [|done]. apply Hslots in Hx. intros [= <- <- <-].
    apply alloc_bounds in E as (->&_&?). ops_ok.
  - destruct (slots !! x) as [base|] eqn:Hx; [|done]. apply Hslots in Hx. cbn [mbind option_bind].
    destruct (cexpr scope slots k n) as [[[ck kr] n0]|] eqn:Ek; [|done]. cbn [mbind option_bind].
    pose proof (cexpr_bounds scope slots k Hsc n ck kr n0 Hn Ek) as (Hkr&Hn0&_).
    apply IHk in Ek; [|done..].
    destruct (alloc n0) as [[a n1]|] eqn:E1; [|done]. cbn [mbind option_bind].
    destruct (alloc n1) as [[b n2]|] eqn:E2; [|done]. cbn [mbind option_bind].
    destruct (alloc n2) as [[d n3]|] eqn:E3; [|done]. cbn [mbind option_bind]. intros [= <- <- <-].
    apply alloc_bounds in E1 as (->&->&?), E2 as (->&->&?), E3 as (->&->&?).
    apply Forall_app. split; [done|]. ops_ok.
  - apply andb_true_iff in Hs as [Hs1 Hs2].
    destruct (cexpr scope slots a n) as [[[c1 l] n1]|] eqn:E1; [|done]. cbn [mbind option_bind].
    destruct (cexpr scope slots b n1) as [[[c2 r0] n2]|] eqn:E2; [|done]. cbn [mbind option_bind].
    pose proof (cexpr_bounds scope slots a Hsc n c1 l n1 Hn E1) as (Hl&Hn1&_).
    pose proof (cexpr_bounds scope slots b Hsc n1 c2 r0 n2 ltac:(lia) E2) as (Hr&Hn2&_).
    destruct (pick_reg l n r0 n1 n2) as [res|] eqn:Ep; [|done]. intros [= <- <- <-].
    apply pick_bounds in Ep; [|lia..]. apply IHa in E1; [|done..]. apply IHb in E2; [|done|lia].
    repeat (apply Forall_app; split; [done|]). constructor; [apply alu_ok; lia|constructor].
  - apply andb_true_iff in Hs as [Hs Hargs].
    assert (Forall (expr_ok scope) args) as Hall.
    { clear -IH Hargs. induction IH as [|e args He _ IH]; [constructor|]. simpl in Hargs.
      apply andb_true_iff in Hargs as [Hs1 Hs2]. constructor; [by apply He|by apply IH]. }
    assert (∀ k, 1 ≤ k ≤ 3 → csyscall k n = Some (c, r, n') → Forall instr_ok c) as Hsys.
    { intros k Hk. unfold csyscall. destruct (alloc n) as [[r0 n0]|] eqn:E; [|done]. intros [= <- <- <-].
      apply alloc_bounds in E as (->&_&?). ops_ok. }
    destruct (decide (x = "poseidon")).
    { destruct args as [|a [|b [|]]]; try done. apply Forall_cons in Hall as [Ha Hall]. apply Forall_cons in Hall as [Hb _].
      destruct (cexpr scope slots a n) as [[[c1 l] n1]|] eqn:E1; [|done]. cbn [mbind option_bind].
      destruct (cexpr scope slots b n1) as [[[c2 r0] n2]|] eqn:E2; [|done]. cbn [mbind option_bind].
      pose proof (cexpr_bounds scope slots a Hsc n c1 l n1 Hn E1) as (Hl&Hn1&_).
      pose proof (cexpr_bounds scope slots b Hsc n1 c2 r0 n2 ltac:(lia) E2) as (Hr&Hn2&_).
      destruct (pick_reg l n r0 n1 n2) as [res|] eqn:Ep; [|done]. intros [= <- <- <-].
      apply pick_bounds in Ep; [|lia..]. apply Ha in E1; [|done..]. apply Hb in E2; [|lia].
      repeat (apply Forall_app; split; [done|]). ops_ok. }
    destruct (decide (x = "msg::sender")); [apply Hsys; lia|].
    destruct (decide (x = "msg::nonce")); [apply Hsys; lia|].
    destruct (decide (x = "block::number")); [apply Hsys; lia|].
    destruct (cargs _ args n) as [[[ca rs] na]|] eqn:Ea; [|done]. cbn [mbind option_bind].
    apply cargs_ok in Ea as [Hca Hrs]; [|done..].
    destruct (alloc n) as [[r0 m0]|] eqn:E; [|done]. intros [= <- <- <-]. apply alloc_bounds in E as (->&_&?).
    repeat (apply Forall_app; split).
    + apply pushes_ok. eapply Forall_impl; [apply live_range; lia|]. simpl. lia.
    + done.
    + apply pushes_ok. eapply Forall_impl; [apply Hrs|]. simpl. lia.
    + apply Forall_cons_2; [done|]. apply Forall_cons_2; [op_ok|]. apply pops_ok, Forall_reverse, live_range. lia.
Qed.

Lemma cemit_ok scope es : scope_ok scope → forallb scalar_expr es = true → ∀ n c n', 1 ≤ n ≤ 31 →
  cemit (λ e n, cexpr scope slots e n) es n = Some (c, n') → Forall instr_ok c.
Proof.
  intros Hsc. induction es as [|e es IH]; intros Hs n c n' Hn; cbn [cemit].
  - intros [= <- <-]. constructor.
  - cbn [forallb] in Hs. apply andb_true_iff in Hs as [He Hs].
    destruct (cexpr scope slots e n) as [[[c1 r] n1]|] eqn:E1; [|done]. cbn [mbind option_bind].
    pose proof (cexpr_bounds scope slots e Hsc n c1 r n1 Hn E1) as (Hr&Hn1&_). apply cexpr_ok in E1; [|done..].
    destruct (cemit _ es n1) as [[c2 n2]|] eqn:E2; [|done]. cbn [mbind option_bind].
    apply IH in E2; [|done|lia]. intros [= <- <-]. apply Forall_app. split; [done|]. apply Forall_cons_2; [op_ok|done].
Qed.

(** Code whose jumps fit an immediate. *)
Definition small (c : list instr) : Prop := Z.of_nat (length c) < 2 ^ 31.
Definition block_ok (m : option (list instr * Scope * Z)) : Prop :=
  ∀ c scope n, m = Some (c, scope, n) → small c → Forall instr_ok c.

Lemma cblock_ok ss :
  Forall (λ s, ∀ outer cur scope n, scalar_stmt outer cur s = true → scope_ok scope → 1 ≤ n ≤ 31 →
    block_ok (cstmt slots s scope n)) ss →
  ∀ outer cur scope n, scalar_list scalar_stmt outer cur ss = true → scope_ok scope → 1 ≤ n ≤ 31 →
  block_ok (cblock (cstmt slots) ss scope n).
Proof.
  induction 1 as [|s ss Hs _ IH]; intros outer cur scope n Hsc Hok Hn c scope' n'; cbn [cblock].
  - intros [= <- _ _] _. constructor.
  - cbn [scalar_list] in Hsc. apply andb_true_iff in Hsc as [Hs1 Hs2].
    destruct (cstmt slots s scope n) as [[[c1 sc1] n1]|] eqn:E1; [|done]. cbn [mbind option_bind].
    destruct (cblock _ ss sc1 n1) as [[[c2 sc2] n2]|] eqn:E2; [|done]. cbn [mbind option_bind].
    pose proof (cstmt_bounds slots s scope n Hok Hn _ _ _ E1) as [Hok1 Hn1].
    intros [= <- _ _] Hsm. unfold small in Hsm. rewrite length_app in Hsm.
    apply Forall_app. split.
    + refine (Hs _ _ _ _ Hs1 Hok Hn _ _ _ E1 _). unfold small. lia.
    + refine (IH _ _ _ _ Hs2 Hok1 _ _ _ _ E2 _); [|unfold small]; lia.
Qed.

Lemma carms_ok x n arms outer cur : 1 ≤ x ≤ 30 → 1 ≤ n ≤ 31 →
  Forall (λ a, Forall (λ s, ∀ outer cur scope n, scalar_stmt outer cur s = true → scope_ok scope → 1 ≤ n ≤ 31 →
    block_ok (cstmt slots s scope n)) a.2) arms →
  forallb (λ '(p, body), match p with IntLit v => (0 <=? v) && (v <=? I32_MAX) | Wildcard => true end &&
    scalar_list scalar_stmt outer cur body) arms = true →
  ∀ scope c scope', scope_ok scope → carms (cstmt slots) arms x n scope = Some (c, scope') → small c → Forall instr_ok c.
Proof.
  intros Hx Hn Hall. induction Hall as [|[p b] arms Hb _ IH]; intros Hsc scope c scope' Hok; cbn [carms].
  { intros [= <- _] _. constructor. }
  cbn [forallb] in Hsc. apply andb_true_iff in Hsc as [Hs1 Hs2]. apply andb_true_iff in Hs1 as [Hp Hs1].
  assert (∀ t k, (∀ c rest, k c rest = t c ++ c ++ jmp (S (length rest)) :: rest) →
    (∀ c, small (t c ++ c ++ [jmp 0]) → Forall instr_ok (t c)) →
    ('(c, scope, _) ← cblock (cstmt slots) b scope n; '(rest, scope) ← carms (cstmt slots) arms x n scope;
      Some (k c rest : list instr, scope)) = Some (c, scope') → small c → Forall instr_ok c) as Hk.
  { intros t k Hkt Ht. destruct (cblock (cstmt slots) b scope n) as [[[c1 sc1] n1]|] eqn:E1; [|done]. cbn [mbind option_bind].
    pose proof (block_bounds slots b scope n Hok Hn _ _ _ E1) as [Hok1 _].
    destruct (carms (cstmt slots) arms x n sc1) as [[c2 sc2]|] eqn:E2; [|done]. cbn [mbind option_bind].
    rewrite Hkt. intros [= <- _] Hsm. unfold small in *. rewrite !length_app in Hsm. cbn [length] in Hsm.
    apply Forall_app. split; [apply Ht; rewrite !length_app; simpl; lia|]. apply Forall_app. split.
    - refine (cblock_ok b Hb _ _ _ _ Hs1 Hok Hn _ _ _ E1 _). unfold small. lia.
    - apply Forall_cons_2; [op_ok|]. eapply (IH Hs2); [exact Hok1|exact E2|]. lia. }
  destruct p.
  - destruct (alloc n) as [[pr n1]|] eqn:E1; [|done]. cbn [mbind option_bind].
    destruct (alloc n1) as [[dr n2]|] eqn:E2; [|done]. cbn [mbind option_bind].
    apply alloc_bounds in E1 as (->&->&?), E2 as (->&->&?). pose proof (IsaLemmas.as_i32_range val) as Hv.
    apply (Hk (λ c, [Op Isa.Load n 0 0 (Isa.as_i32 val); Op Isa.Sub (n + 1) x n 0; jnz (n + 1) (length c + 2)])); [done|].
    intros c0 Hc0. unfold small in Hc0. rewrite !length_app in Hc0. cbn [length] in Hc0. ops_ok.
  - apply (Hk (λ _, [])); [done|]. constructor.
Qed.

Lemma cstmt_ok s : ∀ outer cur scope n, scalar_stmt outer cur s = true → scope_ok scope → 1 ≤ n ≤ 31 →
  block_ok (cstmt slots s scope n).
Proof.
  induction s as [x e|e|x e|x e|x k e|cnd t e IHt IHe|cnd b IHb|x a z b IHb|e|x args|e arms IH|e]
    using stmt_induction; intros outer cur scope n Hs Hok Hn c scope' n'; cbn [cstmt]; cbn [scalar_stmt] in Hs.
  - apply andb_true_iff in Hs as [Hs _]. apply andb_true_iff in Hs as [Hs _].
    destruct (cexpr scope slots e n) as [[[c1 r] m]|] eqn:E; [|done]. apply cexpr_ok in E; [|done..].
    by intros [= <- _ _].
  - destruct (cexpr scope slots e n) as [[[c1 r] m]|] eqn:E; [|done].
    pose proof (cexpr_bounds scope slots e Hok n c1 r m Hn E) as (Hr&_). apply cexpr_ok in E; [|done..].
    intros [= <- _ _] _. apply Forall_app. split; [done|]. ops_ok.
  - destruct (cexpr scope slots e n) as [[[c1 r] m]|] eqn:E; [|done]. cbn [mbind option_bind].
    destruct (scope !! x) as [vi|] eqn:Hx; [|done]. apply Hok in Hx.
    pose proof (cexpr_bounds scope slots e Hok n c1 r m Hn E) as (Hr&_). apply cexpr_ok in E; [|done..].
    intros [= <- _ _] _. apply Forall_app. split; [done|]. ops_ok.
  - destruct (cexpr scope slots e n) as [[[c1 r] m]|] eqn:E; [|done]. cbn [mbind option_bind].
    destruct (slots !! x) as [s|] eqn:Hx; [|done]. apply Hslots in Hx.
    pose proof (cexpr_bounds scope slots e Hok n c1 r m Hn E) as (Hr&_). apply cexpr_ok in E; [|done..].
    intros [= <- _ _] _. apply Forall_app. split; [done|]. ops_ok.
  - apply andb_true_iff in Hs as [Hk Hs]. destruct (slots !! x) as [s|] eqn:Hx; [|done]. apply Hslots in Hx. cbn [mbind option_bind].
    destruct (cexpr scope slots k n) as [[[c1 kr] m]|] eqn:E1; [|done]. cbn [mbind option_bind].
    destruct (cexpr scope slots e m) as [[[c2 r] m2]|] eqn:E2; [|done]. cbn [mbind option_bind].
    pose proof (cexpr_bounds scope slots k Hok n c1 kr m Hn E1) as (Hkr&Hm&_).
    pose proof (cexpr_bounds scope slots e Hok m c2 r m2 ltac:(lia) E2) as (Hr&Hm2&_).
    destruct (alloc m2) as [[br m3]|] eqn:E3; [|done]. cbn [mbind option_bind].
    destruct (alloc m3) as [[tr m4]|] eqn:E4; [|done]. apply alloc_bounds in E3 as (->&->&?), E4 as (->&->&?).
    apply cexpr_ok in E1; [|done..]. apply cexpr_ok in E2; [|done|done|lia].
    intros [= <- _ _] _. repeat (apply Forall_app; split; [done|]). ops_ok.
  - apply andb_true_iff in Hs as [Hs He]. apply andb_true_iff in Hs as [Hc Ht].
    destruct (cexpr scope slots cnd n) as [[[c1 r] m]|] eqn:E; [|done]. cbn [mbind option_bind].
    pose proof (cexpr_bounds scope slots cnd Hok n c1 r m Hn E) as (Hr&_). apply cexpr_ok in E; [|done..].
    destruct (match e with Some e => cblock (cstmt slots) e scope n | None => Some ([], scope, n) end)
      as [[[ce sc1] n1]|] eqn:Ee; [|done]. cbn [mbind option_bind].
    assert ((small ce → Forall instr_ok ce) ∧ scope_ok sc1 ∧ n ≤ n1 ≤ 31) as (Hce&Hok1&Hn1).
    { destruct e as [e|]; [|injection Ee as <- <- <-; split; [constructor|split; [done|lia]]].
      split; [exact (cblock_ok e IHe _ _ _ _ He Hok Hn _ _ _ Ee)|by apply block_bounds in Ee]. }
    destruct (cblock (cstmt slots) t sc1 n1) as [[[ct sc2] n2]|] eqn:Et; [|done].
    intros [= <- _ _] Hsm. unfold small in *. rewrite length_app in Hsm. cbn [length] in Hsm. rewrite length_app in Hsm. cbn [length] in Hsm.
    apply Forall_app. split; [done|]. apply Forall_cons_2; [op_ok|]. apply Forall_app. split; [apply Hce; lia|].
    apply Forall_cons_2; [op_ok|]. refine (cblock_ok t IHt _ _ _ _ Ht Hok1 _ _ _ _ Et _); [|unfold small]; lia.
  - apply andb_true_iff in Hs as [Hc Ht].
    destruct (cexpr scope slots cnd n) as [[[c1 r] m]|] eqn:E; [|done]. cbn [mbind option_bind].
    pose proof (cexpr_bounds scope slots cnd Hok n c1 r m Hn E) as (Hr&_). apply cexpr_ok in E; [|done..].
    destruct (cblock (cstmt slots) b scope n) as [[[ct sc2] n2]|] eqn:Et; [|done].
    intros [= <- _ _] Hsm. unfold small in *. rewrite length_app in Hsm. cbn [length app] in Hsm. rewrite length_app in Hsm. cbn [length] in Hsm.
    apply Forall_app. split; [done|]. do 2 (apply Forall_cons_2; [op_ok|]). apply Forall_app. split.
    + refine (cblock_ok b IHb _ _ _ _ Ht Hok _ _ _ _ Et _); [|unfold small]; lia.
    + ops_ok.
  - apply andb_true_iff in Hs as [Hs Hbo]. apply andb_true_iff in Hs as [Hs _]. apply andb_true_iff in Hs as [Hs _].
    apply andb_true_iff in Hs as [Hsa Hsz].
    destruct (cexpr scope slots a n) as [[[c1 ar] m]|] eqn:E1; [|done]. cbn [mbind option_bind].
    destruct (cexpr scope slots z m) as [[[c2 br] m2]|] eqn:E2; [|done]. cbn [mbind option_bind].
    pose proof (cexpr_bounds scope slots a Hok n c1 ar m Hn E1) as (Har&Hm&_).
    pose proof (cexpr_bounds scope slots z Hok m c2 br m2 ltac:(lia) E2) as (Hbr&Hm2&_).
    destruct (alloc m2) as [[ir m3]|] eqn:E3; [|done]. cbn [mbind option_bind].
    destruct (alloc m3) as [[kr m4]|] eqn:E4; [|done]. cbn [mbind option_bind].
    apply alloc_bounds in E3 as (->&->&?), E4 as (->&->&?).
    destruct (cblock _ b _ (m2 + 1)) as [[[cb sc] m5]|] eqn:Eb; [|done]. cbn [mbind option_bind].
    pose proof (block_bounds slots b _ (m2 + 1) (scope_ok_insert scope x m2 None Hok ltac:(lia)) ltac:(lia) _ _ _ Eb) as [_ Hm5].
    destruct (alloc m5) as [[o m6]|] eqn:E6; [|done]. apply alloc_bounds in E6 as (->&->&?).
    apply cexpr_ok in E1; [|done..]. apply cexpr_ok in E2; [|done|done|lia].
    intros [= <- _ _] Hsm. unfold small in Hsm. rewrite !length_app in Hsm. cbn [length app] in Hsm. rewrite length_app in Hsm. cbn [length] in Hsm.
    do 2 (apply Forall_app; split; [done|]). do 4 (apply Forall_cons_2; [op_ok|]). apply Forall_app. split.
    + refine (cblock_ok b IHb _ _ _ _ Hbo (scope_ok_insert scope x m2 None Hok _) _ _ _ _ Eb _); [..|unfold small]; lia.
    + ops_ok.
  - destruct (alloc n) as [[tr m]|] eqn:E; [|done]. cbn [mbind option_bind]. apply alloc_bounds in E as (->&->&?).
    destruct e as [e|].
    + destruct (cexpr scope slots e (n + 1)) as [[[c1 r] m]|] eqn:E; [|done]. cbn [mbind option_bind].
      pose proof (cexpr_bounds scope slots e Hok (n + 1) c1 r m ltac:(lia) E) as (Hr&_). apply cexpr_ok in E; [|done|done|lia].
      intros [= <- _ _] _. apply Forall_cons_2; [op_ok|]. apply Forall_app. split; [done|]. ops_ok.
    + destruct (alloc (n + 1)) as [[zr m]|] eqn:E; [|done]. apply alloc_bounds in E as (->&->&?).
      intros [= <- _ _] _. ops_ok.
  - destruct (cemit _ args n) as [[c1 m]|] eqn:E; [|done]. apply cemit_ok in E; [|done..]. by intros [= <- _ _].
  - apply andb_true_iff in Hs as [Hi Ha]. destruct (cexpr scope slots e n) as [[[c1 r] m]|] eqn:E; [|done]. cbn [mbind option_bind].
    pose proof (cexpr_bounds scope slots e Hok n c1 r m Hn E) as (Hr&_).
    assert (c1 = []) as ->. { destruct e as [|y| | | | | |]; try done. simpl in E. by destruct (scope !! y); simplify_eq/=. }
    destruct (carms (cstmt slots) arms r n scope) as [[ca sc]|] eqn:Ea; [|done]. intros [= <- _ _] Hsm.
    exact (carms_ok r n arms _ _ Hr Hn IH Ha _ _ _ Hok Ea Hsm).
  - destruct (cexpr scope slots e n) as [[[c1 r] m]|] eqn:E; [|done]. apply cexpr_ok in E; [|done..].
    by intros [= <- _ _].
Qed.

End ok.
End CodeOk.
