(* ===== verification/CompilerSim.v ===== *)
(** * Compiled code does what the contract means

    A simulation, by induction on the fuel of the evaluator: where an
    evaluation of an expression, statement or function gives an outcome, the
    machine runs its code to the state that outcome describes.  Variables live
    in the registers of the scope, temporaries above them. *)
From stdpp Require Import base tactics numbers list gmap strings.
From Stdlib Require Import ZArith Lia.
From S2P Require Import Prelude Isa Vm Goldilocks VmProps Compiler CompilerSem CompilerCode CompilerGen CompilerLink CompilerMachine.
Import Ast Codegen Scalar Code CodeLemmas Machine Sem CodeOk.
Open Scope Z_scope.

(** ** States that match *)
Module SimBase.
Import Field VmLemmas FieldLemmas.

Definition world_ok (w : World) : Prop := map_Forall (λ _ v, canonical v) (w_storage w).

Lemma load_canonical w s : world_ok w → canonical (load w s).
Proof.
  intros Hw. unfold load. destruct (w_storage w !! s) as [v|] eqn:Hs; [by apply (Hw s)|]. by unfold canonical.
Qed.

Lemma world_store_ok w s v : world_ok w → canonical v → world_ok (store w s v).
Proof. intros Hw Hv. by apply map_Forall_insert_2. Qed.

Lemma log_ok w v : world_ok w → world_ok (log w v).
Proof. done. Qed.

Lemma binary_canonical op a b : canonical (binary op a b).
Proof.
  assert (∀ x : bool, canonical (Vm.flag x)) by (by intros []).
  destruct op; simpl; try done; try apply canonical_mod.
  destruct (b =? 0); [done|apply canonical_mod].
Qed.

Lemma poseidon4_canonical a b : canonical (poseidon4_hash a b).
Proof. apply poseidon_canonical. Qed.

Lemma op_of_alu op a b : alu (op_of op) a b = Some (binary op a b).
Proof. by destruct op. Qed.

(** The variables of [env] are in the registers [scope] gives them, each in
    its own, below [n]. *)
Record menv (scope : Scope) (n : Z) (env : Env) (regs : Z → Z) : Prop := {
  menv_var : ∀ x v, env !! x = Some v →
    ∃ vi, scope !! x = Some vi ∧ 1 ≤ reg vi < n ∧ regs (reg vi) = v ∧ canonical v;
  menv_inj : ∀ x y vx vy, is_Some (env !! x) → is_Some (env !! y) →
    scope !! x = Some vx → scope !! y = Some vy → reg vx = reg vy → x = y;
}.

Lemma menv_regs scope n env regs regs' : menv scope n env regs →
  (∀ r, 1 ≤ r < n → regs' r = regs r) → menv scope n env regs'.
Proof.
  intros [Hv Hi] Hr. split; [|done]. intros x v Hx. destruct (Hv x v Hx) as (vi&?&?&?&?).
  exists vi. split_and!; try done; try lia. by rewrite Hr.
Qed.

Lemma menv_weaken scope n env regs scope' n' : menv scope n env regs →
  (∀ x, is_Some (env !! x) → scope' !! x = scope !! x) → n ≤ n' → menv scope' n' env regs.
Proof.
  intros [Hv Hi] Hs Hn. split.
  - intros x v Hx. destruct (Hv x v Hx) as (vi&?&?&?&?). exists vi. rewrite Hs by done. split_and!; try done; try lia.
  - intros x y vx vy Hx Hy. rewrite !Hs by done. by apply Hi.
Qed.

Lemma restrict_lookup env env' x : restrict env env' !! x = match env !! x with Some _ => env' !! x | None => None end.
Proof.
  unfold restrict.
  rewrite map_lookup_filter. destruct (env' !! x) as [v|]; simpl; [|by destruct (env !! x)].
  destruct (env !! x) as [u|] eqn:Hx.
  - rewrite option_guard_True; [done|]. by eexists.
  - rewrite option_guard_False; [done|]. by intros [? ?].
Qed.

Lemma restrict_sub env env' x : is_Some (restrict env env' !! x) → is_Some (env !! x) ∧ is_Some (env' !! x).
Proof. rewrite restrict_lookup. destruct (env !! x); [by intros|by intros []]. Qed.

(** Leaving a block: its own variables go, the others are where they were. *)
Lemma menv_back scope n env regs scope' n' env' regs' : menv scope n env regs → menv scope' n' env' regs' →
  (∀ x, is_Some (env !! x) → scope' !! x = scope !! x) → menv scope n (restrict env env') regs'.
Proof.
  intros [Hv Hi] [Hv' Hi'] Hs. split.
  - intros x v Hx. pose proof (restrict_sub env env' x (mk_is_Some _ _ Hx)) as [[u Hu] _].
    rewrite restrict_lookup, Hu in Hx. destruct (Hv' x v Hx) as (vi&H1&H2&H3&H4).
    destruct (Hv x u Hu) as (vi'&H1'&H2'&_). rewrite Hs in H1 by done. rewrite H1' in H1. injection H1 as <-. by exists vi'.
  - intros x y vx vy [Hx _]%restrict_sub [Hy _]%restrict_sub. by apply Hi.
Qed.

Lemma menv_insert scope n env regs x r v t : menv scope n env regs → n ≤ r → 1 ≤ n → regs r = v → canonical v →
  menv (<[x := mkVarInfo r t]> scope) (r + 1) (<[x := v]> env) regs.
Proof.
  intros [Hv Hi] Hr Hn Hrv Hc. split.
  - intros y u [[<- <-]|[Hne Hy]]%lookup_insert_Some.
    + eexists. rewrite lookup_insert_eq. split; [done|]. simpl. split_and!; try done; try lia.
    + destruct (Hv y u Hy) as (vi&?&?&?&?). exists vi. rewrite lookup_insert_ne by done. split_and!; try done; try lia.
  - assert (∀ y vy, is_Some (<[x := v]> env !! y) → <[x := mkVarInfo r t]> scope !! y = Some vy → x ≠ y →
      is_Some (env !! y) ∧ scope !! y = Some vy ∧ reg vy < n) as Hother.
    { intros y vy Hy Hvy Hne. rewrite lookup_insert_ne in Hy by done. rewrite lookup_insert_ne in Hvy by done. split; [done|]. split; [done|].
      destruct Hy as [u Hy]. destruct (Hv y u Hy) as (vi&H1&?&_). rewrite Hvy in H1. injection H1 as <-. lia. }
    intros y z vy vz Hy Hz Hvy Hvz Heq. destruct (decide (x = y)) as [<-|Hxy], (decide (x = z)) as [<-|Hxz].
    + done.
    + destruct (Hother z vz Hz Hvz Hxz) as (_&_&?). rewrite lookup_insert_eq in Hvy. injection Hvy as <-. simpl in Heq. lia.
    + destruct (Hother y vy Hy Hvy Hxy) as (_&_&?). rewrite lookup_insert_eq in Hvz. injection Hvz as <-. simpl in Heq. lia.
    + destruct (Hother y vy Hy Hvy Hxy) as (?&?&_), (Hother z vz Hz Hvz Hxz) as (?&?&_). by apply (Hi y z vy vz).
Qed.

Lemma menv_assign scope n env regs x vi v : menv scope n env regs → is_Some (env !! x) →
  scope !! x = Some vi → canonical v →
  menv scope n (<[x := v]> env) (upd regs (reg vi) v).
Proof.
  intros [Hv Hi] Hx Hvi Hc.
  assert (∀ y, is_Some (<[x := v]> env !! y) → is_Some (env !! y)) as Hsub.
  { intros y Hy. destruct (decide (x = y)) as [<-|]; [done|]. by rewrite lookup_insert_ne in Hy. }
  split.
  - intros y u [[<- <-]|[Hne Hy]]%lookup_insert_Some.
    + destruct Hx as [w Hx]. destruct (Hv x w Hx) as (vi'&H1&H2&_). rewrite Hvi in H1. injection H1 as <-.
      exists vi. split_and!; try done; try lia. unfold upd. by rewrite Z.eqb_refl.
    + destruct (Hv y u Hy) as (vy&H1&?&H3&?). exists vy. split_and!; try done; try lia. unfold upd.
      destruct (Z.eqb_spec (reg vy) (reg vi)) as [Heq|]; [|done]. destruct Hne. symmetry. by apply (Hi y x vy vi).
  - intros y z vy vz Hy%Hsub Hz%Hsub. by apply Hi.
Qed.

Lemma get_pos regs r : 1 ≤ r → get regs r = regs r.
Proof. intros Hr. unfold get. by destruct (Z.eqb_spec r 0); [lia|]. Qed.

Lemma upd_eq regs r v : upd regs r v r = v.
Proof. unfold upd. by rewrite Z.eqb_refl. Qed.

Lemma upd_ne regs r v x : x ≠ r → upd regs r v x = regs x.
Proof. intros Hx. unfold upd. by destruct (Z.eqb_spec x r). Qed.

Lemma field_add_0 v : canonical v → field_add_goldilocks v 0 = v.
Proof. intros Hv. unfold field_add_goldilocks. rewrite Z.add_0_r. by apply mod_canonical. Qed.

Lemma field_sub_zero a b : canonical a → canonical b → (field_sub_goldilocks a b =? 0) = (a =? b).
Proof.
  intros Ha Hb. unfold field_sub_goldilocks. rewrite (mod_canonical b) by done.
  unfold canonical in *. destruct (Z.eqb_spec a b) as [->|Hne].
  - replace (b + GOLDILOCKS_P - b) with (1 * GOLDILOCKS_P) by lia. by rewrite Z.mod_mul.
  - apply Z.eqb_neq. intros H. apply Z.mod_divide in H as [q Hq]; [|done]. assert (q = 1) by nia. lia.
Qed.

(** ** Scopes of scalar code *)

Lemma declares_outer outer cur s x : scalar_stmt outer cur s = true → x ∈ outer → x ∉ declares s.
Proof.
  intros Hs Hx. destruct s; simpl; try set_solver. cbn [scalar_stmt] in Hs.
  apply andb_true_iff in Hs as [_ Hs]. apply bool_decide_eq_true in Hs. set_solver.
Qed.

(** A statement changes the registers of the names it declares only. *)
Definition stable (slots : gmap string Z) (s : Stmt) : Prop := ∀ outer cur scope n c scope' n',
  scalar_stmt outer cur s = true → cstmt slots s scope n = Some (c, scope', n') →
  ∀ x, x ∈ outer ∪ cur → x ∉ declares s → scope' !! x = scope !! x.

Lemma block_stable_list slots ss : Forall (stable slots) ss → ∀ outer cur scope n c scope' n',
  scalar_list scalar_stmt outer cur ss = true → cblock (cstmt slots) ss scope n = Some (c, scope', n') →
  ∀ x, x ∈ outer → scope' !! x = scope !! x.
Proof.
  induction 1 as [|s ss Hs _ IH]; intros outer cur scope n c scope' n' Hsc Hc x Hx; cbn [cblock scalar_list] in *.
  { by injection Hc as _ <- _. }
  apply andb_true_iff in Hsc as [Hs1 Hs2].
  destruct (cstmt slots s scope n) as [[[c1 sc1] n1]|] eqn:E1; [|done]. cbn [mbind option_bind] in Hc.
  destruct (cblock _ ss sc1 n1) as [[[c2 sc2] n2]|] eqn:E2; [|done]. injection Hc as _ <- _.
  rewrite (IH _ _ _ _ _ _ _ Hs2 E2 x Hx). apply (Hs _ _ _ _ _ _ _ Hs1 E1); [set_solver|by eapply declares_outer].
Qed.

Lemma arms_stable_list slots arms y n outer cur : Forall (λ a, Forall (stable slots) a.2) arms →
  forallb (λ '(p, body), match p with IntLit v => (0 <=? v) && (v <=? I32_MAX) | Wildcard => true end &&
    scalar_list scalar_stmt outer cur body) arms = true →
  ∀ scope c scope', carms (cstmt slots) arms y n scope = Some (c, scope') → ∀ x, x ∈ outer → scope' !! x = scope !! x.
Proof.
  induction 1 as [|[p b] arms Hb _ IH]; intros Hs scope c scope' Hc x Hx; cbn [carms forallb] in *.
  { by injection Hc as _ <-. }
  apply andb_true_iff in Hs as [Hs1 Hs2]. apply andb_true_iff in Hs1 as [_ Hs1].
  assert (∀ k, ('(c, scope, _) ← cblock (cstmt slots) b scope n; '(rest, scope) ← carms (cstmt slots) arms y n scope;
      Some (k c rest : list instr, scope)) = Some (c, scope') → scope' !! x = scope !! x) as Hk.
  { intros k. destruct (cblock (cstmt slots) b scope n) as [[[c1 sc1] n1]|] eqn:E1; [|done]. cbn [mbind option_bind].
    destruct (carms (cstmt slots) arms y n sc1) as [[c2 sc2]|] eqn:E2; [|done]. cbn [mbind option_bind]. intros [= _ <-].
    rewrite (IH Hs2 _ _ _ E2 x Hx). by apply (block_stable_list slots b Hb _ _ _ _ _ _ _ Hs1 E1). }
  destruct p; [|by apply Hk in Hc]. destruct (alloc n) as [[pr n1]|]; [|done]. cbn [mbind option_bind] in Hc.
  destruct (alloc n1) as [[dr n2]|]; [|done]. cbn [mbind option_bind] in Hc. by apply Hk in Hc.
Qed.

Lemma stmt_stable slots s : stable slots s.
Proof.
  induction s as [y e|e|y e|y e|y k e|cnd t e IHt IHe|cnd b IHb|y a z b IHb|e|y args|e arms IH|e]
    using stmt_induction; intros outer cur scope n c scope' n' Hs Hc x Hx Hd; cbn [cstmt scalar_stmt] in *.
  - destruct (cexpr scope slots e n) as [[[c1 r] m]|]; [|done]. injection Hc as _ <- _.
    rewrite lookup_insert_ne; [done|]. simpl in Hd. set_solver.
  - destruct (cexpr scope slots e n) as [[[c1 r] m]|]; [|done]. by injection Hc as _ <- _.
  - destruct (cexpr scope slots e n) as [[[c1 r] m]|]; [|done]. cbn [mbind option_bind] in Hc.
    destruct (scope !! y); [|done]. by injection Hc as _ <- _.
  - destruct (cexpr scope slots e n) as [[[c1 r] m]|]; [|done]. cbn [mbind option_bind] in Hc.
    destruct (slots !! y); [|done]. by injection Hc as _ <- _.
  - destruct (slots !! y); [|done]. cbn [mbind option_bind] in Hc.
    destruct (cexpr scope slots k n) as [[[c1 kr] m]|]; [|done]. cbn [mbind option_bind] in Hc.
    destruct (cexpr scope slots e m) as [[[c2 r] m2]|]; [|done]. cbn [mbind option_bind] in Hc.
    destruct (alloc m2) as [[br m3]|]; [|done]. cbn [mbind option_bind] in Hc.
    destruct (alloc m3) as [[tr m4]|]; [|done]. by injection Hc as _ <- _.
  - apply andb_true_iff in Hs as [Hs He]. apply andb_true_iff in Hs as [_ Ht].
    destruct (cexpr scope slots cnd n) as [[[c1 r] m]|]; [|done]. cbn [mbind option_bind] in Hc.
    destruct (match e with Some e => cblock (cstmt slots) e scope n | None => Some ([], scope, n) end)
      as [[[ce sc1] n1]|] eqn:Ee; [|done]. cbn [mbind option_bind] in Hc.
    destruct (cblock (cstmt slots) t sc1 n1) as [[[ct sc2] n2]|] eqn:Et; [|done]. injection Hc as _ <- _.
    rewrite (block_stable_list slots t IHt _ _ _ _ _ _ _ Ht Et x) by done.
    destruct e as [e|]; [by apply (block_stable_list slots e IHe _ _ _ _ _ _ _ He Ee x)|]. by injection Ee as _ <- _.
  - apply andb_true_iff in Hs as [_ Ht].
    destruct (cexpr scope slots cnd n) as [[[c1 r] m]|]; [|done]. cbn [mbind option_bind] in Hc.
    destruct (cblock (cstmt slots) b scope n) as [[[ct sc2] n2]|] eqn:Et; [|done]. injection Hc as _ <- _.
    by apply (block_stable_list slots b IHb _ _ _ _ _ _ _ Ht Et x).
  - destruct (cexpr scope slots a n) as [[[c1 ar] m]|]; [|done]. cbn [mbind option_bind] in Hc.
    destruct (cexpr scope slots z m) as [[[c2 br] m2]|]; [|done]. cbn [mbind option_bind] in Hc.
    destruct (alloc m2) as [[ir m3]|]; [|done]. cbn [mbind option_bind] in Hc.
    destruct (alloc m3) as [[kr m4]|]; [|done]. cbn [mbind option_bind] in Hc.
    destruct (cblock _ b _ m3) as [[[cb sc] m5]|]; [|done]. cbn [mbind option_bind] in Hc.
    destruct (alloc m5) as [[or m6]|]; [|done]. by injection Hc as _ <- _.
  - destruct (alloc n) as [[tr m]|]; [|done]. cbn [mbind option_bind] in Hc.
    destruct e as [e|].
    + destruct (cexpr scope slots e m) as [[[c1 r] m1]|]; [|done]. by injection Hc as _ <- _.
    + destruct (alloc m) as [[zr m1]|]; [|done]. by injection Hc as _ <- _.
  - destruct (cemit _ args n) as [[c1 m]|]; [|done]. by injection Hc as _ <- _.
  - apply andb_true_iff in Hs as [_ Ha].
    destruct (cexpr scope slots e n) as [[[c1 r] m]|]; [|done]. cbn [mbind option_bind] in Hc.
    destruct (carms (cstmt slots) arms r n scope) as [[ca sc]|] eqn:Ea; [|done]. injection Hc as _ <- _.
    by apply (arms_stable_list slots arms r n (outer ∪ cur) ∅ IH Ha _ _ _ Ea).
  - destruct (cexpr scope slots e n) as [[[c1 r] m]|]; [|done]. by injection Hc as _ <- _.
Qed.

Lemma block_stable slots ss outer cur scope n c scope' n' : scalar_list scalar_stmt outer cur ss = true →
  cblock (cstmt slots) ss scope n = Some (c, scope', n') → ∀ x, x ∈ outer → scope' !! x = scope !! x.
Proof. apply block_stable_list. apply Forall_forall. intros s _. apply stmt_stable. Qed.

Lemma arms_stable slots arms y n outer cur scope c scope' :
  forallb (λ '(p, body), match p with IntLit v => (0 <=? v) && (v <=? I32_MAX) | Wildcard => true end &&
    scalar_list scalar_stmt outer cur body) arms = true →
  carms (cstmt slots) arms y n scope = Some (c, scope') → ∀ x, x ∈ outer → scope' !! x = scope !! x.
Proof.
  intros Hs. apply (arms_stable_list slots arms y n outer cur); [|done]. apply Forall_forall. intros a _.
  apply Forall_forall. intros s _. apply stmt_stable.
Qed.

End SimBase.

(** ** The simulation *)
Module Simulation.
Import Field VmLemmas FieldLemmas SimBase.
#[local] Arguments chunks_of : simpl never.
#[local] Opaque poseidon4_hash.

Section sim.
Context (code : list instr) (offs : gmap string nat) (ctx : Vm.Context).
Context (funs : string → option Function) (slots : gmap string Z).
Notation runs := (Machine.runs code offs ctx).

(** [c] is at [pos]. *)
Definition code_at (pos : nat) (c : list instr) : Prop := ∀ i x, c !! i = Some x → code !! (pos + i)%nat = Some x.

Hypothesis Hfuns : ∀ name f, funs name = Some f →
  scalar_fun f = true ∧ ∃ t fc, offs !! name = Some t ∧ cfun slots f = Some fc ∧ code_at t fc.
Hypothesis Hslots : slots_ok slots.
Hypothesis Hsender : canonical (Vm.sender ctx).
Hypothesis Hnonce : canonical (Vm.nonce ctx).
Hypothesis Hheight : canonical (Vm.block_height ctx).

Lemma code_at_app pos c1 c2 : code_at pos (c1 ++ c2) → code_at pos c1 ∧ code_at (pos + length c1) c2.
Proof.
  intros H. split; intros i x Hi.
  - apply H. by apply lookup_app_l_Some.
  - rewrite <- Nat.add_assoc. apply H. rewrite lookup_app_r by lia. by replace (length c1 + i - length c1)%nat with i by lia.
Qed.

Lemma code_at_cons pos i c : code_at pos (i :: c) → code !! pos = Some i ∧ code_at (S pos) c.
Proof.
  intros H. split.
  - rewrite <- (Nat.add_0_r pos). by apply H.
  - intros j x Hj. replace (S pos + j)%nat with (pos + S j)%nat by lia. by apply H.
Qed.

(** One instruction. *)
Lemma run_op Q i pos regs stk w k' : code !! pos = Some i →
  cexec offs ctx i (mkCore pos regs stk w) = Some (Go k') → runs Q k' → runs Q (mkCore pos regs stk w).
Proof. intros Hi He Hr. eapply runs_step; [|exact Hr]. unfold cstep. simpl. by rewrite Hi. Qed.

Lemma run_push Q r pos regs stk w : code !! pos = Some (Op Isa.Push 0 r 0 0) →
  runs Q (mkCore (S pos) regs (get regs r :: stk) w) → runs Q (mkCore pos regs stk w).
Proof.
  intros Hi Hr. destruct (1024 <=? length stk)%nat eqn:Hl.
  - apply runs_overflow. unfold cstep. cbn [k_pc]. rewrite Hi. cbn [mbind option_bind cexec k_regs k_pc].
    unfold pushed. cbn [k_stack]. by rewrite Hl.
  - refine (run_op Q _ _ _ _ _ _ Hi _ Hr). cbn [cexec k_regs k_pc]. unfold pushed.
    cbn [k_stack k_regs k_world]. by rewrite Hl.
Qed.

Lemma run_pushes Q rs : ∀ pos regs stk w, code_at pos (pushes rs) →
  runs Q (mkCore (pos + length rs) regs (reverse (get regs <$> rs) ++ stk) w) → runs Q (mkCore pos regs stk w).
Proof.
  induction rs as [|r rs IH]; intros pos regs stk w Hc Hr.
  - by rewrite Nat.add_0_r in Hr.
  - apply code_at_cons in Hc as [Hi Hc]. apply (run_push Q r); [done|]. apply IH; [done|].
    rewrite fmap_cons, reverse_cons, <- app_assoc in Hr. simpl in Hr. by rewrite Nat.add_succ_r in Hr.
Qed.

(** Registers after pops. *)
Definition popped (rs vs : list Z) (regs : Z → Z) : Z → Z := foldl (λ g '(r, v), upd g r v) regs (zip rs vs).

Lemma run_pops Q rs : ∀ vs pos regs stk w, code_at pos (pops rs) → length vs = length rs →
  runs Q (mkCore (pos + length rs) (popped rs vs regs) stk w) → runs Q (mkCore pos regs (vs ++ stk) w).
Proof.
  induction rs as [|r rs IH]; intros [|v vs] pos regs stk w Hc Hl Hr; try done.
  - by rewrite Nat.add_0_r in Hr.
  - apply code_at_cons in Hc as [Hi Hc]. eapply run_op; [exact Hi|reflexivity|].
    apply IH; [done|simpl in Hl; lia|]. simpl in Hr. by rewrite Nat.add_succ_r in Hr.
Qed.

Lemma popped_other rs : ∀ vs regs x, x ∉ rs → popped rs vs regs x = regs x.
Proof.
  induction rs as [|r rs IH]; intros [|v vs] regs x Hx; try done. apply not_elem_of_cons in Hx as [Hne Hx].
  unfold popped in *. simpl. rewrite IH by done. by rewrite upd_ne.
Qed.

Lemma popped_lookup rs : ∀ vs regs i r v, NoDup rs → rs !! i = Some r → vs !! i = Some v → popped rs vs regs r = v.
Proof.
  induction rs as [|r0 rs IH]; intros [|v0 vs] regs i r v Hnd Hr Hv; try done.
  apply NoDup_cons in Hnd as [Hn Hnd]. unfold popped in *. destruct i as [|i]; simpl in *.
  - injection Hr as ->. injection Hv as ->. fold (popped rs vs (upd regs r v)). rewrite popped_other by done. apply upd_eq.
  - by apply (IH vs _ i).
Qed.

(** *** Expressions *)

(** After the code of an expression: its value is in [r], registers below [n]
    are as before. *)
Definition epost (n r n' : Z) (regs : Z → Z) (stk : list Z) (pos : nat) (o : outcome Z) (e : ending) : Prop :=
  match o, e with
  | Done v w, At k =>
      ∃ regs', k = mkCore pos regs' stk w ∧ get regs' r = v ∧ canonical v ∧ world_ok w ∧
        (∀ x, 1 ≤ x < n → regs' x = regs x) ∧ r < n'
  | Abort w, Failed w' => w' = w
  | _, _ => False
  end.

Definition sim_expr (fuel : nat) : Prop := ∀ e env w o scope n c r n' pos regs stk,
  eval funs slots ctx fuel e env w = Some o → scalar_expr e = true →
  cexpr scope slots e n = Some (c, r, n') → code_at pos c →
  menv scope n env regs → scope_ok scope → 1 ≤ n ≤ 31 → world_ok w →
  runs (epost n r n' regs stk (pos + length c) o) (mkCore pos regs stk w).

(** A register is written and the code of the expression ends. *)
Lemma epost_write n r n' regs regs1 stk pos w v rd : canonical v → world_ok w → r = rd → n ≤ rd → 1 ≤ rd → rd < n' →
  (∀ x, 1 ≤ x < n → regs1 x = regs x) →
  epost n r n' regs stk (S pos) (Done v w) (At (mkCore (S pos) (upd regs1 rd v) stk w)).
Proof.
  intros Hv Hw -> Hn H1 Hn' Hr. exists (upd regs1 rd v). split_and!; try done.
  - by rewrite get_pos, upd_eq by lia.
  - intros x Hx. rewrite upd_ne by lia. by apply Hr.
Qed.

(** *** Literals *)

(** The value of base-2^30 digits, as the field sees it. *)
Definition horner (acc : Z) (l : list Z) : Z := foldl (λ a d, (a * 2 ^ 30 + d) mod GOLDILOCKS_P) acc l.

Lemma chunks_digits v : chunks_of v = [v / 2 ^ 60 mod 16; v / 2 ^ 30 mod 2 ^ 30; v mod 2 ^ 30].
Proof.
  unfold chunks_of. change 15 with (Z.ones 4). change 1073741823 with (Z.ones 30).
  by rewrite !Z.land_ones, !Z.shiftr_div_pow2 by lia.
Qed.

Lemma horner_step a d : (a mod GOLDILOCKS_P * 2 ^ 30 + d) mod GOLDILOCKS_P = (a * 2 ^ 30 + d) mod GOLDILOCKS_P.
Proof.
  rewrite <- (Zplus_mod_idemp_l (a mod GOLDILOCKS_P * 2 ^ 30)), Zmult_mod_idemp_l. apply Zplus_mod_idemp_l.
Qed.

Lemma chunks_value v : 0 ≤ v < GOLDILOCKS_P → horner 0 (chunks_of v) = v.
Proof.
  intros Hv. rewrite chunks_digits. unfold horner. cbn [foldl]. rewrite horner_step.
  transitivity (v mod GOLDILOCKS_P); [|by apply Z.mod_small]. f_equal.
  assert (0 ≤ v / 2 ^ 60 < 16) as H0.
  { split; [apply Z.div_pos; lia|]. apply Z.div_lt_upper_bound; [lia|]. unfold GOLDILOCKS_P in Hv. lia. }
  rewrite Z.mul_0_l, Z.add_0_l, (Z.mod_small (v / 2 ^ 60) 16), (Z.mod_small (v / 2 ^ 60)) by (unfold GOLDILOCKS_P; lia).
  pose proof (Z.div_mod v (2 ^ 30) ltac:(lia)) as H1. pose proof (Z.div_mod (v / 2 ^ 30) (2 ^ 30) ltac:(lia)) as H2.
  rewrite Z.div_div in H2 by lia. change (2 ^ 30 * 2 ^ 30) with (2 ^ 60) in H2.
  revert H1 H2. generalize (v / 2 ^ 60) (v mod 2 ^ 30). generalize (v / 2 ^ 30 mod 2 ^ 30).
  generalize (v / 2 ^ 30). lia.
Qed.

(** One digit of a literal; [b] says whether one has been loaded yet. *)
Lemma digit_run Q rg sr tr stk w d (b : bool) acc pos (regs : Z → Z) : 1 ≤ rg → rg < sr → sr < tr → 0 ≤ d < 2 ^ 30 →
  regs sr = 2 ^ 30 → canonical acc → (if b then regs rg = acc else acc = 0) →
  let c := chunk_code rg sr tr ([], b) d in
  code_at pos c.1 →
  (∀ regs1 : Z → Z, (if c.2 then regs1 rg = (acc * 2 ^ 30 + d) mod GOLDILOCKS_P else (acc * 2 ^ 30 + d) mod GOLDILOCKS_P = 0) →
    regs1 sr = 2 ^ 30 → (∀ x, x < rg → regs1 x = regs x) → runs Q (mkCore (pos + length c.1) regs1 stk w)) →
  runs Q (mkCore pos regs stk w).
Proof.
  intros Hrg Hsr Htr Hd Hs Hacc Hb c. subst c. unfold chunk_code.
  assert (as_u64 d = d) as Hu by (apply Z.mod_small; lia).
  assert (∀ v, get (upd regs rg v) rg = v) as Hgr by (intros v; by rewrite get_pos, upd_eq by lia).
  destruct b.
  - rewrite orb_true_r. destruct (Z.ltb_spec 0 d) as [Hpos|Hz]; cbn [fst snd app]; intros Hat Hk.
    + apply code_at_cons in Hat as [H1 Hat]. apply code_at_cons in Hat as [H2 Hat]. apply code_at_cons in Hat as [H3 _].
      eapply run_op; [exact H1|reflexivity|]. eapply run_op; [exact H2|reflexivity|].
      eapply run_op; [exact H3|reflexivity|]. cbn [k_regs k_pc k_stack k_world]. rewrite Hu.
      rewrite (get_pos regs rg), Hb, (get_pos regs sr), Hs by lia.
      replace (S (S (S pos))) with (pos + 3)%nat by lia. apply Hk.
      * rewrite upd_eq, !get_pos, upd_eq, upd_ne, upd_eq by lia. unfold binary, field_mul_goldilocks, field_add_goldilocks.
        apply Zplus_mod_idemp_l.
      * rewrite !upd_ne by lia. done.
      * intros x Hx. by rewrite !upd_ne by lia.
    + apply code_at_cons in Hat as [H1 _]. eapply run_op; [exact H1|reflexivity|]. cbn [k_regs k_pc k_stack k_world].
      rewrite (get_pos regs rg), Hb, (get_pos regs sr), Hs by lia. replace (S pos) with (pos + 1)%nat by lia. apply Hk.
      * rewrite upd_eq. replace d with 0 by lia. by rewrite Z.add_0_r.
      * by rewrite upd_ne by lia.
      * intros x Hx. by rewrite upd_ne by lia.
  - subst acc. rewrite orb_false_r. destruct (Z.ltb_spec 0 d) as [Hpos|Hz]; cbn [fst snd app]; intros Hat Hk.
    + apply code_at_cons in Hat as [H1 _]. eapply run_op; [exact H1|reflexivity|]. cbn [k_regs k_pc k_stack k_world].
      rewrite Hu. replace (S pos) with (pos + 1)%nat by lia. apply Hk.
      * rewrite upd_eq, Z.mul_0_l, Z.add_0_l. symmetry. apply Z.mod_small. unfold GOLDILOCKS_P. lia.
      * by rewrite upd_ne by lia.
      * intros x Hx. by rewrite upd_ne by lia.
    + replace d with 0 in Hk by lia. rewrite Nat.add_0_r in Hk. by apply Hk.
Qed.

Lemma chunk_run Q rg sr tr stk w l : 1 ≤ rg → rg < sr → sr < tr → Forall (λ d, 0 ≤ d < 2 ^ 30) l →
  ∀ (b : bool) acc pos (regs : Z → Z), regs sr = 2 ^ 30 → canonical acc → (if b then regs rg = acc else acc = 0) →
  let c := foldl (chunk_code rg sr tr) ([], b) l in
  code_at pos c.1 →
  (∀ regs' : Z → Z, (if c.2 then regs' rg = horner acc l else horner acc l = 0) → (∀ x, x < rg → regs' x = regs x) →
    runs Q (mkCore (pos + length c.1) regs' stk w)) →
  runs Q (mkCore pos regs stk w).
Proof.
  intros Hrg Hsr Htr. induction 1 as [|d l Hd _ IH]; intros b acc pos regs Hs Hacc Hb; cbn [foldl].
  { intros _ Hk. specialize (Hk regs Hb). rewrite Nat.add_0_r in Hk. by apply Hk. }
  destruct (chunk_code rg sr tr ([], b) d) as [c1 b1] eqn:Hc1. rewrite GenLemmas.chunk_code_acc.
  destruct (foldl (chunk_code rg sr tr) ([], b1) l) as [c2 b2] eqn:Hc2. cbv zeta. cbn [fst snd]. intros Hat Hk.
  apply code_at_app in Hat as [Hat1 Hat2].
  apply (digit_run Q rg sr tr stk w d b acc pos regs); try done; rewrite Hc1; cbn [fst snd]; [done|].
  intros regs1 Hr1 Hs1 Hx1.
  apply (IH b1 ((acc * 2 ^ 30 + d) mod GOLDILOCKS_P) (pos + length c1)%nat regs1 Hs1 (canonical_mod _) Hr1);
    rewrite Hc2; cbn [fst snd]; [done|].
  intros regs' Hr' Hx'. rewrite <- Nat.add_assoc, <- length_app. apply Hk; [done|].
  intros x Hx. rewrite Hx' by done. by apply Hx1.
Qed.

Lemma int_sim v w n c r n' pos regs stk : 0 ≤ v < GOLDILOCKS_P → cint v n = Some (c, r, n') → code_at pos c →
  1 ≤ n ≤ 31 → world_ok w →
  runs (epost n r n' regs stk (pos + length c) (Done v w)) (mkCore pos regs stk w).
Proof.
  intros Hv. unfold cint. rewrite (proj2 (Z.leb_gt _ _)) by lia. destruct (Z.leb_spec v I32_MAX) as [Hle|Hgt].
  - destruct (alloc n) as [[a n1]|] eqn:E1; [|done]. cbn [mbind option_bind]. intros [= <- <- <-] Hat Hn Hw.
    apply alloc_bounds in E1 as (->&->&?). apply code_at_cons in Hat as [H1 _].
    eapply run_op; [exact H1|reflexivity|]. apply runs_now. cbn [k_regs k_pc k_stack k_world length].
    rewrite Nat.add_1_r. unfold I32_MAX in Hle. replace (as_u64 v) with v by (symmetry; apply Z.mod_small; lia).
    by apply epost_write; try lia.
  - destruct (alloc n) as [[a n1]|] eqn:E1; [|done]. cbn [mbind option_bind].
    destruct (alloc n1) as [[b n2]|] eqn:E2; [|done]. cbn [mbind option_bind].
    destruct (alloc n2) as [[d n3]|] eqn:E3; [|done]. cbn [mbind option_bind].
    apply alloc_bounds in E1 as (->&->&Ha1), E2 as (->&->&Ha2), E3 as (->&->&Ha3).
    assert (chunks_of v = chunks_of v) as Hch by done. revert Hch. generalize (chunks_of v) at 2 3 as l.
    intros l Hl. destruct (foldl (chunk_code n (n + 1) (n + 1 + 1)) ([], false) l) as [cl bl] eqn:Hcl. cbn [fst].
    intros [= <- <- <-] Hat Hn Hw. apply code_at_cons in Hat as [H1 Hat].
    eapply run_op; [exact H1|reflexivity|]. cbn [k_regs k_pc k_stack k_world].
    apply (chunk_run _ n (n + 1) (n + 1 + 1) stk w l ltac:(lia) ltac:(lia) ltac:(lia)
      ltac:(rewrite <- Hl; apply chunks_range) false 0); rewrite ?Hcl; cbn [fst snd]; try done.
    { by rewrite upd_eq. }
    intros regs' Hr' Hx'. rewrite <- Hl, chunks_value in Hr' by done.
    apply runs_now. exists regs'. split; [f_equal; simpl; lia|].
    assert (regs' n = v) as Hrv. { destruct bl; [done|]. unfold I32_MAX in Hgt. lia. }
    split_and!; try done; try lia.
    + by rewrite get_pos by lia.
    + intros x Hx. rewrite Hx' by lia. by rewrite upd_ne by lia.
Qed.

(** *** Composition *)
Lemma seq_expr Q n r n' regs stk pos o k : runs (epost n r n' regs stk pos o) k →
  (∀ v w regs1, o = Done v w → get regs1 r = v → canonical v → world_ok w →
     (∀ x, 1 ≤ x < n → regs1 x = regs x) → r < n' → runs Q (mkCore pos regs1 stk w)) →
  (∀ w, o = Abort w → Q (Failed w)) → runs Q k.
Proof.
  intros Hr Hd Ha. apply (runs_bind _ _ _ _ _ _ Hr).
  - intros k'. destruct o as [v w|w]; [|done]. intros (regs'&->&?&?&?&?&?). by eapply Hd.
  - intros w'. destruct o as [v w|w]; [done|]. intros ->. by apply Ha.
Qed.

Definition apost (n : Z) (rs : list Z) (n' : Z) (regs : Z → Z) (stk : list Z) (pos : nat) (o : outcome (list Z)) (e : ending) : Prop :=
  match o, e with
  | Done vs w, At k =>
      ∃ regs', k = mkCore pos regs' stk w ∧ get regs' <$> rs = vs ∧ Forall canonical vs ∧ world_ok w ∧
        (∀ x, 1 ≤ x < n → regs' x = regs x)
  | Abort w, Failed w' => w' = w
  | _, _ => False
  end.

(** What a call leaves: the value on the stack, at the return address. *)
Definition cpost (ret : nat) (stk : list Z) (o : outcome Z) (e : ending) : Prop :=
  match o, e with
  | Done v w, At k => ∃ regs', k = mkCore ret regs' (v :: stk) w ∧ canonical v ∧ world_ok w
  | Abort w, Failed w' => w' = w
  | _, _ => False
  end.

Definition sim_call (fuel : nat) : Prop := ∀ name vs w o t regs ret stk,
  call funs slots ctx fuel name vs w = Some o → offs !! name = Some t → Forall canonical vs → world_ok w →
  runs (cpost ret stk o) (mkCore t regs (Z.of_nat ret :: reverse vs ++ stk) w).

Lemma args_sim fuel scope env : sim_expr fuel → scope_ok scope → ∀ es w o n c rs n' pos regs stk,
  eval_list (λ e w, eval funs slots ctx fuel e env w) es w = Some o → forallb scalar_expr es = true →
  cargs (λ e n, cexpr scope slots e n) es n = Some (c, rs, n') → code_at pos c →
  menv scope n env regs → 1 ≤ n ≤ 31 → world_ok w →
  runs (apost n rs n' regs stk (pos + length c) o) (mkCore pos regs stk w).
Proof.
  intros Hsim Hsc. induction es as [|e es IH]; intros w o n c rs n' pos regs stk Hev Hs Hc Hat Hm Hn Hw;
    cbn [eval_list cargs forallb] in *.
  { injection Hev as <-. injection Hc as <- <- <-. apply runs_now. exists regs. by rewrite Nat.add_0_r. }
  apply andb_true_iff in Hs as [Hs1 Hs2].
  destruct (cexpr scope slots e n) as [[[c1 r] n1]|] eqn:E1; [|done]. cbn [mbind option_bind] in Hc.
  destruct (cargs _ es n1) as [[[c2 rs2] n2]|] eqn:E2; [|done]. cbn [mbind option_bind] in Hc.
  injection Hc as <- <- <-. apply code_at_app in Hat as [Hat1 Hat2].
  destruct (eval funs slots ctx fuel e env w) as [o1|] eqn:He; [|done].
  pose proof (cexpr_bounds scope slots e Hsc n c1 r n1 Hn E1) as (Hr&Hn1&_).
  apply (seq_expr _ _ _ _ _ _ _ _ _ (Hsim e env w o1 scope n c1 r n1 pos regs stk He Hs1 E1 Hat1 Hm Hsc Hn Hw)).
  - intros v w1 regs1 -> Hv Hcv Hw1 Hp Hlt. cbn [bind] in Hev.
    destruct (eval_list _ es w1) as [o2|] eqn:He2; [|done].
    assert (menv scope n1 env regs1) as Hm1.
    { apply (menv_weaken scope n); [by apply (menv_regs _ _ _ regs)|done|lia]. }
    specialize (IH w1 o2 n1 c2 rs2 n2 (pos + length c1)%nat regs1 stk He2 Hs2 E2 Hat2 Hm1 ltac:(lia) Hw1).
    apply (runs_bind _ _ _ _ _ _ IH).
    + intros k'. destruct o2 as [vs w2|w2]; [|done]. cbn [bind] in Hev. injection Hev as <-.
      intros (regs2&->&Hvs&Hcvs&Hw2&Hp2). apply runs_now. exists regs2. rewrite length_app, Nat.add_assoc. split_and!; try done.
      * rewrite fmap_cons, Hvs. f_equal. rewrite <- Hv, !get_pos by lia. apply Hp2. lia.
      * by constructor.
      * intros x Hx. rewrite Hp2 by lia. by apply Hp.
    + intros w'. destruct o2 as [vs w2|w2]; [done|]. cbn [bind] in Hev. injection Hev as <-. by intros ->.
  - intros w1 ->. cbn [bind] in Hev. by injection Hev as <-.
Qed.

(** Two operands, then one operation. *)
Lemma binary_sim fuel (f : Z → Z → Z) op e1 e2 env w o scope n c1 l n1 c2 r n2 res pos regs stk :
  sim_expr fuel → (∀ a b, canonical (f a b)) →
  (∀ k, cexec offs ctx (Op op res l r 0) k = Some (write k res (f (get (k_regs k) l) (get (k_regs k) r)))) →
  bind (eval funs slots ctx fuel e1 env w) (λ a w, bind (eval funs slots ctx fuel e2 env w) (λ b w, Some (Done (f a b) w))) = Some o →
  scalar_expr e1 = true → scalar_expr e2 = true →
  cexpr scope slots e1 n = Some (c1, l, n1) → cexpr scope slots e2 n1 = Some (c2, r, n2) →
  pick_reg l n r n1 n2 = Some res → code_at pos (c1 ++ c2 ++ [Op op res l r 0]) →
  menv scope n env regs → scope_ok scope → 1 ≤ n ≤ 31 → world_ok w →
  runs (epost n res (Z.max (res + 1) n) regs stk (pos + length (c1 ++ c2 ++ [Op op res l r 0])) o) (mkCore pos regs stk w).
Proof.
  intros Hsim Hcan Hex Hev Hs1 Hs2 E1 E2 Ep Hat Hm Hsc Hn Hw.
  apply code_at_app in Hat as [Hat1 Hat]. apply code_at_app in Hat as [Hat2 Hat3].
  pose proof (cexpr_bounds scope slots e1 Hsc n c1 l n1 Hn E1) as (Hl&Hn1&_).
  pose proof (cexpr_bounds scope slots e2 Hsc n1 c2 r n2 ltac:(lia) E2) as (Hr&Hn2&_).
  apply pick_bounds in Ep; [|lia..].
  destruct (eval funs slots ctx fuel e1 env w) as [o1|] eqn:He1; [|done].
  apply (seq_expr _ _ _ _ _ _ _ _ _ (Hsim e1 env w o1 scope n c1 l n1 pos regs stk He1 Hs1 E1 Hat1 Hm Hsc Hn Hw)).
  - intros a w1 regs1 -> Ha Hca Hw1 Hp Hlt. cbn [bind] in Hev.
    destruct (eval funs slots ctx fuel e2 env w1) as [o2|] eqn:He2; [|done].
    assert (menv scope n1 env regs1) as Hm1.
    { apply (menv_weaken scope n); [by apply (menv_regs _ _ _ regs)|done|lia]. }
    apply (seq_expr _ _ _ _ _ _ _ _ _ (Hsim e2 env w1 o2 scope n1 c2 r n2 _ regs1 stk He2 Hs2 E2 Hat2 Hm1 Hsc ltac:(lia) Hw1)).
    + intros b w2 regs2 -> Hb Hcb Hw2 Hp2 Hlt2. cbn [bind] in Hev. injection Hev as <-.
      apply code_at_cons in Hat3 as [Hi _]. eapply run_op; [exact Hi|rewrite Hex; reflexivity|].
      apply runs_now. cbn [k_regs k_pc k_stack k_world].
      assert (get regs2 l = a) as -> by (rewrite <- Ha, !get_pos by lia; apply Hp2; lia). rewrite Hb.
      replace (pos + length (c1 ++ c2 ++ [Op op res l r 0]))%nat with (S (pos + length c1 + length c2)) by (rewrite !length_app; simpl; lia).
      apply epost_write; try done; try lia. intros x Hx. rewrite Hp2 by lia. by apply Hp.
    + intros w2 ->. cbn [bind] in Hev. by injection Hev as <-.
  - intros w1 ->. cbn [bind] in Hev. by injection Hev as <-.
Qed.

(** *** Calls *)
Lemma popped_map (f : Z → Z) rs : ∀ regs x, x ∈ rs → popped rs (f <$> rs) regs x = f x.
Proof.
  induction rs as [|r rs IH]; intros regs x Hx; [by apply not_elem_of_nil in Hx|].
  unfold popped in *. cbn [fmap list_fmap zip zip_with foldl]. destruct (decide (x ∈ rs)) as [Hin|Hout]; [by apply IH|].
  apply elem_of_cons in Hx as [->|]; [|done]. fold (popped rs (f <$> rs) (upd regs r (f r))).
  rewrite popped_other by done. apply upd_eq.
Qed.

Lemma elem_of_live n x : x ∈ live_regs n ↔ 1 ≤ x < n.
Proof. unfold live_regs. rewrite elem_of_seqZ. lia. Qed.

Lemma run_call Q name t pos regs stk w : code !! pos = Some (CallTo name) → offs !! name = Some t →
  runs Q (mkCore t regs (Z.of_nat (S pos) :: stk) w) → runs Q (mkCore pos regs stk w).
Proof.
  intros Hi Ht Hr. destruct (1024 <=? length stk)%nat eqn:Hl.
  - apply runs_overflow. unfold cstep. cbn [k_pc]. rewrite Hi. cbn [mbind option_bind cexec k_regs k_pc]. rewrite Ht.
    cbn [mbind option_bind]. unfold pushed. cbn [k_stack]. by rewrite Hl.
  - refine (run_op Q _ _ _ _ _ _ Hi _ Hr). cbn [cexec k_regs k_pc]. rewrite Ht. cbn [mbind option_bind]. unfold pushed.
    cbn [k_stack k_regs k_world]. by rewrite Hl.
Qed.

Lemma call_sim fuel name args env w o scope n c res n' pos regs stk :
  sim_expr fuel → sim_call fuel →
  bind (eval_list (λ e w, eval funs slots ctx fuel e env w) args w) (λ vs w, call funs slots ctx fuel name vs w) = Some o →
  forallb scalar_expr args = true →
  ('(c, rs, _) ← cargs (λ e n, cexpr scope slots e n) args n;
   '(res, n') ← alloc n;
   Some (pushes (live_regs n) ++ c ++ pushes rs ++ [CallTo name; Op Isa.Pop res 0 0 0] ++
         pops (reverse (live_regs n)), res, n')) = Some (c, res, n') → code_at pos c →
  menv scope n env regs → scope_ok scope → 1 ≤ n ≤ 31 → world_ok w →
  runs (epost n res n' regs stk (pos + length c) o) (mkCore pos regs stk w).
Proof.
  intros Hse Hsc Hev Hs Hc Hat Hm Hok Hn Hw.
  destruct (cargs _ args n) as [[[ca rs] na]|] eqn:Ea; [|done]. cbn [mbind option_bind] in Hc.
  destruct (alloc n) as [[res0 n0]|] eqn:E; [|done]. cbn [mbind option_bind] in Hc.
  apply alloc_bounds in E as (->&->&Hn30). injection Hc as <- <- <-.
  apply code_at_app in Hat as [Hat1 Hat]. apply code_at_app in Hat as [Hat2 Hat]. apply code_at_app in Hat as [Hat3 Hat].
  apply code_at_cons in Hat as [Hcall Hat]. apply code_at_cons in Hat as [Hpop Hat4].
  unfold pushes in Hat2, Hat3, Hat4, Hcall, Hpop. rewrite ?length_fmap in *.
  apply (run_pushes _ (live_regs n)); [done|].
  destruct (eval_list _ args w) as [oa|] eqn:Hea; [|done].
  apply (runs_bind _ _ _ _ _ _ (args_sim fuel scope env Hse Hok args w oa n ca rs na _ regs
    (reverse (get regs <$> live_regs n) ++ stk) Hea Hs Ea Hat2 Hm Hn Hw)).
  2: { intros w'. destruct oa as [vs w1|w1]; [done|]. cbn [bind] in Hev. injection Hev as <-. by intros ->. }
  intros k'. destruct oa as [vs w1|w1]; [|done]. cbn [bind] in Hev. intros (regs1&->&Hvs&Hcvs&Hw1&Hp1).
  apply (run_pushes _ rs); [exact Hat3|]. rewrite Hvs.
  assert (∃ t, offs !! name = Some t) as [t Ht].
  { destruct fuel as [|fuel]; [done|]. cbn [call] in Hev. destruct (funs name) as [f|] eqn:Hf; [|done].
    destruct (Hfuns name f Hf) as (_&t&fc&Ht&_). by exists t. }
  apply (run_call _ name t); [exact Hcall|done|].
  apply (runs_bind _ _ _ _ _ _ (Hsc name vs w1 o t regs1 _ _ Hev Ht Hcvs Hw1)).
  2: { intros w'. by destruct o. }
  intros k'. destruct o as [v w2|w2]; [|done]. intros (regs2&->&Hcv&Hw2).
  eapply run_op; [exact Hpop|reflexivity|]. cbn [k_regs k_pc k_stack k_world].
  rewrite <- fmap_reverse. apply (run_pops _ (reverse (live_regs n))); [exact Hat4|by rewrite length_fmap|].
  apply runs_now. eexists. split; [f_equal; rewrite !length_app; simpl; unfold pushes, pops; rewrite ?length_app, !length_fmap; lia|].
  split_and!; try done; [| |lia].
  - rewrite get_pos by lia. rewrite popped_other; [apply upd_eq|]. rewrite elem_of_reverse, elem_of_live. lia.
  - intros x Hx. rewrite popped_map.
    + rewrite get_pos by lia. done.
    + rewrite elem_of_reverse, elem_of_live. lia.
Qed.

Lemma syscall_sim k v w n c r n' pos regs stk : canonical v → world_ok w → 1 ≤ n →
  (∀ rd k0, cexec offs ctx (Op Isa.Syscall rd 0 0 k) k0 = Some (write k0 rd v)) →
  csyscall k n = Some (c, r, n') → code_at pos c →
  runs (epost n r n' regs stk (pos + length c) (Done v w)) (mkCore pos regs stk w).
Proof.
  intros Hv Hw Hn Hex. unfold csyscall. destruct (alloc n) as [[r0 n0]|] eqn:E; [|done]. intros [= <- <- <-] Hat.
  apply alloc_bounds in E as (->&->&?). apply code_at_cons in Hat as [Hi _].
  eapply run_op; [exact Hi|rewrite Hex; reflexivity|]. apply runs_now. cbn [k_regs k_pc k_stack k_world length].
  rewrite Nat.add_1_r. by apply epost_write; try lia.
Qed.

Lemma mapping_sim fuel x key env w o scope n c r n' pos regs stk : sim_expr fuel →
  (base ← slots !! x; bind (eval funs slots ctx fuel key env w) (λ k w, Some (Done (load w (mapping_slot base k)) w))) = Some o →
  scalar_expr key = true →
  cexpr scope slots (EMappingRead x key) n = Some (c, r, n') → code_at pos c →
  menv scope n env regs → scope_ok scope → 1 ≤ n ≤ 31 → world_ok w →
  runs (epost n r n' regs stk (pos + length c) o) (mkCore pos regs stk w).
Proof.
  intros Hsim Hev Hs Hc Hat Hm Hok Hn Hw. cbn [cexpr] in Hc.
  destruct (slots !! x) as [base|] eqn:Hx; [|done]. apply Hslots in Hx. cbn [mbind option_bind] in Hev, Hc.
  destruct (cexpr scope slots key n) as [[[ck kr] n0]|] eqn:Ek; [|done]. cbn [mbind option_bind] in Hc.
  destruct (alloc n0) as [[a n1]|] eqn:E1; [|done]. cbn [mbind option_bind] in Hc.
  destruct (alloc n1) as [[b n2]|] eqn:E2; [|done]. cbn [mbind option_bind] in Hc.
  destruct (alloc n2) as [[d n3]|] eqn:E3; [|done]. cbn [mbind option_bind] in Hc. injection Hc as <- <- <-.
  pose proof (cexpr_bounds scope slots key Hok n ck kr n0 Hn Ek) as (Hkr&Hn0&_).
  apply alloc_bounds in E1 as (->&->&Ha1), E2 as (->&->&Ha2), E3 as (->&->&Ha3).
  apply code_at_app in Hat as [Hat1 Hat]. apply code_at_cons in Hat as [H1 Hat]. apply code_at_cons in Hat as [H2 Hat].
  apply code_at_cons in Hat as [H3 _].
  destruct (eval funs slots ctx fuel key env w) as [ok|] eqn:Hek; [|done].
  apply (seq_expr _ _ _ _ _ _ _ _ _ (Hsim key env w ok scope n ck kr n0 pos regs stk Hek Hs Ek Hat1 Hm Hok Hn Hw)).
  2: { intros w1 ->. cbn [bind] in Hev. by injection Hev as <-. }
  intros k w1 regs1 -> Hk Hck Hw1 Hp Hlt. cbn [bind] in Hev. injection Hev as <-.
  eapply run_op; [exact H1|reflexivity|]. eapply run_op; [exact H2|reflexivity|].
  eapply run_op; [exact H3|reflexivity|]. apply runs_now. cbn [k_regs k_pc k_stack k_world].
  replace (pos + length (ck ++ [Op Isa.Load n0 0 0 base; Op Isa.Poseidon (n0 + 1) n0 kr 0; Op Isa.SRead (n0 + 1 + 1) 0 (n0 + 1) (-1)]))%nat
    with (S (S (S (pos + length ck)))) by (rewrite length_app; simpl; lia).
  rewrite (get_pos _ (n0 + 1)), upd_eq, (get_pos _ n0), upd_eq, (get_pos _ kr), upd_ne, <- (get_pos regs1 kr), Hk by lia.
  replace (as_u64 base) with base by (symmetry; apply Z.mod_small; lia).
  change (slot (-1) (poseidon4_hash base k)) with (mapping_slot base k).
  apply epost_write; try done; try lia; [by apply load_canonical|]. intros y Hy. rewrite !upd_ne by lia. by apply Hp.
Qed.

Lemma poseidon_cases fuel a b env w o :
  bind (eval_list (λ e w, eval funs slots ctx fuel e env w) [a; b] w)
    (λ vs w, match vs with [x; y] => Some (Done (poseidon4_hash x y) w) | _ => None end) = Some o →
  bind (eval funs slots ctx fuel a env w) (λ x w, bind (eval funs slots ctx fuel b env w)
    (λ y w, Some (Done (poseidon4_hash x y) w))) = Some o.
Proof.
  cbn [eval_list]. destruct (eval funs slots ctx fuel a env w) as [[x w1|w1]|]; cbn [bind]; [|done|done].
  by destruct (eval funs slots ctx fuel b env w1) as [[y w2|w2]|].
Qed.

Lemma expr_step fuel : sim_expr fuel → sim_call fuel → sim_expr (S fuel).
Proof.
  intros Hse Hsc e env w o scope n c r n' pos regs stk Hev Hs Hc Hat Hm Hok Hn Hw. cbn [eval] in Hev.
  destruct e as [v|x|x|x key|b f|x fs|a op b|x args]; cbn [scalar_expr] in Hs.
  - destruct (Z.ltb_spec v GOLDILOCKS_P); [|done]. injection Hev as <-. apply int_sim; try done. lia.
  - destruct (env !! x) as [v|] eqn:Hx; [|done]. injection Hev as <-. cbn [cexpr] in Hc.
    destruct (menv_var _ _ _ _ Hm x v Hx) as (vi&Hvi&Hr&Hv&Hcv). rewrite Hvi in Hc. injection Hc as <- <- <-.
    apply runs_now. exists regs. rewrite Nat.add_0_r, get_pos by lia. split_and!; try done. lia.
  - cbn [cexpr] in Hc. destruct (alloc n) as [[r0 n0]|] eqn:E; [|done]. cbn [mbind option_bind] in Hc.
    destruct (slots !! x) as [s|] eqn:Hx; [|done]. apply Hslots in Hx. injection Hev as <-. injection Hc as <- <- <-.
    apply alloc_bounds in E as (->&->&?). apply code_at_cons in Hat as [Hi _].
    eapply run_op; [exact Hi|reflexivity|]. apply runs_now. cbn [k_regs k_pc k_stack k_world length]. rewrite Nat.add_1_r.
    unfold slot. destruct (Z.eqb_spec s (-1)); [lia|].
    apply epost_write; try done; try lia. by apply load_canonical.
  - by apply (mapping_sim fuel x key env w o scope).
  - done.
  - done.
  - apply andb_true_iff in Hs as [Hs1 Hs2]. cbn [cexpr] in Hc.
    destruct (cexpr scope slots a n) as [[[c1 l] n1]|] eqn:E1; [|done]. cbn [mbind option_bind] in Hc.
    destruct (cexpr scope slots b n1) as [[[c2 r0] n2]|] eqn:E2; [|done]. cbn [mbind option_bind] in Hc.
    destruct (pick_reg l n r0 n1 n2) as [res|] eqn:Ep; [|done]. injection Hc as <- <- <-.
    apply (binary_sim fuel (binary op) (op_of op) a b env w o scope n c1 l n1 c2 r0 n2); try done.
    + apply binary_canonical.
    + by destruct op.
  - apply andb_true_iff in Hs as [Hs Hargs]. apply andb_true_iff in Hs as [Hs Hb]. apply andb_true_iff in Hs as [_ Hps].
    cbn [cexpr] in Hc. destruct (decide (x = "poseidon")) as [->|Hnp].
    { destruct args as [|a [|b [|]]]; try done. cbn [forallb] in Hargs.
      apply andb_true_iff in Hargs as [Hs1 Hargs]. apply andb_true_iff in Hargs as [Hs2 _].
      repeat (rewrite decide_False in Hev by done). apply poseidon_cases in Hev.
      destruct (cexpr scope slots a n) as [[[c1 l] n1]|] eqn:E1; [|done]. cbn [mbind option_bind] in Hc.
      destruct (cexpr scope slots b n1) as [[[c2 r0] n2]|] eqn:E2; [|done]. cbn [mbind option_bind] in Hc.
      destruct (pick_reg l n r0 n1 n2) as [res|] eqn:Ep; [|done]. injection Hc as <- <- <-.
      apply (binary_sim fuel poseidon4_hash Isa.Poseidon a b env w o scope n c1 l n1 c2 r0 n2); try done.
      apply poseidon4_canonical. }
    destruct (decide (x = "msg::sender")) as [->|].
    { injection Hev as <-. by apply (syscall_sim 1); try lia. }
    destruct (decide (x = "msg::nonce")) as [->|].
    { injection Hev as <-. by apply (syscall_sim 3); try lia. }
    destruct (decide (x = "block::number")) as [->|].
    { injection Hev as <-. by apply (syscall_sim 2); try lia. }
    by apply (call_sim fuel x args env w o scope).
Qed.

(** *** Statements *)

(** A register below [n] that holds no variable of [A]. *)
Definition framed (A : list string) (scope : Scope) (n : Z) (env : Env) (r : Z) : Prop :=
  1 ≤ r < n ∧ ∀ x vi, x ∈ A → is_Some (env !! x) → scope !! x = Some vi → reg vi ≠ r.

(** A variable of the new environment is an old one in its register, or in a
    register from [n] on. *)
Definition grows (scope : Scope) (n : Z) (env : Env) (scope' : Scope) (env' : Env) : Prop :=
  ∀ x vi, is_Some (env' !! x) → scope' !! x = Some vi → (is_Some (env !! x) ∧ scope !! x = Some vi) ∨ n ≤ reg vi.

(** After a statement: at the next one, or returned to [ret]. *)
Definition spost (D : string → Prop) (A : list string) (scope : Scope) (n : Z) (env : Env) (regs : Z → Z)
    (scope' : Scope) (n' : Z) (ret : nat) (stk : list Z) (pos : nat) (o : outcome flow) (e : ending) : Prop :=
  match o, e with
  | Done (Next env') w, At k =>
      ∃ regs', k = mkCore pos regs' (Z.of_nat ret :: stk) w ∧ menv scope' n' env' regs' ∧ world_ok w ∧
        (∀ x, is_Some (env' !! x) → D x) ∧ grows scope n env scope' env' ∧
        (∀ r, framed A scope n env r → regs' r = regs r)
  | Done (Returned v) w, At k => ∃ regs', k = mkCore ret regs' (v :: stk) w ∧ canonical v ∧ world_ok w
  | Abort w, Failed w' => w' = w
  | _, _ => False
  end.

Definition sim_at (fuel : nat) (s : Stmt) : Prop := ∀ env w o outer cur scope n c scope' n' pos regs ret stk,
  exec funs slots ctx fuel s env w = Some o → scalar_stmt outer cur s = true →
  cstmt slots s scope n = Some (c, scope', n') → code_at pos c →
  menv scope n env regs → scope_ok scope → 1 ≤ n ≤ 31 → world_ok w →
  (∀ x, is_Some (env !! x) → x ∈ outer ∪ cur) →
  runs (spost (λ x, x ∈ outer ∪ (cur ∪ declares s)) (assigned s) scope n env regs scope' n' ret stk (pos + length c) o)
    (mkCore pos regs (Z.of_nat ret :: stk) w).

Definition sim_stmt (fuel : nat) : Prop := ∀ s, sim_at fuel s.

Lemma seq_stmt Q D A scope n env regs scope' n' ret stk pos o k :
  runs (spost D A scope n env regs scope' n' ret stk pos o) k →
  (∀ env' w regs', o = Done (Next env') w → menv scope' n' env' regs' → world_ok w → (∀ x, is_Some (env' !! x) → D x) →
     grows scope n env scope' env' → (∀ r, framed A scope n env r → regs' r = regs r) →
     runs Q (mkCore pos regs' (Z.of_nat ret :: stk) w)) →
  (∀ v w regs', o = Done (Returned v) w → canonical v → world_ok w → Q (At (mkCore ret regs' (v :: stk) w))) →
  (∀ w, o = Abort w → Q (Failed w)) → runs Q k.
Proof.
  intros Hr Hn Hv Ha. apply (runs_bind _ _ _ _ _ _ Hr).
  - intros k'. destruct o as [[env'|v] w|w]; [| |done].
    + intros (regs'&->&?&?&?&?&?). by eapply Hn.
    + intros (regs'&->&?&?). apply runs_now. by apply Hv.
  - intros w'. destruct o as [[env'|v] w|w]; [done|done|]. intros ->. by apply Ha.
Qed.

Lemma run_jmp Q d pos regs stk w : code !! pos = Some (jmp d) →
  runs Q (mkCore (pos + d) regs stk w) → runs Q (mkCore pos regs stk w).
Proof.
  intros Hi Hr. eapply run_op; [exact Hi| |exact Hr]. cbn [cexec jmp]. unfold goto. cbn [k_pc k_regs k_stack k_world].
  rewrite (proj2 (Z.leb_le _ _)) by lia. do 3 f_equal. lia.
Qed.

Lemma run_jback Q d pos regs stk w : code !! (pos + d)%nat = Some (jback d) →
  runs Q (mkCore pos regs stk w) → runs Q (mkCore (pos + d) regs stk w).
Proof.
  intros Hi Hr. eapply run_op; [exact Hi| |exact Hr]. cbn [cexec jback]. unfold goto. cbn [k_pc k_regs k_stack k_world].
  rewrite (proj2 (Z.leb_le _ _)) by lia. do 3 f_equal. lia.
Qed.

Lemma run_jnz Q r d pos regs stk w : code !! pos = Some (jnz r d) →
  runs Q (mkCore (if get regs r =? 0 then S pos else pos + d) regs stk w) → runs Q (mkCore pos regs stk w).
Proof.
  intros Hi Hr. eapply run_op; [exact Hi| |exact Hr]. cbn [cexec jnz]. unfold goto, next. cbn [k_pc k_regs k_stack k_world].
  destruct (get regs r =? 0); [done|]. rewrite (proj2 (Z.leb_le _ _)) by lia. do 3 f_equal. lia.
Qed.

Lemma framed_le A scope n env r : framed A scope n env r → 1 ≤ r < n.
Proof. by intros []. Qed.

(** The registers below [n] are those before a temporary was computed. *)
Lemma spost_regs D A scope n env regs regs1 scope' n' ret stk pos o e : (∀ r, 1 ≤ r < n → regs1 r = regs r) →
  spost D A scope n env regs1 scope' n' ret stk pos o e → spost D A scope n env regs scope' n' ret stk pos o e.
Proof.
  intros Hr. destruct o as [[env'|v] w|w], e as [k|w']; try done. intros (regs'&?&?&?&?&?&Hf). exists regs'.
  split_and!; try done. intros r Hfr. rewrite Hf by done. apply Hr. by apply framed_le in Hfr.
Qed.

(** *** Lists of statements *)
Lemma framed_tail A scope n env scope1 n1 env1 r : n ≤ n1 → grows scope n env scope1 env1 →
  framed A scope n env r → framed A scope1 n1 env1 r.
Proof.
  intros Hn Hg [Hr Hf]. split; [lia|]. intros x vi Hx Hx1 Hs1.
  destruct (Hg x vi Hx1 Hs1) as [[? ?]|?]; [by apply (Hf x)|lia].
Qed.

Lemma framed_app A B scope n env r : framed (A ++ B) scope n env r → framed A scope n env r ∧ framed B scope n env r.
Proof. intros [Hr Hf]. split; split; try done; intros x vi Hx; apply Hf; apply elem_of_app; auto. Qed.

Lemma list_sim fuel : sim_stmt fuel → ∀ ss env w o outer cur scope n c scope' n' pos regs ret stk,
  exec_list (exec funs slots ctx fuel) ss env w = Some o → scalar_list scalar_stmt outer cur ss = true →
  cblock (cstmt slots) ss scope n = Some (c, scope', n') → code_at pos c →
  menv scope n env regs → scope_ok scope → 1 ≤ n ≤ 31 → world_ok w →
  (∀ x, is_Some (env !! x) → x ∈ outer ∪ cur) →
  runs (spost (λ _, True) (ss ≫= assigned) scope n env regs scope' n' ret stk (pos + length c) o)
    (mkCore pos regs (Z.of_nat ret :: stk) w).
Proof.
  intros Hsim. induction ss as [|s ss IH]; intros env w o outer cur scope n c scope' n' pos regs ret stk Hex Hs Hc Hat Hm Hok Hn Hw Hd;
    cbn [exec_list scalar_list cblock] in *.
  { injection Hex as <-. injection Hc as <- <- <-. apply runs_now. exists regs. rewrite Nat.add_0_r.
    split_and!; try done. intros x vi Hx Hvi. by left. }
  apply andb_true_iff in Hs as [Hs1 Hs2].
  destruct (cstmt slots s scope n) as [[[c1 sc1] n1]|] eqn:E1; [|done]. cbn [mbind option_bind] in Hc.
  destruct (cblock _ ss sc1 n1) as [[[c2 sc2] n2]|] eqn:E2; [|done]. injection Hc as <- <- <-.
  apply code_at_app in Hat as [Hat1 Hat2].
  pose proof (cstmt_bounds slots s scope n Hok Hn _ _ _ E1) as [Hok1 Hn1].
  destruct (exec funs slots ctx fuel s env w) as [o1|] eqn:He1; [|done].
  apply (seq_stmt _ _ _ _ _ _ _ _ _ _ _ _ _ _ (Hsim s env w o1 outer cur scope n c1 sc1 n1 pos regs ret stk He1 Hs1 E1 Hat1 Hm Hok Hn Hw Hd)).
  - intros env1 w1 regs1 -> Hm1 Hw1 Hd1 Hg1 Hf1. cbn [bind] in Hex.
    apply (runs_mono _ _ _ _ _ _ (IH env1 w1 o outer (cur ∪ declares s) sc1 n1 c2 sc2 n2 _ regs1 ret stk Hex Hs2 E2 Hat2 Hm1 Hok1 ltac:(lia) Hw1 Hd1)).
    intros e. rewrite length_app, Nat.add_assoc. destruct o as [[env'|v] w'|w'], e as [k|w'']; try done.
    intros (regs'&->&Hm'&Hw'&_&Hg'&Hf'). exists regs'. split_and!; try done.
    + intros x vi Hx Hvi. destruct (Hg' x vi Hx Hvi) as [[Hx1 Hvi1]|]; [by apply Hg1|right; lia].
    + intros r Hfr. apply framed_app in Hfr as [Hfr1 Hfr2]. rewrite Hf'; [by apply Hf1|]. by eapply framed_tail; [|done..]; lia.
  - intros v w1 regs1 -> Hv Hw1. cbn [bind] in Hex. injection Hex as <-. by exists regs1.
  - intros w1 ->. cbn [bind] in Hex. by injection Hex as <-.
Qed.

(** A nested block gives back the scope it found. *)
Lemma block_sim fuel : sim_stmt fuel → ∀ ss env w o outer scope n c scope' n' pos regs ret stk,
  exec_block (exec funs slots ctx fuel) ss env w = Some o → scalar_list scalar_stmt outer ∅ ss = true →
  cblock (cstmt slots) ss scope n = Some (c, scope', n') → code_at pos c →
  menv scope n env regs → scope_ok scope → 1 ≤ n ≤ 31 → world_ok w →
  (∀ x, is_Some (env !! x) → x ∈ outer) →
  runs (spost (λ x, is_Some (env !! x)) (ss ≫= assigned) scope n env regs scope n ret stk (pos + length c) o)
    (mkCore pos regs (Z.of_nat ret :: stk) w).
Proof.
  intros Hsim ss env w o outer scope n c scope' n' pos regs ret stk Hex Hs Hc Hat Hm Hok Hn Hw Hd.
  unfold exec_block in Hex. destruct (exec_list _ ss env w) as [o1|] eqn:He; [|done].
  pose proof (block_stable slots ss outer ∅ scope n c scope' n' Hs Hc) as Hst.
  apply (seq_stmt _ _ _ _ _ _ _ _ _ _ _ _ _ _ (list_sim fuel Hsim ss env w o1 outer ∅ scope n c scope' n' pos regs ret stk
    He Hs Hc Hat Hm Hok Hn Hw ltac:(intros x Hx; apply elem_of_union_l; by apply Hd))).
  - intros env1 w1 regs1 -> Hm1 Hw1 _ _ Hf1. cbn [bind] in Hex. injection Hex as <-. apply runs_now. exists regs1.
    split_and!; try done.
    + apply (menv_back scope n env regs scope' n'); [done|done|]. intros x Hx. by apply Hst, Hd.
    + intros x Hx. by apply restrict_sub in Hx as [Hx _].
    + intros x vi Hx Hvi. left. by apply restrict_sub in Hx as [Hx _].
  - intros v w1 regs1 -> Hv Hw1. cbn [bind] in Hex. injection Hex as <-. by exists regs1.
  - intros w1 ->. cbn [bind] in Hex. by injection Hex as <-.
Qed.

Lemma nested_post (D : string → Prop) A A' scope n env regs scope' n' ret stk pos o e :
  spost (λ x, is_Some (env !! x)) A scope n env regs scope n ret stk pos o e →
  (∀ x, is_Some (env !! x) → scope' !! x = scope !! x) → n ≤ n' → (∀ x, is_Some (env !! x) → D x) →
  (∀ x, x ∈ A → x ∈ A') → spost D A' scope n env regs scope' n' ret stk pos o e.
Proof.
  intros Hp Hsc Hn HD HA. destruct o as [[env'|v] w|w], e as [k|w']; try done.
  destruct Hp as (regs'&->&Hm&Hw&Hd&Hg&Hf). exists regs'. split_and!; try done.
  - apply (menv_weaken scope n); [done| |done]. intros x Hx. by apply Hsc, Hd.
  - intros x Hx. by apply HD, Hd.
  - intros x vi Hx Hvi. rewrite Hsc in Hvi by (by apply Hd). by apply Hg.
  - intros r [Hr Hfr]. apply Hf. split; [done|]. intros x vi Hx. by apply Hfr, HA.
Qed.

(** A statement that changes no variable. *)
Lemma spost_same (D : string → Prop) A scope n env regs regs1 ret stk pos w :
  menv scope n env regs → (∀ r, 1 ≤ r < n → regs1 r = regs r) → world_ok w → (∀ x, is_Some (env !! x) → D x) →
  spost D A scope n env regs scope n ret stk pos (Done (Next env) w) (At (mkCore pos regs1 (Z.of_nat ret :: stk) w)).
Proof.
  intros Hm Hr Hw HD. exists regs1. split_and!; try done.
  - by apply (menv_regs _ _ _ regs).
  - intros x vi Hx Hvi. by left.
  - intros r Hfr. apply Hr. by apply framed_le in Hfr.
Qed.

Lemma dom_declares (env : Env) (outer cur d : gset string) : (∀ x, is_Some (env !! x) → x ∈ outer ∪ cur) →
  ∀ x, is_Some (env !! x) → x ∈ outer ∪ (cur ∪ d).
Proof. set_solver. Qed.

Lemma let_sim fuel x e : sim_expr fuel → sim_at (S fuel) (SLet x e).
Proof.
  intros Hse env w o outer cur scope n c scope' n' pos regs ret stk Hex Hs Hc Hat Hm Hok Hn Hw Hd.
  rewrite exec_S in Hex. cbn [scalar_stmt cstmt assigned declares] in *.
  apply andb_true_iff in Hs as [Hs _]. apply andb_true_iff in Hs as [Hs Hni]. apply negb_true_iff in Hni.
  destruct (cexpr scope slots e n) as [[[c1 r] m]|] eqn:E; [|done]. cbn [mbind option_bind] in Hc. injection Hc as <- <- <-.
  pose proof (cexpr_bounds scope slots e Hok n c1 r m Hn E) as (Hr&_&Hni'). specialize (Hni' Hni).
  rewrite (proj2 (Z.leb_le n r)) by lia.
  destruct (eval funs slots ctx fuel e env w) as [o1|] eqn:He; [|done].
  apply (seq_expr _ _ _ _ _ _ _ _ _ (Hse e env w o1 scope n c1 r m pos regs _ He Hs E Hat Hm Hok Hn Hw)).
  - intros v w1 regs1 -> Hv Hcv Hw1 Hp Hlt. cbn [bind] in Hex. injection Hex as <-. apply runs_now. exists regs1.
    rewrite get_pos in Hv by lia. split_and!; try done.
    + apply (menv_insert scope n); try done; [|lia|lia]. by apply (menv_regs _ _ _ regs).
    + intros y Hy. destruct (decide (x = y)) as [<-|Hne]; [set_solver|]. rewrite lookup_insert_ne in Hy by done.
      apply Hd in Hy. set_solver.
    + intros y vi Hy Hvi. destruct (decide (x = y)) as [<-|Hne].
      * rewrite lookup_insert_eq in Hvi. injection Hvi as <-. right. simpl. lia.
      * rewrite lookup_insert_ne in Hy by done. rewrite lookup_insert_ne in Hvi by done. by left.
    + intros r0 Hfr. apply Hp. by apply framed_le in Hfr.
  - intros w1 ->. cbn [bind] in Hex. by injection Hex as <-.
Qed.

Lemma assign_sim fuel x e : sim_expr fuel → sim_at (S fuel) (SAssign x e).
Proof.
  intros Hse env w o outer cur scope n c scope' n' pos regs ret stk Hex Hs Hc Hat Hm Hok Hn Hw Hd.
  rewrite exec_S in Hex. cbn [scalar_stmt cstmt assigned declares] in *.
  destruct (cexpr scope slots e n) as [[[c1 r] m]|] eqn:E; [|done]. cbn [mbind option_bind] in Hc.
  destruct (scope !! x) as [vi|] eqn:Hvi; [|done]. injection Hc as <- <- <-.
  pose proof (cexpr_bounds scope slots e Hok n c1 r m Hn E) as (Hr&_&_). pose proof (Hok x vi Hvi) as Hrx.
  apply code_at_app in Hat as [Hat1 Hat]. apply code_at_cons in Hat as [Hi _].
  destruct (eval funs slots ctx fuel e env w) as [o1|] eqn:He; [|done].
  apply (seq_expr _ _ _ _ _ _ _ _ _ (Hse e env w o1 scope n c1 r m pos regs _ He Hs E Hat1 Hm Hok Hn Hw)).
  - intros v w1 regs1 -> Hv Hcv Hw1 Hp Hlt. cbn [bind] in Hex. destruct (env !! x) as [u|] eqn:Hx; [|done].
    injection Hex as <-. eapply run_op; [exact Hi|reflexivity|]. apply runs_now. cbn [k_regs k_pc k_stack k_world].
    rewrite Hv. change (binary BAdd v (get regs1 0)) with (field_add_goldilocks v 0). rewrite field_add_0 by done.
    exists (upd regs1 (reg vi) v). rewrite length_app, Nat.add_assoc, Nat.add_1_r. split_and!; try done.
    + apply menv_assign; try done. by apply (menv_regs _ _ _ regs).
    + intros y Hy. apply (dom_declares env); [done|]. destruct (decide (x = y)) as [<-|Hne]; [by eexists|].
      by rewrite lookup_insert_ne in Hy.
    + intros y vy Hy Hvy. left. split; [|done]. destruct (decide (x = y)) as [<-|Hne]; [by eexists|].
      by rewrite lookup_insert_ne in Hy.
    + intros r0 [Hr0 Hfr]. rewrite upd_ne; [by apply Hp|]. intros Heq. symmetry in Heq. by apply (Hfr x vi); [left|eexists|..].
  - intros w1 ->. cbn [bind] in Hex. by injection Hex as <-.
Qed.

Ltac stmt_start :=
  intros env w o outer cur scope n c scope' n' pos regs ret stk Hex Hs Hc Hat Hm Hok Hn Hw Hd;
  rewrite exec_S in Hex; cbn [scalar_stmt cstmt assigned declares] in *.

(** An expression, then at most one instruction that leaves the variables
    alone. *)
Lemma constrain_sim fuel e : sim_expr fuel → sim_at (S fuel) (SConstrain e).
Proof.
  intros Hse. stmt_start.
  destruct (cexpr scope slots e n) as [[[c1 r] m]|] eqn:E; [|done]. cbn [mbind option_bind] in Hc. injection Hc as <- <- <-.
  apply code_at_app in Hat as [Hat1 Hat]. apply code_at_cons in Hat as [Hi _].
  destruct (eval funs slots ctx fuel e env w) as [o1|] eqn:He; [|done].
  apply (seq_expr _ _ _ _ _ _ _ _ _ (Hse e env w o1 scope n c1 r m pos regs _ He Hs E Hat1 Hm Hok Hn Hw)).
  - intros v w1 regs1 -> Hv Hcv Hw1 Hp Hlt. cbn [bind] in Hex. injection Hex as <-. destruct (v =? 0) eqn:Hz.
    + apply runs_abort; [|done]. unfold cstep. cbn [k_pc]. rewrite Hi. cbn [mbind option_bind cexec k_regs]. by rewrite Hv, Hz.
    + eapply run_op; [exact Hi|cbn [cexec k_regs]; rewrite Hv, Hz; reflexivity|]. apply runs_now.
      cbn [k_regs k_pc k_stack k_world]. rewrite length_app, Nat.add_assoc, Nat.add_1_r.
      apply spost_same; try done. by apply dom_declares.
  - intros w1 ->. cbn [bind] in Hex. by injection Hex as <-.
Qed.

Lemma write_sim fuel x e : sim_expr fuel → sim_at (S fuel) (SStorageWrite x e).
Proof.
  intros Hse. stmt_start.
  destruct (cexpr scope slots e n) as [[[c1 r] m]|] eqn:E; [|done]. cbn [mbind option_bind] in Hc.
  destruct (slots !! x) as [s|] eqn:Hx; [|done]. apply Hslots in Hx. injection Hc as <- <- <-.
  apply code_at_app in Hat as [Hat1 Hat]. apply code_at_cons in Hat as [Hi _].
  destruct (eval funs slots ctx fuel e env w) as [o1|] eqn:He; [|done].
  apply (seq_expr _ _ _ _ _ _ _ _ _ (Hse e env w o1 scope n c1 r m pos regs _ He Hs E Hat1 Hm Hok Hn Hw)).
  - intros v w1 regs1 -> Hv Hcv Hw1 Hp Hlt. cbn [bind mbind option_bind] in Hex. injection Hex as <-.
    eapply run_op; [exact Hi|reflexivity|]. apply runs_now. cbn [k_regs k_pc k_stack k_world].
    rewrite Hv, length_app, Nat.add_assoc, Nat.add_1_r. unfold slot. destruct (Z.eqb_spec s (-1)); [lia|].
    apply spost_same; try done; [by apply world_store_ok|by apply dom_declares].
  - intros w1 ->. cbn [bind] in Hex. by injection Hex as <-.
Qed.

Lemma mapping_write_sim fuel x key e : sim_expr fuel → sim_at (S fuel) (SMappingWrite x key e).
Proof.
  intros Hse. stmt_start. apply andb_true_iff in Hs as [Hsk Hs].
  destruct (slots !! x) as [base|] eqn:Hx; [|done]. apply Hslots in Hx. cbn [mbind option_bind] in Hex, Hc.
  destruct (cexpr scope slots key n) as [[[c1 kr] m]|] eqn:E1; [|done]. cbn [mbind option_bind] in Hc.
  destruct (cexpr scope slots e m) as [[[c2 r] m2]|] eqn:E2; [|done]. cbn [mbind option_bind] in Hc.
  pose proof (cexpr_bounds scope slots key Hok n c1 kr m Hn E1) as (Hkr&Hm1&_).
  pose proof (cexpr_bounds scope slots e Hok m c2 r m2 ltac:(lia) E2) as (Hr&Hm2&_).
  destruct (alloc m2) as [[br m3]|] eqn:E3; [|done]. cbn [mbind option_bind] in Hc.
  destruct (alloc m3) as [[tr m4]|] eqn:E4; [|done]. apply alloc_bounds in E3 as (->&->&Ha3), E4 as (->&->&Ha4).
  injection Hc as <- <- <-. apply code_at_app in Hat as [Hat1 Hat]. apply code_at_app in Hat as [Hat2 Hat].
  apply code_at_cons in Hat as [Hi1 Hat]. apply code_at_cons in Hat as [Hi2 Hat]. apply code_at_cons in Hat as [Hi3 _].
  destruct (eval funs slots ctx fuel key env w) as [o1|] eqn:He1; [|done].
  apply (seq_expr _ _ _ _ _ _ _ _ _ (Hse key env w o1 scope n c1 kr m pos regs _ He1 Hsk E1 Hat1 Hm Hok Hn Hw)).
  2: { intros w1 ->. cbn [bind] in Hex. by injection Hex as <-. }
  intros kv w1 regs1 -> Hk Hck Hw1 Hp Hlt. cbn [bind] in Hex.
  destruct (eval funs slots ctx fuel e env w1) as [o2|] eqn:He2; [|done].
  assert (menv scope m env regs1) as Hme.
  { apply (menv_weaken scope n); [by apply (menv_regs _ _ _ regs)|done|lia]. }
  apply (seq_expr _ _ _ _ _ _ _ _ _ (Hse e env w1 o2 scope m c2 r m2 _ regs1 _ He2 Hs E2 Hat2 Hme Hok ltac:(lia) Hw1)).
  2: { intros w2 ->. cbn [bind] in Hex. by injection Hex as <-. }
  intros v w2 regs2 -> Hv Hcv Hw2 Hp2 Hlt2. cbn [bind] in Hex. injection Hex as <-.
  eapply run_op; [exact Hi1|reflexivity|]. eapply run_op; [exact Hi2|reflexivity|].
  eapply run_op; [exact Hi3|reflexivity|]. apply runs_now. cbn [k_regs k_pc k_stack k_world].
  set (pos' := (pos + length (c1 ++ _))%nat).
  replace (S (S (S (pos + length c1 + length c2)))) with pos' by (unfold pos'; rewrite !length_app; simpl; lia).
  rewrite (get_pos _ (m2 + 1)), upd_eq, (get_pos _ m2), upd_eq, (get_pos _ kr), upd_ne, (get_pos _ r), !upd_ne by lia.
  replace (regs2 kr) with kv by (rewrite <- Hk, get_pos by lia; symmetry; apply Hp2; lia).
  rewrite <- (get_pos regs2 r), Hv by lia.
  replace (as_u64 base) with base by (symmetry; apply Z.mod_small; lia).
  change (slot (-1) (poseidon4_hash base kv)) with (mapping_slot base kv).
  apply spost_same; try done; [|by apply world_store_ok|by apply dom_declares].
  intros y Hy. rewrite !upd_ne by lia. rewrite Hp2 by lia. by apply Hp.
Qed.

Lemma expr_stmt_sim fuel e : sim_expr fuel → sim_at (S fuel) (SExpr e).
Proof.
  intros Hse. stmt_start.
  destruct (cexpr scope slots e n) as [[[c1 r] m]|] eqn:E; [|done]. cbn [mbind option_bind] in Hc. injection Hc as <- <- <-.
  destruct (eval funs slots ctx fuel e env w) as [o1|] eqn:He; [|done].
  apply (seq_expr _ _ _ _ _ _ _ _ _ (Hse e env w o1 scope n c1 r m pos regs _ He Hs E Hat Hm Hok Hn Hw)).
  - intros v w1 regs1 -> Hv Hcv Hw1 Hp Hlt. cbn [bind] in Hex. injection Hex as <-. apply runs_now.
    apply spost_same; try done. by apply dom_declares.
  - intros w1 ->. cbn [bind] in Hex. by injection Hex as <-.
Qed.

Lemma emits_sim fuel scope env : sim_expr fuel → scope_ok scope → ∀ es w o n c n' pos regs stk,
  emit_list (λ e w, eval funs slots ctx fuel e env w) es w = Some o → forallb scalar_expr es = true →
  cemit (λ e n, cexpr scope slots e n) es n = Some (c, n') → code_at pos c →
  menv scope n env regs → 1 ≤ n ≤ 31 → world_ok w →
  runs (λ e, match o, e with
             | Done _ w, At k => ∃ regs', k = mkCore (pos + length c) regs' stk w ∧ world_ok w ∧ (∀ x, 1 ≤ x < n → regs' x = regs x)
             | Abort w, Failed w' => w' = w
             | _, _ => False
             end) (mkCore pos regs stk w).
Proof.
  intros Hsim Hsc. induction es as [|e es IH]; intros w o n c n' pos regs stk Hev Hs Hc Hat Hm Hn Hw;
    cbn [emit_list cemit forallb] in *.
  { injection Hev as <-. injection Hc as <- <-. apply runs_now. exists regs. by rewrite Nat.add_0_r. }
  apply andb_true_iff in Hs as [Hs1 Hs2].
  destruct (cexpr scope slots e n) as [[[c1 r] n1]|] eqn:E1; [|done]. cbn [mbind option_bind] in Hc.
  destruct (cemit _ es n1) as [[c2 n2]|] eqn:E2; [|done]. cbn [mbind option_bind] in Hc.
  injection Hc as <- <-. apply code_at_app in Hat as [Hat1 Hat]. apply code_at_cons in Hat as [Hi Hat2].
  destruct (eval funs slots ctx fuel e env w) as [o1|] eqn:He; [|done].
  pose proof (cexpr_bounds scope slots e Hsc n c1 r n1 Hn E1) as (Hr&Hn1&_).
  apply (seq_expr _ _ _ _ _ _ _ _ _ (Hsim e env w o1 scope n c1 r n1 pos regs stk He Hs1 E1 Hat1 Hm Hsc Hn Hw)).
  2: { intros w1 ->. cbn [bind] in Hev. by injection Hev as <-. }
  intros v w1 regs1 -> Hv Hcv Hw1 Hp Hlt. cbn [bind] in Hev. eapply run_op; [exact Hi|reflexivity|].
  cbn [k_regs k_pc k_stack k_world]. rewrite Hv.
  assert (menv scope n1 env regs1) as Hm1.
  { apply (menv_weaken scope n); [by apply (menv_regs _ _ _ regs)|done|lia]. }
  apply (runs_mono _ _ _ _ _ _ (IH (log w1 v) o n1 c2 n2 _ regs1 stk Hev Hs2 E2 Hat2 Hm1 ltac:(lia) Hw1)).
  intros ed. destruct o as [u w2|w2], ed as [k|w3]; try done. intros (regs2&->&Hw2&Hp2). exists regs2.
  split; [f_equal; rewrite length_app; simpl; lia|]. split; [done|]. intros x Hx. rewrite Hp2 by lia. by apply Hp.
Qed.

Lemma emit_sim fuel x args : sim_expr fuel → sim_at (S fuel) (SEmit x args).
Proof.
  intros Hse. stmt_start.
  destruct (cemit _ args n) as [[c1 m]|] eqn:E; [|done]. cbn [mbind option_bind] in Hc. injection Hc as <- <- <-.
  destruct (emit_list _ args w) as [o1|] eqn:He; [|done].
  apply (runs_bind _ _ _ _ _ _ (emits_sim fuel scope env Hse Hok args w o1 n c1 m pos regs (Z.of_nat ret :: stk) He Hs E Hat Hm Hn Hw)).
  - intros k. destruct o1 as [u w1|w1]; [|done]. intros (regs1&->&Hw1&Hp). cbn [bind] in Hex. injection Hex as <-.
    apply runs_now. apply spost_same; try done. by apply dom_declares.
  - intros w'. destruct o1 as [u w1|w1]; [done|]. cbn [bind] in Hex. injection Hex as <-. by intros ->.
Qed.

(** The end of a function: the value is in [r], the return address in [n]. *)
Lemma run_ret Q v w n r pos regs ret stk : 1 ≤ n → regs n = Z.of_nat ret → get regs r = v →
  code_at pos [Op Isa.Push 0 r 0 0; Op Isa.Push 0 n 0 0; Op Isa.Ret 0 0 0 0] →
  (∀ regs', Q (At (mkCore ret regs' (v :: stk) w))) → runs Q (mkCore pos regs stk w).
Proof.
  intros Hn Ht Hv Hat HQ.
  apply code_at_cons in Hat as [H1 Hat]. apply code_at_cons in Hat as [H2 Hat]. apply code_at_cons in Hat as [H3 _].
  apply (run_push _ r); [done|]. apply (run_push _ n); [done|]. rewrite Hv, get_pos, Ht by lia.
  eapply run_op; [exact H3|cbn [cexec k_stack]; rewrite (proj2 (Z.leb_le _ _)) by lia; reflexivity|].
  apply runs_now. rewrite Nat2Z.id. apply HQ.
Qed.

Lemma return_sim fuel e : sim_expr fuel → sim_at (S fuel) (SReturn e).
Proof.
  intros Hse. stmt_start.
  destruct (alloc n) as [[tr m]|] eqn:E; [|done]. cbn [mbind option_bind] in Hc. apply alloc_bounds in E as (->&->&Ht).
  destruct e as [e|].
  - destruct (cexpr scope slots e (n + 1)) as [[[c1 r] m]|] eqn:E; [|done]. cbn [mbind option_bind] in Hc. injection Hc as <- <- <-.
    apply code_at_cons in Hat as [Hi Hat]. apply code_at_app in Hat as [Hat1 Hat].
    eapply run_op; [exact Hi|reflexivity|]. cbn [k_regs k_pc k_stack k_world].
    destruct (eval funs slots ctx fuel e env w) as [o1|] eqn:He; [|done].
    assert (menv scope (n + 1) env (upd regs n (Z.of_nat ret))) as Hm1.
    { apply (menv_weaken scope n); [|done|lia]. apply (menv_regs _ _ _ regs); [done|]. intros y Hy. by rewrite upd_ne by lia. }
    apply (seq_expr _ _ _ _ _ _ _ _ _ (Hse e env w o1 scope (n + 1) c1 r m _ _ stk He Hs E Hat1 Hm1 Hok ltac:(lia) Hw)).
    + intros v w1 regs1 -> Hv Hcv Hw1 Hp Hlt. cbn [bind] in Hex. injection Hex as <-.
      apply (run_ret _ v w1 n r _ regs1 ret); try done; [lia|rewrite Hp by lia; apply upd_eq|]. intros regs'. by exists regs'.
    + intros w1 ->. cbn [bind] in Hex. by injection Hex as <-.
  - destruct (alloc (n + 1)) as [[zr m]|] eqn:E; [|done]. cbn [mbind option_bind] in Hc. injection Hc as <- <- <-.
    apply alloc_bounds in E as (->&->&Hz). injection Hex as <-.
    apply code_at_cons in Hat as [Hi Hat]. apply code_at_cons in Hat as [Hi2 Hat].
    eapply run_op; [exact Hi|reflexivity|]. eapply run_op; [exact Hi2|reflexivity|]. cbn [k_regs k_pc k_stack k_world].
    apply (run_ret _ 0 w n (n + 1) _ _ ret); try done; [lia|..].
    + by rewrite upd_ne, upd_eq by lia.
    + by rewrite get_pos, upd_eq by lia.
    + intros regs'. by exists regs'.
Qed.

(** *** Control flow *)
Lemma framed_sub A scope n (env env1 : Env) r : (∀ x, is_Some (env1 !! x) → is_Some (env !! x)) →
  framed A scope n env r → framed A scope n env1 r.
Proof. intros Hsub [Hr Hf]. split; [done|]. intros x vi Hx Hx1. by apply Hf; [|apply Hsub]. Qed.

(** The rest of a statement, from a later state of the same scope. *)
Lemma spost_sub D A scope n (env env1 : Env) regs regs1 scope' n' ret stk pos o e :
  (∀ x, is_Some (env1 !! x) → is_Some (env !! x)) → (∀ r, framed A scope n env r → regs1 r = regs r) →
  spost D A scope n env1 regs1 scope' n' ret stk pos o e → spost D A scope n env regs scope' n' ret stk pos o e.
Proof.
  intros Hsub Hr. destruct o as [[env'|v] w|w], e as [k|w']; try done. intros (regs'&->&Hm&Hw&Hd&Hg&Hf).
  exists regs'. split_and!; try done.
  - intros x vi Hx Hvi. destruct (Hg x vi Hx Hvi) as [[? ?]|]; [left; split; [by apply Hsub|done]|by right].
  - intros r Hfr. rewrite Hf; [by apply Hr|by apply (framed_sub _ _ _ env)].
Qed.

Lemma if_sim fuel cnd t e : sim_expr fuel → sim_stmt fuel → sim_at (S fuel) (SIf cnd t e).
Proof.
  intros Hse Hss. stmt_start. apply andb_true_iff in Hs as [Hs Hse2]. apply andb_true_iff in Hs as [Hsc Hst].
  destruct (cexpr scope slots cnd n) as [[[c1 r] m]|] eqn:E1; [|done]. cbn [mbind option_bind] in Hc.
  destruct (match e with Some e => cblock (cstmt slots) e scope n | None => Some ([], scope, n) end)
    as [[[ce sc1] n1]|] eqn:Ee; [|done]. cbn [mbind option_bind] in Hc.
  destruct (cblock (cstmt slots) t sc1 n1) as [[[ct sc2] n2]|] eqn:Et; [|done]. injection Hc as <- <- <-.
  assert (cblock (cstmt slots) (default [] e) scope n = Some (ce, sc1, n1)) as Ee' by (by destruct e).
  assert (scalar_list scalar_stmt (outer ∪ cur) ∅ (default [] e) = true) as Hse2' by (by destruct e).
  assert (match e with Some e => e ≫= assigned | None => [] end = default [] e ≫= assigned) as Has by (by destruct e).
  rewrite Has. clear Ee Hse2 Has.
  pose proof (block_bounds slots _ scope n Hok Hn _ _ _ Ee') as [Hok1 Hn1].
  pose proof (block_bounds slots _ sc1 n1 Hok1 ltac:(lia) _ _ _ Et) as [Hok2 Hn2].
  pose proof (block_stable slots _ _ _ _ _ _ _ _ Hse2' Ee') as Hst1.
  pose proof (block_stable slots _ _ _ _ _ _ _ _ Hst Et) as Hst2.
  pose proof (cexpr_bounds scope slots cnd Hok n c1 r m Hn E1) as (Hr&_&_).
  apply code_at_app in Hat as [Hat1 Hat]. apply code_at_cons in Hat as [Hjnz Hat].
  apply code_at_app in Hat as [Hate Hat]. apply code_at_cons in Hat as [Hjmp Hatt].
  destruct (eval funs slots ctx fuel cnd env w) as [o1|] eqn:He; [|done].
  apply (seq_expr _ _ _ _ _ _ _ _ _ (Hse cnd env w o1 scope n c1 r m pos regs _ He Hsc E1 Hat1 Hm Hok Hn Hw)).
  2: { intros w1 ->. cbn [bind] in Hex. by injection Hex as <-. }
  intros v w1 regs1 -> Hv Hcv Hw1 Hp Hlt. cbn [bind] in Hex.
  assert (menv scope n env regs1) as Hm1 by (by apply (menv_regs _ _ _ regs)).
  apply (run_jnz _ r (length ce + 2)); [done|]. rewrite Hv.
  set (pos' := (pos + length (c1 ++ _))%nat). destruct (v =? 0).
  - apply (seq_stmt _ _ _ _ _ _ _ _ _ _ _ _ _ _ (block_sim fuel Hss _ env w1 o (outer ∪ cur) scope n ce sc1 n1 _ regs1 ret stk
      Hex Hse2' Ee' Hate Hm1 Hok Hn Hw1 Hd)).
    + intros env' w2 regs2 -> Hm2 Hw2 Hd2 Hg2 Hf2. apply (run_jmp _ (S (length ct))); [done|]. apply runs_now.
      apply (spost_regs _ _ _ _ _ regs regs1); [done|].
      eapply nested_post; [|..]; cycle 1.
      * intros x Hx. rewrite Hst2 by (by apply Hd). by apply Hst1, Hd.
      * lia.
      * by apply dom_declares.
      * intros x Hx. apply elem_of_app. by right.
      * exists regs2. split; [f_equal; unfold pos'; rewrite length_app; simpl; rewrite length_app; simpl; lia|]. done.
    + intros v' w2 regs2 -> Hcv' Hw2. by exists regs2.
    + by intros w2 ->.
  - assert (menv sc1 n1 env regs1) as Hm1'.
    { apply (menv_weaken scope n); [done| |lia]. intros x Hx. by apply Hst1, Hd. }
    replace (pos + length c1 + (length ce + 2))%nat with (S (S (pos + length c1) + length ce)) by lia.
    apply (runs_mono _ _ _ _ _ _ (block_sim fuel Hss t env w1 o (outer ∪ cur) sc1 n1 ct sc2 n2 _ regs1 ret stk
      Hex Hst Et Hatt Hm1' Hok1 ltac:(lia) Hw1 Hd)).
    intros ed Hed. replace (S (S (pos + length c1) + length ce) + length ct)%nat with pos' in Hed
      by (unfold pos'; rewrite length_app; simpl; rewrite length_app; simpl; lia).
    destruct o as [[env'|v'] w2|w2], ed as [k|w3]; try done. destruct Hed as (regs2&->&Hm2&Hw2&Hd2&Hg2&Hf2).
    exists regs2. split_and!; try done.
    + apply (menv_weaken sc1 n1); [done| |lia]. intros x Hx. by apply Hst2, Hd, Hd2.
    + intros x Hx. by apply dom_declares with env; [|apply Hd2].
    + intros x vi Hx Hvi. left. split; [by apply Hd2|]. rewrite <- Hst1 by (by apply Hd, Hd2).
      rewrite <- Hvi. symmetry. by apply Hst2, Hd, Hd2.
    + intros r0 Hfr. rewrite Hf2; [apply Hp; by apply framed_le in Hfr|].
      apply framed_app in Hfr as [[Hr0 Hfr] _]. split; [lia|]. intros x vi Hx Hx1 Hvi.
      apply (Hfr x vi Hx Hx1). rewrite <- Hst1 by (by apply Hd). done.
Qed.

Lemma while_sim fuel cnd b : sim_expr fuel → sim_stmt fuel → sim_at (S fuel) (SWhile cnd b).
Proof.
  intros Hse Hss. stmt_start. pose proof Hs as Hs0. pose proof Hat as Hat0. apply andb_true_iff in Hs as [Hsc Hsb].
  destruct (cexpr scope slots cnd n) as [[[c1 r] m]|] eqn:E1; [|done]. cbn [mbind option_bind] in Hc.
  destruct (cblock (cstmt slots) b scope n) as [[[cb sc1] n1]|] eqn:Eb; [|done]. injection Hc as <- <- <-.
  pose proof (block_bounds slots _ scope n Hok Hn _ _ _ Eb) as [Hok1 Hn1].
  pose proof (block_stable slots _ _ _ _ _ _ _ _ Hsb Eb) as Hst1.
  apply code_at_app in Hat as [Hat1 Hat]. apply code_at_cons in Hat as [Hjnz Hat]. apply code_at_cons in Hat as [Hjmp Hat].
  apply code_at_app in Hat as [Hatb Hat]. apply code_at_cons in Hat as [Hback _].
  destruct (eval funs slots ctx fuel cnd env w) as [o1|] eqn:He; [|done].
  apply (seq_expr _ _ _ _ _ _ _ _ _ (Hse cnd env w o1 scope n c1 r m pos regs _ He Hsc E1 Hat1 Hm Hok Hn Hw)).
  2: { intros w1 ->. cbn [bind] in Hex. by injection Hex as <-. }
  intros v w1 regs1 -> Hv Hcv Hw1 Hp Hlt. cbn [bind] in Hex.
  assert (menv scope n env regs1) as Hm1 by (by apply (menv_regs _ _ _ regs)).
  apply (run_jnz _ r 2); [done|]. rewrite Hv. set (pos' := (pos + length (c1 ++ _))%nat). destruct (v =? 0).
  - injection Hex as <-. apply (run_jmp _ (length cb + 2)); [done|]. apply runs_now.
    eapply nested_post; cycle 1.
    + intros x Hx. by apply Hst1, Hd.
    + lia.
    + by apply dom_declares.
    + done.
    + replace (S (pos + length c1) + (length cb + 2))%nat with pos' by (unfold pos'; rewrite length_app; simpl; rewrite length_app; simpl; lia).
      by apply spost_same.
  - destruct (exec_block _ b env w1) as [o2|] eqn:Heb; [|done].
    replace (pos + length c1 + 2)%nat with (S (S (pos + length c1))) by lia.
    apply (seq_stmt _ _ _ _ _ _ _ _ _ _ _ _ _ _ (block_sim fuel Hss b env w1 o2 (outer ∪ cur) scope n cb sc1 n1 _ regs1 ret stk
      Heb Hsb Eb Hatb Hm1 Hok Hn Hw1 Hd)).
    + intros env2 w2 regs2 -> Hm2 Hw2 Hd2 Hg2 Hf2. cbn [bind] in Hex.
      replace (S (S (pos + length c1)) + length cb)%nat with (pos + (length c1 + 2 + length cb))%nat in Hback |- * by lia.
      apply run_jback; [done|].
      assert (Hcs : cstmt slots (SWhile cnd b) scope n = Some (c1 ++ [jnz r 2; jmp (length cb + 2)] ++ cb ++ [jback (length c1 + 2 + length cb)], sc1, n1)).
      { cbn [cstmt]. rewrite E1. cbn [mbind option_bind]. by rewrite Eb. }
      apply (runs_mono _ _ _ _ _ _ (Hss (SWhile cnd b) env2 w2 o outer cur scope n _ sc1 n1 pos regs2 ret stk Hex Hs0 Hcs Hat0 Hm2 Hok Hn Hw2
        ltac:(intros x Hx; by apply Hd, Hd2))).
      intros ed. apply spost_sub; [done|]. intros r0 Hfr. rewrite Hf2 by done. apply Hp. by apply framed_le in Hfr.
    + intros v' w2 regs2 -> Hcv' Hw2. cbn [bind] in Hex. injection Hex as <-. by exists regs2.
    + intros w2 ->. cbn [bind] in Hex. by injection Hex as <-.
Qed.

(** *** Arms of a [match] *)
Lemma spost_scope A sc1 scope n env regs ret stk pos o e : (∀ x, is_Some (env !! x) → sc1 !! x = scope !! x) →
  spost (λ x, is_Some (env !! x)) A sc1 n env regs sc1 n ret stk pos o e →
  spost (λ x, is_Some (env !! x)) A scope n env regs scope n ret stk pos o e.
Proof.
  intros Hsc. destruct o as [[env'|v] w|w], e as [k|w']; try done. intros (regs'&->&Hm&Hw&Hd&Hg&Hf).
  exists regs'. split_and!; try done.
  - apply (menv_weaken sc1 n); [done| |lia]. intros x Hx. symmetry. by apply Hsc, Hd.
  - intros x vi Hx Hvi. left. by split; [apply Hd|].
  - intros r [Hr Hfr]. apply Hf. split; [done|]. intros x vi Hx Hx1. rewrite Hsc by done. by apply Hfr.
Qed.

Lemma arms_sim fuel xr v n env outer ret stk : sim_stmt fuel → 1 ≤ xr < n → n ≤ 31 → canonical v →
  (∀ x, is_Some (env !! x) → x ∈ outer) → ∀ arms w o scope c scope' pos regs,
  exec_arms (exec funs slots ctx fuel) arms v env w = Some o →
  forallb (λ '(p, body), match p with IntLit v => (0 <=? v) && (v <=? I32_MAX) | Wildcard => true end &&
    scalar_list scalar_stmt outer ∅ body) arms = true →
  carms (cstmt slots) arms xr n scope = Some (c, scope') → code_at pos c →
  menv scope n env regs → regs xr = v → scope_ok scope → world_ok w →
  runs (spost (λ x, is_Some (env !! x)) (arms ≫= λ '(_, body), body ≫= assigned) scope n env regs scope n ret stk (pos + length c) o)
    (mkCore pos regs (Z.of_nat ret :: stk) w).
Proof.
  intros Hss Hxr Hn Hcv Hd. induction arms as [|[p b] arms IH]; intros w o scope c scope' pos regs Hex Hs Hc Hat Hm Hv Hok Hw.
  { injection Hex as <-. injection Hc as <- <-. apply runs_now. rewrite Nat.add_0_r. by apply spost_same. }
  cbn [forallb] in Hs. apply andb_true_iff in Hs as [Hs1 Hs2]. apply andb_true_iff in Hs1 as [Hp Hs1].
  cbn [carms] in Hc.
  (* the body of this arm, then its jump to the end *)
  assert (∀ cb sc1 n1 rest posb regs1, cblock (cstmt slots) b scope n = Some (cb, sc1, n1) →
    code_at posb (cb ++ jmp (S (length rest)) :: rest) → menv scope n env regs1 →
    (∀ r, 1 ≤ r < n → regs1 r = regs r) → exec_block (exec funs slots ctx fuel) b env w = Some o →
    runs (spost (λ x, is_Some (env !! x)) (((p, b) :: arms) ≫= λ '(_, body), body ≫= assigned) scope n env regs scope n ret stk
      (posb + length (cb ++ jmp (S (length rest)) :: rest)) o) (mkCore posb regs1 (Z.of_nat ret :: stk) w)) as Hbody.
  { intros cb sc1 n1 rest posb regs1 Eb Hatb Hm1 Hr1 Hexb. apply code_at_app in Hatb as [Hatb Hat2]. apply code_at_cons in Hat2 as [Hj _].
    apply (seq_stmt _ _ _ _ _ _ _ _ _ _ _ _ _ _ (block_sim fuel Hss b env w o outer scope n cb sc1 n1 posb regs1 ret stk
      Hexb Hs1 Eb Hatb Hm1 Hok ltac:(lia) Hw Hd)).
    - intros env' w2 regs2 -> Hm2 Hw2 Hd2 Hg2 Hf2. apply (run_jmp _ (S (length rest))); [done|]. apply runs_now.
      apply (spost_regs _ _ _ _ _ regs regs1); [done|].
      apply (nested_post _ (b ≫= assigned)); try done; [|intros x Hx; simpl; apply elem_of_app; by left].
      exists regs2. split; [f_equal; rewrite length_app; simpl; lia|]. done.
    - intros v' w2 regs2 -> Hcv' Hw2. by exists regs2.
    - by intros w2 ->. }
  (* the arms after this one *)
  assert (∀ cb sc1 n1 rest sc2 posr regs1, cblock (cstmt slots) b scope n = Some (cb, sc1, n1) →
    carms (cstmt slots) arms xr n sc1 = Some (rest, sc2) → code_at posr rest → menv scope n env regs1 →
    (∀ r, 1 ≤ r < n → regs1 r = regs r) → exec_arms (exec funs slots ctx fuel) arms v env w = Some o →
    runs (spost (λ x, is_Some (env !! x)) (((p, b) :: arms) ≫= λ '(_, body), body ≫= assigned) scope n env regs scope n ret stk
      (posr + length rest) o) (mkCore posr regs1 (Z.of_nat ret :: stk) w)) as Hrest.
  { intros cb sc1 n1 rest sc2 posr regs1 Eb Ea Hatr Hm1 Hr1 Hexr.
    pose proof (block_stable slots _ _ _ _ _ _ _ _ Hs1 Eb) as Hst1.
    pose proof (block_bounds slots _ scope n Hok ltac:(lia) _ _ _ Eb) as [Hok1 _].
    assert (∀ x, is_Some (env !! x) → sc1 !! x = scope !! x) as Heq by (intros x Hx; by apply Hst1, Hd).
    assert (menv sc1 n env regs1) as Hm1' by (apply (menv_weaken scope n); [done|done|lia]).
    apply (runs_mono _ _ _ _ _ _ (IH w o sc1 rest sc2 posr regs1 Hexr Hs2 Ea Hatr Hm1' ltac:(rewrite Hr1; [done|lia]) Hok1 Hw)).
    intros ed Hed. apply (spost_regs _ _ _ _ _ regs regs1); [done|].
    apply (nested_post _ (arms ≫= λ '(_, body), body ≫= assigned)); try done; [|intros x Hx; simpl; apply elem_of_app; by right].
    by apply (spost_scope _ sc1). }
  destruct p as [lit|]; cbn [exec_arms] in Hex.
  - destruct (alloc n) as [[pr m1]|] eqn:E1; [|done]. cbn [mbind option_bind] in Hc.
    destruct (alloc m1) as [[dr m2]|] eqn:E2; [|done]. cbn [mbind option_bind] in Hc.
    apply alloc_bounds in E1 as (->&->&Ha1), E2 as (->&->&Ha2).
    destruct (cblock (cstmt slots) b scope n) as [[[cb sc1] n1]|] eqn:Eb; [|done]. cbn [mbind option_bind] in Hc.
    destruct (carms (cstmt slots) arms xr n sc1) as [[rest sc2]|] eqn:Ea; [|done]. injection Hc as <- <-.
    apply code_at_cons in Hat as [H1 Hat]. apply code_at_cons in Hat as [H2 Hat]. apply code_at_cons in Hat as [H3 Hat].
    eapply run_op; [exact H1|reflexivity|]. eapply run_op; [exact H2|reflexivity|]. cbn [k_regs k_pc k_stack k_world].
    apply andb_true_iff in Hp as [Hl1%Z.leb_le Hl2%Z.leb_le]. unfold I32_MAX in Hl2.
    assert (Isa.as_i32 lit = lit) as Hlit by (rewrite <- (Z.mod_small lit (2 ^ 32)) at 1 by lia; apply IsaLemmas.as_i32_mod; lia).
    assert (as_u64 lit = lit) as Hlit2 by (apply Z.mod_small; lia).
    rewrite Hlit, Hlit2. rewrite (get_pos _ xr), upd_ne, Hv, (get_pos _ n), upd_eq by lia.
    set (regs1 := upd (upd regs n lit) (n + 1) _).
    assert (∀ r, 1 ≤ r < n → regs1 r = regs r) as Hr1 by (intros r Hr; unfold regs1; by rewrite !upd_ne by lia).
    assert (menv scope n env regs1) as Hm1 by (by apply (menv_regs _ _ _ regs)).
    apply (run_jnz _ (n + 1) (length cb + 2)); [done|].
    assert ((get regs1 (n + 1) =? 0) = (v =? lit)) as ->.
    { unfold regs1. rewrite get_pos, upd_eq by lia. apply field_sub_zero; [done|]. unfold canonical, GOLDILOCKS_P. lia. }
    destruct (v =? lit).
    + specialize (Hbody cb sc1 n1 rest _ regs1 eq_refl Hat Hm1 Hr1 Hex). cbn [app length] in *.
      match goal with |- Machine.runs _ _ _ (spost _ _ _ _ _ _ _ _ _ _ ?p _) _ =>
        replace p with (S (S (S pos)) + length (cb ++ jmp (S (length rest)) :: rest))%nat by lia end.
      exact Hbody.
    + apply code_at_app in Hat as [_ Hat]. apply code_at_cons in Hat as [_ Hat].
      specialize (Hrest cb sc1 n1 rest sc2 _ regs1 eq_refl Ea Hat Hm1 Hr1 Hex).
      replace (S (S pos) + (length cb + 2))%nat with (S (S (S (S pos)) + length cb)) by lia.
      match goal with |- Machine.runs _ _ _ (spost _ _ _ _ _ _ _ _ _ _ ?p _) _ =>
        replace p with (S (S (S (S pos)) + length cb) + length rest)%nat by (simpl; rewrite length_app; simpl; lia) end.
      exact Hrest.
  - destruct (cblock (cstmt slots) b scope n) as [[[cb sc1] n1]|] eqn:Eb; [|done]. cbn [mbind option_bind] in Hc.
    destruct (carms (cstmt slots) arms xr n sc1) as [[rest sc2]|] eqn:Ea; [|done]. injection Hc as <- <-.
    by apply (Hbody cb sc1 n1 rest).
Qed.

Lemma match_sim fuel e arms : sim_expr fuel → sim_stmt fuel → sim_at (S fuel) (SMatch e arms).
Proof.
  intros Hse Hss. stmt_start. apply andb_true_iff in Hs as [Hi Ha]. destruct e as [|x| | | | | |]; try done.
  destruct (cexpr scope slots (EIdent x) n) as [[[c1 r] m]|] eqn:E1; [|done]. cbn [mbind option_bind] in Hc.
  destruct (carms (cstmt slots) arms r n scope) as [[ca sc1]|] eqn:Ea; [|done]. injection Hc as <- <- <-.
  apply code_at_app in Hat as [Hat1 Hat2].
  destruct (eval funs slots ctx fuel (EIdent x) env w) as [o1|] eqn:He; [|done].
  assert (m = n) as Hmn. { cbn [cexpr] in E1. destruct (scope !! x); [|done]. by injection E1 as _ _ <-. } subst m.
  pose proof (cexpr_bounds scope slots (EIdent x) Hok n c1 r n Hn E1) as (Hr&_&_).
  apply (seq_expr _ _ _ _ _ _ _ _ _ (Hse (EIdent x) env w o1 scope n c1 r n pos regs _ He eq_refl E1 Hat1 Hm Hok Hn Hw)).
  2: { intros w1 ->. cbn [bind] in Hex. by injection Hex as <-. }
  intros v w1 regs1 -> Hv Hcv Hw1 Hp Hlt. cbn [bind] in Hex. rewrite get_pos in Hv by lia.
  assert (menv scope n env regs1) as Hm1 by (by apply (menv_regs _ _ _ regs)).
  apply (runs_mono _ _ _ _ _ _ (arms_sim fuel r v n env (outer ∪ cur) ret stk Hss ltac:(lia) ltac:(lia) Hcv Hd arms w1 o scope ca sc1
    _ regs1 Hex Ha Ea Hat2 Hm1 Hv Hok Hw1)).
  intros ed Hed. rewrite length_app, Nat.add_assoc. apply (spost_regs _ _ _ _ _ regs regs1); [done|].
  eapply nested_post; [exact Hed|..].
  - intros y Hy. apply (arms_stable slots arms r n (outer ∪ cur) ∅ scope ca sc1 Ha Ea). by apply Hd.
  - lia.
  - by apply dom_declares.
  - done.
Qed.

(** *** [for] *)

(** The loop from its test on: the counter is variable [x] in register [i],
    the bound is in [br], which the body does not write. *)
Definition loop_code (i br n n4 : Z) (cb : list instr) : list instr :=
  [Op Isa.Lt n i br 0; jnz n 2; jmp (length cb + 4)] ++ cb ++
  [Op Isa.Load n4 0 0 1; Op Isa.Add i i n4 0; jback (length cb + 5)].

Definition sim_for (fuel : nat) : Prop := ∀ x hi b env w o outer scope n cb sc1 n4 i t br pos regs ret stk,
  exec_for funs slots ctx fuel x hi b env w = Some o → scalar_list scalar_stmt outer ∅ b = true →
  scope !! x = Some (mkVarInfo i t) → 1 ≤ i < n → 1 ≤ n ≤ 30 → n4 ≤ 30 →
  cblock (cstmt slots) b scope n = Some (cb, sc1, n4) → code_at pos (loop_code i br n n4 cb) →
  menv scope n env regs → scope_ok scope → framed (x :: (b ≫= assigned)) scope n env br → regs br = hi →
  (∀ y, is_Some (env !! y) → y ∈ outer) → world_ok w →
  runs (spost (λ y, is_Some (env !! y)) (x :: (b ≫= assigned)) scope n env regs scope n ret stk (pos + length (loop_code i br n n4 cb)) o)
    (mkCore pos regs (Z.of_nat ret :: stk) w).

Lemma for_step fuel : sim_stmt fuel → sim_for fuel → sim_for (S fuel).
Proof.
  intros Hss Hsf x hi b env w o outer scope n cb sc1 n4 i t br pos regs ret stk Hex Hs Hx Hi Hn Hn4 Eb Hat Hm Hok Hbr Hhi Hd Hw.
  rewrite exec_for_S in Hex. destruct (env !! x) as [iv|] eqn:Hxv; [|done]. cbn [mbind option_bind] in Hex.
  destruct (menv_var _ _ _ _ Hm x iv Hxv) as (vi&Hvi&_&Hiv&Hciv). rewrite Hx in Hvi. injection Hvi as <-. simpl in Hiv.
  pose proof (framed_le _ _ _ _ _ Hbr) as Hbr1. pose proof Hat as Hat0.
  pose proof (block_bounds slots _ scope n Hok ltac:(lia) _ _ _ Eb) as [_ Hn41].
  unfold loop_code in Hat. apply code_at_cons in Hat as [H1 Hat]. apply code_at_cons in Hat as [H2 Hat]. apply code_at_cons in Hat as [H3 Hat].
  apply code_at_app in Hat as [Hatb Hat]. apply code_at_cons in Hat as [H4 Hat]. apply code_at_cons in Hat as [H5 Hat].
  apply code_at_cons in Hat as [H6 _].
  set (pos' := (pos + length (loop_code i br n n4 cb))%nat).
  assert (pos' = pos + length cb + 6)%nat as Hpos' by (unfold pos', loop_code; simpl; rewrite length_app; simpl; lia). clearbody pos'.
  eapply run_op; [exact H1|reflexivity|]. cbn [k_regs k_pc k_stack k_world].
  rewrite (get_pos _ i), (get_pos _ br), Hiv, Hhi by lia.
  set (regs1 := upd regs n _). assert (∀ r, 1 ≤ r < n → regs1 r = regs r) as Hr1 by (intros r Hr; unfold regs1; by rewrite upd_ne by lia).
  assert (menv scope n env regs1) as Hm1 by (by apply (menv_regs _ _ _ regs)).
  apply (run_jnz _ n 2); [done|].
  assert ((get regs1 n =? 0) = negb (iv <? hi)) as ->.
  { unfold regs1. rewrite get_pos, upd_eq by lia. unfold binary. by destruct (iv <? hi). }
  destruct (iv <? hi); cbn [negb].
  - destruct (exec_block _ b env w) as [o1|] eqn:Heb; [|done].
    replace (S pos + 2)%nat with (S (S (S pos))) by lia.
    apply (seq_stmt _ _ _ _ _ _ _ _ _ _ _ _ _ _ (block_sim fuel Hss b env w o1 outer scope n cb sc1 n4 _ regs1 ret stk
      Heb Hs Eb Hatb Hm1 Hok ltac:(lia) Hw Hd)).
    2: { intros v' w2 regs2 -> Hcv' Hw2. cbn [bind] in Hex. injection Hex as <-. by exists regs2. }
    2: { intros w2 ->. cbn [bind] in Hex. by injection Hex as <-. }
    intros env2 w2 regs2 -> Hm2 Hw2 Hd2 _ Hf2. cbn [bind] in Hex.
    destruct (env2 !! x) as [jv|] eqn:Hxv2; [|done]. cbn [mbind option_bind] in Hex.
    destruct (menv_var _ _ _ _ Hm2 x jv Hxv2) as (vi&Hvi&_&Hjv&Hcjv). rewrite Hx in Hvi. injection Hvi as <-. simpl in Hjv.
    eapply run_op; [exact H4|reflexivity|]. eapply run_op; [exact H5|reflexivity|]. cbn [k_regs k_pc k_stack k_world].
    rewrite (get_pos _ i), upd_ne, Hjv, (get_pos _ n4), upd_eq by lia.
    change (binary BAdd jv (as_u64 1)) with (field_add_goldilocks jv 1).
    set (jv' := field_add_goldilocks jv 1) in *. assert (canonical jv') as Hcj' by apply canonical_mod. clearbody jv'.
    set (regs3 := upd (upd regs2 n4 _) i jv').
    assert (menv scope n (<[x := jv']> env2) regs3) as Hm3.
    { apply (menv_assign scope n env2 (upd regs2 n4 (as_u64 1)) x (mkVarInfo i t)); [|by eexists|done|done].
      apply (menv_regs _ _ _ regs2); [done|]. intros y Hy. by rewrite upd_ne by lia. }
    assert (∀ y, is_Some (<[x := jv']> env2 !! y) → is_Some (env !! y)) as Hsub.
    { intros y Hy. destruct (decide (x = y)) as [<-|Hne]; [by eexists|]. rewrite lookup_insert_ne in Hy by done. by apply Hd2. }
    assert (∀ r, framed (x :: (b ≫= assigned)) scope n env r → regs3 r = regs r) as Hf3.
    { intros r Hfr. pose proof (framed_le _ _ _ _ _ Hfr) as Hr. unfold regs3.
      assert (r ≠ i) as Hne. { intros ->. by apply (proj2 Hfr x (mkVarInfo i t)); [left|eexists|..]. }
      rewrite upd_ne by done. rewrite upd_ne by lia. rewrite Hf2; [by apply Hr1|].
      split; [lia|]. intros y vi Hy. apply (proj2 Hfr). by right. }
    replace (S (S (S (S (S pos)) + length cb))) with (pos + (length cb + 5))%nat in H6 |- * by lia.
    apply run_jback; [exact H6|].
    assert (framed (x :: (b ≫= assigned)) scope n (<[x := jv']> env2) br) as Hbr' by (by apply (framed_sub _ _ _ env)).
    apply (runs_mono _ _ _ _ _ _ (Hsf x hi b (<[x := jv']> env2) w2 o outer scope n cb sc1 n4 i t br pos regs3 ret stk
      Hex Hs Hx Hi Hn Hn4 Eb Hat0 Hm3 Hok Hbr' ltac:(rewrite Hf3; done) ltac:(intros y Hy; by apply Hd, Hsub) Hw2)).
    intros ed Hed. apply (spost_sub _ _ _ _ env (<[x := jv']> env2) regs regs3); [done|done|].
    replace (pos + length (loop_code i br n n4 cb))%nat with pos' in Hed
      by (rewrite Hpos'; unfold loop_code; simpl; rewrite length_app; simpl; lia).
    eapply nested_post; [exact Hed|done|lia|exact Hsub|done].
  - injection Hex as <-. apply (run_jmp _ (length cb + 4)); [done|]. apply runs_now.
    replace (S (S pos) + (length cb + 4))%nat with pos' by lia. by apply spost_same.
Qed.

Lemma for_sim fuel x ea ez b : sim_expr fuel → sim_for fuel → sim_at (S fuel) (SFor x ea ez b).
Proof.
  intros Hse Hsf. stmt_start. apply andb_true_iff in Hs as [Hs Hsb]. apply andb_true_iff in Hs as [Hs Hend].
  apply andb_true_iff in Hs as [Hs Hxo]. apply bool_decide_eq_true in Hxo. apply andb_true_iff in Hs as [Hsa Hsz].
  destruct (cexpr scope slots ea n) as [[[c1 ar] n1]|] eqn:E1; [|done]. cbn [mbind option_bind] in Hc.
  destruct (cexpr scope slots ez n1) as [[[c2 br] n2]|] eqn:E2; [|done]. cbn [mbind option_bind] in Hc.
  pose proof (cexpr_bounds scope slots ea Hok n c1 ar n1 Hn E1) as (Har&Hn1&_).
  pose proof (cexpr_bounds scope slots ez Hok n1 c2 br n2 ltac:(lia) E2) as (Hbr&Hn2&Hbrn).
  destruct (alloc n2) as [[ir m3]|] eqn:E3; [|done]. cbn [mbind option_bind] in Hc.
  destruct (alloc m3) as [[kr m4]|] eqn:E4; [|done]. cbn [mbind option_bind] in Hc.
  apply alloc_bounds in E3 as (->&->&Ha3), E4 as (->&->&Ha4).
  destruct (cblock _ b _ (n2 + 1)) as [[[cb sc] n4]|] eqn:Eb; [|done]. cbn [mbind option_bind] in Hc.
  destruct (alloc n4) as [[orr m6]|] eqn:E6; [|done]. apply alloc_bounds in E6 as (->&->&Ha6). injection Hc as <- <- <-.
  apply code_at_app in Hat as [Hat1 Hat]. apply code_at_app in Hat as [Hat2 Hat]. apply code_at_cons in Hat as [Hadd Hloop].
  destruct (eval funs slots ctx fuel ea env w) as [o1|] eqn:He1; [|done].
  apply (seq_expr _ _ _ _ _ _ _ _ _ (Hse ea env w o1 scope n c1 ar n1 pos regs _ He1 Hsa E1 Hat1 Hm Hok Hn Hw)).
  2: { intros w1 ->. cbn [bind] in Hex. by injection Hex as <-. }
  intros lo w1 regs1 -> Hlo Hclo Hw1 Hp1 Hlt1. cbn [bind] in Hex.
  assert (menv scope n1 env regs1) as Hm1.
  { apply (menv_weaken scope n); [by apply (menv_regs _ _ _ regs)|done|lia]. }
  destruct (eval funs slots ctx fuel ez env w1) as [o2|] eqn:He2; [|done].
  apply (seq_expr _ _ _ _ _ _ _ _ _ (Hse ez env w1 o2 scope n1 c2 br n2 _ regs1 _ He2 Hsz E2 Hat2 Hm1 Hok ltac:(lia) Hw1)).
  2: { intros w2 ->. cbn [bind] in Hex. by injection Hex as <-. }
  intros hi w2 regs2 -> Hhi Hchi Hw2 Hp2 Hlt2. cbn [bind] in Hex.
  destruct (exec_for _ _ _ fuel x hi b _ w2) as [o3|] eqn:He3; [|done].
  eapply run_op; [exact Hadd|reflexivity|]. cbn [k_regs k_pc k_stack k_world].
  assert (get regs2 ar = lo) as -> by (rewrite <- Hlo, !get_pos by lia; apply Hp2; lia).
  change (binary BAdd lo (get regs2 0)) with (field_add_goldilocks lo 0). rewrite field_add_0 by done.
  set (regs3 := upd regs2 n2 lo).
  assert (∀ r, 1 ≤ r < n → regs3 r = regs r) as Hr3.
  { intros r Hr. unfold regs3. rewrite upd_ne, Hp2, Hp1 by lia. done. }
  set (inner := <[x := mkVarInfo n2 None]> scope) in *.
  assert (∀ y, is_Some (env !! y) → x ≠ y) as Hxe. { intros y Hy%Hd ->. done. }
  assert (menv inner (n2 + 1) (<[x := lo]> env) regs3) as Hm3.
  { apply (menv_insert scope n2); [|lia|lia|apply upd_eq|done].
    apply (menv_weaken scope n); [by apply (menv_regs _ _ _ regs)|done|lia]. }
  assert (framed (x :: (b ≫= assigned)) inner (n2 + 1) (<[x := lo]> env) br) as Hfb.
  { split; [lia|]. intros y vi Hy Hye Hvi. destruct (decide (x = y)) as [<-|Hne].
    { unfold inner in Hvi. rewrite lookup_insert_eq in Hvi. injection Hvi as <-. simpl. lia. }
    apply elem_of_cons in Hy as [|Hy]; [done|]. unfold inner in Hvi.
    rewrite lookup_insert_ne in Hye by done. rewrite lookup_insert_ne in Hvi by done.
    destruct (is_ident ez) eqn:Hid.
    - destruct ez as [|z| | | | | |]; try done. apply bool_decide_eq_true in Hend. cbn [cexpr] in E2.
      destruct (scope !! z) as [vz|] eqn:Hz; [|done]. injection E2 as <- <- <-.
      destruct fuel as [|fuel]; [done|]. cbn [eval] in He2. destruct (env !! z) as [zv|] eqn:Hzv; [|done].
      intros Heq. assert (y = z) as -> by (apply (menv_inj _ _ _ _ Hm y z vi vz); try done; by eexists). done.
    - destruct Hye as [yv Hye]. destruct (menv_var _ _ _ _ Hm y yv Hye) as (vi'&Hvi'&Hrg&_).
      rewrite Hvi in Hvi'. injection Hvi' as <-. specialize (Hbrn eq_refl). lia. }
  assert (∀ r, framed (b ≫= assigned) scope n env r → framed (x :: (b ≫= assigned)) inner (n2 + 1) (<[x := lo]> env) r) as Hfr.
  { intros r [Hr Hf]. split; [lia|]. intros y vi Hy Hye Hvi. unfold inner in Hvi. destruct (decide (x = y)) as [<-|Hne].
    { rewrite lookup_insert_eq in Hvi. injection Hvi as <-. simpl. lia. }
    apply elem_of_cons in Hy as [|Hy]; [done|]. rewrite lookup_insert_ne in Hye by done. rewrite lookup_insert_ne in Hvi by done.
    by apply (Hf y). }
  set (pos' := (pos + length (c1 ++ _))%nat).
  assert (pos' = S (pos + length c1 + length c2) + length (loop_code n2 br (n2 + 1) n4 cb))%nat as ->.
  { unfold pos', loop_code. rewrite !length_app. simpl. rewrite !length_app. simpl. lia. }
  apply (seq_stmt _ _ _ _ _ _ _ _ _ _ _ _ _ _ (Hsf x hi b (<[x := lo]> env) w2 o3 ({[ x ]} ∪ outer ∪ cur) inner (n2 + 1) cb sc n4 n2 None br
    _ regs3 ret stk He3 Hsb ltac:(apply lookup_insert_eq) ltac:(lia) ltac:(lia) ltac:(lia) Eb Hloop Hm3
    ltac:(apply scope_ok_insert; [done|lia]) Hfb ltac:(unfold regs3; rewrite upd_ne, <- (get_pos regs2 br) by lia; done)
    ltac:(intros y Hy; destruct (decide (x = y)) as [<-|Hne]; [set_solver|rewrite lookup_insert_ne in Hy by done; apply Hd in Hy; set_solver]) Hw2)).
  - intros env' w' regs' -> Hm' Hw' Hd' Hg' Hf'. cbn [bind] in Hex. injection Hex as <-. apply runs_now. exists regs'.
    split_and!; try done.
    + apply (menv_back scope n env regs inner (n2 + 1)); [done|done|]. intros y Hy. unfold inner.
      rewrite lookup_insert_ne; [done|by apply Hxe].
    + intros y Hy. apply restrict_sub in Hy as [Hy _]. by apply dom_declares with env.
    + intros y vi Hy Hvi. apply restrict_sub in Hy as [Hy _]. by left.
    + intros r Hr. rewrite Hf' by (by apply Hfr). apply Hr3. by apply framed_le in Hr.
  - intros v' w' regs' -> Hcv' Hw'. cbn [bind] in Hex. injection Hex as <-. by exists regs'.
  - intros w' ->. cbn [bind] in Hex. by injection Hex as <-.
Qed.

(** *** Functions *)
Lemma popped_reverse rs vs regs i r v : NoDup rs → length vs = length rs → rs !! i = Some r → vs !! i = Some v →
  popped (reverse rs) (reverse vs) regs r = v.
Proof.
  intros Hnd Hl Hr Hv. pose proof (lookup_lt_Some _ _ _ Hr) as Hlt.
  apply (popped_lookup _ _ _ (length rs - S i)).
  - by rewrite reverse_Permutation.
  - apply reverse_lookup_Some. split; [|lia]. by replace (length rs - S (length rs - S i))%nat with i by lia.
  - apply reverse_lookup_Some. split; [|lia]. rewrite Hl. by replace (length rs - S (length rs - S i))%nat with i by lia.
Qed.

Lemma params_menv (names : list string) vs rs n regs : NoDup names → NoDup rs → length vs = length names → length rs = length names →
  Forall (λ r, 1 ≤ r < n) rs → Forall canonical vs →
  (∀ i r v, rs !! i = Some r → vs !! i = Some v → regs r = v) →
  menv (list_to_map (reverse (zip names ((λ r, mkVarInfo r None) <$> rs)))) n (list_to_map (zip names vs)) regs.
Proof.
  intros Hnd Hndr Hlv Hlr Hrs Hcv Hregs.
  set (scope := list_to_map (reverse (zip names ((λ r, mkVarInfo r None) <$> rs)))).
  assert (∀ x vi, scope !! x = Some vi → ∃ i r, names !! i = Some x ∧ rs !! i = Some r ∧ vi = mkVarInfo r None) as Hsc.
  { intros x vi Hx. apply elem_of_list_to_map_2 in Hx. rewrite elem_of_reverse in Hx.
    apply list_elem_of_lookup in Hx as [i Hi]. apply lookup_zip_Some in Hi as [Hi1 Hi2]. rewrite list_lookup_fmap in Hi2.
    destruct (rs !! i) as [r|] eqn:Hr; [|done]. injection Hi2 as <-. by exists i, r. }
  assert (∀ i x r, names !! i = Some x → rs !! i = Some r → scope !! x = Some (mkVarInfo r None)) as Hsc2.
  { intros i x r Hx Hr. apply elem_of_list_to_map_1.
    - rewrite fmap_reverse, fst_zip by (rewrite length_fmap; lia). by rewrite reverse_Permutation.
    - rewrite elem_of_reverse. apply list_elem_of_lookup. exists i. apply lookup_zip_Some. split; [done|].
      by rewrite list_lookup_fmap, Hr. }
  split.
  - intros x v Hx. apply elem_of_list_to_map_2, list_elem_of_lookup in Hx as [i Hi].
    apply lookup_zip_Some in Hi as [Hi1 Hi2]. pose proof (lookup_lt_Some _ _ _ Hi1) as Hlt.
    destruct (lookup_lt_is_Some_2 rs i) as [r Hr]; [lia|]. exists (mkVarInfo r None). split; [by apply (Hsc2 i)|].
    split; [by eapply Forall_lookup_1 in Hrs|]. split; [by apply (Hregs i)|]. by eapply Forall_lookup_1 in Hcv.
  - intros x y vx vy _ _ Hx Hy Heq. apply Hsc in Hx as (i&r&Hi&Hr&->), Hy as (j&r'&Hj&Hr'&->). simpl in Heq. subst r'.
    assert (i = j) as -> by (by eapply NoDup_lookup). congruence.
Qed.

Lemma call_step fuel : sim_stmt fuel → sim_call (S fuel).
Proof.
  intros Hss name vs w o t regs ret stk Hev Ht Hcv Hw. rewrite call_S in Hev.
  destruct (funs name) as [f|] eqn:Hf; [|done]. cbn [mbind option_bind] in Hev.
  destruct (Hfuns name f Hf) as (Hsf&t'&fc&Ht'&Hfc&Hat). rewrite Ht in Ht'. injection Ht' as <-.
  case_bool_decide as Hlen; [|done]. cbv zeta in Hev. unfold scalar_fun in Hsf. apply andb_true_iff in Hsf as [Hnd Hsb].
  apply bool_decide_eq_true in Hnd. unfold param_names in Hnd, Hsb.
  unfold cfun in Hfc. destruct (calloc (length (params f)) 2) as [[rs n]|] eqn:Ec; [|done]. cbn [mbind option_bind] in Hfc.
  apply GenLemmas.calloc_bounds in Ec as (Hrs&->&Hn31); [|lia]. set (scope := list_to_map (reverse _)) in Hfc.
  set (n := 2 + Z.of_nat (length (params f))) in *.
  destruct (cblock _ (body f) scope n) as [[[cb sc1] n1]|] eqn:Eb; [|done]. cbn [mbind option_bind] in Hfc.
  destruct (alloc n1) as [[tr m1]|] eqn:E1; [|done]. cbn [mbind option_bind] in Hfc.
  destruct (alloc m1) as [[zr m2]|] eqn:E2; [|done]. injection Hfc as <-.
  assert (length rs = length (params f)) as Hlrs by (rewrite Hrs, length_seqZ; lia).
  assert (Forall (λ r, 2 ≤ r < n) rs) as Hrr.
  { rewrite Hrs. apply Forall_forall. intros r Hr%elem_of_seqZ. unfold n. lia. }
  assert (NoDup rs) as Hndr by (rewrite Hrs; apply NoDup_seqZ).
  assert (scope_ok scope) as Hok.
  { apply GenLemmas.params_scope_ok. eapply Forall_impl; [apply Hrr|]. simpl. intros r Hr. lia. }
  pose proof (block_bounds slots _ scope n Hok ltac:(unfold n; lia) _ _ _ Eb) as [_ Hn1].
  apply alloc_bounds in E1 as (->&->&Ha1), E2 as (->&->&Ha2).
  apply code_at_cons in Hat as [Hpop Hat]. apply code_at_app in Hat as [Hpops Hat]. apply code_at_cons in Hat as [Hpush Hat].
  apply code_at_app in Hat as [Hatb Hat].
  eapply run_op; [exact Hpop|reflexivity|]. cbn [k_regs k_pc k_stack k_world].
  apply (run_pops _ (reverse rs)); [exact Hpops|rewrite !length_reverse; lia|].
  set (regs1 := popped _ _ _). unfold pops in Hpush, Hatb, Hat. rewrite length_fmap in Hpush, Hatb, Hat.
  assert (regs1 1 = Z.of_nat ret) as Hret.
  { unfold regs1. rewrite popped_other; [apply upd_eq|]. rewrite elem_of_reverse. intros Hin.
    rewrite Forall_forall in Hrr. apply Hrr in Hin. lia. }
  apply (run_push _ 1); [exact Hpush|]. rewrite get_pos, Hret by lia.
  assert (menv scope n (list_to_map (zip (p_name <$> params f) vs)) regs1) as Hm.
  { apply params_menv; try done; rewrite ?length_fmap; try done.
    - eapply Forall_impl; [apply Hrr|]. simpl. intros r Hr. lia.
    - intros i r v Hr Hv. by apply (popped_reverse rs vs _ i); [done|lia|..]. }
  destruct (exec_list _ (body f) _ w) as [o1|] eqn:He; [|done].
  apply (seq_stmt _ _ _ _ _ _ _ _ _ _ _ _ _ _ (list_sim fuel Hss (body f) _ w o1 ∅ (list_to_set (p_name <$> params f)) scope n cb sc1 n1 _ regs1 ret stk
    He Hsb Eb Hatb Hm Hok ltac:(unfold n; lia) Hw ltac:(intros x [v Hx]; apply elem_of_list_to_map_2, elem_of_zip_l in Hx; set_solver))).
  - intros env' w' regs' -> Hm' Hw' _ _ _. cbn [bind] in Hev. injection Hev as <-.
    apply code_at_cons in Hat as [H1 Hat]. apply code_at_cons in Hat as [H2 Hat].
    eapply run_op; [exact H1|reflexivity|]. eapply run_op; [exact H2|reflexivity|]. cbn [k_regs k_pc k_stack k_world].
    apply (run_ret _ 0 w' n1 (n1 + 1) _ _ ret); try done.
    + unfold n in Hn1. lia.
    + by rewrite upd_ne, upd_eq by lia.
    + unfold n in Hn1. by rewrite get_pos, upd_eq by lia.
    + intros regs''. by exists regs''.
  - intros v w' regs' -> Hcv' Hw'. cbn [bind] in Hev. injection Hev as <-. by exists regs'.
  - intros w' ->. cbn [bind] in Hev. by injection Hev as <-.
Qed.

Lemma stmt_step fuel : sim_expr fuel → sim_stmt fuel → sim_for fuel → sim_stmt (S fuel).
Proof.
  intros Hse Hss Hsf [x e|e|x e|x e|x k e|c t e|c b|x a z b|e|x args|e arms|e].
  - by apply let_sim.
  - by apply constrain_sim.
  - by apply assign_sim.
  - by apply write_sim.
  - by apply mapping_write_sim.
  - by apply if_sim.
  - by apply while_sim.
  - by apply for_sim.
  - by apply return_sim.
  - by apply emit_sim.
  - by apply match_sim.
  - by apply expr_stmt_sim.
Qed.

Lemma simulation fuel : sim_expr fuel ∧ sim_call fuel ∧ sim_stmt fuel ∧ sim_for fuel.
Proof.
  induction fuel as [|fuel (Hse&Hsc&Hss&Hsf)].
  - split_and!; repeat intro; done.
  - split_and!; [by apply expr_step|by apply call_step|by apply stmt_step|by apply for_step].
Qed.

End sim.
End Simulation.
