(* ===== verification/Parser.v ===== *)
(** * The BudL parser

    [budzero/bud-compiler/src/lexer.rs] and [parser.rs].  The tokens are those
    of [lexer.rs]; the lexer itself is generated from it by a macro of the
    [logos] crate and is not modelled, so a source is a list of tokens here.

    The parser is recursive descent over a vector of tokens, a position and a
    nesting counter that [enter] and [leave] keep: a small state and error
    monad, with [None] for a recursion or a loop that has not ended within its
    fuel.  [ParserTotal] shows that the fuel is enough for every input. *)
From stdpp Require Import base tactics numbers list strings.
From Stdlib Require Import ZArith Lia Ascii.
From S2P Require Import Prelude Compiler.
Import Ast.
Open Scope Z_scope.

(** ** Strings

    The functions of [str] that the front end uses; an identifier is ASCII. *)
Module Str.

Fixpoint strip_prefix (pre s : string) : option string :=
  match pre, s with
  | EmptyString, _ => Some s
  | String a pre, String b s => if decide (a = b) then strip_prefix pre s else None
  | String _ _, EmptyString => None
  end.

(** [str::strip_suffix] with a [char]. *)
Fixpoint strip_suffix (c : ascii) (s : string) : option string :=
  match s with
  | EmptyString => None
  | String a EmptyString => if decide (a = c) then Some EmptyString else None
  | String a s => String a <$> strip_suffix c s
  end.

(** [str::split_once] with a [char]: at the first occurrence. *)
Fixpoint split_once (c : ascii) (s : string) : option (string * string) :=
  match s with
  | EmptyString => None
  | String a s =>
      if decide (a = c) then Some (EmptyString, s)
      else '(l, r) ← split_once c s; Some (String a l, r)
  end.

Definition is_space (a : ascii) : bool :=
  let n := nat_of_ascii a in (n =? 32)%nat || ((9 <=? n) && (n <=? 13))%nat.

Fixpoint trim_start (s : string) : string :=
  match s with String a s' => if is_space a then trim_start s' else s | EmptyString => EmptyString end.

Fixpoint trim_end (s : string) : string :=
  match s with
  | EmptyString => EmptyString
  | String a s' =>
      match trim_end s' with
      | EmptyString => if is_space a then EmptyString else String a EmptyString
      | s' => String a s'
      end
  end.

Definition trim (s : string) : string := trim_end (trim_start s).
End Str.

(** ** Tokens *)
Module Lexer.

Inductive Token :=
  | Contract | Fn | Let | If | Else | Match | Storage | Witness | Constrain | Pub | While | For
  | In | Return | Struct
  | BraceOpen | BraceClose | ParenOpen | ParenClose | BracketOpen | BracketClose
  | Colon | Comma | Semicolon | Arrow | FatArrow | DotDot | Dot
  | Plus | Minus | Star | Slash | Eq | Neq | Lt | Gt | Lte | Gte | Assign
  | Ident (s : string)
  | Int (v : Z)
  | Hex (s : string)
  | Error.

#[export] Instance Token_eq_dec : EqDecision Token.
Proof. solve_decision. Defined.
End Lexer.

(** ** The parser *)
Module Parser.
Import Lexer.

(** The texts of [CompileError::ParserError]. *)
Inductive ParserMsg :=
  | TooDeep
  | ExpectedToken (expected found : Token)
  | ExpectedContractName
  | ExpectedName
  | ExpectedMapKeyType
  | ExpectedMapValueType
  | ExpectedType
  | ExpectedFunctionName
  | ExpectedParamName
  | ExpectedParamType
  | ExpectedReturnType
  | ExpectedLetName
  | ExpectedCommaOrBrace
  | ExpectedLoopVariable
  | ExpectedEventName
  | ExpectedFieldAfterDot
  | ExpectedPattern
  | InvalidHex (s : string)
  | ExpectedField
  | ExpectedStructFieldName
  | ExpectedPrimary.

Record Parser := mkParser { tokens : list Token; pos : nat; depth : Z }.

(** [Parser::new] after the lexer. *)
Definition new (ts : list Token) : Parser := mkParser ts 0 0.

Definition MAX_NESTING_DEPTH : Z := 32.

Definition M (A : Type) : Type := Parser → option (result ParserMsg A * Parser).

#[export] Instance M_ret : MRet M := λ A a p, Some (Ok a, p).
#[export] Instance M_bind : MBind M := λ A B k m p,
  match m p with
  | Some (Ok a, p) => k a p
  | Some (Err e, p) => Some (Err e, p)
  | None => None
  end.

Definition fail {A} (e : ParserMsg) : M A := λ p, Some (Err e, p).
Definition stuck {A} : M A := λ _, None.

Definition enter : M unit := λ p,
  if MAX_NESTING_DEPTH <=? depth p then Some (Err TooDeep, p)
  else Some (Ok tt, mkParser (tokens p) (pos p) (depth p + 1)).

(** [u32::saturating_sub]. *)
Definition leave (p : Parser) : Parser := mkParser (tokens p) (pos p) (Z.max 0 (depth p - 1)).

(** [enter()?; let parsed = inner(); leave(); parsed] *)
Definition nested {A} (inner : M A) : M A := λ p,
  match enter p with
  | Some (Ok _, p) =>
      match inner p with
      | Some (r, p) => Some (r, leave p)
      | None => None
      end
  | Some (Err e, p) => Some (Err e, p)
  | None => None
  end.

Definition peek_token (p : Parser) : Token := default Error (tokens p !! pos p).
Definition peek : M Token := λ p, Some (Ok (peek_token p), p).
Definition consume : M Token := λ p, Some (Ok (peek_token p), mkParser (tokens p) (S (pos p)) (depth p)).

Definition expect (expected : Token) : M unit :=
  t ← consume; if decide (t = expected) then mret tt else fail (ExpectedToken expected t).

(** [if let Token::Ident(name) = self.consume() { name } else { return Err(..) }] *)
Definition ident (e : ParserMsg) : M string :=
  t ← consume; match t with Ident s => mret s | _ => fail e end.

Definition next_is (t : Token) : M bool := u ← peek; mret (bool_decide (u = t)).

(** Consume [t] if it is next. *)
Definition optional (t : Token) : M bool :=
  b ← next_is t; if b : bool then (_ ← consume; mret true) else mret false.

(** [while self.peek() != close { push(item()?) }] *)
Fixpoint many {A} (close : Token) (item : M A) (fuel : nat) : M (list A) :=
  match fuel with
  | O => stuck
  | S fuel =>
      b ← next_is close;
      if b : bool then mret [] else (x ← item; l ← many close item fuel; mret (x :: l))
  end.

(** An item and the comma that may follow it. *)
Definition listed {A} (item : M A) : M A := x ← item; _ ← optional Comma; mret x.

(** [while matches!(self.peek(), ...) { op; right; left = Binary(left, op, right) }] *)
Fixpoint operations (op_of : Token → option BinOp) (operand : M Expr) (left : Expr) (fuel : nat) : M Expr :=
  match fuel with
  | O => stuck
  | S fuel =>
      t ← peek;
      match op_of t with
      | Some op => _ ← consume; right ← operand; operations op_of operand (EBinary left op right) fuel
      | None => mret left
      end
  end.

Definition comparison (t : Token) : option BinOp :=
  match t with
  | Eq => Some BEq | Neq => Some BNeq | Lt => Some BLt | Gt => Some BGt | Lte => Some BLte | Gte => Some BGte
  | _ => None
  end.
Definition additive (t : Token) : option BinOp :=
  match t with Plus => Some BAdd | Minus => Some BSub | _ => None end.
Definition multiplicative (t : Token) : option BinOp :=
  match t with Star => Some BMul | Slash => Some BDiv | _ => None end.

(** [while self.peek() == Dot { ... }] *)
Fixpoint accesses (e : Expr) (fuel : nat) : M Expr :=
  match fuel with
  | O => stuck
  | S fuel =>
      b ← optional Dot;
      if b : bool then (f ← ident ExpectedFieldAfterDot; accesses (EFieldAccess e f) fuel) else mret e
  end.

(** [u64::from_str_radix(s, 16)] *)
Definition hex_digit (c : ascii) : option Z :=
  let n := Z.of_nat (nat_of_ascii c) in
  if (48 <=? n) && (n <=? 57) then Some (n - 48)
  else if (97 <=? n) && (n <=? 102) then Some (n - 87)
  else if (65 <=? n) && (n <=? 70) then Some (n - 55)
  else None.

Fixpoint hex_digits (acc : Z) (l : list ascii) : option Z :=
  match l with
  | [] => Some acc
  | c :: l =>
      d ← hex_digit c;
      let acc := acc * 16 + d in
      if acc <=? u64_max then hex_digits acc l else None
  end.

Definition from_str_radix_16 (s : string) : option Z :=
  match String.list_ascii_of_string s with
  | [] | [Ascii.Ascii true true false true false true false false] => None
  | Ascii.Ascii true true false true false true false false :: l => hex_digits 0 l
  | l => hex_digits 0 l
  end.

(** [val.strip_prefix("0x").unwrap_or(&val)] *)
Definition strip_0x (s : string) : string := default s (Str.strip_prefix "0x" s).

Section expressions.
(** The recursive call, and the fuel of the loops. *)
Context (parse_expr : M Expr) (fuel : nat).

(** [name::field()] of [msg] and [block]. *)
Definition parse_path (name : string) : M Expr :=
  _ ← expect Colon; _ ← expect Colon;
  field ← ident ExpectedField;
  _ ← expect ParenOpen; _ ← expect ParenClose;
  mret (ECall (name +:+ "::" +:+ field) []).

Definition parse_field : M (string * Expr) :=
  fname ← ident ExpectedStructFieldName;
  _ ← expect Colon;
  val ← parse_expr;
  mret (fname, val).

Definition parse_ident (name : string) : M Expr :=
  if decide (name = "poseidon") then
    _ ← expect ParenOpen;
    args ← many ParenClose (listed parse_expr) fuel;
    _ ← expect ParenClose;
    mret (ECall "poseidon" args)
  else if decide (name = "msg") then parse_path "msg"
  else if decide (name = "block") then parse_path "block"
  else if decide (name = "verify_merkle_proof") then
    _ ← expect ParenOpen;
    root ← parse_expr;
    _ ← expect Comma;
    leaf ← parse_expr;
    _ ← expect Comma;
    path ← parse_expr;
    _ ← expect ParenClose;
    mret (ECall "verify_merkle_proof" [root; leaf; path])
  else
    t ← peek;
    match t with
    | ParenOpen =>
        _ ← consume;
        args ← many ParenClose (listed parse_expr) fuel;
        _ ← expect ParenClose;
        mret (ECall name args)
    | BracketOpen =>
        _ ← consume;
        key ← parse_expr;
        _ ← expect BracketClose;
        mret (EMappingRead name key)
    | BraceOpen =>
        _ ← consume;
        fields ← many BraceClose (listed parse_field) fuel;
        _ ← expect BraceClose;
        mret (EStructLiteral name fields)
    | _ => mret (EIdent name)
    end.

Definition parse_primary : M Expr :=
  t ← consume;
  match t with
  | Int val => mret (EInt val)
  | Hex val =>
      match from_str_radix_16 (strip_0x val) with
      | Some num => mret (EInt num)
      | None => fail (InvalidHex val)
      end
  | ParenOpen => expr ← parse_expr; _ ← expect ParenClose; mret expr
  | Ident name => parse_ident name
  | Storage =>
      _ ← expect Colon; _ ← expect Colon;
      name ← ident ExpectedName;
      mret (EStorageRead name)
  | _ => fail ExpectedPrimary
  end.

Definition parse_postfix : M Expr := expr ← parse_primary; accesses expr fuel.
Definition parse_term : M Expr := left ← parse_postfix; operations multiplicative parse_postfix left fuel.
Definition parse_arith : M Expr := left ← parse_term; operations additive parse_term left fuel.
Definition parse_expr_inner : M Expr := left ← parse_arith; operations comparison parse_arith left fuel.
End expressions.

Fixpoint parse_expr (fuel : nat) : M Expr :=
  match fuel with
  | O => stuck
  | S fuel => nested (parse_expr_inner (parse_expr fuel) fuel)
  end.

Section statements.
Context (parse_stmt : M Stmt) (parse_expr : M Expr) (fuel : nat).

(** [{ stmt* }] *)
Definition parse_block : M (list Stmt) :=
  _ ← expect BraceOpen;
  body ← many BraceClose parse_stmt fuel;
  _ ← expect BraceClose;
  mret body.

Definition parse_pattern : M MatchPattern :=
  t ← peek;
  match t with
  | Ident name =>
      if decide (name = "_") then _ ← consume; mret Wildcard else fail ExpectedPattern
  | Int val => _ ← consume; mret (IntLit val)
  | _ => fail ExpectedPattern
  end.

Definition parse_match_arm : M (MatchPattern * list Stmt) :=
  pattern ← parse_pattern;
  _ ← expect FatArrow;
  b ← next_is BraceOpen;
  body ← (if b : bool then parse_block else (s ← parse_stmt; mret [s]));
  mret (pattern, body).

(** The [loop] over the arms. *)
Fixpoint parse_arms (fuel : nat) : M (list (MatchPattern * list Stmt)) :=
  match fuel with
  | O => stuck
  | S fuel =>
      t ← peek;
      match t with
      | BraceClose => mret []
      | Comma =>
          _ ← consume;
          b ← next_is BraceClose;
          if b : bool then mret [] else parse_arms fuel
      | _ =>
          arm ← parse_match_arm;
          t ← peek;
          match t with
          | Comma => _ ← consume; arms ← parse_arms fuel; mret (arm :: arms)
          | BraceClose => mret [arm]
          | _ => fail ExpectedCommaOrBrace
          end
      end
  end.

Definition parse_let : M Stmt :=
  _ ← consume;
  name ← ident ExpectedLetName;
  _ ← expect Assign;
  expr ← parse_expr;
  _ ← expect Semicolon;
  mret (SLet name expr).

Definition parse_constrain : M Stmt :=
  _ ← consume;
  _ ← expect ParenOpen;
  expr ← parse_expr;
  _ ← expect ParenClose;
  _ ← expect Semicolon;
  mret (SConstrain expr).

Definition parse_storage_write : M Stmt :=
  _ ← consume;
  _ ← expect Colon; _ ← expect Colon;
  name ← ident ExpectedName;
  _ ← expect Assign;
  expr ← parse_expr;
  _ ← expect Semicolon;
  mret (SStorageWrite name expr).

(** [( cond )] *)
Definition parse_condition : M Expr :=
  _ ← expect ParenOpen;
  cond ← parse_expr;
  _ ← expect ParenClose;
  mret cond.

Definition parse_if : M Stmt :=
  _ ← consume;
  cond ← parse_condition;
  then_branch ← parse_block;
  b ← optional Else;
  if b : bool then (eb ← parse_block; mret (SIf cond then_branch (Some eb)))
  else mret (SIf cond then_branch None).

Definition parse_while : M Stmt :=
  _ ← consume;
  cond ← parse_condition;
  body ← parse_block;
  mret (SWhile cond body).

Definition parse_match : M Stmt :=
  _ ← consume;
  scrutinee ← parse_condition;
  _ ← expect BraceOpen;
  arms ← parse_arms fuel;
  _ ← expect BraceClose;
  _ ← expect Semicolon;
  mret (SMatch scrutinee arms).

Definition parse_for : M Stmt :=
  _ ← consume;
  var ← ident ExpectedLoopVariable;
  _ ← expect In;
  start ← parse_expr;
  _ ← expect DotDot;
  end_ ← parse_expr;
  body ← parse_block;
  mret (SFor var start end_ body).

Definition parse_return : M Stmt :=
  _ ← consume;
  b ← next_is Semicolon;
  expr ← (if b : bool then mret None else (e ← parse_expr; mret (Some e)));
  _ ← expect Semicolon;
  mret (SReturn expr).

Definition parse_emit : M Stmt :=
  _ ← consume;
  event_name ← ident ExpectedEventName;
  _ ← expect ParenOpen;
  args ← many ParenClose (listed parse_expr) fuel;
  _ ← expect ParenClose;
  _ ← expect Semicolon;
  mret (SEmit event_name args).

Definition parse_assign (name : string) : M Stmt :=
  _ ← consume;
  b ← optional BracketOpen;
  if b : bool then
    key ← parse_expr;
    _ ← expect BracketClose;
    _ ← expect Assign;
    val ← parse_expr;
    _ ← expect Semicolon;
    mret (SMappingWrite name key val)
  else
    _ ← expect Assign;
    expr ← parse_expr;
    _ ← expect Semicolon;
    mret (SAssign name expr).

Definition parse_stmt_inner : M Stmt :=
  t ← peek;
  match t with
  | Let => parse_let
  | Constrain => parse_constrain
  | Storage => parse_storage_write
  | If => parse_if
  | While => parse_while
  | Match => parse_match
  | For => parse_for
  | Return => parse_return
  | Ident name => if decide (name = "emit") then parse_emit else parse_assign name
  | _ => expr ← parse_expr; _ ← expect Semicolon; mret (SExpr expr)
  end.
End statements.

Fixpoint parse_stmt (fuel : nat) : M Stmt :=
  match fuel with
  | O => stuck
  | S fuel => nested (parse_stmt_inner (parse_stmt fuel) (parse_expr fuel) fuel)
  end.

(** ** Declarations *)
Section declarations.
Context (fuel : nat).

Definition parse_param : M Param :=
  name ← ident ExpectedParamName;
  _ ← expect Colon;
  ty ← ident ExpectedParamType;
  mret (mkParam name ty).

Definition parse_function : M Function :=
  is_pub ← optional Pub;
  _ ← expect Fn;
  name ← ident ExpectedFunctionName;
  _ ← expect ParenOpen;
  params ← many ParenClose (listed parse_param) fuel;
  _ ← expect ParenClose;
  b ← optional Arrow;
  return_type ← (if b : bool then (ty ← ident ExpectedReturnType; mret (Some ty)) else mret None);
  body ← parse_block (parse_stmt fuel) fuel;
  mret (mkFunction name params return_type body is_pub).

(** The type of a storage field. *)
Definition parse_storage_type : M string :=
  ty ← ident ExpectedType;
  if decide (ty = "Map") then
    _ ← expect Lt;
    k ← ident ExpectedMapKeyType;
    _ ← expect Comma;
    v ← ident ExpectedMapValueType;
    _ ← expect Gt;
    mret ("Map<" +:+ k +:+ "," +:+ v +:+ ">")
  else mret ty.

Definition parse_declared (ty : M string) : M StorageField :=
  name ← ident ExpectedName;
  _ ← expect Colon;
  ty ← ty;
  _ ← expect Comma;
  mret (mkStorageField name ty).

Definition parse_storage : M (list StorageField) :=
  _ ← consume;
  _ ← expect BraceOpen;
  fields ← many BraceClose (parse_declared parse_storage_type) fuel;
  _ ← expect BraceClose;
  mret fields.

Definition parse_struct : M Ast.Struct :=
  _ ← consume;
  name ← ident ExpectedName;
  _ ← expect BraceOpen;
  fields ← many BraceClose (parse_declared (ident ExpectedType)) fuel;
  _ ← expect BraceClose;
  mret (mkStruct name fields).

(** The items of a contract, added in order. *)
Fixpoint parse_items (n : nat) (storage : list StorageField) (structs : list Ast.Struct)
    (functions : list Function) : M (list StorageField * list Ast.Struct * list Function) :=
  match n with
  | O => stuck
  | S n =>
      t ← peek;
      match t with
      | BraceClose => mret (storage, structs, functions)
      | Storage => fs ← parse_storage; parse_items n (storage ++ fs) structs functions
      | Struct => s ← parse_struct; parse_items n storage (structs ++ [s]) functions
      | _ => f ← parse_function; parse_items n storage structs (functions ++ [f])
      end
  end.

Definition parse_contract : M Ast.Contract :=
  _ ← expect Contract;
  name ← ident ExpectedContractName;
  _ ← expect BraceOpen;
  '(storage, structs, functions) ← parse_items fuel [] [] [];
  _ ← expect BraceClose;
  mret (mkContract name storage structs functions).
End declarations.

(** Fuel for the recursion, which nests at most as deep as the counter goes,
    and for each loop, which takes a token per round. *)
Definition enough (ts : list Token) : nat := (length ts + Z.to_nat MAX_NESTING_DEPTH + 2)%nat.

Definition parse (ts : list Token) : option (result ParserMsg Ast.Contract) :=
  fst <$> parse_contract (enough ts) (new ts).

End Parser.
