(* ===== verification/ParserTotal.v ===== *)
(** * The parser returns

    Every production ends within its fuel, takes at least one token where it
    succeeds, and leaves the nesting counter as it was; more fuel changes
    nothing. *)
From stdpp Require Import base tactics numbers list strings.
From Stdlib Require Import ZArith Lia.
From S2P Require Import Prelude Compiler Parser.
Import Ast Lexer Parser.
Open Scope Z_scope.

(** ** Every input is parsed or refused *)
Module ParserTotal.

(** The tokens not read yet. *)
Definition rest (p : Parser) : list Token := drop (pos p) (tokens p).

Lemma peek_rest p : peek_token p = default Error (head (rest p)).
Proof. unfold peek_token, rest. by rewrite <- (Nat.add_0_r (pos p)) at 1; rewrite <- lookup_drop, <- head_lookup. Qed.

Lemma rest_consume p : rest (mkParser (tokens p) (S (pos p)) (depth p)) = tail (rest p).
Proof. unfold rest. simpl. rewrite <- Nat.add_1_r, <- drop_drop. by destruct (drop (pos p) (tokens p)). Qed.

(** At depth [d] and with at most [n] tokens left, [m] returns and leaves no
    more tokens than there were; with [s], fewer if it succeeds. *)
Definition good {A} (d : Z) (n : nat) (s : bool) (m : M A) : Prop :=
  ∀ p, depth p = d → (length (rest p) ≤ n)%nat → ∃ r p', m p = Some (r, p') ∧ depth p' = d ∧
    (length (rest p') ≤ length (rest p))%nat ∧ (s = true → is_ok r = true → (length (rest p') < length (rest p))%nat).

Lemma good_ret {A} d n (a : A) : good d n false (mret a).
Proof. intros p Hd Hn. by exists (Ok a), p. Qed.

Lemma good_fail {A} d n s e : good (A := A) d n s (fail e).
Proof. intros p Hd Hn. by exists (Err e), p. Qed.

Lemma good_weaken {A} d n s (m : M A) : good d n true m → good d n s m.
Proof. intros H p Hd Hn. destruct (H p Hd Hn) as (r&p'&?&?&?&?). exists r, p'. split_and!; auto. Qed.

Lemma good_le {A} d n n' s (m : M A) : good d n s m → (n' ≤ n)%nat → good d n' s m.
Proof. intros H Hle p Hd Hn. apply H; [done|lia]. Qed.

Lemma good_bind {A B} d n s (m : M A) (k : A → M B) : good d n false m → (∀ a, good d n s (k a)) → good d n s (m ≫= k).
Proof.
  intros Hm Hk p Hd Hn. destruct (Hm p Hd Hn) as ([a|e]&p1&E&Hd1&Hn1&_); unfold mbind, M_bind; rewrite E; [|by exists (Err e), p1].
  destruct (Hk a p1 Hd1 ltac:(lia)) as (r&p'&->&?&?&Hs). exists r, p'. split_and!; try done; [lia|].
  intros ? Hr. specialize (Hs H1 Hr). lia.
Qed.

(** After progress the rest has fewer tokens to go through. *)
Lemma good_bind_strict {A B} d n s (m : M A) (k : A → M B) : good d n true m →
  (∀ a n', n = S n' → good d n' false (k a)) → good d n s (m ≫= k).
Proof.
  intros Hm Hk p Hd Hn. destruct (Hm p Hd Hn) as ([a|e]&p1&E&Hd1&Hn1&Hs1); unfold mbind, M_bind; rewrite E; [|by exists (Err e), p1].
  specialize (Hs1 eq_refl eq_refl). destruct n as [|n]; [lia|].
  destruct (Hk a n eq_refl p1 Hd1 ltac:(lia)) as (r&p'&->&?&?&_). exists r, p'. split_and!; try done; lia.
Qed.

Lemma good_peek d n : good d n false peek.
Proof. intros p Hd Hn. by eexists _, p. Qed.

Lemma good_consume_bind {A} d n s (k : Token → M A) : good d n true (k Error) →
  (∀ t n', n = S n' → good d n' false (k t)) → good d n s (consume ≫= k).
Proof.
  intros He Hk p Hd Hn. unfold mbind, M_bind, consume. rewrite peek_rest. set (p1 := mkParser _ _ _).
  pose proof (rest_consume p : rest p1 = _) as Hr. destruct (rest p) as [|t l] eqn:E; simpl in *.
  - destruct (He p1 Hd ltac:(rewrite Hr; simpl; lia)) as (r&p'&?&?&Hl&?). exists r, p'. rewrite Hr in *. split_and!; auto.
  - destruct n as [|n]; [lia|]. destruct (Hk t n eq_refl p1 Hd ltac:(rewrite Hr; lia)) as (r&p'&?&?&Hl&?).
    exists r, p'. rewrite Hr in *. split_and!; try done; lia.
Qed.

(** The same from a state whose next token is [t]. *)
Definition good_at {A} (t : Token) (d : Z) (n : nat) (s : bool) (m : M A) : Prop :=
  ∀ p, head (rest p) = Some t → depth p = d → (length (rest p) ≤ n)%nat → ∃ r p', m p = Some (r, p') ∧ depth p' = d ∧
    (length (rest p') ≤ length (rest p))%nat ∧ (s = true → is_ok r = true → (length (rest p') < length (rest p))%nat).

Lemma good_good_at {A} t d n s (m : M A) : good d n s m → good_at t d n s m.
Proof. intros H p _. apply H. Qed.

Lemma good_peek_bind {A} d n s (k : Token → M A) : good d n s (k Error) → (∀ t, good_at t d n s (k t)) → good d n s (peek ≫= k).
Proof.
  intros He Hk p Hd Hn. unfold mbind, M_bind, peek. rewrite peek_rest. destruct (head (rest p)) as [t|] eqn:E.
  - by apply Hk.
  - by apply He.
Qed.

Lemma good_at_consume {A} t d n s (k : Token → M A) :
  (∀ n', n = S n' → good d n' false (k t)) → good_at t d n s (consume ≫= k).
Proof.
  intros Hk p Ht Hd Hn. unfold mbind, M_bind, consume. rewrite peek_rest, Ht. set (p1 := mkParser _ _ _).
  pose proof (rest_consume p : rest p1 = _) as Hr. destruct (rest p) as [|t' l]; [done|]. injection Ht as ->. simpl in *.
  destruct n as [|n]; [lia|]. destruct (Hk n eq_refl p1 Hd ltac:(rewrite Hr; lia)) as (r&p'&?&?&Hl&?).
  exists r, p'. rewrite Hr in *. split_and!; try done; lia.
Qed.

Lemma good_consume d n : good d n false consume.
Proof.
  intros p Hd Hn. eexists _, _. split; [done|]. split; [done|]. rewrite rest_consume. split; [|done].
  destruct (rest p); simpl; lia.
Qed.

Lemma good_expect d n s t : t ≠ Error → good d n s (expect t).
Proof.
  intros Ht. apply good_consume_bind.
  - rewrite decide_False by done. apply good_fail.
  - intros u n' _. destruct (decide (u = t)); [apply good_ret|apply good_fail].
Qed.

Lemma good_ident d n s e : good d n s (ident e).
Proof. apply good_consume_bind; [apply good_fail|]. intros [] n' _; first [apply good_ret | apply good_fail]. Qed.

Lemma good_next d n t : good d n false (next_is t).
Proof. apply good_bind; [apply good_peek|]. intros u. apply good_ret. Qed.

Lemma good_optional d n t : good d n false (optional t).
Proof.
  apply good_bind; [apply good_next|]. intros [|]; [|apply good_ret].
  apply good_bind; [apply good_consume|]. intros _. apply good_ret.
Qed.

Lemma good_many {A} d close (item : M A) fuel : ∀ n, good d n true item → (n < fuel)%nat → good d n false (many close item fuel).
Proof.
  induction fuel as [|fuel IH]; intros n Hi Hn; [lia|]. cbn [many]. apply good_bind; [apply good_next|].
  intros [|]; [apply good_ret|]. apply good_bind_strict; [done|]. intros x n' ->.
  apply good_bind; [apply IH; [by eapply good_le; [done|lia]|lia]|]. intros l. apply good_ret.
Qed.

Lemma good_listed {A} d n (item : M A) : good d n true item → good d n true (listed item).
Proof.
  intros Hi. apply good_bind_strict; [done|]. intros x n' _.
  apply good_bind; [apply good_optional|]. intros _. apply good_ret.
Qed.

Lemma good_operations d op_of operand fuel : ∀ n left, good d n true operand → (n < fuel)%nat →
  good d n false (operations op_of operand left fuel).
Proof.
  induction fuel as [|fuel IH]; intros n left Hi Hn; [lia|]. cbn [operations]. apply good_bind; [apply good_peek|].
  intros t. destruct (op_of t) as [op|]; [|apply good_ret]. apply good_bind; [apply good_consume|]. intros _.
  apply good_bind_strict; [done|]. intros right n' ->. apply IH; [by eapply good_le; [done|lia]|lia].
Qed.

Lemma good_accesses d fuel : ∀ n e, (n < fuel)%nat → good d n false (accesses e fuel).
Proof.
  induction fuel as [|fuel IH]; intros n e Hn; [lia|]. cbn [accesses]. apply good_bind; [apply good_optional|].
  intros [|]; [|apply good_ret]. apply good_bind_strict; [apply good_ident|]. intros f n' ->. apply IH. lia.
Qed.

Lemma good_nested {A} d n s (inner : M A) : 0 ≤ d → (d < MAX_NESTING_DEPTH → good (d + 1) n s inner) → good d n s (nested inner).
Proof.
  intros H0 Hi p Hd Hn. unfold nested, enter. destruct (Z.leb_spec MAX_NESTING_DEPTH (depth p)) as [Hle|Hlt].
  - by exists (Err TooDeep), p.
  - rewrite Hd in *. destruct (Hi Hlt (mkParser (tokens p) (pos p) (d + 1)) eq_refl Hn) as (r&p'&->&Hd'&Hl&Hs).
    exists r, (leave p'). split; [done|]. split; [|done]. simpl. lia.
Qed.

(** One production after the other. *)
Ltac good :=
  repeat match goal with
  | |- good _ _ _ (mret _) => apply good_ret
  | |- good _ _ _ (fail _) => apply good_fail
  | H : good _ ?n true ?m |- good _ ?n' _ ?m => first [exact H | apply (good_le _ n); [exact H|lia] | apply good_weaken, (good_le _ n); [exact H|lia]]
  | H : ∀ _, good _ ?n true _ |- good _ _ _ _ => first [apply H | eapply good_le; [apply H|lia] | eapply good_weaken, good_le; [apply H|lia]]
  | H : ∀ k, good _ k true ?m |- good _ _ _ ?m => apply good_weaken, H
  | H : ∀ n', (n' ≤ _)%nat → good _ n' _ ?m |- good _ _ _ ?m => first [apply H; lia | apply good_weaken, H; lia]
  | H : ∀ n' s, (n' ≤ _)%nat → good _ n' s ?m |- good _ _ _ ?m => apply H; lia
  | H : ∀ k n', (n' ≤ _)%nat → (n' < k)%nat → good _ n' _ (?m k) |- good _ _ _ (?m _) => apply H; lia
  | |- good _ _ _ peek => apply good_peek
  | |- good _ _ _ consume => apply good_consume
  | |- good _ _ _ (expect _) => by apply good_expect
  | |- good _ _ _ (ident _) => apply good_ident
  | |- good _ _ _ (next_is _) => apply good_next
  | |- good _ _ _ (optional _) => apply good_optional
  | |- good _ _ true (listed _) => apply good_listed
  | |- good _ _ false (many _ _ _) => apply good_many; [|lia]
  | |- good _ _ _ (if ?b then _ else _) => destruct b
  | |- good _ _ _ (match ?t with _ => _ end) => destruct t
  | |- good _ _ true (_ ≫= _) => first [apply good_bind_strict; [good; fail|intros ? ? ->] | apply good_bind; [good; fail|intros ?]]
  | |- good _ _ false (_ ≫= _) => apply good_bind; [good; fail|intros ?]
  end.

Section productions.
Context (d : Z) (n : nat) (fuel : nat) (Hfuel : (n < fuel)%nat).

Section with_expr.
Context (pe : M Expr) (Hpe : good d n true pe).

Lemma good_path x : good d n true (parse_path x).
Proof. unfold parse_path. good. Qed.

Lemma good_field : good d n true (parse_field pe).
Proof. unfold parse_field. good. Qed.

Lemma good_parse_ident x : good d n false (parse_ident pe fuel x).
Proof. pose proof good_field. pose proof good_path. unfold parse_ident. good. Qed.
End with_expr.
End productions.

Lemma good_primary d n fuel pe : (n < fuel)%nat → good d n true pe → good d n true (parse_primary pe fuel).
Proof.
  intros Hf Hpe. apply good_consume_bind; [apply good_fail|]. intros t n' ->. destruct t; good.
  apply good_parse_ident; [lia|by eapply good_le; [done|lia]].
Qed.

Lemma good_postfix d n fuel pe : (n < fuel)%nat → good d n true pe → good d n true (parse_postfix pe fuel).
Proof.
  intros Hf Hpe. apply good_bind_strict; [by apply good_primary|]. intros e n' ->. apply good_accesses. lia.
Qed.

Lemma good_level d n fuel op_of operand : (n < fuel)%nat → good d n true operand →
  good d n true (left ← operand; operations op_of operand left fuel).
Proof.
  intros Hf Ho. apply good_bind_strict; [done|]. intros e n' ->. apply good_operations; [by eapply good_le; [done|lia]|lia].
Qed.

Lemma good_expr_inner d n fuel pe : (n < fuel)%nat → good d n true pe → good d n true (parse_expr_inner pe fuel).
Proof. intros Hf Hpe. by do 3 (apply good_level; [done|]); apply good_postfix. Qed.

Lemma good_expr fuel : ∀ d n, 0 ≤ d ≤ MAX_NESTING_DEPTH → (n + Z.to_nat (MAX_NESTING_DEPTH - d) < fuel)%nat →
  good d n true (parse_expr fuel).
Proof.
  induction fuel as [|fuel IH]; intros d n Hd Hf; [lia|]. apply good_nested; [lia|]. intros Hlt.
  apply good_expr_inner; [lia|]. apply IH; lia.
Qed.

Section statements.
Context (d : Z) (n fuel : nat) (Hfuel : (n < fuel)%nat).
Context (ps : M Stmt) (Hps : good d n true ps) (pe : M Expr) (Hpe : good d n true pe).

Lemma good_block n' : (n' ≤ n)%nat → good d n' true (parse_block ps fuel).
Proof. intros Hle. unfold parse_block. good. Qed.

Lemma good_pattern n' : good d n' true parse_pattern.
Proof.
  apply good_peek_bind; [good|]. intros t. destruct t; try (apply good_good_at; good; fail).
  - destruct (decide (s = "_")); [|apply good_good_at; good]. apply good_at_consume. intros ? ->. good.
  - apply good_at_consume. intros ? ->. good.
Qed.

Lemma good_arm n' : (n' ≤ n)%nat → good d n' true (parse_match_arm ps fuel).
Proof.
  intros Hle. unfold parse_match_arm. apply good_bind_strict; [apply good_pattern|]. intros pat n1 ->.
  apply good_bind; [good|]. intros _. apply good_bind; [good|]. intros b.
  apply good_bind; [|intros body; good]. destruct b; [apply good_weaken, good_block; lia|good].
Qed.

Lemma good_arms k : ∀ n', (n' ≤ n)%nat → (n' < k)%nat → good d n' false (parse_arms ps fuel k).
Proof.
  induction k as [|k IH]; intros n' Hle Hk; [lia|]. cbn [parse_arms].
  assert (good d n' false (arm ← parse_match_arm ps fuel; t ← peek;
    match t with
    | Comma => _ ← consume; arms ← parse_arms ps fuel k; mret (arm :: arms)
    | BraceClose => mret [arm]
    | _ => fail ExpectedCommaOrBrace
    end)) as Hother.
  { apply good_bind_strict; [by apply good_arm|]. intros arm n1 ->. apply good_bind; [good|]. intros t.
    destruct t; good. apply good_bind; [apply IH; lia|]. intros arms. good. }
  apply good_peek_bind; [exact Hother|]. intros t. destruct t; try exact (good_good_at _ _ _ _ _ Hother).
  - apply good_good_at. good.
  - apply good_at_consume. intros n1 ->. apply good_bind; [good|]. intros [|]; [good|]. apply IH; lia.
Qed.

Lemma good_condition n' s : (n' ≤ n)%nat → good d n' s (parse_condition pe).
Proof. intros Hle. unfold parse_condition. apply good_weaken. good. Qed.

Lemma good_stmt_inner : good d n true (parse_stmt_inner ps pe fuel).
Proof.
  assert (good d n true (expr ← pe; _ ← expect Semicolon; mret (SExpr expr))) as Hexpr by good.
  pose proof good_condition as Hcond. pose proof good_block as Hblock. pose proof good_arms as Harms.
  apply good_bind; [good|]. intros t. destruct t; try exact Hexpr.
  - unfold parse_let. good.
  - unfold parse_if. good.
  - unfold parse_match. good.
  - unfold parse_storage_write. good.
  - unfold parse_constrain. good.
  - unfold parse_while. good.
  - unfold parse_for. good.
  - unfold parse_return. good.
  - destruct (decide (s = "emit")); [unfold parse_emit|unfold parse_assign]; good.
Qed.
End statements.


Lemma good_stmt fuel : ∀ d n, 0 ≤ d ≤ MAX_NESTING_DEPTH → (n + Z.to_nat (MAX_NESTING_DEPTH - d) < fuel)%nat →
  good d n true (parse_stmt fuel).
Proof.
  induction fuel as [|fuel IH]; intros d n Hd Hf; [lia|]. apply good_nested; [lia|]. intros Hlt.
  apply good_stmt_inner; [lia|apply IH; lia|apply good_expr; lia].
Qed.

Section declarations.
Context (n fuel : nat) (Hfuel : (n + Z.to_nat MAX_NESTING_DEPTH < fuel)%nat).

Lemma good_function n' : (n' ≤ n)%nat → good 0 n' true (parse_function fuel).
Proof.
  intros Hle. assert (good 0 n true (parse_stmt fuel)) as Hs by (apply good_stmt; unfold MAX_NESTING_DEPTH in *; lia).
  assert (good 0 n true parse_param) as Hp by (unfold parse_param; good).
  pose proof (good_block 0 n fuel ltac:(lia) _ Hs) as Hb. unfold parse_function. good.
Qed.

Lemma good_declared n' ty : good 0 n' true ty → good 0 n' true (parse_declared ty).
Proof. intros Hty. unfold parse_declared. good. Qed.

Lemma good_storage n' : (n' ≤ n)%nat → good 0 n' true (parse_storage fuel).
Proof.
  intros Hle. assert (∀ k, good 0 k true parse_storage_type) as Hty by (intros k; unfold parse_storage_type; good).
  assert (∀ k, good 0 k true (parse_declared parse_storage_type)) as Hd by (intros k; by apply good_declared).
  unfold parse_storage. good.
Qed.

Lemma good_struct n' : (n' ≤ n)%nat → good 0 n' true (parse_struct fuel).
Proof.
  intros Hle. assert (∀ k, good 0 k true (parse_declared (ident ExpectedType))) as Hd by (intros k; apply good_declared; good).
  unfold parse_struct. good.
Qed.

Lemma good_items k : ∀ n' a b c, (n' ≤ n)%nat → (n' < k)%nat → good 0 n' false (parse_items fuel k a b c).
Proof.
  induction k as [|k IH]; intros n' a b c Hle Hk; [lia|]. cbn [parse_items].
  assert (good 0 n' false (f ← parse_function fuel; parse_items fuel k a b (c ++ [f]))) as Hf.
  { apply good_bind_strict; [by apply good_function|]. intros f n1 ->. apply IH; lia. }
  apply good_bind; [good|]. intros t. destruct t; try exact Hf; [| |good].
  - apply good_bind_strict; [by apply good_storage|]. intros f n1 ->. apply IH; lia.
  - apply good_bind_strict; [by apply good_struct|]. intros f n1 ->. apply IH; lia.
Qed.

Lemma good_contract : good 0 n false (parse_contract fuel).
Proof.
  apply good_bind; [good|]. intros _. apply good_bind; [good|]. intros name. apply good_bind; [good|]. intros _.
  apply good_bind; [apply good_items; lia|]. intros [[a b] c]. good.
Qed.
End declarations.

(** ** More fuel changes nothing *)
Definition below {A} (m m' : M A) : Prop := ∀ p x, m p = Some x → m' p = Some x.

Lemma below_refl {A} (m : M A) : below m m.
Proof. by intros p x. Qed.

Lemma below_stuck {A} (m : M A) : below stuck m.
Proof. by intros p x. Qed.

Lemma below_bind {A B} (m m' : M A) (k k' : A → M B) : below m m' → (∀ a, below (k a) (k' a)) → below (m ≫= k) (m' ≫= k').
Proof.
  intros Hm Hk p x. unfold mbind, M_bind. destruct (m p) as [[[a|e] p1]|] eqn:E; [| |done]; rewrite (Hm _ _ E); [|done].
  apply Hk.
Qed.

Lemma below_nested {A} (m m' : M A) : below m m' → below (nested m) (nested m').
Proof.
  intros Hm p x. unfold nested. destruct (enter p) as [[[[]|e] p1]|]; [|done|done].
  destruct (m p1) as [[r p2]|] eqn:E; [|done]. by rewrite (Hm _ _ E).
Qed.

Lemma below_many {A} close (m m' : M A) : below m m' → ∀ f f', (f ≤ f')%nat → below (many close m f) (many close m' f').
Proof.
  intros Hm. induction f as [|f IH]; intros f' Hf; [apply below_stuck|]. destruct f' as [|f']; [lia|]. cbn [many].
  apply below_bind; [apply below_refl|]. intros [|]; [apply below_refl|].
  apply below_bind; [done|]. intros a. apply below_bind; [apply IH; lia|]. intros l. apply below_refl.
Qed.

Lemma below_listed {A} (m m' : M A) : below m m' → below (listed m) (listed m').
Proof. intros Hm. apply below_bind; [done|]. intros a. apply below_refl. Qed.

Lemma below_operations op_of m m' : below m m' → ∀ f f' e, (f ≤ f')%nat →
  below (operations op_of m e f) (operations op_of m' e f').
Proof.
  intros Hm. induction f as [|f IH]; intros f' e Hf; [apply below_stuck|]. destruct f' as [|f']; [lia|]. cbn [operations].
  apply below_bind; [apply below_refl|]. intros t. destruct (op_of t); [|apply below_refl].
  apply below_bind; [apply below_refl|]. intros _. apply below_bind; [done|]. intros r. apply IH. lia.
Qed.

Lemma below_accesses : ∀ f f' e, (f ≤ f')%nat → below (accesses e f) (accesses e f').
Proof.
  induction f as [|f IH]; intros f' e Hf; [apply below_stuck|]. destruct f' as [|f']; [lia|]. cbn [accesses].
  apply below_bind; [apply below_refl|]. intros [|]; [|apply below_refl].
  apply below_bind; [apply below_refl|]. intros r. apply IH. lia.
Qed.

Ltac below :=
  repeat first
  [ apply below_refl | assumption
  | apply below_bind; [|intros ?]
  | apply below_many; [|lia] | apply below_listed
  | match goal with |- below (match ?t with _ => _ end) _ => destruct t end ].

Section mono.
Context (f f' : nat) (Hf : (f ≤ f')%nat) (pe pe' : M Expr) (Hpe : below pe pe').

Lemma below_ident x : below (parse_ident pe f x) (parse_ident pe' f' x).
Proof.
  assert (below (parse_field pe) (parse_field pe')) by (unfold parse_field; below).
  unfold parse_ident. below.
Qed.

Lemma below_primary : below (parse_primary pe f) (parse_primary pe' f').
Proof. unfold parse_primary. below. apply below_ident. Qed.

Lemma below_postfix : below (parse_postfix pe f) (parse_postfix pe' f').
Proof. apply below_bind; [apply below_primary|]. intros e. by apply below_accesses. Qed.

Lemma below_level op_of m m' : below m m' →
  below (left ← m; operations op_of m left f) (left ← m'; operations op_of m' left f').
Proof. intros Hm. apply below_bind; [done|]. intros e. by apply below_operations. Qed.

Lemma below_expr_inner : below (parse_expr_inner pe f) (parse_expr_inner pe' f').
Proof. do 3 apply below_level. apply below_postfix. Qed.

Context (ps ps' : M Stmt) (Hps : below ps ps').

Lemma below_block : below (parse_block ps f) (parse_block ps' f').
Proof. unfold parse_block. below. Qed.

Lemma below_arm : below (parse_match_arm ps f) (parse_match_arm ps' f').
Proof. pose proof below_block. unfold parse_match_arm. below. Qed.

Lemma below_arms : ∀ k k', (k ≤ k')%nat → below (parse_arms ps f k) (parse_arms ps' f' k').
Proof.
  pose proof below_arm. induction k as [|k IH]; intros k' Hk; [apply below_stuck|]. destruct k' as [|k']; [lia|].
  assert (below (parse_arms ps f k) (parse_arms ps' f' k')) by (apply IH; lia).
  cbn [parse_arms]. below.
Qed.

Lemma below_stmt_inner : below (parse_stmt_inner ps pe f) (parse_stmt_inner ps' pe' f').
Proof.
  pose proof below_block. pose proof (below_arms f f' Hf).
  assert (below (parse_condition pe) (parse_condition pe')) by (unfold parse_condition; below).
  unfold parse_stmt_inner, parse_let, parse_constrain, parse_storage_write, parse_if, parse_while, parse_match, parse_for,
    parse_return, parse_emit, parse_assign. below.
Qed.
End mono.

Lemma below_expr : ∀ f f', (f ≤ f')%nat → below (parse_expr f) (parse_expr f').
Proof.
  induction f as [|f IH]; intros f' Hf; [apply below_stuck|]. destruct f' as [|f']; [lia|].
  apply below_nested, below_expr_inner; [lia|]. apply IH. lia.
Qed.

Lemma below_stmt : ∀ f f', (f ≤ f')%nat → below (parse_stmt f) (parse_stmt f').
Proof.
  induction f as [|f IH]; intros f' Hf; [apply below_stuck|]. destruct f' as [|f']; [lia|].
  apply below_nested, below_stmt_inner; [lia|apply below_expr; lia|apply IH; lia].
Qed.

Lemma below_items f f' : (f ≤ f')%nat → ∀ k k' a b c, (k ≤ k')%nat →
  below (parse_items f k a b c) (parse_items f' k' a b c).
Proof.
  intros Hf. pose proof (below_block f f' Hf _ _ (below_stmt f f' Hf)) as Hb.
  assert (below (parse_function f) (parse_function f')) by (unfold parse_function; below).
  assert (below (parse_storage f) (parse_storage f')) by (unfold parse_storage; below).
  assert (below (parse_struct f) (parse_struct f')) by (unfold parse_struct; below).
  induction k as [|k IH]; intros k' a b c Hk; [apply below_stuck|]. destruct k' as [|k']; [lia|].
  assert (∀ a b c, below (parse_items f k a b c) (parse_items f' k' a b c)) by (intros; apply IH; lia).
  cbn [parse_items]. below; auto.
Qed.

Lemma below_contract f f' : (f ≤ f')%nat → below (parse_contract f) (parse_contract f').
Proof. intros Hf. unfold parse_contract. below. by apply below_items. Qed.

End ParserTotal.
