(* ===== verification/ParserPrint.v ===== *)
(** * The parser reads back what is printed

    [Printer] prints a contract as tokens, with brackets around the operands
    that are operations themselves; [PrinterLemmas] shows that the parser
    reads a printed contract as that contract, if it nests no deeper than the
    parser's limit. *)
From stdpp Require Import base tactics numbers list strings.
From Stdlib Require Import ZArith Lia Ascii.
From S2P Require Import Prelude Compiler CompilerCode Parser ParserTotal.
Import Ast Lexer Parser ParserTotal CodeLemmas.
Open Scope Z_scope.

(** ** Printing *)
Module Printer.

Definition is_binary (e : Expr) : bool := match e with EBinary _ _ _ => true | _ => false end.
Definition paren (b : bool) (ts : list Token) : list Token := if b then ParenOpen :: ts ++ [ParenClose] else ts.

Definition op_token (op : BinOp) : Token :=
  match op with
  | BAdd => Plus | BSub => Minus | BMul => Star | BDiv => Slash
  | BEq => Eq | BNeq => Neq | BLt => Lt | BGt => Gt | BLte => Lte | BGte => Gte
  end.

(** [msg::f] and [block::f]. *)
Definition path_of (x : string) : option (string * string) :=
  match Str.strip_prefix "msg::" x, Str.strip_prefix "block::" x with
  | Some f, _ => Some ("msg", f)
  | _, Some f => Some ("block", f)
  | _, _ => None
  end.

Fixpoint print (e : Expr) : list Token :=
  match e with
  | EInt v => [Int v]
  | EIdent x => [Ident x]
  | EStorageRead x => [Storage; Colon; Colon; Ident x]
  | EMappingRead x k => Ident x :: BracketOpen :: print k ++ [BracketClose]
  | EFieldAccess b f => paren (is_binary b) (print b) ++ [Dot; Ident f]
  | EStructLiteral x fs => Ident x :: BraceOpen :: flat_map (λ '(f, v), Ident f :: Colon :: print v ++ [Comma]) fs ++ [BraceClose]
  | EBinary l op r => paren (is_binary l) (print l) ++ op_token op :: paren (is_binary r) (print r)
  | ECall x args =>
      match path_of x, args with
      | Some (p, f), _ => [Ident p; Colon; Colon; Ident f; ParenOpen; ParenClose]
      | None, [a; b; c] =>
          if decide (x = "verify_merkle_proof")
          then Ident x :: ParenOpen :: print a ++ Comma :: print b ++ Comma :: print c ++ [ParenClose]
          else Ident x :: ParenOpen :: flat_map (λ a, print a ++ [Comma]) args ++ [ParenClose]
      | None, _ => Ident x :: ParenOpen :: flat_map (λ a, print a ++ [Comma]) args ++ [ParenClose]
      end
  end.

Definition operand (e : Expr) : list Token := paren (is_binary e) (print e).

(** Names that start another production. *)
Definition reserved (x : string) : bool :=
  bool_decide (x ∈ ["poseidon"; "msg"; "block"; "verify_merkle_proof"]).

(** The expressions the grammar has. *)
Fixpoint printable (e : Expr) : bool :=
  match e with
  | EInt _ | EStorageRead _ => true
  | EIdent x => negb (reserved x)
  | EMappingRead x k => negb (reserved x) && printable k
  | EFieldAccess b _ => printable b
  | EStructLiteral x fs => negb (reserved x) && forallb (λ '(_, v), printable v) fs
  | EBinary l _ r => printable l && printable r
  | ECall x args =>
      match path_of x with
      | Some _ => (length args =? 0)%nat
      | None =>
          (if decide (x = "verify_merkle_proof") then (length args =? 3)%nat
           else bool_decide (x = "poseidon") || negb (reserved x)) && forallb printable args
      end
  end.

Fixpoint maximum (l : list Z) : Z := match l with [] => 0 | x :: l => Z.max x (maximum l) end.

(** How many calls of [parse_expr] are open at once within that of [e]. *)
Fixpoint levels (e : Expr) : Z :=
  match e with
  | EInt _ | EStorageRead _ | EIdent _ => 0
  | EMappingRead _ k => 1 + levels k
  | EFieldAccess b _ => if is_binary b then 1 + levels b else levels b
  | EStructLiteral _ fs => maximum (map (λ '(_, v), 1 + levels v) fs)
  | EBinary l _ r =>
      Z.max (if is_binary l then 1 + levels l else levels l) (if is_binary r then 1 + levels r else levels r)
  | ECall _ args => maximum (map (λ a, 1 + levels a) args)
  end.

Definition operand_levels (e : Expr) : Z := if is_binary e then 1 + levels e else levels e.

Definition block (body : list Token) : list Token := BraceOpen :: body ++ [BraceClose].

Fixpoint print_stmt (s : Stmt) : list Token :=
  match s with
  | SLet x e => Let :: Ident x :: Assign :: print e ++ [Semicolon]
  | SConstrain e => Constrain :: ParenOpen :: print e ++ [ParenClose; Semicolon]
  | SAssign x e => Ident x :: Assign :: print e ++ [Semicolon]
  | SStorageWrite x e => Storage :: Colon :: Colon :: Ident x :: Assign :: print e ++ [Semicolon]
  | SMappingWrite x k e => Ident x :: BracketOpen :: print k ++ BracketClose :: Assign :: print e ++ [Semicolon]
  | SIf c t e =>
      If :: ParenOpen :: print c ++ ParenClose :: block (flat_map print_stmt t) ++
        match e with Some e => Else :: block (flat_map print_stmt e) | None => [] end
  | SWhile c b => While :: ParenOpen :: print c ++ ParenClose :: block (flat_map print_stmt b)
  | SFor x a z b =>
      For :: Ident x :: In :: print a ++ DotDot :: ParenOpen :: print z ++ ParenClose :: block (flat_map print_stmt b)
  | SReturn e => Return :: match e with Some e => print e | None => [] end ++ [Semicolon]
  | SEmit x args => Ident "emit" :: Ident x :: ParenOpen :: flat_map (λ a, print a ++ [Comma]) args ++ [ParenClose; Semicolon]
  | SMatch e arms =>
      Match :: ParenOpen :: print e ++ ParenClose :: BraceOpen ::
        flat_map (λ '(p, b), match p with IntLit v => Int v | Wildcard => Ident "_" end :: FatArrow ::
          block (flat_map print_stmt b) ++ [Comma]) arms ++ [BraceClose; Semicolon]
  | SExpr e => ParenOpen :: print e ++ [ParenClose; Semicolon]
  end.

Fixpoint printable_stmt (s : Stmt) : bool :=
  match s with
  | SLet _ e | SConstrain e | SStorageWrite _ e | SExpr e => printable e
  | SAssign x e => bool_decide (x ≠ "emit") && printable e
  | SMappingWrite x k e => bool_decide (x ≠ "emit") && printable k && printable e
  | SIf c t e => printable c && forallb printable_stmt t && match e with Some e => forallb printable_stmt e | None => true end
  | SWhile c b => printable c && forallb printable_stmt b
  | SFor _ a z b => printable a && printable z && forallb printable_stmt b
  | SReturn e => match e with Some e => printable e | None => true end
  | SEmit _ args => forallb printable args
  | SMatch e arms => printable e && forallb (λ '(_, b), forallb printable_stmt b) arms
  end.

(** The same count for a statement, its own call included. *)
Fixpoint stmt_levels (s : Stmt) : Z :=
  1 + match s with
  | SLet _ e | SConstrain e | SStorageWrite _ e | SAssign _ e => 1 + levels e
  | SExpr e => 2 + levels e
  | SMappingWrite _ k e => Z.max (1 + levels k) (1 + levels e)
  | SIf c t e =>
      Z.max (1 + levels c) (Z.max (maximum (map stmt_levels t)) (match e with Some e => maximum (map stmt_levels e) | None => 0 end))
  | SWhile c b => Z.max (1 + levels c) (maximum (map stmt_levels b))
  | SFor _ a z b => Z.max (1 + levels a) (Z.max (2 + levels z) (maximum (map stmt_levels b)))
  | SReturn e => match e with Some e => 1 + levels e | None => 0 end
  | SEmit _ args => maximum (map (λ a, 1 + levels a) args)
  | SMatch e arms => Z.max (1 + levels e) (maximum (map (λ '(_, b), maximum (map stmt_levels b)) arms))
  end.

(** [Map<k,v>] as the parser spells it. *)
Definition map_type (ty : string) : option (string * string) :=
  inner ← Str.strip_prefix "Map<" ty; inner ← Str.strip_suffix ">"%char inner; Str.split_once ","%char inner.

Definition print_type (ty : string) : list Token :=
  match map_type ty with
  | Some (k, v) => [Ident "Map"; Lt; Ident k; Comma; Ident v; Gt]
  | None => [Ident ty]
  end.

Definition print_storage (f : StorageField) : list Token := Ident (f_name f) :: Colon :: print_type (f_ty f) ++ [Comma].
Definition print_field (f : StorageField) : list Token := [Ident (f_name f); Colon; Ident (f_ty f); Comma].
Definition print_struct (s : Ast.Struct) : list Token := Struct :: Ident (st_name s) :: block (flat_map print_field (fields s)).
Definition print_param (p : Param) : list Token := [Ident (p_name p); Colon; Ident (p_ty p); Comma].

Definition print_function (f : Function) : list Token :=
  (if is_pub f then [Pub] else []) ++ Fn :: Ident (fn_name f) :: ParenOpen :: flat_map print_param (params f) ++
  ParenClose :: match return_type f with Some ty => [Arrow; Ident ty] | None => [] end ++ block (flat_map print_stmt (body f)).

Definition print_contract (c : Ast.Contract) : list Token :=
  Contract :: Ident (c_name c) :: BraceOpen :: Storage :: block (flat_map print_storage (storage c)) ++
  flat_map print_struct (structs c) ++ flat_map print_function (functions c) ++ [BraceClose].

Definition printable_function (f : Function) : bool :=
  forallb (λ s, printable_stmt s && (stmt_levels s <=? MAX_NESTING_DEPTH)) (body f).

(** The contracts the grammar has, nested no deeper than it allows. *)
Definition printable_contract (c : Ast.Contract) : bool :=
  forallb (λ f, bool_decide (f_ty f ≠ "Map")) (storage c) && forallb printable_function (functions c).

End Printer.

(** ** Reading *)
Module PrinterLemmas.
Import Printer.

(** From [ts] at depth [d], [m] returns [a] and leaves [r]. *)
Definition reads {A} (m : M A) (d : Z) (ts r : list Token) (a : A) : Prop :=
  ∀ p, rest p = ts → depth p = d → ∃ p', m p = Some (Ok a, p') ∧ rest p' = r ∧ depth p' = d.

Lemma reads_ret {A} d ts (a : A) : reads (mret a) d ts ts a.
Proof. intros p Hp Hd. by exists p. Qed.

Lemma reads_bind {A B} (m : M A) (k : A → M B) d ts r r' a b : reads m d ts r a → reads (k a) d r r' b → reads (m ≫= k) d ts r' b.
Proof.
  intros Hm Hk p Hp Hd. destruct (Hm p Hp Hd) as (p1&E&Hp1&Hd1). unfold mbind, M_bind. rewrite E. by apply Hk.
Qed.

Lemma reads_peek d ts : reads peek d ts ts (default Error (head ts)).
Proof. intros p <- Hd. exists p. unfold peek. by rewrite peek_rest. Qed.

Lemma reads_consume d t ts : reads consume d (t :: ts) ts t.
Proof.
  intros p Hp Hd. eexists. unfold consume. split; [by rewrite peek_rest, Hp|]. split; [|done]. by rewrite rest_consume, Hp.
Qed.

Lemma reads_expect d t ts : reads (expect t) d (t :: ts) ts ().
Proof. eapply reads_bind; [apply reads_consume|]. rewrite decide_True by done. apply reads_ret. Qed.

Lemma reads_ident d e x ts : reads (ident e) d (Ident x :: ts) ts x.
Proof. eapply reads_bind; [apply reads_consume|]. apply reads_ret. Qed.

Lemma reads_next d t ts : reads (next_is t) d ts ts (bool_decide (default Error (head ts) = t)).
Proof. eapply reads_bind; [apply reads_peek|]. apply reads_ret. Qed.

Lemma reads_optional_yes d t ts : reads (optional t) d (t :: ts) ts true.
Proof.
  eapply reads_bind; [apply reads_next|]. simpl. rewrite bool_decide_true by done.
  eapply reads_bind; [apply reads_consume|]. apply reads_ret.
Qed.

Lemma reads_optional_no d t ts : default Error (head ts) ≠ t → reads (optional t) d ts ts false.
Proof. intros H. eapply reads_bind; [apply reads_next|]. rewrite bool_decide_false by done. apply reads_ret. Qed.

Lemma reads_nested {A} (m : M A) d ts r a : 0 ≤ d < MAX_NESTING_DEPTH → reads m (d + 1) ts r a → reads (nested m) d ts r a.
Proof.
  intros Hd Hm p Hp Hpd. unfold nested, enter. rewrite (proj2 (Z.leb_gt _ _)) by lia.
  destruct (Hm (mkParser (tokens p) (pos p) (depth p + 1)) Hp ltac:(simpl; lia)) as (p'&->&Hr&Hd').
  exists (leave p'). split; [done|]. split; [done|]. simpl. lia.
Qed.

(** A list of items, each starting with something else than [close]; [P]
    holds of what follows an item. *)
Lemma reads_many_after {A} (P : list Token → Prop) close (item : M A) (pr : A → list Token) d n xs : ∀ r fuel,
  Forall (λ x, (∃ t l, pr x = t :: l ∧ t ≠ close) ∧ (∀ r, P (pr x ++ r)) ∧
    ∀ r, P r → (length (pr x ++ r) ≤ n)%nat → reads item d (pr x ++ r) r x) xs →
  P (close :: r) → (length (flat_map pr xs ++ close :: r) ≤ n)%nat → (n < fuel)%nat →
  reads (many close item fuel) d (flat_map pr xs ++ close :: r) (close :: r) xs.
Proof.
  intros r fuel Hall HP Hn Hf. assert (length (flat_map pr xs) < fuel)%nat as Hfl by (rewrite length_app in Hn; lia). clear Hf.
  revert fuel Hn Hfl. induction xs as [|x xs IH]; intros fuel Hn Hf; (destruct fuel as [|fuel]; [lia|]); cbn [many flat_map].
  - eapply reads_bind; [apply reads_next|]. simpl. rewrite bool_decide_true by done. apply reads_ret.
  - apply Forall_cons in Hall as [[(t&l&Ht&Hne) [_ Hx]] Hall].
    cbn [flat_map] in Hn, Hf. rewrite length_app in Hf. rewrite Ht in Hf at 1. cbn [length] in Hf. rewrite <- app_assoc in Hn.
    eapply reads_bind; [apply reads_next|]. rewrite bool_decide_false by (by rewrite Ht). rewrite <- app_assoc.
    eapply reads_bind; [apply Hx; [|done]|].
    + destruct xs as [|y ys]; [done|]. apply Forall_cons in Hall as [[_ [Hy _]] _]. cbn [flat_map]. rewrite <- app_assoc. apply Hy.
    + eapply reads_bind; [apply IH|apply reads_ret]; [done|rewrite length_app in Hn; lia|lia].
Qed.

Lemma reads_many {A} close (item : M A) (pr : A → list Token) d n xs r fuel :
  Forall (λ x, (∃ t l, pr x = t :: l ∧ t ≠ close) ∧ ∀ r, (length (pr x ++ r) ≤ n)%nat → reads item d (pr x ++ r) r x) xs →
  (length (flat_map pr xs ++ close :: r) ≤ n)%nat → (n < fuel)%nat →
  reads (many close item fuel) d (flat_map pr xs ++ close :: r) (close :: r) xs.
Proof.
  intros Hall Hn Hf. apply (reads_many_after (λ _, True) _ _ _ _ n); try done.
  eapply Forall_impl; [exact Hall|]. intros x [? Hx]. split_and!; try done. intros r' _. apply Hx.
Qed.

Lemma reads_listed {A} (item : M A) d ts r x : reads item d ts (Comma :: r) x → reads (listed item) d ts r x.
Proof. intros Hi. eapply reads_bind; [done|]. eapply reads_bind; [apply reads_optional_yes|]. apply reads_ret. Qed.

(** *** Expressions *)

(** What may follow an operand: not something that would belong to it. *)
Definition calm (r : list Token) : Prop :=
  match r with ParenOpen :: _ | BracketOpen :: _ | BraceOpen :: _ => False | _ => True end.

(** What follows an expression. *)
Definition follow (r : list Token) : Prop :=
  match r with
  | Semicolon :: _ | ParenClose :: _ | BracketClose :: _ | BraceClose :: _ | Comma :: _ | DotDot :: _ => True
  | _ => False
  end.

Lemma follow_calm r : follow r → calm r.
Proof. by destruct r as [|[] r]. Qed.

Lemma reads_operations_stop op_of operand d left r fuel : op_of (default Error (head r)) = None →
  reads (operations op_of operand left (S fuel)) d r r left.
Proof. intros H. eapply reads_bind; [apply reads_peek|]. rewrite H. apply reads_ret. Qed.

Lemma reads_operations_one op_of operand d left op t right ts r fuel : op_of t = Some op → reads operand d ts r right →
  op_of (default Error (head r)) = None →
  reads (operations op_of operand left (S (S fuel))) d (t :: ts) r (EBinary left op right).
Proof.
  intros Ht Ho Hr. eapply reads_bind; [apply reads_peek|]. simpl. rewrite Ht.
  eapply reads_bind; [apply reads_consume|]. eapply reads_bind; [done|]. by apply reads_operations_stop.
Qed.

Fixpoint chain (e : Expr) : nat := match e with EFieldAccess b _ => S (chain b) | _ => 0 end.

(** Room at depth [d] for [ts] tokens and [l] more levels. *)
Definition room (fuel : nat) (d : Z) (ts : list Token) (l : Z) : Prop :=
  0 ≤ d ∧ 0 ≤ l ∧ d + l ≤ MAX_NESTING_DEPTH ∧ Z.of_nat (length ts) + (MAX_NESTING_DEPTH - d) < Z.of_nat fuel.

(** Reading an operand: the rest of [parse_postfix] goes on after it. *)
Definition post (e : Expr) : Prop := ∀ fuel d r, printable e = true → calm r → room fuel d (operand e ++ r) (operand_levels e) →
  ∀ p, rest p = operand e ++ r → depth p = d → ∃ p', rest p' = r ∧ depth p' = d ∧
    parse_postfix (parse_expr fuel) fuel p = accesses e (fuel - chain e) p'.

Definition whole (e : Expr) : Prop := ∀ fuel d r, printable e = true → follow r → room fuel d (print e ++ r) (1 + levels e) →
  reads (parse_expr fuel) d (print e ++ r) r e.

Lemma levels_nonneg e : 0 ≤ levels e.
Proof.
  assert (∀ l, 0 ≤ maximum l) as Hm by (induction l; simpl; lia).
  induction e as [v|x|x|x k IHk|b f IHb|x fs|a op b IHa IHb|x args IH] using expr_induction; simpl; try done; try lia.
  - destruct (is_binary b); lia.
  - destruct (is_binary a); lia.
Qed.

Lemma chain_length e : (chain e ≤ length (operand e))%nat.
Proof.
  induction e; simpl; try lia. unfold operand. simpl. rewrite length_app. simpl. fold (operand e). lia.
Qed.

Lemma post_reads e : post e → ∀ fuel d r, printable e = true → calm r → head r ≠ Some Dot →
  room fuel d (operand e ++ r) (operand_levels e) → reads (parse_postfix (parse_expr fuel) fuel) d (operand e ++ r) r e.
Proof.
  intros He fuel d r Hpr Hc Hdot Hroom p Hp Hpd. destruct (He fuel d r Hpr Hc Hroom p Hp Hpd) as (p1&Hp1&Hd1&E).
  rewrite E. pose proof (chain_length e) as Hch. destruct Hroom as (?&?&?&Hf). rewrite length_app in Hf.
  destruct (fuel - chain e)%nat as [|k] eqn:Hk; [lia|].
  assert (reads (accesses e (S k)) d r r e) as Hacc; [|by apply Hacc].
  eapply reads_bind; [apply reads_optional_no|apply reads_ret]. by destruct r as [|[] r].
Qed.

Lemma reads_level op_of m d ts r e fuel : reads m d ts r e → op_of (default Error (head r)) = None → (0 < fuel)%nat →
  reads (left ← m; operations op_of m left fuel) d ts r e.
Proof.
  intros Hm Hr Hf. destruct fuel as [|fuel]; [lia|]. eapply reads_bind; [done|]. by apply reads_operations_stop.
Qed.

Lemma reads_level_one op_of m d ts r' r l op t right fuel : reads m d ts (t :: r') l → op_of t = Some op → reads m d r' r right →
  op_of (default Error (head r)) = None → (1 < fuel)%nat →
  reads (left ← m; operations op_of m left fuel) d ts r (EBinary l op right).
Proof.
  intros Hl Ht Hr Hs Hf. destruct fuel as [|[|fuel]]; [lia|lia|]. eapply reads_bind; [done|]. by eapply reads_operations_one.
Qed.

Lemma follow_stop r : follow r → comparison (default Error (head r)) = None ∧ additive (default Error (head r)) = None ∧
  multiplicative (default Error (head r)) = None ∧ head r ≠ Some Dot.
Proof. by destruct r as [|[] r]. Qed.

Lemma whole_atom e : is_binary e = false → post e → whole e.
Proof.
  intros Hb He fuel d r Hpr Hfo (H0&Hl&Hd&Hf). pose proof (levels_nonneg e) as Hlv. destruct fuel as [|fuel]; [lia|]. apply reads_nested; [lia|].
  pose proof (follow_stop r Hfo) as (H1&H2&H3&H4).
  assert (operand e = print e) as Hop by (unfold operand; by rewrite Hb).
  pose proof (post_reads e He fuel (d + 1) r Hpr (follow_calm r Hfo) H4) as Hr. rewrite Hop in Hr.
  unfold parse_expr_inner, parse_arith, parse_term.
  do 3 (apply reads_level; [|done|lia]). apply Hr.
  unfold room, operand_levels. rewrite Hb. lia.
Qed.

Lemma op_token_class op : let t := op_token op in
  (multiplicative t = Some op ∨ multiplicative t = None ∧ additive t = Some op ∨
   multiplicative t = None ∧ additive t = None ∧ comparison t = Some op) ∧ (∀ r, calm (t :: r)) ∧ t ≠ Dot.
Proof. destruct op; simpl; tauto || (split_and!; try done; tauto). Qed.

Lemma whole_binary l op r : post l → post r → whole (EBinary l op r).
Proof.
  intros Hl Hr fuel d ts Hpr Hfo (H0&Hlv&Hd&Hf). pose proof (levels_nonneg (EBinary l op r)) as Hlv0. destruct fuel as [|fuel]; [lia|]. apply reads_nested; [lia|].
  pose proof (follow_stop ts Hfo) as (H1&H2&H3&H4). cbn [printable] in Hpr. apply andb_true_iff in Hpr as [Hpl Hpr].
  cbn [print] in *. fold (operand l) (operand r) in *. cbn [levels] in *. fold (operand_levels l) (operand_levels r) in *.
  rewrite <- app_assoc in *. cbn [app] in *. rewrite !length_app in Hf. cbn [length] in Hf. rewrite length_app in Hf.
  pose proof (op_token_class op) as (Hcls&Hcalm&Hdot).
  assert (0 ≤ operand_levels l ∧ 0 ≤ operand_levels r) as [Hll Hlr].
  { pose proof (levels_nonneg l). pose proof (levels_nonneg r). unfold operand_levels. destruct (is_binary l), (is_binary r); lia. }
  assert (reads (parse_postfix (parse_expr fuel) fuel) (d + 1) (operand l ++ op_token op :: operand r ++ ts) (op_token op :: operand r ++ ts) l) as Rl.
  { apply post_reads; try done; [simpl; congruence|]. unfold room. rewrite !length_app. cbn [length]. rewrite length_app. lia. }
  assert (reads (parse_postfix (parse_expr fuel) fuel) (d + 1) (operand r ++ ts) ts r) as Rr.
  { apply post_reads; try done; [by apply follow_calm|]. unfold room. rewrite length_app. lia. }
  unfold parse_expr_inner, parse_arith, parse_term. destruct Hcls as [Ht|[[Ht1 Ht2]|[Ht1 [Ht2 Ht3]]]].
  - do 2 (apply reads_level; [|done|lia]). eapply reads_level_one; [exact Rl|exact Ht|exact Rr|done|lia].
  - apply reads_level; [|done|lia].
    eapply reads_level_one; [apply reads_level; [exact Rl|done|lia]|done|apply reads_level; [exact Rr|done|lia]|done|lia].
  - eapply reads_level_one; [..|exact Ht3| |done|lia].
    + do 2 (apply reads_level; [|done|lia]). exact Rl.
    + do 2 (apply reads_level; [|done|lia]). exact Rr.
Qed.

Lemma post_primary e : chain e = 0%nat → (∀ fuel d r, printable e = true → calm r → room fuel d (operand e ++ r) (operand_levels e) →
  reads (parse_primary (parse_expr fuel) fuel) d (operand e ++ r) r e) → post e.
Proof.
  intros Hc He fuel d r Hpr Hr Hroom p Hp Hd. destruct (He fuel d r Hpr Hr Hroom p Hp Hd) as (p'&E&Hp'&Hd').
  exists p'. split_and!; try done. unfold parse_postfix, mbind, M_bind. by rewrite E, Hc, Nat.sub_0_r.
Qed.

Lemma post_binary l op r : post l → post r → post (EBinary l op r).
Proof.
  intros Hl Hr. apply post_primary; [done|]. intros fuel d ts Hpr _ (H0&Hlv&Hd&Hf). unfold operand in *. cbn [is_binary paren app] in *.
  rewrite <- app_assoc in *. cbn [app] in *. unfold operand_levels in *. cbn [is_binary] in *.
  eapply reads_bind; [apply reads_consume|]. cbn beta iota.
  eapply reads_bind; [apply (whole_binary l op r Hl Hr); [done|done|]|].
  - cbn [length] in Hf. split_and!; [done|done|done|lia].
  - eapply reads_bind; [apply reads_expect|]. apply reads_ret.
Qed.

Lemma post_field b f : post b → post (EFieldAccess b f).
Proof.
  intros Hb fuel d r Hpr Hr (H0&Hlv&Hd&Hf) p Hp Hpd. cbn [printable] in Hpr.
  change (operand (EFieldAccess b f)) with (operand b ++ [Dot; Ident f]) in *. rewrite <- app_assoc in *. cbn [app] in *.
  change (operand_levels (EFieldAccess b f)) with (operand_levels b) in *.
  destruct (Hb fuel d (Dot :: Ident f :: r) Hpr I (conj H0 (conj Hlv (conj Hd Hf))) p Hp Hpd) as (p1&Hp1&Hd1&E).
  rewrite length_app in Hf. pose proof (chain_length b) as Hch. cbn [chain].
  destruct (fuel - chain b)%nat as [|k] eqn:Hk; [lia|]. replace (fuel - S (chain b))%nat with k by lia.
  destruct (reads_optional_yes d Dot (Ident f :: r) p1 Hp1 Hd1) as (p2&E2&Hp2&Hd2).
  destruct (reads_ident d ExpectedFieldAfterDot f r p2 Hp2 Hd2) as (p3&E3&Hp3&Hd3).
  exists p3. split_and!; try done. rewrite E. cbn [accesses]. unfold mbind, M_bind at 1. rewrite E2. cbn beta iota.
  unfold mbind, M_bind. by rewrite E3.
Qed.

Lemma room_sub fuel d ts l ts' l' : room fuel d ts l → (length ts' ≤ length ts)%nat → 0 ≤ l' ≤ l → room fuel d ts' l'.
Proof. unfold room. lia. Qed.

Definition starter (t : Token) : bool := match t with Int _ | Ident _ | Storage | ParenOpen => true | _ => false end.

Lemma print_head e : ∃ t l, print e = t :: l ∧ starter t = true.
Proof.
  induction e as [v|x|x|x k IHk|b f IHb|x fs|a op b IHa IHb|x args IH] using expr_induction; cbn [print]; eauto.
  - destruct (is_binary b); simpl; [by eexists _, _|]. destruct IHb as (t&l&->&?). by exists t, (l ++ [Dot; Ident f]).
  - destruct (is_binary a); simpl; [by eexists _, _|]. destruct IHa as (t&l&->&?). by eexists t, _.
  - destruct (path_of x) as [[]|]; [eauto|]. destruct args as [|? [|? [|? [|]]]]; try case_decide; eauto.
Qed.

Lemma maximum_le l m : Forall (λ x, x ≤ m) l → 0 ≤ m → maximum l ≤ m.
Proof. induction 1; simpl; lia. Qed.

Lemma maximum_elem x l : x ∈ l → x ≤ maximum l.
Proof. induction 1; simpl; lia. Qed.

(** A list of expressions, each followed by a comma. *)
Lemma reads_args fuel d args r : Forall whole args → forallb printable args = true →
  room fuel d (flat_map (λ a, print a ++ [Comma]) args ++ ParenClose :: r) (maximum (map (λ a, 1 + levels a) args)) →
  reads (many ParenClose (listed (parse_expr fuel)) fuel) d (flat_map (λ a, print a ++ [Comma]) args ++ ParenClose :: r) (ParenClose :: r) args.
Proof.
  intros Hw Hpr Hroom. pose proof Hroom as (H0&Hl&Hd&Hf). eapply reads_many; [|done|lia].
  rewrite forallb_forall in Hpr. rewrite Forall_forall in Hw |- *. intros a Ha. split.
  - destruct (print_head a) as (t&l&->&Ht). exists t, (l ++ [Comma]). split; [done|]. by destruct t.
  - intros r' Hr'. apply reads_listed. rewrite <- app_assoc in *. cbn [app] in *.
    apply Hw; [done|by apply Hpr, list_elem_of_In|done|]. apply (room_sub _ _ _ _ _ _ Hroom); [done|].
    split; [pose proof (levels_nonneg a); lia|]. apply maximum_elem. by apply (list_elem_of_fmap_2 (λ a, 1 + levels a)).
Qed.

Lemma reads_fields fuel d fs r : Forall (λ f : string * Expr, whole f.2) fs → forallb (λ '(_, v), printable v) fs = true →
  room fuel d (flat_map (λ '(f, v), Ident f :: Colon :: print v ++ [Comma]) fs ++ BraceClose :: r) (maximum (map (λ '(_, v), 1 + levels v) fs)) →
  reads (many BraceClose (listed (parse_field (parse_expr fuel))) fuel) d
    (flat_map (λ '(f, v), Ident f :: Colon :: print v ++ [Comma]) fs ++ BraceClose :: r) (BraceClose :: r) fs.
Proof.
  intros Hw Hpr Hroom. pose proof Hroom as (H0&Hl&Hd&Hf). eapply reads_many; [|done|lia].
  rewrite forallb_forall in Hpr. rewrite Forall_forall in Hw |- *. intros [f v] Ha. split; [by eexists _, _|].
  intros r' Hr'. apply reads_listed. cbn [app] in *. rewrite <- app_assoc in *. cbn [app] in *.
  eapply reads_bind; [apply reads_ident|]. eapply reads_bind; [apply reads_expect|]. eapply reads_bind; [|apply reads_ret].
  apply (Hw (f, v)); [done|by apply (Hpr (f, v)), list_elem_of_In|done|]. apply (room_sub _ _ _ _ _ _ Hroom); [cbn [length] in Hr'; simpl; lia|].
  split; [pose proof (levels_nonneg v); simpl; lia|]. apply maximum_elem. by apply (list_elem_of_fmap_2 (λ '(_, v), 1 + levels v) _ (f, v)).
Qed.

Lemma strip_prefix_app pre : ∀ s r, Str.strip_prefix pre s = Some r → s = pre +:+ r.
Proof.
  induction pre as [|a pre IH]; intros s r; simpl; [by intros [= ->]|]. destruct s as [|b s]; [done|].
  case_decide as Hab; [|done]. intros Hr. rewrite Hab. by rewrite (IH _ _ Hr).
Qed.

Lemma path_of_spec x p f : path_of x = Some (p, f) → x = p +:+ "::" +:+ f ∧ (p = "msg" ∨ p = "block").
Proof.
  unfold path_of. destruct (Str.strip_prefix "msg::" x) as [g|] eqn:E1.
  - intros [= <- <-]. apply strip_prefix_app in E1. split; [done|by left].
  - destruct (Str.strip_prefix "block::" x) as [g|] eqn:E2; [|done]. intros [= <- <-]. apply strip_prefix_app in E2. split; [done|by right].
Qed.

Lemma reads_path d x f r : reads (parse_path x) d (Colon :: Colon :: Ident f :: ParenOpen :: ParenClose :: r) r (ECall (x +:+ "::" +:+ f) []).
Proof.
  eapply reads_bind; [apply reads_expect|]. eapply reads_bind; [apply reads_expect|]. eapply reads_bind; [apply reads_ident|].
  eapply reads_bind; [apply reads_expect|]. eapply reads_bind; [apply reads_expect|]. apply reads_ret.
Qed.

(** A name that starts nothing special. *)
Lemma parse_ident_plain pe fuel x : reserved x = false →
  parse_ident pe fuel x =
    t ← peek;
    match t with
    | ParenOpen => _ ← consume; args ← many ParenClose (listed pe) fuel; _ ← expect ParenClose; mret (ECall x args)
    | BracketOpen => _ ← consume; key ← pe; _ ← expect BracketClose; mret (EMappingRead x key)
    | BraceOpen => _ ← consume; fields ← many BraceClose (listed (parse_field pe)) fuel; _ ← expect BraceClose; mret (EStructLiteral x fields)
    | _ => mret (EIdent x)
    end.
Proof.
  intros Hx. apply bool_decide_eq_false in Hx. unfold parse_ident.
  do 4 (rewrite decide_False by (intros ->; apply Hx, (bool_decide_eq_true_1 _); reflexivity)). done.
Qed.

Ltac step := eapply reads_bind; [first [apply reads_consume | apply reads_expect | apply reads_ident | apply reads_peek]|]; cbn [head from_option id].

(** Arguments in round brackets. *)
Lemma reads_call fuel d x args r : (∀ a, reads (mret (ECall x a)) d r r (ECall x a)) → Forall whole args → forallb printable args = true →
  room fuel d (flat_map (λ a, print a ++ [Comma]) args ++ ParenClose :: r) (maximum (map (λ a, 1 + levels a) args)) →
  reads (args ← many ParenClose (listed (parse_expr fuel)) fuel; _ ← expect ParenClose; mret (ECall x args)) d
    (flat_map (λ a, print a ++ [Comma]) args ++ ParenClose :: r) r (ECall x args).
Proof. intros Hret Hw Hpr Hroom. eapply reads_bind; [by apply reads_args|]. step. apply Hret. Qed.

Lemma post_call x args : Forall whole args → post (ECall x args).
Proof.
  intros Hw. apply post_primary; [done|]. intros fuel d r Hpr Hr Hroom. unfold operand, operand_levels in *. cbn [is_binary paren] in *.
  cbn [printable print levels] in *. destruct (path_of x) as [[p f]|] eqn:Ep.
  { apply path_of_spec in Ep as [-> Hp]. destruct args; [|done]. cbn [app] in *. step.
    destruct Hp as [-> | ->]; apply reads_path. }
  apply andb_true_iff in Hpr as [Hx Hpr].
  assert (x ≠ "verify_merkle_proof" → reads (parse_primary (parse_expr fuel) fuel) d
    ((Ident x :: ParenOpen :: flat_map (λ a, print a ++ [Comma]) args ++ [ParenClose]) ++ r) r (ECall x args)) as Hgen.
  { intros Hne. rewrite decide_False in Hx by done.
    assert (room fuel d (flat_map (λ a, print a ++ [Comma]) args ++ ParenClose :: r) (maximum (map (λ a, 1 + levels a) args))) as Hroom'.
    { apply (room_sub _ _ _ _ _ _ Hroom); [|destruct Hroom; lia].
      destruct args as [|? [|? [|? [|]]]]; try rewrite decide_False by done; simpl; rewrite ?length_app; simpl; rewrite ?length_app; simpl; lia. }
    cbn [app]. rewrite <- app_assoc. cbn [app]. step. destruct (decide (x = "poseidon")) as [->|Hpo].
    - unfold parse_ident. rewrite decide_True by done. step. apply reads_call; [intros; apply reads_ret|done..].
    - rewrite bool_decide_false in Hx by done. apply negb_true_iff in Hx. rewrite parse_ident_plain by done.
      step. step. apply reads_call; [intros; apply reads_ret|done..]. }
  destruct (decide (x = "verify_merkle_proof")) as [->|Hne].
  - destruct args as [|a [|b [|c [|]]]]; try done. clear Hgen. cbn [app forallb map maximum] in *.
    apply andb_true_iff in Hpr as [Ha Hpr]. apply andb_true_iff in Hpr as [Hb Hpr]. apply andb_true_iff in Hpr as [Hc _].
    apply Forall_cons in Hw as [Wa Hw]. apply Forall_cons in Hw as [Wb Hw]. apply Forall_cons in Hw as [Wc _].
    pose proof (levels_nonneg a). pose proof (levels_nonneg b). pose proof (levels_nonneg c).
    rewrite <- !app_assoc in *. cbn [app] in *. rewrite <- !app_assoc in *. cbn [app] in *. rewrite <- !app_assoc in *. cbn [app] in *.
    step. unfold parse_ident. do 3 (rewrite decide_False by done). rewrite decide_True by done. step.
    destruct Hroom as (R0&R1&R2&R3). cbn [length] in R3. rewrite !length_app in R3. cbn [length] in R3. rewrite !length_app in R3. cbn [length] in R3. rewrite length_app in R3. cbn [length] in R3.
    eapply reads_bind; [apply Wa; [done|done|]|step; eapply reads_bind; [apply Wb; [done|done|]|step; eapply reads_bind; [apply Wc; [done|done|]|step; apply reads_ret]]];
      unfold room; rewrite ?length_app; cbn [length]; rewrite ?length_app; cbn [length]; rewrite ?length_app; cbn [length]; lia.
  - destruct args as [|a [|b [|c [|]]]]; by apply Hgen.
Qed.

Lemma post_mapping x k : whole k → post (EMappingRead x k).
Proof.
  intros Hk. apply post_primary; [done|]. intros fuel d r Hpr _ (R0&R1&R2&R3). unfold operand, operand_levels in *.
  cbn [is_binary paren printable print levels app] in *. apply andb_true_iff in Hpr as [Hx%negb_true_iff Hpr].
  rewrite <- app_assoc in *. cbn [app length] in *. step. rewrite parse_ident_plain by done. step. step.
  eapply reads_bind; [apply Hk; [done|done|]|step; apply reads_ret]. split_and!; try done. lia.
Qed.

Lemma post_struct x fs : Forall (λ f : string * Expr, whole f.2) fs → post (EStructLiteral x fs).
Proof.
  intros Hw. apply post_primary; [done|]. intros fuel d r Hpr _ (R0&R1&R2&R3). unfold operand, operand_levels in *.
  cbn [is_binary paren printable print levels app] in *. apply andb_true_iff in Hpr as [Hx%negb_true_iff Hpr].
  rewrite <- app_assoc in *. cbn [app length] in *. step. rewrite parse_ident_plain by done. step. step.
  eapply reads_bind; [apply reads_fields; [done|done|]|step; apply reads_ret]. split_and!; try done. lia.
Qed.

Lemma post_whole e : post e ∧ whole e.
Proof.
  induction e as [v|x|x|x k [_ IHk]|b f [IHb _]|x fs IH|a op b [IHa _] [IHb _]|x args IH] using expr_induction;
    [..|split; [by apply post_binary|by apply whole_binary]|];
    (assert (∀ e, is_binary e = false → post e → post e ∧ whole e) as Hatom by (intros; split; [done|by apply whole_atom]);
     apply Hatom; [done|]); clear Hatom.
  - apply post_primary; [done|]. intros fuel d r _ _ _. step. apply reads_ret.
  - apply post_primary; [done|]. intros fuel d r Hpr Hr _. cbn [printable] in Hpr. apply negb_true_iff in Hpr.
    step. rewrite parse_ident_plain by done. step. destruct r as [|[] r]; try done; apply reads_ret.
  - apply post_primary; [done|]. intros fuel d r _ _ _. step. step. step. step. apply reads_ret.
  - by apply post_mapping.
  - by apply post_field.
  - apply post_struct. eapply Forall_impl; [exact IH|]. by intros f [].
  - apply post_call. eapply Forall_impl; [exact IH|]. by intros e [].
Qed.

Lemma reads_expr e fuel d r : printable e = true → follow r → room fuel d (print e ++ r) (1 + levels e) →
  reads (parse_expr fuel) d (print e ++ r) r e.
Proof. apply (post_whole e). Qed.

(** *** Statements *)
Definition no_else (r : list Token) : Prop := head r ≠ Some Else.

Definition whole_stmt (s : Stmt) : Prop := ∀ fuel d r, printable_stmt s = true → no_else r →
  room fuel d (print_stmt s ++ r) (stmt_levels s) → reads (parse_stmt fuel) d (print_stmt s ++ r) r s.

Ltac norm := repeat (progress (unfold block; cbn [app]; rewrite <- ?app_assoc)).
Ltac norm_in H := repeat (progress (unfold block in H; cbn [app] in H; rewrite <- ?app_assoc in H)).
Ltac lens H := unfold room in *; destruct H as (?&?&?&H);
  repeat (progress (rewrite ?length_app in H; cbn [length] in H)); try split_and!; try done;
  repeat (progress (rewrite ?length_app; cbn [length])); try lia.

Lemma stmt_head s : ∃ t l, print_stmt s = t :: l ∧ t ≠ BraceClose ∧ t ≠ Else.
Proof. destruct s; simpl; eexists _, _; (split; [reflexivity|done]). Qed.

Lemma maximum_nonneg l : 0 ≤ maximum l.
Proof. induction l; simpl; lia. Qed.

(** Counts are not negative. *)
Ltac counts :=
  repeat match goal with
  | |- context [levels ?e] => lazymatch goal with _ : 0 ≤ levels e |- _ => fail | _ => pose proof (levels_nonneg e) end
  | |- context [maximum ?l] => lazymatch goal with _ : 0 ≤ maximum l |- _ => fail | _ => pose proof (maximum_nonneg l) end
  end.

Lemma stmt_levels_pos s : 1 ≤ stmt_levels s.
Proof. destruct s as [| | | | |? ? []| | |[]| | |]; cbn [stmt_levels]; counts; lia. Qed.

Lemma reads_block fuel d ss r : Forall whole_stmt ss → forallb printable_stmt ss = true →
  room fuel d (block (flat_map print_stmt ss) ++ r) (maximum (map stmt_levels ss)) →
  reads (parse_block (parse_stmt fuel) fuel) d (block (flat_map print_stmt ss) ++ r) r ss.
Proof.
  intros Hw Hpr Hroom. norm. norm_in Hroom. step. eapply reads_bind; [|step; apply reads_ret].
  pose proof Hroom as (R0&R1&R2&R3). cbn [length] in R3. eapply (reads_many_after no_else); [|done|done|lia].
  rewrite forallb_forall in Hpr. rewrite Forall_forall in Hw |- *. intros s Hs. destruct (stmt_head s) as (t&l&Ht&Hb&He).
  split; [by exists t, l|]. split; [intros r'; rewrite Ht; unfold no_else; simpl; congruence|].
  intros r' Hr' Hlen. apply Hw; [done|by apply Hpr, list_elem_of_In|done|]. apply (room_sub _ _ _ _ _ _ Hroom); [simpl; lia|].
  split; [pose proof (stmt_levels_pos s); lia|]. apply maximum_elem. by apply (list_elem_of_fmap_2 stmt_levels).
Qed.

(** Opening a statement. *)
Lemma reads_stmt fuel d ts r s : (0 < fuel)%nat → 0 ≤ d < MAX_NESTING_DEPTH →
  reads (parse_stmt_inner (parse_stmt (pred fuel)) (parse_expr (pred fuel)) (pred fuel)) (d + 1) ts r s → reads (parse_stmt fuel) d ts r s.
Proof. intros Hf Hd H. destruct fuel as [|fuel]; [lia|]. by apply reads_nested. Qed.

Lemma reads_condition fuel d e r : printable e = true → room fuel d (ParenOpen :: print e ++ ParenClose :: r) (1 + levels e) →
  reads (parse_condition (parse_expr fuel)) d (ParenOpen :: print e ++ ParenClose :: r) r e.
Proof.
  intros He Hroom. step. eapply reads_bind; [apply reads_expr; [done|done|]|step; apply reads_ret].
  lens Hroom.
Qed.

Ltac open_stmt s Hroom :=
  let fuel := fresh "fuel" in let d := fresh "d" in let r := fresh "r" in
  intros fuel d r Hpr Hr Hroom; pose proof (stmt_levels_pos s) as Hpos;
  apply reads_stmt; [lens Hroom|lens Hroom|];
  assert (room (pred fuel) (d + 1) (print_stmt s ++ r) (stmt_levels s - 1)) as Hroom'
    by (lens Hroom);
  clear Hroom; rename Hroom' into Hroom; revert Hroom; generalize (pred fuel), (d + 1); clear fuel d; intros fuel d Hroom;
  cbn [print_stmt printable_stmt stmt_levels] in *; norm; norm_in Hroom; step.

Ltac expr Hroom := eapply reads_bind; [apply reads_expr; [done|done|lens Hroom]|].

Lemma whole_let x e : whole_stmt (SLet x e).
Proof. open_stmt (SLet x e) Hroom. unfold parse_let. step. step. step. expr Hroom. step. apply reads_ret. Qed.

Lemma whole_constrain e : whole_stmt (SConstrain e).
Proof. open_stmt (SConstrain e) Hroom. unfold parse_constrain. step. step. expr Hroom. step. step. apply reads_ret. Qed.

Lemma whole_write x e : whole_stmt (SStorageWrite x e).
Proof. open_stmt (SStorageWrite x e) Hroom. unfold parse_storage_write. do 5 step. expr Hroom. step. apply reads_ret. Qed.

Lemma whole_assign x e : whole_stmt (SAssign x e).
Proof.
  open_stmt (SAssign x e) Hroom. apply andb_true_iff in Hpr as [Hx%bool_decide_eq_true Hpr]. rewrite decide_False by done.
  unfold parse_assign. step. eapply reads_bind; [by apply reads_optional_no|]. step. expr Hroom. step. apply reads_ret.
Qed.

Lemma whole_mapping_write x k e : whole_stmt (SMappingWrite x k e).
Proof.
  open_stmt (SMappingWrite x k e) Hroom. apply andb_true_iff in Hpr as [Hpr He]. apply andb_true_iff in Hpr as [Hx%bool_decide_eq_true Hk].
  pose proof (levels_nonneg k). pose proof (levels_nonneg e).
  rewrite decide_False by done. unfold parse_assign. step. eapply reads_bind; [apply reads_optional_yes|]. expr Hroom.
  step. step. expr Hroom. step. apply reads_ret.
Qed.

Lemma whole_return e : whole_stmt (SReturn e).
Proof.
  open_stmt (SReturn e) Hroom. unfold parse_return. step. eapply reads_bind; [apply reads_next|]. destruct e as [e|]; cbn [app] in *.
  - destruct (print_head e) as (t&l&Ht&Hst). rewrite bool_decide_false by (rewrite Ht; simpl; by intros ->).
    eapply reads_bind; [expr Hroom; apply reads_ret|]. step. apply reads_ret.
  - eapply (reads_bind _ _ _ _ _ _ None); [apply reads_ret|]. step. apply reads_ret.
Qed.

Lemma whole_emit x args : whole_stmt (SEmit x args).
Proof.
  open_stmt (SEmit x args) Hroom. rewrite decide_True by done. unfold parse_emit. step. step. step.
  eapply reads_bind; [apply reads_args; [|done|]|].
  - apply Forall_forall. intros e _. apply (post_whole e).
  - pose proof (maximum_nonneg (map (λ a, 1 + levels a) args)). lens Hroom.
  - step. step. apply reads_ret.
Qed.

Lemma whole_while c b : Forall whole_stmt b → whole_stmt (SWhile c b).
Proof.
  intros Hb. open_stmt (SWhile c b) Hroom. apply andb_true_iff in Hpr as [Hc Hpr]. unfold parse_while. step.
  pose proof (levels_nonneg c). pose proof (maximum_nonneg (map stmt_levels b)).
  eapply reads_bind; [apply reads_condition; [done|lens Hroom]|].
  pose proof (reads_block fuel d b r Hb Hpr) as Hblk. norm_in Hblk.
  eapply reads_bind; [apply Hblk; lens Hroom|]. apply reads_ret.
Qed.

Lemma whole_if c t e : Forall whole_stmt t → Forall whole_stmt (default [] e) → whole_stmt (SIf c t e).
Proof.
  intros Ht He. open_stmt (SIf c t e) Hroom. apply andb_true_iff in Hpr as [Hpr Hpe]. apply andb_true_iff in Hpr as [Hc Hpt]. unfold parse_if. step.
  pose proof (levels_nonneg c). pose proof (maximum_nonneg (map stmt_levels t)).
  destruct e as [e|]; cbn [default id] in He; [pose proof (maximum_nonneg (map stmt_levels e))|]; norm; norm_in Hroom;
    (eapply reads_bind; [apply reads_condition; [done|lens Hroom]|]).
  - pose proof (reads_block fuel d t (Else :: block (flat_map print_stmt e) ++ r) Ht Hpt) as Hblk. norm_in Hblk.
    eapply reads_bind; [apply Hblk; lens Hroom|]. eapply reads_bind; [apply reads_optional_yes|].
    pose proof (reads_block fuel d e r He Hpe) as Hble. norm_in Hble.
    eapply reads_bind; [apply Hble; lens Hroom|]. apply reads_ret.
  - pose proof (reads_block fuel d t r Ht Hpt) as Hblk. norm_in Hblk.
    eapply reads_bind; [apply Hblk; lens Hroom|]. eapply reads_bind; [apply reads_optional_no|apply reads_ret].
    destruct r; simpl; [done|]. intros ->. by apply Hr.
Qed.

(** An expression in brackets of its own. *)
Lemma reads_bracketed fuel d e r : printable e = true → head r ≠ Some Dot →
  comparison (default Error (head r)) = None → additive (default Error (head r)) = None → multiplicative (default Error (head r)) = None →
  room fuel d (ParenOpen :: print e ++ ParenClose :: r) (2 + levels e) →
  reads (parse_expr fuel) d (ParenOpen :: print e ++ ParenClose :: r) r e.
Proof.
  intros Hpr Hdot H1 H2 H3 Hroom. pose proof (levels_nonneg e). destruct fuel as [|fuel]; [lens Hroom|].
  apply reads_nested; [lens Hroom|]. unfold parse_expr_inner, parse_arith, parse_term.
  do 3 (apply reads_level; [|done|lens Hroom]). unfold parse_postfix.
  eapply reads_bind.
  - unfold parse_primary. step. eapply reads_bind; [apply reads_expr; [done|done|lens Hroom]|]. step. apply reads_ret.
  - destruct fuel as [|fuel]; [lens Hroom|]. cbn [accesses]. eapply reads_bind; [apply reads_optional_no|apply reads_ret].
    by destruct r as [|[] r].
Qed.

Lemma whole_expr e : whole_stmt (SExpr e).
Proof.
  open_stmt (SExpr e) Hroom. eapply reads_bind; [by apply reads_bracketed; [..|lens Hroom]|]. step. apply reads_ret.
Qed.

Lemma whole_for x a z b : Forall whole_stmt b → whole_stmt (SFor x a z b).
Proof.
  intros Hb. open_stmt (SFor x a z b) Hroom. apply andb_true_iff in Hpr as [Hpr Hpb]. apply andb_true_iff in Hpr as [Ha Hz].
  pose proof (levels_nonneg a). pose proof (levels_nonneg z). pose proof (maximum_nonneg (map stmt_levels b)).
  unfold parse_for. step. step. step. expr Hroom. step.
  eapply reads_bind; [by apply reads_bracketed; [..|lens Hroom]|].
  pose proof (reads_block fuel d b r Hb Hpb) as Hblk. norm_in Hblk.
  eapply reads_bind; [apply Hblk; lens Hroom|]. apply reads_ret.
Qed.

Definition print_arm (a : MatchPattern * list Stmt) : list Token :=
  match a.1 with IntLit v => Int v | Wildcard => Ident "_" end :: FatArrow :: block (flat_map print_stmt a.2) ++ [Comma].

Lemma reads_arm fuel d p b r : Forall whole_stmt b → forallb printable_stmt b = true →
  room fuel d (print_arm (p, b) ++ r) (maximum (map stmt_levels b)) →
  reads (parse_match_arm (parse_stmt fuel) fuel) d (print_arm (p, b) ++ r) (Comma :: r) (p, b).
Proof.
  intros Hb Hpr Hroom. unfold print_arm in *. cbn [fst snd] in *. norm. norm_in Hroom.
  pose proof (reads_block fuel d b (Comma :: r) Hb Hpr) as Hblk. norm_in Hblk.
  unfold parse_match_arm. eapply reads_bind.
  { unfold parse_pattern. destruct p; step; [|rewrite decide_True by done]; step; apply reads_ret. }
  step. eapply reads_bind; [apply reads_next|]. eapply reads_bind; [apply Hblk; lens Hroom|]. apply reads_ret.
Qed.

Lemma reads_arms fuel d n arms r : Forall (λ a, Forall whole_stmt a.2) arms → forallb (λ '(_, b), forallb printable_stmt b) arms = true →
  room fuel d (flat_map print_arm arms ++ BraceClose :: r) (maximum (map (λ '(_, b), maximum (map stmt_levels b)) arms)) →
  (length arms < n)%nat →
  reads (parse_arms (parse_stmt fuel) fuel n) d (flat_map print_arm arms ++ BraceClose :: r) (BraceClose :: r) arms.
Proof.
  revert n. induction arms as [|[p b] arms IH]; intros n Hw Hpr Hroom Hn; (destruct n as [|n]; [simpl in Hn; lia|]).
  - cbn [parse_arms flat_map app]. step. apply reads_ret.
  - apply Forall_cons in Hw as [Hb Hw]. cbn [forallb] in Hpr. apply andb_true_iff in Hpr as [Hpb Hpr]. cbn [map maximum] in Hroom.
    pose proof (maximum_nonneg (map stmt_levels b)). pose proof (maximum_nonneg (map (λ '(_, b), maximum (map stmt_levels b)) arms)).
    cbn [flat_map] in *. rewrite <- app_assoc in *. cbn [parse_arms].
    assert (reads (parse_match_arm (parse_stmt fuel) fuel) d (print_arm (p, b) ++ flat_map print_arm arms ++ BraceClose :: r)
      (Comma :: flat_map print_arm arms ++ BraceClose :: r) (p, b)) as Harm by (apply reads_arm; [done|done|lens Hroom]).
    eapply reads_bind; [apply reads_peek|].
    destruct p; cbn [print_arm fst app head from_option id]; (eapply reads_bind; [exact Harm|]); step; step;
      (eapply reads_bind; [apply IH; [done|done|lens Hroom|simpl in Hn; lia]|]); apply reads_ret.
Qed.

Lemma whole_match e arms : Forall (λ a, Forall whole_stmt a.2) arms → whole_stmt (SMatch e arms).
Proof.
  intros Ha. open_stmt (SMatch e arms) Hroom. apply andb_true_iff in Hpr as [He Hpr]. unfold parse_match. step.
  match type of Hroom with context [flat_map ?f arms] =>
    assert (flat_map f arms = flat_map print_arm arms) as Heq by (apply flat_map_ext; by intros [p b]) end.
  rewrite Heq in Hroom |- *. pose proof (levels_nonneg e).
  pose proof (maximum_nonneg (map (λ '(_, b), maximum (map stmt_levels b)) arms)).
  assert (length arms ≤ length (flat_map print_arm arms))%nat as Hlen.
  { clear. induction arms as [|a arms IH]; simpl; [lia|]. rewrite !length_app. simpl. lia. }
  eapply reads_bind; [apply reads_condition; [done|lens Hroom]|]. step.
  eapply reads_bind; [apply reads_arms; [done|done|lens Hroom|lens Hroom]|]. step. step. apply reads_ret.
Qed.

Lemma whole_stmt_all s : whole_stmt s.
Proof.
  induction s using stmt_induction.
  - apply whole_let.
  - apply whole_constrain.
  - apply whole_assign.
  - apply whole_write.
  - apply whole_mapping_write.
  - by apply whole_if.
  - by apply whole_while.
  - by apply whole_for.
  - apply whole_return.
  - apply whole_emit.
  - by apply whole_match.
  - apply whole_expr.
Qed.

(** *** Declarations *)
Lemma append_assoc (a b c : string) : (a +:+ b) +:+ c = a +:+ (b +:+ c).
Proof. induction a as [|x a IH]; [done|exact (f_equal (String x) IH)]. Qed.

Lemma strip_suffix_app c s : ∀ r, Str.strip_suffix c s = Some r → s = r +:+ String c EmptyString.
Proof.
  induction s as [|a s IH]; intros r; [done|]. destruct s as [|b s].
  - simpl. case_decide as Ha; [|done]. intros [= <-]. by rewrite Ha.
  - change (Str.strip_suffix c (String a (String b s))) with (String a <$> Str.strip_suffix c (String b s)).
    destruct (Str.strip_suffix c (String b s)) as [r'|]; [|done]. intros [= <-]. by rewrite (IH r').
Qed.

Lemma split_once_app c s : ∀ l r, Str.split_once c s = Some (l, r) → s = l +:+ String c r.
Proof.
  induction s as [|a s IH]; intros l r; simpl; [done|]. case_decide as Ha.
  - intros [= <- <-]. by rewrite Ha.
  - destruct (Str.split_once c s) as [[l' r']|]; [|done]. intros [= <- <-]. by rewrite (IH l' r').
Qed.

Lemma map_type_spec ty k v : map_type ty = Some (k, v) → ty = "Map<" +:+ k +:+ "," +:+ v +:+ ">".
Proof.
  unfold map_type. destruct (Str.strip_prefix "Map<" ty) as [i|] eqn:E1; [|done]. cbn [mbind option_bind].
  destruct (Str.strip_suffix _ i) as [j|] eqn:E2; [|done]. cbn [mbind option_bind]. intros E3.
  apply strip_prefix_app in E1. apply strip_suffix_app in E2. apply split_once_app in E3. subst.
  f_equal. by rewrite append_assoc.
Qed.

Lemma reads_storage_type d ty r : ty ≠ "Map" → reads parse_storage_type d (print_type ty ++ r) r ty.
Proof.
  intros Hne. unfold print_type, parse_storage_type. destruct (map_type ty) as [[k v]|] eqn:E; cbn [app].
  - step. rewrite decide_True by done. do 5 step. rewrite (map_type_spec _ _ _ E). apply reads_ret.
  - step. rewrite decide_False by done. apply reads_ret.
Qed.

Lemma reads_declared d m x ty ts r : reads m d ts (Comma :: r) ty →
  reads (parse_declared m) d (Ident x :: Colon :: ts) r (mkStorageField x ty).
Proof. intros Hm. step. step. eapply reads_bind; [done|]. step. apply reads_ret. Qed.

Lemma reads_storage fuel d fs r : forallb (λ f, bool_decide (f_ty f ≠ "Map")) fs = true →
  (length (block (flat_map print_storage fs) ++ r) < fuel)%nat →
  reads (parse_storage fuel) d (Storage :: block (flat_map print_storage fs) ++ r) r fs.
Proof.
  intros Hfs Hf. norm. norm_in Hf. unfold parse_storage. step. step. cbn [length] in Hf.
  eapply reads_bind; [|step; apply reads_ret]. eapply reads_many; [|done|lia].
  rewrite forallb_forall in Hfs. apply Forall_forall. intros [x ty] Hin. apply list_elem_of_In, Hfs, bool_decide_eq_true in Hin.
  split; [by eexists _, _|]. intros r' _. unfold print_storage. cbn [f_name f_ty app]. rewrite <- app_assoc. cbn [app].
  apply reads_declared. by apply reads_storage_type.
Qed.

Lemma reads_struct fuel d s r : (length (print_struct s ++ r) < fuel)%nat →
  reads (parse_struct fuel) d (print_struct s ++ r) r s.
Proof.
  intros Hf. destruct s as [x fs]. unfold print_struct in *. cbn [st_name fields] in *. norm. norm_in Hf.
  unfold parse_struct. step. step. step. cbn [length] in Hf. eapply reads_bind; [|step; apply reads_ret].
  eapply reads_many; [|done|lia]. apply Forall_forall. intros [y ty] _. split; [by eexists _, _|].
  intros r' _. apply reads_declared. cbn [f_ty]. step. apply reads_ret.
Qed.

Lemma reads_param d p r : reads (listed parse_param) d (print_param p ++ r) r p.
Proof.
  destruct p as [x ty]. apply reads_listed. unfold parse_param. cbn [print_param p_name p_ty app]. do 3 step. apply reads_ret.
Qed.

Lemma reads_function fuel f r : printable_function f = true →
  Z.of_nat (length (print_function f ++ r)) + MAX_NESTING_DEPTH < Z.of_nat fuel →
  reads (parse_function fuel) 0 (print_function f ++ r) r f.
Proof.
  intros Hpr Hf. destruct f as [x ps ret b pub]. unfold printable_function, print_function in *.
  cbn [fn_name params return_type body is_pub] in *. norm. norm_in Hf.
  assert (Forall whole_stmt b) as Hw by (apply Forall_forall; intros s _; apply whole_stmt_all).
  assert (forallb printable_stmt b = true ∧ maximum (map stmt_levels b) ≤ MAX_NESTING_DEPTH) as [Hpb Hlb].
  { clear -Hpr. induction b as [|s b IH]; simpl in *; [by split|].
    apply andb_true_iff in Hpr as [Hs Hpr]. apply andb_true_iff in Hs as [Hs Hl%Z.leb_le].
    destruct (IH Hpr) as [-> ?]. rewrite Hs. split; [done|lia]. }
  pose proof (maximum_nonneg (map stmt_levels b)).
  pose proof (reads_block fuel 0 b r Hw Hpb) as Hblk. norm_in Hblk.
  assert (reads (optional Pub) 0 ((if pub then [Pub] else []) ++ Fn :: Ident x :: ParenOpen :: flat_map print_param ps ++ ParenClose ::
    (match ret with Some ty => [Arrow; Ident ty] | None => [] end) ++ BraceOpen :: flat_map print_stmt b ++ BraceClose :: r)
    (Fn :: Ident x :: ParenOpen :: flat_map print_param ps ++ ParenClose ::
    (match ret with Some ty => [Arrow; Ident ty] | None => [] end) ++ BraceOpen :: flat_map print_stmt b ++ BraceClose :: r) pub) as Hpub.
  { destruct pub; [apply reads_optional_yes|by apply reads_optional_no]. }
  repeat (progress (rewrite ?length_app in Hf; cbn [length] in Hf)).
  unfold parse_function. eapply reads_bind; [exact Hpub|]. step. step. step.
  eapply reads_bind; [eapply reads_many; [|done|]|].
  - apply Forall_forall. intros p _. split; [by eexists _, _|]. intros r' _. apply reads_param.
  - repeat (progress (rewrite ?length_app; cbn [length])). unfold MAX_NESTING_DEPTH in *. lia.
  - step. assert (room fuel 0 (BraceOpen :: flat_map print_stmt b ++ BraceClose :: r) (maximum (map stmt_levels b))) as Hroom.
    { unfold room. repeat (progress (rewrite ?length_app; cbn [length])). lia. }
    destruct ret as [ty|]; cbn [app].
    + eapply reads_bind; [apply reads_optional_yes|]. eapply reads_bind; [step; apply reads_ret|].
      eapply reads_bind; [by apply Hblk|]. apply reads_ret.
    + eapply reads_bind; [by apply reads_optional_no|]. eapply reads_bind; [apply reads_ret|].
      eapply reads_bind; [by apply Hblk|]. apply reads_ret.
Qed.

Lemma reads_functions fuel n fs a b c r : forallb printable_function fs = true → (length fs < n)%nat →
  Z.of_nat (length (flat_map print_function fs ++ BraceClose :: r)) + MAX_NESTING_DEPTH < Z.of_nat fuel →
  reads (parse_items fuel n a b c) 0 (flat_map print_function fs ++ BraceClose :: r) (BraceClose :: r) (a, b, c ++ fs).
Proof.
  revert n c. induction fs as [|f fs IH]; intros n c Hpr Hn Hf; (destruct n as [|n]; [simpl in Hn; lia|]); cbn [parse_items flat_map app].
  - step. rewrite app_nil_r. apply reads_ret.
  - cbn [forallb] in Hpr. apply andb_true_iff in Hpr as [Hp Hpr]. cbn [flat_map] in Hf. rewrite <- app_assoc in *.
    pose proof (reads_function fuel f _ Hp Hf) as Hfun. eapply reads_bind; [apply reads_peek|].
    assert (∃ t l, print_function f = t :: l ∧ (t = Pub ∨ t = Fn)) as (t&l&Ht&Hcase).
    { unfold print_function. destruct (is_pub f); simpl; eauto. }
    rewrite Ht in *. cbn [app head from_option id]. replace (c ++ f :: fs) with ((c ++ [f]) ++ fs) by (by rewrite <- app_assoc).
    rewrite length_app in Hf.
    destruct Hcase as [-> | ->]; (eapply reads_bind; [exact Hfun|]); (apply IH; [done|simpl in Hn; lia|lia]).
Qed.

Lemma reads_items fuel n ss fs a b r : forallb printable_function fs = true → (length ss + length fs < n)%nat →
  Z.of_nat (length (flat_map print_struct ss ++ flat_map print_function fs ++ BraceClose :: r)) + MAX_NESTING_DEPTH < Z.of_nat fuel →
  reads (parse_items fuel n a b []) 0 (flat_map print_struct ss ++ flat_map print_function fs ++ BraceClose :: r) (BraceClose :: r) (a, b ++ ss, fs).
Proof.
  intros Hpr. revert n b. induction ss as [|s ss IH]; intros n b Hn Hf; cbn [flat_map app].
  - rewrite app_nil_r. by apply (reads_functions fuel n fs a b []).
  - destruct n as [|n]; [simpl in Hn; lia|]. cbn [parse_items flat_map] in *. rewrite <- app_assoc in *.
    eapply reads_bind; [apply reads_peek|]. cbn [print_struct app head from_option id].
    eapply reads_bind; [apply (reads_struct fuel 0 s); unfold MAX_NESTING_DEPTH in *; lia|].
    replace (b ++ s :: ss) with ((b ++ [s]) ++ ss) by (by rewrite <- app_assoc). rewrite length_app in Hf.
    apply IH; [simpl in Hn; lia|lia].
Qed.

Lemma reads_contract fuel c : printable_contract c = true →
  Z.of_nat (length (print_contract c)) + MAX_NESTING_DEPTH < Z.of_nat fuel →
  reads (parse_contract fuel) 0 (print_contract c) [] c.
Proof.
  destruct c as [x st ss fs]. unfold printable_contract, print_contract. cbn [c_name storage structs functions].
  intros [Hst Hfs]%andb_true_iff Hf. unfold parse_contract. step. step. step. cbn [length] in Hf.
  set (items := flat_map print_struct ss ++ _ : list Token) in *.
  assert (reads (parse_items fuel fuel [] [] []) 0 (Storage :: block (flat_map print_storage st) ++ items) [BraceClose] (st, ss, fs)) as Hit.
  { destruct fuel as [|fuel]; [unfold MAX_NESTING_DEPTH in *; lia|]. cbn [parse_items]. step. rewrite length_app in Hf.
    eapply reads_bind; [apply reads_storage; [done|rewrite length_app; unfold MAX_NESTING_DEPTH in *; lia]|].
    apply (reads_items (S fuel) fuel ss fs st [] []); [done| |fold items; lia].
    assert (length ss ≤ length (flat_map print_struct ss) ∧ length fs ≤ length (flat_map print_function fs))%nat as [Hl1 Hl2].
    { assert (∀ f, 1 ≤ length (print_function f))%nat as H1 by (intros f; unfold print_function; rewrite length_app; simpl; lia).
      clear -H1. split; [induction ss as [|s ss IH]|induction fs as [|f fs IH]]; simpl; rewrite ?length_app; simpl; try lia.
      specialize (H1 f). lia. }
    unfold items in Hf. rewrite !length_app in Hf. unfold MAX_NESTING_DEPTH in *. lia. }
  eapply reads_bind; [exact Hit|]. step. apply reads_ret.
Qed.

End PrinterLemmas.
