(* ===== verification/Sema.v ===== *)
(** * Semantic analysis

    [budzero/bud-compiler/src/sema.rs] and [compile] of [lib.rs].  The checker
    walks the contract and pushes errors; an expression that cannot be typed
    is [TyUnknown], which is compatible with everything.  Here every function
    returns the errors it pushes, in order; [analyze] reports the first.

    The texts of errors are constructors.  Where the source walks the keys of
    a [HashMap] (missing fields of a literal) the order of the errors is that
    of the model's map. *)
From stdpp Require Import base tactics numbers list gmap strings.
From Stdlib Require Import ZArith Lia Ascii.
From S2P Require Import Prelude Isa Compiler Parser.
Import Ast.
Open Scope Z_scope.

Module Sema.

Inductive Ty :=
  | TyU64 | TyBool | TyField | TyAddress | TyHash32
  | TyStruct (name : string)
  | TyMap (key value : Ty)
  | TyVoid | TyUnknown.

#[export] Instance Ty_eq_dec : EqDecision Ty.
Proof. solve_decision. Defined.

#[export] Instance BinOp_eq_dec : EqDecision BinOp.
Proof. solve_decision. Defined.

Definition is_opaque_bytes32 (ty : Ty) : bool := match ty with TyAddress | TyHash32 => true | _ => false end.

(** Where a type is written. *)
Inductive Place :=
  | StorageFieldOf (name : string)
  | FieldOf (struct_name name : string)
  | ParamOf (name function : string)
  | ReturnOf (function : string)
  | KeyOf (p : Place)
  | ValueOf (p : Place).

Inductive TypeError :=
  | NotAMapping (s : string)
  | NestedMapping (s : string)
  | ReservedName (s : string).

Inductive SemMsg :=
  | BadType (p : option Place) (e : TypeError)
  | UndefinedStructType (name : string) (p : Place)
  | NotMapping (name : string) (ty : Ty)
  | UndefinedMapping (name : string)
  | KeyMismatch (name : string) (expected got : Ty)
  | ConditionType (ctx : string) (ty : Ty)
  | AssignMismatch (expected got : Ty)
  | UndefinedVariable (name : string)
  | MappingValue (name : string) (expected got : Ty)
  | ReturnMismatch (expected got : Ty)
  | MatchScrutinee (ty : Ty)
  | UndefinedIdentifier (name : string)
  | NoField (struct_name name : string)
  | FieldOnNonStruct
  | FieldMismatch (name : string)
  | UnknownField (name : string)
  | MissingField (struct_name name : string)
  | DuplicateField (struct_name name : string)
  | UndefinedStruct (name : string)
  | ArgCount (function : string) (expected got : nat)
  | ArgMismatch (i : nat) (function : string)
  | UndefinedFunction (name : string)
  | BinaryMismatch
  | NotNumeric (op : BinOp) (ty : Ty)
  | DivU64
  | OpaqueOperand (op : BinOp) (ty : Ty).

(** ** Type names *)
Definition RESERVED_TYPE_NAMES : list string :=
  ["u8"; "u16"; "u32"; "u128"; "i8"; "i16"; "i32"; "i64"; "usize"; "isize"; "String"; "str"; "Vec"].

Definition is_map (ty : Ty) : bool := match ty with TyMap _ _ => true | _ => false end.

Definition primitive (s : string) : option Ty :=
  if decide (s = "u64") then Some TyU64
  else if decide (s = "bool") then Some TyBool
  else if decide (s = "field") then Some TyField
  else if decide (s = "Address") then Some TyAddress
  else if decide (s = "Hash32") then Some TyHash32
  else None.

(** The part of [Map<...>] between the angle brackets. *)
Definition map_inner (s : string) : option string :=
  r ← Str.strip_prefix "Map<" s; Str.strip_suffix ">"%char r.

(** [Type::from_str]; the key and the value are shorter than the name. *)
Fixpoint from_str_fuel (fuel : nat) (s : string) : result TypeError Ty :=
  match primitive s with
  | Some ty => Ok ty
  | None =>
      match map_inner s with
      | Some inner =>
          match Str.split_once ","%char inner, fuel with
          | None, _ => Err (NotAMapping s)
          | Some (k, v), S fuel =>
              let? key := from_str_fuel fuel (Str.trim k) in
              let? value := from_str_fuel fuel (Str.trim v) in
              if is_map key || is_map value then Err (NestedMapping s) else Ok (TyMap key value)
          | Some _, O => Err (NotAMapping s)
          end
      | None => if bool_decide (s ∈ RESERVED_TYPE_NAMES) then Err (ReservedName s) else Ok (TyStruct s)
      end
  end.

Definition from_str (s : string) : result TypeError Ty := from_str_fuel (String.length s) s.

(** [Type::from_str(..).unwrap_or(Type::Unknown)] *)
Definition type_of (s : string) : Ty := match from_str s with Ok ty => ty | Err _ => TyUnknown end.

(** ** The analyzer *)
Record SemanticAnalyzer := mkAnalyzer {
  structs : gmap string (gmap string Ty);
  functions : gmap string (list Ty * Ty);
  storage : gmap string Ty;
  current_func_ret : Ty;
}.

Definition new : SemanticAnalyzer := mkAnalyzer ∅ ∅ ∅ TyVoid.

Definition set_structs (a : SemanticAnalyzer) v := mkAnalyzer v (functions a) (storage a) (current_func_ret a).
Definition set_functions (a : SemanticAnalyzer) v := mkAnalyzer (structs a) v (storage a) (current_func_ret a).
Definition set_storage (a : SemanticAnalyzer) v := mkAnalyzer (structs a) (functions a) v (current_func_ret a).
Definition set_ret (a : SemanticAnalyzer) v := mkAnalyzer (structs a) (functions a) (storage a) v.

Notation Env := (gmap string Ty).

(** [x != Unknown && y != Unknown && x != y] *)
Definition differ (x y : Ty) : bool :=
  negb (bool_decide (x = y)) && negb (bool_decide (x = TyUnknown)) && negb (bool_decide (y = TyUnknown)).

(** Push [e] if [b]. *)
Definition err_if (b : bool) (e : SemMsg) : list SemMsg := if b then [e] else [].

Section analyzer.
Context (a : SemanticAnalyzer).

Fixpoint check_struct_type (ty : Ty) (p : Place) : list SemMsg :=
  match ty with
  | TyStruct name => err_if (bool_decide (structs a !! name = None)) (UndefinedStructType name p)
  | TyMap key value => check_struct_type key (KeyOf p) ++ check_struct_type value (ValueOf p)
  | _ => []
  end.

Definition mapping_types (name : string) : Ty * Ty * list SemMsg :=
  match storage a !! name with
  | Some (TyMap key value) => (key, value, [])
  | Some other => (TyUnknown, TyUnknown, [NotMapping name other])
  | None => (TyUnknown, TyUnknown, [UndefinedMapping name])
  end.

(** [mapping_access_type] after its key. *)
Definition mapping_access_type (name : string) (key : Ty * list SemMsg) : Ty * list SemMsg :=
  let '(key_ty, errs) := key in
  let '(expected_key, value, errs') := mapping_types name in
  (value, errs ++ errs' ++ err_if (differ expected_key key_ty) (KeyMismatch name expected_key key_ty)).

Definition is_struct_or_void (ty : Ty) : bool := match ty with TyStruct _ | TyVoid => true | _ => false end.

Definition check_condition_type (ty : Ty) (ctx : string) : list SemMsg :=
  err_if (is_struct_or_void ty) (ConditionType ctx ty).

(** Operators that compute with their operands. *)
Definition computes (op : BinOp) : bool :=
  match op with BAdd | BSub | BMul | BDiv | BLt | BGt | BLte | BGte => true | BEq | BNeq => false end.
Definition compares (op : BinOp) : bool :=
  match op with BEq | BNeq | BLt | BGt | BLte | BGte => true | _ => false end.

Definition check_operand (op : BinOp) (ty : Ty) : list SemMsg :=
  err_if (is_struct_or_void ty && negb (bool_decide (ty = TyUnknown))) (NotNumeric op ty) ++
  err_if (bool_decide (op = BDiv) && bool_decide (ty = TyU64)) DivU64 ++
  err_if (is_opaque_bytes32 ty) (OpaqueOperand op ty).

Definition check_binary (op : BinOp) (l_ty r_ty : Ty) : list SemMsg :=
  err_if (differ l_ty r_ty) BinaryMismatch ++
  (if computes op then check_operand op l_ty ++ check_operand op r_ty else []).

(** The arguments of a call against the parameters. *)
Definition check_args (name : string) (params arg_types : list Ty) (args : nat) : list SemMsg :=
  if negb (length params =? args)%nat then [ArgCount name (length params) args]
  else concat (imap (λ i '(exp, act), err_if (differ exp act) (ArgMismatch i name)) (zip params arg_types)).

(** [seen_fields.insert(fname)] fails. *)
Fixpoint duplicates (name : string) (seen : gset string) (l : list string) : list SemMsg :=
  match l with
  | [] => []
  | f :: l => err_if (bool_decide (f ∈ seen)) (DuplicateField name f) ++ duplicates name ({[f]} ∪ seen) l
  end.

(** One initializer of a literal, after its value. *)
Definition check_init (sfields : gmap string Ty) (fname : string) (ty : Ty) : list SemMsg :=
  match sfields !! fname with
  | Some expected_ty =>
      err_if (negb (bool_decide (ty = expected_ty)) && negb (bool_decide (ty = TyUnknown))) (FieldMismatch fname)
  | None => [UnknownField fname]
  end.

Definition check_missing (name : string) (sfields : gmap string Ty) (given : list string) : list SemMsg :=
  concat ((λ f, err_if (negb (bool_decide (f ∈ given))) (MissingField name f)) <$> (map_to_list sfields).*1).

Fixpoint analyze_expr (e : Expr) (env : Env) : Ty * list SemMsg :=
  match e with
  | EInt _ => (TyU64, [])
  | EIdent name =>
      match env !! name with
      | Some ty => (ty, [])
      | None => (TyUnknown, [UndefinedIdentifier name])
      end
  | EStorageRead _ => (TyU64, [])
  | EMappingRead name key => mapping_access_type name (analyze_expr key env)
  | EFieldAccess base field =>
      let '(base_ty, errs) := analyze_expr base env in
      match base_ty with
      | TyStruct sname =>
          match structs a !! sname with
          | Some fields =>
              match fields !! field with
              | Some fty => (fty, errs)
              | None => (TyUnknown, errs ++ [NoField sname field])
              end
          | None => (TyUnknown, errs)
          end
      | TyUnknown => (TyUnknown, errs)
      | _ => (TyUnknown, errs ++ [FieldOnNonStruct])
      end
  | EStructLiteral name fields =>
      match structs a !! name with
      | Some sfields =>
          (TyStruct name,
           concat (map (λ '(fname, val),
             let '(ty, errs) := analyze_expr val env in errs ++ check_init sfields fname ty) fields) ++
           check_missing name sfields (fields.*1) ++ duplicates name ∅ (fields.*1))
      | None => (TyUnknown, [UndefinedStruct name])
      end
  | ECall name args =>
      let rs := map (λ arg, analyze_expr arg env) args in
      match functions a !! name with
      | Some (params, ret_ty) => (ret_ty, concat (rs.*2) ++ check_args name params (rs.*1) (length args))
      | None => (TyUnknown, concat (rs.*2) ++ [UndefinedFunction name])
      end
  | EBinary e1 op e2 =>
      let '(l_ty, errs1) := analyze_expr e1 env in
      let '(r_ty, errs2) := analyze_expr e2 env in
      (if compares op then TyBool else l_ty, errs1 ++ errs2 ++ check_binary op l_ty r_ty)
  end.

(** A block whose bindings stay in the environment. *)
Section block.
Context (analyze_stmt : Stmt → Env → Env * list SemMsg).

Fixpoint analyze_block (l : list Stmt) (env : Env) : Env * list SemMsg :=
  match l with
  | [] => (env, [])
  | s :: l =>
      let '(env, errs) := analyze_stmt s env in
      let '(env, errs') := analyze_block l env in
      (env, errs ++ errs')
  end.
End block.

Fixpoint analyze_stmt (s : Stmt) (env : Env) : Env * list SemMsg :=
  match s with
  | SLet name e => let '(ty, errs) := analyze_expr e env in (<[name := ty]> env, errs)
  | SConstrain e =>
      let '(ty, errs) := analyze_expr e env in (env, errs ++ check_condition_type ty "constrain")
  | SAssign name e =>
      let '(ty, errs) := analyze_expr e env in
      match env !! name with
      | Some expected_ty => (env, errs ++ err_if (differ ty expected_ty) (AssignMismatch expected_ty ty))
      | None => (env, UndefinedVariable name :: errs)
      end
  | SStorageWrite _ e => (env, (analyze_expr e env).2)
  | SMappingWrite name key val =>
      let '(val_ty, errs) := analyze_expr val env in
      let '(expected, errs') := mapping_access_type name (analyze_expr key env) in
      (env, errs ++ errs' ++ err_if (differ expected val_ty) (MappingValue name expected val_ty))
  | SIf cond then_branch else_branch =>
      let '(cond_ty, errs) := analyze_expr cond env in
      let '(env, errs1) := analyze_block analyze_stmt then_branch env in
      let '(env, errs2) :=
        match else_branch with Some eb => analyze_block analyze_stmt eb env | None => (env, []) end in
      (env, errs ++ check_condition_type cond_ty "if" ++ errs1 ++ errs2)
  | SWhile cond body =>
      let '(cond_ty, errs) := analyze_expr cond env in
      let '(env, errs') := analyze_block analyze_stmt body env in
      (env, errs ++ check_condition_type cond_ty "while" ++ errs')
  | SFor var start end_ body =>
      (env, (analyze_expr start env).2 ++ (analyze_expr end_ env).2 ++
            (analyze_block analyze_stmt body (<[var := TyU64]> env)).2)
  | SReturn e =>
      let '(ret_ty, errs) := match e with Some e => analyze_expr e env | None => (TyVoid, []) end in
      (env, errs ++ err_if (differ ret_ty (current_func_ret a)) (ReturnMismatch (current_func_ret a) ret_ty))
  | SEmit _ args => (env, concat (map (λ arg, (analyze_expr arg env).2) args))
  | SMatch scrutinee arms =>
      let '(ty, errs) := analyze_expr scrutinee env in
      (env, errs ++
            err_if (negb (bool_decide (ty = TyU64)) && negb (bool_decide (ty = TyBool))) (MatchScrutinee ty) ++
            concat (map (λ '(_, body), (analyze_block analyze_stmt body env).2) arms))
  | SExpr e => (env, (analyze_expr e env).2)
  end.
End analyzer.

Definition analyze_function (a : SemanticAnalyzer) (f : Function) : SemanticAnalyzer * list SemMsg :=
  let env := foldl (λ env p, <[p_name p := type_of (p_ty p)]> env) ∅ (params f) in
  let a := set_ret a (match return_type f with Some r => type_of r | None => TyVoid end) in
  (a, (analyze_block (analyze_stmt a) (body f) env).2).

(** ** A contract *)

(** The fields of a struct; a bad type name ends the analysis. *)
Fixpoint struct_fields (fs : list StorageField) (m : gmap string Ty) : result SemMsg (gmap string Ty) :=
  match fs with
  | [] => Ok m
  | f :: fs =>
      match from_str (f_ty f) with
      | Ok ty => struct_fields fs (<[f_name f := ty]> m)
      | Err e => Err (BadType None e)
      end
  end.

Fixpoint register_structs (ss : list Struct) (m : gmap string (gmap string Ty)) :
    result SemMsg (gmap string (gmap string Ty)) :=
  match ss with
  | [] => Ok m
  | s :: ss => let? fields := struct_fields (fields s) ∅ in register_structs ss (<[st_name s := fields]> m)
  end.

Definition register_storage (st : gmap string Ty * list SemMsg) (f : StorageField) : gmap string Ty * list SemMsg :=
  match from_str (f_ty f) with
  | Ok ty => (<[f_name f := ty]> st.1, st.2)
  | Err e => (st.1, st.2 ++ [BadType None e])
  end.

(** A storage or struct field whose type must exist. *)
Definition check_field (a : SemanticAnalyzer) (p : Place) (report : bool) (f : StorageField) : list SemMsg :=
  match from_str (f_ty f) with
  | Ok ty => check_struct_type a ty p
  | Err e => err_if report (BadType (Some p) e)
  end.

(** A type of a signature; [Unknown] when its name is refused. *)
Definition signature_type (a : SemanticAnalyzer) (p : Place) (s : string) : Ty * list SemMsg :=
  match from_str s with
  | Ok ty => (ty, check_struct_type a ty p)
  | Err e => (TyUnknown, BadType (Some p) e :: check_struct_type a TyUnknown p)
  end.

Definition register_function (st : SemanticAnalyzer * list SemMsg) (f : Function) : SemanticAnalyzer * list SemMsg :=
  let '(a, errs) := st in
  let ps := map (λ p, signature_type a (ParamOf (p_name p) (fn_name f)) (p_ty p)) (params f) in
  let '(ret_ty, errs') :=
    match return_type f with
    | Some r => signature_type a (ReturnOf (fn_name f)) r
    | None => (TyVoid, [])
    end in
  (set_functions a (<[fn_name f := (ps.*1, ret_ty)]> (functions a)), errs ++ concat (ps.*2) ++ errs').

Definition builtins (m : gmap string (list Ty * Ty)) : gmap string (list Ty * Ty) :=
  let m := <["poseidon" := ([TyU64; TyU64], TyU64)]> m in
  let m := <["verify_merkle_proof" := ([TyU64; TyU64; TyU64], TyU64)]> m in
  let m := <["msg::sender" := ([], TyU64)]> m in
  let m := <["msg::nonce" := ([], TyU64)]> m in
  <["block::number" := ([], TyU64)]> m.

Definition analyze (a : SemanticAnalyzer) (c : Contract) : result SemMsg unit :=
  let? structs := register_structs (Ast.structs c) (structs a) in
  let a := set_structs a structs in
  let '(storage, errs) := foldl register_storage (storage a, []) (Ast.storage c) in
  let a := set_storage a storage in
  let errs := errs ++ concat (map (λ f, check_field a (StorageFieldOf (f_name f)) false f) (Ast.storage c)) in
  let errs := errs ++ concat (map (λ s,
    concat (map (λ f, check_field a (FieldOf (st_name s) (f_name f)) true f) (fields s))) (Ast.structs c)) in
  let '(a, errs) := foldl register_function (a, errs) (Ast.functions c) in
  let a := set_functions a (builtins (functions a)) in
  let '(_, errs) := foldl (λ st f, let '(a, es) := analyze_function st.1 f in (a, st.2 ++ es)) (a, errs) (Ast.functions c) in
  match errs with [] => Ok () | e :: _ => Err e end.

End Sema.

(** ** The compiler *)
Module Compile.

Inductive CompileError :=
  | ParserError (m : Parser.ParserMsg)
  | SemanticError (m : Sema.SemMsg)
  | Codegen (e : Codegen.CompileError).

(** [compile] from the tokens on; [None] is a panic. *)
Definition compile (ts : list Lexer.Token) (profile : Isa.IsaProfile) : option (result CompileError (list Z)) :=
  r ← Parser.parse ts;
  match r with
  | Err e => Some (Err (ParserError e))
  | Ok c =>
      match Sema.analyze Sema.new c with
      | Err e => Some (Err (SemanticError e))
      | Ok _ =>
          g ← Codegen.generate (Codegen.new_with_profile profile) c;
          Some (match g with Ok prog => Ok prog | Err e => Err (Codegen e) end)
      end
  end.
End Compile.
