(* ===== verification/SemaProps.v ===== *)
(** * What the analyzer guarantees

    [Arity]: an accepted contract calls the builtins with as many arguments as
    they have.  [NoPanic]: the generator does not panic on such a contract.
    [Typing] is the type system as rules, and [TypingLemmas] shows that the
    analyzer accepts exactly what the rules type. *)
From stdpp Require Import base tactics numbers list gmap strings.
From Stdlib Require Import ZArith Lia.
From S2P Require Import Prelude Isa Compiler CompilerCode Parser Sema.
Import Ast CodeLemmas.
Open Scope Z_scope.

(** ** Builtins have their arguments *)
Module Arity.
Import Sema.

Definition arity (name : string) (n : nat) : bool :=
  if decide (name = "poseidon") then (n =? 2)%nat
  else if decide (name = "verify_merkle_proof") then (n =? 3)%nat
  else true.

Fixpoint arity_expr (e : Expr) : bool :=
  match e with
  | EInt _ | EIdent _ | EStorageRead _ => true
  | EMappingRead _ k => arity_expr k
  | EFieldAccess b _ => arity_expr b
  | EStructLiteral _ fs => forallb (λ '(_, v), arity_expr v) fs
  | EBinary l _ r => arity_expr l && arity_expr r
  | ECall x args => arity x (length args) && forallb arity_expr args
  end.

Fixpoint arity_stmt (s : Stmt) : bool :=
  match s with
  | SLet _ e | SConstrain e | SAssign _ e | SStorageWrite _ e | SExpr e => arity_expr e
  | SMappingWrite _ k e => arity_expr k && arity_expr e
  | SIf c t e => arity_expr c && forallb arity_stmt t && match e with Some e => forallb arity_stmt e | None => true end
  | SWhile c b => arity_expr c && forallb arity_stmt b
  | SFor _ a z b => arity_expr a && arity_expr z && forallb arity_stmt b
  | SReturn e => match e with Some e => arity_expr e | None => true end
  | SEmit _ args => forallb arity_expr args
  | SMatch e arms => arity_expr e && forallb (λ '(_, b), forallb arity_stmt b) arms
  end.

Definition arity_contract (c : Contract) : bool := forallb (λ f, forallb arity_stmt (body f)) (Ast.functions c).

(** Two lists of errors are empty together. *)
Lemma app_nil_iff {A} (l k : list A) : l ++ k = [] ↔ l = [] ∧ k = [].
Proof. split; [apply app_eq_nil|by intros [-> ->]]. Qed.

Lemma concat_nil_iff {A} (l : list (list A)) : concat l = [] ↔ Forall (λ x, x = []) l.
Proof. apply concat_nil_Forall. Qed.

Section arity.
Context (a : SemanticAnalyzer).
Hypothesis Hpos : ∃ r t1 t2, functions a !! "poseidon" = Some ([t1; t2], r).
Hypothesis Hver : ∃ r t1 t2 t3, functions a !! "verify_merkle_proof" = Some ([t1; t2; t3], r).

Lemma check_args_length x ps ts n : check_args x ps ts n = [] → length ps = n.
Proof. unfold check_args. destruct (Nat.eqb_spec (length ps) n); [done|done]. Qed.

Lemma expr_arity e : ∀ env, (analyze_expr a e env).2 = [] → arity_expr e = true.
Proof.
  induction e as [v|x|x|x k IHk|b f IHb|x fs IH|e1 op e2 IH1 IH2|x args IH] using expr_induction; intros env; cbn [analyze_expr arity_expr]; try done.
  - specialize (IHk env). unfold mapping_access_type. destruct (analyze_expr a k env) as [kt errs].
    destruct (mapping_types a x) as [[? ?] ?]. cbn [snd]. intros [H _]%app_nil_iff. by apply IHk.
  - specialize (IHb env). destruct (analyze_expr a b env) as [bt errs]. intros H. apply IHb. cbn [snd].
    destruct bt; try (by apply app_nil_iff in H as [? _]); try done.
    destruct (structs a !! name) as [fs|]; [|done]. destruct (fs !! f); [done|]. by apply app_nil_iff in H as [? _].
  - destruct (structs a !! x) as [sf|]; [|done]. cbn [snd]. intros [H _]%app_nil_iff. apply concat_nil_iff in H.
    apply forallb_forall. intros [f v] Hin%list_elem_of_In. rewrite Forall_forall in IH. rewrite Forall_forall in H. apply (IH (f, v) Hin env).
    specialize (H _ (list_elem_of_fmap_2 _ _ _ Hin)). cbn beta iota in H. cbn [snd].
    destruct (analyze_expr a v env) as [ty errs]. by apply app_nil_iff in H as [? _].
  - specialize (IH1 env). specialize (IH2 env). destruct (analyze_expr a e1 env), (analyze_expr a e2 env). cbn [snd].
    intros [H1 [H2 _]%app_nil_iff]%app_nil_iff. apply andb_true_iff. split; [by apply IH1|by apply IH2].
  - assert (∀ l, concat ((map (λ arg, analyze_expr a arg env) args).*2) ++ l = [] → forallb arity_expr args = true) as Hargs.
    { intros l [H _]%app_nil_iff. apply concat_nil_iff in H. apply forallb_forall. intros e Hin%list_elem_of_In.
      rewrite Forall_forall in IH. rewrite Forall_forall in H. apply (IH e Hin env). apply H. rewrite <- list_fmap_compose.
      by apply (list_elem_of_fmap_2 (λ arg, (analyze_expr a arg env).2)). }
    destruct (functions a !! x) as [[ps rt]|] eqn:Hx; cbn [snd]; intros H; (apply andb_true_iff; split; [|by eapply Hargs]).
    + apply app_nil_iff in H as [_ H%check_args_length]. unfold arity.
      case_decide as H1; [|case_decide as H2; [|done]]; subst x; apply Nat.eqb_eq; rewrite <- H.
      * destruct Hpos as (r&t1&t2&Hp). rewrite Hp in Hx. by injection Hx as <- <-.
      * destruct Hver as (r&t1&t2&t3&Hp). rewrite Hp in Hx. by injection Hx as <- <-.
    + by apply app_nil_iff in H as [_ ?].
Qed.

Lemma block_arity (ss : list Stmt) : Forall (λ s, ∀ env, (analyze_stmt a s env).2 = [] → arity_stmt s = true) ss →
  ∀ env, (analyze_block (analyze_stmt a) ss env).2 = [] → forallb arity_stmt ss = true.
Proof.
  induction 1 as [|s ss Hs _ IH]; intros env; [done|]. cbn [analyze_block forallb].
  specialize (Hs env). destruct (analyze_stmt a s env) as [env1 errs]. specialize (IH env1).
  destruct (analyze_block _ ss env1) as [env2 errs']. cbn [snd] in *. intros [H1 H2]%app_nil_iff.
  apply andb_true_iff. split; [by apply Hs|by apply IH].
Qed.

Lemma access_arity x k env : (mapping_access_type a x (analyze_expr a k env)).2 = [] → arity_expr k = true.
Proof.
  unfold mapping_access_type. destruct (analyze_expr a k env) as [kt errs] eqn:E. destruct (mapping_types a x) as [[? ?] ?]. cbn [snd].
  intros [-> _]%app_nil_iff. apply (expr_arity k env). by rewrite E.
Qed.

Lemma stmt_arity s : ∀ env, (analyze_stmt a s env).2 = [] → arity_stmt s = true.
Proof.
  induction s as [x e|e|x e|x e|x k e|c t e IHt IHe|c b IHb|x e1 e2 b IHb|e|x args|e arms IH|e] using stmt_induction;
    intros env; cbn [analyze_stmt arity_stmt].
  - intros H. apply (expr_arity e env). by destruct (analyze_expr a e env).
  - intros H. apply (expr_arity e env). destruct (analyze_expr a e env). by apply app_nil_iff in H as [? _].
  - intros H. apply (expr_arity e env). destruct (analyze_expr a e env). destruct (env !! x); [|done]. by apply app_nil_iff in H as [? _].
  - apply expr_arity.
  - pose proof (expr_arity e env) as He. pose proof (access_arity x k env) as Hk. destruct (analyze_expr a e env).
    destruct (mapping_access_type a x _). cbn [snd] in *. intros [H1 [H2 _]%app_nil_iff]%app_nil_iff.
    apply andb_true_iff. split; [by apply Hk|by apply He].
  - pose proof (expr_arity c env) as Hc. pose proof (block_arity t IHt env) as Ht.
    destruct (analyze_expr a c env) as [? e0]. destruct (analyze_block _ t env) as [env1 e1]. cbn [snd] in *.
    destruct e as [e|].
    + pose proof (block_arity e IHe env1) as He. destruct (analyze_block _ e env1) as [env2 e2]. cbn [snd] in *.
      intros [H1 [_ [H2 H3]%app_nil_iff]%app_nil_iff]%app_nil_iff. by rewrite Hc, Ht, He.
    + intros [H1 [_ [H2 H3]%app_nil_iff]%app_nil_iff]%app_nil_iff. by rewrite Hc, Ht.
  - pose proof (expr_arity c env) as Hc. pose proof (block_arity b IHb env) as Hb.
    destruct (analyze_expr a c env) as [? e0]. destruct (analyze_block _ b env) as [env1 e1]. cbn [snd] in *.
    intros [H1 [_ H2]%app_nil_iff]%app_nil_iff. by rewrite Hc, Hb.
  - pose proof (block_arity b IHb) as Hb. cbn [snd].
    intros [H1%expr_arity [H2%expr_arity H3%Hb]%app_nil_iff]%app_nil_iff. by rewrite H1, H2, H3.
  - destruct e as [e|]; [|done]. pose proof (expr_arity e env) as He. destruct (analyze_expr a e env). cbn [snd] in *.
    intros [H _]%app_nil_iff. by apply He.
  - cbn [snd]. intros H%concat_nil_iff. apply forallb_forall. intros e Hin%list_elem_of_In. apply (expr_arity e env).
    rewrite Forall_forall in H. apply H. by apply (list_elem_of_fmap_2 (λ arg, (analyze_expr a arg env).2)).
  - pose proof (expr_arity e env) as He. destruct (analyze_expr a e env). cbn [snd] in *.
    intros [H1 [_ H2]%app_nil_iff]%app_nil_iff. rewrite He by done. apply concat_nil_iff in H2. rewrite Forall_forall in H2. rewrite Forall_forall in IH.
    apply forallb_forall. intros [p b] Hin%list_elem_of_In. apply (block_arity b (IH _ Hin) env).
    by apply (H2 _ (list_elem_of_fmap_2 (λ '(_, body), (analyze_block (analyze_stmt a) body env).2) _ (p, b) Hin)).
  - apply expr_arity.
Qed.
End arity.

(** The last loop of [analyze]: every function is analyzed in the same
    context, up to its return type. *)
Definition return_of (f : Function) : Ty := match return_type f with Some r => type_of r | None => TyVoid end.
Definition params_env (f : Function) : Env := foldl (λ env p, <[p_name p := type_of (p_ty p)]> env) ∅ (params f).

Lemma functions_errors fs : ∀ a errs, (foldl (λ st f, let '(a, es) := analyze_function st.1 f in (a, st.2 ++ es)) (a, errs) fs).2 = [] ↔
  errs = [] ∧ Forall (λ f, (analyze_block (analyze_stmt (set_ret a (return_of f))) (body f) (params_env f)).2 = []) fs.
Proof.
  induction fs as [|f fs IH]; intros a errs; cbn [foldl].
  - split; [|by intros [? _]]. intros H. by split.
  - cbn [analyze_function fst snd]. rewrite IH, app_nil_iff, Forall_cons. split; [intros [[? ?] ?]|intros [? [? ?]]]; done.
Qed.

(** *** The steps of [analyze], and when they report nothing *)
Definition field_types (fs : list StorageField) (m : gmap string Ty) : gmap string Ty :=
  foldl (λ m f, <[f_name f := type_of (f_ty f)]> m) m fs.
Definition struct_types (ss : list Struct) (m : gmap string (gmap string Ty)) : gmap string (gmap string Ty) :=
  foldl (λ m s, <[st_name s := field_types (fields s) ∅]> m) m ss.
Definition signatures (fs : list Function) (m : gmap string (list Ty * Ty)) : gmap string (list Ty * Ty) :=
  foldl (λ m f, <[fn_name f := (type_of ∘ p_ty <$> params f, return_of f)]> m) m fs.

(** A type name that is not refused. *)
Definition spelled (s : string) : Prop := ∃ ty, from_str s = Ok ty.

Lemma struct_fields_ok fs : ∀ m m', struct_fields fs m = Ok m' ↔ Forall spelled (f_ty <$> fs) ∧ m' = field_types fs m.
Proof.
  induction fs as [|f fs IH]; intros m m'; cbn [struct_fields field_types foldl fmap list_fmap].
  - split; [intros [= <-]; by split|intros [_ ->]; done].
  - rewrite Forall_cons. unfold spelled at 1, type_of. destruct (from_str (f_ty f)) as [ty|e].
    + rewrite IH. unfold field_types. split; [intros [? ->]; split; [split; [by exists ty|done]|done]|intros [[_ ?] ->]; done].
    + split; [done|]. by intros [[[? ?] _] _].
Qed.

Lemma register_structs_ok ss : ∀ m m', register_structs ss m = Ok m' ↔
  Forall (λ s, Forall spelled (f_ty <$> fields s)) ss ∧ m' = struct_types ss m.
Proof.
  induction ss as [|s ss IH]; intros m m'; cbn [register_structs struct_types foldl].
  - split; [intros [= <-]; by split|intros [_ ->]; done].
  - rewrite Forall_cons. destruct (struct_fields (fields s) ∅) as [fs|e] eqn:E; cbn beta iota.
    + apply struct_fields_ok in E as [Hs ->]. rewrite IH. unfold struct_types. split; [by intros [? ->]|by intros [[_ ?] ->]].
    + split; [done|]. intros [[Hs _] _]. by rewrite (proj2 (struct_fields_ok (fields s) ∅ _) (conj Hs eq_refl)) in E.
Qed.

Lemma register_storage_ok fs : ∀ m errs, let st := foldl register_storage (m, errs) fs in
  (st.2 = [] ↔ errs = [] ∧ Forall spelled (f_ty <$> fs)) ∧ (Forall spelled (f_ty <$> fs) → st.1 = field_types fs m).
Proof.
  induction fs as [|f fs IH]; intros m errs; cbn [foldl fmap list_fmap].
  - split; [|done]. split; [intros H; by split|by intros [? _]].
  - rewrite Forall_cons. change (field_types (f :: fs) m) with (field_types fs (<[f_name f := type_of (f_ty f)]> m)).
    destruct (from_str (f_ty f)) as [ty|e] eqn:E.
    + assert (type_of (f_ty f) = ty ∧ register_storage (m, errs) f = (<[f_name f := ty]> m, errs)) as [-> ->]
        by (unfold type_of, register_storage; by rewrite E).
      destruct (IH (<[f_name f := ty]> m) errs) as [H1 H2]. rewrite H1. split; [|by intros [_ H]; apply H2].
      split; [intros [? ?]|intros [? [_ ?]]]; split; try done. split; [by exists ty|done].
    + assert (register_storage (m, errs) f = (m, errs ++ [BadType None e])) as -> by (unfold register_storage; by rewrite E).
      assert (¬ spelled (f_ty f)) as Hn by (intros [ty Hty]; congruence).
      destruct (IH m (errs ++ [BadType None e])) as [H1 _]. rewrite H1, app_nil_iff.
      split; [split; [by intros [[_ ?] _]|by intros [_ [? _]]]|by intros [? _]].
Qed.

Definition checked (a : SemanticAnalyzer) (s : string) : Prop := ∃ ty, from_str s = Ok ty ∧ ∀ p, check_struct_type a ty p = [].

Lemma check_struct_place a ty : ∀ p q, check_struct_type a ty p = [] → check_struct_type a ty q = [].
Proof.
  induction ty as [| | | | |s|k IHk v IHv| |]; intros p q; cbn [check_struct_type]; try done.
  - by destruct (bool_decide _).
  - rewrite !app_nil_iff. intros [? ?]. split; [by eapply IHk|by eapply IHv].
Qed.

Lemma check_field_ok a p b f : spelled (f_ty f) → check_field a p b f = [] ↔ checked a (f_ty f).
Proof.
  intros [ty Hty]. unfold check_field, checked. rewrite Hty. split.
  - intros H. exists ty. split; [done|]. intros q. by eapply check_struct_place.
  - by intros (?&[= <-]&?).
Qed.

Lemma signature_ok a p s : (signature_type a p s).1 = type_of s ∧ ((signature_type a p s).2 = [] ↔ checked a s).
Proof.
  unfold signature_type, type_of, checked. destruct (from_str s) as [ty|e]; cbn [fst snd].
  - split; [done|]. split; [|by intros (?&[= <-]&?)]. intros H. exists ty. split; [done|]. intros q. by eapply check_struct_place.
  - split; [done|]. split; [done|]. by intros (?&?&_).
Qed.

Definition signature_checked (a : SemanticAnalyzer) (f : Function) : Prop :=
  Forall (checked a) (p_ty <$> params f) ∧ ∀ r, return_type f = Some r → checked a r.

Lemma register_functions_ok fs : ∀ a errs, let st := foldl register_function (a, errs) fs in
  st.1 = set_functions a (signatures fs (functions a)) ∧ (st.2 = [] ↔ errs = [] ∧ Forall (signature_checked a) fs).
Proof.
  induction fs as [|f fs IH]; intros a errs; cbn [foldl].
  - split; [by destruct a|]. split; [intros H; by split|by intros [? _]].
  - set (ps := map (λ p, signature_type a (ParamOf (p_name p) (fn_name f)) (p_ty p)) (params f)).
    assert (ps.*1 = (type_of ∘ p_ty <$> params f) ∧ (concat (ps.*2) = [] ↔ Forall (checked a) (p_ty <$> params f))) as [Hp1 Hp2].
    { unfold ps. rewrite <- !list_fmap_compose, concat_nil_iff, !Forall_fmap. split.
      - apply list_fmap_ext. intros i p _. apply signature_ok.
      - apply Forall_iff. intros p. unfold compose. apply signature_ok. }
    assert (∃ rt es, match return_type f with Some r => signature_type a (ReturnOf (fn_name f)) r | None => (TyVoid, []) end = (rt, es) ∧
      rt = return_of f ∧ (es = [] ↔ ∀ r, return_type f = Some r → checked a r)) as (rt&es&E&->&Hes).
    { unfold return_of. destruct (return_type f) as [r|].
      - pose proof (signature_ok a (ReturnOf (fn_name f)) r) as [H1 H2]. destruct (signature_type a (ReturnOf (fn_name f)) r) as [rt es].
        exists rt, es. cbn [fst snd] in *. split_and!; try done. rewrite H2. split; [by intros H r' [= <-]|by intros H; apply H].
      - by exists TyVoid, []. }
    cbn [register_function]. fold ps. rewrite E, Hp1.
    destruct (IH (set_functions a (<[fn_name f := (type_of ∘ p_ty <$> params f, return_of f)]> (functions a))) (errs ++ concat ps.*2 ++ es)) as [H1 H2].
    change (signature_checked (set_functions a _)) with (signature_checked a) in H2.
    split; [exact H1|]. rewrite H2, !app_nil_iff, Hp2, Hes, Forall_cons. unfold signature_checked at 2. tauto.
Qed.

(** What a contract declares, and the analyzer with it. *)
Definition declared (c : Contract) : SemanticAnalyzer :=
  mkAnalyzer (struct_types (Ast.structs c) ∅) (builtins (signatures (Ast.functions c) ∅)) (field_types (Ast.storage c) ∅) TyVoid.

Lemma analyze_ok c : analyze new c = Ok () ↔
  Forall (checked (declared c)) (f_ty <$> Ast.storage c) ∧
  Forall (λ s, Forall (checked (declared c)) (f_ty <$> fields s)) (Ast.structs c) ∧
  Forall (signature_checked (declared c)) (Ast.functions c) ∧
  Forall (λ f, (analyze_block (analyze_stmt (set_ret (declared c) (return_of f))) (body f) (params_env f)).2 = []) (Ast.functions c).
Proof.
  set (C := checked (declared c)).
  assert (∀ s, C s → spelled s) as Hsp by (intros s (ty&Hty&_); by exists ty).
  assert (∀ a, structs a = structs (declared c) → ∀ s, checked a s ↔ C s) as Hsame.
  { assert (∀ a, structs a = structs (declared c) → ∀ ty p, check_struct_type a ty p = check_struct_type (declared c) ty p) as Heq.
    { intros a Ha. induction ty as [| | | | |s|k IHk v IHv| |]; intros p; cbn [check_struct_type]; try done; [by rewrite Ha|by rewrite IHk, IHv]. }
    intros a Ha s. unfold C, checked. split; intros (ty&Hty&Hp); exists ty; (split; [done|]); intros p; specialize (Hp p); by rewrite Heq in *. }
  unfold analyze. change (structs new) with (∅ : gmap string (gmap string Ty)).
  destruct (register_structs (Ast.structs c) ∅) as [ss|e] eqn:Es; cbn beta iota.
  2:{ split; [done|]. intros (_&Hs&_). exfalso.
      assert (Forall (λ s, Forall spelled (f_ty <$> fields s)) (Ast.structs c)) as Hs'.
      { eapply Forall_impl; [exact Hs|]. intros s Hf. eapply Forall_impl; [exact Hf|]. exact Hsp. }
      by rewrite (proj2 (register_structs_ok _ ∅ _) (conj Hs' eq_refl)) in Es. }
  apply register_structs_ok in Es as [Hss ->]. cbn [storage set_structs new].
  destruct (register_storage_ok (Ast.storage c) ∅ []) as [Hst1 Hst2].
  destruct (foldl register_storage (∅, []) (Ast.storage c)) as [st es]. cbn [fst snd] in *.
  set (a0 := set_storage (set_structs new (struct_types (Ast.structs c) ∅)) st).
  destruct (register_functions_ok (Ast.functions c) a0 ((es ++ concat (map (λ f, check_field a0 (StorageFieldOf (f_name f)) false f) (Ast.storage c))) ++
    concat (map (λ s, concat (map (λ f, check_field a0 (FieldOf (st_name s) (f_name f)) true f) (fields s))) (Ast.structs c)))) as [Hf1 Hf2].
  destruct (foldl register_function _ (Ast.functions c)) as [a1 errs1]. cbn [fst snd] in *.
  match goal with |- context [foldl ?h (set_functions a1 (builtins (functions a1)), errs1) ?fs] =>
    pose proof (functions_errors fs (set_functions a1 (builtins (functions a1))) errs1) as Hfe; destruct (foldl h _ fs) as [a2 errs2] end.
  cbn [snd] in Hfe. transitivity (errs2 = []); [by destruct errs2|]. rewrite Hfe, Hf2, !app_nil_iff, Hst1.
  assert (Forall (signature_checked a0) (Ast.functions c) ↔ Forall (signature_checked (declared c)) (Ast.functions c)) as ->.
  { assert (∀ f, signature_checked a0 f ↔ signature_checked (declared c) f) as Hfc;
      [|split; intros H; (eapply Forall_impl; [exact H|]); intros f; apply Hfc].
    intros f. unfold signature_checked. rewrite !Forall_forall. pose proof (Hsame a0 eq_refl) as Hs. unfold C in Hs.
    split; intros [H1 H2]; (split; [intros s Hin; by apply Hs, H1|intros r Hr; by apply Hs, H2]). }
  assert (Forall spelled (f_ty <$> Ast.storage c) →
    concat (map (λ f, check_field a0 (StorageFieldOf (f_name f)) false f) (Ast.storage c)) = [] ↔ Forall C (f_ty <$> Ast.storage c)) as Hcst.
  { intros Hs. rewrite concat_nil_iff, !Forall_fmap, !Forall_forall. rewrite Forall_fmap, Forall_forall in Hs.
    split; intros H f Hf; specialize (H f Hf); specialize (Hs f Hf); unfold compose in *.
    - apply (check_field_ok a0 _ _ f Hs), (Hsame a0 eq_refl) in H. done.
    - apply (check_field_ok a0 _ _ f Hs), (Hsame a0 eq_refl). done. }
  assert (concat (map (λ s, concat (map (λ f, check_field a0 (FieldOf (st_name s) (f_name f)) true f) (fields s))) (Ast.structs c)) = [] ↔
    Forall (λ s, Forall C (f_ty <$> fields s)) (Ast.structs c)) as ->.
  { rewrite concat_nil_iff, Forall_fmap, !Forall_forall. rewrite Forall_forall in Hss.
    split; intros H s Hs; specialize (H s Hs); specialize (Hss s Hs); unfold compose in *; rewrite Forall_fmap, Forall_forall in Hss.
    - rewrite concat_nil_iff, Forall_fmap, Forall_forall in H. rewrite Forall_fmap, Forall_forall. intros f Hf.
      by apply (check_field_ok a0 (FieldOf (st_name s) (f_name f)) true f (Hss f Hf)), (Hsame a0 eq_refl) in H.
    - rewrite Forall_fmap, Forall_forall in H. rewrite concat_nil_iff, Forall_fmap, Forall_forall. intros f Hf. unfold compose.
      apply (check_field_ok a0 (FieldOf (st_name s) (f_name f)) true f (Hss f Hf)), (Hsame a0 eq_refl). by apply H. }
  assert (Forall spelled (f_ty <$> Ast.storage c) → set_functions a1 (builtins (functions a1)) = declared c) as Hctx.
  { intros Hs. rewrite Hf1. unfold a0. by rewrite (Hst2 Hs). }
  split.
  - intros [[[[[_ Hs] H1] H2] H3] H4]. rewrite Hctx in H4 by done. split_and!; try done. by apply Hcst.
  - intros (H1&H2&H3&H4). assert (Forall spelled (f_ty <$> Ast.storage c)) as Hs by (eapply Forall_impl; [exact H1|]; exact Hsp).
    rewrite Hctx by done. split_and!; try done. by apply Hcst.
Qed.

Lemma accepted_arity c : analyze new c = Ok () → arity_contract c = true.
Proof.
  intros (_&_&_&H)%analyze_ok. rewrite Forall_forall in H. apply forallb_forall. intros f Hf%list_elem_of_In.
  eapply block_arity; [|exact (H f Hf)]. apply Forall_forall. intros s _. apply stmt_arity; cbn [functions set_ret declared]; unfold builtins.
  - eexists _, _, _. by rewrite !lookup_insert_ne, lookup_insert_eq by done.
  - eexists _, _, _, _. by rewrite !lookup_insert_ne, lookup_insert_eq by done.
Qed.

End Arity.

(** ** The generator does not panic *)
Module NoPanic.
Import Codegen Arity.

(** No panic so far, and the calls to patch are instructions. *)
Definition fine (g : Codegen) : Prop := panicked g = false ∧ Forall (λ u, u.1 < here g)%nat (unpatched_calls g).

(** From [g] to [g']: still fine, and no instruction is gone. *)
Definition adv (g g' : Codegen) : Prop := fine g → fine g' ∧ (here g ≤ here g')%nat.

Lemma adv_refl g : adv g g.
Proof. done. Qed.

Lemma adv_trans g1 g2 g3 : adv g1 g2 → adv g2 g3 → adv g1 g3.
Proof. intros H1 H2 Hf. destruct (H1 Hf) as [Hf2 ?], (H2 Hf2) as [? ?]. split; [done|lia]. Qed.

Lemma adv_next g r : adv g (set_next_reg g r).
Proof. intros [? ?]. by split. Qed.

Lemma adv_error g e : adv g (set_error g e).
Proof. intros [? ?]. by split. Qed.

Lemma adv_raise g e : adv g (raise g e).
Proof. unfold raise. destruct (error g); [apply adv_refl|apply adv_error]. Qed.

Lemma adv_alloc g : adv g (alloc_reg g).2.
Proof. unfold alloc_reg. destruct (_ <=? _); [apply adv_raise|apply adv_next]. Qed.

Lemma adv_instructions g l : (here g ≤ length l)%nat → adv g (set_instructions g l).
Proof.
  intros Hl [Hp Hc]. split; [split; [done|]|done]. eapply Forall_impl; [exact Hc|]. simpl. unfold here in *. simpl. intros u. lia.
Qed.

Lemma adv_emit g op rd rs1 rs2 imm : adv g (emit g op rd rs1 rs2 imm).
Proof.
  unfold emit. destruct (Isa.is_experimental op); [apply adv_raise|]. apply adv_instructions. rewrite length_app. unfold here. lia.
Qed.

Lemma here_emit g op rd rs1 rs2 imm : Isa.is_experimental op = false → here (emit g op rd rs1 rs2 imm) = S (here g).
Proof. intros H. unfold emit, here. rewrite H. simpl. rewrite length_app. simpl. lia. Qed.

Lemma adv_patch g idx off : (idx < here g)%nat → adv g (patch_jump g idx off).
Proof.
  intros Hidx. unfold patch_jump. destruct (has_error g); [apply adv_refl|].
  destruct (lookup_lt_is_Some_2 (instructions g) idx Hidx) as [raw ->].
  destruct (Isa.decode_any raw); [|apply adv_raise]. apply adv_instructions. by rewrite length_insert.
Qed.

Lemma adv_foldl {A} (f : Codegen → A → Codegen) l : ∀ g, (∀ g x, adv g (f g x)) → adv g (foldl f g l).
Proof.
  intros g Hf. revert g. induction l as [|x l IH]; intros g; [apply adv_refl|]. cbn [foldl]. eapply adv_trans; [apply Hf|apply IH].
Qed.

Lemma adv_traverse {A B} (f : nat → A → Codegen → B * Codegen) l : Forall (λ x, ∀ i g, adv g (f i x g).2) l → ∀ i g, adv g (traverse f i l g).2.
Proof.
  induction 1 as [|x l Hx _ IH]; intros i g; [apply adv_refl|]. cbn [traverse].
  specialize (Hx i g). destruct (f i x g) as [b g1]. specialize (IH (S i) g1). destruct (traverse f (S i) l g1) as [bs g2].
  eapply adv_trans; [exact Hx|exact IH].
Qed.

Lemma adv_calls g name : adv g (set_calls (emit g Isa.Call 0 0 0 0) (unpatched_calls (emit g Isa.Call 0 0 0 0) ++ [(here g, name)])).
Proof.
  intros Hf. destruct (adv_emit g Isa.Call 0 0 0 0 Hf) as [[Hp Hc] Hle]. split; [|done]. split; [done|].
  apply Forall_app. split; [done|]. constructor; [|done]. change (here g < here (emit g Isa.Call 0 0 0 0))%nat. rewrite here_emit by done. lia.
Qed.

(** Follow the state through the code. *)
Ltac adv :=
  cbn [snd];
  lazymatch goal with
  | |- adv ?g ?g => apply adv_refl
  | H : adv ?g ?x |- adv ?g ?x => exact H
  | |- adv _ (emit _ _ _ _ _ _) => eapply adv_trans; [|apply adv_emit]; adv
  | |- adv _ (push _ _) => eapply adv_trans; [|apply adv_emit]; adv
  | |- adv _ (pop _ _) => eapply adv_trans; [|apply adv_emit]; adv
  | |- adv _ (set_next_reg _ _) => eapply adv_trans; [|apply adv_next]; adv
  | |- adv _ (raise _ _) => eapply adv_trans; [|apply adv_raise]; adv
  | |- adv _ (alloc_reg _).2 => eapply adv_trans; [|apply adv_alloc]; adv
  | |- adv _ (foldl push _ _) => eapply adv_trans; [|apply adv_foldl; intros; apply adv_emit]; adv
  | |- adv _ (foldl pop _ _) => eapply adv_trans; [|apply adv_foldl; intros; apply adv_emit]; adv
  | |- adv _ (foldl _ _ _) => eapply adv_trans; [|apply adv_foldl]; [adv|]
  | |- adv _ (traverse _ _ _ _).2 => eapply adv_trans; [|apply adv_traverse]; [adv|]
  | |- adv ?g (match ?m with _ => _ end).2 =>
      lazymatch type of m with
      | prod _ _ => let H := fresh "Hadv" in assert (adv g m.2) as H; [adv|destruct m; cbn [snd] in H; adv]
      | _ => destruct m; adv
      end
  | |- adv ?g (match ?m with _ => _ end) =>
      lazymatch type of m with
      | prod _ _ => let H := fresh "Hadv" in assert (adv g m.2) as H; [adv|destruct m; cbn [snd] in H; adv]
      | _ => destruct m; adv
      end
  | |- adv _ _ => try (eapply adv_trans; [|match goal with H : ∀ _ _ _, adv _ _ |- _ => apply H end]; adv)
  end.

Lemma adv_result l s1 r s2 g : adv g (result_reg l s1 r s2 g).2.
Proof. unfold result_reg. adv. Qed.

Lemma adv_chunks rg sr tr l : ∀ b g, adv g (foldl (emit_chunk rg sr tr) (g, b) l).1.
Proof.
  induction l as [|k l IH]; intros b g; [apply adv_refl|]. cbn [foldl emit_chunk].
  destruct ((0 <? k) || b); [|apply IH]. destruct b; (eapply adv_trans; [|apply IH]); adv.
Qed.

Lemma adv_int v g : adv g (generate_int v g).2.
Proof. unfold generate_int. adv. eapply adv_trans; [|apply adv_chunks]. adv. Qed.

Lemma adv_expr e : arity_expr e = true → ∀ scope storage g, adv g (generate_expr e scope storage g).2.
Proof.
  induction e as [v|x|x|x k IHk|b f IHb|x fs IH|e1 op e2 IH1 IH2|x args IH] using expr_induction; intros Har scope storage g;
    cbn [generate_expr arity_expr] in *; (destruct (has_error g); [apply adv_refl|]).
  - apply adv_int.
  - adv.
  - adv.
  - specialize (IHk Har). adv.
  - specialize (IHb Har). adv.
  - rewrite forallb_forall in Har. rewrite Forall_forall in IH.
    assert (∀ f v, (f, v) ∈ fs → ∀ scope storage g, adv g (generate_expr v scope storage g).2) as Hfs.
    { intros f v Hin. apply (IH _ Hin (Har _ (proj1 (list_elem_of_In _ _) Hin))). }
    adv.
    + apply Forall_forall. intros [f v] Hin i g'. pose proof (Hfs f v Hin). adv.
    + intros g' [o v]. apply adv_emit.
  - apply andb_true_iff in Har as [Ha Hb]. specialize (IH1 Ha). specialize (IH2 Hb). adv.
    eapply adv_trans; [|apply adv_result]. adv.
  - apply andb_true_iff in Har as [Hx Har].
    assert (∀ e, e ∈ args → ∀ scope storage g, adv g (generate_expr e scope storage g).2) as Hargs.
    { intros e Hin. rewrite forallb_forall in Har. rewrite Forall_forall in IH. by apply IH, Har, list_elem_of_In. }
    clear IH Har. unfold arity in Hx. destruct (decide (x = "poseidon")).
    { destruct args as [|e1 [|e2 [|]]]; try done.
      pose proof (Hargs e1 ltac:(left)) as H1. pose proof (Hargs e2 ltac:(right; left)) as H2. clear Hargs.
      adv. eapply adv_trans; [|apply adv_result]. adv. }
    destruct (decide (x = "msg::sender")); [adv|]. destruct (decide (x = "msg::nonce")); [adv|].
    destruct (decide (x = "block::number")); [adv|]. destruct (decide (x = "verify_merkle_proof")).
    { destruct args as [|e1 [|e2 [|e3 [|]]]]; try done.
      pose proof (Hargs e1 ltac:(left)) as H3. pose proof (Hargs e2 ltac:(right; left)) as H4. clear Hargs. adv. }
    adv.
    + apply Forall_forall. intros e Hin i g'. by apply Hargs.
    + eapply adv_trans; [|apply adv_calls]. adv.
Qed.

(** *** Statements *)

(** A jump whose target is patched later. *)
Lemma jump_fine g op rs off s : fine g → Isa.is_experimental op = false →
  fine (set_next_reg (emit g op 0 rs 0 off) s) ∧ here (set_next_reg (emit g op 0 rs 0 off) s) = S (here g).
Proof.
  intros Hf Hop. destruct (adv_trans _ _ _ (adv_emit g op 0 rs 0 off) (adv_next _ s) Hf) as [? _]. split; [done|].
  change (here (emit g op 0 rs 0 off) = S (here g)). by rewrite here_emit.
Qed.

Lemma emit_fine g op rd rs1 rs2 off : fine g → Isa.is_experimental op = false →
  fine (emit g op rd rs1 rs2 off) ∧ here (emit g op rd rs1 rs2 off) = S (here g).
Proof. intros Hf Hop. destruct (adv_emit g op rd rs1 rs2 off Hf) as [? _]. split; [done|]. by rewrite here_emit. Qed.

Definition adv_at (gen : Scope → Codegen → Scope * Codegen) : Prop := ∀ scope g, adv g (gen scope g).2.

Lemma adv_block gen ss : Forall (λ s, adv_at (gen s)) ss → adv_at (block gen ss).
Proof.
  induction 1 as [|s ss Hs _ IH]; intros scope g; [apply adv_refl|]. cbn [block]. specialize (Hs scope g).
  destruct (gen s scope g) as [sc g1]. eapply adv_trans; [exact Hs|apply IH].
Qed.

Lemma adv_patches end_idx l : ∀ g, Forall (λ i, i < here g)%nat l → adv g (foldl (λ g idx, patch_jump g idx (rel end_idx idx)) g l).
Proof.
  induction l as [|i l IH]; intros g Hl; [apply adv_refl|]. cbn [foldl]. apply Forall_cons in Hl as [Hi Hl]. intros Hf.
  destruct (adv_patch g i (rel end_idx i) Hi Hf) as [Hf1 Hle]. destruct (IH (patch_jump g i (rel end_idx i))) as [? ?]; [|done|split; [done|lia]].
  eapply Forall_impl; [exact Hl|]. cbn beta. intros j. lia.
Qed.

(** The loop over the arms of a [match]. *)
Lemma adv_arms gen sr saved arms : Forall (λ a : MatchPattern * list Stmt, adv_at (block gen a.2)) arms → ∀ st,
  fine (arm_gen st) → Forall (λ i, i < here (arm_gen st))%nat (end_jumps st) →
  (∀ i, pending_skip st = Some i → (i < here (arm_gen st))%nat) →
  let st' := generate_arms gen sr saved arms st in
  fine (arm_gen st') ∧ (here (arm_gen st) ≤ here (arm_gen st'))%nat ∧ Forall (λ i, i < here (arm_gen st'))%nat (end_jumps st') ∧
  (∀ i, pending_skip st' = Some i → (i < here (arm_gen st'))%nat).
Proof.
  induction 1 as [|[p b] arms Hb _ IH]; intros st Hf Hends Hskip; [done|]. cbn [generate_arms].
  set (g1 := match pending_skip st with Some prev => _ | None => _ end).
  assert (fine g1 ∧ (here (arm_gen st) ≤ here g1)%nat) as [Hf1 Hle1].
  { unfold g1. destruct (pending_skip st) as [i|]; [apply adv_patch; auto|done]. }
  clearbody g1.
  assert (∃ skip g2, match p with
    | IntLit val =>
        let '(pat_reg, g) := alloc_reg g1 in
        let g := emit g Isa.Load pat_reg 0 0 (Isa.as_i32 val) in
        let '(diff_reg, g) := alloc_reg g in
        let g := emit g Isa.Sub diff_reg sr pat_reg 0 in
        let placeholder := here g in
        let g := emit g Isa.Jnz 0 diff_reg 0 0 in
        (Some placeholder, set_next_reg g saved)
    | Wildcard => (None, g1)
    end = (skip, g2) ∧ fine g2 ∧ (here g1 ≤ here g2)%nat ∧ ∀ i, skip = Some i → (i < here g2)%nat) as (skip&g2&E&Hf2&Hle2&Hsk2).
  { destruct p as [val|]; [cbv zeta|by exists None, g1].
    assert (adv g1 (alloc_reg g1).2) as H1 by apply adv_alloc. destruct (alloc_reg g1) as [pr g3]. cbn [snd] in H1.
    assert (adv g1 (alloc_reg (emit g3 Isa.Load pr 0 0 (Isa.as_i32 val))).2) as H2 by adv.
    destruct (alloc_reg (emit g3 Isa.Load pr 0 0 (Isa.as_i32 val))) as [dr g4]. cbn [snd] in H2.
    assert (adv g1 (emit g4 Isa.Sub dr sr pr 0)) as H3 by adv. destruct (H3 Hf1) as [Hf3 Hle3].
    destruct (jump_fine _ Isa.Jnz dr 0 saved Hf3 eq_refl) as [Hf4 Hh4].
    eexists _, _. split; [reflexivity|]. split; [exact Hf4|]. rewrite Hh4. split; [lia|]. intros i [= <-]. lia. }
  cbv zeta in E. rewrite E. specialize (Hb (arm_scope st) g2). cbn [snd] in Hb. destruct (block gen b (arm_scope st) g2) as [sc g3]. cbn [snd] in Hb.
  destruct (Hb Hf2) as [Hf3 Hle3]. destruct (jump_fine g3 Isa.Jmp 0 0 saved Hf3 eq_refl) as [Hf4 Hh4].
  destruct (IH (mkArmState skip (end_jumps st ++ [here g3]) sc (set_next_reg (emit g3 Isa.Jmp 0 0 0 0) saved))) as (H1&H2&H3&H4);
    cbn [arm_gen end_jumps pending_skip] in *.
  - done.
  - rewrite Hh4. apply Forall_app. split; [eapply Forall_impl; [exact Hends|]; cbn beta; intros; lia|]. constructor; [lia|done].
  - intros i Hi. apply Hsk2 in Hi. lia.
  - split_and!; try done. lia.
Qed.

Definition stmt_adv (s : Stmt) : Prop := arity_stmt s = true → ∀ storage, adv_at (generate_stmt s storage).

Lemma blocks_adv ss storage : Forall stmt_adv ss →
  forallb arity_stmt ss = true → Forall (λ s, adv_at (generate_stmt s storage)) ss.
Proof.
  intros H Har. rewrite forallb_forall in Har. rewrite Forall_forall in H |- *. intros s Hin. by apply H, Har, list_elem_of_In.
Qed.

Lemma adv_if c t e : Forall stmt_adv t → Forall stmt_adv (default [] e) → stmt_adv (SIf c t e).
Proof.
  intros IHt IHe Har storage scope g. cbn [generate_stmt arity_stmt] in *. destruct (has_error g); [apply adv_refl|]. cbv zeta.
  apply andb_true_iff in Har as [Har He]. apply andb_true_iff in Har as [Hc Ht]. intros Hf.
  pose proof (adv_expr c Hc scope storage g Hf) as Hg. destruct (generate_expr c scope storage g) as [cr g1]. cbn [snd] in Hg. destruct Hg as [Hf1 Hle1].
  destruct (jump_fine g1 Isa.Jnz cr 0 (next_reg g) Hf1 eq_refl) as [Hf2 Hh2].
  set (g2 := set_next_reg (emit g1 Isa.Jnz 0 cr 0 0) (next_reg g)) in *.
  assert (adv g2 (match e with Some eb => block (λ s, generate_stmt s storage) eb scope g2 | None => (scope, g2) end).2) as Hblk.
  { destruct e as [eb|]; [|apply adv_refl]. apply (adv_block (λ s, generate_stmt s storage)). by apply blocks_adv. }
  destruct (match e with Some eb => block (λ s, generate_stmt s storage) eb scope g2 | None => (scope, g2) end) as [sc g3].
  cbn [snd] in Hblk. destruct (Hblk Hf2) as [Hf3 Hle3].
  destruct (emit_fine g3 Isa.Jmp 0 0 0 0 Hf3 eq_refl) as [Hf4 Hh4]. set (g4 := emit g3 Isa.Jmp 0 0 0 0) in *.
  pose proof (adv_block (λ s, generate_stmt s storage) t (blocks_adv t storage IHt Ht) sc g4 Hf4) as Hb.
  destruct (block (λ s, generate_stmt s storage) t sc g4) as [sc' g5]. cbn [snd] in *. destruct Hb as [Hf5 Hle5].
  destruct (adv_patch g5 (here g1) (rel (here g4) (here g1)) ltac:(lia) Hf5) as [Hf6 Hle6].
  destruct (adv_patch _ (here g3) (rel (here g5) (here g3)) (Nat.lt_le_trans _ _ _ (ltac:(lia) : (here g3 < here g5)%nat) Hle6) Hf6) as [Hf7 Hle7].
  split; [exact Hf7|]. lia.
Qed.

Lemma adv_while c b : Forall stmt_adv b → stmt_adv (SWhile c b).
Proof.
  intros IHb Har storage scope g. cbn [generate_stmt arity_stmt] in *. destruct (has_error g); [apply adv_refl|]. cbv zeta.
  apply andb_true_iff in Har as [Hc Hb]. intros Hf.
  pose proof (adv_expr c Hc scope storage g Hf) as Hg. destruct (generate_expr c scope storage g) as [cr g1]. cbn [snd] in Hg. destruct Hg as [Hf1 Hle1].
  destruct (jump_fine g1 Isa.Jnz cr 0 (next_reg g) Hf1 eq_refl) as [Hf2 Hh2].
  set (g2 := set_next_reg (emit g1 Isa.Jnz 0 cr 0 0) (next_reg g)) in *.
  destruct (emit_fine g2 Isa.Jmp 0 0 0 0 Hf2 eq_refl) as [Hf3 Hh3]. set (g3 := emit g2 Isa.Jmp 0 0 0 0) in *.
  pose proof (adv_block (λ s, generate_stmt s storage) b (blocks_adv b storage IHb Hb) scope g3 Hf3) as Hblk.
  destruct (block (λ s, generate_stmt s storage) b scope g3) as [sc g4]. cbn [snd] in *. destruct Hblk as [Hf4 Hle4].
  destruct (emit_fine g4 Isa.Jmp 0 0 0 (rel (here g) (here g4)) Hf4 eq_refl) as [Hf5 Hh5].
  set (g5 := emit g4 Isa.Jmp 0 0 0 (rel (here g) (here g4))) in *.
  destruct (adv_patch g5 (here g1) (rel (here g3) (here g1)) ltac:(lia) Hf5) as [Hf6 Hle6].
  destruct (adv_patch _ (here g2) (rel (here g5) (here g2)) (Nat.lt_le_trans _ _ _ (ltac:(lia) : (here g2 < here g5)%nat) Hle6) Hf6) as [Hf7 Hle7].
  split; [exact Hf7|]. lia.
Qed.

Lemma adv_for x e1 e2 b : Forall stmt_adv b → stmt_adv (SFor x e1 e2 b).
Proof.
  intros IHb Har storage scope g. cbn [generate_stmt arity_stmt] in *. destruct (has_error g); [apply adv_refl|]. cbv zeta.
  apply andb_true_iff in Har as [Har Hb]. apply andb_true_iff in Har as [H1 H2]. intros Hf.
  pose proof (adv_expr e1 H1 scope storage g) as A1. destruct (generate_expr e1 scope storage g) as [r1 g1]. cbn [snd] in A1.
  pose proof (adv_trans _ _ _ A1 (adv_expr e2 H2 scope storage g1)) as A2. destruct (generate_expr e2 scope storage g1) as [r2 g2]. cbn [snd] in A2.
  pose proof (adv_trans _ _ _ A2 (adv_alloc g2)) as A3. destruct (alloc_reg g2) as [lr g3]. cbn [snd] in A3.
  set (g4 := set_next_reg (emit g3 Isa.Add lr r1 0 0) (lr + 1)).
  assert (adv g g4) as A4 by (unfold g4; adv). clearbody g4.
  pose proof (adv_trans _ _ _ A4 (adv_alloc g4)) as A5. destruct (alloc_reg g4) as [cr g5]. cbn [snd] in A5.
  assert (adv g (emit g5 Isa.Lt cr lr r2 0)) as A6 by adv. destruct (A6 Hf) as [Hf6 Hle6]. set (g6 := emit g5 Isa.Lt cr lr r2 0) in *.
  destruct (jump_fine g6 Isa.Jnz cr 0 (next_reg g4) Hf6 eq_refl) as [Hf7 Hh7].
  set (g7 := set_next_reg (emit g6 Isa.Jnz 0 cr 0 0) (next_reg g4)) in *.
  destruct (emit_fine g7 Isa.Jmp 0 0 0 0 Hf7 eq_refl) as [Hf8 Hh8]. set (g8 := emit g7 Isa.Jmp 0 0 0 0) in *.
  pose proof (adv_block (λ s, generate_stmt s storage) b (blocks_adv b storage IHb Hb) (<[x := mkVarInfo lr None]> scope) g8) as A9.
  destruct (block (λ s, generate_stmt s storage) b (<[x := mkVarInfo lr None]> scope) g8) as [sc g9]. cbn [snd] in A9.
  pose proof (adv_trans _ _ _ A9 (adv_alloc g9)) as A10. destruct (alloc_reg g9) as [one g10]. cbn [snd] in *.
  set (g11 := set_next_reg (emit (emit g10 Isa.Load one 0 0 1) Isa.Add lr lr one 0) (next_reg g4)).
  assert (adv g8 g11) as A11 by (unfold g11; adv). destruct (A11 Hf8) as [Hf11 Hle11]. clearbody g11.
  destruct (emit_fine g11 Isa.Jmp 0 0 0 (rel (here g4) (here g11)) Hf11 eq_refl) as [Hf12 Hh12].
  set (g12 := emit g11 Isa.Jmp 0 0 0 (rel (here g4) (here g11))) in *.
  destruct (adv_patch g12 (here g6) (rel (here g8) (here g6)) ltac:(lia) Hf12) as [Hf13 Hle13].
  destruct (adv_patch _ (here g7) (rel (here g12) (here g7)) (Nat.lt_le_trans _ _ _ (ltac:(lia) : (here g7 < here g12)%nat) Hle13) Hf13) as [Hf14 Hle14].
  destruct (adv_next _ (next_reg g) Hf14) as [Hf15 Hle15]. split; [exact Hf15|]. lia.
Qed.

Lemma adv_match e arms : Forall (λ a, Forall stmt_adv a.2) arms → stmt_adv (SMatch e arms).
Proof.
  intros IH Har storage scope g. cbn [generate_stmt arity_stmt] in *. destruct (has_error g); [apply adv_refl|]. cbv zeta.
  apply andb_true_iff in Har as [He Har]. intros Hf.
  pose proof (adv_expr e He scope storage g Hf) as Hg. destruct (generate_expr e scope storage g) as [sr g1]. cbn [snd] in *. destruct Hg as [Hf1 Hle1].
  destruct (adv_arms (λ s, generate_stmt s storage) sr (next_reg g) arms) with (st := mkArmState None [] scope (set_next_reg g1 (next_reg g)))
    as (Hf2&Hle2&Hends&Hskip).
  - rewrite forallb_forall in Har. rewrite Forall_forall in IH |- *. intros [p b] Hin.
    apply adv_block, blocks_adv; [exact (IH _ Hin)|]. apply (Har (p, b)), list_elem_of_In, Hin.
  - exact Hf1.
  - constructor.
  - done.
  - set (st := generate_arms _ _ _ _ _) in *. cbn [arm_gen] in Hle2. change (here (set_next_reg g1 (next_reg g))) with (here g1) in Hle2.
    destruct (adv_patches (here (arm_gen st)) (end_jumps st ++ match pending_skip st with Some l => [l] | None => [] end) (arm_gen st)) as [Hf3 Hle3].
    + apply Forall_app. split; [done|]. destruct (pending_skip st) as [i|]; [|constructor]. constructor; [by apply Hskip|constructor].
    + done.
    + split; [exact Hf3|]. lia.
Qed.

Lemma adv_stmt s : stmt_adv s.
Proof.
  induction s as [x e|e|x e|x e|x k e|c t e IHt IHe|c b IHb|x e1 e2 b IHb|e|x args|e arms IH|e] using stmt_induction;
    [..|by apply adv_if|by apply adv_while|by apply adv_for| | |by apply adv_match|];
    intros Har storage scope g; cbn [generate_stmt arity_stmt] in *; (destruct (has_error g); [apply adv_refl|]); cbv zeta.
  - pose proof (adv_expr e Har). adv.
  - pose proof (adv_expr e Har). adv.
  - pose proof (adv_expr e Har). adv.
  - pose proof (adv_expr e Har). adv.
  - apply andb_true_iff in Har as [Hk He]. pose proof (adv_expr k Hk) as H1. pose proof (adv_expr e He) as H2. adv.
  - destruct e as [e|]; [pose proof (adv_expr e Har)|]; adv.
  - adv. apply Forall_forall. intros e Hin i g'. rewrite forallb_forall in Har.
    pose proof (adv_expr e (Har e (proj1 (list_elem_of_In _ _) Hin))). adv.
  - pose proof (adv_expr e Har). adv.
Qed.

Lemma adv_function f c g : forallb arity_stmt (body f) = true → adv g (generate_function g f c).
Proof.
  intros Har. unfold generate_function. destruct (has_error g); [apply adv_refl|]. cbv zeta.
  assert (∀ scope g', adv g' (block (λ s, generate_stmt s (storage_map (storage c))) (body f) scope g').2) as Hb.
  { apply adv_block, blocks_adv; [|done]. apply Forall_forall. intros s _. apply adv_stmt. }
  adv; [|eapply adv_trans; [|apply Hb]; adv]; apply Forall_forall; intros ? _ ? ?; apply adv_alloc.
Qed.

Lemma adv_functions c fs : forallb (λ f, forallb arity_stmt (body f)) fs = true → ∀ offs g,
  adv g (foldl (generate_functions c) (offs, g) fs).2.
Proof.
  intros Har. induction fs as [|f fs IH]; intros offs g; [apply adv_refl|]. cbn [foldl generate_functions forallb] in *.
  apply andb_true_iff in Har as [Hf Har]. eapply adv_trans; [by apply adv_function|by apply IH].
Qed.

Lemma patch_calls_fine offs l : ∀ g, panicked g = false → Forall (λ u, u.1 < here g)%nat l →
  panicked (foldl (patch_call offs) g l) = false.
Proof.
  induction l as [|u l IH]; intros g Hp Hl; [done|]. cbn [foldl]. apply Forall_cons in Hl as [Hu Hl].
  assert (fine (set_calls g [])) as Hf by (split; [done|constructor]).
  assert (panicked (patch_call offs g u) = false ∧ (here g ≤ here (patch_call offs g u))%nat) as [Hp1 Hle].
  { unfold patch_call. destruct (offs !! u.2) as [i|]; [|done]. unfold patch_jump. destruct (has_error g); [done|].
    destruct (lookup_lt_is_Some_2 (instructions g) u.1 Hu) as [raw ->]. destruct (Isa.decode_any raw).
    - split; [done|]. unfold here. simpl. by rewrite length_insert.
    - unfold raise. by destruct (error g). }
  apply IH; [done|]. eapply Forall_impl; [exact Hl|]. cbn beta. intros v. lia.
Qed.

Lemma generate_returns c p : arity_contract c = true → ∃ r, generate (new_with_profile p) c = Some r.
Proof.
  intros Har. unfold generate. cbv zeta.
  set (g0 := emit (register_tables (new_with_profile p) c) Isa.Load 31 0 0 HEAP_BASE).
  assert (fine g0) as Hf0 by (apply adv_emit; split; [done|constructor]). clearbody g0.
  destruct (emit_fine g0 Isa.Call 0 0 0 0 Hf0 eq_refl) as [Hf1 Hh1]. set (g1 := emit g0 Isa.Call 0 0 0 0) in *.
  destruct (emit_fine g1 Isa.Halt 0 0 0 0 Hf1 eq_refl) as [Hf2 Hh2]. set (g2 := emit g1 Isa.Halt 0 0 0 0) in *.
  pose proof (adv_functions c _ Har ∅ g2 Hf2) as Hg. destruct (foldl (generate_functions c) (∅, g2) (functions c)) as [offs g3].
  cbn [snd] in Hg. destruct Hg as [Hf3 Hle3].
  set (g4 := match offs !! "main" with Some _ => _ | None => _ end).
  assert (fine g4) as [Hp4 Hc4].
  { unfold g4. destruct (offs !! "main"); [apply adv_patch; [lia|done]|by apply adv_error]. }
  rewrite (patch_calls_fine offs (unpatched_calls g4) (set_calls g4 [])) by done. by eexists.
Qed.

End NoPanic.

(** ** The type system *)
Module Typing.
Import Sema Arity.

Section rules.
Context (a : SemanticAnalyzer).

(** A type all of whose structs are declared. *)
Fixpoint resolved (ty : Ty) : Prop :=
  match ty with
  | TyUnknown => False
  | TyStruct s => is_Some (structs a !! s)
  | TyMap k v => resolved k ∧ resolved v
  | _ => True
  end.

(** A value that a branch can test. *)
Definition testable (ty : Ty) : Prop := is_struct_or_void ty = false.

(** A value the operator can compute with. *)
Definition operand_ok (op : BinOp) (ty : Ty) : Prop :=
  is_struct_or_void ty = false ∧ is_opaque_bytes32 ty = false ∧ (op = BDiv → ty ≠ TyU64).

Inductive typed (env : Env) : Expr → Ty → Prop :=
  | T_Int v : typed env (EInt v) TyU64
  | T_Ident x ty : env !! x = Some ty → typed env (EIdent x) ty
  | T_Storage x : typed env (EStorageRead x) TyU64
  | T_Mapping x k kt vt : storage a !! x = Some (TyMap kt vt) → typed env k kt → typed env (EMappingRead x k) vt
  | T_Field b f s fs ty : typed env b (TyStruct s) → structs a !! s = Some fs → fs !! f = Some ty →
      typed env (EFieldAccess b f) ty
  | T_Struct x fs sfs : structs a !! x = Some sfs → NoDup fs.*1 → (∀ f, is_Some (sfs !! f) → f ∈ fs.*1) →
      Forall (λ p, ∃ ty, sfs !! p.1 = Some ty ∧ typed env p.2 ty) fs → typed env (EStructLiteral x fs) (TyStruct x)
  | T_Call x args ps rt : functions a !! x = Some (ps, rt) → Forall2 (typed env) args ps → typed env (ECall x args) rt
  | T_Binary l op r ty : typed env l ty → typed env r ty → (computes op = true → operand_ok op ty) →
      typed env (EBinary l op r) (if compares op then TyBool else ty).

Inductive checks : Env → Stmt → Env → Prop :=
  | C_Let env x e ty : typed env e ty → checks env (SLet x e) (<[x := ty]> env)
  | C_Constrain env e ty : typed env e ty → testable ty → checks env (SConstrain e) env
  | C_Assign env x e ty : env !! x = Some ty → typed env e ty → checks env (SAssign x e) env
  | C_Write env x e ty : typed env e ty → checks env (SStorageWrite x e) env
  | C_MapWrite env x k e kt vt : storage a !! x = Some (TyMap kt vt) → typed env k kt → typed env e vt →
      checks env (SMappingWrite x k e) env
  | C_If env c t e ty env1 env2 : typed env c ty → testable ty → checks_all env t env1 → checks_all env1 (default [] e) env2 →
      checks env (SIf c t e) env2
  | C_While env c b ty env1 : typed env c ty → testable ty → checks_all env b env1 → checks env (SWhile c b) env1
  | C_For env x e1 e2 b t1 t2 env1 : typed env e1 t1 → typed env e2 t2 → checks_all (<[x := TyU64]> env) b env1 →
      checks env (SFor x e1 e2 b) env
  | C_Return env e : match e with Some e => typed env e (current_func_ret a) | None => current_func_ret a = TyVoid end →
      checks env (SReturn e) env
  | C_Emit env x args : Forall (λ e, ∃ ty, typed env e ty) args → checks env (SEmit x args) env
  | C_Match env e arms ty : typed env e ty → ty = TyU64 ∨ ty = TyBool →
      Forall (λ arm, ∃ env1, checks_all env arm.2 env1) arms → checks env (SMatch e arms) env
  | C_Expr env e ty : typed env e ty → checks env (SExpr e) env
with checks_all : Env → list Stmt → Env → Prop :=
  | C_Nil env : checks_all env [] env
  | C_Cons env s ss env1 env2 : checks env s env1 → checks_all env1 ss env2 → checks_all env (s :: ss) env2.
End rules.

(** A type name that means something in [c]. *)
Definition names_type (c : Contract) (s : string) : Prop := ∃ ty, from_str s = Ok ty ∧ resolved (declared c) ty.

Definition well_typed_function (c : Contract) (f : Function) : Prop :=
  Forall (names_type c) (p_ty <$> params f) ∧ (∀ r, return_type f = Some r → names_type c r) ∧
  ∃ env, checks_all (set_ret (declared c) (return_of f)) (params_env f) (body f) env.

Definition well_typed (c : Contract) : Prop :=
  Forall (names_type c) (f_ty <$> Ast.storage c) ∧
  Forall (λ s, Forall (names_type c) (f_ty <$> fields s)) (Ast.structs c) ∧
  Forall (well_typed_function c) (Ast.functions c).

End Typing.

(** ** The analyzer decides the rules *)
Module TypingLemmas.
Import Sema Typing Arity.

Lemma err_if_nil b e : err_if b e = [] ↔ b = false.
Proof. by destruct b. Qed.

Lemma differ_false x y : x ≠ TyUnknown → y ≠ TyUnknown → differ x y = false ↔ x = y.
Proof.
  intros Hx Hy. unfold differ. rewrite (bool_decide_false (x = TyUnknown)), (bool_decide_false (y = TyUnknown)) by done.
  rewrite !andb_true_r, negb_false_iff. apply bool_decide_eq_true.
Qed.

Section context.
Context (a : SemanticAnalyzer).
Hypothesis Hstorage : ∀ x ty, storage a !! x = Some ty → resolved a ty.
Hypothesis Hstructs : ∀ s fs f ty, structs a !! s = Some fs → fs !! f = Some ty → resolved a ty.
Hypothesis Hfunctions : ∀ f ps rt, functions a !! f = Some (ps, rt) → Forall (resolved a) ps ∧ resolved a rt.

Definition env_ok (env : Env) : Prop := ∀ x ty, env !! x = Some ty → resolved a ty.

Lemma resolved_known ty : resolved a ty → ty ≠ TyUnknown.
Proof. by intros H ->. Qed.

Lemma typed_resolved env e ty : env_ok env → typed a env e ty → resolved a ty.
Proof.
  intros Henv. induction 1 as [| | | |b f s fs ty Hb IHb Hs Hf|x fs sfs Hx| |l op r ty Hl IHl Hr IHr Hop]; simpl; try done.
  - by eapply Henv.
  - by eapply Hstorage in H as [_ ?].
  - by eapply Hstructs.
  - by eapply Hfunctions.
  - by destruct (compares op).
Qed.

Lemma duplicates_nil name l : ∀ seen, duplicates name seen l = [] ↔ NoDup l ∧ ∀ f, f ∈ l → f ∉ seen.
Proof.
  induction l as [|f l IH]; intros seen; cbn [duplicates].
  - split; [|done]. intros _. split; [constructor|]. intros f Hf. by apply not_elem_of_nil in Hf.
  - rewrite app_nil_iff, err_if_nil, bool_decide_eq_false, IH, NoDup_cons. set_solver.
Qed.

Lemma missing_nil name sfs given : check_missing name sfs given = [] ↔ ∀ f, is_Some (sfs !! f) → f ∈ given.
Proof.
  unfold check_missing. rewrite concat_nil_iff, Forall_fmap, Forall_forall. split.
  - intros H f [ty Hf]. specialize (H f). cbn [compose] in H. unfold compose in H.
    rewrite err_if_nil, negb_false_iff, bool_decide_eq_true in H. apply H.
    apply list_elem_of_fmap. exists (f, ty). split; [done|]. by apply elem_of_map_to_list.
  - intros H f Hf. unfold compose. rewrite err_if_nil, negb_false_iff, bool_decide_eq_true. apply H.
    apply list_elem_of_fmap in Hf as ([g ty]&->&Hf). apply elem_of_map_to_list in Hf. by exists ty.
Qed.

Lemma init_nil sfs f ty : ty ≠ TyUnknown → check_init sfs f ty = [] ↔ sfs !! f = Some ty.
Proof.
  intros Hty. unfold check_init. destruct (sfs !! f) as [u|]; [|done].
  rewrite err_if_nil, (bool_decide_false (ty = TyUnknown)) by done. rewrite andb_true_r, negb_false_iff, bool_decide_eq_true.
  split; [by intros ->|by intros [= ->]].
Qed.

Lemma operand_nil op ty : ty ≠ TyUnknown → check_operand op ty = [] ↔ operand_ok op ty.
Proof.
  intros Hty. unfold check_operand, operand_ok. rewrite !app_nil_iff, !err_if_nil, (bool_decide_false (ty = TyUnknown)) by done.
  rewrite andb_true_r, andb_false_iff, !bool_decide_eq_false. destruct (decide (op = BDiv)); naive_solver.
Qed.

Lemma binary_nil op l r : l ≠ TyUnknown → r ≠ TyUnknown →
  check_binary op l r = [] ↔ l = r ∧ (computes op = true → operand_ok op l).
Proof.
  intros Hl Hr. unfold check_binary. rewrite app_nil_iff, err_if_nil, differ_false by done.
  destruct (computes op); [rewrite app_nil_iff, !operand_nil by done|]; naive_solver.
Qed.

Lemma args_nil name ps ts n : Forall (λ t, t ≠ TyUnknown) ps → Forall (λ t, t ≠ TyUnknown) ts → length ts = n →
  check_args name ps ts n = [] ↔ ts = ps.
Proof.
  intros Hps Hts Hn. unfold check_args. destruct (Nat.eqb_spec (length ps) n) as [Hlen|Hlen]; cbn [negb].
  - rewrite concat_nil_iff. rewrite Forall_lookup. split.
    + intros H. apply list_eq_same_length with (n := n); [done|done|]. intros i t p Hi Ht Hp.
      specialize (H i). rewrite list_lookup_imap in H. assert (zip ps ts !! i = Some (p, t)) as Hz by (by apply lookup_zip_Some).
      rewrite Hz in H. specialize (H _ eq_refl). cbn beta iota in H. rewrite err_if_nil, differ_false in H; [done|..].
      * by eapply Forall_lookup_1 in Hps.
      * by eapply Forall_lookup_1 in Hts.
    + intros -> i x Hx. rewrite list_lookup_imap in Hx. destruct (zip ps ps !! i) as [[p t]|] eqn:Hz; [|done].
      apply lookup_zip_Some in Hz as [Hp Ht]. rewrite Hp in Ht. injection Ht as <-. injection Hx as <-.
      apply err_if_nil. unfold differ. by rewrite bool_decide_true by done.
  - split; [done|]. intros ->. by destruct Hlen.
Qed.

(** An expression is analyzed without errors exactly when it has a type, and
    then the analyzer returns it. *)
Definition decides (env : Env) (e : Expr) : Prop :=
  ((analyze_expr a e env).2 = [] → typed a env e (analyze_expr a e env).1) ∧
  ∀ ty, typed a env e ty → analyze_expr a e env = (ty, []).

Lemma decides_args env args : env_ok env → Forall (decides env) args → ∀ ts,
  Forall2 (typed a env) args ts ↔
  concat ((map (λ arg, analyze_expr a arg env) args).*2) = [] ∧ (map (λ arg, analyze_expr a arg env) args).*1 = ts.
Proof.
  intros Henv. induction 1 as [|e args [He1 He2] _ IH]; intros ts; cbn [map fmap list_fmap concat].
  - split; [by intros ->%Forall2_nil_inv_l|intros [_ <-]; constructor].
  - rewrite app_nil_iff. split.
    + intros H. apply Forall2_cons_inv_l in H as (ty&ts'&Hty&Hts&->). rewrite (He2 _ Hty). cbn [fst snd].
      apply IH in Hts as [? ->]. done.
    + intros [[H1 H2] <-]. constructor; [by apply He1|by apply IH].
Qed.

Lemma expr_decides env e : env_ok env → decides env e.
Proof.
  intros Henv. induction e as [v|x|x|x k [IH1 IH2]|b f [IH1 IH2]|x fs IH|e1 op e2 [IHl1 IHl2] [IHr1 IHr2]|x args IH] using expr_induction;
    unfold decides; cbn [analyze_expr].
  - split; [intros _; constructor|]. intros ty H. by inversion H.
  - destruct (env !! x) as [ty|] eqn:Hx; split.
    + intros _. by constructor.
    + intros ty' H. inversion H; subst. congruence.
    + done.
    + intros ty' H. inversion H; subst. congruence.
  - split; [intros _; constructor|]. intros ty H. by inversion H.
  - unfold mapping_access_type. destruct (analyze_expr a k env) as [kt errs]. cbn [fst snd] in *. unfold mapping_types. split.
    + destruct (storage a !! x) as [sty|] eqn:Hx; [|by intros [_ ?]%app_nil_iff]. destruct sty; try (by intros [_ ?]%app_nil_iff).
      cbn [fst snd]. intros [-> [_ Hd%err_if_nil]%app_nil_iff]%app_nil_iff. specialize (IH1 eq_refl).
      pose proof (Hstorage _ _ Hx) as [Hk Hv]. apply differ_false in Hd as <-; [|by eapply resolved_known|].
      * by eapply T_Mapping.
      * by eapply resolved_known, typed_resolved.
    + intros ty H. inversion H as [| | |x' k' kt' vt' Hst Hkt| | | |]; subst. rewrite Hst. injection (IH2 _ Hkt) as -> ->. cbn [app].
      pose proof (Hstorage _ _ Hst) as [Hk Hv]. rewrite (proj2 (err_if_nil _ _)); [done|].
      by apply differ_false; [by eapply resolved_known..|].
  - destruct (analyze_expr a b env) as [bt errs]. cbn [fst snd] in *. split.
    + destruct bt; try (by intros [_ ?]%app_nil_iff).
      * destruct (structs a !! name) as [fs|] eqn:Hs.
        -- destruct (fs !! f) as [ty|] eqn:Hf; [|by intros [_ ?]%app_nil_iff]. cbn [fst snd]. intros ->. by eapply T_Field; [by apply IH1|..].
        -- cbn [fst snd]. intros ->. specialize (IH1 eq_refl). apply typed_resolved in IH1; [|done]. simpl in IH1. rewrite Hs in IH1. by destruct IH1.
      * cbn [fst snd]. intros ->. specialize (IH1 eq_refl). by apply typed_resolved in IH1.
    + intros ty H. inversion H as [| | | |b' f' s fs ty' Hb Hs Hf| | |]; subst. injection (IH2 _ Hb) as -> ->. by rewrite Hs, Hf.
  - destruct (structs a !! x) as [sfs|] eqn:Hx; cbn [fst snd]; split; try done.
    + intros [H1 [H2 H3]%app_nil_iff]%app_nil_iff. rewrite concat_nil_iff in H1. rewrite missing_nil in H2. rewrite duplicates_nil in H3.
      eapply T_Struct; [exact Hx|by apply H3|done|]. rewrite Forall_forall in IH. rewrite Forall_forall in H1. apply Forall_forall. intros [f v] Hin.
      specialize (H1 _ (list_elem_of_fmap_2 _ _ _ Hin)). destruct (IH _ Hin) as [Hv _]. cbn [fst snd] in *.
      destruct (analyze_expr a v env) as [ty errs]. apply app_nil_iff in H1 as [-> H1]. specialize (Hv eq_refl).
      exists ty. split; [|done]. apply init_nil in H1; [done|]. by eapply resolved_known, typed_resolved.
    + intros ty H. inversion H as [| | | | |x' fs' sfs' Hx' Hnd Hall Hfs| |]; subst. rewrite Hx in Hx'. injection Hx' as <-. f_equal.
      apply app_nil_iff. split; [|apply app_nil_iff; split; [by apply missing_nil|]].
      * apply concat_nil_iff, Forall_fmap, Forall_forall. intros [f v] Hin. rewrite Forall_forall in IH. rewrite Forall_forall in Hfs.
        destruct (Hfs _ Hin) as (ty&Hf&Hty). destruct (IH _ Hin) as [_ Hv]. cbn [fst snd] in *. unfold compose. rewrite (Hv _ Hty).
        apply app_nil_iff. split; [done|]. apply init_nil; [by eapply resolved_known, typed_resolved|done].
      * apply duplicates_nil. split; [done|]. set_solver.
    + intros ty H. inversion H; subst. congruence.
  - destruct (analyze_expr a e1 env) as [lt errs1], (analyze_expr a e2 env) as [rt errs2]. cbn [fst snd] in *. split.
    + intros [-> [-> H]%app_nil_iff]%app_nil_iff. specialize (IHl1 eq_refl). specialize (IHr1 eq_refl).
      apply binary_nil in H as [-> Hop]; [|by eapply resolved_known, typed_resolved..]. by constructor.
    + intros ty H. inversion H as [| | | | | | |l op' r ty' Hl Hr Hop]; subst. injection (IHl2 _ Hl) as -> ->. injection (IHr2 _ Hr) as -> ->. cbn [app].
      rewrite (proj2 (binary_nil op ty' ty' (resolved_known _ (typed_resolved _ _ _ Henv Hl)) (resolved_known _ (typed_resolved _ _ _ Henv Hl)))); done.
  - pose proof (decides_args env args Henv IH) as Hargs. set (rs := map (λ arg, analyze_expr a arg env) args) in *. split.
    + destruct (functions a !! x) as [[ps rt]|] eqn:Hx; [|by intros [_ ?]%app_nil_iff]. cbn [fst snd]. intros [H1 H2]%app_nil_iff.
      destruct (Hargs rs.*1) as [_ Hts]. specialize (Hts (conj H1 eq_refl)). eapply T_Call; [exact Hx|].
      apply args_nil in H2 as <-; [done|..].
      * destruct (Hfunctions _ _ _ Hx) as [Hps _]. eapply Forall_impl; [exact Hps|]. apply resolved_known.
      * clear -Hts Henv Hstorage Hstructs Hfunctions. induction Hts; constructor; [by eapply resolved_known, typed_resolved|done].
      * unfold rs. by rewrite length_fmap, length_map.
    + intros ty H. inversion H as [| | | | | |x' args' ps rt Hfn Hts|]; subst. rewrite Hfn. apply Hargs in Hts as [-> Hps]. cbn [app].
      destruct (Hfunctions _ _ _ Hfn) as [Hk _]. f_equal. apply args_nil; [..|done].
      * eapply Forall_impl; [exact Hk|]. apply resolved_known.
      * rewrite Hps. eapply Forall_impl; [exact Hk|]. apply resolved_known.
      * unfold rs. by rewrite length_fmap, length_map.
Qed.

(** The same for statements; the bindings stay resolved. *)
Hypothesis Hret : resolved a (current_func_ret a).

Definition decides_by {A} (run : A → Env → Env * list SemMsg) (rule : Env → A → Env → Prop) (s : A) : Prop := ∀ env, env_ok env →
  ((run s env).2 = [] → rule env s (run s env).1 ∧ env_ok (run s env).1) ∧ ∀ env', rule env s env' → run s env = (env', []).

Notation stmt_decides := (decides_by (analyze_stmt a) (checks a)).
Notation block_decides := (decides_by (analyze_block (analyze_stmt a)) (checks_all a)).

Lemma block_decides_all ss : Forall stmt_decides ss → block_decides ss.
Proof.
  induction 1 as [|s ss Hs _ IH]; intros env Henv; cbn [analyze_block].
  - split; [intros _; split; [constructor|done]|]. intros env' H. by inversion H.
  - destruct (Hs env Henv) as [H1 H2]. destruct (analyze_stmt a s env) as [env1 errs] eqn:E. cbn [fst snd] in *. split.
    + destruct (analyze_block (analyze_stmt a) ss env1) as [env2 errs'] eqn:E2. cbn [fst snd]. intros [-> ->]%app_nil_iff.
      destruct (H1 eq_refl) as [Hc Hok]. destruct (IH env1 Hok) as [H3 _]. rewrite E2 in H3. destruct (H3 eq_refl) as [Hcs Hok2].
      split; [by eapply C_Cons|done].
    + intros env' H. inversion H as [|env0 s' ss' env3 env4 Hc Hcs]; subst. injection (H2 _ Hc) as -> ->.
      destruct (H1 eq_refl) as [_ Hok]. by rewrite (proj2 (IH env3 Hok) _ Hcs).
Qed.

Lemma condition_nil ty ctx : check_condition_type ty ctx = [] ↔ testable ty.
Proof. apply err_if_nil. Qed.

(** Reading off the type of an expression. *)
Ltac read e env Henv H1 H2 :=
  destruct (expr_decides env e Henv) as [H1 H2]; let E := fresh "E" in destruct (analyze_expr a e env) as [? ?] eqn:E; cbn [fst snd] in *.

Lemma access_decides env x k : env_ok env →
  ((mapping_access_type a x (analyze_expr a k env)).2 = [] → ∃ kt, storage a !! x = Some (TyMap kt (mapping_access_type a x (analyze_expr a k env)).1) ∧ typed a env k kt) ∧
  ∀ kt vt, storage a !! x = Some (TyMap kt vt) → typed a env k kt → mapping_access_type a x (analyze_expr a k env) = (vt, []).
Proof.
  intros Henv. destruct (expr_decides env (EMappingRead x k) Henv) as [H1 H2]. cbn [analyze_expr] in *. split.
  - intros H. specialize (H1 H). inversion H1; subst. eauto.
  - intros kt vt Hx Hk. apply H2. by eapply T_Mapping.
Qed.

Lemma if_decides c t e env : Forall stmt_decides t → Forall stmt_decides (default [] e) → env_ok env →
  ((analyze_stmt a (SIf c t e) env).2 = [] → checks a env (SIf c t e) (analyze_stmt a (SIf c t e) env).1 ∧ env_ok (analyze_stmt a (SIf c t e) env).1) ∧
  ∀ env', checks a env (SIf c t e) env' → analyze_stmt a (SIf c t e) env = (env', []).
Proof.
  intros IHt IHe Henv. cbn [analyze_stmt]. read c env Henv H1 H2.
  destruct (block_decides_all t IHt env Henv) as [H3 H4]. destruct (analyze_block (analyze_stmt a) t env) as [env1 errs1]. cbn [fst snd] in *.
  assert (match e with Some eb => analyze_block (analyze_stmt a) eb env1 | None => (env1, []) end =
    analyze_block (analyze_stmt a) (default [] e) env1) as -> by (by destruct e).
  split.
  - pose proof (block_decides_all _ IHe env1) as H5. destruct (analyze_block (analyze_stmt a) (default [] e) env1) as [env2 errs2]. cbn [fst snd].
    intros [-> [Hc%condition_nil [-> ->]%app_nil_iff]%app_nil_iff]%app_nil_iff. destruct (H3 eq_refl) as [Ht Hok].
    destruct (H5 Hok) as [H6 _]. destruct (H6 eq_refl) as [He Hok2]. split; [|done]. by eapply C_If; [by apply H1|..].
  - intros env' H. inversion H as [| | | | |env0 c' t' e' ty env3 env4 Hty Htest Ht He| | | | | |]; subst.
    injection (H2 _ Hty) as -> ->. injection (H4 _ Ht) as -> ->. destruct (H3 eq_refl) as [_ Hok].
    rewrite (proj2 (block_decides_all _ IHe env3 Hok) _ He). by rewrite (proj2 (condition_nil _ _) Htest).
Qed.

Lemma while_decides c b env : Forall stmt_decides b → env_ok env →
  ((analyze_stmt a (SWhile c b) env).2 = [] → checks a env (SWhile c b) (analyze_stmt a (SWhile c b) env).1 ∧ env_ok (analyze_stmt a (SWhile c b) env).1) ∧
  ∀ env', checks a env (SWhile c b) env' → analyze_stmt a (SWhile c b) env = (env', []).
Proof.
  intros IHb Henv. cbn [analyze_stmt]. read c env Henv H1 H2.
  destruct (block_decides_all b IHb env Henv) as [H3 H4]. destruct (analyze_block (analyze_stmt a) b env) as [env1 errs1]. cbn [fst snd] in *. split.
  - intros [-> [Hc%condition_nil ->]%app_nil_iff]%app_nil_iff. destruct (H3 eq_refl) as [Hb Hok]. split; [|done]. by eapply C_While; [by apply H1|..].
  - intros env' H. inversion H as [| | | | | |env0 c' b' ty env3 Hty Htest Hb| | | | |]; subst.
    injection (H2 _ Hty) as -> ->. injection (H4 _ Hb) as -> ->. by rewrite (proj2 (condition_nil _ _) Htest).
Qed.

Lemma for_decides x e1 e2 b env : Forall stmt_decides b → env_ok env →
  ((analyze_stmt a (SFor x e1 e2 b) env).2 = [] → checks a env (SFor x e1 e2 b) env ∧ env_ok env) ∧
  ∀ env', checks a env (SFor x e1 e2 b) env' → analyze_stmt a (SFor x e1 e2 b) env = (env', []).
Proof.
  intros IHb Henv. cbn [analyze_stmt]. read e1 env Henv H1 H2. read e2 env Henv H3 H4.
  assert (env_ok (<[x := TyU64]> env)) as Hok by (intros y ty [[<- <-]|[_ Hy]]%lookup_insert_Some; [done|by eapply Henv]).
  destruct (block_decides_all b IHb _ Hok) as [H5 H6]. destruct (analyze_block (analyze_stmt a) b (<[x := TyU64]> env)) as [env1 errs1]. cbn [fst snd] in *. split.
  - intros [-> [-> ->]%app_nil_iff]%app_nil_iff. destruct (H5 eq_refl) as [Hb _]. split; [|done]. by eapply C_For; [by apply H1|by apply H3|].
  - intros env' H. inversion H as [| | | | | | |env0 x' e1' e2' b' t1 t2 env3 Ht1 Ht2 Hb| | | |]; subst.
    injection (H2 _ Ht1) as -> ->. injection (H4 _ Ht2) as -> ->. by injection (H6 _ Hb) as -> ->.
Qed.

Lemma return_decides e env : env_ok env →
  ((analyze_stmt a (SReturn e) env).2 = [] → checks a env (SReturn e) (analyze_stmt a (SReturn e) env).1 ∧ env_ok (analyze_stmt a (SReturn e) env).1) ∧
  ∀ env', checks a env (SReturn e) env' → analyze_stmt a (SReturn e) env = (env', []).
Proof.
  intros Henv. cbn [analyze_stmt]. destruct e as [e|].
  - read e env Henv H1 H2. split.
    + intros [-> H%err_if_nil]%app_nil_iff. specialize (H1 eq_refl). apply differ_false in H as ->;
        [|by eapply resolved_known, typed_resolved|by eapply resolved_known]. split; [by constructor|done].
    + intros env' H. inversion H as [| | | | | | | |env0 e' Hty| | |]; subst. injection (H2 _ Hty) as -> ->.
      cbn [app]. f_equal. apply err_if_nil. unfold differ. by rewrite bool_decide_true.
  - cbn [fst snd app]. split.
    + intros H%err_if_nil. apply differ_false in H; [|done|by eapply resolved_known]. split; [by constructor|done].
    + intros env' H. inversion H as [| | | | | | | |env0 e' Hty| | |]; subst. f_equal. apply err_if_nil. unfold differ. by rewrite Hty.
Qed.

Lemma match_decides e arms env : Forall (λ arm, Forall stmt_decides arm.2) arms → env_ok env →
  ((analyze_stmt a (SMatch e arms) env).2 = [] → checks a env (SMatch e arms) (analyze_stmt a (SMatch e arms) env).1 ∧ env_ok (analyze_stmt a (SMatch e arms) env).1) ∧
  ∀ env', checks a env (SMatch e arms) env' → analyze_stmt a (SMatch e arms) env = (env', []).
Proof.
  intros IH Henv. cbn [analyze_stmt]. read e env Henv H1 H2. rewrite Forall_forall in IH.
  assert (∀ ty, err_if (negb (bool_decide (ty = TyU64)) && negb (bool_decide (ty = TyBool))) (MatchScrutinee ty) = [] ↔ ty = TyU64 ∨ ty = TyBool) as Hscr.
  { intros ty. rewrite err_if_nil, andb_false_iff, !negb_false_iff, !bool_decide_eq_true. done. }
  assert (∀ p b, (p, b) ∈ arms → block_decides b) as Hb by (intros p b Hin; apply block_decides_all; exact (IH _ Hin)). split.
  - intros [-> [Ht%Hscr Harms%concat_nil_iff]%app_nil_iff]%app_nil_iff. split; [|done]. eapply C_Match; [by apply H1|done|].
    rewrite Forall_forall in Harms. apply Forall_forall. intros [p b] Hin.
    specialize (Harms _ (list_elem_of_fmap_2 (λ '(_, body), (analyze_block (analyze_stmt a) body env).2) _ _ Hin)).
    eexists. by apply (Hb p b Hin env Henv).
  - intros env' H. inversion H as [| | | | | | | | | |env0 e' arms' ty Hty Ht Harms|]; subst. injection (H2 _ Hty) as -> ->. cbn [app].
    rewrite (proj2 (Hscr ty) Ht). cbn [app]. f_equal. apply concat_nil_iff, Forall_fmap, Forall_forall. intros [p b] Hin.
    rewrite Forall_forall in Harms. destruct (Harms _ Hin) as [env1 Hc]. unfold compose.
    by rewrite (proj2 (Hb p b Hin env' Henv) _ Hc).
Qed.

Lemma stmt_decides_all s : stmt_decides s.
Proof.
  induction s as [x e|e|x e|x e|x k e|c t e IHt IHe|c b IHb|x e1 e2 b IHb|e|x args|e arms IH|e] using stmt_induction;
    intros env Henv; cbn [analyze_stmt].
  - read e env Henv H1 H2. split.
    + intros ->. specialize (H1 eq_refl). split; [by constructor|]. intros y ty [[<- <-]|[_ Hy]]%lookup_insert_Some; [|by eapply Henv].
      by eapply typed_resolved.
    + intros env' H. inversion H as [env0 x' e' ty Hty| | | | | | | | | | |]; subst. by injection (H2 _ Hty) as -> ->.
  - read e env Henv H1 H2. split.
    + intros [-> H%condition_nil]%app_nil_iff. split; [by econstructor; [by apply H1|]|done].
    + intros env' H. inversion H as [|env0 e' ty Hty Ht| | | | | | | | | |]; subst. injection (H2 _ Hty) as -> ->.
      by rewrite (proj2 (condition_nil _ _) Ht).
  - read e env Henv H1 H2. destruct (env !! x) as [ty|] eqn:Hx; cbn [fst snd]; split; try done.
    + intros [-> H%err_if_nil]%app_nil_iff. specialize (H1 eq_refl). apply differ_false in H as ->;
        [|by eapply resolved_known, typed_resolved|by eapply resolved_known, Henv]. split; [by eapply C_Assign|done].
    + intros env' H. inversion H as [| |env0 x' e' ty' Hx' Hty| | | | | | | | |]; subst. rewrite Hx in Hx'. injection Hx' as <-.
      injection (H2 _ Hty) as -> ->. cbn [app]. do 2 f_equal. apply err_if_nil. unfold differ. by rewrite bool_decide_true.
    + intros env' H. inversion H; subst. congruence.
  - read e env Henv H1 H2. split.
    + intros ->. split; [by eapply C_Write, H1|done].
    + intros env' H. inversion H as [| | |env0 x' e' ty Hty| | | | | | | |]; subst. by injection (H2 _ Hty) as -> ->.
  - read e env Henv H1 H2. destruct (access_decides env x k Henv) as [H3 H4].
    destruct (mapping_access_type a x (analyze_expr a k env)) as [vt errs]. cbn [fst snd] in *. split.
    + intros [-> [-> H%err_if_nil]%app_nil_iff]%app_nil_iff. specialize (H1 eq_refl). destruct (H3 eq_refl) as (kt&Hst&Hk).
      pose proof (Hstorage _ _ Hst) as [_ Hv]. apply differ_false in H as ->; [|by eapply resolved_known|by eapply resolved_known, typed_resolved].
      split; [by eapply C_MapWrite|done].
    + intros env' H. inversion H as [| | | |env0 x' k' e' kt vt' Hst Hk Hv| | | | | | |]; subst.
      injection (H2 _ Hv) as -> ->. injection (H4 _ _ Hst Hk) as -> ->. cbn [app]. do 2 f_equal. apply err_if_nil. unfold differ. by rewrite bool_decide_true.
  - by apply if_decides.
  - by apply while_decides.
  - by apply for_decides.
  - by apply return_decides.
  - split; cbn [fst snd].
    + intros H%concat_nil_iff. split; [|done]. constructor. apply Forall_forall. intros e Hin. rewrite Forall_forall in H.
      specialize (H _ (list_elem_of_fmap_2 (λ arg, (analyze_expr a arg env).2) _ _ Hin)). eexists. by apply (expr_decides env e Henv).
    + intros env' H. inversion H as [| | | | | | | | |env0 x' args' Hargs| |]; subst. f_equal. apply concat_nil_iff, Forall_fmap.
      eapply Forall_impl; [exact Hargs|]. intros e [ty Hty]. unfold compose. by rewrite (proj2 (expr_decides env' e Henv) _ Hty).
  - by apply match_decides.
  - read e env Henv H1 H2. split.
    + intros ->. split; [by eapply C_Expr, H1|done].
    + intros env' H. inversion H as [| | | | | | | | | | |env0 e' ty Hty]; subst. by injection (H2 _ Hty) as -> ->.
Qed.
End context.

(** *** A contract *)
Lemma from_str_known a n : ∀ s ty p, from_str_fuel n s = Ok ty → check_struct_type a ty p = [] → resolved a ty.
Proof.
  induction n as [|n IH]; intros s ty p; cbn [from_str_fuel];
    (destruct (primitive s) as [t|] eqn:Ep;
     [intros [= <-] _; unfold primitive in Ep; repeat case_decide; simplify_eq; exact I|]);
    (destruct (map_inner s) as [i|];
     [destruct (Str.split_once _ i) as [[k v]|]|
      destruct (bool_decide (s ∈ RESERVED_TYPE_NAMES)); [done|]; intros [= <-]; cbn [check_struct_type resolved]; rewrite err_if_nil, bool_decide_eq_false;
      intros H; destruct (structs a !! s); by eauto]); try done.
  destruct (from_str_fuel n (Str.trim k)) as [kt|] eqn:Ek; [|done]. destruct (from_str_fuel n (Str.trim v)) as [vt|] eqn:Ev; [|done].
  destruct (is_map kt || is_map vt); [done|]. intros [= <-] [H1 H2]%app_nil_iff. split; [by eapply IH|by eapply IH].
Qed.

Lemma resolved_check a ty : resolved a ty → ∀ p, check_struct_type a ty p = [].
Proof.
  induction ty as [| | | | |s|k IHk v IHv| |]; cbn [resolved check_struct_type]; try done.
  - intros [fs Hs] p. by rewrite Hs.
  - intros [Hk Hv] p. by rewrite IHk, IHv.
Qed.

Lemma names_checked c s : names_type c s ↔ checked (declared c) s.
Proof.
  split; intros (ty&Hty&H); exists ty; (split; [done|]).
  - by apply resolved_check.
  - by eapply (from_str_known _ _ _ _ (ReturnOf "")).
Qed.

Lemma names_resolved c s : names_type c s → resolved (declared c) (type_of s).
Proof. intros (ty&Hty&H). unfold type_of. by rewrite Hty. Qed.

Lemma foldl_insert_types {A} (key : A → string) (val : A → Ty) (P : Ty → Prop) l : ∀ m : gmap string Ty,
  Forall (λ x, P (val x)) l → (∀ x ty, m !! x = Some ty → P ty) →
  ∀ x ty, foldl (λ m x, <[key x := val x]> m) m l !! x = Some ty → P ty.
Proof.
  induction l as [|y l IH]; intros m Hl Hm; [done|]. apply Forall_cons in Hl as [Hy Hl]. cbn [foldl]. apply IH; [done|].
  intros x ty [[_ <-]|[_ Hx]]%lookup_insert_Some; [done|by eapply Hm].
Qed.

Section accepted.
Context (c : Contract).
Hypothesis Hst : Forall (names_type c) (f_ty <$> Ast.storage c).
Hypothesis Hss : Forall (λ s, Forall (names_type c) (f_ty <$> fields s)) (Ast.structs c).
Hypothesis Hfs : Forall (λ f, Forall (names_type c) (p_ty <$> params f) ∧ ∀ r, return_type f = Some r → names_type c r) (Ast.functions c).

Lemma declared_fields fs : Forall (names_type c) (f_ty <$> fs) → ∀ x ty, field_types fs ∅ !! x = Some ty → resolved (declared c) ty.
Proof.
  intros Hf. apply (foldl_insert_types f_name (λ f, type_of (f_ty f))); [|by intros x ty Hx; rewrite lookup_empty in Hx].
  rewrite Forall_fmap in Hf. eapply Forall_impl; [exact Hf|]. intros f. apply names_resolved.
Qed.

Lemma declared_structs s fs f ty : structs (declared c) !! s = Some fs → fs !! f = Some ty → resolved (declared c) ty.
Proof.
  cbn [structs declared]. unfold struct_types.
  assert (∀ ss (m : gmap string (gmap string Ty)), Forall (λ s, Forall (names_type c) (f_ty <$> fields s)) ss →
    (∀ s fs, m !! s = Some fs → ∀ f ty, fs !! f = Some ty → resolved (declared c) ty) →
    ∀ s fs, foldl (λ m s, <[st_name s := field_types (fields s) ∅]> m) m ss !! s = Some fs → ∀ f ty, fs !! f = Some ty → resolved (declared c) ty) as H.
  { induction ss as [|s0 ss IH]; intros m Hl Hm; [done|]. apply Forall_cons in Hl as [Hy Hl]. cbn [foldl]. apply IH; [done|].
    intros x fs' [[_ <-]|[_ Hx]]%lookup_insert_Some; [by apply declared_fields|by eapply Hm]. }
  intros Hs Hf. eapply H; [exact Hss| |exact Hs|exact Hf]. intros x fs' Hx. by rewrite lookup_empty in Hx.
Qed.

Lemma return_resolved f : f ∈ Ast.functions c → resolved (declared c) (return_of f).
Proof.
  intros Hf. rewrite Forall_forall in Hfs. destruct (Hfs f Hf) as [_ Hr]. unfold return_of. destruct (return_type f) as [r|]; [|done].
  by apply names_resolved, Hr.
Qed.

Lemma params_resolved f : f ∈ Ast.functions c → Forall (λ p, resolved (declared c) (type_of (p_ty p))) (params f).
Proof.
  intros Hf. rewrite Forall_forall in Hfs. destruct (Hfs f Hf) as [Hp _]. rewrite Forall_fmap in Hp.
  eapply Forall_impl; [exact Hp|]. intros p. apply names_resolved.
Qed.

Lemma declared_functions x ps rt : functions (declared c) !! x = Some (ps, rt) → Forall (resolved (declared c)) ps ∧ resolved (declared c) rt.
Proof.
  cbn [functions declared]. unfold builtins, signatures.
  assert (∀ fs (m : gmap string (list Ty * Ty)), (∀ f, f ∈ fs → f ∈ Ast.functions c) →
    (∀ x ps rt, m !! x = Some (ps, rt) → Forall (resolved (declared c)) ps ∧ resolved (declared c) rt) → ∀ x ps rt,
    foldl (λ m f, <[fn_name f := (type_of ∘ p_ty <$> params f, return_of f)]> m) m fs !! x = Some (ps, rt) →
    Forall (resolved (declared c)) ps ∧ resolved (declared c) rt) as H.
  { induction fs as [|f fs IH]; intros m Hl Hm; [done|]. cbn [foldl]. apply IH; [intros g Hg; apply Hl; by right|].
    intros y ps' rt' [[_ [= <- <-]]|[_ Hy]]%lookup_insert_Some; [|by eapply Hm]. assert (f ∈ Ast.functions c) as Hf by (apply Hl; left).
    split; [|by apply return_resolved]. apply Forall_fmap. by apply params_resolved. }
  intros Hx. repeat (apply lookup_insert_Some in Hx as [[_ [= <- <-]]|[_ Hx]]; [by repeat constructor|]).
  eapply H; [done| |exact Hx]. intros y ps' rt' Hy. by rewrite lookup_empty in Hy.
Qed.

Lemma function_decides f : f ∈ Ast.functions c →
  (analyze_block (analyze_stmt (set_ret (declared c) (return_of f))) (body f) (params_env f)).2 = [] ↔
  ∃ env, checks_all (set_ret (declared c) (return_of f)) (params_env f) (body f) env.
Proof.
  intros Hf. set (a := set_ret (declared c) (return_of f)).
  assert (env_ok a (params_env f)) as Henv.
  { unfold env_ok, params_env. apply (foldl_insert_types p_name (λ p, type_of (p_ty p)) (resolved a)); [by apply params_resolved|].
    intros x ty Hx. by rewrite lookup_empty in Hx. }
  assert (decides_by a (analyze_block (analyze_stmt a)) (checks_all a) (body f)) as Hd.
  { apply block_decides_all. apply Forall_forall. intros s _. apply stmt_decides_all.
    - intros x ty Hx. by eapply declared_fields.
    - apply declared_structs.
    - apply declared_functions.
    - by apply return_resolved. }
  destruct (Hd _ Henv) as [H1 H2]. split.
  - intros H. eexists. by apply H1.
  - intros [env He]. by rewrite (H2 _ He).
Qed.
End accepted.

(** The analyzer accepts exactly the well-typed contracts. *)
Lemma analyze_typed c : analyze new c = Ok () ↔ well_typed c.
Proof.
  rewrite analyze_ok. unfold well_typed.
  assert (Forall (checked (declared c)) (f_ty <$> Ast.storage c) ↔ Forall (names_type c) (f_ty <$> Ast.storage c)) as ->.
  { apply Forall_iff. intros s. symmetry. apply names_checked. }
  assert (Forall (λ s, Forall (checked (declared c)) (f_ty <$> fields s)) (Ast.structs c) ↔
    Forall (λ s, Forall (names_type c) (f_ty <$> fields s)) (Ast.structs c)) as ->.
  { apply Forall_iff. intros s. apply Forall_iff. intros s'. symmetry. apply names_checked. }
  assert (Forall (signature_checked (declared c)) (Ast.functions c) ↔
    Forall (λ f, Forall (names_type c) (p_ty <$> params f) ∧ ∀ r, return_type f = Some r → names_type c r) (Ast.functions c)) as ->.
  { apply Forall_iff. intros f. unfold signature_checked. rewrite !Forall_forall.
    split; intros [H1 H2]; (split; [intros s Hs; by apply names_checked, H1|intros r Hr; by apply names_checked, H2]). }
  unfold well_typed_function. split.
  - intros (Hst&Hss&Hfs&Hb). split_and!; try done. rewrite Forall_forall in Hfs, Hb |- *. intros f Hf.
    destruct (Hfs f Hf) as [? ?]. split_and!; try done. apply function_decides; try done; [by apply Forall_forall|by apply Hb].
  - intros (Hst&Hss&Hfs).
    assert (Forall (λ f, Forall (names_type c) (p_ty <$> params f) ∧ ∀ r, return_type f = Some r → names_type c r) (Ast.functions c)) as Hsig.
    { eapply Forall_impl; [exact Hfs|]. by intros f (?&?&_). }
    split_and!; try done. rewrite Forall_forall in Hfs. apply Forall_forall. intros f Hf. apply function_decides; try done. by apply Hfs.
Qed.

End TypingLemmas.
