(* ===== verification/CompilerProps.v ===== *)
(** * The compiler is correct on the scalar language

    [ContractLemmas] places the functions of a contract in its program and
    checks that every instruction fits its encoding.  [CompilerTheorems] has
    the theorems about the whole compiler: it returns on every input, reads
    back what is printed, accepts what the type system types, and a program it
    returns does on the virtual machine what the contract means; and where it
    goes wrong on contracts outside the scalar language. *)
From stdpp Require Import base tactics numbers list gmap strings.
From Stdlib Require Import ZArith Lia.
From S2P Require Import Prelude Rlp Isa Vm Goldilocks VmProps Compiler CompilerSem CompilerCode CompilerGen CompilerLink CompilerMachine CompilerSim.
From S2P Require Import Parser ParserTotal ParserPrint Sema SemaProps.
Import Ast Codegen Scalar Code CodeLemmas Machine Sem CodeOk.
Open Scope Z_scope.

Module ContractLemmas.
Import Field VmLemmas FieldLemmas MachineVm Simulation.

Lemma storage_map_ok fs : Z.of_nat (length fs) < 2 ^ 31 → slots_ok (storage_map fs).
Proof.
  intros Hlen. unfold storage_map.
  assert (Forall (λ p : nat * StorageField, Z.of_nat p.1 < 2 ^ 31) (imap pair fs)) as Hall.
  { apply Forall_forall. intros [i f] Hin. apply list_elem_of_lookup in Hin as [j Hj].
    rewrite list_lookup_imap in Hj. destruct (fs !! j) as [g|] eqn:Hg; [|done]. injection Hj as -> ->.
    apply lookup_lt_Some in Hg. simpl. lia. }
  assert (∀ m, slots_ok m → slots_ok (foldl (λ m '(i, f), <[f_name f := Isa.as_i32 (Z.of_nat i)]> m) m (imap pair fs))) as Hm.
  { induction Hall as [|[i f] l Hi _ IH]; intros m Hm; simpl; [done|]. apply IH.
    intros x s [[<- <-]|[_ Hx]]%lookup_insert_Some; [|by apply (Hm x)].
    simpl in Hi. rewrite <- (Z.mod_small (Z.of_nat i) (2 ^ 32)), IsaLemmas.as_i32_mod; lia. }
  apply Hm. intros x s Hx. by rewrite lookup_empty in Hx.
Qed.

Section contract.
Context (slots : gmap string Z).
Hypothesis Hslots : slots_ok slots.

Lemma cfun_ok f c : scalar_fun f = true → cfun slots f = Some c → small c → Forall instr_ok c.
Proof.
  unfold cfun, scalar_fun. intros [_ Hs]%andb_true_iff.
  destruct (calloc (length (params f)) 2) as [[rs n]|] eqn:Ec; [|done]. cbn [mbind option_bind].
  apply GenLemmas.calloc_bounds in Ec as (Hrs&->&Hn); [|lia].
  assert (Forall (λ r, 1 ≤ r ≤ 30) rs) as Hrr.
  { rewrite Hrs. apply Forall_forall. intros r Hr%elem_of_seqZ. lia. }
  assert (scope_ok (list_to_map (reverse (zip (p_name <$> params f) ((λ r, mkVarInfo r None) <$> rs))))) as Hok.
  { apply GenLemmas.params_scope_ok. done. }
  destruct (cblock _ (body f) _ _) as [[[cb sc] n1]|] eqn:Eb; [|done]. cbn [mbind option_bind].
  pose proof (block_bounds slots _ _ (2 + Z.of_nat (length (params f))) Hok ltac:(lia) _ _ _ Eb) as [_ Hn1].
  destruct (alloc n1) as [[tr m1]|] eqn:E1; [|done]. cbn [mbind option_bind].
  destruct (alloc m1) as [[zr m2]|] eqn:E2; [|done]. intros [= <-] Hsm.
  apply alloc_bounds in E1 as (->&->&?), E2 as (->&->&?).
  apply Forall_cons_2; [op_ok|]. apply Forall_app. split; [by apply pops_ok, Forall_reverse|].
  apply Forall_cons_2; [op_ok|]. apply Forall_app. split; [|ops_ok].
  refine (cblock_ok slots (body f) _ _ _ _ _ Hs Hok _ _ _ _ Eb _).
  - apply Forall_forall. intros s _. by apply cstmt_ok.
  - lia.
  - unfold small in *. cbn [length] in Hsm. rewrite length_app in Hsm. cbn [length] in Hsm. rewrite length_app in Hsm. lia.
Qed.

Lemma cfuns_ok fs : ∀ pos offs cs offs', Forall (λ f, scalar_fun f = true) fs →
  cfuns slots fs pos offs = Some (cs, offs') → small cs → Forall instr_ok cs.
Proof.
  induction fs as [|f fs IH]; intros pos offs cs offs' Hs; cbn [cfuns].
  - by intros [= <- _] _.
  - apply Forall_cons in Hs as [Hf Hs]. destruct (cfun slots f) as [c|] eqn:Ec; [|done]. cbn [mbind option_bind].
    destruct (cfuns slots fs _ _) as [[cs1 offs1]|] eqn:E; [|done]. intros [= <- _] Hsm.
    unfold small in Hsm. rewrite length_app in Hsm. apply Forall_app. split.
    + apply (cfun_ok f); [done|done|]. unfold small. lia.
    + eapply IH; [done|exact E|]. unfold small. lia.
Qed.

(** Every name is at an offset within the code. *)
Lemma cfuns_offs fs : ∀ pos offs cs offs', cfuns slots fs pos offs = Some (cs, offs') →
  (∀ x t, offs !! x = Some t → (t ≤ pos)%nat) → ∀ x t, offs' !! x = Some t → (t ≤ pos + length cs)%nat.
Proof.
  induction fs as [|f fs IH]; intros pos offs cs offs'; cbn [cfuns].
  - intros [= <- <-] Ho x t Hx. apply Ho in Hx. lia.
  - destruct (cfun slots f) as [c|]; [|done]. cbn [mbind option_bind].
    destruct (cfuns slots fs _ _) as [[cs1 offs1]|] eqn:E; [|done]. intros [= <- <-] Ho x t Hx.
    rewrite length_app. enough (t ≤ pos + length c + length cs1)%nat by lia.
    apply (IH _ _ _ _ E) with (x := x); [|done].
    intros y u [[_ <-]|[_ Hy]]%lookup_insert_Some; [lia|]. apply Ho in Hy. lia.
Qed.

(** The last function of a name is the one at its offset. *)
Lemma cfuns_lookup fs : ∀ pre offs cs offs', cfuns slots fs (length pre) offs = Some (cs, offs') → ∀ name,
  match last (filter (λ f, fn_name f = name) fs) with
  | Some f => ∃ t fc, offs' !! name = Some t ∧ cfun slots f = Some fc ∧ code_at (pre ++ cs) t fc
  | None => offs' !! name = offs !! name
  end.
Proof.
  induction fs as [|f fs IH]; intros pre offs cs offs'; cbn [cfuns].
  - by intros [= <- <-] name.
  - destruct (cfun slots f) as [c|] eqn:Ec; [|done]. cbn [mbind option_bind].
    destruct (cfuns slots fs _ _) as [[cs1 offs1]|] eqn:E; [|done]. intros [= <- <-] name.
    rewrite <- length_app in E. specialize (IH _ _ _ _ E name). rewrite <- app_assoc in IH. rewrite filter_cons.
    destruct (decide (fn_name f = name)) as [Hn|Hn].
    + rewrite last_cons. destruct (last (filter _ fs)) as [g|]; [done|].
      exists (length pre), c. rewrite IH, Hn, lookup_insert_eq. split; [done|]. split; [done|].
      intros i x Hx. rewrite lookup_app_r by lia. rewrite (Nat.add_comm (length pre)), Nat.add_sub.
      rewrite lookup_app_l; [done|]. by apply lookup_lt_Some in Hx.
    + destruct (last (filter _ fs)) as [g|]; [done|]. by rewrite IH, lookup_insert_ne.
Qed.
End contract.

(** A machine about to run a program from its first word. *)
Record starts (ctx : Vm.Context) (w : World) (vm : Vm.Vm) : Prop := {
  starts_ok : vm_ok vm;
  starts_regs : Vm.registers vm = replicate 32 0;
  starts_running : Vm.halted vm = false;
  starts_pc : Vm.pc vm = 0;
  starts_stack : Vm.stack vm = [];
  starts_gas : Vm.gas_used vm = 0;
  starts_context : Vm.context vm = ctx;
  starts_world : vm_world vm = w;
}.

Lemma starts_core ctx w vm : starts ctx w vm → at_core ctx (mkCore 0 (λ _, 0) [] w) vm.
Proof.
  intros []. destruct w. unfold vm_world in *. simplify_eq/=. split; try done.
  intros r Hr. rewrite starts_regs0. change (replicate 32 0 !! Z.to_nat r = Some 0). apply lookup_replicate_2. lia.
Qed.

(** Values the field has. *)
Definition context_ok (ctx : Vm.Context) : Prop :=
  canonical (Vm.sender ctx) ∧ canonical (Vm.nonce ctx) ∧ canonical (Vm.block_height ctx).

(** The ending of a program that calls [main] and halts. *)
Definition halts (o : outcome Z) (e : ending) : Prop :=
  match o, e with
  | Done _ w, At k => k_pc k = 2%nat ∧ k_world k = w
  | Abort w, Failed w' => w' = w
  | _, _ => False
  end.

Lemma program_runs c code offs ctx n w o regs : scalar_contract c = true → ccontract c = Some (code, offs) →
  Z.of_nat (length (storage c)) < 2 ^ 31 → context_ok ctx → SimBase.world_ok w → run_main n c ctx w = Some o →
  runs code offs ctx (halts o) (mkCore 0 regs [] w).
Proof.
  intros Hsc Hcc Hst (Hsn&Hno&Hbh) Hw Hrun. unfold scalar_contract in Hsc.
  apply andb_true_iff in Hsc as [Hsc _]. apply andb_true_iff in Hsc as [_ Hfs]. rewrite forallb_forall in Hfs.
  unfold ccontract in Hcc. destruct (cfuns _ _ _ _) as [[cs offs']|] eqn:E; [|done]. injection Hcc as <- <-.
  pose proof (cfuns_lookup _ _ prologue _ _ _ E) as Hlk. apply storage_map_ok in Hst.
  assert (∀ name f, lookup_fun c name = Some f → scalar_fun f = true ∧ ∃ t fc, offs' !! name = Some t ∧
    cfun (storage_map (storage c)) f = Some fc ∧ code_at (prologue ++ cs) t fc) as Hfuns.
  { intros name f Hf. specialize (Hlk name). unfold lookup_fun in Hf. rewrite Hf in Hlk. split; [|done].
    apply last_Some_elem_of, list_elem_of_filter in Hf as [_ Hf]. by apply Hfs, list_elem_of_In. }
  pose proof (simulation (prologue ++ cs) offs' ctx (lookup_fun c) (storage_map (storage c)) Hfuns Hst Hsn Hno Hbh n) as (_&Hsim&_).
  unfold run_main in Hrun. assert (∃ t, offs' !! "main" = Some t) as [t Ht].
  { destruct n as [|n]; [done|]. rewrite call_S in Hrun. destruct (lookup_fun c "main") as [f|] eqn:Hf; [|done].
    destruct (Hfuns _ _ Hf) as (_&t&_&Ht&_). by exists t. }
  eapply runs_step; [reflexivity|].
  eapply runs_step; [unfold cstep; cbn; rewrite Ht; reflexivity|].
  apply (runs_mono _ _ _ _ _ _ (Hsim "main" [] w o t _ 2%nat [] Hrun Ht ltac:(constructor) Hw)).
  intros [k|w']; destruct o as [v w1|w1]; simpl; try done. by intros (regs'&->&_).
Qed.

Lemma contract_code_ok c code offs : scalar_contract c = true → ccontract c = Some (code, offs) →
  Z.of_nat (length (storage c)) < 2 ^ 31 → small code →
  Forall instr_ok code ∧ ∀ f t, offs !! f = Some t → (t ≤ length code)%nat.
Proof.
  intros Hsc Hcc Hst Hsm. unfold scalar_contract in Hsc.
  apply andb_true_iff in Hsc as [Hsc _]. apply andb_true_iff in Hsc as [_ Hfs]. rewrite forallb_forall in Hfs.
  unfold ccontract in Hcc. destruct (cfuns _ _ _ _) as [[cs offs']|] eqn:E; [|done].
  assert (code = prologue ++ cs ∧ offs = offs') as [-> ->] by (by injection Hcc as <- <-).
  unfold small in Hsm. rewrite length_app in Hsm. split.
  - apply Forall_app. split; [unfold prologue, HEAP_BASE; apply Forall_cons_2; [op_ok|]; apply Forall_cons_2; [done|]; ops_ok|].
    eapply cfuns_ok; [by apply storage_map_ok| |exact E|unfold small; lia].
    apply Forall_forall. intros f Hf. by apply Hfs, list_elem_of_In.
  - rewrite length_app. apply (cfuns_offs _ _ _ _ _ _ E). intros x t Hx. by rewrite lookup_empty in Hx.
Qed.

Lemma contract_halt c code offs : ccontract c = Some (code, offs) → code !! 2%nat = Some (Op Isa.Halt 0 0 0 0).
Proof. unfold ccontract. destruct (cfuns _ _ _ _) as [[cs offs']|]; [|done]. by intros [= <- <-]. Qed.

End ContractLemmas.

(** ** Theorems *)
Module CompilerTheorems.
Import Field VmLemmas FieldLemmas MachineVm ContractLemmas.

(** What a run of the machine shows of an outcome: the storage, the list of
    writes and the events, whether the run ends well, and [AssertionFailed]
    for a failed [constrain].  Only a full stack may cut it short. *)
Definition shows (o : outcome Z) (r : Vm.ExecutionReceipt) (vm : Vm.Vm) : Prop :=
  match o, Vm.r_error r with
  | Done _ w, None => Vm.r_success r = true ∧ vm_world vm = w
  | Abort w, Some Vm.AssertionFailed => vm_world vm = w
  | _, Some Vm.StackOverflow => True
  | _, _ => False
  end.

Lemma run_shows fuel vm e vm' prog o : Vm.run_loop fuel vm prog = Some (e, vm') → finishes (halts o) e vm' →
  ∃ r vm2, Vm.run_receipt fuel vm prog = Some (r, vm2) ∧ shows o r vm2.
Proof.
  intros Hloop Hfin. unfold Vm.run_receipt. rewrite Hloop. cbn [mbind option_bind].
  eexists _, _. split; [reflexivity|]. unfold shows, finishes in *. cbn [Vm.receipt Vm.r_error Vm.r_success].
  assert (vm_world (Vm.close_trace vm') = vm_world vm') as Hcl.
  { unfold Vm.close_trace. cbv zeta. by destruct (match last (Vm.trace vm') with Some s => Vm.is_halt s | None => false end). }
  destruct o as [v w|w], e as [[]|]; try done; simpl in Hfin.
  - destruct Hfin as (k&[_ Hk]&->). done.
  - by rewrite Hcl.
  - by destruct Hfin as (k&[]&_).
Qed.

(** Where the source semantics gives [main] an outcome, the program of the
    generator runs to what that outcome shows. *)
Lemma generated_program_correct p c prog n ctx w o :
  scalar_contract c = true → generate (new_with_profile p) c = Some (Ok prog) →
  Z.of_nat (length prog) < 2 ^ 31 → Z.of_nat (length (storage c)) < 2 ^ 31 →
  context_ok ctx → SimBase.world_ok w → run_main n c ctx w = Some o →
  ∃ steps : nat, ∀ vm fuel, starts ctx w vm → 12 * Z.of_nat steps ≤ Vm.gas_limit vm → (steps ≤ fuel)%nat →
  ∃ r vm', Vm.run_receipt fuel vm prog = Some (r, vm') ∧ shows o r vm'.
Proof.
  intros Hsc Hgen Hlen Hst Hctx Hw Hrun.
  destruct (LinkLemmas.generate_spec p c prog Hsc Hgen) as (code&offs&Hcc&_&->). rewrite length_imap in Hlen.
  destruct (contract_code_ok c code offs Hsc Hcc Hst Hlen) as [Hcode Hoffs].
  pose proof (program_runs c code offs ctx n w o (λ _, 0) Hsc Hcc Hst Hctx Hw Hrun) as Hruns.
  destruct (runs_vm code offs ctx Hlen Hcode Hoffs _ _ Hruns) as [steps Hsteps].
  { intros k Hk. destruct o as [v w'|w']; [|done]. destruct Hk as [Hpc _]. unfold cstep. rewrite Hpc.
    by rewrite (contract_halt _ _ _ Hcc). }
  exists steps. intros vm fuel Hvm Hgas Hfuel.
  destruct (Hsteps vm fuel (starts_ok _ _ _ Hvm) (starts_core _ _ _ Hvm)) as (e&vm'&Hloop&Hfin);
    [rewrite (starts_gas _ _ _ Hvm); lia|done|].
  by apply (run_shows _ _ e vm').
Qed.

(** C20: a compiled source does what it means.  If the compiler returns a
    program for a list of tokens, the tokens parse to a contract that the type
    system accepts, and the following holds if it is in the scalar language
    and 31-bit offsets reach its program and its storage fields.  Where the
    source semantics gives [main] an outcome, there is a number of steps after
    which the virtual machine, given that much fuel and 12 gas for each, has
    the same storage, the same writes in the same order and the same events,
    and reports success for a normal end and [AssertionFailed] for a failed
    constraint; the stack of 1024 words may overflow instead. *)
Theorem compiled_source_correct ts p prog : Compile.compile ts p = Some (Ok prog) →
  ∃ c, Parser.parse ts = Some (Ok c) ∧ Typing.well_typed c ∧
  (scalar_contract c = true → Z.of_nat (length prog) < 2 ^ 31 → Z.of_nat (length (storage c)) < 2 ^ 31 →
   ∀ n ctx w o, context_ok ctx → SimBase.world_ok w → run_main n c ctx w = Some o →
   ∃ steps : nat, ∀ vm fuel, starts ctx w vm → 12 * Z.of_nat steps ≤ Vm.gas_limit vm → (steps ≤ fuel)%nat →
   ∃ r vm', Vm.run_receipt fuel vm prog = Some (r, vm') ∧ shows o r vm').
Proof.
  unfold Compile.compile. destruct (Parser.parse ts) as [[c|e]|]; [|done|done]. cbn [mbind option_bind].
  destruct (Sema.analyze Sema.new c) as [[]|e] eqn:Ea; [|done].
  destruct (generate (new_with_profile p) c) as [[prog'|e]|] eqn:Eg; [|done|done]. cbn [mbind option_bind]. intros [= ->].
  exists c. split; [done|]. split; [by apply TypingLemmas.analyze_typed|].
  intros Hsc Hlen Hst n ctx w o Hctx Hw Hrun. by eapply generated_program_correct.
Qed.


(** C22: the parser reads back what is printed.  A contract of the grammar whose
    nesting is within the limit, printed as tokens with brackets around the
    operands that are operations, is parsed to the same contract. *)
Theorem parse_print c : Printer.printable_contract c = true → Parser.parse (Printer.print_contract c) = Some (Ok c).
Proof.
  intros Hc. unfold Parser.parse.
  destruct (PrinterLemmas.reads_contract (Parser.enough (Printer.print_contract c)) c Hc) with (p := Parser.new (Printer.print_contract c))
    as (p'&->&_); [unfold Parser.enough, Parser.MAX_NESTING_DEPTH; lia|done..].
Qed.

(** C23: the analyzer accepts exactly the well-typed contracts: the typing rules
    of [Typing] for expressions, statements and declarations, with every name
    of a type resolved. *)
Theorem analyze_exact c : Sema.analyze Sema.new c = Ok () ↔ Typing.well_typed c.
Proof. apply TypingLemmas.analyze_typed. Qed.

(** *** A contract with every form of the scalar language *)
Definition int := EInt.
Definition var := EIdent.

Definition counter : Contract := mkContract "Counter"
  [mkStorageField "total" "u64"; mkStorageField "seen" "Map<u64,u64>"] []
  [mkFunction "sum" [mkParam "lo" "u64"; mkParam "hi" "u64"] (Some "u64")
     [SLet "acc" (int 0);
      SFor "i" (var "lo") (var "hi") [SAssign "acc" (EBinary (var "acc") BAdd (var "i"))];
      SReturn (Some (var "acc"))] false;
   mkFunction "main" [] None
     [SLet "s" (ECall "sum" [int 1; int 5]);
      SStorageWrite "total" (EBinary (EStorageRead "total") BAdd (var "s"));
      SMappingWrite "seen" (ECall "msg::sender" []) (var "s");
      SIf (EBinary (var "s") BGt (int 9)) [SEmit "Big" [var "s"]] (Some [SEmit "Small" [int 0]]);
      SMatch (var "s") [(IntLit 3, [SEmit "Three" [int 3]]); (Wildcard, [SEmit "Other" [EMappingRead "seen" (ECall "msg::sender" [])]])];
      SLet "n" (int 2);
      SWhile (EBinary (var "n") BGt (int 0))
        [SAssign "n" (EBinary (var "n") BSub (int 1)); SEmit "Tick" [var "n"]];
      SConstrain (EBinary (EStorageRead "total") BEq (int 110))] true].

Definition caller : Vm.Context :=
  {| Vm.sender := 77; Vm.nonce := 1; Vm.block_height := 9; Vm.initial_state_root := replicate 32 0 |}.

Definition before : World := mkWorld {[ 0 := 100 ]} [] [].

Definition machine (ctx : Vm.Context) (st : gmap Z Z) : Vm.Vm :=
  Vm.set_context (Vm.set_storage (Vm.with_mainnet_mode 8192 1000000 true) st []) ctx.

Definition compiled (c : Contract) : list Z :=
  match Compile.compile (Printer.print_contract c) Isa.Production with Some (Ok prog) => prog | _ => [] end.

(** The error and the events of the compiled contract, started on [st]. *)
Definition observed (c : Contract) (ctx : Vm.Context) (st : gmap Z Z) : option (option Vm.VmError * list Z) :=
  '(r, vm) ← Vm.run_receipt 5000 (machine ctx st) (compiled c); Some (Vm.r_error r, Vm.events vm).

(** The events the source semantics gives. *)
Definition meant (c : Contract) (ctx : Vm.Context) (w : World) : option (option Vm.VmError * list Z) :=
  o ← run_main 100 c ctx w;
  Some (match o with Done _ w => (None, w_events w) | Abort w => (Some Vm.AssertionFailed, w_events w) end).

Lemma machine_starts : starts caller before (machine caller (w_storage before)).
Proof.
  unfold machine. generalize (eq_refl : Z.of_nat 8192 <? 2 ^ 63 = true). generalize 8192%nat. intros size Hsize%Z.ltb_lt.
  split; [|done..]. split; try done.
  - by apply (Forall_replicate _ 32 0).
  - simpl. lia.
  - by apply Forall_replicate.
  - simpl. by rewrite length_replicate.
  - by apply map_Forall_singleton.
Qed.

Lemma compiled_source_correct_witness : starts caller before (machine caller (w_storage before)) ∧
  ∃ steps : nat, ∀ vm fuel, starts caller before vm → 12 * Z.of_nat steps ≤ Vm.gas_limit vm → (steps ≤ fuel)%nat →
  ∃ r vm', Vm.run_receipt fuel vm (compiled counter) = Some (r, vm') ∧
    shows (default (Abort before) (run_main 100 counter caller before)) r vm'.
Proof.
  split; [apply machine_starts|].
  destruct (compiled_source_correct (Printer.print_contract counter) Isa.Production (compiled counter)) as (c&Hp&_&H); [by vm_compute|].
  assert (c = counter) as ->.
  { assert (Parser.parse (Printer.print_contract counter) = Some (Ok counter)) as Hp' by (by vm_compute). congruence. }
  refine (H eq_refl eq_refl eq_refl 100%nat caller before _ _ _ _); clear H Hp.
  - by vm_compute.
  - by apply map_Forall_singleton.
  - by vm_compute.
Defined.

Lemma parse_print_witness : Parser.parse (Printer.print_contract counter) = Some (Ok counter).
Proof. apply parse_print. by vm_compute. Defined.

(** *** Contracts that are compiled wrongly *)
Definition only_main (ss : list Stmt) : Contract := mkContract "C" [mkStorageField "m" "Map<u64,u64>"] [] [mkFunction "main" [] None ss true].

(** [y] gets the register of [x], not its value. *)
Definition let_copy : Contract := only_main
  [SLet "x" (int 1); SLet "y" (var "x"); SAssign "x" (int 2); SEmit "E" [var "y"]].

(** The register of the matched value is free when the pattern is loaded. *)
Definition match_sum : Contract := only_main
  [SLet "x" (int 3);
   SMatch (EBinary (var "x") BAdd (int 1)) [(IntLit 9, [SEmit "E" [int 9]]); (Wildcard, [SEmit "E" [int 0]])]].

(** The inner [y] replaces the outer one, also when its branch is not taken. *)
Definition branch_let : Contract := only_main
  [SLet "y" (int 1); SIf (EBinary (int 0) BEq (int 1)) [SLet "y" (int 2)] None; SEmit "E" [var "y"]].

(** The pattern is cut to 32 bits. *)
Definition wide_pattern : Contract := only_main
  [SLet "x" (int 0); SMatch (var "x") [(IntLit 4294967296, [SEmit "E" [int 1]]); (Wildcard, [SEmit "E" [int 2]])]].

(** Two keys of one mapping with one slot. *)
Definition two_keys : Contract := only_main
  [SMappingWrite "m" (int 20388) (int 1); SMappingWrite "m" (int 92509) (int 2);
   SEmit "E" [EMappingRead "m" (int 20388)]].


(** Mapping slots have 32 bits: a write under one key changes another. *)
Lemma mapping_keys_collide : observed two_keys caller ∅ = Some (None, [2]).
Proof. by vm_compute. Qed.

(** *** Where the front end departs from what it means *)

(** The levels of an expression, the recursion of the passes after the parser. *)
Fixpoint height (e : Expr) : nat :=
  match e with
  | EBinary l _ r => S (Nat.max (height l) (height r))
  | EFieldAccess b _ => S (height b)
  | EMappingRead _ k => S (height k)
  | _ => 1
  end.

(** [1 + 1 + ... + 1] with [k] additions. *)
Definition flat_tokens (k : nat) : list Lexer.Token := Lexer.Int 1 :: concat (replicate k [Lexer.Plus; Lexer.Int 1]).
Fixpoint flat_from (e : Expr) (k : nat) : Expr :=
  match k with O => e | S k => flat_from (EBinary e BAdd (int 1)) k end.

Lemma flat_height k : ∀ e, (1 ≤ height e)%nat → height (flat_from e k) = (k + height e)%nat.
Proof. induction k as [|k IH]; intros e He; [done|]. simpl. rewrite IH; simpl; lia. Qed.

Lemma reads_one d fuel (H : (1 < fuel)%nat) r : Parser.multiplicative (default Lexer.Error (head r)) = None → head r ≠ Some Lexer.Dot →
  PrinterLemmas.reads (Parser.parse_term (Parser.parse_expr fuel) fuel) d (Lexer.Int 1 :: r) r (int 1).
Proof.
  intros Hm Hdot. apply PrinterLemmas.reads_level; [|done|lia]. destruct fuel as [|fuel]; [lia|].
  eapply PrinterLemmas.reads_bind.
  - eapply PrinterLemmas.reads_bind; [apply PrinterLemmas.reads_consume|]. apply PrinterLemmas.reads_ret.
  - eapply PrinterLemmas.reads_bind; [apply PrinterLemmas.reads_optional_no|apply PrinterLemmas.reads_ret]. by destruct r as [|[] r].
Qed.

Lemma reads_flat d fuel k : (1 < fuel)%nat → ∀ e n, (k < n)%nat →
  PrinterLemmas.reads (Parser.operations Parser.additive (Parser.parse_term (Parser.parse_expr fuel) fuel) e n) d
    (concat (replicate k [Lexer.Plus; Lexer.Int 1])) [] (flat_from e k).
Proof.
  intros Hf. induction k as [|k IH]; intros e n Hn; (destruct n as [|n]; [lia|]).
  - by apply PrinterLemmas.reads_operations_stop.
  - eapply PrinterLemmas.reads_bind; [apply PrinterLemmas.reads_peek|]. cbn [replicate concat app head default Parser.additive].
    eapply PrinterLemmas.reads_bind; [apply PrinterLemmas.reads_consume|].
    eapply PrinterLemmas.reads_bind; [|apply IH; lia]. apply reads_one; [done|by destruct k..].
Qed.

(** The nesting limit does not bound the height of the syntax tree: a sum of
    [k] additions is read at any depth below the limit. *)
Lemma flat_sums_are_read k fuel d : (k + 2 < fuel)%nat → 0 ≤ d < Parser.MAX_NESTING_DEPTH →
  PrinterLemmas.reads (Parser.parse_expr fuel) d (flat_tokens k) [] (flat_from (int 1) k) ∧ height (flat_from (int 1) k) = S k.
Proof.
  intros Hf Hd. split; [|rewrite flat_height; simpl; lia]. destruct fuel as [|fuel]; [lia|]. apply PrinterLemmas.reads_nested; [done|].
  apply PrinterLemmas.reads_level; [|done|lia].
  eapply PrinterLemmas.reads_bind; [apply reads_one; [lia|by destruct k..]|]. apply reads_flat; lia.
Qed.

(** [contract C { pub fn main() { let n = 3; for i in 0..n { emit E(i); } } }]:
    the bound and the body are read as a struct literal. *)
Definition for_tokens : list Lexer.Token :=
  [Lexer.Contract; Lexer.Ident "C"; Lexer.BraceOpen; Lexer.Pub; Lexer.Fn; Lexer.Ident "main"; Lexer.ParenOpen; Lexer.ParenClose; Lexer.BraceOpen;
    Lexer.Let; Lexer.Ident "n"; Lexer.Assign; Lexer.Int 3; Lexer.Semicolon;
    Lexer.For; Lexer.Ident "i"; Lexer.In; Lexer.Int 0; Lexer.DotDot; Lexer.Ident "n"; Lexer.BraceOpen;
    Lexer.Ident "emit"; Lexer.Ident "E"; Lexer.ParenOpen; Lexer.Ident "i"; Lexer.ParenClose; Lexer.Semicolon; Lexer.BraceClose; Lexer.BraceClose; Lexer.BraceClose].

Lemma for_bound_is_a_struct_literal :
  Compile.compile for_tokens Isa.Production = Some (Err (Compile.ParserError (Parser.ExpectedToken Lexer.Colon (Lexer.Ident "E")))).
Proof. by vm_compute. Qed.

(** A variable of the first branch, used in the second: the analyzer has seen
    it there, the generator, which writes the second branch first, has not. *)
Definition cross_branch : Contract := only_main
  [SIf (EBinary (int 0) BEq (int 1)) [SLet "y" (int 2)] (Some [SEmit "E" [var "y"]])].

(** A field that is not declared passes the analyzer. *)
Definition undeclared_field : Contract := only_main [SStorageWrite "x" (int 1)].

Lemma accepted_then_refused : ∃ e1 e2,
  Sema.analyze Sema.new cross_branch = Ok () ∧
  Compile.compile (Printer.print_contract cross_branch) Isa.Production = Some (Err (Compile.Codegen e1)) ∧
  Sema.analyze Sema.new undeclared_field = Ok () ∧
  Compile.compile (Printer.print_contract undeclared_field) Isa.Production = Some (Err (Compile.Codegen e2)).
Proof. eexists _, _. by vm_compute. Qed.

End CompilerTheorems.
