(* ===== verification/Bpqs.v ===== *)
(** * Epoch-chained Winternitz signatures

    [crates/bpqs]: the hash-based signatures of the cold committee.  A member
    key is a Merkle tree of Winternitz keys, one per epoch of the chain; a
    signature opens the chains of its epoch at the digits of the message and
    carries the path to the root.  The construction is written against a hash
    trait, here the class [BpqsHash]; parameter rows are records.

    An array [[u8; 32]] is a list of 32 bytes, and an array of 256 of them a
    list of 256 lists.  [debug_assert] is not part of a release build. *)
From stdpp Require Import base tactics numbers list strings.
From Stdlib Require Import ZArith Lia.
From S2P Require Import Prelude.
Open Scope Z_scope.

(** ** The hash backend: [hash.rs] *)

(** A family with one digest of 32 bytes over parts bound to a domain. *)
Class BpqsHash := {
  digest32 : bytes → list bytes → bytes;
  digest32_length dom parts : length (digest32 dom parts) = 32%nat;
  digest32_bytes dom parts : Forall (λ b, 0 ≤ b < 256) (digest32 dom parts);
}.

Module Frame.

(** [u16le(dom.len()) || dom || S_i [ u32le(parts[i].len()) || parts[i] ]]. *)
Definition frame_bytes (domain : bytes) (parts : list bytes) : bytes :=
  le_bytes 2 (Z.of_nat (length domain) mod 2 ^ 16) ++ domain ++
  flat_map (λ part, le_bytes 4 (Z.of_nat (length part) mod 2 ^ 32) ++ part) parts.
End Frame.

(** ** Parameter rows: [params.rs] *)
Module Params.

Record BpqsParams := mkParams {
  N : nat;
  WIN : Z;
  LEN1 : nat;
  LEN2 : nat;
  LEN : nat;
  T_LOG2 : nat;
  Q_MAX : Z;
  NAME : string;
}.

Definition ParamsL5 : BpqsParams := mkParams 32 16 64 3 67 16 1 "bpqs-l5-research".
Definition ParamsL3 : BpqsParams := mkParams 24 16 48 3 51 16 1 "bpqs-l3-research".
Definition ParamsTestFast : BpqsParams := mkParams 32 16 64 3 67 4 1 "bpqs-fast-test-only".

(** What the rows have in common. *)
Record row (P : BpqsParams) : Prop := {
  row_N : (1 ≤ N P ≤ 32)%nat;
  row_WIN : WIN P = 16;
  row_LEN1 : LEN1 P = (2 * N P)%nat;
  row_LEN2 : LEN2 P = 3%nat;
  row_LEN : LEN P = (LEN1 P + LEN2 P)%nat;
  row_T : (T_LOG2 P ≤ 16)%nat;
}.
End Params.
Import Params.

(** ** Domains and errors: [lib.rs], [error.rs] *)
Module BpqsDomains.
Definition PRF_EPOCH_SEED : bytes := bstr "BPQS-PRF-EPOCH-SEED-v0".
Definition WOTS_CHAIN_SEED : bytes := bstr "BPQS-WOTS-CHAIN-SEED-v0".
Definition WOTS_CHAIN_STEP : bytes := bstr "BPQS-WOTS-CHAIN-STEP-v0".
Definition WOTS_VK_COMPRESS : bytes := bstr "BPQS-WOTS-VK-COMPRESS-v0".
Definition MERKLE_LEAF : bytes := bstr "BPQS-MERKLE-LEAF-v0".
Definition MERKLE_NODE : bytes := bstr "BPQS-MERKLE-NODE-v0".
Definition MESSAGE_BIND_V1 : bytes := bstr "BPQS-MESSAGE-BIND-v1".
Definition RANDOMIZER : bytes := bstr "BPQS-RANDOMIZER-v0".
End BpqsDomains.
Import BpqsDomains.

Inductive MalformedWhat :=
  | LeavesMismatch | HeightBudget | TreeShape | LeafIndex | LevelShort | Headroom | ParameterRows.

Inductive BpqsError :=
  | QuotaExceeded (epoch attempted : Z)
  | EpochMismatch (expected in_signature : Z)
  | BadEpochWindow
  | BadAuthPath
  | BadChain
  | Malformed (what : MalformedWhat).

(** ** Epochs: [epoch.rs] *)
Module Epoch.

(** [(height / window.0) as u32]. *)
Definition epoch_of (height window : Z) : result BpqsError Z :=
  if window =? 0 then Err BadEpochWindow else Ok ((height / window) mod 2 ^ 32).

Definition prf_epoch_seed `{BpqsHash} (root_seed : bytes) (epoch : Z) : bytes :=
  digest32 PRF_EPOCH_SEED [root_seed; le_bytes 4 epoch].
End Epoch.

(** ** Winternitz chains: [wots.rs] *)
Module Wots.
Section wots.
Context `{BpqsHash} (P : BpqsParams).

(** [let mut out = [0u8; 32]; out[..P::N].copy_from_slice(&wide[..P::N])] *)
Definition narrow (wide : bytes) : bytes := take (N P) wide ++ replicate (32 - N P) 0.

(** [let mut out = [[0u8; 32]; 256]; for (i, slot) in out.iter_mut().take(P::LEN).enumerate()] *)
Definition lanes (f : nat → bytes) : list bytes :=
  imap (λ i slot, if (i <? LEN P)%nat then f i else slot) (replicate 256 zero32).

Definition epoch_secret_chains (epoch_seed : bytes) : list bytes :=
  lanes (λ i, narrow (digest32 WOTS_CHAIN_SEED [epoch_seed; le_bytes 4 (Z.of_nat i)])).

Definition chain_step (x : bytes) (chain : nat) : bytes :=
  narrow (digest32 WOTS_CHAIN_STEP [take (N P) x; le_bytes 4 (Z.of_nat chain)]).

(** [chain_repeat], which [chain_walk] calls. *)
Fixpoint chain_walk (x : bytes) (steps : nat) (chain : nat) : bytes :=
  match steps with O => x | S steps => chain_walk (chain_step x chain) steps chain end.

Definition nibbles (msg : bytes) : list Z := flat_map (λ byte, [Z.shiftr byte 4; Z.land byte 15]) (take (N P) msg).

Definition checksum (digits : list Z) : Z := sumZ ((λ d, WIN P - 1 - d) <$> digits).

(** The array of 256 digits: those of the message, of the checksum, zeros. *)
Definition digits_of (msg : bytes) : list Z :=
  let digits := nibbles msg in
  let sum := checksum (take (LEN1 P) (digits ++ replicate (256 - length digits) 0)) in
  let tail := (λ i, Z.land (Z.shiftr sum (4 * Z.of_nat (LEN2 P - 1 - i))) 15) <$> seq 0 (LEN2 P) in
  digits ++ tail ++ replicate (256 - length digits - LEN2 P) 0.

Definition vk_compress (heads : list bytes) : bytes :=
  narrow (digest32 WOTS_VK_COMPRESS [flat_map (take (N P)) (take (LEN P) heads)]).

Definition vk_of_chains (chains : list bytes) : bytes :=
  vk_compress (lanes (λ i, chain_walk (chains !!! i) (Z.to_nat (WIN P) - 1) i)).

Definition sign_chains (chains : list bytes) (msg_digest : bytes) : list bytes :=
  let digits := digits_of msg_digest in
  lanes (λ i, chain_walk (chains !!! i) (Z.to_nat (digits !!! i)) i).

Definition verify_chains (sig_chains : list bytes) (msg_digest : bytes) : bytes :=
  let digits := digits_of msg_digest in
  vk_compress (lanes (λ i, chain_walk (sig_chains !!! i) (Z.to_nat (WIN P) - 1 - Z.to_nat (digits !!! i)) i)).
End wots.
End Wots.

(** ** The epoch tree: [merkle.rs] *)
Module EpochTree.
Section tree.
Context `{BpqsHash} (P : BpqsParams).

Definition leaf (vk_digest : bytes) : bytes := Wots.narrow P (digest32 MERKLE_LEAF [take (N P) vk_digest]).
Definition node (left right : bytes) : bytes :=
  Wots.narrow P (digest32 MERKLE_NODE [take (N P) left; take (N P) right]).

(** [lower.chunks_exact(2)]: an odd last element is left out. *)
Fixpoint upper_level (lower : list bytes) : list bytes :=
  match lower with a :: b :: lower => node a b :: upper_level lower | _ => [] end.

(** [while levels.last().map(|l| l.len()) != Some(1)]; [None] is a loop that has not ended. *)
Fixpoint grow (fuel : nat) (lower : list bytes) : option (list (list bytes)) :=
  if (length lower =? 1)%nat then Some [lower]
  else match fuel with O => None | S fuel => cons lower <$> grow fuel (upper_level lower) end.

Definition build_tree (vk_digests : list bytes) : option (result BpqsError (bytes * list (list bytes))) :=
  if negb (length vk_digests =? 2 ^ T_LOG2 P)%nat then Some (Err (Malformed LeavesMismatch))
  else
    levels ← grow (length vk_digests) (leaf <$> vk_digests);
    Some (Ok (default [] (last levels) !!! 0%nat, levels)).

(** The loop over the levels, one entry of the path each. *)
Fixpoint siblings (levels : list (list bytes)) (cursor : nat) : result BpqsError (list bytes) :=
  match levels with
  | [] => Ok []
  | level :: levels =>
      let sibling := Nat.lxor cursor 1 in
      if (length level <=? sibling)%nat then Err (Malformed LevelShort)
      else let? path := siblings levels (cursor / 2) in Ok (level !!! sibling :: path)
  end.

Definition auth_path (levels : list (list bytes)) (index : nat) : result BpqsError (list bytes) :=
  if (16 <? T_LOG2 P)%nat then Err (Malformed HeightBudget)
  else if negb (length levels =? T_LOG2 P + 1)%nat || negb (length (levels !!! 0%nat) =? 2 ^ T_LOG2 P)%nat
  then Err (Malformed TreeShape)
  else if (2 ^ T_LOG2 P <=? index)%nat then Err (Malformed LeafIndex)
  else let? path := siblings (take (T_LOG2 P) levels) index in Ok (path ++ replicate (16 - T_LOG2 P) zero32).

(** [for sib in path.iter().take(..)]: the node above, and half the cursor. *)
Fixpoint climb (cur : bytes) (cursor : nat) (path : list bytes) : bytes :=
  match path with
  | [] => cur
  | sib :: path => climb (if Nat.even cursor then node cur sib else node sib cur) (cursor / 2) path
  end.

Definition verify_path (leaf_value : bytes) (index : nat) (path : list bytes) (expected_root : bytes) : result BpqsError unit :=
  let cur := climb (leaf leaf_value) index (take (T_LOG2 P `min` 16) path) in
  if decide (take (N P) cur = take (N P) expected_root) then Ok () else Err BadAuthPath.
End tree.
End EpochTree.

(** ** Signing: [sign.rs] *)
Module BpqsSign.

Record BpqsPublicKey := mkPublic { root : bytes; window : Z; params_name : string }.
Record BpqsSignature := mkSignature { epoch : Z; randomizer : bytes; chains : list bytes; path : list bytes }.
Record BpqsSigner := mkSigner { levels : list (list bytes); root_seed : bytes; public : BpqsPublicKey }.

Section sign.
Context `{BpqsHash} (P : BpqsParams).

(** The verification digest of an epoch. *)
Definition epoch_vk (seed : bytes) (epoch : nat) : bytes :=
  Wots.vk_of_chains P (Wots.epoch_secret_chains P (Epoch.prf_epoch_seed seed (Z.of_nat epoch))).

Definition ceremonial_keygen (seed : bytes) (w : Z) : option (result BpqsError BpqsSigner) :=
  r ← EpochTree.build_tree P (epoch_vk seed <$> seq 0 (2 ^ T_LOG2 P));
  Some (let? (rt, lv) := r in Ok (mkSigner lv seed (mkPublic rt w (NAME P)))).

Definition keygen_root (seed : bytes) (w : Z) : option (result BpqsError BpqsPublicKey) :=
  r ← ceremonial_keygen seed w; Some (let? signer := r in Ok (public signer)).

(** [H::digest32(domains::MESSAGE_BIND_V1, &[&randomizer, msg])] *)
Definition bound (r msg : bytes) : bytes := digest32 MESSAGE_BIND_V1 [r; msg].

Definition sign_at_height (signer : BpqsSigner) (height per_epoch_count : Z) (msg : bytes) : result BpqsError BpqsSignature :=
  let? ep := Epoch.epoch_of height (window (public signer)) in
  if Q_MAX P <=? per_epoch_count then Err (QuotaExceeded ep ((per_epoch_count + 1) mod 2 ^ 32))
  else if 2 ^ Z.of_nat (T_LOG2 P) <=? ep then Err (Malformed Headroom)
  else
    let secret := Wots.epoch_secret_chains P (Epoch.prf_epoch_seed (root_seed signer) ep) in
    let r := take 16 (digest32 RANDOMIZER [root_seed signer; le_bytes 4 ep; le_bytes 4 per_epoch_count; msg]) in
    let segments := Wots.sign_chains P secret (bound r msg) in
    let? p := EpochTree.auth_path P (levels signer) (Z.to_nat ep) in
    Ok (mkSignature ep r (imap (λ i lane, if (i <? LEN P)%nat then lane else zero32) segments) p).

Definition verify_at_height (pub : BpqsPublicKey) (height : Z) (msg : bytes) (sig : BpqsSignature) : result BpqsError unit :=
  if negb (String.eqb (params_name pub) (NAME P)) then Err (Malformed ParameterRows)
  else
    let? expected := Epoch.epoch_of height (window pub) in
    if negb (epoch sig =? expected) then Err (EpochMismatch expected (epoch sig))
    else if 2 ^ Z.of_nat (T_LOG2 P) <=? epoch sig then Err (Malformed Headroom)
    else
      let rebuilt := Wots.verify_chains P (chains sig) (bound (randomizer sig) msg) in
      EpochTree.verify_path P rebuilt (Z.to_nat (epoch sig)) (path sig) (root pub).
End sign.
End BpqsSign.
