(* ===== verification/BpqsProps.v ===== *)
(** * Signatures: what is signed verifies, and what verifies was signed

    [WotsLemmas] and [TreeLemmas] are about one epoch key and the tree of
    them; [Calls] lists the hash calls of a verification, among which the
    theorems exclude collisions; [BpqsTheorems] has the theorems. *)
From stdpp Require Import base tactics numbers list sets strings.
From Stdlib Require Import ZArith Lia.
From S2P Require Import Prelude Bpqs.
Import Params BpqsDomains.
Open Scope Z_scope.

(** ** One epoch key *)
Module WotsLemmas.
Import Wots.
Section wots.
Context `{BpqsHash} (P : BpqsParams) (HP : row P).

Lemma row_LEN_small : (LEN P ≤ 67)%nat.
Proof. destruct HP. lia. Qed.

Lemma length_narrow wide : length wide = 32%nat → length (narrow P wide) = 32%nat.
Proof. intros Hw. destruct HP. unfold narrow. rewrite length_app, length_take, length_replicate. lia. Qed.

Lemma take_narrow wide : length wide = 32%nat → take (N P) (narrow P wide) = take (N P) wide.
Proof. intros Hw. destruct HP. unfold narrow. rewrite take_app_le, take_take by (rewrite length_take; lia). f_equal. lia. Qed.

Lemma length_lanes f : length (lanes P f) = 256%nat.
Proof. unfold lanes. by rewrite length_imap, length_replicate. Qed.

Lemma lookup_lanes f i : (i < 256)%nat → lanes P f !! i = Some (if (i <? LEN P)%nat then f i else zero32).
Proof. intros Hi. unfold lanes. by rewrite list_lookup_imap, lookup_replicate_2. Qed.

Lemma lookup_total_lanes f i : (i < LEN P)%nat → lanes P f !!! i = f i.
Proof.
  intros Hi. pose proof row_LEN_small. apply list_lookup_total_correct. rewrite lookup_lanes by lia.
  by rewrite (proj2 (Nat.ltb_lt _ _)).
Qed.

Lemma take_lanes f : take (LEN P) (lanes P f) = f <$> seq 0 (LEN P).
Proof.
  pose proof row_LEN_small. apply list_eq. intros i. rewrite list_lookup_fmap.
  destruct (decide (i < LEN P)%nat) as [Hi|Hi].
  - rewrite lookup_take_lt, lookup_lanes, lookup_seq_lt by lia. simpl.
    by rewrite (proj2 (Nat.ltb_lt _ _)).
  - rewrite lookup_take_ge, lookup_seq_ge by lia. done.
Qed.

Lemma chain_walk_add x a b c : chain_walk P x (a + b) c = chain_walk P (chain_walk P x a c) b c.
Proof. revert x. induction a as [|a IH]; intros x; [done|]. apply IH. Qed.

Lemma length_chain_walk x n c : length x = 32%nat → length (chain_walk P x n c) = 32%nat.
Proof. revert x. induction n as [|n IH]; intros x Hx; [done|]. apply IH, length_narrow, digest32_length. Qed.

(** *** Digits *)
Definition byte_list (l : bytes) : Prop := Forall (λ b, 0 ≤ b < 256) l.

Lemma length_nibbles m : length m = 32%nat → length (nibbles P m) = LEN1 P.
Proof.
  intros Hm. destruct HP as [? _ -> _ _ _]. unfold nibbles.
  assert (∀ l : bytes, length (flat_map (λ byte, [Z.shiftr byte 4; Z.land byte 15]) l) = (2 * length l)%nat) as ->.
  { induction l; simpl in *; lia. }
  rewrite length_take. lia.
Qed.

Lemma nibble_split b : 0 ≤ b < 256 → 0 ≤ Z.shiftr b 4 < 16 ∧ 0 ≤ Z.land b 15 < 16 ∧ b = 16 * Z.shiftr b 4 + Z.land b 15.
Proof. intros Hb. change 15 with (Z.ones 4). rewrite Z.land_ones, Z.shiftr_div_pow2 by lia. change (2 ^ 4) with 16. div_lia. Qed.

Lemma nibbles_range m : byte_list m → Forall (λ d, 0 ≤ d < 16) (nibbles P m).
Proof.
  intros Hm. unfold nibbles. apply Forall_flat_map. apply (Forall_impl _ _ _ (Forall_take _ (N P) _ Hm)). intros b Hb.
  destruct (nibble_split b Hb) as (?&?&?). by apply Forall_cons_2; [|apply Forall_cons_2; [|apply Forall_nil_2]].
Qed.

Lemma nibbles_inj m1 m2 : byte_list m1 → byte_list m2 → nibbles P m1 = nibbles P m2 → take (N P) m1 = take (N P) m2.
Proof.
  intros H1 H2. unfold nibbles. apply (Forall_take _ (N P)) in H1. apply (Forall_take _ (N P)) in H2.
  revert H1 H2. generalize (take (N P) m1) as l1, (take (N P) m2) as l2.
  induction l1 as [|a l1 IH]; intros [|b l2] H1 H2; try done. cbn [flat_map app]. intros [= Eh El E].
  inversion_clear H1 as [|? ? Ha Hl1]. inversion_clear H2 as [|? ? Hb Hl2].
  pose proof (nibble_split a Ha). pose proof (nibble_split b Hb). f_equal; [lia|]. by apply IH.
Qed.

Definition sum_of (m : bytes) : Z := checksum P (nibbles P m).

Lemma digits_of_eq m : length m = 32%nat → digits_of P m =
  nibbles P m ++ [Z.land (Z.shiftr (sum_of m) 8) 15; Z.land (Z.shiftr (sum_of m) 4) 15; Z.land (Z.shiftr (sum_of m) 0) 15] ++
  replicate (256 - LEN1 P - 3) 0.
Proof.
  intros Hm. unfold digits_of. rewrite (length_nibbles m Hm), take_app_length' by (by rewrite length_nibbles).
  destruct HP as [_ _ _ -> _ _]. done.
Qed.

Lemma checksum_bound l : WIN P = 16 → Forall (λ d, 0 ≤ d < 16) l → 0 ≤ checksum P l ≤ 15 * Z.of_nat (length l).
Proof.
  intros HW Hl. unfold checksum. rewrite HW. induction Hl as [|d l Hd Hl IH]; [done|].
  rewrite fmap_cons, sumZ_cons. cbn [length]. lia.
Qed.

Lemma sum_bound m : length m = 32%nat → byte_list m → 0 ≤ sum_of m < 4096.
Proof.
  intros Hm Hb. pose proof (checksum_bound _ (row_WIN _ HP) (nibbles_range m Hb)) as Hc.
  rewrite length_nibbles in Hc by done. unfold sum_of. destruct HP. lia.
Qed.

Lemma checksum_digits s : 0 ≤ s < 4096 → let a := Z.land (Z.shiftr s 8) 15 in let b := Z.land (Z.shiftr s 4) 15 in
  let c := Z.land (Z.shiftr s 0) 15 in (0 ≤ a < 16 ∧ 0 ≤ b < 16 ∧ 0 ≤ c < 16) ∧ s = 256 * a + 16 * b + c.
Proof.
  intros Hs. cbv zeta. change 15 with (Z.ones 4). rewrite !Z.land_ones, !Z.shiftr_div_pow2 by lia.
  change (2 ^ 8) with 256. change (2 ^ 4) with 16. change (2 ^ 0) with 1. div_lia.
Qed.

Lemma length_digits m : length m = 32%nat → length (digits_of P m) = 256%nat.
Proof.
  intros Hm. rewrite digits_of_eq, !length_app, length_nibbles, length_replicate by done. destruct HP. simpl. lia.
Qed.

Lemma digits_range m i : length m = 32%nat → byte_list m → 0 ≤ digits_of P m !!! i < 16.
Proof.
  intros Hm Hb. pose proof (checksum_digits _ (sum_bound m Hm Hb)) as [(?&?&?) _].
  assert (Forall (λ d, 0 ≤ d < 16) (digits_of P m)) as Hall.
  { rewrite digits_of_eq by done. apply Forall_app. split; [by apply nibbles_range|].
    repeat (constructor; [done|]). by apply Forall_replicate. }
  destruct (digits_of P m !! i) as [d|] eqn:E.
  - rewrite (list_lookup_total_correct _ _ _ E). exact (Forall_lookup_1 _ _ _ _ Hall E).
  - rewrite list_lookup_total_alt, E. done.
Qed.

(** A message digest that is not smaller in some digit is the same. *)
Lemma sum_dominated l1 l2 : length l1 = length l2 → (∀ i, (i < length l1)%nat → l1 !!! i ≤ l2 !!! i) →
  checksum P l2 ≤ checksum P l1 ∧ (checksum P l2 = checksum P l1 → l1 = l2).
Proof.
  revert l2. induction l1 as [|a l1 IH]; intros [|b l2] Hl Hd; try done. unfold checksum in *.
  rewrite !fmap_cons, !sumZ_cons. pose proof (Hd 0%nat ltac:(simpl; lia)) as H0. simpl in H0.
  destruct (IH l2) as [Hle Heq]; [by injection Hl|intros i Hi; apply (Hd (S i)); simpl; lia|].
  split; [lia|]. intros E. rewrite Heq by lia. f_equal. lia.
Qed.

Lemma digits_head m i : length m = 32%nat → (i < LEN1 P)%nat → digits_of P m !!! i = nibbles P m !!! i.
Proof. intros Hm Hi. rewrite digits_of_eq by done. apply lookup_total_app_l. by rewrite length_nibbles. Qed.

Lemma digits_tail m k : length m = 32%nat → (k < 3)%nat → digits_of P m !!! (LEN1 P + k)%nat =
  [Z.land (Z.shiftr (sum_of m) 8) 15; Z.land (Z.shiftr (sum_of m) 4) 15; Z.land (Z.shiftr (sum_of m) 0) 15] !!! k.
Proof.
  intros Hm Hk. rewrite digits_of_eq by done. rewrite lookup_total_app_r by (rewrite length_nibbles; lia || done).
  rewrite length_nibbles, Nat.add_sub' by done. by apply lookup_total_app_l.
Qed.

Lemma digits_antichain m1 m2 : length m1 = 32%nat → length m2 = 32%nat → byte_list m1 → byte_list m2 →
  (∀ i, (i < LEN P)%nat → digits_of P m1 !!! i ≤ digits_of P m2 !!! i) → take (N P) m1 = take (N P) m2.
Proof.
  intros L1 L2 B1 B2 Hd. apply nibbles_inj; [done..|].
  pose proof (length_nibbles m1 L1) as N1. pose proof (length_nibbles m2 L2) as N2.
  destruct (sum_dominated (nibbles P m1) (nibbles P m2)) as [Hle Heq]; [congruence|intros i Hi|].
  - rewrite <- !digits_head by (done || congruence). apply Hd. destruct HP. lia.
  - apply Heq. fold (sum_of m1) (sum_of m2) in *.
    pose proof (checksum_digits _ (sum_bound m1 L1 B1)) as [? E1]. pose proof (checksum_digits _ (sum_bound m2 L2 B2)) as [? E2].
    assert (∀ k, (k < 3)%nat → digits_of P m1 !!! (LEN1 P + k)%nat ≤ digits_of P m2 !!! (LEN1 P + k)%nat) as Ht
      by (intros k Hk; apply Hd; destruct HP; lia).
    pose proof (Ht 0%nat ltac:(lia)) as D0. pose proof (Ht 1%nat ltac:(lia)) as D1. pose proof (Ht 2%nat ltac:(lia)) as D2.
    rewrite !digits_tail in D0 by (done || lia). rewrite !digits_tail in D1 by (done || lia). rewrite !digits_tail in D2 by (done || lia).
    simpl in D0, D1, D2. lia.
Qed.

(** Continuing the segments of a signature gives the key. *)
Lemma verify_sign_chains secret m : length m = 32%nat → byte_list m →
  verify_chains P (sign_chains P secret m) m = vk_of_chains P secret.
Proof.
  intros Hm Hb. unfold verify_chains, vk_of_chains, vk_compress. rewrite !take_lanes. do 4 f_equal.
  apply list_fmap_ext. intros i ? [-> Hi]%lookup_seq. unfold sign_chains.
  rewrite lookup_total_lanes by done. rewrite <- chain_walk_add. f_equal.
  pose proof (digits_range m (0 + i) Hm Hb). rewrite (row_WIN _ HP). lia.
Qed.
End wots.
End WotsLemmas.

(** ** The tree of the epoch keys *)
Module TreeLemmas.
Import EpochTree.
Section tree.
Context `{BpqsHash} (P : BpqsParams) (HP : row P).

Lemma length_upper_level k l : length l = (2 * k)%nat → length (upper_level P l) = k.
Proof.
  revert k. induction l as [|x|x y l IH] using list_pair_ind; intros k Hl; simpl in *; [lia|lia|].
  rewrite (IH (k - 1)%nat); lia.
Qed.

Lemma lookup_upper_level l : ∀ i k, length l = (2 * k)%nat → (i < k)%nat →
  upper_level P l !!! i = node P (l !!! (2 * i)%nat) (l !!! (2 * i + 1)%nat).
Proof.
  induction l as [|x|x y l IH] using list_pair_ind; intros i k Hl Hi; cbn [length] in Hl; [lia|lia|].
  destruct i as [|i]; [done|]. cbn [upper_level]. rewrite lookup_total_cons_ne_0, Nat.pred_succ by lia.
  rewrite (IH i (k - 1)%nat) by lia.
  replace (2 * S i)%nat with (S (S (2 * i))) by lia. done.
Qed.

Lemma lxor_even h : Nat.lxor (2 * h) 1 = (2 * h + 1)%nat.
Proof. symmetry. apply Nat.add_nocarry_lxor. change 1%nat with (Nat.ones 1). rewrite Nat.land_ones, Nat.mul_comm. apply Nat.Div0.mod_mul. Qed.

Lemma lxor_odd h : Nat.lxor (2 * h + 1) 1 = (2 * h)%nat.
Proof. rewrite <- lxor_even, Nat.lxor_assoc, Nat.lxor_nilpotent. apply Nat.lxor_0_r. Qed.

(** The level above, at half the index, is the node of the entry and its sibling. *)
Lemma climb_step l k i : length l = (2 * k)%nat → (i < 2 * k)%nat →
  (if Nat.even i then node P (l !!! i) (l !!! Nat.lxor i 1) else node P (l !!! Nat.lxor i 1) (l !!! i)) = upper_level P l !!! (i / 2)%nat ∧
  (Nat.lxor i 1 < 2 * k)%nat ∧ (i / 2 < k)%nat.
Proof.
  intros Hl Hi. destruct (Nat.Even_or_Odd i) as [[h ->]|[h ->]].
  - replace (2 * h / 2)%nat with h by (rewrite Nat.mul_comm, Nat.div_mul; lia).
    rewrite (lookup_upper_level l _ k), lxor_even by lia. rewrite (proj2 (Nat.even_spec _)) by (by exists h). split; [done|lia].
  - replace ((2 * h + 1) / 2)%nat with h by (rewrite Nat.mul_comm, Nat.div_add_l; simpl; lia).
    rewrite (lookup_upper_level l _ k), lxor_odd by lia.
    assert (Nat.even (2 * h + 1) = false) as -> by (by rewrite Nat.even_add, (proj2 (Nat.even_spec _)) by (by exists h)).
    split; [done|lia].
Qed.

Lemma wide_upper_level l : Forall (λ x, length x = 32%nat) (upper_level P l).
Proof.
  induction l as [|x|x y l IH] using list_pair_ind; simpl; [done|done|]. constructor; [|done].
  apply WotsLemmas.length_narrow; [done|apply digest32_length].
Qed.

(** A tree of [2 ^ k] leaves: the loop ends, and each leaf has a path that leads to the root. *)
Lemma grow_paths k : ∀ fuel lower, length lower = (2 ^ k)%nat → (k ≤ fuel)%nat → Forall (λ x, length x = 32%nat) lower →
  ∃ levels, grow P fuel lower = Some levels ∧ length levels = S k ∧ levels !! 0%nat = Some lower ∧
  ∀ index, (index < 2 ^ k)%nat → ∃ path, siblings (take k levels) index = Ok path ∧
    length path = k ∧ Forall (λ x, length x = 32%nat) path ∧
    climb P (lower !!! index) index path = default [] (last levels) !!! 0%nat.
Proof.
  induction k as [|k IH]; intros fuel lower Hl Hf Hw.
  - exists [lower]. split; [destruct fuel; simpl; by rewrite Hl|]. split; [done|]. split; [done|].
    intros index Hi. exists []. replace index with 0%nat by (simpl in Hi; lia). done.
  - destruct fuel as [|fuel]; [lia|]. rewrite Nat.pow_succ_r' in Hl. pose proof (Nat.pow_nonzero 2 k ltac:(lia)) as H0.
    destruct (IH fuel (upper_level P lower)) as (levels&E&Hlen&Hhd&Hpath); [by apply length_upper_level|lia|apply wide_upper_level|].
    exists (lower :: levels). cbn [grow]. rewrite (proj2 (Nat.eqb_neq _ _)) by lia. rewrite E.
    split; [done|]. split; [simpl; lia|]. split; [done|]. intros index Hi. rewrite Nat.pow_succ_r' in Hi.
    destruct (climb_step lower (2 ^ k) index Hl Hi) as (Hstep&Hx&Hh). destruct (Hpath _ Hh) as (path&Ep&Hpl&Hpw&Hc).
    exists (lower !!! Nat.lxor index 1 :: path). cbn [take siblings climb].
    rewrite (proj2 (Nat.leb_gt _ _)), Ep by lia. split; [done|]. split; [simpl; lia|]. split.
    + constructor; [|done]. destruct (lookup_lt_is_Some_2 lower (Nat.lxor index 1)) as [x Hx']; [lia|].
      rewrite (list_lookup_total_correct _ _ _ Hx'). exact (Forall_lookup_1 _ _ _ _ Hw Hx').
    + rewrite Hstep, Hc. by destruct levels as [|lv levels].
Qed.

Lemma build_tree_paths vks : length vks = (2 ^ T_LOG2 P)%nat → ∃ root levels, build_tree P vks = Some (Ok (root, levels)) ∧
  ∀ index, (index < 2 ^ T_LOG2 P)%nat → ∃ path, auth_path P levels index = Ok (path ++ replicate (16 - T_LOG2 P) zero32) ∧
    length path = T_LOG2 P ∧ Forall (λ x, length x = 32%nat) path ∧ climb P (leaf P (vks !!! index)) index path = root.
Proof.
  intros Hl. destruct (grow_paths (T_LOG2 P) (length vks) (leaf P <$> vks)) as (levels&E&Hlen&Hhd&Hpath).
  - by rewrite length_fmap.
  - rewrite Hl. apply Nat.lt_le_incl, Nat.pow_gt_lin_r. lia.
  - apply Forall_fmap, Forall_true. intros x. apply WotsLemmas.length_narrow; [done|apply digest32_length].
  - eexists _, levels. unfold build_tree. rewrite Hl, Nat.eqb_refl, <- Hl, E. split; [done|]. intros index Hi. rewrite Hl in Hi.
    destruct (Hpath index Hi) as (path&Ep&Hpl&Hpw&Hc). exists path. split; [|split; [done|split; [done|]]].
    + unfold auth_path. rewrite (proj2 (Nat.ltb_ge _ _)) by (destruct HP; lia).
      rewrite (list_lookup_total_correct _ _ _ Hhd), length_fmap, Hl, Hlen, Nat.add_1_r, !Nat.eqb_refl. cbn [negb orb].
      rewrite (proj2 (Nat.leb_gt _ _)), Ep by done. done.
    + rewrite <- Hc. f_equal. symmetry. apply list_lookup_total_correct. rewrite list_lookup_fmap.
      rewrite (list_lookup_lookup_total_lt vks) by lia. done.
Qed.
End tree.
End TreeLemmas.

(** ** The hash calls of a verification *)
Module Calls.
Import Wots EpochTree BpqsSign.
Section calls.
Context `{BpqsHash} (P : BpqsParams) (HP : row P).

Definition Call : Type := bytes * list bytes.

(** The part of the digest that is used. *)
Definition short (c : Call) : bytes := take (N P) (digest32 c.1 c.2).

Definition calls_free (l : list Call) : Prop := ∀ a b, a ∈ l → b ∈ l → short a = short b → a = b.

Definition calls_freeb (l : list Call) : bool :=
  let ds := (λ c, (c, short c)) <$> l in
  forallb (λ '(a, x), forallb (λ '(b, y), negb (bool_decide (x = y)) || bool_decide (a = b)) ds) ds.

Lemma calls_freeb_spec l : calls_freeb l = true → calls_free l.
Proof.
  unfold calls_freeb. cbv zeta. intros Hall a b Ha Hb E. rewrite forallb_forall in Hall.
  specialize (Hall (a, short a) (proj1 (list_elem_of_In _ _) (list_elem_of_fmap_2 _ _ _ Ha))). cbv beta iota in Hall.
  rewrite forallb_forall in Hall.
  specialize (Hall (b, short b) (proj1 (list_elem_of_In _ _) (list_elem_of_fmap_2 _ _ _ Hb))). cbv beta iota in Hall.
  rewrite bool_decide_true in Hall by done. by apply bool_decide_eq_true in Hall.
Qed.

Definition step_call (x : bytes) (chain : nat) : Call := (WOTS_CHAIN_STEP, [take (N P) x; le_bytes 4 (Z.of_nat chain)]).

Fixpoint walk_calls (x : bytes) (steps : nat) (chain : nat) : list Call :=
  match steps with O => [] | S steps => step_call x chain :: walk_calls (chain_step P x chain) steps chain end.

Definition compress_call (heads : list bytes) : Call := (WOTS_VK_COMPRESS, [flat_map (take (N P)) (take (LEN P) heads)]).
Definition leaf_call (vk : bytes) : Call := (MERKLE_LEAF, [take (N P) vk]).
Definition node_call (l r : bytes) : Call := (MERKLE_NODE, [take (N P) l; take (N P) r]).

Fixpoint climb_calls (cur : bytes) (cursor : nat) (path : list bytes) : list Call :=
  match path with
  | [] => []
  | sib :: path =>
      (if Nat.even cursor then node_call cur sib else node_call sib cur) ::
      climb_calls (if Nat.even cursor then node P cur sib else node P sib cur) (cursor / 2) path
  end.

(** The digit of chain [i] in a signature, and the steps left to its head. *)
Definition digit (sig : BpqsSignature) (msg : bytes) (i : nat) : nat :=
  Z.to_nat (digits_of P (bound (randomizer sig) msg) !!! i).
Definition head_of (sig : BpqsSignature) (msg : bytes) (i : nat) : bytes :=
  chain_walk P (chains sig !!! i) (15 - digit sig msg i) i.

Definition verify_calls (sig : BpqsSignature) (msg : bytes) : list Call :=
  let rebuilt := verify_chains P (chains sig) (bound (randomizer sig) msg) in
  (MESSAGE_BIND_V1, [randomizer sig; msg]) ::
  flat_map (λ i, walk_calls (chains sig !!! i) (15 - digit sig msg i) i) (seq 0 (LEN P)) ++
  [compress_call (lanes P (head_of sig msg)); leaf_call rebuilt] ++
  climb_calls (leaf P rebuilt) (Z.to_nat (epoch sig)) (take (T_LOG2 P `min` 16) (path sig)).

Lemma calls_free_mono l l' : l' ⊆ l → calls_free l → calls_free l'.
Proof. intros Hs Hl a b Ha Hb. apply Hl; by apply Hs. Qed.

Lemma short_narrow c d : narrow P (digest32 c.1 c.2) = narrow P (digest32 d.1 d.2) → short c = short d.
Proof.
  intros E. unfold short. rewrite <- (WotsLemmas.take_narrow P HP (digest32 c.1 c.2)), E by apply digest32_length.
  apply WotsLemmas.take_narrow; [done|apply digest32_length].
Qed.

Lemma chain_step_inj l x y c : calls_free l → step_call x c ∈ l → step_call y c ∈ l →
  take (N P) (chain_step P x c) = take (N P) (chain_step P y c) → take (N P) x = take (N P) y.
Proof.
  intros Hl Hx Hy E. unfold chain_step in E. rewrite !WotsLemmas.take_narrow in E by (done || apply digest32_length).
  by injection (Hl _ _ Hx Hy E).
Qed.

(** Two walks of the same length to the same end start at the same place. *)
Lemma chain_walk_inj l n c : ∀ x y, calls_free l → walk_calls x n c ⊆ l → walk_calls y n c ⊆ l →
  take (N P) (chain_walk P x n c) = take (N P) (chain_walk P y n c) → take (N P) x = take (N P) y.
Proof.
  induction n as [|n IH]; intros x y Hl Hx Hy E; [done|]. cbn [walk_calls] in Hx, Hy.
  eapply (chain_step_inj l x y c); [done|set_solver|set_solver|]. apply IH; [done|set_solver|set_solver|done].
Qed.

Lemma walk_calls_add x n m c : walk_calls x (n + m) c = walk_calls x n c ++ walk_calls (chain_walk P x n c) m c.
Proof. revert x. induction n as [|n IH]; intros x; [done|]. cbn. by rewrite IH. Qed.

(** Lists of lanes with the same concatenation of prefixes. *)
Lemma prefixes_inj (l1 l2 : list bytes) : length l1 = length l2 → Forall (λ x, N P ≤ length x)%nat l1 →
  Forall (λ x, N P ≤ length x)%nat l2 → flat_map (take (N P)) l1 = flat_map (take (N P)) l2 →
  take (N P) <$> l1 = take (N P) <$> l2.
Proof.
  revert l2. induction l1 as [|x l1 IH]; intros [|y l2] Hl H1 H2 E; try done.
  inversion_clear H1 as [|? ? Hx H1']. inversion_clear H2 as [|? ? Hy H2']. cbn [flat_map] in E.
  apply app_inj_1 in E as [E1 E2]; [|rewrite !length_take; lia]. rewrite !fmap_cons, E1. f_equal. apply IH; [by injection Hl|done..].
Qed.

Lemma node_inj l a b c d : calls_free l → node_call a b ∈ l → node_call c d ∈ l →
  take (N P) (node P a b) = take (N P) (node P c d) → take (N P) a = take (N P) c ∧ take (N P) b = take (N P) d.
Proof.
  intros Hl H1 H2 E. unfold node in E. rewrite !WotsLemmas.take_narrow in E by (done || apply digest32_length).
  by injection (Hl _ _ H1 H2 E).
Qed.

Lemma leaf_inj l a b : calls_free l → leaf_call a ∈ l → leaf_call b ∈ l →
  take (N P) (leaf P a) = take (N P) (leaf P b) → take (N P) a = take (N P) b.
Proof.
  intros Hl H1 H2 E. unfold leaf in E. rewrite !WotsLemmas.take_narrow in E by (done || apply digest32_length).
  by injection (Hl _ _ H1 H2 E).
Qed.

Lemma compress_inj l h1 h2 : calls_free l → compress_call h1 ∈ l → compress_call h2 ∈ l →
  take (N P) (vk_compress P h1) = take (N P) (vk_compress P h2) →
  flat_map (take (N P)) (take (LEN P) h1) = flat_map (take (N P)) (take (LEN P) h2).
Proof.
  intros Hl H1 H2 E. unfold vk_compress in E. rewrite !WotsLemmas.take_narrow in E by (done || apply digest32_length).
  by injection (Hl _ _ H1 H2 E).
Qed.

Lemma bind_inj l r1 m1 r2 m2 : calls_free l → (MESSAGE_BIND_V1, [r1; m1]) ∈ l → (MESSAGE_BIND_V1, [r2; m2]) ∈ l →
  take (N P) (bound r1 m1) = take (N P) (bound r2 m2) → r1 = r2 ∧ m1 = m2.
Proof. intros Hl H1 H2 E. by injection (Hl _ _ H1 H2 E). Qed.

Lemma climb_inj l p : ∀ q a b i, calls_free l → length p = length q → climb_calls a i p ⊆ l → climb_calls b i q ⊆ l →
  take (N P) (climb P a i p) = take (N P) (climb P b i q) →
  take (N P) a = take (N P) b ∧ take (N P) <$> p = take (N P) <$> q.
Proof.
  induction p as [|s p IH]; intros [|t q] a b i Hl Hlen Ha Hb E; try done. cbn [climb_calls climb] in *.
  destruct (IH q (if Nat.even i then node P a s else node P s a) (if Nat.even i then node P b t else node P t b) (i / 2)%nat)
    as [Hn Hp]; [done|by injection Hlen|set_solver|set_solver|done|]. rewrite !fmap_cons, Hp.
  destruct (Nat.even i); (eapply (node_inj l) in Hn as [-> ->]; [done|done|set_solver|set_solver]).
Qed.
End calls.
End Calls.

(** ** Theorems *)
Module BpqsTheorems.
Import Wots EpochTree BpqsSign Calls.
Section theorems.
Context `{BpqsHash} (P : BpqsParams) (HP : row P).

(** The type of a signature. *)
Definition sig_wf (sig : BpqsSignature) : Prop :=
  length (chains sig) = 256%nat ∧ Forall (λ x, length x = 32%nat) (chains sig) ∧
  length (path sig) = 16%nat ∧ Forall (λ x, length x = 32%nat) (path sig).

(** Two signatures with the same epoch, randomizer, segments and path, up to
    the bytes that no hash reads. *)
Definition agrees (s1 s2 : BpqsSignature) : Prop :=
  epoch s1 = epoch s2 ∧ randomizer s1 = randomizer s2 ∧
  take (N P) <$> take (LEN P) (chains s1) = take (N P) <$> take (LEN P) (chains s2) ∧
  take (N P) <$> take (T_LOG2 P) (path s1) = take (N P) <$> take (T_LOG2 P) (path s2).

Lemma verify_chains_heads sig msg :
  verify_chains P (chains sig) (bound (randomizer sig) msg) = vk_compress P (lanes P (head_of P sig msg)).
Proof. unfold verify_chains, head_of, digit. cbv zeta. by rewrite (row_WIN _ HP). Qed.

Lemma verify_ok pub height msg sig : verify_at_height P pub height msg sig = Ok () →
  Epoch.epoch_of height (window pub) = Ok (epoch sig) ∧
  take (N P) (climb P (leaf P (vk_compress P (lanes P (head_of P sig msg)))) (Z.to_nat (epoch sig)) (take (T_LOG2 P) (path sig))) =
    take (N P) (root pub).
Proof.
  unfold verify_at_height. destruct (String.eqb _ _); [|done]. cbn [negb].
  destruct (Epoch.epoch_of _ _) as [e|]; [|done]. destruct (epoch sig =? e) eqn:Ee; [|done]. apply Z.eqb_eq in Ee as ->. cbn [negb].
  destruct (2 ^ Z.of_nat (T_LOG2 P) <=? e); [done|]. unfold verify_path. rewrite verify_chains_heads.
  replace (T_LOG2 P `min` 16)%nat with (T_LOG2 P) by (destruct HP; lia). by case_decide.
Qed.

Lemma bound_ok r msg : length (bound r msg) = 32%nat ∧ WotsLemmas.byte_list (bound r msg).
Proof. split; [apply digest32_length|apply digest32_bytes]. Qed.

Lemma digit_range sig msg i : (digit P sig msg i < 16)%nat.
Proof. destruct (bound_ok (randomizer sig) msg) as [Hl Hb]. pose proof (WotsLemmas.digits_range P HP _ i Hl Hb). unfold digit. lia. Qed.

Lemma lane_length sig i : sig_wf sig → (i < LEN P)%nat → length (chains sig !!! i) = 32%nat.
Proof.
  intros (Hl&Hf&_) Hi. pose proof (WotsLemmas.row_LEN_small P HP).
  destruct (lookup_lt_is_Some_2 (chains sig) i) as [x Hx]; [lia|].
  rewrite (list_lookup_total_correct _ _ _ Hx). exact (Forall_lookup_1 _ _ _ _ Hf Hx).
Qed.

Lemma heads_long sig msg : sig_wf sig → Forall (λ x, (N P ≤ length x)%nat) (take (LEN P) (lanes P (head_of P sig msg))).
Proof.
  intros Hs. rewrite WotsLemmas.take_lanes by done. apply Forall_fmap, Forall_seq. intros i [_ Hi]. simpl.
  unfold head_of. rewrite WotsLemmas.length_chain_walk by (done || by apply lane_length). destruct HP. lia.
Qed.

(** The calls by their place in a verification. *)
Lemma verify_calls_eq sig msg : verify_calls P sig msg =
  (MESSAGE_BIND_V1, [randomizer sig; msg]) ::
  flat_map (λ i, walk_calls P (chains sig !!! i) (15 - digit P sig msg i) i) (seq 0 (LEN P)) ++
  [compress_call P (lanes P (head_of P sig msg)); leaf_call P (vk_compress P (lanes P (head_of P sig msg)))] ++
  climb_calls P (leaf P (vk_compress P (lanes P (head_of P sig msg)))) (Z.to_nat (epoch sig)) (take (T_LOG2 P) (path sig)).
Proof.
  unfold verify_calls. rewrite verify_chains_heads.
  by replace (T_LOG2 P `min` 16)%nat with (T_LOG2 P) by (destruct HP; lia).
Qed.

Lemma calls_bind sig msg : (MESSAGE_BIND_V1, [randomizer sig; msg]) ∈ verify_calls P sig msg.
Proof. rewrite verify_calls_eq. apply elem_of_cons. by left. Qed.

Lemma calls_walk sig msg i : (i < LEN P)%nat → walk_calls P (chains sig !!! i) (15 - digit P sig msg i) i ⊆ verify_calls P sig msg.
Proof.
  intros Hi c Hc. rewrite verify_calls_eq. apply elem_of_cons. right. apply elem_of_app. left.
  apply list_elem_of_In, in_flat_map. exists i. split; [apply in_seq; lia|by apply list_elem_of_In].
Qed.

Lemma calls_compress sig msg : compress_call P (lanes P (head_of P sig msg)) ∈ verify_calls P sig msg.
Proof. rewrite verify_calls_eq. apply elem_of_cons. right. apply elem_of_app. right. apply elem_of_app. left. apply elem_of_cons. by left. Qed.

Lemma calls_leaf sig msg : leaf_call P (vk_compress P (lanes P (head_of P sig msg))) ∈ verify_calls P sig msg.
Proof.
  rewrite verify_calls_eq. apply elem_of_cons. right. apply elem_of_app. right. apply elem_of_app. left.
  apply elem_of_cons. right. by apply list_elem_of_singleton.
Qed.

Lemma calls_climb sig msg :
  climb_calls P (leaf P (vk_compress P (lanes P (head_of P sig msg)))) (Z.to_nat (epoch sig)) (take (T_LOG2 P) (path sig)) ⊆ verify_calls P sig msg.
Proof. intros c Hc. rewrite verify_calls_eq. apply elem_of_cons. right. apply elem_of_app. right. apply elem_of_app. by right. Qed.

Section two.
Context (pub : BpqsPublicKey) (height : Z) (m1 m2 : bytes) (s1 s2 : BpqsSignature).
Hypothesis W1 : sig_wf s1.
Hypothesis W2 : sig_wf s2.
Hypothesis V1 : verify_at_height P pub height m1 s1 = Ok ().
Hypothesis V2 : verify_at_height P pub height m2 s2 = Ok ().
Hypothesis Hfree : calls_free P (verify_calls P s1 m1 ++ verify_calls P s2 m2).

Lemma same_epoch : epoch s1 = epoch s2.
Proof. apply verify_ok in V1 as [E1 _]. apply verify_ok in V2 as [E2 _]. congruence. Qed.

Lemma same_tree : take (N P) (vk_compress P (lanes P (head_of P s1 m1))) = take (N P) (vk_compress P (lanes P (head_of P s2 m2))) ∧
  take (N P) <$> take (T_LOG2 P) (path s1) = take (N P) <$> take (T_LOG2 P) (path s2).
Proof.
  destruct (verify_ok _ _ _ _ V1) as [_ E1]. destruct (verify_ok _ _ _ _ V2) as [_ E2]. rewrite <- same_epoch in E2. rewrite <- E2 in E1.
  pose proof (calls_climb s1 m1) as C1. pose proof (calls_climb s2 m2) as C2. rewrite <- same_epoch in C2.
  eapply (climb_inj P HP) in E1 as [El Hp]; [|exact Hfree| |intros c Hc; apply elem_of_app; left; by apply C1|
    intros c Hc; apply elem_of_app; right; by apply C2].
  - split; [|done].
    by apply (leaf_inj P HP _ _ _ Hfree) in El; [|apply elem_of_app; left; apply calls_leaf|apply elem_of_app; right; apply calls_leaf].
  - destruct W1 as (_&_&L1&_). destruct W2 as (_&_&L2&_). rewrite !length_take. lia.
Qed.

Lemma same_heads i : (i < LEN P)%nat → take (N P) (head_of P s1 m1 i) = take (N P) (head_of P s2 m2 i).
Proof.
  intros Hi. destruct same_tree as [E _].
  apply (compress_inj P HP _ _ _ Hfree) in E as Hc;
    [|apply elem_of_app; left; apply calls_compress|apply elem_of_app; right; apply calls_compress].
  apply prefixes_inj in Hc; [|by rewrite !length_take, !WotsLemmas.length_lanes|by apply heads_long..].
  rewrite !WotsLemmas.take_lanes, <- !list_fmap_compose in Hc by done.
  assert (∀ f : nat → bytes, (f <$> seq 0 (LEN P)) !! i = Some (f i)) as Hf
    by (intros f; by rewrite list_lookup_fmap, lookup_seq_lt).
  assert (Some ((take (N P) ∘ head_of P s1 m1) i) = Some ((take (N P) ∘ head_of P s2 m2) i)) as Hs by (rewrite <- !Hf; by rewrite Hc).
  by injection Hs.
Qed.

(** Where the second signature opens a chain earlier, it has a preimage of the segment of the first. *)
Lemma opened_earlier i : (i < LEN P)%nat → (digit P s2 m2 i ≤ digit P s1 m1 i)%nat →
  take (N P) (chain_walk P (chains s2 !!! i) (digit P s1 m1 i - digit P s2 m2 i) i) = take (N P) (chains s1 !!! i).
Proof.
  intros Hi Hd. pose proof (same_heads i Hi) as Hh. pose proof (digit_range s1 m1 i) as H1. unfold head_of in Hh.
  pose proof (calls_walk s1 m1 i Hi) as C1. pose proof (calls_walk s2 m2 i Hi) as C2.
  replace (15 - digit P s2 m2 i)%nat with ((digit P s1 m1 i - digit P s2 m2 i) + (15 - digit P s1 m1 i))%nat in Hh, C2 by lia.
  rewrite WotsLemmas.chain_walk_add in Hh. rewrite walk_calls_add in C2. symmetry.
  eapply (chain_walk_inj P HP _ _ i); [exact Hfree|intros c Hc; apply elem_of_app; left; by apply C1| |exact Hh].
  intros c Hc. apply elem_of_app. right. apply C2, elem_of_app. by right.
Qed.

Lemma no_preimage_same : (∀ i, (i < LEN P)%nat → (digit P s1 m1 i ≤ digit P s2 m2 i)%nat) → m1 = m2 ∧ agrees s1 s2.
Proof.
  intros Hd. destruct (bound_ok (randomizer s1) m1) as [L1 B1]. destruct (bound_ok (randomizer s2) m2) as [L2 B2].
  assert (take (N P) (bound (randomizer s1) m1) = take (N P) (bound (randomizer s2) m2)) as Hb.
  { apply (WotsLemmas.digits_antichain P HP); [done..|]. intros i Hi. specialize (Hd i Hi). unfold digit in Hd.
    pose proof (WotsLemmas.digits_range P HP _ i L1 B1). pose proof (WotsLemmas.digits_range P HP _ i L2 B2). lia. }
  apply (bind_inj P _ _ _ _ _ Hfree) in Hb as [Hr Hm];
    [|apply elem_of_app; left; apply calls_bind|apply elem_of_app; right; apply calls_bind].
  split; [done|]. split; [apply same_epoch|]. split; [done|]. split; [|apply same_tree].
  apply list_eq. intros i. rewrite !list_lookup_fmap. destruct W1 as (C1&_). destruct W2 as (C2&_).
  pose proof (WotsLemmas.row_LEN_small P HP). destruct (decide (i < LEN P)%nat) as [Hi|Hi]; [|by rewrite !lookup_take_ge by lia].
  rewrite !lookup_take_lt by done.
  rewrite (list_lookup_lookup_total_lt (chains s1)), (list_lookup_lookup_total_lt (chains s2)) by lia. cbn [fmap option_fmap option_map]. f_equal.
  pose proof (opened_earlier i Hi) as Ho. unfold digit in Ho. rewrite Hr, Hm, Nat.sub_diag in Ho. symmetry. by apply Ho.
Qed.
End two.

Lemma length_sign_chains secret m : length (sign_chains P secret m) = 256%nat.
Proof. apply WotsLemmas.length_lanes. Qed.

(** The type of a signature that was made. *)
Lemma made_wf secret m e r p : length p = T_LOG2 P → Forall (λ x, length x = 32%nat) p →
  (∀ i, (i < LEN P)%nat → length (secret !!! i) = 32%nat) →
  sig_wf (mkSignature e r (imap (λ i lane, if (i <? LEN P)%nat then lane else zero32) (sign_chains P secret m)) (p ++ replicate (16 - T_LOG2 P) zero32)).
Proof.
  intros Hp Hw Hs. unfold sig_wf. cbn [chains path]. split; [by rewrite length_imap, length_sign_chains|]. split; [|split].
  - apply Forall_lookup_2. intros i x. rewrite list_lookup_imap, fmap_Some. intros (y&Hy&->).
    pose proof (lookup_lt_Some _ _ _ Hy) as Hi. rewrite length_sign_chains in Hi.
    destruct (i <? LEN P)%nat eqn:Ei; [|done]. apply Nat.ltb_lt in Ei. unfold sign_chains in Hy. rewrite WotsLemmas.lookup_lanes in Hy by done.
    rewrite (proj2 (Nat.ltb_lt _ _)) in Hy by done. injection Hy as <-. by apply WotsLemmas.length_chain_walk, Hs.
  - rewrite length_app, length_replicate, Hp. destruct HP. lia.
  - apply Forall_app. split; [done|]. by apply Forall_replicate.
Qed.

Lemma secret_wide seed i : (i < LEN P)%nat → length (epoch_secret_chains P seed !!! i) = 32%nat.
Proof.
  intros Hi. unfold epoch_secret_chains. rewrite WotsLemmas.lookup_total_lanes by done.
  apply WotsLemmas.length_narrow; [done|apply digest32_length].
Qed.

(** The zeroing of the unused lanes changes nothing that is read. *)
Lemma verify_made secret m :
  verify_chains P (imap (λ i lane, if (i <? LEN P)%nat then lane else zero32) (sign_chains P secret m)) m =
  verify_chains P (sign_chains P secret m) m.
Proof.
  unfold verify_chains, vk_compress. cbv zeta. rewrite !WotsLemmas.take_lanes by done. do 4 f_equal.
  apply list_fmap_ext. intros i ? [-> Hi]%lookup_seq. f_equal. pose proof (WotsLemmas.row_LEN_small P HP).
  apply list_lookup_total_correct. rewrite list_lookup_imap.
  rewrite (list_lookup_lookup_total_lt (sign_chains P secret m)) by (rewrite length_sign_chains; lia).
  simpl. by rewrite (proj2 (Nat.ltb_lt _ _)).
Qed.

Lemma sign_outcomes seed w : ∃ signer, ceremonial_keygen P seed w = Some (Ok signer) ∧
  ∀ height count msg, match sign_at_height P signer height count msg with
  | Ok sig => (w ≠ 0 ∧ count < Q_MAX P ∧ (height / w) mod 2 ^ 32 < 2 ^ Z.of_nat (T_LOG2 P)) ∧
      sig_wf sig ∧ verify_at_height P (public signer) height msg sig = Ok ()
  | Err BadEpochWindow => w = 0
  | Err (QuotaExceeded _ _) => w ≠ 0 ∧ Q_MAX P ≤ count
  | Err (Malformed Headroom) => w ≠ 0 ∧ count < Q_MAX P ∧ 2 ^ Z.of_nat (T_LOG2 P) ≤ (height / w) mod 2 ^ 32
  | Err _ => False
  end.
Proof.
  destruct (TreeLemmas.build_tree_paths P HP (epoch_vk P seed <$> seq 0 (2 ^ T_LOG2 P))) as (rt&lv&E&Hpath).
  { by rewrite length_fmap, length_seq. }
  unfold ceremonial_keygen. rewrite E. eexists. split; [done|]. intros height count msg.
  unfold sign_at_height, Epoch.epoch_of. cbn [public window levels root_seed].
  destruct (Z.eqb_spec w 0) as [->|Hw]; [done|]. destruct (Z.leb_spec (Q_MAX P) count) as [Hq|Hq]; [done|].
  set (ep := (height / w) mod 2 ^ 32). destruct (Z.leb_spec (2 ^ Z.of_nat (T_LOG2 P)) ep) as [He|He]; [done|].
  pose proof (Z.mod_pos_bound (height / w) (2 ^ 32) ltac:(lia)) as Hep. fold ep in Hep.
  assert (Z.to_nat ep < 2 ^ T_LOG2 P)%nat as Hidx.
  { apply Nat2Z.inj_lt. rewrite Nat2Z.inj_pow. change (Z.of_nat 2) with 2. lia. }
  destruct (Hpath _ Hidx) as (p&Ep&Hpl&Hpw&Hc). cbv zeta. rewrite Ep. split; [done|]. split.
  { apply made_wf; [done|done|]. intros i Hi. by apply secret_wide. }
  unfold verify_at_height, Epoch.epoch_of. cbn [params_name public window]. rewrite String.eqb_refl.
  rewrite (proj2 (Z.eqb_neq _ _) Hw). cbn [negb epoch]. fold ep. rewrite Z.eqb_refl, (proj2 (Z.leb_gt _ _) He).
  cbn [negb chains randomizer path root]. rewrite verify_made.
  rewrite (WotsLemmas.verify_sign_chains P HP) by apply bound_ok.
  unfold verify_path. replace (T_LOG2 P `min` 16)%nat with (length p) by (destruct HP; lia). rewrite take_app_length.
  rewrite decide_True; [done|]. rewrite <- Hc. do 3 f_equal.
  rewrite (list_lookup_total_correct _ _ (epoch_vk P seed (Z.to_nat ep))).
  - unfold epoch_vk. by rewrite Z2Nat.id by lia.
  - rewrite list_lookup_fmap, lookup_seq_lt by done. done.
Qed.

(** C25: what is signed verifies.  Key generation succeeds for every seed and
    window, and a signature over any message at any height is well-formed and
    verifies at that height; signing is refused exactly for a window of zero,
    a spent quota, and an epoch beyond the tree. *)
Theorem bpqs_sign_verifies seed w : ∃ signer, ceremonial_keygen P seed w = Some (Ok signer) ∧
  ∀ height count msg, match sign_at_height P signer height count msg with
  | Ok sig => (w ≠ 0 ∧ count < Q_MAX P ∧ (height / w) mod 2 ^ 32 < 2 ^ Z.of_nat (T_LOG2 P)) ∧
      sig_wf sig ∧ verify_at_height P (public signer) height msg sig = Ok ()
  | Err BadEpochWindow => w = 0
  | Err (QuotaExceeded _ _) => w ≠ 0 ∧ Q_MAX P ≤ count
  | Err (Malformed Headroom) => w ≠ 0 ∧ count < Q_MAX P ∧ 2 ^ Z.of_nat (T_LOG2 P) ≤ (height / w) mod 2 ^ 32
  | Err _ => False
  end.
Proof. apply sign_outcomes. Qed.

(** C24: what verifies was signed.  Let a signer have signed [msg] at a height,
    and let another signature verify over [msg'] at that height.  If the hash
    calls of the two verifications contain no collision, then it is the
    signature of [msg] again, up to bytes that nothing reads, or it opens some
    chain earlier than the signer did, with a preimage of the segment the
    signer has published: no message can be signed from the digits of another. *)
Theorem bpqs_unforgeable seed w signer height count msg sig msg' sig' :
  ceremonial_keygen P seed w = Some (Ok signer) → sign_at_height P signer height count msg = Ok sig →
  sig_wf sig' → verify_at_height P (public signer) height msg' sig' = Ok () →
  calls_free P (verify_calls P sig msg ++ verify_calls P sig' msg') →
  (msg' = msg ∧ agrees sig sig') ∨
  ∃ i, (i < LEN P)%nat ∧ (digit P sig' msg' i < digit P sig msg i)%nat ∧
    take (N P) (chain_walk P (chains sig' !!! i) (digit P sig msg i - digit P sig' msg' i) i) = take (N P) (chains sig !!! i).
Proof.
  intros Hk Hs Hw Hv Hfree. destruct (sign_outcomes seed w) as (signer'&Hk'&Hout).
  assert (signer' = signer) as -> by congruence. specialize (Hout height count msg). rewrite Hs in Hout. destruct Hout as (_&Hw0&Hv0).
  destruct (decide (Exists (λ i, (digit P sig' msg' i < digit P sig msg i)%nat) (seq 0 (LEN P)))) as [Hex|Hno].
  - right. apply Exists_exists in Hex as (i&Hi&Hd). apply elem_of_seq in Hi as [_ Hi]. exists i. split; [lia|]. split; [done|]. cbv beta in Hd.
    eapply opened_earlier; [exact Hw0|exact Hw|exact Hv0|exact Hv|done|lia|lia].
  - left. apply not_Exists_Forall in Hno; [|apply _]. rewrite Forall_seq in Hno.
    destruct (no_preimage_same (public signer) height msg msg' sig sig') as [-> Ha]; [done..| |done].
    intros i Hi. specialize (Hno i ltac:(lia)). unfold compose in Hno. lia.
Qed.

(** The epoch of a height is cut to 32 bits, so that a signature verifies
    again [2 ^ 32] windows later. *)
Lemma old_signature_verifies pub height msg sig : verify_at_height P pub (height + window pub * 2 ^ 32) msg sig = verify_at_height P pub height msg sig.
Proof.
  unfold verify_at_height, Epoch.epoch_of. destruct (Z.eqb_spec (window pub) 0) as [|Hw]; [done|].
  rewrite Z.mul_comm, Z.div_add by done.
  replace ((height / window pub + 2 ^ 32) mod 2 ^ 32) with ((height / window pub) mod 2 ^ 32); [done|].
  rewrite <- (Z.mul_1_l (2 ^ 32)) at 2. by rewrite Z.mod_add.
Qed.

(** The verifier does not read the rest of a lane, the unused lanes and the
    unused part of the path: a signature can be changed there. *)
Lemma chain_walk_reads n c : ∀ x y, take (N P) x = take (N P) y → take (N P) (chain_walk P x n c) = take (N P) (chain_walk P y n c).
Proof. induction n as [|n IH]; intros x y E; [done|]. apply IH. unfold chain_step. by rewrite E. Qed.

Lemma prefixes_read (l1 : list bytes) : ∀ l2, take (N P) <$> l1 = take (N P) <$> l2 → flat_map (take (N P)) l1 = flat_map (take (N P)) l2.
Proof. induction l1 as [|x l1 IH]; intros [|y l2] E; try done. injection E as Ex E. cbn [flat_map]. by rewrite Ex, (IH l2). Qed.

Lemma climb_reads p : ∀ q a b i, take (N P) a = take (N P) b → take (N P) <$> p = take (N P) <$> q →
  take (N P) (climb P a i p) = take (N P) (climb P b i q).
Proof.
  induction p as [|s p IH]; intros [|t q] a b i E Ep; try done. injection Ep as Es Ep. cbn [climb]. apply IH; [|done].
  destruct (Nat.even i); unfold node; by rewrite E, Es.
Qed.

Lemma agreeing_signature_verifies pub height msg s1 s2 : sig_wf s1 → sig_wf s2 → agrees s1 s2 →
  verify_at_height P pub height msg s1 = verify_at_height P pub height msg s2.
Proof.
  intros W1 W2 (He&Hr&Hc&Hp). unfold verify_at_height, verify_path. rewrite !verify_chains_heads, <- He.
  replace (T_LOG2 P `min` 16)%nat with (T_LOG2 P) by (destruct HP; lia).
  assert (vk_compress P (lanes P (head_of P s1 msg)) = vk_compress P (lanes P (head_of P s2 msg))) as ->.
  { unfold vk_compress. rewrite !WotsLemmas.take_lanes by done.
    enough (take (N P) <$> (head_of P s1 msg <$> seq 0 (LEN P)) = take (N P) <$> (head_of P s2 msg <$> seq 0 (LEN P))) as Hm
      by (by rewrite (prefixes_read _ _ Hm)).
    rewrite <- !list_fmap_compose. apply list_fmap_ext. intros i ? [-> Hi]%lookup_seq. cbn [compose]. unfold head_of, digit. rewrite Hr.
    apply chain_walk_reads. destruct W1 as (C1&_). destruct W2 as (C2&_). pose proof (WotsLemmas.row_LEN_small P HP).
    assert (∀ s, length (chains s) = 256%nat → (take (N P) <$> take (LEN P) (chains s)) !! i = Some (take (N P) (chains s !!! i))) as Hl.
    { intros s Hs. rewrite list_lookup_fmap, lookup_take_lt by done. by rewrite (list_lookup_lookup_total_lt (chains s)) by lia. }
    apply (f_equal (.!! i)) in Hc. rewrite !Hl in Hc by done. by injection Hc. }
  by rewrite (climb_reads _ _ _ _ _ eq_refl Hp).
Qed.
End theorems.
End BpqsTheorems.

(** ** Evaluation *)
Module BpqsExamples.
Import Wots EpochTree BpqsSign Calls BpqsTheorems.

(** A 32-bit multiplicative hash of the frame. *)
Definition fnv (l : bytes) : Z := fold_left (λ acc b, Z.land (Z.lxor acc b * 16777619) (2 ^ 32 - 1)) l 2166136261.

#[export] Instance fnv_hash : BpqsHash := {|
  digest32 dom parts := le_bytes 32 (fnv (Frame.frame_bytes dom parts));
  digest32_length dom parts := length_le_bytes 32 _;
  digest32_bytes dom parts := le_bytes_are_bytes 32 _;
|}.

(** A row with two-byte lanes and two epochs. *)
Definition small : BpqsParams := mkParams 2 16 4 3 7 1 1 "small".

Lemma small_row : row small.
Proof. split; simpl; lia. Qed.

Lemma rows : row ParamsL5 ∧ row ParamsL3 ∧ row ParamsTestFast.
Proof. split; [|split]; split; simpl; lia. Qed.

Definition signer : BpqsSigner :=
  match ceremonial_keygen small (bstr "seed") 16 with Some (Ok s) => s | _ => mkSigner [] [] (mkPublic [] 0 "") end.
Definition signed (msg : bytes) : BpqsSignature :=
  match sign_at_height small signer 17 0 msg with Ok s => s | Err _ => mkSignature 0 [] [] [] end.

Lemma keygen_signer : ceremonial_keygen small (bstr "seed") 16 = Some (Ok signer).
Proof. vm_compute. reflexivity. Qed.

Lemma sign_signed : sign_at_height small signer 17 0 (bstr "anchor") = Ok (signed (bstr "anchor")).
Proof. vm_compute. reflexivity. Qed.

Lemma bpqs_sign_verifies_witness : ∃ s, ceremonial_keygen small (bstr "seed") 16 = Some (Ok s) ∧
  verify_at_height small (public s) 17 (bstr "anchor") (signed (bstr "anchor")) = Ok () ∧
  verify_at_height small (public s) 33 (bstr "anchor") (signed (bstr "anchor")) = Err (EpochMismatch 2 1) ∧
  verify_at_height small (public s) 17 (bstr "other") (signed (bstr "anchor")) = Err BadAuthPath.
Proof.
  destruct (bpqs_sign_verifies small small_row (bstr "seed") 16) as (s&Hk&Hs). exists s. split; [exact Hk|].
  pose proof keygen_signer as E. rewrite Hk in E. injection E as ->. specialize (Hs 17 0 (bstr "anchor")). rewrite sign_signed in Hs.
  split; [apply Hs|]. split; vm_compute; reflexivity.
Defined.

Lemma bpqs_unforgeable_witness : agrees small (signed (bstr "anchor")) (signed (bstr "anchor")).
Proof.
  destruct (sign_outcomes small small_row (bstr "seed") 16) as (s&Hk&Hs). pose proof keygen_signer as E. rewrite Hk in E. injection E as ->.
  specialize (Hs 17 0 (bstr "anchor")). rewrite sign_signed in Hs. destruct Hs as (_&Hw&Hv).
  destruct (bpqs_unforgeable small small_row (bstr "seed") 16 signer 17 0 (bstr "anchor") (signed (bstr "anchor")) (bstr "anchor") (signed (bstr "anchor"))
    Hk sign_signed Hw Hv) as [[_ Ha]|(i&Hi&Hd&_)]; [apply calls_freeb_spec; vm_compute; reflexivity|exact Ha|lia].
Defined.
End BpqsExamples.
