(* ===== verification/Poseidon2.v ===== *)
(** * The canonical hash backend: Poseidon2 over Goldilocks

    [crates/bpqs/src/poseidon2.rs]: field arithmetic without division, the
    permutation of width 16, and the sponge that binds bytes to it; and the
    cross-check backend of [shake256.rs], whose permutation is a library.  A
    [u64] is a [Z] with the wrap-around of each operation written out; [cmov]
    is the conditional move of the crate of that name. *)
From stdpp Require Import base tactics numbers list.
From Stdlib Require Import ZArith Lia.
From S2P Require Import Prelude Bpqs.
Open Scope Z_scope.

Module Poseidon2.

Definition RC_EXT_INIT : list (list Z) :=
  [[0x15ebea3fc73397c3; 0xd73cd9fbfe8e275c; 0x8c096bfce77f6c26; 0x4e128f68b53d8fea;
     0x29b779a36b2763f6; 0xfe2adc6fb65acd08; 0x8d2520e725ad0955; 0x1c2392b214624d2a;
     0x37482118206dcc6e; 0x2f829bed19be019a; 0x2fe298cb6f8159b0; 0x2bbad982deccdbbf;
     0xbad568b8cc60a81e; 0xb86a814265baad10; 0xbec2005513b3acb3; 0x6bf89b59a07c2a94];
   [0xa25deeb835e230f5; 0x3c5bad8512b8b12a; 0x7230f73c3cb7a4f2; 0xa70c87f095c74d0f;
     0x6b7606b830bb2e80; 0x6cd467cfc4f24274; 0xfeed794df42a9b0a; 0x8cf7cf6163b7dbd3;
     0x9a6e9dda597175a0; 0xaa52295a684faf7b; 0x017b811cc3589d8d; 0x55bfb699b6181648;
     0xc2ccaf71501c2421; 0x1707950327596402; 0xdd2fcdcd42a8229f; 0x8b9d7d5b27778a21];
   [0xac9a05525f9cf512; 0x2ba125c58627b5e8; 0xc74e91250a8147a5; 0xa3e64b640d5bb384;
     0xf53047d18d1f9292; 0xbaaeddacae3a6374; 0xf2d0914a808b3db1; 0x18af1a3742bfa3b0;
     0x9a621ef50c55bdb8; 0xc615f4d1cc5466f3; 0xb7fbac19a35cf793; 0xd2b1a15ba517e46d;
     0x4a290c4d7fd26f6f; 0x4f0cf1bb1770c4c4; 0x548345386cd377f5; 0x33978d2789fddd42];
   [0xab78c59deb77e211; 0xc485b2a933d2be7f; 0xbde3792c00c03c53; 0xab4cefe8f893d247;
     0xc5c0e752eab7f85f; 0xdbf5a76f893bafea; 0xa91f6003e3d984de; 0x099539077f311e87;
     0x097ec52232f9559e; 0x53641bdf8991e48c; 0x2afe9711d5ed9d7c; 0xa7b13d3661b5d117;
     0x5a0e243fe7af6556; 0x1076fae8932d5f00; 0x9b53a83d434934e3; 0xed3fd595a3c0344a]].

Definition RC_EXT_FIN : list (list Z) :=
  [[0xdacf46dc1c31a045; 0x5d2e3c121eb387f2; 0x51f8b0658b124499; 0x1e7dbd1daa72167d;
     0x8275015a25c55b88; 0xe8521c24ac7a70b3; 0x6521d121c40b3f67; 0xac12de797de135b0;
     0xafa28ead79f6ed6a; 0x685174a7a8d26f0b; 0xeff92a08d35d9874; 0x3058734b76dd123a;
     0xfa55dcfba429f79c; 0x559294d4324c7728; 0x7a770f53012dc178; 0xedd8f7c408f3883b];
   [0x39b533cf8d795fa5; 0x160ef9de243a8c0a; 0x431d52da6215fe3f; 0x54c51a2a2ef6d528;
     0x9b13892b46ff9d16; 0x263c46fcee210289; 0xb738c96d25aabdc4; 0x5c33a5203996d38f;
     0x2626496e7c98d8dd; 0xc669e0a52785903a; 0xaecde726c8ae1f47; 0x039343ef3a81e999;
     0x2615ceaf044a54f9; 0x7e41e834662b66e1; 0x4ca5fd4895335783; 0x64b334d02916f2b0];
   [0x87268837389a6981; 0x034b75bcb20a6274; 0x58e658296cc2cd6e; 0xe2d0f759acc31df4;
     0x81a652e435093e20; 0x0b72b6e0172eaf47; 0x4aec43cec577d66d; 0xde78365b028a84e6;
     0x444e19569adc0ee4; 0x942b2451fa40d1da; 0xe24506623ea5bd6c; 0x082854bf2ef7c743;
     0x69dbbc566f59d62e; 0x248c38d02a7b5cb2; 0x4f4e8f8c09d15edb; 0xd96682f188d310cf];
   [0x6f9a25d56818b54c; 0xb6cefed606546cd9; 0x5bc07523da38a67b; 0x7df5a3c35b8111cf;
     0xaaa2cc5d4db34bb0; 0x9e673ff22a4653f8; 0xbd8b278d60739c62; 0xe10d20f6925b8815;
     0xf6c87b91dd4da2bf; 0xfed623e2f71b6f1a; 0xa0f02fa52a94d0d3; 0xbb5794711b39fa16;
     0xd3b94fba9d005c7f; 0x15a26e89fad946c9; 0xf3cb87db8a67cf49; 0x400d2bf56aa2a577]].

Definition RC_INTERNAL : list Z :=
    [0x28eff4b01103d100; 0x60400ca3e2685a45; 0x1c8636beb3389b84; 0xac1332b60e13eff0;
     0x2adafcc364e20f87; 0x79ffc2b14054ea0b; 0x3f98e4c0908f0a05; 0xcdb230bc4e8a06c4;
     0x1bcaf7705b152a74; 0xd9bca249a82a7470; 0x91e24af19bf82551; 0xa62b43ba5cb78858;
     0xb4898117472e797f; 0xb3228bca606cdaa0; 0x844461051bca39c9; 0xf3411581f6617d68;
     0xf7fd50646782b533; 0x6ca664253c18fb48; 0x2d2fcdec0886a08f; 0x29da00dd799b575e;
     0x47d966cc3b6e1e93; 0xde884e9a17ced59e].

Definition DIAG : list Z :=
    [0xfffffffeffffffff; 0x0000000000000001; 0x0000000000000002; 0x7fffffff80000001;
     0x0000000000000003; 0x0000000000000004; 0x7fffffff80000000; 0xfffffffefffffffe;
     0xfffffffefffffffd; 0xdfffffff20000001; 0xefffffff10000001; 0xf7ffffff08000001;
     0x1fffffffe0000000; 0x0ffffffff0000000; 0x07fffffff8000000; 0xfffffffe00000002].

Definition GOLDILOCKS_P : Z := 0xffffffff00000001.
Definition RATE : nat := 8.
Definition WIDTH : nat := 16.

(** *** Field arithmetic *)

(** [overflowing_sub] and [overflowing_add] of [u64]. *)
Definition overflowing_sub (a b : Z) : Z * bool := ((a - b) mod 2 ^ 64, a <? b).
Definition overflowing_add (a b : Z) : Z * bool := ((a + b) mod 2 ^ 64, 2 ^ 64 <=? a + b).

Definition cmov_if (keep replace : Z) (condition : bool) : Z := if condition then replace else keep.

Definition fe_sub_p (x : Z) : Z :=
  let '(diff, borrow) := overflowing_sub x GOLDILOCKS_P in cmov_if x diff (negb borrow).

Definition fe_add (a b : Z) : Z :=
  let '(sum, carry) := overflowing_add a b in
  let '(diff, borrow) := overflowing_sub sum GOLDILOCKS_P in
  cmov_if sum diff (carry || negb borrow).

Definition fe_reduce128 (x : Z) : Z :=
  let x_lo := x mod 2 ^ 64 in
  let x_hi := Z.shiftr x 64 mod 2 ^ 64 in
  let x_hi_hi := Z.shiftr x_hi 32 in
  let x_hi_lo := Z.land x_hi 0xFFFFFFFF in
  let '(t0, borrow) := overflowing_sub x_lo x_hi_hi in
  let t0 := cmov_if t0 ((t0 - 0xFFFFFFFF) mod 2 ^ 64) borrow in
  let t1 := (x_hi_lo * 0xFFFFFFFF) mod 2 ^ 64 in
  let '(t2, carry) := overflowing_add t0 t1 in
  let t2 := cmov_if t2 ((t2 + 0xFFFFFFFF) mod 2 ^ 64) carry in
  fe_sub_p t2.

Definition fe_mul (a b : Z) : Z := fe_reduce128 (a * b).

Definition fe_pow7 (x : Z) : Z :=
  let x2 := fe_mul x x in
  let x4 := fe_mul x2 x2 in
  fe_mul (fe_mul x4 x2) x.

(** *** The permutation *)
Definition apply_mat4 (x : list Z) (base : nat) : list Z :=
  let x0 := x !!! base in
  let x1 := x !!! (base + 1)%nat in
  let x2 := x !!! (base + 2)%nat in
  let x3 := x !!! (base + 3)%nat in
  let t01 := fe_add x0 x1 in
  let t23 := fe_add x2 x3 in
  let t0123 := fe_add t01 t23 in
  let t01123 := fe_add t0123 x1 in
  let t01233 := fe_add t0123 x3 in
  let x := <[(base + 3)%nat := fe_add t01233 (fe_add x0 x0)]> x in
  let x := <[(base + 1)%nat := fe_add t01123 (fe_add x2 x2)]> x in
  let x := <[base := fe_add t01123 t01]> x in
  <[(base + 2)%nat := fe_add t01233 t23]> x.

(** [for j in 0..4 { for k in 0..4 { sums[k] = fe_add(sums[k], state[4 * j + k]) } }] *)
Definition column_sums (state : list Z) : list Z :=
  fold_left (λ sums j, imap (λ k s, fe_add s (state !!! (4 * j + k)%nat)) sums) (seq 0 4) (replicate 4 0).

Definition m_external (state : list Z) : list Z :=
  let state := apply_mat4 (apply_mat4 (apply_mat4 (apply_mat4 state 0) 4) 8) 12 in
  let sums := column_sums state in
  imap (λ i elem, fe_add elem (sums !!! (i mod 4)%nat)) state.

Definition m_internal (state : list Z) : list Z :=
  let sum := fold_left fe_add state 0 in
  imap (λ i elem, fe_add (fe_mul elem (DIAG !!! i)) sum) state.

Definition full_round (state rc : list Z) : list Z :=
  m_external (imap (λ i elem, fe_pow7 (fe_add elem (rc !!! i))) state).

Definition partial_round (state : list Z) (rc : Z) : list Z :=
  m_internal (<[0%nat := fe_pow7 (fe_add (state !!! 0%nat) rc)]> state).

Definition permute16 (state : list Z) : list Z :=
  let state := m_external state in
  let state := fold_left full_round RC_EXT_INIT state in
  let state := fold_left partial_round RC_INTERNAL state in
  fold_left full_round RC_EXT_FIN state.

(** *** The sponge *)

(** [slice.chunks(n)]; the fuel is the length. *)
Fixpoint chunks_fuel {A} (fuel n : nat) (l : list A) : list (list A) :=
  match fuel, l with
  | S fuel, _ :: _ => take n l :: chunks_fuel fuel n (drop n l)
  | _, _ => []
  end.
Definition chunks {A} (n : nat) (l : list A) : list (list A) := chunks_fuel (length l) n l.

(** [u32::from_le_bytes] of a chunk, filled up with zeros. *)
Definition from_le (l : bytes) : Z := foldr (λ b acc, b + 256 * acc) 0 l.

(** The field elements of a frame, with the [1] that ends them. *)
Definition elements (frame : bytes) : list Z := (from_le <$> chunks 4 frame) ++ [1].

(** A block in the rate part of the state. *)
Definition absorb (state block : list Z) : list Z :=
  permute16 (block ++ replicate (RATE - length block) 0 ++ drop RATE state).

Definition sponge_digest (frame : bytes) : bytes :=
  let state := fold_left absorb (chunks RATE (elements frame)) (replicate WIDTH 0) in
  flat_map (le_bytes 8) (take 4 state).

Definition Poseidon2GoldilocksHash (domain : bytes) (parts : list bytes) : bytes :=
  sponge_digest (Frame.frame_bytes domain parts).
End Poseidon2.

(** ** The cross-check backend: [shake256.rs] *)
Module Shake256.
Section shake.
Context (f1600 : list Z → list Z).

Definition RATE : nat := 136.

Definition xor_block (st : list Z) (block : bytes) : list Z :=
  imap (λ i lane, match Poseidon2.chunks 8 block !! i with Some chunk => Z.lxor lane (Poseidon2.from_le chunk) | None => lane end) st.

(** [while frame.len() - offset >= RATE]; the fuel is the length of the frame. *)
Fixpoint absorb_full (fuel : nat) (st : list Z) (rem : bytes) : list Z * bytes :=
  match fuel with
  | S fuel =>
      if (RATE <=? length rem)%nat then absorb_full fuel (f1600 (xor_block st (take RATE rem))) (drop RATE rem)
      else (st, rem)
  | O => (st, rem)
  end.

Definition last_block (rem : bytes) : bytes :=
  let block := rem ++ replicate (RATE - length rem) 0 in
  let block := <[length rem := Z.lxor (block !!! length rem) 0x1F]> block in
  <[(RATE - 1)%nat := Z.lxor (block !!! (RATE - 1)%nat) 0x80]> block.

Definition shake256_32 (frame : bytes) : bytes :=
  let '(st, rem) := absorb_full (length frame) (replicate 25 0) frame in
  let st := f1600 (xor_block st (last_block rem)) in
  flat_map (le_bytes 8) (take 4 st).

Definition Shake256Hash (domain : bytes) (parts : list bytes) : bytes := shake256_32 (Frame.frame_bytes domain parts).
End shake.
End Shake256.
