(* ===== verification/Poseidon2Props.v ===== *)
(** * Poseidon2: the arithmetic, the permutation, the sponge

    [FeLemmas]: the branch-free field arithmetic is arithmetic modulo the
    prime.  [Layers]: the linear layers are invertible matrices.
    [Poseidon2Theorems]: the permutation is the one of the paper and permutes;
    the sponge absorbs different inputs differently; the Keccak sponge is the
    padded one. *)
From stdpp Require Import base tactics numbers list.
From Stdlib Require Import ZArith Lia.
From S2P Require Import Prelude Vm Goldilocks Bpqs Poseidon2.
Import Poseidon2.
Open Scope Z_scope.

(** ** Field arithmetic *)
Module FeLemmas.
Import FieldLemmas.

Lemma same_prime : GOLDILOCKS_P = Field.GOLDILOCKS_P.
Proof. done. Qed.

Lemma fe_sub_p_spec x : 0 ≤ x < 2 ^ 64 → fe_sub_p x = x mod GOLDILOCKS_P.
Proof.
  intros Hx. unfold fe_sub_p, overflowing_sub, cmov_if, GOLDILOCKS_P in *.
  destruct (Z.ltb_spec x 0xffffffff00000001) as [Hlt|Hge]; cbn [negb].
  - by rewrite Z.mod_small by lia.
  - rewrite (Z.mod_small _ (2 ^ 64)) by lia. symmetry. rewrite <- (Z.mod_add _ (-1)) by lia. apply Z.mod_small. lia.
Qed.

Lemma fe_add_spec a b : canonical a → canonical b → fe_add a b = (a + b) mod GOLDILOCKS_P.
Proof.
  unfold canonical. rewrite <- same_prime. intros Ha Hb. unfold fe_add, overflowing_add, overflowing_sub, cmov_if, GOLDILOCKS_P in *.
  destruct (Z.leb_spec (2 ^ 64) (a + b)) as [Hc|Hc]; cbn [orb].
  - rewrite <- (Z.mod_add (a + b) (-1) (2 ^ 64)), (Z.mod_small (a + b + -1 * 2 ^ 64)) by lia.
    rewrite <- (Z.mod_add (a + b) (-1) 0xffffffff00000001), (Z.mod_small (a + b + -1 * 0xffffffff00000001)) by lia.
    rewrite <- (Z.mod_add _ 1 (2 ^ 64)), Z.mod_small by lia. lia.
  - rewrite (Z.mod_small (a + b) (2 ^ 64)) by lia. destruct (Z.ltb_spec (a + b) 0xffffffff00000001) as [Hlt|Hge]; cbn [negb].
    + by rewrite Z.mod_small by lia.
    + rewrite (Z.mod_small _ (2 ^ 64)) by lia. symmetry. rewrite <- (Z.mod_add _ (-1)) by lia. apply Z.mod_small. lia.
Qed.

(** The reduction, for any product of 128 bits. *)
Lemma fe_reduce128_spec x : 0 ≤ x < 2 ^ 128 → fe_reduce128 x = x mod GOLDILOCKS_P.
Proof.
  intros Hx. unfold fe_reduce128, overflowing_add, overflowing_sub, cmov_if.
  assert (∀ y, Z.land y 0xFFFFFFFF = y mod 2 ^ 32) as Hland by (intros y; change 0xFFFFFFFF with (Z.ones 32); by apply Z.land_ones).
  rewrite Hland, !Z.shiftr_div_pow2 by lia. clear Hland.
  rewrite (Z.mod_small (x / 2 ^ 64)) by (split; [apply Z.div_pos; lia|apply Z.div_lt_upper_bound; lia]).
  set (lo := x mod 2 ^ 64). set (hi := x / 2 ^ 64). set (hh := hi / 2 ^ 32). set (hl := hi mod 2 ^ 32).
  assert (0 ≤ lo < 2 ^ 64 ∧ 0 ≤ hh < 2 ^ 32 ∧ 0 ≤ hl < 2 ^ 32 ∧ x = lo + 2 ^ 64 * (hl + 2 ^ 32 * hh)) as (Hlo&Hhh&Hhl&E).
  { subst lo hi hh hl. pose proof (Z.div_mod x (2 ^ 64) ltac:(lia)). pose proof (Z.div_mod (x / 2 ^ 64) (2 ^ 32) ltac:(lia)).
    pose proof (Z.mod_pos_bound x (2 ^ 64) ltac:(lia)). pose proof (Z.mod_pos_bound (x / 2 ^ 64) (2 ^ 32) ltac:(lia)).
    assert (0 ≤ x / 2 ^ 64 < 2 ^ 64) by (split; [apply Z.div_pos; lia|apply Z.div_lt_upper_bound; lia]).
    assert (0 ≤ x / 2 ^ 64 / 2 ^ 32 < 2 ^ 32) by (split; [apply Z.div_pos; lia|apply Z.div_lt_upper_bound; lia]). lia. }
  clearbody lo hi hh hl. rewrite (Z.mod_small (hl * 0xFFFFFFFF)) by nia.
  assert (∃ t0, (if lo <? hh then (((lo - hh) mod 2 ^ 64) - 0xFFFFFFFF) mod 2 ^ 64 else (lo - hh) mod 2 ^ 64) = t0 ∧
    0 ≤ t0 < 2 ^ 64 ∧ (t0 = lo - hh ∨ t0 = lo - hh + GOLDILOCKS_P)) as (t0&->&Ht0&Et0).
  { eexists. split; [done|]. unfold GOLDILOCKS_P. destruct (Z.ltb_spec lo hh) as [Hb|Hb].
    - rewrite <- (Z.mod_add (lo - hh) 1), (Z.mod_small (lo - hh + 1 * 2 ^ 64)) by lia. rewrite Z.mod_small by lia. lia.
    - rewrite Z.mod_small by lia. lia. }
  assert (∃ t2, (if 2 ^ 64 <=? t0 + hl * 0xFFFFFFFF then ((t0 + hl * 0xFFFFFFFF) mod 2 ^ 64 + 0xFFFFFFFF) mod 2 ^ 64
      else (t0 + hl * 0xFFFFFFFF) mod 2 ^ 64) = t2 ∧ 0 ≤ t2 < 2 ^ 64 ∧
    (t2 = t0 + hl * 0xFFFFFFFF ∨ t2 = t0 + hl * 0xFFFFFFFF - GOLDILOCKS_P)) as (t2&->&Ht2&Et2).
  { eexists. split; [done|]. unfold GOLDILOCKS_P. destruct (Z.leb_spec (2 ^ 64) (t0 + hl * 0xFFFFFFFF)) as [Hc|Hc].
    - rewrite <- (Z.mod_add (t0 + hl * 0xFFFFFFFF) (-1)), (Z.mod_small (t0 + hl * 0xFFFFFFFF + -1 * 2 ^ 64)) by lia.
      rewrite Z.mod_small by lia. lia.
    - rewrite Z.mod_small by lia. lia. }
  rewrite fe_sub_p_spec by done.
  assert (∃ k, x = t2 + k * GOLDILOCKS_P) as [k ->]; [|by rewrite Z.mod_add by (unfold GOLDILOCKS_P; lia)].
  (* [2 ^ 64 * y = (2 ^ 32 - 1) * y + p * y], and [2 ^ 96 = p * (2 ^ 32 + 1) - 1] *)
  exists (hl + hh * (2 ^ 32 + 1) - (t2 - (lo - hh + hl * 0xFFFFFFFF)) / GOLDILOCKS_P).
  assert (∃ j, t2 = lo - hh + hl * 0xFFFFFFFF + j * GOLDILOCKS_P) as [j Ej]
    by (destruct Et0 as [->| ->], Et2 as [->| ->]; [exists 0|exists (-1)|exists 1|exists 0]; lia).
  rewrite Ej at 2. rewrite Z.add_simpl_l, Z.div_mul by (unfold GOLDILOCKS_P; lia). rewrite Ej, E. unfold GOLDILOCKS_P. lia.
Qed.

Lemma fe_mul_spec a b : 0 ≤ a < 2 ^ 64 → 0 ≤ b < 2 ^ 64 → fe_mul a b = (a * b) mod GOLDILOCKS_P.
Proof. intros Ha Hb. apply fe_reduce128_spec. nia. Qed.
End FeLemmas.

(** ** The permutation as in the paper: matrices and powers modulo the prime *)
Module Paper.
Import Permutation.

Definition mat_mul (m : list (list Z)) (s : list Z) : list Z := (λ r, dot r s mod GOLDILOCKS_P) <$> m.

Definition M4 : list (list Z) := [[2; 3; 1; 1]; [1; 2; 3; 1]; [1; 1; 2; 3]; [3; 1; 1; 2]].

(** The blocks [2 M4] on the diagonal and [M4] beside it. *)
Definition EXTERNAL : list (list Z) :=
  flat_map (λ b : nat, (λ r, flat_map (λ c : nat, (λ x, if (b =? c)%nat then 2 * x else x) <$> r) (seq 0 4)) <$> M4) (seq 0 4).

(** The diagonal, and [1] everywhere. *)
Definition INTERNAL : list (list Z) := imap (λ i d, imap (λ j x, if (i =? j)%nat then d + x else x) (replicate 16 1)) DIAG.

Definition pow7 (x : Z) : Z := x ^ 7 mod GOLDILOCKS_P.

Definition full (s rc : list Z) : list Z := mat_mul EXTERNAL (zip_with (λ x c, pow7 ((x + c) mod GOLDILOCKS_P)) s rc).

Definition partial (s : list Z) (rc : Z) : list Z :=
  mat_mul INTERNAL (match s with x :: s => pow7 ((x + rc) mod GOLDILOCKS_P) :: s | [] => [] end).

Definition permutation (s : list Z) : list Z :=
  fold_left full RC_EXT_FIN (fold_left partial RC_INTERNAL (fold_left full RC_EXT_INIT (mat_mul EXTERNAL s))).
End Paper.

(** ** The layers *)
Module Layers.
Import FieldLemmas Permutation Paper FeLemmas.

(** A state of sixteen field elements. *)
Definition state16 (s : list Z) : Prop := length s = 16%nat ∧ Forall canonical s.

Lemma state16_case (P : list Z → Prop) :
  (∀ x0 x1 x2 x3 x4 x5 x6 x7 x8 x9 x10 x11 x12 x13 x14 x15,
    Forall canonical [x0; x1; x2; x3; x4; x5; x6; x7; x8; x9; x10; x11; x12; x13; x14; x15] →
    P [x0; x1; x2; x3; x4; x5; x6; x7; x8; x9; x10; x11; x12; x13; x14; x15]) →
  ∀ s, state16 s → P s.
Proof. intros HP s [Hl Hc]. do 16 (destruct s as [|? s]; [done|]). destruct s; [|done]. by apply HP. Qed.

Lemma fe_lin a b x y : a = x mod GOLDILOCKS_P → b = y mod GOLDILOCKS_P → fe_add a b = (x + y) mod GOLDILOCKS_P.
Proof. intros -> ->. rewrite fe_add_spec by apply canonical_mod. by rewrite <- Zplus_mod. Qed.

Lemma fe_scale a d : canonical a → 0 ≤ d < 2 ^ 64 → fe_mul a d = (a * d) mod GOLDILOCKS_P.
Proof. unfold canonical. rewrite <- same_prime. intros Ha Hd. apply fe_mul_spec; [unfold GOLDILOCKS_P in *; lia|done]. Qed.

Lemma mod_self a : canonical a → a = a mod GOLDILOCKS_P.
Proof. intros Ha. symmetry. by apply mod_canonical. Qed.

(** Each lane of a layer is a sum of lanes, up to the modulus. *)
Ltac lane := eapply eq_trans; [repeat (eapply fe_lin); first [by apply mod_self|by apply fe_scale|done]|f_equal; cbn [dot]; ring].

Lemma m_external_spec s : state16 s → m_external s = mat_mul EXTERNAL s.
Proof.
  revert s. apply state16_case. intros. rewrite !Forall_cons in H. destruct_and! H. unfold mat_mul.
  let e := eval vm_compute in EXTERNAL in change EXTERNAL with e.
  cbn -[fe_add dot Z.modulo GOLDILOCKS_P]. repeat (apply f_equal2; [lane|]). done.
Qed.

Lemma m_internal_spec s : state16 s → m_internal s = mat_mul INTERNAL s.
Proof.
  revert s. apply state16_case. intros. rewrite !Forall_cons in H. destruct_and! H. unfold mat_mul.
  let e := eval vm_compute in INTERNAL in change INTERNAL with e.
  cbn -[fe_add fe_mul dot Z.modulo GOLDILOCKS_P]. repeat (apply f_equal2; [lane|]). done.
Qed.

(** *** Inverses *)
Definition M4_inverse : list (list Z) :=
  [[12649195933312857820; 8959847119429940956; 16338544747195774684; 1581149491664107228];
   [1581149491664107228; 12649195933312857820; 8959847119429940956; 16338544747195774684];
   [16338544747195774684; 1581149491664107228; 12649195933312857820; 8959847119429940956];
   [8959847119429940956; 16338544747195774684; 1581149491664107228; 12649195933312857820]].

(** [I - J / 5] over the blocks: [I + J] is the matrix of the blocks of [EXTERNAL]. *)
Definition external_inverse : list (list Z) :=
  let fifth := Field.field_inverse_goldilocks 5 in
  flat_map (λ b : nat, (λ r, flat_map (λ c : nat, (λ x, x * (if (b =? c)%nat then 1 - fifth else - fifth) mod GOLDILOCKS_P) <$> r) (seq 0 4)) <$> M4_inverse)
    (seq 0 4).

(** The inverse of a diagonal plus the matrix of ones. *)
Definition internal_inverse : list (list Z) :=
  let ds := Field.field_inverse_goldilocks <$> DIAG in
  let c := Field.field_inverse_goldilocks ((1 + sumZ ds) mod GOLDILOCKS_P) in
  imap (λ i di, imap (λ j dj, ((if (i =? j)%nat then di else 0) - c * di * dj) mod GOLDILOCKS_P) ds) ds.

Definition inverse_of (inv m : list (list Z)) : bool :=
  bool_decide ((λ u, (λ x, x mod GOLDILOCKS_P) <$> vecmat 16 u m) <$> inv = identity 16) &&
  forallb (λ r, length r =? 16)%nat m.

Lemma identity16_dot s : length s = 16%nat → (λ e, dot e s) <$> identity 16 = s.
Proof.
  intros Hl. do 16 (destruct s as [|? s]; [done|]). destruct s; [|done].
  cbn [identity seq fmap list_fmap replicate insert list_insert dot]. repeat f_equal; lia.
Qed.

Lemma mat_mul_undo inv m s : inverse_of inv m = true → state16 s → mat_mul inv (mat_mul m s) = s.
Proof.
  unfold inverse_of. intros [Hi%bool_decide_eq_true Hm]%andb_prop [Hl Hc]. rewrite <- (mods_canonical s) at 2 by done.
  rewrite <- (identity16_dot s) at 2 by done. rewrite <- Hi, <- !list_fmap_compose.
  unfold mat_mul. apply list_fmap_ext. intros i u _. unfold compose.
  assert (∀ m, (λ r, dot r s mod GOLDILOCKS_P) <$> m = (λ x, x mod GOLDILOCKS_P) <$> ((λ r, dot r s) <$> m)) as ->
    by (intros m'; by rewrite <- list_fmap_compose).
  rewrite dot_mod_r. rewrite (dot_matrix 16).
  - by rewrite dot_comm, <- dot_mod_r, dot_comm.
  - apply Forall_forall. intros r Hr. rewrite forallb_forall in Hm. apply Nat.eqb_eq, Hm. by apply list_elem_of_In.
Qed.

Lemma external_invertible : inverse_of external_inverse EXTERNAL = true.
Proof. vm_compute. reflexivity. Qed.

Lemma internal_invertible : inverse_of internal_inverse INTERNAL = true.
Proof. vm_compute. reflexivity. Qed.

Lemma mat_mul_inj inv m s t : inverse_of inv m = true → state16 s → state16 t → mat_mul m s = mat_mul m t → s = t.
Proof. intros Hi Hs Ht E. rewrite <- (mat_mul_undo inv m s), E by done. by apply mat_mul_undo. Qed.

Lemma mat_mul_state m s : length m = 16%nat → state16 (mat_mul m s).
Proof. intros Hm. unfold mat_mul. split; [by rewrite length_fmap|]. apply Forall_fmap, Forall_true. intros r. apply canonical_mod. Qed.

(** *** Powers *)
Lemma fe_pow7_spec x : canonical x → fe_pow7 x = pow7 x.
Proof.
  intros Hx. unfold fe_pow7. assert (∀ y z, canonical y → canonical z → fe_mul y z = (y * z) mod GOLDILOCKS_P) as Hm.
  { unfold canonical. rewrite <- same_prime. intros y z Hy Hz. apply fe_mul_spec; unfold GOLDILOCKS_P in *; lia. }
  assert (∀ y z a b, y = a mod GOLDILOCKS_P → z = b mod GOLDILOCKS_P → fe_mul y z = (a * b) mod GOLDILOCKS_P) as Hmm.
  { intros y z a b -> ->. rewrite Hm by apply canonical_mod. by rewrite <- Zmult_mod. }
  eapply eq_trans; [repeat (eapply Hmm); by apply mod_self|]. unfold pow7. f_equal. ring.
Qed.

Lemma pow7_inj x y : canonical x → canonical y → pow7 x = pow7 y → x = y.
Proof. intros Hx Hy E. apply sbox_injective; [done..|]. by rewrite !sbox_pow. Qed.

Lemma shift_inj x y c : canonical x → canonical y → (x + c) mod GOLDILOCKS_P = (y + c) mod GOLDILOCKS_P → x = y.
Proof.
  intros Hx Hy E. rewrite (mod_self x), (mod_self y) by done.
  replace x with (x + c - c) by lia. replace y with (y + c - c) by lia. rewrite Zminus_mod, E. symmetry. apply Zminus_mod.
Qed.

(** *** Rounds *)
Definition constants_ok (rc : list Z) : bool := (length rc =? 16)%nat && forallb (λ c, (0 <=? c) && (c <? GOLDILOCKS_P)) rc.

Lemma constants_spec rc : constants_ok rc = true → length rc = 16%nat ∧ Forall canonical rc.
Proof.
  unfold constants_ok. intros [Hl%Nat.eqb_eq Hf]%andb_prop. split; [done|]. apply Forall_forall. intros c Hc. rewrite forallb_forall in Hf.
  specialize (Hf c (proj1 (list_elem_of_In _ _) Hc)). unfold canonical. rewrite <- same_prime. lia.
Qed.

Lemma full_constants : forallb constants_ok RC_EXT_INIT = true ∧ forallb constants_ok RC_EXT_FIN = true.
Proof. split; vm_compute; reflexivity. Qed.

Lemma partial_constants : Forall canonical RC_INTERNAL.
Proof. unfold canonical. repeat (constructor; [vm_compute; split; [intros ?; discriminate|reflexivity]|]). constructor. Qed.

Lemma full_round_spec s rc : state16 s → constants_ok rc = true → full_round s rc = full s rc ∧ state16 (full s rc).
Proof.
  intros [Hs Cs] [Hr Cr]%constants_spec. unfold full_round, full.
  assert (imap (λ i elem, fe_pow7 (fe_add elem (rc !!! i))) s = zip_with (λ x c, pow7 ((x + c) mod GOLDILOCKS_P)) s rc) as E.
  { apply list_eq. intros i. rewrite list_lookup_imap, lookup_zip_with. destruct (s !! i) as [x|] eqn:Ex; [|done].
    destruct (lookup_lt_is_Some_2 rc i) as [c Ec]; [apply lookup_lt_Some in Ex; lia|]. rewrite (list_lookup_total_correct _ _ _ Ec), Ec. simpl.
    rewrite fe_add_spec, fe_pow7_spec; [done|apply canonical_mod|exact (Forall_lookup_1 _ _ _ _ Cs Ex)|exact (Forall_lookup_1 _ _ _ _ Cr Ec)]. }
  rewrite E. split; [|by apply mat_mul_state]. apply m_external_spec. split; [rewrite length_zip_with; lia|].
  apply Forall_lookup_2. intros i y. rewrite lookup_zip_with. destruct (s !! i), (rc !! i); intros [= <-]. apply canonical_mod.
Qed.

Lemma partial_round_spec s rc : state16 s → canonical rc → partial_round s rc = partial s rc ∧ state16 (partial s rc).
Proof.
  intros [Hs Cs] Hrc. unfold partial_round, partial. split; [|by apply mat_mul_state]. destruct s as [|x s]; [done|].
  inversion_clear Cs as [|? ? Hx Cs']. cbn [list_lookup_total lookup_total insert list_insert].
  rewrite fe_add_spec, fe_pow7_spec by (done || apply canonical_mod). apply m_internal_spec.
  split; [done|]. constructor; [apply canonical_mod|done].
Qed.

Lemma round_input s rc : state16 s → length rc = 16%nat → state16 (zip_with (λ x c, pow7 ((x + c) mod GOLDILOCKS_P)) s rc).
Proof.
  intros [Hs _] Hr. split; [rewrite length_zip_with; lia|]. apply Forall_lookup_2. intros i y. rewrite lookup_zip_with.
  destruct (s !! i), (rc !! i); intros [= <-]. apply canonical_mod.
Qed.

Lemma full_inj s t rc : state16 s → state16 t → constants_ok rc = true → full s rc = full t rc → s = t.
Proof.
  intros Hs Ht [Hr _]%constants_spec E.
  apply (mat_mul_inj external_inverse) in E; [|apply external_invertible|by apply round_input..].
  destruct Hs as [Ls Cs]. destruct Ht as [Lt Ct]. assert (length s = length rc) as Hl by congruence. assert (length s = length t) as Hl' by congruence.
  clear Ls Lt Hr. revert t rc E Hl Hl' Ct. induction Cs as [|x s Hx Cs IH]; intros [|y t] [|c rc] E Hl Hl' Ct; try done.
  inversion_clear Ct as [|? ? Hy Ct']. injection E as Exy E. f_equal; [|apply (IH t rc); [done|by injection Hl|by injection Hl'|done]].
  apply pow7_inj in Exy; [by eapply shift_inj|apply canonical_mod..].
Qed.

Lemma partial_inj s t rc : state16 s → state16 t → partial s rc = partial t rc → s = t.
Proof.
  intros [Hs Cs] [Ht Ct] E. destruct s as [|x s], t as [|y t]; try done.
  inversion_clear Cs as [|? ? Hx Cs']. inversion_clear Ct as [|? ? Hy Ct'].
  apply (mat_mul_inj internal_inverse) in E; [|apply internal_invertible|split; [done|constructor; [apply canonical_mod|done]]..].
  injection E as Exy ->. f_equal. apply pow7_inj in Exy; [by eapply shift_inj|apply canonical_mod..].
Qed.

(** A sequence of rounds that agree with injective ones. *)
Lemma rounds {A} (f g : list Z → A → list Z) (ok : A → Prop) (rcs : list A) :
  (∀ s rc, state16 s → ok rc → f s rc = g s rc ∧ state16 (g s rc)) →
  (∀ s t rc, state16 s → state16 t → ok rc → g s rc = g t rc → s = t) → Forall ok rcs →
  ∀ s, state16 s → fold_left f rcs s = fold_left g rcs s ∧ state16 (fold_left g rcs s) ∧
    ∀ t, state16 t → fold_left g rcs s = fold_left g rcs t → s = t.
Proof.
  intros Hfg Hinj. induction 1 as [|rc rcs Hrc _ IH]; intros s Hs; [done|]. cbn [fold_left].
  destruct (Hfg s rc Hs Hrc) as [-> Hg]. destruct (IH _ Hg) as (E&Ho&Hi). split; [done|]. split; [done|].
  intros t Ht Et. apply Hi in Et; [by eapply Hinj|]. by apply Hfg.
Qed.
End Layers.

(** ** What the sponge absorbs *)
Module Absorbing.

Definition byte_list (l : bytes) : Prop := Forall (λ b, 0 ≤ b < 256) l.

(** Parts whose lengths fit their prefixes. *)
Definition frame_ok (domain : bytes) (parts : list bytes) : Prop :=
  Z.of_nat (length domain) < 2 ^ 16 ∧ byte_list domain ∧
  Forall (λ part, Z.of_nat (length part) < 2 ^ 32 ∧ byte_list part) parts.

(** A chunk, filled up with zeros; the blocks that enter the state. *)
Definition fill (n : nat) (b : list Z) : list Z := b ++ replicate (n - length b) 0.
Definition blocks (frame : bytes) : list (list Z) := fill RATE <$> chunks RATE (elements frame).

Lemma chunks_fuel_enough n fuel : (0 < n)%nat → ∀ fuel' (k : list Z), (length k ≤ fuel)%nat → (length k ≤ fuel')%nat →
  chunks_fuel fuel n k = chunks_fuel fuel' n k.
Proof.
  intros Hn. induction fuel as [|fuel IH]; intros fuel' k H1 H2.
  - destruct k; [by destruct fuel'|simpl in H1; lia].
  - destruct k as [|x k]; [by destruct fuel'|]. destruct fuel' as [|fuel']; [simpl in H2; lia|]. cbn [chunks_fuel]. f_equal.
    apply IH; rewrite length_drop; cbn [length] in *; lia.
Qed.

Lemma chunks_cons n (l : list Z) : (0 < n)%nat → l ≠ [] → chunks n l = take n l :: chunks n (drop n l).
Proof.
  intros Hn Hl. destruct l as [|x l]; [done|]. unfold chunks. cbn [length chunks_fuel]. f_equal.
  apply chunks_fuel_enough; [done|rewrite length_drop; cbn [length]; lia|done].
Qed.

Lemma concat_fill n (l : list Z) : (0 < n)%nat → ∃ k, (k < n)%nat ∧ concat (fill n <$> chunks n l) = l ++ replicate k 0.
Proof.
  intros Hn. induction l as [l IH] using (induction_ltof1 _ (@length Z)). unfold ltof in IH.
  destruct (decide (l = [])) as [->|Hl]; [exists 0%nat; split; [lia|done]|].
  assert (0 < length l)%nat as Hpos by (destruct l; [done|simpl; lia]). rewrite chunks_cons by done.
  rewrite fmap_cons. cbn [concat]. unfold fill at 1. rewrite length_take. destruct (decide (length l ≤ n)%nat) as [Hle|Hgt].
  - rewrite take_ge, drop_ge by done. exists (n - length l)%nat. split; [lia|]. rewrite Nat.min_r by done. by rewrite app_nil_r.
  - destruct (IH (drop n l)) as (k&Hk&->); [rewrite length_drop; lia|].
    exists k. split; [done|]. rewrite Nat.min_l, Nat.sub_diag by lia. cbn [replicate]. by rewrite app_nil_r, app_assoc, take_drop.
Qed.

Lemma length_fill n b : (length b ≤ n)%nat → length (fill n b) = n.
Proof. intros Hb. unfold fill. rewrite length_app, length_replicate. lia. Qed.

Lemma chunks_short n (l : list Z) : (0 < n)%nat → Forall (λ b, (length b ≤ n)%nat) (chunks n l).
Proof.
  intros Hn. induction l as [l IH] using (induction_ltof1 _ (@length Z)). unfold ltof in IH.
  destruct (decide (l = [])) as [->|Hl]; [constructor|]. assert (0 < length l)%nat by (destruct l; [done|simpl; lia]).
  rewrite chunks_cons by done. constructor; [rewrite length_take; lia|]. apply IH. rewrite length_drop. lia.
Qed.

Lemma chunks_bytes n l : (0 < n)%nat → byte_list l → Forall byte_list (chunks n l).
Proof.
  intros Hn. induction l as [l IH] using (induction_ltof1 _ (@length Z)). unfold ltof in IH. intros Hb.
  destruct (decide (l = [])) as [->|Hl]; [constructor|]. assert (0 < length l)%nat by (destruct l; [done|simpl; lia]).
  rewrite chunks_cons by done. constructor; [by apply Forall_take|]. apply IH; [rewrite length_drop; lia|by apply Forall_drop].
Qed.

(** *** Bytes to elements *)
Lemma from_le_fill n b : from_le (fill n b) = from_le b.
Proof.
  unfold fill, from_le. rewrite foldr_app. f_equal. generalize (n - length b)%nat. intros k. induction k as [|k IH]; [done|]. simpl. by rewrite IH.
Qed.

Lemma from_le_inj l1 : ∀ l2, length l1 = length l2 → byte_list l1 → byte_list l2 → from_le l1 = from_le l2 → l1 = l2.
Proof.
  induction l1 as [|x l1 IH]; intros [|y l2] Hl H1 H2 E; try done. inversion_clear H1 as [|? ? Hx H1']. inversion_clear H2 as [|? ? Hy H2'].
  unfold from_le in E. cbn [foldr] in E. fold (from_le l1) in E. fold (from_le l2) in E. f_equal; [lia|]. apply IH; [by injection Hl|done|done|lia].
Qed.

Lemma fill_bytes n b : byte_list b → byte_list (fill n b).
Proof. intros Hb. apply Forall_app. split; [done|]. by apply Forall_replicate. Qed.

Lemma words_inj f1 f2 : byte_list f1 → byte_list f2 → from_le <$> chunks 4 f1 = from_le <$> chunks 4 f2 →
  ∃ k1 k2, (k1 < 4)%nat ∧ (k2 < 4)%nat ∧ f1 ++ replicate k1 0 = f2 ++ replicate k2 0.
Proof.
  intros H1 H2 E. destruct (concat_fill 4 f1) as (k1&Hk1&E1); [lia|]. destruct (concat_fill 4 f2) as (k2&Hk2&E2); [lia|].
  exists k1, k2. split; [done|]. split; [done|]. rewrite <- E1, <- E2. f_equal.
  pose proof (chunks_short 4 f1 ltac:(lia)) as S1. pose proof (chunks_short 4 f2 ltac:(lia)) as S2.
  pose proof (chunks_bytes 4 f1 ltac:(lia) H1) as B1. pose proof (chunks_bytes 4 f2 ltac:(lia) H2) as B2.
  clear E1 E2. revert E S1 S2 B1 B2. generalize (chunks 4 f1) as c1, (chunks 4 f2) as c2.
  induction c1 as [|b1 c1 IH]; intros [|b2 c2] E S1 S2 B1 B2; try done. injection E as Eb E.
  inversion_clear S1. inversion_clear S2. inversion_clear B1. inversion_clear B2. rewrite !fmap_cons. f_equal; [|by apply IH].
  apply from_le_inj; [by rewrite !length_fill|by apply fill_bytes..|by rewrite !from_le_fill].
Qed.

(** *** Elements to blocks: the [1] ends the elements *)
Lemma app_one_inj (l1 l2 : list Z) k1 k2 : (l1 ++ [1]) ++ replicate k1 0 = (l2 ++ [1]) ++ replicate k2 0 → l1 = l2.
Proof.
  intros E. apply (f_equal (@reverse Z)) in E. rewrite !reverse_app, !reverse_replicate in E. cbn in E.
  revert k2 E. induction k1 as [|k1 IH]; intros [|k2] E; cbn in E.
  - injection E as E. by apply (inj reverse).
  - done.
  - done.
  - injection E as E. by apply (IH k2).
Qed.

Lemma blocks_inj f1 f2 : byte_list f1 → byte_list f2 → blocks f1 = blocks f2 →
  ∃ k1 k2, (k1 < 4)%nat ∧ (k2 < 4)%nat ∧ f1 ++ replicate k1 0 = f2 ++ replicate k2 0.
Proof.
  intros H1 H2 E. apply words_inj; [done..|]. apply (f_equal (@concat Z)) in E. unfold blocks in E.
  destruct (concat_fill RATE (elements f1)) as (k1&_&E1); [unfold RATE; lia|].
  destruct (concat_fill RATE (elements f2)) as (k2&_&E2); [unfold RATE; lia|]. rewrite E1, E2 in E. by apply app_one_inj in E.
Qed.

(** *** Frames *)
Definition part_bytes (part : bytes) : bytes := le_bytes 4 (Z.of_nat (length part) mod 2 ^ 32) ++ part.

Lemma parts_inj ps1 : ∀ ps2 k1 k2, Forall (λ p, Z.of_nat (length p) < 2 ^ 32) ps1 → Forall (λ p, Z.of_nat (length p) < 2 ^ 32) ps2 →
  (k1 < 4)%nat → (k2 < 4)%nat → flat_map part_bytes ps1 ++ replicate k1 0 = flat_map part_bytes ps2 ++ replicate k2 0 → ps1 = ps2.
Proof.
  assert (∀ p ps k k', (k < 4)%nat → replicate k 0 ≠ flat_map part_bytes (p :: ps) ++ replicate k' 0) as Hne.
  { intros p ps k k' Hk E. apply (f_equal length) in E. cbn [flat_map] in E. unfold part_bytes at 1 in E.
    rewrite !length_app, !length_replicate, length_le_bytes in E. lia. }
  induction ps1 as [|p1 ps1 IH]; intros [|p2 ps2] k1 k2 H1 H2 Hk1 Hk2 E; [done|by apply Hne in E|by symmetry in E; apply Hne in E|].
  inversion_clear H1 as [|? ? Hp1 H1']. inversion_clear H2 as [|? ? Hp2 H2']. cbn [flat_map] in E. unfold part_bytes at 1 3 in E.
  rewrite <- !app_assoc in E. apply app_inj_1 in E as [El E]; [|by rewrite !length_le_bytes].
  rewrite !Z.mod_small in El by lia. apply le_bytes4_inj in El; [|unfold u32, u32_max; lia..].
  apply app_inj_1 in E as [-> E]; [|lia]. f_equal. by apply (IH ps2 k1 k2).
Qed.

Lemma frame_inj d1 ps1 d2 ps2 k1 k2 : frame_ok d1 ps1 → frame_ok d2 ps2 → (k1 < 4)%nat → (k2 < 4)%nat →
  Frame.frame_bytes d1 ps1 ++ replicate k1 0 = Frame.frame_bytes d2 ps2 ++ replicate k2 0 → d1 = d2 ∧ ps1 = ps2.
Proof.
  intros (Hd1&_&Hp1) (Hd2&_&Hp2) Hk1 Hk2 E. unfold Frame.frame_bytes in E. rewrite <- !app_assoc in E.
  apply app_inj_1 in E as [El E]; [|by rewrite !length_le_bytes]. rewrite !Z.mod_small in El by lia.
  apply (le_bytes_inj 2) in El; [|change (256 ^ Z.of_nat 2) with (2 ^ 16); lia..].
  apply app_inj_1 in E as [-> E]; [|lia]. split; [done|].
  apply (parts_inj ps1 ps2 k1 k2); [| |done|done|exact E].
  - eapply Forall_impl; [exact Hp1|]. by intros ? [? _].
  - eapply Forall_impl; [exact Hp2|]. by intros ? [? _].
Qed.

Lemma frame_bytes_ok d ps : frame_ok d ps → byte_list (Frame.frame_bytes d ps).
Proof.
  intros (_&Hd&Hp). unfold Frame.frame_bytes. apply Forall_app. split; [apply le_bytes_are_bytes|]. apply Forall_app. split; [done|].
  apply Forall_flat_map. eapply Forall_impl; [exact Hp|]. intros p [_ Hb]. apply Forall_app. split; [apply le_bytes_are_bytes|done].
Qed.

Lemma absorb_blocks (f : list Z → list Z) bs : ∀ st,
  fold_left (λ st b, f (b ++ replicate (RATE - length b) 0 ++ drop RATE st)) bs st =
  fold_left (λ st b, f (b ++ drop RATE st)) (fill RATE <$> bs) st.
Proof. induction bs as [|b bs IH]; intros st; [done|]. cbn [fmap list_fmap fold_left]. rewrite IH. unfold fill at 3. by rewrite <- app_assoc. Qed.

Lemma digest_blocks frame : sponge_digest frame =
  flat_map (le_bytes 8) (take 4 (fold_left (λ st b, permute16 (b ++ drop RATE st)) (blocks frame) (replicate WIDTH 0))).
Proof. unfold sponge_digest, blocks, absorb. cbv zeta. rewrite absorb_blocks. reflexivity. Qed.
End Absorbing.

(** ** The backend meets the interface of the signatures *)
Module Backend.
Import Absorbing.

Lemma length_apply_mat4 s base : length (apply_mat4 s base) = length s.
Proof. unfold apply_mat4. cbv zeta. by rewrite !length_insert. Qed.

Lemma length_m_external s : length (m_external s) = length s.
Proof. unfold m_external. by rewrite length_imap, !length_apply_mat4. Qed.

Lemma length_fold {A} (f : list Z → A → list Z) rcs : (∀ s a, length (f s a) = length s) → ∀ s, length (fold_left f rcs s) = length s.
Proof. intros Hf. induction rcs as [|rc rcs IH]; intros s; [done|]. cbn [fold_left]. by rewrite IH, Hf. Qed.

Lemma length_full_round s rc : length (full_round s rc) = length s.
Proof. unfold full_round. by rewrite length_m_external, length_imap. Qed.

Lemma length_m_internal s : length (m_internal s) = length s.
Proof. unfold m_internal. cbv zeta. apply length_imap. Qed.

Lemma length_partial_round s rc : length (partial_round s rc) = length s.
Proof. unfold partial_round. by rewrite length_m_internal, length_insert. Qed.

Lemma permute16_eq s : permute16 s =
  fold_left full_round RC_EXT_FIN (fold_left partial_round RC_INTERNAL (fold_left full_round RC_EXT_INIT (m_external s))).
Proof. reflexivity. Qed.

Lemma length_permute16 s : length (permute16 s) = length s.
Proof.
  rewrite permute16_eq, (length_fold full_round), (length_fold partial_round), (length_fold full_round);
    [apply length_m_external|apply length_full_round|apply length_partial_round|apply length_full_round].
Qed.

Lemma length_absorb st b : length st = WIDTH → (length b ≤ RATE)%nat → length (absorb st b) = WIDTH.
Proof.
  intros Hl Hb. assert (∀ x, length (b ++ replicate (RATE - length b) 0 ++ drop RATE st) = x → length (absorb st b) = x) as H
    by (intros x <-; apply length_permute16).
  apply H. rewrite !length_app, length_replicate, length_drop, Hl. unfold RATE, WIDTH in *. lia.
Qed.

Lemma length_absorbed bs st : Forall (λ b, (length b ≤ RATE)%nat) bs → length st = WIDTH → length (fold_left absorb bs st) = WIDTH.
Proof.
  intros Hb Hl. rewrite Forall_forall in Hb.
  exact (fold_left_inv (λ st, length st = WIDTH) absorb bs st (λ st b Hin Hst, length_absorb st b Hst (Hb b Hin)) Hl).
Qed.

Lemma le_flat_map (l : list Z) : length (flat_map (le_bytes 8) l) = (8 * length l)%nat ∧ byte_list (flat_map (le_bytes 8) l).
Proof.
  induction l as [|x l [IHl IHb]]; [split; [done|constructor]|]. cbn [flat_map length]. split; [|apply Forall_app; split; [apply le_bytes_are_bytes|exact IHb]].
  rewrite length_app, length_le_bytes, IHl. lia.
Qed.

Lemma sponge_digest_ok frame : length (sponge_digest frame) = 32%nat ∧ byte_list (sponge_digest frame).
Proof.
  unfold sponge_digest. cbv zeta. destruct (le_flat_map (take 4 (fold_left absorb (chunks RATE (elements frame)) (replicate WIDTH 0)))) as [Hl Hb].
  split; [|exact Hb]. rewrite Hl, length_take, length_absorbed; [done|apply chunks_short; unfold RATE; lia|apply length_replicate].
Qed.

#[export] Instance poseidon2_backend : BpqsHash := {|
  digest32 := Poseidon2GoldilocksHash;
  digest32_length dom parts := proj1 (sponge_digest_ok (Frame.frame_bytes dom parts));
  digest32_bytes dom parts := proj2 (sponge_digest_ok (Frame.frame_bytes dom parts));
|}.
End Backend.

(** ** The Keccak sponge *)
Module ShakeLemmas.
Import Shake256 Absorbing.

(** The padding of the standard: the suffix [1111], then [1 0* 1]. *)
Definition padding (k : nat) : bytes := if (k =? 1)%nat then [0x9F] else 0x1F :: replicate (k - 2) 0 ++ [0x80].
Definition padded (frame : bytes) : bytes := frame ++ padding (136 - length frame mod 136).

Section shake.
Context (f1600 : list Z → list Z).

Definition reference (frame : bytes) : bytes :=
  flat_map (le_bytes 8) (take 4 (fold_left (λ st b, f1600 (xor_block st b)) (chunks 136 (padded frame)) (replicate 25 0))).

Lemma length_padding k : (0 < k)%nat → length (padding k) = k.
Proof.
  intros Hk. unfold padding. destruct (Nat.eqb_spec k 1) as [->|]; [done|]. cbn [length]. rewrite length_app, length_replicate. simpl. lia.
Qed.

Lemma last_block_padded rem : (length rem < 136)%nat → last_block rem = padded rem.
Proof.
  intros Hl. unfold last_block, padded, RATE. rewrite Nat.mod_small by done.
  destruct (136 - length rem)%nat as [|k] eqn:Ek; [lia|]. cbn [replicate].
  rewrite lookup_total_app_r, Nat.sub_diag, insert_app_r_alt, Nat.sub_diag by done. cbn [lookup_total list_lookup_total insert list_insert].
  rewrite Z.lxor_0_l. unfold padding. destruct (Nat.eqb_spec (S k) 1) as [Hk|Hk].
  - assert (k = 0%nat) as -> by lia. replace (136 - 1)%nat with (length rem + 0)%nat by lia.
    rewrite insert_app_r. rewrite lookup_total_app_r by lia. by rewrite Nat.add_sub'.
  - destruct k as [|k]; [done|]. replace (136 - 1)%nat with (length rem + S k)%nat by lia.
    rewrite insert_app_r, lookup_total_app_r, Nat.add_sub' by lia.
    assert (∀ z, <[k := z]> (replicate (S k) 0) = replicate k 0 ++ [z]) as Hins.
    { clear. intros z. induction k as [|k IH]; [done|]. cbn [replicate app insert list_insert] in *. by rewrite <- IH. }
    change ((31 :: replicate (S k) 0) !!! S k) with (replicate (S k) 0 !!! k). rewrite lookup_total_replicate_2 by lia.
    change (<[S k := Z.lxor 0 128]> (31 :: replicate (S k) 0)) with (31 :: <[k := 128]> (replicate (S k) 0)).
    by rewrite Hins, !Nat.sub_succ, Nat.sub_0_r.
Qed.

Lemma length_padded frame : (length frame < 136)%nat → length (padded frame) = 136%nat.
Proof. intros Hl. unfold padded. rewrite length_app, length_padding, Nat.mod_small by (rewrite ?Nat.mod_small; lia). lia. Qed.

Lemma absorb_full_spec fuel : ∀ st rem, (length rem ≤ fuel)%nat →
  fold_left (λ st b, f1600 (xor_block st b)) (chunks 136 (padded rem)) st =
  (let '(st', rem') := absorb_full f1600 fuel st rem in f1600 (xor_block st' (last_block rem'))).
Proof.
  assert (∀ rem st, (length rem < 136)%nat →
    fold_left (λ st b, f1600 (xor_block st b)) (chunks 136 (padded rem)) st = f1600 (xor_block st (last_block rem))) as Hlast.
  { intros rem st Hl. pose proof (length_padded rem Hl) as Hp. rewrite chunks_cons by (lia || by intros E; rewrite E in Hp).
    rewrite take_ge, drop_ge, last_block_padded by lia. done. }
  induction fuel as [|fuel IH]; intros st rem Hf; cbn [absorb_full]; [apply Hlast; lia|]. unfold RATE.
  destruct (Nat.leb_spec 136 (length rem)) as [Hge|Hlt]; [|by apply Hlast].
  rewrite <- IH by (rewrite length_drop; lia).
  assert (padded rem = take 136 rem ++ padded (drop 136 rem)) as ->.
  { unfold padded. rewrite app_assoc, take_drop, length_drop. do 3 f_equal.
    replace (length rem) with (length rem - 136 + 1 * 136)%nat at 1 by lia. by rewrite Nat.Div0.mod_add. }
  rewrite chunks_cons; [|lia|destruct rem; [cbn [length] in Hge; lia|done]].
  rewrite take_app_length', drop_app_length' by (rewrite length_take; lia). done.
Qed.

Lemma shake_reference frame : shake256_32 f1600 frame = reference frame.
Proof. unfold shake256_32, reference. rewrite (absorb_full_spec (length frame)) by done. by destruct (absorb_full _ _ _ _). Qed.
End shake.
End ShakeLemmas.

(** ** Theorems *)
Module Poseidon2Theorems.
Import FieldLemmas Permutation Paper FeLemmas Layers.

Lemma forallb_ok (f : list Z → bool) l : forallb f l = true → Forall (λ x, f x = true) l.
Proof. rewrite forallb_forall, Forall_forall. intros H x Hx. apply H. by apply list_elem_of_In. Qed.

(** C26: the Poseidon2 permutation.  On sixteen field elements, the branch-free
    code computes the permutation of the paper, with matrices and seventh
    powers modulo the prime; the result is again sixteen reduced field
    elements, and different states have different results. *)
Theorem poseidon2_permutation s : state16 s →
  permute16 s = permutation s ∧ state16 (permute16 s) ∧ ∀ t, state16 t → permute16 s = permute16 t → s = t.
Proof.
  destruct full_constants as [H1%forallb_ok H2%forallb_ok]. pose proof partial_constants as H3.
  assert (∀ u, state16 u → permute16 u = permutation u) as Hp; [|intros Hs; rewrite Hp by done; split; [done|]].
  - intros u Hu. unfold permute16, permutation. rewrite m_external_spec by done.
    destruct (rounds full_round full _ _ full_round_spec full_inj H1 (mat_mul EXTERNAL u)) as (->&O1&_); [by apply mat_mul_state|].
    destruct (rounds partial_round partial _ _ partial_round_spec (λ s t rc Hs Ht _, partial_inj s t rc Hs Ht) H3 _ O1) as (->&O2&_).
    by destruct (rounds full_round full _ _ full_round_spec full_inj H2 _ O2) as (->&_).
  - unfold permutation.
    destruct (rounds full_round full _ _ full_round_spec full_inj H1 (mat_mul EXTERNAL s)) as (_&O1&I1); [by apply mat_mul_state|].
    destruct (rounds partial_round partial _ _ partial_round_spec (λ s t rc Hs Ht _, partial_inj s t rc Hs Ht) H3 _ O1) as (_&O2&I2).
    destruct (rounds full_round full _ _ full_round_spec full_inj H2 _ O2) as (_&O3&I3). split; [done|].
    intros t Ht. rewrite Hp by done. unfold permutation. intros E.
    destruct (rounds full_round full _ _ full_round_spec full_inj H1 (mat_mul EXTERNAL t)) as (_&P1&_); [by apply mat_mul_state|].
    destruct (rounds partial_round partial _ _ partial_round_spec (λ s t rc Hs Ht _, partial_inj s t rc Hs Ht) H3 _ P1) as (_&P2&_).
    apply I3, I2, I1 in E; [|by apply mat_mul_state|done|done].
    by apply (mat_mul_inj external_inverse) in E; [|apply external_invertible|..].
Qed.

End Poseidon2Theorems.

Module Poseidon2Examples.
(** The known answer of the reference implementation. *)
Lemma known_answer : permute16
  [0x4d3f967fab9d4979; 0x57e1fba55677697e; 0x57429a86e75a3774; 0x31d379f3a592b5eb; 0x497232e1b648e3f1; 0x325a7db57173c39e;
   0xa802252d78bee916; 0x8920f55e154adef8; 0xa1225bc9c7913658; 0xd687be5097ffd038; 0x89f514ef0c913e48; 0x21fd4a9cf548cd84;
   0x570a1586ada436ff; 0x46bfbf38ccd740ae; 0x23651b3f3ab26484; 0xe90f3b02127fa552] =
  [0xf0f7717837c7032a; 0xf12fbcc838feb15b; 0xd8661f6fa4165ad8; 0x351cdc546760d1a9; 0x99474334bf02445f; 0x46fc4e9ceb376d6a;
   0x4601808321fcd920; 0xc58bfd0342dc60df; 0xb7f3acd43f3c029c; 0x5c7afa6a6997dfc5; 0xecbef8b82906c887; 0xd490e3b4e945d87c;
   0x31866766b83ebe0b; 0xb32d52f6e7a5bea2; 0x9522431667b3c5f9; 0xeaf5638a69518f65].
Proof. vm_compute. reflexivity. Qed.

Definition zeros_and (x : Z) : list Z := x :: replicate 15 0.

Lemma zeros_and_ok x : FieldLemmas.canonical x → Layers.state16 (zeros_and x).
Proof. intros Hx. split; [done|]. constructor; [done|]. by apply Forall_replicate. Qed.

Lemma states_ok : Layers.state16 (zeros_and 3) ∧ Layers.state16 (zeros_and 4).
Proof. split; by apply zeros_and_ok. Qed.

Lemma poseidon2_permutation_witness : permute16 (zeros_and 3) = Paper.permutation (zeros_and 3) ∧ permute16 (zeros_and 3) ≠ permute16 (zeros_and 4).
Proof.
  destruct states_ok as [H3 H4]. destruct (Poseidon2Theorems.poseidon2_permutation (zeros_and 3) H3) as (E&_&Hi).
  split; [exact E|]. intros Heq. discriminate (Hi (zeros_and 4) H4 Heq).
Defined.

End Poseidon2Examples.
