(* ===== verification/Erasure.v ===== *)
(** * The Reed-Solomon coder of content storage

    [src/src/storage/erasure.rs]: the field GF(2^8) with its log and exp
    tables (Module [Gf]), dense matrices over it and their Gauss-Jordan
    inverse (Module [GfMatrix]), and the coder itself, which computes parity
    shards, audits one byte column and rebuilds a code word from its surviving
    shards (Module [ReedSolomon]).

    A [u8] of a shard is a [Byte.byte]: the field is the whole type, so its
    laws carry no range conditions.  A [for] loop is a [foldl] over the range
    it visits.  Error messages are dropped from the error values. *)
From Stdlib Require Import ZArith Lia.
From Stdlib Require Import Strings.Byte.
From stdpp Require Import base tactics numbers list.
From S2P Require Import Prelude.
Local Open Scope nat_scope.

(** ** Bytes *)
#[export] Instance byte_eq_dec : EqDecision byte := Byte.byte_eq_dec.
#[export] Instance byte_inhabited : Inhabited byte := populate x00.

Definition xor_bits (a b : bool * (bool * (bool * (bool * (bool * (bool * (bool * bool)))))))
  : bool * (bool * (bool * (bool * (bool * (bool * (bool * bool)))))) :=
  match a, b with
  | (a0, (a1, (a2, (a3, (a4, (a5, (a6, a7))))))), (b0, (b1, (b2, (b3, (b4, (b5, (b6, b7))))))) =>
      (xorb a0 b0, (xorb a1 b1, (xorb a2 b2, (xorb a3 b3,
        (xorb a4 b4, (xorb a5 b5, (xorb a6 b6, xorb a7 b7)))))))
  end.

(** [a ^ b] on [u8]. *)
Definition byte_xor (a b : byte) : byte := Byte.of_bits (xor_bits (Byte.to_bits a) (Byte.to_bits b)).

(** [n as u8] and [b as usize]. *)
Definition byte_of_nat (n : nat) : byte :=
  match Byte.of_N (N.of_nat n mod 256) with Some b => b | None => x00 end.
Definition byte_to_nat (b : byte) : nat := N.to_nat (Byte.to_N b).

Declare Scope gf_scope.
Delimit Scope gf_scope with gf.
Infix "⊕" := byte_xor (at level 50, left associativity) : gf_scope.

(** ** GF(2^8) *)
Module Gf.
Local Open Scope gf_scope.

Definition GF_POLY : N := 285 (* 0x11D *).

Record GfTables := mkGfTables {
  exp : list byte;
  log : list byte;
}.

(** One iteration of the table loop: the slots written for power [i], and the
    next power as a [u16]. *)
Definition table_step (st : list byte * list byte * N) (i : nat) : list byte * list byte * N :=
  let '(exp, log, x) := st in
  let exp := <[i := byte_of_nat (N.to_nat x)]> exp in
  let log := <[N.to_nat x := byte_of_nat i]> log in
  let x := N.shiftl x 1 in
  let x := if negb (N.eqb (N.land x 256) 0) then N.lxor x GF_POLY else x in
  (exp, log, x).

(** [exp[255..]] is filled by repeating the first 255 powers. *)
Definition build_tables : GfTables :=
  let '(exp, log, _) :=
    foldl table_step (replicate 512 x00, replicate 256 x00, 1%N) (seq 0 255) in
  let cycle := take 255 exp in
  {| exp := take 255 exp ++ ((λ i, cycle !!! (i mod 255)) <$> seq 0 257); log := log |}.

(** The tables are built once and read many times. *)
Definition TABLES : GfTables := Eval vm_compute in build_tables.

Definition gf_log (a : byte) : nat := byte_to_nat (log TABLES !!! byte_to_nat a).
Definition gf_exp (i : nat) : byte := exp TABLES !!! i.

Definition gf_mul (a b : byte) : byte :=
  if bool_decide (a = x00) || bool_decide (b = x00) then x00
  else gf_exp (gf_log a + gf_log b).

Definition gf_inv (a : byte) : byte :=
  if bool_decide (a = x00) then x00 else gf_exp (255 - gf_log a).

Lemma TABLES_built : TABLES = build_tables.
Proof. vm_compute. reflexivity. Qed.

End Gf.

(** ** Dense row-major matrices *)
Module GfMatrix.
Import Gf.
Local Open Scope gf_scope.

Record GfMatrix := mkGfMatrix {
  rows : nat;
  cols : nat;
  data : list byte;
}.

Definition zero (rows cols : nat) : GfMatrix :=
  mkGfMatrix rows cols (replicate (rows * cols) x00).

(** Every access below is at a row and a column of the matrix, so the index
    the source would panic on does not occur ([wf] and its lemmas). *)
Definition get (m : GfMatrix) (r c : nat) : byte := data m !!! (r * cols m + c).

Definition set (m : GfMatrix) (r c : nat) (v : byte) : GfMatrix :=
  mkGfMatrix (rows m) (cols m) (<[r * cols m + c := v]> (data m)).

Definition identity (n : nat) : GfMatrix :=
  foldl (λ m i, set m i i x01) (zero n n) (seq 0 n).

(** The first row from [col] on with a nonzero entry in column [col]. *)
Definition find_pivot (n : nat) (work : GfMatrix) (col : nat) : option nat :=
  list_find (λ row, get work row col ≠ x00) (seq col (n - col)) ≫= λ '(_, row), Some row.

(** The three row operations; the source applies each to [work] and [inv] in
    the same loop, one column at a time. *)
Definition swap_rows (n : nat) (a b : nat) (m : GfMatrix) : GfMatrix :=
  foldl (λ m c, let x := get m a c in let y := get m b c in
                set (set m a c y) b c x) m (seq 0 n).

Definition scale_row (n : nat) (r : nat) (k : byte) (m : GfMatrix) : GfMatrix :=
  foldl (λ m c, set m r c (gf_mul (get m r c) k)) m (seq 0 n).

Definition add_row (n : nat) (r : nat) (f : byte) (src : nat) (m : GfMatrix) : GfMatrix :=
  foldl (λ m c, set m r c (get m r c ⊕ gf_mul f (get m src c))) m (seq 0 n).

(** Eliminate column [col] from row [row]. *)
Definition eliminate (n : nat) (col : nat) (st : GfMatrix * GfMatrix) (row : nat) :
    GfMatrix * GfMatrix :=
  let '(work, inv) := st in
  if bool_decide (row = col) then (work, inv)
  else
    let f := get work row col in
    if bool_decide (f = x00) then (work, inv)
    else (add_row n row f col work, add_row n row f col inv).

Definition invert_col (n : nat) (st : GfMatrix * GfMatrix) (col : nat) :
    option (GfMatrix * GfMatrix) :=
  let '(work, inv) := st in
  pivot ← find_pivot n work col;
  let '(work, inv) :=
    if bool_decide (pivot ≠ col) then (swap_rows n col pivot work, swap_rows n col pivot inv)
    else (work, inv) in
  let p := get work col col in
  let '(work, inv) :=
    if bool_decide (p ≠ x01) then
      let ip := gf_inv p in (scale_row n col ip work, scale_row n col ip inv)
    else (work, inv) in
  Some (foldl (eliminate n col) (work, inv) (seq 0 n)).

(** Gauss-Jordan. *)
Definition invert (m : GfMatrix) : option GfMatrix :=
  if bool_decide (rows m ≠ cols m) then None
  else
    let n := rows m in
    '(_, inv) ← foldl (λ st col, st ≫= λ st, invert_col n st col)
                  (Some (m, identity n)) (seq 0 n);
    Some inv.

(** Systematic generator: the identity stacked on a Cauchy block. *)
Definition generator_matrix (k m : nat) : GfMatrix :=
  let g := foldl (λ g i, set g i i x01) (zero (k + m) k) (seq 0 k) in
  foldl (λ g i,
    foldl (λ g j, set g (k + i) j (gf_inv (byte_of_nat (k + i) ⊕ byte_of_nat j))) g (seq 0 k))
    g (seq 0 m).

End GfMatrix.

(** ** Errors *)
Inductive ErasureError :=
  | InvalidScheme
  | ShardMismatch
  | NotEnoughShards (have need : nat)
  | IntegrityFailure (index : Z)
  | SingularMatrix.

#[export] Instance ErasureError_eq_dec : EqDecision ErasureError.
Proof. solve_decision. Defined.

(** ** The scheme a manifest declares *)
Module ErasureScheme.
Local Open Scope Z_scope.

Record ErasureScheme := mkErasureScheme {
  k : Z;  (* u32 *)
  n : Z;  (* u32 *)
}.

#[export] Instance ErasureScheme_eq_dec : EqDecision ErasureScheme.
Proof. solve_decision. Defined.

Definition replication (shard_count : Z) : ErasureScheme :=
  mkErasureScheme shard_count shard_count.

Definition parity_count (s : ErasureScheme) : Z := sat_sub (n s) (k s).

Definition repair_margin (s : ErasureScheme) : Z :=
  let parity := parity_count s in
  if parity =? 0 then 0
  else Z.min (Z.max ((parity + 2) / 3) 2) parity.

Definition overhead_per_mille (s : ErasureScheme) : Z :=
  if k s =? 0 then u32_max else Z.min (n s * 1000) u32_max / k s.

(** Whether the source returns [Ok(())]. *)
Definition validate (s : ErasureScheme) : bool :=
  negb (k s =? 0) && negb (n s <? k s).

End ErasureScheme.

(** ** The coder *)
Module ReedSolomon.
Import Gf GfMatrix.
Local Open Scope gf_scope.

Definition MAX_TOTAL_SHARDS : Z := 255.

Record ReedSolomon := mkReedSolomon {
  k : nat;
  m : nat;
  generator : GfMatrix;
}.

(** [usize] is 64 bits wide. *)
Definition new (data_shards parity_shards : Z) : result ErasureError ReedSolomon :=
  if (data_shards =? 0)%Z then Err InvalidScheme
  else
    let? total := ok_or (u64_checked_add data_shards parity_shards) InvalidScheme in
    if (MAX_TOTAL_SHARDS <? total)%Z then Err InvalidScheme
    else
      let k := Z.to_nat data_shards in
      let m := Z.to_nat parity_shards in
      Ok (mkReedSolomon k m (generator_matrix k m)).

Definition for_scheme (scheme : ErasureScheme.ErasureScheme) : result ErasureError ReedSolomon :=
  if negb (ErasureScheme.validate scheme) then Err InvalidScheme
  else new (ErasureScheme.k scheme) (ErasureScheme.parity_count scheme).

Definition total_shards (rs : ReedSolomon) : nat := k rs + m rs.

(** [for (o, s) in out.iter_mut().zip(src) { *o ^= gf_mul(coeff, *s) }]: the
    bytes of [out] past the end of [src] stay. *)
Fixpoint xor_mul_into (coeff : byte) (out src : list byte) : list byte :=
  match out, src with
  | o :: out, s :: src => (o ⊕ gf_mul coeff s) :: xor_mul_into coeff out src
  | _, _ => out
  end.

Definition mul_into (coeff : byte) (out src : list byte) : list byte :=
  if bool_decide (coeff = x00) then out else xor_mul_into coeff out src.

Definition parity_row (rs : ReedSolomon) (parity_index : nat) (data : list (list byte)) :
    result ErasureError (list byte) :=
  if bool_decide (length data ≠ k rs) then Err ShardMismatch
  else if m rs <=? parity_index then Err ShardMismatch
  else
    let len := length (data !!! 0) in
    if bool_decide (len = 0) then Err ShardMismatch
    else if existsb (λ s, bool_decide (length s ≠ len)) data then Err ShardMismatch
    else
      let row := k rs + parity_index in
      Ok (foldl (λ out '(j, src), mul_into (get (generator rs) row j) out src)
            (replicate len x00) (imap pair data)).

(** [collect::<Result<Vec<_>, _>>()]. *)
Fixpoint collect {E A} (rs : list (result E A)) : result E (list A) :=
  match rs with
  | [] => Ok []
  | r :: rs => let? a := r in let? l := collect rs in Ok (a :: l)
  end.

(** The rows above the work window run on a thread pool and are collected in
    order: both branches of the source are this value. *)
Definition encode_parity (rs : ReedSolomon) (data : list (list byte)) :
    result ErasureError (list (list byte)) :=
  if bool_decide (length data ≠ k rs) then Err ShardMismatch
  else if bool_decide (m rs = 0) then Ok []
  else
    let len := length (data !!! 0) in
    if bool_decide (len = 0) then Err ShardMismatch
    else if existsb (λ s, bool_decide (length s ≠ len)) data then Err ShardMismatch
    else collect ((λ i, parity_row rs i data) <$> seq 0 (m rs)).

Definition parity_coefficient (rs : ReedSolomon) (parity_index data_index : nat) : option byte :=
  if (m rs <=? parity_index) || (k rs <=? data_index) then None
  else Some (get (generator rs) (k rs + parity_index) data_index).

Definition column_is_correctly_encoded (rs : ReedSolomon) (parity_index : nat)
    (data_column : list byte) (parity_byte : byte) : bool :=
  if bool_decide (length data_column ≠ k rs) || (m rs <=? parity_index) then false
  else
    let acc :=
      foldl (λ acc '(j, b), acc ⊕ gf_mul (get (generator rs) (k rs + parity_index) j) b)
        x00 (imap pair data_column) in
    bool_decide (acc = parity_byte).

(** The indices of the surviving shards, in order. *)
Definition live_indices (present : list (option (list byte))) : list nat :=
  (imap (λ i s, (i, s)) present) ≫= λ '(i, s), if s is Some _ then [i] else [].

(** The shard in slot [i], empty when there is none. *)
Definition slot (present : list (option (list byte))) (i : nat) : list byte :=
  default [] (present !!! i).

(** The generator rows of the chosen survivors. *)
Definition survivor_matrix (rs : ReedSolomon) (chosen : list nat) : GfMatrix :=
  foldl (λ sub '(r, row),
    foldl (λ sub c, set sub r c (get (generator rs) row c)) sub (seq 0 (k rs)))
    (zero (k rs) (k rs)) (imap pair chosen).

(** One data shard out of the chosen survivors.  A slot of [chosen] always
    holds a shard, so the source's [survivor vanished] arm is not reached:
    [elem_of_live_indices]. *)
Definition recover_row (inv : GfMatrix) (chosen : list nat)
    (present : list (option (list byte))) (len i : nat) : list byte :=
  foldl (λ dst '(r, row), mul_into (get inv i r) dst (slot present row))
    (replicate len x00) (imap pair chosen).

Definition reconstruct (rs : ReedSolomon) (present : list (option (list byte))) :
    result ErasureError (list (list byte)) :=
  let n := total_shards rs in
  if bool_decide (length present ≠ n) then Err ShardMismatch
  else
    let live := live_indices present in
    if length live <? k rs then Err (NotEnoughShards (length live) (k rs))
    else
      let len := length (slot present (live !!! 0)) in
      if bool_decide (len = 0) then Err ShardMismatch
      else if existsb (λ i, bool_decide (length (slot present i) ≠ len)) live
      then Err ShardMismatch
      else
        let data_complete :=
          forallb (λ i, if present !!! i is Some _ then true else false) (seq 0 (k rs)) in
        let? data :=
          (if data_complete then Ok (slot present <$> seq 0 (k rs))
           else
             let chosen := take (k rs) live in
             let? inv := ok_or (invert (survivor_matrix rs chosen)) SingularMatrix in
             Ok (recover_row inv chosen present len <$> seq 0 (k rs))) in
        let? parity := encode_parity rs data in
        Ok (data ++ parity).

End ReedSolomon.
