(* ===== verification/ErasureField.v ===== *)
(** * The field laws of GF(2^8) and Cauchy systems

    [gf_mul] and [gf_inv] of [src/src/storage/erasure.rs] make the bytes a
    field of characteristic two.  The tables are checked row by row, the laws
    follow by exponent arithmetic, and distributivity follows from doubling
    being linear.  On top of the field: sums over lists, and the lemma that a
    Cauchy system with at least as many equations as unknowns has only the
    zero solution. *)
From Stdlib Require Import ZArith Lia Ring Btauto.
From Stdlib Require Import Strings.Byte.
From stdpp Require Import base tactics numbers list.
From S2P Require Import Prelude Erasure.
Import Gf.
Local Open Scope nat_scope.
Local Open Scope gf_scope.

(** ** Bytes *)
Lemma byte_to_nat_lt b : byte_to_nat b < 256.
Proof. unfold byte_to_nat. pose proof (Byte.to_N_bounded b). lia. Qed.

Lemma byte_of_to_nat b : byte_of_nat (byte_to_nat b) = b.
Proof.
  unfold byte_of_nat, byte_to_nat. pose proof (Byte.to_N_bounded b).
  rewrite N2Nat.id, N.mod_small, Byte.of_to_N by lia. done.
Qed.

Lemma byte_to_of_nat n : n < 256 → byte_to_nat (byte_of_nat n) = n.
Proof.
  intros Hn. unfold byte_of_nat, byte_to_nat. rewrite N.mod_small by lia.
  destruct (Byte.of_N (N.of_nat n)) as [b|] eqn:Hb.
  - apply Byte.to_of_N in Hb. lia.
  - apply Byte.of_N_None_iff in Hb. lia.
Qed.

Lemma byte_of_nat_inj i j : i < 256 → j < 256 → byte_of_nat i = byte_of_nat j → i = j.
Proof. intros Hi Hj Heq. rewrite <- (byte_to_of_nat i), <- (byte_to_of_nat j), Heq; done. Qed.

(** A statement about all bytes, or all table indices, by evaluation. *)
Lemma forall_nat_below (P : nat → bool) n : forallb P (seq 0 n) = true → ∀ i, i < n → P i = true.
Proof. rewrite forallb_forall. intros HP i Hi. apply HP, in_seq. lia. Qed.

Lemma forall_bytes (P : byte → bool) :
  forallb (λ i, P (byte_of_nat i)) (seq 0 256) = true → ∀ b, P b = true.
Proof.
  intros HP b. rewrite <- (byte_of_to_nat b). by apply (forall_nat_below _ _ HP), byte_to_nat_lt.
Qed.

Ltac by_bytes b P :=
  refine (bool_decide_eq_true_1 (P b) (forall_bytes (λ b, bool_decide (P b)) _ b));
  vm_compute; reflexivity.

Ltac by_index i n P Hi :=
  refine (bool_decide_eq_true_1 (P i) (forall_nat_below (λ i, bool_decide (P i)) n _ i Hi));
  vm_compute; reflexivity.

(** Exclusive or is bitwise. *)
Lemma to_bits_xor a b : Byte.to_bits (a ⊕ b) = xor_bits (Byte.to_bits a) (Byte.to_bits b).
Proof. apply Byte.to_bits_of_bits. Qed.

Lemma to_bits_inj a b : Byte.to_bits a = Byte.to_bits b → a = b.
Proof. intros H. by rewrite <- (Byte.of_bits_to_bits a), H, Byte.of_bits_to_bits. Qed.

Ltac xor_bitwise :=
  intros; apply to_bits_inj; rewrite ?to_bits_xor;
  repeat match goal with |- context [Byte.to_bits ?x] => is_var x;
    destruct (Byte.to_bits x) as (?&?&?&?&?&?&?&?) end;
  simpl; repeat apply (f_equal2 pair); btauto.

Lemma xor_comm a b : a ⊕ b = b ⊕ a.
Proof. xor_bitwise. Qed.
Lemma xor_assoc a b c : a ⊕ (b ⊕ c) = a ⊕ b ⊕ c.
Proof. xor_bitwise. Qed.
Lemma xor_0_l a : x00 ⊕ a = a.
Proof. xor_bitwise. Qed.
Lemma xor_self a : a ⊕ a = x00.
Proof. xor_bitwise. Qed.

Lemma xor_eq_0 a b : a ⊕ b = x00 ↔ a = b.
Proof.
  split; [|intros ->; apply xor_self]. intros H.
  rewrite <- (xor_0_l a), <- (xor_self b), <- xor_assoc, (xor_comm b a), H. 
  rewrite xor_comm. apply xor_0_l.
Qed.

(** ** The tables *)
Lemma gf_exp_nonzero i : i < 512 → gf_exp i ≠ x00.
Proof. intros Hi. by_index i 512 (λ i, gf_exp i ≠ x00) Hi. Qed.

Lemma gf_log_exp i : i < 512 → gf_log (gf_exp i) = i mod 255.
Proof. intros Hi. by_index i 512 (λ i, gf_log (gf_exp i) = i mod 255) Hi. Qed.

Lemma gf_exp_mod i : i < 512 → gf_exp (i mod 255) = gf_exp i.
Proof. intros Hi. by_index i 512 (λ i, gf_exp (i mod 255) = gf_exp i) Hi. Qed.

Lemma gf_log_lt a : gf_log a < 255.
Proof. by_bytes a (λ a, gf_log a < 255). Qed.

Lemma gf_exp_log a : a ≠ x00 → gf_exp (gf_log a) = a.
Proof. by_bytes a (λ a, a ≠ x00 → gf_exp (gf_log a) = a). Qed.

(** Doubling: multiplication by the generator 2, on the bits of a byte. *)
Definition xtime (b : byte) : byte :=
  let '(b0, (b1, (b2, (b3, (b4, (b5, (b6, b7))))))) := Byte.to_bits b in
  Byte.of_bits (b7, (b0, (xorb b1 b7, (xorb b2 b7, (xorb b3 b7, (b4, (b5, b6))))))).

Lemma xtime_xor a b : xtime (a ⊕ b) = xtime a ⊕ xtime b.
Proof.
  unfold xtime. rewrite to_bits_xor.
  destruct (Byte.to_bits a) as (?&?&?&?&?&?&?&?), (Byte.to_bits b) as (?&?&?&?&?&?&?&?).
  apply to_bits_inj. cbn [xor_bits]. rewrite to_bits_xor, !Byte.to_bits_of_bits.
  simpl; repeat apply (f_equal2 pair); btauto.
Qed.

Lemma gf_mul_2 b : gf_mul (gf_exp 1) b = xtime b.
Proof. by_bytes b (λ b, gf_mul (gf_exp 1) b = xtime b). Qed.

(** ** The field laws *)
Lemma gf_mul_exp i j : i < 255 → j < 255 → gf_mul (gf_exp i) (gf_exp j) = gf_exp (i + j).
Proof.
  intros Hi Hj. unfold gf_mul.
  rewrite !bool_decide_false by (apply gf_exp_nonzero; lia). simpl.
  rewrite !gf_log_exp, !Nat.mod_small by lia. done.
Qed.

Lemma gf_mul_0_l a : gf_mul x00 a = x00.
Proof. done. Qed.
Lemma gf_mul_0_r a : gf_mul a x00 = x00.
Proof. unfold gf_mul. by rewrite orb_true_r. Qed.

(** Every nonzero byte is a power below 255. *)
Lemma gf_power a : a = x00 ∨ ∃ i, i < 255 ∧ a = gf_exp i.
Proof.
  destruct (decide (a = x00)) as [->|Ha]; [by left|right].
  exists (gf_log a). by rewrite gf_exp_log; eauto using gf_log_lt.
Qed.

Lemma gf_mul_comm a b : gf_mul a b = gf_mul b a.
Proof. unfold gf_mul. rewrite orb_comm, Nat.add_comm. done. Qed.

Lemma gf_mul_assoc a b c : gf_mul a (gf_mul b c) = gf_mul (gf_mul a b) c.
Proof.
  destruct (gf_power a) as [->|(i&Hi&->)]; [done|].
  destruct (gf_power b) as [->|(j&Hj&->)]; [by rewrite !gf_mul_0_r|].
  destruct (gf_power c) as [->|(l&Hl&->)]; [by rewrite !gf_mul_0_r|].
  rewrite (gf_mul_exp j l), (gf_mul_exp i j) by done.
  rewrite <- (gf_exp_mod (j + l)), <- (gf_exp_mod (i + j)) by lia.
  rewrite !gf_mul_exp by (done || (apply Nat.mod_upper_bound; lia)).
  rewrite <- (gf_exp_mod (i + _)), <- (gf_exp_mod (_ + l)) by
    (pose proof (Nat.mod_upper_bound (j + l) 255); pose proof (Nat.mod_upper_bound (i + j) 255); lia).
  rewrite Nat.Div0.add_mod_idemp_r, Nat.Div0.add_mod_idemp_l. do 2 f_equal. lia.
Qed.

Lemma gf_mul_1_l a : gf_mul x01 a = a.
Proof.
  change x01 with (gf_exp 0).
  destruct (gf_power a) as [->|(i&Hi&->)]; [done|]. by rewrite gf_mul_exp by lia.
Qed.

Lemma gf_mul_iter i b : i < 255 → gf_mul (gf_exp i) b = Nat.iter i xtime b.
Proof.
  induction i as [|i IH]; intros Hi; [apply (gf_mul_1_l b)|].
  rewrite Nat.iter_succ, <- IH, <- gf_mul_2, gf_mul_assoc, gf_mul_exp by lia. done.
Qed.

Lemma gf_mul_xor_r a b c : gf_mul a (b ⊕ c) = gf_mul a b ⊕ gf_mul a c.
Proof.
  destruct (gf_power a) as [->|(i&Hi&->)]; [done|]. rewrite !gf_mul_iter by done.
  clear Hi. induction i as [|i IH]; [done|]. by rewrite !Nat.iter_succ, IH, xtime_xor.
Qed.

Lemma gf_mul_xor_l a b c : gf_mul (a ⊕ b) c = gf_mul a c ⊕ gf_mul b c.
Proof. by rewrite !(gf_mul_comm _ c), gf_mul_xor_r. Qed.

Lemma gf_inv_r a : a ≠ x00 → gf_mul a (gf_inv a) = x01.
Proof. by_bytes a (λ a, a ≠ x00 → gf_mul a (gf_inv a) = x01). Qed.

Lemma gf_one_neq_zero : x01 ≠ x00.
Proof. done. Qed.

(** The bytes as a commutative ring; coefficients are booleans because the
    characteristic is two. *)
Lemma gf_ring_theory : ring_theory x00 x01 byte_xor gf_mul byte_xor (λ x, x) (@eq byte).
Proof.
  split; intros.
  - apply xor_0_l.
  - apply xor_comm.
  - apply xor_assoc.
  - apply gf_mul_1_l.
  - apply gf_mul_comm.
  - apply gf_mul_assoc.
  - apply gf_mul_xor_l.
  - done.
  - apply xor_self.
Qed.

Definition gf_of_bool (b : bool) : byte := if b then x01 else x00.

Lemma gf_ring_morph :
  ring_morph x00 x01 byte_xor gf_mul byte_xor (λ x, x) (@eq byte)
    false true xorb andb xorb (λ x, x) Bool.eqb gf_of_bool.
Proof.
  split; try done; try (by intros [] []); intros x y Hxy%Bool.eqb_prop; by subst.
Qed.

Ltac gf_cst t :=
  match t with x00 => constr:(false) | x01 => constr:(true) | _ => constr:(InitialRing.NotConstant) end.

Add Ring gf_ring : gf_ring_theory (morphism gf_ring_morph, constants [gf_cst]).

Lemma gf_mul_eq_0 a b : gf_mul a b = x00 ↔ a = x00 ∨ b = x00.
Proof.
  split; [|intros [->| ->]; auto using gf_mul_0_r].
  intros Hab. destruct (decide (a = x00)) as [|Ha]; [by left|right].
  transitivity (gf_mul (gf_inv a) (gf_mul a b)); [|by rewrite Hab, gf_mul_0_r].
  rewrite gf_mul_assoc, (gf_mul_comm _ a), gf_inv_r, gf_mul_1_l by done. done.
Qed.

Lemma gf_inv_nonzero a : a ≠ x00 → gf_inv a ≠ x00.
Proof. intros Ha Hi. apply gf_one_neq_zero. rewrite <- (gf_inv_r a), Hi by done. apply gf_mul_0_r. Qed.

(** ** Sums over lists *)
Definition xsum {A} (f : A → byte) (l : list A) : byte := foldr (λ x acc, f x ⊕ acc) x00 l.

Section xsum.
Context {A : Type}.
Implicit Types (f g : A → byte) (l : list A).

Lemma xsum_cons f x l : xsum f (x :: l) = f x ⊕ xsum f l.
Proof. done. Qed.

Lemma xsum_ext f g l : (∀ x, x ∈ l → f x = g x) → xsum f l = xsum g l.
Proof.
  induction l as [|x l IH]; intros Hfg; [done|]. rewrite !xsum_cons, Hfg, IH; [done| |by left].
  intros y Hy. apply Hfg. by right.
Qed.

Lemma xsum_zero f l : (∀ x, x ∈ l → f x = x00) → xsum f l = x00.
Proof.
  induction l as [|x l IH]; intros Hf; [done|].
  rewrite xsum_cons, Hf, IH; [done| |by left]. intros y Hy. apply Hf. by right.
Qed.

Lemma xsum_xor f g l : xsum (λ x, f x ⊕ g x) l = xsum f l ⊕ xsum g l.
Proof. induction l as [|x l IH]; [done|]. rewrite !xsum_cons, IH. ring. Qed.

Lemma xsum_mul_l a f l : gf_mul a (xsum f l) = xsum (λ x, gf_mul a (f x)) l.
Proof. induction l as [|x l IH]; [apply gf_mul_0_r|]. rewrite !xsum_cons, <- IH. ring. Qed.

Lemma xsum_mul_r a f l : gf_mul (xsum f l) a = xsum (λ x, gf_mul (f x) a) l.
Proof. induction l as [|x l IH]; [done|]. rewrite !xsum_cons, <- IH. ring. Qed.

Lemma xsum_app f l k : xsum f (l ++ k) = xsum f l ⊕ xsum f k.
Proof. induction l as [|x l IH]; simpl; rewrite ?IH; ring. Qed.

(** A sum with at most one term that is not zero. *)
Lemma xsum_single f l y :
  NoDup l → y ∈ l → (∀ x, x ∈ l → x ≠ y → f x = x00) → xsum f l = f y.
Proof.
  induction l as [|x l IH]; intros Hnd Hy Hf; [by apply not_elem_of_nil in Hy|].
  apply NoDup_cons in Hnd as [Hx Hnd]. rewrite xsum_cons.
  apply elem_of_cons in Hy as [->|Hy].
  - rewrite xsum_zero; [ring|]. intros z Hz. apply Hf; [by right|]. by intros ->.
  - rewrite IH; [|done..|]. 2:{ intros z Hz. apply Hf. by right. }
    rewrite Hf; [ring|by left|]. by intros ->.
Qed.

Lemma xsum_fmap {B} (h : B → A) f (l : list B) : xsum f (h <$> l) = xsum (λ x, f (h x)) l.
Proof. induction l as [|x l IH]; [done|]. rewrite fmap_cons, !xsum_cons, IH. done. Qed.

(** The terms that may be nonzero are all in a sublist. *)
Lemma xsum_filter (P : A → Prop) `{∀ x, Decision (P x)} f l :
  (∀ x, x ∈ l → ¬ P x → f x = x00) → xsum f l = xsum f (filter P l).
Proof.
  induction l as [|x l IH]; intros Hf; [done|]. rewrite filter_cons, xsum_cons, IH.
  2:{ intros y Hy. apply Hf. by right. }
  destruct (decide (P x)) as [Hp|Hp]; [done|]. rewrite Hf; [ring|by left|done].
Qed.

End xsum.

Lemma xsum_swap {A B} (f : A → B → byte) l k :
  xsum (λ x, xsum (f x) k) l = xsum (λ y, xsum (λ x, f x y) l) k.
Proof.
  induction l as [|x l IH]; [symmetry; by apply xsum_zero|].
  rewrite xsum_cons, IH, <- xsum_xor. done.
Qed.

(** ** Cauchy systems *)

(** [1 / (x + y)], the entry of the generator at row [x] and column [y]. *)
Definition cauchy (x y : byte) : byte := gf_inv (x ⊕ y).

Lemma cauchy_inv x y : x ≠ y → gf_mul (x ⊕ y) (cauchy x y) = x01.
Proof. intros Hxy. apply gf_inv_r. by rewrite xor_eq_0. Qed.

Lemma cauchy_nonzero x y : x ≠ y → cauchy x y ≠ x00.
Proof. intros Hxy. apply gf_inv_nonzero. by rewrite xor_eq_0. Qed.

(** Eliminating the unknown of [y0] from the equation at [x0] and at [x]. *)
Lemma cauchy_eliminate x x0 y y0 w :
  x ≠ y → x0 ≠ y →
  gf_mul (x ⊕ y0) (gf_mul w (cauchy x y)) ⊕ gf_mul (x0 ⊕ y0) (gf_mul w (cauchy x0 y)) =
  gf_mul (x ⊕ x0) (gf_mul (gf_mul w (gf_mul (y ⊕ y0) (cauchy x0 y))) (cauchy x y)).
Proof.
  intros Hx Hx0. pose proof (cauchy_inv x y Hx) as E. pose proof (cauchy_inv x0 y Hx0) as E0.
  revert E E0. generalize (cauchy x y) as p, (cauchy x0 y) as q. intros p q E E0.
  transitivity (gf_mul w (gf_mul (gf_mul (x ⊕ y0) p) (gf_mul (x0 ⊕ y) q)
    ⊕ gf_mul (gf_mul (x0 ⊕ y0) q) (gf_mul (x ⊕ y) p))); [rewrite E, E0; ring|ring].
Qed.

Lemma cauchy_kernel ys : ∀ xs (w : byte → byte),
  NoDup xs → NoDup ys → (∀ x, x ∈ xs → x ∉ ys) → length ys ≤ length xs →
  (∀ x, x ∈ xs → xsum (λ y, gf_mul (w y) (cauchy x y)) ys = x00) →
  ∀ y, y ∈ ys → w y = x00.
Proof.
  induction ys as [|y0 ys IH]; intros xs w Hxs Hys Hdis Hlen Heq y Hy; [by apply not_elem_of_nil in Hy|].
  destruct xs as [|x0 xs]; [simpl in Hlen; lia|].
  apply NoDup_cons in Hxs as [Hx0 Hxs], Hys as [Hy0 Hys].
  assert (∀ x, x ∈ x0 :: xs → ∀ y, y ∈ y0 :: ys → x ≠ y) as Hne.
  { intros x Hx z Hz ->. by apply (Hdis z). }
  assert (∀ x, x ∈ x0 :: xs →
    w y0 = gf_mul (x ⊕ y0) (xsum (λ y, gf_mul (w y) (cauchy x y)) ys)) as Hw0.
  { intros x Hx. apply xor_eq_0. rewrite <- (gf_mul_0_r (x ⊕ y0)), <- (Heq x Hx), xsum_cons.
    pose proof (cauchy_inv x y0 (Hne _ Hx y0 ltac:(by left))) as E. revert E.
    generalize (cauchy x y0) as p. intros p E.
    rewrite <- (gf_mul_1_l (w y0)), <- E at 1. ring. }
  assert (∀ y, y ∈ ys → w y = x00) as Hrest.
  { intros z Hz.
    assert (gf_mul (w z) (gf_mul (z ⊕ y0) (cauchy x0 z)) = x00) as Hz0.
    { apply (IH xs (λ y, gf_mul (w y) (gf_mul (y ⊕ y0) (cauchy x0 y)))); try done.
      - intros x Hx Hin. apply (Hdis x); by right.
      - simpl in Hlen. lia.
      - intros x Hx.
        assert (x ≠ x0) as Hxx by (by intros ->).
        assert (gf_mul (x ⊕ x0) (xsum (λ y, gf_mul (gf_mul (w y)
          (gf_mul (y ⊕ y0) (cauchy x0 y))) (cauchy x y)) ys) = x00) as Hprod.
        { rewrite xsum_mul_l.
          rewrite (xsum_ext _ (λ y, gf_mul (x ⊕ y0) (gf_mul (w y) (cauchy x y))
            ⊕ gf_mul (x0 ⊕ y0) (gf_mul (w y) (cauchy x0 y)))).
          2:{ intros t Ht. symmetry. apply cauchy_eliminate; apply Hne; first [by left | by right]. }
          rewrite xsum_xor, <- !xsum_mul_l, <- (Hw0 x), <- (Hw0 x0) by (first [by left | by right]).
          apply xor_self. }
        apply gf_mul_eq_0 in Hprod as [Hc|Hprod]; [|done]. by apply (proj1 (xor_eq_0 _ _)) in Hc. }
    apply gf_mul_eq_0 in Hz0 as [|Hz0]; [done|]. exfalso.
    apply gf_mul_eq_0 in Hz0 as [Hz0|Hz0].
    - apply (proj1 (xor_eq_0 _ _)) in Hz0. by subst.
    - revert Hz0. apply cauchy_nonzero, Hne; [by left|by right]. }
  apply elem_of_cons in Hy as [->|Hy]; [|by apply Hrest].
  rewrite (Hw0 x0) by (by left). rewrite xsum_zero; [apply gf_mul_0_r|].
  intros z Hz. by rewrite Hrest.
Qed.
