(* ===== verification/ErasureMatrix.v ===== *)
(** * Matrices over GF(2^8) and their Gauss-Jordan inverse

    The row operations of [GfMatrix] entry by entry, and the elimination of
    [invert] ([src/src/storage/erasure.rs]): it returns a left inverse, and it
    returns one for every matrix with a trivial kernel. *)
From Stdlib Require Import ZArith Lia Ring.
From Stdlib Require Import Strings.Byte.
From stdpp Require Import base tactics numbers list.
From S2P Require Import Prelude Erasure ErasureField.
Import Gf GfMatrix.
Local Open Scope nat_scope.
Local Open Scope gf_scope.

(** ** Entries of matrices *)
Module MatrixLemmas.

Definition wf (R C : nat) (m : GfMatrix) : Prop :=
  rows m = R ∧ cols m = C ∧ length (data m) = R * C.

Lemma wf_zero R C : wf R C (zero R C).
Proof. split_and!; simpl; [done..|]. by rewrite length_replicate. Qed.

Lemma wf_set R C m r c v : wf R C m → wf R C (set m r c v).
Proof. intros (?&?&?). split_and!; simpl; [done..|]. by rewrite length_insert. Qed.

Lemma get_zero R C r c : get (zero R C) r c = x00.
Proof.
  unfold get, zero. simpl. rewrite list_lookup_total_alt.
  destruct (replicate _ _ !! _) as [b|] eqn:Hb; [|done]. by apply lookup_replicate in Hb as [-> _].
Qed.

Lemma index_inj C r c r' c' : c < C → c' < C → r * C + c = r' * C + c' → r = r' ∧ c = c'.
Proof. intros. assert (r = r') by nia. split; [done|]. subst. lia. Qed.

Lemma get_set R C m r c v r' c' :
  wf R C m → r < R → c < C → c' < C →
  get (set m r c v) r' c' = if decide (r' = r ∧ c' = c) then v else get m r' c'.
Proof.
  intros (HR&HC&Hlen) Hr Hc Hc'. unfold get, set. simpl. rewrite HC.
  destruct (decide (r' = r ∧ c' = c)) as [[-> ->]|Hne].
  - apply list_lookup_total_insert_eq. rewrite Hlen. nia.
  - apply list_lookup_total_insert_ne. intros Heq. apply Hne.
    destruct (index_inj C r c r' c'); auto.
Qed.

(** A loop over columns whose step rewrites one column from that column. *)
Section columns.
Context (R C : nat) (step : GfMatrix → nat → GfMatrix) (φ : nat → (nat → byte) → nat → byte).
Hypothesis φ_ext : ∀ c v v' r, (∀ r, v r = v' r) → φ c v r = φ c v' r.
Hypothesis step_wf : ∀ m c, wf R C m → c < C → wf R C (step m c).
Hypothesis step_get : ∀ m c r' c', wf R C m → c < C → c' < C →
  get (step m c) r' c' = if decide (c' = c) then φ c (λ r, get m r c) r' else get m r' c'.

Lemma foldl_columns_list l m :
  wf R C m → NoDup l → Forall (λ c, c < C) l →
  wf R C (foldl step m l) ∧
  ∀ r c, c < C → get (foldl step m l) r c =
    if decide (c ∈ l) then φ c (λ r, get m r c) r else get m r c.
Proof.
  revert m. induction l as [|a l IH]; intros m Hm Hnd Hl.
  { split; [done|]. intros r c Hc. by rewrite decide_False by apply not_elem_of_nil. }
  apply NoDup_cons in Hnd as [Ha Hnd]. apply Forall_cons in Hl as [HaC Hl].
  destruct (IH (step m a)) as [Hwf Hget]; [by apply step_wf|done..|].
  split; [done|]. intros r c Hc. simpl. rewrite Hget by done.
  destruct (decide (c ∈ l)) as [Hcl|Hcl].
  - rewrite decide_True by (by right). apply φ_ext. intros r'.
    rewrite step_get, decide_False by (done || (by intros ->)). done.
  - rewrite step_get by done. destruct (decide (c = a)) as [->|Hca].
    + rewrite decide_True by (by left). done.
    + rewrite decide_False; [done|]. by intros [|]%elem_of_cons.
Qed.

Lemma foldl_columns m :
  wf R C m → wf R C (foldl step m (seq 0 C)) ∧
  ∀ r c, c < C → get (foldl step m (seq 0 C)) r c = φ c (λ r, get m r c) r.
Proof.
  intros Hm. destruct (foldl_columns_list (seq 0 C) m) as [Hwf Hget]; [done|apply NoDup_seq| |].
  { apply Forall_forall. intros c Hc%elem_of_seq. lia. }
  split; [done|]. intros r c Hc. rewrite Hget, decide_True; [done| |done]. apply elem_of_seq. lia.
Qed.

End columns.

Section rowops.
Context (n : nat).
Implicit Types m : GfMatrix.

Lemma swap_rows_spec a b m : wf n n m → a < n → b < n →
  wf n n (swap_rows n a b m) ∧ ∀ r c, c < n →
  get (swap_rows n a b m) r c =
    get m (if decide (r = b) then a else if decide (r = a) then b else r) c.
Proof.
  intros Hm Ha Hb. unfold swap_rows.
  destruct (foldl_columns n n
    (λ m c, set (set m a c (get m b c)) b c (get m a c))
    (λ _ v r, v (if decide (r = b) then a else if decide (r = a) then b else r)) ) with (m := m)
    as [Hwf Hget]; [auto|intros; by repeat apply wf_set| |done|split; [done|]].
  - intros m' c r' c' Hm' Hc Hc'. rewrite !(get_set n n) by (try apply wf_set; done).
    repeat case_decide; naive_solver.
  - intros r c Hc. rewrite Hget by done. done.
Qed.

Lemma scale_row_spec a k m : wf n n m → a < n →
  wf n n (scale_row n a k m) ∧ ∀ r c, c < n →
  get (scale_row n a k m) r c = if decide (r = a) then gf_mul (get m r c) k else get m r c.
Proof.
  intros Hm Ha. unfold scale_row.
  destruct (foldl_columns n n
    (λ m c, set m a c (gf_mul (get m a c) k))
    (λ _ v r, if decide (r = a) then gf_mul (v r) k else v r)) with (m := m)
    as [Hwf Hget]; [|intros; by apply wf_set| |done|by split].
  - intros c v v' r Hv. by rewrite Hv.
  - intros m' c r' c' Hm' Hc Hc'. rewrite (get_set n n) by done.
    repeat case_decide; naive_solver.
Qed.

Lemma add_row_spec a f src m : wf n n m → a < n → src ≠ a →
  wf n n (add_row n a f src m) ∧ ∀ r c, c < n →
  get (add_row n a f src m) r c =
    if decide (r = a) then get m r c ⊕ gf_mul f (get m src c) else get m r c.
Proof.
  intros Hm Ha Hs. unfold add_row.
  destruct (foldl_columns n n
    (λ m c, set m a c (get m a c ⊕ gf_mul f (get m src c)))
    (λ _ v r, if decide (r = a) then v r ⊕ gf_mul f (v src) else v r)) with (m := m)
    as [Hwf Hget]; [|intros; by apply wf_set| |done|by split].
  - intros c v v' r Hv. by rewrite !Hv.
  - intros m' c r' c' Hm' Hc Hc'. rewrite (get_set n n) by done.
    repeat case_decide; naive_solver.
Qed.

End rowops.
End MatrixLemmas.

(** ** Gauss-Jordan *)
Module GaussLemmas.
Import MatrixLemmas.

(** Entry [(r, c)] of the product of two [n]-column matrices. *)
Definition mprod (n : nat) (B M : nat → nat → byte) (r c : nat) : byte :=
  xsum (λ t, gf_mul (B r t) (M t c)) (seq 0 n).

(** Row [r] applied to a vector. *)
Definition mvec (n : nat) (M : nat → nat → byte) (v : nat → byte) (r : nat) : byte :=
  xsum (λ c, gf_mul (M r c) (v c)) (seq 0 n).

Definition in_kernel (n : nat) (M : nat → nat → byte) (v : nat → byte) : Prop :=
  ∀ r, r < n → mvec n M v r = x00.

Definition trivial_kernel (n : nat) (M : nat → nat → byte) : Prop :=
  ∀ v, in_kernel n M v → ∀ c, c < n → v c = x00.

Lemma xsum_seq_ext n (f g : nat → byte) :
  (∀ t, t < n → f t = g t) → xsum f (seq 0 n) = xsum g (seq 0 n).
Proof. intros Hfg. apply xsum_ext. intros t Ht%elem_of_seq. apply Hfg. lia. Qed.

Lemma xsum_seq_single n (f : nat → byte) t :
  t < n → (∀ s, s < n → s ≠ t → f s = x00) → xsum f (seq 0 n) = f t.
Proof.
  intros Ht Hf. apply xsum_single; [apply NoDup_seq|apply elem_of_seq; lia|].
  intros s Hs%elem_of_seq. apply Hf. lia.
Qed.

Definition delta (r c : nat) : byte := if decide (r = c) then x01 else x00.

Lemma delta_eq r : delta r r = x01.
Proof. unfold delta. by rewrite decide_True. Qed.
Lemma delta_ne r c : r ≠ c → delta r c = x00.
Proof. intros. unfold delta. by rewrite decide_False. Qed.

Lemma mprod_delta_l n M r c : r < n → mprod n delta M r c = M r c.
Proof.
  intros Hr. unfold mprod. rewrite (xsum_seq_single _ _ r Hr), delta_eq, gf_mul_1_l; [done|].
  intros s _ Hs. by rewrite delta_ne.
Qed.

Section gauss.
Context (n : nat) (M : nat → nat → byte).

(** What every row operation keeps: [work] is [inv] times the input, and no
    vector has joined its kernel. *)
Definition reduced (st : GfMatrix * GfMatrix) : Prop :=
  wf n n st.1 ∧ wf n n st.2 ∧
  (∀ r c, r < n → c < n → get st.1 r c = mprod n (get st.2) M r c) ∧
  (∀ v, in_kernel n (get st.1) v → in_kernel n M v).

(** The first [col] columns are those of the identity. *)
Definition unit_columns (col : nat) (m : GfMatrix) : Prop :=
  ∀ r c, r < n → c < col → get m r c = delta r c.

Lemma mvec_ext A B v r : (∀ c, c < n → A c = B r c) →
  xsum (λ c, gf_mul (A c) (v c)) (seq 0 n) = mvec n B v r.
Proof. intros HAB. apply xsum_seq_ext. intros c Hc. by rewrite HAB. Qed.

Lemma swap_reduced a b w i :
  reduced (w, i) → a < n → b < n → reduced (swap_rows n a b w, swap_rows n a b i).
Proof.
  intros (Hw&Hi&Hprod&Hker) Ha Hb. simpl in *.
  destruct (swap_rows_spec n a b w) as [Hw' Gw]; [done..|].
  destruct (swap_rows_spec n a b i) as [Hi' Gi]; [done..|].
  split_and!; simpl; try done.
  - intros r c Hr Hc. rewrite Gw, Hprod by (done || (repeat case_decide; done)).
    apply xsum_seq_ext. intros t Ht. by rewrite Gi.
  - intros v Hv. apply Hker. intros r Hr.
    rewrite <- (Hv (if decide (r = b) then a else if decide (r = a) then b else r))
      by (repeat case_decide; done).
    apply mvec_ext. intros c Hc. rewrite Gw by done.
    repeat case_decide; naive_solver.
Qed.

Lemma scale_reduced a k w i :
  reduced (w, i) → a < n → k ≠ x00 → reduced (scale_row n a k w, scale_row n a k i).
Proof.
  intros (Hw&Hi&Hprod&Hker) Ha Hk. simpl in *.
  destruct (scale_row_spec n a k w) as [Hw' Gw]; [done..|].
  destruct (scale_row_spec n a k i) as [Hi' Gi]; [done..|].
  split_and!; simpl; try done.
  - intros r c Hr Hc. rewrite Gw, Hprod by done. unfold mprod. case_decide.
    + rewrite xsum_mul_r. apply xsum_seq_ext. intros t Ht. rewrite Gi, decide_True by done. ring.
    + apply xsum_seq_ext. intros t Ht. by rewrite Gi, decide_False.
  - intros v Hv. apply Hker. intros r Hr. specialize (Hv r Hr). revert Hv. unfold mvec.
    rewrite (xsum_seq_ext _ _ (λ c, gf_mul (if decide (r = a) then k else x01)
      (gf_mul (get w r c) (v c)))).
    2:{ intros c Hc. rewrite Gw by done. case_decide; ring. }
    rewrite <- xsum_mul_l. intros [Hz|]%gf_mul_eq_0; [|done]. by case_decide.
Qed.

Lemma add_reduced a f src w i :
  reduced (w, i) → a < n → src < n → src ≠ a →
  reduced (add_row n a f src w, add_row n a f src i).
Proof.
  intros (Hw&Hi&Hprod&Hker) Ha Hs Hne. simpl in *.
  destruct (add_row_spec n a f src w) as [Hw' Gw]; [done..|].
  destruct (add_row_spec n a f src i) as [Hi' Gi]; [done..|].
  split_and!; simpl; try done.
  - intros r c Hr Hc. rewrite Gw by done. unfold mprod. case_decide as Hra.
    + rewrite !Hprod by done. unfold mprod. rewrite xsum_mul_l, <- xsum_xor.
      apply xsum_seq_ext. intros t Ht. rewrite Gi, decide_True by done. ring.
    + rewrite Hprod by done. apply xsum_seq_ext. intros t Ht. by rewrite Gi, decide_False.
  - intros v Hv. apply Hker. intros r Hr. destruct (decide (r = a)) as [->|Hra].
    + pose proof (Hv a Hr) as H1. pose proof (Hv src Hs) as H2. revert H1 H2. unfold mvec.
      rewrite (xsum_seq_ext n (λ c, gf_mul (get (add_row n a f src w) src c) (v c))
        (λ c, gf_mul (get w src c) (v c))).
      2:{ intros c Hc. by rewrite Gw, decide_False. }
      rewrite (xsum_seq_ext n (λ c, gf_mul (get (add_row n a f src w) a c) (v c))
        (λ c, gf_mul (get w a c) (v c) ⊕ gf_mul f (gf_mul (get w src c) (v c)))).
      2:{ intros c Hc. rewrite Gw, decide_True by done. ring. }
      rewrite xsum_xor, <- xsum_mul_l. intros H1 H2. rewrite H2, gf_mul_0_r in H1.
      rewrite <- H1. ring.
    + rewrite <- (Hv r Hr). apply mvec_ext. intros c Hc. by rewrite Gw, decide_False.
Qed.

(** Columns before [col] have zeros in the rows from [col] on. *)
Lemma unit_columns_zero col w r c :
  unit_columns col w → r < n → c < col → col ≤ r → get w r c = x00.
Proof. intros Hu Hr Hc Hcr. rewrite Hu by done. apply delta_ne. lia. Qed.

Lemma eliminate_spec col l st :
  reduced st → unit_columns col st.1 → col < n → get st.1 col col = x01 →
  Forall (λ r, r < n) l →
  let st' := foldl (eliminate n col) st l in
  reduced st' ∧ unit_columns col st'.1 ∧ get st'.1 col col = x01 ∧
  ∀ r, r < n → r ≠ col → r ∈ l ∨ get st.1 r col = x00 → get st'.1 r col = x00.
Proof.
  revert st. induction l as [|a l IH]; intros [w i] Hred Hu Hcol Hp Hl; simpl in *.
  { split_and!; try done. intros r _ _ [[]%not_elem_of_nil|]; done. }
  apply Forall_cons in Hl as [Ha Hl].
  destruct (decide (a = col)) as [->|Hac].
  { rewrite bool_decide_true by done.
    destruct (IH (w, i)) as (?&?&?&Hz); [done..|]. split_and!; try done.
    intros r Hr Hne [[->|Hin]%elem_of_cons|]; [done|apply Hz; auto..]. }
  rewrite bool_decide_false by done. case_bool_decide as Hf.
  { destruct (IH (w, i)) as (?&?&?&Hz); [done..|]. split_and!; try done.
    intros r Hr Hne [[->|Hin]%elem_of_cons|]; apply Hz; auto. }
  pose proof Hred as (Hw&_).
  destruct (add_row_spec n a (get w a col) col w Hw Ha) as [_ Gw]; [done|].
  destruct (IH (add_row n a (get w a col) col w, add_row n a (get w a col) col i))
    as (?&?&?&Hz).
  - by apply add_reduced.
  - intros r c Hr Hc. simpl. rewrite Gw by lia. rewrite <- Hu by done. case_decide; [|done].
    rewrite (unit_columns_zero col w col c), gf_mul_0_r by (done || lia). ring.
  - done.
  - simpl. rewrite Gw, decide_False by done. done.
  - done.
  - split_and!; try done. intros r Hr Hne Hor. apply Hz; [done..|]. simpl. rewrite Gw by done.
    case_decide as Hra; [subst r; right; rewrite Hp; ring|].
    destruct Hor as [[->|Hin]%elem_of_cons|]; [done|by left|by right].
Qed.

Lemma find_pivot_Some w col pivot :
  find_pivot n w col = Some pivot → col ≤ pivot < n ∧ get w pivot col ≠ x00.
Proof.
  unfold find_pivot. destruct (list_find _ _) as [[i row]|] eqn:Hf; [|done]. intros [= ->].
  apply list_find_Some in Hf as (Hi&Hne&_). apply lookup_seq in Hi. split; [lia|done].
Qed.

Lemma find_pivot_None w col :
  find_pivot n w col = None → ∀ r, col ≤ r < n → get w r col = x00.
Proof.
  unfold find_pivot. destruct (list_find _ _) as [[]|] eqn:Hf; [done|]. intros _ r Hr.
  apply list_find_None in Hf. rewrite Forall_forall in Hf.
  apply dec_stable, Hf, elem_of_seq. lia.
Qed.

(** A missing pivot yields a kernel vector that is 1 at [col]. *)
Lemma pivot_exists w i col :
  trivial_kernel n M → reduced (w, i) → unit_columns col w → col < n →
  ∃ pivot, find_pivot n w col = Some pivot.
Proof.
  intros Htriv (_&_&_&Hker) Hu Hcol.
  destruct (find_pivot n w col) as [p|] eqn:Hp; [eauto|]. exfalso.
  set (v := λ c, if decide (c = col) then x01 else if decide (c < col) then get w c col else x00).
  apply gf_one_neq_zero. transitivity (v col); [unfold v; by rewrite decide_True|].
  apply (Htriv v); [|done]. apply Hker. intros r Hr. simpl. unfold mvec.
  rewrite (xsum_seq_ext _ _ (λ c, (if decide (c = col) then get w r col else x00) ⊕
    (if decide (c < col) then gf_mul (delta r c) (get w c col) else x00))).
  2:{ intros c Hc. unfold v. destruct (decide (c = col)) as [->|].
      - rewrite decide_False by lia. ring.
      - case_decide; [rewrite Hu by done|]; ring. }
  rewrite xsum_xor, (xsum_seq_single _ _ col Hcol), decide_True by
    (done || (intros; by rewrite decide_False)).
  destruct (decide (r < col)) as [Hrc|Hrc].
  - rewrite (xsum_seq_single _ _ r Hr), decide_True, delta_eq by
      (done || (intros s ? ?; case_decide; [by rewrite delta_ne|done])). ring.
  - rewrite (find_pivot_None w col Hp r) by lia. rewrite xsum_zero; [done|].
    intros c _. case_decide; [|done]. by rewrite delta_ne by lia.
Qed.

(** One column of the elimination. *)
Lemma invert_col_spec st col pivot :
  reduced st → unit_columns col st.1 → col < n → find_pivot n st.1 col = Some pivot →
  ∃ st', invert_col n st col = Some st' ∧ reduced st' ∧ unit_columns (S col) st'.1.
Proof.
  destruct st as [w i]. intros Hred Hu Hcol Hp. simpl in *. rewrite Hp. simpl.
  apply find_pivot_Some in Hp as [Hpn Hpv].
  (* the row exchange *)
  set (st1 := if bool_decide (pivot ≠ col) then _ else _).
  assert (reduced st1 ∧ unit_columns col st1.1 ∧ get st1.1 col col ≠ x00) as (Hr1&Hu1&Hp1).
  { unfold st1. case_bool_decide as Hpc; [|by subst].
    pose proof Hred as (Hw&_).
    destruct (swap_rows_spec n col pivot w Hw) as [_ Gw]; [lia..|]. simpl. split_and!.
    - apply swap_reduced; [done|lia..].
    - intros r c Hr Hc. rewrite Gw by lia. repeat case_decide; subst.
      + rewrite (unit_columns_zero col) by (done || lia). symmetry. apply delta_ne. lia.
      + rewrite (unit_columns_zero col) by (done || lia). symmetry. apply delta_ne. lia.
      + by apply Hu.
    - rewrite Gw, decide_False, decide_True by (done || lia). done. }
  destruct st1 as [w1 i1]. simpl in *. clear dependent w i.
  set (st2 := if bool_decide (get w1 col col ≠ x01) then _ else _).
  assert (reduced st2 ∧ unit_columns col st2.1 ∧ get st2.1 col col = x01) as (Hr2&Hu2&Hp2).
  { unfold st2. case_bool_decide as Hone; [|done].
    pose proof Hr1 as (Hw&_).
    destruct (scale_row_spec n col (gf_inv (get w1 col col)) w1 Hw) as [_ Gw]; [done|]. simpl.
    split_and!.
    - apply scale_reduced; [done..|]. by apply gf_inv_nonzero.
    - intros r c Hr Hc. rewrite Gw, <- Hu1 by (done || lia). case_decide; [|done].
      subst. rewrite (unit_columns_zero col) by (done || lia). done.
    - rewrite Gw, decide_True by done. by apply gf_inv_r. }
  destruct st2 as [w2 i2]. eexists. split; [done|].
  destruct (eliminate_spec col (seq 0 n) (w2, i2)) as (Hr3&Hu3&Hp3&Hz); [done..| |].
  { apply Forall_forall. intros r Hr%elem_of_seq. lia. }
  split; [done|]. intros r c Hr Hc. destruct (decide (c = col)) as [->|]; [|apply Hu3; lia].
  destruct (decide (r = col)) as [->|Hrc]; [by rewrite delta_eq|].
  rewrite delta_ne by done. apply Hz; [done..|]. left. apply elem_of_seq. lia.
Qed.

Lemma invert_col_sound st col st' :
  reduced st → unit_columns col st.1 → col < n → invert_col n st col = Some st' →
  reduced st' ∧ unit_columns (S col) st'.1.
Proof.
  intros Hred Hu Hcol Hst'. destruct (find_pivot n st.1 col) as [pivot|] eqn:Hp.
  - destruct (invert_col_spec st col pivot) as (st2&Heq&?); [done..|]. by simplify_eq.
  - destruct st as [w i]. simpl in *. by rewrite Hp in Hst'.
Qed.

(** The first [j] columns of the outer loop. *)
Definition invert_loop (st : GfMatrix * GfMatrix) (j : nat) : option (GfMatrix * GfMatrix) :=
  foldl (λ st col, st ≫= λ st, invert_col n st col) (Some st) (seq 0 j).

Lemma invert_loop_S st j : invert_loop st (S j) = invert_loop st j ≫= λ st, invert_col n st j.
Proof. unfold invert_loop. by rewrite seq_S, foldl_app. Qed.

Lemma invert_loop_sound st j st' :
  reduced st → j ≤ n → invert_loop st j = Some st' → reduced st' ∧ unit_columns j st'.1.
Proof.
  intros Hred. revert st'. induction j as [|j IH]; intros st' Hj.
  { intros [= <-]. split; [done|]. intros r c Hr Hc. lia. }
  rewrite invert_loop_S. destruct (invert_loop st j) as [st1|] eqn:Hst1; [|done]. simpl.
  destruct (IH st1) as [Hr1 Hu1]; [lia|done|]. by apply invert_col_sound; [|done|lia].
Qed.

Lemma invert_loop_total st j :
  trivial_kernel n M → reduced st → j ≤ n → ∃ st', invert_loop st j = Some st'.
Proof.
  intros Htriv Hred. induction j as [|j IH]; intros Hj; [by eexists|].
  destruct IH as [st1 Hst1]; [lia|]. rewrite invert_loop_S, Hst1. simpl.
  destruct (invert_loop_sound st j st1) as [Hr1 Hu1]; [done|lia|done|].
  destruct st1 as [w i]. destruct (pivot_exists w i j) as [p Hp]; [done..|].
  destruct (invert_col_spec (w, i) j p) as (st'&Hst'&_); [done..|]. eauto.
Qed.

End gauss.

(** ** Filling a matrix row by row *)
Lemma fill_row_spec R C row (h : nat → byte) m : wf R C m → row < R →
  wf R C (foldl (λ m c, set m row c (h c)) m (seq 0 C)) ∧ ∀ r c, c < C →
  get (foldl (λ m c, set m row c (h c)) m (seq 0 C)) r c =
    if decide (r = row) then h c else get m r c.
Proof.
  intros Hm Hrow.
  apply (foldl_columns R C (λ m c, set m row c (h c))
    (λ c v r, if decide (r = row) then h c else v r)); [| | |done].
  - intros c v v' r Hv. by rewrite Hv.
  - intros. by apply wf_set.
  - intros m' c r' c' Hm' Hc Hc'. rewrite (get_set R C) by done. repeat case_decide; naive_solver.
Qed.

Lemma fill_rows_spec {A} R C (row : A → nat) (h : A → nat → byte) (l : list A) : ∀ m,
  wf R C m → Forall (λ x, row x < R) l →
  let m' := foldl (λ m x, foldl (λ m c, set m (row x) c (h x c)) m (seq 0 C)) m l in
  wf R C m' ∧
  (∀ r c, c < C → r ∉ row <$> l → get m' r c = get m r c) ∧
  (NoDup (row <$> l) → ∀ x c, c < C → x ∈ l → get m' (row x) c = h x c).
Proof.
  induction l as [|a l IH]; intros m Hm Hl; simpl.
  { split_and!; try done. by intros _ x c _ []%not_elem_of_nil. }
  apply Forall_cons in Hl as [Ha Hl].
  destruct (fill_row_spec R C (row a) (h a) m Hm Ha) as [Hm1 Hget].
  destruct (IH _ Hm1 Hl) as (Hwf&Hout&Hin). split_and!; [done| |].
  - intros r c Hc [Hra Hrl]%not_elem_of_cons. rewrite Hout, Hget, decide_False by done. done.
  - intros [Hna Hnd]%NoDup_cons x c Hc [->|Hx]%elem_of_cons.
    + rewrite Hout, Hget, decide_True by done. done.
    + by apply Hin.
Qed.

(** The diagonal loop of [identity] and of the generator. *)
Lemma diagonal_spec R C l : ∀ m, wf R C m → Forall (λ i, i < R ∧ i < C) l →
  let m' := foldl (λ m i, set m i i x01) m l in
  wf R C m' ∧ ∀ r c, c < C →
  get m' r c = if decide (r = c ∧ r ∈ l) then x01 else get m r c.
Proof.
  induction l as [|a l IH]; intros m Hm Hl; simpl.
  { split; [done|]. intros r c Hc. rewrite decide_False; [done|].
    by intros [_ []%not_elem_of_nil]. }
  apply Forall_cons in Hl as [[HaR HaC] Hl].
  destruct (IH (set m a a x01)) as [Hwf Hget]; [by apply wf_set|done|].
  split; [done|]. intros r c Hc. rewrite Hget, (get_set R C) by done.
  destruct (decide (r = c ∧ r ∈ l)) as [[]|]; [rewrite decide_True; [done|by split; [|right]]|].
  destruct (decide (r = a ∧ c = a)) as [[]|Hne].
  - subst. rewrite decide_True; [done|]. by split; [|left].
  - rewrite decide_False; [done|]. intros [-> [->|]%elem_of_cons]; naive_solver.
Qed.

Lemma identity_spec n : wf n n (identity n) ∧
  ∀ r c, r < n → c < n → get (identity n) r c = delta r c.
Proof.
  destruct (diagonal_spec n n (seq 0 n) (zero n n)) as [Hwf Hget].
  { apply wf_zero. } { apply Forall_forall. intros i Hi%elem_of_seq. lia. }
  split; [done|]. intros r c Hr Hc. unfold identity. rewrite Hget, get_zero by done. unfold delta.
  destruct (decide (r = c)) as [->|]; [|by rewrite decide_False by naive_solver].
  rewrite decide_True; [done|]. split; [done|apply elem_of_seq; lia].
Qed.

Lemma identity_reduced n m : wf n n m → reduced n (get m) (m, identity n).
Proof.
  intros Hm. destruct (identity_spec n) as [Hwf Hget]. split_and!; simpl; try done.
  intros r c Hr Hc. rewrite <- (mprod_delta_l n (get m)) by done.
  apply xsum_seq_ext. intros t Ht. by rewrite Hget.
Qed.

(** [invert] returns a left inverse whenever it returns a matrix. *)
Lemma invert_sound n m inv : wf n n m → invert m = Some inv →
  wf n n inv ∧ ∀ r c, r < n → c < n → mprod n (get inv) (get m) r c = delta r c.
Proof.
  intros Hm. pose proof Hm as (Hr&Hc&_). unfold invert. rewrite Hr, Hc, bool_decide_false by auto.
  fold (invert_loop n (m, identity n) n).
  destruct (invert_loop n (m, identity n) n) as [[w i]|] eqn:Hl; [|done]. intros [= ->].
  destruct (invert_loop_sound n (get m) (m, identity n) n (w, inv)) as [(?&?&Hprod&_) Hu];
    [by apply identity_reduced|done..|].
  split; [done|]. intros r c Hr' Hc'. rewrite <- Hprod by done. by apply Hu.
Qed.

(** It returns one whenever the kernel is trivial. *)
Lemma invert_total n m : wf n n m → trivial_kernel n (get m) → ∃ inv, invert m = Some inv.
Proof.
  intros Hm Htriv. pose proof Hm as (Hr&Hc&_).
  unfold invert. rewrite Hr, Hc, bool_decide_false by auto.
  fold (invert_loop n (m, identity n) n).
  destruct (invert_loop_total n (get m) (m, identity n) n) as [[w i] ->];
    [done|by apply identity_reduced|done|]. by eexists.
Qed.

End GaussLemmas.
