(* ===== verification/ErasureProps.v ===== *)
(** * Recovery of erasure-coded shards

    Any [k] rows of the generator have a trivial kernel, and therefore
    [reconstruct] rebuilds a code word from any [k] of its shards
    ([src/src/storage/erasure.rs]). *)
From Stdlib Require Import ZArith Lia Ring.
From Stdlib Require Import Strings.Byte.
From stdpp Require Import base tactics numbers list.
From S2P Require Import Prelude Erasure ErasureField ErasureMatrix.
Import Gf GfMatrix.
Local Open Scope nat_scope.
Local Open Scope gf_scope.

(** ** The code *)
Module CodeLemmas.
Import MatrixLemmas GaussLemmas.
Import ReedSolomon.

(** Entries of the generator. *)
Definition gen_entry (k r c : nat) : byte :=
  if decide (r < k) then delta r c else cauchy (byte_of_nat r) (byte_of_nat c).

Lemma generator_spec k m :
  wf (k + m) k (generator_matrix k m) ∧
  ∀ r c, r < k + m → c < k → get (generator_matrix k m) r c = gen_entry k r c.
Proof.
  destruct (diagonal_spec (k + m) k (seq 0 k) (zero (k + m) k)) as [Hwf1 Hget1].
  { apply wf_zero. } { apply Forall_forall. intros i Hi%elem_of_seq. lia. }
  destruct (fill_rows_spec (k + m) k (λ i, k + i)
    (λ i j, gf_inv (byte_of_nat (k + i) ⊕ byte_of_nat j)) (seq 0 m) _ Hwf1) as (Hwf&Hout&Hin).
  { apply Forall_forall. intros i Hi%elem_of_seq. lia. }
  split; [done|]. intros r c Hr Hc. unfold gen_entry. case_decide as Hrk.
  - unfold generator_matrix. rewrite Hout; [|done|].
    2:{ intros (i&->&_)%list_elem_of_fmap. lia. }
    rewrite Hget1, get_zero by done. unfold delta.
    destruct (decide (r = c)) as [->|]; [|by rewrite decide_False by naive_solver].
    rewrite decide_True; [done|]. split; [done|apply elem_of_seq; lia].
  - replace r with (k + (r - k)) at 1 by lia. unfold generator_matrix.
    rewrite (Hin ltac:(apply NoDup_fmap_2; [intros ???; lia|apply NoDup_seq]) (r - k) c Hc).
    + unfold cauchy. by replace (k + (r - k)) with r by lia.
    + apply elem_of_seq. lia.
Qed.

Lemma imap_pair_seq {A} `{!Inhabited A} (l : list A) :
  imap pair l = (λ i, (i, l !!! i)) <$> seq 0 (length l).
Proof.
  apply list_eq. intros i. rewrite list_lookup_imap, list_lookup_fmap.
  destruct (l !! i) as [x|] eqn:Hx; simpl.
  - rewrite lookup_seq_lt by (by eapply lookup_lt_Some). simpl.
    by rewrite (list_lookup_total_correct _ _ _ Hx).
  - apply lookup_ge_None in Hx. by rewrite lookup_seq_ge.
Qed.

Lemma survivor_matrix_spec rs chosen :
  wf (k rs) (k rs) (survivor_matrix rs (take (k rs) chosen)) ∧
  ∀ r c, r < k rs → r < length chosen → c < k rs →
  get (survivor_matrix rs (take (k rs) chosen)) r c = get (generator rs) (chosen !!! r) c.
Proof.
  unfold survivor_matrix. rewrite imap_pair_seq, length_take.
  destruct (fill_rows_spec (k rs) (k rs) fst (λ x, get (generator rs) x.2)
    ((λ i, (i, take (k rs) chosen !!! i)) <$> seq 0 (k rs `min` length chosen))
    (zero (k rs) (k rs))) as (Hwf&_&Hin).
  { apply wf_zero. }
  { apply Forall_fmap, Forall_forall. intros i Hi%elem_of_seq. simpl. lia. }
  assert (∀ l : list (nat * nat), ∀ m,
    foldl (λ sub '(r, row), foldl (λ sub c, set sub r c (get (generator rs) row c)) sub (seq 0 (k rs))) m l =
    foldl (λ m x, foldl (λ m c, set m x.1 c (get (generator rs) x.2 c)) m (seq 0 (k rs))) m l) as Hfold.
  { induction l as [|[] l IH]; intros m; [done|]. apply IH. }
  rewrite Hfold. split; [done|]. intros r c Hr Hrl Hc.
  rewrite (Hin ltac:(rewrite <- list_fmap_compose; apply NoDup_fmap_2; [by intros ???|apply NoDup_seq])
    (r, take (k rs) chosen !!! r) c Hc).
  - simpl. by rewrite list_lookup_total_alt, lookup_take_lt, <- list_lookup_total_alt.
  - apply list_elem_of_fmap. eexists. split; [done|]. apply elem_of_seq. lia.
Qed.

Lemma length_filter_split {A} (P : A → Prop) `{∀ x, Decision (P x)} (l : list A) :
  length (filter P l) + length (filter (λ x, ¬ P x) l) = length l.
Proof.
  induction l as [|x l IH]; [done|]. rewrite !filter_cons.
  destruct (decide (P x)); destruct (decide (¬ P x)); simpl; (done || lia).
Qed.

(** As many parity rows are chosen as data rows are missing. *)
Lemma missing_le_parity k (chosen : list nat) :
  length chosen = k → NoDup chosen →
  length (filter (λ c, c ∉ chosen) (seq 0 k)) ≤ length (filter (λ r, ¬ r < k) chosen).
Proof.
  intros Hlen Hnd.
  pose proof (length_filter_split (λ c, c ∈ chosen) (seq 0 k)) as H1.
  pose proof (length_filter_split (λ r, r < k) chosen) as H2. rewrite length_seq in H1.
  assert (length (filter (λ r, r < k) chosen) ≤ length (filter (λ c, c ∈ chosen) (seq 0 k))).
  { apply submseteq_length, NoDup_submseteq; [by apply NoDup_filter|].
    intros x [Hx Hin]%list_elem_of_filter. apply list_elem_of_filter. split; [done|].
    apply elem_of_seq. lia. }
  lia.
Qed.

(** Any [k] distinct rows of the generator have a trivial kernel. *)
Lemma generator_rows_kernel k m (chosen : list nat) (v : nat → byte) :
  k + m ≤ 255 → length chosen = k → NoDup chosen → Forall (λ r, r < k + m) chosen →
  (∀ row, row ∈ chosen → xsum (λ c, gf_mul (gen_entry k row c) (v c)) (seq 0 k) = x00) →
  ∀ c, c < k → v c = x00.
Proof.
  intros Hkm Hlen Hnd Hlt Hv.
  assert (∀ c, c < k → c ∈ chosen → v c = x00) as Hdata.
  { intros c Hc Hin. rewrite <- (Hv c Hin), (xsum_seq_single _ _ c Hc); unfold gen_entry.
    - by rewrite decide_True, delta_eq, gf_mul_1_l.
    - intros s _ Hs. by rewrite decide_True, delta_ne. }
  set (U := filter (λ c, c ∉ chosen) (seq 0 k)).
  set (P := filter (λ r, ¬ r < k) chosen).
  assert (Hkey : ∀ y, y ∈ byte_of_nat <$> U → v (byte_to_nat y) = x00).
  { apply (cauchy_kernel _ (byte_of_nat <$> P)).
    - apply NoDup_fmap_2_strong; [|by apply NoDup_filter].
      intros x y [_ Hx]%list_elem_of_filter [_ Hy]%list_elem_of_filter.
      rewrite Forall_forall in Hlt. pose proof (Hlt x Hx). pose proof (Hlt y Hy).
      apply byte_of_nat_inj; lia.
    - apply NoDup_fmap_2_strong; [|apply NoDup_filter, NoDup_seq].
      intros x y [_ Hx%elem_of_seq]%list_elem_of_filter [_ Hy%elem_of_seq]%list_elem_of_filter.
      apply byte_of_nat_inj; lia.
    - intros x (r&->&[Hr Hrc]%list_elem_of_filter)%list_elem_of_fmap
        (c&Heq&[Hc Hcs%elem_of_seq]%list_elem_of_filter)%list_elem_of_fmap.
      rewrite Forall_forall in Hlt. pose proof (Hlt r Hrc).
      apply byte_of_nat_inj in Heq; lia.
    - rewrite !length_fmap. by apply missing_le_parity.
    - intros x (r&->&[Hr Hrc]%list_elem_of_filter)%list_elem_of_fmap.
      rewrite <- (Hv r Hrc). rewrite xsum_fmap. 
      rewrite (xsum_filter (λ c, c ∉ chosen) _ (seq 0 k)).
      2:{ intros c Hc%elem_of_seq Hnc. rewrite Hdata; [apply gf_mul_0_r|lia|].
          by apply dec_stable. }
      apply xsum_ext. intros c [_ Hc%elem_of_seq]%list_elem_of_filter.
      unfold gen_entry. rewrite decide_False, byte_to_of_nat by lia. ring. }
  intros c Hc. destruct (decide (c ∈ chosen)) as [Hin|Hin]; [by apply Hdata|].
  rewrite <- (byte_to_of_nat c) by lia. apply Hkey. apply list_elem_of_fmap. exists c.
  split; [done|]. apply list_elem_of_filter. split; [done|]. apply elem_of_seq. lia.
Qed.

(** ** Shards as functions of a byte position *)
Lemma list_eq_total (l l' : list byte) :
  length l = length l' → (∀ p, p < length l → l !!! p = l' !!! p) → l = l'.
Proof.
  intros Hlen Heq. apply list_eq_same_length with (length l); [done..|].
  intros p x y Hp Hx Hy.
  apply list_lookup_total_correct in Hx, Hy. by rewrite <- Hx, <- Hy, Heq.
Qed.

Lemma xor_mul_into_spec c out : ∀ src, length src = length out →
  length (xor_mul_into c out src) = length out ∧
  ∀ p, p < length out → xor_mul_into c out src !!! p = out !!! p ⊕ gf_mul c (src !!! p).
Proof.
  induction out as [|o out IH]; intros [|s src] Hlen; try done; simpl in *.
  { split; [done|]. intros p Hp. lia. }
  destruct (IH src) as [Hl Hp]; [lia|]. split; [by rewrite Hl|].
  intros [|p] Hlt; [done|]. simpl. apply Hp. lia.
Qed.

Lemma mul_into_spec c out src : length src = length out →
  length (mul_into c out src) = length out ∧
  ∀ p, p < length out → mul_into c out src !!! p = out !!! p ⊕ gf_mul c (src !!! p).
Proof.
  intros Hlen. unfold mul_into. case_bool_decide as Hc; [|by apply xor_mul_into_spec].
  subst. split; [done|]. intros p Hp. ring.
Qed.

(** The accumulation loops of [parity_row] and of [reconstruct]. *)
Lemma accumulate_spec {A} (coeff : A → byte) (src : A → list byte) len l : ∀ out,
  length out = len → Forall (λ x, length (src x) = len) l →
  let out' := foldl (λ out x, mul_into (coeff x) out (src x)) out l in
  length out' = len ∧ ∀ p, p < len →
  out' !!! p = out !!! p ⊕ xsum (λ x, gf_mul (coeff x) (src x !!! p)) l.
Proof.
  induction l as [|x l IH]; intros out Hout Hl; simpl.
  { split; [done|]. intros p Hp. ring. }
  apply Forall_cons in Hl as [Hx Hl].
  destruct (mul_into_spec (coeff x) out (src x)) as [Hl1 Hp1]; [by rewrite Hx|].
  destruct (IH (mul_into (coeff x) out (src x))) as [Hl2 Hp2]; [by rewrite Hl1|done|].
  split; [done|]. intros p Hp. rewrite Hp2, Hp1 by lia. ring.
Qed.

(** The same loop over an enumerated list, from zero. *)
Lemma accumulate_imap {A} `{!Inhabited A} (coeff : nat → byte) (src : A → list byte) len (l : list A) :
  Forall (λ x, length (src x) = len) l →
  let out := foldl (λ out '(j, x), mul_into (coeff j) out (src x)) (replicate len x00) (imap pair l) in
  length out = len ∧ ∀ p, p < len →
  out !!! p = xsum (λ j, gf_mul (coeff j) (src (l !!! j) !!! p)) (seq 0 (length l)).
Proof.
  intros Hl. rewrite imap_pair_seq.
  assert (∀ (ks : list (nat * A)) out,
    foldl (λ out '(j, x), mul_into (coeff j) out (src x)) out ks =
    foldl (λ out y, mul_into (coeff y.1) out (src y.2)) out ks) as Hfold.
  { induction ks as [|[] ks IH]; intros out; [done|]. apply IH. }
  simpl. rewrite Hfold.
  destruct (accumulate_spec (λ y, coeff y.1) (λ y, src y.2) len
    ((λ i, (i, l !!! i)) <$> seq 0 (length l)) (replicate len x00)) as [Hlen Hp].
  - apply length_replicate.
  - apply Forall_fmap, Forall_forall. intros i Hi%elem_of_seq. simpl.
    rewrite Forall_forall in Hl. apply Hl.
    apply (list_elem_of_lookup_2 _ i), list_lookup_lookup_total_lt. lia.
  - split; [done|]. intros p Hlt. rewrite Hp, xsum_fmap by done. simpl.
    rewrite lookup_total_replicate_2 by done. apply xor_0_l.
Qed.

(** ** Code words *)
Section code.
Context (rs : ReedSolomon) (data : list (list byte)) (len : nat).
Hypothesis Hgen : generator rs = generator_matrix (k rs) (m rs).
Hypothesis Hlen : length data = k rs.
Hypothesis Huni : Forall (λ s, length s = len) data.
Hypothesis Hpos : 0 < len.
Hypothesis Hk : 0 < k rs.

(** Byte [p] of shard [r] of the code word. *)
Definition code_byte (r p : nat) : byte :=
  xsum (λ j, gf_mul (gen_entry (k rs) r j) ((data !!! j) !!! p)) (seq 0 (k rs)).

Lemma length_data_at j : j < k rs → length (data !!! j) = len.
Proof.
  intros Hj. rewrite Forall_forall in Huni. apply Huni.
  apply (list_elem_of_lookup_2 _ j), list_lookup_lookup_total_lt. lia.
Qed.

Lemma uniform_check : existsb (λ s, bool_decide (length s ≠ len)) data = false.
Proof.
  apply not_true_is_false. intros (s&Hs&Hb)%existsb_exists.
  apply bool_decide_eq_true in Hb. apply Hb. rewrite Forall_forall in Huni.
  by apply Huni, list_elem_of_In.
Qed.

Lemma parity_row_spec i : i < m rs → ∃ row, parity_row rs i data = Ok row ∧
  length row = len ∧ ∀ p, p < len → row !!! p = code_byte (k rs + i) p.
Proof.
  intros Hi. unfold parity_row. rewrite Hlen, bool_decide_false by auto.
  rewrite (proj2 (Nat.leb_gt _ _) Hi), length_data_at, bool_decide_false, uniform_check by lia.
  eexists. split; [done|].
  destruct (accumulate_imap (λ j, get (generator rs) (k rs + i) j) (λ s, s) len data Huni)
    as [Hl Hp]. split; [done|]. intros p Hlt. rewrite Hp, Hlen by done.
  apply xsum_seq_ext. intros j Hj. rewrite Hgen.
  by rewrite (proj2 (generator_spec (k rs) (m rs))) by lia.
Qed.

Lemma data_code_byte i p : i < k rs → (data !!! i) !!! p = code_byte i p.
Proof.
  intros Hi. unfold code_byte. rewrite (xsum_seq_single _ _ i Hi); unfold gen_entry.
  - by rewrite decide_True, delta_eq, gf_mul_1_l.
  - intros s _ Hs. by rewrite decide_True, delta_ne.
Qed.

Lemma collect_ok {E A} (rs' : list (result E A)) l :
  Forall2 (λ r a, r = Ok a) rs' l → collect rs' = Ok l.
Proof. induction 1 as [|r a rs' l -> _ IH]; [done|]. simpl. by rewrite IH. Qed.

(** The parity shards of well-formed data. *)
Lemma encode_parity_spec : ∃ parity, encode_parity rs data = Ok parity ∧
  length parity = m rs ∧ Forall (λ s, length s = len) parity ∧
  ∀ i p, i < m rs → p < len → (parity !!! i) !!! p = code_byte (k rs + i) p.
Proof.
  set (row i := match parity_row rs i data with Ok r => r | Err _ => [] end).
  assert (∀ i, i < m rs → parity_row rs i data = Ok (row i) ∧ length (row i) = len ∧
    ∀ p, p < len → row i !!! p = code_byte (k rs + i) p) as Hrow.
  { intros i Hi. unfold row. by destruct (parity_row_spec i Hi) as (r&->&Hr). }
  exists (row <$> seq 0 (m rs)). split_and!.
  - unfold encode_parity. rewrite Hlen, bool_decide_false by auto.
    destruct (decide (m rs = 0)) as [Hm|Hm].
    { rewrite bool_decide_true by done. by rewrite Hm. }
    rewrite bool_decide_false, length_data_at, bool_decide_false, uniform_check by (done || lia).
    apply collect_ok, Forall2_fmap, Forall_Forall2_diag, Forall_forall.
    intros i Hi%elem_of_seq. apply Hrow. lia.
  - by rewrite length_fmap, length_seq.
  - apply Forall_fmap, Forall_forall. intros i Hi%elem_of_seq. apply Hrow. lia.
  - intros i p Hi Hp. rewrite (list_lookup_total_correct _ i (row i)); [by apply Hrow|].
    by rewrite list_lookup_fmap, lookup_seq_lt.
Qed.

(** The whole code word, byte by byte. *)
Lemma word_code_byte parity r p :
  encode_parity rs data = Ok parity → r < k rs + m rs → p < len →
  ((data ++ parity) !!! r) !!! p = code_byte r p.
Proof.
  intros Hpar Hr Hp. destruct encode_parity_spec as (par&Hpar'&Hm&_&Hb).
  rewrite Hpar in Hpar'. injection Hpar' as <-.
  destruct (decide (r < k rs)) as [Hlt|Hge].
  - rewrite lookup_total_app_l by lia. by apply data_code_byte.
  - rewrite lookup_total_app_r, Hlen, Hb by lia. f_equal. lia.
Qed.

Lemma word_length parity r s :
  encode_parity rs data = Ok parity → (data ++ parity) !! r = Some s → length s = len.
Proof.
  intros Hpar Hs. destruct encode_parity_spec as (par&Hpar'&Hm&Hl&_).
  rewrite Hpar in Hpar'. injection Hpar' as <-.
  apply list_elem_of_lookup_2, elem_of_app in Hs. rewrite !Forall_forall in *. naive_solver.
Qed.

End code.

(** ** Survivors *)
Lemma filter_ext_in {A} (P Q : A → Prop) `{!∀ x, Decision (P x), !∀ x, Decision (Q x)} (l : list A) :
  (∀ x, x ∈ l → P x ↔ Q x) → filter P l = filter Q l.
Proof.
  induction l as [|x l IH]; intros HPQ; [done|]. rewrite !filter_cons, IH.
  2:{ intros y Hy. apply HPQ. by right. }
  pose proof (HPQ x ltac:(by left)). repeat case_decide; naive_solver.
Qed.

Lemma live_indices_filter present :
  live_indices present = filter (λ i, is_Some (present !! i ≫= id)) (seq 0 (length present)).
Proof.
  unfold live_indices. induction present as [|o present IH] using rev_ind; [done|].
  rewrite imap_app, bind_app, IH, length_app, seq_app, filter_app. simpl. f_equal.
  - apply filter_ext_in. intros i Hi%elem_of_seq. rewrite lookup_app_l by lia. done.
  - rewrite Nat.add_0_r, filter_cons, lookup_app_r, Nat.sub_diag by lia. simpl.
    by destruct o.
Qed.

Lemma elem_of_live_indices present i :
  i ∈ live_indices present ↔ ∃ s, present !! i = Some (Some s).
Proof.
  rewrite live_indices_filter, list_elem_of_filter, elem_of_seq. split.
  - intros [[s Hs] _]. exists s. by destruct (present !! i) as [[]|]; simplify_eq/=.
  - intros [s Hs]. rewrite Hs. simpl. split; [by eexists|]. apply lookup_lt_Some in Hs. lia.
Qed.

Lemma live_indices_nodup present : NoDup (live_indices present).
Proof. rewrite live_indices_filter. apply NoDup_filter, NoDup_seq. Qed.

Lemma live_indices_lt present i : i ∈ live_indices present → i < length present.
Proof. intros [s Hs]%elem_of_live_indices. by eapply lookup_lt_Some. Qed.

Lemma slot_Some present i s : present !! i = Some (Some s) → slot present i = s.
Proof. intros Hs. unfold slot. by rewrite (list_lookup_total_correct _ _ _ Hs). Qed.

(** [present] holds shards of [word] only. *)
Definition survives (word : list (list byte)) (present : list (option (list byte))) : Prop :=
  length present = length word ∧ ∀ i s, present !! i = Some (Some s) → word !! i = Some s.

Lemma survives_slot word present i :
  survives word present → i ∈ live_indices present → word !! i = Some (slot present i).
Proof.
  intros [_ Hw] [s Hs]%elem_of_live_indices. rewrite (slot_Some _ _ _ Hs). by apply Hw.
Qed.

Section recover.
Context (rs : ReedSolomon) (data : list (list byte)) (len : nat).
Hypothesis Hgen : generator rs = generator_matrix (k rs) (m rs).
Hypothesis Hlen : length data = k rs.
Hypothesis Huni : Forall (λ s, length s = len) data.
Hypothesis Hpos : 0 < len.
Hypothesis Hk : 0 < k rs.
Hypothesis Hkm : k rs + m rs ≤ 255.
Context (parity : list (list byte)).
Hypothesis Hpar : encode_parity rs data = Ok parity.
Context (present : list (option (list byte))).
Hypothesis Hsur : survives (data ++ parity) present.
Hypothesis Hlive : k rs ≤ length (live_indices present).

Let live := live_indices present.
Let sub := survivor_matrix rs (take (k rs) live).

Lemma length_word : length (data ++ parity) = k rs + m rs.
Proof.
  destruct (encode_parity_spec rs data len) as (par&Hpar'&Hm&_); [done..|].
  rewrite Hpar in Hpar'. injection Hpar' as <-. rewrite length_app. lia.
Qed.

Lemma live_at r : r < k rs → live !!! r ∈ live ∧ live !!! r < k rs + m rs.
Proof.
  intros Hr. assert (live !!! r ∈ live) as Hin.
  { apply (list_elem_of_lookup_2 _ r), list_lookup_lookup_total_lt. unfold live. lia. }
  split; [done|]. apply live_indices_lt in Hin. rewrite (proj1 Hsur), length_word in Hin. done.
Qed.

Lemma sub_entry r c : r < k rs → c < k rs → get sub r c = gen_entry (k rs) (live !!! r) c.
Proof.
  intros Hr Hc. unfold sub. rewrite (proj2 (survivor_matrix_spec rs live)) by (unfold live; lia).
  rewrite Hgen. apply (proj2 (generator_spec (k rs) (m rs))); [|done]. by apply live_at.
Qed.

Lemma sub_kernel : trivial_kernel (k rs) (get sub).
Proof.
  intros v Hv. apply (generator_rows_kernel (k rs) (m rs) (take (k rs) live)); [done|..].
  - rewrite length_take. unfold live. lia.
  - apply (NoDup_app _ (drop (k rs) live)). rewrite take_drop. apply live_indices_nodup.
  - apply Forall_forall. intros row Hrow.
    apply list_elem_of_lookup_1 in Hrow as [r Hr]. apply lookup_take_Some in Hr as [Hr Hrk].
    rewrite <- (list_lookup_total_correct _ _ _ Hr). by apply live_at.
  - intros row Hrow. apply list_elem_of_lookup_1 in Hrow as [r Hr].
    apply lookup_take_Some in Hr as [Hr Hrk].
    rewrite <- (Hv r Hrk). symmetry. apply xsum_seq_ext. intros c Hc.
    by rewrite sub_entry, (list_lookup_total_correct _ _ _ Hr).
Qed.

Lemma survivor_byte i p : i ∈ live → p < len →
  length (slot present i) = len ∧ (slot present i) !!! p = code_byte rs data i p.
Proof.
  intros Hi Hp. pose proof (survives_slot _ _ _ Hsur Hi) as Hs.
  split; [by apply (word_length rs data len Hgen Hlen Huni Hpos Hk parity i)|].
  rewrite <- (list_lookup_total_correct _ _ _ Hs).
  apply (word_code_byte rs data len); try done.
  apply lookup_lt_Some in Hs. by rewrite length_word in Hs.
Qed.

Lemma recover_row_spec inv i : invert sub = Some inv → i < k rs →
  recover_row inv (take (k rs) live) present len i = data !!! i.
Proof.
  intros Hinv Hi. unfold recover_row.
  destruct (accumulate_imap (get inv i) (slot present) len (take (k rs) live)) as [Hl Hb].
  { apply Forall_forall. intros row Hrow. apply (survivor_byte _ 0); [|done].
    eapply subseteq_take, Hrow. }
  destruct (invert_sound (k rs) sub inv) as [_ HI]; [apply survivor_matrix_spec|done|].
  apply list_eq_total; [by rewrite (length_data_at rs data len), Hl|].
  rewrite Hl. intros p Hp. rewrite Hb, length_take, Nat.min_l by (unfold live; lia || done).
  transitivity (xsum (λ r, xsum (λ j, gf_mul (gf_mul (get inv i r) (get sub r j))
    ((data !!! j) !!! p)) (seq 0 (k rs))) (seq 0 (k rs))).
  { apply xsum_seq_ext. intros r Hr.
    rewrite (lookup_total_take_lt live) by done.
    rewrite (proj2 (survivor_byte _ p (proj1 (live_at r Hr)) Hp)). unfold code_byte.
    rewrite xsum_mul_l. apply xsum_seq_ext. intros j Hj. rewrite sub_entry by done. ring. }
  rewrite xsum_swap.
  rewrite (xsum_seq_ext _ _ (λ j, gf_mul (delta i j) ((data !!! j) !!! p))).
  2:{ intros j Hj. rewrite <- (HI i j Hi Hj). unfold mprod. by rewrite xsum_mul_r. }
  rewrite (xsum_seq_single _ _ i Hi), delta_eq, gf_mul_1_l; [done|].
  intros s _ Hs. by rewrite delta_ne.
Qed.

(** Any [k] survivors give back the whole code word. *)
Lemma reconstruct_word : reconstruct rs present = Ok (data ++ parity).
Proof.
  unfold reconstruct. fold live. unfold total_shards.
  rewrite (proj1 Hsur), length_word, bool_decide_false by auto.
  rewrite (proj2 (Nat.ltb_ge _ _)) by (unfold live; lia).
  assert (∀ i, i ∈ live → length (slot present i) = len) as Hsl.
  { intros i Hi. by apply (survivor_byte i 0). }
  rewrite (Hsl (live !!! 0)) by (by apply live_at). rewrite bool_decide_false by lia.
  destruct (existsb _ _) eqn:Hex.
  { apply existsb_exists in Hex as (i&Hi&Hb). apply bool_decide_eq_true in Hb.
    destruct Hb. by apply Hsl, list_elem_of_In. }
  assert (∀ l : list (list byte), length l = k rs → (∀ i, i < k rs → l !! i = data !! i) → l = data) as Hext.
  { intros l Hl Hi. apply list_eq. intros i. destruct (decide (i < k rs)); [by apply Hi|].
    rewrite !lookup_ge_None_2 by lia. done. }
  set (r := if forallb _ _ then _ else _).
  assert (r = Ok data) as ->; [|by rewrite Hpar].
  unfold r. destruct (forallb _ _) eqn:Hall.
  - f_equal. apply Hext; [by rewrite length_fmap, length_seq|]. intros i Hi.
    rewrite list_lookup_fmap, lookup_seq_lt by done. simpl.
    rewrite forallb_forall in Hall. specialize (Hall i ltac:(apply in_seq; lia)).
    assert (i ∈ live) as Hin.
    { apply elem_of_live_indices. rewrite list_lookup_lookup_total_lt by
        (rewrite (proj1 Hsur), length_word; lia).
      destruct (present !!! i) as [s|]; [by exists s|done]. }
    rewrite <- (survives_slot _ _ _ Hsur Hin), lookup_app_l by lia. done.
  - destruct (invert_total (k rs) sub) as [inv Hinv]; [apply survivor_matrix_spec|apply sub_kernel|].
    fold sub. rewrite Hinv. simpl. f_equal.
    apply Hext; [by rewrite length_fmap, length_seq|]. intros i Hi.
    rewrite list_lookup_fmap, lookup_seq_lt by done. simpl. rewrite recover_row_spec by done.
    symmetry. apply list_lookup_lookup_total_lt. lia.
Qed.

End recover.
(** What a constructed coder satisfies. *)
Definition coder_ok (rs : ReedSolomon) : Prop :=
  generator rs = generator_matrix (k rs) (m rs) ∧ 0 < k rs ∧ k rs + m rs ≤ 255.

Lemma new_ok dk pm rs : (0 ≤ dk)%Z → (0 ≤ pm)%Z → new dk pm = Ok rs →
  coder_ok rs ∧ Z.of_nat (k rs) = dk ∧ Z.of_nat (m rs) = pm.
Proof.
  intros Hd Hp. unfold new, coder_ok. destruct (Z.eqb_spec dk 0) as [|Hdk]; [done|].
  destruct (u64_checked_add dk pm) as [t|] eqn:Ht; [|done]. simpl.
  apply u64_checked_add_Some in Ht as ->. unfold MAX_TOTAL_SHARDS.
  destruct (Z.ltb_spec 255 (dk + pm)); [done|]. intros [= <-]. simpl. split_and!; (done || lia).
Qed.

(** Fewer than [k] survivors are refused as such. *)
Lemma reconstruct_few rs present :
  length present = k rs + m rs → length (live_indices present) < k rs →
  reconstruct rs present = Err (NotEnoughShards (length (live_indices present)) (k rs)).
Proof.
  intros Hlen Hlive. unfold reconstruct, total_shards.
  rewrite bool_decide_false by (by intros []). by rewrite (proj2 (Nat.ltb_lt _ _) Hlive).
Qed.

Lemma foldl_xor_imap (coeff : nat → byte) (l : list byte) :
  foldl (λ acc '(j, b), acc ⊕ gf_mul (coeff j) b) x00 (imap pair l) =
  xsum (λ j, gf_mul (coeff j) (l !!! j)) (seq 0 (length l)).
Proof.
  rewrite imap_pair_seq. generalize (seq 0 (length l)) as js. intros js.
  assert (∀ acc, foldl (λ acc '(j, b), acc ⊕ gf_mul (coeff j) b) acc ((λ i, (i, l !!! i)) <$> js) =
    acc ⊕ xsum (λ j, gf_mul (coeff j) (l !!! j)) js) as Hacc.
  { induction js as [|j js IH]; intros acc; simpl; [ring|]. rewrite IH. ring. }
  rewrite Hacc. ring.
Qed.
End CodeLemmas.

(** ** The coder *)
Module CoderClaims.
Import ReedSolomon GaussLemmas CodeLemmas.

(** C11: Any [k] shards rebuild the object.  For every accepted scheme and all
    equal-length non-empty data shards, encoding succeeds, and reconstruction
    from survivors of that code word returns the code word exactly, whichever
    shards were lost, as long as [k] are left; with fewer it reports how many
    were left. *)
Theorem rs_recovers_any_k data_shards parity_shards rs data len :
  u64 data_shards → u64 parity_shards → new data_shards parity_shards = Ok rs →
  length data = k rs → Forall (λ s, length s = len) data → 0 < len →
  ∃ parity, encode_parity rs data = Ok parity ∧ Z.of_nat (length parity) = parity_shards ∧
  ∀ present, survives (data ++ parity) present →
    reconstruct rs present =
      if length (live_indices present) <? k rs
      then Err (NotEnoughShards (length (live_indices present)) (k rs))
      else Ok (data ++ parity).
Proof.
  intros Hd Hp Hnew Hlen Huni Hpos.
  apply new_ok in Hnew as ((Hgen&Hk&Hkm)&_&Hpm); [|apply Hd|apply Hp].
  destruct (encode_parity_spec rs data len) as (parity&Hpar&Hm&_); [done..|].
  exists parity. split_and!; [done|by rewrite Hm|]. intros present Hsur.
  destruct (Nat.ltb_spec (length (live_indices present)) (k rs)).
  - apply reconstruct_few; [|done]. rewrite (proj1 Hsur), length_app. lia.
  - by apply (reconstruct_word rs data len).
Qed.

(** The column audit is exact.  For the parity computed from the data, the
    audit of one byte column accepts a parity byte exactly when it is the byte
    encoding produces at that position. *)
Theorem column_audit_exact data_shards parity_shards rs data len parity i p b :
  u64 data_shards → u64 parity_shards → new data_shards parity_shards = Ok rs →
  Forall (λ s, length s = len) data → 0 < len → encode_parity rs data = Ok parity →
  i < m rs → p < len →
  column_is_correctly_encoded rs i ((λ s, s !!! p) <$> data) b = true ↔ b = (parity !!! i) !!! p.
Proof.
  intros Hd Hp Hnew Huni Hpos Hpar Hi Hlt.
  apply new_ok in Hnew as ((Hgen&Hk&Hkm)&_&_); [|apply Hd|apply Hp].
  assert (length data = k rs) as Hlen.
  { unfold encode_parity in Hpar. by case_bool_decide. }
  destruct (encode_parity_spec rs data len) as (par&Hpar'&Hm&_&Hb); [done..|].
  rewrite Hpar in Hpar'. injection Hpar' as <-. rewrite Hb by done.
  unfold column_is_correctly_encoded. rewrite length_fmap, Hlen, bool_decide_false by auto.
  rewrite (proj2 (Nat.leb_gt _ _) Hi). simpl. rewrite bool_decide_eq_true, foldl_xor_imap.
  rewrite length_fmap, Hlen. unfold code_byte.
  rewrite (xsum_seq_ext _ _ (λ j, gf_mul (gen_entry (k rs) (k rs + i) j) ((data !!! j) !!! p))); [done|].
  intros j Hj. rewrite Hgen, (proj2 (generator_spec (k rs) (m rs))) by lia. f_equal.
  rewrite (list_lookup_total_fmap (λ s, s !!! p)) by lia. done.
Qed.

(** ** An example: two data and two parity shards *)
Definition example_rs : ReedSolomon := mkReedSolomon 2 2 (generator_matrix 2 2).
Definition example_data : list (list byte) := [[x01; x02]; [x03; x04]].

(** Both data shards lost. *)
Lemma rs_recovers_any_k_witness : ∃ parity,
  encode_parity example_rs example_data = Ok parity ∧
  reconstruct example_rs [None; None; parity !! 0; parity !! 1] = Ok (example_data ++ parity).
Proof.
  destruct (rs_recovers_any_k 2 2 example_rs example_data 2) as (parity&Hpar&Hlen&Hrec);
    [unfold u64, u64_max; lia..|reflexivity|reflexivity|repeat constructor|lia|].
  exists parity. split; [exact Hpar|].
  destruct parity as [|p0 [|p1 [|]]]; simpl in Hlen; try lia.
  rewrite Hrec; [reflexivity|]. split; [reflexivity|].
  intros [|[|[|[|i]]]] s; simpl; intros [= ->] || intros [=]; reflexivity.
Defined.

Lemma column_audit_exact_witness : ∃ parity,
  encode_parity example_rs example_data = Ok parity ∧
  column_is_correctly_encoded example_rs 1 [x02; x04] ((parity !!! 1) !!! 1) = true.
Proof.
  destruct (encode_parity example_rs example_data) as [parity|] eqn:Hpar;
    [|vm_compute in Hpar; discriminate Hpar].
  exists parity. split; [reflexivity|].
  apply (column_audit_exact 2 2 example_rs example_data 2 parity 1 1);
    [unfold u64, u64_max; lia..|reflexivity|repeat constructor|lia|exact Hpar|simpl; lia|lia|reflexivity].
Defined.

End CoderClaims.
