(* ===== verification/Manifest.v ===== *)
(** * Content manifests

    [src/src/storage/manifest.rs] with the content ids of
    [src/src/storage/content_id.rs] and the source commitments of
    [src/src/storage/generated.rs] and [src/src/storage/derived.rs]: a
    manifest lists the shards of an object, the erasure scheme, the sizes and
    the declared provenance, and its id is a hash of all of them.

    Refusals are the constructors of [ManifestError]; the source returns a
    message for each. *)
From stdpp Require Import base tactics numbers list strings.
From Stdlib Require Import ZArith Lia.
From Stdlib Require Import Strings.Byte.
From S2P Require Import Prelude Merkle Erasure.
Open Scope Z_scope.

(** [x as u32]. *)
Definition as_u32 (x : Z) : Z := x mod 2 ^ 32.

(** A shard's bytes as the hasher reads them. *)
Definition shard_bytes (s : list byte) : bytes := (λ b, Z.of_nat (byte_to_nat b)) <$> s.

(** ** Content ids *)
Module ContentId.
Section content_id.
Context `{Sha256}.

Definition content_id_of (chunk : list byte) : bytes :=
  hash_fields_bytes [bstr "BDLM_CONTENT_V1"; shard_bytes chunk].

Definition of_subrange (chunk : list byte) (start end_ : Z) : bytes :=
  if (end_ <? start) || (Z.of_nat (length chunk) <? end_) then
    hash_fields_bytes [bstr "BDLM_CONTENT_SUBRANGE_OOR_V1"; le_bytes 8 start; le_bytes 8 end_]
  else
    hash_fields_bytes [bstr "BDLM_CONTENT_SUBRANGE_V1"; le_bytes 8 start; le_bytes 8 end_;
      shard_bytes (take (Z.to_nat (end_ - start)) (drop (Z.to_nat start) chunk))].

End content_id.
End ContentId.

(** ** Sources *)
Module Source.

Inductive GeneratorId := Avatar | Gradient | Rings.

Definition generator_commitment_tag (g : GeneratorId) : Z :=
  match g with Avatar => 1 | Gradient => 2 | Rings => 3 end.

Record GeneratedSpec := mkGeneratedSpec {
  generator : GeneratorId;
  seed : bytes;
  output_len : Z;
  step_budget : Z;
}.

Record SealedGeneratedSpec := mkSealedGeneratedSpec {
  s_generator : GeneratorId;
  s_output_len : Z;
  s_step_budget : Z;
  recipe_commitment : bytes;
}.

Inductive DerivedTransform := Crop | Prefix.

Definition transform_tag (t : DerivedTransform) : Z :=
  match t with Crop => 1 | Prefix => 2 end.

Record PrefixSpan := mkPrefixSpan { kept_bytes : Z; master_bytes : Z }.

Record DerivedSpec := mkDerivedSpec {
  master_id : bytes;
  transform : DerivedTransform;
  block_x : Z;
  block_y : Z;
  block_w : Z;
  block_h : Z;
  master_blocks_w : Z;
  master_blocks_h : Z;
  prefix : option PrefixSpan;
}.

Inductive ContentSource :=
  | Stored
  | Generated (spec : GeneratedSpec)
  | SealedGenerated (sealed : SealedGeneratedSpec)
  | Hybrid (prefix_bytes : Z) (spec : GeneratedSpec)
  | Derived (spec : DerivedSpec).

#[export] Instance GeneratorId_eq_dec : EqDecision GeneratorId.
Proof. solve_decision. Defined.
#[export] Instance GeneratedSpec_eq_dec : EqDecision GeneratedSpec.
Proof. solve_decision. Defined.

Inductive BudStorageEdition := Classic | Three.

Definition edition_commitment_bytes (e : BudStorageEdition) : bytes :=
  match e with Classic => [] | Three => bstr "BUD_EDITION_3" end.

(** Edition Three admits recipes only. *)
Definition check_source (e : BudStorageEdition) (source : ContentSource) : bool :=
  match e with
  | Classic => true
  | Three =>
      match source with
      | Generated _ | SealedGenerated _ => true
      | Stored | Hybrid _ _ | Derived _ => false
      end
  end.

Definition required_replica_count (source : ContentSource) (full_target : Z) : Z :=
  match source with
  | Generated _ | SealedGenerated _ => 1
  | Stored | Hybrid _ _ | Derived _ => full_target
  end.

Definition held_bytes (source : ContentSource) (object_bytes : Z) : option Z :=
  match source with
  | Stored => Some object_bytes
  | Generated _ | SealedGenerated _ => Some 0
  | Hybrid prefix_bytes _ => if object_bytes <? prefix_bytes then None else Some prefix_bytes
  | Derived _ => Some 0
  end.

Section commitments.
Context `{Sha256}.

Definition generated_spec_digest (spec : GeneratedSpec) : bytes :=
  hash_fields_bytes [bstr "BDLM_GENERATED_SPEC_V1";
    [generator_commitment_tag (generator spec)]; seed spec;
    le_bytes 4 (output_len spec); le_bytes 4 (step_budget spec)].

Definition seal (full : GeneratedSpec) : SealedGeneratedSpec :=
  mkSealedGeneratedSpec (generator full) (output_len full) (step_budget full)
    (generated_spec_digest full).

(** Whether the candidate recipe opens the sealed one. *)
Definition open_with (sealed : SealedGeneratedSpec) (full : GeneratedSpec) : bool :=
  bool_decide (generator full = s_generator sealed) &&
  (output_len full =? s_output_len sealed) &&
  (step_budget full =? s_step_budget sealed) &&
  bool_decide (generated_spec_digest full = recipe_commitment sealed).

Definition sealed_generated_commitment (sealed : SealedGeneratedSpec) : bytes :=
  hash_fields_bytes [bstr "BDLM_SEALED_GENERATED_V1";
    [generator_commitment_tag (s_generator sealed)];
    le_bytes 4 (s_output_len sealed); le_bytes 4 (s_step_budget sealed);
    recipe_commitment sealed].

Definition prefix_commitment_fields (spec : DerivedSpec) : Z * Z * Z :=
  match prefix spec with
  | Some span => (1, kept_bytes span, master_bytes span)
  | None => (0, 0, 0)
  end.

Definition derivation_commitment_tag (spec : DerivedSpec) : bytes :=
  let '(present, kept, total) := prefix_commitment_fields spec in
  hash_fields_bytes [bstr "BDLM_DERIVED_CONTENT_V1"; master_id spec;
    [transform_tag (transform spec)];
    le_bytes 4 (block_x spec); le_bytes 4 (block_y spec);
    le_bytes 4 (block_w spec); le_bytes 4 (block_h spec);
    le_bytes 4 (master_blocks_w spec); le_bytes 4 (master_blocks_h spec);
    [present]; le_bytes 8 kept; le_bytes 8 total].

(** [Stored] adds no bytes; every other regime adds a tag and a digest. *)
Definition source_commitment_bytes (source : ContentSource) : bytes :=
  match source with
  | Stored => []
  | Generated spec => 1 :: generated_spec_digest spec
  | SealedGenerated sealed => 4 :: sealed_generated_commitment sealed
  | Hybrid prefix_bytes spec => 2 :: le_bytes 4 prefix_bytes ++ generated_spec_digest spec
  | Derived spec => 3 :: derivation_commitment_tag spec
  end.

End commitments.
End Source.

(** ** Encryption claims *)
Inductive ContentCipher := Aes256Gcm | ChaCha20Poly1305 | XChaCha20Poly1305.

Inductive ContentEncryption :=
  | Plaintext
  | ClientSide (cipher : ContentCipher).

Definition cipher_commitment_tag (c : ContentCipher) : Z :=
  match c with Aes256Gcm => 1 | ChaCha20Poly1305 => 2 | XChaCha20Poly1305 => 3 end.

Definition encryption_commitment_tag (e : ContentEncryption) : Z :=
  match e with Plaintext => 0 | ClientSide c => cipher_commitment_tag c end.

Definition is_encrypted (e : ContentEncryption) : bool :=
  match e with ClientSide _ => true | Plaintext => false end.

Definition MIN_AEAD_CIPHERTEXT_BYTES : Z := 16.

(** ** Shards *)
Inductive ShardKind := Data | Parity.

#[export] Instance ShardKind_eq_dec : EqDecision ShardKind.
Proof. solve_decision. Defined.

Record ShardRef := mkShardRef {
  index : Z;
  shard_id : bytes;
  size : Z;
  kind : ShardKind;
}.

Definition shard_from_bytes `{Sha256} (index : Z) (chunk : list byte) : ShardRef :=
  mkShardRef index (ContentId.content_id_of chunk) (as_u32 (Z.of_nat (length chunk))) Data.

Inductive ManifestError :=
  | NoShards | ShardCountMismatch | ZeroSizeShard | DuplicateIndex | RepeatedContent
  | TotalOverflow | TotalMismatch | ContentSizeZero | ContentSizeTooLarge
  | SchemeInvalid | SchemeCountMismatch | DataCountMismatch | ParityCountMismatch
  | BelowAeadTag | EditionRefused | IdMismatch | ChunkSizeZero | DataEmpty.

(** ** Manifests *)
Module Manifest.
Import Source.
Section manifest.
Context `{Sha256}.

Record ContentManifest := mkContentManifest {
  manifest_id : bytes;
  owner : bytes;
  dictionary_id : option bytes;
  total_size : Z;
  shard_count : Z;
  shards : list ShardRef;
  erasure : ErasureScheme.ErasureScheme;
  source : ContentSource;
  edition : BudStorageEdition;
  content_size_field : Z;
  encryption : ContentEncryption;
}.

(** The entry of one shard in the id preimage. *)
Definition shard_entry (s : ShardRef) : bytes :=
  le_bytes 4 (index s) ++ shard_id s ++ le_bytes 4 (size s) ++
  [match kind s with Data => 0 | Parity => 1 end].

Definition provenance_bytes (source : ContentSource) (edition : BudStorageEdition)
    (dictionary_id : option bytes) : bytes :=
  source_commitment_bytes source ++ edition_commitment_bytes edition ++
  match dictionary_id with Some dict => 1 :: dict | None => [] end.

(** The buffer [manifest_id_from_parts] hashes. *)
Definition manifest_preimage (shards : list ShardRef) (erasure : ErasureScheme.ErasureScheme)
    (encryption : ContentEncryption) (content_size total_size : Z)
    (source : ContentSource) (edition : BudStorageEdition) (dictionary_id : option bytes) : bytes :=
  bstr "BDLM_MANIFEST_V4" ++ le_bytes 4 (as_u32 (Z.of_nat (length shards))) ++
  (shards ≫= shard_entry) ++
  le_bytes 4 (ErasureScheme.k erasure) ++ le_bytes 4 (ErasureScheme.n erasure) ++
  [encryption_commitment_tag encryption] ++
  le_bytes 8 content_size ++ le_bytes 8 total_size ++
  provenance_bytes source edition dictionary_id.

Definition manifest_id_from_parts (shards : list ShardRef) (erasure : ErasureScheme.ErasureScheme)
    (encryption : ContentEncryption) (content_size total_size : Z)
    (source : ContentSource) (edition : BudStorageEdition) (dictionary_id : option bytes) : bytes :=
  hash_fields_bytes [bstr "BDLM_MANIFEST_V4";
    manifest_preimage shards erasure encryption content_size total_size source edition dictionary_id].

(** [content_size()]: zero is the field of a manifest written before it. *)
Definition content_size (m : ContentManifest) : Z :=
  if content_size_field m =? 0 then total_size m else content_size_field m.

Definition derived_id (m : ContentManifest) : bytes :=
  manifest_id_from_parts (shards m) (erasure m) (encryption m) (content_size m) (total_size m)
    (source m) (edition m) (dictionary_id m).

Definition recompute_id (m : ContentManifest) : ContentManifest :=
  mkContentManifest (derived_id m) (owner m) (dictionary_id m) (total_size m) (shard_count m)
    (shards m) (erasure m) (source m) (edition m) (content_size_field m) (encryption m).

(** The shard loop of [from_shards]; [seen] is the set of indices so far. *)
Fixpoint sum_shards (seen : list Z) (total : Z) (l : list ShardRef) : result ManifestError Z :=
  match l with
  | [] => Ok total
  | s :: l =>
      if size s =? 0 then Err ZeroSizeShard
      else if bool_decide (index s ∈ seen) then Err DuplicateIndex
      else
        let? total := ok_or (u64_checked_add total (size s)) TotalOverflow in
        sum_shards (index s :: seen) total l
  end.

Definition from_shards (l : list ShardRef) : result ManifestError ContentManifest :=
  match l with
  | [] => Err NoShards
  | _ =>
      let? total := sum_shards [] 0 l in
      let shard_count := as_u32 (Z.of_nat (length l)) in
      let erasure := ErasureScheme.replication shard_count in
      Ok (mkContentManifest
        (manifest_id_from_parts l erasure Plaintext total total Stored Classic None)
        zero32 None total shard_count l erasure Stored Classic total Plaintext)
  end.

Definition with_content_size (m : ContentManifest) (c : Z) : result ManifestError ContentManifest :=
  if c =? 0 then Err ContentSizeZero
  else if total_size m <? c then Err ContentSizeTooLarge
  else
    Ok (recompute_id (mkContentManifest (manifest_id m) (owner m) (dictionary_id m) (total_size m)
      (shard_count m) (shards m) (erasure m) (source m) (edition m) c (encryption m))).

Definition with_source (m : ContentManifest) (src : ContentSource) : ContentManifest :=
  recompute_id (mkContentManifest (manifest_id m) (owner m) (dictionary_id m) (total_size m)
    (shard_count m) (shards m) (erasure m) src (edition m) (content_size_field m) (encryption m)).

Definition with_encryption (m : ContentManifest) (e : ContentEncryption) : ContentManifest :=
  recompute_id (mkContentManifest (manifest_id m) (owner m) (dictionary_id m) (total_size m)
    (shard_count m) (shards m) (erasure m) (source m) (edition m) (content_size_field m) e).

Definition count_kind (kd : ShardKind) (l : list ShardRef) : Z :=
  as_u32 (Z.of_nat (length (filter (λ s, kind s = kd) l))).

Definition with_erasure (m : ContentManifest) (e : ErasureScheme.ErasureScheme) :
    result ManifestError ContentManifest :=
  if negb (ErasureScheme.validate e) then Err SchemeInvalid
  else if negb (ErasureScheme.n e =? shard_count m) then Err SchemeCountMismatch
  else if negb (count_kind Data (shards m) =? ErasureScheme.k e) then Err DataCountMismatch
  else if negb (count_kind Parity (shards m) =? ErasureScheme.parity_count e)
  then Err ParityCountMismatch
  else
    Ok (recompute_id (mkContentManifest (manifest_id m) (owner m) (dictionary_id m) (total_size m)
      (shard_count m) (shards m) e (source m) (edition m) (content_size_field m) (encryption m))).

Definition verify_id (m : ContentManifest) : result ManifestError () :=
  if bool_decide (derived_id m ≠ manifest_id m) then Err IdMismatch else Ok ().

(** The shard loop of [validate_untrusted]: a code word with parity repeats no
    content id. *)
Fixpoint check_shards (coded : bool) (seen : list Z) (seen_ids : list bytes) (total : Z)
    (l : list ShardRef) : result ManifestError Z :=
  match l with
  | [] => Ok total
  | s :: l =>
      if size s =? 0 then Err ZeroSizeShard
      else if bool_decide (index s ∈ seen) then Err DuplicateIndex
      else if coded && bool_decide (shard_id s ∈ seen_ids) then Err RepeatedContent
      else
        let? total := ok_or (u64_checked_add total (size s)) TotalOverflow in
        check_shards coded (index s :: seen) (if coded then shard_id s :: seen_ids else seen_ids)
          total l
  end.

Definition validate_untrusted (m : ContentManifest) : result ManifestError () :=
  if bool_decide (shards m = []) then Err NoShards
  else if negb (as_u32 (Z.of_nat (length (shards m))) =? shard_count m) then Err ShardCountMismatch
  else
    let? total := check_shards (ErasureScheme.k (erasure m) <? ErasureScheme.n (erasure m))
                    [] [] 0 (shards m) in
    if negb (total =? total_size m) then Err TotalMismatch
    else if total_size m <? content_size_field m then Err ContentSizeTooLarge
    else if negb (ErasureScheme.validate (erasure m)) then Err SchemeInvalid
    else if negb (ErasureScheme.n (erasure m) =? shard_count m) then Err SchemeCountMismatch
    else if negb (count_kind Data (shards m) =? ErasureScheme.k (erasure m))
    then Err DataCountMismatch
    else if is_encrypted (encryption m) && (content_size m <? MIN_AEAD_CIPHERTEXT_BYTES)
    then Err BelowAeadTag
    else if negb (check_source (edition m) (source m)) then Err EditionRefused
    else verify_id m.

Definition is_recoverable (m : ContentManifest) (live : Z) : bool :=
  ErasureScheme.k (erasure m) <=? live.

Definition needs_repair (m : ContentManifest) (live margin : Z) : bool :=
  if live <? ErasureScheme.k (erasure m) then false
  else live <? Z.min (ErasureScheme.k (erasure m) + margin) u32_max.

(** The slicing loop of [from_bytes_sliced]: fuel is the byte count, and every
    round takes at least one byte.  The [u32] counter is not wrapped: an object
    of more than [2^32 - 1] chunks overflows it, which the release build
    traps. *)
Fixpoint slice_shards (fuel : nat) (chunk_size : nat) (i : Z) (data : list byte) : list ShardRef :=
  match fuel, data with
  | S fuel, _ :: _ =>
      shard_from_bytes i (take chunk_size data) ::
      slice_shards fuel chunk_size (i + 1) (drop chunk_size data)
  | _, _ => []
  end.

Definition from_bytes_sliced (data : list byte) (chunk_size : Z) :
    result ManifestError ContentManifest :=
  if chunk_size =? 0 then Err ChunkSizeZero
  else if bool_decide (data = []) then Err DataEmpty
  else from_shards (slice_shards (length data) (Z.to_nat chunk_size) 0 data).

End manifest.
End Manifest.

(** ** Encoded objects: [src/src/storage/erasure.rs] *)
Module Objects.
Import Manifest ReedSolomon.
Local Open Scope nat_scope.
Section objects.
Context `{Sha256}.

Record EncodedObject := mkEncodedObject {
  o_shards : list (list byte);
  scheme : ErasureScheme.ErasureScheme;
  o_total_size : Z;
}.

Definition kinds (o : EncodedObject) : list ShardKind :=
  (λ i, if bool_decide (Z.of_nat i < ErasureScheme.k (scheme o))%Z then Data else Parity)
    <$> seq 0 (length (o_shards o)).

Definition set_kind (s : ShardRef) (kd : ShardKind) : ShardRef :=
  mkShardRef (index s) (shard_id s) (size s) kd.

Definition shard_refs (o : EncodedObject) : list ShardRef :=
  imap (λ i '(b, kd), set_kind (shard_from_bytes (as_u32 (Z.of_nat i)) b) kd)
    (zip (o_shards o) (kinds o)).

Definition to_manifest (o : EncodedObject) : result ManifestError ContentManifest :=
  let? m := from_shards (shard_refs o) in
  let? m := with_erasure m (scheme o) in
  with_content_size m (o_total_size o).

(** Stripe [i] of the object, padded with zeros. *)
Definition stripe_shard (data : list byte) (stripe i : nat) : list byte :=
  let start := Nat.min (i * stripe) (length data) in
  let end_ := Nat.min (start + stripe) (length data) in
  take (end_ - start) (drop start data) ++ replicate (stripe - (end_ - start)) x00.

Definition encode_object (data : list byte) (sch : ErasureScheme.ErasureScheme) :
    result ErasureError EncodedObject :=
  if negb (ErasureScheme.validate sch) then Err InvalidScheme
  else if bool_decide (data = []) then Err ShardMismatch
  else
    let? rs := for_scheme sch in
    let k := k rs in
    let stripe := (length data + k - 1) / k in
    if (length data <? k) || (length data <=? (k - 1) * stripe) then Err ShardMismatch
    else
      let shards := stripe_shard data stripe <$> seq 0 k in
      let? parity := encode_parity rs shards in
      Ok (mkEncodedObject (shards ++ parity) sch (Z.of_nat (length data))).

(** Whether the re-encoded shard is the claimed one. *)
Definition same_shard (h c : ShardRef) : bool :=
  bool_decide (shard_id h = shard_id c) && bool_decide (kind h = kind c) &&
  (size h =? size c)%Z && (index h =? index c)%Z.

Definition verify_object_encoding (data : list byte) (claimed : ContentManifest) :
    result ErasureError () :=
  let? _ := result_map_err (λ _, InvalidScheme) (validate_untrusted claimed) in
  let? encoded := encode_object data (erasure claimed) in
  let? honest := result_map_err (λ _, InvalidScheme) (to_manifest encoded) in
  if negb (content_size honest =? content_size claimed)%Z then Err ShardMismatch
  else if bool_decide (length (shards honest) ≠ length (shards claimed)) then Err ShardMismatch
  else if forallb (λ '(h, c), same_shard h c) (zip (shards honest) (shards claimed))
  then Ok () else Err ShardMismatch.

(** [verify_all]: every rebuilt shard hashes to its manifest entry. *)
Fixpoint verify_all (manifest : ContentManifest) (i : nat) (all : list (list byte)) :
    result ErasureError () :=
  match all with
  | [] => Ok ()
  | b :: all =>
      let idx := as_u32 (Z.of_nat i) in
      match List.find (λ s, index s =? idx)%Z (shards manifest) with
      | None => Err ShardMismatch
      | Some reference =>
          if bool_decide (shard_id reference ≠ ContentId.content_id_of b)
          then Err (IntegrityFailure idx)
          else verify_all manifest (S i) all
      end
  end.

(** The closure [attempt]. *)
Definition attempt (rs : ReedSolomon) (manifest : ContentManifest)
    (masked : list (option (list byte))) : result ErasureError (list byte) :=
  let? all := reconstruct rs masked in
  let? _ := verify_all manifest 0 all in
  Ok (take (Z.to_nat (content_size manifest)) (concat (take (k rs) all))).

(** The retry loop: drop one survivor at a time. *)
Fixpoint retry (rs : ReedSolomon) (manifest : ContentManifest)
    (present : list (option (list byte))) (drops : list nat) : option (list byte) :=
  match drops with
  | [] => None
  | d :: drops =>
      match attempt rs manifest (<[d := None]> present) with
      | Ok out => Some out
      | Err _ => retry rs manifest present drops
      end
  end.

(** The code after the [match] of the source repeats the first attempt. *)
Definition reconstruct_object (manifest : ContentManifest)
    (present : list (option (list byte))) : result ErasureError (list byte) :=
  let? rs := for_scheme (erasure manifest) in
  if bool_decide (length (shards manifest) ≠ total_shards rs) then Err ShardMismatch
  else
    let live := live_indices present in
    match attempt rs manifest present with
    | Ok out => Ok out
    | Err e =>
        if k rs <? length live then
          match retry rs manifest present live with
          | Some out => Ok out
          | None => attempt rs manifest present
          end
        else Err e
    end.

End objects.
End Objects.
