(* ===== verification/ObjectProps.v ===== *)
(** * Properties of erasure-coded objects

    [encode_object], [to_manifest], [verify_object_encoding] and
    [reconstruct_object] of [src/src/storage/erasure.rs]: an encoded object
    comes back from its surviving shards, corrupted survivors are never
    returned as content, and a claim the node has re-encoded is recoverable. *)
From stdpp Require Import base tactics numbers list strings.
From Stdlib Require Import ZArith Lia.
From Stdlib Require Import Strings.Byte.
From S2P Require Import Prelude Merkle Erasure ErasureField ErasureMatrix ErasureProps Manifest.
Import Manifest.Manifest Objects ReedSolomon.
Import MatrixLemmas GaussLemmas CodeLemmas.
Local Open Scope nat_scope.

Module ObjectLemmas.

(** ** Stripes *)
Lemma length_stripe_shard data stripe i : length (stripe_shard data stripe i) = stripe.
Proof.
  unfold stripe_shard. rewrite length_app, length_replicate, length_take, length_drop. lia.
Qed.

(** The first [j] stripes are a prefix of the object and its padding. *)
Lemma concat_stripes data stripe j :
  concat (stripe_shard data stripe <$> seq 0 j) =
  take (j * stripe) data ++ replicate (j * stripe - length data) x00.
Proof.
  induction j as [|j IH]; [done|].
  rewrite seq_S, fmap_app, concat_app, IH. simpl. rewrite app_nil_r. unfold stripe_shard.
  set (a := j * stripe). replace (stripe + a) with (a + stripe) by lia.
  destruct (decide (a ≤ length data)) as [Hle|Hgt].
  - rewrite (Nat.min_l a) by done. replace (a - length data) with 0 by lia. simpl.
    rewrite app_nil_r, app_assoc, take_take_drop. f_equal.
    + destruct (decide (a + stripe ≤ length data)).
      * f_equal. lia.
      * rewrite !take_ge by lia. done.
    + f_equal. lia.
  - rewrite (Nat.min_r a) by lia. rewrite !(take_ge data) by lia.
    rewrite Nat.min_r, Nat.sub_diag, take_0, Nat.sub_0_r by lia. simpl.
    rewrite <- app_assoc, <- replicate_add. do 2 f_equal. lia.
Qed.

Lemma stripes_roundtrip data stripe k :
  length data ≤ k * stripe →
  take (length data) (concat (stripe_shard data stripe <$> seq 0 k)) = data.
Proof.
  intros Hle. rewrite concat_stripes, (take_ge data (k * stripe)) by done.
  by rewrite take_app_length.
Qed.

(** ** Content ids *)
Definition content_preimage (s : list byte) : bytes :=
  encode_fields [bstr "BDLM_CONTENT_V1"; shard_bytes s].

Lemma byte_nat_inj a b : Z.of_nat (byte_to_nat a) = Z.of_nat (byte_to_nat b) → a = b.
Proof. intros Hab. rewrite <- (byte_of_to_nat a), <- (byte_of_to_nat b). f_equal. lia. Qed.

Lemma content_preimage_inj s t : content_preimage s = content_preimage t → s = t.
Proof.
  unfold content_preimage. cbn [encode_fields]. intros Heq.
  do 2 (apply app_inj_1 in Heq as [_ Heq]; [|by rewrite ?length_le_bytes]).
  apply app_inj_1 in Heq as [_ Heq]; [|by rewrite !length_le_bytes].
  rewrite !app_nil_r in Heq. eapply list_fmap_eq_inj, Heq. intros a b. apply byte_nat_inj.
Qed.

(** ** Schemes *)
Definition scheme_ok (sch : ErasureScheme.ErasureScheme) : Prop :=
  u32 (ErasureScheme.k sch) ∧ u32 (ErasureScheme.n sch).

Lemma for_scheme_ok sch rs : scheme_ok sch → for_scheme sch = Ok rs →
  coder_ok rs ∧ ErasureScheme.k sch = Z.of_nat (k rs) ∧
  ErasureScheme.n sch = Z.of_nat (k rs + m rs).
Proof.
  intros [Hk Hn]. unfold for_scheme. destruct (ErasureScheme.validate sch) eqn:Hv; [|done]. simpl.
  unfold ErasureScheme.validate in Hv. apply andb_prop in Hv as [Hv1 Hv2].
  unfold ErasureScheme.parity_count, sat_sub. unfold u32 in *. intros Hnew.
  apply new_ok in Hnew as (Hok&Hk'&Hm'); [|lia..].
  split; [done|]. destruct (Z.ltb_spec (ErasureScheme.n sch) (ErasureScheme.k sch)); [done|lia].
Qed.

(** ** Encoded objects *)
Definition stripe_of (data : list byte) (k : nat) : nat := (length data + k - 1) / k.

Lemma encode_object_inv data sch o : scheme_ok sch → encode_object data sch = Ok o →
  ∃ rs parity, for_scheme sch = Ok rs ∧ coder_ok rs ∧
  let stripe := stripe_of data (k rs) in
  let stripes := stripe_shard data stripe <$> seq 0 (k rs) in
  data ≠ [] ∧ 0 < stripe ≤ length data ∧ length data ≤ k rs * stripe ∧
  encode_parity rs stripes = Ok parity ∧ length parity = m rs ∧
  Forall (λ s, length s = stripe) (stripes ++ parity) ∧
  o = mkEncodedObject (stripes ++ parity) sch (Z.of_nat (length data)).
Proof.
  intros Hsch. unfold encode_object. destruct (ErasureScheme.validate sch); [|done].
  case_bool_decide as Hdata; [done|]. destruct (for_scheme sch) as [rs|] eqn:Hrs; [|done].
  simpl. fold (stripe_of data (k rs)). destruct (_ || _) eqn:Hsize; [done|].
  apply orb_false_elim in Hsize as [Hlt Hle]. apply Nat.ltb_ge in Hlt. apply Nat.leb_gt in Hle.
  destruct (encode_parity _ _) as [parity|] eqn:Hpar; [|done]. intros [= <-].
  destruct (for_scheme_ok sch rs Hsch Hrs) as (Hok&_). exists rs, parity.
  pose proof Hok as (Hgen&Hk&Hkm).
  assert (0 < length data) as Hpos by (by destruct data; simpl; [|lia]).
  assert (length data ≤ k rs * stripe_of data (k rs)) as Hcover.
  { unfold stripe_of. pose proof (Nat.div_mod (length data + k rs - 1) (k rs) ltac:(lia)).
    pose proof (Nat.mod_upper_bound (length data + k rs - 1) (k rs) ltac:(lia)). lia. }
  assert (0 < stripe_of data (k rs)) as Hst by (destruct (stripe_of data (k rs)); lia).
  assert (stripe_of data (k rs) ≤ length data) as Hst2.
  { unfold stripe_of. apply Nat.Div0.div_le_upper_bound. nia. }
  destruct (encode_parity_spec rs (stripe_shard data (stripe_of data (k rs)) <$> seq 0 (k rs))
    (stripe_of data (k rs))) as (par&Hpar'&Hlen&Huni&_); try done.
  { by rewrite length_fmap, length_seq. }
  { apply Forall_fmap, Forall_forall. intros i _. apply length_stripe_shard. }
  rewrite Hpar in Hpar'. injection Hpar' as <-. split_and!; try done.
  apply Forall_app. split; [|done].
  apply Forall_fmap, Forall_forall. intros i _. apply length_stripe_shard.
Qed.

(** ** The manifest of an encoded object *)
Section manifest_of.
Context `{Sha256}.

(** Entry [i] of the shard list of a code word of [k] data shards. *)
Definition word_ref (word : list (list byte)) (k i : nat) : ShardRef :=
  mkShardRef (Z.of_nat i) (ContentId.content_id_of (word !!! i))
    (Z.of_nat (length (word !!! i))) (if bool_decide (i < k) then Data else Parity).

Lemma shard_refs_word o k : ErasureScheme.k (scheme o) = Z.of_nat k →
  length (o_shards o) ≤ 255 → Forall (λ s, (Z.of_nat (length s) ≤ u32_max)%Z) (o_shards o) →
  shard_refs o = word_ref (o_shards o) k <$> seq 0 (length (o_shards o)).
Proof.
  intros Hk Hlen Hsz. unfold shard_refs, kinds. apply list_eq. intros i.
  rewrite list_lookup_imap, list_lookup_fmap.
  destruct (decide (i < length (o_shards o))) as [Hi|Hi].
  - rewrite lookup_seq_lt by done. simpl.
    destruct (lookup_lt_is_Some_2 (o_shards o) i Hi) as [b Hb].
    assert (zip (o_shards o) ((λ i, if bool_decide (Z.of_nat i < ErasureScheme.k (scheme o))%Z
      then Data else Parity) <$> seq 0 (length (o_shards o))) !! i =
      Some (b, if bool_decide (i < k) then Data else Parity)) as ->.
    { apply lookup_zip_with_Some. eexists _, _. split_and!; [done..|].
      rewrite list_lookup_fmap, lookup_seq_lt by done. simpl. f_equal. rewrite Hk.
      by rewrite (bool_decide_ext _ (i < k)) by lia. }
    simpl. unfold word_ref, set_kind, shard_from_bytes, as_u32. simpl.
    rewrite (list_lookup_total_correct _ _ _ Hb).
    rewrite Forall_forall in Hsz. pose proof (Hsz b (list_elem_of_lookup_2 _ _ _ Hb)).
    rewrite !Z.mod_small by (unfold u32_max in *; lia). done.
  - rewrite lookup_seq_ge, (lookup_ge_None_2 (zip (o_shards o) _)); [done| |lia].
    rewrite length_zip_with. lia.
Qed.

(** The shard loop succeeds on distinct indices and nonzero sizes. *)
Lemma sum_shards_ok l : ∀ seen total,
  Forall (λ s, (0 < size s)%Z) l → NoDup (index <$> l) → (∀ s, s ∈ l → index s ∉ seen) →
  (total + sumZ (size <$> l) ≤ u64_max)%Z →
  sum_shards seen total l = Ok (total + sumZ (size <$> l))%Z.
Proof.
  induction l as [|s l IH]; intros seen total Hsz Hnd Hseen Hsum; cbn [sum_shards].
  { f_equal. unfold sumZ. simpl. lia. }
  rewrite fmap_cons in Hnd, Hsum. rewrite fmap_cons.
  apply Forall_cons in Hsz as [Hs Hsz]. apply NoDup_cons in Hnd as [Hs' Hnd].
  rewrite (proj2 (Z.eqb_neq _ _)) by lia.
  rewrite bool_decide_false by (apply Hseen; by left).
  rewrite sumZ_cons in *.
  assert (0 ≤ sumZ (size <$> l))%Z.
  { apply sumZ_nonneg, Forall_fmap. eapply Forall_impl; [done|]. simpl. lia. }
  unfold u64_checked_add. rewrite (proj2 (Z.leb_le _ _)) by lia. simpl.
  rewrite IH; [f_equal; lia|done..| |lia].
  intros t Ht [Heq|Hin]%elem_of_cons; [|by apply (Hseen t); [right|]].
  apply Hs'. rewrite <- Heq. by apply list_elem_of_fmap_2.
Qed.

Lemma sumZ_const {A} (f : A → Z) (c : Z) (l : list A) :
  Forall (λ x, f x = c) l → sumZ (f <$> l) = (Z.of_nat (length l) * c)%Z.
Proof.
  induction 1 as [|x l Hx _ IH]; [done|].
  rewrite fmap_cons, sumZ_cons, Hx, IH. simpl length. lia.
Qed.

Lemma count_kind_word word k m kd : k + m ≤ 255 →
  count_kind kd (word_ref word k <$> seq 0 (k + m)) =
  Z.of_nat (match kd with Data => k | Parity => m end).
Proof.
  intros Hkm. unfold count_kind, as_u32. rewrite seq_app, fmap_app, filter_app, length_app.
  assert (∀ P : ShardRef → Prop, ∀ `{∀ x, Decision (P x)} l, Forall P l → filter P l = l) as Hall.
  { intros P ? l. induction 1 as [|x l Hx _ IH]; [done|]. rewrite filter_cons, decide_True by done.
    by rewrite IH. }
  assert (∀ P : ShardRef → Prop, ∀ `{∀ x, Decision (P x)} l, Forall (λ x, ¬ P x) l → filter P l = []) as Hno.
  { intros P ? l. induction 1 as [|x l Hx _ IH]; [done|]. by rewrite filter_cons, decide_False. }
  destruct kd.
  - rewrite Hall, Hno, length_fmap, length_seq.
    + simpl. rewrite Z.mod_small by lia. lia.
    + apply Forall_fmap, Forall_forall. intros i Hi%elem_of_seq. simpl. by rewrite bool_decide_false by lia.
    + apply Forall_fmap, Forall_forall. intros i Hi%elem_of_seq. simpl. by rewrite bool_decide_true by lia.
  - rewrite Hno, Hall, length_fmap, length_seq.
    + simpl. rewrite Z.mod_small by lia. lia.
    + apply Forall_fmap, Forall_forall. intros i Hi%elem_of_seq. simpl. by rewrite bool_decide_false by lia.
    + apply Forall_fmap, Forall_forall. intros i Hi%elem_of_seq. simpl. by rewrite bool_decide_true by lia.
Qed.

(** The manifest an encoded object turns into. *)
Definition describes (m : ContentManifest) (sch : ErasureScheme.ErasureScheme)
    (word : list (list byte)) (k : nat) (size : Z) : Prop :=
  shards m = word_ref word k <$> seq 0 (length word) ∧ erasure m = sch ∧
  Manifest.content_size m = size ∧ shard_count m = Z.of_nat (length word).

Lemma to_manifest_ok data sch o : scheme_ok sch → encode_object data sch = Ok o →
  (Z.of_nat (length data) ≤ u32_max)%Z →
  ∃ mf, to_manifest o = Ok mf ∧
    describes mf sch (o_shards o) (Z.to_nat (ErasureScheme.k sch)) (Z.of_nat (length data)).
Proof.
  intros Hsch Henc Hlen.
  destruct (encode_object_inv data sch o Hsch Henc)
    as (rs&parity&Hrs&(Hgen&Hk&Hkm)&Hne&[Hst Hst2]&Hcov&Hpar&Hm&Huni&->).
  destruct (for_scheme_ok sch rs Hsch Hrs) as (_&Hks&Hns).
  set (stripe := stripe_of data (k rs)) in *. set (word := _ ++ parity) in *.
  assert (length word = k rs + m rs) as Hword.
  { unfold word. rewrite length_app, length_fmap, length_seq. lia. }
  unfold to_manifest. rewrite (shard_refs_word _ (k rs)); simpl; [|done|lia|].
  2:{ eapply Forall_impl; [done|]. simpl. lia. }
  rewrite Hword. set (refs := word_ref word (k rs) <$> seq 0 (k rs + m rs)).
  assert (Forall (λ s, size s = Z.of_nat stripe) refs) as Hsize.
  { apply Forall_fmap, Forall_forall. intros i Hi%elem_of_seq. simpl. f_equal.
    rewrite Forall_forall in Huni. apply Huni.
    apply (list_elem_of_lookup_2 _ i), list_lookup_lookup_total_lt. lia. }
  assert (length refs = k rs + m rs) as Hrefs by (unfold refs; by rewrite length_fmap, length_seq).
  assert (sum_shards [] 0 refs = Ok (Z.of_nat (k rs + m rs) * Z.of_nat stripe)%Z) as Hsum.
  { rewrite sum_shards_ok; rewrite ?(sumZ_const _ (Z.of_nat stripe)), ?Hrefs by done; try done.
    - eapply Forall_impl; [done|]. simpl. lia.
    - unfold refs. rewrite <- list_fmap_compose. apply NoDup_fmap_2; [|apply NoDup_seq].
      intros i j. simpl. lia.
    - intros s _. apply not_elem_of_nil.
    - unfold u32_max, u64_max in *. nia. }
  unfold from_shards. rewrite Hsum, Hrefs.
  assert (as_u32 (Z.of_nat (k rs + m rs)) = ErasureScheme.n sch) as Hcount.
  { rewrite Hns. apply Z.mod_small. lia. }
  destruct refs as [|r0 refs'] eqn:Hr; [simpl in Hrefs; lia|]. rewrite <- Hr in *. clear Hr.
  unfold with_erasure. simpl.
  assert (ErasureScheme.validate sch = true) as ->.
  { unfold for_scheme in Hrs. by destruct (ErasureScheme.validate sch). }
  rewrite Hcount, Z.eqb_refl. simpl. unfold refs. rewrite !count_kind_word by done.
  rewrite <- Hks, Z.eqb_refl. simpl. unfold ErasureScheme.parity_count, sat_sub.
  rewrite (proj2 (Z.eqb_eq _ _)) by lia. simpl.
  assert (0 < length data) by (destruct data; simpl; [done|lia]).
  unfold with_content_size. simpl. rewrite (proj2 (Z.eqb_neq _ _)) by lia.
  rewrite (proj2 (Z.ltb_ge _ _)) by nia. eexists. split; [done|].
  split_and!; simpl; [|done| |].
  - rewrite Hword, Hks, Nat2Z.id. done.
  - unfold Manifest.content_size. simpl. by rewrite (proj2 (Z.eqb_neq _ _)) by lia.
  - by rewrite Hns, Hword.
Qed.

(** [find] in the shard list of a code word. *)
Lemma find_word_ref word k i : ∀ a n, a ≤ i < a + n →
  List.find (λ s, index s =? Z.of_nat i)%Z (word_ref word k <$> seq a n) = Some (word_ref word k i).
Proof.
  intros a n. revert a. induction n as [|n IH]; intros a Hi; [lia|]. simpl.
  destruct (Z.eqb_spec (Z.of_nat a) (Z.of_nat i)) as [Heq|Hne].
  - by replace a with i by lia.
  - apply IH. lia.
Qed.

(** What [verify_all] establishes. *)
Lemma verify_all_spec mf word k all : ∀ i,
  shards mf = word_ref word k <$> seq 0 (length word) → length word ≤ 255 →
  i + length all ≤ length word →
  verify_all mf i all = Ok () ↔
  ∀ j, j < length all →
    ContentId.content_id_of (word !!! (i + j)) = ContentId.content_id_of (all !!! j).
Proof.
  induction all as [|b all IH]; intros i Hsh Hw Hlen; simpl.
  { split; [|done]. intros _ j Hj. lia. }
  simpl in Hlen. unfold as_u32. rewrite Z.mod_small by lia.
  rewrite Hsh, find_word_ref by lia. simpl. case_bool_decide as Hid.
  - split; [done|]. intros Hall. exfalso. apply Hid. specialize (Hall 0 ltac:(lia)).
    by rewrite Nat.add_0_r in Hall.
  - rewrite (IH (S i)) by (done || lia). split.
    + intros Hall [|j] Hj; [by rewrite Nat.add_0_r|]. rewrite Nat.add_succ_r. apply Hall. lia.
    + intros Hall j Hj. specialize (Hall (S j) ltac:(lia)). by rewrite Nat.add_succ_r in Hall.
Qed.

Lemma collect_length {E A} (l : list (result E A)) l' : collect l = Ok l' → length l' = length l.
Proof.
  revert l'. induction l as [|[a|e] l IH]; intros l'; simpl; [by intros [= <-]| |done].
  destruct (collect l) as [l1|]; [|done]. intros [= <-]. simpl. by rewrite (IH l1).
Qed.

Lemma encode_parity_length rs data parity :
  encode_parity rs data = Ok parity → length data = k rs ∧ length parity = m rs.
Proof.
  unfold encode_parity. case_bool_decide as Hl; [done|]. case_bool_decide as Hm.
  { intros [= <-]. done. }
  case_bool_decide; [done|]. destruct (existsb _ _); [done|]. intros Hc%collect_length.
  by rewrite length_fmap, length_seq in Hc.
Qed.

Lemma reconstruct_length rs present all :
  reconstruct rs present = Ok all → length all = k rs + m rs.
Proof.
  unfold reconstruct. case_bool_decide; [done|]. case_match; [done|]. case_bool_decide; [done|].
  destruct (existsb _ _); [done|]. destruct (if forallb _ _ then _ else _) as [data|]; [|done].
  destruct (encode_parity rs data) as [parity|] eqn:Hp; [|done]. intros [= <-].
  apply encode_parity_length in Hp. rewrite length_app. lia.
Qed.

(** ** Attempts *)

(** The survivor sets [reconstruct_object] may try: all of them, and all but
    one. *)
Definition tried (present : list (option (list byte))) : list (list (option (list byte))) :=
  present :: ((λ d, <[d := None]> present) <$> live_indices present).

(** The shards those attempts rebuild. *)
Definition rebuilt (sch : ErasureScheme.ErasureScheme) (present : list (option (list byte))) :
    list (list byte) :=
  match for_scheme sch with
  | Ok rs => tried present ≫= λ p, match reconstruct rs p with Ok all => all | Err _ => [] end
  | Err _ => []
  end.

(** The content-id preimages that occur when an object is read. *)
Definition read_preimages (o : EncodedObject) (present : list (option (list byte))) : list bytes :=
  content_preimage <$> o_shards o ++ rebuilt (scheme o) present.

Section attempts.
Context (data : list byte) (sch : ErasureScheme.ErasureScheme) (o : EncodedObject).
Context (mf : ContentManifest) (rs : ReedSolomon) (present : list (option (list byte))).
Hypothesis Hsch : scheme_ok sch.
Hypothesis Henc : encode_object data sch = Ok o.
Hypothesis Hmf : describes mf sch (o_shards o) (Z.to_nat (ErasureScheme.k sch)) (Z.of_nat (length data)).
Hypothesis Hrs : for_scheme sch = Ok rs.

Lemma object_word : length (o_shards o) = k rs + m rs ∧ k rs + m rs ≤ 255 ∧
  take (length data) (concat (take (k rs) (o_shards o))) = data ∧ scheme o = sch.
Proof.
  clear mf Hmf present.
  destruct (encode_object_inv data sch o Hsch Henc)
    as (rs'&parity&Hrs'&(Hgen&Hk&Hkm)&Hne&[Hst Hst2]&Hcov&Hpar&Hm&Huni&->).
  rewrite Hrs in Hrs'. injection Hrs' as <-. simpl.
  rewrite length_app, length_fmap, length_seq, take_app_length' by (by rewrite length_fmap, length_seq).
  split_and!; [lia|done| |done]. by apply stripes_roundtrip.
Qed.

(** Survivors of the code word, [k] of them or more, give the object. *)
Lemma attempt_good p : survives (o_shards o) p → k rs ≤ length (live_indices p) →
  attempt rs mf p = Ok data.
Proof.
  intros Hsur Hlive. destruct object_word as (Hlen&Hle&Hdata&_).
  unfold attempt. assert (reconstruct rs p = Ok (o_shards o)) as ->.
  { destruct (encode_object_inv data sch o Hsch Henc)
      as (rs'&parity&Hrs'&(Hgen&Hk&Hkm)&Hne&[Hst Hst2]&Hcov&Hpar&Hm&Huni&->).
    rewrite Hrs in Hrs'. injection Hrs' as <-. simpl in *.
    apply Forall_app in Huni as [Huni _].
    eapply reconstruct_word; try done. by rewrite length_fmap, length_seq. }
  destruct Hmf as (Hsh&_&Hcs&_).
  rewrite (proj2 (verify_all_spec mf (o_shards o) _ (o_shards o) 0 Hsh ltac:(lia) ltac:(lia))) by done.
  rewrite Hcs, Nat2Z.id. by rewrite Hdata.
Qed.

(** An attempt that passes verification returns the object. *)
Lemma attempt_sound p out : collision_free (read_preimages o present) → p ∈ tried present →
  attempt rs mf p = Ok out → out = data.
Proof.
  intros Hcf Hp. destruct object_word as (Hlen&Hle&Hdata&Hso). unfold attempt.
  destruct (reconstruct rs p) as [all|] eqn:Hall; [|done].
  destruct (verify_all mf 0 all) as [[]|] eqn:Hver; [|done].
  destruct Hmf as (Hsh&_&Hcs&_). pose proof (reconstruct_length _ _ _ Hall) as Hlall.
  rewrite (verify_all_spec mf (o_shards o) _ all 0 Hsh ltac:(lia) ltac:(lia)) in Hver.
  assert (all = o_shards o) as ->.
  { apply list_eq_same_length with (k rs + m rs); [done..|]. intros i x y Hi Hx Hy.
    specialize (Hver i ltac:(lia)). simpl in Hver.
    rewrite (list_lookup_total_correct _ _ _ Hx), (list_lookup_total_correct _ _ _ Hy) in Hver.
    symmetry. apply content_preimage_inj, Hcf; [..|apply Hver]; apply list_elem_of_fmap_2, elem_of_app.
    - left. by apply list_elem_of_lookup_2 in Hy.
    - right. unfold rebuilt. rewrite Hso, Hrs. apply list_elem_of_bind. exists p.
      rewrite Hall. split; [by apply list_elem_of_lookup_2 in Hx|done]. }
  intros [= <-]. rewrite Hcs, Nat2Z.id. done.
Qed.

Lemma retry_sound drops out : collision_free (read_preimages o present) →
  (∀ d, d ∈ drops → d ∈ live_indices present) → retry rs mf present drops = Some out → out = data.
Proof.
  intros Hcf. induction drops as [|d drops IH]; intros Hd; simpl; [done|].
  destruct (attempt rs mf _) as [out'|] eqn:Ha.
  - intros [= <-]. eapply attempt_sound; [done| |exact Ha]. right.
    apply list_elem_of_fmap. exists d. split; [done|]. apply Hd. by left.
  - apply IH. intros d' Hd'. apply Hd. by right.
Qed.

(** Dropping a bad survivor succeeds, so the loop does not run dry. *)
Lemma retry_succeeds drops bad : bad ∈ drops → attempt rs mf (<[bad := None]> present) = Ok data →
  is_Some (retry rs mf present drops).
Proof.
  induction drops as [|d drops IH]; intros Hin Hbad; [by apply not_elem_of_nil in Hin|]. simpl.
  destruct (attempt rs mf (<[d := None]> present)) as [out|] eqn:Ha; [by eexists|].
  apply elem_of_cons in Hin as [->|Hin]; [by rewrite Hbad in Ha|]. by apply IH.
Qed.

Lemma live_drop bad :
  live_indices (<[bad := None]> present) = filter (λ i, i ≠ bad) (live_indices present).
Proof.
  rewrite !live_indices_filter, length_insert, list_filter_filter. apply filter_ext_in.
  intros i Hi%elem_of_seq. destruct (decide (i = bad)) as [->|Hne].
  - rewrite list_lookup_insert_eq by lia. simpl. split; [by intros []|tauto].
  - rewrite list_lookup_insert_ne by done. tauto.
Qed.

End attempts.
(** Reading through any manifest that describes the code word. *)
Lemma describes_recovered data sch o mf present bad :
  scheme_ok sch → encode_object data sch = Ok o →
  describes mf sch (o_shards o) (Z.to_nat (ErasureScheme.k sch)) (Z.of_nat (length data)) →
  length present = length (o_shards o) →
  (∀ i s, i ≠ bad → present !! i = Some (Some s) → o_shards o !! i = Some s) →
  (ErasureScheme.k sch ≤ Z.of_nat (length (filter (λ i, i ≠ bad) (live_indices present))))%Z →
  collision_free (read_preimages o present) →
  reconstruct_object mf present = Ok data.
Proof.
  intros Hsch Henc Hmf Hlen Hgood Hk Hcf.
  destruct (encode_object_inv data sch o Hsch Henc) as (rs&_&Hrs&_).
  destruct (for_scheme_ok sch rs Hsch Hrs) as (_&Hks&_). pose proof Hmf as (Hsh&Hera&_).
  destruct (object_word data sch o rs Hsch Henc Hrs) as (Hw&_).
  unfold reconstruct_object. rewrite Hera, Hrs, Hsh, length_fmap, length_seq, Hw.
  rewrite bool_decide_false by (unfold total_shards; auto).
  destruct (attempt rs mf present) as [out|e] eqn:Hatt.
  { f_equal. eapply (attempt_sound data sch o mf rs present); [done..|by left|done]. }
  assert (bad ∈ live_indices present) as Hbad.
  { destruct (decide (bad ∈ live_indices present)) as [|Hnb]; [done|exfalso].
    rewrite (attempt_good data sch o mf rs) in Hatt; [done..| |].
    - split; [done|]. intros i s Hi. apply Hgood; [|done]. intros ->. apply Hnb.
      apply elem_of_live_indices. eauto.
    - rewrite <- (Nat2Z.id (k rs)), <- Hks. etrans; [|apply (length_filter (λ i, i ≠ bad))]. lia. }
  assert (attempt rs mf (<[bad := None]> present) = Ok data) as Hdrop.
  { apply (attempt_good data sch o mf rs); [done..| |].
    - split; [by rewrite length_insert|]. intros i s Hi.
      destruct (decide (i = bad)) as [->|Hne].
      + apply list_lookup_insert_Some in Hi. naive_solver.
      + rewrite list_lookup_insert_ne in Hi by done. by apply (Hgood i).
    - rewrite live_drop. lia. }
  assert (k rs < length (live_indices present)) as Hspare.
  { pose proof (list_basics.list.length_filter_lt (λ i, i ≠ bad) (live_indices present) bad Hbad ltac:(auto)). lia. }
  rewrite (proj2 (Nat.ltb_lt _ _) Hspare).
  destruct (retry_succeeds data mf rs present (live_indices present) bad) as [out Hout]; [done..|].
  rewrite Hout. f_equal. by eapply (retry_sound data sch o mf rs present).
Qed.

Lemma same_shards_eq l : ∀ l', length l = length l' →
  forallb (λ '(h, c), same_shard h c) (zip l l') = true → l = l'.
Proof.
  induction l as [|h l IH]; intros [|c l'] Hlen; try done. simpl.
  intros [Hs Hl]%andb_prop. f_equal; [|apply IH; [simpl in Hlen; lia|done]].
  unfold same_shard in Hs.
  apply andb_prop in Hs as [[[Hid%bool_decide_eq_true Hkd%bool_decide_eq_true]%andb_prop Hsz]%andb_prop Hix].
  apply Z.eqb_eq in Hsz, Hix. destruct h, c; simpl in *; by subst.
Qed.

(** A claim that survives the re-encoding describes the code word. *)
Lemma verified_describes data claimed o :
  scheme_ok (erasure claimed) → (Z.of_nat (length data) ≤ u32_max)%Z →
  encode_object data (erasure claimed) = Ok o → verify_object_encoding data claimed = Ok () →
  describes claimed (erasure claimed) (o_shards o)
    (Z.to_nat (ErasureScheme.k (erasure claimed))) (Z.of_nat (length data)).
Proof.
  intros Hsch Hsz Henc. destruct (to_manifest_ok data _ o Hsch Henc Hsz) as (mf&Hto&Hsh&_&Hcs&_).
  unfold verify_object_encoding.
  destruct (validate_untrusted claimed) as [[]|] eqn:Hval; [|done]. simpl. rewrite Henc, Hto. simpl.
  destruct (Z.eqb_spec (Manifest.content_size mf) (Manifest.content_size claimed)) as [Hc|]; [|done].
  simpl. case_bool_decide as Hlen; [done|]. destruct (forallb _ _) eqn:Hall; [|done]. intros _.
  apply same_shards_eq in Hall; [|done]. split_and!; [by rewrite <- Hall|done|by rewrite <- Hc|].
  destruct (encode_object_inv data _ o Hsch Henc) as (rs&_&Hrs&_).
  destruct (object_word data _ o rs Hsch Henc Hrs) as (Hw&Hle&_).
  assert (length (shards claimed) = length (o_shards o)) as Hn.
  { by rewrite <- Hall, Hsh, length_fmap, length_seq. }
  unfold validate_untrusted in Hval. rewrite Hn in Hval. case_bool_decide; [done|].
  destruct (Z.eqb_spec (as_u32 (Z.of_nat (length (o_shards o)))) (shard_count claimed)) as [Heq|]; [|done].
  rewrite <- Heq. unfold as_u32. apply Z.mod_small. lia.
Qed.

End manifest_of.

End ObjectLemmas.

(** ** Reading an object back *)
Module ObjectClaims.
Import ObjectLemmas.

Section claims.
Context `{Sha256}.


(** C13: Corrupted survivors are never returned as content.  Whatever the
    surviving shards hold, reading with the manifest of an encoded object
    returns that object or an error, provided no two of the shards involved
    collide under the hash. *)
Theorem object_authentic data sch o mf present out :
  scheme_ok sch → encode_object data sch = Ok o → (Z.of_nat (length data) ≤ u32_max)%Z →
  to_manifest o = Ok mf → collision_free (read_preimages o present) →
  reconstruct_object mf present = Ok out → out = data.
Proof.
  intros Hsch Henc Hsz Hto Hcf.
  destruct (to_manifest_ok data sch o) as (mf'&Hto'&Hmf); [done..|].
  rewrite Hto in Hto'. injection Hto' as <-.
  destruct (encode_object_inv data sch o Hsch Henc) as (rs&_&Hrs&_). pose proof Hmf as (_&Hera&_).
  unfold reconstruct_object. rewrite Hera, Hrs. case_bool_decide; [done|].
  destruct (attempt rs mf present) as [out'|e] eqn:Hatt.
  - intros [= <-]. eapply (attempt_sound data sch o mf rs present); [done..|by left|done].
  - destruct (k rs <? _); [|done].
    destruct (retry rs mf present _) as [out'|] eqn:Hretry; [|done]. intros [= <-].
    by eapply (retry_sound data sch o mf rs present).
Qed.

(** C14: A re-encoded claim is a recoverable claim.  When the node re-encodes
    the bytes of a claimed manifest and accepts the claim, then reading
    through the claimed manifest itself returns those bytes from any [k]
    intact shards, with one more survivor allowed to be corrupted. *)
Theorem verified_claim_recoverable data claimed o present bad :
  scheme_ok (erasure claimed) → (Z.of_nat (length data) ≤ u32_max)%Z →
  verify_object_encoding data claimed = Ok () →
  encode_object data (erasure claimed) = Ok o →
  length present = length (o_shards o) →
  (∀ i s, i ≠ bad → present !! i = Some (Some s) → o_shards o !! i = Some s) →
  (ErasureScheme.k (erasure claimed) ≤
    Z.of_nat (length (filter (λ i, i ≠ bad) (live_indices present))))%Z →
  collision_free (read_preimages o present) →
  reconstruct_object claimed present = Ok data.
Proof.
  intros Hsch Hsz Hver Henc. apply describes_recovered; [done..|].
  by apply verified_describes.
Qed.

End claims.
End ObjectClaims.

(** ** An example: two data and two parity shards, one lost and one corrupted *)
Module ObjectExamples.
Import ObjectLemmas ObjectClaims.
#[local] Existing Instance poly_sha256.

Definition example_object : list byte := [x01; x02; x03; x04].
Definition example_scheme : ErasureScheme.ErasureScheme := ErasureScheme.mkErasureScheme 2 4.

Definition example_encoded : EncodedObject :=
  Eval vm_compute in match encode_object example_object example_scheme with
                     | Ok o => o
                     | Err _ => mkEncodedObject [] example_scheme 0
                     end.

Definition example_present : list (option (list byte)) :=
  [Some [xff; xff; xff]; None; o_shards example_encoded !! 2; o_shards example_encoded !! 3].

Lemma example_encode : encode_object example_object example_scheme = Ok example_encoded.
Proof. vm_compute. reflexivity. Defined.

Lemma example_collision_free : collision_free (read_preimages example_encoded example_present).
Proof. apply collision_freeb_spec. vm_compute. reflexivity. Qed.


Definition example_claim : ContentManifest :=
  match to_manifest example_encoded with Ok mf => mf | Err _ =>
    mkContentManifest [] [] None 0 0 [] example_scheme Source.Stored Source.Classic 0 Plaintext end.

Lemma verified_claim_recoverable_witness :
  verify_object_encoding example_object example_claim = Ok () ∧
  reconstruct_object example_claim example_present = Ok example_object.
Proof.
  split; [vm_compute; reflexivity|].
  apply (verified_claim_recoverable example_object example_claim example_encoded example_present 0).
  - vm_compute. repeat split; discriminate.
  - unfold u32_max. simpl. lia.
  - vm_compute. reflexivity.
  - vm_compute. reflexivity.
  - reflexivity.
  - intros [|[|[|[|i]]]] s Hne Hs; vm_compute in Hs; simplify_eq; reflexivity.
  - vm_compute. discriminate.
  - exact example_collision_free.
Defined.

Lemma object_authentic_witness : ∃ mf out,
  to_manifest example_encoded = Ok mf ∧ reconstruct_object mf example_present = Ok out ∧
  out = example_object.
Proof.
  destruct (to_manifest example_encoded) as [mf|] eqn:Hmf; [|vm_compute in Hmf; discriminate Hmf].
  destruct (reconstruct_object mf example_present) as [out|] eqn:Hout.
  - exists mf, out. split; [reflexivity|split; [exact Hout|]].
    apply (object_authentic example_object example_scheme example_encoded mf example_present out).
    + unfold scheme_ok, u32, u32_max. simpl. lia.
    + exact example_encode.
    + unfold u32_max. simpl. lia.
    + exact Hmf.
    + exact example_collision_free.
    + exact Hout.
  - exfalso. revert Hout. vm_compute in Hmf. injection Hmf as <-. vm_compute. discriminate.
Defined.

End ObjectExamples.
