(* ===== verification/ManifestProps.v ===== *)
(** * Manifest ids

    The id of a manifest ([manifest_id_from_parts] of
    [src/src/storage/manifest.rs]) commits to its shards, scheme, sizes and
    encryption claim, and to its provenance up to one pair of claims that
    share a preimage. *)
From stdpp Require Import base tactics numbers list strings.
From Stdlib Require Import ZArith Lia.
From Stdlib Require Import Strings.Byte.
From S2P Require Import Prelude Merkle Erasure ErasureField ErasureMatrix ErasureProps Manifest ObjectProps.
Import Manifest.Manifest Objects ReedSolomon.
Import MatrixLemmas GaussLemmas CodeLemmas.
Local Open Scope nat_scope.

(** ** Manifest ids *)
Module IdLemmas.
Import Source ObjectLemmas.
Local Open Scope Z_scope.

(** A tagged hash preimage determines its payload. *)
Lemma tagged_preimage_inj tag x y : encode_fields [tag; x] = encode_fields [tag; y] → x = y.
Proof.
  cbn [encode_fields]. intros Heq.
  do 2 (apply app_inj_1 in Heq as [_ Heq]; [|by rewrite ?length_le_bytes]).
  apply app_inj_1 in Heq as [_ Heq]; [|by rewrite !length_le_bytes].
  by rewrite !app_nil_r in Heq.
Qed.

(** The values a decoded manifest can hold. *)
Definition shard_wf (s : ShardRef) : Prop :=
  u32 (index s) ∧ length (shard_id s) = 32%nat ∧ u32 (size s).

Definition spec_wf (g : GeneratedSpec) : Prop :=
  length (seed g) = 32%nat ∧ u32 (output_len g) ∧ u32 (step_budget g).

Definition sealed_wf (g : SealedGeneratedSpec) : Prop :=
  u32 (s_output_len g) ∧ u32 (s_step_budget g) ∧ length (recipe_commitment g) = 32%nat.

Definition derived_wf (d : DerivedSpec) : Prop :=
  length (master_id d) = 32%nat ∧ u32 (block_x d) ∧ u32 (block_y d) ∧ u32 (block_w d) ∧
  u32 (block_h d) ∧ u32 (master_blocks_w d) ∧ u32 (master_blocks_h d) ∧
  match prefix d with Some p => u64 (kept_bytes p) ∧ u64 (master_bytes p) | None => True end.

Definition source_wf (s : ContentSource) : Prop :=
  match s with
  | Stored => True
  | Generated g => spec_wf g
  | SealedGenerated g => sealed_wf g
  | Hybrid p g => u32 p ∧ spec_wf g
  | Derived d => derived_wf d
  end.

Definition manifest_wf (m : ContentManifest) : Prop :=
  Forall shard_wf (shards m) ∧ Z.of_nat (length (shards m)) ≤ u32_max ∧
  u32 (ErasureScheme.k (erasure m)) ∧ u32 (ErasureScheme.n (erasure m)) ∧
  u64 (content_size_field m) ∧ u64 (total_size m) ∧ source_wf (source m) ∧
  match dictionary_id m with Some d => length d = 32%nat | None => True end.

#[export] Instance shard_wf_dec s : Decision (shard_wf s).
Proof. unfold shard_wf, u32. apply _. Defined.

#[export] Instance source_wf_dec s : Decision (source_wf s).
Proof.
  destruct s as [| | | |d]; unfold source_wf, spec_wf, sealed_wf, derived_wf, u32, u64;
    [apply _..|]. destruct (prefix d); apply _.
Defined.

#[export] Instance manifest_wf_dec m : Decision (manifest_wf m).
Proof. unfold manifest_wf, u32, u64. destruct (dictionary_id m); apply _. Defined.

Lemma shard_entry_length s : shard_wf s → length (shard_entry s) = 41%nat.
Proof.
  intros (_&Hid&_). unfold shard_entry. rewrite !length_app, !length_le_bytes, Hid. done.
Qed.

Lemma shard_entry_inj s t : shard_wf s → shard_wf t → shard_entry s = shard_entry t → s = t.
Proof.
  intros (Hi&Hid&Hsz) (Hi'&Hid'&Hsz'). unfold shard_entry. intros Heq.
  apply app_inj_1 in Heq as [H1 Heq]; [|by rewrite !length_le_bytes].
  apply app_inj_1 in Heq as [H2 Heq]; [|by rewrite Hid].
  apply app_inj_1 in Heq as [H3 Heq]; [|by rewrite !length_le_bytes].
  apply le_bytes4_inj in H1, H3; [|done..].
  destruct s as [? ? ? []], t as [? ? ? []]; simpl in *; naive_solver.
Qed.

Lemma shard_entries_inj l : ∀ l' r r', Forall shard_wf l → Forall shard_wf l' →
  length l = length l' → (l ≫= shard_entry) ++ r = (l' ≫= shard_entry) ++ r' → l = l' ∧ r = r'.
Proof.
  induction l as [|s l IH]; intros [|s' l'] r r' Hl Hl' Hlen; try done.
  apply Forall_cons in Hl as [Hs Hl], Hl' as [Hs' Hl'].
  rewrite !bind_cons, <- !app_assoc. intros Heq.
  apply app_inj_1 in Heq as [He Heq]; [|by rewrite !shard_entry_length].
  apply shard_entry_inj in He as ->; [|done..].
  destruct (IH l' r r') as [-> ->]; simpl in *; (done || lia).
Qed.

Lemma encryption_tag_inj e e' : encryption_commitment_tag e = encryption_commitment_tag e' → e = e'.
Proof. by destruct e as [|[]], e' as [|[]]. Qed.

Section ids.
Context `{Sha256}.

(** Everything before the provenance is bound, byte for byte. *)
Lemma manifest_preimage_inj sh1 er1 en1 c1 t1 src1 ed1 d1 sh2 er2 en2 c2 t2 src2 ed2 d2 :
  Forall shard_wf sh1 → Forall shard_wf sh2 →
  Z.of_nat (length sh1) ≤ u32_max → Z.of_nat (length sh2) ≤ u32_max →
  u32 (ErasureScheme.k er1) → u32 (ErasureScheme.n er1) → u64 c1 → u64 t1 →
  u32 (ErasureScheme.k er2) → u32 (ErasureScheme.n er2) → u64 c2 → u64 t2 →
  manifest_preimage sh1 er1 en1 c1 t1 src1 ed1 d1 = manifest_preimage sh2 er2 en2 c2 t2 src2 ed2 d2 →
  sh1 = sh2 ∧ er1 = er2 ∧ en1 = en2 ∧ c1 = c2 ∧ t1 = t2 ∧
  provenance_bytes src1 ed1 d1 = provenance_bytes src2 ed2 d2.
Proof.
  intros Hs1 Hs2 Hn1 Hn2 ???? ????. unfold manifest_preimage. intros Heq.
  apply app_inj_1 in Heq as [_ Heq]; [|done].
  apply app_inj_1 in Heq as [Hc Heq]; [|by rewrite !length_le_bytes].
  unfold as_u32 in Hc. rewrite !Z.mod_small in Hc by (unfold u32_max in *; lia).
  apply le_bytes4_inj in Hc; [|unfold u32; lia..].
  apply shard_entries_inj in Heq as [-> Heq]; [|done..|lia].
  apply app_inj_1 in Heq as [Hk Heq]; [|by rewrite !length_le_bytes].
  apply app_inj_1 in Heq as [Hn Heq]; [|by rewrite !length_le_bytes].
  apply app_inj_1 in Heq as [He Heq]; [|done].
  apply app_inj_1 in Heq as [Hcs Heq]; [|by rewrite !length_le_bytes].
  apply app_inj_1 in Heq as [Ht Heq]; [|by rewrite !length_le_bytes].
  apply le_bytes4_inj in Hk, Hn; [|done..]. apply le_bytes8_inj in Hcs, Ht; [|done..].
  injection He as He%encryption_tag_inj.
  destruct er1, er2; simpl in *; subst; done.
Qed.

Lemma hash_fields_length fs : length (hash_fields_bytes fs) = 32%nat.
Proof. apply sha256_length. Qed.

(** The commitment of a source is empty, or a tag with its digest. *)
Lemma source_shape s :
  s = Stored ∨ ∃ t d, source_commitment_bytes s = t :: d ∧ 1 ≤ t ≤ 4 ∧
    length d = (if t =? 2 then 36%nat else 32%nat) ∧
    (t = 1 → ∃ g, s = Generated g ∧ d = generated_spec_digest g).
Proof.
  destruct s as [|g|g|p g|d]; [by left|right..].
  - exists 1, (generated_spec_digest g). split_and!; [done|lia|lia|apply hash_fields_length|eauto].
  - exists 4, (sealed_generated_commitment g). split_and!; [done|lia|lia|apply hash_fields_length|done].
  - exists 2, (le_bytes 4 p ++ generated_spec_digest g). split_and!; [done|lia|lia| |done].
    rewrite length_app, length_le_bytes. simpl. do 4 f_equal. apply hash_fields_length.
  - exists 3, (derivation_commitment_tag d). split_and!; [done|lia|lia| |done].
    unfold derivation_commitment_tag. destruct (prefix_commitment_fields d) as [[]].
    apply hash_fields_length.
Qed.

Lemma edition_dictionary_inj e1 d1 e2 d2 :
  match d1 with Some d => length d = 32%nat | None => True end →
  match d2 with Some d => length d = 32%nat | None => True end →
  edition_commitment_bytes e1 ++ match d1 with Some dict => 1 :: dict | None => [] end =
  edition_commitment_bytes e2 ++ match d2 with Some dict => 1 :: dict | None => [] end →
  e1 = e2 ∧ d1 = d2.
Proof.
  intros Hd1 Hd2 Heq. pose proof (f_equal length Heq) as Hlen. rewrite !length_app in Hlen.
  destruct e1, e2, d1 as [d1|], d2 as [d2|]; vm_compute in Hlen || simpl in Hlen; 
    rewrite ?Hd1, ?Hd2 in Hlen; try discriminate Hlen; try done;
    apply app_inj_1 in Heq as [_ [= ->]]; done.
Qed.

(** The provenance is bound except for one pair of claims. *)
Definition source_dictionary_confusion (s1 s2 : ContentSource) (e1 e2 : BudStorageEdition)
    (d1 d2 : option bytes) : Prop :=
  ∃ g, s1 = Generated g ∧ s2 = Stored ∧ e1 = Classic ∧ e2 = Classic ∧ d1 = None ∧
       d2 = Some (generated_spec_digest g).

Lemma stored_or_tagged e1 d1 t c e2 d2 s :
  match d1 with Some d => length d = 32%nat | None => True end →
  1 ≤ t ≤ 4 → length c = (if t =? 2 then 36%nat else 32%nat) →
  (t = 1 → ∃ g, s = Generated g ∧ c = generated_spec_digest g) →
  edition_commitment_bytes e1 ++ match d1 with Some dict => 1 :: dict | None => [] end =
  t :: c ++ edition_commitment_bytes e2 ++ match d2 with Some dict => 1 :: dict | None => [] end →
  source_dictionary_confusion s Stored e2 e1 d2 d1.
Proof.
  intros Hd1 Ht Hc Hg Heq. destruct e1; [|injection Heq as Heq _; lia].
  destruct d1 as [d1|]; [|done]. injection Heq as <- Heq. destruct (Hg eq_refl) as (g&->&->).
  exists g. simpl in Hc.
  pose proof (f_equal length Heq) as Hlen. rewrite !length_app, Hc, Hd1 in Hlen.
  destruct e2; [|simpl in Hlen; lia]. destruct d2; [simpl in Hlen; lia|].
  simpl in Heq. rewrite app_nil_r in Heq. by subst.
Qed.

Lemma provenance_inj s1 e1 d1 s2 e2 d2 :
  match d1 with Some d => length d = 32%nat | None => True end →
  match d2 with Some d => length d = 32%nat | None => True end →
  provenance_bytes s1 e1 d1 = provenance_bytes s2 e2 d2 →
  (source_commitment_bytes s1 = source_commitment_bytes s2 ∧ e1 = e2 ∧ d1 = d2) ∨
  source_dictionary_confusion s1 s2 e1 e2 d1 d2 ∨
  source_dictionary_confusion s2 s1 e2 e1 d2 d1.
Proof.
  intros Hd1 Hd2. unfold provenance_bytes.
  destruct (source_shape s1) as [->|(t1&c1&Hs1&Ht1&Hc1&Hg1)],
    (source_shape s2) as [->|(t2&c2&Hs2&Ht2&Hc2&Hg2)]; rewrite ?Hs1, ?Hs2; simpl.
  - intros Heq. left. split; [done|]. by apply edition_dictionary_inj.
  - intros Heq. right; right. by eapply stored_or_tagged.
  - intros Heq. right; left. symmetry in Heq. by eapply stored_or_tagged.
  - intros [= -> Heq]. left. apply app_inj_1 in Heq as [-> Heq]; [|by rewrite Hc1, Hc2].
    split; [done|]. by apply edition_dictionary_inj.
Qed.

(** ** The digests inside a source commitment *)
Definition generated_fields (g : GeneratedSpec) : list bytes :=
  [bstr "BDLM_GENERATED_SPEC_V1"; [generator_commitment_tag (generator g)]; seed g;
   le_bytes 4 (output_len g); le_bytes 4 (step_budget g)].

Definition sealed_fields (g : SealedGeneratedSpec) : list bytes :=
  [bstr "BDLM_SEALED_GENERATED_V1"; [generator_commitment_tag (s_generator g)];
   le_bytes 4 (s_output_len g); le_bytes 4 (s_step_budget g); recipe_commitment g].

Definition derived_fields (d : DerivedSpec) : list bytes :=
  let '(present, kept, total) := prefix_commitment_fields d in
  [bstr "BDLM_DERIVED_CONTENT_V1"; master_id d; [transform_tag (transform d)];
   le_bytes 4 (block_x d); le_bytes 4 (block_y d); le_bytes 4 (block_w d); le_bytes 4 (block_h d);
   le_bytes 4 (master_blocks_w d); le_bytes 4 (master_blocks_h d);
   [present]; le_bytes 8 kept; le_bytes 8 total].

Definition source_preimages (s : ContentSource) : list bytes :=
  match s with
  | Stored => []
  | Generated g | Hybrid _ g => [encode_fields (generated_fields g)]
  | SealedGenerated g => [encode_fields (sealed_fields g)]
  | Derived d => [encode_fields (derived_fields d)]
  end.

Lemma generator_tag_inj g h : generator_commitment_tag g = generator_commitment_tag h → g = h.
Proof. by destruct g, h. Qed.

Lemma cons_eq {A} (x y : A) l k : x :: l = y :: k → x = y ∧ l = k.
Proof. by intros [= -> ->]. Qed.

(** One field off a list equation, without looking inside it. *)
Ltac peel Heq x := apply cons_eq in Heq as [x Heq].

Ltac small_fields :=
  unfold fields_ok, u64_max;
  repeat (apply Forall_cons; split);
  [.. | by apply Forall_nil];
  rewrite ?length_le_bytes; simpl; try lia.

Lemma generated_fields_inj g h : spec_wf g → spec_wf h →
  encode_fields (generated_fields g) = encode_fields (generated_fields h) → g = h.
Proof.
  intros (Hs&Ho&Hb) (Hs'&Ho'&Hb') Heq. apply encode_fields_inj in Heq; [|small_fields..].
  unfold generated_fields in Heq.
  peel Heq Htag; peel Heq Hg; peel Heq Hseed; peel Heq Hout; peel Heq Hbud.
  injection Hg as Hg%generator_tag_inj. apply le_bytes4_inj in Hout, Hbud; [|done..].
  destruct g, h; simpl in *; by subst.
Qed.

Lemma sealed_fields_inj g h : sealed_wf g → sealed_wf h →
  encode_fields (sealed_fields g) = encode_fields (sealed_fields h) → g = h.
Proof.
  intros (Ho&Hb&Hc) (Ho'&Hb'&Hc') Heq. apply encode_fields_inj in Heq; [|small_fields..].
  unfold sealed_fields in Heq.
  peel Heq Htag; peel Heq Hg; peel Heq Hout; peel Heq Hbud; peel Heq Hrc.
  injection Hg as Hg%generator_tag_inj. apply le_bytes4_inj in Hout, Hbud; [|done..].
  destruct g, h; simpl in *; by subst.
Qed.

Lemma prefix_fields_wf d : derived_wf d →
  ∃ a b c, prefix_commitment_fields d = (a, b, c) ∧ u64 b ∧ u64 c.
Proof.
  intros (_&_&_&_&_&_&_&Hp). unfold prefix_commitment_fields.
  destruct (prefix d) as [span|]; eexists _, _, _; (split; [reflexivity|]); [done|].
  split; unfold u64, u64_max; lia.
Qed.

Lemma derived_fields_inj d e : derived_wf d → derived_wf e →
  encode_fields (derived_fields d) = encode_fields (derived_fields e) → d = e.
Proof.
  intros Hd He. destruct (prefix_fields_wf d Hd) as (a&b&c&Ha&?&?).
  destruct (prefix_fields_wf e He) as (a'&b'&c'&Ha'&?&?).
  unfold derived_fields. rewrite Ha, Ha'.
  destruct Hd as (Hid&?&?&?&?&?&?&_), He as (Hid'&?&?&?&?&?&?&_). intros Heq.
  apply encode_fields_inj in Heq; [|small_fields..].
  peel Heq Htag; peel Heq Hm; peel Heq Ht; peel Heq Hx; peel Heq Hy; peel Heq Hw; peel Heq Hh.
  peel Heq Hbw; peel Heq Hbh; peel Heq Hpr; peel Heq Hkept; peel Heq Htot.
  apply le_bytes4_inj in Hx, Hy, Hw, Hh, Hbw, Hbh; [|done..].
  apply le_bytes8_inj in Hkept, Htot; [|done..]. injection Hpr as ->. subst b c.
  rewrite <- Ha' in Ha. clear - Hm Ht Hx Hy Hw Hh Hbw Hbh Ha.
  destruct d as [? t ? ? ? ? ? ? p], e as [? t' ? ? ? ? ? ? p']. simpl in *. subst.
  assert (t = t') as -> by (by destruct t, t'). f_equal.
  unfold prefix_commitment_fields in Ha. simpl in Ha.
  destruct p as [[]|], p' as [[]|]; simpl in Ha; congruence.
Qed.

(** Equal commitments are equal sources. *)
Lemma source_commitment_inj s1 s2 : source_wf s1 → source_wf s2 →
  collision_free (source_preimages s1 ++ source_preimages s2) →
  source_commitment_bytes s1 = source_commitment_bytes s2 → s1 = s2.
Proof.
  intros Hw1 Hw2 Hcf Heq.
  assert (∀ x y, x ∈ source_preimages s1 → y ∈ source_preimages s2 → sha256 x = sha256 y → x = y) as Hsha.
  { intros x y Hx Hy. apply Hcf; apply elem_of_app; [by left|by right]. }
  destruct s1 as [|g1|g1|p1 g1|d1], s2 as [|g2|g2|p2 g2|d2];
    cbn [source_commitment_bytes source_wf source_preimages] in *; try done;
    apply cons_eq in Heq as [Htag Heq]; try discriminate Htag.
  - f_equal. apply generated_fields_inj; [done..|]. apply Hsha; [by left..|]. exact Heq.
  - f_equal. apply sealed_fields_inj; [done..|]. apply Hsha; [by left..|]. exact Heq.
  - destruct Hw1 as [Hp1 Hw1], Hw2 as [Hp2 Hw2].
    apply app_inj_1 in Heq as [Hp Heq]; [|by rewrite !length_le_bytes].
    apply le_bytes4_inj in Hp as ->; [|done..]. f_equal.
    apply generated_fields_inj; [done..|]. apply Hsha; [by left..|]. exact Heq.
  - f_equal. apply derived_fields_inj; [done..|]. apply Hsha; [by left..|].
    unfold derivation_commitment_tag in Heq. unfold derived_fields.
    by destruct (prefix_commitment_fields d1) as [[]], (prefix_commitment_fields d2) as [[]].
Qed.

(** The preimages a manifest id hangs on. *)
Definition id_preimages (m : ContentManifest) : list bytes :=
  encode_fields [bstr "BDLM_MANIFEST_V4"; manifest_preimage (shards m) (erasure m) (encryption m)
    (Manifest.content_size m) (total_size m) (source m) (edition m) (dictionary_id m)]
  :: source_preimages (source m).

(** With one data shard, the first parity shard is the data shard. *)
Lemma mirror_parity (rs : ReedSolomon) s0 parity :
  ReedSolomon.generator rs = GfMatrix.generator_matrix (k rs) (m rs) → k rs = 1%nat →
  (k rs + m rs ≤ 255)%nat → (0 < m rs)%nat → (0 < length s0)%nat →
  encode_parity rs [s0] = Ok parity → ∃ rest, parity = s0 :: rest.
Proof.
  intros Hgen Hk Hkm Hm Hpos Hpar.
  destruct (encode_parity_spec rs [s0] (length s0)) as (par&Hpar'&Hlen&Huni&Hb);
    [done|done|by repeat constructor|done|lia|].
  rewrite Hpar in Hpar'. injection Hpar' as <-.
  destruct parity as [|p0 rest]; [simpl in Hlen; lia|]. exists rest. f_equal.
  apply Forall_cons in Huni as [Hl0 _]. apply list_eq_total; [done|]. rewrite Hl0. intros p Hp.
  specialize (Hb 0%nat p Hm Hp). simpl in Hb. rewrite Hb. unfold code_byte. rewrite Hk. simpl.
  change (gen_entry 1 1 0) with x01. rewrite gf_mul_1_l, xor_comm. apply xor_0_l.
Qed.

(** A code word whose first two shards share a content id is refused. *)
Lemma repeated_content l s1 s2 rest : l = s1 :: s2 :: rest →
  0 < size s1 ≤ u64_max → size s2 ≠ 0 → index s1 ≠ index s2 → shard_id s1 = shard_id s2 →
  check_shards true [] [] 0 l = Err RepeatedContent.
Proof.
  intros -> Hs1 Hs2 Hi Hid. simpl. rewrite (proj2 (Z.eqb_neq _ _)) by lia.
  unfold u64_checked_add. rewrite (proj2 (Z.leb_le _ _)) by lia. simpl.
  rewrite (proj2 (Z.eqb_neq _ _)) by done.
  rewrite bool_decide_false by (rewrite list_elem_of_singleton; auto).
  by rewrite bool_decide_true by (by apply list_elem_of_singleton).
Qed.

End ids.
End IdLemmas.

Module IdClaims.
Import Source IdLemmas ObjectLemmas.
Local Open Scope Z_scope.

Section claims.
Context `{Sha256}.


(** The same manifest with the recipe rewritten as a dictionary. *)
Definition as_stored_with_dictionary (m : ContentManifest) (g : GeneratedSpec) : ContentManifest :=
  mkContentManifest (manifest_id m) (owner m) (Some (generated_spec_digest g)) (total_size m)
    (shard_count m) (shards m) (erasure m) Stored (edition m) (content_size_field m) (encryption m).

(** C18: A recipe can be rewritten as stored content under the same id.  For
    every valid Classic manifest with a public recipe and no dictionary,
    rewriting the source to [Stored] and naming the recipe's digest as the
    dictionary passes validation with the id unchanged, while the replicas it
    asks for go from one to the full target. *)
Theorem source_rewritten_under_id m g full_target :
  source m = Generated g → edition m = Classic → dictionary_id m = None →
  validate_untrusted m = Ok () →
  validate_untrusted (as_stored_with_dictionary m g) = Ok () ∧
  manifest_id (as_stored_with_dictionary m g) = manifest_id m ∧
  required_replica_count (source m) full_target = 1 ∧
  required_replica_count (source (as_stored_with_dictionary m g)) full_target = full_target.
Proof.
  intros Hsrc Hed Hdict Hval. split_and!; [|done|by rewrite Hsrc|done].
  assert (derived_id (as_stored_with_dictionary m g) = derived_id m) as Hid.
  { unfold derived_id, manifest_id_from_parts, manifest_preimage, provenance_bytes. simpl.
    rewrite Hsrc, Hed, Hdict. simpl. rewrite app_nil_r. done. }
  unfold validate_untrusted, verify_id in *. rewrite Hid. simpl in *.
  rewrite Hsrc, Hed in Hval. rewrite Hed. exact Hval.
Qed.

(** Schemes with one data shard can be encoded but not registered.  The
    first parity row of such a scheme is the data shard itself, and a code
    word that repeats a content id is refused. *)
Theorem single_data_shard_refused data n o mf :
  1 < n → u32 n → (Z.of_nat (length data) ≤ u32_max)%Z →
  encode_object data (ErasureScheme.mkErasureScheme 1 n) = Ok o → to_manifest o = Ok mf →
  validate_untrusted mf = Err RepeatedContent.
Proof.
  intros Hn Hn32 Hsz Henc Hto. set (sch := ErasureScheme.mkErasureScheme 1 n) in *.
  assert (scheme_ok sch) as Hsch by (unfold scheme_ok, u32, u32_max in *; simpl; lia).
  destruct (to_manifest_ok data sch o Hsch Henc Hsz) as (mf'&Hto'&Hsh&Her&_&Hcount).
  rewrite Hto in Hto'. injection Hto' as <-.
  assert (Z.of_nat (length (shards mf)) = shard_count mf) as Hlen
    by (by rewrite Hsh, Hcount, length_fmap, length_seq).
  destruct (encode_object_inv data sch o Hsch Henc)
    as (rs&parity&Hrs&(Hgen&Hk&Hkm)&Hne&[Hst Hst2]&Hcov&Hpar&Hm&Huni&->). simpl in *.
  destruct (for_scheme_ok sch rs Hsch Hrs) as (_&Hks&Hns). simpl in Hks, Hns.
  assert (k rs = 1%nat) as Hk1 by lia. rewrite Hk1 in *.
  change (stripe_shard data (stripe_of data 1) <$> seq 0 1)
    with [stripe_shard data (stripe_of data 1) 0] in *.
  pose proof (length_stripe_shard data (stripe_of data 1) 0) as Hl0.
  destruct (mirror_parity rs (stripe_shard data (stripe_of data 1) 0) parity) as [rest ->];
    [by rewrite Hk1|done|lia|lia|lia|done|].
  generalize dependent (stripe_shard data (stripe_of data 1) 0).
  generalize dependent (stripe_of data 1). intros stripe Hst Hst2 _ s0 _ _ Hcount Hsh _ Hm _ Hl0.
  unfold validate_untrusted. rewrite Hlen, bool_decide_false by (by rewrite Hsh).
  rewrite (proj2 (Z.eqb_eq (as_u32 _) _)) by (rewrite Hcount; apply Z.mod_small; simpl in *; lia).
  rewrite Her, Hsh. simpl negb. cbn iota.
  replace (ErasureScheme.k sch <? ErasureScheme.n sch) with true by (symmetry; by apply Z.ltb_lt).
  erewrite repeated_content; [done|reflexivity|..]; simpl; try (done || lia).
  unfold u32_max, u64_max in *. lia.
Qed.

End claims.
End IdClaims.

(** ** Examples *)
Module IdExamples.
Import Source IdLemmas ObjectLemmas IdClaims.
Local Open Scope Z_scope.
#[local] Existing Instance poly_sha256.

Definition example_recipe : GeneratedSpec := mkGeneratedSpec Gradient (replicate 32 7) 48 100.

(** One shard, published with a public recipe. *)
Definition example_generated : ContentManifest :=
  with_source (match from_shards [shard_from_bytes 0 [x01; x02; x03]] with
               | Ok m => m
               | Err _ => mkContentManifest [] [] None 0 0 [] (ErasureScheme.replication 0)
                            Stored Classic 0 Plaintext
               end) (Generated example_recipe).


Lemma source_rewritten_under_id_witness :
  validate_untrusted (as_stored_with_dictionary example_generated example_recipe) = Ok () ∧
  manifest_id (as_stored_with_dictionary example_generated example_recipe) =
    manifest_id example_generated.
Proof.
  destruct (source_rewritten_under_id example_generated example_recipe 3) as (Hval&Hid&_);
    [vm_compute; reflexivity..|]. split; [exact Hval|exact Hid].
Defined.

Lemma single_data_shard_refused_witness : ∃ o mf,
  encode_object [x05; x06] (ErasureScheme.mkErasureScheme 1 3) = Ok o ∧
  to_manifest o = Ok mf ∧ validate_untrusted mf = Err RepeatedContent.
Proof.
  destruct (encode_object [x05; x06] (ErasureScheme.mkErasureScheme 1 3)) as [o|] eqn:Ho;
    [|vm_compute in Ho; discriminate Ho].
  destruct (to_manifest o) as [mf|] eqn:Hmf.
  - exists o, mf. split; [reflexivity|]. split; [exact Hmf|].
    apply (single_data_shard_refused [x05; x06] 3 o mf);
      [lia|unfold u32, u32_max; lia|unfold u32_max; simpl; lia|exact Ho|exact Hmf].
  - exfalso. vm_compute in Ho. injection Ho as <-. vm_compute in Hmf. discriminate Hmf.
Defined.

End IdExamples.
