(* ===== verification/Mempool.v ===== *)
(** * The transaction pool

    [src/src/mempool/pool.rs]: the pending transactions with their two
    indexes, by sender and nonce and by fee, and the running byte count.

    A [HashMap] or [BTreeMap] is a [gmap], a [BTreeSet] a [gset]; ordered
    iteration is [btree_list] and [btree_set].  The transaction type is an
    interface: the pool reads four fields of a transaction and calls its
    signature check and its encoded length. *)
From stdpp Require Import base tactics numbers list gmap strings sorting.
From Stdlib Require Import ZArith Lia.
From S2P Require Import Prelude.
Open Scope Z_scope.

(** What the pool relies on of a transaction.  [charged_bytes] is the length
    of its protobuf encoding, a buffer size and therefore below [2^63]. *)
Class PoolTx (T : Type) := {
  tx_from : T → bytes;
  tx_nonce : T → Z;
  tx_fee : T → Z;
  tx_hash : T → bytes;
  tx_verify : T → bool;
  charged_bytes : T → Z;
  charged_bytes_range : ∀ t, 0 ≤ charged_bytes t < 2 ^ 63;
}.

(** The elements of a [BTreeSet] in iteration order. *)
Definition key_le (x y : bytes) : Prop := bytes_leb x y = true.
#[export] Instance key_le_dec : RelDecision key_le.
Proof. intros x y. unfold key_le. apply _. Defined.
Definition btree_set (s : gset bytes) : list bytes := merge_sort key_le (elements s).

Module Mempool.

Definition DEFAULT_MAX_POOL_BYTES : Z := 256 * 1024 * 1024.

Record MempoolConfig := mkMempoolConfig {
  max_size : Z;
  max_per_sender : Z;
  min_fee : Z;
  tx_ttl_secs : Z;
  rbf_bump_percent : Z;
  max_pool_bytes : Z;
}.

Definition default_config : MempoolConfig :=
  mkMempoolConfig 20000 100 1 3600 10 DEFAULT_MAX_POOL_BYTES.

Inductive MempoolError :=
  | PoolFull
  | PoolBytesFull
  | DuplicateTransaction
  | FeeTooLow
  | SenderLimitReached
  | InvalidNonce
  | TransactionExpired
  | RbfFeeTooLow
  | InvalidTransaction.

Section pool.
Context {T : Type} `{PoolTx T}.

Record PendingTx := mkPendingTx {
  tx : T;
  added_at : Z;
  charged : Z;
}.

Record Mempool := mkMempool {
  config : MempoolConfig;
  transactions : gmap bytes PendingTx;
  by_sender : gmap bytes (gmap Z bytes);
  by_fee : gmap Z (gset bytes);
  resident_bytes : Z;
}.

Definition new (c : MempoolConfig) : Mempool := mkMempool c ∅ ∅ ∅ 0.

(** [get_mut] then [remove], dropping an entry that became empty. *)
Definition drop_sender (m : gmap bytes (gmap Z bytes)) (sender : bytes) (nonce : Z) :
    gmap bytes (gmap Z bytes) :=
  match m !! sender with
  | Some nonces =>
      let nonces := delete nonce nonces in
      if bool_decide (nonces = ∅) then delete sender m else <[sender := nonces]> m
  | None => m
  end.

Definition drop_fee (m : gmap Z (gset bytes)) (fee : Z) (hash : bytes) : gmap Z (gset bytes) :=
  match m !! fee with
  | Some hashes =>
      let hashes := hashes ∖ {[ hash ]} in
      if bool_decide (hashes = ∅) then delete fee m else <[fee := hashes]> m
  | None => m
  end.

Definition remove_transaction (p : Mempool) (hash : bytes) : option T * Mempool :=
  match transactions p !! hash with
  | Some pending =>
      (Some (tx pending),
       mkMempool (config p) (delete hash (transactions p))
         (drop_sender (by_sender p) (tx_from (tx pending)) (tx_nonce (tx pending)))
         (drop_fee (by_fee p) (tx_fee (tx pending)) hash)
         (sat_sub (resident_bytes p) (charged pending)))
  | None => (None, p)
  end.

Definition find_tx_by_sender_nonce (p : Mempool) (sender : bytes) (nonce : Z) : option bytes :=
  by_sender p !! sender ≫= λ nonces, nonces !! nonce.

(** A pooled transaction of somebody else than the sender of [new_tx]. *)
Definition of_other_sender (p : Mempool) (new_tx : T) (hash : bytes) : bool :=
  match transactions p !! hash with
  | Some entry => negb (bool_decide (tx_from (tx entry) = tx_from new_tx))
  | None => false
  end.

(** The fee levels from the cheapest on, until one that is not below the
    incoming fee. *)
Fixpoint cheaper_levels (fee : Z) (levels : list (Z * gset bytes)) : list (gset bytes) :=
  match levels with
  | [] => []
  | (f, hashes) :: levels => if fee <=? f then [] else hashes :: cheaper_levels fee levels
  end.

(** The first level with a victim gives its smallest hash: a [BTreeSet]
    iterates in order, so the minimum of the filtered iterator is its first
    element. *)
Fixpoint first_victim (p : Mempool) (new_tx : T) (levels : list (gset bytes)) : option bytes :=
  match levels with
  | [] => None
  | hashes :: levels =>
      match filter (λ h, of_other_sender p new_tx h = true) (btree_set hashes) with
      | h :: _ => Some h
      | [] => first_victim p new_tx levels
      end
  end.

Definition evict_lowest_fee (p : Mempool) (new_tx : T) : bool * Mempool :=
  match first_victim p new_tx (cheaper_levels (tx_fee new_tx) (btree_list (by_fee p))) with
  | Some hash => (true, (remove_transaction p hash).2)
  | None => (false, p)
  end.

(** The victims in order, until enough bytes are freed; with the bytes they
    free. *)
Fixpoint pick_victims (p : Mempool) (new_tx : T) (needed freed : Z) (hashes : list bytes) :
    list bytes * Z :=
  match hashes with
  | [] => ([], freed)
  | hash :: hashes =>
      match transactions p !! hash with
      | None => pick_victims p new_tx needed freed hashes
      | Some entry =>
          if bool_decide (tx_from (tx entry) = tx_from new_tx)
          then pick_victims p new_tx needed freed hashes
          else
            let freed := u64_sat_add freed (charged entry) in
            if needed <=? freed then ([hash], freed)
            else
              let '(victims, total) := pick_victims p new_tx needed freed hashes in
              (hash :: victims, total)
      end
  end.

Definition remove_all (p : Mempool) (hashes : list bytes) : Mempool :=
  foldl (λ p h, (remove_transaction p h).2) p hashes.

Definition evict_until_bytes_fit (p : Mempool) (new_tx : T) (needed : Z) : bool * Mempool :=
  let levels := cheaper_levels (tx_fee new_tx) (btree_list (by_fee p)) in
  let '(victims, freed) := pick_victims p new_tx needed 0 (levels ≫= btree_set) in
  if freed <? needed then (false, p) else (true, remove_all p victims).

(** The least fee that replaces a transaction of fee [fee]: the bump is
    rounded up, at least one, and the sum saturates. *)
Definition min_new_fee (percent fee : Z) : Z :=
  let bump := (fee * percent + 99) / 100 in
  u64_sat_add fee (Z.min (Z.max bump 1) u64_max).

(** The refusals before any eviction. *)
Definition admissible (p : Mempool) (t : T) : result MempoolError () :=
  if negb (tx_verify t) then Err InvalidTransaction
  else if bool_decide (is_Some (transactions p !! tx_hash t)) then Err DuplicateTransaction
  else if tx_fee t <? min_fee (config p) then Err FeeTooLow
  else
    match find_tx_by_sender_nonce p (tx_from t) (tx_nonce t) with
    | Some existing_hash =>
        match transactions p !! existing_hash with
        | None => Err InvalidTransaction
        | Some existing =>
            if tx_fee t <? min_new_fee (rbf_bump_percent (config p)) (tx_fee (tx existing))
            then Err RbfFeeTooLow else Ok ()
        end
    | None =>
        if max_per_sender (config p) <=?
           Z.of_nat (size (default ∅ (by_sender p !! tx_from t)))
        then Err SenderLimitReached else Ok ()
    end.

(** Index and count a transaction. *)
Definition insert_transaction (p : Mempool) (t : T) (now : Z) : Mempool :=
  mkMempool (config p)
    (<[tx_hash t := mkPendingTx t now (charged_bytes t)]> (transactions p))
    (<[tx_from t := <[tx_nonce t := tx_hash t]> (default ∅ (by_sender p !! tx_from t))]> (by_sender p))
    (<[tx_fee t := {[ tx_hash t ]} ∪ default ∅ (by_fee p !! tx_fee t)]> (by_fee p))
    (u64_sat_add (resident_bytes p) (charged_bytes t)).

(** [now] is the clock in milliseconds.  The state returned with an error is
    the state the call leaves behind. *)
Definition add_transaction (p : Mempool) (t : T) (now : Z) : result MempoolError () * Mempool :=
  let? _ := admissible p t at p in
  let existing_hash := find_tx_by_sender_nonce p (tx_from t) (tx_nonce t) in
  let '(room, p) :=
    if bool_decide (existing_hash = None) &&
       (max_size (config p) <=? Z.of_nat (size (transactions p)))
    then evict_lowest_fee p t else (true, p) in
  if negb room then (Err PoolFull, p)
  else
    let incoming := charged_bytes t in
    let freed :=
      match existing_hash ≫= λ h, transactions p !! h with
      | Some entry => charged entry
      | None => 0
      end in
    let projected := u64_sat_add (sat_sub (resident_bytes p) freed) incoming in
    let '(fits, p) :=
      if max_pool_bytes (config p) <? projected
      then evict_until_bytes_fit p t (projected - max_pool_bytes (config p)) else (true, p) in
    if negb fits then (Err PoolBytesFull, p)
    else
      let p := match existing_hash with
               | Some h => (remove_transaction p h).2
               | None => p
               end in
      (Ok (), insert_transaction p t now).

(** Highest fee first, ties by hash. *)
Definition fee_order (p : Mempool) : list T :=
  reverse (btree_list (by_fee p)) ≫= λ '(_, hashes),
    btree_set hashes ≫= λ hash,
      match transactions p !! hash with Some pending => [tx pending] | None => [] end.

Definition get_sorted_transactions (p : Mempool) (limit : nat) : list T := take limit (fee_order p).

(** The map is visited in an unspecified order; the order of removals does not
    change the pool they leave. *)
Definition cleanup_expired (p : Mempool) (now : Z) : Z * Mempool :=
  let ttl_ms := tx_ttl_secs (config p) * 1000 in
  let expired := filter (λ e, ttl_ms < sat_sub now (added_at e.2)) (map_to_list (transactions p)) in
  (Z.of_nat (length expired), remove_all p expired.*1).

Definition get (p : Mempool) (hash : bytes) : option T := tx <$> transactions p !! hash.

Definition sender_transactions (p : Mempool) (sender : bytes) : list T :=
  match by_sender p !! sender with
  | Some nonces =>
      btree_values nonces ≫= λ hash,
        match transactions p !! hash with Some pending => [tx pending] | None => [] end
  | None => []
  end.

(** The returned list is in no particular order. *)
Definition drain (p : Mempool) : list T * Mempool :=
  ((λ e : bytes * PendingTx, tx e.2) <$> map_to_list (transactions p),
   mkMempool (config p) ∅ ∅ ∅ 0).

Definition set_min_fee (p : Mempool) (fee : Z) : Mempool :=
  let c := config p in
  mkMempool (mkMempoolConfig (max_size c) (max_per_sender c) fee (tx_ttl_secs c)
      (rbf_bump_percent c) (max_pool_bytes c))
    (transactions p) (by_sender p) (by_fee p) (resident_bytes p).

(** ** The operations as steps *)
Inductive PoolOp :=
  | OpAdd (t : T) (now : Z)
  | OpRemove (hash : bytes)
  | OpCleanup (now : Z)
  | OpDrain
  | OpSetMinFee (fee : Z).

Definition apply_op (p : Mempool) (op : PoolOp) : Mempool :=
  match op with
  | OpAdd t now => (add_transaction p t now).2
  | OpRemove hash => (remove_transaction p hash).2
  | OpCleanup now => (cleanup_expired p now).2
  | OpDrain => (drain p).2
  | OpSetMinFee fee => set_min_fee p fee
  end.

Definition run (p : Mempool) (ops : list PoolOp) : Mempool := foldl apply_op p ops.

End pool.
#[global] Arguments PendingTx : clear implicits.
#[global] Arguments Mempool : clear implicits.
#[global] Arguments PoolOp : clear implicits.
End Mempool.
