(* ===== verification/MempoolProps.v ===== *)
(** * Properties of the transaction pool

    The indexes and the byte counter agree with the pooled transactions and
    stay within the configured bounds in every reachable pool, block building
    reads the pool in fee order, and admission evicts only cheaper
    transactions of other senders. *)
From stdpp Require Import base tactics numbers list gmap strings sorting.
From Stdlib Require Import ZArith Lia.
From S2P Require Import Prelude Mempool.
Import Mempool.Mempool.
Open Scope Z_scope.

Module PoolLemmas.

(** What every step of a loop keeps holds after it. *)
Lemma foldl_inv {A B} (P : A → Prop) (f : A → B → A) (l : list B) (a : A) :
  P a → (∀ a x, P a → P (f a x)) → P (foldl f a l).
Proof. intros Ha Hf. revert a Ha. induction l as [|x l IH]; intros a Ha; [done|]. apply IH, Hf, Ha. Qed.

(** ** Order of hashes *)
Lemma bytes_leb_refl x : bytes_leb x x = true.
Proof. induction x as [|a x IH]; [done|]. simpl. by rewrite Z.eqb_refl. Qed.

Lemma bytes_leb_total x : ∀ y, bytes_leb x y = true ∨ bytes_leb y x = true.
Proof.
  induction x as [|a x IH]; intros [|b y]; simpl; [by left..|by right|].
  rewrite (Z.eqb_sym b a). destruct (Z.eqb_spec a b); [apply IH|].
  destruct (Z.ltb_spec a b); [by left|right]. by apply Z.ltb_lt; lia.
Qed.

Lemma bytes_leb_antisym x : ∀ y, bytes_leb x y = true → bytes_leb y x = true → x = y.
Proof.
  induction x as [|a x IH]; intros [|b y]; simpl; try done.
  rewrite (Z.eqb_sym b a). destruct (Z.eqb_spec a b) as [->|Hne].
  - intros. f_equal. by apply IH.
  - intros ?%Z.ltb_lt ?%Z.ltb_lt. lia.
Qed.

Lemma bytes_leb_trans x : ∀ y z, bytes_leb x y = true → bytes_leb y z = true → bytes_leb x z = true.
Proof.
  induction x as [|a x IH]; intros [|b y] [|c z]; simpl; try done.
  destruct (Z.eqb_spec a b), (Z.eqb_spec b c), (Z.eqb_spec a c); subst; try done; try lia.
  apply IH.
Qed.

#[export] Instance key_le_total : Total key_le.
Proof. intros x y. apply bytes_leb_total. Qed.
#[export] Instance key_le_trans : Transitive key_le.
Proof. intros x y z. apply bytes_leb_trans. Qed.

Lemma elem_of_btree_set s h : h ∈ btree_set s ↔ h ∈ s.
Proof. unfold btree_set. by rewrite merge_sort_Permutation, elem_of_elements. Qed.

Lemma btree_set_nodup s : NoDup (btree_set s).
Proof. unfold btree_set. rewrite merge_sort_Permutation. apply NoDup_elements. Qed.

(** ** The index of senders *)
Definition sender_at (m : gmap bytes (gmap Z bytes)) (a : bytes) (n : Z) : option bytes :=
  m !! a ≫= λ nonces, nonces !! n.

Lemma drop_sender_at m a n a' n' :
  sender_at (drop_sender m a n) a' n' =
  if decide (a' = a ∧ n' = n) then None else sender_at m a' n'.
Proof.
  unfold sender_at, drop_sender. destruct (m !! a) as [nonces|] eqn:Hm.
  2:{ case_decide as Hd; [|done]. destruct Hd as [-> ->]. by rewrite Hm. }
  case_bool_decide as Hempty.
  - destruct (decide (a' = a)) as [->|Hne].
    + rewrite lookup_delete_eq, Hm. simpl. case_decide as Hd; [done|].
      destruct (decide (n' = n)); [naive_solver|].
      by rewrite <- (lookup_delete_ne nonces n n'), Hempty, lookup_empty by done.
    + rewrite lookup_delete_ne, decide_False by naive_solver. done.
  - destruct (decide (a' = a)) as [->|Hne].
    + rewrite lookup_insert_eq, Hm. simpl. destruct (decide (n' = n)) as [->|].
      * by rewrite lookup_delete_eq, decide_True.
      * rewrite lookup_delete_ne, decide_False by naive_solver. done.
    + rewrite lookup_insert_ne, decide_False by naive_solver. done.
Qed.

Definition no_empty_sender (m : gmap bytes (gmap Z bytes)) : Prop :=
  ∀ a nonces, m !! a = Some nonces → nonces ≠ ∅.

Lemma drop_sender_no_empty m a n : no_empty_sender m → no_empty_sender (drop_sender m a n).
Proof.
  unfold drop_sender. intros Hm. destruct (m !! a) as [nonces|] eqn:Ha; [|done].
  case_bool_decide; intros a' nn Hl.
  - apply lookup_delete_Some in Hl as [_ Hl]. by eapply Hm.
  - apply lookup_insert_Some in Hl as [[_ <-]|[_ Hl]]; [done|]. by eapply Hm.
Qed.

(** ** The index of fees *)
Definition at_fee (m : gmap Z (gset bytes)) (f : Z) : gset bytes := default ∅ (m !! f).

Lemma drop_fee_at m f h f' h' :
  h' ∈ at_fee (drop_fee m f h) f' ↔ h' ∈ at_fee m f' ∧ ¬ (f' = f ∧ h' = h).
Proof.
  unfold at_fee, drop_fee. destruct (m !! f) as [s|] eqn:Hm.
  2:{ destruct (decide (f' = f)) as [->|]; [rewrite Hm; simpl; set_solver|naive_solver]. }
  case_bool_decide as Hempty.
  - destruct (decide (f' = f)) as [->|Hne].
    + rewrite lookup_delete_eq, Hm. simpl. set_solver.
    + rewrite lookup_delete_ne by done. naive_solver.
  - destruct (decide (f' = f)) as [->|Hne].
    + rewrite lookup_insert_eq, Hm. simpl. set_solver.
    + rewrite lookup_insert_ne by done. naive_solver.
Qed.

Definition no_empty_fee (m : gmap Z (gset bytes)) : Prop := ∀ f s, m !! f = Some s → s ≠ ∅.

Lemma drop_fee_no_empty m f h : no_empty_fee m → no_empty_fee (drop_fee m f h).
Proof.
  unfold drop_fee. intros Hm. destruct (m !! f) as [s|] eqn:Hf; [|done].
  case_bool_decide; intros f' s' Hl.
  - apply lookup_delete_Some in Hl as [_ Hl]. by eapply Hm.
  - apply lookup_insert_Some in Hl as [[_ <-]|[_ Hl]]; [done|]. by eapply Hm.
Qed.

(** ** The invariant *)
Section pool.
Context {T : Type} `{PoolTx T}.
Implicit Types (p : Mempool T) (t : T) (h : bytes).

(** The two indexes and the counter describe the pooled transactions. *)
Record index_ok p : Prop := {
  ok_entry : ∀ h e, transactions p !! h = Some e →
    tx_hash (tx e) = h ∧ charged e = charged_bytes (tx e);
  ok_sender : ∀ a n h, sender_at (by_sender p) a n = Some h ↔
    ∃ e, transactions p !! h = Some e ∧ tx_from (tx e) = a ∧ tx_nonce (tx e) = n;
  ok_sender_ne : no_empty_sender (by_sender p);
  ok_fee : ∀ f h, h ∈ at_fee (by_fee p) f ↔
    ∃ e, transactions p !! h = Some e ∧ tx_fee (tx e) = f;
  ok_fee_ne : no_empty_fee (by_fee p);
  ok_bytes : resident_bytes p = map_sum charged (transactions p);
}.

(** The configured bounds. *)
Record within_bounds p : Prop := {
  bound_size : Z.of_nat (size (transactions p)) ≤ max_size (config p);
  bound_sender : ∀ a nonces, by_sender p !! a = Some nonces →
    Z.of_nat (size nonces) ≤ max_per_sender (config p);
  bound_bytes : resident_bytes p ≤ max_pool_bytes (config p);
}.

Lemma new_index_ok c : index_ok (new c).
Proof.
  split; simpl.
  - intros h e Hh. by rewrite lookup_empty in Hh.
  - intros a n h. unfold sender_at. rewrite lookup_empty. simpl. split; [done|].
    intros (e&He&_). by rewrite lookup_empty in He.
  - intros a nonces Ha. by rewrite lookup_empty in Ha.
  - intros f h. unfold at_fee. rewrite lookup_empty. simpl. split; [set_solver|].
    intros (e&He&_). by rewrite lookup_empty in He.
  - intros f s Hs. by rewrite lookup_empty in Hs.
  - by rewrite map_sum_empty.
Qed.

Lemma charged_nonneg p h e : index_ok p → transactions p !! h = Some e → 0 ≤ charged e.
Proof.
  intros Hok He. destruct (ok_entry p Hok h e He) as [_ ->].
  pose proof (charged_bytes_range (tx e)). lia.
Qed.

Lemma resident_nonneg p : index_ok p → 0 ≤ resident_bytes p.
Proof.
  intros Hok. rewrite (ok_bytes p Hok). apply map_sum_nonneg. intros h e He.
  by eapply charged_nonneg.
Qed.

(** One entry is at most the whole. *)
Lemma charged_le_resident p h e :
  index_ok p → transactions p !! h = Some e → charged e ≤ resident_bytes p.
Proof.
  intros Hok He. rewrite (ok_bytes p Hok).
  pose proof (map_sum_delete charged (transactions p) h e He) as Hd.
  assert (0 ≤ map_sum charged (delete h (transactions p))); [|lia].
  apply map_sum_nonneg. intros h' e' [_ He']%lookup_delete_Some. by eapply charged_nonneg.
Qed.

Lemma remove_some p h e : transactions p !! h = Some e →
  (remove_transaction p h).2 =
  mkMempool (config p) (delete h (transactions p))
    (drop_sender (by_sender p) (tx_from (tx e)) (tx_nonce (tx e)))
    (drop_fee (by_fee p) (tx_fee (tx e)) h) (sat_sub (resident_bytes p) (charged e)).
Proof. intros He. unfold remove_transaction. by rewrite He. Qed.

Lemma remove_none p h : transactions p !! h = None → (remove_transaction p h).2 = p.
Proof. intros He. unfold remove_transaction. by rewrite He. Qed.

Lemma remove_index_ok p h : index_ok p → index_ok (remove_transaction p h).2.
Proof.
  intros Hok. destruct (transactions p !! h) as [e|] eqn:He; [|by rewrite remove_none].
  rewrite (remove_some p h e He). destruct (ok_entry p Hok h e He) as [Hh _].
  split; simpl.
  - intros h' e' [_ He']%lookup_delete_Some. by apply (ok_entry p Hok).
  - intros a n h'. rewrite drop_sender_at. case_decide as Hd.
    + destruct Hd as [-> ->]. split; [done|]. intros (e'&[Hne He']%lookup_delete_Some&Ha&Hn).
      assert (sender_at (by_sender p) (tx_from (tx e)) (tx_nonce (tx e)) = Some h) as H1
        by (apply (ok_sender p Hok); eauto).
      assert (sender_at (by_sender p) (tx_from (tx e)) (tx_nonce (tx e)) = Some h') as H2
        by (apply (ok_sender p Hok); eauto). congruence.
    + rewrite (ok_sender p Hok). split; intros (e'&He'&Ha&Hn); exists e'; split_and!; try done.
      * apply lookup_delete_Some. split; [|done]. intros ->. naive_solver.
      * by apply lookup_delete_Some in He' as [_ He'].
  - apply drop_sender_no_empty, (ok_sender_ne p Hok).
  - intros f h'. rewrite drop_fee_at, (ok_fee p Hok). split.
    + intros [(e'&He'&Hf) Hne]. exists e'. split; [|done].
      apply lookup_delete_Some. split; [|done]. intros ->. naive_solver.
    + intros (e'&[Hne He']%lookup_delete_Some&Hf). split; [eauto|]. by intros [_ ->].
  - apply drop_fee_no_empty, (ok_fee_ne p Hok).
  - pose proof (map_sum_delete charged _ h e He) as Hd. rewrite <- (ok_bytes p Hok) in Hd.
    rewrite sat_sub_small by (by eapply charged_le_resident). lia.
Qed.

(** What removing does to the numbers. *)
Lemma remove_numbers p h e : index_ok p → transactions p !! h = Some e →
  resident_bytes (remove_transaction p h).2 = resident_bytes p - charged e ∧
  (size (transactions (remove_transaction p h).2) = size (transactions p) - 1)%nat.
Proof.
  intros Hok He. rewrite (remove_some p h e He). simpl. split.
  - apply sat_sub_small. by eapply charged_le_resident.
  - rewrite map_size_delete, He. lia.
Qed.

Lemma remove_transactions p h :
  transactions (remove_transaction p h).2 = delete h (transactions p).
Proof.
  destruct (transactions p !! h) as [e|] eqn:He; [by rewrite (remove_some p h e He)|].
  rewrite remove_none by done. by rewrite delete_id.
Qed.

Lemma remove_config p h : config (remove_transaction p h).2 = config p.
Proof. unfold remove_transaction. by destruct (transactions p !! h). Qed.

Lemma drop_sender_size m a n a' nonces :
  drop_sender m a n !! a' = Some nonces →
  ∃ nonces', m !! a' = Some nonces' ∧ (size nonces ≤ size nonces')%nat.
Proof.
  unfold drop_sender. destruct (m !! a) as [nn|] eqn:Ha; [|eauto].
  case_bool_decide.
  - intros [_ Hl]%lookup_delete_Some. eauto.
  - intros [[<- <-]|[_ Hl]]%lookup_insert_Some; [|eauto]. exists nn. split; [done|].
    rewrite map_size_delete. destruct (nn !! n); simpl; lia.
Qed.

Lemma remove_bounds p h : index_ok p → within_bounds p → within_bounds (remove_transaction p h).2.
Proof.
  intros Hok [Hs Ha Hb]. destruct (transactions p !! h) as [e|] eqn:He; [|by rewrite remove_none].
  pose proof (remove_numbers p h e Hok He) as [Hr Hsz]. pose proof (charged_nonneg p h e Hok He).
  split; rewrite ?remove_config; [lia| |lia].
  rewrite (remove_some p h e He). simpl. intros a nonces Hl.
  apply drop_sender_size in Hl as (nn&Hnn&Hle). specialize (Ha a nn Hnn). lia.
Qed.

(** ** Insertion *)

(** Nothing pooled has the hash, or the sender and nonce, of [t]. *)
Definition fresh p t : Prop :=
  transactions p !! tx_hash t = None ∧ sender_at (by_sender p) (tx_from t) (tx_nonce t) = None.

Lemma insert_index_ok p t now : index_ok p → fresh p t →
  resident_bytes p + charged_bytes t ≤ u64_max → index_ok (insert_transaction p t now).
Proof.
  intros Hok [Hnew Hslot] Hsum. split; simpl.
  - intros h e [[<- <-]|[_ He]]%lookup_insert_Some; [done|]. by apply (ok_entry p Hok).
  - intros a n h. unfold sender_at in *. destruct (decide (a = tx_from t)) as [->|Hna].
    + rewrite lookup_insert_eq. simpl. destruct (decide (n = tx_nonce t)) as [->|Hnn].
      * rewrite lookup_insert_eq. split.
        -- intros [= <-]. eexists. rewrite lookup_insert_eq. done.
        -- intros (e&[[<- <-]|[Hne He]]%lookup_insert_Some&Ha&Hn); [done|exfalso].
           assert (sender_at (by_sender p) (tx_from t) (tx_nonce t) = Some h) as Hs
             by (apply (ok_sender p Hok); eauto).
           unfold sender_at in Hs. by rewrite Hslot in Hs.
      * rewrite lookup_insert_ne by done.
        transitivity (sender_at (by_sender p) (tx_from t) n = Some h).
        { unfold sender_at. by destruct (by_sender p !! tx_from t); simpl; rewrite ?lookup_empty. }
        rewrite (ok_sender p Hok). split; intros (e&He&Ha&Hn); exists e; split_and!; try done.
        -- rewrite lookup_insert_ne; [done|]. intros <-. by rewrite Hnew in He.
        -- apply lookup_insert_Some in He as [[<- <-]|[_ He]]; [|done]. naive_solver.
    + rewrite lookup_insert_ne by done. fold (sender_at (by_sender p) a n).
      rewrite (ok_sender p Hok). split; intros (e&He&Ha&Hn); exists e; split_and!; try done.
      * rewrite lookup_insert_ne; [done|]. intros <-. by rewrite Hnew in He.
      * apply lookup_insert_Some in He as [[<- <-]|[_ He]]; [|done]. simpl in *. naive_solver.
  - intros a nonces [[<- <-]|[_ Ha]]%lookup_insert_Some; [apply insert_non_empty|].
    by eapply (ok_sender_ne p Hok).
  - intros f h. unfold at_fee. destruct (decide (f = tx_fee t)) as [->|Hnf].
    + rewrite lookup_insert_eq. simpl. fold (at_fee (by_fee p) (tx_fee t)).
      rewrite elem_of_union, elem_of_singleton, (ok_fee p Hok). split.
      * intros [->|(e&He&Hf)]; [eexists; by rewrite lookup_insert_eq|]. exists e. split; [|done].
        rewrite lookup_insert_ne; [done|]. intros <-. by rewrite Hnew in He.
      * intros (e&[[<- <-]|[_ He]]%lookup_insert_Some&Hf); [by left|right; eauto].
    + rewrite lookup_insert_ne by done. fold (at_fee (by_fee p) f). rewrite (ok_fee p Hok).
      split; intros (e&He&Hf); exists e; (split; [|done]).
      * rewrite lookup_insert_ne; [done|]. intros <-. by rewrite Hnew in He.
      * apply lookup_insert_Some in He as [[<- <-]|[_ He]]; [|done]. simpl in *. naive_solver.
  - intros f s [[<- <-]|[_ Hs]]%lookup_insert_Some; [set_solver|]. by eapply (ok_fee_ne p Hok).
  - rewrite map_sum_insert_new by done. simpl. rewrite <- (ok_bytes p Hok).
    rewrite u64_sat_add_small by done. lia.
Qed.

Lemma insert_bounds p t now :
  within_bounds p → Z.of_nat (size (transactions p)) < max_size (config p) →
  Z.of_nat (size (default ∅ (by_sender p !! tx_from t))) < max_per_sender (config p) →
  resident_bytes p + charged_bytes t ≤ max_pool_bytes (config p) →
  within_bounds (insert_transaction p t now).
Proof.
  intros [Hs Ha Hb] Hsize Hsender Hbytes. split; simpl.
  - rewrite map_size_insert. destruct (transactions p !! tx_hash t); simpl; lia.
  - intros a nonces [[<- <-]|[_ Hl]]%lookup_insert_Some; [|by apply Ha with a].
    rewrite map_size_insert. destruct (default ∅ _ !! _); simpl; lia.
  - unfold u64_sat_add. lia.
Qed.

(** ** Removing several *)
Lemma remove_all_cons p h hs : remove_all p (h :: hs) = remove_all (remove_transaction p h).2 hs.
Proof. done. Qed.

Lemma remove_all_index_ok p hs : index_ok p → index_ok (remove_all p hs).
Proof.
  revert p. induction hs as [|h hs IH]; intros p Hok; [done|].
  rewrite remove_all_cons. by apply IH, remove_index_ok.
Qed.

Lemma remove_all_bounds p hs : index_ok p → within_bounds p → within_bounds (remove_all p hs).
Proof.
  revert p. induction hs as [|h hs IH]; intros p Hok Hb; [done|].
  rewrite remove_all_cons. apply IH; [by apply remove_index_ok|by apply remove_bounds].
Qed.

Lemma remove_all_config p hs : config (remove_all p hs) = config p.
Proof.
  revert p. induction hs as [|h hs IH]; intros p; [done|].
  by rewrite remove_all_cons, IH, remove_config.
Qed.

Lemma remove_all_lookup p hs h :
  transactions (remove_all p hs) !! h = if decide (h ∈ hs) then None else transactions p !! h.
Proof.
  revert p. induction hs as [|h' hs IH]; intros p.
  { by rewrite decide_False by apply not_elem_of_nil. }
  rewrite remove_all_cons, IH, remove_transactions.
  destruct (decide (h ∈ hs)) as [Hin|Hin]; [by rewrite decide_True by (by right)|].
  destruct (decide (h = h')) as [->|Hne].
  - by rewrite lookup_delete_eq, decide_True by (by left).
  - rewrite lookup_delete_ne by done. rewrite decide_False; [done|]. by intros [|]%elem_of_cons.
Qed.

(** [p'] is [p] with some transactions removed. *)
Definition sender_load p a : nat := size (default ∅ (by_sender p !! a)).

Record shrinks p p' : Prop := {
  sh_config : config p' = config p;
  sh_index : index_ok p';
  sh_bounds : within_bounds p';
  sh_sub : ∀ h e, transactions p' !! h = Some e → transactions p !! h = Some e;
  sh_size : (size (transactions p') ≤ size (transactions p))%nat;
  sh_load : ∀ a, (sender_load p' a ≤ sender_load p a)%nat;
}.

Lemma shrinks_refl p : index_ok p → within_bounds p → shrinks p p.
Proof. intros. by split. Qed.

Lemma pool_shrinks_trans p1 p2 p3 : shrinks p1 p2 → shrinks p2 p3 → shrinks p1 p3.
Proof.
  intros [Hc1 _ _ Hs1 Hn1 Hl1] [Hc2 Hi2 Hb2 Hs2 Hn2 Hl2]. split; try done.
  - congruence.
  - auto.
  - lia.
  - intros a. specialize (Hl1 a). specialize (Hl2 a). lia.
Qed.

Lemma remove_shrinks p h : index_ok p → within_bounds p → shrinks p (remove_transaction p h).2.
Proof.
  intros Hok Hb. split.
  - apply remove_config.
  - by apply remove_index_ok.
  - by apply remove_bounds.
  - intros h' e'. rewrite remove_transactions. by intros [_ ?]%lookup_delete_Some.
  - rewrite remove_transactions, map_size_delete. destruct (transactions p !! h); simpl; lia.
  - intros a. unfold sender_load.
    destruct (transactions p !! h) as [e|] eqn:He; [|by rewrite remove_none].
    rewrite (remove_some p h e He). simpl.
    destruct (drop_sender _ _ _ !! a) as [nonces|] eqn:Hd; [|simpl; rewrite map_size_empty; lia].
    apply drop_sender_size in Hd as (nn&->&Hle). done.
Qed.

Lemma remove_all_shrinks p hs : index_ok p → within_bounds p → shrinks p (remove_all p hs).
Proof.
  revert p. induction hs as [|h hs IH]; intros p Hok Hb; [by apply shrinks_refl|].
  rewrite remove_all_cons. eapply pool_shrinks_trans; [by apply remove_shrinks|].
  apply IH; [by apply remove_index_ok|by apply remove_bounds].
Qed.

(** A removal keeps the slot of a sender free, or frees it. *)
Lemma shrinks_fresh p p' t : index_ok p → shrinks p p' →
  transactions p !! tx_hash t = None →
  (∀ h, sender_at (by_sender p) (tx_from t) (tx_nonce t) = Some h → transactions p' !! h = None) →
  fresh p' t.
Proof.
  intros Hok Hsh Hnew Hslot. split.
  - destruct (transactions p' !! tx_hash t) as [e|] eqn:He; [|done].
    apply (sh_sub p p' Hsh) in He. by rewrite Hnew in He.
  - destruct (sender_at (by_sender p') _ _) as [h|] eqn:Hs; [|done]. exfalso.
    apply (ok_sender p' (sh_index p p' Hsh)) in Hs as (e&He&Ha&Hn).
    rewrite Hslot in He; [done|]. apply (ok_sender p Hok). exists e. split; [|done].
    by apply (sh_sub p p' Hsh).
Qed.

(** ** Eviction *)

(** Cheaper than [t] and of another sender. *)
Definition evictable p t h : Prop :=
  ∃ e, transactions p !! h = Some e ∧ tx_fee (tx e) < tx_fee t ∧ tx_from (tx e) ≠ tx_from t.

Lemma cheaper_levels_sound fee levels s :
  s ∈ cheaper_levels fee levels → ∃ f, (f, s) ∈ levels ∧ f < fee.
Proof.
  induction levels as [|[f hashes] levels IH]; simpl; [by intros []%not_elem_of_nil|].
  destruct (Z.leb_spec fee f); [by intros []%not_elem_of_nil|].
  intros [->|Hin]%elem_of_cons.
  - exists f. split; [by left|done].
  - destruct (IH Hin) as (f'&Hf'&Hlt). exists f'. split; [by right|done].
Qed.

Lemma level_evictable p t s h : index_ok p →
  s ∈ cheaper_levels (tx_fee t) (btree_list (by_fee p)) → h ∈ s →
  of_other_sender p t h = true → evictable p t h.
Proof.
  intros Hok (f&Hf&Hlt)%cheaper_levels_sound Hh Hother.
  apply elem_of_btree_list in Hf.
  assert (h ∈ at_fee (by_fee p) f) as Hat by (unfold at_fee; by rewrite Hf).
  apply (ok_fee p Hok) in Hat as (e&He&Hfe). exists e. split_and!; [done|lia|].
  unfold of_other_sender in Hother. rewrite He in Hother. by case_bool_decide.
Qed.

Lemma first_victim_evictable p t levels h : index_ok p →
  (∀ s, s ∈ levels → s ∈ cheaper_levels (tx_fee t) (btree_list (by_fee p))) →
  first_victim p t levels = Some h → evictable p t h.
Proof.
  intros Hok. induction levels as [|s levels IH]; intros Hsub; simpl; [done|].
  destruct (filter _ (btree_set s)) as [|v vs] eqn:Hf.
  - apply IH. intros s' Hs'. apply Hsub. by right.
  - intros [= ->]. assert (h ∈ filter (λ h, of_other_sender p t h = true) (btree_set s)) as Hin
      by (rewrite Hf; by left).
    apply list_elem_of_filter in Hin as [Ho Hs]. apply elem_of_btree_set in Hs.
    eapply level_evictable; [done| |done|done]. apply Hsub. by left.
Qed.

Lemma evict_lowest_fee_spec p t b p' : index_ok p → within_bounds p →
  evict_lowest_fee p t = (b, p') →
  if b then ∃ h, evictable p t h ∧ p' = (remove_transaction p h).2 else p' = p.
Proof.
  intros Hok Hb. unfold evict_lowest_fee.
  destruct (first_victim _ _ _) as [h|] eqn:Hv; intros [= <- <-]; [|done].
  exists h. split; [|done]. by eapply first_victim_evictable.
Qed.

Definition charged_of p h : Z :=
  match transactions p !! h with Some e => charged e | None => 0 end.

Lemma pick_victims_spec p t needed hashes : ∀ freed victims total,
  NoDup hashes → pick_victims p t needed freed hashes = (victims, total) →
  NoDup victims ∧ total ≤ freed + sumZ (charged_of p <$> victims) ∧
  ∀ h, h ∈ victims → h ∈ hashes ∧ of_other_sender p t h = true.
Proof.
  induction hashes as [|h hashes IH]; intros freed victims total Hnd; simpl.
  { intros [= <- <-]. split_and!; [constructor|unfold sumZ; simpl; lia|by intros h []%not_elem_of_nil]. }
  apply NoDup_cons in Hnd as [Hh Hnd].
  destruct (transactions p !! h) as [e|] eqn:He.
  2:{ intros Hp. destruct (IH _ _ _ Hnd Hp) as (?&?&Hv). split_and!; try done.
      intros v Hin. destruct (Hv v Hin). split; [by right|done]. }
  case_bool_decide as Hfrom.
  { intros Hp. destruct (IH _ _ _ Hnd Hp) as (?&?&Hv). split_and!; try done.
    intros v Hin. destruct (Hv v Hin). split; [by right|done]. }
  assert (of_other_sender p t h = true) as Hoth.
  { unfold of_other_sender. rewrite He. by rewrite bool_decide_false. }
  assert (charged_of p h = charged e) as Hce by (unfold charged_of; by rewrite He).
  case_match.
  - intros [= <- <-]. split_and!.
    + by apply NoDup_singleton.
    + rewrite fmap_cons, sumZ_cons, Hce. unfold sumZ, u64_sat_add. simpl. lia.
    + intros v ->%list_elem_of_singleton. split; [by left|done].
  - destruct (pick_victims _ _ _ _ hashes) as [vs tot] eqn:Hp. intros [= <- <-].
    destruct (IH _ _ _ Hnd Hp) as (Hvnd&Htot&Hv). split_and!.
    + apply NoDup_cons. split; [|done]. intros Hin. by destruct (Hv h Hin).
    + rewrite fmap_cons, sumZ_cons, Hce. unfold u64_sat_add in Htot. lia.
    + intros v [->|Hin]%elem_of_cons; [split; [by left|done]|].
      destruct (Hv v Hin). split; [by right|done].
Qed.

(** The flattened levels list every hash once. *)
Lemma levels_nodup fee levels :
  NoDup levels.*1 → (∀ f1 s1 f2 s2 h, (f1, s1) ∈ levels → (f2, s2) ∈ levels → h ∈ s1 → h ∈ s2 → f1 = f2) →
  NoDup (cheaper_levels fee levels ≫= btree_set).
Proof.
  induction levels as [|[f s] levels IH]; intros Hnd Hdis; simpl; [constructor|].
  destruct (fee <=? f); [constructor|]. simpl in Hnd. apply NoDup_cons in Hnd as [Hf Hnd].
  apply NoDup_app. split_and!; [apply btree_set_nodup| |].
  - intros h Hh%elem_of_btree_set (s'&Hh'&(f'&Hf'&_)%cheaper_levels_sound)%list_elem_of_bind.
    apply elem_of_btree_set in Hh'. apply Hf.
    rewrite (Hdis f s f' s' h); [|by left|by right|done|done].
    change f' with (f', s').1. by apply list_elem_of_fmap_2.
  - apply IH; [done|]. intros f1 s1 f2 s2 h H1 H2. apply (Hdis f1 s1 f2 s2 h); by right.
Qed.

Lemma level_disjoint p f1 s1 f2 s2 h : index_ok p →
  (f1, s1) ∈ btree_list (by_fee p) → (f2, s2) ∈ btree_list (by_fee p) → h ∈ s1 → h ∈ s2 → f1 = f2.
Proof.
  intros Hok H1%elem_of_btree_list H2%elem_of_btree_list Hh1 Hh2.
  assert (h ∈ at_fee (by_fee p) f1) as Ha1 by (unfold at_fee; by rewrite H1).
  assert (h ∈ at_fee (by_fee p) f2) as Ha2 by (unfold at_fee; by rewrite H2).
  apply (ok_fee p Hok) in Ha1 as (e1&He1&<-), Ha2 as (e2&He2&<-). congruence.
Qed.

Lemma pool_levels_nodup p t : index_ok p →
  NoDup (cheaper_levels (tx_fee t) (btree_list (by_fee p)) ≫= btree_set).
Proof.
  intros Hok. apply levels_nodup; [apply btree_list_nodup_keys|].
  intros. by eapply level_disjoint.
Qed.

Lemma remove_all_bytes p hs : index_ok p → NoDup hs → (∀ h, h ∈ hs → is_Some (transactions p !! h)) →
  resident_bytes (remove_all p hs) = resident_bytes p - sumZ (charged_of p <$> hs).
Proof.
  revert p. induction hs as [|h hs IH]; intros p Hok Hnd Hin; [unfold sumZ; simpl; lia|].
  apply NoDup_cons in Hnd as [Hh Hnd]. destruct (Hin h ltac:(by left)) as [e He].
  rewrite remove_all_cons, fmap_cons, sumZ_cons, IH; [|by apply remove_index_ok|done|].
  - destruct (remove_numbers p h e Hok He) as [-> _].
    assert (charged_of (remove_transaction p h).2 <$> hs = charged_of p <$> hs) as ->.
    { apply list_fmap_ext. intros i h' Hh'. unfold charged_of. rewrite remove_transactions.
      rewrite lookup_delete_ne; [done|]. intros ->. by apply Hh, (list_elem_of_lookup_2 _ i). }
    unfold charged_of at 2. rewrite He. lia.
  - intros h' Hh'. rewrite remove_transactions, lookup_delete_ne; [apply Hin; by right|].
    intros ->. done.
Qed.

(** Enough bytes are freed, by removing evictable transactions only. *)
Lemma evict_until_bytes_fit_spec p t needed b p' : index_ok p → within_bounds p →
  evict_until_bytes_fit p t needed = (b, p') →
  if b then ∃ victims, (∀ h, h ∈ victims → evictable p t h) ∧ p' = remove_all p victims ∧
    resident_bytes p' ≤ resident_bytes p - needed
  else p' = p.
Proof.
  intros Hok Hb. unfold evict_until_bytes_fit.
  destruct (pick_victims _ _ _ _ _) as [victims freed] eqn:Hp.
  destruct (Z.ltb_spec freed needed) as [|Hle]; intros [= <- <-]; [done|].
  apply pick_victims_spec in Hp as (Hnd&Hsum&Hv); [|by apply pool_levels_nodup].
  assert (∀ h, h ∈ victims → evictable p t h) as Hev.
  { intros h Hh. destruct (Hv h Hh) as [(s&Hs&Hl)%list_elem_of_bind Ho].
    apply elem_of_btree_set in Hs. by eapply level_evictable. }
  exists victims. split_and!; [done..|].
  rewrite remove_all_bytes; [lia|done|done|]. intros h (e&He&_)%Hev. by exists e.
Qed.

(** ** Admission *)
Definition config_ok (c : MempoolConfig) : Prop := 0 ≤ max_pool_bytes c ≤ 2 ^ 63.

Definition slot_of p t : option bytes := find_tx_by_sender_nonce p (tx_from t) (tx_nonce t).

Lemma admissible_spec p t : admissible p t = Ok () →
  tx_verify t = true ∧ transactions p !! tx_hash t = None ∧ min_fee (config p) ≤ tx_fee t ∧
  match slot_of p t with
  | Some h => ∃ e, transactions p !! h = Some e ∧
      min_new_fee (rbf_bump_percent (config p)) (tx_fee (tx e)) ≤ tx_fee t
  | None => Z.of_nat (sender_load p (tx_from t)) < max_per_sender (config p)
  end.
Proof.
  unfold admissible, slot_of, sender_load. destruct (tx_verify t); [|done]. simpl.
  case_bool_decide as Hdup; [done|]. destruct (Z.ltb_spec (tx_fee t) (min_fee (config p))); [done|].
  intros Hadm. split_and!; [done|by apply eq_None_not_Some|done|].
  destruct (find_tx_by_sender_nonce p _ _) as [h|].
  - destruct (transactions p !! h) as [e|]; [|done]. exists e. split; [done|].
    by destruct (Z.ltb_spec (tx_fee t) (min_new_fee (rbf_bump_percent (config p)) (tx_fee (tx e)))).
  - by destruct (Z.leb_spec (max_per_sender (config p))
      (Z.of_nat (size (default ∅ (by_sender p !! tx_from t))))).
Qed.

(** The count check of [add_transaction]. *)
Definition make_room p t : bool * Mempool T :=
  if bool_decide (slot_of p t = None) && (max_size (config p) <=? Z.of_nat (size (transactions p)))
  then evict_lowest_fee p t else (true, p).

(** The byte check of [add_transaction]. *)
Definition make_bytes (slot : option bytes) p t : bool * Mempool T :=
  let freed := match slot ≫= λ h, transactions p !! h with Some e => charged e | None => 0 end in
  let projected := u64_sat_add (sat_sub (resident_bytes p) freed) (charged_bytes t) in
  if max_pool_bytes (config p) <? projected
  then evict_until_bytes_fit p t (projected - max_pool_bytes (config p)) else (true, p).

Lemma add_transaction_eq p t now :
  add_transaction p t now =
  match admissible p t with
  | Err e => (Err e, p)
  | Ok _ =>
      let '(room, p1) := make_room p t in
      if negb room then (Err PoolFull, p1)
      else
        let '(fits, p2) := make_bytes (slot_of p t) p1 t in
        if negb fits then (Err PoolBytesFull, p2)
        else (Ok (), insert_transaction
                (match slot_of p t with Some h => (remove_transaction p2 h).2 | None => p2 end) t now)
  end.
Proof. done. Qed.

Lemma make_room_spec p t b p1 : index_ok p → within_bounds p → make_room p t = (b, p1) →
  if b then ∃ victims, (∀ h, h ∈ victims → evictable p t h) ∧ p1 = remove_all p victims ∧
    (slot_of p t = None → Z.of_nat (size (transactions p1)) < max_size (config p)) ∧
    (victims = [] ∨ max_size (config p) ≤ Z.of_nat (size (transactions p)))
  else p1 = p.
Proof.
  intros Hok Hb. unfold make_room.
  destruct (decide (slot_of p t = None)) as [Hslot|Hslot].
  2:{ rewrite bool_decide_false by done. intros [= <- <-]. exists []. split_and!; [|done|done|by left].
      by intros h []%not_elem_of_nil. }
  rewrite bool_decide_true by done. simpl.
  destruct (Z.leb_spec (max_size (config p)) (Z.of_nat (size (transactions p)))) as [Hfull|Hroom].
  2:{ intros [= <- <-]. exists [].
      split_and!; [by intros h []%not_elem_of_nil|done|done|by left]. }
  intros Hev. pose proof (evict_lowest_fee_spec p t b p1 Hok Hb Hev) as Hs.
  destruct b; [|done]. destruct Hs as (h&Hh&->). exists [h]. split_and!; [|done| |by right].
  - by intros h' ->%list_elem_of_singleton.
  - intros _. destruct Hh as (e&He&_). destruct (remove_numbers p h e Hok He) as [_ ->].
    pose proof (bound_size p Hb).
    assert (size (transactions p) ≠ 0%nat) by (intros Hz%map_size_empty_inv; by rewrite Hz, lookup_empty in He).
    lia.
Qed.

Lemma evictable_sub p p' t h : shrinks p p' → evictable p' t h → evictable p t h.
Proof. intros Hsh (e&He&Hev). exists e. split; [|done]. by apply (sh_sub p p' Hsh). Qed.

Lemma make_bytes_spec slot p t b p2 : index_ok p → within_bounds p → config_ok (config p) →
  make_bytes slot p t = (b, p2) →
  if b then ∃ victims, (∀ h, h ∈ victims → evictable p t h) ∧ p2 = remove_all p victims ∧
    resident_bytes p2 - match slot ≫= λ h, transactions p !! h with Some e => charged e | None => 0 end
      + charged_bytes t ≤ max_pool_bytes (config p)
  else p2 = p.
Proof.
  intros Hok Hb [Hc0 Hc]. unfold make_bytes.
  set (freed := match slot ≫= _ with Some e => _ | None => _ end).
  assert (0 ≤ freed ≤ resident_bytes p) as Hfreed.
  { unfold freed. destruct (slot ≫= _) as [e|] eqn:He.
    - destruct slot as [h|]; [|done]. simpl in He.
      split; [by eapply charged_nonneg|by eapply charged_le_resident].
    - pose proof (resident_nonneg p Hok). lia. }
  pose proof (bound_bytes p Hb) as Hbb. pose proof (charged_bytes_range t) as Hct.
  rewrite sat_sub_small by lia. rewrite u64_sat_add_small by (unfold u64_max; lia).
  destruct (Z.ltb_spec (max_pool_bytes (config p)) (resident_bytes p - freed + charged_bytes t)) as [Hover|Hfit].
  - intros Hev. pose proof (evict_until_bytes_fit_spec p t _ b p2 Hok Hb Hev) as Hs.
    destruct b; [|done]. destruct Hs as (victims&Hv&->&Hle). exists victims. split_and!; [done..|lia].
  - intros [= <- <-]. exists []. split_and!; [by intros h []%not_elem_of_nil|done|simpl; lia].
Qed.

Lemma remove_all_app p hs ks : remove_all p (hs ++ ks) = remove_all (remove_all p hs) ks.
Proof. unfold remove_all. by rewrite foldl_app. Qed.

(** A removed entry frees its slot in the sender's map. *)
Lemma drop_sender_load m a n nonces h :
  m !! a = Some nonces → nonces !! n = Some h →
  (size (default ∅ (drop_sender m a n !! a)) < size nonces)%nat.
Proof.
  intros Ha Hn. assert (size nonces ≠ 0%nat).
  { intros Hz%map_size_empty_inv. by rewrite Hz, lookup_empty in Hn. }
  unfold drop_sender. rewrite Ha. case_bool_decide.
  - rewrite lookup_delete_eq. simpl. rewrite map_size_empty. lia.
  - rewrite lookup_insert_eq. simpl. rewrite map_size_delete, Hn. lia.
Qed.

(** The occupied slot of [t]'s sender and nonce is no victim. *)
Lemma slot_survives p t victims h e : index_ok p → (∀ h, h ∈ victims → evictable p t h) →
  slot_of p t = Some h → transactions p !! h = Some e →
  transactions (remove_all p victims) !! h = Some e.
Proof.
  intros Hok Hv Hslot He. rewrite remove_all_lookup, decide_False; [done|].
  intros (e'&He'&_&Hfrom)%Hv. apply (ok_sender p Hok) in Hslot as (e''&He''&Ha&_). congruence.
Qed.

(** The pool after the evictions and the replacement has room for [t]. *)
Lemma admit_room p t victims p2 : index_ok p → within_bounds p →
  admissible p t = Ok () → (∀ h, h ∈ victims → evictable p t h) → p2 = remove_all p victims →
  (slot_of p t = None → Z.of_nat (size (transactions p2)) < max_size (config p)) →
  let p3 := match slot_of p t with Some h => (remove_transaction p2 h).2 | None => p2 end in
  shrinks p p3 ∧ fresh p3 t ∧ Z.of_nat (size (transactions p3)) < max_size (config p) ∧
  Z.of_nat (sender_load p3 (tx_from t)) < max_per_sender (config p).
Proof.
  intros Hok Hb Hadm Hv -> Hroom p3.
  destruct (admissible_spec p t Hadm) as (_&Hnew&_&Hslot).
  pose proof (remove_all_shrinks p victims Hok Hb) as Hsh.
  unfold p3 in *. clear p3. destruct (slot_of p t) as [h|] eqn:Hs.
  - destruct Hslot as (e&He&_). pose proof (slot_survives p t victims h e Hok Hv Hs He) as He2.
    set (p2 := remove_all p victims) in *.
    pose proof (remove_shrinks p2 h (sh_index _ _ Hsh) (sh_bounds _ _ Hsh)) as Hsh2.
    pose proof (remove_numbers p2 h e (sh_index _ _ Hsh) He2) as [_ Hsize].
    pose proof (bound_size p2 (sh_bounds _ _ Hsh)) as Hsz2. rewrite (sh_config _ _ Hsh) in Hsz2.
    assert (size (transactions p2) ≠ 0%nat)
      by (intros Hz%map_size_empty_inv; by rewrite Hz, lookup_empty in He2).
    split_and!; [by eapply pool_shrinks_trans| |lia|].
    + apply (shrinks_fresh p); [done|by eapply pool_shrinks_trans|done|].
      intros h' Hh'. unfold slot_of, find_tx_by_sender_nonce in Hs. unfold sender_at in Hh'.
      rewrite Hs in Hh'. injection Hh' as <-. rewrite remove_transactions. apply lookup_delete_eq.
    + pose proof (ok_entry p2 (sh_index _ _ Hsh) h e He2) as _.
      apply (ok_sender p Hok) in Hs as (e'&He'&Ha&Hn). rewrite He in He'. injection He' as <-.
      assert (sender_at (by_sender p2) (tx_from t) (tx_nonce t) = Some h) as Hat2
        by (apply (ok_sender p2 (sh_index _ _ Hsh)); eauto).
      unfold sender_at in Hat2. destruct (by_sender p2 !! tx_from t) as [nonces|] eqn:Hnn; [|done].
      pose proof (bound_sender p2 (sh_bounds _ _ Hsh) _ _ Hnn) as Hbs.
      rewrite (sh_config _ _ Hsh) in Hbs.
      unfold sender_load. rewrite (remove_some p2 h e He2). simpl. rewrite Ha, Hn.
      pose proof (drop_sender_load (by_sender p2) (tx_from t) (tx_nonce t) nonces h Hnn Hat2). lia.
  - split_and!; [done| |by apply Hroom|].
    + apply (shrinks_fresh p); [done..|]. intros h' Hh'. unfold slot_of, find_tx_by_sender_nonce in Hs.
      unfold sender_at in Hh'. by rewrite Hs in Hh'.
    + pose proof (sh_load _ _ Hsh (tx_from t)). lia.
Qed.

(** The bytes left once the replaced transaction is gone. *)
Lemma replacement_bytes p p1 p2 t v1 v2 :
  index_ok p → index_ok p2 → admissible p t = Ok () →
  (∀ h, h ∈ v1 → evictable p t h) → (∀ h, h ∈ v1 ++ v2 → evictable p t h) →
  p1 = remove_all p v1 → p2 = remove_all p (v1 ++ v2) →
  resident_bytes p2 - match slot_of p t ≫= λ h, transactions p1 !! h with
                      | Some e => charged e | None => 0 end
    + charged_bytes t ≤ max_pool_bytes (config p) →
  resident_bytes (match slot_of p t with Some h => (remove_transaction p2 h).2 | None => p2 end)
    + charged_bytes t ≤ max_pool_bytes (config p).
Proof.
  intros Hok Hok2 Hadm Hv1 Hv Hp1 Hp2. destruct (admissible_spec p t Hadm) as (_&_&_&Hslot).
  destruct (slot_of p t) as [h|] eqn:Hs; simpl; [|lia]. destruct Hslot as (e&He&_).
  rewrite Hp1, (slot_survives p t v1 h e Hok Hv1 Hs He).
  pose proof (slot_survives p t (v1 ++ v2) h e Hok Hv Hs He) as He2. rewrite <- Hp2 in He2.
  destruct (remove_numbers p2 h e Hok2 He2) as [-> _]. lia.
Qed.

(** What a call to [add_transaction] leaves behind. *)
Lemma add_transaction_spec p t now r p' : index_ok p → within_bounds p → config_ok (config p) →
  add_transaction p t now = (r, p') →
  index_ok p' ∧ within_bounds p' ∧ config p' = config p ∧
  ∃ victims, (∀ h, h ∈ victims → evictable p t h) ∧
  match r with
  | Ok _ => admissible p t = Ok () ∧ ∀ h, transactions p' !! h =
      if decide (h = tx_hash t) then Some (mkPendingTx t now (charged_bytes t))
      else if decide (h ∈ victims ∨ slot_of p t = Some h) then None else transactions p !! h
  | Err e => p' = remove_all p victims ∧
      (victims = [] ∨ e = PoolBytesFull ∧ max_size (config p) ≤ Z.of_nat (size (transactions p)))
  end.
Proof.
  intros Hok Hb Hc. rewrite add_transaction_eq.
  destruct (admissible p t) as [[]|e] eqn:Hadm.
  2:{ intros [= <- <-]. split_and!; try done. exists []. split; [by intros h []%not_elem_of_nil|auto]. }
  destruct (make_room p t) as [room p1] eqn:Hroom.
  pose proof (make_room_spec p t room p1 Hok Hb Hroom) as Hr. destruct room; simpl.
  2:{ subst p1. intros [= <- <-]. split_and!; try done. exists [].
      split; [by intros h []%not_elem_of_nil|auto]. }
  destruct Hr as (v1&Hv1&Hp1&Hsize1&Hfull).
  pose proof (remove_all_shrinks p v1 Hok Hb) as Hsh1. rewrite <- Hp1 in Hsh1.
  destruct (make_bytes (slot_of p t) p1 t) as [fits p2] eqn:Hbytes.
  pose proof (make_bytes_spec (slot_of p t) p1 t fits p2 (sh_index _ _ Hsh1) (sh_bounds _ _ Hsh1)
    ltac:(by rewrite (sh_config _ _ Hsh1)) Hbytes) as Hf. destruct fits; simpl.
  2:{ subst p2. intros [= <- <-]. split_and!; try by destruct Hsh1. exists v1.
      split_and!; [done..|]. destruct Hfull; auto. }
  destruct Hf as (v2&Hv2&Hp2&Hfit).
  assert (∀ h, h ∈ v1 ++ v2 → evictable p t h) as Hv.
  { intros h [Hh|Hh]%elem_of_app; [by apply Hv1|]. eapply evictable_sub; [done|by apply Hv2]. }
  assert (p2 = remove_all p (v1 ++ v2)) as Hp2' by (by rewrite remove_all_app, <- Hp1).
  pose proof (remove_all_shrinks p1 v2 (sh_index _ _ Hsh1) (sh_bounds _ _ Hsh1)) as Hsh2.
  rewrite <- Hp2 in Hsh2.
  destruct (admit_room p t (v1 ++ v2) p2 Hok Hb Hadm Hv Hp2') as (Hsh3&Hfresh&Hsz&Hld).
  { intros Hs. specialize (Hsize1 Hs). pose proof (sh_size _ _ Hsh2). lia. }
  set (p3 := match slot_of p t with Some h => (remove_transaction p2 h).2 | None => p2 end) in *.
  intros [= <- <-].
  assert (resident_bytes p3 + charged_bytes t ≤ max_pool_bytes (config p)) as Hb3.
  { rewrite (sh_config _ _ Hsh1) in Hfit.
    apply (replacement_bytes p p1 p2 t v1 v2); try done. apply Hsh2. }
  pose proof (charged_bytes_range t). destruct Hc as [Hc0 Hc].
  split_and!.
  - apply insert_index_ok; [apply Hsh3|done|]. unfold u64_max. lia.
  - apply insert_bounds; [apply Hsh3|rewrite (sh_config _ _ Hsh3)..]; done.
  - apply (sh_config _ _ Hsh3).
  - exists (v1 ++ v2). split_and!; [done|done|]. intros h. simpl. case_decide as Hh.
    + subst h. apply lookup_insert_eq.
    + rewrite lookup_insert_ne by done. unfold p3.
      destruct (slot_of p t) as [h0|] eqn:Hs.
      * rewrite remove_transactions, Hp2'. destruct (decide (h = h0)) as [->|Hne].
        -- rewrite lookup_delete_eq, decide_True by auto. done.
        -- rewrite lookup_delete_ne, remove_all_lookup by done.
           repeat case_decide; naive_solver.
      * rewrite Hp2', remove_all_lookup. repeat case_decide; naive_solver.
Qed.

(** ** Reading in fee order *)

(** Higher fee first, then smaller hash. *)
Definition block_before t u : Prop :=
  tx_fee u < tx_fee t ∨ (tx_fee t = tx_fee u ∧ key_le (tx_hash t) (tx_hash u) ∧ tx_hash t ≠ tx_hash u).

Definition pool_tx p h : list T :=
  match transactions p !! h with Some pending => [tx pending] | None => [] end.

(** The pooled transactions, in no particular order. *)
Definition pooled p : list T := (λ e : bytes * PendingTx T, tx e.2) <$> map_to_list (transactions p).

Definition fee_hashes (levels : list (Z * gset bytes)) : list bytes :=
  reverse levels ≫= λ e, btree_set e.2.

Lemma fee_hashes_cons e levels : fee_hashes (e :: levels) = fee_hashes levels ++ btree_set e.2.
Proof. unfold fee_hashes. rewrite reverse_cons, bind_app. simpl. by rewrite app_nil_r. Qed.

Lemma fee_order_hashes p : fee_order p = fee_hashes (btree_list (by_fee p)) ≫= pool_tx p.
Proof.
  unfold fee_order, fee_hashes. induction (reverse (btree_list (by_fee p))) as [|[f s] l IH]; [done|].
  rewrite !bind_cons, bind_app, IH. done.
Qed.

Lemma elem_of_fee_hashes levels h : h ∈ fee_hashes levels ↔ ∃ f s, (f, s) ∈ levels ∧ h ∈ s.
Proof.
  unfold fee_hashes. rewrite list_elem_of_bind. split.
  - intros ([f s]&Hh&Hin). exists f, s. rewrite elem_of_reverse in Hin.
    by rewrite elem_of_btree_set in Hh.
  - intros (f&s&Hin&Hh). exists (f, s). by rewrite elem_of_btree_set, elem_of_reverse.
Qed.

Lemma elem_of_pool_hashes p h : index_ok p →
  h ∈ fee_hashes (btree_list (by_fee p)) ↔ is_Some (transactions p !! h).
Proof.
  intros Hok. rewrite elem_of_fee_hashes. split.
  - intros (f&s&Hf%elem_of_btree_list&Hh).
    assert (h ∈ at_fee (by_fee p) f) as Hat by (unfold at_fee; by rewrite Hf).
    apply (ok_fee p Hok) in Hat as (e&He&_). eauto.
  - intros [e He].
    assert (h ∈ at_fee (by_fee p) (tx_fee (tx e))) as Hat by (apply (ok_fee p Hok); eauto).
    unfold at_fee in Hat. destruct (by_fee p !! tx_fee (tx e)) as [s|] eqn:Hs; [|set_solver].
    exists (tx_fee (tx e)), s. by rewrite elem_of_btree_list.
Qed.

Lemma fee_hashes_nodup p : index_ok p → NoDup (fee_hashes (btree_list (by_fee p))).
Proof.
  intros Hok. pose proof (btree_list_nodup_keys (by_fee p)) as Hnd.
  assert (∀ f1 s1 f2 s2 h, (f1, s1) ∈ btree_list (by_fee p) → (f2, s2) ∈ btree_list (by_fee p) →
    h ∈ s1 → h ∈ s2 → f1 = f2) as Hdis by (intros; by eapply level_disjoint).
  revert Hnd Hdis. induction (btree_list (by_fee p)) as [|[f s] levels IH]; intros Hnd Hdis; [constructor|].
  rewrite fee_hashes_cons. rewrite fmap_cons in Hnd. apply NoDup_cons in Hnd as [Hf Hnd].
  apply NoDup_app. split_and!; [|..|apply btree_set_nodup].
  - apply IH; [done|]. intros f1 s1 f2 s2 h H1 H2. apply (Hdis f1 s1 f2 s2 h); by right.
  - intros h (f'&s'&Hin&Hh)%elem_of_fee_hashes Hs%elem_of_btree_set. apply Hf. simpl.
    rewrite (Hdis f s f' s' h); [|by left|by right|done|done].
    change f' with (f', s').1. by apply list_elem_of_fmap_2.
Qed.

Lemma fee_order_perm p : index_ok p → fee_order p ≡ₚ pooled p.
Proof.
  intros Hok. rewrite fee_order_hashes.
  assert (fee_hashes (btree_list (by_fee p)) ≡ₚ (map_to_list (transactions p)).*1) as ->.
  { apply NoDup_Permutation; [by apply fee_hashes_nodup|apply NoDup_fst_map_to_list|].
    intros h. rewrite elem_of_pool_hashes, list_elem_of_fmap by done. split.
    - intros [e He]. exists (h, e). by rewrite elem_of_map_to_list.
    - intros ([h' e]&->&He%elem_of_map_to_list). by exists e. }
  unfold pooled. assert (∀ l : list (bytes * PendingTx T),
    (∀ h e, (h, e) ∈ l → transactions p !! h = Some e) →
    l.*1 ≫= pool_tx p = (λ e : bytes * PendingTx T, tx e.2) <$> l) as Hl.
  { induction l as [|[h e] l IH]; intros Hin; [done|]. rewrite fmap_cons, bind_cons, IH.
    - unfold pool_tx at 1. simpl. by rewrite (Hin h e) by (by left).
    - intros h' e' Hin'. apply Hin. by right. }
  rewrite Hl; [done|]. intros h e. by rewrite elem_of_map_to_list.
Qed.

Lemma elem_of_pool_txs p l t : t ∈ l ≫= pool_tx p →
  ∃ h e, h ∈ l ∧ transactions p !! h = Some e ∧ t = tx e.
Proof.
  intros (h&Ht&Hh)%list_elem_of_bind. unfold pool_tx in Ht.
  destruct (transactions p !! h) as [e|] eqn:He; [|by apply not_elem_of_nil in Ht].
  apply list_elem_of_singleton in Ht as ->. eauto.
Qed.

(** Within a level the order is that of the hashes. *)
Lemma level_sorted p f l : index_ok p → StronglySorted key_le l → NoDup l →
  (∀ h e, h ∈ l → transactions p !! h = Some e → tx_fee (tx e) = f) →
  StronglySorted block_before (l ≫= pool_tx p).
Proof.
  intros Hok. induction 1 as [|h l Hss IH Hall]; intros Hnd Hf; [constructor|].
  apply NoDup_cons in Hnd as [Hh Hnd]. rewrite bind_cons. apply StronglySorted_app_2.
  - intros t u Ht (h'&e'&Hin&He'&->)%elem_of_pool_txs. unfold pool_tx in Ht.
    destruct (transactions p !! h) as [e|] eqn:He; [|by apply not_elem_of_nil in Ht].
    apply list_elem_of_singleton in Ht as ->. right.
    destruct (ok_entry p Hok h e He) as [-> _]. destruct (ok_entry p Hok h' e' He') as [-> _].
    split_and!.
    + rewrite (Hf h e), (Hf h' e'); [done|by right|done|by left|done].
    + rewrite List.Forall_forall in Hall. by apply Hall, list_elem_of_In.
    + intros ->. done.
  - unfold pool_tx. destruct (transactions p !! h); repeat constructor.
  - apply IH; [done|]. intros h' e' Hin. apply Hf. by right.
Qed.

#[local] Instance fee_entry_total : Total (@entry_le Z (gset bytes) _).
Proof. intros x y. unfold entry_le, key_leb, Z_key_ord. rewrite !Z.leb_le. lia. Qed.
#[local] Instance fee_entry_trans : Transitive (@entry_le Z (gset bytes) _).
Proof. intros x y z. unfold entry_le, key_leb, Z_key_ord. rewrite !Z.leb_le. lia. Qed.

Lemma fee_order_sorted p : index_ok p → StronglySorted block_before (fee_order p).
Proof.
  intros Hok. rewrite fee_order_hashes.
  assert (StronglySorted entry_le (btree_list (by_fee p))) as Hss
    by (apply StronglySorted_merge_sort; apply _).
  assert (∀ f s h e, (f, s) ∈ btree_list (by_fee p) → h ∈ s → transactions p !! h = Some e →
    tx_fee (tx e) = f) as Hfee.
  { intros f s h e Hin%elem_of_btree_list Hh He.
    assert (h ∈ at_fee (by_fee p) f) as Hat by (unfold at_fee; by rewrite Hin).
    apply (ok_fee p Hok) in Hat as (e'&He'&<-). congruence. }
  pose proof (btree_list_nodup_keys (by_fee p)) as Hnd. revert Hnd Hfee.
  induction Hss as [|[f s] levels Hss IH Hall]; intros Hnd Hfee; [constructor|].
  rewrite fmap_cons in Hnd. apply NoDup_cons in Hnd as [Hf Hnd].
  rewrite fee_hashes_cons, bind_app. apply StronglySorted_app_2.
  - intros t u (h&e&Hh&He&->)%elem_of_pool_txs (h'&e'&Hh'&He'&->)%elem_of_pool_txs. left.
    apply elem_of_fee_hashes in Hh as (f1&s1&Hin&Hh1). simpl in Hh'. apply elem_of_btree_set in Hh'.
    rewrite (Hfee f1 s1 h e), (Hfee f s h' e'); [|by left|done|done|by right|done|done].
    rewrite List.Forall_forall in Hall. apply list_elem_of_In in Hin as Hin'.
    specialize (Hall _ Hin'). unfold entry_le, key_leb, Z_key_ord in Hall. simpl in Hall.
    apply Z.leb_le in Hall. assert (f ≠ f1); [|lia]. intros ->. apply Hf. simpl.
    change f1 with (f1, s1).1. by apply list_elem_of_fmap_2.
  - apply IH; [done|]. intros f1 s1 h e Hin. apply Hfee. by right.
  - simpl. apply (level_sorted p f); [done|apply StronglySorted_merge_sort; apply _|apply btree_set_nodup|].
    intros h e Hh%elem_of_btree_set. apply (Hfee f s); [by left|done].
Qed.

End pool.
End PoolLemmas.

(** ** Claims *)
Module PoolClaims.
Import PoolLemmas.

Section claims.
Context {T : Type} `{PoolTx T}.
Implicit Types (p : Mempool T) (t : T).

Lemma set_min_fee_ok p f : index_ok p → within_bounds p →
  index_ok (set_min_fee p f) ∧ within_bounds (set_min_fee p f).
Proof. intros [] []. split; by split. Qed.

Lemma drain_ok p : 0 ≤ max_size (config p) → config_ok (config p) →
  index_ok (drain p).2 ∧ within_bounds (drain p).2.
Proof.
  intros Hs [Hc _]. split; [apply (new_index_ok (config p))|]. split; simpl; [|done|done].
  by rewrite map_size_empty.
Qed.

(** The bounds of the configuration, which only its fee floor leaves. *)
Definition same_bounds (c c' : MempoolConfig) : Prop :=
  max_size c' = max_size c ∧ max_per_sender c' = max_per_sender c ∧
  max_pool_bytes c' = max_pool_bytes c.

Lemma apply_op_ok p op : index_ok p → within_bounds p → config_ok (config p) →
  0 ≤ max_size (config p) →
  index_ok (apply_op p op) ∧ within_bounds (apply_op p op) ∧
  same_bounds (config p) (config (apply_op p op)).
Proof.
  intros Hok Hb Hc Hs. destruct op as [t now|h|now| |f]; simpl.
  - destruct (add_transaction p t now) as [r p'] eqn:Hadd.
    destruct (add_transaction_spec p t now r p' Hok Hb Hc Hadd) as (?&?&Hcfg&_).
    simpl. rewrite Hcfg. done.
  - rewrite remove_config. split_and!; [by apply remove_index_ok|by apply remove_bounds|done].
  - rewrite remove_all_config. split_and!; [by apply remove_all_index_ok|by apply remove_all_bounds|done].
  - by destruct (drain_ok p Hs Hc).
  - by destruct (set_min_fee_ok p f Hok Hb).
Qed.

Lemma reachable_ok c (ops : list (PoolOp T)) : config_ok c → 0 ≤ max_size c →
  index_ok (run (new c) ops) ∧ within_bounds (run (new c) ops) ∧
  same_bounds c (config (run (new c) ops)).
Proof.
  intros Hc Hs. unfold run.
  apply (foldl_inv (λ p, index_ok p ∧ within_bounds p ∧ same_bounds c (config p))).
  - split_and!; [apply new_index_ok| |done]. split; simpl; [by rewrite map_size_empty|done|apply Hc].
  - intros q op (Hok&Hb&Hs1&Hs2&Hs3). destruct (apply_op_ok q op) as (?&?&?&?&?); try done.
    + unfold config_ok. by rewrite Hs3.
    + by rewrite Hs1.
    + split_and!; try done; unfold same_bounds; split_and!; congruence.
Qed.

(** C16: Every reachable pool is consistent and bounded.  After any sequence of
    admissions, removals, expiries, drains and fee changes on a new pool, both
    indexes list exactly the pooled transactions, no sender has two
    transactions with one nonce, the byte counter is the sum of the pooled
    encodings, and the pool is within its entry, per-sender and byte limits. *)
Theorem mempool_invariant c (ops : list (PoolOp T)) :
  config_ok c → 0 ≤ max_size c →
  let p := run (new c) ops in
  index_ok p ∧ Z.of_nat (size (transactions p)) ≤ max_size c ∧
  (∀ a, Z.of_nat (sender_load p a) ≤ Z.max 0 (max_per_sender c)) ∧
  resident_bytes p ≤ max_pool_bytes c.
Proof.
  intros Hc Hs p. destruct (reachable_ok c ops Hc Hs) as (Hok&[Hsz Ha Hb]&Hc1&Hc2&Hc3).
  fold p in Hok, Hsz, Ha, Hb, Hc1, Hc2, Hc3.
  split_and!; [done|by rewrite <- Hc1| |by rewrite <- Hc3].
  intros a. unfold sender_load. destruct (by_sender p !! a) as [nonces|] eqn:Hn; simpl.
  - specialize (Ha a nonces Hn). lia.
  - rewrite map_size_empty. lia.
Qed.

(** Block building reads the pool in canonical order.  On a consistent
    pool the selection is the first [limit] transactions of one list: all the
    pooled transactions, highest fee first and equal fees by hash, so two
    nodes with the same pool select the same sequence. *)
Theorem mempool_selection p limit : index_ok p →
  ∃ l, l ≡ₚ pooled p ∧ StronglySorted block_before l ∧ get_sorted_transactions p limit = take limit l.
Proof.
  intros Hok. exists (fee_order p). split_and!; [by apply fee_order_perm|by apply fee_order_sorted|done].
Qed.

(** C17: What an admission changes.  On a consistent pool, an accepted
    transaction is pooled, the one it replaces is gone, and besides that the
    pool loses only transactions with a strictly lower fee of other senders;
    a refusal leaves the pool as it was, except for a refusal by bytes of a
    pool that was full by count. *)
Theorem mempool_admission p t now r p' :
  index_ok p → within_bounds p → config_ok (config p) → add_transaction p t now = (r, p') →
  ∃ victims, (∀ h, h ∈ victims → evictable p t h) ∧
  match r with
  | Ok _ => tx_verify t = true ∧ min_fee (config p) ≤ tx_fee t ∧
      ∀ h, transactions p' !! h =
        if decide (h = tx_hash t) then Some (mkPendingTx t now (charged_bytes t))
        else if decide (h ∈ victims ∨ slot_of p t = Some h) then None else transactions p !! h
  | Err e => p' = remove_all p victims ∧
      (victims = [] ∨ e = PoolBytesFull ∧ max_size (config p) ≤ Z.of_nat (size (transactions p)))
  end.
Proof.
  intros Hok Hb Hc Hadd.
  destruct (add_transaction_spec p t now r p' Hok Hb Hc Hadd) as (_&_&_&victims&Hv&Hr).
  exists victims. split; [done|]. destruct r as [[]|e]; [|done]. destruct Hr as [Hadm Hl].
  destruct (admissible_spec p t Hadm) as (?&_&?&_). done.
Qed.

(** A refused transaction deletes somebody else's.  Whenever a pool that is
    full by count refuses a new transaction for its bytes, the call has
    already deleted a cheaper transaction of another sender. *)
Theorem refusal_deletes p t now p' :
  index_ok p → within_bounds p → config_ok (config p) →
  slot_of p t = None → max_size (config p) ≤ Z.of_nat (size (transactions p)) →
  add_transaction p t now = (Err PoolBytesFull, p') →
  ∃ h, evictable p t h ∧ transactions p' = delete h (transactions p) ∧ p' ≠ p.
Proof.
  intros Hok Hb Hc Hslot Hfull. rewrite add_transaction_eq.
  destruct (admissible p t) as [[]|e] eqn:Hadm.
  2:{ intros [= ->]. unfold admissible in Hadm. repeat case_match; congruence. }
  destruct (make_room p t) as [room p1] eqn:Hroom.
  pose proof (make_room_spec p t room p1 Hok Hb Hroom) as Hr. destruct room; [|done]. simpl.
  destruct Hr as (v1&Hv1&Hp1&_&_).
  assert (∃ h, evictable p t h ∧ p1 = (remove_transaction p h).2) as (h&Hh&->).
  { unfold make_room in Hroom. rewrite Hslot, bool_decide_true in Hroom by done.
    rewrite (proj2 (Z.leb_le _ _) Hfull) in Hroom. simpl in Hroom.
    by apply (evict_lowest_fee_spec p t true p1 Hok Hb). }
  pose proof (remove_shrinks p h Hok Hb) as Hsh.
  destruct (make_bytes _ _ t) as [fits p2] eqn:Hbytes.
  pose proof (make_bytes_spec _ _ t fits p2 (sh_index _ _ Hsh) (sh_bounds _ _ Hsh)
    ltac:(by rewrite (sh_config _ _ Hsh)) Hbytes) as Hf.
  destruct fits; [done|]. simpl. intros [= <-]. subst p2. exists h.
  split_and!; [done|apply remove_transactions|]. intros Heq.
  destruct Hh as (e&He&_). apply (f_equal transactions) in Heq.
  rewrite remove_transactions in Heq. rewrite <- Heq, lookup_delete_eq in He. done.
Qed.

(** The fee a replacement must reach: above the old fee, except at the top of
    the range, where the sum saturates and the same fee is enough. *)
Lemma rbf_fee_floor percent fee : 0 ≤ percent → u64 fee →
  (fee < u64_max → fee < min_new_fee percent fee) ∧ min_new_fee percent u64_max = u64_max.
Proof.
  intros Hp Hf. unfold min_new_fee, u64_sat_add, u64, u64_max in *. split; [lia|].
  assert (0 ≤ (18446744073709551615 * percent + 99) / 100) by (apply Z.div_pos; lia). lia.
Qed.

End claims.
End PoolClaims.

(** ** An example: one entry, ten bytes *)
Module PoolExamples.
Import PoolLemmas PoolClaims.

Record DemoTx := mkDemoTx { d_from : Z; d_nonce : Z; d_fee : Z; d_hash : Z; d_bytes : Z }.

#[export, refine] Instance demo_tx : PoolTx DemoTx := {|
  tx_from t := [d_from t];
  tx_nonce := d_nonce;
  tx_fee := d_fee;
  tx_hash t := [d_hash t];
  tx_verify t := true;
  charged_bytes t := Z.max 0 (Z.min (d_bytes t) 1000);
|}.
Proof. intros t. simpl. lia. Defined.

Definition demo_config : MempoolConfig := mkMempoolConfig 2 2 1 3600 10 100.

Definition demo_ops : list (PoolOp DemoTx) :=
  [OpAdd (mkDemoTx 1 0 5 11 20) 0; OpAdd (mkDemoTx 2 0 7 12 20) 0; OpAdd (mkDemoTx 3 0 9 13 30) 0].

Lemma demo_config_ok : config_ok demo_config ∧ 0 ≤ max_size demo_config.
Proof. unfold config_ok. simpl. lia. Qed.

Lemma mempool_invariant_witness :
  Z.of_nat (size (transactions (run (new demo_config) demo_ops))) ≤ 2 ∧
  resident_bytes (run (new demo_config) demo_ops) ≤ 100.
Proof.
  destruct (mempool_invariant demo_config demo_ops) as (_&Hs&_&Hb);
    [exact (proj1 demo_config_ok)|exact (proj2 demo_config_ok)|].
  split; [exact Hs|exact Hb].
Defined.

Lemma demo_ok : index_ok (run (new demo_config) demo_ops) ∧
  within_bounds (run (new demo_config) demo_ops) ∧
  same_bounds demo_config (config (run (new demo_config) demo_ops)).
Proof. apply reachable_ok; apply demo_config_ok. Qed.

(** The cheapest transaction was evicted; the other two come out by fee. *)
Lemma mempool_selection_witness :
  d_hash <$> get_sorted_transactions (run (new demo_config) demo_ops) 1 = [13] ∧
  ∃ l, l ≡ₚ pooled (run (new demo_config) demo_ops) ∧ StronglySorted block_before l.
Proof.
  split; [vm_compute; reflexivity|].
  destruct (mempool_selection (run (new demo_config) demo_ops) 1) as (l&Hl&Hs&_);
    [exact (proj1 demo_ok)|]. exists l. split; [exact Hl|exact Hs].
Defined.

Lemma mempool_admission_witness : ∃ p' (victims : list bytes),
  add_transaction (run (new demo_config) demo_ops) (mkDemoTx 4 0 8 14 10) 0 = (Ok (), p') ∧
  ∀ h, h ∈ victims → evictable (run (new demo_config) demo_ops) (mkDemoTx 4 0 8 14 10) h.
Proof.
  destruct (add_transaction (run (new demo_config) demo_ops) (mkDemoTx 4 0 8 14 10) 0)
    as [[[]|e] p'] eqn:Hadd; [|vm_compute in Hadd; discriminate Hadd].
  destruct (mempool_admission (run (new demo_config) demo_ops) (mkDemoTx 4 0 8 14 10) 0 (Ok ()) p')
    as (victims&Hv&_); [exact (proj1 demo_ok)|exact (proj1 (proj2 demo_ok))| |exact Hadd|].
  - unfold config_ok. vm_compute. split; discriminate.
  - exists p', victims. split; [reflexivity|exact Hv].
Defined.

(** A pool of two entries of twenty bytes and more: a 200-byte transaction
    cannot fit, and the cheapest entry is gone all the same. *)
Lemma refusal_deletes_witness : ∃ p' h,
  add_transaction (run (new demo_config) demo_ops) (mkDemoTx 4 0 8 14 200) 0 = (Err PoolBytesFull, p') ∧
  evictable (run (new demo_config) demo_ops) (mkDemoTx 4 0 8 14 200) h ∧
  transactions p' = delete h (transactions (run (new demo_config) demo_ops)).
Proof.
  assert ((add_transaction (run (new demo_config) demo_ops) (mkDemoTx 4 0 8 14 200) 0).1 =
    Err PoolBytesFull) as Hr by (vm_compute; reflexivity).
  destruct (add_transaction (run (new demo_config) demo_ops) (mkDemoTx 4 0 8 14 200) 0)
    as [r p'] eqn:Hadd.
  cbn [fst] in Hr. rewrite Hr in Hadd.
  destruct (refusal_deletes (run (new demo_config) demo_ops) (mkDemoTx 4 0 8 14 200) 0 p')
    as (h&Hh&Hd&_); [exact (proj1 demo_ok)|exact (proj1 (proj2 demo_ok))|..|exact Hadd|].
  - unfold config_ok. vm_compute. split; discriminate.
  - vm_compute. reflexivity.
  - vm_compute. discriminate.
  - exists p', h. rewrite Hr. split; [reflexivity|]. split; [exact Hh|exact Hd].
Defined.

End PoolExamples.
