(* ===== verification/Finality.v ===== *)
(** * Checkpoint finality

    [src/src/chain/finality.rs]: validator-set snapshots and their quorums,
    the aggregator that collects prevotes and precommits for one checkpoint,
    reports double signing and produces a certificate, and the verification
    of a certificate.

    BLS12-381 is the [bls12_381] crate: a parameter with the group laws and
    the bilinearity of the pairing check.  A hash string is its byte string;
    the hex encoding of the set hash is left out. *)
From stdpp Require Import base tactics numbers list gmap strings sorting.
From Stdlib Require Import ZArith Lia.
From S2P Require Import Prelude Messages Bridge Registry Commitments.
Open Scope Z_scope.

(** ** The signature scheme

    Public keys are in G2, signatures in G1.  [pairing_check sig h pk] is the
    final comparison of the source, [e(sig, -g2) * e(h, pk) = 1]. *)
Class Bls12381 := {
  G1 : Type;
  G2 : Type;
  #[global] g1_eq_dec :: EqDecision G1;
  #[global] g2_eq_dec :: EqDecision G2;
  g1_zero : G1;
  g1_add : G1 → G1 → G1;
  g2_zero : G2;
  g2_add : G2 → G2 → G2;
  g1_from_compressed : bytes → option G1;
  g1_to_compressed : G1 → bytes;
  g2_from_compressed : bytes → option G2;
  g1_torsion_free : G1 → bool;
  g2_torsion_free : G2 → bool;
  hash_to_g1 : bytes → G1;
  hash_pop_to_g1 : bytes → G1;
  pairing_check : G1 → G1 → G2 → bool;
  #[global] g1_add_comm :: Comm (=) g1_add;
  #[global] g1_add_assoc :: Assoc (=) g1_add;
  #[global] g2_add_comm :: Comm (=) g2_add;
  #[global] g2_add_assoc :: Assoc (=) g2_add;
  g1_add_zero : ∀ x, g1_add g1_zero x = x;
  g2_add_zero : ∀ x, g2_add g2_zero x = x;
  g1_compressed_length : ∀ x, length (g1_to_compressed x) = 48%nat;
  g1_decompress : ∀ x, g1_from_compressed (g1_to_compressed x) = Some x;
  pairing_zero : ∀ h, pairing_check g1_zero h g2_zero = true;
  pairing_add : ∀ s s' h p p', pairing_check s h p = true → pairing_check s' h p' = true →
    pairing_check (g1_add s s') h (g2_add p p') = true;
}.

Module Finality.

Definition FINALITY_CHECKPOINT_INTERVAL : Z := 10.
Definition FINALITY_QUORUM_NUMERATOR : Z := 2.
Definition FINALITY_QUORUM_DENOMINATOR : Z := 3.

(** ** Validator sets *)
Record ValidatorEntry := mkValidatorEntry {
  address : bytes;
  stake : Z;
  bls_public_key : bytes;
  pop_signature : bytes;
  pq_public_key : bytes;
}.

Record ValidatorSetSnapshot := mkValidatorSetSnapshot {
  snap_epoch : Z;
  validators : list ValidatorEntry;
  set_hash : bytes;
  total_stake : Z;
}.

Definition address_le (v w : ValidatorEntry) : Prop := bytes_leb (address v) (address w) = true.
#[export] Instance address_le_dec : RelDecision address_le.
Proof. intros v w. unfold address_le. apply _. Defined.

(** [update_consensus_keys_sha3] without a VRF key: three length-prefixed
    fields. *)
Definition consensus_keys_preimage (bls pop pq : bytes) : bytes :=
  le_bytes 8 (Z.of_nat (length bls)) ++ bls ++
  le_bytes 8 (Z.of_nat (length pop)) ++ pop ++
  le_bytes 8 (Z.of_nat (length pq)) ++ pq.

Definition validator_preimage (v : ValidatorEntry) : bytes :=
  address v ++ le_bytes 8 (stake v) ++
  consensus_keys_preimage (bls_public_key v) (pop_signature v) (pq_public_key v).

Definition compute_hash `{Sha3} (vs : list ValidatorEntry) : bytes :=
  sha3 (merge_sort address_le vs ≫= validator_preimage).

Definition new_snapshot `{Sha3} (epoch : Z) (vs : list ValidatorEntry) : ValidatorSetSnapshot :=
  mkValidatorSetSnapshot epoch vs (compute_hash vs)
    (foldl (λ acc v, u64_sat_add acc (stake v)) 0 vs).

(** Sums in [u128]; a set of [u64] stakes does not reach its limit. *)
Definition stake_sum (s : ValidatorSetSnapshot) : Z := sumZ (stake <$> validators s).

Definition validate_metadata `{Sha3} (s : ValidatorSetSnapshot) : bool :=
  bool_decide (set_hash s = compute_hash (validators s)) &&
  (total_stake s =? Z.min (stake_sum s) u64_max).

Definition find_validator (s : ValidatorSetSnapshot) (a : bytes) : option ValidatorEntry :=
  List.find (λ v, bool_decide (address v = a)) (validators s).

Definition validator_index (s : ValidatorSetSnapshot) (a : bytes) : option nat :=
  fst <$> list_find (λ v, address v = a) (validators s).

(** More than two thirds of the stake. *)
Definition quorum_stake (s : ValidatorSetSnapshot) : Z :=
  stake_sum s * FINALITY_QUORUM_NUMERATOR / FINALITY_QUORUM_DENOMINATOR + 1.

(** Two thirds of the validators, rounded up. *)
Definition quorum_count (s : ValidatorSetSnapshot) : Z :=
  (Z.min (Z.of_nat (length (validators s)) * FINALITY_QUORUM_NUMERATOR) u64_max
    + (FINALITY_QUORUM_DENOMINATOR - 1)) / FINALITY_QUORUM_DENOMINATOR.

(** ** Messages *)
Definition BLS_SCHEME_RFC9380_V1 : bytes := bstr "BLS_SIG_BLS12381G1_XMD:SHA-256_SSWU_RO_POP_".
Definition BLS_RFC9380_ACTIVATION_EPOCH : Z := 0.

Record Prevote := mkPrevote {
  pv_epoch : Z;
  pv_checkpoint_height : Z;
  pv_checkpoint_hash : bytes;
  pv_voter_id : bytes;
  pv_sig_bls : bytes;
}.

Record Precommit := mkPrecommit {
  pc_epoch : Z;
  pc_checkpoint_height : Z;
  pc_checkpoint_hash : bytes;
  pc_voter_id : bytes;
  pc_sig_bls : bytes;
}.

Record FinalityCert := mkFinalityCert {
  c_epoch : Z;
  c_checkpoint_height : Z;
  c_checkpoint_hash : bytes;
  agg_sig_bls : bytes;
  bitmap : bytes;
  c_set_hash : bytes;
}.

Definition prevote_signing_message (v : Prevote) : bytes :=
  bstr "BUDLUM_PREVOTE" ++ BLS_SCHEME_RFC9380_V1 ++ le_bytes 8 (pv_epoch v) ++
  le_bytes 8 (pv_checkpoint_height v) ++ pv_checkpoint_hash v.

Definition checkpoint_signing_message (epoch height : Z) (hash : bytes) : bytes :=
  bstr "BUDLUM_PRECOMMIT" ++ BLS_SCHEME_RFC9380_V1 ++ le_bytes 8 epoch ++
  le_bytes 8 height ++ hash.

Definition precommit_signing_message (v : Precommit) : bytes :=
  checkpoint_signing_message (pc_epoch v) (pc_checkpoint_height v) (pc_checkpoint_hash v).

Definition cert_signing_message (c : FinalityCert) : bytes :=
  checkpoint_signing_message (c_epoch c) (c_checkpoint_height c) (c_checkpoint_hash c).

Definition pop_signing_message (chain_id : Z) (a bls_pk : bytes) : bytes :=
  bstr "BDLM_BLS_POP_V1" ++ le_bytes 8 chain_id ++ a ++ bls_pk.

Definition is_checkpoint_height (height : Z) : bool :=
  (0 <? height) && (height mod FINALITY_CHECKPOINT_INTERVAL =? 0).

(** [hex::decode] of a 32-byte hash: lower and upper case digits. *)
Definition hex_digit (c : Z) : option Z :=
  if (48 <=? c) && (c <=? 57) then Some (c - 48)
  else if (97 <=? c) && (c <=? 102) then Some (c - 87)
  else if (65 <=? c) && (c <=? 70) then Some (c - 55)
  else None.

Fixpoint hex_decode (s : bytes) : option bytes :=
  match s with
  | [] => Some []
  | [_] => None
  | a :: b :: s =>
      x ← hex_digit a; y ← hex_digit b; r ← hex_decode s; Some (x * 16 + y :: r)
  end.

Definition hash32_from_hex (s : bytes) : option bytes :=
  b ← hex_decode s; if bool_decide (length b ≠ 32%nat) then None else Some b.

(** The decoded hashes of the buried checkpoint blocks. *)
Definition settlement_finality_window_from (blocks : list (Z * bytes)) (interval tip : Z) : list bytes :=
  if interval =? 0 then []
  else
    let newest := sat_sub tip Nonce.FINALITY_PRUNE_DEPTH in
    let oldest := sat_sub tip Bridge.SETTLED_RETENTION_BLOCKS in
    blocks ≫= λ '(height, hash),
      if (height =? 0) || negb (height mod interval =? 0) || (height <? oldest) || (newest <? height)
      then []
      else match hash32_from_hex hash with Some decoded => [decoded] | None => [] end.

(** ** Signatures *)
Inductive FinalityError :=
  | InvalidKeyLength | InvalidKeyEncoding | InvalidKeyGroup
  | InvalidSigLength | InvalidSigEncoding | InvalidSigGroup | SigVerificationFailed
  | EpochMismatch | HeightMismatch | NoPrevoteQuorum | NotInSet | HashMismatch | DuplicateVote
  | PreActivation | SetHashMismatch | BitmapLength | BitmapRange
  | InsufficientStake | InsufficientCount | NoSigners | AggregateKeyIdentity | AggregateSigIdentity.

Section signatures.
Context `{Bls12381}.

Definition parse_key (pk : bytes) : result FinalityError G2 :=
  if bool_decide (length pk ≠ 96%nat) then Err InvalidKeyLength
  else
    let? p := ok_or (g2_from_compressed pk) InvalidKeyEncoding in
    if negb (g2_torsion_free p) || bool_decide (p = g2_zero) then Err InvalidKeyGroup else Ok p.

Definition parse_sig (sig : bytes) : result FinalityError G1 :=
  if bool_decide (length sig ≠ 48%nat) then Err InvalidSigLength
  else
    let? s := ok_or (g1_from_compressed sig) InvalidSigEncoding in
    if negb (g1_torsion_free s) || bool_decide (s = g1_zero) then Err InvalidSigGroup else Ok s.

Definition verify_bls_sig (pk msg sig : bytes) : result FinalityError () :=
  let? p := parse_key pk in
  let? s := parse_sig sig in
  if pairing_check s (hash_to_g1 msg) p then Ok () else Err SigVerificationFailed.

Definition verify_pop (entry : ValidatorEntry) (chain_id : Z) : bool :=
  if bool_decide (bls_public_key entry = []) || bool_decide (pop_signature entry = []) then false
  else
    match parse_key (bls_public_key entry), parse_sig (pop_signature entry) with
    | Ok p, Ok s =>
        pairing_check s
          (hash_pop_to_g1 (pop_signing_message chain_id (address entry) (bls_public_key entry))) p
    | _, _ => false
    end.

(** ** Certificates *)

(** Bit [idx] of the bitmap; past its end there is none. *)
Definition has_bit (bm : bytes) (idx : nat) : bool :=
  match bm !! (idx / 8)%nat with
  | Some b => Z.testbit b (Z.of_nat (idx mod 8))
  | None => false
  end.

(** [last >> trailing_bits != 0]. *)
Definition bad_trailing (bm : bytes) (n : nat) : bool :=
  let trailing := (n mod 8)%nat in
  negb (trailing =? 0)%nat &&
  match last bm with
  | Some b => negb (Z.shiftr b (Z.of_nat trailing) =? 0)
  | None => false
  end.

(** The loop over the set: stake, count and keys of the claimed signers, or
    the error of the first bad key among them. *)
Fixpoint collect_signers (bm : bytes) (idx : nat) (vs : list ValidatorEntry) :
    result FinalityError (Z * Z * list G2) :=
  match vs with
  | [] => Ok (0, 0, [])
  | v :: vs =>
      if has_bit bm idx then
        let? p := parse_key (bls_public_key v) in
        let? rest := collect_signers bm (S idx) vs in
        let '(st, n, pks) := rest in
        Ok (stake v + st, 1 + n, p :: pks)
      else collect_signers bm (S idx) vs
  end.

Definition g2_sum (pks : list G2) : G2 := foldl g2_add g2_zero pks.

(** The aggregate signature is decompressed and compared with the identity;
    only single signatures get a subgroup check of their own. *)
Definition cert_verify (c : FinalityCert) (s : ValidatorSetSnapshot) : result FinalityError () :=
  if c_epoch c <? BLS_RFC9380_ACTIVATION_EPOCH then Err PreActivation
  else if bool_decide (c_set_hash c ≠ set_hash s) then Err SetHashMismatch
  else if negb (c_epoch c =? snap_epoch s) then Err EpochMismatch
  else
    let n := length (validators s) in
    if bool_decide (length (bitmap c) ≠ ((n + 7) / 8)%nat) then Err BitmapLength
    else if bad_trailing (bitmap c) n then Err BitmapRange
    else
      let? voted := collect_signers (bitmap c) 0 (validators s) in
      let '(voted_stake, voted_count, pks) := voted in
      if voted_stake <? quorum_stake s then Err InsufficientStake
      else if voted_count <? quorum_count s then Err InsufficientCount
      else if bool_decide (pks = []) then Err NoSigners
      else
        let agg_pk := g2_sum pks in
        if bool_decide (agg_pk = g2_zero) then Err AggregateKeyIdentity
        else if bool_decide (length (agg_sig_bls c) ≠ 48%nat) then Err InvalidSigLength
        else
          let? sig := ok_or (g1_from_compressed (agg_sig_bls c)) InvalidSigEncoding in
          if bool_decide (sig = g1_zero) then Err AggregateSigIdentity
          else if pairing_check sig (hash_to_g1 (cert_signing_message c)) agg_pk
          then Ok () else Err SigVerificationFailed.

Definition signer_indices (c : FinalityCert) (validator_count : nat) : list nat :=
  filter (λ idx, has_bit (bitmap c) idx = true) (seq 0 validator_count).

Definition signer_count (c : FinalityCert) (validator_count : nat) : nat :=
  length (signer_indices c validator_count).

End signatures.

(** ** The aggregator *)
Record FinalityAggregator := mkFinalityAggregator {
  epoch : Z;
  checkpoint_height : Z;
  checkpoint_hash : bytes;
  prevotes : gmap bytes Prevote;
  precommits : gmap bytes Precommit;
  validator_snapshot : ValidatorSetSnapshot;
  prevote_quorum_reached : bool;
  precommit_quorum_reached : bool;
  detected_equivocations : list Evidence.SlashingReport;
  seen_prevotes : gmap bytes (bytes * bytes);
  seen_precommits : gmap bytes (bytes * bytes);
  flagged_equivocators : gset bytes;
}.

Definition new (epoch height : Z) (hash : bytes) (s : ValidatorSetSnapshot) : FinalityAggregator :=
  mkFinalityAggregator epoch height hash ∅ ∅ s false false [] ∅ ∅ ∅.

Definition take_detected_equivocations (a : FinalityAggregator) :
    list Evidence.SlashingReport * FinalityAggregator :=
  (detected_equivocations a,
   mkFinalityAggregator (epoch a) (checkpoint_height a) (checkpoint_hash a) (prevotes a)
     (precommits a) (validator_snapshot a) (prevote_quorum_reached a) (precommit_quorum_reached a)
     [] (seen_prevotes a) (seen_precommits a) (flagged_equivocators a)).

(** One report per voter. *)
Definition record_equivocation (a : FinalityAggregator) (voter hash_1 sig_1 hash_2 sig_2 : bytes) :
    FinalityAggregator :=
  if bool_decide (voter ∈ flagged_equivocators a) then a
  else
    mkFinalityAggregator (epoch a) (checkpoint_height a) (checkpoint_hash a) (prevotes a)
      (precommits a) (validator_snapshot a) (prevote_quorum_reached a) (precommit_quorum_reached a)
      (detected_equivocations a ++
        [Evidence.consensus_double_sign voter (checkpoint_height a) hash_1 hash_2 sig_1 sig_2 None])
      (seen_prevotes a) (seen_precommits a) ({[ voter ]} ∪ flagged_equivocators a).

Definition set_seen_prevotes (a : FinalityAggregator) (m : gmap bytes (bytes * bytes)) :
    FinalityAggregator :=
  mkFinalityAggregator (epoch a) (checkpoint_height a) (checkpoint_hash a) (prevotes a)
    (precommits a) (validator_snapshot a) (prevote_quorum_reached a) (precommit_quorum_reached a)
    (detected_equivocations a) m (seen_precommits a) (flagged_equivocators a).

Definition set_seen_precommits (a : FinalityAggregator) (m : gmap bytes (bytes * bytes)) :
    FinalityAggregator :=
  mkFinalityAggregator (epoch a) (checkpoint_height a) (checkpoint_hash a) (prevotes a)
    (precommits a) (validator_snapshot a) (prevote_quorum_reached a) (precommit_quorum_reached a)
    (detected_equivocations a) (seen_prevotes a) m (flagged_equivocators a).

Definition detect_prevote_equivocation (a : FinalityAggregator) (vote : Prevote) : FinalityAggregator :=
  match seen_prevotes a !! pv_voter_id vote with
  | Some (prev_hash, prev_sig) =>
      if bool_decide (prev_hash ≠ pv_checkpoint_hash vote)
      then record_equivocation a (pv_voter_id vote) prev_hash prev_sig
             (pv_checkpoint_hash vote) (pv_sig_bls vote)
      else a
  | None =>
      set_seen_prevotes a
        (<[pv_voter_id vote := (pv_checkpoint_hash vote, pv_sig_bls vote)]> (seen_prevotes a))
  end.

Definition detect_precommit_equivocation (a : FinalityAggregator) (vote : Precommit) :
    FinalityAggregator :=
  match seen_precommits a !! pc_voter_id vote with
  | Some (prev_hash, prev_sig) =>
      if bool_decide (prev_hash ≠ pc_checkpoint_hash vote)
      then record_equivocation a (pc_voter_id vote) prev_hash prev_sig
             (pc_checkpoint_hash vote) (pc_sig_bls vote)
      else a
  | None =>
      set_seen_precommits a
        (<[pc_voter_id vote := (pc_checkpoint_hash vote, pc_sig_bls vote)]> (seen_precommits a))
  end.

(** Stake and number of the voters that are in the set. *)
Definition voters_in_set (s : ValidatorSetSnapshot) (voters : list bytes) : list ValidatorEntry :=
  omap (find_validator s) voters.

Definition has_quorum (s : ValidatorSetSnapshot) (voters : list bytes) : bool :=
  (quorum_stake s <=? sumZ (stake <$> voters_in_set s voters)) &&
  (quorum_count s <=? Z.of_nat (length (voters_in_set s voters))).

Definition check_prevote_quorum (a : FinalityAggregator) : FinalityAggregator :=
  mkFinalityAggregator (epoch a) (checkpoint_height a) (checkpoint_hash a) (prevotes a)
    (precommits a) (validator_snapshot a)
    (prevote_quorum_reached a || has_quorum (validator_snapshot a) (map_to_list (prevotes a)).*1)
    (precommit_quorum_reached a) (detected_equivocations a) (seen_prevotes a) (seen_precommits a)
    (flagged_equivocators a).

Definition check_precommit_quorum (a : FinalityAggregator) : FinalityAggregator :=
  mkFinalityAggregator (epoch a) (checkpoint_height a) (checkpoint_hash a) (prevotes a)
    (precommits a) (validator_snapshot a) (prevote_quorum_reached a)
    (precommit_quorum_reached a || has_quorum (validator_snapshot a) (map_to_list (precommits a)).*1)
    (detected_equivocations a) (seen_prevotes a) (seen_precommits a) (flagged_equivocators a).

Definition set_prevotes (a : FinalityAggregator) (m : gmap bytes Prevote) : FinalityAggregator :=
  mkFinalityAggregator (epoch a) (checkpoint_height a) (checkpoint_hash a) m
    (precommits a) (validator_snapshot a) (prevote_quorum_reached a) (precommit_quorum_reached a)
    (detected_equivocations a) (seen_prevotes a) (seen_precommits a) (flagged_equivocators a).

Definition set_precommits (a : FinalityAggregator) (m : gmap bytes Precommit) : FinalityAggregator :=
  mkFinalityAggregator (epoch a) (checkpoint_height a) (checkpoint_hash a) (prevotes a)
    m (validator_snapshot a) (prevote_quorum_reached a) (precommit_quorum_reached a)
    (detected_equivocations a) (seen_prevotes a) (seen_precommits a) (flagged_equivocators a).

Section aggregator.
Context `{Bls12381}.

Definition add_prevote (a : FinalityAggregator) (vote : Prevote) :
    result FinalityError () * FinalityAggregator :=
  if negb (pv_epoch vote =? epoch a) then (Err EpochMismatch, a)
  else if negb (pv_checkpoint_height vote =? checkpoint_height a) then (Err HeightMismatch, a)
  else
    let? entry := ok_or (find_validator (validator_snapshot a) (pv_voter_id vote)) NotInSet at a in
    let? _ := verify_bls_sig (bls_public_key entry) (prevote_signing_message vote) (pv_sig_bls vote) at a in
    let a := detect_prevote_equivocation a vote in
    if bool_decide (pv_checkpoint_hash vote ≠ checkpoint_hash a) then (Err HashMismatch, a)
    else if bool_decide (is_Some (prevotes a !! pv_voter_id vote)) then (Err DuplicateVote, a)
    else (Ok (), check_prevote_quorum (set_prevotes a (<[pv_voter_id vote := vote]> (prevotes a)))).

Definition add_precommit (a : FinalityAggregator) (vote : Precommit) :
    result FinalityError () * FinalityAggregator :=
  if negb (pc_epoch vote =? epoch a) then (Err EpochMismatch, a)
  else if negb (pc_checkpoint_height vote =? checkpoint_height a) then (Err HeightMismatch, a)
  else if negb (prevote_quorum_reached a) then (Err NoPrevoteQuorum, a)
  else
    let? entry := ok_or (find_validator (validator_snapshot a) (pc_voter_id vote)) NotInSet at a in
    let? _ := verify_bls_sig (bls_public_key entry) (precommit_signing_message vote) (pc_sig_bls vote) at a in
    let a := detect_precommit_equivocation a vote in
    if bool_decide (pc_checkpoint_hash vote ≠ checkpoint_hash a) then (Err HashMismatch, a)
    else if bool_decide (is_Some (precommits a !! pc_voter_id vote)) then (Err DuplicateVote, a)
    else (Ok (), check_precommit_quorum (set_precommits a (<[pc_voter_id vote := vote]> (precommits a)))).

(** [bitmap[idx / 8] |= 1 << (idx % 8)]. *)
Definition set_bit (bm : bytes) (idx : nat) : bytes :=
  <[(idx / 8)%nat := Z.lor (bm !!! (idx / 8)%nat) (Z.shiftl 1 (Z.of_nat (idx mod 8)))]> bm.

(** One precommit of the loop of [try_produce_cert]. *)
Definition add_signer (s : ValidatorSetSnapshot) (st : bytes * G1) (e : bytes * Precommit) : bytes * G1 :=
  match validator_index s e.1 with
  | Some idx =>
      if bool_decide (length (pc_sig_bls e.2) ≠ 48%nat) then st
      else match g1_from_compressed (pc_sig_bls e.2) with
           | Some sig => (set_bit st.1 idx, g1_add st.2 sig)
           | None => st
           end
  | None => st
  end.

(** The map is visited in an unspecified order. *)
Definition try_produce_cert (a : FinalityAggregator) : option FinalityCert :=
  if negb (precommit_quorum_reached a) then None
  else
    let s := validator_snapshot a in
    let '(bm, agg) :=
      foldl (add_signer s) (replicate ((length (validators s) + 7) / 8) 0, g1_zero)
        (map_to_list (precommits a)) in
    Some (mkFinalityCert (epoch a) (checkpoint_height a) (checkpoint_hash a)
      (g1_to_compressed agg) bm (set_hash s)).

(** ** The operations as steps *)
Inductive AggOp :=
  | OpPrevote (v : Prevote)
  | OpPrecommit (v : Precommit)
  | OpTake.

Definition apply_op (a : FinalityAggregator) (op : AggOp) : FinalityAggregator :=
  match op with
  | OpPrevote v => (add_prevote a v).2
  | OpPrecommit v => (add_precommit a v).2
  | OpTake => (take_detected_equivocations a).2
  end.

Definition run (a : FinalityAggregator) (ops : list AggOp) : FinalityAggregator := foldl apply_op a ops.

End aggregator.
End Finality.
