(* ===== verification/FinalityBase.v ===== *)
(** * Lemmas on checkpoint finality

    Signer sets and their stake, the aggregator's invariant, bitmaps, and the
    aggregation of keys and signatures. *)
From stdpp Require Import base tactics numbers list gmap strings sorting.
From Stdlib Require Import ZArith Lia.
From S2P Require Import Prelude Messages Bridge Registry Commitments Finality.
Import Finality.Finality.
Open Scope Z_scope.

Module FinalityLemmas.

(** ** Signers *)

(** The validators whose index satisfies [P], counting from [idx]. *)
Fixpoint pick (P : nat → bool) (idx : nat) (vs : list ValidatorEntry) : list ValidatorEntry :=
  match vs with
  | [] => []
  | v :: vs => if P idx then v :: pick P (S idx) vs else pick P (S idx) vs
  end.

Definition stakes (vs : list ValidatorEntry) : Z := sumZ (stake <$> vs).

Lemma stakes_cons v vs : stakes (v :: vs) = stake v + stakes vs.
Proof. done. Qed.

Definition stakes_ok (vs : list ValidatorEntry) : Prop := Forall (λ v, u64 (stake v)) vs.

Lemma stakes_nonneg vs : stakes_ok vs → 0 ≤ stakes vs.
Proof. intros Hok. apply sumZ_nonneg, Forall_fmap. eapply Forall_impl; [done|]. simpl. unfold u64. lia. Qed.

(** Inclusion and exclusion, for stake and for count. *)
Lemma pick_overlap P Q vs : ∀ idx, stakes_ok vs →
  stakes (pick P idx vs) + stakes (pick Q idx vs) ≤
    stakes vs + stakes (pick (λ i, P i && Q i) idx vs) ∧
  (length (pick P idx vs) + length (pick Q idx vs) ≤
    length vs + length (pick (λ i, P i && Q i) idx vs))%nat.
Proof.
  induction vs as [|v vs IH]; intros idx Hok; [done|].
  apply Forall_cons in Hok as [Hv Hok]. unfold u64 in Hv. destruct (IH (S idx) Hok) as [Hs Hl].
  simpl. destruct (P idx), (Q idx); simpl; rewrite ?stakes_cons; (split; [lia|simpl; lia]).
Qed.

Lemma pick_sub P idx vs v : v ∈ pick P idx vs → v ∈ vs.
Proof.
  revert idx. induction vs as [|w vs IH]; intros idx; simpl; [done|].
  destruct (P idx); [intros [->|Hin]%elem_of_cons|intros Hin]; [by left|right..]; by eapply IH.
Qed.

Section bls.
Context `{Bls12381}.

Lemma collect_signers_spec bm vs : ∀ idx st n pks,
  collect_signers bm idx vs = Ok (st, n, pks) →
  st = stakes (pick (has_bit bm) idx vs) ∧ n = Z.of_nat (length (pick (has_bit bm) idx vs)) ∧
  Forall2 (λ v p, parse_key (bls_public_key v) = Ok p) (pick (has_bit bm) idx vs) pks.
Proof.
  induction vs as [|v vs IH]; intros idx st n pks; simpl.
  { intros [= <- <- <-]. split_and!; [done..|constructor]. }
  destruct (has_bit bm idx); [|apply IH].
  destruct (parse_key (bls_public_key v)) as [p|] eqn:Hp; [|done].
  destruct (collect_signers bm (S idx) vs) as [[[st' n'] pks']|] eqn:Hc; [|done].
  intros [= <- <- <-]. destruct (IH _ _ _ _ Hc) as (->&->&Hf).
  split_and!; [by rewrite stakes_cons|simpl; lia|by constructor].
Qed.

(** What a verified certificate establishes. *)
Lemma cert_verify_spec c s : cert_verify c s = Ok () →
  c_set_hash c = set_hash s ∧ c_epoch c = snap_epoch s ∧
  let signers := pick (has_bit (bitmap c)) 0 (validators s) in
  quorum_stake s ≤ stakes signers ∧ quorum_count s ≤ Z.of_nat (length signers) ∧
  ∃ pks sig, Forall2 (λ v p, parse_key (bls_public_key v) = Ok p) signers pks ∧
    g1_from_compressed (agg_sig_bls c) = Some sig ∧
    pairing_check sig (hash_to_g1 (cert_signing_message c)) (g2_sum pks) = true.
Proof.
  unfold cert_verify. destruct (c_epoch c <? _); [done|]. case_bool_decide as Hset; [done|].
  destruct (Z.eqb_spec (c_epoch c) (snap_epoch s)) as [Hep|]; [|done]. simpl.
  case_bool_decide; [done|]. destruct (bad_trailing _ _); [done|].
  destruct (collect_signers _ _ _) as [[[st n] pks]|] eqn:Hc; [|done].
  apply collect_signers_spec in Hc as (->&->&Hf).
  destruct (Z.ltb_spec (stakes (pick (has_bit (bitmap c)) 0 (validators s))) (quorum_stake s)); [done|].
  destruct (Z.ltb_spec (Z.of_nat (length (pick (has_bit (bitmap c)) 0 (validators s)))) (quorum_count s)); [done|].
  case_bool_decide; [done|]. case_bool_decide; [done|]. case_bool_decide; [done|].
  destruct (g1_from_compressed (agg_sig_bls c)) as [sig|] eqn:Hsig; [|done]. simpl.
  case_bool_decide; [done|]. destruct (pairing_check _ _ _) eqn:Hpair; [|done]. intros _.
  split_and!; [done..|]. by exists pks, sig.
Qed.

End bls.

(** ** Messages *)
Lemma checkpoint_message_inj e1 h1 x1 e2 h2 x2 : u64 e1 → u64 e2 → u64 h1 → u64 h2 →
  checkpoint_signing_message e1 h1 x1 = checkpoint_signing_message e2 h2 x2 →
  e1 = e2 ∧ h1 = h2 ∧ x1 = x2.
Proof.
  intros He1 He2 Hh1 Hh2. unfold checkpoint_signing_message. intros Heq.
  do 2 (apply app_inj_1 in Heq as [_ Heq]; [|done]).
  apply app_inj_1 in Heq as [He Heq]; [|by rewrite !length_le_bytes].
  apply app_inj_1 in Heq as [Hh Heq]; [|by rewrite !length_le_bytes].
  apply le_bytes8_inj in He, Hh; done.
Qed.

(** A prevote message is never a precommit message. *)
Lemma prevote_precommit_disjoint v e h x :
  prevote_signing_message v ≠ checkpoint_signing_message e h x.
Proof. intros Heq. apply (f_equal (λ l, l !! 10%nat)) in Heq. by vm_compute in Heq. Qed.

(** ** Quorum arithmetic *)
Lemma quorum_overlap s a b : 0 ≤ stake_sum s → quorum_stake s ≤ a → quorum_stake s ≤ b →
  stake_sum s < 3 * (a + b - stake_sum s).
Proof.
  unfold quorum_stake, FINALITY_QUORUM_NUMERATOR, FINALITY_QUORUM_DENOMINATOR. intros. div_lia.
Qed.

Lemma quorum_stake_pos s : stakes_ok (validators s) → 0 < quorum_stake s.
Proof.
  intros Hst%stakes_nonneg. fold (stake_sum s) in Hst.
  unfold quorum_stake, FINALITY_QUORUM_NUMERATOR, FINALITY_QUORUM_DENOMINATOR.
  assert (0 ≤ stake_sum s) by exact Hst. div_lia.
Qed.

Lemma quorum_count_overlap s a b : Z.of_nat (length (validators s)) * 2 ≤ u64_max →
  quorum_count s ≤ a → quorum_count s ≤ b →
  Z.of_nat (length (validators s)) ≤ 3 * (a + b - Z.of_nat (length (validators s))).
Proof.
  unfold quorum_count, FINALITY_QUORUM_NUMERATOR, FINALITY_QUORUM_DENOMINATOR. intros Hn.
  rewrite Z.min_l by lia. intros. div_lia.
Qed.

(** ** The aggregator's invariant *)
Section aggregator.
Context `{Bls12381}.
Implicit Types a : FinalityAggregator.

(** The messages of the two rounds for the aggregator's checkpoint. *)
Definition prevote_message a (hash : bytes) : bytes :=
  prevote_signing_message (mkPrevote (epoch a) (checkpoint_height a) hash [] []).

Definition precommit_message a (hash : bytes) : bytes :=
  checkpoint_signing_message (epoch a) (checkpoint_height a) hash.

(** [sig] is the voter's signature of [msg] under its key in the set. *)
Definition signed_by (s : ValidatorSetSnapshot) (voter msg sig : bytes) : Prop :=
  ∃ v, find_validator s voter = Some v ∧ verify_bls_sig (bls_public_key v) msg sig = Ok ().

(** A report that two valid signatures of one round support. *)
Definition supported a (r : Evidence.SlashingReport) : Prop :=
  ∃ voter h1 s1 h2 s2,
    r = Evidence.consensus_double_sign voter (checkpoint_height a) h1 h2 s1 s2 None ∧ h1 ≠ h2 ∧
    ((signed_by (validator_snapshot a) voter (prevote_message a h1) s1 ∧
      signed_by (validator_snapshot a) voter (prevote_message a h2) s2) ∨
     (signed_by (validator_snapshot a) voter (precommit_message a h1) s1 ∧
      signed_by (validator_snapshot a) voter (precommit_message a h2) s2)).

Record agg_ok a : Prop := {
  ok_prevotes : ∀ voter v, prevotes a !! voter = Some v →
    signed_by (validator_snapshot a) voter (prevote_message a (checkpoint_hash a)) (pv_sig_bls v);
  ok_precommits : ∀ voter v, precommits a !! voter = Some v →
    signed_by (validator_snapshot a) voter (precommit_message a (checkpoint_hash a)) (pc_sig_bls v);
  ok_seen_prevotes : ∀ voter h sig, seen_prevotes a !! voter = Some (h, sig) →
    signed_by (validator_snapshot a) voter (prevote_message a h) sig;
  ok_seen_precommits : ∀ voter h sig, seen_precommits a !! voter = Some (h, sig) →
    signed_by (validator_snapshot a) voter (precommit_message a h) sig;
  ok_detected : Forall (supported a) (detected_equivocations a);
  ok_flagged : ∀ r, r ∈ detected_equivocations a → Evidence.offender r ∈ flagged_equivocators a;
  ok_unique : NoDup (Evidence.offender <$> detected_equivocations a);
  ok_prevote_quorum : prevote_quorum_reached a = true →
    has_quorum (validator_snapshot a) (map_to_list (prevotes a)).*1 = true;
  ok_precommit_quorum : precommit_quorum_reached a = true →
    has_quorum (validator_snapshot a) (map_to_list (precommits a)).*1 = true;
  ok_rounds : precommits a = ∅ ∨ prevote_quorum_reached a = true;
}.

(** The checkpoint and the set never change. *)
Definition same_target a a' : Prop :=
  epoch a' = epoch a ∧ checkpoint_height a' = checkpoint_height a ∧
  checkpoint_hash a' = checkpoint_hash a ∧ validator_snapshot a' = validator_snapshot a.

Lemma new_agg_ok e h x s : agg_ok (new e h x s).
Proof.
  split; simpl; [..|done|done|by left].
  - intros voter v. by rewrite lookup_empty.
  - intros voter v. by rewrite lookup_empty.
  - intros voter h' sig. by rewrite lookup_empty.
  - intros voter h' sig. by rewrite lookup_empty.
  - constructor.
  - by intros r []%not_elem_of_nil.
  - constructor.
Qed.

Lemma record_ok a voter h1 s1 h2 s2 : agg_ok a → h1 ≠ h2 →
  (signed_by (validator_snapshot a) voter (prevote_message a h1) s1 ∧
   signed_by (validator_snapshot a) voter (prevote_message a h2) s2) ∨
  (signed_by (validator_snapshot a) voter (precommit_message a h1) s1 ∧
   signed_by (validator_snapshot a) voter (precommit_message a h2) s2) →
  agg_ok (record_equivocation a voter h1 s1 h2 s2).
Proof.
  intros Hok Hne Hsup. unfold record_equivocation. case_bool_decide as Hfl; [done|].
  destruct Hok as [Hpv Hpc Hspv Hspc Hdet Hflag Huniq Hq1 Hq2 Hr].
  split; simpl; try done.
  - apply Forall_app. split; [done|]. apply Forall_singleton.
    exists voter, h1, s1, h2, s2. done.
  - intros r [Hr'|Hr']%elem_of_app; [apply elem_of_union; right; by apply Hflag|].
    apply list_elem_of_singleton in Hr' as ->. apply elem_of_union. left. by apply elem_of_singleton.
  - rewrite fmap_app. apply NoDup_app. split_and!; [done| |apply NoDup_singleton].
    intros o (r&->&Hr')%list_elem_of_fmap Ho. apply list_elem_of_singleton in Ho.
    simpl in Ho. apply Hfl. rewrite <- Ho. by apply Hflag.
Qed.

Lemma record_target a voter h1 s1 h2 s2 : same_target a (record_equivocation a voter h1 s1 h2 s2).
Proof. unfold record_equivocation. by case_bool_decide. Qed.

Lemma detect_prevote_ok a v : agg_ok a →
  signed_by (validator_snapshot a) (pv_voter_id v) (prevote_message a (pv_checkpoint_hash v)) (pv_sig_bls v) →
  agg_ok (detect_prevote_equivocation a v) ∧ same_target a (detect_prevote_equivocation a v) ∧
  prevotes (detect_prevote_equivocation a v) = prevotes a.
Proof.
  intros Hok Hsig. unfold detect_prevote_equivocation.
  destruct (seen_prevotes a !! pv_voter_id v) as [[h sig]|] eqn:Hseen.
  - case_bool_decide as Hne; [|done]. split_and!; [|apply record_target|].
    + apply record_ok; [done..|]. left. split; [|done]. by apply (ok_seen_prevotes a Hok).
    + unfold record_equivocation. by case_bool_decide.
  - split; [|done]. destruct Hok. split; simpl; try done.
    intros voter h' s' [[<- [= <- <-]]|[_ Hl]]%lookup_insert_Some; [done|].
    by apply ok_seen_prevotes0.
Qed.

Lemma detect_precommit_ok a v : agg_ok a →
  signed_by (validator_snapshot a) (pc_voter_id v) (precommit_message a (pc_checkpoint_hash v)) (pc_sig_bls v) →
  agg_ok (detect_precommit_equivocation a v) ∧ same_target a (detect_precommit_equivocation a v) ∧
  precommits (detect_precommit_equivocation a v) = precommits a ∧
  prevote_quorum_reached (detect_precommit_equivocation a v) = prevote_quorum_reached a.
Proof.
  intros Hok Hsig. unfold detect_precommit_equivocation.
  destruct (seen_precommits a !! pc_voter_id v) as [[h sig]|] eqn:Hseen.
  - case_bool_decide as Hne; [|done]. split_and!; [|apply record_target|..].
    + apply record_ok; [done..|]. right. split; [|done]. by apply (ok_seen_precommits a Hok).
    + unfold record_equivocation. by case_bool_decide.
    + unfold record_equivocation. by case_bool_decide.
  - split; [|done]. destruct Hok. split; simpl; try done.
    intros voter h' s' [[<- [= <- <-]]|[_ Hl]]%lookup_insert_Some; [done|].
    by apply ok_seen_precommits0.
Qed.

(** ** Quorums only grow *)
Lemma find_validator_in s x v : find_validator s x = Some v → v ∈ validators s ∧ address v = x.
Proof.
  unfold find_validator. intros [Hin Ha]%List.find_some. apply bool_decide_eq_true in Ha.
  split; [by apply list_elem_of_In|done].
Qed.

Lemma has_quorum_perm s l k : l ≡ₚ k → has_quorum s l = has_quorum s k.
Proof.
  intros Hp. unfold has_quorum, voters_in_set.
  assert (omap (find_validator s) l ≡ₚ omap (find_validator s) k) as Ho by (by rewrite Hp).
  by rewrite Ho.
Qed.

Lemma has_quorum_cons s x l : stakes_ok (validators s) → has_quorum s l = true → has_quorum s (x :: l) = true.
Proof.
  intros Hst. unfold has_quorum, voters_in_set. rewrite !andb_true_iff, !Z.leb_le.
  destruct (find_validator s x) as [v|] eqn:Hv.
  - assert (omap (find_validator s) (x :: l) = v :: omap (find_validator s) l) as ->
      by (simpl; by rewrite Hv).
    apply find_validator_in in Hv as [Hin _]. unfold stakes_ok in Hst. rewrite Forall_forall in Hst.
    pose proof (Hst v Hin) as Hsv. unfold u64 in Hsv. rewrite fmap_cons, sumZ_cons, length_cons. lia.
  - assert (omap (find_validator s) (x :: l) = omap (find_validator s) l) as ->
      by (simpl; by rewrite Hv). done.
Qed.

Lemma has_quorum_insert {V} (s : ValidatorSetSnapshot) (m : gmap bytes V) x v : stakes_ok (validators s) → m !! x = None →
  has_quorum s (map_to_list m).*1 = true → has_quorum s (map_to_list (<[x := v]> m)).*1 = true.
Proof.
  intros Hst Hx Hq. rewrite (has_quorum_perm s _ (x :: (map_to_list m).*1)).
  - by apply has_quorum_cons.
  - by rewrite map_to_list_insert.
Qed.

(** ** Every step keeps the invariant *)
Lemma add_prevote_ok a v : agg_ok a → stakes_ok (validators (validator_snapshot a)) →
  agg_ok (add_prevote a v).2 ∧ same_target a (add_prevote a v).2.
Proof.
  intros Hok Hst. unfold add_prevote.
  destruct (Z.eqb_spec (pv_epoch v) (epoch a)) as [He|]; [|done]. simpl.
  destruct (Z.eqb_spec (pv_checkpoint_height v) (checkpoint_height a)) as [Hh|]; [|done]. simpl.
  destruct (find_validator _ _) as [entry|] eqn:Hf; [|done]. simpl.
  destruct (verify_bls_sig _ _ _) as [[]|] eqn:Hv; [|done].
  assert (signed_by (validator_snapshot a) (pv_voter_id v)
    (prevote_message a (pv_checkpoint_hash v)) (pv_sig_bls v)) as Hsig.
  { exists entry. split; [done|]. unfold prevote_message, prevote_signing_message in *. simpl in *.
    by rewrite <- He, <- Hh. }
  destruct (detect_prevote_ok a v Hok Hsig) as (Hok1&(Ht1&Ht2&Ht3&Ht4)&Hpv).
  set (a1 := detect_prevote_equivocation a v) in *.
  case_bool_decide as Hx; [done|]. case_bool_decide as Hdup; [done|]. simpl.
  split; [|done]. apply eq_None_not_Some in Hdup.
  destruct Hok1 as [Hpv1 Hpc1 Hspv Hspc Hdet Hflag Huniq Hq1 Hq2 Hr].
  split; simpl; try done.
  - intros voter v' [[<- <-]|[_ Hl]]%lookup_insert_Some; [|by apply Hpv1].
    unfold prevote_message, signed_by in *. simpl in *. rewrite Ht1, Ht2, Ht4, <- Hx. done.
  - intros [Hq|Hq]%orb_true_iff; [|done].
    apply has_quorum_insert; [by rewrite Ht4|done|by apply Hq1].
  - destruct Hr as [|Hr]; [by left|right]. by rewrite Hr.
Qed.

Lemma add_precommit_ok a v : agg_ok a → stakes_ok (validators (validator_snapshot a)) →
  agg_ok (add_precommit a v).2 ∧ same_target a (add_precommit a v).2.
Proof.
  intros Hok Hst. unfold add_precommit.
  destruct (Z.eqb_spec (pc_epoch v) (epoch a)) as [He|]; [|done]. simpl.
  destruct (Z.eqb_spec (pc_checkpoint_height v) (checkpoint_height a)) as [Hh|]; [|done]. simpl.
  destruct (prevote_quorum_reached a) eqn:Hprev; [|done]. simpl.
  destruct (find_validator _ _) as [entry|] eqn:Hf; [|done]. simpl.
  destruct (verify_bls_sig _ _ _) as [[]|] eqn:Hv; [|done].
  assert (signed_by (validator_snapshot a) (pc_voter_id v)
    (precommit_message a (pc_checkpoint_hash v)) (pc_sig_bls v)) as Hsig.
  { exists entry. split; [done|]. unfold precommit_message, precommit_signing_message in *.
    by rewrite <- He, <- Hh. }
  destruct (detect_precommit_ok a v Hok Hsig) as (Hok1&(Ht1&Ht2&Ht3&Ht4)&Hpc&Hpq).
  set (a1 := detect_precommit_equivocation a v) in *.
  case_bool_decide as Hx; [done|]. case_bool_decide as Hdup; [done|]. simpl.
  split; [|done]. apply eq_None_not_Some in Hdup.
  destruct Hok1 as [Hpv1 Hpc1 Hspv Hspc Hdet Hflag Huniq Hq1 Hq2 Hr].
  split; simpl; try done.
  - intros voter v' [[<- <-]|[_ Hl]]%lookup_insert_Some; [|by apply Hpc1].
    unfold precommit_message, signed_by in *. simpl in *. rewrite Ht1, Ht2, Ht4, <- Hx. done.
  - intros [Hq|Hq]%orb_true_iff; [|done].
    apply has_quorum_insert; [by rewrite Ht4|done|by apply Hq2].
  - right. by rewrite Hpq.
Qed.

Lemma take_ok a : agg_ok a →
  agg_ok (take_detected_equivocations a).2 ∧ same_target a (take_detected_equivocations a).2.
Proof.
  intros [Hpv Hpc Hspv Hspc Hdet Hflag Huniq Hq1 Hq2 Hr]. split; [|done].
  split; simpl;
    [done|done|done|done|constructor|by intros r []%not_elem_of_nil|constructor|done|done|done].
Qed.

Lemma same_target_trans a b c : same_target a b → same_target b c → same_target a c.
Proof. intros (?&?&?&?) (?&?&?&?). split_and!; congruence. Qed.

Lemma run_ok a ops : agg_ok a → stakes_ok (validators (validator_snapshot a)) →
  agg_ok (run a ops) ∧ same_target a (run a ops).
Proof.
  intros Hok Hst. unfold run. revert a Hok Hst. induction ops as [|op ops IH]; intros a Hok Hst; [done|].
  simpl. assert (agg_ok (apply_op a op) ∧ same_target a (apply_op a op)) as [Hok1 Ht1].
  { destruct op; simpl; [by apply add_prevote_ok|by apply add_precommit_ok|by apply take_ok]. }
  pose proof Ht1 as (_&_&_&Hs). destruct (IH (apply_op a op)) as [Hok2 Ht2]; [done|by rewrite Hs|].
  split; [done|]. by eapply same_target_trans.
Qed.

End aggregator.

(** ** Bitmaps *)
Lemma testbit_one k : k ≠ 0 → Z.testbit 1 k = false.
Proof.
  intros Hk. destruct (decide (k < 0)); [by apply Z.testbit_neg_r|].
  apply Z.bits_above_log2; simpl; lia.
Qed.

Lemma testbit_above b n k : 0 ≤ b < 2 ^ n → n ≤ k → Z.testbit b k = false.
Proof.
  intros Hb Hk. destruct (decide (b = 0)) as [->|Hne]; [apply Z.testbit_0_l|].
  apply Z.bits_above_log2; [lia|]. apply Z.log2_lt_pow2; [lia|].
  destruct (decide (n < 0)); [rewrite Z.pow_neg_r in Hb; lia|].
  pose proof (Z.pow_le_mono_r 2 n k). lia.
Qed.

Lemma lor_lt_pow2 a b n : 0 ≤ a → 0 ≤ b → 0 ≤ n → a < 2 ^ n → b < 2 ^ n → Z.lor a b < 2 ^ n.
Proof.
  intros Ha Hb Hn Ha' Hb'. destruct (decide (Z.lor a b = 0)) as [->|Hne]; [lia|].
  apply Z.log2_lt_pow2; [pose proof (proj2 (Z.lor_nonneg a b)); lia|].
  rewrite Z.log2_lor by done. apply Z.max_lub_lt.
  - destruct (decide (a = 0)) as [->|]; [|apply Z.log2_lt_pow2; lia].
    destruct (decide (n = 0)) as [->|]; [|simpl; lia].
    assert (b = 0) by lia. subst. done.
  - destruct (decide (b = 0)) as [->|]; [|apply Z.log2_lt_pow2; lia].
    destruct (decide (n = 0)) as [->|]; [|simpl; lia].
    assert (a = 0) by lia. subst. done.
Qed.

Definition bytes_ok (bm : bytes) : Prop := Forall (λ b, 0 ≤ b < 256) bm.

Lemma has_bit_set bm i j : (i / 8 < length bm)%nat →
  has_bit (set_bit bm i) j = has_bit bm j || bool_decide (i = j).
Proof.
  intros Hi. unfold has_bit, set_bit. destruct (decide (i / 8 = j / 8)%nat) as [Heq|Hne].
  - rewrite Heq, list_lookup_insert_eq by lia.
    rewrite (list_lookup_lookup_total_lt bm (j / 8)) by lia.
    rewrite Z.lor_spec, Z.shiftl_spec by lia. f_equal.
    pose proof (Nat.div_mod i 8 ltac:(lia)). pose proof (Nat.div_mod j 8 ltac:(lia)).
    case_bool_decide as Hij.
    + subst j. by rewrite Z.sub_diag.
    + apply testbit_one. lia.
  - rewrite list_lookup_insert_ne by done.
    rewrite (bool_decide_false (i = j)) by (by intros ->). by rewrite orb_false_r.
Qed.

Lemma set_bit_length bm i : length (set_bit bm i) = length bm.
Proof. apply length_insert. Qed.

Lemma set_bit_ok bm i : bytes_ok bm → bytes_ok (set_bit bm i).
Proof.
  intros Hok. apply Forall_insert; [done|].
  assert (0 ≤ bm !!! (i / 8)%nat < 256) as [Hb0 Hb1].
  { rewrite list_lookup_total_alt. destruct (bm !! (i / 8)%nat) as [b|] eqn:Hb; [|done].
    unfold bytes_ok in Hok. rewrite Forall_forall in Hok. by apply Hok, (list_elem_of_lookup_2 _ (i / 8)%nat). }
  pose proof (Nat.mod_upper_bound i 8 ltac:(lia)).
  assert (0 ≤ Z.shiftl 1 (Z.of_nat (i mod 8)) < 256) as [Hs0 Hs1].
  { rewrite Z.shiftl_mul_pow2 by lia. pose proof (Z.pow_lt_mono_r 2 (Z.of_nat (i mod 8)) 8). lia. }
  split; [by apply Z.lor_nonneg|]. by apply (lor_lt_pow2 _ _ 8).
Qed.

(** Several bits at once. *)
Lemma set_bits_spec idxs : ∀ bm n, length bm = ((n + 7) / 8)%nat → bytes_ok bm →
  Forall (λ i, (i < n)%nat) idxs →
  length (foldl set_bit bm idxs) = length bm ∧ bytes_ok (foldl set_bit bm idxs) ∧
  ∀ j, has_bit (foldl set_bit bm idxs) j = has_bit bm j || bool_decide (j ∈ idxs).
Proof.
  induction idxs as [|i idxs IH]; intros bm n Hlen Hok Hall; cbn [foldl].
  { split_and!; [done..|]. intros j. rewrite bool_decide_false by apply not_elem_of_nil.
    by rewrite orb_false_r. }
  apply Forall_cons in Hall as [Hi Hall].
  assert (i / 8 < length bm)%nat as Hib.
  { rewrite Hlen. apply Nat.Div0.div_lt_upper_bound.
    pose proof (Nat.div_mod (n + 7) 8 ltac:(lia)). pose proof (Nat.mod_upper_bound (n + 7) 8 ltac:(lia)).
    lia. }
  destruct (IH (set_bit bm i) n) as (Hl&Hb&Hbit); [by rewrite set_bit_length|by apply set_bit_ok|done|].
  rewrite set_bit_length in Hl. split_and!; [done..|]. intros j. rewrite Hbit, has_bit_set by done.
  rewrite <- orb_assoc. f_equal. rewrite <- bool_decide_or. apply bool_decide_ext.
  rewrite elem_of_cons. naive_solver.
Qed.

Lemma has_bit_zeros n j : has_bit (replicate n 0) j = false.
Proof.
  unfold has_bit. destruct (replicate n 0 !! _) as [b|] eqn:Hb; [|done].
  apply lookup_replicate in Hb as [-> _]. apply Z.testbit_0_l.
Qed.

(** No bit past the set. *)
Lemma no_trailing bm n : length bm = ((n + 7) / 8)%nat → bytes_ok bm →
  (∀ j, has_bit bm j = true → (j < n)%nat) → bad_trailing bm n = false.
Proof.
  intros Hlen Hok Hbits. unfold bad_trailing.
  destruct (Nat.eqb_spec (n mod 8) 0) as [|Htr]; [done|]. cbn [negb andb].
  destruct (last bm) as [b|] eqn:Hlast; [|done]. rewrite last_lookup in Hlast.
  apply negb_false_iff, Z.eqb_eq, Z.bits_inj_0. intros k.
  destruct (decide (k < 0)) as [|Hk]; [by apply Z.testbit_neg_r|].
  rewrite Z.shiftr_spec by lia.
  assert (0 ≤ b < 256) as Hb.
  { unfold bytes_ok in Hok. rewrite Forall_forall in Hok. by apply Hok, (list_elem_of_lookup_2 _ _ _ Hlast). }
  destruct (decide (8 ≤ k + Z.of_nat (n mod 8))) as [Hbig|Hsmall].
  - apply (testbit_above b 8); [exact Hb|lia].
  - destruct (Z.testbit b (k + Z.of_nat (n mod 8))) eqn:Ht; [exfalso|done].
    pose proof (Nat.div_mod n 8 ltac:(lia)). pose proof (Nat.mod_upper_bound n 8 ltac:(lia)).
    pose proof (Nat.div_mod (n + 7) 8 ltac:(lia)). pose proof (Nat.mod_upper_bound (n + 7) 8 ltac:(lia)).
    assert ((n + 7) / 8 = n / 8 + 1)%nat as Hd by lia.
    set (j := (8 * (n / 8) + (Z.to_nat k + n mod 8))%nat).
    assert (j / 8 = n / 8 ∧ j mod 8 = Z.to_nat k + n mod 8)%nat as [Hj1 Hj2].
    { unfold j. split; [symmetry; apply (Nat.div_unique _ 8 _ (Z.to_nat k + n mod 8)); lia|].
      symmetry. apply (Nat.mod_unique _ 8 (n / 8)); lia. }
    assert (has_bit bm j = true) as Hj.
    { unfold has_bit. rewrite Hj1, Hj2. replace (pred (length bm)) with (n / 8)%nat in Hlast by lia.
      rewrite Hlast. rewrite <- Ht. f_equal. lia. }
    apply Hbits in Hj. unfold j in Hj. lia.
Qed.

(** ** Sets without repeated addresses *)
Definition set_ok (s : ValidatorSetSnapshot) : Prop :=
  NoDup (address <$> validators s) ∧ stakes_ok (validators s).

Lemma list_find_find {A} (P : A → Prop) `{∀ x, Decision (P x)} (l : list A) :
  snd <$> list_find P l = List.find (λ x, bool_decide (P x)) l.
Proof.
  induction l as [|x l IH]; [done|]. simpl. case_decide; [by rewrite bool_decide_true|].
  rewrite bool_decide_false by done. rewrite <- IH. by destruct (list_find P l) as [[]|].
Qed.

Lemma validator_index_find s x v : find_validator s x = Some v →
  ∃ idx, validator_index s x = Some idx ∧ validators s !! idx = Some v.
Proof.
  unfold find_validator, validator_index. rewrite <- (list_find_find (λ v, address v = x)).
  destruct (list_find _ _) as [[idx w]|] eqn:Hl; [|done]. intros [= ->]. exists idx.
  split; [done|]. by apply list_find_Some in Hl as (?&_).
Qed.

Lemma find_validator_address s v : NoDup (address <$> validators s) → v ∈ validators s →
  find_validator s (address v) = Some v.
Proof.
  unfold find_validator. induction (validators s) as [|w vs IH]; intros Hnd Hin; [by apply not_elem_of_nil in Hin|].
  simpl. rewrite fmap_cons in Hnd. apply NoDup_cons in Hnd as [Hw Hnd].
  apply elem_of_cons in Hin as [->|Hin]; [by rewrite bool_decide_true|].
  rewrite bool_decide_false; [by apply IH|]. intros Heq. apply Hw. rewrite Heq.
  by apply list_elem_of_fmap_2.
Qed.

Lemma elem_of_pick P vs v : ∀ idx, v ∈ pick P idx vs ↔ ∃ i, vs !! i = Some v ∧ P (idx + i)%nat = true.
Proof.
  induction vs as [|w vs IH]; intros idx; simpl.
  { split; [by intros []%not_elem_of_nil|by intros (i&Hi&_)]. }
  assert (v ∈ pick P (S idx) vs ↔ ∃ i, vs !! i = Some v ∧ P (idx + S i)%nat = true) as Hrest.
  { rewrite IH. by setoid_rewrite Nat.add_succ_r. }
  destruct (P idx) eqn:HP; rewrite ?elem_of_cons, Hrest; split.
  - intros [->|(i&Hi&Hp)]; [exists 0%nat; by rewrite Nat.add_0_r|by exists (S i)].
  - intros ([|i]&Hi&Hp); [left; by injection Hi|right; by exists i].
  - intros (i&Hi&Hp). by exists (S i).
  - intros ([|i]&Hi&Hp); [by rewrite Nat.add_0_r, HP in Hp|by exists i].
Qed.

Lemma pick_nodup P vs : ∀ idx, NoDup vs → NoDup (pick P idx vs).
Proof.
  induction vs as [|w vs IH]; intros idx Hnd; simpl; [constructor|].
  apply NoDup_cons in Hnd as [Hw Hnd]. destruct (P idx); [|by apply IH].
  apply NoDup_cons. split; [|by apply IH]. intros Hin. by apply pick_sub in Hin.
Qed.

Lemma voters_nodup s l : NoDup l → NoDup (voters_in_set s l).
Proof.
  unfold voters_in_set. induction l as [|x l IH]; intros Hnd; simpl; [constructor|].
  apply NoDup_cons in Hnd as [Hx Hnd]. destruct (find_validator s x) as [v|] eqn:Hv; [|by apply IH].
  apply NoDup_cons. split; [|by apply IH]. intros (y&Hy&Hv')%list_elem_of_omap.
  apply find_validator_in in Hv as [_ <-], Hv' as [_ Ha]. by subst.
Qed.

(** The set bits of the voters' indices pick exactly the voters. *)
Lemma pick_voters s voters P : set_ok s → NoDup voters →
  (∀ j, P j = true ↔ ∃ x, x ∈ voters ∧ validator_index s x = Some j) →
  pick P 0 (validators s) ≡ₚ voters_in_set s voters.
Proof.
  intros [Hnd _] Hvn HP. apply NoDup_Permutation.
  - apply pick_nodup. by eapply NoDup_fmap_1.
  - by apply voters_nodup.
  - intros v. rewrite elem_of_pick. unfold voters_in_set. rewrite list_elem_of_omap. split.
    + intros (i&Hi&(x&Hx&Hidx)%HP). simpl in Hidx. exists x. split; [done|].
      unfold validator_index in Hidx. destruct (list_find _ _) as [[j w]|] eqn:Hl; [|done].
      injection Hidx as ->. unfold find_validator. rewrite <- (list_find_find (λ v, address v = x)), Hl.
      simpl. apply list_find_Some in Hl as (Hw&_). congruence.
    + intros (x&Hx&Hf). destruct (validator_index_find s x v Hf) as (idx&Hidx&Hv).
      exists idx. split; [done|]. apply HP. eauto.
Qed.

(** ** Aggregation *)
Section aggregate.
Context `{Bls12381}.

Lemma g2_sum_acc x l : foldl g2_add x l = g2_add x (g2_sum l).
Proof.
  unfold g2_sum. revert x. induction l as [|p l IH]; intros x; simpl.
  - by rewrite (comm_L g2_add), g2_add_zero.
  - rewrite IH, (IH (g2_add g2_zero p)), g2_add_zero. by rewrite (assoc_L g2_add).
Qed.

Lemma g2_sum_cons p l : g2_sum (p :: l) = g2_add p (g2_sum l).
Proof. unfold g2_sum at 1. simpl. by rewrite g2_sum_acc, g2_add_zero. Qed.

Lemma g2_sum_perm l k : l ≡ₚ k → g2_sum l = g2_sum k.
Proof.
  induction 1 as [|p l k _ IH|p q l|l k m _ IH1 _ IH2]; [done|..].
  - by rewrite !g2_sum_cons, IH.
  - rewrite !g2_sum_cons, !(assoc_L g2_add). by rewrite (comm_L g2_add q p).
  - by rewrite IH1.
Qed.

Lemma g1_sum_acc x l : foldl g1_add x l = g1_add x (foldl g1_add g1_zero l).
Proof.
  revert x. induction l as [|p l IH]; intros x; simpl.
  - by rewrite (comm_L g1_add), g1_add_zero.
  - rewrite IH, (IH (g1_add g1_zero p)), g1_add_zero. by rewrite (assoc_L g1_add).
Qed.

(** Signatures of one message add up to a signature of the summed key. *)
Lemma pairing_sum h sigs pks : Forall2 (λ σ p, pairing_check σ h p = true) sigs pks →
  pairing_check (foldl g1_add g1_zero sigs) h (g2_sum pks) = true.
Proof.
  induction 1 as [|σ p sigs pks Hp _ IH]; [apply pairing_zero|]. simpl.
  rewrite g1_sum_acc, g1_add_zero, g2_sum_cons. by apply pairing_add.
Qed.

Lemma collect_signers_total bm vs : ∀ idx,
  Forall (λ v, is_ok (parse_key (bls_public_key v)) = true) (pick (has_bit bm) idx vs) →
  ∃ st n pks, collect_signers bm idx vs = Ok (st, n, pks).
Proof.
  induction vs as [|v vs IH]; intros idx Hall; simpl; [by eexists _, _, _|].
  simpl in Hall. destruct (has_bit bm idx); [|by apply IH].
  apply Forall_cons in Hall as [Hv Hall]. destruct (IH (S idx) Hall) as (st&n&pks&->).
  destruct (parse_key (bls_public_key v)) as [p|]; [|done]. by eexists _, _, _.
Qed.

(** A valid signature, taken apart. *)
Lemma verify_bls_sig_spec pk msg sig : verify_bls_sig pk msg sig = Ok () →
  ∃ p σ, parse_key pk = Ok p ∧ length sig = 48%nat ∧ g1_from_compressed sig = Some σ ∧
    pairing_check σ (hash_to_g1 msg) p = true.
Proof.
  unfold verify_bls_sig, parse_sig. destruct (parse_key pk) as [p|]; [|done].
  case_bool_decide as Hlen; [done|]. destruct (g1_from_compressed sig) as [σ|]; [|done]. simpl.
  destruct (_ || _); [done|]. destruct (pairing_check _ _ _) eqn:Hp; [|done]. intros _.
  by exists p, σ.
Qed.

(** The loop over validly signed precommits keeps all of them. *)
Lemma add_signers s msg l : Forall (λ e, signed_by s e.1 msg (pc_sig_bls e.2)) l → ∀ bm g,
  ∃ idxs sigs pks,
    foldl (add_signer s) (bm, g) l = (foldl set_bit bm idxs, foldl g1_add g sigs) ∧
    (∀ j, j ∈ idxs ↔ ∃ x, x ∈ l.*1 ∧ validator_index s x = Some j) ∧
    Forall (λ i, (i < length (validators s))%nat) idxs ∧
    Forall2 (λ v p, parse_key (bls_public_key v) = Ok p) (voters_in_set s l.*1) pks ∧
    Forall2 (λ σ p, pairing_check σ (hash_to_g1 msg) p = true) sigs pks.
Proof.
  induction 1 as [|[x pc] l (v&Hf&Hv) _ IH]; intros bm g.
  { exists [], [], []. split_and!; [done| |constructor..].
    intros j. split; [by intros []%not_elem_of_nil|by intros (?&[]%not_elem_of_nil&_)]. }
  destruct (verify_bls_sig_spec _ _ _ Hv) as (p&σ&Hp&Hlen&Hσ&Hpair).
  destruct (validator_index_find s x v Hf) as (idx&Hidx&Hat). cbn [fst snd] in *.
  destruct (IH (set_bit bm idx) (g1_add g σ)) as (idxs&sigs&pks&Hfold&Hin&Hlt&Hkeys&Hsigs).
  exists (idx :: idxs), (σ :: sigs), (p :: pks). split_and!.
  - cbn [foldl]. unfold add_signer at 2. cbn [fst snd].
    rewrite Hidx, bool_decide_false by (rewrite Hlen; tauto). by rewrite Hσ, Hfold.
  - intros j. rewrite elem_of_cons, Hin, fmap_cons. cbn [fst]. setoid_rewrite elem_of_cons. split.
    + intros [->|(y&Hy&Hj)]; eauto.
    + intros (y&[->|Hy]&Hj); [left; congruence|right; eauto].
  - constructor; [by eapply lookup_lt_Some|done].
  - unfold voters_in_set in *. simpl. rewrite Hf. by constructor.
  - by constructor.
Qed.

Definition key_of (v : ValidatorEntry) : option G2 :=
  match parse_key (bls_public_key v) with Ok p => Some p | Err _ => None end.

Lemma keys_omap vs ps : Forall2 (λ v p, parse_key (bls_public_key v) = Ok p) vs ps →
  ps = omap key_of vs.
Proof. induction 1 as [|v p vs ps Hv _ ->]; [done|]. simpl. unfold key_of at 2. by rewrite Hv. Qed.

(** Keys of permuted validators sum to the same key. *)
Lemma keys_perm (vs ws : list ValidatorEntry) ps qs : vs ≡ₚ ws →
  Forall2 (λ v p, parse_key (bls_public_key v) = Ok p) vs ps →
  Forall2 (λ v p, parse_key (bls_public_key v) = Ok p) ws qs → g2_sum ps = g2_sum qs.
Proof. intros Hp ->%keys_omap ->%keys_omap. apply g2_sum_perm. by rewrite Hp. Qed.

(** A certificate whose bitmap marks exactly the signers of a quorum is
    checked down to the two identity tests. *)
Lemma cert_verify_signers c s voters pks sigs : set_ok s → NoDup voters →
  0 ≤ snap_epoch s → c_epoch c = snap_epoch s → c_set_hash c = set_hash s →
  length (bitmap c) = ((length (validators s) + 7) / 8)%nat → bytes_ok (bitmap c) →
  (∀ j, has_bit (bitmap c) j = true ↔ ∃ x, x ∈ voters ∧ validator_index s x = Some j) →
  has_quorum s voters = true →
  Forall2 (λ v p, parse_key (bls_public_key v) = Ok p) (voters_in_set s voters) pks →
  Forall2 (λ σ p, pairing_check σ (hash_to_g1 (cert_signing_message c)) p = true) sigs pks →
  agg_sig_bls c = g1_to_compressed (foldl g1_add g1_zero sigs) →
  cert_verify c s =
    if bool_decide (g2_sum pks = g2_zero) then Err AggregateKeyIdentity
    else if bool_decide (foldl g1_add g1_zero sigs = g1_zero) then Err AggregateSigIdentity
    else Ok ().
Proof.
  intros Hs Hnd He0 He Hsh Hlen Hbok Hbits Hq Hkeys Hsigs Hagg.
  pose proof (pick_voters s voters (has_bit (bitmap c)) Hs Hnd Hbits) as Hperm.
  unfold cert_verify, BLS_RFC9380_ACTIVATION_EPOCH. rewrite He.
  destruct (Z.ltb_spec (snap_epoch s) 0); [lia|].
  rewrite bool_decide_false by tauto. rewrite Z.eqb_refl. cbn [negb].
  rewrite bool_decide_false by tauto. rewrite no_trailing; [|done|done|].
  2: { intros j (x&_&Hx)%Hbits. unfold validator_index in Hx.
       destruct (list_find _ _) as [[i w]|] eqn:Hl; [|done]. injection Hx as ->.
       apply list_find_Some in Hl as (Hw&_). by eapply lookup_lt_Some. }
  destruct (collect_signers_total (bitmap c) (validators s) 0) as (st&n&ps&Hc).
  { rewrite Hperm. clear -Hkeys. induction Hkeys as [|v p vs ps Hv _ IH]; constructor; [by rewrite Hv|done]. }
  rewrite Hc. apply collect_signers_spec in Hc as (->&->&Hps).
  rewrite (keys_perm _ _ _ _ Hperm Hps Hkeys).
  unfold has_quorum in Hq. apply andb_true_iff in Hq as [Hq1%Z.leb_le Hq2%Z.leb_le].
  unfold stakes. rewrite (Permutation_length Hperm), Hperm.
  destruct (Z.ltb_spec (sumZ (stake <$> voters_in_set s voters)) (quorum_stake s)); [lia|].
  destruct (Z.ltb_spec (Z.of_nat (length (voters_in_set s voters))) (quorum_count s)); [lia|].
  rewrite (bool_decide_false (ps = [])).
  2: { intros ->. apply Forall2_nil_inv_r in Hps. rewrite Hps in Hperm.
       apply Permutation_nil in Hperm. rewrite Hperm in Hq1. destruct Hs as [_ Hst].
       pose proof (quorum_stake_pos s Hst). change (sumZ (stake <$> [])) with 0 in Hq1. lia. }
  destruct (bool_decide (g2_sum pks = g2_zero)); [done|].
  rewrite Hagg, g1_compressed_length, bool_decide_false by tauto.
  rewrite g1_decompress. cbn [ok_or]. destruct (bool_decide (_ = g1_zero)); [done|].
  by rewrite pairing_sum.
Qed.

End aggregate.
End FinalityLemmas.
