(* ===== verification/FinalityProps.v ===== *)
(** * Properties of checkpoint finality

    Two conflicting certificates share signers with more than a third of the
    stake, an aggregator's certificate verifies, a quorum of votes is enough
    to produce one, and double signing is reported exactly when two valid
    conflicting votes were seen. *)
From stdpp Require Import base tactics numbers list gmap strings sorting.
From Stdlib Require Import ZArith Lia.
From Stdlib Require Import Strings.Byte.
From S2P Require Import Prelude Messages Bridge Registry Commitments Erasure ErasureField.
From S2P Require Import Finality FinalityBase.
Import Finality.Finality FinalityLemmas.
Open Scope Z_scope.

(** ** What a step may change *)
Module ProgressLemmas.
Section progress.
Context `{Bls12381}.
Implicit Types a : FinalityAggregator.

(** Detection touches only what was seen and what is reported. *)
Definition frame a a' : Prop :=
  same_target a a' ∧ prevotes a' = prevotes a ∧ precommits a' = precommits a ∧
  prevote_quorum_reached a' = prevote_quorum_reached a ∧
  precommit_quorum_reached a' = precommit_quorum_reached a.

Lemma record_frame a voter h1 s1 h2 s2 : frame a (record_equivocation a voter h1 s1 h2 s2).
Proof. unfold record_equivocation. by case_bool_decide. Qed.

Lemma detect_prevote_frame a v : frame a (detect_prevote_equivocation a v).
Proof.
  unfold detect_prevote_equivocation. destruct (seen_prevotes a !! _) as [[h sig]|]; [|done].
  case_bool_decide; [apply record_frame|done].
Qed.

Lemma detect_precommit_frame a v : frame a (detect_precommit_equivocation a v).
Proof.
  unfold detect_precommit_equivocation. destruct (seen_precommits a !! _) as [[h sig]|]; [|done].
  case_bool_decide; [apply record_frame|done].
Qed.

(** At most one report is added, about a voter not reported before. *)
Definition grows a a' : Prop :=
  (detected_equivocations a' = detected_equivocations a ∧
   flagged_equivocators a' = flagged_equivocators a) ∨
  ∃ r, (Evidence.offender r ∉ flagged_equivocators a) ∧
    detected_equivocations a' = detected_equivocations a ++ [r] ∧
    flagged_equivocators a' = {[ Evidence.offender r ]} ∪ flagged_equivocators a.

Lemma record_grows a voter h1 s1 h2 s2 : grows a (record_equivocation a voter h1 s1 h2 s2).
Proof. unfold record_equivocation, grows. case_bool_decide as Hin; [by left|right]. eexists. split_and!; [|done..]. done. Qed.

Lemma detect_prevote_grows a v : grows a (detect_prevote_equivocation a v).
Proof.
  unfold detect_prevote_equivocation. destruct (seen_prevotes a !! _) as [[h sig]|]; [|by left].
  case_bool_decide; [apply record_grows|by left].
Qed.

Lemma detect_precommit_grows a v : grows a (detect_precommit_equivocation a v).
Proof.
  unfold detect_precommit_equivocation. destruct (seen_precommits a !! _) as [[h sig]|]; [|by left].
  case_bool_decide; [apply record_grows|by left].
Qed.

(** A vote either leaves the aggregator alone, or is detected, and possibly
    stored. *)
Lemma add_prevote_cases a v :
  (add_prevote a v).2 = a ∨ (add_prevote a v).2 = detect_prevote_equivocation a v ∨
  (prevotes (detect_prevote_equivocation a v) !! pv_voter_id v = None ∧
   (add_prevote a v).2 = check_prevote_quorum (set_prevotes (detect_prevote_equivocation a v)
     (<[pv_voter_id v := v]> (prevotes (detect_prevote_equivocation a v))))).
Proof.
  unfold add_prevote. destruct (negb _); [by left|]. destruct (negb _); [by left|].
  destruct (find_validator _ _); [|by left]. simpl. destruct (verify_bls_sig _ _ _) as [[]|]; [|by left].
  right. case_bool_decide; [by left|]. case_bool_decide as Hd; [by left|right].
  split; [by apply eq_None_not_Some|done].
Qed.

Lemma add_precommit_cases a v :
  (add_precommit a v).2 = a ∨ (add_precommit a v).2 = detect_precommit_equivocation a v ∨
  (precommits (detect_precommit_equivocation a v) !! pc_voter_id v = None ∧
   (add_precommit a v).2 = check_precommit_quorum (set_precommits (detect_precommit_equivocation a v)
     (<[pc_voter_id v := v]> (precommits (detect_precommit_equivocation a v))))).
Proof.
  unfold add_precommit. destruct (negb _); [by left|]. destruct (negb _); [by left|].
  destruct (negb _); [by left|].
  destruct (find_validator _ _); [|by left]. simpl. destruct (verify_bls_sig _ _ _) as [[]|]; [|by left].
  right. case_bool_decide; [by left|]. case_bool_decide as Hd; [by left|right].
  split; [by apply eq_None_not_Some|done].
Qed.

Lemma step_grows a op : op ≠ OpTake → grows a (apply_op a op).
Proof.
  intros Hop. destruct op as [v|v|]; [..|done]; simpl.
  - destruct (add_prevote_cases a v) as [->|[->|[_ ->]]]; [by left|..]; apply detect_prevote_grows.
  - destruct (add_precommit_cases a v) as [->|[->|[_ ->]]]; [by left|..]; apply detect_precommit_grows.
Qed.

(** Votes, sightings and flags are never lost. *)
Record moves a a' : Prop := {
  mv_target : same_target a a';
  mv_prevotes : prevotes a ⊆ prevotes a';
  mv_precommits : precommits a ⊆ precommits a';
  mv_quorum : prevote_quorum_reached a = true → prevote_quorum_reached a' = true;
  mv_seen_prevotes : seen_prevotes a ⊆ seen_prevotes a';
  mv_seen_precommits : seen_precommits a ⊆ seen_precommits a';
  mv_flagged : flagged_equivocators a ⊆ flagged_equivocators a';
}.

#[export] Instance moves_preorder : PreOrder moves.
Proof.
  split; [by split; [done|..]|]. intros a b c [] []. split.
  - by eapply same_target_trans.
  - by etrans.
  - by etrans.
  - auto.
  - by etrans.
  - by etrans.
  - by etrans.
Qed.

Lemma record_moves a voter h1 s1 h2 s2 : moves a (record_equivocation a voter h1 s1 h2 s2).
Proof.
  unfold record_equivocation. case_bool_decide; [done|]. split; simpl; try done. apply union_subseteq_r.
Qed.

Lemma detect_prevote_moves a v : moves a (detect_prevote_equivocation a v).
Proof.
  unfold detect_prevote_equivocation. destruct (seen_prevotes a !! _) as [[h sig]|] eqn:Hs.
  - case_bool_decide; [apply record_moves|done].
  - split; simpl; try done. by apply insert_subseteq.
Qed.

Lemma detect_precommit_moves a v : moves a (detect_precommit_equivocation a v).
Proof.
  unfold detect_precommit_equivocation. destruct (seen_precommits a !! _) as [[h sig]|] eqn:Hs.
  - case_bool_decide; [apply record_moves|done].
  - split; simpl; try done. by apply insert_subseteq.
Qed.

Lemma step_moves a op : moves a (apply_op a op).
Proof.
  destruct op as [v|v|]; simpl; [..|by split].
  - destruct (add_prevote_cases a v) as [->|[->|[Hn ->]]]; [done|apply detect_prevote_moves|].
    etrans; [apply (detect_prevote_moves a v)|]. split; simpl; try done.
    + by apply insert_subseteq.
    + by intros ->.
  - destruct (add_precommit_cases a v) as [->|[->|[Hn ->]]]; [done|apply detect_precommit_moves|].
    etrans; [apply (detect_precommit_moves a v)|]. split; simpl; try done. by apply insert_subseteq.
Qed.

Lemma run_moves a ops : moves a (run a ops).
Proof.
  unfold run. revert a. induction ops as [|op ops IH]; intros a; [done|].
  etrans; [apply step_moves|apply IH].
Qed.

(** ** Votes that count *)
Definition valid_prevote (e h : Z) (s : ValidatorSetSnapshot) (v : Prevote) : Prop :=
  pv_epoch v = e ∧ pv_checkpoint_height v = h ∧
  signed_by s (pv_voter_id v) (prevote_signing_message v) (pv_sig_bls v).

Definition valid_precommit (e h : Z) (s : ValidatorSetSnapshot) (v : Precommit) : Prop :=
  pc_epoch v = e ∧ pc_checkpoint_height v = h ∧
  signed_by s (pc_voter_id v) (precommit_signing_message v) (pc_sig_bls v).

(** A valid vote is always seen by the detection, and stored when it is for
    the aggregator's checkpoint. *)
Lemma add_prevote_valid a v : valid_prevote (epoch a) (checkpoint_height a) (validator_snapshot a) v →
  ∃ a', (add_prevote a v).2 = a' ∧ moves (detect_prevote_equivocation a v) a' ∧
    (pv_checkpoint_hash v = checkpoint_hash a → is_Some (prevotes a' !! pv_voter_id v)).
Proof.
  intros (He&Hh&w&Hf&Hsig). eexists. split; [done|]. unfold add_prevote.
  rewrite He, Hh, !Z.eqb_refl, Hf. simpl. rewrite Hsig.
  destruct (detect_prevote_frame a v) as ((_&_&Hx&_)&_).
  case_bool_decide as Hne; simpl; [split; [done|congruence]|].
  case_bool_decide as Hd; simpl; [done|]. split; [|by rewrite lookup_insert_eq].
  split; simpl; try done; [apply insert_subseteq; by apply eq_None_not_Some|by intros ->].
Qed.

Lemma add_precommit_valid a v : valid_precommit (epoch a) (checkpoint_height a) (validator_snapshot a) v →
  prevote_quorum_reached a = true →
  ∃ a', (add_precommit a v).2 = a' ∧ moves (detect_precommit_equivocation a v) a' ∧
    (pc_checkpoint_hash v = checkpoint_hash a → is_Some (precommits a' !! pc_voter_id v)).
Proof.
  intros (He&Hh&w&Hf&Hsig) Hq. eexists. split; [done|]. unfold add_precommit.
  rewrite He, Hh, !Z.eqb_refl, Hq, Hf. simpl. rewrite Hsig.
  destruct (detect_precommit_frame a v) as ((_&_&Hx&_)&_).
  case_bool_decide as Hne; simpl; [split; [done|congruence]|].
  case_bool_decide as Hd; simpl; [done|]. split; [|by rewrite lookup_insert_eq].
  split; simpl; try done. apply insert_subseteq. by apply eq_None_not_Some.
Qed.

(** The state in which an operation of the sequence is applied. *)
Lemma run_at a ops op : op ∈ ops → ∃ b, moves a b ∧ moves (apply_op b op) (run a ops).
Proof.
  intros (l&k&->)%list_elem_of_split. exists (run a l). split; [apply run_moves|].
  unfold run. rewrite foldl_app. apply (run_moves (apply_op (foldl apply_op a l) op) k).
Qed.

(** A stored quorum is noticed at once. *)
Definition quorum_seen a : Prop :=
  (has_quorum (validator_snapshot a) (map_to_list (prevotes a)).*1 = true →
    prevote_quorum_reached a = true) ∧
  (has_quorum (validator_snapshot a) (map_to_list (precommits a)).*1 = true →
    precommit_quorum_reached a = true).

Lemma frame_seen a a' : frame a a' → quorum_seen a → quorum_seen a'.
Proof. unfold quorum_seen. by intros ((_&_&_&->)&->&->&->&->). Qed.

Lemma step_seen a op : quorum_seen a → quorum_seen (apply_op a op).
Proof.
  intros Hs. destruct op as [v|v|]; simpl; [..|done].
  - pose proof (frame_seen _ _ (detect_prevote_frame a v) Hs) as Hd.
    destruct (add_prevote_cases a v) as [->|[->|[_ ->]]]; [done|done|].
    destruct Hd as [_ Hd]. split; [|done]. simpl. intros Hq. rewrite Hq. apply orb_true_r.
  - pose proof (frame_seen _ _ (detect_precommit_frame a v) Hs) as Hd.
    destruct (add_precommit_cases a v) as [->|[->|[_ ->]]]; [done|done|].
    destruct Hd as [Hd _]. split; [done|]. simpl. intros Hq. rewrite Hq. apply orb_true_r.
Qed.

Lemma no_quorum_empty s : stakes_ok (validators s) → has_quorum s [] = false.
Proof.
  intros Hst. pose proof (quorum_stake_pos s Hst). unfold has_quorum, voters_in_set.
  apply andb_false_iff. left. apply Z.leb_gt. exact H0.
Qed.

Lemma run_seen e h x s ops : stakes_ok (validators s) → quorum_seen (run (new e h x s) ops).
Proof.
  intros Hst. unfold run. induction ops as [|op ops IH] using rev_ind.
  - split; simpl; rewrite map_to_list_empty; by rewrite no_quorum_empty.
  - rewrite foldl_app. by apply step_seen.
Qed.

(** More voters keep a quorum. *)
Lemma has_quorum_sub s l k : stakes_ok (validators s) → NoDup l → (∀ x, x ∈ l → x ∈ k) →
  has_quorum s l = true → has_quorum s k = true.
Proof.
  intros Hst Hnd Hsub Hq. destruct (submseteq_Permutation l k) as [k' Hk].
  { by apply NoDup_submseteq. }
  rewrite (has_quorum_perm s k (k' ++ l)) by (by rewrite Hk, Permutation_app_comm).
  clear Hk. induction k' as [|y k' IH]; [done|]. by apply has_quorum_cons.
Qed.

Lemma elem_of_keys {V} (m : gmap bytes V) x : is_Some (m !! x) → x ∈ (map_to_list m).*1.
Proof. intros [v Hv]. apply (list_elem_of_fmap_2' fst _ (x, v)); [by apply elem_of_map_to_list|done]. Qed.

(** ** Reports *)

(** The reports handed out by [take_detected_equivocations] along a run. *)
Definition take_step (st : FinalityAggregator * list Evidence.SlashingReport) (op : AggOp) :
    FinalityAggregator * list Evidence.SlashingReport :=
  (apply_op st.1 op,
   st.2 ++ match op with OpTake => (take_detected_equivocations st.1).1 | _ => [] end).

Definition all_reports a ops : list Evidence.SlashingReport :=
  let '(a', taken) := foldl take_step (a, []) ops in taken ++ detected_equivocations a'.

Lemma take_step_run a rs ops : (foldl take_step (a, rs) ops).1 = run a ops.
Proof. unfold run. revert a rs. induction ops as [|op ops IH]; intros a rs; [done|]. apply IH. Qed.

(** The flags are the offenders of all reports so far. *)
Record reports_ok a (rs : list Evidence.SlashingReport) : Prop := {
  rp_supported : Forall (supported a) rs;
  rp_unique : NoDup (Evidence.offender <$> rs);
  rp_flagged : ∀ x, x ∈ flagged_equivocators a ↔ x ∈ Evidence.offender <$> rs;
}.

Lemma supported_target a b r : same_target a b → supported a r → supported b r.
Proof.
  intros (He&Hh&Hx&Hs) (voter&h1&s1&h2&s2&->&Hne&Hsup). exists voter, h1, s1, h2, s2.
  unfold prevote_message, precommit_message in *. rewrite He, Hh, Hs. done.
Qed.

Lemma step_reports a op taken : agg_ok a → stakes_ok (validators (validator_snapshot a)) →
  reports_ok a (taken ++ detected_equivocations a) →
  let st := take_step (a, taken) op in reports_ok st.1 (st.2 ++ detected_equivocations st.1).
Proof.
  intros Hok Hst [Hsup Hnd Hfl]. cbn zeta.
  assert (same_target a (apply_op a op)) as Ht by apply step_moves.
  destruct (run_ok a [op] Hok Hst) as [Hok' _]. simpl in Hok'.
  assert (op = OpTake ∨ op ≠ OpTake) as [->|Hop] by (destruct op; [by right..|by left]).
  { simpl in *. rewrite app_nil_r. split; [|done|done].
    eapply Forall_impl; [done|]. intros r. by apply supported_target. }
  assert (take_step (a, taken) op = (apply_op a op, taken)) as ->.
  { unfold take_step. simpl. destruct op; [by rewrite app_nil_r..|done]. }
  cbn [fst snd]. destruct (step_grows a op Hop) as [[-> Hf]|(r&Hr&Hdet&Hf)].
  - split; [|done|by rewrite Hf]. eapply Forall_impl; [done|]. intros r. by apply supported_target.
  - pose proof (ok_detected _ Hok') as Hd. rewrite Hdet in Hd |- *. rewrite app_assoc. split.
    + apply Forall_app in Hd as [_ Hd]. apply Forall_app. split; [|done].
      eapply Forall_impl; [done|]. intros q. by apply supported_target.
    + rewrite fmap_app. apply NoDup_app. split_and!; [done| |apply NoDup_singleton].
      intros y Hy Hy'. apply list_elem_of_singleton in Hy' as ->. by apply Hr, Hfl.
    + intros y. rewrite Hf, elem_of_union, elem_of_singleton, Hfl, (fmap_app _ _ [r]), (elem_of_app (_ <$> _)).
      simpl. rewrite list_elem_of_singleton. tauto.
Qed.

Lemma all_reports_ok e h x s ops : stakes_ok (validators s) →
  reports_ok (run (new e h x s) ops) (all_reports (new e h x s) ops).
Proof.
  intros Hst. unfold all_reports. rewrite <- (take_step_run _ []).
  enough (agg_ok (foldl take_step (new e h x s, []) ops).1 ∧
    validator_snapshot (foldl take_step (new e h x s, []) ops).1 = s ∧
    let st := foldl take_step (new e h x s, []) ops in
    reports_ok st.1 (st.2 ++ detected_equivocations st.1)) as (_&_&Hr).
  { by destruct (foldl take_step _ ops). }
  induction ops as [|op ops (Hok&Hs&Hr)] using rev_ind.
  { split_and!; [apply new_agg_ok|done|]. split; simpl; [constructor|constructor|]. intros y.
    split; [by intros []%elem_of_empty|by intros []%not_elem_of_nil]. }
  rewrite foldl_app. cbn [foldl]. set (st := foldl take_step _ ops) in *.
  destruct (run_ok st.1 [op] Hok) as [Hok' (_&_&_&Hs')]; [by rewrite Hs|]. split_and!.
  - exact Hok'.
  - by rewrite <- Hs.
  - destruct st as [a taken]. cbn [fst snd] in *. apply step_reports; [done|by rewrite Hs|done].
Qed.

(** A vote that was detected is the one on record, or its voter is flagged. *)
Lemma detect_prevote_seen a v :
  let a' := detect_prevote_equivocation a v in
  pv_voter_id v ∈ flagged_equivocators a' ∨
  ∃ sig, seen_prevotes a' !! pv_voter_id v = Some (pv_checkpoint_hash v, sig).
Proof.
  cbn zeta. unfold detect_prevote_equivocation. destruct (seen_prevotes a !! _) as [[h sig]|] eqn:Hs.
  - case_bool_decide as Hne; [left|right; exists sig; by rewrite Hs, Hne].
    unfold record_equivocation. case_bool_decide; [done|]. simpl. set_solver.
  - right. eexists. simpl. apply lookup_insert_eq.
Qed.

Lemma detect_precommit_seen a v :
  let a' := detect_precommit_equivocation a v in
  pc_voter_id v ∈ flagged_equivocators a' ∨
  ∃ sig, seen_precommits a' !! pc_voter_id v = Some (pc_checkpoint_hash v, sig).
Proof.
  cbn zeta. unfold detect_precommit_equivocation. destruct (seen_precommits a !! _) as [[h sig]|] eqn:Hs.
  - case_bool_decide as Hne; [left|right; exists sig; by rewrite Hs, Hne].
    unfold record_equivocation. case_bool_decide; [done|]. simpl. set_solver.
  - right. eexists. simpl. apply lookup_insert_eq.
Qed.

(** A flag or a sighting from the moment of the vote on. *)
Lemma prevote_marked e h x s ops v : OpPrevote v ∈ ops → valid_prevote e h s v →
  let a := run (new e h x s) ops in
  pv_voter_id v ∈ flagged_equivocators a ∨
  ∃ sig, seen_prevotes a !! pv_voter_id v = Some (pv_checkpoint_hash v, sig).
Proof.
  intros Hop Hv. cbn zeta. destruct (run_at (new e h x s) ops _ Hop) as (b&[(He&Hh&_&Hs) _ _ _ _ _ _]&Hmv).
  destruct (add_prevote_valid b v) as (a'&Ha'&Hmd&_); [by rewrite He, Hh, Hs|].
  simpl in Hmv. rewrite Ha' in Hmv. pose proof (transitivity Hmd Hmv) as Hm.
  destruct (detect_prevote_seen b v) as [Hfl|[sig Hseen]].
  - left. by apply (mv_flagged _ _ Hm).
  - right. exists sig. by eapply lookup_weaken, (mv_seen_prevotes _ _ Hm).
Qed.

Lemma precommit_marked a ops v : OpPrecommit v ∈ ops → prevote_quorum_reached a = true →
  valid_precommit (epoch a) (checkpoint_height a) (validator_snapshot a) v →
  pc_voter_id v ∈ flagged_equivocators (run a ops) ∨
  ∃ sig, seen_precommits (run a ops) !! pc_voter_id v = Some (pc_checkpoint_hash v, sig).
Proof.
  intros Hop Hq Hv. destruct (run_at a ops _ Hop) as (b&Hmb&Hmv).
  pose proof (mv_quorum _ _ Hmb Hq) as Hqb. destruct Hmb as [(He&Hh&_&Hs) _ _ _ _ _ _].
  destruct (add_precommit_valid b v) as (a'&Ha'&Hmd&_); [by rewrite He, Hh, Hs|done|].
  simpl in Hmv. rewrite Ha' in Hmv. pose proof (transitivity Hmd Hmv) as Hm.
  destruct (detect_precommit_seen b v) as [Hfl|[sig Hseen]].
  - left. by apply (mv_flagged _ _ Hm).
  - right. exists sig. by eapply lookup_weaken, (mv_seen_precommits _ _ Hm).
Qed.

Lemma signed_nonempty s voter msg sig : signed_by s voter msg sig → sig ≠ [].
Proof. intros (v&_&(p&σ&_&Hlen&_)%verify_bls_sig_spec) ->. done. Qed.

Lemma supported_actionable a r : supported a r → Evidence.offender r ≠ zero32 →
  Evidence.is_actionable r = Ok ().
Proof.
  intros (voter&h1&s1&h2&s2&->&Hne&Hsup) Hz.
  assert (s1 ≠ [] ∧ s2 ≠ []) as [Hs1 Hs2]
    by (destruct Hsup as [[]|[]]; split; by eapply signed_nonempty).
  unfold Evidence.is_actionable, Evidence.validate_shape. cbn [Evidence.offender Evidence.proof Evidence.provenance
    Evidence.consensus_double_sign Evidence.new] in *.
  rewrite decide_False by done. rewrite decide_False by done. by rewrite !bool_decide_false.
Qed.

End progress.
End ProgressLemmas.

(** ** The theorems *)
Module FinalityClaims.
Import ProgressLemmas.
Section claims.
Context `{Bls12381}.


(** C8: whatever votes and reads an aggregator goes through, it produces a
    certificate exactly when its precommits are a quorum; the certificate is
    for the aggregator's checkpoint, its bitmap marks exactly the voters
    whose precommits are stored, and it verifies against the set unless the
    summed key or the summed signature is the identity. *)
Theorem cert_produced_verifies e h x s ops :
  set_ok s → snap_epoch s = e → 0 ≤ e →
  let a := run (new e h x s) ops in
  let voters := (map_to_list (precommits a)).*1 in
  match try_produce_cert a with
  | None => has_quorum s voters = false
  | Some c =>
      has_quorum s voters = true ∧ c_checkpoint_height c = h ∧ c_checkpoint_hash c = x ∧
      pick (has_bit (bitmap c)) 0 (validators s) ≡ₚ voters_in_set s voters ∧
      ∃ pks sig, Forall2 (λ v p, parse_key (bls_public_key v) = Ok p) (voters_in_set s voters) pks ∧
        g1_from_compressed (agg_sig_bls c) = Some sig ∧
        cert_verify c s =
          if bool_decide (g2_sum pks = g2_zero) then Err AggregateKeyIdentity
          else if bool_decide (sig = g1_zero) then Err AggregateSigIdentity
          else Ok ()
  end.
Proof.
  intros Hs Hse He. cbn zeta. pose proof (proj2 Hs) as Hst.
  destruct (run_ok _ ops (new_agg_ok e h x s) Hst) as [Hok (Ht1&Ht2&Ht3&Ht4)].
  destruct (run_seen e h x s ops Hst) as [_ Hseen]. cbn [epoch checkpoint_height checkpoint_hash validator_snapshot new] in *.
  set (a := run _ ops) in *. set (voters := (map_to_list (precommits a)).*1) in *.
  unfold try_produce_cert. rewrite Ht4 in *. destruct (precommit_quorum_reached a) eqn:Hq; cbn [negb].
  2: { destruct (has_quorum s voters); [by specialize (Hseen eq_refl)|done]. }
  pose proof (ok_precommit_quorum a Hok Hq) as Hquo. rewrite Ht4 in Hquo.
  destruct (add_signers s (checkpoint_signing_message e h x) (map_to_list (precommits a)))
    with (bm := replicate ((length (validators s) + 7) / 8) 0) (g := g1_zero)
    as (idxs&sigs&pks&Hfold&Hin&Hlt&Hkeys&Hsigs).
  { apply Forall_forall. intros [y pc] Hy%elem_of_map_to_list. cbn [fst snd].
    pose proof (ok_precommits a Hok y pc Hy) as Hsig. unfold precommit_message in Hsig.
    by rewrite Ht1, Ht2, Ht3, Ht4 in Hsig. }
  rewrite Hfold.
  destruct (set_bits_spec idxs (replicate ((length (validators s) + 7) / 8) 0) (length (validators s)))
    as (Hlen&Hbok&Hbits); [by rewrite length_replicate|by apply Forall_replicate|done|].
  rewrite length_replicate in Hlen.
  assert (∀ j, has_bit (foldl set_bit (replicate ((length (validators s) + 7) / 8) 0) idxs) j = true ↔
    ∃ x, x ∈ voters ∧ validator_index s x = Some j) as Hmark.
  { intros j. rewrite Hbits, has_bit_zeros. cbn [orb]. by rewrite bool_decide_eq_true, Hin. }
  assert (NoDup voters) as Hnd by apply NoDup_fst_map_to_list.
  cbn [c_checkpoint_height c_checkpoint_hash bitmap agg_sig_bls].
  split_and!; [done..|by apply pick_voters|].
  exists pks, (foldl g1_add g1_zero sigs). split_and!; [done|apply g1_decompress|].
  eapply cert_verify_signers; try done; cbn [c_epoch c_set_hash bitmap agg_sig_bls]; [by rewrite Hse|by rewrite Ht1, Hse|].
  unfold cert_signing_message. cbn [c_epoch c_checkpoint_height c_checkpoint_hash]. by rewrite Ht1, Ht2, Ht3.
Qed.

(** C9: liveness under any interleaving.  If the operations contain valid
    prevotes for the checkpoint from a quorum, and after them valid
    precommits from a quorum, then a certificate is produced, whatever other
    votes, valid or not, come before, between or after. *)
Theorem finality_live e h x s ops1 ops2 pvs pcs :
  stakes_ok (validators s) →
  Forall (λ v, OpPrevote v ∈ ops1 ∧ valid_prevote e h s v ∧ pv_checkpoint_hash v = x) pvs →
  NoDup (pv_voter_id <$> pvs) → has_quorum s (pv_voter_id <$> pvs) = true →
  Forall (λ v, OpPrecommit v ∈ ops2 ∧ valid_precommit e h s v ∧ pc_checkpoint_hash v = x) pcs →
  NoDup (pc_voter_id <$> pcs) → has_quorum s (pc_voter_id <$> pcs) = true →
  is_Some (try_produce_cert (run (new e h x s) (ops1 ++ ops2))).
Proof.
  intros Hst Hpvs Hpn Hpq Hpcs Hcn Hcq. rewrite Forall_forall in Hpvs. rewrite Forall_forall in Hpcs.
  assert (run (new e h x s) (ops1 ++ ops2) = run (run (new e h x s) ops1) ops2) as Happ
    by (unfold run; by rewrite foldl_app).
  assert (prevote_quorum_reached (run (new e h x s) ops1) = true) as Hr1.
  { apply (run_seen e h x s ops1 Hst). pose proof (mv_target _ _ (run_moves (new e h x s) ops1)) as (_&_&_&->).
    eapply has_quorum_sub; [done|exact Hpn| |exact Hpq]. intros y (v&->&(Hop&Hv&Hx)%Hpvs)%list_elem_of_fmap.
    apply elem_of_keys. destruct (run_at (new e h x s) ops1 _ Hop) as (b&[(He&Hh&Hb&Hs) _ _ _ _ _ _]&Hmv).
    destruct (add_prevote_valid b v) as (a'&Ha'&_&Hst'); [by rewrite He, Hh, Hs|]. simpl in Hmv.
    rewrite Ha' in Hmv. eapply lookup_weaken_is_Some; [|apply (mv_prevotes _ _ Hmv)].
    apply Hst'. by rewrite Hb. }
  assert (precommit_quorum_reached (run (new e h x s) (ops1 ++ ops2)) = true) as Hr2.
  { apply (run_seen e h x s _ Hst). pose proof (mv_target _ _ (run_moves (new e h x s) (ops1 ++ ops2))) as (_&_&_&->).
    eapply has_quorum_sub; [done|exact Hcn| |exact Hcq]. intros y (v&->&(Hop&Hv&Hx)%Hpcs)%list_elem_of_fmap.
    apply elem_of_keys. rewrite Happ.
    destruct (run_at (run (new e h x s) ops1) ops2 _ Hop) as (b&Hmb&Hmv).
    pose proof (mv_quorum _ _ Hmb Hr1) as Hqb.
    destruct (mv_target _ _ (transitivity (run_moves (new e h x s) ops1) Hmb)) as (He&Hh&Hb&Hs).
    destruct (add_precommit_valid b v) as (a'&Ha'&_&Hst'); [by rewrite He, Hh, Hs|done|]. simpl in Hmv.
    rewrite Ha' in Hmv. eapply lookup_weaken_is_Some; [|apply (mv_precommits _ _ Hmv)].
    apply Hst'. by rewrite Hb. }
  unfold try_produce_cert. rewrite Hr2. cbn [negb]. destruct (foldl _ _ _). by eexists.
Qed.

(** C10: double signing is reported exactly.  Over any run, with the reports
    handed out and those still pending taken together: every report is backed
    by two valid signatures of its offender on different hashes of one round
    and passes the evidence check of the slashing registry; no voter is
    reported twice; and a voter with two valid prevotes on different hashes,
    or two such precommits after the prevote quorum, is reported. *)
Theorem equivocation_reported e h x s ops : stakes_ok (validators s) →
  let reports := all_reports (new e h x s) ops in
  Forall (λ r, supported (new e h x s) r ∧
    (Evidence.offender r ≠ zero32 → Evidence.is_actionable r = Ok ())) reports ∧
  NoDup (Evidence.offender <$> reports) ∧
  (∀ v1 v2, OpPrevote v1 ∈ ops → OpPrevote v2 ∈ ops → valid_prevote e h s v1 → valid_prevote e h s v2 →
    pv_voter_id v1 = pv_voter_id v2 → pv_checkpoint_hash v1 ≠ pv_checkpoint_hash v2 →
    pv_voter_id v1 ∈ Evidence.offender <$> reports) ∧
  (∀ ops1 ops2 v1 v2, ops = ops1 ++ ops2 → prevote_quorum_reached (run (new e h x s) ops1) = true →
    OpPrecommit v1 ∈ ops2 → OpPrecommit v2 ∈ ops2 → valid_precommit e h s v1 → valid_precommit e h s v2 →
    pc_voter_id v1 = pc_voter_id v2 → pc_checkpoint_hash v1 ≠ pc_checkpoint_hash v2 →
    pc_voter_id v1 ∈ Evidence.offender <$> reports).
Proof.
  intros Hst. cbn zeta. destruct (all_reports_ok e h x s ops Hst) as [Hsup Hnd Hfl].
  pose proof (mv_target _ _ (run_moves (new e h x s) ops)) as (Ht1&Ht2&Ht3&Ht4).
  split_and!; [|done|..].
  - eapply Forall_impl; [done|]. intros r Hr. split; [|by apply (supported_actionable _ _ Hr)].
    eapply supported_target; [|done]. done.
  - intros v1 v2 Hin1 Hin2 Hv1 Hv2 Hid Hne. apply Hfl.
    destruct (prevote_marked e h x s ops v1 Hin1 Hv1) as [|[g1 Hs1]]; [done|].
    destruct (prevote_marked e h x s ops v2 Hin2 Hv2) as [|[g2 Hs2]]; [by rewrite Hid|].
    rewrite Hid in Hs1. congruence.
  - intros ops1 ops2 v1 v2 -> Hq Hin1 Hin2 Hv1 Hv2 Hid Hne. apply Hfl.
    assert (run (new e h x s) (ops1 ++ ops2) = run (run (new e h x s) ops1) ops2) as ->
      by (unfold run; by rewrite foldl_app).
    pose proof (mv_target _ _ (run_moves (new e h x s) ops1)) as (He&Hh&_&Hs).
    destruct (precommit_marked _ ops2 v1 Hin1 Hq) as [|[g1 Hs1]]; [by rewrite He, Hh, Hs|done|].
    destruct (precommit_marked _ ops2 v2 Hin2 Hq) as [|[g2 Hs2]]; [by rewrite He, Hh, Hs|by rewrite Hid|].
    rewrite Hid in Hs1. congruence.
Qed.

End claims.
End FinalityClaims.

(** ** A concrete scheme and run

    Keys and signatures are elements of GF(2^8); signing multiplies the hash
    of the message by the key.  It has the laws of the interface and nothing
    of its security. *)
Module FinalityExamples.
Import ProgressLemmas FinalityClaims.

Definition g_hash (msg : bytes) : byte := byte_of_nat (Z.to_nat (sumZ msg mod 255 + 1)).

Definition g_compress (n : nat) (x : byte) : bytes :=
  Z.of_nat (byte_to_nat x) :: replicate n 0.

Definition g_decompress (b : bytes) : option byte :=
  match b with z :: _ => Some (byte_of_nat (Z.to_nat z)) | [] => None end.

#[local] Program Instance gf_scheme : Bls12381 := {|
  G1 := byte; G2 := byte; g1_zero := x00; g1_add := byte_xor; g2_zero := x00; g2_add := byte_xor;
  g1_from_compressed := g_decompress; g1_to_compressed := g_compress 47;
  g2_from_compressed := g_decompress;
  g1_torsion_free := λ _, true; g2_torsion_free := λ _, true;
  hash_to_g1 := g_hash; hash_pop_to_g1 := g_hash;
  pairing_check := λ s h p, bool_decide (s = Gf.gf_mul h p);
|}.
Next Obligation. intros x y. apply xor_comm. Qed.
Next Obligation. intros x y z. apply xor_assoc. Qed.
Next Obligation. intros x y. apply xor_comm. Qed.
Next Obligation. intros x y z. apply xor_assoc. Qed.
Next Obligation. apply xor_0_l. Qed.
Next Obligation. apply xor_0_l. Qed.
Next Obligation. done. Qed.
Next Obligation. intros x. unfold g_compress, g_decompress. by rewrite Nat2Z.id, byte_of_to_nat. Qed.
Next Obligation. intros h. simpl. by rewrite gf_mul_0_r, bool_decide_true. Qed.
Next Obligation.
  intros s s' h p p' Hs%bool_decide_eq_true Hs'%bool_decide_eq_true. apply bool_decide_eq_true.
  by rewrite Hs, Hs', gf_mul_xor_r.
Qed.

(** Four validators with a quarter of the stake each. *)
Definition key (i : nat) : byte := byte_of_nat (2 ^ i).

Definition validator (i : nat) : ValidatorEntry :=
  mkValidatorEntry (replicate 32 (Z.of_nat (S i))) 100 (g_compress 95 (key i)) [] [].

Definition four : ValidatorSetSnapshot :=
  mkValidatorSetSnapshot 3 (validator <$> seq 0 4) [7] 400.

Definition sign (msg : bytes) (i : nat) : bytes := g_compress 47 (Gf.gf_mul (g_hash msg) (key i)).

Definition prevote (hash : bytes) (i : nat) : Prevote :=
  let v := mkPrevote 3 10 hash (address (validator i)) [] in
  mkPrevote 3 10 hash (address (validator i)) (sign (prevote_signing_message v) i).

Definition precommit (hash : bytes) (i : nat) : Precommit :=
  mkPrecommit 3 10 hash (address (validator i)) (sign (checkpoint_signing_message 3 10 hash) i).

(** The certificate of the signers [who]. *)
Definition cert (hash : bytes) (who : list nat) : FinalityCert :=
  let msg := checkpoint_signing_message 3 10 hash in
  mkFinalityCert 3 10 hash
    (g_compress 47 (foldl byte_xor x00 ((λ i, Gf.gf_mul (g_hash msg) (key i)) <$> who)))
    (foldl set_bit [0] who) [7].

#[local] Instance stakes_ok_dec vs : Decision (stakes_ok vs).
Proof. unfold stakes_ok, u64. apply _. Defined.


(** One double vote, two quorums, and a read in between. *)
Definition prevote_ops : list AggOp :=
  [OpPrevote (prevote [170] 0); OpPrevote (prevote [187] 0); OpPrevote (prevote [170] 1);
   OpTake; OpPrevote (prevote [170] 2)].

Definition precommit_ops : list AggOp :=
  [OpPrecommit (precommit [187] 3); OpPrecommit (precommit [170] 1);
   OpPrecommit (precommit [170] 2); OpPrecommit (precommit [170] 3)].

Lemma four_ok : set_ok four.
Proof. split; refine (bool_decide_unpack _ _); vm_compute; exact I. Qed.

Lemma cert_produced_verifies_witness :
  ∃ c, try_produce_cert (run (new 3 10 [170] four) (prevote_ops ++ precommit_ops)) = Some c ∧
    pick (has_bit (bitmap c)) 0 (validators four) ≡ₚ
      voters_in_set four (map_to_list (precommits (run (new 3 10 [170] four) (prevote_ops ++ precommit_ops)))).*1 ∧
    cert_verify c four = Ok ().
Proof.
  pose proof (cert_produced_verifies 3 10 [170] four (prevote_ops ++ precommit_ops) four_ok eq_refl
    ltac:(lia)) as Hc. cbv zeta in Hc.
  assert (try_produce_cert (run (new 3 10 [170] four) (prevote_ops ++ precommit_ops)) =
    Some (cert [170] [1; 2; 3]%nat)) as Heq by (vm_compute; reflexivity).
  rewrite Heq in Hc. destruct Hc as (_&_&_&Hp&_). exists (cert [170] [1; 2; 3]%nat).
  split; [exact Heq|]. split; [exact Hp|]. vm_compute. reflexivity.
Defined.

(** Membership in, and validity of, the votes of the run. *)
#[local] Ltac vote i :=
  split; [repeat first [apply list_elem_of_here | apply list_elem_of_further]|];
  split; [|reflexivity]; split; [reflexivity|]; split; [reflexivity|];
  exists (validator i); split; vm_compute; reflexivity.

Lemma finality_live_witness :
  is_Some (try_produce_cert (run (new 3 10 [170] four) (prevote_ops ++ precommit_ops))).
Proof.
  apply (finality_live 3 10 [170] four prevote_ops precommit_ops
    (prevote [170] <$> [0; 1; 2]%nat) (precommit [170] <$> [1; 2; 3]%nat)).
  - apply four_ok.
  - constructor; [vote 0%nat|]. constructor; [vote 1%nat|]. constructor; [vote 2%nat|constructor].
  - refine (bool_decide_unpack _ _). vm_compute. exact I.
  - vm_compute. reflexivity.
  - constructor; [vote 1%nat|]. constructor; [vote 2%nat|]. constructor; [vote 3%nat|constructor].
  - refine (bool_decide_unpack _ _). vm_compute. exact I.
  - vm_compute. reflexivity.
Defined.

(** The double prevote of the first validator is handed out in the middle of
    the run, the double precommit of the last is pending at its end. *)
Lemma equivocation_reported_witness :
  let reports := all_reports (new 3 10 [170] four) (prevote_ops ++ precommit_ops) in
  Evidence.offender <$> reports = [address (validator 0); address (validator 3)] ∧
  Forall (λ r, Evidence.is_actionable r = Ok ()) reports.
Proof.
  cbv zeta. destruct (equivocation_reported 3 10 [170] four (prevote_ops ++ precommit_ops)
    (proj2 four_ok)) as (Hall&_).
  assert (Evidence.offender <$> all_reports (new 3 10 [170] four) (prevote_ops ++ precommit_ops) =
    [address (validator 0); address (validator 3)]) as Heq by (vm_compute; reflexivity).
  split; [exact Heq|]. rewrite Forall_forall in Hall. apply Forall_forall. intros r Hr.
  apply (Hall r Hr). apply (list_elem_of_fmap_2 Evidence.offender) in Hr. rewrite Heq in Hr.
  clear -Hr. intros Hz. rewrite Hz in Hr. revert Hr. refine (bool_decide_unpack _ _). vm_compute. exact I.
Defined.

End FinalityExamples.
